(* ===== verification/_CoqProject ===== *)
-Q . S2P
Prelude.v
Text.v
Libraries.v
VersionTypes.v
VersionSmall.v
Version.v
VersionOrder.v
VersionCacheKey.v
VersionParser.v
VersionParserFacts.v
VersionDisplay.v
VersionSpecifier.v
VersionRanges.v
VersionRangesFacts.v
VersionBump.v
VersionCanonical.v
ReleaseRanges.v
SpecifierParser.v
SpecifierFacts.v
SpecifierBounds.v
Normalize.v
Examples.v
PropertiesVersion.v
PropertiesSpecifier.v
PropertiesNormalize.v
LanguageTag.v
AbiTag.v
Platform.v
PlatformTag.v
Tags.v
EnvTags.v
WheelFilename.v
WheelFacts.v
SourceDist.v
Ranges.v
RangesSegments.v
MarkerTypes.v
Interner.v
EdgesOrder.v
MarkerAlgebra.v
MarkerRestrict.v
Isop.v
PythonVersion.v
MarkerTree.v
MarkerEval.v
InternerFacts.v
EdgesFacts.v
Canonical.v
AlgebraFacts.v
ExclusionFacts.v
ExpressionFacts.v
RestrictFacts.v
AssumptionFacts.v
PythonFacts.v
SubstitutionFacts.v
TreeFacts.v
IsopFacts.v
CoverFacts.v
Dnf.v
MarkerApi.v
RequiresPython.v
RequiresPythonFacts.v
DnfFacts.v
OnceMap.v
OnceMapFacts.v
OnceMapSystem.v
OnceMapLive.v
Cursor.v
MarkerParser.v
MarkerParserFacts.v
MarkerSyntax.v
MarkerMeaning.v
MarkerGrammar.v
DnfText.v
PropertiesTags.v
PropertiesMarkers.v
PropertiesOnceMap.v
PropertiesParser.v
PropertiesPython.v
PropertiesCovers.v
