(* ===== verification/Prelude.v ===== *)
(** * uv: versions, names, tags, file names, markers, supported Pythons and the once-map

    A model of the part of uv that decides which distribution of a package fits: versions and
    version specifiers ([crates/uv-pep440]), names ([crates/uv-normalize]), the tags of wheels and
    interpreters ([crates/uv-platform-tags]), the file names of distributions
    ([crates/uv-distribution-filename]), environment markers ([crates/uv-pep508]) and the supported
    Python versions ([requires_python.rs] of [crates/uv-distribution-types]); and the map that the
    resolver shares its work through ([crates/uv-once-map]).

    ** The parts and how they interact

    A version is parsed from text, kept in a packed 64-bit word when it is small or in full
    otherwise, compared, printed and bumped. A specifier pairs an operator with a version; lists of
    specifiers are matched against a version, or converted to ranges for the resolver, which marks
    the ends of ranges with sentinel versions. Names are normalised. The name of a wheel is split at
    its dashes into a normalised name, a version and tags; the tags are looked up in the map of
    priorities that is computed from the interpreter. A marker is a condition on the environment and
    the extras; markers are nodes of decision diagrams in one shared table, which conjunction,
    evaluation, restriction and the resolution of extras work on. The edges of a node are ranges of
    versions, from specifiers, or ranges of strings. The marker parser moves a cursor over the text,
    and combines the markers of its expressions in the table. The supported Python versions of a
    project are specifiers with their bounds; they are narrowed and split, become a marker, decide
    which wheels are of use, and simplify markers for the lock file. The once-map stands apart: concurrent
    tasks register a key, one of them does the work, and the others wait for its value.

    ** Files

    - [Prelude], [Text], [Libraries]: the shared notation, automation and
      lemmas; results and their bind ([let?]); comparison functions with their laws; stable
      sorting; strings as lists of bytes and the functions of the standard library on them; the
      crates [memchr], [bitflags] and Unicode lower case as classes.
    - [VersionTypes], [VersionSmall], [Version]: [version.rs], the data, the packed word, and the
      constructors, accessors and setters on both representations.
    - [VersionOrder], [VersionCacheKey]: order, equality, hash and cache keys.
    - [VersionParser], [VersionParserFacts], [VersionDisplay]: the parser, its fast
      path, and printing.
    - [VersionSpecifier], [SpecifierParser], [SpecifierFacts],
      [SpecifierBounds]: [version_specifier.rs].
    - [VersionRanges], [VersionRangesFacts], [VersionBump],
      [VersionCanonical], [ReleaseRanges]: [version_ranges.rs]; the crate [version-ranges] is a class of
      operations with laws and an instance.
    - [Normalize]: [uv-normalize].
    - [LanguageTag], [AbiTag], [Platform], [PlatformTag]:
      [language_tag.rs], [abi_tag.rs], [platform.rs], [libc_version.rs] and [platform_tag.rs].
    - [Tags], [EnvTags]: [tags.rs]; [EnvTags.supported] specifies the tags of an
      interpreter.
    - [WheelFilename], [WheelFacts], [SourceDist]: all of
      [uv-distribution-filename], with the digests of [uv-cache-key] that cache keys use.
    - [Ranges], [RangesSegments]: the interface to the crate [version-ranges] over any ordered type,
      and an instance by lists of segments.
    - [MarkerTypes], [Interner], [MarkerAlgebra], [MarkerRestrict]: [lowering.rs], the
      data of [tree.rs], and [algebra.rs]: variables, node ids and edges; the edges of expressions;
      the table with its caches as a state monad; conjunction, disjointness, expressions and known
      incompatibilities; restriction, and removal and substitution of extras.
    - [EdgesOrder]: the edges of a decision are segments in order that cover the line.
    - [Isop]: [algebra/isop.rs], the extraction of a sum of products from a decision diagram.
    - [Dnf]: [simplify.rs], the normal form of a cover, with the [Display] implementations of [tree.rs]
      and the extra that a marker requires.
    - [MarkerTree]: [environment.rs] and the operations of [MarkerTree] in [tree.rs].
    - [MarkerEval], [PythonVersion]: the value of a node under a valuation and the well-formedness of
      the table; the meaning of comparisons of [python_version].
    - [InternerFacts], [EdgesFacts], [AlgebraFacts], [ExclusionFacts], [ExpressionFacts],
      [RestrictFacts], [AssumptionFacts], [PythonFacts], [SubstitutionFacts], [TreeFacts]: one group
      of operations each, with the theorem that it runs to its specification from any well-formed
      state.
    - [Canonical], [IsopFacts], [CoverFacts]: references are canonical; the cofactors and guards of
      [Isop], and the covers it returns.
    - [DnfFacts], [DnfText]: normal forms have the value of their cover; their text is in the grammar.
    - [MarkerApi]: sequences of calls on the shared table as a step relation, and
      concrete states.
    - [RequiresPython], [RequiresPythonFacts]: [requires_python.rs], over the modules above.
    - [Cursor], [MarkerParser]: [cursor.rs], and [parse.rs] over any algebra of trees.
    - [MarkerParserFacts], [MarkerSyntax], [MarkerMeaning], [MarkerGrammar]: the
      parser reads any text; run in the algebra of syntax it specifies the run in the table; the
      grammar of markers with its denotation, and every text of it is parsed.
    - [OnceMap], [OnceMapFacts], [OnceMapSystem], [OnceMapLive]: [uv-once-map], as
      interleavings of the atomic steps of its calls; the invariant, the abstract jobs it refines, fair
      executions, and what a removal during a wait does.
    - [Examples]: inputs from the unit tests of the repository, evaluated.
    - [PropertiesVersion], [PropertiesSpecifier], [PropertiesNormalize], [PropertiesTags],
      [PropertiesMarkers], [PropertiesOnceMap], [PropertiesParser], [PropertiesPython],
      [PropertiesCovers]: the theorems, each with a witness where it has hypotheses.

    A definition has the name of the function or type it models, with the name of its type in front
    where several types have a method of that name ([wheel_display] is the [Display] of
    [WheelFilename]).

    ** How code is modelled

    Strings are lists of bytes, integers are [Z] with the wrap-around or the range check of their
    width written out ([u64] arithmetic of the release profile wraps; a [u32] priority is checked).
    [Result] is [result]. A panic is [None], or [Panicked] in the type of parser outcomes. The loops
    of the version parser run on fuel, one more than the number of bytes left, and each turn
    consumes a byte; the fuel is shown to suffice (the loops never end for lack of it). Printing a
    [u64] uses 20 digits at most, and the splitter of wheel tags as many turns as there are
    delimiters and two more. A [FxHashMap] is a [gmap]. The table of markers and its caches are the
    state of a monad whose computations panic or return. A child of a node is older than the node, so
    the recursions on nodes run on the sum of the positions of the operands ([node_rank]) and one
    more; restriction, which may swap its operands, on twice the length of the table, and the search
    for extras on its length and two more. The theorems on markers state that the operations return,
    so the fuel is enough. The extraction of covers decides a variable per call, and runs on the number
    of nodes. A valuation gives each variable a point: a value, or a point next to it that ranges tell
    apart; the valuation of an environment has values. The marker parser descends into parentheses and
    loops over operands at most once more than there are characters left, and the loop over a list of versions likewise; the text
    is a list of characters, and positions are in bytes of UTF-8. A call on the once-map is a
    sequence of steps, each one operation on the concurrent map, on a notification or on a cell; a
    step of the system is a step of one task.

    Code of other crates is an argument: a class of operations with the laws its documentation
    states ([version-ranges], [unscanny], [memchr], [bitflags], the hash and the hexadecimal digits
    of cache keys, Unicode lower case and alphabetic characters; the ranges of versions and strings of
    markers; the concurrent map [papaya] and the [Notify] of [tokio]). Each class has an instance that
    satisfies the laws, and the witnesses use it.

    ** What the theorems show

    - Versions: the setters of the packed representation do what the setters of the full one do;
      comparing packed words agrees with comparing components, which is the order of PEP 440; the
      parser does not panic on any bytes, its fast path makes no difference, and printed versions
      are read back; bumping moves forward; equal versions hash alike; cache keys are injective.
    - Specifiers: a version is matched by a specifier if and only if it is in the range of the
      specifier, and likewise for lists and for release-only ranges; canonicalising sentinels keeps
      the members and is final; parsing does not panic; printed lists are read back; sorting keeps
      the meaning; truncated bounds exclude nothing they should not, except for the recorded gap.
    - Names: normalisation accepts and yields what it should, and is idempotent.
    - Tags: the tags of an interpreter are exactly the supported ones, without repetition, with
      priorities in their order and without a panic; the compatibility of a wheel is its best
      priority, and the quick test agrees with it; tags are read back and well typed.
    - File names: names of wheels and source distributions are read back; the parser of wheels does
      not panic and rejects a wrong number of components with the reason; the hint makes no
      difference; cache keys have at most 64 bytes.
    - Markers: after any sequence of calls the table is well-formed, and any further call returns, except
      that the calls that extract a cover ([to_dnf], [try_to_string], [top_level_extra_name]) can panic;
      the connectives evaluate as they should, and an expression evaluates to what it says of the
      environment, with two exceptions ([patch_constant]): comparisons of [python_version] by [!=] with a
      star below the minor version, and with lists in which a version has a patch number, are false.
      An environment has released versions and is allowed by the known exclusions; a marker evaluates
      there if its variables have values. Disjoint and unreachable markers are so; restriction agrees where the assumption
      holds; removing, simplifying, resolving and bounding extras mean what they say. The edges of every
      node are a partition of the line into segments in order, which simplification to a range of
      Python versions depends on. Markers with the same value at every point are the same reference.
    - Covers: a cover that is extracted from a marker holds where the marker does, in every
      environment; it is returned for every marker with one platform variable at most; and there is a
      marker with several for which the extraction panics, as recorded.
    - Normal forms: the clauses of a plain cover hold where the marker does; what is printed for a marker
      is read back to a marker of the same value, which composes the cover, the normal form, the
      printer, the grammar and the parser; there are a range and a string that are not printed as they
      should, as recorded; the extra that is found in a marker is required by it.
    - Supported versions: however they are made of specifiers of releases, the bounds bound what the
      specifiers admit, which fails for [>3.13.0rc1], as recorded;
      intersection, split and narrowing admit the versions they should; the marker holds for the
      versions within the bounds; a marker that is simplified and restored is the marker on the
      supported versions; and a wheel that an interpreter of a supported version accepts is kept,
      which composes the tags of interpreters, the wheels and the truncation of bounds.
    - The marker parser: any text is read to its end or to an error within it, without a panic, in
      building the trees too; the tree has the value of the syntax that was read; every text of the grammar is accepted, with the
      value that it denotes.
    - The once-map: no call panics, and a value that is returned was submitted for its key; one call is
      told to start each job; the system refines a table of jobs; in a fair execution every call whose
      job is completed returns; a shared removal breaks this, as recorded.

    ** What is not modelled

    Texts of errors and warnings, the printing of ranges and of the list of all tags, serialisation,
    and [Hash] of tags. Of markers: the order of trees, which compares the ranges of edges by the order
    of the crate [version-ranges]; locks and the concurrent table are the sequence of calls they
    serialise. Of the other crates: the resolver, the lock file, the client, builds and the command
    line are I/O and orchestration around libraries. Pure logic that is left out: requirement strings
    ([uv-pep508], on top of a URL library), the cache policy of HTTP ([uv-client]), and the parsers of
    requirements files and netrc. *)

From stdpp Require Import base list option numbers decidable strings sorting.
From Stdlib Require Import ZArith Lia Ascii.

Declare Scope uv_scope.
Delimit Scope uv_scope with uv.

Create HintDb uv.
Create HintDb uvbits.

Local Open Scope Z_scope.

(** ** Machine integers *)

Definition U8_MAX : Z := 255.
Definition U16_MAX : Z := 65535.
Definition U64_MAX : Z := 18446744073709551615.

Definition is_u8 (x : Z) : Prop := 0 <= x <= U8_MAX.
Definition is_u64 (x : Z) : Prop := 0 <= x <= U64_MAX.

(** [u64] addition of the release profile: it wraps around. *)
Definition u64_wrapping_add (x y : Z) : Z := (x + y) mod 2 ^ 64.

(** [!x] on [u64]. *)
Definition u64_not (x : Z) : Z := U64_MAX - x.

Definition u8_wrapping_sub (x y : Z) : Z := (x - y) mod 2 ^ 8.
Definition u8_checked_sub (x y : Z) : option Z :=
  if y <=? x then Some (x - y) else None.
Definition u8_checked_mul (x y : Z) : option Z :=
  if x * y <=? U8_MAX then Some (x * y) else None.
Definition u8_checked_add (x y : Z) : option Z :=
  if x + y <=? U8_MAX then Some (x + y) else None.
Definition u64_checked_mul (x y : Z) : option Z :=
  if x * y <=? U64_MAX then Some (x * y) else None.
Definition u64_checked_add (x y : Z) : option Z :=
  if x + y <=? U64_MAX then Some (x + y) else None.

(** ** Tactics *)

(** Reduce every boolean test on [Z] and [nat] in the context to a proposition. *)
Ltac zbool :=
  repeat match goal with
  | H : (_ <=? _) = true |- _ => apply Z.leb_le in H
  | H : (_ <=? _) = false |- _ => apply Z.leb_gt in H
  | H : (_ <? _) = true |- _ => apply Z.ltb_lt in H
  | H : (_ <? _) = false |- _ => apply Z.ltb_ge in H
  | H : (_ =? _) = true |- _ => apply Z.eqb_eq in H
  | H : (_ =? _) = false |- _ => apply Z.eqb_neq in H
  | H : (_ && _)%bool = true |- _ => apply andb_true_iff in H as [? ?]
  | H : (_ || _)%bool = false |- _ => apply orb_false_iff in H as [? ?]
  | H : negb _ = true |- _ => apply negb_true_iff in H
  | H : negb _ = false |- _ => apply negb_false_iff in H
  end.

(** Arithmetic with division and remainder by constants. *)
Ltac zdivmod := Z.div_mod_to_equations; lia.

(** Case analysis on every [if] and [match] scrutinee of the goal. *)
Ltac cases := repeat case_match; simplify_eq/=; try done.

(** Decide the comparison in an [if] or [match] of the goal by arithmetic. *)
Ltac zif :=
  match goal with
  | |- context [?a <=? ?b] => destruct (Z.leb_spec a b)
  | |- context [?a <? ?b] => destruct (Z.ltb_spec a b)
  | |- context [?a =? ?b] => destruct (Z.eqb_spec a b)
  end; try lia.

(** ** Bit fields of a word *)

(** The bits [i, i+w) of [x]. *)
Definition bitfield (x i w : Z) : Z := (x / 2 ^ i) mod 2 ^ w.

Lemma testbit_small x w j : 0 <= x < 2 ^ w -> w <= j -> Z.testbit x j = false.
Proof.
  intros Hx Hj. destruct (Z.eq_dec x 0) as [->|]; [apply Z.bits_0|].
  apply Z.bits_above_log2; [lia|].
  apply Z.log2_lt_pow2; [lia|].
  assert (2 ^ w <= 2 ^ j) by (apply Z.pow_le_mono_r; lia). lia.
Qed.

Lemma land_shiftr_ones x i w :
  0 <= i -> 0 <= w -> Z.land (Z.shiftr x i) (Z.ones w) = bitfield x i w.
Proof.
  intros. unfold bitfield. rewrite Z.land_ones, Z.shiftr_div_pow2 by lia. done.
Qed.

(** Clearing the bits of a mask subtracts the bits selected by the mask. *)
Lemma land_not_sub x m :
  is_u64 x -> is_u64 m -> Z.land x (u64_not m) = x - Z.land x m.
Proof.
  unfold is_u64, u64_not. intros Hx Hm.
  assert (HU : U64_MAX = Z.ones 64) by done. rewrite HU.
  assert (Z.ldiff m (Z.ones 64) = 0) as Hz.
  { apply Z.bits_inj'. intros j Hj. rewrite Z.ldiff_spec, Z.bits_0.
    destruct (Z.ltb_spec j 64).
    - rewrite Z.ones_spec_low by lia. by rewrite andb_false_r.
    - rewrite (testbit_small m 64) by (unfold U64_MAX in *; lia). done. }
  rewrite (Z.sub_nocarry_ldiff (Z.ones 64) m) by exact Hz.
  assert (Z.ldiff (Z.land x m) x = 0) as Hz2.
  { apply Z.bits_inj'. intros j Hj. rewrite Z.ldiff_spec, Z.land_spec, Z.bits_0.
    by destruct (Z.testbit x j), (Z.testbit m j). }
  rewrite (Z.sub_nocarry_ldiff x (Z.land x m)) by exact Hz2.
  apply Z.bits_inj'. intros j Hj.
  rewrite Z.land_spec, !Z.ldiff_spec, Z.land_spec.
  destruct (Z.ltb_spec j 64).
  - rewrite Z.ones_spec_low by lia. by destruct (Z.testbit x j), (Z.testbit m j).
  - rewrite (testbit_small x 64) by (unfold U64_MAX in *; lia). done.
Qed.

Lemma land_shiftl_ones x i w :
  0 <= i -> 0 <= w ->
  Z.land x (Z.shiftl (Z.ones w) i) = bitfield x i w * 2 ^ i.
Proof.
  intros Hi Hw. rewrite <- land_shiftr_ones by lia.
  rewrite <- Z.shiftl_mul_pow2 by lia.
  apply Z.bits_inj'. intros j Hj.
  rewrite Z.land_spec, !Z.shiftl_spec, Z.land_spec by lia.
  destruct (Z.ltb_spec j i).
  - rewrite !(Z.testbit_neg_r _ (j - i)) by lia. by rewrite andb_false_r.
  - rewrite Z.shiftr_spec by lia. by replace (j - i + i) with j by lia.
Qed.

(** Or-ing a value into a field that is clear adds it. *)
Lemma lor_clear_field x k i w :
  0 <= i -> 0 <= w -> 0 <= k < 2 ^ w -> bitfield x i w = 0 ->
  Z.lor x (Z.shiftl k i) = x + k * 2 ^ i.
Proof.
  intros Hi Hw Hk Hf. rewrite <- (Z.shiftl_mul_pow2 k i) by lia.
  symmetry. apply Z.add_nocarry_lor.
  apply Z.bits_inj'. intros j Hj.
  rewrite Z.land_spec, Z.shiftl_spec, Z.bits_0 by lia.
  destruct (Z.ltb_spec j i); [rewrite (Z.testbit_neg_r k) by lia; apply andb_false_r|].
  destruct (Z.ltb_spec (j - i) w).
  - assert (Z.testbit (bitfield x i w) (j - i) = false) as Hb
      by (rewrite Hf; apply Z.bits_0).
    unfold bitfield in Hb. rewrite Z.mod_pow2_bits_low in Hb by lia.
    rewrite <- Z.shiftr_div_pow2, Z.shiftr_spec in Hb by lia.
    replace (j - i + i) with j in Hb by lia. by rewrite Hb.
  - rewrite (testbit_small k w) by lia. apply andb_false_r.
Qed.

(** ** Orderings *)

(** [Ordering::then_with]. *)
Definition then_with (c d : comparison) : comparison :=
  match c with Eq => d | _ => c end.

(** What [Ord::cmp] promises: a total preorder, whose equivalence is [Eq]. *)
Class OrdLaws {A : Type} (cmp : A -> A -> comparison) : Prop := {
  cmp_refl : forall x, cmp x x = Eq;
  cmp_opp : forall x y, cmp y x = CompOpp (cmp x y);
  cmp_eq_l : forall x y z, cmp x y = Eq -> cmp x z = cmp y z;
  cmp_lt_trans : forall x y z, cmp x y = Lt -> cmp y z = Lt -> cmp x z = Lt
}.

Arguments cmp_refl {A} cmp {_} x.
Arguments cmp_opp {A} cmp {_} x y.
Arguments cmp_eq_l {A} cmp {_} x y z _.
Arguments cmp_lt_trans {A} cmp {_} x y z _ _.

(** An order whose equivalence is equality of values. *)
Class OrdExact {A : Type} (cmp : A -> A -> comparison) : Prop :=
  cmp_exact : forall x y, cmp x y = Eq -> x = y.
Arguments cmp_exact {A} cmp {_} x y _.

Section ord_facts.
Context {A : Type} (cmp : A -> A -> comparison) `{!OrdLaws cmp}.

Lemma cmp_eq_r x y z : cmp x y = Eq -> cmp z x = cmp z y.
Proof.
  intros H. rewrite (cmp_opp cmp x z), (cmp_opp cmp y z). f_equal. by apply (cmp_eq_l cmp).
Qed.

Lemma cmp_eq_sym x y : cmp x y = Eq -> cmp y x = Eq.
Proof. intros H. by rewrite (cmp_opp cmp x y), H. Qed.

Lemma cmp_gt_lt x y : cmp x y = Gt <-> cmp y x = Lt.
Proof. rewrite (cmp_opp cmp x y). by destruct (cmp x y). Qed.

Lemma cmp_le_trans x y z : cmp x y <> Gt -> cmp y z <> Gt -> cmp x z <> Gt.
Proof.
  intros H1 H2. destruct (cmp x y) eqn:Hxy; [..|done].
  - by rewrite (cmp_eq_l cmp _ _ _ Hxy).
  - destruct (cmp y z) eqn:Hyz; [..|done].
    + by rewrite <- (cmp_eq_r _ _ _ Hyz), Hxy.
    + by rewrite (cmp_lt_trans cmp _ _ _ Hxy Hyz).
Qed.

Lemma cmp_lt_le_trans x y z : cmp x y = Lt -> cmp y z <> Gt -> cmp x z = Lt.
Proof.
  intros H1 H2. destruct (cmp y z) eqn:Hyz; [..|done].
  - by rewrite <- (cmp_eq_r _ _ _ Hyz), H1.
  - by eapply (cmp_lt_trans cmp).
Qed.

Lemma cmp_le_lt_trans x y z : cmp x y <> Gt -> cmp y z = Lt -> cmp x z = Lt.
Proof.
  intros H1 H2. destruct (cmp x y) eqn:Hxy; [..|done].
  - by rewrite (cmp_eq_l cmp _ _ _ Hxy).
  - by eapply (cmp_lt_trans cmp).
Qed.

End ord_facts.

#[export] Instance ord_Z : OrdLaws Z.compare.
Proof.
  split.
  - apply Z.compare_refl.
  - apply Z.compare_antisym.
  - intros x y z ->%Z.compare_eq_iff. done.
  - intros x y z. rewrite !Z.compare_lt_iff. lia.
Qed.

#[export] Instance ord_exact_Z : OrdExact Z.compare.
Proof. intros x y. apply Z.compare_eq_iff. Qed.

(** The order induced by a key. *)
Definition cmp_on {A B : Type} (f : A -> B) (cmp : B -> B -> comparison) (x y : A) :
  comparison := cmp (f x) (f y).

#[export] Instance ord_on {A B} (f : A -> B) cmp `{!OrdLaws cmp} : OrdLaws (cmp_on f cmp).
Proof.
  unfold cmp_on. split; intros.
  - apply (cmp_refl cmp).
  - apply (cmp_opp cmp).
  - by apply (cmp_eq_l cmp).
  - by eapply (cmp_lt_trans cmp).
Qed.

(** Derived [Ord] of tuples: lexicographic. *)
Definition cmp_pair {A B : Type} (ca : A -> A -> comparison) (cb : B -> B -> comparison)
  (x y : A * B) : comparison := then_with (ca x.1 y.1) (cb x.2 y.2).

#[export] Instance ord_pair {A B} (ca : A -> A -> comparison) (cb : B -> B -> comparison)
  `{!OrdLaws ca, !OrdLaws cb} : OrdLaws (cmp_pair ca cb).
Proof.
  unfold cmp_pair. split; intros.
  - by rewrite (cmp_refl ca), (cmp_refl cb).
  - rewrite (cmp_opp ca x.1 y.1), (cmp_opp cb x.2 y.2). by destruct (ca x.1 y.1).
  - destruct (ca x.1 y.1) eqn:E1; [|done..]. simpl in *.
    rewrite (cmp_eq_l ca _ _ z.1 E1), (cmp_eq_l cb _ _ z.2 H). done.
  - destruct (ca x.1 y.1) eqn:E1, (ca y.1 z.1) eqn:E2; simpl in *; try done.
    + rewrite (cmp_eq_l ca _ _ _ E1), E2. simpl. by eapply (cmp_lt_trans cb).
    + by rewrite (cmp_eq_l ca _ _ _ E1), E2.
    + by rewrite <- (cmp_eq_r ca _ _ _ E2), E1.
    + by rewrite (cmp_lt_trans ca _ _ _ E1 E2).
Qed.

#[export] Instance ord_exact_pair {A B} (ca : A -> A -> comparison)
  (cb : B -> B -> comparison) `{!OrdExact ca, !OrdExact cb} : OrdExact (cmp_pair ca cb).
Proof.
  intros [a b] [a' b']. unfold cmp_pair. simpl.
  destruct (ca a a') eqn:E; [|done..]. simpl. intros H.
  apply (cmp_exact ca) in E as ->. by apply (cmp_exact cb) in H as ->.
Qed.

(** Derived [Ord] of [Option]: [None] first. *)
Definition cmp_option {A : Type} (ca : A -> A -> comparison) (x y : option A) : comparison :=
  match x, y with
  | None, None => Eq
  | None, Some _ => Lt
  | Some _, None => Gt
  | Some a, Some b => ca a b
  end.

#[export] Instance ord_option {A} (ca : A -> A -> comparison) `{!OrdLaws ca} :
  OrdLaws (cmp_option ca).
Proof.
  split.
  - intros [a|]; simpl; [apply (cmp_refl ca)|done].
  - intros [a|] [b|]; simpl; [apply (cmp_opp ca)|done..].
  - intros [a|] [b|] [c|]; simpl; try done. apply (cmp_eq_l ca).
  - intros [a|] [b|] [c|]; simpl; try done. apply (cmp_lt_trans ca).
Qed.

#[export] Instance ord_exact_option {A} (ca : A -> A -> comparison) `{!OrdExact ca} :
  OrdExact (cmp_option ca).
Proof. intros [a|] [b|]; simpl; [|done..]. by intros ->%(cmp_exact ca). Qed.

(** [Ord] of slices, vectors and strings: lexicographic, a prefix is smaller. *)
Fixpoint cmp_list {A : Type} (ca : A -> A -> comparison) (x y : list A) : comparison :=
  match x, y with
  | [], [] => Eq
  | [], _ :: _ => Lt
  | _ :: _, [] => Gt
  | a :: x', b :: y' => then_with (ca a b) (cmp_list ca x' y')
  end.

#[export] Instance ord_list {A} (ca : A -> A -> comparison) `{!OrdLaws ca} :
  OrdLaws (cmp_list ca).
Proof.
  split.
  - induction x; simpl; [done|]. by rewrite (cmp_refl ca).
  - induction x as [|a x IH]; intros [|b y]; simpl; try done.
    rewrite (cmp_opp ca a b), IH. by destruct (ca a b).
  - induction x as [|a x IH]; intros [|b y] [|c z]; simpl; try done.
    destruct (ca a b) eqn:E; [|done..]. simpl. intros H.
    rewrite (cmp_eq_l ca _ _ c E). by erewrite IH.
  - induction x as [|a x IH]; intros [|b y] [|c z]; simpl; try done.
    destruct (ca a b) eqn:E1, (ca b c) eqn:E2; simpl; try done; intros H1 H2.
    + rewrite (cmp_eq_l ca _ _ _ E1), E2. simpl. by eapply IH.
    + by rewrite (cmp_eq_l ca _ _ _ E1), E2.
    + by rewrite <- (cmp_eq_r ca _ _ _ E2), E1.
    + by rewrite (cmp_lt_trans ca _ _ _ E1 E2).
Qed.

#[export] Instance ord_exact_list {A} (ca : A -> A -> comparison) `{!OrdExact ca} :
  OrdExact (cmp_list ca).
Proof.
  intros x. induction x as [|a x IH]; intros [|b y]; simpl; try done.
  destruct (ca a b) eqn:E; [|done..]. simpl. intros H.
  apply (cmp_exact ca) in E as ->. by rewrite (IH y).
Qed.

(** ** Bytes and strings *)

(** A string is its list of (UTF-8) bytes; a byte is an integer in [0, 256). *)
Definition byte_of_ascii (c : ascii) : Z := Z.of_N (N_of_ascii c).
Fixpoint bytes (s : string) : list Z :=
  match s with
  | EmptyString => []
  | String c s' => byte_of_ascii c :: bytes s'
  end.

Definition is_ascii_digit (b : Z) : bool := (48 <=? b) && (b <=? 57).
Definition is_ascii_uppercase (b : Z) : bool := (65 <=? b) && (b <=? 90).
Definition is_ascii_lowercase (b : Z) : bool := (97 <=? b) && (b <=? 122).
Definition is_ascii_alphanumeric (b : Z) : bool :=
  is_ascii_digit b || is_ascii_uppercase b || is_ascii_lowercase b.
(** Space, tab, line feed, form feed and carriage return. *)
Definition is_ascii_whitespace (b : Z) : bool :=
  (b =? 32) || (b =? 9) || (b =? 10) || (b =? 12) || (b =? 13).
Definition to_ascii_lowercase (b : Z) : Z := if is_ascii_uppercase b then b + 32 else b.
Definition to_ascii_uppercase (b : Z) : Z := if is_ascii_lowercase b then b - 32 else b.
Definition eq_ignore_ascii_case (b c : Z) : bool :=
  to_ascii_lowercase b =? to_ascii_lowercase c.

(** ** Results *)

Inductive result (A E : Type) : Type :=
| Ok (a : A)
| Err (e : E).
Arguments Ok {A E} a.
Arguments Err {A E} e.

Definition result_bind {A B E : Type} (r : result A E) (f : A -> result B E) : result B E :=
  match r with
  | Ok a => f a
  | Err e => Err e
  end.

Notation "'let?' x ':=' r 'in' k" := (result_bind r (fun x => k))
  (at level 200, x pattern, r at level 100, k at level 200) : uv_scope.

(** [Result::map_err]. *)
Definition map_err {A E F : Type} (f : E -> F) (r : result A E) : result A F :=
  match r with
  | Ok a => Ok a
  | Err e => Err (f e)
  end.

(** [Option::ok_or]. *)
Definition ok_or {A E : Type} (o : option A) (e : E) : result A E :=
  match o with
  | Some a => Ok a
  | None => Err e
  end.

Lemma result_bind_Ok {A B E} (r : result A E) (f : A -> result B E) b :
  result_bind r f = Ok b -> exists a, r = Ok a /\ f a = Ok b.
Proof. destruct r as [a|e]; [|done]. intros H. by exists a. Qed.

Lemma ok_or_Ok {A E} (o : option A) (e : E) a : ok_or o e = Ok a -> o = Some a.
Proof. destruct o; [|done]. by intros [= ->]. Qed.

Lemma map_err_Ok {A E F} (f : E -> F) (r : result A E) a : map_err f r = Ok a -> r = Ok a.
Proof. destruct r; [|done]. by intros [= ->]. Qed.

(** The successful results a successful result was computed from. *)
Ltac result_inv H :=
  repeat (apply result_bind_Ok in H as (? & ? & H)).

(** ** Lists *)

(** [Iterator::skip_while]. *)
Fixpoint skip_while {A : Type} (p : A -> bool) (l : list A) : list A :=
  match l with
  | [] => []
  | x :: l' => if p x then skip_while p l' else l
  end.

(** The longest prefix whose elements satisfy [p]. *)
Fixpoint take_while {A : Type} (p : A -> bool) (l : list A) : list A :=
  match l with
  | [] => []
  | x :: l' => if p x then x :: take_while p l' else []
  end.

Lemma take_skip_while {A : Type} (p : A -> bool) l : take_while p l ++ skip_while p l = l.
Proof. induction l as [|x l IH]; cbn; [done|]. destruct (p x); cbn; [by rewrite IH|done]. Qed.

(** [Iterator::rposition]: the index of the last element that satisfies [p]. *)
Fixpoint rposition {A : Type} (p : A -> bool) (l : list A) : option nat :=
  match l with
  | [] => None
  | x :: l' =>
      match rposition p l' with
      | Some i => Some (S i)
      | None => if p x then Some O else None
      end
  end.

(** A list without its trailing zeros. *)
Fixpoint strip_zeros (l : list Z) : list Z :=
  match l with
  | [] => []
  | x :: l' =>
      match strip_zeros l' with
      | [] => if x =? 0 then [] else [x]
      | y :: l'' => x :: y :: l''
      end
  end.

Lemma strip_zeros_snoc_0 l : strip_zeros (l ++ [0]) = strip_zeros l.
Proof. induction l as [|x l IH]; simpl; [done|]. by rewrite IH. Qed.

Lemma strip_zeros_snoc l x : x <> 0 -> strip_zeros (l ++ [x]) = l ++ [x].
Proof.
  intros Hx. induction l as [|y l IH]; simpl.
  - by destruct (Z.eqb_spec x 0).
  - rewrite IH. by destruct l.
Qed.

(** A list is its stripped form followed by zeros. *)
Lemma strip_zeros_spec l : exists k, l = strip_zeros l ++ replicate k 0.
Proof.
  induction l as [|x l [k IH]]; simpl; [by exists O|].
  destruct (strip_zeros l) as [|y l'].
  - destruct (Z.eqb_spec x 0) as [->|]; [exists (S k)|exists k]; simpl in *; congruence.
  - exists k. simpl in *. congruence.
Qed.

Lemma strip_zeros_app_zeros l k : strip_zeros (l ++ replicate k 0) = strip_zeros l.
Proof.
  induction l as [|x l IH]; simpl; [|by rewrite IH].
  induction k as [|k IH]; simpl; [done|]. by rewrite IH.
Qed.

(** Popping zeros from the end is skipping them from the start of the reversed list. *)
Lemma rev_strip_zeros l : skip_while (fun x => x =? 0) (rev l) = rev (strip_zeros l).
Proof.
  induction l as [|x l IH] using rev_ind; [done|].
  rewrite rev_app_distr. cbn [rev app skip_while].
  destruct (Z.eqb_spec x 0) as [->|].
  - by rewrite strip_zeros_snoc_0.
  - rewrite strip_zeros_snoc by done. by rewrite rev_app_distr.
Qed.

Lemma strip_zeros_Forall (P : Z -> Prop) l : Forall P l -> Forall P (strip_zeros l).
Proof.
  intros H. destruct (strip_zeros_spec l) as [k E]. rewrite E in H.
  by apply Forall_app in H as [? _].
Qed.

(** ** Bounds *)

(** [std::ops::Bound]. *)
Inductive bound_of (T : Type) : Type :=
| Included (v : T)
| Excluded (v : T)
| Unbounded.
Arguments Included {T} v.
Arguments Excluded {T} v.
Arguments Unbounded {T}.

(** * Sorting by a comparison

    The sorts of the standard library's slices, which the lists of specifiers and of group names
    go through: a sorted list is a permutation, in order, and unique for its elements. *)

(** [slice::sort_by]: a stable sort. *)
Fixpoint insert_by {A : Type} (cmp : A -> A -> comparison) (x : A) (l : list A) : list A :=
  match l with
  | [] => [x]
  | y :: l' =>
      match cmp x y with
      | Gt => y :: insert_by cmp x l'
      | _ => x :: l
      end
  end.
Definition sort_by {A : Type} (cmp : A -> A -> comparison) (l : list A) : list A :=
  foldr (insert_by cmp) [] l.

Section sorting.
Context {A K : Type} (cmp : A -> A -> comparison) (key : A -> K) (kcmp : K -> K -> comparison).
Context `{!OrdLaws kcmp, !OrdExact kcmp}.

(** The order of the keys. *)
Definition key_le (k k' : K) : Prop := kcmp k k' <> Gt.

#[local] Instance key_le_trans : Transitive key_le.
Proof. intros x y z. apply (cmp_le_trans kcmp). Qed.

#[local] Instance key_le_antisym : AntiSymm (=) key_le.
Proof.
  intros x y H1 H2. apply (cmp_exact kcmp). unfold key_le in *.
  rewrite (cmp_opp kcmp x y) in H2. by destruct (kcmp x y).
Qed.

Lemma insert_by_perm x l : insert_by cmp x l ≡ₚ x :: l.
Proof.
  induction l as [|y l IH]; simpl; [done|]. destruct (cmp x y); [done..|]. rewrite IH. constructor.
Qed.

Lemma sort_by_perm l : sort_by cmp l ≡ₚ l.
Proof. induction l as [|x l IH]; simpl; [done|]. rewrite insert_by_perm. by constructor. Qed.

(** On elements that satisfy [P], the comparison is that of the keys. *)
Context (P : A -> Prop) (cmp_key : forall x y, P x -> P y -> cmp x y = kcmp (key x) (key y)).

Definition keys_sorted (l : list A) : Prop := Sorted key_le (key <$> l).

Lemma insert_by_sorted x l :
  P x -> Forall P l -> keys_sorted l -> keys_sorted (insert_by cmp x l).
Proof.
  intros Hx Hl. induction Hl as [|y l Hy Hl IH]; intros Hs; [by repeat constructor|]. simpl.
  rewrite (cmp_key x y Hx Hy). unfold keys_sorted in *. rewrite fmap_cons in Hs.
  apply Sorted_inv in Hs as [Hs Hh].
  destruct (kcmp (key x) (key y)) eqn:E;
    [rewrite !fmap_cons; constructor; [by constructor|constructor; unfold key_le; by rewrite E]..|].
  assert (key_le (key y) (key x)) as Hyx
    by (unfold key_le; by rewrite (cmp_opp kcmp (key x) (key y)), E).
  rewrite fmap_cons. constructor; [by apply IH|].
  destruct l as [|z l]; simpl; [by constructor|]. inversion Hh; subst.
  destruct (cmp x z); by constructor.
Qed.

Lemma sort_by_sorted l : Forall P l -> keys_sorted (sort_by cmp l).
Proof.
  induction 1 as [|x l Hx Hl IH]; simpl; [constructor|]. apply insert_by_sorted; [done| |done].
  by rewrite sort_by_perm.
Qed.

(** A list that is sorted already is left as it is. *)
Lemma sort_by_id l : Forall P l -> keys_sorted l -> sort_by cmp l = l.
Proof.
  unfold keys_sorted. induction 1 as [|x l Hx Hl IH]; [done|]. rewrite fmap_cons.
  intros [Hs Hh]%Sorted_inv. simpl. rewrite (IH Hs).
  destruct Hl as [|y l Hy Hl]; [done|]. simpl. rewrite (cmp_key x y Hx Hy).
  rewrite fmap_cons in Hh. inversion Hh as [|?? Hle]; subst. unfold key_le in Hle.
  by destruct (kcmp (key x) (key y)).
Qed.

(** Permuted lists have the same keys once sorted. *)
Lemma sort_by_unique l l' :
  Forall P l -> l ≡ₚ l' -> key <$> sort_by cmp l = key <$> sort_by cmp l'.
Proof.
  intros Hl E. apply (StronglySorted_unique key_le).
  - apply Sorted_StronglySorted; [apply _|]. by apply sort_by_sorted.
  - apply Sorted_StronglySorted; [apply _|]. apply sort_by_sorted. by rewrite <- E.
  - apply fmap_Permutation. by rewrite !sort_by_perm.
Qed.

End sorting.

(** The order that the comparison decides, for elements in the order of the list. *)
Lemma sort_by_strongly {A : Type} (cmp : A -> A -> comparison) (R : A -> A -> Prop) (P : A -> Prop) l :
  (forall x y z, P y -> R x y -> R y z -> R x z) -> Forall P l ->
  StronglySorted (fun x y => (cmp x y <> Gt -> R x y) /\ (cmp x y = Gt -> R y x)) l ->
  StronglySorted R (sort_by cmp l).
Proof.
  intros Htrans Hp. induction 1 as [|x l Hl IH Hx]; [constructor|]. cbn [sort_by foldr].
  apply Forall_cons in Hp as [Hpx Hp]. specialize (IH Hp). fold (sort_by cmp l) in *.
  assert (Hp' : Forall P (sort_by cmp l)) by by rewrite sort_by_perm.
  assert (Hx' : Forall (fun y => (cmp x y <> Gt -> R x y) /\ (cmp x y = Gt -> R y x)) (sort_by cmp l)) by by rewrite sort_by_perm.
  clear Hl Hx Hp. induction IH as [|y l' Hl IHl Hy]; cbn; [constructor; constructor|].
  apply Forall_cons in Hp' as [Hpy Hp'], Hx' as [[H1 H2] Hx'].
  assert (Hhead : cmp x y <> Gt -> StronglySorted R (x :: y :: l')).
  { intros Hne. constructor; [by constructor|]. apply Forall_cons_2; [by apply H1|].
    eapply Forall_impl; [exact Hy|]. intros z Hz. by eapply Htrans; [exact Hpy|apply H1|]. }
  destruct (cmp x y) eqn:E; [by apply Hhead..|]. constructor; [by apply IHl|].
  rewrite insert_by_perm. apply Forall_cons_2; [by apply H2|done].
Qed.

