(* ===== verification/Text.v ===== *)
(** * Text

    Strings as lists of characters, given by their code points, with their UTF-8 bytes, and the
    operations of the standard library on strings that several components use. *)

From stdpp Require Import base list option numbers decidable.
From Stdlib Require Import ZArith Lia.
From S2P Require Import Prelude.

Local Open Scope Z_scope.

(** ** Characters *)

(** The UTF-8 encoding of a character. *)
Definition utf8_char (c : Z) : list Z :=
  if c <? 0x80 then [c]
  else if c <? 0x800 then [0xC0 + c / 64; 0x80 + c mod 64]
  else if c <? 0x10000 then [0xE0 + c / 4096; 0x80 + (c / 64) mod 64; 0x80 + c mod 64]
  else [0xF0 + c / 262144; 0x80 + (c / 4096) mod 64; 0x80 + (c / 64) mod 64; 0x80 + c mod 64].

Definition utf8 (s : list Z) : list Z := s ≫= utf8_char.

(** A Unicode scalar value, and an ASCII character. *)
Definition is_char (c : Z) : Prop := 0 <= c <= 0x10FFFF.
Definition is_ascii (c : Z) : Prop := 0 <= c < 128.

Lemma utf8_char_bytes c : is_char c -> Forall is_u8 (utf8_char c).
Proof.
  unfold is_char, utf8_char. intros Hc.
  repeat zif; repeat constructor; unfold is_u8, U8_MAX; zdivmod.
Qed.

Lemma utf8_bytes s : Forall is_char s -> Forall is_u8 (utf8 s).
Proof.
  induction 1 as [|c s Hc Hs IH]; [constructor|]. apply Forall_app.
  split; [by apply utf8_char_bytes|done].
Qed.

Lemma utf8_ascii s : Forall is_ascii s -> utf8 s = s.
Proof.
  induction 1 as [|c s Hc Hs IH]; [done|]. unfold utf8 in *. cbn [mbind list_bind].
  unfold utf8_char at 1. unfold is_ascii in Hc. zif. cbn [app]. f_equal. exact IH.
Qed.

(** ** Operations of [str]

    on the bytes of a string, which are valid UTF-8: an ASCII byte is a character of its own. *)


(** [str::strip_prefix]. *)
Fixpoint strip_prefix (prefix s : list Z) : option (list Z) :=
  match prefix, s with
  | [], _ => Some s
  | p :: prefix', c :: s' => if p =? c then strip_prefix prefix' s' else None
  | _ :: _, [] => None
  end.

(** [str::strip_suffix]. *)
Definition strip_suffix (suffix s : list Z) : option (list Z) :=
  let n := (length s - length suffix)%nat in
  if bool_decide (drop n s = suffix) then Some (take n s) else None.

(** [str::split_once] with an ASCII character. *)
Fixpoint split_once (c : Z) (s : list Z) : option (list Z * list Z) :=
  match s with
  | [] => None
  | x :: s' =>
      if x =? c then Some ([], s')
      else match split_once c s' with
           | Some (before, after) => Some (x :: before, after)
           | None => None
           end
  end.

(** A byte that continues a character. *)
Definition is_continuation (b : Z) : bool := (0x80 <=? b) && (b <? 0xC0).

(** [s.get(1..)]: there is no such slice if the string is empty or its first character takes
    several bytes. *)
Definition get_from_1 (s : list Z) : option (list Z) :=
  match s with
  | [] => None
  | [_] => Some []
  | _ :: b :: s' => if is_continuation b then None else Some (b :: s')
  end.

(** [s.chars().next()]: the bytes of the first character, by its leading byte. *)
Definition first_char (s : list Z) : list Z :=
  match s with
  | [] => []
  | b :: _ => if b <? 0x80 then take 1 s
              else if b <? 0xE0 then take 2 s
              else if b <? 0xF0 then take 3 s
              else take 4 s
  end.

(** [str::find] of a byte. *)
Fixpoint find_byte (b : Z) (s : list Z) : option nat :=
  match s with
  | [] => None
  | c :: s' => if c =? b then Some 0%nat else S <$> find_byte b s'
  end.

(** [char::to_digit(10)] of a character that starts with the given byte. *)
Definition to_digit (c : Z) : option Z := if is_ascii_digit c then Some (c - 48) else None.

(** [str::parse] for an unsigned integer type with the largest value [max]: an optional plus sign,
    then one or more digits. *)
Fixpoint parse_unsigned_digits (max n : Z) (digits : list Z) : option Z :=
  match digits with
  | [] => Some n
  | c :: digits' =>
      match to_digit c with
      | None => None
      | Some d => if max <? n * 10 + d then None else parse_unsigned_digits max (n * 10 + d) digits'
      end
  end.

Definition parse_unsigned (max : Z) (s : list Z) : option Z :=
  let digits := match s with
                | c :: rest => if c =? 43 then rest else s
                | [] => []
                end in
  match digits with
  | [] => None
  | _ :: _ => parse_unsigned_digits max 0 digits
  end.

(** ** Facts *)

Lemma strip_prefix_app p s : strip_prefix p (p ++ s) = Some s.
Proof. induction p as [|c p IH]; [done|]. cbn. by rewrite Z.eqb_refl. Qed.

Lemma strip_prefix_Some p s r : strip_prefix p s = Some r -> s = p ++ r.
Proof.
  revert s. induction p as [|c p IH]; intros [|x s]; cbn; try done; try by intros [= <-].
  destruct (Z.eqb_spec c x) as [->|]; [|done]. intros H. by rewrite (IH s H).
Qed.

(** Two texts that differ before the first of them ends. *)
Fixpoint clash (p q : list Z) : bool :=
  match p, q with
  | c :: p', d :: q' => negb (c =? d) || clash p' q'
  | _, _ => false
  end.

Lemma strip_prefix_clash p q s : clash p q = true -> strip_prefix p (q ++ s) = None.
Proof.
  revert q. induction p as [|c p IH]; intros [|d q]; try done. cbn. by destruct (c =? d); [apply IH|].
Qed.

Lemma strip_prefix_head c p d s : c <> d -> strip_prefix (c :: p) (d :: s) = None.
Proof. intros H. cbn. by destruct (Z.eqb_spec c d). Qed.

Lemma clash_ne p q s : clash p q = true -> q ++ s <> p.
Proof.
  intros H E. pose proof (strip_prefix_clash p q s H) as C. rewrite E in C.
  pose proof (strip_prefix_app p []) as A. rewrite app_nil_r in A. congruence.
Qed.

Lemma strip_suffix_app p s : strip_suffix s (p ++ s) = Some p.
Proof.
  unfold strip_suffix. rewrite length_app, Nat.add_sub.
  rewrite (drop_app_length p s), (take_app_length p s). by rewrite bool_decide_eq_true_2.
Qed.

Lemma strip_suffix_Some p s r : strip_suffix p s = Some r -> s = r ++ p.
Proof.
  unfold strip_suffix. case_bool_decide as E; [|done]. intros [= <-].
  rewrite <- E at 2. by rewrite take_drop.
Qed.

Lemma split_once_app c s t : c ∉ s -> split_once c (s ++ c :: t) = Some (s, t).
Proof.
  induction s as [|x s IH]; intros H; cbn; [by rewrite Z.eqb_refl|].
  apply not_elem_of_cons in H as [Hx Hs]. rewrite IH by done. by destruct (Z.eqb_spec x c).
Qed.

Lemma split_once_Some c s a b : split_once c s = Some (a, b) -> s = a ++ c :: b /\ c ∉ a.
Proof.
  revert a. induction s as [|x s IH]; intros a; cbn; [done|].
  destruct (Z.eqb_spec x c) as [->|Hx]; [intros [= <- <-]; split; [done|apply not_elem_of_nil]|].
  destruct (split_once c s) as [[a' b']|]; [|done]. intros [= <- <-].
  destruct (IH a' eq_refl) as [-> Ha]. split; [done|]. by apply not_elem_of_cons.
Qed.

Lemma split_once_None c s : split_once c s = None <-> c ∉ s.
Proof.
  induction s as [|x s IH]; cbn; [split; [intros _; apply not_elem_of_nil|done]|].
  rewrite not_elem_of_cons, <- IH. destruct (Z.eqb_spec x c) as [->|Hx]; [split; [done|by intros []]|].
  destruct (split_once c s) as [[]|]; naive_solver.
Qed.

Lemma digit_bounds b : is_ascii_digit b = true <-> 48 <= b <= 57.
Proof. unfold is_ascii_digit. rewrite andb_true_iff, !Z.leb_le. lia. Qed.

(** The value of a string of digits, most significant first. *)
Definition digits_value (n : Z) (l : list Z) : Z := foldl (fun n b => n * 10 + (b - 48)) n l.

Lemma digits_value_mono n l :
  0 <= n -> Forall (fun b => is_ascii_digit b = true) l -> n <= digits_value n l.
Proof.
  intros Hn Hl. revert n Hn. induction Hl as [|b l Hb Hl IH]; intros n Hn; simpl; [lia|].
  apply digit_bounds in Hb. specialize (IH (n * 10 + (b - 48)) ltac:(lia)). lia.
Qed.

(** Digits give their value, if it fits. *)
Lemma parse_unsigned_digits_value max l : forall n,
  0 <= n -> Forall (fun b => is_ascii_digit b = true) l -> digits_value n l <= max ->
  parse_unsigned_digits max n l = Some (digits_value n l).
Proof.
  induction l as [|b l IH]; intros n Hn Hl Hm; [done|]. inversion_clear Hl as [|?? Hb Hl'].
  cbn [parse_unsigned_digits]. unfold to_digit. rewrite Hb. apply digit_bounds in Hb.
  change (digits_value n (b :: l)) with (digits_value (n * 10 + (b - 48)) l) in *.
  pose proof (digits_value_mono (n * 10 + (b - 48)) l ltac:(lia) Hl') as M.
  zif. apply IH; [lia|done|done].
Qed.

Lemma parse_unsigned_range max s n : 0 <= max -> parse_unsigned max s = Some n -> 0 <= n <= max.
Proof.
  intros Hmax. unfold parse_unsigned.
  assert (forall l m, 0 <= m <= max -> parse_unsigned_digits max m l = Some n -> 0 <= n <= max) as H.
  { induction l as [|b l IH]; intros m Hm; cbn; [by intros [= <-]|]. unfold to_digit.
    destruct (is_ascii_digit b) eqn:Hb; [|done]. unfold is_ascii_digit in Hb.
    destruct (Z.ltb_spec max (m * 10 + (b - 48))); [done|]. apply IH. lia. }
  destruct s as [|c s]; [done|]. destruct (c =? 43); [destruct s; [done|]|]; apply H; lia.
Qed.

(** Prefixes of a text that starts with a literal. *)
Ltac strip_prefixes :=
  repeat first [ rewrite strip_prefix_app
               | rewrite strip_prefix_clash by reflexivity
               | rewrite decide_False by (apply clash_ne; reflexivity) ].

(** Two bytes or fewer give a number below one hundred. *)
Lemma parse_unsigned_short max s n : (length s <= 2)%nat -> parse_unsigned max s = Some n -> n <= 99.
Proof.
  intros L.
  assert (forall c d, to_digit c = Some d -> d <= 9) as D.
  { intros c d. unfold to_digit. destruct (is_ascii_digit c) eqn:E; [|done].
    apply digit_bounds in E. intros [= <-]. lia. }
  destruct s as [|c [|c' [|]]]; cbn [length] in L; [done|..|lia]; unfold parse_unsigned;
    destruct (c =? 43); try done; cbn [parse_unsigned_digits].
  - destruct (to_digit c) eqn:E; [|done]. apply D in E. destruct (_ <? _); [done|]. intros [= <-]. lia.
  - destruct (to_digit c') eqn:E; [|done]. apply D in E. destruct (_ <? _); [done|]. intros [= <-]. lia.
  - destruct (to_digit c) eqn:E; [|done]. apply D in E. destruct (_ <? _); [done|].
    destruct (to_digit c') eqn:E'; [|done]. apply D in E'. destruct (_ <? _); [done|].
    intros [= <-]. lia.
Qed.

Lemma get_from_1_Some c s r : get_from_1 (c :: s) = Some r -> r = s.
Proof. destruct s as [|b s]; cbn; [by intros [= <-]|]. destruct (is_continuation b); congruence. Qed.

Lemma get_from_1_digits c s :
  Forall (fun b => is_ascii_digit b = true) s -> get_from_1 (c :: s) = Some s.
Proof.
  destruct 1 as [|b s Hb Hs]; [done|]. cbn. apply digit_bounds in Hb. unfold is_continuation. by zif.
Qed.

(** ** Pieces *)

(** [str::split] at one character. *)
Fixpoint split_char (c : Z) (s : list Z) : list (list Z) :=
  match s with
  | [] => [[]]
  | x :: s' =>
      if x =? c then [] :: split_char c s'
      else
        match split_char c s' with
        | [] => [[x]]
        | piece :: pieces => (x :: piece) :: pieces
        end
  end.

Lemma split_char_none c l : c ∉ l -> split_char c l = [l].
Proof.
  induction l as [|x l IH]; [done|]. intros [Hx Hl]%not_elem_of_cons. cbn.
  destruct (Z.eqb_spec x c); [congruence|]. by rewrite IH.
Qed.

Lemma split_char_cons c l t : c ∉ l -> split_char c (l ++ c :: t) = l :: split_char c t.
Proof.
  induction l as [|x l IH]; [intros _; cbn; by rewrite Z.eqb_refl|].
  intros [Hx Hl]%not_elem_of_cons. cbn. destruct (Z.eqb_spec x c); [congruence|]. by rewrite IH.
Qed.

Lemma split_char_append c l : split_char c l <> [].
Proof. destruct l as [|x l]; cbn; [done|]. destruct (x =? c); [done|]. by destruct (split_char c l). Qed.

Lemma split_char_forall (P : Z -> Prop) c l :
  Forall P l -> Forall (Forall P) (split_char c l).
Proof.
  induction 1 as [|x l Hx Hl IH]; cbn; [by repeat constructor|].
  destruct (x =? c); [by constructor|]. destruct (split_char c l) as [|p ps]; [by repeat constructor|].
  inversion_clear IH. by repeat constructor.
Qed.

Lemma split_char_elem c l x : x ∈ l -> x <> c -> exists p, p ∈ split_char c l /\ x ∈ p.
Proof.
  induction l as [|y l IH]; [by intros ?%elem_of_nil|]. intros H Hx. cbn.
  apply elem_of_cons in H as [<-|H].
  - destruct (Z.eqb_spec x c); [done|]. destruct (split_char c l) as [|p ps].
    + exists [x]. split; left.
    + exists (x :: p). split; left.
  - destruct (IH H Hx) as (p & Hp & Hin). destruct (y =? c).
    + exists p. split; [by right|done].
    + destruct (split_char c l) as [|q ps]; [by apply elem_of_nil in Hp|].
      apply elem_of_cons in Hp as [->|Hp]; [|exists p; split; [by right|done]].
      exists (y :: q). split; [left|by right].
Qed.

(** ** Literals *)

Lemma byte_of_ascii_u8 c : is_u8 (byte_of_ascii c).
Proof.
  unfold is_u8, byte_of_ascii, U8_MAX. pose proof (Ascii.N_ascii_bounded c). lia.
Qed.

Lemma bytes_u8 s : Forall is_u8 (bytes s).
Proof. induction s; constructor; [apply byte_of_ascii_u8|done]. Qed.
