(* ===== verification/Libraries.v ===== *)
(** * Interfaces of the libraries

    What the components rely on of the crates [memchr] (search for a byte) and [bitflags] (sets of
    flags in an integer), and of the Unicode tables of the standard library: the operations as
    classes, what their documentation promises as laws, and an instance of each that satisfies the
    laws. *)

From stdpp Require Import base list option numbers decidable sorting.
From Stdlib Require Import ZArith Lia.
From S2P Require Import Prelude Text.

Local Open Scope Z_scope.

(** ** [memchr] *)

(** [memchr::memchr] gives the first position of a byte, [memchr::Memchr] iterates over all. *)
Class Memchr : Type := {
  memchr : Z -> list Z -> option nat;
  memchr_iter : Z -> list Z -> list nat
}.

Class MemchrLaws `{!Memchr} : Prop := {
  memchr_Some needle haystack i :
    memchr needle haystack = Some i -> haystack !! i = Some needle /\ needle ∉ take i haystack;
  memchr_None needle haystack : memchr needle haystack = None -> needle ∉ haystack;
  memchr_iter_sorted needle haystack : StronglySorted lt (memchr_iter needle haystack);
  memchr_iter_elem needle haystack i :
    i ∈ memchr_iter needle haystack <-> haystack !! i = Some needle
}.

(** The positions of a byte, counted from [k]. *)
Fixpoint positions (k : nat) (b : Z) (l : list Z) : list nat :=
  match l with
  | [] => []
  | c :: l' => if c =? b then k :: positions (S k) b l' else positions (S k) b l'
  end.

#[local] Instance list_memchr : Memchr := {| memchr := find_byte; memchr_iter := positions 0 |}.

Lemma find_byte_Some b l i : find_byte b l = Some i -> l !! i = Some b /\ b ∉ take i l.
Proof.
  revert i. induction l as [|c l IH]; intros i; cbn; [done|].
  destruct (Z.eqb_spec c b) as [->|Hc]; [intros [= <-]; split; [done|apply not_elem_of_nil]|].
  destruct (find_byte b l) as [j|] eqn:E; [|done]. intros [= <-].
  destruct (IH j eq_refl) as [H1 H2]. split; [done|]. by apply not_elem_of_cons.
Qed.

Lemma find_byte_None b l : find_byte b l = None -> b ∉ l.
Proof.
  induction l as [|c l IH]; cbn; [intros _; apply not_elem_of_nil|].
  destruct (Z.eqb_spec c b) as [->|Hc]; [done|]. destruct (find_byte b l); [done|].
  intros _. apply not_elem_of_cons. split; [congruence|by apply IH].
Qed.

Lemma positions_elem b l : forall k i, i ∈ positions k b l <-> (k <= i)%nat /\ l !! (i - k)%nat = Some b.
Proof.
  induction l as [|c l IH]; intros k i; cbn [positions].
  - rewrite lookup_nil. split; [by intros ?%elem_of_nil|by intros [_ ?]].
  - assert (i ∈ positions (S k) b l <-> (S k <= i)%nat /\ (c :: l) !! (i - k)%nat = Some b) as E.
    { rewrite IH. split; intros [H1 H2]; (split; [done|]); revert H2;
        replace (i - k)%nat with (S (i - S k)) by lia; done. }
    destruct (Z.eqb_spec c b) as [->|Hc]; [rewrite elem_of_cons|]; rewrite E.
    + split; [intros [->|[H1 H2]]; [split; [done|by rewrite Nat.sub_diag]|split; [lia|done]]|].
      intros [H1 H2]. destruct (decide (i = k)); [by left|right; split; [lia|done]].
    + split; [intros [H1 H2]; split; [lia|done]|]. intros [H1 H2]. split; [|done].
      destruct (decide (i = k)) as [->|]; [|lia]. rewrite Nat.sub_diag in H2. by injection H2.
Qed.

Lemma positions_sorted b l : forall k, StronglySorted lt (positions k b l).
Proof.
  induction l as [|c l IH]; intros k; cbn [positions]; [constructor|].
  destruct (c =? b); [|apply IH]. constructor; [apply IH|]. apply Forall_forall. intros i Hi.
  apply positions_elem in Hi. lia.
Qed.

Lemma list_memchr_laws : MemchrLaws.
Proof.
  split; [apply find_byte_Some|apply find_byte_None|intros; apply positions_sorted|].
  intros b l i. cbn. rewrite positions_elem, Nat.sub_0_r. split; [by intros []|split; [lia|done]].
Qed.

(** The laws fix the operations. *)
Section Memchr.
Context `{!Memchr, !MemchrLaws}.

Lemma memchr_split b l i : memchr b l = Some i -> split_once b l = Some (take i l, drop (S i) l).
Proof.
  intros E. destruct (memchr_Some b l i E) as [Hi Hn]. rewrite <- (take_drop_middle l i b Hi) at 1.
  by apply split_once_app.
Qed.

Lemma memchr_split_None b l : memchr b l = None -> split_once b l = None.
Proof. intros E. by apply split_once_None, memchr_None. Qed.

Lemma memchr_app b l k : b ∉ l -> memchr b (l ++ b :: k) = Some (length l).
Proof.
  intros Hl. destruct (memchr b (l ++ b :: k)) as [i|] eqn:E.
  - f_equal. destruct (memchr_Some b _ i E) as [Hi Hn]. destruct (lt_eq_lt_dec i (length l)) as [[C| ->]|C].
    + rewrite lookup_app_l in Hi by done. by apply list_elem_of_lookup_2 in Hi.
    + done.
    + destruct Hn. rewrite take_app_ge by lia. apply elem_of_app. right.
      destruct (i - length l)%nat eqn:D; [lia|]. by left.
  - apply memchr_None in E. destruct E. apply elem_of_app. right. by left.
Qed.

Lemma sorted_unique (l k : list nat) :
  StronglySorted lt l -> StronglySorted lt k -> (forall i, i ∈ l <-> i ∈ k) -> l = k.
Proof.
  intros Hl. revert k. induction Hl as [|x l Hl IH Hx]; intros k Hk E.
  - destruct k as [|y k]; [done|]. assert (y ∈ []) as []%elem_of_nil. apply E. by left.
  - destruct Hk as [|y k Hk Hy]; [assert (x ∈ []) as []%elem_of_nil by (apply E; left)|].
    rewrite Forall_forall in Hx, Hy.
    assert (x = y) as <-.
    { assert (x ∈ y :: k) as [->|A]%elem_of_cons by (apply E; left); [done|].
      assert (y ∈ x :: l) as [->|B]%elem_of_cons by (apply E; left); [done|].
      specialize (Hx _ B). specialize (Hy _ A). lia. }
    f_equal. apply IH; [done|]. intros i. split; intros Hi.
    + assert (i ∈ x :: k) as [->|]%elem_of_cons by (apply E; by right); [|done].
      specialize (Hx _ Hi). lia.
    + assert (i ∈ x :: l) as [->|]%elem_of_cons by (apply E; by right); [|done].
      specialize (Hy _ Hi). lia.
Qed.

Lemma memchr_iter_positions b l : memchr_iter b l = positions 0 b l.
Proof.
  apply sorted_unique; [apply memchr_iter_sorted|apply positions_sorted|].
  intros i. rewrite memchr_iter_elem, positions_elem, Nat.sub_0_r. split; [split; [lia|done]|by intros []].
Qed.
End Memchr.

(** ** [bitflags] *)

(** The generated operations on a set of flags, an integer. *)
Class Bitflags : Type := {
  flags_contains : Z -> Z -> bool;
  flags_insert : Z -> Z -> Z;
  flags_remove : Z -> Z -> Z
}.

Class BitflagsLaws `{!Bitflags} : Prop := {
  flags_contains_spec self other : flags_contains self other = true <-> Z.land self other = other;
  flags_insert_spec self other : flags_insert self other = Z.lor self other;
  flags_remove_spec self other : flags_remove self other = Z.land self (Z.lnot other)
}.

#[local] Instance bits_flags : Bitflags := {|
  flags_contains self other := Z.land self other =? other;
  flags_insert := Z.lor;
  flags_remove self other := Z.land self (Z.lnot other)
|}.

Lemma bits_flags_laws : BitflagsLaws.
Proof. split; [intros; apply Z.eqb_eq|done|done]. Qed.

Section Bitflags.
Context `{!Bitflags, !BitflagsLaws}.

Lemma flags_contains_eq self other : flags_contains self other = (Z.land self other =? other).
Proof.
  destruct (Z.eqb_spec (Z.land self other) other) as [E|E]; [by apply flags_contains_spec|].
  destruct (flags_contains self other) eqn:C; [|done]. by apply flags_contains_spec in C.
Qed.
End Bitflags.

(** ** Lower case *)

(** [str::to_lowercase], which follows the tables of Unicode; on ASCII it is the lower case of the
    bytes. *)
Class Lowercase : Type := to_lowercase : list Z -> list Z.

Class LowercaseLaws `{!Lowercase} : Prop :=
  to_lowercase_ascii s : Forall is_ascii s -> to_lowercase s = to_ascii_lowercase <$> s.

#[local] Instance ascii_lowercase : Lowercase := fmap to_ascii_lowercase.

Lemma ascii_lowercase_laws : LowercaseLaws.
Proof. done. Qed.
