(* ===== verification/VersionTypes.v ===== *)
(** * Components of a version

    The data of [crates/uv-pep440/src/version.rs] that both representations of a version share:
    pre-release markers and local version segments, with the orders the code derives or writes
    for them. *)

From stdpp Require Import base list option numbers decidable.
From Stdlib Require Import ZArith Lia.
From S2P Require Import Prelude.

Local Open Scope Z_scope.

Inductive PrereleaseKind : Type :=
| Alpha
| Beta
| Rc.

#[export] Instance PrereleaseKind_eq_dec : EqDecision PrereleaseKind.
Proof. solve_decision. Defined.

Record Prerelease : Type := mkPrerelease {
  pre_kind : PrereleaseKind;
  pre_number : Z
}.

#[export] Instance Prerelease_eq_dec : EqDecision Prerelease.
Proof. solve_decision. Defined.

Inductive LocalSegment : Type :=
| LocalString (string : list Z)
| LocalNumber (number : Z).

#[export] Instance LocalSegment_eq_dec : EqDecision LocalSegment.
Proof. solve_decision. Defined.

Inductive LocalVersion : Type :=
| Segments (segments : list LocalSegment)
| LocalMax.

#[export] Instance LocalVersion_eq_dec : EqDecision LocalVersion.
Proof. solve_decision. Defined.

(** [LocalVersionSlice] borrows the data of a [LocalVersion]; as a value it is the same. *)
Definition LocalVersionSlice : Type := LocalVersion.

Definition local_empty : LocalVersion := Segments [].

Definition local_is_empty (l : LocalVersion) : bool :=
  match l with
  | Segments [] => true
  | Segments (_ :: _) => false
  | LocalMax => false
  end.

Definition local_as_slice (l : LocalVersion) : LocalVersionSlice :=
  match l with
  | Segments segments => Segments segments
  | LocalMax => LocalMax
  end.

(** [Ord for LocalSegment]: a number is greater than a string. *)
Definition local_segment_cmp (x y : LocalSegment) : comparison :=
  match x, y with
  | LocalNumber n1, LocalNumber n2 => Z.compare n1 n2
  | LocalString s1, LocalString s2 => cmp_list Z.compare s1 s2
  | LocalNumber _, LocalString _ => Gt
  | LocalString _, LocalNumber _ => Lt
  end.

(** [Ord for LocalVersionSlice]: the sentinel is greater than every list of segments. *)
Definition local_slice_cmp (x y : LocalVersionSlice) : comparison :=
  match x, y with
  | Segments lv1, Segments lv2 => cmp_list local_segment_cmp lv1 lv2
  | Segments _, LocalMax => Lt
  | LocalMax, Segments _ => Gt
  | LocalMax, LocalMax => Eq
  end.

Lemma local_as_slice_id l : local_as_slice l = l.
Proof. by destruct l. Qed.

Lemma local_is_empty_spec l : local_is_empty l = true <-> l = local_empty.
Proof. by destruct l as [[|]|]. Qed.

Lemma local_is_empty_false l : local_is_empty l = false <-> l <> local_empty.
Proof. by destruct l as [[|]|]. Qed.

#[export] Hint Rewrite local_as_slice_id : uv.

#[export] Instance ord_local_segment : OrdLaws local_segment_cmp.
Proof.
  split.
  - intros [s|n]; simpl; [apply (cmp_refl _)|apply Z.compare_refl].
  - intros [s|n] [s'|n']; simpl; [apply (cmp_opp _)|done..|apply Z.compare_antisym].
  - intros [s|n] [s'|n'] [t|m]; simpl; try done; apply (cmp_eq_l _).
  - intros [s|n] [s'|n'] [t|m]; simpl; try done; apply (cmp_lt_trans _).
Qed.

#[export] Instance ord_exact_local_segment : OrdExact local_segment_cmp.
Proof.
  intros [s|n] [s'|n']; simpl; try done; intros H; f_equal; by apply (cmp_exact _) in H.
Qed.

#[export] Instance ord_local_slice : OrdLaws local_slice_cmp.
Proof.
  split.
  - intros [l|]; simpl; [apply (cmp_refl _)|done].
  - intros [l|] [l'|]; simpl; [apply (cmp_opp _)|done..].
  - intros [l|] [l'|] [m|]; simpl; try done; apply (cmp_eq_l _).
  - intros [l|] [l'|] [m|]; simpl; try done; apply (cmp_lt_trans _).
Qed.

#[export] Instance ord_exact_local_slice : OrdExact local_slice_cmp.
Proof.
  intros [l|] [l'|]; simpl; try done. intros H. f_equal. by apply (cmp_exact _) in H.
Qed.

(** The empty local version is the least one. *)
Lemma local_empty_least l : local_slice_cmp local_empty l <> Gt.
Proof. by destruct l as [[|]|]. Qed.

(** ** The full representation *)

Record VersionFull : Type := mkFull {
  full_epoch : Z;
  full_release : list Z;
  full_pre : option Prerelease;
  full_post : option Z;
  full_dev : option Z;
  full_local : LocalVersion;
  full_min : option Z;
  full_max : option Z
}.

#[export] Instance VersionFull_eq_dec : EqDecision VersionFull.
Proof. solve_decision. Defined.

(** Assignments to the fields of a full version. *)
Definition full_set_epoch (f : VersionFull) (x : Z) : VersionFull :=
  mkFull x (full_release f) (full_pre f) (full_post f) (full_dev f) (full_local f)
    (full_min f) (full_max f).
Definition full_set_release (f : VersionFull) (x : list Z) : VersionFull :=
  mkFull (full_epoch f) x (full_pre f) (full_post f) (full_dev f) (full_local f)
    (full_min f) (full_max f).
Definition full_set_pre (f : VersionFull) (x : option Prerelease) : VersionFull :=
  mkFull (full_epoch f) (full_release f) x (full_post f) (full_dev f) (full_local f)
    (full_min f) (full_max f).
Definition full_set_post (f : VersionFull) (x : option Z) : VersionFull :=
  mkFull (full_epoch f) (full_release f) (full_pre f) x (full_dev f) (full_local f)
    (full_min f) (full_max f).
Definition full_set_dev (f : VersionFull) (x : option Z) : VersionFull :=
  mkFull (full_epoch f) (full_release f) (full_pre f) (full_post f) x (full_local f)
    (full_min f) (full_max f).
Definition full_set_local (f : VersionFull) (x : LocalVersion) : VersionFull :=
  mkFull (full_epoch f) (full_release f) (full_pre f) (full_post f) (full_dev f) x
    (full_min f) (full_max f).
Definition full_set_min (f : VersionFull) (x : option Z) : VersionFull :=
  mkFull (full_epoch f) (full_release f) (full_pre f) (full_post f) (full_dev f)
    (full_local f) x (full_max f).
Definition full_set_max (f : VersionFull) (x : option Z) : VersionFull :=
  mkFull (full_epoch f) (full_release f) (full_pre f) (full_post f) (full_dev f)
    (full_local f) (full_min f) x.
