(* ===== verification/VersionSmall.v ===== *)
(** * The packed representation of a version

    [VersionSmall] of [crates/uv-pep440/src/version.rs]: a version with an epoch of zero, at most
    four small release numbers and at most one suffix, packed into a [u64] so that comparing two
    of them is comparing two integers. *)

From stdpp Require Import base list option numbers decidable.
From Stdlib Require Import ZArith Lia.
From S2P Require Import Prelude VersionTypes.

Local Open Scope Z_scope.

(** ** Representation and operations *)

(** The field that only forces a niche into the layout has no value to model. *)
Record VersionSmall : Type := mkSmall {
  small_repr : Z;
  small_len : Z
}.

Definition SUFFIX_MIN : Z := 0.
Definition SUFFIX_DEV : Z := 1.
Definition SUFFIX_PRE_ALPHA : Z := 2.
Definition SUFFIX_PRE_BETA : Z := 3.
Definition SUFFIX_PRE_RC : Z := 4.
Definition SUFFIX_NONE : Z := 5.
Definition SUFFIX_LOCAL : Z := 6.
Definition SUFFIX_POST : Z := 7.
Definition SUFFIX_MAX : Z := 8.
Definition SUFFIX_RELEASE_MASK : Z := 0xFFFFFFFFFF000000.
Definition SUFFIX_VERSION_MASK : Z := 0x000FFFFF.
Definition SUFFIX_VERSION_BIT_LEN : Z := 20.
Definition SUFFIX_KIND_MASK : Z := 15.

Definition small_new : VersionSmall :=
  mkSmall (Z.shiftl SUFFIX_NONE SUFFIX_VERSION_BIT_LEN) 0.

Definition small_suffix_kind (s : VersionSmall) : Z :=
  Z.land (Z.shiftr (small_repr s) SUFFIX_VERSION_BIT_LEN) SUFFIX_KIND_MASK.

Definition small_suffix_version (s : VersionSmall) : Z :=
  Z.land (small_repr s) SUFFIX_VERSION_MASK.

Definition small_set_suffix_version (s : VersionSmall) (value : Z) : VersionSmall :=
  mkSmall (Z.lor (Z.land (small_repr s) (u64_not SUFFIX_VERSION_MASK)) value) (small_len s).

Definition small_set_suffix_kind (s : VersionSmall) (kind : Z) : VersionSmall :=
  let repr :=
    Z.land (small_repr s) (u64_not (Z.shiftl SUFFIX_KIND_MASK SUFFIX_VERSION_BIT_LEN)) in
  let repr := Z.lor repr (Z.shiftl kind SUFFIX_VERSION_BIT_LEN) in
  let s' := mkSmall repr (small_len s) in
  if (kind =? SUFFIX_NONE) || (kind =? SUFFIX_LOCAL)
  then small_set_suffix_version s' 0
  else s'.

Definition small_epoch (s : VersionSmall) : Z := 0.

(** A setter returns whether the value could be stored, with the state it leaves. *)
Definition small_set_epoch (s : VersionSmall) (value : Z) : bool * VersionSmall :=
  if negb (value =? 0) then (false, s) else (true, s).

Definition small_clear_release (s : VersionSmall) : VersionSmall :=
  mkSmall (Z.land (small_repr s) (u64_not SUFFIX_RELEASE_MASK)) 0.

Definition small_push_release (s : VersionSmall) (n : Z) : bool * VersionSmall :=
  if small_len s =? 0 then
    if U16_MAX <? n then (false, s)
    else (true, mkSmall (Z.lor (small_repr s) (Z.shiftl n 48)) 1)
  else if U8_MAX <? n then (false, s)
  else if 4 <=? small_len s then (false, s)
  else
    let shift := 48 - small_len s * 8 in
    (true, mkSmall (Z.lor (small_repr s) (Z.shiftl n shift)) (small_len s + 1)).

Definition small_post (s : VersionSmall) : option Z :=
  if small_suffix_kind s =? SUFFIX_POST then Some (small_suffix_version s) else None.

Definition small_set_post (s : VersionSmall) (value : option Z) : bool * VersionSmall :=
  let suffix_kind := small_suffix_kind s in
  if negb ((suffix_kind =? SUFFIX_NONE) || (suffix_kind =? SUFFIX_POST))
  then (match value with None => true | Some _ => false end, s)
  else match value with
  | None => (true, small_set_suffix_kind s SUFFIX_NONE)
  | Some number =>
      if SUFFIX_VERSION_MASK <? number then (false, s)
      else (true, small_set_suffix_version (small_set_suffix_kind s SUFFIX_POST) number)
  end.

Definition small_pre (s : VersionSmall) : option Prerelease :=
  let kind := small_suffix_kind s in
  let number := small_suffix_version s in
  if kind =? SUFFIX_PRE_ALPHA then Some (mkPrerelease Alpha number)
  else if kind =? SUFFIX_PRE_BETA then Some (mkPrerelease Beta number)
  else if kind =? SUFFIX_PRE_RC then Some (mkPrerelease Rc number)
  else None.

Definition small_set_pre (s : VersionSmall) (value : option Prerelease) : bool * VersionSmall :=
  let suffix_kind := small_suffix_kind s in
  if negb ((suffix_kind =? SUFFIX_NONE) || (suffix_kind =? SUFFIX_PRE_ALPHA)
           || (suffix_kind =? SUFFIX_PRE_BETA) || (suffix_kind =? SUFFIX_PRE_RC))
  then (match value with None => true | Some _ => false end, s)
  else match value with
  | None => (true, small_set_suffix_kind s SUFFIX_NONE)
  | Some (mkPrerelease kind number) =>
      if SUFFIX_VERSION_MASK <? number then (false, s)
      else
        let s' := match kind with
          | Alpha => small_set_suffix_kind s SUFFIX_PRE_ALPHA
          | Beta => small_set_suffix_kind s SUFFIX_PRE_BETA
          | Rc => small_set_suffix_kind s SUFFIX_PRE_RC
          end in
        (true, small_set_suffix_version s' number)
  end.

Definition small_dev (s : VersionSmall) : option Z :=
  if small_suffix_kind s =? SUFFIX_DEV then Some (small_suffix_version s) else None.

Definition small_set_dev (s : VersionSmall) (value : option Z) : bool * VersionSmall :=
  let suffix_kind := small_suffix_kind s in
  if negb ((suffix_kind =? SUFFIX_NONE) || (suffix_kind =? SUFFIX_DEV))
  then (match value with None => true | Some _ => false end, s)
  else match value with
  | None => (true, small_set_suffix_kind s SUFFIX_NONE)
  | Some number =>
      if SUFFIX_VERSION_MASK <? number then (false, s)
      else (true, small_set_suffix_version (small_set_suffix_kind s SUFFIX_DEV) number)
  end.

Definition small_min (s : VersionSmall) : option Z :=
  if small_suffix_kind s =? SUFFIX_MIN then Some (small_suffix_version s) else None.

Definition small_set_min (s : VersionSmall) (value : option Z) : bool * VersionSmall :=
  let suffix_kind := small_suffix_kind s in
  if negb ((suffix_kind =? SUFFIX_NONE) || (suffix_kind =? SUFFIX_MIN))
  then (match value with None => true | Some _ => false end, s)
  else match value with
  | None => (true, small_set_suffix_kind s SUFFIX_NONE)
  | Some number =>
      if SUFFIX_VERSION_MASK <? number then (false, s)
      else (true, small_set_suffix_version (small_set_suffix_kind s SUFFIX_MIN) number)
  end.

Definition small_max (s : VersionSmall) : option Z :=
  if small_suffix_kind s =? SUFFIX_MAX then Some (small_suffix_version s) else None.

Definition small_set_max (s : VersionSmall) (value : option Z) : bool * VersionSmall :=
  let suffix_kind := small_suffix_kind s in
  if negb ((suffix_kind =? SUFFIX_NONE) || (suffix_kind =? SUFFIX_MAX))
  then (match value with None => true | Some _ => false end, s)
  else match value with
  | None => (true, small_set_suffix_kind s SUFFIX_NONE)
  | Some number =>
      if SUFFIX_VERSION_MASK <? number then (false, s)
      else (true, small_set_suffix_version (small_set_suffix_kind s SUFFIX_MAX) number)
  end.

Definition small_local (s : VersionSmall) : LocalVersion :=
  if small_suffix_kind s =? SUFFIX_LOCAL then LocalMax else local_empty.

Definition small_local_slice (s : VersionSmall) : LocalVersionSlice :=
  if small_suffix_kind s =? SUFFIX_LOCAL then LocalMax else local_empty.

Definition small_set_local (s : VersionSmall) (value : LocalVersion) : bool * VersionSmall :=
  let suffix_kind := small_suffix_kind s in
  if negb ((suffix_kind =? SUFFIX_NONE) || (suffix_kind =? SUFFIX_LOCAL))
  then (local_is_empty value, s)
  else match value with
  | LocalMax => (true, small_set_suffix_kind s SUFFIX_LOCAL)
  | Segments [] => (true, small_set_suffix_kind s SUFFIX_NONE)
  | Segments (_ :: _) => (false, s)
  end.

(** The release numbers unpacked by [Version::release]; [None] stands for the [unreachable!]
    arm of the match on [len]. *)
Definition small_release (s : VersionSmall) : option (list Z) :=
  let seg1 := Z.land (Z.shiftr (small_repr s) 48) 0xFFFF in
  let seg2 := Z.land (Z.shiftr (small_repr s) 40) 0xFF in
  let seg3 := Z.land (Z.shiftr (small_repr s) 32) 0xFF in
  let seg4 := Z.land (Z.shiftr (small_repr s) 24) 0xFF in
  match small_len s with
  | 0 => Some []
  | 1 => Some [seg1]
  | 2 => Some [seg1; seg2]
  | 3 => Some [seg1; seg2; seg3]
  | 4 => Some [seg1; seg2; seg3; seg4]
  | _ => None
  end.

(** ** The fields of the word *)

(** The word with the given release numbers, suffix kind and suffix version. *)
Definition pack (r0 r1 r2 r3 k n : Z) : Z :=
  r0 * 2 ^ 48 + r1 * 2 ^ 40 + r2 * 2 ^ 32 + r3 * 2 ^ 24 + k * 2 ^ 20 + n.

(** [s] packs these fields, each within its width. *)
Definition small_view (s : VersionSmall) (r0 r1 r2 r3 k n : Z) : Prop :=
  small_repr s = pack r0 r1 r2 r3 k n /\
  0 <= r0 < 2 ^ 16 /\ 0 <= r1 < 2 ^ 8 /\ 0 <= r2 < 2 ^ 8 /\ 0 <= r3 < 2 ^ 8 /\
  0 <= k <= SUFFIX_MAX /\ 0 <= n < 2 ^ 20.

Ltac small_unfold :=
  unfold small_view, pack, bitfield, is_u64, U64_MAX, SUFFIX_MAX in *; simpl small_repr in *;
  change (2 ^ 48) with 281474976710656 in *; change (2 ^ 40) with 1099511627776 in *;
  change (2 ^ 32) with 4294967296 in *; change (2 ^ 24) with 16777216 in *;
  change (2 ^ 20) with 1048576 in *; change (2 ^ 16) with 65536 in *;
  change (2 ^ 8) with 256 in *; change (2 ^ 4) with 16 in *; change (2 ^ 0) with 1 in *.

Section view.
Context (s : VersionSmall) (r0 r1 r2 r3 k n : Z) (V : small_view s r0 r1 r2 r3 k n).

Lemma view_u64 : is_u64 (small_repr s).
Proof. small_unfold. lia. Qed.

Lemma view_kind : small_suffix_kind s = k.
Proof.
  unfold small_suffix_kind. change SUFFIX_KIND_MASK with (Z.ones 4).
  rewrite land_shiftr_ones by done. unfold SUFFIX_VERSION_BIT_LEN. small_unfold. zdivmod.
Qed.

Lemma view_version : small_suffix_version s = n.
Proof.
  unfold small_suffix_version. change SUFFIX_VERSION_MASK with (Z.ones 20).
  rewrite Z.land_ones by done. small_unfold. zdivmod.
Qed.

Lemma view_seg0 : Z.land (Z.shiftr (small_repr s) 48) 0xFFFF = r0.
Proof. change 0xFFFF with (Z.ones 16). rewrite land_shiftr_ones by done. small_unfold. zdivmod. Qed.

Lemma view_seg1 : Z.land (Z.shiftr (small_repr s) 40) 0xFF = r1.
Proof. change 0xFF with (Z.ones 8). rewrite land_shiftr_ones by done. small_unfold. zdivmod. Qed.

Lemma view_seg2 : Z.land (Z.shiftr (small_repr s) 32) 0xFF = r2.
Proof. change 0xFF with (Z.ones 8). rewrite land_shiftr_ones by done. small_unfold. zdivmod. Qed.

Lemma view_seg3 : Z.land (Z.shiftr (small_repr s) 24) 0xFF = r3.
Proof. change 0xFF with (Z.ones 8). rewrite land_shiftr_ones by done. small_unfold. zdivmod. Qed.

Lemma view_release :
  0 <= small_len s <= 4 ->
  small_release s = Some (take (Z.to_nat (small_len s)) [r0; r1; r2; r3]).
Proof.
  intros Hl. unfold small_release. rewrite view_seg0, view_seg1, view_seg2, view_seg3.
  assert (small_len s = 0 \/ small_len s = 1 \/ small_len s = 2 \/ small_len s = 3
          \/ small_len s = 4) as [->|[->|[->|[->| ->]]]] by lia; done.
Qed.

Lemma view_set_version v :
  0 <= v < 2 ^ 20 -> small_view (small_set_suffix_version s v) r0 r1 r2 r3 k v.
Proof.
  intros Hv. pose proof view_u64 as Hu.
  assert (small_repr (small_set_suffix_version s v) = pack r0 r1 r2 r3 k v) as Hr.
  { unfold small_set_suffix_version. simpl.
    rewrite land_not_sub by (done || unfold is_u64; done).
    change SUFFIX_VERSION_MASK with (Z.ones 20) at 1.
    rewrite Z.land_ones by done.
    rewrite <- (Z.shiftl_0_r v) at 1.
    rewrite (lor_clear_field _ v 0 20); [|done..|]; small_unfold; zdivmod. }
  small_unfold. lia.
Qed.

Lemma view_clear :
  small_view (small_clear_release s) 0 0 0 0 k n.
Proof.
  pose proof view_u64 as Hu.
  assert (small_repr (small_clear_release s) = pack 0 0 0 0 k n) as Hr.
  { unfold small_clear_release. simpl.
    rewrite land_not_sub by (done || unfold is_u64; done).
    change SUFFIX_RELEASE_MASK with (Z.shiftl (Z.ones 40) 24).
    rewrite land_shiftl_ones by done.
    small_unfold. change (2 ^ 40) with 1099511627776. zdivmod. }
  small_unfold. lia.
Qed.

(** Or-ing a release number into the byte that starts at bit [i]. *)
Lemma view_lor_seg v i w :
  0 <= i -> 0 <= w -> 0 <= v < 2 ^ w -> bitfield (small_repr s) i w = 0 ->
  Z.lor (small_repr s) (Z.shiftl v i) = pack r0 r1 r2 r3 k n + v * 2 ^ i.
Proof. intros. rewrite (lor_clear_field _ v i w) by done. by destruct V as [-> _]. Qed.

End view.

Lemma view_set_kind s r0 r1 r2 r3 k n k' :
  small_view s r0 r1 r2 r3 k n -> 0 <= k' <= SUFFIX_MAX ->
  small_view (small_set_suffix_kind s k') r0 r1 r2 r3 k'
    (if (k' =? SUFFIX_NONE) || (k' =? SUFFIX_LOCAL) then 0 else n).
Proof.
  intros V Hk. pose proof (view_u64 _ _ _ _ _ _ _ V) as Hu.
  set (repr := Z.lor
    (Z.land (small_repr s) (u64_not (Z.shiftl SUFFIX_KIND_MASK SUFFIX_VERSION_BIT_LEN)))
    (Z.shiftl k' SUFFIX_VERSION_BIT_LEN)).
  assert (repr = pack r0 r1 r2 r3 k' n) as Hr.
  { unfold repr. rewrite land_not_sub by (done || unfold is_u64; done).
    change SUFFIX_KIND_MASK with (Z.ones 4). unfold SUFFIX_VERSION_BIT_LEN.
    rewrite land_shiftl_ones by done.
    rewrite (lor_clear_field _ k' 20 4); [|done|done|small_unfold; lia|];
      small_unfold; zdivmod. }
  assert (small_view (mkSmall repr (small_len s)) r0 r1 r2 r3 k' n) as V'
    by (small_unfold; lia).
  unfold small_set_suffix_kind. fold repr.
  destruct ((k' =? SUFFIX_NONE) || (k' =? SUFFIX_LOCAL)); [|done].
  eapply view_set_version; done.
Qed.

(** ** The invariant and what the setters do to the unpacked version *)

(** Release bytes past [len] are clear, and a suffix without a number stores zero. *)
Definition small_wf (s : VersionSmall) : Prop :=
  exists r0 r1 r2 r3 k n, small_view s r0 r1 r2 r3 k n /\
    0 <= small_len s <= 4 /\
    (small_len s < 1 -> r0 = 0) /\ (small_len s < 2 -> r1 = 0) /\
    (small_len s < 3 -> r2 = 0) /\ (small_len s < 4 -> r3 = 0) /\
    (k = SUFFIX_NONE \/ k = SUFFIX_LOCAL -> n = 0).

(** The full version a packed one stands for, as built by [Version::make_full]. *)
Definition small_to_full (s : VersionSmall) : VersionFull :=
  {| full_epoch := small_epoch s;
     full_release := default [] (small_release s);
     full_min := small_min s;
     full_max := small_max s;
     full_pre := small_pre s;
     full_post := small_post s;
     full_dev := small_dev s;
     full_local := small_local s |}.

(** The suffix components as functions of the suffix kind and version. *)
Definition suffix_full (release : list Z) (k n : Z) : VersionFull :=
  {| full_epoch := 0;
     full_release := release;
     full_min := if k =? SUFFIX_MIN then Some n else None;
     full_max := if k =? SUFFIX_MAX then Some n else None;
     full_pre :=
       if k =? SUFFIX_PRE_ALPHA then Some (mkPrerelease Alpha n)
       else if k =? SUFFIX_PRE_BETA then Some (mkPrerelease Beta n)
       else if k =? SUFFIX_PRE_RC then Some (mkPrerelease Rc n) else None;
     full_post := if k =? SUFFIX_POST then Some n else None;
     full_dev := if k =? SUFFIX_DEV then Some n else None;
     full_local := if k =? SUFFIX_LOCAL then LocalMax else local_empty |}.

Lemma view_to_full s r0 r1 r2 r3 k n :
  small_view s r0 r1 r2 r3 k n -> 0 <= small_len s <= 4 ->
  small_to_full s = suffix_full (take (Z.to_nat (small_len s)) [r0; r1; r2; r3]) k n.
Proof.
  intros V Hl. unfold small_to_full, suffix_full, small_min, small_max, small_pre, small_post,
    small_dev, small_local.
  by rewrite (view_release _ _ _ _ _ _ _ V Hl), (view_kind _ _ _ _ _ _ _ V),
    (view_version _ _ _ _ _ _ _ V).
Qed.

Lemma small_set_kind_len s k : small_len (small_set_suffix_kind s k) = small_len s.
Proof. unfold small_set_suffix_kind. by destruct (_ || _)%bool. Qed.

Lemma small_set_version_len s v : small_len (small_set_suffix_version s v) = small_len s.
Proof. done. Qed.

(** Split on the nine suffix kinds. *)
Ltac split_kind k Hk :=
  unfold SUFFIX_MAX in Hk;
  assert (k = 0 \/ k = 1 \/ k = 2 \/ k = 3 \/ k = 4 \/ k = 5 \/ k = 6 \/ k = 7 \/ k = 8)
    as [->|[->|[->|[->|[->|[->|[->|[->| ->]]]]]]]] by lia.

(** Rebuild the invariant and the unpacked version from a view of the new state. *)
Lemma small_wf_intro s s' r0 r1 r2 r3 k n :
  small_view s' r0 r1 r2 r3 k n -> small_len s' = small_len s -> 0 <= small_len s <= 4 ->
  (small_len s < 1 -> r0 = 0) -> (small_len s < 2 -> r1 = 0) ->
  (small_len s < 3 -> r2 = 0) -> (small_len s < 4 -> r3 = 0) ->
  (k = SUFFIX_NONE \/ k = SUFFIX_LOCAL -> n = 0) ->
  small_wf s' /\
  small_to_full s' = suffix_full (take (Z.to_nat (small_len s)) [r0; r1; r2; r3]) k n.
Proof.
  intros V Hl **. split.
  - exists r0, r1, r2, r3, k, n. rewrite Hl. done.
  - rewrite (view_to_full _ _ _ _ _ _ _ V) by (rewrite Hl; lia). by rewrite Hl.
Qed.

(** Setting a suffix kind and, when it carries one, its number. *)
Lemma small_set_suffix_spec s r0 r1 r2 r3 k n k' v :
  small_view s r0 r1 r2 r3 k n -> 0 <= small_len s <= 4 ->
  (small_len s < 1 -> r0 = 0) -> (small_len s < 2 -> r1 = 0) ->
  (small_len s < 3 -> r2 = 0) -> (small_len s < 4 -> r3 = 0) ->
  0 <= k' <= SUFFIX_MAX -> 0 <= v < 2 ^ 20 ->
  (k' = SUFFIX_NONE \/ k' = SUFFIX_LOCAL -> v = 0) ->
  small_wf (small_set_suffix_version (small_set_suffix_kind s k') v) /\
  small_to_full (small_set_suffix_version (small_set_suffix_kind s k') v) =
    suffix_full (take (Z.to_nat (small_len s)) [r0; r1; r2; r3]) k' v.
Proof.
  intros V **. eapply small_wf_intro; [|by rewrite small_set_version_len, small_set_kind_len|done..].
  eapply view_set_version; [|done]. by apply view_set_kind with (k := k) (n := n).
Qed.

Lemma small_clear_suffix_spec s r0 r1 r2 r3 k n k' :
  small_view s r0 r1 r2 r3 k n -> 0 <= small_len s <= 4 ->
  (small_len s < 1 -> r0 = 0) -> (small_len s < 2 -> r1 = 0) ->
  (small_len s < 3 -> r2 = 0) -> (small_len s < 4 -> r3 = 0) ->
  k' = SUFFIX_NONE \/ k' = SUFFIX_LOCAL ->
  small_wf (small_set_suffix_kind s k') /\
  small_to_full (small_set_suffix_kind s k') =
    suffix_full (take (Z.to_nat (small_len s)) [r0; r1; r2; r3]) k' 0.
Proof.
  intros V ????? Hk'. eapply small_wf_intro; [|by rewrite small_set_kind_len|done..].
  assert (0 <= k' <= SUFFIX_MAX) as Hk by (unfold SUFFIX_NONE, SUFFIX_LOCAL, SUFFIX_MAX in *; lia).
  pose proof (view_set_kind _ _ _ _ _ _ _ k' V Hk) as V'.
  by assert ((k' =? SUFFIX_NONE) || (k' =? SUFFIX_LOCAL) = true) as E
    by (destruct Hk' as [-> | ->]; done); rewrite E in V'.
Qed.

(** Open a setter on a view of its state and split on the suffix kind: either the setter leaves
    the state alone, or it writes a kind that the two lemmas above describe. *)
Ltac small_setter s :=
  intros (r0 & r1 & r2 & r3 & k & n & V & Hl & H0 & H1 & H2 & H3 & Hn);
  pose proof (view_kind _ _ _ _ _ _ _ V) as Ek;
  pose proof (view_to_full _ _ _ _ _ _ _ V Hl) as Ef;
  assert (small_wf s) as W by (exists r0, r1, r2, r3, k, n; done);
  assert (0 <= k <= SUFFIX_MAX) as Hk by (destruct V; lia);
  try rewrite Ek.

Ltac small_const :=
  simpl in *;
  unfold SUFFIX_MIN, SUFFIX_DEV, SUFFIX_PRE_ALPHA, SUFFIX_PRE_BETA, SUFFIX_PRE_RC, SUFFIX_NONE,
    SUFFIX_LOCAL, SUFFIX_POST, SUFFIX_MAX, SUFFIX_VERSION_MASK, is_u64 in *; lia.

Ltac small_write :=
  lazymatch goal with
  | V : small_view ?s _ _ _ _ _ _
    |- small_wf (small_set_suffix_version (small_set_suffix_kind ?s ?k') ?v) /\ _ =>
      let W' := fresh "W" in let E' := fresh "E" in
      edestruct (small_set_suffix_spec s _ _ _ _ _ _ k' v V) as [W' E'];
      [ done | done | done | done | done | small_const | small_const | small_const
      | split; [exact W' | rewrite E']]
  | V : small_view ?s _ _ _ _ _ _ |- small_wf (small_set_suffix_kind ?s ?k') /\ _ =>
      let W' := fresh "W" in let E' := fresh "E" in
      edestruct (small_clear_suffix_spec s _ _ _ _ _ _ k' V) as [W' E'];
      [ done | done | done | done | done | auto | split; [exact W' | rewrite E']]
  end.

Lemma small_set_post_true s v s' :
  small_wf s -> from_option is_u64 True v -> small_set_post s v = (true, s') ->
  small_wf s' /\ small_to_full s' = full_set_post (small_to_full s) v.
Proof.
  unfold small_set_post. small_setter s. intros Hv. rewrite Ef.
  split_kind k Hk; simpl; destruct v as [v|]; try zif; intros [= <-];
    try (split; [exact W | by rewrite Ef]).
  all: small_write; done.
Qed.

Lemma small_set_dev_true s v s' :
  small_wf s -> from_option is_u64 True v -> small_set_dev s v = (true, s') ->
  small_wf s' /\ small_to_full s' = full_set_dev (small_to_full s) v.
Proof.
  unfold small_set_dev. small_setter s. intros Hv. rewrite Ef.
  split_kind k Hk; simpl; destruct v as [v|]; try zif; intros [= <-];
    try (split; [exact W | by rewrite Ef]).
  all: small_write; done.
Qed.

Lemma small_set_min_true s v s' :
  small_wf s -> from_option is_u64 True v -> small_set_min s v = (true, s') ->
  small_wf s' /\ small_to_full s' = full_set_min (small_to_full s) v.
Proof.
  unfold small_set_min. small_setter s. intros Hv. rewrite Ef.
  split_kind k Hk; simpl; destruct v as [v|]; try zif; intros [= <-];
    try (split; [exact W | by rewrite Ef]).
  all: small_write; done.
Qed.

Lemma small_set_max_true s v s' :
  small_wf s -> from_option is_u64 True v -> small_set_max s v = (true, s') ->
  small_wf s' /\ small_to_full s' = full_set_max (small_to_full s) v.
Proof.
  unfold small_set_max. small_setter s. intros Hv. rewrite Ef.
  split_kind k Hk; simpl; destruct v as [v|]; try zif; intros [= <-];
    try (split; [exact W | by rewrite Ef]).
  all: small_write; done.
Qed.

Lemma small_set_pre_true s v s' :
  small_wf s -> from_option (fun p => is_u64 (pre_number p)) True v ->
  small_set_pre s v = (true, s') ->
  small_wf s' /\ small_to_full s' = full_set_pre (small_to_full s) v.
Proof.
  unfold small_set_pre. small_setter s. intros Hv. rewrite Ef.
  split_kind k Hk; simpl; destruct v as [[[] v]|]; try zif; intros [= <-];
    try (split; [exact W | by rewrite Ef]).
  all: small_write; done.
Qed.

Lemma small_set_local_true s v s' :
  small_wf s -> small_set_local s v = (true, s') ->
  small_wf s' /\ small_to_full s' = full_set_local (small_to_full s) v.
Proof.
  unfold small_set_local. small_setter s. rewrite Ef.
  split_kind k Hk; simpl; destruct v as [[|]|]; intros [= <-];
    try (split; [exact W | by rewrite Ef]).
  all: small_write; done.
Qed.

Lemma small_clear_release_spec s :
  small_wf s ->
  small_wf (small_clear_release s) /\
  small_to_full (small_clear_release s) = full_set_release (small_to_full s) [].
Proof.
  small_setter s. pose proof (view_clear _ _ _ _ _ _ _ V) as V'.
  rewrite Ef, (view_to_full _ _ _ _ _ _ _ V') by done. split; [|done].
  exists 0, 0, 0, 0, k, n. done.
Qed.

(** The state after a release number is stored in the next free place. *)
Lemma small_push_view s n s' r0 r1 r2 r3 k m :
  small_view s r0 r1 r2 r3 k m -> 0 <= small_len s <= 4 ->
  (small_len s < 1 -> r0 = 0) -> (small_len s < 2 -> r1 = 0) ->
  (small_len s < 3 -> r2 = 0) -> (small_len s < 4 -> r3 = 0) ->
  0 <= n -> small_push_release s n = (true, s') ->
  small_len s' = small_len s + 1 /\ small_len s <= 3 /\
  (small_len s = 0 -> small_view s' n r1 r2 r3 k m) /\
  (small_len s = 1 -> small_view s' r0 n r2 r3 k m) /\
  (small_len s = 2 -> small_view s' r0 r1 n r3 k m) /\
  (small_len s = 3 -> small_view s' r0 r1 r2 n k m).
Proof.
  intros V Hl H0 H1 H2 H3 Hn. unfold small_push_release, U16_MAX, U8_MAX.
  destruct (Z.eqb_spec (small_len s) 0) as [e|];
    [zif; intros [= <-]|repeat (zif; simpl); intros [= <-]]; simpl small_len.
  - rewrite e. split_and!; try lia; intros _. unfold small_view; simpl small_repr.
    rewrite (view_lor_seg _ _ _ _ _ _ _ V n 48 16) by (lia || small_unfold; zdivmod).
    small_unfold; lia.
  - split_and!; try lia; intros E; rewrite E in *; unfold small_view; simpl small_repr.
    all: change (48 - 1 * 8) with 40; change (48 - 2 * 8) with 32; change (48 - 3 * 8) with 24.
    all: erewrite (view_lor_seg _ _ _ _ _ _ _ V n _ 8) by (lia || small_unfold; zdivmod).
    all: small_unfold; lia.
Qed.

Lemma small_push_release_true s n s' :
  small_wf s -> 0 <= n -> small_push_release s n = (true, s') ->
  small_wf s' /\
  small_to_full s' = full_set_release (small_to_full s) (full_release (small_to_full s) ++ [n]).
Proof.
  intros (r0 & r1 & r2 & r3 & k & m & V & Hl & H0 & H1 & H2 & H3 & Hm) Hn Hp.
  rewrite (view_to_full _ _ _ _ _ _ _ V Hl).
  destruct (small_push_view s n s' r0 r1 r2 r3 k m) as (El & Hlt & W0 & W1 & W2 & W3); try done.
  assert (small_len s = 0 \/ small_len s = 1 \/ small_len s = 2 \/ small_len s = 3)
    as [E|[E|[E|E]]] by lia;
    [specialize (W0 E) as V'|specialize (W1 E) as V'|specialize (W2 E) as V'
    |specialize (W3 E) as V'].
  all: split; [do 6 eexists; split; [exact V'|split_and!; try lia; done]|].
  all: rewrite (view_to_full _ _ _ _ _ _ _ V') by lia; rewrite El, E; simpl.
  all: unfold suffix_full, full_set_release; simpl; done.
Qed.

(** A setter that reports failure leaves the packed version unchanged. *)
Lemma small_setters_false s s' :
  (forall v, small_set_post s v = (false, s') -> s' = s) /\
  (forall v, small_set_pre s v = (false, s') -> s' = s) /\
  (forall v, small_set_dev s v = (false, s') -> s' = s) /\
  (forall v, small_set_min s v = (false, s') -> s' = s) /\
  (forall v, small_set_max s v = (false, s') -> s' = s) /\
  (forall v, small_set_local s v = (false, s') -> s' = s) /\
  (forall v, small_set_epoch s v = (false, s') -> s' = s) /\
  (forall v, small_push_release s v = (false, s') -> s' = s).
Proof.
  unfold small_set_post, small_set_pre, small_set_dev, small_set_min, small_set_max,
    small_set_local, small_set_epoch, small_push_release.
  split_and!; intros v H; repeat case_match; by simplify_eq.
Qed.

Lemma small_set_epoch_true s v s' :
  small_set_epoch s v = (true, s') -> s' = s /\ v = 0.
Proof. unfold small_set_epoch. zif; by intros [= <-]. Qed.

Lemma small_new_spec :
  small_wf small_new /\
  small_to_full small_new = mkFull 0 [] None None None local_empty None None.
Proof. split; [|done]. exists 0, 0, 0, 0, 5, 0. done. Qed.

(** The invariant leaves one packed form per version. *)
Lemma suffix_full_inj r r' k n k' n' :
  suffix_full r k n = suffix_full r' k' n' -> 0 <= k <= SUFFIX_MAX -> 0 <= k' <= SUFFIX_MAX ->
  (k = SUFFIX_NONE \/ k = SUFFIX_LOCAL -> n = 0) ->
  (k' = SUFFIX_NONE \/ k' = SUFFIX_LOCAL -> n' = 0) ->
  r = r' /\ k = k' /\ n = n'.
Proof.
  intros E Hk Hk' Hn Hn'. unfold suffix_full, SUFFIX_NONE, SUFFIX_LOCAL in *.
  split_kind k Hk; split_kind k' Hk'; injection E; intros; simplify_eq; split_and!; try done; lia.
Qed.

Lemma small_to_full_inj s s' :
  small_wf s -> small_wf s' -> small_to_full s = small_to_full s' -> s = s'.
Proof.
  intros (r0 & r1 & r2 & r3 & k & n & V & Hl & H0 & H1 & H2 & H3 & Hm)
    (t0 & t1 & t2 & t3 & k' & n' & V' & Hl' & G0 & G1 & G2 & G3 & Gm).
  rewrite (view_to_full _ _ _ _ _ _ _ V Hl), (view_to_full _ _ _ _ _ _ _ V' Hl').
  intros E. apply suffix_full_inj in E as (E & <- & <-); [|apply V|apply V'|done..].
  pose proof (f_equal length E) as L. rewrite !length_take in L. cbn [length] in L.
  destruct V as [V _], V' as [V' _]. destruct s as [w l], s' as [w' l'].
  cbn [small_repr small_len] in *. assert (l = l') as <- by lia. subst w w'. f_equal.
  assert (l = 0 \/ l = 1 \/ l = 2 \/ l = 3 \/ l = 4) as [->|[->|[->|[->| ->]]]] by lia;
    simpl in E; simplify_eq; f_equal; rewrite ?H0, ?H1, ?H2, ?H3, ?G0, ?G1, ?G2, ?G3 by lia; done.
Qed.
