(* ===== verification/Version.v ===== *)
(** * Versions

    [Version] of [crates/uv-pep440/src/version.rs]: the packed or the full representation behind
    one set of accessors and setters, and the operations built from them. The full representation
    is the specification of the packed one: [version_make_full] is the abstraction function, and
    every setter is shown to be the assignment of one field of the full version. *)

From stdpp Require Import base list option numbers decidable.
From Stdlib Require Import ZArith Lia.
From S2P Require Import Prelude VersionTypes VersionSmall.

Local Open Scope Z_scope.

(** ** Representation and accessors *)

(** The [Arc] of the full variant is copied on write, so its value is all there is to model. *)
Inductive Version : Type :=
| Small (small : VersionSmall)
| Full (full : VersionFull).

Definition version_epoch (v : Version) : Z :=
  match v with
  | Small small => small_epoch small
  | Full full => full_epoch full
  end.

(** [None] stands for the [unreachable!] arm of the packed representation. *)
Definition version_release_inner (v : Version) : option (list Z) :=
  match v with
  | Small small => small_release small
  | Full full => Some (full_release full)
  end.

Definition version_release (v : Version) : list Z := default [] (version_release_inner v).

Definition version_pre (v : Version) : option Prerelease :=
  match v with
  | Small small => small_pre small
  | Full full => full_pre full
  end.

Definition version_post (v : Version) : option Z :=
  match v with
  | Small small => small_post small
  | Full full => full_post full
  end.

Definition version_dev (v : Version) : option Z :=
  match v with
  | Small small => small_dev small
  | Full full => full_dev full
  end.

Definition version_local (v : Version) : LocalVersionSlice :=
  match v with
  | Small small => small_local_slice small
  | Full full => local_as_slice (full_local full)
  end.

Definition version_min (v : Version) : option Z :=
  match v with
  | Small small => small_min small
  | Full full => full_min full
  end.

Definition version_max (v : Version) : option Z :=
  match v with
  | Small small => small_max small
  | Full full => full_max full
  end.

Definition version_is_pre (v : Version) : bool := bool_decide (is_Some (version_pre v)).
Definition version_is_dev (v : Version) : bool := bool_decide (is_Some (version_dev v)).
Definition version_is_post (v : Version) : bool := bool_decide (is_Some (version_post v)).
Definition version_any_prerelease (v : Version) : bool := version_is_pre v || version_is_dev v.
Definition version_is_stable (v : Version) : bool :=
  negb (version_is_pre v) && negb (version_is_dev v).
Definition version_is_local (v : Version) : bool := negb (local_is_empty (version_local v)).

(** ** Setters *)

(** [make_full]: the full version the packed one is replaced by. *)
Definition version_make_full (v : Version) : VersionFull :=
  match v with
  | Small small => small_to_full small
  | Full full => full
  end.

(** The shape of every setter: try the packed representation, and write the field of the full
    one when the value does not fit or the version is already full. *)
Definition version_set (set_small : VersionSmall -> bool * VersionSmall)
    (set_full : VersionFull -> VersionFull) (v : Version) : Version :=
  match v with
  | Small small =>
      match set_small small with
      | (true, small') => Small small'
      | (false, small') => Full (set_full (version_make_full (Small small')))
      end
  | Full _ => Full (set_full (version_make_full v))
  end.

Definition version_push_release (v : Version) (n : Z) : Version :=
  version_set (fun s => small_push_release s n)
    (fun f => full_set_release f (full_release f ++ [n])) v.

Definition version_clear_release (v : Version) : Version :=
  match v with
  | Small small => Small (small_clear_release small)
  | Full full => Full (full_set_release full [])
  end.

(** [None] stands for the failed assertion that the release has a non-zero size. *)
Definition version_with_release (v : Version) (release_numbers : list Z) : option Version :=
  let v := version_clear_release v in
  let v := foldl version_push_release v release_numbers in
  match version_release v with
  | [] => None
  | _ :: _ => Some v
  end.

Definition version_new (release_numbers : list Z) : option Version :=
  version_with_release (Small small_new) release_numbers.

Definition version_with_epoch (v : Version) (value : Z) : Version :=
  version_set (fun s => small_set_epoch s value) (fun f => full_set_epoch f value) v.

Definition version_with_pre (v : Version) (value : option Prerelease) : Version :=
  version_set (fun s => small_set_pre s value) (fun f => full_set_pre f value) v.

Definition version_with_post (v : Version) (value : option Z) : Version :=
  version_set (fun s => small_set_post s value) (fun f => full_set_post f value) v.

Definition version_with_dev (v : Version) (value : option Z) : Version :=
  version_set (fun s => small_set_dev s value) (fun f => full_set_dev f value) v.

Definition version_without_local (v : Version) : Version :=
  version_set (fun s => small_set_local s local_empty) (fun f => full_set_local f local_empty) v.

Definition version_with_local_segments (v : Version) (value : list LocalSegment) : Version :=
  match value with
  | [] => version_without_local v
  | _ :: _ => Full (full_set_local (version_make_full v) (Segments value))
  end.

Definition version_with_local (v : Version) (value : LocalVersion) : Version :=
  match value with
  | Segments segments => version_with_local_segments v segments
  | LocalMax =>
      version_set (fun s => small_set_local s LocalMax) (fun f => full_set_local f value) v
  end.

Definition version_with_min (v : Version) (value : option Z) : Version :=
  version_set (fun s => small_set_min s value) (fun f => full_set_min f value) v.

Definition version_with_max (v : Version) (value : option Z) : Version :=
  version_set (fun s => small_set_max s value) (fun f => full_set_max f value) v.

(** ** Derived operations *)

(** The outer [None] is a panic of [Version::new]; the inner one is the result for a
    precision of zero. *)
Definition version_only_release_at_precision (v : Version) (precision : nat) :
    option (option Version) :=
  let release := take precision (version_release v ++ replicate precision 0) in
  match release with
  | [] => Some None
  | _ :: _ =>
      match version_new release with
      | Some w => Some (Some (version_with_epoch w (version_epoch v)))
      | None => None
      end
  end.

Definition version_only_release (v : Version) : option Version :=
  version_new (version_release v).

Definition version_only_minor_release (v : Version) : option Version :=
  version_new (take 2 (version_release v)).

Definition version_only_release_trimmed (v : Version) : option Version :=
  match rposition (fun segment => negb (segment =? 0)) (version_release v) with
  | Some last_non_zero =>
      if (S last_non_zero =? length (version_release v))%nat
         && (version_epoch v =? 0)
         && bool_decide (version_pre v = None)
         && bool_decide (version_post v = None)
         && bool_decide (version_dev v = None)
         && local_is_empty (version_local v)
         && bool_decide (version_min v = None)
         && bool_decide (version_max v = None)
      then Some v
      else version_new (take (S last_non_zero) (version_release v))
  | None => version_new [0]
  end.

(** The loop that pops zeros off the end of the release. *)
Definition pop_trailing_zeros (release : list Z) : list Z :=
  rev (skip_while (fun x => x =? 0) (rev release)).

Definition version_without_trailing_zeros (v : Version) : option Version :=
  version_with_release v (pop_trailing_zeros (version_release v)).

Inductive BumpCommand : Type :=
| BumpRelease (index : nat) (value : option Z)
| BumpPrerelease (kind : PrereleaseKind) (value : option Z)
| MakeStable
| BumpPost (value : option Z)
| BumpDev (value : option Z).

(** The release after its component at [index] is bumped. *)
Definition bump_release_vec (old_parts : list Z) (index : nat) (value : option Z) : list Z :=
  (fun i : nat =>
     match Nat.compare i index with
     | Lt => default 0 (old_parts !! i)
     | Eq =>
         match value with
         | Some value => value
         | None => u64_wrapping_add (default 0 (old_parts !! i)) 1
         end
     | Gt => 0
     end) <$> seq 0 (Nat.max (length old_parts) (index + 1)).

(** The number after a bump: the explicit value, else the successor, else one. *)
Definition bump_number (old value : option Z) : option Z :=
  match value with
  | Some value => Some value
  | None =>
      match old with
      | Some n => Some (u64_wrapping_add n 1)
      | None => Some 1
      end
  end.

Definition version_bump (v : Version) (bump : BumpCommand) : Version :=
  let full := version_make_full v in
  Full match bump with
  | BumpRelease index value =>
      let full := full_set_dev (full_set_post (full_set_pre full None) None) None in
      full_set_release full (bump_release_vec (full_release full) index value)
  | MakeStable => full_set_dev (full_set_post (full_set_pre full None) None) None
  | BumpPrerelease kind value =>
      let full := full_set_dev (full_set_post full None) None in
      match value with
      | Some value => full_set_pre full (Some (mkPrerelease kind value))
      | None =>
          match full_pre full with
          | Some prerelease =>
              if bool_decide (pre_kind prerelease = kind) then
                full_set_pre full
                  (Some (mkPrerelease (pre_kind prerelease)
                           (u64_wrapping_add (pre_number prerelease) 1)))
              else full_set_pre full (Some (mkPrerelease kind 1))
          | None => full_set_pre full (Some (mkPrerelease kind 1))
          end
      end
  | BumpPost value =>
      let full := full_set_dev full None in
      full_set_post full (bump_number (full_post full) value)
  | BumpDev value => full_set_dev full (bump_number (full_dev full) value)
  end.

(** ** Well-formed versions *)

Definition opt_u64 (o : option Z) : Prop := from_option is_u64 True o.
Definition opt_pre_u64 (o : option Prerelease) : Prop :=
  from_option (fun p => is_u64 (pre_number p)) True o.

(** A local segment is a [u64] or a string of bytes. *)
Definition segment_wf (s : LocalSegment) : Prop :=
  match s with
  | LocalNumber n => is_u64 n
  | LocalString s => Forall is_u8 s
  end.

Definition local_wf (l : LocalVersion) : Prop :=
  match l with
  | Segments segments => Forall segment_wf segments
  | LocalMax => True
  end.

(** Every number of the version fits its type. *)
Record full_wf (f : VersionFull) : Prop := {
  fwf_epoch : is_u64 (full_epoch f);
  fwf_release : Forall is_u64 (full_release f);
  fwf_pre : opt_pre_u64 (full_pre f);
  fwf_post : opt_u64 (full_post f);
  fwf_dev : opt_u64 (full_dev f);
  fwf_local : local_wf (full_local f);
  fwf_min : opt_u64 (full_min f);
  fwf_max : opt_u64 (full_max f)
}.

(** The type invariant of both representations. *)
Definition version_rep_wf (v : Version) : Prop :=
  match v with
  | Small small => small_wf small
  | Full full => full_wf full
  end.

(** What callers see: the invariant, and a release with at least one number. *)
Definition version_wf (v : Version) : Prop := version_rep_wf v /\ version_release v <> [].

Lemma small_wf_full s : small_wf s -> full_wf (small_to_full s).
Proof.
  intros (r0 & r1 & r2 & r3 & k & n & V & Hl & _).
  rewrite (view_to_full _ _ _ _ _ _ _ V Hl).
  assert (is_u64 n) as Hn by (small_unfold; lia).
  split; unfold suffix_full; simpl; unfold opt_u64, opt_pre_u64; repeat case_match; simpl;
    try done.
  apply Forall_take. repeat constructor; small_unfold; lia.
Qed.

Lemma version_rep_wf_full v : version_rep_wf v -> full_wf (version_make_full v).
Proof. destruct v; [apply small_wf_full|done]. Qed.

(** The accessors read the fields of the full version. *)
Lemma version_access v :
  version_epoch v = full_epoch (version_make_full v) /\
  version_release v = full_release (version_make_full v) /\
  version_pre v = full_pre (version_make_full v) /\
  version_post v = full_post (version_make_full v) /\
  version_dev v = full_dev (version_make_full v) /\
  version_local v = full_local (version_make_full v) /\
  version_min v = full_min (version_make_full v) /\
  version_max v = full_max (version_make_full v).
Proof. destruct v; [done|]. simpl. by rewrite local_as_slice_id. Qed.

Lemma epoch_full v : version_epoch v = full_epoch (version_make_full v).
Proof. apply version_access. Qed.
Lemma release_full v : version_release v = full_release (version_make_full v).
Proof. apply version_access. Qed.
Lemma pre_full v : version_pre v = full_pre (version_make_full v).
Proof. apply version_access. Qed.
Lemma post_full v : version_post v = full_post (version_make_full v).
Proof. apply version_access. Qed.
Lemma dev_full v : version_dev v = full_dev (version_make_full v).
Proof. apply version_access. Qed.
Lemma local_full v : version_local v = full_local (version_make_full v).
Proof. apply version_access. Qed.
Lemma min_full v : version_min v = full_min (version_make_full v).
Proof. apply version_access. Qed.
Lemma max_full v : version_max v = full_max (version_make_full v).
Proof. apply version_access. Qed.

Create Rewrite HintDb full.
#[export] Hint Rewrite epoch_full release_full pre_full post_full dev_full local_full
  min_full max_full : full.

(** The release is always available on a well-formed version. *)
Lemma version_release_total v : version_rep_wf v -> is_Some (version_release_inner v).
Proof.
  destruct v as [s|f]; simpl; [|done].
  intros (r0 & r1 & r2 & r3 & k & n & V & Hl & _).
  rewrite (view_release _ _ _ _ _ _ _ V Hl). done.
Qed.

(** ** Setters assign one field of the full version *)

(** A setter implements an update of the full version. *)
Definition implements (f : VersionFull -> VersionFull) (g : Version -> Version) : Prop :=
  forall v, version_rep_wf v ->
    version_rep_wf (g v) /\ version_make_full (g v) = f (version_make_full v).

Lemma version_set_implements set_small set_full :
  (forall s s', small_wf s -> set_small s = (true, s') ->
     small_wf s' /\ small_to_full s' = set_full (small_to_full s)) ->
  (forall s s', set_small s = (false, s') -> s' = s) ->
  (forall f, full_wf f -> full_wf (set_full f)) ->
  implements set_full (version_set set_small set_full).
Proof.
  intros Ht Hf Hw [s|f] W; simpl in *.
  - destruct (set_small s) as [[] s'] eqn:E.
    + by apply Ht.
    + apply Hf in E as ->. split; [|done]. by apply Hw, small_wf_full.
  - split; [by apply Hw|done].
Qed.

Lemma full_wf_set f :
  full_wf f ->
  (forall x, is_u64 x -> full_wf (full_set_epoch f x)) /\
  (forall x, Forall is_u64 x -> full_wf (full_set_release f x)) /\
  (forall x, opt_pre_u64 x -> full_wf (full_set_pre f x)) /\
  (forall x, opt_u64 x -> full_wf (full_set_post f x)) /\
  (forall x, opt_u64 x -> full_wf (full_set_dev f x)) /\
  (forall x, local_wf x -> full_wf (full_set_local f x)) /\
  (forall x, opt_u64 x -> full_wf (full_set_min f x)) /\
  (forall x, opt_u64 x -> full_wf (full_set_max f x)).
Proof. intros []. split_and!; intros x Hx; split; done. Qed.

(** A setter of the packed version, described by [lem], implements its field assignment. *)
Ltac setter_implements lem :=
  intros Hx; apply version_set_implements;
  [ intros s s' W; by apply lem
  | intros s s'; apply small_setters_false
  | intros f Hf; by apply full_wf_set ].

Lemma with_epoch_implements x :
  is_u64 x -> implements (fun f => full_set_epoch f x) (fun v => version_with_epoch v x).
Proof.
  intros Hx. apply version_set_implements.
  - intros s s' W [-> ->]%small_set_epoch_true. split; [done|]. by destruct s.
  - intros s s'. apply small_setters_false.
  - intros f Hf. by apply full_wf_set.
Qed.

Lemma with_pre_implements x :
  opt_pre_u64 x -> implements (fun f => full_set_pre f x) (fun v => version_with_pre v x).
Proof. setter_implements small_set_pre_true. Qed.

Lemma with_post_implements x :
  opt_u64 x -> implements (fun f => full_set_post f x) (fun v => version_with_post v x).
Proof. setter_implements small_set_post_true. Qed.

Lemma with_dev_implements x :
  opt_u64 x -> implements (fun f => full_set_dev f x) (fun v => version_with_dev v x).
Proof. setter_implements small_set_dev_true. Qed.

Lemma with_min_implements x :
  opt_u64 x -> implements (fun f => full_set_min f x) (fun v => version_with_min v x).
Proof. setter_implements small_set_min_true. Qed.

Lemma with_max_implements x :
  opt_u64 x -> implements (fun f => full_set_max f x) (fun v => version_with_max v x).
Proof. setter_implements small_set_max_true. Qed.

Lemma set_local_implements x :
  local_wf x ->
  implements (fun f => full_set_local f x)
    (version_set (fun s => small_set_local s x) (fun f => full_set_local f x)).
Proof. setter_implements small_set_local_true. Qed.

Lemma without_local_implements :
  implements (fun f => full_set_local f local_empty) version_without_local.
Proof. apply set_local_implements. simpl. constructor. Qed.

Lemma with_local_implements x :
  local_wf x -> implements (fun f => full_set_local f x) (fun v => version_with_local v x).
Proof.
  intros Hx. destruct x as [[|seg segs]|]; simpl.
  - apply without_local_implements.
  - intros v W. split; [|done]. simpl. by apply full_wf_set; [apply version_rep_wf_full|].
  - by apply set_local_implements.
Qed.

Lemma push_release_implements n :
  is_u64 n ->
  implements (fun f => full_set_release f (full_release f ++ [n]))
    (fun v => version_push_release v n).
Proof.
  intros Hn. apply version_set_implements.
  - intros s s' W. apply small_push_release_true; [done|apply Hn].
  - intros s s'. apply small_setters_false.
  - intros f Hf. apply full_wf_set; [done|]. apply Forall_app. split; [apply Hf|by constructor].
Qed.

Lemma clear_release_implements :
  implements (fun f => full_set_release f []) version_clear_release.
Proof.
  intros [s|f] W; simpl in *; [by apply small_clear_release_spec|].
  split; [|done]. by apply full_wf_set.
Qed.

Lemma foldl_push_implements ns :
  Forall is_u64 ns ->
  implements (fun f => full_set_release f (full_release f ++ ns))
    (fun v => foldl version_push_release v ns).
Proof.
  induction ns as [|n ns IH]; intros Hns v W; simpl.
  - split; [done|]. destruct (version_make_full v). unfold full_set_release; simpl.
    by rewrite app_nil_r.
  - inversion Hns as [|?? Hn Hns']; subst.
    destruct (push_release_implements n Hn v W) as [W1 E1].
    destruct (IH Hns' _ W1) as [W2 E2]. split; [done|]. rewrite E2, E1.
    unfold full_set_release; simpl. by rewrite <- app_assoc.
Qed.

(** [with_release] fails exactly on the empty list, and otherwise replaces the release. *)
Lemma with_release_spec v ns :
  version_rep_wf v -> Forall is_u64 ns ->
  match version_with_release v ns with
  | None => ns = []
  | Some w => ns <> [] /\ version_wf w /\
      version_make_full w = full_set_release (version_make_full v) ns
  end.
Proof.
  intros W Hns. unfold version_with_release.
  destruct (clear_release_implements v W) as [W1 E1].
  destruct (foldl_push_implements ns Hns _ W1) as [W2 E2].
  assert (version_release (foldl version_push_release (version_clear_release v) ns) = ns) as Er.
  { rewrite release_full, E2, E1. done. }
  rewrite Er. destruct ns as [|n ns]; [done|].
  split; [done|]. split; [split; [done|by rewrite Er]|].
  by rewrite E2, E1.
Qed.

(** A new version has the given release and nothing else. *)
Lemma new_spec ns :
  Forall is_u64 ns ->
  match version_new ns with
  | None => ns = []
  | Some w => ns <> [] /\ version_wf w /\
      version_make_full w = mkFull 0 ns None None None local_empty None None
  end.
Proof.
  intros Hns. unfold version_new. destruct small_new_spec as [Wn En].
  pose proof (with_release_spec (Small small_new) ns Wn Hns) as H.
  destruct (version_with_release _ _); [|done]. destruct H as (? & ? & H).
  split; [done|]. split; [done|]. rewrite H. simpl. by rewrite En.
Qed.

Lemma new_Some ns :
  Forall is_u64 ns -> ns <> [] ->
  exists w, version_new ns = Some w /\ version_wf w /\
    version_make_full w = mkFull 0 ns None None None local_empty None None.
Proof.
  intros Hns Hne. pose proof (new_spec ns Hns) as H.
  destruct (version_new ns) as [w|]; [|done]. exists w. by destruct H as (? & ? & ?).
Qed.

(** ** Derived operations *)

(** A version with a release and nothing else. *)
Definition release_only (ns : list Z) : VersionFull :=
  mkFull 0 ns None None None local_empty None None.

Lemma rposition_strip_zeros l :
  match rposition (fun x => negb (x =? 0)) l with
  | Some i => take (S i) l = strip_zeros l /\ strip_zeros l <> [] /\ (S i <= length l)%nat
  | None => strip_zeros l = []
  end.
Proof.
  induction l as [|x l IH]; simpl; [done|].
  destruct (rposition _ l) as [i|]; simpl in *.
  - destruct IH as (IH & Hne & Hi). simpl in IH. rewrite IH.
    destruct (strip_zeros l); [done|]. split_and!; [done|done|lia].
  - rewrite IH. destruct (x =? 0); simpl; [done|]. split_and!; [done|done|lia].
Qed.

Lemma strip_zeros_take l i : take (S i) l = strip_zeros l -> (S i)%nat = length l -> strip_zeros l = l.
Proof. intros <- ->. by rewrite take_ge. Qed.

Lemma only_release_trimmed_spec v :
  version_wf v ->
  exists w, version_only_release_trimmed v = Some w /\ version_wf w /\
    version_make_full w =
      release_only (match strip_zeros (version_release v) with [] => [0] | ns => ns end).
Proof.
  intros [W Hne]. unfold version_only_release_trimmed.
  pose proof (rposition_strip_zeros (version_release v)) as HR.
  assert (Forall is_u64 (version_release v)) as Hu.
  { rewrite release_full. by apply version_rep_wf_full. }
  destruct (rposition _ _) as [i|].
  - destruct HR as (Ht & Hs & Hi). rewrite Ht.
    destruct (_ && _)%bool eqn:E.
    + exists v. split; [done|]. split; [done|].
      repeat (apply andb_true_iff in E as [E ?]).
      repeat match goal with H : bool_decide _ = true |- _ => apply bool_decide_eq_true in H end.
      match goal with H : local_is_empty _ = true |- _ => apply local_is_empty_spec in H end.
      apply Nat.eqb_eq in E. pose proof (strip_zeros_take _ _ Ht E) as Es.
      rewrite Es. zbool. autorewrite with full in *.
      destruct (version_make_full v) as [e r p po d lo mi ma]; simpl in *. subst.
      destruct r; done.
    + destruct (new_Some (strip_zeros (version_release v))) as (w & -> & Hw & Ew);
        [by apply strip_zeros_Forall|done|].
      exists w. rewrite Ew. destruct (strip_zeros _); done.
  - rewrite HR. apply new_Some; [|done]. by repeat constructor.
Qed.

(** [without_trailing_zeros] panics exactly on a release of zeros. *)
Lemma without_trailing_zeros_spec v :
  version_rep_wf v ->
  match version_without_trailing_zeros v with
  | None => strip_zeros (version_release v) = []
  | Some w => version_wf w /\
      version_make_full w =
        full_set_release (version_make_full v) (strip_zeros (version_release v))
  end.
Proof.
  intros W. unfold version_without_trailing_zeros, pop_trailing_zeros.
  rewrite rev_strip_zeros, rev_involutive.
  pose proof (with_release_spec v (strip_zeros (version_release v)) W) as H.
  destruct (version_with_release _ _).
  - apply H. apply strip_zeros_Forall. rewrite release_full. by apply version_rep_wf_full.
  - apply H. apply strip_zeros_Forall. rewrite release_full. by apply version_rep_wf_full.
Qed.

Lemma only_release_spec v :
  version_wf v ->
  exists w, version_only_release v = Some w /\ version_wf w /\
    version_make_full w = release_only (version_release v).
Proof.
  intros [W Hne]. apply new_Some; [|done]. rewrite release_full. by apply version_rep_wf_full.
Qed.

(** The release at a precision: truncated or padded with zeros, never a panic. *)
Lemma only_release_at_precision_spec v p :
  version_wf v ->
  match version_only_release_at_precision v p with
  | None => False
  | Some None => p = O
  | Some (Some w) => version_wf w /\
      version_make_full w =
        full_set_epoch (release_only (take p (version_release v ++ replicate p 0)))
          (version_epoch v)
  end.
Proof.
  intros [W Hne]. unfold version_only_release_at_precision.
  assert (Forall is_u64 (take p (version_release v ++ replicate p 0))) as Hu.
  { apply Forall_take, Forall_app. split.
    - rewrite release_full. by apply version_rep_wf_full.
    - by apply Forall_replicate. }
  destruct (take p _) as [|x ns] eqn:E.
  - apply (f_equal length) in E. rewrite length_take, length_app, length_replicate in E.
    simpl in E. lia.
  - destruct (new_Some (x :: ns)) as (w & -> & [Ww Hw] & Ew); [done|done|].
    destruct (with_epoch_implements (version_epoch v)) with (v := w) as [We Ee]; [|done|].
    { rewrite epoch_full. by apply version_rep_wf_full. }
    split; [|by rewrite Ee, Ew]. split; [done|]. rewrite release_full, Ee, Ew. done.
Qed.
