(* ===== verification/VersionOrder.v ===== *)
(** * Comparing and hashing versions

    [Ord], [Eq], [Hash] and the helpers [compare_release], [sortable_tuple] and
    [without_post_and_dev_eq] of [crates/uv-pep440/src/version.rs]. The integer comparison of two
    packed versions is shown to be the field-by-field comparison, the result a total preorder and
    the order of PEP 440, and equal versions to be hashed alike. *)

From stdpp Require Import base list option numbers decidable.
From Stdlib Require Import ZArith Lia.
From S2P Require Import Prelude VersionTypes VersionSmall Version.

Local Open Scope Z_scope.

(** ** The comparison *)

(** The loop over the zipped release numbers: the first difference decides. *)
Fixpoint compare_zipped (l : list (Z * Z)) : comparison :=
  match l with
  | [] => Eq
  | (this, other) :: l' =>
      match Z.compare this other with
      | Lt => Lt
      | Eq => compare_zipped l'
      | Gt => Gt
      end
  end.

Definition compare_release (this other : list Z) : comparison :=
  if (length this =? length other)%nat then cmp_list Z.compare this other
  else
    let n := Nat.max (length this) (length other) in
    compare_zipped (zip (this ++ replicate n 0) (take n (other ++ replicate n 0))).

Definition SortableTuple : Type := Z * Z * option Z * Z * LocalVersionSlice.

Definition tuple_cmp : SortableTuple -> SortableTuple -> comparison :=
  cmp_pair (cmp_pair (cmp_pair (cmp_pair Z.compare Z.compare) (cmp_option Z.compare)) Z.compare)
    local_slice_cmp.

Definition sortable_tuple_with (version : Version) (post dev : option Z) : SortableTuple :=
  let post := match version_max version with Some _ => Some U64_MAX | None => post end in
  match version_pre version, post, dev, version_min version with
  | _, post, _, Some n => (0, 0, post, n, version_local version)
  | None, None, Some n, None => (1, 0, None, n, version_local version)
  | Some (mkPrerelease Alpha n), post, dev, None =>
      (2, n, post, default U64_MAX dev, version_local version)
  | Some (mkPrerelease Beta n), post, dev, None =>
      (3, n, post, default U64_MAX dev, version_local version)
  | Some (mkPrerelease Rc n), post, dev, None =>
      (4, n, post, default U64_MAX dev, version_local version)
  | None, None, None, None => (5, 0, None, 0, version_local version)
  | None, Some post, dev, None =>
      (6, 0, Some post, default U64_MAX dev, version_local version)
  end.

Definition sortable_tuple (version : Version) : SortableTuple :=
  sortable_tuple_with version (version_post version) (version_dev version).

Definition version_cmp_slow (v other : Version) : comparison :=
  match Z.compare (version_epoch v) (version_epoch other) with
  | Lt => Lt
  | Gt => Gt
  | Eq =>
      match compare_release (version_release v) (version_release other) with
      | Lt => Lt
      | Gt => Gt
      | Eq => tuple_cmp (sortable_tuple v) (sortable_tuple other)
      end
  end.

Definition version_cmp (v other : Version) : comparison :=
  match v, other with
  | Small small1, Small small2 => Z.compare (small_repr small1) (small_repr small2)
  | _, _ => version_cmp_slow v other
  end.

(** [PartialEq], and the comparison operators derived from [Ord]. *)
Definition version_eq (v other : Version) : bool :=
  match version_cmp v other with Eq => true | _ => false end.
Definition version_lt (v other : Version) : bool :=
  match version_cmp v other with Lt => true | _ => false end.
Definition version_gt (v other : Version) : bool :=
  match version_cmp v other with Gt => true | _ => false end.
Definition version_le (v other : Version) : bool :=
  match version_cmp v other with Gt => false | _ => true end.
Definition version_ge (v other : Version) : bool :=
  match version_cmp v other with Lt => false | _ => true end.

(** Equality of the tuples, as the derived [PartialEq] of their components has it. *)
Definition tuple_eq (x y : SortableTuple) : bool := bool_decide (x = y).

Definition version_without_post_and_dev_eq_slow (v other : Version) : bool :=
  (version_epoch v =? version_epoch other)
  && match compare_release (version_release v) (version_release other) with
     | Eq => true
     | _ => false
     end
  && tuple_eq (sortable_tuple_with v None None) (sortable_tuple other).

Definition version_without_post_and_dev_eq (v other : Version) : bool :=
  match v, other with
  | Small small, Small other =>
      let base := (small_set_post small None).2 in
      let base := (small_set_dev base None).2 in
      small_repr base =? small_repr other
  | _, _ => version_without_post_and_dev_eq_slow v other
  end.

(** What [Hash for Version] feeds to the hasher, in order. *)
Inductive HashItem : Type :=
| HashU64 (n : Z)
| HashPre (pre : option Prerelease)
| HashOption (n : option Z)
| HashLocal (local : LocalVersionSlice).

Definition version_hash (v : Version) : list HashItem :=
  [HashU64 (version_epoch v)]
  ++ (HashU64 <$> skip_while (fun x => x =? 0) (rev (version_release v)))
  ++ [HashPre (version_pre v); HashOption (version_dev v); HashOption (version_post v);
      HashLocal (version_local v)].

(** ** Releases compare as zero-padded lists *)

(** A release padded with zeros to [n] numbers. *)
Definition padded (n : nat) (l : list Z) : list Z := l ++ replicate (n - length l) 0.

Lemma compare_zipped_cmp_list a b :
  length a = length b -> compare_zipped (zip a b) = cmp_list Z.compare a b.
Proof.
  revert b. induction a as [|x a IH]; intros [|y b]; simpl; try done.
  intros [= E]. rewrite IH by done. by destruct (Z.compare x y).
Qed.

Lemma zip_take_l {A B} (l l' : list A) (k : list B) :
  length l = length k -> zip (l ++ l') k = zip l k.
Proof.
  revert k. induction l as [|x l IH]; intros [|y k]; simpl; try done.
  - by destruct l'.
  - intros [= E]. by rewrite IH.
Qed.

Lemma take_padded n l k : (length l <= n)%nat -> (n <= k)%nat ->
  take n (l ++ replicate k 0) = padded n l.
Proof.
  intros Hl Hk. unfold padded. rewrite take_app, take_ge by lia. f_equal.
  rewrite take_replicate. f_equal. lia.
Qed.

Lemma padded_length n l : (length l <= n)%nat -> length (padded n l) = n.
Proof. intros. unfold padded. rewrite length_app, length_replicate. lia. Qed.

Lemma cmp_list_app_same (k a b : list Z) :
  length a = length b -> cmp_list Z.compare (a ++ k) (b ++ k) = cmp_list Z.compare a b.
Proof.
  revert b. induction a as [|x a IH]; intros [|y b]; simpl; try done.
  - intros _. apply (cmp_refl _).
  - intros [= E]. by rewrite IH.
Qed.

Lemma padded_more n m l : (length l <= n)%nat -> (n <= m)%nat ->
  padded m l = padded n l ++ replicate (m - n) 0.
Proof.
  intros. unfold padded. rewrite <- app_assoc, <- replicate_add. do 2 f_equal. lia.
Qed.

(** Padding further does not change the comparison. *)
Lemma compare_release_padded a b n :
  (length a <= n)%nat -> (length b <= n)%nat ->
  compare_release a b = cmp_list Z.compare (padded n a) (padded n b).
Proof.
  intros Ha Hb. unfold compare_release.
  set (m := Nat.max (length a) (length b)).
  rewrite (padded_more m n a), (padded_more m n b) by lia.
  rewrite cmp_list_app_same by (rewrite !padded_length by lia; done).
  destruct (Nat.eqb_spec (length a) (length b)) as [E|E].
  - unfold padded. replace (m - length a)%nat with O by lia.
    replace (m - length b)%nat with O by lia. simpl. by rewrite !app_nil_r.
  - rewrite take_padded by lia.
    rewrite <- (take_drop m (a ++ replicate m 0)), take_padded by lia.
    rewrite zip_take_l by (rewrite !padded_length by lia; done).
    apply compare_zipped_cmp_list. rewrite !padded_length by lia. done.
Qed.

#[export] Instance ord_release : OrdLaws compare_release.
Proof.
  split.
  - intros x. rewrite (compare_release_padded x x (length x)) by lia. apply (cmp_refl _).
  - intros x y. set (n := Nat.max (length x) (length y)).
    rewrite !(compare_release_padded _ _ n) by lia. apply (cmp_opp _).
  - intros x y z. set (n := Nat.max (length x) (Nat.max (length y) (length z))).
    rewrite !(compare_release_padded _ _ n) by lia. apply (cmp_eq_l _).
  - intros x y z. set (n := Nat.max (length x) (Nat.max (length y) (length z))).
    rewrite !(compare_release_padded _ _ n) by lia. apply (cmp_lt_trans _).
Qed.

Lemma compare_release_cons x a y b :
  compare_release (x :: a) (y :: b) = then_with (Z.compare x y) (compare_release a b).
Proof.
  set (n := Nat.max (length a) (length b)).
  rewrite (compare_release_padded (x :: a) (y :: b) (S n)) by (simpl; lia).
  by rewrite (compare_release_padded a b n) by lia.
Qed.

Lemma compare_release_nil_l y b :
  compare_release [] (y :: b) = then_with (Z.compare 0 y) (compare_release [] b).
Proof.
  rewrite (compare_release_padded [] (y :: b) (S (length b))) by (simpl; lia).
  rewrite (compare_release_padded [] b (length b)) by (simpl; lia).
  unfold padded; simpl. by rewrite Nat.sub_0_r.
Qed.

Lemma cmp_list_nil_l (l : list Z) :
  cmp_list Z.compare [] l = match l with [] => Eq | _ => Lt end.
Proof. by destruct l. Qed.

Lemma cmp_list_cons_strip x y a b :
  0 <= x -> 0 <= y ->
  cmp_list Z.compare (strip_zeros (x :: a)) (strip_zeros (y :: b)) =
    then_with (Z.compare x y) (cmp_list Z.compare (strip_zeros a) (strip_zeros b)).
Proof.
  intros Hx Hy. simpl.
  destruct (strip_zeros a) as [|c a'], (strip_zeros b) as [|d b']; [| | |done].
  all: destruct (Z.eqb_spec x 0) as [->|]; try (destruct (Z.eqb_spec y 0) as [->|]);
    cbn [cmp_list]; try done.
  all: destruct (Z.compare_spec x y) || destruct (Z.compare_spec 0 y)
    || destruct (Z.compare_spec x 0); simpl; done || lia.
Qed.

(** Trailing zeros do not matter: the comparison is that of the stripped lists. *)
Lemma compare_release_strip a b :
  Forall is_u64 a -> Forall is_u64 b ->
  compare_release a b = cmp_list Z.compare (strip_zeros a) (strip_zeros b).
Proof.
  assert (forall l, Forall is_u64 l ->
    compare_release [] l = cmp_list Z.compare [] (strip_zeros l)) as Hnil.
  { clear a b. induction 1 as [|y b Hy Hb IH]; [done|].
    rewrite compare_release_nil_l, IH, !cmp_list_nil_l. cbn [strip_zeros].
    unfold is_u64 in Hy.
    destruct (strip_zeros b); destruct (Z.eqb_spec y 0) as [->|]; try done;
      destruct (Z.compare_spec 0 y); simpl; done || lia. }
  intros Ha. revert b. induction Ha as [|x a Hx Ha IH]; intros b Hb; [by apply Hnil|].
  destruct Hb as [|y b Hy Hb].
  - rewrite (cmp_opp compare_release), Hnil by by constructor.
    symmetry. apply (cmp_opp (cmp_list Z.compare)).
  - unfold is_u64 in *.
    rewrite compare_release_cons, cmp_list_cons_strip by lia. by rewrite IH.
Qed.

Lemma compare_release_eq a b :
  Forall is_u64 a -> Forall is_u64 b ->
  compare_release a b = Eq <-> strip_zeros a = strip_zeros b.
Proof.
  intros Ha Hb. rewrite compare_release_strip by done. split.
  - by intros ?%(cmp_exact _).
  - intros ->. apply (cmp_refl _).
Qed.

(** ** The slow comparison is a total preorder *)

Definition version_key (v : Version) : (Z * list Z) * SortableTuple :=
  ((version_epoch v, version_release v), sortable_tuple v).

Lemma version_cmp_slow_key v w :
  version_cmp_slow v w =
    cmp_on version_key (cmp_pair (cmp_pair Z.compare compare_release) tuple_cmp) v w.
Proof.
  unfold version_cmp_slow, cmp_on, version_key, cmp_pair at 1 2. simpl.
  destruct (Z.compare _ _); simpl; [|done..]. by destruct (compare_release _ _).
Qed.

#[export] Instance ord_tuple : OrdLaws tuple_cmp.
Proof. unfold tuple_cmp. apply _. Qed.

#[export] Instance ord_exact_tuple : OrdExact tuple_cmp.
Proof. unfold tuple_cmp. apply _. Qed.

Lemma ord_ext {A} (c d : A -> A -> comparison) :
  (forall x y, c x y = d x y) -> OrdLaws d -> OrdLaws c.
Proof.
  intros E [Hr Ho He Ht]. split; intros *; rewrite ?E; auto. apply Ht.
Qed.

#[export] Instance ord_version_slow : OrdLaws version_cmp_slow.
Proof. eapply ord_ext; [apply version_cmp_slow_key|apply _]. Qed.

(** ** Packed versions compare like full ones *)

(** The tuple of a full version, as a function of its fields. *)
Lemma sortable_tuple_full v w :
  version_make_full v = version_make_full w -> sortable_tuple v = sortable_tuple w.
Proof.
  intros E. unfold sortable_tuple, sortable_tuple_with.
  autorewrite with full. by rewrite E.
Qed.

Lemma version_cmp_slow_full v v' w w' :
  version_make_full v = version_make_full v' -> version_make_full w = version_make_full w' ->
  version_cmp_slow v w = version_cmp_slow v' w'.
Proof.
  intros Ev Ew. unfold version_cmp_slow.
  rewrite (sortable_tuple_full v v'), (sortable_tuple_full w w') by done.
  autorewrite with full. by rewrite Ev, Ew.
Qed.

(** The "max" sentinel is only ever used with the number zero. *)
Definition max_sentinel (v : Version) : Prop :=
  match version_max v with Some n => n = 0 | None => True end.

(** The tuple of a packed version, as a function of its suffix. *)
Definition suffix_tuple (k n : Z) : SortableTuple :=
  sortable_tuple (Full (suffix_full [] k n)).

Lemma pack_compare r0 r1 r2 r3 k n r0' r1' r2' r3' k' n' s s' :
  small_view s r0 r1 r2 r3 k n -> small_view s' r0' r1' r2' r3' k' n' ->
  Z.compare (small_repr s) (small_repr s') =
    then_with (Z.compare r0 r0') (then_with (Z.compare r1 r1') (then_with (Z.compare r2 r2')
      (then_with (Z.compare r3 r3') (then_with (Z.compare k k') (Z.compare n n'))))).
Proof.
  small_unfold. intros (-> & ? & ? & ? & ? & ? & ?) (-> & ? & ? & ? & ? & ? & ?).
  repeat match goal with
  | |- context [then_with (?a ?= ?b) _] => destruct (Z.compare_spec a b); simpl then_with; subst
  end.
  all: try (apply Z.compare_lt_iff; lia). all: try (apply Z.compare_gt_iff; lia).
  destruct (Z.compare_spec n n'); subst;
    [apply Z.compare_refl|apply Z.compare_lt_iff; lia|apply Z.compare_gt_iff; lia].
Qed.

Lemma suffix_tuple_compare k n k' n' :
  0 <= k <= SUFFIX_MAX -> 0 <= k' <= SUFFIX_MAX -> 0 <= n < 2 ^ 20 -> 0 <= n' < 2 ^ 20 ->
  (k = SUFFIX_NONE \/ k = SUFFIX_LOCAL \/ k = SUFFIX_MAX -> n = 0) ->
  (k' = SUFFIX_NONE \/ k' = SUFFIX_LOCAL \/ k' = SUFFIX_MAX -> n' = 0) ->
  tuple_cmp (suffix_tuple k n) (suffix_tuple k' n') =
    then_with (Z.compare k k') (Z.compare n n').
Proof.
  intros Hk Hk' Hn Hn' Z1 Z2.
  assert ((n ?= U64_MAX) = Lt) as L1 by (apply Z.compare_lt_iff; unfold U64_MAX; lia).
  assert ((U64_MAX ?= n') = Gt) as L2 by (apply Z.compare_gt_iff; unfold U64_MAX; lia).
  split_kind k Hk; split_kind k' Hk';
    try rewrite (Z1 ltac:(auto)); try rewrite (Z2 ltac:(auto)); try done;
    unfold tuple_cmp, suffix_tuple, sortable_tuple, sortable_tuple_with, cmp_pair;
    cbn -[Z.compare U64_MAX]; rewrite ?L1, ?L2; try done.
  all: by destruct (n ?= n').
Qed.

Lemma small_release_strip s r0 r1 r2 r3 k n :
  small_view s r0 r1 r2 r3 k n -> 0 <= small_len s <= 4 ->
  (small_len s < 1 -> r0 = 0) -> (small_len s < 2 -> r1 = 0) ->
  (small_len s < 3 -> r2 = 0) -> (small_len s < 4 -> r3 = 0) ->
  strip_zeros (version_release (Small s)) = strip_zeros [r0; r1; r2; r3].
Proof.
  intros V Hl H0 H1 H2 H3. unfold version_release. simpl version_release_inner.
  rewrite (view_release _ _ _ _ _ _ _ V Hl). cbn [from_option id].
  rewrite <- (strip_zeros_app_zeros (take _ _) (4 - Z.to_nat (small_len s))). f_equal.
  assert (small_len s = 0 \/ small_len s = 1 \/ small_len s = 2 \/ small_len s = 3
          \/ small_len s = 4) as [E|[E|[E|[E|E]]]] by lia; rewrite E in *; simpl;
    rewrite ?H0, ?H1, ?H2, ?H3 by lia; done.
Qed.

Lemma small_sortable_tuple s r0 r1 r2 r3 k n :
  small_view s r0 r1 r2 r3 k n -> 0 <= small_len s <= 4 ->
  sortable_tuple (Small s) = suffix_tuple k n.
Proof.
  intros V Hl. unfold suffix_tuple, sortable_tuple, sortable_tuple_with.
  autorewrite with full. cbn [version_make_full]. by rewrite (view_to_full _ _ _ _ _ _ _ V Hl).
Qed.

Lemma small_max_zero s r0 r1 r2 r3 k n :
  small_view s r0 r1 r2 r3 k n -> max_sentinel (Small s) ->
  (k = SUFFIX_NONE \/ k = SUFFIX_LOCAL -> n = 0) ->
  k = SUFFIX_NONE \/ k = SUFFIX_LOCAL \/ k = SUFFIX_MAX -> n = 0.
Proof.
  intros V M Hn [Hk|[Hk| ->]]; [exact (Hn (or_introl Hk))|exact (Hn (or_intror Hk))|].
  unfold max_sentinel, version_max, small_max in M.
  by rewrite (view_kind _ _ _ _ _ _ _ V), (view_version _ _ _ _ _ _ _ V) in M.
Qed.

(** The release of a packed version compares by its four bytes. *)
Lemma small_compare_release s s' r0 r1 r2 r3 k n r0' r1' r2' r3' k' n' :
  small_wf s -> small_wf s' ->
  small_view s r0 r1 r2 r3 k n -> small_view s' r0' r1' r2' r3' k' n' ->
  strip_zeros (version_release (Small s)) = strip_zeros [r0; r1; r2; r3] ->
  strip_zeros (version_release (Small s')) = strip_zeros [r0'; r1'; r2'; r3'] ->
  compare_release (version_release (Small s)) (version_release (Small s')) =
    then_with (Z.compare r0 r0') (then_with (Z.compare r1 r1') (then_with (Z.compare r2 r2')
      (then_with (Z.compare r3 r3') Eq))).
Proof.
  intros W W' V V' E E'.
  rewrite compare_release_strip
    by (rewrite release_full; apply fwf_release, small_wf_full; assumption).
  rewrite E, E', <- compare_release_strip; [by rewrite !compare_release_cons|..];
    repeat constructor; clear W W' E E'; small_unfold; lia.
Qed.

Lemma small_cmp_slow s s' :
  small_wf s -> small_wf s' -> max_sentinel (Small s) -> max_sentinel (Small s') ->
  Z.compare (small_repr s) (small_repr s') = version_cmp_slow (Small s) (Small s').
Proof.
  intros W W' M M'. pose proof W as W0. pose proof W' as W0'.
  destruct W0 as (r0 & r1 & r2 & r3 & k & n & V & Hl & H0 & H1 & H2 & H3 & Hn).
  destruct W0' as (r0' & r1' & r2' & r3' & k' & n' & V' & Hl' & H0' & H1' & H2' & H3' & Hn').
  rewrite (pack_compare _ _ _ _ _ _ _ _ _ _ _ _ _ _ V V').
  rewrite (version_cmp_slow_key (Small s) (Small s')).
  unfold cmp_on, version_key, cmp_pair; cbn [fst snd].
  change (version_epoch (Small s)) with 0. change (version_epoch (Small s')) with 0.
  rewrite (small_compare_release _ _ _ _ _ _ _ _ _ _ _ _ _ _ W W' V V')
    by (eapply small_release_strip; eassumption).
  rewrite (small_sortable_tuple _ _ _ _ _ _ _ V Hl), (small_sortable_tuple _ _ _ _ _ _ _ V' Hl').
  pose proof (small_max_zero _ _ _ _ _ _ _ V M Hn) as Z1.
  pose proof (small_max_zero _ _ _ _ _ _ _ V' M' Hn') as Z2.
  rewrite suffix_tuple_compare; [|apply V|apply V'|apply V|apply V'|exact Z1|exact Z2].
  by destruct (r0 ?= r0'), (r1 ?= r1'), (r2 ?= r2'), (r3 ?= r3').
Qed.

(** On well-formed versions the comparison does not depend on the representation. *)
Lemma version_cmp_is_slow v w :
  version_rep_wf v -> version_rep_wf w -> max_sentinel v -> max_sentinel w ->
  version_cmp v w = version_cmp_slow v w.
Proof. destruct v as [s|f], w as [s'|f']; [apply small_cmp_slow|reflexivity..]. Qed.

(** ** The order of PEP 440 *)

(** Numbers with the infinities that stand for absent components. *)
Inductive ext (A : Type) : Type :=
| NegInf
| Fin (a : A)
| PosInf.
Arguments NegInf {A}.
Arguments Fin {A} a.
Arguments PosInf {A}.

Definition cmp_ext {A : Type} (ca : A -> A -> comparison) (x y : ext A) : comparison :=
  match x, y with
  | NegInf, NegInf | PosInf, PosInf => Eq
  | NegInf, _ | _, PosInf => Lt
  | _, NegInf | PosInf, _ => Gt
  | Fin a, Fin b => ca a b
  end.

Definition pre_rank (k : PrereleaseKind) : Z :=
  match k with Alpha => 0 | Beta => 1 | Rc => 2 end.

(** The sort key of PEP 440: a development release of a final release sorts before its
    pre-releases, a missing pre-release after them, a missing post-release first, a missing
    development release last, a missing local version first. *)
Definition pep440_pre (f : VersionFull) : ext (Z * Z) :=
  match full_pre f, full_post f, full_dev f with
  | Some p, _, _ => Fin (pre_rank (pre_kind p), pre_number p)
  | None, None, Some _ => NegInf
  | None, _, _ => PosInf
  end.
Definition pep440_post (f : VersionFull) : ext Z :=
  match full_post f with Some n => Fin n | None => NegInf end.
Definition pep440_dev (f : VersionFull) : ext Z :=
  match full_dev f with Some n => Fin n | None => PosInf end.
Definition pep440_local (f : VersionFull) : ext (list LocalSegment) :=
  match full_local f with
  | Segments [] => NegInf
  | Segments l => Fin l
  | LocalMax => PosInf
  end.

Definition pep440_cmp (f g : VersionFull) : comparison :=
  then_with (Z.compare (full_epoch f) (full_epoch g))
  (then_with (cmp_list Z.compare (strip_zeros (full_release f)) (strip_zeros (full_release g)))
  (then_with (cmp_ext (cmp_pair Z.compare Z.compare) (pep440_pre f) (pep440_pre g))
  (then_with (cmp_ext Z.compare (pep440_post f) (pep440_post g))
  (then_with (cmp_ext Z.compare (pep440_dev f) (pep440_dev g))
             (cmp_ext (cmp_list local_segment_cmp) (pep440_local f) (pep440_local g)))))).

(** A version that PEP 440 knows: no internal sentinel, and, as the parser guarantees, no
    number equal to the largest [u64]. *)
Record full_real (f : VersionFull) : Prop := {
  real_min : full_min f = None;
  real_max : full_max f = None;
  real_local : full_local f <> LocalMax;
  real_epoch : full_epoch f < U64_MAX;
  real_release : Forall (fun n => n < U64_MAX) (full_release f);
  real_pre : from_option (fun p => pre_number p < U64_MAX) True (full_pre f);
  real_post : from_option (fun n => n < U64_MAX) True (full_post f);
  real_dev : from_option (fun n => n < U64_MAX) True (full_dev f)
}.

Definition version_real (v : Version) : Prop :=
  version_wf v /\ full_real (version_make_full v).

Lemma real_rep_wf v : version_real v -> version_rep_wf v.
Proof. by intros [[] _]. Qed.

Lemma real_sentinel v : version_real v -> max_sentinel v.
Proof. intros [_ [_ Hm]]. unfold max_sentinel. by rewrite max_full, Hm. Qed.

#[export] Hint Resolve real_rep_wf real_sentinel : uv.

(** The comparison of real versions is that of their fields. *)
Lemma version_cmp_real v w :
  version_real v -> version_real w -> version_cmp v w = version_cmp_slow v w.
Proof. intros. apply version_cmp_is_slow; auto with uv. Qed.

Lemma local_cmp_ext f g :
  full_local f <> LocalMax -> full_local g <> LocalMax ->
  cmp_ext (cmp_list local_segment_cmp) (pep440_local f) (pep440_local g) =
    local_slice_cmp (full_local f) (full_local g).
Proof.
  unfold pep440_local. by destruct (full_local f) as [[|]|], (full_local g) as [[|]|].
Qed.

(** The tuple without its local component. *)
Definition suffix_key (f : VersionFull) : Z * Z * option Z * Z :=
  match full_pre f, full_post f, full_dev f with
  | None, None, Some n => (1, 0, None, n)
  | Some (mkPrerelease k n), post, dev => (2 + pre_rank k, n, post, default U64_MAX dev)
  | None, None, None => (5, 0, None, 0)
  | None, Some post, dev => (6, 0, Some post, default U64_MAX dev)
  end.

Lemma sortable_tuple_key v :
  full_min (version_make_full v) = None -> full_max (version_make_full v) = None ->
  sortable_tuple v =
    (suffix_key (version_make_full v), full_local (version_make_full v)).
Proof.
  intros Hmin Hmax. unfold sortable_tuple, sortable_tuple_with, suffix_key.
  autorewrite with full. rewrite Hmin, Hmax.
  by destruct (full_pre _) as [[[] n]|], (full_post _), (full_dev _).
Qed.

Lemma suffix_key_cmp f g :
  full_real f -> full_real g ->
  cmp_pair (cmp_pair (cmp_pair Z.compare Z.compare) (cmp_option Z.compare)) Z.compare
    (suffix_key f) (suffix_key g) =
  then_with (cmp_ext (cmp_pair Z.compare Z.compare) (pep440_pre f) (pep440_pre g))
  (then_with (cmp_ext Z.compare (pep440_post f) (pep440_post g))
             (cmp_ext Z.compare (pep440_dev f) (pep440_dev g))).
Proof.
  intros [_ _ _ _ _ _ _ Hd] [_ _ _ _ _ _ _ Hd'].
  unfold suffix_key, pep440_pre, pep440_post, pep440_dev, cmp_pair.
  assert (forall x, x < U64_MAX -> (x ?= U64_MAX) = Lt) as L1
    by (intros x ?; by apply Z.compare_lt_iff).
  assert (forall x, x < U64_MAX -> (U64_MAX ?= x) = Gt) as L2
    by (intros x ?; by apply Z.compare_gt_iff).
  destruct (full_dev f) as [d|], (full_dev g) as [d'|]; cbn [from_option] in *;
    destruct (full_pre f) as [[[] n]|], (full_post f) as [p|]; try done;
    destruct (full_pre g) as [[[] n']|], (full_post g) as [p'|]; try done;
    cbn -[Z.compare U64_MAX Z.add]; try done;
    rewrite ?L1, ?L2, ?Z.compare_refl by done; cbn -[Z.compare U64_MAX Z.add];
    try done.
  all: repeat match goal with |- context [Z.compare ?a ?b] => destruct (Z.compare a b) end; done.
Qed.

Lemma version_cmp_pep440 v w :
  version_real v -> version_real w ->
  version_cmp v w = pep440_cmp (version_make_full v) (version_make_full w).
Proof.
  intros Rv Rw. rewrite version_cmp_real by done. rewrite version_cmp_slow_key.
  destruct Rv as [[Wv _] Fv], Rw as [[Ww _] Fw].
  unfold cmp_on, version_key, pep440_cmp, cmp_pair at 1 2; cbn [fst snd].
  rewrite compare_release_strip
    by (rewrite release_full; apply fwf_release, version_rep_wf_full; assumption).
  rewrite epoch_full, (epoch_full w), release_full, (release_full w).
  rewrite !sortable_tuple_key by (apply Fv || apply Fw).
  unfold tuple_cmp, cmp_pair at 1; cbn [fst snd].
  rewrite suffix_key_cmp, local_cmp_ext by (done || apply Fv || apply Fw).
  destruct (full_epoch _ ?= _); [|done..]. cbn [then_with].
  destruct (cmp_list Z.compare _ _); [|done..]. cbn [then_with].
  destruct (cmp_ext _ (pep440_pre _) _); [|done..]. cbn [then_with].
  by destruct (cmp_ext _ (pep440_post _) _).
Qed.

(** ** Equal versions *)

Lemma suffix_key_inj f g :
  full_real f -> full_real g -> suffix_key f = suffix_key g ->
  full_pre f = full_pre g /\ full_post f = full_post g /\ full_dev f = full_dev g.
Proof.
  intros [_ _ _ _ _ _ _ Hd] [_ _ _ _ _ _ _ Hd']. unfold suffix_key.
  destruct (full_dev f) as [d|], (full_dev g) as [d'|]; cbn [from_option] in *;
    destruct (full_pre f) as [[[] n]|], (full_post f) as [p|];
    destruct (full_pre g) as [[[] n']|], (full_post g) as [p'|];
    cbn -[U64_MAX]; intros ?; simplify_eq; try done; lia.
Qed.

(** Equality ignores trailing zeros of the release and nothing else. *)
Definition full_equiv (f g : VersionFull) : Prop :=
  full_epoch f = full_epoch g /\ strip_zeros (full_release f) = strip_zeros (full_release g) /\
  full_pre f = full_pre g /\ full_post f = full_post g /\ full_dev f = full_dev g /\
  full_local f = full_local g.

Lemma version_eq_iff v w :
  version_real v -> version_real w ->
  version_cmp v w = Eq <-> full_equiv (version_make_full v) (version_make_full w).
Proof.
  intros Rv Rw. rewrite version_cmp_real by done. rewrite version_cmp_slow_key.
  destruct Rv as [[Wv _] Fv], Rw as [[Ww _] Fw].
  assert (Forall is_u64 (version_release v)) as Uv
    by (rewrite release_full; apply fwf_release, version_rep_wf_full; assumption).
  assert (Forall is_u64 (version_release w)) as Uw
    by (rewrite release_full; apply fwf_release, version_rep_wf_full; assumption).
  unfold cmp_on, version_key, full_equiv, cmp_pair at 1 2; cbn [fst snd].
  rewrite !sortable_tuple_key by (apply Fv || apply Fw).
  split.
  - destruct (Z.compare _ _) eqn:E1; [|done..]. cbn [then_with].
    destruct (compare_release _ _) eqn:E2; [|done..]. cbn [then_with]. intros E3.
    apply Z.compare_eq_iff in E1. apply compare_release_eq in E2; [|done..].
    apply (cmp_exact tuple_cmp) in E3. injection E3 as E3 E4.
    autorewrite with full in *. apply suffix_key_inj in E3 as (? & ? & ?); done.
  - intros (E1 & E2 & E3 & E4 & E5 & E6). rewrite epoch_full, (epoch_full w), E1.
    rewrite Z.compare_refl. cbn [then_with].
    rewrite (proj2 (compare_release_eq _ _ Uv Uw)) by (autorewrite with full; done).
    cbn [then_with]. unfold suffix_key. rewrite E3, E4, E5, E6. apply (cmp_refl tuple_cmp).
Qed.

Lemma version_eq_true v w : version_eq v w = true <-> version_cmp v w = Eq.
Proof. unfold version_eq. by destruct (version_cmp v w). Qed.

Lemma version_eq_hash v w :
  version_real v -> version_real w -> version_eq v w = true -> version_hash v = version_hash w.
Proof.
  intros Rv Rw E%version_eq_true%version_eq_iff; [|done..].
  destruct E as (E1 & E2 & E3 & E4 & E5 & E6). unfold version_hash.
  rewrite !rev_strip_zeros. autorewrite with full. by rewrite E1, E2, E3, E4, E5, E6.
Qed.

(** ** The base of a post-release *)

Lemma small_set_none_true s :
  (small_set_post s None).1 = true /\ (small_set_dev s None).1 = true.
Proof. unfold small_set_post, small_set_dev. split; by case_match. Qed.

(** The version without its post and dev components. *)
Definition full_base (f : VersionFull) : VersionFull :=
  full_set_dev (full_set_post f None) None.

Lemma full_base_real f : full_real f -> full_real (full_base f).
Proof. by intros []. Qed.

Lemma small_base_spec s :
  small_wf s ->
  let base := (small_set_dev (small_set_post s None).2 None).2 in
  small_wf base /\ small_to_full base = full_base (small_to_full s).
Proof.
  intros W. destruct (small_set_none_true s) as [E1 _].
  destruct (small_set_post s None) as [b s1] eqn:P. simpl in E1. subst b.
  apply small_set_post_true in P as [W1 F1]; [|done|done].
  cbn [snd]. destruct (small_set_none_true s1) as [_ E2].
  destruct (small_set_dev s1 None) as [b s2] eqn:D. simpl in E2. subst b.
  apply small_set_dev_true in D as [W2 F2]; [|done|done].
  split; [done|]. cbn [snd]. by rewrite F2, F1.
Qed.

Lemma without_post_and_dev_eq_slow_iff v w :
  version_real v -> version_real w ->
  version_without_post_and_dev_eq_slow v w = true <->
  full_equiv (full_base (version_make_full v)) (version_make_full w).
Proof.
  intros Rv Rw. pose proof Rv as [[Wv Nv] Fv]. pose proof Rw as [[Ww Nw] Fw].
  set (b := Full (full_base (version_make_full v))).
  assert (version_real b) as Rb.
  { split; [split; [|unfold version_release; simpl; by rewrite <- release_full]
           |by apply full_base_real].
    simpl. pose proof (version_rep_wf_full _ Wv) as []. by split. }
  assert (sortable_tuple_with v None None = sortable_tuple b) as Et.
  { unfold sortable_tuple, sortable_tuple_with. autorewrite with full. done. }
  change (full_base (version_make_full v)) with (version_make_full b).
  rewrite <- (version_eq_iff b w), (version_cmp_real b w), (version_cmp_slow_key b w) by done.
  unfold version_without_post_and_dev_eq_slow, cmp_on, version_key, cmp_pair at 1 2.
  cbn [fst snd]. rewrite Et. change (version_epoch b) with (full_epoch (version_make_full v)).
  rewrite epoch_full, (release_full b).
  change (full_release (version_make_full b)) with (full_release (version_make_full v)).
  rewrite <- (release_full v). unfold tuple_eq. rewrite !andb_true_iff, bool_decide_eq_true.
  rewrite Z.eqb_eq, <- Z.compare_eq_iff.
  destruct (Z.compare _ _); cbn [then_with]; [|naive_solver..].
  destruct (compare_release _ _); cbn [then_with]; [|naive_solver..].
  split.
  - intros [_ ->]. apply (cmp_refl tuple_cmp).
  - intros E%(cmp_exact tuple_cmp). done.
Qed.

Lemma without_post_and_dev_eq_iff v w :
  version_real v -> version_real w ->
  version_without_post_and_dev_eq v w = true <->
  full_equiv (full_base (version_make_full v)) (version_make_full w).
Proof.
  intros Rv Rw.
  destruct v as [s|f], w as [s'|f']; try by apply without_post_and_dev_eq_slow_iff.
  pose proof Rv as [[Wv Nv] Fv]. destruct (small_base_spec s Wv) as [Wb Eb].
  unfold version_without_post_and_dev_eq.
  set (base := (small_set_dev (small_set_post s None).2 None).2) in *.
  assert (version_real (Small base)) as Rb.
  { split; [split; [done|]|].
    - rewrite release_full. simpl version_make_full. rewrite Eb. by rewrite release_full in Nv.
    - simpl version_make_full. rewrite Eb. by apply full_base_real. }
  rewrite Z.eqb_eq, <- Z.compare_eq_iff.
  change (small_repr base ?= small_repr s') with (version_cmp (Small base) (Small s')).
  rewrite version_eq_iff by done. simpl version_make_full. by rewrite Eb.
Qed.
