(* ===== verification/VersionCacheKey.v ===== *)
(** * Cache keys of versions

    The [CacheKey] implementations of [crates/uv-pep440/src/version.rs]: what they write to the
    hasher, as the sequence of its typed writes. The sequence determines the components of the
    version, and no sequence is the start of another, so that keys of larger values built from
    versions stay apart. *)

From stdpp Require Import base list option numbers decidable.
From Stdlib Require Import ZArith Lia.
From S2P Require Import Prelude VersionTypes VersionSmall Version VersionOrder.

Local Open Scope Z_scope.

(** A write to the hasher; the hash of a string writes its bytes and a terminator. *)
Inductive CacheWrite : Type :=
| WriteU8 (n : Z)
| WriteU64 (n : Z)
| WriteUsize (n : nat)
| WriteStr (s : list Z).

Definition segment_cache_key (s : LocalSegment) : list CacheWrite :=
  match s with
  | LocalString string => [WriteU8 0; WriteStr string]
  | LocalNumber number => [WriteU8 1; WriteU64 number]
  end.

Definition local_cache_key (l : LocalVersionSlice) : list CacheWrite :=
  match l with
  | Segments segments =>
      [WriteU8 0; WriteUsize (length segments)] ++ (segments ≫= segment_cache_key)
  | LocalMax => [WriteU8 1]
  end.

Definition pre_cache_key (pre : option Prerelease) : list CacheWrite :=
  match pre with
  | Some pre =>
      [WriteU8 1;
       match pre_kind pre with
       | Alpha => WriteU8 0
       | Beta => WriteU8 1
       | Rc => WriteU8 2
       end;
       WriteU64 (pre_number pre)]
  | None => [WriteU8 0]
  end.

Definition number_cache_key (n : option Z) : list CacheWrite :=
  match n with
  | Some n => [WriteU8 1; WriteU64 n]
  | None => [WriteU8 0]
  end.

Definition version_cache_key (v : Version) : list CacheWrite :=
  [WriteU64 (version_epoch v)] ++
  [WriteUsize (length (version_release v))] ++ (WriteU64 <$> version_release v) ++
  pre_cache_key (version_pre v) ++
  number_cache_key (version_post v) ++
  number_cache_key (version_dev v) ++
  local_cache_key (version_local v).

(** ** Prefix-free encodings *)

(** What follows an encoded value does not matter for which value it is. *)
Definition prefix_free {A : Type} (enc : A -> list CacheWrite) : Prop :=
  forall x y r r', enc x ++ r = enc y ++ r' -> x = y /\ r = r'.

Lemma segment_prefix_free : prefix_free segment_cache_key.
Proof. intros [s|n] [s'|n'] r r'; cbn; intros E; by simplify_eq. Qed.

Lemma pre_prefix_free : prefix_free pre_cache_key.
Proof. intros [[[] n]|] [[[] n']|] r r'; cbn; intros E; by simplify_eq. Qed.

Lemma number_prefix_free : prefix_free number_cache_key.
Proof. intros [n|] [n'|] r r'; cbn; intros E; by simplify_eq. Qed.

(** A sequence after its length. *)
Lemma sequence_prefix_free {A} (enc : A -> list CacheWrite) (x y : list A) r r' :
  prefix_free enc -> length x = length y -> (x ≫= enc) ++ r = (y ≫= enc) ++ r' -> x = y /\ r = r'.
Proof.
  intros P. revert y. induction x as [|a x IH]; intros [|b y] L E; try done.
  cbn in E, L. rewrite <- !app_assoc in E. apply P in E as [-> E].
  destruct (IH y) as [-> ->]; [lia|done..].
Qed.

Lemma local_prefix_free : prefix_free local_cache_key.
Proof.
  intros [x|] [y|] r r'; cbn; intros E; simplify_eq; [|done].
  destruct (sequence_prefix_free segment_cache_key x y r r') as [-> ->];
    [apply segment_prefix_free|done..].
Qed.

Lemma numbers_prefix_free (x y : list Z) r r' :
  length x = length y -> (WriteU64 <$> x) ++ r = (WriteU64 <$> y) ++ r' -> x = y /\ r = r'.
Proof.
  intros L E. apply (sequence_prefix_free (fun n => [WriteU64 n])); [|done|].
  - intros n n' s s' E'. cbn in E'. by simplify_eq.
  - assert (forall l, l ≫= (fun n => [WriteU64 n]) = WriteU64 <$> l) as H
      by (induction l as [|n l IH]; [done|]; cbn; by f_equal).
    by rewrite !H.
Qed.

(** The key determines every component but the internal sentinels. *)
Lemma version_cache_key_components v w r r' :
  version_cache_key v ++ r = version_cache_key w ++ r' ->
  (version_epoch v = version_epoch w /\ version_release v = version_release w /\
   version_pre v = version_pre w /\ version_post v = version_post w /\
   version_dev v = version_dev w /\ version_local v = version_local w) /\ r = r'.
Proof.
  unfold version_cache_key. rewrite <- !app_assoc. cbn [app]. intros [= Ee El E].
  apply numbers_prefix_free in E as [Er E]; [|done]. apply pre_prefix_free in E as [Ep E].
  apply number_prefix_free in E as [Eq E]. apply number_prefix_free in E as [Ed E].
  apply local_prefix_free in E as [? ?]. by split_and!.
Qed.

(** * Comparison keys

    The comparison of two versions in layers: epoch and release, then the suffix key, then the
    local version. The layers are what the conversions of specifiers to ranges reason about. *)

Definition Key : Type := Z * Z * option Z * Z.

Definition key_cmp : Key -> Key -> comparison :=
  cmp_pair (cmp_pair (cmp_pair Z.compare Z.compare) (cmp_option Z.compare)) Z.compare.

#[export] Instance ord_key : OrdLaws key_cmp.
Proof. unfold key_cmp. apply _. Qed.

(** The tuple of a version without its local component, sentinels included. *)
Definition full_key (f : VersionFull) : Key := (sortable_tuple (Full f)).1.

(** Epoch and release. *)
Definition rel_cmp (f g : VersionFull) : comparison :=
  cmp_pair Z.compare (cmp_list Z.compare)
    (full_epoch f, strip_zeros (full_release f)) (full_epoch g, strip_zeros (full_release g)).

(** The comparison of the fields, layer by layer. *)
Definition full_cmp (f g : VersionFull) : comparison :=
  then_with (rel_cmp f g)
    (then_with (key_cmp (full_key f) (full_key g)) (local_slice_cmp (full_local f) (full_local g))).

Lemma sortable_tuple_layers v :
  sortable_tuple v = (full_key (version_make_full v), full_local (version_make_full v)).
Proof.
  unfold full_key. rewrite (sortable_tuple_full v (Full (version_make_full v))) by done.
  unfold sortable_tuple, sortable_tuple_with. autorewrite with full. cbn [version_make_full].
  generalize (version_make_full v) as f. intros f.
  by destruct (full_min f), (full_pre f) as [[[] ?]|], (full_max f), (full_post f), (full_dev f).
Qed.

(** A version that can be compared: either representation, and no "max" with a number. *)
Definition comparable (v : Version) : Prop := version_rep_wf v /\ max_sentinel v.

Lemma real_comparable v : version_real v -> comparable v.
Proof. intros. split; auto with uv. Qed.

#[export] Hint Resolve real_comparable : uv.

Lemma version_cmp_full v w :
  comparable v -> comparable w ->
  version_cmp v w = full_cmp (version_make_full v) (version_make_full w).
Proof.
  intros [Wv Mv] [Ww Mw]. rewrite version_cmp_is_slow by done. rewrite version_cmp_slow_key.
  unfold cmp_on, version_key, full_cmp, rel_cmp, cmp_pair at 1 2 3; cbn [fst snd].
  rewrite compare_release_strip
    by (rewrite release_full; apply fwf_release, version_rep_wf_full; assumption).
  rewrite !sortable_tuple_layers. autorewrite with full.
  destruct (_ ?= _); [|done..]. cbn [then_with].
  destruct (cmp_list Z.compare _ _); [|done..]. done.
Qed.

Lemma full_key_real f : full_min f = None -> full_max f = None -> full_key f = suffix_key f.
Proof.
  intros H1 H2. unfold full_key. by rewrite (sortable_tuple_key (Full f)).
Qed.

(** ** Layers of the order *)

#[export] Instance ord_rel : OrdLaws rel_cmp.
Proof.
  change rel_cmp with (cmp_on (fun f => (full_epoch f, strip_zeros (full_release f)))
    (cmp_pair Z.compare (cmp_list Z.compare))). apply _.
Qed.

#[export] Instance ord_full : OrdLaws full_cmp.
Proof.
  apply (ord_ext _ (cmp_on (fun f => ((full_epoch f, strip_zeros (full_release f)),
    (full_key f, full_local f)))
    (cmp_pair (cmp_pair Z.compare (cmp_list Z.compare)) (cmp_pair key_cmp local_slice_cmp))));
    [done|apply _].
Qed.

(** The local version of a real version is at least the empty one and below the sentinel. *)
Lemma local_bounds l :
  l <> LocalMax -> local_slice_cmp l LocalMax = Lt /\ local_slice_cmp local_empty l <> Gt.
Proof. intros H. split; [by destruct l|apply local_empty_least]. Qed.

(** The smallest suffix key of a real version. *)
Lemma key_least f :
  full_wf f -> full_min f = None -> full_max f = None ->
  key_cmp (1, 0, None, 0) (full_key f) <> Gt.
Proof.
  intros W H1 H2. rewrite full_key_real by done. pose proof (fwf_dev f W) as Hd.
  unfold suffix_key, key_cmp, cmp_pair, opt_u64, is_u64 in *.
  destruct (full_pre f) as [[[] n]|]; [done..|].
  destruct (full_post f); [done|]. destruct (full_dev f) as [d|]; [|done].
  cbn -[Z.compare U64_MAX] in *. rewrite !Z.compare_refl. cbn [then_with].
  intros H%Z.compare_gt_iff. lia.
Qed.

Lemma full_key_local f l : full_key (full_set_local f l) = full_key f.
Proof.
  destruct f as [e r [[[] n]|] [q|] [d|] lo [mi|] [ma|]]; reflexivity.
Qed.

(** The keys of the sentinels. *)
Lemma full_key_min f n :
  full_max f = None -> full_key (full_set_min f (Some n)) = (0, 0, full_post f, n).
Proof. destruct f as [e r [[[] ?]|] [q|] [d|] lo mi ma]; cbn; intros ->; reflexivity. Qed.

(** The key of a "max" sentinel without a dev component. *)
Definition max_key (pre : option Prerelease) : Key :=
  match pre with
  | None => (6, 0, Some U64_MAX, U64_MAX)
  | Some (mkPrerelease k n) => (2 + pre_rank k, n, Some U64_MAX, U64_MAX)
  end.

Lemma full_key_max f n :
  full_min f = None -> full_dev f = None ->
  full_key (full_set_max f (Some n)) = max_key (full_pre f).
Proof. destruct f as [e r [[[] ?]|] [q|] d lo mi ma]; cbn; intros -> ->; reflexivity. Qed.
