(* ===== verification/VersionParser.v ===== *)
(** * Parsing versions

    [Parser] of [crates/uv-pep440/src/version.rs] with its helpers: the numeric fast path, the
    general parser of versions and version patterns, and the conversion of what it gathered into a
    [Version]. Panics are outcomes of their own, so that their absence is a theorem. *)

From stdpp Require Import base list option numbers decidable strings.
From Stdlib Require Import ZArith Lia.
From S2P Require Import Prelude Text VersionTypes VersionSmall Version VersionOrder.

Local Open Scope Z_scope.

(** ** Errors and outcomes *)

Inductive ErrorKind : Type :=
| Wildcard
| InvalidDigit (got : Z)
| NumberTooBig (bytes : list Z)
| NoLeadingNumber
| NoLeadingReleaseNumber
| LocalEmpty (precursor : Z)
| UnexpectedEnd (version remaining : list Z).

Inductive PatternErrorKind : Type :=
| PatternVersion (err : ErrorKind)
| WildcardNotTrailing.

(** A computation returns a value, returns an error, or panics. *)
Inductive outcome (A : Type) : Type :=
| Done (a : A)
| Failed (e : PatternErrorKind)
| Panicked.
Arguments Done {A} a.
Arguments Failed {A} e.
Arguments Panicked {A}.

Definition outcome_bind {A B : Type} (m : outcome A) (k : A -> outcome B) : outcome B :=
  match m with
  | Done a => k a
  | Failed e => Failed e
  | Panicked => Panicked
  end.

(** The [?] operator on a result that carries the error of a version. *)
Definition lift_version {A : Type} (r : result A ErrorKind) : outcome A :=
  match r with
  | Ok a => Done a
  | Err e => Failed (PatternVersion e)
  end.

Declare Scope parser_scope.
Delimit Scope parser_scope with parser.
Notation "'let!' x ':=' m 'in' k" := (outcome_bind m (fun x => k))
  (at level 200, x pattern, m at level 100, k at level 200) : parser_scope.
Local Open Scope parser_scope.

(** ** Numbers and byte strings *)

Fixpoint parse_u64_loop (all : list Z) (n : Z) (rest : list Z) : result Z ErrorKind :=
  match rest with
  | [] => Ok n
  | byte :: rest' =>
      match u8_checked_sub byte 48 with
      | None => Err (InvalidDigit byte)
      | Some digit =>
          if 9 <? digit then Err (InvalidDigit byte)
          else
            match (match u64_checked_mul n 10 with
                   | Some n => u64_checked_add n digit
                   | None => None
                   end) with
            | Some n => parse_u64_loop all n rest'
            | None => Err (NumberTooBig all)
            end
      end
  end.

Definition parse_u64 (bytes : list Z) : result Z ErrorKind := parse_u64_loop bytes 0 bytes.

Definition starts_with_ignore_ascii_case (needle haystack : list Z) : bool :=
  (length needle <=? length haystack)%nat
  && forallb (fun '(b1, b2) => eq_ignore_ascii_case b1 b2) (zip needle haystack).

(** The [bool] array of 256 entries. *)
Definition ByteSet : Type := list bool.

Definition byteset_new (bytes : list Z) : ByteSet :=
  foldl (fun set b =>
      <[Z.to_nat (to_ascii_lowercase b) := true]>
        (<[Z.to_nat (to_ascii_uppercase b) := true]> set))
    (replicate 256 false) bytes.

Definition byteset_contains (set : ByteSet) (byte : Z) : bool :=
  default false (set !! Z.to_nat byte).

Definition byteset_starts_with (set : ByteSet) (haystack : list Z) : option Z :=
  match haystack with
  | [] => None
  | byte :: _ => if byteset_contains set byte then Some byte else None
  end.

Record StringSet : Type := mkStringSet {
  first_byte : ByteSet;
  strings : list (list Z)
}.

(** The array of first bytes has room for twenty; the unused places stay zero. *)
Definition stringset_new (strings : list (list Z)) : StringSet :=
  let firsts := (fun s => default 0 (head s)) <$> strings in
  mkStringSet (byteset_new (firsts ++ replicate (20 - length firsts) 0)) strings.

Fixpoint string_set_find (first_byte : Z) (haystack : list Z) (strings : list (list Z)) (i : nat) :
    option nat :=
  match strings with
  | [] => None
  | string :: strings' =>
      if eq_ignore_ascii_case (default 0 (head string)) first_byte
         && starts_with_ignore_ascii_case string haystack
      then Some i
      else string_set_find first_byte haystack strings' (S i)
  end.

Definition stringset_starts_with (set : StringSet) (haystack : list Z) : option nat :=
  match byteset_starts_with (first_byte set) haystack with
  | None => None
  | Some first_byte => string_set_find first_byte haystack (strings set) 0
  end.

(** ** Release numbers *)

Inductive ReleaseNumbers : Type :=
| Inline (numbers : list Z) (len : nat)
| Heap (numbers : list Z).

Definition release_numbers_new : ReleaseNumbers := Inline (replicate 4 0) 0.

(** [None] stands for the failed assertion on the inline length. *)
Definition release_numbers_push (r : ReleaseNumbers) (n : Z) : option ReleaseNumbers :=
  match r with
  | Inline numbers len =>
      if (len <=? 4)%nat then
        if (len =? 4)%nat then Some (Heap (numbers ++ [n]))
        else Some (Inline (<[len := n]> numbers) (S len))
      else None
  | Heap numbers => Some (Heap (numbers ++ [n]))
  end.

Definition release_numbers_as_slice (r : ReleaseNumbers) : list Z :=
  match r with
  | Inline numbers len => take len numbers
  | Heap numbers => numbers
  end.

Definition release_numbers_len (r : ReleaseNumbers) : nat := length (release_numbers_as_slice r).

(** ** The parser *)

Record Parser : Type := mkParser {
  p_v : list Z;
  p_i : nat;
  p_epoch : Z;
  p_release : ReleaseNumbers;
  p_pre : option Prerelease;
  p_post : option Z;
  p_dev : option Z;
  p_local : list LocalSegment;
  p_wildcard : bool
}.

(** Assignments to the fields of the parser. *)
Definition set_i (s : Parser) (i : nat) : Parser :=
  mkParser (p_v s) i (p_epoch s) (p_release s) (p_pre s) (p_post s) (p_dev s) (p_local s)
    (p_wildcard s).
Definition set_p_epoch (s : Parser) (x : Z) : Parser :=
  mkParser (p_v s) (p_i s) x (p_release s) (p_pre s) (p_post s) (p_dev s) (p_local s)
    (p_wildcard s).
Definition set_p_release (s : Parser) (x : ReleaseNumbers) : Parser :=
  mkParser (p_v s) (p_i s) (p_epoch s) x (p_pre s) (p_post s) (p_dev s) (p_local s)
    (p_wildcard s).
Definition set_p_pre (s : Parser) (x : option Prerelease) : Parser :=
  mkParser (p_v s) (p_i s) (p_epoch s) (p_release s) x (p_post s) (p_dev s) (p_local s)
    (p_wildcard s).
Definition set_p_post (s : Parser) (x : option Z) : Parser :=
  mkParser (p_v s) (p_i s) (p_epoch s) (p_release s) (p_pre s) x (p_dev s) (p_local s)
    (p_wildcard s).
Definition set_p_dev (s : Parser) (x : option Z) : Parser :=
  mkParser (p_v s) (p_i s) (p_epoch s) (p_release s) (p_pre s) (p_post s) x (p_local s)
    (p_wildcard s).
Definition set_p_local (s : Parser) (x : list LocalSegment) : Parser :=
  mkParser (p_v s) (p_i s) (p_epoch s) (p_release s) (p_pre s) (p_post s) (p_dev s) x
    (p_wildcard s).
Definition set_p_wildcard (s : Parser) (x : bool) : Parser :=
  mkParser (p_v s) (p_i s) (p_epoch s) (p_release s) (p_pre s) (p_post s) (p_dev s) (p_local s) x.

(** [self.v[self.i..]]. *)
Definition rest (s : Parser) : list Z := drop (p_i s) (p_v s).

Definition parser_new (version : list Z) : Parser :=
  mkParser version 0 0 release_numbers_new None None None [] false.

Definition SEPARATOR : ByteSet := byteset_new [46; 95; 45].

Definition is_done (s : Parser) : bool := (length (p_v s) <=? p_i s)%nat.

(** The loop runs over the input that remains; the consumed bytes are returned. *)
Definition bump_while (predicate : Z -> bool) (s : Parser) : list Z * Parser :=
  let consumed := take_while predicate (rest s) in
  (consumed, set_i s (p_i s + length consumed)).

Definition bump_if (string : list Z) (s : Parser) : bool * Parser :=
  if is_done s then (false, s)
  else if starts_with_ignore_ascii_case string (rest s)
  then (true, set_i s (p_i s + length string))
  else (false, s).

Definition bump_if_string_set (set : StringSet) (s : Parser) : option nat * Parser :=
  match stringset_starts_with set (rest s) with
  | None => (None, s)
  | Some index =>
      (Some index, set_i s (p_i s + length (default [] (strings set !! index))))
  end.

Definition bump_if_byte_set (set : ByteSet) (s : Parser) : option Z * Parser :=
  match byteset_starts_with set (rest s) with
  | None => (None, s)
  | Some found => (Some found, set_i s (p_i s + 1))
  end.

Definition unbump (s : Parser) : outcome Parser :=
  match p_i s with
  | O => Panicked
  | S i => Done (set_i s i)
  end.

Definition reset (s : Parser) (offset : nat) : outcome Parser :=
  if (offset <=? length (p_v s))%nat then Done (set_i s offset) else Panicked.

Definition parse_number (s : Parser) : outcome (option Z * Parser) :=
  let '(digits, s) := bump_while is_ascii_digit s in
  match digits with
  | [] => Done (None, s)
  | _ :: _ =>
      let! n := lift_version (parse_u64 digits) in
      if n =? U64_MAX then Failed (PatternVersion (NumberTooBig digits))
      else Done (Some n, s)
  end.

Definition push_release (s : Parser) (n : Z) : outcome Parser :=
  match release_numbers_push (p_release s) n with
  | Some r => Done (set_p_release s r)
  | None => Panicked
  end.

Definition parse_epoch_and_initial_release (s : Parser) : outcome Parser :=
  let! (first_number, s) := parse_number s in
  let! first_number := lift_version (ok_or first_number NoLeadingNumber) in
  let '(bang, s) := bump_if (bytes "!") s in
  if bang then
    let s := set_p_epoch s first_number in
    let! (first_release_number, s) := parse_number s in
    let! first_release_number :=
      lift_version (ok_or first_release_number NoLeadingReleaseNumber) in
    push_release s first_release_number
  else push_release s first_number.

(** The loop stops when the fuel is gone; every round consumes two bytes, so the fuel given by
    [parse_rest_of_release] is never used up. *)
Fixpoint parse_rest_of_release_loop (fuel : nat) (s : Parser) : outcome Parser :=
  match fuel with
  | O => Done s
  | S fuel =>
      let '(dot, s) := bump_if (bytes ".") s in
      if dot then
        let! (n, s) := parse_number s in
        match n with
        | None => unbump s
        | Some n =>
            let! s := push_release s n in
            parse_rest_of_release_loop fuel s
        end
      else Done s
  end.

Definition parse_rest_of_release (s : Parser) : outcome Parser :=
  parse_rest_of_release_loop (S (length (rest s))) s.

Definition parse_wildcard (s : Parser) : outcome (bool * Parser) :=
  let '(found, s) := bump_if (bytes ".*") s in
  if negb found then Done (false, s)
  else if negb (is_done s) then Failed WildcardNotTrailing
  else Done (true, set_p_wildcard s true).

Definition PRE_SPELLINGS : StringSet :=
  stringset_new [bytes "alpha"; bytes "beta"; bytes "preview"; bytes "pre"; bytes "rc";
                 bytes "a"; bytes "b"; bytes "c"].
Definition PRE_MAP : list PrereleaseKind := [Alpha; Beta; Rc; Rc; Rc; Alpha; Beta; Rc].

Definition parse_pre (s : Parser) : outcome Parser :=
  let oldpos := p_i s in
  let '(_, s) := bump_if_byte_set SEPARATOR s in
  let '(spelling, s) := bump_if_string_set PRE_SPELLINGS s in
  match spelling with
  | None => reset s oldpos
  | Some spelling =>
      match PRE_MAP !! spelling with
      | None => Panicked
      | Some kind =>
          let '(_, s) := bump_if_byte_set SEPARATOR s in
          let! (number, s) := parse_number s in
          Done (set_p_pre s (Some (mkPrerelease kind (default 0 number))))
      end
  end.

Definition POST_SPELLINGS : StringSet := stringset_new [bytes "post"; bytes "rev"; bytes "r"].

(** The spelled-out form of a post-release, after the form [-N] was not found. *)
Definition parse_post_spelled (s : Parser) (oldpos : nat) : outcome Parser :=
  let '(_, s) := bump_if_byte_set SEPARATOR s in
  let '(spelling, s) := bump_if_string_set POST_SPELLINGS s in
  match spelling with
  | None => reset s oldpos
  | Some _ =>
      let '(_, s) := bump_if_byte_set SEPARATOR s in
      let! (number, s) := parse_number s in
      Done (set_p_post s (Some (default 0 number)))
  end.

Definition parse_post (s : Parser) : outcome Parser :=
  let oldpos := p_i s in
  let '(dash, s) := bump_if (bytes "-") s in
  if dash then
    let! (n, s) := parse_number s in
    match n with
    | Some n => Done (set_p_post s (Some n))
    | None =>
        let! s := reset s oldpos in
        parse_post_spelled s oldpos
    end
  else parse_post_spelled s oldpos.

Definition parse_dev (s : Parser) : outcome Parser :=
  let oldpos := p_i s in
  let '(_, s) := bump_if_byte_set SEPARATOR s in
  let '(found, s) := bump_if (bytes "dev") s in
  if negb found then reset s oldpos
  else
    let '(_, s) := bump_if_byte_set SEPARATOR s in
    let! (number, s) := parse_number s in
    Done (set_p_dev s (Some (default 0 number))).

(** A local segment: a number if it is one that fits, else the lowercased string. *)
Definition local_segment_of (first : list Z) : LocalSegment :=
  match parse_u64 first with
  | Ok number => LocalNumber number
  | Err _ => LocalString (to_ascii_lowercase <$> first)
  end.

(** As above, every round of the loop consumes a byte. *)
Fixpoint parse_local_loop (fuel : nat) (precursor : Z) (s : Parser) : outcome Parser :=
  match fuel with
  | O => Done s
  | S fuel =>
      let '(first, s) := bump_while is_ascii_alphanumeric s in
      match first with
      | [] => Failed (PatternVersion (LocalEmpty precursor))
      | _ :: _ =>
          let s := set_p_local s (p_local s ++ [local_segment_of first]) in
          let '(byte, s) := bump_if_byte_set SEPARATOR s in
          match byte with
          | None => Done s
          | Some byte => parse_local_loop fuel byte s
          end
      end
  end.

Definition parse_local (s : Parser) : outcome Parser :=
  let '(plus, s) := bump_if (bytes "+") s in
  if negb plus then Done s
  else parse_local_loop (S (length (rest s))) 43 s.

Record VersionPattern : Type := mkPattern {
  pattern_version : Version;
  pattern_wildcard : bool
}.

Definition version_pattern_verbatim (version : Version) : VersionPattern :=
  mkPattern version false.

(** [VersionPattern::wildcard]. *)
Definition version_pattern_wildcard (version : Version) : VersionPattern :=
  mkPattern version true.

Definition into_pattern (s : Parser) : outcome VersionPattern :=
  if (0 <? release_numbers_len (p_release s))%nat then
    match version_new (release_numbers_as_slice (p_release s)) with
    | None => Panicked
    | Some version =>
        let version := version_with_epoch version (p_epoch s) in
        let version := version_with_pre version (p_pre s) in
        let version := version_with_post version (p_post s) in
        let version := version_with_dev version (p_dev s) in
        let version := version_with_local version (Segments (p_local s)) in
        Done (mkPattern version (p_wildcard s))
    end
  else Panicked.

(** ** The fast path *)

Definition from_fast_release (release : list Z) (len : Z) : VersionPattern :=
  let r (i : nat) := default 0 (release !! i) in
  let repr :=
    Z.lor (Z.lor (Z.lor (Z.lor (Z.shiftl (r 0%nat) 48) (Z.shiftl (r 1%nat) 40))
                        (Z.shiftl (r 2%nat) 32))
                 (Z.shiftl (r 3%nat) 24))
          (Z.shiftl SUFFIX_NONE SUFFIX_VERSION_BIT_LEN) in
  mkPattern (Small (mkSmall repr len)) false.

(** Store [cur] at the next place of the four-element array, if there is one. *)
Definition fast_store (release : list Z) (len : nat) (cur : Z) : option (list Z) :=
  if (len <? length release)%nat then Some (<[len := cur]> release) else None.

Fixpoint parse_fast_loop (v : list Z) (prev_digit : bool) (cur : Z) (release : list Z) (len : nat) :
    option (bool * Z * list Z * nat) :=
  match v with
  | [] => Some (prev_digit, cur, release, len)
  | byte :: v' =>
      if byte =? 46 then
        if negb prev_digit then None
        else
          match fast_store release len cur with
          | None => None
          | Some release => parse_fast_loop v' false 0 release (S len)
          end
      else
        match u8_checked_sub byte 48 with
        | None => None
        | Some digit =>
            if 9 <? digit then None
            else
              match u8_checked_mul cur 10 with
              | None => None
              | Some cur =>
                  match u8_checked_add cur digit with
                  | None => None
                  | Some cur => parse_fast_loop v' true cur release len
                  end
              end
        end
  end.

(** The loop and what follows it. *)
Definition parse_fast_general (v : list Z) : option VersionPattern :=
  match parse_fast_loop v false 0 (replicate 4 0) 0 with
  | None => None
  | Some (prev_digit, cur, release, len) =>
      if negb prev_digit then None
      else
        match fast_store release len cur with
        | None => None
        | Some release => Some (from_fast_release release (Z.of_nat (S len)))
        end
  end.

Definition parse_fast (v : list Z) : option VersionPattern :=
  match v with
  | [major; dot1; minor; dot2; patch] =>
      if (dot1 =? 46) && (dot2 =? 46) then
        let major := u8_wrapping_sub major 48 in
        let minor := u8_wrapping_sub minor 48 in
        let patch := u8_wrapping_sub patch 48 in
        if (major <=? 9) && (minor <=? 9) && (patch <=? 9)
        then Some (from_fast_release [major; minor; patch; 0] 3)
        else parse_fast_general v
      else parse_fast_general v
  | _ => parse_fast_general v
  end.

(** ** Entry points *)

(** The part of [parse_pattern] that runs when the fast path gives up. The input is valid UTF-8
    and split behind an ASCII byte, so the lossy conversions of the error keep its bytes. *)
Definition parse_pattern_slow (s : Parser) : outcome VersionPattern :=
  let '(_, s) := bump_while is_ascii_whitespace s in
  let '(_, s) := bump_if (bytes "v") s in
  let! s := parse_epoch_and_initial_release s in
  let! s := parse_rest_of_release s in
  let! (wildcard, s) := parse_wildcard s in
  if wildcard : bool then into_pattern s
  else
    let! s := parse_pre s in
    let! s := parse_post s in
    let! s := parse_dev s in
    let! s := parse_local s in
    let '(_, s) := bump_while is_ascii_whitespace s in
    if negb (is_done s) then
      Failed (PatternVersion (UnexpectedEnd (take (p_i s) (p_v s)) (rest s)))
    else into_pattern s.

Definition parse_pattern (s : Parser) : outcome VersionPattern :=
  match parse_fast (p_v s) with
  | Some vpat => Done vpat
  | None => parse_pattern_slow s
  end.

(** [Parser::parse]: a verbatim version; errors of patterns become "wildcard" errors. *)
Definition parse (s : Parser) : outcome Version :=
  match parse_pattern s with
  | Done vpat =>
      if pattern_wildcard vpat then Failed (PatternVersion Wildcard)
      else Done (pattern_version vpat)
  | Failed (PatternVersion err) => Failed (PatternVersion err)
  | Failed WildcardNotTrailing => Failed (PatternVersion Wildcard)
  | Panicked => Panicked
  end.

Definition version_from_str (version : list Z) : outcome Version := parse (parser_new version).

Definition version_pattern_from_str (version : list Z) : outcome VersionPattern :=
  parse_pattern (parser_new version).

(** ** What the parser keeps true *)

(** A number a version component may hold. *)
Definition is_number (n : Z) : Prop := 0 <= n < U64_MAX.

Definition release_numbers_wf (r : ReleaseNumbers) : Prop :=
  Forall is_number (release_numbers_as_slice r) /\
  match r with
  | Inline numbers len => length numbers = 4%nat /\ (len <= 4)%nat
  | Heap _ => True
  end.

(** The form in which the parser stores a local segment. *)
Definition segment_canonical (s : LocalSegment) : Prop :=
  match s with
  | LocalNumber n => is_u64 n
  | LocalString l => l <> [] /\
      Forall (fun b => is_ascii_digit b || is_ascii_lowercase b = true) l /\
      (forall n, parse_u64 l <> Ok n)
  end.

Definition local_canonical (l : LocalVersion) : Prop :=
  match l with
  | Segments segments => Forall segment_canonical segments
  | LocalMax => True
  end.

Record parser_wf (s : Parser) : Prop := {
  pwf_pos : (p_i s <= length (p_v s))%nat;
  pwf_bytes : Forall is_u8 (p_v s);
  pwf_epoch : is_number (p_epoch s);
  pwf_release : release_numbers_wf (p_release s);
  pwf_pre : from_option (fun p => is_number (pre_number p)) True (p_pre s);
  pwf_post : from_option is_number True (p_post s);
  pwf_dev : from_option is_number True (p_dev s);
  pwf_local : Forall segment_canonical (p_local s)
}.

(** A computation that does not panic and whose results satisfy [Q]. *)
Definition returns {A : Type} (m : outcome A) (Q : A -> Prop) : Prop :=
  match m with
  | Done a => Q a
  | Failed _ => True
  | Panicked => False
  end.

Lemma returns_bind {A B} (m : outcome A) (k : A -> outcome B) (P : A -> Prop) (Q : B -> Prop) :
  returns m P -> (forall a, P a -> returns (k a) Q) -> returns (outcome_bind m k) Q.
Proof. destruct m; simpl; auto. Qed.

Lemma returns_mono {A} (m : outcome A) (P Q : A -> Prop) :
  returns m P -> (forall a, P a -> Q a) -> returns m Q.
Proof. destruct m; simpl; auto. Qed.

Lemma take_while_length {A} p (l : list A) : (length (take_while p l) <= length l)%nat.
Proof. induction l as [|x l IH]; simpl; [done|]. destruct (p x); simpl; lia. Qed.

Lemma take_while_Forall {A} p (l : list A) : Forall (fun x => p x = true) (take_while p l).
Proof. induction l as [|x l IH]; simpl; [done|]. destruct (p x) eqn:E; by constructor. Qed.

Lemma take_while_prefix {A} p (l : list A) : exists k, l = take_while p l ++ k.
Proof.
  induction l as [|x l [k IH]]; simpl; [by exists []|].
  destruct (p x); [exists k; simpl; congruence|by exists (x :: l)].
Qed.

Lemma set_i_wf s i : parser_wf s -> (i <= length (p_v s))%nat -> parser_wf (set_i s i).
Proof. intros [] Hi. by split. Qed.

Lemma rest_length s : parser_wf s -> length (rest s) = (length (p_v s) - p_i s)%nat.
Proof. intros _. unfold rest. by rewrite length_drop. Qed.

Lemma rest_bytes s : parser_wf s -> Forall is_u8 (rest s).
Proof. intros []. by apply Forall_drop. Qed.

(** The position moves forward within the input; everything else is unchanged. *)
Definition moved (s s' : Parser) : Prop :=
  exists i, s' = set_i s i /\ (p_i s <= i <= length (p_v s))%nat.

Lemma moved_wf s s' : moved s s' -> parser_wf s -> parser_wf s'.
Proof. intros (i & -> & Hi) W. apply set_i_wf; [done|lia]. Qed.

Lemma moved_refl s : parser_wf s -> moved s s.
Proof. intros W. exists (p_i s). split; [by destruct s|]. destruct W. lia. Qed.

Lemma moved_trans s1 s2 s3 : moved s1 s2 -> moved s2 s3 -> moved s1 s3.
Proof. intros (i & -> & Hi) (j & -> & Hj). exists j. simpl in *. split; [done|lia]. Qed.

Lemma bump_while_moved p s : parser_wf s -> moved s (bump_while p s).2.
Proof.
  intros W. simpl. eexists. split; [done|].
  pose proof (take_while_length p (rest s)). rewrite rest_length in * by done.
  destruct W. lia.
Qed.

Lemma starts_with_length n h : starts_with_ignore_ascii_case n h = true -> (length n <= length h)%nat.
Proof. unfold starts_with_ignore_ascii_case. intros [H _]%andb_true_iff. by apply Nat.leb_le in H. Qed.

Lemma bump_if_moved string s : parser_wf s -> moved s (bump_if string s).2.
Proof.
  intros W. unfold bump_if. destruct (is_done s); [by apply moved_refl|].
  destruct (starts_with_ignore_ascii_case _ _) eqn:E; [|by apply moved_refl].
  apply starts_with_length in E. rewrite rest_length in E by done.
  eexists. split; [done|]. destruct W. lia.
Qed.

Lemma bump_if_advances string s :
  parser_wf s -> (bump_if string s).1 = true ->
  (p_i (bump_if string s).2 = p_i s + length string)%nat.
Proof.
  intros W. unfold bump_if. destruct (is_done s); [done|]. by destruct (starts_with_ignore_ascii_case _ _).
Qed.

Lemma byteset_starts_with_cons set l b :
  byteset_starts_with set l = Some b -> exists l', l = b :: l'.
Proof. destruct l as [|x l]; simpl; [done|]. destruct (byteset_contains set x); [|done]. intros [= <-]. eauto. Qed.

Lemma bump_if_byte_set_moved set s : parser_wf s -> moved s (bump_if_byte_set set s).2.
Proof.
  intros W. unfold bump_if_byte_set.
  destruct (byteset_starts_with _ _) eqn:E; [|by apply moved_refl].
  apply byteset_starts_with_cons in E as [l E]. apply (f_equal length) in E.
  rewrite rest_length in E by done. simpl in E.
  eexists. split; [done|]. destruct W. lia.
Qed.

Lemma string_set_find_spec b h strs i j :
  string_set_find b h strs i = Some j ->
  exists k string, j = (i + k)%nat /\ strs !! k = Some string /\
    starts_with_ignore_ascii_case string h = true.
Proof.
  revert i. induction strs as [|string strs IH]; intros i; simpl; [done|].
  destruct (_ && _)%bool eqn:E.
  - apply andb_true_iff in E as [_ E]. intros [= <-]. exists O, string. by rewrite Nat.add_0_r.
  - intros (k & st & -> & Hk & Hs)%IH. exists (S k), st. split_and!; [lia|done|done].
Qed.

Lemma bump_if_string_set_moved set s :
  parser_wf s -> moved s (bump_if_string_set set s).2 /\
    forall j, (bump_if_string_set set s).1 = Some j -> (j < length (strings set))%nat.
Proof.
  intros W. unfold bump_if_string_set, stringset_starts_with.
  destruct (byteset_starts_with _ _); [|by split; [apply moved_refl|]].
  destruct (string_set_find _ _ _ _) as [j|] eqn:E; [|by split; [apply moved_refl|]].
  apply string_set_find_spec in E as (k & string & -> & Hk & Hs).
  rewrite Nat.add_0_l, Hk. cbn [from_option id fst snd]. apply starts_with_length in Hs.
  rewrite rest_length in Hs by done. split.
  - eexists. split; [done|]. destruct W. lia.
  - intros j [= <-]. by eapply lookup_lt_Some.
Qed.

(** ** Numbers *)

(** On digits, [parse_u64] computes their value, or reports that it does not fit. *)
Lemma parse_u64_loop_digits all n l :
  0 <= n <= U64_MAX -> Forall (fun b => is_ascii_digit b = true) l ->
  parse_u64_loop all n l =
    if digits_value n l <=? U64_MAX then Ok (digits_value n l) else Err (NumberTooBig all).
Proof.
  intros Hn Hl. revert n Hn. induction Hl as [|b l Hb Hl IH]; intros n Hn; simpl.
  - destruct (Z.leb_spec n U64_MAX); [done|lia].
  - apply digit_bounds in Hb. unfold u8_checked_sub, u64_checked_mul, u64_checked_add.
    destruct (Z.leb_spec 48 b); [|lia]. destruct (Z.ltb_spec 9 (b - 48)); [lia|].
    pose proof (digits_value_mono (n * 10 + (b - 48)) l ltac:(lia) Hl) as Hm.
    destruct (Z.leb_spec (n * 10) U64_MAX).
    + destruct (Z.leb_spec (n * 10 + (b - 48)) U64_MAX); [by apply IH; lia|].
      by destruct (Z.leb_spec (digits_value (n * 10 + (b - 48)) l) U64_MAX); [lia|].
    + by destruct (Z.leb_spec (digits_value (n * 10 + (b - 48)) l) U64_MAX); [lia|].
Qed.

Lemma parse_u64_digits l :
  Forall (fun b => is_ascii_digit b = true) l ->
  parse_u64 l = if digits_value 0 l <=? U64_MAX then Ok (digits_value 0 l) else Err (NumberTooBig l).
Proof. intros. by apply parse_u64_loop_digits. Qed.

Lemma parse_u64_range all n l m :
  0 <= n <= U64_MAX -> parse_u64_loop all n l = Ok m -> is_u64 m.
Proof.
  revert n. induction l as [|b l IH]; intros n Hn; simpl; [by intros [= <-]|].
  unfold u8_checked_sub, u64_checked_mul, u64_checked_add.
  destruct (Z.leb_spec 48 b); [|done]. destruct (Z.ltb_spec 9 (b - 48)); [done|].
  destruct (Z.leb_spec (n * 10) U64_MAX); [|done].
  destruct (Z.leb_spec (n * 10 + (b - 48)) U64_MAX); [|done].
  apply IH. lia.
Qed.

Lemma parse_number_returns s :
  parser_wf s ->
  returns (parse_number s) (fun '(n, s') => moved s s' /\ from_option is_number True n).
Proof.
  intros W. unfold parse_number. pose proof (bump_while_moved is_ascii_digit s W) as M.
  unfold bump_while in *. cbn [snd] in M.
  destruct (take_while _ _) as [|d l] eqn:E; [done|].
  destruct (parse_u64 (d :: l)) as [n|] eqn:P; simpl; [|done].
  apply parse_u64_range in P; [|done]. unfold is_u64 in P.
  destruct (Z.eqb_spec n U64_MAX); simpl; [done|]. unfold is_number. split; [done|lia].
Qed.

(** ** The stages never panic *)

(** The inline array and the heap hold the same list. *)
Lemma release_numbers_push_spec r n :
  release_numbers_wf r -> is_number n ->
  exists r', release_numbers_push r n = Some r' /\ release_numbers_wf r' /\
    release_numbers_as_slice r' = release_numbers_as_slice r ++ [n].
Proof.
  intros [Hn Hr] Hx.
  assert (Forall is_number (release_numbers_as_slice r ++ [n])) as Hf
    by (apply Forall_app; split; [done|by constructor]).
  destruct r as [numbers len|numbers]; simpl in *; [|eexists; split_and!; done].
  destruct Hr as [Hl Hle]. destruct (Nat.leb_spec len 4); [|lia].
  destruct (Nat.eqb_spec len 4) as [->|].
  - rewrite take_ge in * by lia. eexists; split_and!; done.
  - assert (take (S len) (<[len:=n]> numbers) = take len numbers ++ [n]) as E.
    { rewrite (take_S_r _ _ n) by (apply list_lookup_insert_eq; lia).
      by rewrite take_insert_ge by lia. }
    eexists. split; [done|]. split; [|exact E].
    split; [simpl; by rewrite E|]. rewrite length_insert. lia.
Qed.

(** What a stage does to the parser: it stays well-formed over the same input, and a release that
    has a number keeps one. *)
Definition evolves (s s' : Parser) : Prop :=
  parser_wf s' /\ p_v s' = p_v s /\
  (release_numbers_as_slice (p_release s) <> [] -> release_numbers_as_slice (p_release s') <> []).

Lemma evolves_trans s1 s2 s3 : evolves s1 s2 -> evolves s2 s3 -> evolves s1 s3.
Proof. intros (_ & E1 & H1) (W2 & E2 & H2). split_and!; [done|congruence|auto]. Qed.

Lemma moved_evolves s s' : parser_wf s -> moved s s' -> evolves s s'.
Proof. intros W M. pose proof (moved_wf _ _ M W). destruct M as (i & -> & _). done. Qed.

Lemma push_release_spec s n :
  parser_wf s -> is_number n ->
  exists r, push_release s n = Done (set_p_release s r) /\ release_numbers_wf r /\
    release_numbers_as_slice r = release_numbers_as_slice (p_release s) ++ [n].
Proof.
  intros W Hn. unfold push_release.
  destruct (release_numbers_push_spec (p_release s) n) as (r & -> & ?); [apply W|done|]. eauto.
Qed.

Lemma push_release_evolves s n :
  parser_wf s -> is_number n ->
  returns (push_release s n) (fun s' => evolves s s' /\ p_i s' = p_i s /\
    release_numbers_as_slice (p_release s') <> []).
Proof.
  intros W Hn. destruct (push_release_spec s n W Hn) as (r & -> & Hr & E). simpl.
  assert (release_numbers_as_slice r <> []) as Hne
    by (rewrite E; by intros [_ ?]%app_nil).
  split_and!; [|done|done]. split; [|done]. destruct W. by split.
Qed.

Lemma reset_evolves s s' i :
  evolves s s' -> (i <= length (p_v s))%nat -> returns (reset s' i) (evolves s).
Proof.
  intros (W & E & H) Hi. unfold reset. rewrite E. destruct (Nat.leb_spec i (length (p_v s))); [|lia].
  simpl. split_and!; [apply set_i_wf; [done|rewrite E; lia]|done|done].
Qed.

(** Step through the deterministic moves of a stage. *)
Ltac moves :=
  repeat match goal with
  | W : parser_wf ?s |- context [bump_if_byte_set ?set ?s] =>
      let M := fresh "M" in pose proof (bump_if_byte_set_moved set s W) as M;
      let o := fresh "o" in let s' := fresh "s" in
      destruct (bump_if_byte_set set s) as [o s']; cbn [snd] in M;
      pose proof (moved_wf _ _ M W)
  | W : parser_wf ?s |- context [bump_if_string_set ?set ?s] =>
      let M := fresh "M" in let L := fresh "L" in
      destruct (bump_if_string_set_moved set s W) as [M L];
      let o := fresh "o" in let s' := fresh "s" in
      destruct (bump_if_string_set set s) as [o s']; cbn [fst snd] in M, L;
      pose proof (moved_wf _ _ M W)
  | W : parser_wf ?s |- context [bump_if ?string ?s] =>
      let M := fresh "M" in pose proof (bump_if_moved string s W) as M;
      let A := fresh "A" in pose proof (bump_if_advances string s W) as A;
      let o := fresh "o" in let s' := fresh "s" in
      destruct (bump_if string s) as [o s']; cbn [fst snd] in M, A;
      pose proof (moved_wf _ _ M W)
  | W : parser_wf ?s |- context [bump_while ?p ?s] =>
      let M := fresh "M" in pose proof (bump_while_moved p s W) as M;
      let o := fresh "o" in let s' := fresh "s" in
      destruct (bump_while p s) as [o s']; cbn [snd] in M;
      pose proof (moved_wf _ _ M W)
  end.

Lemma parse_epoch_and_initial_release_evolves s :
  parser_wf s ->
  returns (parse_epoch_and_initial_release s)
    (fun s' => evolves s s' /\ release_numbers_as_slice (p_release s') <> []).
Proof.
  intros W. unfold parse_epoch_and_initial_release.
  eapply returns_bind; [by apply parse_number_returns|]. intros [n s1] [M1 Hn].
  pose proof (moved_wf _ _ M1 W) as W1.
  destruct n as [n|]; simpl; [|done]. cbn [from_option] in Hn. moves.
  assert (evolves s s0) as E0 by (apply moved_evolves; [done|by eapply moved_trans]).
  destruct o.
  - assert (parser_wf (set_p_epoch s0 n)) as W2 by (destruct H; by split).
    eapply returns_bind; [by apply parse_number_returns|]. intros [m s2] [M2 Hm].
    pose proof (moved_wf _ _ M2 W2) as W3. destruct m as [m|]; simpl; [|done].
    eapply returns_mono; [by apply push_release_evolves|]. simpl. intros s3 (E3 & _ & Hne).
    split; [|done]. eapply evolves_trans; [|exact E3].
    eapply evolves_trans; [exact E0|]. apply evolves_trans with (set_p_epoch s0 n); [done|].
    by apply moved_evolves.
  - eapply returns_mono; [by apply push_release_evolves|]. simpl. intros s3 (E3 & _ & Hne).
    split; [by eapply evolves_trans|done].
Qed.

Lemma parse_rest_of_release_evolves s :
  parser_wf s -> returns (parse_rest_of_release s) (evolves s).
Proof.
  unfold parse_rest_of_release. generalize (S (length (rest s))) as fuel.
  intros fuel. revert s. induction fuel as [|fuel IH]; intros s W; simpl; [done|]. moves.
  destruct o; [|by apply moved_evolves].
  eapply returns_bind; [by apply parse_number_returns|]. intros [n s1] [M1 Hn].
  pose proof (moved_wf _ _ M1 H) as W1.
  assert (evolves s s1) as E1 by (apply moved_evolves; [done|by eapply moved_trans]).
  destruct n as [n|]; simpl.
  - eapply returns_bind; [by apply push_release_evolves|]. simpl. intros s2 (E2 & _).
    eapply returns_mono; [apply IH, E2|]. intros s3 E3.
    eapply evolves_trans; [exact E1|]. by eapply evolves_trans.
  - unfold unbump. specialize (A eq_refl). destruct M1 as (i & -> & Hi). simpl in *.
    destruct i as [|i]; [lia|]. simpl. split_and!; [|by destruct E1 as (_ & E & _)|].
    + by apply set_i_wf; [|simpl; lia].
    + by destruct E1 as (_ & _ & E).
Qed.

Lemma parse_wildcard_evolves s :
  parser_wf s -> returns (parse_wildcard s) (fun '(_, s') => evolves s s').
Proof.
  intros W. unfold parse_wildcard. moves. pose proof (moved_evolves _ _ W M) as E.
  destruct o; simpl; [|done]. destruct (is_done s0); simpl; [|done].
  eapply evolves_trans; [exact E|]. split_and!; [|done|done]. destruct H. by split.
Qed.

(** A component number is stored after the parser moved. *)
Lemma store_number s s' (f : Parser -> option Z -> Parser) :
  evolves s s' ->
  (forall s n, parser_wf s -> from_option is_number True n -> evolves s (f s n)) ->
  returns (let! (number, s') := parse_number s' in Done (f s' number)) (evolves s).
Proof.
  intros E Hf. pose proof (proj1 E) as W.
  eapply returns_bind; [by apply parse_number_returns|]. intros [n s2] [M Hn].
  simpl. eapply evolves_trans; [exact E|]. eapply evolves_trans; [by apply moved_evolves|].
  apply Hf; [by eapply moved_wf|done].
Qed.

Lemma default_number n : from_option is_number True n -> is_number (default 0 n).
Proof. by destruct n. Qed.

Lemma parse_pre_evolves s : parser_wf s -> returns (parse_pre s) (evolves s).
Proof.
  intros W. unfold parse_pre. moves.
  assert (evolves s s1) as E by (apply moved_evolves; [done|by eapply moved_trans]).
  destruct o0 as [j|]; [|apply reset_evolves; [done|apply W]].
  specialize (L _ eq_refl).
  destruct (lookup_lt_is_Some_2 PRE_MAP j L) as [kind ->]. moves.
  apply store_number with (f := fun s n => set_p_pre s (Some (mkPrerelease kind (default 0 n)))).
  - eapply evolves_trans; [exact E|by apply moved_evolves].
  - intros ? ? [] Hn. split_and!; [|done|done]. split; try done. by apply default_number.
Qed.

Lemma parse_post_spelled_evolves s s' :
  parser_wf s -> evolves s s' -> returns (parse_post_spelled s' (p_i s)) (evolves s).
Proof.
  intros W E. pose proof (proj1 E) as W'. unfold parse_post_spelled. moves.
  assert (evolves s s1) as E1.
  { eapply evolves_trans; [exact E|]. apply moved_evolves; [done|by eapply moved_trans]. }
  destruct o0 as [j|]; [|apply reset_evolves; [done|apply W]]. moves.
  apply store_number with (f := fun s n => set_p_post s (Some (default 0 n))).
  - eapply evolves_trans; [exact E1|by apply moved_evolves].
  - intros ? ? [] Hn. split_and!; [|done|done]. split; try done. by apply default_number.
Qed.

Lemma parse_post_evolves s : parser_wf s -> returns (parse_post s) (evolves s).
Proof.
  intros W. unfold parse_post. moves. pose proof (moved_evolves _ _ W M) as E.
  destruct o; [|by apply parse_post_spelled_evolves].
  eapply returns_bind; [by apply parse_number_returns|]. intros [n s1] [M1 Hn].
  assert (evolves s s1) as E1 by (apply moved_evolves; [done|by eapply moved_trans]).
  destruct n as [n|].
  - simpl. eapply evolves_trans; [exact E1|]. split_and!; [|done|done].
    destruct E1 as [[] _]. by split.
  - eapply returns_bind; [apply reset_evolves; [done|apply W]|].
    intros s2 E2. by apply parse_post_spelled_evolves.
Qed.

Lemma parse_dev_evolves s : parser_wf s -> returns (parse_dev s) (evolves s).
Proof.
  intros W. unfold parse_dev. moves.
  assert (evolves s s1) as E by (apply moved_evolves; [done|by eapply moved_trans]).
  destruct o0; cbn [negb]; [|apply reset_evolves; [done|apply W]]. moves.
  apply store_number with (f := fun s n => set_p_dev s (Some (default 0 n))).
  - eapply evolves_trans; [exact E|by apply moved_evolves].
  - intros ? ? [] Hn. split_and!; [|done|done]. split; try done. by apply default_number.
Qed.

Lemma lower_alphanumeric b :
  is_ascii_alphanumeric b = true ->
  is_ascii_digit (to_ascii_lowercase b) || is_ascii_lowercase (to_ascii_lowercase b) = true /\
  (is_ascii_digit (to_ascii_lowercase b) = true -> to_ascii_lowercase b = b).
Proof.
  unfold is_ascii_alphanumeric, to_ascii_lowercase, is_ascii_digit, is_ascii_lowercase,
    is_ascii_uppercase. intros H.
  destruct ((65 <=? b) && (b <=? 90)) eqn:U; zbool.
  - split; [|intros; zbool; lia].
    apply orb_true_iff. right. apply andb_true_iff. rewrite !Z.leb_le. lia.
  - by rewrite orb_false_r in H.
Qed.

Lemma parse_u64_Ok_digits all n l m :
  parse_u64_loop all n l = Ok m -> Forall (fun b => is_ascii_digit b = true) l.
Proof.
  revert n. induction l as [|b l IH]; intros n; simpl; [done|].
  unfold u8_checked_sub. destruct (Z.leb_spec 48 b); [|done].
  destruct (Z.ltb_spec 9 (b - 48)); [done|]. case_match; [|done]. intros E.
  constructor; [apply digit_bounds; lia|by eapply IH].
Qed.

Lemma segment_canonical_wf s : segment_canonical s -> segment_wf s.
Proof.
  destruct s as [l|n]; simpl; [|done]. intros (_ & HF & _). eapply Forall_impl; [exact HF|].
  unfold is_u8, U8_MAX, is_ascii_digit, is_ascii_lowercase. intros b [H|H]%orb_true_iff; zbool; lia.
Qed.

Lemma local_segment_of_canonical l :
  l <> [] -> Forall (fun b => is_ascii_alphanumeric b = true) l ->
  segment_canonical (local_segment_of l).
Proof.
  intros Hne Hl. unfold local_segment_of. destruct (parse_u64 l) eqn:E; simpl.
  { by apply parse_u64_range in E. }
  split_and!.
  - by destruct l.
  - apply Forall_fmap. eapply Forall_impl; [exact Hl|]. intros b Hb. by apply lower_alphanumeric.
  - intros n P. enough (to_ascii_lowercase <$> l = l) as EQ by (rewrite EQ in P; congruence).
    apply parse_u64_Ok_digits, Forall_fmap in P. clear -Hl P.
    induction Hl as [|b l Hb Hl IH]; [done|]. inversion P; subst. rewrite fmap_cons, IH by done.
    f_equal. by apply lower_alphanumeric.
Qed.

Lemma bump_while_Forall p s : Forall (fun b => p b = true) (bump_while p s).1.
Proof. apply take_while_Forall. Qed.

Lemma parse_local_evolves s : parser_wf s -> returns (parse_local s) (evolves s).
Proof.
  intros W. unfold parse_local. moves. pose proof (moved_evolves _ _ W M) as E.
  destruct o; simpl; [|done].
  eapply returns_mono; [|intros s'; apply evolves_trans; exact E].
  clear M A E W s. rename s0 into s, H into W. generalize (length (rest s)) as fuel.
  cut (forall fuel prec, returns (parse_local_loop fuel prec s) (evolves s));
    [intros Hc fuel; apply (Hc (S fuel))|].
  intros fuel. revert s W. induction fuel as [|fuel IH]; intros s W prec; [done|].
  cbn [parse_local_loop]. pose proof (bump_while_Forall is_ascii_alphanumeric s) as Hb. moves.
  cbn [fst] in Hb. destruct o as [|b l]; [done|].
  set (s1 := set_p_local s0 (p_local s0 ++ [local_segment_of (b :: l)])).
  assert (evolves s s1) as E1.
  { eapply evolves_trans; [by apply moved_evolves|]. split_and!; [|done|done].
    destruct H. split; try done. apply Forall_app. split; [done|].
    constructor; [by apply local_segment_of_canonical|done]. }
  pose proof (proj1 E1) as W1. moves.
  assert (evolves s s2) as E2 by (eapply evolves_trans; [exact E1|by apply moved_evolves]).
  destruct o as [byte|]; [|done].
  eapply returns_mono; [by apply IH|]. intros s3 E3. by eapply evolves_trans.
Qed.

(** The version the parser has gathered. *)
Definition gathered (s : Parser) : VersionFull :=
  mkFull (p_epoch s) (release_numbers_as_slice (p_release s)) (p_pre s) (p_post s) (p_dev s)
    (Segments (p_local s)) None None.

Lemma is_number_u64 n : is_number n -> is_u64 n.
Proof. unfold is_number, is_u64. lia. Qed.

Lemma into_pattern_spec s :
  parser_wf s -> release_numbers_as_slice (p_release s) <> [] ->
  exists v, into_pattern s = Done (mkPattern v (p_wildcard s)) /\ version_real v /\
    version_make_full v = gathered s.
Proof.
  intros W Hne. unfold into_pattern, release_numbers_len.
  set (ns := release_numbers_as_slice (p_release s)) in *.
  assert ((0 <? length ns)%nat = true) as -> by (destruct ns; done).
  destruct W as [_ _ He [Hr _] Hp Hpo Hd Hlo].
  destruct (new_Some ns) as (v0 & -> & [W0 _] & E0); [|done|].
  { eapply Forall_impl; [exact Hr|]. apply is_number_u64. }
  destruct (with_epoch_implements (p_epoch s) (is_number_u64 _ He) v0 W0) as [W1 E1].
  destruct (with_pre_implements (p_pre s)) with (v := version_with_epoch v0 (p_epoch s))
    as [W2 E2]; [|done|].
  { destruct (p_pre s); [by apply is_number_u64|done]. }
  edestruct (with_post_implements (p_post s)) as [W3 E3]; [|exact W2|].
  { destruct (p_post s); [by apply is_number_u64|done]. }
  edestruct (with_dev_implements (p_dev s)) as [W4 E4]; [|exact W3|].
  { destruct (p_dev s); [by apply is_number_u64|done]. }
  edestruct (with_local_implements (Segments (p_local s))) as [W5 E5];
    [eapply Forall_impl; [exact Hlo|apply segment_canonical_wf]|exact W4|].
  eexists. split; [done|].
  assert (version_make_full (version_with_local (version_with_dev (version_with_post
    (version_with_pre (version_with_epoch v0 (p_epoch s)) (p_pre s)) (p_post s)) (p_dev s))
    (Segments (p_local s))) = gathered s) as Ef
    by (rewrite E5, E4, E3, E2, E1, E0; done).
  split; [|exact Ef]. split; [split; [exact W5|by rewrite release_full, Ef]|].
  rewrite Ef. split; simpl; try done; [apply He|..].
  - eapply Forall_impl; [exact Hr|]. unfold is_number; simpl; lia.
  - destruct (p_pre s); simpl in *; [apply Hp|done].
  - destruct (p_post s); simpl in *; [apply Hpo|done].
  - destruct (p_dev s); simpl in *; [apply Hd|done].
Qed.

Lemma parser_new_wf v : Forall is_u8 v -> parser_wf (parser_new v).
Proof. intros Hv. split; simpl; try done; [lia|]. split; [constructor|]. simpl. lia. Qed.

(** What the parser returns: a real version, whose local version is in canonical form. *)
Definition version_parsed (v : Version) : Prop :=
  version_real v /\ local_canonical (version_local v).

Definition pattern_parsed (p : VersionPattern) : Prop := version_parsed (pattern_version p).

Lemma parse_pattern_slow_returns s :
  parser_wf s -> returns (parse_pattern_slow s) pattern_parsed.
Proof.
  intros W. unfold parse_pattern_slow. moves.
  eapply returns_bind; [by apply parse_epoch_and_initial_release_evolves|].
  intros s2 [E2 N2].
  assert (forall s3, evolves s2 s3 -> returns (into_pattern s3) pattern_parsed) as Hinto.
  { intros s3 (W3 & _ & N3).
    destruct (into_pattern_spec s3) as (v & -> & Hv & Ev); [done|by apply N3|].
    split; [done|]. rewrite local_full. simpl. rewrite Ev. apply W3. }
  eapply returns_bind; [apply parse_rest_of_release_evolves, E2|]. intros s3 E3.
  eapply returns_bind; [apply parse_wildcard_evolves, E3|]. intros [w s4] E4.
  pose proof (evolves_trans _ _ _ E3 E4) as F4.
  destruct w; [by apply Hinto|].
  eapply returns_bind; [apply parse_pre_evolves, E4|]. intros s5 E5.
  eapply returns_bind; [apply parse_post_evolves, E5|]. intros s6 E6.
  eapply returns_bind; [apply parse_dev_evolves, E6|]. intros s7 E7.
  eapply returns_bind; [apply parse_local_evolves, E7|]. intros s8 E8.
  pose proof (proj1 E8) as W8. moves.
  destruct (is_done s9); simpl; [|done]. apply Hinto.
  apply evolves_trans with s8; [|by apply moved_evolves].
  eapply evolves_trans; [|exact E8]. eapply evolves_trans; [|exact E7].
  eapply evolves_trans; [|exact E6]. by eapply evolves_trans.
Qed.
