(* ===== verification/VersionParserFacts.v ===== *)
(** * What the parser reads

    Lemmas on the input a stage of the version parser consumes, and the equivalence of the numeric
    fast path with the general parser. *)

From stdpp Require Import base list option numbers decidable strings.
From Stdlib Require Import ZArith Lia.
From S2P Require Import Prelude Text VersionTypes VersionSmall Version VersionOrder VersionParser.

Local Open Scope Z_scope.

(** ** Consuming input *)

Lemma rest_advance s n : rest (set_i s (p_i s + n)) = drop n (rest s).
Proof. unfold rest. simpl. by rewrite drop_drop. Qed.

Lemma set_i_id s : set_i s (p_i s) = s.
Proof. by destruct s. Qed.

(** The text does not go on with a byte that satisfies [p]. *)
Definition stops (p : Z -> bool) (l : list Z) : Prop :=
  match l with [] => True | b :: _ => p b = false end.

Lemma take_while_stops p l k :
  Forall (fun b => p b = true) l -> stops p k -> take_while p (l ++ k) = l.
Proof.
  induction 1 as [|b l Hb Hl IH]; intros Hk; simpl.
  - destruct k as [|b k]; simpl in *; [done|by rewrite Hk].
  - by rewrite Hb, IH.
Qed.

Lemma bump_while_stops p s l k :
  rest s = l ++ k -> Forall (fun b => p b = true) l -> stops p k ->
  bump_while p s = (l, set_i s (p_i s + length l)).
Proof. intros E Hl Hk. unfold bump_while. by rewrite E, take_while_stops. Qed.

Lemma bump_while_none p s : stops p (rest s) -> bump_while p s = ([], s).
Proof.
  intros H. rewrite (bump_while_stops p s [] (rest s)) by done.
  simpl. by rewrite Nat.add_0_r, set_i_id.
Qed.

Lemma is_done_rest s : is_done s = match rest s with [] => true | _ => false end.
Proof.
  unfold is_done, rest. destruct (Nat.leb_spec (length (p_v s)) (p_i s)).
  - by rewrite drop_ge.
  - destruct (drop (p_i s) (p_v s)) eqn:E; [|done].
    apply (f_equal length) in E. rewrite length_drop in E. simpl in E. lia.
Qed.

Lemma eq_ignore_refl b : eq_ignore_ascii_case b b = true.
Proof. unfold eq_ignore_ascii_case. apply Z.eqb_refl. Qed.

Lemma starts_with_app needle l : starts_with_ignore_ascii_case needle (needle ++ l) = true.
Proof.
  unfold starts_with_ignore_ascii_case. apply andb_true_iff. split.
  - apply Nat.leb_le. rewrite length_app. lia.
  - induction needle as [|b n IH]; simpl; [done|]. by rewrite eq_ignore_refl.
Qed.

Lemma bump_if_app needle s l :
  rest s = needle ++ l -> needle <> [] ->
  bump_if needle s = (true, set_i s (p_i s + length needle)).
Proof.
  intros E Hne. unfold bump_if. rewrite is_done_rest, E, starts_with_app. by destruct needle.
Qed.

Lemma bump_if_not needle s :
  starts_with_ignore_ascii_case needle (rest s) = false -> bump_if needle s = (false, s).
Proof. intros E. unfold bump_if. rewrite E. by destruct (is_done s). Qed.

(** What follows an optional separator. *)
Definition skip_sep (l : list Z) : list Z :=
  match l with
  | [] => []
  | b :: l' => if byteset_contains SEPARATOR b then l' else l
  end.

Lemma bump_sep s :
  exists i, (bump_if_byte_set SEPARATOR s).2 = set_i s i /\
    (p_i s <= i)%nat /\ rest (set_i s i) = skip_sep (rest s).
Proof.
  unfold bump_if_byte_set. destruct (rest s) as [|b l] eqn:E; simpl.
  - exists (p_i s). rewrite set_i_id. done.
  - destruct (byteset_contains SEPARATOR b); simpl.
    + exists (p_i s + 1)%nat. rewrite rest_advance, E. split_and!; [done|lia|done].
    + exists (p_i s). rewrite set_i_id. done.
Qed.

Lemma reset_set_i s i :
  (p_i s <= length (p_v s))%nat -> reset (set_i s i) (p_i s) = Done s.
Proof.
  intros H. unfold reset. simpl. destruct (Nat.leb_spec (p_i s) (length (p_v s))); [|lia].
  by rewrite <- (set_i_id s) at 3.
Qed.

(** ** Stages that find nothing *)

Lemma parse_number_none s : stops is_ascii_digit (rest s) -> parse_number s = Done (None, s).
Proof. intros H. unfold parse_number. by rewrite bump_while_none. Qed.

Lemma parse_pre_none s :
  (p_i s <= length (p_v s))%nat ->
  stringset_starts_with PRE_SPELLINGS (skip_sep (rest s)) = None -> parse_pre s = Done s.
Proof.
  intros Hi Hn. unfold parse_pre. destruct (bump_sep s) as (i & E & _ & R).
  destruct (bump_if_byte_set SEPARATOR s) as [o s1]. simpl in E. subst s1.
  unfold bump_if_string_set. rewrite R, Hn. by apply reset_set_i.
Qed.

Lemma parse_post_none s :
  (p_i s <= length (p_v s))%nat ->
  starts_with_ignore_ascii_case (bytes "-") (rest s) = false ->
  stringset_starts_with POST_SPELLINGS (skip_sep (rest s)) = None -> parse_post s = Done s.
Proof.
  intros Hi Hd Hn. unfold parse_post. rewrite bump_if_not by done. unfold parse_post_spelled.
  destruct (bump_sep s) as (i & E & _ & R).
  destruct (bump_if_byte_set SEPARATOR s) as [o s1]. simpl in E. subst s1.
  unfold bump_if_string_set. rewrite R, Hn. by apply reset_set_i.
Qed.

Lemma parse_dev_none s :
  (p_i s <= length (p_v s))%nat ->
  starts_with_ignore_ascii_case (bytes "dev") (skip_sep (rest s)) = false -> parse_dev s = Done s.
Proof.
  intros Hi Hn. unfold parse_dev. destruct (bump_sep s) as (i & E & _ & R).
  destruct (bump_if_byte_set SEPARATOR s) as [o s1]. simpl in E. subst s1.
  rewrite bump_if_not by (by rewrite R). cbn [negb]. by apply reset_set_i.
Qed.

Lemma parse_local_none s :
  starts_with_ignore_ascii_case (bytes "+") (rest s) = false -> parse_local s = Done s.
Proof. intros Hn. unfold parse_local. by rewrite bump_if_not. Qed.

Lemma parse_wildcard_none s :
  starts_with_ignore_ascii_case (bytes ".*") (rest s) = false ->
  parse_wildcard s = Done (false, s).
Proof. intros Hn. unfold parse_wildcard. by rewrite bump_if_not. Qed.

(** ** Numbers and releases *)

(** A non-empty string of digits whose value is a component number. *)
Definition numeral (d : list Z) (n : Z) : Prop :=
  d <> [] /\ Forall (fun b => is_ascii_digit b = true) d /\ digits_value 0 d = n /\ n < U64_MAX.

Lemma numeral_number d n : numeral d n -> is_number n.
Proof.
  intros (_ & Hd & <- & Hlt). split; [|done]. by apply digits_value_mono.
Qed.

Lemma parse_number_numeral s d n l :
  rest s = d ++ l -> numeral d n -> stops is_ascii_digit l ->
  parse_number s = Done (Some n, set_i s (p_i s + length d)).
Proof.
  intros E N Hl. pose proof (numeral_number d n N) as [Hn _]. destruct N as (Hne & Hd & Hv & Hlt).
  unfold parse_number. rewrite (bump_while_stops _ s d l) by done.
  rewrite parse_u64_digits, Hv by done.
  destruct (Z.leb_spec n U64_MAX); [|lia]. destruct d as [|b d]; [done|]. simpl.
  destruct (Z.eqb_spec n U64_MAX); [lia|done].
Qed.

(** The text of the release numbers after the first. *)
Fixpoint dots (ds : list (list Z)) : list Z :=
  match ds with
  | [] => []
  | d :: ds' => 46 :: d ++ dots ds'
  end.

(** The text after the release: it does not go on with a number, with or without a dot. *)
Definition release_stops (l : list Z) : Prop :=
  stops is_ascii_digit l /\
  match l with b :: l' => b = 46 -> stops is_ascii_digit l' | [] => True end.

Lemma dots_stops ds l : stops is_ascii_digit l -> stops is_ascii_digit (dots ds ++ l).
Proof. by destruct ds. Qed.

Lemma rest_nonempty s b l : rest s = b :: l -> (p_i s < length (p_v s))%nat.
Proof. intros E. apply (f_equal length) in E. unfold rest in E. rewrite length_drop in E. simpl in E. lia. Qed.

Lemma starts_with_single c b l :
  starts_with_ignore_ascii_case [c] (b :: l) = eq_ignore_ascii_case c b.
Proof. unfold starts_with_ignore_ascii_case. simpl. by rewrite andb_true_r. Qed.

Lemma eq_ignore_dot b : eq_ignore_ascii_case 46 b = true <-> b = 46.
Proof.
  unfold eq_ignore_ascii_case. rewrite Z.eqb_eq. change (to_ascii_lowercase 46) with 46.
  unfold to_ascii_lowercase, is_ascii_uppercase.
  destruct ((65 <=? b) && (b <=? 90)) eqn:E; zbool; lia.
Qed.

Lemma parse_rest_loop_spec fuel s ds ns l :
  rest s = dots ds ++ l -> Forall2 numeral ds ns -> release_stops l -> parser_wf s ->
  (length ds < fuel)%nat ->
  exists r, parse_rest_of_release_loop fuel s =
      Done (set_i (set_p_release s r) (p_i s + length (dots ds))) /\
    release_numbers_wf r /\
    release_numbers_as_slice r = release_numbers_as_slice (p_release s) ++ ns.
Proof.
  intros E HN. revert s fuel E. induction HN as [|d n ds ns Hd HN IH]; intros s fuel E [Hl Hl'] W Hf.
  all: destruct fuel as [|fuel]; [lia|]; cbn [parse_rest_of_release_loop];
    change (bytes ".") with [46].
  - exists (p_release s). simpl in *.
    assert (set_i (set_p_release s (p_release s)) (p_i s + 0) = s) as ->
      by (rewrite Nat.add_0_r; by destruct s).
    rewrite app_nil_r. split; [|split; [apply W|done]].
    destruct l as [|b l]; [by rewrite bump_if_not by (by rewrite E)|].
    destruct (decide (b = 46)) as [->|Hb].
    + rewrite (bump_if_app [46] s l) by done. cbn [length].
      rewrite parse_number_none by (rewrite rest_advance, E; by apply Hl').
      unfold unbump. simpl. rewrite Nat.add_1_r. by destruct s.
    + rewrite bump_if_not; [done|]. rewrite E, starts_with_single.
      destruct (eq_ignore_ascii_case _ b) eqn:Eb; [|done]. by apply eq_ignore_dot in Eb.
  - simpl in E. rewrite <- app_assoc in E.
    rewrite (bump_if_app [46] s (d ++ dots ds ++ l)) by done.
    set (s1 := set_i s (p_i s + length [46])).
    assert (rest s1 = d ++ dots ds ++ l) as R1.
    { unfold s1. by rewrite rest_advance, E. }
    rewrite (parse_number_numeral s1 d n _ R1 Hd) by (by apply dots_stops).
    set (s2 := set_i s1 (p_i s1 + length d)).
    assert (rest s2 = dots ds ++ l) as R2
      by (unfold s2; rewrite rest_advance, R1; apply drop_app_length).
    assert (parser_wf s2) as W2.
    { pose proof (f_equal length E) as El. rewrite rest_length in El by done.
      simpl in El. rewrite !length_app in El. pose proof (pwf_pos _ W).
      unfold s2, s1. apply set_i_wf; [apply set_i_wf; [done|]|]; simpl; lia. }
    cbn [outcome_bind].
    destruct (push_release_spec s2 n W2 (numeral_number _ _ Hd)) as (r & -> & Wr & Er).
    cbn [outcome_bind].
    assert (parser_wf (set_p_release s2 r)) as W3 by (destruct W2; by split).
    destruct (IH (set_p_release s2 r) fuel) as (r' & -> & Wr' & Er'); [done|done|done|simpl in Hf; lia|].
    exists r'. split_and!; [|done|].
    + do 2 f_equal. unfold s2, s1. simpl. rewrite length_app. lia.
    + rewrite Er'. simpl. rewrite Er. simpl. by rewrite <- app_assoc.
Qed.

(** ** The head of a version: epoch and release *)

Lemma numeral_head d n l :
  numeral d n -> exists b k, d ++ l = b :: k /\ is_ascii_digit b = true.
Proof. intros (Hne & Hd & _). destruct d as [|b d]; [done|]. inversion Hd; subst. by exists b, (d ++ l). Qed.

Lemma digit_plain b :
  is_ascii_digit b = true ->
  is_ascii_whitespace b = false /\ eq_ignore_ascii_case 118 b = false.
Proof.
  intros Hb%digit_bounds. unfold is_ascii_whitespace, eq_ignore_ascii_case.
  change (to_ascii_lowercase 118) with 118. unfold to_ascii_lowercase, is_ascii_uppercase. split.
  - repeat (apply orb_false_iff; split); apply Z.eqb_neq; lia.
  - destruct (_ && _)%bool eqn:E; zbool; apply Z.eqb_neq; lia.
Qed.

Lemma is_number_0 : is_number 0.
Proof. done. Qed.

(** What precedes the release: nothing for an epoch of zero, else the epoch and a [!]. *)
Definition epoch_text (t : list Z) (e : Z) : Prop :=
  (t = [] /\ e = 0) \/ (exists d, t = d ++ [33] /\ numeral d e).

Lemma parse_head_spec s t e d n l :
  parser_wf s -> p_epoch s = 0 -> rest s = t ++ d ++ l -> epoch_text t e -> numeral d n ->
  stops is_ascii_digit l -> starts_with_ignore_ascii_case [33] l = false ->
  exists r, parse_epoch_and_initial_release s =
      Done (set_i (set_p_release (set_p_epoch s e) r) (p_i s + length (t ++ d))) /\
    release_numbers_wf r /\
    release_numbers_as_slice r = release_numbers_as_slice (p_release s) ++ [n].
Proof.
  intros W He E Ht Hd Hl Hb. unfold parse_epoch_and_initial_release. change (bytes "!") with [33].
  pose proof (f_equal length E) as El. rewrite rest_length, !length_app in El by done.
  pose proof (pwf_pos _ W) as Hp.
  destruct Ht as [[-> ->]|(de & -> & Hde)].
  - simpl in E. rewrite (parse_number_numeral s d n l E Hd Hl). cbn [outcome_bind ok_or lift_version].
    set (s1 := set_i s (p_i s + length d)).
    rewrite bump_if_not by (unfold s1; by rewrite rest_advance, E, drop_app_length).
    assert (parser_wf s1) as W1 by (apply set_i_wf; [done|simpl in El; lia]).
    destruct (push_release_spec s1 n W1 (numeral_number _ _ Hd)) as (r & -> & Wr & Er).
    exists r. split; [|done]. unfold s1. rewrite <- He. by destruct s.
  - rewrite <- app_assoc in E. rewrite length_app in El. cbn [length] in El.
    rewrite (parse_number_numeral s de e ([33] ++ d ++ l) E Hde) by done.
    cbn [outcome_bind ok_or lift_version].
    set (s1 := set_i s (p_i s + length de)).
    assert (rest s1 = [33] ++ d ++ l) as R1 by (unfold s1; by rewrite rest_advance, E, drop_app_length).
    rewrite (bump_if_app [33] s1 _ R1) by done.
    set (s2 := set_p_epoch (set_i s1 (p_i s1 + length [33])) e).
    assert (rest s2 = d ++ l) as R2.
    { transitivity (rest (set_i s1 (p_i s1 + length [33]))); [done|]. by rewrite rest_advance, R1. }
    rewrite (parse_number_numeral s2 d n l R2 Hd Hl). cbn [outcome_bind ok_or lift_version].
    set (s3 := set_i s2 (p_i s2 + length d)).
    assert (parser_wf s3) as W3.
    { pose proof (numeral_number _ _ Hde). destruct W.
      split; simpl; try done. lia. }
    destruct (push_release_spec s3 n W3 (numeral_number _ _ Hd)) as (r & -> & Wr & Er).
    exists r. split; [|done]. unfold s3, s2, s1. rewrite !length_app. cbn [length].
    unfold set_p_release, set_p_epoch, set_i. simpl. do 2 f_equal. lia.
Qed.

(** The stages after the release and the wildcard. *)
Definition parse_suffixes (s : Parser) : outcome VersionPattern :=
  outcome_bind (parse_pre s) (fun s =>
  outcome_bind (parse_post s) (fun s =>
  outcome_bind (parse_dev s) (fun s =>
  outcome_bind (parse_local s) (fun s =>
    let '(_, s) := bump_while is_ascii_whitespace s in
    if negb (is_done s) then
      Failed (PatternVersion (UnexpectedEnd (take (p_i s) (p_v s)) (rest s)))
    else into_pattern s)))).

(** The parser after the head of [v]. *)
Definition after_head (v : list Z) (i : nat) (e : Z) (r : ReleaseNumbers) : Parser :=
  mkParser v i e r None None None [] false.

Lemma parse_slow_release v t e d n ds ns l :
  Forall is_u8 v -> v = t ++ d ++ dots ds ++ l ->
  epoch_text t e -> numeral d n -> Forall2 numeral ds ns -> release_stops l ->
  starts_with_ignore_ascii_case [33] l = false ->
  exists i r, parse_pattern_slow (parser_new v) =
      outcome_bind (parse_wildcard (after_head v i e r)) (fun '(wildcard, s) =>
        if wildcard : bool then into_pattern s else parse_suffixes s) /\
    parser_wf (after_head v i e r) /\ rest (after_head v i e r) = l /\
    release_numbers_as_slice r = n :: ns.
Proof.
  intros Hv Ev Ht Hd Hds Hl Hb. pose proof (parser_new_wf v Hv) as W.
  assert (exists b k, v = b :: k /\ is_ascii_digit b = true) as (b & k & Eb & Db).
  { destruct Ht as [[-> _]|(de & -> & Hde)]; subst v.
    - apply (numeral_head d n), Hd.
    - rewrite <- app_assoc. apply (numeral_head de e), Hde. }
  destruct (digit_plain b Db) as [Wb Vb]. unfold parse_pattern_slow.
  assert (rest (parser_new v) = b :: k) as Rb by (unfold rest; simpl; by rewrite Eb).
  rewrite bump_while_none by (by rewrite Rb). change (bytes "v") with [118].
  rewrite bump_if_not by (by rewrite Rb, starts_with_single).
  destruct (parse_head_spec (parser_new v) t e d n (dots ds ++ l)) as (r & -> & Wr & Er); try done.
  { apply dots_stops, Hl. }
  { by destruct ds. }
  cbn [outcome_bind].
  set (s1 := set_i (set_p_release (set_p_epoch (parser_new v) e) r)
               (p_i (parser_new v) + length (t ++ d))).
  assert (rest s1 = dots ds ++ l) as R1.
  { unfold s1, rest. simpl. rewrite Ev, app_assoc. apply drop_app_length. }
  assert (parser_wf s1) as W1.
  { assert (is_number e) as He by (destruct Ht as [[_ ->]|(? & _ & ?)]; [done|by eapply numeral_number]).
    split; simpl; try done. rewrite Ev, !length_app. lia. }
  unfold parse_rest_of_release.
  destruct (parse_rest_loop_spec (S (length (rest s1))) s1 ds ns l) as (r' & -> & Wr' & Er'); try done.
  { rewrite R1, length_app. clear. induction ds; simpl; [lia|]. rewrite length_app. lia. }
  cbn [outcome_bind].
  set (s2 := set_i (set_p_release s1 r') (p_i s1 + length (dots ds))).
  assert (rest s2 = l) as R2.
  { transitivity (drop (length (dots ds)) (rest s1)); [|by rewrite R1, drop_app_length].
    unfold rest, s2. simpl. by rewrite drop_drop. }
  exists (p_i s2), r'. split; [done|]. split; [|split; [done|]].
  - destruct W1. split; simpl; try done. rewrite Ev, !length_app. lia.
  - rewrite Er'. simpl. by rewrite Er.
Qed.

Lemma parse_slow_head v t e d n ds ns l :
  Forall is_u8 v -> v = t ++ d ++ dots ds ++ l ->
  epoch_text t e -> numeral d n -> Forall2 numeral ds ns -> release_stops l ->
  starts_with_ignore_ascii_case [33] l = false ->
  starts_with_ignore_ascii_case (bytes ".*") l = false ->
  exists i r, parse_pattern_slow (parser_new v) = parse_suffixes (after_head v i e r) /\
    parser_wf (after_head v i e r) /\ rest (after_head v i e r) = l /\
    release_numbers_as_slice r = n :: ns.
Proof.
  intros Hv Ev Ht Hd Hds Hl Hb Hw.
  destruct (parse_slow_release v t e d n ds ns l) as (i & r & -> & W & R & E); try done.
  exists i, r. rewrite parse_wildcard_none by (by rewrite R). done.
Qed.

(** ** The loops end before their fuel *)

Lemma moved_shorter s s' k :
  parser_wf s -> parser_wf s' -> p_v s' = p_v s -> (p_i s + S k <= p_i s')%nat ->
  (p_i s' <= length (p_v s))%nat -> (length (rest s') < length (rest s))%nat.
Proof. intros W W' E Hi Hl. rewrite !rest_length, E by done. lia. Qed.

Lemma parse_rest_loop_fuel f1 f2 s :
  parser_wf s -> (length (rest s) < f1)%nat -> (length (rest s) < f2)%nat ->
  parse_rest_of_release_loop f1 s = parse_rest_of_release_loop f2 s.
Proof.
  revert f2 s. induction f1 as [|f1 IH]; intros [|f2] s W H1 H2; try lia.
  cbn [parse_rest_of_release_loop]. moves. destruct o; [|done].
  pose proof (parse_number_returns s0 H) as P.
  destruct (parse_number s0) as [[n s1]| |]; cbn [outcome_bind]; [|done..].
  destruct P as [M1 Hn]. destruct n as [n|]; [|done].
  pose proof (moved_wf _ _ M1 H) as W1.
  destruct (push_release_spec s1 n W1 Hn) as (r & -> & Wr & _). cbn [outcome_bind].
  assert (parser_wf (set_p_release s1 r)) as W2 by (destruct W1; by split).
  assert (length (rest (set_p_release s1 r)) < length (rest s))%nat as Hlt.
  { specialize (A eq_refl). cbn in A. destruct M as (i & -> & ?), M1 as (j & -> & ?).
    apply (moved_shorter _ _ 0); cbn in *; try done; lia. }
  apply IH; [done|lia|lia].
Qed.

Lemma bump_if_byte_set_advances set s b :
  (bump_if_byte_set set s).1 = Some b -> (p_i (bump_if_byte_set set s).2 = p_i s + 1)%nat.
Proof. unfold bump_if_byte_set. by destruct (byteset_starts_with _ _). Qed.

Lemma parse_local_loop_fuel f1 f2 c s :
  parser_wf s -> (length (rest s) < f1)%nat -> (length (rest s) < f2)%nat ->
  parse_local_loop f1 c s = parse_local_loop f2 c s.
Proof.
  revert f2 c s. induction f1 as [|f1 IH]; intros [|f2] c s W H1 H2; try lia.
  cbn [parse_local_loop]. pose proof (bump_while_Forall is_ascii_alphanumeric s) as Hb. moves.
  cbn [fst] in Hb. destruct o as [|b l]; [done|].
  set (s1 := set_p_local s0 (p_local s0 ++ [local_segment_of (b :: l)])).
  assert (parser_wf s1) as W1.
  { destruct H. split; try done. apply Forall_app. split; [done|].
    constructor; [by apply local_segment_of_canonical|done]. }
  pose proof (bump_if_byte_set_advances SEPARATOR s1) as A. moves.
  cbn [fst snd] in A. destruct o as [byte|]; [|done]. specialize (A _ eq_refl).
  assert (length (rest s2) < length (rest s))%nat as Hlt.
  { destruct M as (i & -> & ?), M0 as (j & -> & ?). unfold s1 in *.
    apply (moved_shorter _ _ 0); cbn in *; try done; lia. }
  apply IH; [done|lia|lia].
Qed.

(** ** Wildcards only follow a release *)

(** The suffix components and the wildcard flag. *)
Definition suffixes (s : Parser) : option Prerelease * option Z * option Z * list LocalSegment :=
  (p_pre s, p_post s, p_dev s, p_local s).

(** A computation whose result satisfies [Q], if it returns one. *)
Definition yields {A : Type} (m : outcome A) (Q : A -> Prop) : Prop :=
  match m with Done a => Q a | _ => True end.

Lemma yields_bind {A B} (m : outcome A) (k : A -> outcome B) (P : A -> Prop) (Q : B -> Prop) :
  yields m P -> (forall a, P a -> yields (k a) Q) -> yields (outcome_bind m k) Q.
Proof. destruct m; simpl; auto. Qed.

Lemma yields_mono {A} (m : outcome A) (P Q : A -> Prop) :
  yields m P -> (forall a, P a -> Q a) -> yields m Q.
Proof. destruct m; simpl; auto. Qed.

(** The elementary moves return the parser at another position. *)
Lemma bump_while_at p s : exists o i, bump_while p s = (o, set_i s i).
Proof. by do 2 eexists. Qed.

Lemma bump_if_at n s : exists o i, bump_if n s = (o, set_i s i).
Proof.
  unfold bump_if. destruct (is_done s); [exists false, (p_i s); by rewrite set_i_id|].
  destruct (starts_with_ignore_ascii_case n (rest s)); [by do 2 eexists|].
  exists false, (p_i s). by rewrite set_i_id.
Qed.

Lemma bump_if_string_set_at set s : exists o i, bump_if_string_set set s = (o, set_i s i).
Proof.
  unfold bump_if_string_set. destruct (stringset_starts_with _ _); [by do 2 eexists|].
  exists None, (p_i s). by rewrite set_i_id.
Qed.

Lemma bump_if_byte_set_at set s : exists o i, bump_if_byte_set set s = (o, set_i s i).
Proof.
  unfold bump_if_byte_set. destruct (byteset_starts_with _ _); [by do 2 eexists|].
  exists None, (p_i s). by rewrite set_i_id.
Qed.

Lemma parse_number_at s : yields (parse_number s) (fun '(_, s') => exists i, s' = set_i s i).
Proof.
  unfold parse_number. destruct (bump_while_at is_ascii_digit s) as (d & i & ->).
  destruct d; [by eexists|]. destruct (parse_u64 _); simpl; [|done]. case_match; [done|by eexists].
Qed.

Lemma reset_at s j : yields (reset s j) (fun s' => s' = set_i s j).
Proof. unfold reset. by case_match. Qed.

(** Replace the moves of a stage by positions, and open its binds. *)
Ltac positions :=
  repeat match goal with
  | |- context [bump_if_byte_set ?set ?s] =>
      destruct (bump_if_byte_set_at set s) as (? & ? & ->); cbv beta iota
  | |- context [bump_if_string_set ?set ?s] =>
      destruct (bump_if_string_set_at set s) as (? & ? & ->); cbv beta iota
  | |- context [bump_if ?n ?s] => destruct (bump_if_at n s) as (? & ? & ->); cbv beta iota
  | |- context [bump_while ?p ?s] => destruct (bump_while_at p s) as (? & ? & ->); cbv beta iota
  | |- yields (outcome_bind (parse_number ?s) _) _ =>
      eapply yields_bind; [apply parse_number_at|intros [? ?] [? ->]]
  | |- yields (outcome_bind (reset ?s ?j) _) _ =>
      eapply yields_bind; [apply reset_at|intros ? ->]
  | |- yields (reset ?s ?j) _ => eapply yields_mono; [apply reset_at|intros ? ->]
  | |- yields (match ?o with _ => _ end) _ => destruct o
  | |- yields (if ?b then _ else _) _ => destruct b
  | |- yields (Done _) _ => reflexivity
  | |- yields (Failed _) _ => exact I
  | |- yields (outcome_bind (lift_version (ok_or ?o _)) _) _ =>
      destruct o; cbn [outcome_bind ok_or lift_version]
  end; try done.

(** The release stages leave the suffix components and the flag alone. *)
Definition same_suffixes (s s' : Parser) : Prop :=
  suffixes s' = suffixes s /\ p_wildcard s' = p_wildcard s.

Lemma push_release_same s n : yields (push_release s n) (same_suffixes s).
Proof. unfold push_release. by destruct (release_numbers_push _ _). Qed.

Lemma parse_head_same s : yields (parse_epoch_and_initial_release s) (same_suffixes s).
Proof.
  unfold parse_epoch_and_initial_release. positions.
  all: eapply yields_mono; [apply push_release_same|]; by intros s'.
Qed.

Lemma parse_rest_same s : yields (parse_rest_of_release s) (same_suffixes s).
Proof.
  unfold parse_rest_of_release. generalize (S (length (rest s))) as fuel. intros fuel.
  revert s. induction fuel as [|fuel IH]; intros s; [done|]. cbn [parse_rest_of_release_loop].
  positions.
  - eapply yields_bind; [apply push_release_same|]. intros s3 [E3 F3].
    eapply yields_mono; [apply IH|]. intros s4 [E4 F4]. split; [by rewrite E4|by rewrite F4].
  - unfold unbump. by case_match.
Qed.

(** The suffix stages leave the flag alone. *)
Lemma parse_pre_wildcard s : yields (parse_pre s) (fun s' => p_wildcard s' = p_wildcard s).
Proof. unfold parse_pre. positions. Qed.

Lemma parse_post_wildcard s : yields (parse_post s) (fun s' => p_wildcard s' = p_wildcard s).
Proof. unfold parse_post, parse_post_spelled. positions. Qed.

Lemma parse_dev_wildcard s : yields (parse_dev s) (fun s' => p_wildcard s' = p_wildcard s).
Proof. unfold parse_dev. positions. Qed.

Lemma parse_local_loop_wildcard fuel c s :
  yields (parse_local_loop fuel c s) (fun s' => p_wildcard s' = p_wildcard s).
Proof.
  revert c s. induction fuel as [|fuel IH]; intros c s; [reflexivity|]. cbn [parse_local_loop].
  positions. eapply yields_mono; [apply IH|]. by intros s' ->.
Qed.

Lemma parse_local_wildcard s : yields (parse_local s) (fun s' => p_wildcard s' = p_wildcard s).
Proof.
  unfold parse_local. positions. eapply yields_mono; [apply parse_local_loop_wildcard|].
  by intros s' ->.
Qed.

(** A pattern with a wildcard has no suffix. *)
Definition wildcard_plain (p : VersionPattern) : Prop :=
  pattern_wildcard p = true ->
  version_pre (pattern_version p) = None /\ version_post (pattern_version p) = None /\
  version_dev (pattern_version p) = None /\ version_local (pattern_version p) = local_empty.

Lemma returns_yields {A} (m : outcome A) (P Q : A -> Prop) :
  returns m P -> yields m Q -> returns m (fun a => P a /\ Q a).
Proof. by destruct m. Qed.

Lemma parse_wildcard_same s :
  yields (parse_wildcard s) (fun '(b, s') =>
    suffixes s' = suffixes s /\ (b = false -> p_wildcard s' = p_wildcard s)).
Proof. unfold parse_wildcard. by positions. Qed.

Lemma into_pattern_plain s :
  parser_wf s -> release_numbers_as_slice (p_release s) <> [] ->
  (p_wildcard s = true -> suffixes s = (None, None, None, [])) ->
  returns (into_pattern s) wildcard_plain.
Proof.
  intros W Hne Hs. destruct (into_pattern_spec s W Hne) as (v & -> & _ & E). simpl. intros Hw.
  specialize (Hs Hw). unfold suffixes in Hs. injection Hs as E1 E2 E3 E4.
  cbn [pattern_version]. autorewrite with full. rewrite E. unfold gathered. cbn.
  by rewrite E1, E2, E3, E4.
Qed.

(** The suffix stages, on a parser that has seen no wildcard. *)
Lemma parse_suffixes_plain s :
  parser_wf s -> release_numbers_as_slice (p_release s) <> [] -> p_wildcard s = false ->
  returns (parse_suffixes s) wildcard_plain.
Proof.
  intros W Hne Hw. unfold parse_suffixes.
  eapply returns_bind; [apply returns_yields; [by apply parse_pre_evolves|apply parse_pre_wildcard]|].
  intros s1 [E1 F1].
  eapply returns_bind; [apply returns_yields; [apply parse_post_evolves, E1|apply parse_post_wildcard]|].
  intros s2 [E2 F2].
  eapply returns_bind; [apply returns_yields; [apply parse_dev_evolves, E2|apply parse_dev_wildcard]|].
  intros s3 [E3 F3].
  eapply returns_bind; [apply returns_yields; [apply parse_local_evolves, E3|apply parse_local_wildcard]|].
  intros s4 [E4 F4]. pose proof (proj1 E4) as W4. moves. destruct (is_done s0); simpl; [|done].
  apply into_pattern_plain.
  - by eapply moved_wf.
  - destruct M as (i & -> & _). simpl.
    apply E4, E3, E2, E1, Hne.
  - destruct M as (i & -> & _). simpl. intros Ht. congruence.
Qed.

Lemma parse_pattern_slow_plain v :
  Forall is_u8 v -> returns (parse_pattern_slow (parser_new v)) wildcard_plain.
Proof.
  intros Hv. pose proof (parser_new_wf v Hv) as W. unfold parse_pattern_slow. moves.
  assert (suffixes s0 = (None, None, None, []) /\ p_wildcard s0 = false) as [S0 F0].
  { destruct M as (i & -> & _), M0 as (j & -> & _). done. }
  eapply returns_bind;
    [apply returns_yields; [by apply parse_epoch_and_initial_release_evolves|apply parse_head_same]|].
  intros s1 [[E1 N1] [S1 F1]].
  eapply returns_bind;
    [apply returns_yields; [apply parse_rest_of_release_evolves, E1|apply parse_rest_same]|].
  intros s2 [E2 [S2 F2]].
  eapply returns_bind;
    [apply returns_yields; [apply parse_wildcard_evolves, E2|apply parse_wildcard_same]|].
  intros [b s3] [E3 [S3 F3]].
  assert (release_numbers_as_slice (p_release s3) <> []) as N3 by (by apply E3, E2).
  destruct b.
  - apply into_pattern_plain; [apply E3|done|]. intros _. congruence.
  - apply parse_suffixes_plain; [apply E3|done|]. rewrite F3 by done. congruence.
Qed.

(** * The numeric fast path

    [Parser::parse_fast] of [crates/uv-pep440/src/version.rs] builds the packed word of a version
    [w[.x[.y[.z]]]] directly. Here it is shown to return what the general parser returns. *)

Local Open Scope parser_scope.

(** ** What the loop reads *)

(** A numeral whose value fits a byte. *)
Definition byte_numeral (d : list Z) (n : Z) : Prop := numeral d n /\ n <= U8_MAX.

Definition is_digit (b : Z) : Prop := is_ascii_digit b = true.

Lemma digits_value_snoc n l b : digits_value n (l ++ [b]) = digits_value n l * 10 + (b - 48).
Proof. unfold digits_value. by rewrite foldl_app. Qed.

Lemma byte_numeral_intro d :
  d <> [] -> Forall is_digit d -> digits_value 0 d <= U8_MAX -> byte_numeral d (digits_value 0 d).
Proof. intros ? ? ?. split; [|done]. split_and!; [done..|]. unfold U8_MAX, U64_MAX in *. lia. Qed.

(** The array after a number was stored at its next free place. *)
Lemma fast_store_spec rel len cur rel' :
  fast_store rel len cur = Some rel' -> length rel = 4%nat ->
  drop len rel = replicate (4 - len) 0 ->
  (len < 4)%nat /\ length rel' = 4%nat /\ take (S len) rel' = take len rel ++ [cur] /\
  drop (S len) rel' = replicate (4 - S len) 0.
Proof.
  unfold fast_store. intros E L D. rewrite L in E.
  destruct (Nat.ltb_spec len 4); [|done]. injection E as <-.
  split_and!; [done|by rewrite length_insert|..].
  - rewrite (take_S_r _ _ cur) by (apply list_lookup_insert_eq; lia).
    by rewrite take_insert_ge by lia.
  - rewrite drop_insert_lt by lia. apply (f_equal (drop 1)) in D. rewrite drop_drop in D.
    rewrite Nat.add_1_r in D. rewrite D, drop_replicate. f_equal. lia.
Qed.

Lemma parse_fast_loop_spec v d rel len cur' rel' len' :
  parse_fast_loop v (negb (bool_decide (d = []))) (digits_value 0 d) rel len
    = Some (true, cur', rel', len') ->
  Forall is_digit d -> digits_value 0 d <= U8_MAX -> length rel = 4%nat ->
  drop len rel = replicate (4 - len) 0 ->
  exists e ds ns, v = e ++ dots ds /\ Forall2 byte_numeral ((d ++ e) :: ds) ns /\
    take len' rel' ++ [cur'] = take len rel ++ ns /\
    length rel' = 4%nat /\ drop len' rel' = replicate (4 - len') 0.
Proof.
  revert d rel len. induction v as [|b v IH]; intros d rel len E Hd Hv L D; simpl in E.
  - injection E as Hne <- <- <-. apply negb_true_iff, bool_decide_eq_false in Hne.
    exists [], [], [digits_value 0 d]. rewrite (app_nil_r d). split_and!; try done.
    constructor; [by apply byte_numeral_intro|constructor].
  - destruct (Z.eqb_spec b 46) as [->|].
    + destruct (decide (d = [])) as [->|Hne]; [done|].
      rewrite bool_decide_eq_false_2 in E by done. simpl in E.
      destruct (fast_store rel len _) as [rel1|] eqn:S; [|done].
      destruct (fast_store_spec _ _ _ _ S L D) as (Hlt & L1 & T1 & D1).
      destruct (IH [] rel1 (Datatypes.S len)) as (e & ds & ns & -> & HN & HT & ?); try done.
      exists [], (e :: ds), (digits_value 0 d :: ns). rewrite (app_nil_r d). split_and!; try apply H.
      * done.
      * constructor; [by apply byte_numeral_intro|done].
      * rewrite HT, T1. by rewrite <- app_assoc.
    + unfold u8_checked_sub, u8_checked_mul, u8_checked_add in E.
      destruct (Z.leb_spec 48 b); [|done]. destruct (Z.ltb_spec 9 (b - 48)); [done|].
      destruct (Z.leb_spec (digits_value 0 d * 10) U8_MAX); [|done].
      rewrite <- digits_value_snoc in E.
      destruct (Z.leb_spec (digits_value 0 (d ++ [b])) U8_MAX); [|done].
      destruct (IH (d ++ [b]) rel len) as (e & ds & ns & -> & HN & ?); try done.
      * by rewrite bool_decide_eq_false_2 by (by intros [_ ?]%app_nil).
      * apply Forall_app. split; [done|]. constructor; [|done]. apply digit_bounds. lia.
      * exists (b :: e), ds, ns. split; [done|]. by rewrite <- app_assoc in HN.
Qed.

(** ** The packed word *)

(** The word that the fast path assembles has these fields. *)
Lemma fast_word r0 r1 r2 r3 len :
  0 <= r0 <= U8_MAX -> 0 <= r1 <= U8_MAX -> 0 <= r2 <= U8_MAX -> 0 <= r3 <= U8_MAX ->
  exists s, from_fast_release [r0; r1; r2; r3] len = mkPattern (Small s) false /\
    small_len s = len /\ small_view s r0 r1 r2 r3 SUFFIX_NONE 0.
Proof.
  unfold U8_MAX. intros H0 H1 H2 H3. eexists. split; [done|]. split; [done|].
  cbn [lookup list_lookup from_option id].
  rewrite !(Z.shiftl_mul_pow2 r0) by lia. unfold SUFFIX_NONE, SUFFIX_VERSION_BIT_LEN.
  unfold small_view. cbn [small_repr].
  rewrite (lor_clear_field _ r1 40 8) by (lia || small_unfold; zdivmod).
  rewrite (lor_clear_field _ r2 32 8) by (lia || small_unfold; zdivmod).
  rewrite (lor_clear_field _ r3 24 8) by (lia || small_unfold; zdivmod).
  rewrite (lor_clear_field _ 5 20 4) by (lia || small_unfold; zdivmod).
  small_unfold. lia.
Qed.

Lemma fast_word_spec ns rel :
  (0 < length ns <= 4)%nat -> Forall (fun n => 0 <= n <= U8_MAX) ns ->
  rel = ns ++ replicate (4 - length ns) 0 ->
  exists s, from_fast_release rel (Z.of_nat (length ns)) = mkPattern (Small s) false /\
    small_wf s /\ small_to_full s = release_only ns.
Proof.
  intros L F ->.
  repeat match goal with
  | F : Forall _ (_ :: _) |- _ => inversion F; clear F; subst
  | F : Forall _ ?l |- _ => is_var l; destruct l; simpl in L; try lia
  end.
  all: cbn [length app Nat.sub replicate].
  all: edestruct fast_word as (s & E & El & V); [..|exists s; split; [exact E|]]; try done.
  all: split; [do 6 eexists; split; [exact V|]; rewrite El; cbn; split_and!; try done; lia|].
  all: rewrite (view_to_full _ _ _ _ _ _ _ V) by (rewrite El; simpl; lia); rewrite El; done.
Qed.

(** ** The general parser stays packed on such an input *)

Definition is_small (v : Version) : bool := match v with Small _ => true | Full _ => false end.

Lemma push_release_small s n :
  small_len s < 4 -> n <= U8_MAX ->
  exists s', version_push_release (Small s) n = Small s' /\ small_len s' = small_len s + 1.
Proof.
  intros Hl Hn. unfold version_push_release, version_set, small_push_release, U16_MAX, U8_MAX in *.
  repeat zif; eexists; (split; [reflexivity|simpl; lia]).
Qed.

Lemma foldl_push_small ns s :
  small_len s + Z.of_nat (length ns) <= 4 -> Forall (fun n => n <= U8_MAX) ns ->
  exists s', foldl version_push_release (Small s) ns = Small s'.
Proof.
  intros Hl Hn. revert s Hl. induction Hn as [|n ns Hn Hns IH]; intros s Hl; [by exists s|].
  cbn [foldl]. cbn [length] in Hl. destruct (push_release_small s n) as (s' & -> & E); [lia|done|].
  apply IH. lia.
Qed.

Lemma version_new_small ns w :
  (length ns <= 4)%nat -> Forall (fun n => n <= U8_MAX) ns -> version_new ns = Some w ->
  is_small w = true.
Proof.
  intros Hl Hn. unfold version_new, version_with_release. cbn [version_clear_release].
  destruct (foldl_push_small ns (small_clear_release small_new)) as [s' ->];
    [unfold small_clear_release; cbn [small_len]; lia|done|].
  destruct (version_release (Small s')); [done|]. by intros [= <-].
Qed.

(** Clearing a component of a packed version leaves it packed. *)
Lemma version_clear_small v :
  is_small v = true ->
  is_small (version_with_epoch v 0) = true /\ is_small (version_with_pre v None) = true /\
  is_small (version_with_post v None) = true /\ is_small (version_with_dev v None) = true /\
  is_small (version_with_local v local_empty) = true.
Proof.
  destruct v as [s|]; [intros _|done]. cbn. unfold version_without_local, version_with_epoch,
    version_with_pre, version_with_post, version_with_dev, version_set, small_set_epoch,
    small_set_pre, small_set_post, small_set_dev, small_set_local.
  split_and!; by repeat case_match; simplify_eq.
Qed.

Lemma into_pattern_small v i r ns :
  parser_wf (after_head v i 0 r) -> release_numbers_as_slice r = ns ->
  (0 < length ns <= 4)%nat -> Forall (fun n => n <= U8_MAX) ns ->
  exists s, into_pattern (after_head v i 0 r) = Done (mkPattern (Small s) false) /\
    small_wf s /\ small_to_full s = release_only ns.
Proof.
  intros W Er Hl Hn.
  destruct (into_pattern_spec _ W) as (w & E & [[Ww _] _] & Ew).
  { simpl. rewrite Er. by destruct ns; [simpl in Hl; lia|]. }
  enough (is_small w = true) as Hw.
  { destruct w as [s|]; [|done]. exists s. split; [exact E|]. split; [exact Ww|].
    simpl in Ew. rewrite Ew. unfold gathered, after_head. simpl. by rewrite Er. }
  unfold into_pattern in E. simpl in E. rewrite Er in E.
  destruct (_ <? _)%nat; [|done]. destruct (version_new ns) as [w0|] eqn:N; [|done].
  injection E as <-. pose proof (version_new_small ns w0 (proj2 Hl) Hn N) as S0.
  do 5 (apply version_clear_small). exact S0.
Qed.

Lemma parse_suffixes_done s :
  (p_i s <= length (p_v s))%nat -> rest s = [] -> parse_suffixes s = into_pattern s.
Proof.
  intros Hi R. unfold parse_suffixes.
  rewrite parse_pre_none by (done || by rewrite R). cbn [outcome_bind].
  rewrite parse_post_none by (done || by rewrite R). cbn [outcome_bind].
  rewrite parse_dev_none by (done || by rewrite R). cbn [outcome_bind].
  rewrite parse_local_none by (by rewrite R). cbn [outcome_bind].
  rewrite bump_while_none by (by rewrite R). by rewrite is_done_rest, R.
Qed.

(** ** Equivalence *)

Lemma byte_numerals ds ns :
  Forall2 byte_numeral ds ns ->
  Forall2 numeral ds ns /\ Forall (fun n => 0 <= n <= U8_MAX) ns.
Proof.
  induction 1 as [|d n ds ns [Hd Hn] _ [IH1 IH2]]; [by split|].
  pose proof (numeral_number _ _ Hd) as [? _]. split; by constructor.
Qed.

(** On dotted bytes, both parsers build the version with these release numbers. *)
Lemma fast_slow_agree v d ds ns rel :
  Forall is_u8 v -> v = d ++ dots ds -> Forall2 byte_numeral (d :: ds) ns ->
  (length ns <= 4)%nat -> rel = ns ++ replicate (4 - length ns) 0 ->
  parse_pattern_slow (parser_new v) = Done (from_fast_release rel (Z.of_nat (length ns))).
Proof.
  intros Hv Ev HN Hl Hrel. destruct (byte_numerals _ _ HN) as [HN' Hb].
  inversion HN' as [|? n ? ns' Hd Hds]; subst ns; subst.
  destruct (parse_slow_head (d ++ dots ds) [] 0 d n ds ns' []) as (i & r & -> & W & R & Er); try done.
  { by rewrite app_nil_r. }
  { by left. }
  rewrite (parse_suffixes_done _ (pwf_pos _ W) R).
  destruct (into_pattern_small _ _ _ (n :: ns') W Er) as (s & -> & Ws & Es).
  { simpl in *. lia. }
  { eapply Forall_impl; [exact Hb|]. simpl. lia. }
  destruct (fast_word_spec (n :: ns') _ ltac:(simpl in *; lia) Hb eq_refl) as (s' & -> & Ws' & Es').
  rewrite (small_to_full_inj s s' Ws Ws'); [done|]. by rewrite Es, Es'.
Qed.

Lemma parse_fast_general_slow v p :
  Forall is_u8 v -> parse_fast_general v = Some p ->
  parse_pattern_slow (parser_new v) = Done p.
Proof.
  intros Hv. unfold parse_fast_general.
  destruct (parse_fast_loop _ _ _ _ _) as [[[[pd cur] rel] len]|] eqn:E; [|done].
  destruct pd; simpl; [|done].
  destruct (fast_store rel len cur) as [rel'|] eqn:S; [|done]. intros [= <-].
  destruct (parse_fast_loop_spec v [] _ _ _ _ _ E) as (d & ds & ns & Ev & HN & HT & L & D); try done.
  destruct (fast_store_spec _ _ _ _ S L D) as (Hlt & L' & T' & D').
  simpl in HT. pose proof (f_equal length HT) as Ln.
  rewrite length_app, length_take in Ln. simpl in Ln.
  assert (length ns = Datatypes.S len) as El by lia. rewrite <- El.
  eapply fast_slow_agree; [done|exact Ev|exact HN|lia|].
  rewrite <- (take_drop (Datatypes.S len) rel'), T', D', HT. by rewrite El.
Qed.

(** The five-byte case is an instance of the loop. *)
Lemma fast_five a b c :
  is_u8 a -> is_u8 b -> is_u8 c ->
  u8_wrapping_sub a 48 <= 9 -> u8_wrapping_sub b 48 <= 9 -> u8_wrapping_sub c 48 <= 9 ->
  parse_fast_general [a; 46; b; 46; c] =
    Some (from_fast_release [u8_wrapping_sub a 48; u8_wrapping_sub b 48; u8_wrapping_sub c 48; 0] 3).
Proof.
  assert (forall x, is_u8 x -> u8_wrapping_sub x 48 <= 9 ->
    48 <= x <= 57 /\ u8_wrapping_sub x 48 = x - 48) as H.
  { unfold is_u8, U8_MAX, u8_wrapping_sub. change (2 ^ 8) with 256. intros x ? ?. zdivmod. }
  intros Ha Hb Hc Ga Gb Gc.
  destruct (H a Ha Ga) as [? ->], (H b Hb Gb) as [? ->], (H c Hc Gc) as [? ->]. clear -H0 H1 H2.
  unfold parse_fast_general, parse_fast_loop, fast_store, u8_checked_sub, u8_checked_mul,
    u8_checked_add, U8_MAX.
  cbn [replicate length Nat.ltb Nat.leb insert list_insert negb].
  repeat (zif; cbn [negb length insert list_insert Nat.ltb Nat.leb]). done.
Qed.

Lemma parse_fast_slow v p :
  Forall is_u8 v -> parse_fast v = Some p -> parse_pattern_slow (parser_new v) = Done p.
Proof.
  intros Hv E. apply (parse_fast_general_slow v p Hv). revert E. unfold parse_fast.
  repeat case_match; try done. intros [= <-]. zbool. subst.
  rewrite !Forall_cons in Hv. destruct Hv as (Ha & _ & Hb & _ & Hc & _). by apply fast_five.
Qed.

Lemma parse_pattern_is_slow v :
  Forall is_u8 v -> parse_pattern (parser_new v) = parse_pattern_slow (parser_new v).
Proof.
  intros Hv. unfold parse_pattern. cbn [p_v parser_new].
  destruct (parse_fast v) as [p|] eqn:E; [|done]. by rewrite (parse_fast_slow v p Hv E).
Qed.

Lemma version_pattern_from_str_returns v :
  Forall is_u8 v -> returns (version_pattern_from_str v) pattern_parsed.
Proof.
  intros Hv. unfold version_pattern_from_str. rewrite parse_pattern_is_slow by done.
  by apply parse_pattern_slow_returns, parser_new_wf.
Qed.

Lemma version_from_str_returns v : Forall is_u8 v -> returns (version_from_str v) version_parsed.
Proof.
  intros Hv. unfold version_from_str, parse.
  pose proof (version_pattern_from_str_returns v Hv) as H. unfold version_pattern_from_str in H.
  destruct (parse_pattern _) as [p|[]|]; simpl in *; [|done..].
  by destruct (pattern_wildcard p).
Qed.
