(* ===== verification/VersionDisplay.v ===== *)
(** * Printing versions

    The [Display] implementations of [crates/uv-pep440/src/version.rs], and the round trip: the
    parser reads back the version that was printed. *)

From stdpp Require Import base list option numbers decidable strings.
From Stdlib Require Import ZArith Lia.
From S2P Require Import Prelude Text VersionTypes VersionSmall Version VersionOrder VersionParser.
From S2P Require Import VersionParserFacts.

Local Open Scope Z_scope.
Local Open Scope parser_scope.

(** ** Display *)

(** The decimal digits of a number, most significant first, in front of [acc]. *)
Fixpoint print_digits (fuel : nat) (n : Z) (acc : list Z) : list Z :=
  match fuel with
  | O => acc
  | S fuel =>
      let acc := (48 + n mod 10) :: acc in
      if n / 10 =? 0 then acc else print_digits fuel (n / 10) acc
  end.

(** [Display] of [u64]: at most twenty digits. *)
Definition print_u64 (n : Z) : list Z := print_digits 20 n [].

Definition prerelease_kind_display (kind : PrereleaseKind) : list Z :=
  match kind with
  | Alpha => bytes "a"
  | Beta => bytes "b"
  | Rc => bytes "rc"
  end.

Definition prerelease_display (p : Prerelease) : list Z :=
  prerelease_kind_display (pre_kind p) ++ print_u64 (pre_number p).

Definition local_segment_display (s : LocalSegment) : list Z :=
  match s with
  | LocalString string => string
  | LocalNumber number => print_u64 number
  end.

(** The segments after the first are preceded by a dot. *)
Definition local_slice_display (l : LocalVersionSlice) : list Z :=
  match l with
  | Segments [] => []
  | Segments (segment :: segments) =>
      local_segment_display segment
        ++ concat ((fun s => bytes "." ++ local_segment_display s) <$> segments)
  | LocalMax => bytes "[max]"
  end.

Definition version_display (v : Version) : list Z :=
  (if negb (version_epoch v =? 0) then print_u64 (version_epoch v) ++ bytes "!" else [])
  ++ (match version_release v with
      | [] => []
      | first :: release_iter =>
          print_u64 first ++ concat ((fun n => bytes "." ++ print_u64 n) <$> release_iter)
      end)
  ++ (match version_pre v with
      | Some (mkPrerelease kind number) => prerelease_kind_display kind ++ print_u64 number
      | None => []
      end)
  ++ (match version_post v with
      | Some post => bytes ".post" ++ print_u64 post
      | None => []
      end)
  ++ (match version_dev v with
      | Some dev => bytes ".dev" ++ print_u64 dev
      | None => []
      end)
  ++ (if negb (local_is_empty (version_local v)) then
        match version_local v with
        | Segments _ => bytes "+" ++ local_slice_display (version_local v)
        | LocalMax => bytes "+"
        end
      else []).

(** ** Printed numbers *)

Lemma print_digits_spec fuel n acc :
  (0 < fuel)%nat -> 0 <= n < 10 ^ Z.of_nat fuel ->
  exists d, print_digits fuel n acc = d ++ acc /\ d <> [] /\ Forall is_digit d /\
    digits_value 0 d = n.
Proof.
  revert n acc. induction fuel as [|fuel IH]; intros n acc Hf Hn; [lia|].
  cbn [print_digits]. pose proof (Z.mod_pos_bound n 10 ltac:(lia)) as Hm.
  pose proof (Z.div_mod n 10 ltac:(lia)) as Hdm.
  assert (is_digit (48 + n mod 10)) as Hd by (apply digit_bounds; lia).
  destruct (Z.eqb_spec (n / 10) 0) as [E|E].
  - exists [48 + n mod 10]. split_and!; [done..|by constructor|]. unfold digits_value. simpl. lia.
  - rewrite Nat2Z.inj_succ, Z.pow_succ_r in Hn by lia.
    assert (0 < fuel)%nat as Hf'.
    { destruct fuel; [|lia]. simpl in Hn. destruct E. apply Z.div_small. lia. }
    destruct (IH (n / 10) ((48 + n mod 10) :: acc) Hf') as (d & -> & Hne & HD & HV).
    { split; [apply Z.div_pos; lia|]. apply Z.div_lt_upper_bound; lia. }
    exists (d ++ [48 + n mod 10]). rewrite <- app_assoc. split; [done|]. split_and!.
    + by intros [_ ?]%app_nil.
    + apply Forall_app. split; [done|by constructor].
    + rewrite digits_value_snoc, HV. lia.
Qed.

Lemma print_u64_spec n :
  is_u64 n -> print_u64 n <> [] /\ Forall is_digit (print_u64 n) /\
    digits_value 0 (print_u64 n) = n.
Proof.
  intros [H0 H1]. destruct (print_digits_spec 20 n []) as (d & E & ?); [lia| |].
  - split; [done|]. apply (Z.le_lt_trans _ _ _ H1). reflexivity.
  - unfold print_u64. by rewrite E, app_nil_r.
Qed.

Lemma print_numeral n : is_number n -> numeral (print_u64 n) n.
Proof.
  intros Hn. destruct (print_u64_spec n (is_number_u64 n Hn)) as (? & ? & ?).
  split_and!; try done. apply Hn.
Qed.

Lemma print_u64_parse n : is_u64 n -> parse_u64 (print_u64 n) = Ok n.
Proof.
  intros Hn. destruct (print_u64_spec n Hn) as (_ & HD & HV).
  rewrite parse_u64_digits by exact HD. rewrite HV. destruct Hn. by zif.
Qed.


(** ** The stages of the parser on printed text *)

(** [starts_with_ignore_ascii_case] by recursion on the needle. *)
Fixpoint starts_with (needle haystack : list Z) : bool :=
  match needle, haystack with
  | [], _ => true
  | _ :: _, [] => false
  | c :: needle, b :: haystack => eq_ignore_ascii_case c b && starts_with needle haystack
  end.

Lemma starts_with_spec n h : starts_with_ignore_ascii_case n h = starts_with n h.
Proof.
  revert h. unfold starts_with_ignore_ascii_case.
  induction n as [|c n IH]; intros [|b h]; simpl; try done. rewrite <- IH. simpl.
  destruct (length n <=? length h)%nat, (eq_ignore_ascii_case c b); done.
Qed.

Fixpoint find_prefix (first : Z) (h : list Z) (strs : list (list Z)) (i : nat) : option nat :=
  match strs with
  | [] => None
  | s :: strs =>
      if eq_ignore_ascii_case (default 0 (head s)) first && starts_with s h then Some i
      else find_prefix first h strs (S i)
  end.

Lemma find_prefix_spec first h strs i :
  string_set_find first h strs i = find_prefix first h strs i.
Proof.
  revert i. induction strs as [|s strs IH]; intros i; simpl; [done|]. by rewrite starts_with_spec, IH.
Qed.

(** The string set on text whose first bytes are known. *)
Ltac string_set := unfold stringset_starts_with; rewrite ?find_prefix_spec;
  match goal with |- context [byteset_starts_with ?s (?b :: ?l)] =>
    let r := eval vm_compute in (byteset_contains s b) in
    replace (byteset_starts_with s (b :: l)) with (if r then Some b else None)
      by (simpl; by replace (byteset_contains s b) with r by (vm_compute; reflexivity))
  end; cbv iota; rewrite ?find_prefix_spec; try reflexivity.

Lemma digit_values b :
  is_digit b -> b = 48 \/ b = 49 \/ b = 50 \/ b = 51 \/ b = 52 \/ b = 53 \/ b = 54 \/ b = 55 \/
    b = 56 \/ b = 57.
Proof. intros H%digit_bounds. lia. Qed.

Lemma digit_no_separator b : is_digit b -> byteset_contains SEPARATOR b = false.
Proof. intros H%digit_values. repeat destruct H as [->|H]; [reflexivity..|by subst b]. Qed.

(** The spelling of a printed pre-release is found at this index. *)
Definition kind_index (k : PrereleaseKind) : nat :=
  match k with Alpha => 5 | Beta => 6 | Rc => 4 end%nat.

Lemma pre_spelling k b l :
  is_digit b ->
  stringset_starts_with PRE_SPELLINGS (prerelease_kind_display k ++ b :: l) = Some (kind_index k).
Proof.
  intros H%digit_values. destruct k; cbn [prerelease_kind_display bytes app]; string_set.
  all: repeat destruct H as [->|H]; [reflexivity..|by subst b].
Qed.

(** What may follow each component. *)
Definition dev_follow (l : list Z) : Prop := l = [] \/ exists k, l = 43 :: k.
Definition post_follow (l : list Z) : Prop := dev_follow l \/ exists k, l = bytes ".dev" ++ k.
Definition pre_follow (l : list Z) : Prop := post_follow l \/ exists k, l = bytes ".post" ++ k.

Definition pre_text (o : option Prerelease) : list Z :=
  match o with
  | Some (mkPrerelease kind number) => prerelease_kind_display kind ++ print_u64 number
  | None => []
  end.
Definition post_text (o : option Z) : list Z :=
  match o with Some post => bytes ".post" ++ print_u64 post | None => [] end.
Definition dev_text (o : option Z) : list Z :=
  match o with Some dev => bytes ".dev" ++ print_u64 dev | None => [] end.

(** Case analysis on what follows. *)
Ltac follow H :=
  unfold pre_follow, post_follow, dev_follow in H;
  repeat match type of H with
    | _ \/ _ => destruct H as [H|H]
    | exists _, _ => destruct H as [? H]
    end; rewrite ?H in *; clear H.

Lemma follow_stops l : pre_follow l -> stops is_ascii_digit l.
Proof. intros H. follow H; done. Qed.

Lemma bump_sep_numeral s d n l :
  rest s = d ++ l -> numeral d n -> bump_if_byte_set SEPARATOR s = (None, s).
Proof.
  intros E (Hne & HD & _). unfold bump_if_byte_set. rewrite E.
  destruct d as [|b d]; [done|]. inversion HD as [|?? Hb]; subst. cbn [app byteset_starts_with].
  by rewrite (digit_no_separator b Hb).
Qed.

Lemma set_i_set_i s i j : set_i (set_i s i) j = set_i s j.
Proof. done. Qed.

Lemma bump_sep_dot s l : rest s = 46 :: l ->
  bump_if_byte_set SEPARATOR s = (Some 46, set_i s (p_i s + 1)).
Proof. intros E. unfold bump_if_byte_set. by rewrite E. Qed.

Lemma bump_sep_letter s b l :
  rest s = b :: l -> byteset_contains SEPARATOR b = false ->
  bump_if_byte_set SEPARATOR s = (None, s).
Proof. intros E H. unfold bump_if_byte_set. rewrite E. cbn [byteset_starts_with]. by rewrite H. Qed.

Lemma bump_strings s set i string l :
  stringset_starts_with set (rest s) = Some i -> strings set !! i = Some string ->
  rest s = string ++ l ->
  bump_if_string_set set s = (Some i, set_i s (p_i s + length string)) /\
  rest (set_i s (p_i s + length string)) = l.
Proof.
  intros E Ei El. unfold bump_if_string_set. rewrite E, Ei. split; [done|].
  by rewrite rest_advance, El, drop_app_length.
Qed.

Lemma skip_sep_dot l : skip_sep (46 :: l) = l.
Proof. reflexivity. Qed.

Lemma set_pre_id s : set_p_pre s (p_pre s) = s. Proof. by destruct s. Qed.
Lemma set_post_id s : set_p_post s (p_post s) = s. Proof. by destruct s. Qed.
Lemma set_dev_id s : set_p_dev s (p_dev s) = s. Proof. by destruct s. Qed.

Lemma parse_pre_text s o l :
  (p_i s <= length (p_v s))%nat -> p_pre s = None -> rest s = pre_text o ++ l ->
  from_option (fun p => is_number (pre_number p)) True o -> pre_follow l ->
  parse_pre s = Done (set_p_pre (set_i s (p_i s + length (pre_text o))) o).
Proof.
  intros Hi Hp E Ho Hl. destruct o as [[k n]|].
  - cbn in Ho. pose proof (print_numeral n Ho) as N. cbn [pre_text] in *. rewrite <- app_assoc in E.
    unfold parse_pre. destruct (numeral_head _ _ l N) as (b & t & Eb & Hb).
    assert (bump_if_byte_set SEPARATOR s = (None, s)) as ->
      by (destruct k; (eapply bump_sep_letter; [exact E|reflexivity])).
    assert (strings PRE_SPELLINGS !! kind_index k = Some (prerelease_kind_display k)) as Ek
      by (by destruct k).
    destruct (bump_strings s PRE_SPELLINGS (kind_index k) (prerelease_kind_display k)
                (print_u64 n ++ l)) as [-> R]; [|done|done|].
    { rewrite E, Eb. by apply pre_spelling. }
    assert (PRE_MAP !! kind_index k = Some k) as -> by (by destruct k).
    rewrite (bump_sep_numeral _ _ _ _ R N), (parse_number_numeral _ _ _ _ R N (follow_stops _ Hl)).
    cbn [outcome_bind from_option id p_i set_i]. rewrite length_app, Nat.add_assoc. done.
  - cbn [pre_text app length] in *. rewrite Nat.add_0_r, set_i_id. rewrite <- Hp, set_pre_id.
    apply parse_pre_none; [done|]. rewrite E. follow Hl; [done|..];
      cbn [bytes app]; reflexivity || (rewrite skip_sep_dot; string_set).
Qed.

Lemma parse_post_text s o l :
  (p_i s <= length (p_v s))%nat -> p_post s = None -> rest s = post_text o ++ l ->
  from_option is_number True o -> post_follow l ->
  parse_post s = Done (set_p_post (set_i s (p_i s + length (post_text o))) o).
Proof.
  intros Hi Hp E Ho Hl. destruct o as [n|].
  - cbn in Ho. pose proof (print_numeral n Ho) as N. cbn [post_text] in *. rewrite <- app_assoc in E.
    unfold parse_post. rewrite bump_if_not by (rewrite E; reflexivity). unfold parse_post_spelled.
    change (bytes ".post") with (46 :: bytes "post") in *. cbn [app] in E.
    rewrite (bump_sep_dot _ _ E).
    assert (rest (set_i s (p_i s + 1)) = bytes "post" ++ print_u64 n ++ l) as R1
      by (by rewrite rest_advance, E).
    destruct (bump_strings (set_i s (p_i s + 1)) POST_SPELLINGS 0 (bytes "post")
                (print_u64 n ++ l)) as [-> R]; [|done|done|].
    { rewrite R1. cbn [bytes app]. string_set. }
    rewrite (bump_sep_numeral _ _ _ _ R N), (parse_number_numeral _ _ _ _ R N).
    2: { apply follow_stops. by left. }
    cbn [outcome_bind from_option id p_i set_i app]. do 2 f_equal. cbn [length].
    rewrite length_app. rewrite !set_i_set_i. f_equal. lia.
  - cbn [post_text app length] in *. rewrite Nat.add_0_r, set_i_id. rewrite <- Hp, set_post_id.
    apply parse_post_none; [done|..]; rewrite E; follow Hl; [done|reflexivity|reflexivity|done|..];
      cbn [bytes app]; reflexivity || (rewrite skip_sep_dot; string_set).
Qed.

Lemma parse_dev_text s o l :
  (p_i s <= length (p_v s))%nat -> p_dev s = None -> rest s = dev_text o ++ l ->
  from_option is_number True o -> dev_follow l ->
  parse_dev s = Done (set_p_dev (set_i s (p_i s + length (dev_text o))) o).
Proof.
  intros Hi Hp E Ho Hl. destruct o as [n|].
  - cbn in Ho. pose proof (print_numeral n Ho) as N. cbn [dev_text] in *. rewrite <- app_assoc in E.
    unfold parse_dev. change (bytes ".dev") with (46 :: bytes "dev") in *. cbn [app] in E.
    rewrite (bump_sep_dot _ _ E).
    assert (rest (set_i s (p_i s + 1)) = bytes "dev" ++ print_u64 n ++ l) as R1
      by (by rewrite rest_advance, E).
    rewrite (bump_if_app _ _ _ R1) by done. cbn [negb].
    set (s1 := set_i (set_i s (p_i s + 1)) (p_i (set_i s (p_i s + 1)) + length (bytes "dev"))).
    assert (rest s1 = print_u64 n ++ l) as R by (unfold s1; by rewrite rest_advance, R1).
    rewrite (bump_sep_numeral _ _ _ _ R N), (parse_number_numeral _ _ _ _ R N).
    2: { apply follow_stops. by left; left. }
    cbn [outcome_bind from_option id p_i set_i app]. do 2 f_equal. unfold s1. cbn [length].
    rewrite !set_i_set_i. rewrite length_app. f_equal. cbn. lia.
  - cbn [dev_text app length] in *. rewrite Nat.add_0_r, set_i_id. rewrite <- Hp, set_dev_id.
    apply parse_dev_none; [done|]. rewrite E, starts_with_spec. by follow Hl.
Qed.

(** ** Local versions *)

Lemma lower_id b : is_ascii_digit b || is_ascii_lowercase b = true -> to_ascii_lowercase b = b.
Proof.
  unfold to_ascii_lowercase, is_ascii_uppercase, is_ascii_digit, is_ascii_lowercase.
  intros H. destruct ((65 <=? b) && (b <=? 90)) eqn:E; [|done].
  apply orb_true_iff in H as [H|H]; zbool; lia.
Qed.

Lemma segment_text_spec s :
  segment_canonical s ->
  local_segment_display s <> [] /\
  Forall (fun b => is_ascii_alphanumeric b = true) (local_segment_display s) /\
  local_segment_of (local_segment_display s) = s.
Proof.
  destruct s as [l|n]; simpl.
  - intros (Hne & HF & HP). split_and!; [done|..].
    + eapply Forall_impl; [exact HF|]. simpl. unfold is_ascii_alphanumeric. intros b Hb.
      by destruct (is_ascii_digit b), (is_ascii_uppercase b), (is_ascii_lowercase b).
    + unfold local_segment_of. destruct (parse_u64 l) as [n|] eqn:E; [by destruct (HP n)|].
      f_equal. clear -HF. induction HF as [|b l Hb HF IH]; [done|].
      rewrite fmap_cons, IH. by rewrite lower_id.
  - intros Hn. destruct (print_u64_spec n Hn) as (Hne & HD & _). split_and!; [done|..].
    + eapply Forall_impl; [exact HD|]. unfold is_digit, is_ascii_alphanumeric. by intros b ->.
    + unfold local_segment_of. by rewrite print_u64_parse.
Qed.

Lemma parse_local_loop_text fuel c s seg segs :
  (length segs < fuel)%nat -> rest s = local_slice_display (Segments (seg :: segs)) ->
  Forall segment_canonical (seg :: segs) ->
  parse_local_loop fuel c s =
    Done (set_p_local (set_i s (p_i s + length (local_slice_display (Segments (seg :: segs)))))
            (p_local s ++ seg :: segs)).
Proof.
  revert fuel c s seg. induction segs as [|seg' segs IH]; intros [|fuel] c s seg Hf E HC;
    (simpl in Hf; try lia); inversion HC as [|?? Hseg HC']; subst.
  all: destruct (segment_text_spec seg Hseg) as (Hne & HA & HS).
  all: cbn [parse_local_loop local_slice_display fmap list_fmap concat] in *.
  - rewrite app_nil_r in *. rewrite (bump_while_stops _ s _ [] ) by (done || by rewrite app_nil_r).
    destruct (local_segment_display seg) as [|b t] eqn:D; [done|]. rewrite HS.
    unfold bump_if_byte_set. cbn [rest].
    match goal with |- context [byteset_starts_with _ ?r] => assert (r = []) as -> end; [|done].
    transitivity (rest (set_i s (p_i s + length (b :: t)))); [done|].
    rewrite rest_advance, E. by rewrite drop_ge.
  - rewrite (bump_while_stops _ s _ _ E HA) by done.
    destruct (local_segment_display seg) as [|b t] eqn:D; [done|]. rewrite HS. rewrite <- D in *.
    set (s1 := set_p_local (set_i s (p_i s + length (local_segment_display seg))) (p_local s ++ [seg])).
    assert (rest s1 = 46 :: local_slice_display (Segments (seg' :: segs))) as R1.
    { transitivity (rest (set_i s (p_i s + length (local_segment_display seg)))); [done|].
      rewrite rest_advance, E, drop_app_length. done. }
    cbn [p_local set_i]. fold s1. rewrite (bump_sep_dot _ _ R1).
    rewrite (IH fuel 46 _ seg'); [|lia|by rewrite rest_advance, R1|done].
    cbn [local_slice_display]. unfold s1. cbn [p_local set_p_local set_i p_i].
    unfold set_p_local, set_i. cbn [p_v p_i p_epoch p_release p_pre p_post p_dev p_local p_wildcard].
    do 2 f_equal.
    + rewrite !length_app. cbn [length app bytes]. lia.
    + by rewrite <- app_assoc.
Qed.

Definition local_text (l : LocalVersion) : list Z :=
  match l with
  | Segments [] => []
  | Segments (_ :: _) => 43 :: local_slice_display l
  | LocalMax => [43]
  end.

Lemma display_segments_length seg segs :
  Forall segment_canonical segs ->
  (length segs <= length (local_slice_display (Segments (seg :: segs))))%nat.
Proof.
  intros HC. cbn [local_slice_display]. rewrite length_app.
  enough (length segs <= length (concat ((fun s => bytes "." ++ local_segment_display s) <$> segs)))%nat
    by lia.
  clear HC. induction segs as [|s segs IH]; [done|]. rewrite fmap_cons. cbn [concat].
  rewrite !length_app. change (length (bytes ".")) with 1%nat. cbn [length]. lia.
Qed.

Lemma parse_local_text s segs :
  p_local s = [] -> rest s = local_text (Segments segs) -> Forall segment_canonical segs ->
  parse_local s =
    Done (set_p_local (set_i s (p_i s + length (local_text (Segments segs)))) segs).
Proof.
  intros Hp E HC. destruct segs as [|seg segs].
  - cbn [local_text length] in *. rewrite parse_local_none by (by rewrite E).
    rewrite Nat.add_0_r. destruct s; cbn in *. by rewrite Hp.
  - cbn [local_text] in *. unfold parse_local. change (bytes "+") with [43].
    rewrite (bump_if_app [43] s (local_slice_display (Segments (seg :: segs)))) by done.
    cbn [negb]. set (s1 := set_i s (p_i s + length [43])).
    assert (rest s1 = local_slice_display (Segments (seg :: segs))) as R
      by (unfold s1; by rewrite rest_advance, E).
    rewrite (parse_local_loop_text _ _ _ seg segs); [|rewrite R|done|done].
    + unfold s1. cbn [length p_local set_i]. rewrite Hp. cbn [app p_i].
      unfold set_p_local, set_i. cbn. do 2 f_equal. lia.
    + inversion HC; subst. pose proof (display_segments_length seg segs ltac:(done)). lia.
Qed.

(** ** The round trip *)

Lemma version_display_text v :
  version_release v <> [] ->
  exists n ns, version_release v = n :: ns /\
  version_display v =
    (if version_epoch v =? 0 then [] else print_u64 (version_epoch v) ++ [33]) ++
    print_u64 n ++ dots (print_u64 <$> ns) ++ pre_text (version_pre v) ++
    post_text (version_post v) ++ dev_text (version_dev v) ++ local_text (version_local v).
Proof.
  intros Hne. destruct (version_release v) as [|n ns] eqn:E; [done|]. exists n, ns. split; [done|].
  unfold version_display. rewrite E.
  assert (forall ns, concat ((fun n => bytes "." ++ print_u64 n) <$> ns) = dots (print_u64 <$> ns))
    as Hd by (clear; induction ns as [|n ns IH]; [done|]; cbn; by f_equal; f_equal).
  rewrite Hd, <- !app_assoc. f_equal; [by destruct (_ =? _)|]. do 2 f_equal.
  do 3 f_equal.
  by destruct (version_local v) as [[]|].
Qed.

Lemma local_follow segs : dev_follow (local_text (Segments segs)).
Proof. destruct segs; [by left|]. right. by eexists. Qed.

Lemma dev_text_follow o l : dev_follow l -> post_follow (dev_text o ++ l).
Proof. intros H. destruct o; [right|by left]. cbn [dev_text]. eexists. by rewrite <- app_assoc. Qed.

Lemma post_text_follow o l : post_follow l -> pre_follow (post_text o ++ l).
Proof. intros H. destruct o; [right|by left]. cbn [post_text]. eexists. by rewrite <- app_assoc. Qed.

(** What follows the release number of a printed version ends it. *)
Lemma pre_text_stops o l :
  pre_follow l ->
  release_stops (pre_text o ++ l) /\
  starts_with_ignore_ascii_case [33] (pre_text o ++ l) = false /\
  starts_with_ignore_ascii_case (bytes ".*") (pre_text o ++ l) = false.
Proof.
  rewrite !starts_with_spec. intros H. destruct o as [[[] n]|].
  4: cbn [pre_text app]; follow H.
  all: split_and!; [split; [exact I || reflexivity|]|reflexivity..].
  all: hnf; try exact I; intros E; reflexivity || (vm_compute in E; discriminate).
Qed.

Lemma parser_advance (v : list Z) i t l : drop i v = t ++ l -> drop (i + length t) v = l.
Proof. intros E. by rewrite <- drop_drop, E, drop_app_length. Qed.

(** The suffix stages read the printed suffixes back. *)
Lemma parse_suffixes_text v i e r pre post dev segs :
  let s := after_head v i e r in
  parser_wf s ->
  rest s = pre_text pre ++ post_text post ++ dev_text dev ++ local_text (Segments segs) ->
  from_option (fun p => is_number (pre_number p)) True pre -> from_option is_number True post ->
  from_option is_number True dev -> Forall segment_canonical segs ->
  parse_suffixes s = into_pattern (mkParser v (length v) e r pre post dev segs false).
Proof.
  intros s W R Hpre Hpost Hdev Hsegs. pose proof (pwf_pos _ W) as Hi.
  pose proof (f_equal length R) as L. rewrite rest_length, !length_app in L by done.
  subst s. unfold after_head in *. cbn [p_v p_i] in L, Hi.
  pose proof (local_follow segs) as F3.
  pose proof (dev_text_follow dev _ F3) as F2. pose proof (post_text_follow post _ F2) as F1.
  unfold parse_suffixes.
  rewrite (parse_pre_text (mkParser v i e r None None None [] false) pre _ Hi eq_refl R Hpre F1).
  cbn [outcome_bind]. unfold set_p_pre, set_i.
  cbn [p_v p_i p_epoch p_release p_pre p_post p_dev p_local p_wildcard].
  set (i1 := (i + length (pre_text pre))%nat) in *.
  pose proof (parser_advance v i (pre_text pre) _ R) as R1. fold i1 in R1.
  rewrite (parse_post_text (mkParser v i1 e r pre None None [] false) post _ ltac:(cbn; lia) eq_refl
    R1 Hpost F2).
  cbn [outcome_bind]. unfold set_p_post, set_i.
  cbn [p_v p_i p_epoch p_release p_pre p_post p_dev p_local p_wildcard].
  set (i2 := (i1 + length (post_text post))%nat) in *.
  pose proof (parser_advance v i1 (post_text post) _ R1) as R2. fold i2 in R2.
  rewrite (parse_dev_text (mkParser v i2 e r pre post None [] false) dev _ ltac:(cbn; lia) eq_refl
    R2 Hdev F3).
  cbn [outcome_bind]. unfold set_p_dev, set_i.
  cbn [p_v p_i p_epoch p_release p_pre p_post p_dev p_local p_wildcard].
  set (i3 := (i2 + length (dev_text dev))%nat) in *.
  pose proof (parser_advance v i2 (dev_text dev) _ R2) as R3. fold i3 in R3.
  rewrite (parse_local_text (mkParser v i3 e r pre post dev [] false) segs eq_refl R3 Hsegs).
  cbn [outcome_bind]. unfold set_p_local, set_i.
  cbn [p_v p_i p_epoch p_release p_pre p_post p_dev p_local p_wildcard].
  replace (i3 + length (local_text (Segments segs)))%nat with (length v) by lia.
  rewrite bump_while_none by (unfold rest; cbn; by rewrite drop_ge).
  rewrite is_done_rest. unfold rest. cbn [p_i p_v]. by rewrite drop_ge.
Qed.

Lemma epoch_text_print e :
  is_number e -> epoch_text (if e =? 0 then [] else print_u64 e ++ [33]) e.
Proof.
  intros He. destruct (Z.eqb_spec e 0) as [->|]; [by left|]. right.
  exists (print_u64 e). split; [done|by apply print_numeral].
Qed.

(** The characters of a printed version: digits, lowercase letters, [!], [+] and [.]. *)
Definition version_char (b : Z) : bool :=
  is_ascii_digit b || is_ascii_lowercase b || (b =? 33) || (b =? 43) || (b =? 46).
Definition version_text (l : list Z) : Prop := Forall (fun b => version_char b = true) l.

Lemma digits_text l : Forall is_digit l -> version_text l.
Proof. intros H. eapply Forall_impl; [exact H|]. unfold version_char, is_digit. by intros b ->. Qed.

Lemma print_u64_text n : is_u64 n -> version_text (print_u64 n).
Proof. intros Hn. apply digits_text, print_u64_spec, Hn. Qed.

Lemma dots_text ns : Forall is_u64 ns -> version_text (dots (print_u64 <$> ns)).
Proof.
  induction 1 as [|n ns Hn Hns IH]; [constructor|]. rewrite fmap_cons. cbn [dots].
  constructor; [done|]. apply Forall_app. split; [by apply print_u64_text|done].
Qed.

Lemma segment_text s : segment_canonical s -> version_text (local_segment_display s).
Proof.
  destruct s as [l|n]; [|apply print_u64_text]. intros (_ & H & _).
  eapply Forall_impl; [exact H|]. unfold version_char. by intros b ->.
Qed.

Lemma local_text_chars segs :
  Forall segment_canonical segs -> version_text (local_text (Segments segs)).
Proof.
  intros HF. destruct HF as [|s segs Hs HF]; [constructor|]. cbn [local_text local_slice_display].
  constructor; [done|]. apply Forall_app. split; [by apply segment_text|].
  induction HF as [|s' segs Hs' HF IH]; [constructor|]. rewrite fmap_cons. cbn [concat].
  apply Forall_app. split; [|done]. apply Forall_app.
  split; [by repeat constructor|by apply segment_text].
Qed.

Lemma suffix_text pre post dev :
  opt_pre_u64 pre -> opt_u64 post -> opt_u64 dev ->
  version_text (pre_text pre) /\ version_text (post_text post) /\ version_text (dev_text dev).
Proof.
  intros Hp Hq Hd. split_and!.
  - destruct pre as [[k n]|]; [|constructor]. apply Forall_app.
    split; [by destruct k; repeat constructor|by apply print_u64_text].
  - destruct post as [n|]; [|constructor]. apply Forall_app.
    split; [by repeat constructor|by apply print_u64_text].
  - destruct dev as [n|]; [|constructor]. apply Forall_app.
    split; [by repeat constructor|by apply print_u64_text].
Qed.

(** The numbers of a real version are component numbers. *)
Lemma real_numbers v :
  version_real v ->
  is_number (version_epoch v) /\ Forall is_number (version_release v) /\
  from_option (fun p => is_number (pre_number p)) True (version_pre v) /\
  from_option is_number True (version_post v) /\ from_option is_number True (version_dev v).
Proof.
  intros [[W _] R]. apply version_rep_wf_full in W. autorewrite with full.
  destruct W as [We Wr Wp Wq Wd _ _ _], R as [_ _ _ Re Rr Rp Rq Rd].
  unfold opt_pre_u64, opt_u64, is_u64 in *. split_and!.
  - split; [apply We|done].
  - apply Forall_forall. intros n Hn. rewrite Forall_forall in Wr, Rr.
    split; [by apply Wr|by apply Rr].
  - destruct (full_pre _); [|done]. cbn in *. unfold is_number. lia.
  - destruct (full_post _); [|done]. cbn in *. unfold is_number. lia.
  - destruct (full_dev _); [|done]. cbn in *. unfold is_number. lia.
Qed.

Lemma version_display_chars v :
  version_parsed v -> version_text (version_display v).
Proof.
  intros [HR HC]. destruct (version_display_text v (proj2 (proj1 HR))) as (n & ns & Er & ->).
  pose proof (version_rep_wf_full v (proj1 (proj1 HR))) as W.
  pose proof (fwf_release _ W) as Wr. rewrite <- release_full, Er in Wr.
  inversion Wr as [|?? Hn Hns]; subst.
  pose proof (fwf_epoch _ W) as We. rewrite <- epoch_full in We.
  destruct (suffix_text (version_pre v) (version_post v) (version_dev v)) as (? & ? & ?);
    [rewrite pre_full; apply W|rewrite post_full; apply W|rewrite dev_full; apply W|].
  destruct (version_local v) as [segs|] eqn:El.
  2: { destruct HR as [_ R]. rewrite local_full in El. by destruct (real_local _ R). }
  repeat (apply Forall_app; split); try done.
  - destruct (_ =? 0); [constructor|]. apply Forall_app.
    split; [by apply print_u64_text|by repeat constructor].
  - by apply print_u64_text.
  - by apply dots_text.
  - by apply local_text_chars.
Qed.

Lemma version_text_bytes l : version_text l -> Forall is_u8 l.
Proof.
  intros H. eapply Forall_impl; [exact H|]. intros b.
  unfold version_char, is_ascii_digit, is_ascii_lowercase, is_u8, U8_MAX.
  rewrite !orb_true_iff, !andb_true_iff, !Z.leb_le, !Z.eqb_eq. lia.
Qed.

(** A printed version starts with a digit. *)
Lemma version_display_head v :
  version_parsed v -> exists b l, version_display v = b :: l /\ is_digit b.
Proof.
  intros [HR _]. destruct (version_display_text v (proj2 (proj1 HR))) as (n & ns & Er & ->).
  destruct (real_numbers v HR) as (He & Hr & _). rewrite Er in Hr. inversion Hr as [|?? Hn _]; subst.
  destruct (_ =? 0).
  - apply (numeral_head (print_u64 n) n), print_numeral, Hn.
  - rewrite <- app_assoc. apply (numeral_head _ (version_epoch v)), print_numeral, He.
Qed.

Lemma full_eta v segs :
  version_real v -> version_local v = Segments segs ->
  version_make_full v = mkFull (version_epoch v) (version_release v) (version_pre v)
    (version_post v) (version_dev v) (Segments segs) None None.
Proof.
  intros [_ [Hmin Hmax _ _ _ _ _ _]] El. rewrite <- El. autorewrite with full.
  destruct (version_make_full v). cbn in *. by subst.
Qed.

Lemma display_parse_pattern v :
  version_parsed v ->
  exists w, version_pattern_from_str (version_display v) = Done (mkPattern w false) /\
    version_real w /\ version_make_full w = version_make_full v.
Proof.
  intros HP. pose proof HP as [HR HC]. destruct (version_local v) as [segs|] eqn:El.
  2: { destruct HR as [_ R]. rewrite local_full in El. by destruct (real_local _ R). }
  cbn in HC. unfold version_pattern_from_str.
  pose proof (version_text_bytes _ (version_display_chars v HP)) as HB.
  rewrite (parse_pattern_is_slow _ HB).
  destruct (real_numbers v HR) as (He & Hr & Hp & Hq & Hd).
  destruct (version_display_text v (proj2 (proj1 HR))) as (n & ns & Er & Et).
  pose proof (full_eta v segs HR El) as Ef. rewrite El in Et. rewrite Er in Hr, Ef.
  inversion Hr as [|?? Hn Hns]; subst.
  set (suffix := pre_text _ ++ _) in Et.
  destruct (pre_text_stops (version_pre v) (post_text (version_post v) ++
    dev_text (version_dev v) ++ local_text (Segments segs))) as (S1 & S2 & S3).
  { apply post_text_follow, dev_text_follow, local_follow. }
  destruct (parse_slow_head (version_display v) _ (version_epoch v) (print_u64 n) n
    (print_u64 <$> ns) ns suffix HB Et) as (i & r & -> & W & R & Es).
  { by apply epoch_text_print. }
  { by apply print_numeral. }
  { apply Forall2_fmap_l. clear -Hns. induction Hns; constructor; [by apply print_numeral|done]. }
  { exact S1. } { exact S2. } { exact S3. }
  rewrite (parse_suffixes_text _ _ _ _ _ _ _ _ W R) by done.
  set (s := mkParser _ _ _ _ _ _ _ _ _).
  assert (parser_wf s) as Ws by (destruct W; split; done).
  destruct (into_pattern_spec s Ws) as (w & -> & Hw & Ew).
  { unfold s. cbn. by rewrite Es. }
  exists w. split; [done|]. split; [done|]. rewrite Ew, Ef. unfold gathered, s. cbn. by rewrite Es.
Qed.

Lemma display_parse v :
  version_parsed v ->
  exists w, version_from_str (version_display v) = Done w /\
    version_real w /\ version_make_full w = version_make_full v.
Proof.
  intros H. destruct (display_parse_pattern v H) as (w & E & Hw). exists w. split; [|done].
  unfold version_pattern_from_str in E. unfold version_from_str, parse. by rewrite E.
Qed.

(** A printed release followed by a wildcard is read back as a pattern. *)
Lemma display_parse_wildcard v :
  version_parsed v -> version_pre v = None -> version_post v = None -> version_dev v = None ->
  version_local v = local_empty ->
  exists w, version_pattern_from_str (version_display v ++ bytes ".*") = Done (mkPattern w true) /\
    version_real w /\ version_make_full w = version_make_full v.
Proof.
  intros HP Ep Eq Ed El. pose proof HP as [HR _]. unfold version_pattern_from_str.
  assert (Forall is_u8 (version_display v ++ bytes ".*")) as HB.
  { apply Forall_app. split; [by apply version_text_bytes, version_display_chars|].
    by repeat constructor. }
  rewrite (parse_pattern_is_slow _ HB). destruct (real_numbers v HR) as (He & Hr & _).
  destruct (version_display_text v (proj2 (proj1 HR))) as (n & ns & Er & Et).
  rewrite Ep, Eq, Ed, El in Et. cbn [pre_text post_text dev_text local_text local_empty app] in Et.
  rewrite app_nil_r in Et. pose proof (full_eta v [] HR El) as Ef. rewrite Er, Ep, Eq, Ed in *.
  inversion Hr as [|?? Hn Hns]; subst.
  set (t := if version_epoch v =? 0 then [] else print_u64 (version_epoch v) ++ [33]) in Et.
  assert (version_display v ++ bytes ".*" =
    t ++ print_u64 n ++ dots (print_u64 <$> ns) ++ bytes ".*") as Ew0
    by (by rewrite Et, <- !app_assoc).
  destruct (parse_slow_release (version_display v ++ bytes ".*") t (version_epoch v) (print_u64 n) n
    (print_u64 <$> ns) ns (bytes ".*") HB Ew0) as (i & r & -> & W & R & Es).
  { by apply epoch_text_print. }
  { by apply print_numeral. }
  { apply Forall2_fmap_l. clear -Hns. induction Hns; constructor; [by apply print_numeral|done]. }
  { by split. }
  { done. }
  set (s := after_head _ _ _ _) in *. unfold parse_wildcard.
  rewrite (bump_if_app (bytes ".*") s []) by (done || by rewrite app_nil_r). cbn [negb].
  rewrite is_done_rest, rest_advance, R. cbn [outcome_bind negb].
  change (drop (length (bytes ".*")) (bytes ".*")) with (@nil Z). cbn [negb outcome_bind].
  set (s' := set_p_wildcard _ true).
  assert (parser_wf s') as Ws.
  { pose proof (f_equal length R) as L. rewrite rest_length in L by done.
    change (length (bytes ".*")) with 2%nat in L.
    destruct W. split; simpl in *; try done. lia. }
  destruct (into_pattern_spec s' Ws) as (w & -> & Hw & Ew).
  { unfold s', s. cbn. by rewrite Es. }
  exists w. split; [done|]. split; [done|]. rewrite Ew, Ef. unfold gathered, s', s. cbn. by rewrite Es.
Qed.

(** ** Printed numbers in text

    Numbers printed by [Display] and read back by [str::parse], and the characters of the names in
    tags and file names. *)


Lemma print_u64_small n : 0 <= n < 10 -> print_u64 n = [48 + n].
Proof.
  intros Hn. unfold print_u64. cbn [print_digits]. rewrite Z.div_small by lia.
  rewrite Z.mod_small by lia. done.
Qed.

Lemma print_u64_two n : 10 <= n < 100 -> print_u64 n = [48 + n / 10; 48 + n mod 10].
Proof.
  intros Hn. unfold print_u64. cbn [print_digits].
  assert (n / 10 < 10 /\ 0 < n / 10) as [H1 H2] by zdivmod. zif.
  rewrite (Z.div_small (n / 10)) by lia. rewrite (Z.mod_small (n / 10)) by lia. done.
Qed.

Lemma print_u64_length_two n : 0 <= n < 100 -> (length (print_u64 n) = 1 \/ length (print_u64 n) = 2)%nat.
Proof.
  intros Hn. destruct (Z_lt_le_dec n 10); [left; by rewrite print_u64_small by lia|].
  right. by rewrite print_u64_two by lia.
Qed.

Lemma print_u64_digits n : is_u64 n -> Forall (fun b => is_ascii_digit b = true) (print_u64 n).
Proof. intros Hn. apply (print_u64_spec n Hn). Qed.

(** A printed number is read back. *)
Lemma parse_unsigned_print max n :
  0 <= n <= max -> max <= U64_MAX -> parse_unsigned max (print_u64 n) = Some n.
Proof.
  intros Hn Hm. destruct (print_u64_spec n) as (Hne & HD & HV); [split; lia|].
  unfold parse_unsigned. destruct (print_u64 n) as [|c l] eqn:E; [done|].
  assert (c =? 43 = false) as ->.
  { inversion_clear HD as [|?? Hc _]. apply digit_bounds in Hc. lia. }
  rewrite parse_unsigned_digits_value; [f_equal; exact HV|lia|done|].
  rewrite HV. lia.
Qed.

(** ** Characters of tags *)

(** A lower-case letter, a digit or an underscore. *)
Definition tag_char (c : Z) : bool := is_ascii_lowercase c || is_ascii_digit c || (c =? 95).
Definition tag_text (l : list Z) : Prop := Forall (fun c => tag_char c = true) l.

Lemma print_u64_tag n : is_u64 n -> tag_text (print_u64 n).
Proof.
  intros Hn. eapply Forall_impl; [apply print_u64_digits, Hn|]. unfold tag_char. intros c ->.
  by rewrite orb_true_r.
Qed.

Lemma tag_text_app l k : tag_text l -> tag_text k -> tag_text (l ++ k).
Proof. intros. by apply Forall_app. Qed.

Lemma tag_text_bytes (s : string) : forallb tag_char (bytes s) = true -> tag_text (bytes s).
Proof. intros H. apply Forall_forall. intros c Hc. rewrite forallb_forall in H. apply H, list_elem_of_In, Hc. Qed.

Lemma tag_text_not_in c l : tag_char c = false -> tag_text l -> c ∉ l.
Proof. intros Hc Hl Hin. pose proof (proj1 (Forall_forall _ _) Hl c Hin) as E. congruence. Qed.

Lemma digits_not_in c l :
  is_ascii_digit c = false -> Forall (fun b => is_ascii_digit b = true) l -> c ∉ l.
Proof. intros Hc Hl Hin. pose proof (proj1 (Forall_forall _ _) Hl c Hin) as E. congruence. Qed.
