(* ===== verification/VersionSpecifier.v ===== *)
(** * Version specifiers

    [Operator] of [crates/uv-pep440/src/version.rs], and [VersionSpecifier],
    [VersionSpecifiers] and [TildeVersionSpecifier] of
    [crates/uv-pep440/src/version_specifier.rs]: construction with its checks, the test whether
    a version is contained, and the conversions from bounds. A panic is [None]. *)

From stdpp Require Import base list option numbers decidable strings.
From Stdlib Require Import ZArith Lia.
From S2P Require Import Prelude VersionTypes VersionSmall Version VersionOrder.
From S2P Require Import VersionParser.

Local Open Scope Z_scope.

(** ** Operators *)

Inductive Operator : Type :=
| Equal
| EqualStar
| ExactEqual
| NotEqual
| NotEqualStar
| TildeEqual
| LessThan
| LessThanEqual
| GreaterThan
| GreaterThanEqual.

#[export] Instance Operator_eq_dec : EqDecision Operator.
Proof. solve_decision. Defined.

(** The discriminants, by which the derived [Ord] compares. *)
Definition operator_rank (op : Operator) : Z :=
  match op with
  | Equal => 0 | EqualStar => 1 | ExactEqual => 2 | NotEqual => 3 | NotEqualStar => 4
  | TildeEqual => 5 | LessThan => 6 | LessThanEqual => 7 | GreaterThan => 8
  | GreaterThanEqual => 9
  end.

Definition operator_cmp (x y : Operator) : comparison :=
  Z.compare (operator_rank x) (operator_rank y).

Definition operator_is_local_compatible (op : Operator) : bool :=
  match op with
  | GreaterThan | GreaterThanEqual | LessThan | LessThanEqual | TildeEqual | EqualStar
  | NotEqualStar => false
  | _ => true
  end.

Definition operator_to_star (op : Operator) : option Operator :=
  match op with
  | Equal => Some EqualStar
  | NotEqual => Some NotEqualStar
  | _ => None
  end.

Definition operator_is_star (op : Operator) : bool :=
  match op with
  | EqualStar | NotEqualStar => true
  | _ => false
  end.

Definition operator_as_str (op : Operator) : list Z :=
  match op with
  | Equal => bytes "=="
  | EqualStar => bytes "=="
  | ExactEqual => bytes "==="
  | NotEqual => bytes "!="
  | NotEqualStar => bytes "!="
  | TildeEqual => bytes "~="
  | LessThan => bytes "<"
  | LessThanEqual => bytes "<="
  | GreaterThan => bytes ">"
  | GreaterThanEqual => bytes ">="
  end.

(** The error is the text that is no operator. *)
Definition operator_from_str (s : list Z) : result Operator (list Z) :=
  if bool_decide (s = bytes "==") then Ok Equal
  else if bool_decide (s = bytes "===") then Ok ExactEqual
  else if bool_decide (s = bytes "!=") then Ok NotEqual
  else if bool_decide (s = bytes "~=") then Ok TildeEqual
  else if bool_decide (s = bytes "<") then Ok LessThan
  else if bool_decide (s = bytes "<=") then Ok LessThanEqual
  else if bool_decide (s = bytes ">") then Ok GreaterThan
  else if bool_decide (s = bytes ">=") then Ok GreaterThanEqual
  else Err s.

(** ** A specifier *)

Record VersionSpecifier : Type := mkSpecifier {
  specifier_operator : Operator;
  specifier_version : Version
}.

Definition release_len (v : Version) : nat := length (version_release v).

Definition specifier_eq (x y : VersionSpecifier) : bool :=
  if negb (bool_decide (specifier_operator x = specifier_operator y)) then false
  else if bool_decide (specifier_operator x = TildeEqual)
          && negb (release_len (specifier_version x) =? release_len (specifier_version y))%nat
  then false
  else version_eq (specifier_version x) (specifier_version y).

(** What the hasher is fed: the operator, the release length for [~=], then the version. *)
Definition specifier_hash (x : VersionSpecifier) : Z * option nat * list HashItem :=
  (operator_rank (specifier_operator x),
   if bool_decide (specifier_operator x = TildeEqual)
   then Some (release_len (specifier_version x)) else None,
   version_hash (specifier_version x)).

Definition specifier_cmp (x y : VersionSpecifier) : comparison :=
  then_with (operator_cmp (specifier_operator x) (specifier_operator y))
  (then_with (version_cmp (specifier_version x) (specifier_version y))
     (if bool_decide (specifier_operator x = TildeEqual)
      then Nat.compare (release_len (specifier_version x)) (release_len (specifier_version y))
      else Eq)).

Inductive BuildErrorKind : Type :=
| OperatorLocalCombo (operator : Operator) (version : Version)
| OperatorWithStar (operator : Operator)
| CompatibleRelease.

Definition specifier_from_version (operator : Operator) (version : Version) :
    result VersionSpecifier BuildErrorKind :=
  if version_is_local version && negb (operator_is_local_compatible operator)
  then Err (OperatorLocalCombo operator version)
  else if bool_decide (operator = TildeEqual) && (release_len version <? 2)%nat
  then Err CompatibleRelease
  else Ok (mkSpecifier operator version).

Definition specifier_from_pattern (operator : Operator) (version_pattern : VersionPattern) :
    result VersionSpecifier BuildErrorKind :=
  let star := pattern_wildcard version_pattern in
  let version := pattern_version version_pattern in
  if star then
    match operator_to_star operator with
    | Some starop => specifier_from_version starop version
    | None => Err (OperatorWithStar operator)
    end
  else specifier_from_version operator version.

Definition specifier_only_release (x : VersionSpecifier) : option VersionSpecifier :=
  mkSpecifier (specifier_operator x) <$> version_only_release (specifier_version x).

Definition specifier_only_minor_release (x : VersionSpecifier) : option VersionSpecifier :=
  mkSpecifier (specifier_operator x) <$> version_only_minor_release (specifier_version x).

Definition equals_version (v : Version) : VersionSpecifier := mkSpecifier Equal v.
Definition equals_star_version (v : Version) : VersionSpecifier := mkSpecifier EqualStar v.
Definition not_equals_star_version (v : Version) : VersionSpecifier := mkSpecifier NotEqualStar v.
Definition not_equals_version (v : Version) : VersionSpecifier := mkSpecifier NotEqual v.
Definition greater_than_equal_version (v : Version) : VersionSpecifier :=
  mkSpecifier GreaterThanEqual v.
Definition greater_than_version (v : Version) : VersionSpecifier := mkSpecifier GreaterThan v.
Definition less_than_equal_version (v : Version) : VersionSpecifier := mkSpecifier LessThanEqual v.
Definition less_than_version (v : Version) : VersionSpecifier := mkSpecifier LessThan v.

Definition specifier_any_prerelease (x : VersionSpecifier) : bool :=
  version_any_prerelease (specifier_version x).

(** [this.release()] against [other.release()] padded with zeros. *)
Definition release_prefix (this other : list Z) : bool :=
  forallb (fun '(x, y) => x =? y) (zip this (other ++ replicate (length this) 0)).

(** [None] stands for the failed assertion on the release of a [~=] specifier. *)
Definition specifier_contains (x : VersionSpecifier) (version : Version) : option bool :=
  let this := specifier_version x in
  let other :=
    if local_is_empty (version_local this) && negb (local_is_empty (version_local version))
    then version_without_local version else version in
  match specifier_operator x with
  | Equal => Some (version_eq other this)
  | EqualStar =>
      Some ((version_epoch this =? version_epoch other)
            && release_prefix (version_release this) (version_release other))
  | ExactEqual => Some (version_eq this version)
  | NotEqual => Some (negb (version_eq this other))
  | NotEqualStar =>
      Some (negb (version_epoch this =? version_epoch other)
            || negb (release_prefix (version_release this) (version_release other)))
  | TildeEqual =>
      if (1 <? length (version_release this))%nat then
        if negb (version_epoch this =? version_epoch other) then Some false
        else if negb (forallb (fun '(x, y) => x =? y)
                        (zip (take (length (version_release this) - 1) (version_release this))
                             (version_release other)))
        then Some false
        else Some (version_ge other this)
      else None
  | GreaterThan =>
      if version_epoch this <? version_epoch other then Some true
      else if negb (version_is_post this) && version_is_post other
              && version_without_post_and_dev_eq other this
      then Some false
      else Some (version_gt other this)
  | GreaterThanEqual => Some (version_ge other this)
  | LessThan =>
      if version_epoch other <? version_epoch this then Some true
      else if negb (version_any_prerelease this) && version_any_prerelease other
              && version_ge other (version_with_dev this (Some 0))
      then Some false
      else Some (version_lt other this)
  | LessThanEqual => Some (version_le other this)
  end.

Definition specifier_has_lower_bound (x : VersionSpecifier) : bool :=
  match specifier_operator x with
  | Equal | EqualStar | ExactEqual | TildeEqual | GreaterThan | GreaterThanEqual => true
  | LessThanEqual | LessThan | NotEqualStar | NotEqual => false
  end.

(** ** Bounds *)

Notation Bound := (bound_of Version).

(** [Result::unwrap]. *)
Definition unwrap {A E : Type} (r : result A E) : option A :=
  match r with Ok a => Some a | Err _ => None end.

Definition from_lower_bound (bound : Bound) : option (option VersionSpecifier) :=
  match bound with
  | Included version => Some <$> unwrap (specifier_from_version GreaterThanEqual version)
  | Excluded version => Some <$> unwrap (specifier_from_version GreaterThan version)
  | Unbounded => Some None
  end.

Definition from_upper_bound (bound : Bound) : option (option VersionSpecifier) :=
  match bound with
  | Included version => Some <$> unwrap (specifier_from_version LessThanEqual version)
  | Excluded version => Some <$> unwrap (specifier_from_version LessThan version)
  | Unbounded => Some None
  end.

(** The two optional specifiers, chained. *)
Definition specifier_chain (b1 b2 : option VersionSpecifier) : list VersionSpecifier :=
  option_list b1 ++ option_list b2.

Definition bound_pair (lower upper : Bound) : option (list VersionSpecifier) :=
  b1 ← from_lower_bound lower;
  b2 ← from_upper_bound upper;
  Some (specifier_chain b1 b2).

Definition specifier_from_release_only_bounds (lower upper : Bound) :
    option (list VersionSpecifier) :=
  match lower, upper with
  | Included v1, Included v2 =>
      if version_eq v1 v2 then Some [equals_version v1] else bound_pair lower upper
  | Included v1, Excluded v2 =>
      t1 ← version_only_release_trimmed v1;
      t2 ← version_only_release_trimmed v2;
      match version_release t1 with
      | [major] =>
          if bool_decide (version_release t2 = [major; 1]) then
            version ← version_new [major; 0]; Some [equals_star_version version]
          else bound_pair lower upper
      | [major; minor] =>
          if bool_decide (version_release t2 = [major; u64_wrapping_add minor 1]) then
            version ← version_new [major; minor]; Some [equals_star_version version]
          else bound_pair lower upper
      | _ => bound_pair lower upper
      end
  | _, _ => bound_pair lower upper
  end.

(** ** Lists of specifiers *)

Definition VersionSpecifiers : Type := list VersionSpecifier.

Definition specifiers_empty : VersionSpecifiers := [].

Definition specifiers_contains (xs : VersionSpecifiers) (version : Version) : option bool :=
  foldr (fun x rest =>
      match specifier_contains x version with
      | None => None
      | Some false => Some false
      | Some true => rest
      end) (Some true) xs.

(** The comparison by which specifiers are sorted: the version, then the operator. *)
Definition specifier_sort_cmp (a b : VersionSpecifier) : comparison :=
  then_with (version_cmp (specifier_version a) (specifier_version b))
            (operator_cmp (specifier_operator a) (specifier_operator b)).

Definition specifiers_from_unsorted (xs : list VersionSpecifier) : VersionSpecifiers :=
  sort_by specifier_sort_cmp xs.

(** The numbers [lo..hi]. *)
Definition minors (lo hi : Z) : list Z := seqZ lo (hi - lo).

Definition not_equals_minor (major minor : Z) : option VersionSpecifier :=
  not_equals_star_version <$> version_new [major; minor].

(** The specifiers for the hole between two ranges. *)
Definition gap_specifiers (next lower : Bound) : option (list VersionSpecifier) :=
  match next, lower with
  | Excluded prev, Excluded lower =>
      if version_eq prev lower then Some [not_equals_version prev] else Some []
  | Excluded prev, Included lower =>
      prev ← version_only_release_trimmed prev;
      lower ← version_only_release_trimmed lower;
      match version_release prev, version_release lower with
      | [major], [lower_major; lower_minor] =>
          if major =? lower_major
          then mapM (not_equals_minor major) (minors 0 lower_minor)
          else Some []
      | [major; minor], [lower_major; lower_minor] =>
          if (major =? lower_major) && (minor <? lower_minor)
          then mapM (not_equals_minor major) (minors minor lower_minor)
          else Some []
      | _, _ => Some []
      end
  | _, _ => Some []
  end.

(** The loop over the ranges after the first, which accumulates the specifiers of the holes. *)
Fixpoint gaps_loop (next : Bound) (bounds : list (Bound * Bound))
    (specifiers : list VersionSpecifier) : option (list VersionSpecifier * Bound) :=
  match bounds with
  | [] => Some (specifiers, next)
  | (lower, upper) :: bounds' =>
      gap ← gap_specifiers next lower;
      gaps_loop upper bounds' (specifiers ++ gap)
  end.

Definition specifiers_from_release_only_bounds (bounds : list (Bound * Bound)) :
    option VersionSpecifiers :=
  match bounds with
  | [] => Some specifiers_empty
  | (start, next) :: bounds' =>
      r ← gaps_loop next bounds' [];
      let '(specifiers, end_) := r in
      outer ← specifier_from_release_only_bounds start end_;
      Some (specifiers_from_unsorted (specifiers ++ outer))
  end.

(** ** Tilde specifiers *)

Definition TildeVersionSpecifier : Type := VersionSpecifier.

Definition tilde_new (specifier : VersionSpecifier) : option TildeVersionSpecifier :=
  let version := specifier_version specifier in
  if negb (bool_decide (specifier_operator specifier = TildeEqual)) then None
  else if (release_len version <? 2)%nat || (3 <? release_len version)%nat then None
  else if version_any_prerelease version || version_is_local version || version_is_post version
  then None
  else Some specifier.

Definition tilde_has_patch (t : TildeVersionSpecifier) : bool :=
  (release_len (specifier_version t) =? 3)%nat.

(** Indexing panics out of range. *)
Definition tilde_bounding_specifiers (t : TildeVersionSpecifier) :
    option (VersionSpecifier * VersionSpecifier) :=
  let release := version_release (specifier_version t) in
  let lower := specifier_version t in
  r0 ← release !! 0%nat;
  upper ← (if tilde_has_patch t then
             r1 ← release !! 1%nat;
             version_new [r0; u64_wrapping_add r1 1]
           else version_new [u64_wrapping_add r0 1]);
  Some (greater_than_equal_version lower, less_than_version upper).

(** Popping removes the last number of a list that has one. *)
Definition tilde_with_patch_version (t : TildeVersionSpecifier) (patch : Z) :
    option TildeVersionSpecifier :=
  let release := version_release (specifier_version t) in
  let release := if tilde_has_patch t then take (length release - 1) release else release in
  version ← version_new (release ++ [patch]);
  specifier ← unwrap (specifier_from_version TildeEqual version);
  tilde_new specifier.
