(* ===== verification/VersionRanges.v ===== *)
(** * Specifiers as ranges

    [crates/uv-pep440/src/version_ranges.rs]: the conversion of specifiers to the ranges of the
    resolver, with PEP 440 and with release-only semantics, the canonical form of the sentinels in
    those ranges, and the lower and upper bounds of a range. The type of ranges and its operations
    come from the [version-ranges] crate, so they are an interface here; a panic is [None]. *)

From stdpp Require Import base list option numbers decidable.
From Stdlib Require Import ZArith Lia.
From S2P Require Import Prelude VersionTypes VersionSmall Version VersionOrder VersionCacheKey.
From S2P Require Import VersionParser VersionSpecifier.

Local Open Scope Z_scope.

(** ** The interface of [version_ranges::Ranges] *)

Class RangesType : Type := {
  Ranges : Type;
  ranges_contains : Ranges -> Version -> bool
}.

(** The set operations. *)
Class RangesAlgebra `{!RangesType} : Type := {
  ranges_full : Ranges;
  ranges_singleton : Version -> Ranges;
  ranges_higher_than : Version -> Ranges;
  ranges_strictly_higher_than : Version -> Ranges;
  ranges_lower_than : Version -> Ranges;
  ranges_strictly_lower_than : Version -> Ranges;
  ranges_between : Version -> Version -> Ranges;
  (** [from_range_bounds(low..high)]. *)
  ranges_from_range : Version -> Version -> Ranges;
  ranges_complement : Ranges -> Ranges;
  ranges_intersection : Ranges -> Ranges -> Ranges
}.

(** [iter], and collecting an iterator of segments. *)
Class RangesSegments `{!RangesType} : Type := {
  ranges_iter : Ranges -> list (Bound * Bound);
  ranges_collect : list (Bound * Bound) -> Ranges
}.

(** A version lies within a segment. *)
Definition above (lower : Bound) (w : Version) : bool :=
  match lower with
  | Included v => version_le v w
  | Excluded v => version_lt v w
  | Unbounded => true
  end.
Definition below (upper : Bound) (w : Version) : bool :=
  match upper with
  | Included v => version_le w v
  | Excluded v => version_lt w v
  | Unbounded => true
  end.
Definition in_segment (w : Version) (segment : Bound * Bound) : bool :=
  above segment.1 w && below segment.2 w.

(** What the crate documents of membership. *)
Class RangesAlgebraLaws `{!RangesType, !RangesAlgebra} : Prop := {
  contains_full : forall w, ranges_contains ranges_full w = true;
  contains_singleton : forall v w, ranges_contains (ranges_singleton v) w = version_eq w v;
  contains_higher_than : forall v w, ranges_contains (ranges_higher_than v) w = version_le v w;
  contains_strictly_higher_than : forall v w,
    ranges_contains (ranges_strictly_higher_than v) w = version_lt v w;
  contains_lower_than : forall v w, ranges_contains (ranges_lower_than v) w = version_le w v;
  contains_strictly_lower_than : forall v w,
    ranges_contains (ranges_strictly_lower_than v) w = version_lt w v;
  contains_between : forall v1 v2 w,
    ranges_contains (ranges_between v1 v2) w = version_le v1 w && version_lt w v2;
  contains_from_range : forall v1 v2 w,
    ranges_contains (ranges_from_range v1 v2) w = version_le v1 w && version_lt w v2;
  contains_complement : forall r w,
    ranges_contains (ranges_complement r) w = negb (ranges_contains r w);
  contains_intersection : forall r s w,
    ranges_contains (ranges_intersection r s) w = ranges_contains r w && ranges_contains s w
}.

Class RangesSegmentsLaws `{!RangesType, !RangesSegments} : Prop := {
  contains_iter : forall r w,
    ranges_contains r w = existsb (in_segment w) (ranges_iter r);
  contains_collect : forall l w,
    ranges_contains (ranges_collect l) w = existsb (in_segment w) l
}.

Section conversions.
Context `{!RangesType, !RangesAlgebra}.

(** ** PEP 440 semantics *)

(** The slice pattern [[rest @ .., last, _]]. *)
Definition split_last_two (release : list Z) : option (list Z * Z) :=
  match rev release with
  | _ :: last :: rest => Some (rev rest, last)
  | _ => None
  end.

(** [*release.last_mut().unwrap() += 1]. *)
Definition bump_last (release : list Z) : option (list Z) :=
  match rev release with
  | last :: rest => Some (rev rest ++ [u64_wrapping_add last 1])
  | [] => None
  end.

(** The bounds of a wildcard specifier; both wildcard operators compute them. *)
Definition star_bounds (version : Version) : option (Version * Version) :=
  let low := version_with_dev version (Some 0) in
  let high := low in
  match version_post high with
  | Some post => Some (low, version_with_post high (Some (u64_wrapping_add post 1)))
  | None =>
      match version_pre high with
      | Some pre =>
          Some (low, version_with_pre high
            (Some (mkPrerelease (pre_kind pre) (u64_wrapping_add (pre_number pre) 1))))
      | None =>
          release ← bump_last (version_release high);
          high ← version_with_release high release;
          Some (low, high)
      end
  end.

Definition equal_to_range (version : Version) : option Ranges :=
  match version_local version with
  | Segments [] =>
      let low := version in
      let high := version_with_local low LocalMax in
      Some (ranges_between low high)
  | Segments (_ :: _) => Some (ranges_singleton version)
  | LocalMax => None
  end.

Definition less_than_to_range (version : Version) : Ranges :=
  if version_any_prerelease version then ranges_strictly_lower_than version
  else if version_is_post version
  then ranges_strictly_lower_than (version_with_dev version (Some 0))
  else ranges_strictly_lower_than (version_with_min version (Some 0)).

Definition greater_than_to_range (version : Version) : Ranges :=
  match version_dev version with
  | Some dev => ranges_higher_than (version_with_dev version (Some (u64_wrapping_add dev 1)))
  | None =>
      if version_is_post version
      then ranges_strictly_higher_than (version_with_local version LocalMax)
      else ranges_strictly_higher_than (version_with_max version (Some 0))
  end.

Definition tilde_equal_to_range (version : Version) : option Ranges :=
  parts ← split_last_two (version_release version);
  let '(rest, last) := parts in
  upper ← version_new (rest ++ [u64_wrapping_add last 1]);
  let upper := version_with_epoch upper (version_epoch version) in
  let upper := version_with_dev upper (Some 0) in
  Some (ranges_from_range version upper).

(** [From<VersionSpecifier> for Ranges<Version>]. *)
Definition specifier_to_range (specifier : VersionSpecifier) : option Ranges :=
  let version := specifier_version specifier in
  match specifier_operator specifier with
  | Equal => equal_to_range version
  | ExactEqual => Some (ranges_singleton version)
  | NotEqual => ranges_complement <$> equal_to_range version
  | TildeEqual => tilde_equal_to_range version
  | LessThan => Some (less_than_to_range version)
  | LessThanEqual => Some (ranges_lower_than (version_with_local version LocalMax))
  | GreaterThan => Some (greater_than_to_range version)
  | GreaterThanEqual => Some (ranges_higher_than version)
  | EqualStar =>
      bounds ← star_bounds version;
      let '(low, high) := bounds in Some (ranges_from_range low high)
  | NotEqualStar =>
      bounds ← star_bounds version;
      let '(low, high) := bounds in Some (ranges_complement (ranges_from_range low high))
  end.

(** [From<VersionSpecifiers> for Ranges<Version>]. *)
Definition specifiers_to_range (specifiers : VersionSpecifiers) : option Ranges :=
  foldl (fun range specifier =>
      range ← range;
      r ← specifier_to_range specifier;
      Some (ranges_intersection range r)) (Some ranges_full) specifiers.

(** ** Release-only semantics *)

(** The bounds of a wildcard specifier under release-only semantics. *)
Definition release_star_bounds (version : Version) : option (Version * Version) :=
  low_full ← version_only_release version;
  release ← bump_last (version_release low_full);
  high ← version_with_release low_full release;
  Some (version, high).

Definition release_specifier_to_range (specifier : VersionSpecifier) (trim : bool) :
    option Ranges :=
  let version := specifier_version specifier in
  version_trimmed ← (if trim then version_only_release_trimmed version
                     else version_only_release version);
  match specifier_operator specifier with
  | Equal => Some (ranges_singleton version_trimmed)
  | ExactEqual => Some (ranges_singleton version_trimmed)
  | NotEqual => Some (ranges_complement (ranges_singleton version_trimmed))
  | LessThan => Some (ranges_strictly_lower_than version_trimmed)
  | LessThanEqual => Some (ranges_lower_than version_trimmed)
  | GreaterThan => Some (ranges_strictly_higher_than version_trimmed)
  | GreaterThanEqual => Some (ranges_higher_than version_trimmed)
  | TildeEqual =>
      parts ← split_last_two (version_release version);
      let '(rest, last) := parts in
      upper ← version_new (rest ++ [u64_wrapping_add last 1]);
      Some (ranges_from_range version_trimmed upper)
  | EqualStar =>
      bounds ← release_star_bounds version;
      let '(low, high) := bounds in Some (ranges_from_range low high)
  | NotEqualStar =>
      bounds ← release_star_bounds version;
      let '(low, high) := bounds in Some (ranges_complement (ranges_from_range low high))
  end.

Definition release_specifiers_to_ranges (specifiers : VersionSpecifiers) : option Ranges :=
  foldl (fun range specifier =>
      range ← range;
      r ← release_specifier_to_range specifier false;
      Some (ranges_intersection range r)) (Some ranges_full) specifiers.

End conversions.

(** ** Sentinels *)

(** [Version::new([0]).with_dev(Some(0))]. *)
Definition PEP440_MIN_VERSION : Version :=
  version_with_dev (default (Small small_new) (version_new [0])) (Some 0).

Definition is_local_max (v : Version) : bool := bool_decide (version_local v = LocalMax).

Definition strip_lower (lower : Bound) : Bound :=
  match lower with
  | Included version | Excluded version =>
      if is_local_max version then Excluded (version_without_local version) else lower
  | Unbounded => Unbounded
  end.

Definition strip_upper (lower_is_included : bool) (upper : Bound) : Bound :=
  match upper with
  | Included version =>
      if is_local_max version then Included (version_without_local version) else upper
  | Excluded version =>
      if is_local_max version && lower_is_included then Included (version_without_local version)
      else if is_local_max version then Excluded (version_without_local version)
      else upper
  | Unbounded => Unbounded
  end.

Section segments.
Context `{!RangesType, !RangesSegments}.

Definition strip_local_version_sentinels (ranges : Ranges) : Ranges :=
  ranges_collect ((fun '(lower, upper) =>
      let lower_is_included := match lower with Included _ => true | _ => false end in
      (strip_lower lower, strip_upper lower_is_included upper)) <$> ranges_iter ranges).

Definition sentinel_successor (version : Version) : option Version :=
  if is_local_max version then
    let version := version_without_local version in
    match version_dev version with
    | Some dev => dev ← u64_checked_add dev 1; Some (version_with_dev version (Some dev))
    | None =>
        match version_post version with
        | Some post =>
            post ← u64_checked_add post 1;
            Some (version_with_dev (version_with_post version (Some post)) (Some 0))
        | None => Some (version_with_dev (version_with_post version (Some 0)) (Some 0))
        end
    end
  else
    match version_min version with
    | Some _ => Some (version_with_dev (version_with_min version None) (Some 0))
    | None =>
        match version_max version, version_pre version with
        | Some _, Some prerelease =>
            number ← u64_checked_add (pre_number prerelease) 1;
            Some (version_with_dev
                    (version_with_pre (version_with_max version None)
                       (Some (mkPrerelease (pre_kind prerelease) number))) (Some 0))
        | _, _ => None
        end
    end.

Definition lower_bound_needs_canonicalization (bound : Bound) : bool :=
  match bound with
  | Included version =>
      version_le version PEP440_MIN_VERSION || bool_decide (is_Some (sentinel_successor version))
  | Excluded version =>
      version_lt version PEP440_MIN_VERSION || bool_decide (is_Some (sentinel_successor version))
  | Unbounded => false
  end.

Definition upper_bound_needs_canonicalization (bound : Bound) : bool :=
  match bound with
  | Included version =>
      version_lt version PEP440_MIN_VERSION || bool_decide (is_Some (sentinel_successor version))
  | Excluded version =>
      version_le version PEP440_MIN_VERSION || bool_decide (is_Some (sentinel_successor version))
  | Unbounded => false
  end.

Definition canonicalize_lower_bound (bound : Bound) : Bound :=
  match bound with
  | Included version =>
      match sentinel_successor version with Some s => Included s | None => Included version end
  | Excluded version =>
      match sentinel_successor version with Some s => Included s | None => Excluded version end
  | Unbounded => Unbounded
  end.

Definition canonicalize_upper_bound (bound : Bound) : Bound :=
  match bound with
  | Included version =>
      match sentinel_successor version with Some s => Excluded s | None => Included version end
  | Excluded version =>
      match sentinel_successor version with Some s => Excluded s | None => Excluded version end
  | Unbounded => Unbounded
  end.

(** One segment: [None] if no version is left in it. *)
Definition canonicalize_segment (segment : Bound * Bound) : option (Bound * Bound) :=
  let '(lower, upper) := segment in
  let lower := canonicalize_lower_bound lower in
  let upper := canonicalize_upper_bound upper in
  let lower := match lower with
    | Included version =>
        if version_le version PEP440_MIN_VERSION then Unbounded else lower
    | Excluded version =>
        if version_lt version PEP440_MIN_VERSION then Unbounded else lower
    | Unbounded => lower
    end in
  let below_floor := match upper with
    | Included version => version_lt version PEP440_MIN_VERSION
    | Excluded version => version_le version PEP440_MIN_VERSION
    | Unbounded => false
    end in
  if negb below_floor then Some (lower, upper) else None.

Definition canonicalize_version_ranges (ranges : Ranges) : option Ranges :=
  if negb (existsb (fun '(lower, upper) =>
       lower_bound_needs_canonicalization lower || upper_bound_needs_canonicalization upper)
       (ranges_iter ranges))
  then None
  else Some (ranges_collect (omap canonicalize_segment (ranges_iter ranges))).

End segments.

(** ** Lower and upper bounds *)

Definition bound_trimmed (bound : Bound) : option Bound :=
  match bound with
  | Included version => Included <$> version_only_release_trimmed version
  | Excluded version => Excluded <$> version_only_release_trimmed version
  | Unbounded => Some Unbounded
  end.

Definition lower_bound_new (bound : Bound) : option Bound := bound_trimmed bound.
Definition upper_bound_new (bound : Bound) : option Bound := bound_trimmed bound.

Definition lower_bound_major_minor (bound : Bound) : option Bound :=
  match bound with
  | Included version => Included <$> version_new (take 2 (version_release version))
  | Excluded version => Included <$> version_new (take 2 (version_release version))
  | Unbounded => Some Unbounded
  end.

Definition upper_bound_major_minor (bound : Bound) : option Bound :=
  match bound with
  | Included version => Included <$> version_new (take 2 (version_release version))
  | Excluded version =>
      if match version_release version !! 2%nat with Some patch => 0 <? patch | None => false end
      then Included <$> version_new (take 2 (version_release version))
      else Excluded <$> version_new (take 2 (version_release version))
  | Unbounded => Some Unbounded
  end.

Definition lower_bound_contains (bound : Bound) (version : Version) : bool :=
  match bound with
  | Included bound => version_le bound version
  | Excluded bound => version_lt bound version
  | Unbounded => true
  end.

Definition upper_bound_contains (bound : Bound) (version : Version) : bool :=
  match bound with
  | Included bound => version_ge bound version
  | Excluded bound => version_gt bound version
  | Unbounded => true
  end.

Definition lower_bound_specifier (bound : Bound) : option VersionSpecifier :=
  match bound with
  | Included version => Some (greater_than_equal_version version)
  | Excluded version => Some (greater_than_version version)
  | Unbounded => None
  end.

Definition upper_bound_specifier (bound : Bound) : option VersionSpecifier :=
  match bound with
  | Included version => Some (less_than_equal_version version)
  | Excluded version => Some (less_than_version version)
  | Unbounded => None
  end.

Definition lower_bound_cmp (l r : Bound) : comparison :=
  match l, r with
  | Unbounded, Unbounded => Eq
  | Included _, Unbounded => Gt
  | Excluded _, Unbounded => Gt
  | Unbounded, Included _ => Lt
  | Included l, Included r => version_cmp l r
  | Excluded l, Included r =>
      match version_cmp l r with Lt => Lt | Eq => Gt | Gt => Gt end
  | Unbounded, Excluded _ => Lt
  | Included l, Excluded r =>
      match version_cmp l r with Lt => Lt | Eq => Lt | Gt => Gt end
  | Excluded l, Excluded r => version_cmp l r
  end.

Definition upper_bound_cmp (l r : Bound) : comparison :=
  match l, r with
  | Unbounded, Unbounded => Eq
  | Included _, Unbounded => Lt
  | Excluded _, Unbounded => Lt
  | Unbounded, Included _ => Gt
  | Included l, Included r => version_cmp l r
  | Excluded l, Included r =>
      match version_cmp l r with Lt => Lt | Eq => Lt | Gt => Gt end
  | Unbounded, Excluded _ => Gt
  | Included l, Excluded r =>
      match version_cmp l r with Lt => Lt | Eq => Gt | Gt => Gt end
  | Excluded l, Excluded r => version_cmp l r
  end.

(** * Models of the range interface

    Two small implementations of the interface that [VersionRanges] states for the [version-ranges]
    crate: ranges as predicates, for the set operations, and ranges as lists of segments, for the
    conversions that go through the segments. They show that the laws assumed of the crate can
    hold together. *)

Module Predicates.

#[export] Instance predicate_ranges : RangesType :=
  {| Ranges := Version -> bool; ranges_contains r w := r w |}.

#[export] Instance predicate_algebra : RangesAlgebra := {|
  ranges_full := fun _ => true;
  ranges_singleton v := fun w => version_eq w v;
  ranges_higher_than v := fun w => version_le v w;
  ranges_strictly_higher_than v := fun w => version_lt v w;
  ranges_lower_than v := fun w => version_le w v;
  ranges_strictly_lower_than v := fun w => version_lt w v;
  ranges_between v1 v2 := fun w => version_le v1 w && version_lt w v2;
  ranges_from_range v1 v2 := fun w => version_le v1 w && version_lt w v2;
  ranges_complement r := fun w => negb (r w);
  ranges_intersection r s := fun w => r w && s w
|}.

#[export] Instance predicate_laws : RangesAlgebraLaws.
Proof. split; reflexivity. Qed.

End Predicates.

Module Segments.

#[export] Instance segment_ranges : RangesType :=
  {| Ranges := list (Bound * Bound); ranges_contains r w := existsb (in_segment w) r |}.

#[export] Instance segment_segments : RangesSegments :=
  {| ranges_iter r := r; ranges_collect l := l |}.

#[export] Instance segment_laws : RangesSegmentsLaws.
Proof. split; reflexivity. Qed.

End Segments.
