(* ===== verification/VersionRangesFacts.v ===== *)
(** * Release prefixes

    A release matches a prefix when it lies between the prefix and the prefix with its last number
    incremented; the facts on which the wildcard and the compatible-release operators rest. *)

From stdpp Require Import base list option numbers decidable.
From Stdlib Require Import ZArith Lia.
From S2P Require Import Prelude VersionTypes VersionSmall Version VersionOrder VersionCacheKey.
From S2P Require Import VersionParser VersionSpecifier VersionRanges.

Local Open Scope Z_scope.

Definition is_lt (c : comparison) : bool := match c with Lt => true | _ => false end.
Definition is_eq (c : comparison) : bool := match c with Eq => true | _ => false end.
Definition is_gt (c : comparison) : bool := match c with Gt => true | _ => false end.

(** The prefix with its last number incremented. *)
Fixpoint succ_last (p : list Z) : list Z :=
  match p with
  | [] => []
  | [x] => [x + 1]
  | x :: p' => x :: succ_last p'
  end.

Lemma succ_last_cons x p : p <> [] -> succ_last (x :: p) = x :: succ_last p.
Proof. by destruct p. Qed.

Lemma succ_last_snoc p x : succ_last (p ++ [x]) = p ++ [x + 1].
Proof.
  induction p as [|y p IH]; [done|]. cbn [app]. rewrite succ_last_cons by (by intros [_ ?]%app_nil).
  by rewrite IH.
Qed.

Lemma succ_last_nonempty p : p <> [] -> succ_last p <> [].
Proof. destruct p as [|x [|y p]]; done. Qed.

Lemma succ_last_bounds p : Forall is_number p -> Forall is_u64 (succ_last p).
Proof.
  assert (forall x, is_number x -> is_u64 x /\ is_u64 (x + 1)) as B
    by (unfold is_number, is_u64; lia).
  induction 1 as [|x p Hx Hp IH]; [constructor|]. destruct p as [|y p].
  - constructor; [by apply B|done].
  - rewrite succ_last_cons by done. constructor; [by apply B|done].
Qed.

Lemma wrapping_succ x : is_number x -> u64_wrapping_add x 1 = x + 1.
Proof.
  unfold is_number, u64_wrapping_add, U64_MAX. intros H. apply Z.mod_small. lia.
Qed.

Lemma bump_last_spec p : Forall is_number p -> p <> [] -> bump_last p = Some (succ_last p).
Proof.
  intros Hp Hne. destruct p as [|x p] using rev_ind; [done|]. clear IHp.
  apply Forall_app in Hp as [_ Hx]. inversion Hx; subst.
  unfold bump_last. rewrite rev_app_distr. cbn [rev app].
  by rewrite rev_involutive, wrapping_succ, succ_last_snoc.
Qed.

(** Nothing is below the release of zeros. *)
Lemma compare_release_nil_r r : Forall is_u64 r -> compare_release r [] <> Lt.
Proof.
  intros Hr. rewrite compare_release_strip by done. by destruct (strip_zeros r).
Qed.

Lemma compare_release_nil_succ p :
  Forall is_number p -> p <> [] -> compare_release [] (succ_last p) = Lt.
Proof.
  intros Hp Hne. pose proof (succ_last_bounds p Hp) as Hs.
  rewrite compare_release_strip by done. cbn [strip_zeros].
  enough (strip_zeros (succ_last p) <> []) by (by destruct (strip_zeros _)).
  destruct p as [|x p] using rev_ind; [done|]. apply Forall_app in Hp as [_ Hx].
  inversion Hx as [|?? Hn _]; subst. rewrite succ_last_snoc, strip_zeros_snoc.
  - by intros [_ ?]%app_nil.
  - unfold is_number in Hn. lia.
Qed.

Lemma release_prefix_cons_nil x p :
  release_prefix (x :: p) [] = (x =? 0) && release_prefix p [].
Proof. done. Qed.

Lemma release_prefix_cons x p y r :
  release_prefix (x :: p) (y :: r) = (x =? y) && release_prefix p r.
Proof.
  unfold release_prefix. cbn [zip zip_with app forallb length]. f_equal.
  enough (forall n m, (length p <= n)%nat -> (length p <= m)%nat ->
    zip p (r ++ replicate n 0) = zip p (r ++ replicate m 0)) as E by (rewrite (E (S (length p)) (length p)) by lia; done).
  clear. revert r. induction p as [|x p IH]; intros r n m Hn Hm; [done|].
  destruct r as [|y r]; cbn [app].
  - destruct n, m; cbn in *; try lia. f_equal. apply (IH [] n m); lia.
  - cbn. f_equal. apply IH; cbn in *; lia.
Qed.

(** The wildcard operators: the releases with this prefix. *)
Lemma release_prefix_range p r :
  Forall is_number p -> Forall is_u64 r -> p <> [] ->
  release_prefix p r =
    negb (is_lt (compare_release r p)) && is_lt (compare_release r (succ_last p)).
Proof.
  intros Hp. revert r. induction Hp as [|x p Hx Hp IH]; intros r Hr Hne; [done|].
  destruct p as [|y p].
  - destruct Hr as [|z r Hz Hr].
    + rewrite release_prefix_cons_nil. cbn [succ_last]. rewrite !compare_release_nil_l.
      unfold is_number in Hx. destruct (Z.compare_spec 0 x), (Z.compare_spec 0 (x + 1));
        cbn; zif; done || lia.
    + rewrite release_prefix_cons. cbn [succ_last]. rewrite !compare_release_cons.
      pose proof (compare_release_nil_r r Hr) as N. revert N.
      destruct (compare_release r []), (Z.compare_spec z x), (Z.compare_spec z (x + 1));
        cbn; zif; done || lia.
  - rewrite succ_last_cons by done. destruct Hr as [|z r Hz Hr].
    + rewrite release_prefix_cons_nil, (compare_release_nil_l x (y :: p)),
        (compare_release_nil_l x (succ_last (y :: p))), IH by done.
      unfold is_number in Hx.
      destruct (Z.compare_spec 0 x); zif; cbn [then_with andb negb is_lt]; done || lia.
    + rewrite release_prefix_cons, !compare_release_cons, IH by done.
      destruct (Z.compare_spec z x); zif; cbn [then_with andb negb is_lt]; done || lia.
Qed.

(** The compatible release: from [p.x] on, the releases with the prefix [p]. *)
Lemma tilde_prefix_range p x r :
  Forall is_number p -> Forall is_u64 r -> p <> [] ->
  compare_release r (p ++ [x]) <> Lt ->
  forallb (fun '(a, b) => a =? b) (zip p r) = is_lt (compare_release r (succ_last p)).
Proof.
  intros Hp. revert r. induction Hp as [|y p Hy Hp IH]; intros r Hr Hne Hge; [done|].
  destruct Hr as [|z r Hz Hr].
  { by rewrite compare_release_nil_succ by (done || by constructor). }
  cbn [app zip zip_with forallb] in *. rewrite compare_release_cons in Hge. destruct p as [|y' p].
  - cbn [succ_last]. rewrite compare_release_cons.
    pose proof (compare_release_nil_r r Hr) as N. revert N Hge. cbn [zip_with forallb andb].
    destruct (compare_release r []), (Z.compare_spec z y), (Z.compare_spec z (y + 1));
      cbn; zif; done || lia.
  - rewrite succ_last_cons, compare_release_cons by done.
    destruct (Z.compare_spec z y) as [->| |]; cbn [then_with] in *; [|done|].
    + rewrite Z.eqb_refl. cbn [andb]. by apply IH.
    + zif. done.
Qed.

(** * Ranges and specifiers contain the same versions

    The range a specifier is converted to contains a version exactly when the specifier does. *)

(** ** Specifiers that can be built *)

(** What [from_pattern] checks, and what the parser guarantees of wildcards. *)
Record specifier_valid (x : VersionSpecifier) : Prop := {
  valid_real : version_real (specifier_version x);
  valid_local : operator_is_local_compatible (specifier_operator x) = false ->
    version_local (specifier_version x) = local_empty;
  valid_tilde : specifier_operator x = TildeEqual -> (2 <= release_len (specifier_version x))%nat;
  valid_star : operator_is_star (specifier_operator x) = true ->
    version_pre (specifier_version x) = None /\ version_post (specifier_version x) = None /\
    version_dev (specifier_version x) = None
}.

(** ** Modified versions *)

(** [v] can be compared, and stands for [f]. *)
Definition stands_for (v : Version) (f : VersionFull) : Prop :=
  comparable v /\ version_make_full v = f.

Lemma stands_for_intro v f :
  version_rep_wf v -> version_make_full v = f ->
  match full_max f with Some n => n = 0 | None => True end -> stands_for v f.
Proof. intros W <- M. split; [|done]. split; [done|]. unfold max_sentinel. by rewrite max_full. Qed.

Lemma stands_for_real v : version_real v -> stands_for v (version_make_full v).
Proof. intros R. split; auto with uv. Qed.

Lemma implements_stands f g v :
  implements f g -> version_rep_wf v ->
  match full_max (f (version_make_full v)) with Some n => n = 0 | None => True end ->
  stands_for (g v) (f (version_make_full v)).
Proof. intros I W M. destruct (I v W). by apply stands_for_intro. Qed.

Section modified.
Context (u : Version) (R : version_real u).
Notation fu := (version_make_full u).

Lemma real_full_max : full_max fu = None.
Proof. apply R. Qed.

Lemma with_dev_stands d :
  opt_u64 d -> stands_for (version_with_dev u d) (full_set_dev fu d).
Proof.
  intros Hd. apply (implements_stands (fun f => full_set_dev f d) (fun v => version_with_dev v d) u);
    [by apply with_dev_implements|apply R|]. cbn. by rewrite real_full_max.
Qed.

Lemma with_local_stands l :
  local_wf l -> stands_for (version_with_local u l) (full_set_local fu l).
Proof.
  intros Hd. apply (implements_stands (fun f => full_set_local f l) (fun v => version_with_local v l) u);
    [by apply with_local_implements|apply R|]. cbn. by rewrite real_full_max.
Qed.

Lemma without_local_stands : stands_for (version_without_local u) (full_set_local fu local_empty).
Proof.
  apply (implements_stands (fun f => full_set_local f local_empty) version_without_local u);
    [apply without_local_implements|apply R|].
  cbn. by rewrite real_full_max.
Qed.

Lemma with_min_stands : stands_for (version_with_min u (Some 0)) (full_set_min fu (Some 0)).
Proof.
  apply (implements_stands (fun f => full_set_min f (Some 0)) (fun v => version_with_min v (Some 0)) u);
    [by apply with_min_implements|apply R|]. cbn. by rewrite real_full_max.
Qed.

Lemma with_max_stands : stands_for (version_with_max u (Some 0)) (full_set_max fu (Some 0)).
Proof.
  apply (implements_stands (fun f => full_set_max f (Some 0)) (fun v => version_with_max v (Some 0)) u);
    [by apply with_max_implements|apply R|done].
Qed.

End modified.

(** ** Comparisons as boolean tests *)

Lemma stands_cmp v w f g :
  stands_for v f -> stands_for w g -> version_cmp v w = full_cmp f g.
Proof. intros [Cv <-] [Cw <-]. by apply version_cmp_full. Qed.

Section tests.
Context (v w : Version) (f g : VersionFull) (Hv : stands_for v f) (Hw : stands_for w g).

(** Every test of [v] against [w], in terms of how [w] compares to [v]. *)
Lemma test_le : version_le v w = negb (is_lt (full_cmp g f)).
Proof.
  unfold version_le. rewrite (stands_cmp v w f g Hv Hw), (cmp_opp full_cmp g f).
  by destruct (full_cmp g f).
Qed.
Lemma test_lt : version_lt v w = is_gt (full_cmp g f).
Proof.
  unfold version_lt. rewrite (stands_cmp v w f g Hv Hw), (cmp_opp full_cmp g f).
  by destruct (full_cmp g f).
Qed.
Lemma test_le_l : version_le w v = negb (is_gt (full_cmp g f)).
Proof. unfold version_le. rewrite (stands_cmp w v g f Hw Hv). by destruct (full_cmp g f). Qed.
Lemma test_lt_l : version_lt w v = is_lt (full_cmp g f).
Proof. unfold version_lt. by rewrite (stands_cmp w v g f Hw Hv). Qed.
Lemma test_ge_l : version_ge w v = negb (is_lt (full_cmp g f)).
Proof. unfold version_ge. rewrite (stands_cmp w v g f Hw Hv). by destruct (full_cmp g f). Qed.
Lemma test_gt_l : version_gt w v = is_gt (full_cmp g f).
Proof. unfold version_gt. by rewrite (stands_cmp w v g f Hw Hv). Qed.
Lemma test_eq_l : version_eq w v = is_eq (full_cmp g f).
Proof. unfold version_eq. by rewrite (stands_cmp w v g f Hw Hv). Qed.
Lemma test_eq : version_eq v w = is_eq (full_cmp g f).
Proof.
  unfold version_eq. rewrite (stands_cmp v w f g Hv Hw), (cmp_opp full_cmp g f).
  by destruct (full_cmp g f).
Qed.

End tests.

(** Versions that share epoch and release differ in the later layers only. *)
Lemma full_cmp_same g f f' :
  full_epoch f' = full_epoch f -> full_release f' = full_release f ->
  full_cmp g f' = then_with (rel_cmp g f)
    (then_with (key_cmp (full_key g) (full_key f'))
       (local_slice_cmp (full_local g) (full_local f'))).
Proof. intros E1 E2. unfold full_cmp, rel_cmp. by rewrite E1, E2. Qed.

Lemma rel_cmp_epoch g f :
  (full_epoch g < full_epoch f -> rel_cmp g f = Lt) /\
  (full_epoch f < full_epoch g -> rel_cmp g f = Gt).
Proof.
  unfold rel_cmp, cmp_pair. cbn [fst snd]. split; intros H.
  - by rewrite (proj2 (Z.compare_lt_iff _ _) H).
  - by rewrite (proj2 (Z.compare_gt_iff _ _) H).
Qed.

(** ** One specifier against one version *)

Section agree.
Context (u w : Version) (Ru : version_real u) (Rw : version_real w).
Notation fu := (version_make_full u).
Notation fw := (version_make_full w).

(** How [w] compares to a version with the epoch and the release of [u] and the suffix key [k],
    local versions aside. *)
Definition layers (k : Key) : comparison :=
  then_with (rel_cmp fw fu) (key_cmp (suffix_key fw) k).

(** A version with the epoch and release of [u]. *)
Definition variant (f : VersionFull) : Prop :=
  full_epoch f = full_epoch fu /\ full_release f = full_release fu.

Lemma key_w : full_key fw = suffix_key fw.
Proof. apply full_key_real; apply Rw. Qed.

Lemma key_u : full_key fu = suffix_key fu.
Proof. apply full_key_real; apply Ru. Qed.

Lemma cmp_variant f :
  variant f ->
  full_cmp fw f = then_with (layers (full_key f)) (local_slice_cmp (full_local fw) (full_local f)).
Proof.
  intros [E1 E2]. rewrite (full_cmp_same fw fu f E1 E2), key_w. unfold layers.
  by destruct (rel_cmp fw fu).
Qed.

Lemma local_w_empty : local_slice_cmp (full_local fw) local_empty <> Lt.
Proof.
  pose proof (local_empty_least (full_local fw)) as H.
  rewrite (cmp_opp local_slice_cmp local_empty (full_local fw)).
  by destruct (local_slice_cmp _ _).
Qed.

(** Against a version without a local part, and against one with the sentinel. *)
Lemma tests_empty f :
  variant f -> full_local f = local_empty -> is_lt (full_cmp fw f) = is_lt (layers (full_key f)).
Proof.
  intros V E. rewrite (cmp_variant f V), E. pose proof local_w_empty.
  destruct (layers _); cbn; [|done..]. by destruct (local_slice_cmp _ _).
Qed.

Lemma tests_max f :
  variant f -> full_local f = LocalMax ->
  is_lt (full_cmp fw f) = negb (is_gt (layers (full_key f))) /\
  is_gt (full_cmp fw f) = is_gt (layers (full_key f)).
Proof.
  intros V E. rewrite (cmp_variant f V), E.
  destruct (local_bounds (full_local fw)) as [-> _]; [apply Rw|].
  by destruct (layers _).
Qed.

(** The candidate without its local version, as [contains] compares it. *)
Definition candidate : Version :=
  if local_is_empty (version_local u) && negb (local_is_empty (version_local w))
  then version_without_local w else w.

Lemma candidate_stands :
  version_local u = local_empty -> stands_for candidate (full_set_local fw local_empty).
Proof.
  intros E. unfold candidate. rewrite E. cbn [local_empty local_is_empty andb].
  destruct (local_is_empty (version_local w)) eqn:L; cbn [negb].
  - apply local_is_empty_spec in L. rewrite local_full in L.
    destruct (stands_for_real w Rw) as [C _]. split; [done|]. rewrite <- L.
    by destruct fw.
  - by apply without_local_stands.
Qed.

Lemma candidate_cmp f :
  variant f -> full_local f = local_empty ->
  full_cmp (full_set_local fw local_empty) f = layers (full_key f).
Proof.
  intros [E1 E2] El. rewrite (full_cmp_same _ fu f E1 E2), El. unfold layers.
  rewrite full_key_local, key_w.
  change (rel_cmp (full_set_local fw local_empty) fu) with (rel_cmp fw fu). cbn [full_set_local full_local].
  rewrite (cmp_refl local_slice_cmp).
  destruct (rel_cmp fw fu); cbn [then_with]; [|done..]. by destruct (key_cmp _ _).
Qed.

Lemma candidate_access :
  version_local u = local_empty ->
  version_epoch candidate = full_epoch fw /\ version_release candidate = full_release fw /\
  version_pre candidate = full_pre fw /\ version_post candidate = full_post fw /\
  version_dev candidate = full_dev fw.
Proof.
  intros E. destruct (candidate_stands E) as [_ Ef]. autorewrite with full. by rewrite Ef.
Qed.

Lemma candidate_real : version_local u = local_empty -> version_real candidate.
Proof.
  intros E. destruct (candidate_stands E) as [[W _] Ef]. destruct Rw as [[_ Hne] []].
  split; [split; [done|]|rewrite Ef; by split].
  rewrite release_full, Ef. by rewrite release_full in Hne.
Qed.

End agree.

(** ** Suffix keys *)

(** The components of a real version are numbers below the largest [u64]. *)
Lemma real_components v :
  version_real v ->
  from_option (fun p => is_number (pre_number p)) True (full_pre (version_make_full v)) /\
  from_option is_number True (full_post (version_make_full v)) /\
  from_option is_number True (full_dev (version_make_full v)).
Proof.
  intros [[W _] [_ _ _ _ _ Rp Rq Rd]]. destruct (version_rep_wf_full v W) as [_ _ Wp Wq Wd _ _ _].
  unfold opt_pre_u64, opt_u64, is_u64, is_number in *. split_and!.
  - destruct (full_pre _); cbn in *; lia.
  - destruct (full_post _); cbn in *; lia.
  - destruct (full_dev _); cbn in *; lia.
Qed.

Lemma pre_rank_bounds k : 0 <= pre_rank k <= 2.
Proof. destruct k; cbn; lia. Qed.

Lemma pre_neq k n k' n' :
  Some (mkPrerelease k n) <> Some (mkPrerelease k' n') -> pre_rank k <> pre_rank k' \/ n <> n'.
Proof.
  intros H. destruct (Z.eq_dec n n') as [<-|]; [left|by right].
  intros E. apply H. by destruct k, k'.
Qed.

(** Decide a comparison of keys whose components are known up to numbers. *)
Ltac key_arith :=
  unfold key_cmp, cmp_pair, is_number in *;
  cbn -[Z.compare U64_MAX Z.add pre_rank] in *;
  repeat match goal with
  | |- context [pre_rank ?k] => progress (pose proof (pre_rank_bounds k)); generalize dependent (pre_rank k); intros
  end;
  repeat (match goal with
  | |- context [Z.compare ?a ?b] => destruct (Z.compare_spec a b)
  end; cbn -[Z.compare U64_MAX Z.add]; try done; try (exfalso; lia)).

(** Split the suffix of a version into its components. *)
Ltac split_suffix f :=
  unfold suffix_key in *;
  destruct (full_pre f) as [[? ?]|], (full_post f) as [?|], (full_dev f) as [?|]; cbn in *.

Section keys.
Context (w : Version) (Rw : version_real w).
Notation fw := (version_make_full w).

(** Whether the version is a pre-release, as [any_prerelease] tests it. *)
Definition pre_or_dev (f : VersionFull) : bool :=
  bool_decide (is_Some (full_pre f)) || bool_decide (is_Some (full_dev f)).

Lemma key_min : is_lt (key_cmp (suffix_key fw) (0, 0, None, 0)) = false.
Proof. by split_suffix (version_make_full w); key_arith. Qed.

(** Below a final release, apart from its pre-releases, there is nothing with that release. *)
Lemma key_less_final :
  (if pre_or_dev fw && negb (is_lt (key_cmp (suffix_key fw) (1, 0, None, 0))) then false
   else is_lt (key_cmp (suffix_key fw) (5, 0, None, 0))) = false.
Proof.
  destruct (real_components w Rw) as (Hp & Hq & Hd). unfold pre_or_dev.
  split_suffix (version_make_full w); key_arith; done.
Qed.

(** Below a post-release, apart from its pre-releases, is what is below its first one. *)
Lemma key_less_post p :
  is_number p ->
  (if pre_or_dev fw && negb (is_lt (key_cmp (suffix_key fw) (6, 0, Some p, 0))) then false
   else is_lt (key_cmp (suffix_key fw) (6, 0, Some p, U64_MAX))) =
  is_lt (key_cmp (suffix_key fw) (6, 0, Some p, 0)).
Proof.
  intros Hp'. destruct (real_components w Rw) as (Hp & Hq & Hd). unfold pre_or_dev.
  split_suffix (version_make_full w); key_arith; done.
Qed.

(** The version after a development release is the next development release. *)
Lemma key_greater_dev f d :
  is_number d -> full_dev f = Some d ->
  negb (is_lt (key_cmp (suffix_key fw) (suffix_key (full_set_dev f (Some (d + 1)))))) =
  is_gt (key_cmp (suffix_key fw) (suffix_key f)).
Proof.
  intros Hd' E. destruct (real_components w Rw) as (Hp & Hq & Hd). unfold suffix_key. cbn.
  rewrite E. destruct (full_pre f) as [[k' n']|], (full_post f) as [q'|];
  split_suffix (version_make_full w); key_arith; done.
Qed.

Lemma max_key_neq pre : key_cmp (suffix_key fw) (max_key pre) <> Eq.
Proof.
  destruct (real_components w Rw) as (Hp & Hq & Hd).
  destruct pre as [[k' n']|]; split_suffix (version_make_full w); key_arith; done.
Qed.

(** Above a version that is no post-release, apart from its post-releases, is what is above the
    sentinel. *)
Lemma key_greater_max f :
  full_post f = None -> full_dev f = None ->
  from_option (fun p => is_number (pre_number p)) True (full_pre f) ->
  is_gt (key_cmp (suffix_key fw) (max_key (full_pre f))) =
  if bool_decide (is_Some (full_post fw)) && bool_decide (full_pre fw = full_pre f) then false
  else is_gt (key_cmp (suffix_key fw) (suffix_key f)).
Proof.
  intros Eq Ed Hp'. destruct (real_components w Rw) as (Hp & Hq & Hd). unfold suffix_key, max_key.
  rewrite Eq, Ed. destruct (full_pre f) as [[k' n']|]; split_suffix (version_make_full w).
  all: try (case_bool_decide as E; simplify_eq); try apply pre_neq in E.
  all: key_arith; done.
Qed.

End keys.

(** ** Operators that keep the release *)

Section operators.
Context `{!RangesType, !RangesAlgebra, !RangesAlgebraLaws}.
Context (u w : Version) (Ru : version_real u) (Rw : version_real w).
Notation fu := (version_make_full u).
Notation fw := (version_make_full w).

Lemma variant_refl : variant u fu.
Proof. done. Qed.

Lemma stands_u : stands_for u fu.
Proof. by apply stands_for_real. Qed.
Lemma stands_w : stands_for w fw.
Proof. by apply stands_for_real. Qed.

(** How the candidate compares to [u], when [u] has no local version. *)
Lemma candidate_u :
  version_local u = local_empty ->
  full_cmp (full_set_local fw local_empty) fu = layers u w (suffix_key fu).
Proof.
  intros E. rewrite (candidate_cmp u w Rw); [|done|by rewrite <- local_full].
  by rewrite (key_u u Ru).
Qed.

Lemma equal_agree :
  exists r, equal_to_range u = Some r /\
    ranges_contains r w = version_eq (candidate u w) u.
Proof.
  unfold equal_to_range. destruct (version_local u) as [[|seg segs]|] eqn:E.
  - eexists. split; [done|]. rewrite contains_between.
    rewrite (test_le u w fu fw stands_u stands_w).
    rewrite (test_lt_l _ w _ fw (with_local_stands u Ru LocalMax I) stands_w).
    rewrite (test_eq_l u _ fu _ stands_u (candidate_stands u w Rw E)), (candidate_u E).
    rewrite (tests_empty u w Rw fu variant_refl) by (by rewrite <- local_full).
    destruct (tests_max u w Rw (full_set_local fu LocalMax) ltac:(done) eq_refl) as [-> _].
    rewrite full_key_local, (key_u u Ru). by destruct (layers _ _ _).
  - eexists. split; [done|]. rewrite contains_singleton. unfold candidate. by rewrite E.
  - rewrite local_full in E. by destruct (real_local _ (proj2 Ru)).
Qed.

Lemma exact_equal_agree : ranges_contains (ranges_singleton u) w = version_eq u w.
Proof.
  rewrite contains_singleton, (test_eq u w fu fw stands_u stands_w).
  by rewrite (test_eq_l u w fu fw stands_u stands_w).
Qed.

Lemma not_equal_sym : version_eq u (candidate u w) = version_eq (candidate u w) u.
Proof.
  destruct (local_is_empty (version_local u)) eqn:E.
  - apply local_is_empty_spec in E. pose proof (candidate_stands u w Rw E) as S.
    by rewrite (test_eq u _ fu _ stands_u S), (test_eq_l u _ fu _ stands_u S).
  - unfold candidate. rewrite E. cbn [andb].
    by rewrite (test_eq u w fu fw stands_u stands_w), (test_eq_l u w fu fw stands_u stands_w).
Qed.

Context (El : version_local u = local_empty).

Notation other := (candidate u w).
Notation fo := (full_set_local (version_make_full w) local_empty).

Lemma stands_o : stands_for other fo.
Proof. by apply candidate_stands. Qed.

Lemma greater_than_equal_agree :
  ranges_contains (ranges_higher_than u) w = version_ge other u.
Proof.
  rewrite contains_higher_than, (test_le u w fu fw stands_u stands_w).
  rewrite (test_ge_l u other fu fo stands_u stands_o), (candidate_u El).
  rewrite (tests_empty u w Rw fu variant_refl) by (by rewrite <- local_full).
  by rewrite (key_u u Ru).
Qed.

Lemma less_than_equal_agree :
  ranges_contains (ranges_lower_than (version_with_local u LocalMax)) w = version_le other u.
Proof.
  rewrite contains_lower_than.
  rewrite (test_le_l _ w _ fw (with_local_stands u Ru LocalMax I) stands_w).
  rewrite (test_le_l u other fu fo stands_u stands_o), (candidate_u El).
  destruct (tests_max u w Rw (full_set_local fu LocalMax) ltac:(done) eq_refl) as [_ ->].
  by rewrite full_key_local, (key_u u Ru).
Qed.

Lemma any_prerelease_full v :
  version_any_prerelease v = pre_or_dev (version_make_full v).
Proof.
  unfold version_any_prerelease, version_is_pre, version_is_dev, pre_or_dev.
  by autorewrite with full.
Qed.

Lemma other_pre_or_dev : version_any_prerelease other = pre_or_dev fw.
Proof. rewrite any_prerelease_full. destruct stands_o as [_ ->]. by destruct fw. Qed.

(** A version that extends the release of [u] by a suffix key. *)
Lemma dev_zero_cmp :
  full_cmp fo (full_set_dev fu (Some 0)) = layers u w (suffix_key (full_set_dev fu (Some 0))).
Proof.
  rewrite (candidate_cmp u w Rw); [|done|cbn; by rewrite <- local_full].
  by rewrite full_key_real by apply Ru.
Qed.

Lemma less_than_agree :
  Some (ranges_contains (less_than_to_range u) w) = specifier_contains (mkSpecifier LessThan u) w.
Proof.
  unfold specifier_contains. cbn [specifier_operator specifier_version]. fold other.
  destruct (rel_cmp_epoch fw fu) as [Elt _].
  destruct (candidate_access u w Rw El) as (Eo & _). rewrite Eo, (epoch_full u).
  rewrite other_pre_or_dev.
  pose proof (with_dev_stands u Ru (Some 0) ltac:(done)) as S0.
  rewrite (test_ge_l _ other _ fo S0 stands_o), dev_zero_cmp.
  rewrite (test_lt_l u other fu fo stands_u stands_o), (candidate_u El).
  assert (full_local fu = local_empty) as Elf by (by rewrite <- local_full).
  unfold less_than_to_range. destruct (version_any_prerelease u) eqn:Ep; cbn [negb andb].
  - rewrite contains_strictly_lower_than, (test_lt_l u w fu fw stands_u stands_w).
    rewrite (tests_empty u w Rw fu variant_refl Elf), (key_u u Ru). unfold layers.
    zif; [|done]. by rewrite Elt.
  - assert (full_pre fu = None /\ full_dev fu = None) as [Npre Ndev].
    { rewrite any_prerelease_full in Ep. unfold pre_or_dev in Ep.
      apply orb_false_iff in Ep as [E1%bool_decide_eq_false E2%bool_decide_eq_false].
      by apply eq_None_not_Some in E1, E2. }
    destruct (version_is_post u) eqn:Epo.
    + unfold version_is_post in Epo. apply bool_decide_eq_true in Epo as [p Epo].
      rewrite post_full in Epo. destruct (real_components u Ru) as (_ & Hp & _).
      rewrite Epo in Hp. cbn in Hp.
      rewrite contains_strictly_lower_than, (test_lt_l _ w _ fw S0 stands_w).
      rewrite (tests_empty u w Rw) by (done || cbn; by rewrite Elf).
      rewrite full_key_real by apply Ru. unfold layers.
      assert (suffix_key (full_set_dev fu (Some 0)) = (6, 0, Some p, 0)) as ->
        by (unfold suffix_key; cbn; by rewrite Npre, Epo).
      assert (suffix_key fu = (6, 0, Some p, U64_MAX)) as ->
        by (unfold suffix_key; by rewrite Npre, Epo, Ndev).
      zif; [by rewrite Elt|]. pose proof (key_less_post w Rw p Hp) as K.
      destruct (rel_cmp fw fu); cbn [then_with is_lt negb]; [|by destruct (pre_or_dev _)..].
      revert K. destruct (_ && _); by intros <-.
    + assert (full_post fu = None) as Npost.
      { unfold version_is_post in Epo. apply bool_decide_eq_false in Epo.
        by rewrite <- eq_None_not_Some, post_full in Epo. }
      rewrite contains_strictly_lower_than, (test_lt_l _ w _ fw (with_min_stands u Ru) stands_w).
      rewrite (tests_empty u w Rw) by (done || cbn; by rewrite Elf). unfold layers.
      rewrite full_key_min, Npost by apply Ru.
      assert (suffix_key (full_set_dev fu (Some 0)) = (1, 0, None, 0)) as ->
        by (unfold suffix_key; cbn; by rewrite Npre, Npost).
      assert (suffix_key fu = (5, 0, None, 0)) as ->
        by (unfold suffix_key; by rewrite Npre, Npost, Ndev).
      zif; [by rewrite Elt|]. pose proof (key_less_final w Rw) as K.
      destruct (rel_cmp fw fu); cbn [then_with is_lt negb]; [|by destruct (pre_or_dev _)..].
      rewrite (key_min w). revert K. destruct (_ && _); [done|]. by intros ->.
Qed.

(** [w] is a post-release of [u], as the exclusive comparison tests it. *)
Lemma base_eq :
  full_post fu = None ->
  version_without_post_and_dev_eq other u =
    is_eq (rel_cmp fw fu) && bool_decide (full_pre fw = full_pre fu)
    && bool_decide (full_dev fu = None).
Proof.
  intros Npost. apply eq_true_iff_eq.
  rewrite (without_post_and_dev_eq_iff other u (candidate_real u w Rw El) Ru).
  destruct stands_o as [_ ->]. unfold full_equiv. cbn.
  rewrite !andb_true_iff, !bool_decide_eq_true, Npost, <- (local_full u), El.
  assert (is_eq (rel_cmp fw fu) = true <->
    full_epoch fw = full_epoch fu /\ strip_zeros (full_release fw) = strip_zeros (full_release fu))
    as ->; [|naive_solver].
  unfold rel_cmp. split.
  - intros He. destruct (cmp_pair _ _ _ _) eqn:E; [|done..].
    apply (cmp_exact _) in E. by injection E.
  - intros [-> ->]. by rewrite (cmp_refl _).
Qed.

Lemma other_is_post : version_is_post other = bool_decide (is_Some (full_post fw)).
Proof.
  unfold version_is_post. by destruct (candidate_access u w Rw El) as (_ & _ & _ & -> & _).
Qed.

Lemma local_fu : full_local fu = local_empty.
Proof. by rewrite <- local_full. Qed.

(** The three cases of the conversion of [>]. *)
Lemma greater_than_dev d :
  full_dev fu = Some d ->
  ranges_contains (greater_than_to_range u) w = is_gt (layers u w (suffix_key fu)).
Proof.
  intros Ed. destruct (real_components u Ru) as (_ & _ & Hd). rewrite Ed in Hd. cbn in Hd.
  unfold greater_than_to_range. rewrite dev_full, Ed.
  rewrite (wrapping_succ d Hd).
  assert (opt_u64 (Some (d + 1))) as Hd1 by (unfold is_number in Hd; cbn; unfold is_u64; lia).
  rewrite contains_higher_than, (test_le _ w _ fw (with_dev_stands u Ru _ Hd1) stands_w).
  rewrite (tests_empty u w Rw) by (done || apply local_fu).
  rewrite full_key_real by apply Ru. unfold layers.
  destruct (rel_cmp fw fu); cbn [then_with]; [|done..].
  by apply key_greater_dev.
Qed.

Lemma greater_than_post :
  full_dev fu = None -> is_Some (full_post fu) ->
  ranges_contains (greater_than_to_range u) w = is_gt (layers u w (suffix_key fu)).
Proof.
  intros Ed Ep. unfold greater_than_to_range, version_is_post. rewrite dev_full, Ed, post_full.
  rewrite bool_decide_eq_true_2 by done.
  rewrite contains_strictly_higher_than,
    (test_lt _ w _ fw (with_local_stands u Ru LocalMax I) stands_w).
  destruct (tests_max u w Rw (full_set_local fu LocalMax) ltac:(done) eq_refl) as [_ ->].
  by rewrite full_key_local, (key_u u Ru).
Qed.

Lemma greater_than_max :
  full_dev fu = None -> full_post fu = None ->
  ranges_contains (greater_than_to_range u) w =
    if bool_decide (is_Some (full_post fw)) && is_eq (rel_cmp fw fu)
       && bool_decide (full_pre fw = full_pre fu) then false
    else is_gt (layers u w (suffix_key fu)).
Proof.
  intros Ed Ep. unfold greater_than_to_range, version_is_post. rewrite dev_full, Ed, post_full, Ep.
  rewrite bool_decide_eq_false_2 by (by intros []).
  rewrite contains_strictly_higher_than, (test_lt _ w _ fw (with_max_stands u Ru) stands_w).
  rewrite (cmp_variant u w Rw) by done. cbn [full_set_max full_local]. rewrite local_fu.
  destruct (real_components u Ru) as (Hp & _ & _).
  pose proof (key_greater_max w Rw fu Ep Ed Hp) as K.
  rewrite full_key_max by (apply Ru || exact Ed).
  unfold layers. destruct (rel_cmp fw fu); cbn [then_with is_eq andb];
    rewrite ?andb_true_r, ?andb_false_r; [|done..].
  rewrite <- K. pose proof (max_key_neq w Rw (full_pre fu)) as N. revert N.
  by destruct (key_cmp _ (max_key _)).
Qed.

Lemma greater_than_agree :
  Some (ranges_contains (greater_than_to_range u) w) =
    specifier_contains (mkSpecifier GreaterThan u) w.
Proof.
  unfold specifier_contains. cbn [specifier_operator specifier_version]. fold other.
  destruct (rel_cmp_epoch fw fu) as [_ Egt].
  destruct (candidate_access u w Rw El) as (Eo & _). rewrite Eo, (epoch_full u).
  rewrite other_is_post, (test_gt_l u other fu fo stands_u stands_o), (candidate_u El).
  unfold version_is_post. rewrite post_full.
  assert (full_epoch fu < full_epoch fw -> layers u w (suffix_key fu) = Gt /\
    is_eq (rel_cmp fw fu) = false) as HL by (intros He; unfold layers; by rewrite (Egt He)).
  destruct (full_dev fu) as [d|] eqn:Ed; [|destruct (full_post fu) as [q|] eqn:Ep].
  - rewrite (greater_than_dev d Ed). zif; [by destruct (HL ltac:(done)) as [-> _]|].
    destruct (full_post fu) eqn:Ep; [by rewrite bool_decide_eq_true_2|].
    rewrite (base_eq Ep), Ed. rewrite (bool_decide_eq_false_2 (Some d = None)) by done.
    by rewrite !andb_false_r.
  - rewrite (greater_than_post Ed) by (by rewrite Ep).
    zif; [by destruct (HL ltac:(done)) as [-> _]|]. by rewrite bool_decide_eq_true_2.
  - rewrite (greater_than_max Ed Ep), (base_eq Ep), Ed.
    rewrite (bool_decide_eq_false_2 (is_Some None)) by (by intros []).
    rewrite (bool_decide_eq_true_2 (None = None)), andb_true_r, andb_assoc by done.
    zif; [destruct (HL ltac:(done)) as [-> ->]; by rewrite andb_false_r|].
    cbn [negb andb]. by destruct (_ && _).
Qed.

End operators.

(** ** Operators on release prefixes *)

(** The first development release of a release: no real version with that release is below. *)
Definition first_dev (f : VersionFull) : Prop :=
  full_pre f = None /\ full_post f = None /\ full_dev f = Some 0 /\
  full_local f = local_empty /\ full_min f = None /\ full_max f = None.

Lemma first_dev_cmp w f :
  version_real w -> first_dev f ->
  is_lt (full_cmp (version_make_full w) f) = is_lt (rel_cmp (version_make_full w) f).
Proof.
  intros Rw (Ep & Eq & Ed & El & Emin & Emax). unfold full_cmp.
  rewrite (full_key_real f), El by done.
  assert (suffix_key f = (1, 0, None, 0)) as -> by (unfold suffix_key; by rewrite Ep, Eq, Ed).
  destruct Rw as [[W _] R]. apply version_rep_wf_full in W.
  pose proof (key_least _ W (real_min _ R) (real_max _ R)) as K.
  pose proof (local_empty_least (full_local (version_make_full w))) as L.
  rewrite (cmp_opp key_cmp (1, 0, None, 0)).
  rewrite (cmp_opp local_slice_cmp local_empty (full_local (version_make_full w))).
  destruct (rel_cmp _ _); cbn [then_with]; [|done..]. revert K L.
  by destruct (key_cmp _ _), (local_slice_cmp _ _).
Qed.

(** The two layers of [rel_cmp]. *)
Lemma rel_cmp_release f g :
  Forall is_u64 (full_release f) -> Forall is_u64 (full_release g) ->
  rel_cmp f g = then_with (Z.compare (full_epoch f) (full_epoch g))
    (compare_release (full_release f) (full_release g)).
Proof. intros Hf Hg. unfold rel_cmp, cmp_pair. cbn. by rewrite compare_release_strip. Qed.

Lemma real_release_numbers v : version_real v -> Forall is_number (full_release (version_make_full v)).
Proof.
  intros [[W _] R]. pose proof (fwf_release _ (version_rep_wf_full v W)) as Wr.
  pose proof (real_release _ R) as Rr. rewrite Forall_forall in *. intros x Hx.
  specialize (Wr x Hx). specialize (Rr x Hx). unfold is_u64, is_number in *. lia.
Qed.

Lemma numbers_u64 l : Forall is_number l -> Forall is_u64 l.
Proof. induction 1; constructor; [by apply is_number_u64|done]. Qed.

Section prefixes.
Context (u w : Version) (Ru : version_real u) (Rw : version_real w).
Context (El : version_local u = local_empty).
Notation fu := (version_make_full u).
Notation fw := (version_make_full w).

(** The bounds of a wildcard specifier. *)
Lemma star_bounds_spec :
  version_pre u = None -> version_post u = None ->
  exists low high, star_bounds u = Some (low, high) /\
    stands_for low (full_set_dev fu (Some 0)) /\
    stands_for high (full_set_release (full_set_dev fu (Some 0)) (succ_last (full_release fu))).
Proof.
  intros Ep Eq. pose proof (with_dev_stands u Ru (Some 0) ltac:(done)) as S0.
  pose proof S0 as [[W0 M0] E0]. unfold star_bounds.
  rewrite post_full, pre_full, release_full, E0. cbn.
  rewrite <- post_full, <- pre_full, Eq, Ep.
  pose proof (real_release_numbers u Ru) as Hn.
  assert (full_release fu <> []) as Hne by (rewrite <- release_full; apply Ru).
  rewrite (bump_last_spec _ Hn Hne). cbn.
  pose proof (with_release_spec (version_with_dev u (Some 0)) (succ_last (full_release fu)) W0
    (succ_last_bounds _ Hn)) as H.
  destruct (version_with_release _ _) as [high|].
  - destruct H as (_ & [Wh _] & Eh). eexists _, high. split; [done|]. split; [done|].
    apply stands_for_intro; [done|by rewrite Eh, E0|]. cbn. by rewrite (real_full_max u Ru).
  - by apply succ_last_nonempty in Hne.
Qed.

Lemma star_agree low high :
  version_pre u = None -> version_post u = None ->
  star_bounds u = Some (low, high) ->
  version_le low w && version_lt w high =
    (version_epoch u =? version_epoch (candidate u w))
    && release_prefix (version_release u) (version_release (candidate u w)).
Proof.
  intros Ep Eq Eb. destruct (star_bounds_spec Ep Eq) as (low' & high' & Eb' & Sl & Sh).
  rewrite Eb' in Eb. injection Eb as -> ->.
  pose proof (stands_for_real w Rw) as Sw.
  rewrite (test_le low w _ fw Sl Sw), (test_lt_l high w _ fw Sh Sw).
  assert (first_dev (full_set_dev fu (Some 0))) as F.
  { rewrite pre_full in Ep. rewrite post_full in Eq. rewrite local_full in El.
    destruct Ru as [_ []]. by split_and!. }
  assert (first_dev (full_set_release (full_set_dev fu (Some 0)) (succ_last (full_release fu))))
    as F' by exact F.
  rewrite (first_dev_cmp w _ Rw F), (first_dev_cmp w _ Rw F').
  pose proof (real_release_numbers u Ru) as Hn. pose proof (numbers_u64 _ Hn) as Hu.
  pose proof (numbers_u64 _ (real_release_numbers w Rw)) as Hw.
  assert (full_release fu <> []) as Hne by (rewrite <- release_full; apply Ru).
  rewrite !rel_cmp_release by (done || apply succ_last_bounds, Hn).
  destruct (candidate_access u w Rw El) as (-> & -> & _). rewrite epoch_full, release_full.
  rewrite (release_prefix_range _ _ Hn Hw Hne). cbn [full_set_release full_set_dev full_epoch full_release].
  destruct (Z.compare_spec (full_epoch fw) (full_epoch fu)) as [->| |]; cbn [then_with].
  - by rewrite Z.eqb_refl.
  - zif. done.
  - zif. done.
Qed.

Lemma split_last_two_spec l :
  (2 <= length l)%nat ->
  exists rest last x, split_last_two l = Some (rest, last) /\ l = (rest ++ [last]) ++ [x].
Proof.
  intros H. destruct l as [|x l _] using rev_ind; [cbn in H; lia|].
  destruct l as [|last rest _] using rev_ind; [cbn in H; lia|].
  exists rest, last, x. split; [|done]. unfold split_last_two.
  rewrite !rev_app_distr. cbn. by rewrite rev_involutive.
Qed.

(** The upper bound of a compatible release. *)
Lemma tilde_bounds_spec rest last x :
  full_release fu = (rest ++ [last]) ++ [x] ->
  exists upper, version_new (rest ++ [u64_wrapping_add last 1]) = Some upper /\
    stands_for (version_with_dev (version_with_epoch upper (version_epoch u)) (Some 0))
      (full_set_dev (full_set_epoch (release_only (succ_last (rest ++ [last]))) (full_epoch fu))
         (Some 0)).
Proof.
  intros Er. pose proof (real_release_numbers u Ru) as Hn. rewrite Er in Hn.
  apply Forall_app in Hn as [Hn _]. pose proof Hn as Hl. apply Forall_app in Hl as [_ Hl].
  inversion Hl as [|?? Hlast _]; subst. rewrite (wrapping_succ last Hlast).
  pose proof (succ_last_bounds _ Hn) as Hs. rewrite succ_last_snoc in *.
  destruct (new_Some (rest ++ [last + 1]) Hs) as (upper & -> & [Wv _] & Ev);
    [by intros [_ ?]%app_nil|].
  exists upper. split; [done|].
  assert (is_u64 (version_epoch u)) as He.
  { rewrite epoch_full. apply (fwf_epoch _ (version_rep_wf_full u (proj1 (proj1 Ru)))). }
  destruct (with_epoch_implements _ He upper Wv) as [W1 E1].
  destruct (with_dev_implements (Some 0) ltac:(done) _ W1) as [W2 E2].
  apply stands_for_intro; [done| |done]. rewrite E2, E1, Ev, epoch_full. done.
Qed.

Lemma tilde_agree `{!RangesType, !RangesAlgebra, !RangesAlgebraLaws} :
  (2 <= length (version_release u))%nat ->
  exists r, tilde_equal_to_range u = Some r /\
    specifier_contains (mkSpecifier TildeEqual u) w = Some (ranges_contains r w).
Proof.
  intros Hlen. destruct (split_last_two_spec _ Hlen) as (rest & last & x & Es & Er).
  rewrite release_full in Er. destruct (tilde_bounds_spec rest last x Er) as (upper & En & Su).
  eexists. split; [unfold tilde_equal_to_range; rewrite Es; cbn; by rewrite En|].
  rewrite contains_from_range. pose proof (stands_for_real w Rw) as Sw.
  rewrite (test_lt_l _ w _ fw Su Sw), (first_dev_cmp w) by done.
  pose proof (greater_than_equal_agree u w Ru Rw El) as Hge.
  rewrite contains_higher_than in Hge. rewrite Hge.
  unfold specifier_contains. cbn [specifier_operator specifier_version]. fold (candidate u w).
  destruct (Nat.ltb_spec 1 (length (version_release u))); [|lia].
  destruct (candidate_access u w Rw El) as (-> & -> & _). rewrite epoch_full, release_full, Er.
  rewrite length_app, Nat.add_sub. rewrite (take_app_length (rest ++ [last])).
  pose proof (real_release_numbers u Ru) as Hn. rewrite Er in Hn. apply Forall_app in Hn as [Hn Hx].
  pose proof (numbers_u64 _ (real_release_numbers w Rw)) as Hw.
  rewrite rel_cmp_release by (done || apply succ_last_bounds, Hn).
  cbn [full_set_dev full_set_epoch full_epoch full_release release_only].
  destruct (version_ge (candidate u w) u) eqn:G; cbn [andb];
    [|by repeat match goal with |- (if ?b then _ else _) = _ => destruct b end].
  rewrite (test_ge_l u _ fu _ (stands_for_real u Ru) (candidate_stands u w Rw El)) in G.
  rewrite (candidate_u u w Ru Rw El) in G. unfold layers in G.
  rewrite rel_cmp_release, Er in G by (rewrite ?Er; done || apply numbers_u64, Forall_app; done).
  destruct (Z.compare_spec (full_epoch fw) (full_epoch fu)) as [E|Hlt|Hgt]; cbn [then_with is_lt negb] in *.
  - rewrite E, Z.eqb_refl. cbn [negb].
    rewrite (tilde_prefix_range _ x _ Hn Hw);
      [|by intros [_ ?]%app_nil|intros E'; by rewrite E' in G].
    by destruct (is_lt (compare_release _ _)).
  - done.
  - zif. done.
Qed.

End prefixes.

(** ** Specifiers and lists of specifiers *)

Section agreement.
Context `{!RangesType, !RangesAlgebra, !RangesAlgebraLaws}.

Lemma specifier_agree x w :
  specifier_valid x -> version_real w ->
  exists r, specifier_to_range x = Some r /\
    specifier_contains x w = Some (ranges_contains r w).
Proof.
  intros [Ru Hl Ht Hs] Rw. destruct x as [op u]. cbn in *.
  destruct (equal_agree u w Ru Rw) as (r & Er & Hr).
  assert (forall low high, star_bounds u = Some (low, high) ->
    operator_is_star op = true -> operator_is_local_compatible op = false ->
    version_le low w && version_lt w high =
      (version_epoch u =? version_epoch (candidate u w))
      && release_prefix (version_release u) (version_release (candidate u w))) as Hstar.
  { intros low high Eb S L. destruct (Hs S) as (? & ? & _). by apply star_agree; auto. }
  assert (operator_is_star op = true -> exists low high, star_bounds u = Some (low, high)) as Hb.
  { intros S. destruct (Hs S) as (Ep & Eq & _).
    destruct (star_bounds_spec u Ru Ep Eq) as (low & high & E & _). eauto. }
  unfold specifier_to_range. cbn [specifier_operator specifier_version]. destruct op.
  - exists r. split; [done|]. unfold specifier_contains. cbn [specifier_operator specifier_version]. by rewrite Hr.
  - destruct (Hb eq_refl) as (low & high & Eb). rewrite Eb. cbn. eexists. split; [done|].
    rewrite contains_from_range. unfold specifier_contains. cbn [specifier_operator specifier_version]. by rewrite (Hstar low high Eb).
  - eexists. split; [done|]. unfold specifier_contains. cbn [specifier_operator specifier_version]. by rewrite exact_equal_agree.
  - rewrite Er. eexists. split; [done|]. rewrite contains_complement, Hr.
    unfold specifier_contains. cbn [specifier_operator specifier_version]. fold (candidate u w). by rewrite not_equal_sym.
  - destruct (Hb eq_refl) as (low & high & Eb). rewrite Eb. cbn. eexists. split; [done|].
    rewrite contains_complement, contains_from_range, (Hstar low high Eb) by done.
    unfold specifier_contains. cbn [specifier_operator specifier_version]. fold (candidate u w). by rewrite negb_andb.
  - by apply tilde_agree; auto.
  - eexists. split; [done|]. by rewrite <- less_than_agree by auto.
  - eexists. split; [done|]. unfold specifier_contains. cbn [specifier_operator specifier_version]. by rewrite less_than_equal_agree by auto.
  - eexists. split; [done|]. by rewrite <- greater_than_agree by auto.
  - eexists. split; [done|]. unfold specifier_contains. cbn [specifier_operator specifier_version].
    by rewrite greater_than_equal_agree by auto.
Qed.

(** Intersecting the ranges one by one. *)
Lemma specifiers_fold_agree xs w r0 :
  Forall specifier_valid xs -> version_real w ->
  exists r, foldl (fun range specifier =>
      range ← range;
      r ← specifier_to_range specifier;
      Some (ranges_intersection range r)) (Some r0) xs = Some r /\
    (b ← specifiers_contains xs w; Some (ranges_contains r0 w && b)) = Some (ranges_contains r w).
Proof.
  intros Hxs Rw. revert r0. induction Hxs as [|x xs Hx Hxs IH]; intros r0.
  - exists r0. split; [done|]. cbn. by rewrite andb_true_r.
  - destruct (specifier_agree x w Hx Rw) as (rx & Ex & Cx). cbn [foldl].
    rewrite Ex. cbn. destruct (IH (ranges_intersection r0 rx)) as (r & Er & Cr).
    exists r. split; [done|]. cbn [specifiers_contains foldr] in *. rewrite Cx, <- Cr.
    fold (specifiers_contains xs w) in *. rewrite contains_intersection.
    destruct (specifiers_contains xs w) as [b|]; [|done]. cbn.
    destruct (ranges_contains rx w); cbn; by rewrite ?andb_true_r, ?andb_false_r.
Qed.

End agreement.
