(* ===== verification/VersionBump.v ===== *)
(** * Bumped versions

    [Version::bump] of [crates/uv-pep440/src/version.rs]: every command keeps the invariant, and
    bumping a component that is there moves the version forward. *)

From stdpp Require Import base list option numbers decidable.
From Stdlib Require Import ZArith Lia.
From S2P Require Import Prelude VersionTypes VersionSmall Version VersionOrder VersionCacheKey.
From S2P Require Import VersionParser VersionRangesFacts.

Local Open Scope Z_scope.

(** ** The bumped release *)

Lemma padded_lookup n l i :
  (length l <= n)%nat -> (i < n)%nat -> padded n l !! i = Some (default 0 (l !! i)).
Proof.
  intros Hl Hi. unfold padded. destruct (decide (i < length l)%nat) as [H|H].
  - rewrite lookup_app_l by done. destruct (lookup_lt_is_Some_2 l i H) as [x Hx]. by rewrite Hx.
  - rewrite lookup_app_r by lia. rewrite lookup_replicate_2 by lia.
    by rewrite (lookup_ge_None_2 l i) by lia.
Qed.

(** The release before and after, number by number. *)
Lemma bump_release_vec_lookup old index value i :
  (i < Nat.max (length old) (index + 1))%nat ->
  bump_release_vec old index value !! i = Some
    match Nat.compare i index with
    | Lt => default 0 (old !! i)
    | Eq => default (u64_wrapping_add (default 0 (old !! i)) 1) value
    | Gt => 0
    end.
Proof.
  intros Hi. unfold bump_release_vec. rewrite list_lookup_fmap, lookup_seq_lt by done. cbn.
  by destruct (Nat.compare i index), value.
Qed.

Lemma bump_release_vec_length old index value :
  length (bump_release_vec old index value) = Nat.max (length old) (index + 1).
Proof. unfold bump_release_vec. by rewrite length_fmap, length_seq. Qed.

(** Lists that agree before an index compare as their elements there. *)
Lemma cmp_list_at a b i x y :
  (forall j, (j < i)%nat -> a !! j = b !! j) -> a !! i = Some x -> b !! i = Some y -> x < y ->
  cmp_list Z.compare a b = Lt.
Proof.
  revert a b. induction i as [|i IH]; intros a b Hj Ha Hb Hxy.
  - destruct a, b; try done. cbn in *. simplify_eq. by rewrite (proj2 (Z.compare_lt_iff x y)).
  - destruct a as [|c a]; [done|]. pose proof (Hj O ltac:(lia)) as H0. destruct b as [|d b]; [done|].
    cbn in H0. simplify_eq. cbn. rewrite Z.compare_refl. cbn.
    apply (IH a b); [|done..]. intros j Hlt. apply (Hj (S j)). lia.
Qed.

Lemma bump_release_increases old index :
  Forall is_number old -> compare_release old (bump_release_vec old index None) = Lt.
Proof.
  intros Hn. set (n := Nat.max (length old) (index + 1)).
  rewrite (compare_release_padded _ _ n) by (rewrite ?bump_release_vec_length; lia).
  assert (padded n (bump_release_vec old index None) = bump_release_vec old index None) as ->.
  { unfold padded. rewrite bump_release_vec_length, Nat.sub_diag. by rewrite app_nil_r. }
  assert (is_number (default 0 (old !! index))) as Hi.
  { destruct (old !! index) as [x|] eqn:E; [|by split]. by eapply Forall_lookup_1. }
  eapply (cmp_list_at _ _ index).
  - intros j Hj. rewrite padded_lookup, bump_release_vec_lookup by lia.
    by rewrite (proj2 (Nat.compare_lt_iff j index)).
  - rewrite padded_lookup by lia. reflexivity.
  - rewrite bump_release_vec_lookup by lia. rewrite Nat.compare_refl. reflexivity.
  - cbn. rewrite wrapping_succ by done. lia.
Qed.

(** ** The invariant *)

Definition bump_wf (b : BumpCommand) : Prop :=
  match b with
  | BumpRelease _ value | BumpPrerelease _ value | BumpPost value | BumpDev value => opt_u64 value
  | MakeStable => True
  end.

Lemma wrapping_u64 x y : is_u64 (u64_wrapping_add x y).
Proof. unfold is_u64, u64_wrapping_add, U64_MAX. pose proof (Z.mod_pos_bound (x + y) (2 ^ 64)). lia. Qed.

Lemma bump_number_wf old value : opt_u64 value -> opt_u64 (bump_number old value).
Proof. destruct value, old; cbn; try done. intros _. apply wrapping_u64. Qed.

Lemma bump_release_vec_wf old index value :
  Forall is_u64 old -> opt_u64 value -> Forall is_u64 (bump_release_vec old index value).
Proof.
  intros Ho Hv. apply Forall_lookup_2. intros i x E.
  assert (i < Nat.max (length old) (index + 1))%nat as Hi
    by (rewrite <- (bump_release_vec_length old index value); by eapply lookup_lt_Some).
  rewrite bump_release_vec_lookup in E by done. injection E as <-.
  assert (is_u64 (default 0 (old !! i))) as H0.
  { destruct (old !! i) as [y|] eqn:E; [|by split]. by eapply Forall_lookup_1. }
  destruct (Nat.compare i index); [|done|by split].
  destruct value; [done|apply wrapping_u64].
Qed.

Lemma bump_rep_wf v b : version_rep_wf v -> bump_wf b -> version_rep_wf (version_bump v b).
Proof.
  intros W Hb. apply version_rep_wf_full in W. unfold version_bump, version_rep_wf.
  destruct W as [We Wr Wp Wq Wd Wl Wmin Wmax].
  destruct b as [index value|kind value| |value|value]; cbn [bump_wf] in Hb.
  - split; try done. by apply bump_release_vec_wf.
  - destruct value as [x|]; [by split|]. cbn [full_pre full_set_dev full_set_post].
    destruct (full_pre (version_make_full v)) as [p|]; [|by split].
    case_bool_decide; split; try done. apply wrapping_u64.
  - by split.
  - split; try done. by apply bump_number_wf.
  - split; try done. by apply bump_number_wf.
Qed.

Lemma bump_wf_version v b : version_wf v -> bump_wf b -> version_wf (version_bump v b).
Proof.
  intros [W Hne] Hb. split; [by apply bump_rep_wf|]. rewrite release_full in *.
  unfold version_bump. cbn [version_make_full].
  destruct b as [index value|kind value| |value|value]; try done.
  - cbn [full_release full_set_release]. intros E. apply (f_equal length) in E. rewrite bump_release_vec_length in E. cbn in E. lia.
  - destruct value; [done|]. destruct (full_pre _); [|done]. by case_bool_decide.
Qed.

(** ** Moving forward *)

(** The commands that bump a component which is there, or one that ranks above those that are:
    a number of the release, the post-release number, the number of the same kind of
    pre-release, or the development number. *)
Definition bumps_forward (v : Version) (b : BumpCommand) : bool :=
  match b with
  | BumpRelease _ None | BumpPost None => true
  | BumpPrerelease kind None =>
      match version_pre v with
      | Some p => bool_decide (pre_kind p = kind)
      | None => false
      end
  | BumpDev None => version_is_dev v
  | _ => false
  end.

Lemma bump_comparable v b : version_real v -> bump_wf b -> comparable (version_bump v b).
Proof.
  intros R Hb. split; [apply bump_rep_wf; [apply R|done]|]. unfold max_sentinel. rewrite max_full.
  pose proof (real_max _ (proj2 R)) as Hm. unfold version_bump. cbn [version_make_full].
  destruct b as [index value|kind value| |value|value]; cbn; try by rewrite Hm.
  destruct value; cbn; [by rewrite Hm|]. destruct (full_pre _); [|cbn; by rewrite Hm].
  case_bool_decide; cbn; by rewrite Hm.
Qed.

(** With the same epoch and release, the suffix decides. *)
Lemma suffix_increases f g :
  full_min f = None -> full_max f = None -> full_min g = None -> full_max g = None ->
  full_epoch g = full_epoch f -> full_release g = full_release f ->
  key_cmp (suffix_key f) (suffix_key g) = Lt -> full_cmp f g = Lt.
Proof.
  intros Mf Xf Mg Xg Ee Er K. rewrite (full_cmp_same f f g) by done.
  by rewrite (cmp_refl rel_cmp), (full_key_real f Mf Xf), (full_key_real g Mg Xg), K.
Qed.

Lemma suffix_bump_increases f b :
  from_option (fun p => is_number (pre_number p)) True (full_pre f) ->
  from_option is_number True (full_post f) -> from_option is_number True (full_dev f) ->
  bumps_forward (Full f) b = true -> (forall i value, b <> BumpRelease i value) ->
  key_cmp (suffix_key f) (suffix_key (version_make_full (version_bump (Full f) b))) = Lt.
Proof.
  intros Hp Hq Hd F Hr. destruct b as [index value|kind [?|]| |[?|]|[?|]]; try done.
  - by destruct (Hr index value).
  - unfold version_bump. cbn in F. cbn [version_make_full full_pre full_set_dev full_set_post].
    destruct (full_pre f) as [[k n]|] eqn:Ep; [|done]. rewrite F. cbn [pre_number pre_kind] in *.
    rewrite wrapping_succ by done. unfold suffix_key. rewrite Ep. by key_arith.
  - unfold version_bump, bump_number. cbn [version_make_full full_post full_set_dev].
    destruct (full_post f) as [q|] eqn:Eq; cbn in Hq; rewrite ?wrapping_succ by done;
      unfold suffix_key; cbn; rewrite Eq; destruct (full_pre f) as [[k n]|], (full_dev f) as [d|];
      by key_arith.
  - unfold version_bump, bump_number. cbn [version_make_full full_dev].
    destruct (full_dev f) as [d|] eqn:Ed; cbn in Hd; rewrite ?wrapping_succ by done;
      [|unfold bumps_forward, version_is_dev in F; cbn in F; by rewrite Ed in F].
    unfold suffix_key; cbn; rewrite Ed; destruct (full_pre f) as [[k n]|], (full_post f) as [q|];
      by key_arith.
Qed.

Lemma bump_increases v b :
  version_real v -> bumps_forward v b = true -> version_cmp v (version_bump v b) = Lt.
Proof.
  intros R F. assert (bump_wf b) as Hb by (destruct b as [? []|? []| |[]|[]]; done).
  rewrite version_cmp_full by (by apply bump_comparable || by apply real_comparable).
  pose proof (real_components v R) as (Hp & Hq & Hd). destruct (proj2 R) as [Emin Emax _ _ _ _ _ _].
  change (version_bump v b) with (version_bump (Full (version_make_full v)) b).
  assert (bumps_forward (Full (version_make_full v)) b = true) as F'.
  { unfold bumps_forward, version_is_dev in *. by rewrite pre_full, dev_full in F. }
  pose proof (suffix_bump_increases _ b Hp Hq Hd F') as K.
  destruct b as [index [?|]|kind [?|]| |[?|]|[?|]]; try done;
    [|apply suffix_increases; try done; try (by apply K);
      unfold version_bump; cbn; by repeat case_match..].
  - pose proof (real_release_numbers v R) as Hn. unfold full_cmp.
    rewrite rel_cmp_release;
      [|by apply numbers_u64|by apply bump_release_vec_wf; [apply numbers_u64|]].
    unfold version_bump. cbn [version_make_full full_epoch full_release full_set_release
      full_set_dev full_set_post full_set_pre].
    by rewrite Z.compare_refl, bump_release_increases.
Qed.
