(* ===== verification/VersionCanonical.v ===== *)
(** * Canonical ranges

    [canonicalize_version_ranges] of [crates/uv-pep440/src/version_ranges.rs] replaces internal
    boundary versions by the least real version above them. It keeps the members of a range, and
    its result is canonical. *)

From stdpp Require Import base list option numbers decidable.
From Stdlib Require Import ZArith Lia.
From S2P Require Import Prelude VersionTypes VersionSmall Version VersionOrder VersionCacheKey.
From S2P Require Import VersionParser VersionSpecifier VersionRanges VersionRangesFacts.

Local Open Scope Z_scope.

(** ** The boundary versions the conversions produce *)

(** [v] has no sentinel, or it is one of the three sentinels over the real version [u]. *)
Inductive boundary (v : Version) : Prop :=
| boundary_plain :
    comparable v -> version_local v <> LocalMax -> version_min v = None -> version_max v = None ->
    boundary v
| boundary_local u :
    version_real u -> version_local u = local_empty ->
    stands_for v (full_set_local (version_make_full u) LocalMax) -> boundary v
| boundary_min u :
    version_real u -> version_local u = local_empty ->
    version_pre u = None -> version_post u = None ->
    stands_for v (full_set_min (version_make_full u) (Some 0)) -> boundary v
| boundary_max u :
    version_real u -> version_local u = local_empty ->
    version_post u = None -> version_dev u = None ->
    stands_for v (full_set_max (version_make_full u) (Some 0)) -> boundary v.

Lemma boundary_comparable v : boundary v -> comparable v.
Proof. by intros [C _ _ _|u _ _ [] |u _ _ _ _ []|u _ _ _ _ []]. Qed.

(** ** Keys next to a sentinel *)

Section next_keys.
Context (w : Version) (Rw : version_real w).
Notation fw := (version_make_full w).

(** After a post-release come the development releases of the next one. *)
Lemma key_next_post f p :
  is_number p -> full_post f = Some p -> full_dev f = None ->
  negb (is_lt (key_cmp (suffix_key fw)
    (suffix_key (full_set_dev (full_set_post f (Some (p + 1))) (Some 0))))) =
  is_gt (key_cmp (suffix_key fw) (suffix_key f)).
Proof.
  intros Hp' Ep Ed. destruct (real_components w Rw) as (Hp & Hq & Hd). unfold suffix_key. cbn.
  rewrite Ep, Ed. destruct (full_pre f) as [[k' n']|];
  split_suffix (version_make_full w); key_arith; done.
Qed.

(** After a release or a pre-release come the development releases of its first post-release. *)
Lemma key_next_plain f :
  full_post f = None -> full_dev f = None ->
  negb (is_lt (key_cmp (suffix_key fw)
    (suffix_key (full_set_dev (full_set_post f (Some 0)) (Some 0))))) =
  is_gt (key_cmp (suffix_key fw) (suffix_key f)).
Proof.
  intros Ep Ed. destruct (real_components w Rw) as (Hp & Hq & Hd). unfold suffix_key. cbn.
  rewrite Ep, Ed. destruct (full_pre f) as [[k' n']|];
  split_suffix (version_make_full w); key_arith; done.
Qed.

(** After the post-releases of a pre-release come the development releases of the next one. *)
Lemma key_next_pre f k n :
  is_number n -> full_post f = None ->
  negb (is_lt (key_cmp (suffix_key fw)
    (suffix_key (full_set_dev (full_set_pre f (Some (mkPrerelease k (n + 1)))) (Some 0))))) =
  is_gt (key_cmp (suffix_key fw) (max_key (Some (mkPrerelease k n)))).
Proof.
  intros Hn Ep. destruct (real_components w Rw) as (Hp & Hq & Hd). unfold suffix_key. cbn.
  rewrite Ep. split_suffix (version_make_full w); key_arith; done.
Qed.

End next_keys.

(** ** The successor of a sentinel *)

(** [s] bounds the real versions exactly like the sentinel [v], which is none of them. *)
Definition replaces (s v : Version) : Prop :=
  comparable s /\ version_local s <> LocalMax /\ version_min s = None /\ version_max s = None /\
  forall w, version_real w -> version_cmp w v <> Eq /\
    is_lt (version_cmp w s) = is_lt (version_cmp w v).

Lemma replaces_intro s v fs fv :
  stands_for s fs -> stands_for v fv -> full_local fs <> LocalMax -> full_min fs = None ->
  full_max fs = None ->
  (forall w, version_real w -> full_cmp (version_make_full w) fv <> Eq /\
     is_lt (full_cmp (version_make_full w) fs) = is_lt (full_cmp (version_make_full w) fv)) ->
  replaces s v.
Proof.
  intros Ss Sv Hl Hmin Hmax H. pose proof Ss as [Cs Es]. split_and!; [done|..].
  - by rewrite local_full, Es.
  - by rewrite min_full, Es.
  - by rewrite max_full, Es.
  - intros w Rw. pose proof (stands_for_real w Rw) as Sw.
    rewrite (stands_cmp w v _ _ Sw Sv), (stands_cmp w s _ _ Sw Ss). by apply H.
Qed.

(** A successor [fs] of the local sentinel over [u], given the fact on suffix keys. *)
Lemma replaces_local u v s fs :
  version_real u -> stands_for v (full_set_local (version_make_full u) LocalMax) ->
  stands_for s fs -> variant u fs -> full_local fs = local_empty ->
  full_min fs = None -> full_max fs = None ->
  (forall w, version_real w ->
     negb (is_lt (key_cmp (suffix_key (version_make_full w)) (suffix_key fs))) =
     is_gt (key_cmp (suffix_key (version_make_full w)) (suffix_key (version_make_full u)))) ->
  replaces s v.
Proof.
  intros Ru Sv Ss V El Emin Emax K.
  apply (replaces_intro s v _ _ Ss Sv); [by rewrite El|done|done|]. intros w Rw.
  destruct (tests_max u w Rw (full_set_local (version_make_full u) LocalMax) ltac:(done) eq_refl)
    as [T1 T2].
  rewrite full_key_local, (key_u u Ru) in T1, T2. rewrite T1.
  rewrite (tests_empty u w Rw fs V El), (full_key_real fs Emin Emax). specialize (K w Rw).
  revert T1 T2 K. unfold layers.
  destruct (full_cmp _ _), (rel_cmp _ _); cbn [then_with]; try done.
  all: destruct (key_cmp _ (suffix_key fs)), (key_cmp _ (suffix_key (version_make_full u))); done.
Qed.

Lemma checked_succ n : is_number n -> u64_checked_add n 1 = Some (n + 1) /\ is_u64 (n + 1).
Proof. unfold is_number, is_u64, u64_checked_add. intros H. split; [by zif|lia]. Qed.

Lemma local_successor u v :
  version_real u -> version_local u = local_empty ->
  stands_for v (full_set_local (version_make_full u) LocalMax) ->
  exists s, sentinel_successor v = Some s /\ replaces s v.
Proof.
  intros Ru El Sv. pose proof Sv as [[W M] E].
  destruct (without_local_implements v W) as [W1 E1]. rewrite E in E1.
  assert (version_make_full (version_without_local v) = version_make_full u) as E2.
  { rewrite E1. rewrite local_full in El. rewrite <- El. by destruct (version_make_full u). }
  clear E1. destruct (real_components u Ru) as (_ & Hq & Hd). destruct (proj2 Ru) as [Emin Emax _ _ _ _ _ _].
  rewrite local_full in El. unfold sentinel_successor, is_local_max.
  rewrite local_full, E. cbn [full_set_local full_local]. rewrite bool_decide_eq_true_2 by done.
  rewrite dev_full, post_full, E2.
  destruct (full_dev (version_make_full u)) as [d|] eqn:Ed; cbn in Hd.
  - destruct (checked_succ d Hd) as [-> Hd1]. cbn. eexists. split; [done|].
    destruct (with_dev_implements (Some (d + 1)) Hd1 _ W1) as [W3 E3]. rewrite E2 in E3.
    apply (replaces_local u v _ _ Ru Sv (stands_for_intro _ _ W3 E3 ltac:(cbn; by rewrite Emax)));
      try done.
    intros w Rw. by apply key_greater_dev.
  - destruct (full_post (version_make_full u)) as [q|] eqn:Eq; cbn in Hq.
    + destruct (checked_succ q Hq) as [-> Hq1]. cbn. eexists. split; [done|].
      destruct (with_post_implements (Some (q + 1)) Hq1 _ W1) as [W3 E3].
      destruct (with_dev_implements (Some 0) ltac:(done) _ W3) as [W4 E4]. rewrite E3, E2 in E4.
      apply (replaces_local u v _ _ Ru Sv (stands_for_intro _ _ W4 E4 ltac:(cbn; by rewrite Emax)));
        try done.
      intros w Rw. by apply key_next_post.
    + eexists. split; [done|].
      destruct (with_post_implements (Some 0) ltac:(done) _ W1) as [W3 E3].
      destruct (with_dev_implements (Some 0) ltac:(done) _ W3) as [W4 E4]. rewrite E3, E2 in E4.
      apply (replaces_local u v _ _ Ru Sv (stands_for_intro _ _ W4 E4 ltac:(cbn; by rewrite Emax)));
        try done.
      intros w Rw. by apply key_next_plain.
Qed.

Lemma min_successor u v :
  version_real u -> version_local u = local_empty -> version_pre u = None ->
  version_post u = None -> stands_for v (full_set_min (version_make_full u) (Some 0)) ->
  exists s, sentinel_successor v = Some s /\ replaces s v.
Proof.
  intros Ru El Ep Epo Sv. pose proof Sv as [[W M] E].
  rewrite local_full in El. rewrite pre_full in Ep. rewrite post_full in Epo.
  destruct (proj2 Ru) as [Emin Emax _ _ _ _ _ _].
  destruct (with_min_implements None I v W) as [W1 E1].
  destruct (with_dev_implements (Some 0) ltac:(done) _ W1) as [W2 E2]. rewrite E1, E in E2.
  unfold sentinel_successor, is_local_max. rewrite local_full, min_full, E. cbn. rewrite El.
  cbn. eexists. split; [done|].
  apply (replaces_intro _ v _ _ (stands_for_intro _ _ W2 E2 ltac:(cbn; by rewrite Emax)) Sv);
    [cbn; by rewrite El|done|done|]. intros w Rw.
  rewrite (first_dev_cmp w) by (done || by split_and!).
  rewrite (full_cmp_same _ (version_make_full u) (full_set_min _ _)) by done.
  rewrite full_key_min by done. rewrite Epo, (key_w w Rw).
  pose proof (key_min w) as K.
  assert (key_cmp (suffix_key (version_make_full w)) (0, 0, None, 0) <> Eq) as K'
    by (by split_suffix (version_make_full w); key_arith).
  change (rel_cmp (version_make_full w)
    (full_set_dev (full_set_min (full_set_min (version_make_full u) (Some 0)) None) (Some 0)))
    with (rel_cmp (version_make_full w) (version_make_full u)).
  revert K K'. by destruct (rel_cmp _ _), (key_cmp _ _).
Qed.

Lemma max_successor u v p :
  version_real u -> version_local u = local_empty -> version_post u = None ->
  version_dev u = None -> version_pre u = Some p ->
  stands_for v (full_set_max (version_make_full u) (Some 0)) ->
  exists s, sentinel_successor v = Some s /\ replaces s v.
Proof.
  intros Ru El Epo Ed Ep Sv. pose proof Sv as [[W M] E].
  rewrite local_full in El. rewrite pre_full in Ep. rewrite post_full in Epo. rewrite dev_full in Ed.
  destruct (proj2 Ru) as [Emin Emax _ _ _ _ _ _]. destruct (real_components u Ru) as (Hp & _ & _).
  rewrite Ep in Hp. cbn in Hp. destruct p as [k n]. cbn in Hp.
  destruct (checked_succ n Hp) as [Hc Hn1].
  destruct (with_max_implements None I v W) as [W1 E1].
  destruct (with_pre_implements (Some (mkPrerelease k (n + 1))) Hn1 _ W1) as [W2 E2].
  destruct (with_dev_implements (Some 0) ltac:(done) _ W2) as [W3 E3]. rewrite E2, E1, E in E3.
  unfold sentinel_successor, is_local_max. rewrite local_full, min_full, max_full, pre_full, E. cbn.
  rewrite El, Emin, Ep. cbn. rewrite Hc. cbn. eexists. split; [done|].
  apply (replaces_intro _ v _ _ (stands_for_intro _ _ W3 E3 I) Sv);
    [cbn; by rewrite El|done|done|]. intros w Rw.
  pose proof (key_next_pre w Rw (version_make_full u) k n Hp Epo) as K.
  pose proof (max_key_neq w Rw (Some (mkPrerelease k n))) as N.
  rewrite (cmp_variant u w Rw (full_set_max _ _)) by done.
  set (fs := full_set_dev _ _).
  rewrite (tests_empty u w Rw fs) by done. rewrite (full_key_real fs) by done.
  rewrite full_key_max, Ep by done. revert K N. unfold layers.
  change (suffix_key fs) with (suffix_key (full_set_dev
    (full_set_pre (version_make_full u) (Some (mkPrerelease k (n + 1)))) (Some 0))).
  destruct (rel_cmp _ _); cbn [then_with]; try done.
  by destruct (key_cmp _ (suffix_key _)), (key_cmp _ (max_key _)).
Qed.

Lemma sentinel_successor_spec v :
  boundary v ->
  match sentinel_successor v with
  | Some s => replaces s v
  | None => True
  end.
Proof.
  intros [C Hl Hmin Hmax|u R El S|u R El Ep Epo S|u R El Epo Ed S].
  - unfold sentinel_successor, is_local_max. rewrite bool_decide_eq_false_2 by done.
    by rewrite Hmin, Hmax.
  - by destruct (local_successor u v R El S) as (s & -> & ?).
  - by destruct (min_successor u v R El Ep Epo S) as (s & -> & ?).
  - destruct (version_pre u) as [p|] eqn:Ep.
    + by destruct (max_successor u v p R El Epo Ed Ep S) as (s & -> & ?).
    + destruct S as [_ E]. unfold sentinel_successor, is_local_max.
      rewrite local_full, min_full, max_full, pre_full, E. cbn.
      rewrite <- local_full, <- min_full, <- pre_full, El, Ep.
      by rewrite min_full, (real_min _ (proj2 R)).
Qed.

(** ** The least version *)

Lemma min_version_spec :
  version_real PEP440_MIN_VERSION /\
  version_make_full PEP440_MIN_VERSION = full_set_dev (release_only [0]) (Some 0).
Proof.
  assert (version_make_full PEP440_MIN_VERSION = full_set_dev (release_only [0]) (Some 0)) as E
    by (vm_compute; reflexivity).
  split; [|exact E]. split; [split|].
  - destruct (new_Some [0]) as (v & Ev & [W _] & _); [by repeat constructor|done|].
    unfold PEP440_MIN_VERSION. rewrite Ev. by apply with_dev_implements.
  - by rewrite release_full, E.
  - rewrite E. split; cbn; try done. by repeat constructor.
Qed.

(** No real version is below it. *)
Lemma min_version_least w : version_real w -> version_cmp w PEP440_MIN_VERSION <> Lt.
Proof.
  intros Rw. destruct min_version_spec as [Rm Em].
  rewrite (stands_cmp w _ _ _ (stands_for_real w Rw) (stands_for_real _ Rm)), Em.
  intros H. assert (is_lt (full_cmp (version_make_full w) (full_set_dev (release_only [0]) (Some 0)))
    = true) as H' by (by rewrite H).
  rewrite (first_dev_cmp w) in H' by (done || by split_and!).
  pose proof (numbers_u64 _ (real_release_numbers w Rw)) as Hw.
  rewrite rel_cmp_release in H' by (done || by repeat constructor). cbn in H'.
  pose proof (fwf_epoch _ (version_rep_wf_full w (proj1 (proj1 Rw)))) as He. unfold is_u64 in He.
  destruct (Z.compare_spec (full_epoch (version_make_full w)) 0); cbn in H'; [|lia|done].
  pose proof (compare_release_nil_r _ Hw) as N.
  rewrite compare_release_strip in H', N by (done || by repeat constructor).
  by destruct (cmp_list _ _ _).
Qed.

(** ** Canonical segments *)

Section segment.
Context (w : Version) (Rw : version_real w).

Definition bound_ok (b : Bound) : Prop :=
  match b with
  | Included v | Excluded v => boundary v
  | Unbounded => True
  end.

Lemma cmp_swap v : comparable v -> version_cmp v w = CompOpp (version_cmp w v).
Proof.
  intros C. pose proof (real_comparable w Rw) as Cw.
  rewrite !version_cmp_full by done. apply (cmp_opp full_cmp).
Qed.

Lemma above_cmp b :
  bound_ok b ->
  above b w = match b with
    | Included v => negb (is_lt (version_cmp w v))
    | Excluded v => is_gt (version_cmp w v)
    | Unbounded => true
    end.
Proof.
  destruct b as [v|v|]; cbn; [..|done]; intros B%boundary_comparable;
    unfold version_le, version_lt; rewrite (cmp_swap v B); by destruct (version_cmp w v).
Qed.

Lemma below_cmp b :
  below b w = match b with
    | Included v => negb (is_gt (version_cmp w v))
    | Excluded v => is_lt (version_cmp w v)
    | Unbounded => true
    end.
Proof.
  destruct b as [v|v|]; cbn; [..|done]; unfold version_le, version_lt;
    by destruct (version_cmp w v).
Qed.

Lemma replaces_boundary s v : replaces s v -> boundary s.
Proof. intros (C & ? & ? & ? & _). by apply boundary_plain. Qed.

Lemma canonicalize_lower_ok b :
  bound_ok b -> bound_ok (canonicalize_lower_bound b) /\
    above (canonicalize_lower_bound b) w = above b w.
Proof.
  intros B. assert (bound_ok (canonicalize_lower_bound b)) as B'.
  { destruct b as [v|v|]; cbn in *; [..|done]; pose proof (sentinel_successor_spec v B) as S;
      destruct (sentinel_successor v); cbn; eauto using replaces_boundary. }
  split; [done|]. rewrite (above_cmp _ B), (above_cmp _ B').
  destruct b as [v|v|]; cbn in *; [..|done]; pose proof (sentinel_successor_spec v B) as S;
    destruct (sentinel_successor v) as [s|]; [|done| |done];
    destruct S as (_ & _ & _ & _ & S); destruct (S w Rw) as [N E]; rewrite E; [done|].
  by destruct (version_cmp w v).
Qed.

Lemma canonicalize_upper_ok b :
  bound_ok b -> bound_ok (canonicalize_upper_bound b) /\
    below (canonicalize_upper_bound b) w = below b w.
Proof.
  intros B. assert (bound_ok (canonicalize_upper_bound b)) as B'.
  { destruct b as [v|v|]; cbn in *; [..|done]; pose proof (sentinel_successor_spec v B) as S;
      destruct (sentinel_successor v); cbn; eauto using replaces_boundary. }
  split; [done|]. rewrite !below_cmp.
  destruct b as [v|v|]; cbn in *; [..|done]; pose proof (sentinel_successor_spec v B) as S;
    destruct (sentinel_successor v) as [s|]; [|done| |done];
    destruct S as (_ & _ & _ & _ & S); destruct (S w Rw) as [N E]; rewrite E; [|done].
  by destruct (version_cmp w v).
Qed.

(** Bounds at or below the least version exclude nothing, or everything. *)
Lemma cmp_min_trans v :
  boundary v ->
  (version_cmp v PEP440_MIN_VERSION = Lt -> version_cmp w v = Gt) /\
  (version_cmp v PEP440_MIN_VERSION <> Gt -> version_cmp w v <> Lt).
Proof.
  intros B%boundary_comparable. destruct min_version_spec as [Rm _].
  pose proof (min_version_least w Rw) as L. pose proof (real_comparable _ Rm) as Cm.
  pose proof (real_comparable _ Rw) as Cw. rewrite (version_cmp_full w _ Cw Cm) in L.
  rewrite (version_cmp_full v _ B Cm), (version_cmp_full w v Cw B). split.
  - intros H. apply (cmp_gt_lt full_cmp). apply (cmp_lt_le_trans full_cmp _ _ _ H).
    intros H'. by apply (cmp_gt_lt full_cmp) in H'.
  - intros H H'. apply L. by apply (cmp_lt_le_trans full_cmp _ _ _ H').
Qed.

Lemma canonicalize_segment_members seg :
  bound_ok seg.1 -> bound_ok seg.2 ->
  match canonicalize_segment seg with
  | Some seg' => in_segment w seg'
  | None => false
  end = in_segment w seg.
Proof.
  destruct seg as [lower upper]. cbn [fst snd]. intros Bl Bu.
  destruct (canonicalize_lower_ok lower Bl) as [Bl' El].
  destruct (canonicalize_upper_ok upper Bu) as [Bu' Eu].
  unfold canonicalize_segment, in_segment. cbn [fst snd]. rewrite <- El, <- Eu. clear El Eu.
  generalize dependent (canonicalize_lower_bound lower). intros l Bl'.
  generalize dependent (canonicalize_upper_bound upper). intros r Br'.
  set (l' := match l with Included _ => _ | Excluded _ => _ | Unbounded => _ end).
  assert (above l' w = above l w) as Ea.
  { rewrite (above_cmp l) by done. unfold l', version_le, version_lt.
    destruct l as [v|v|]; [..|done]; destruct (cmp_min_trans v Bl') as [T1 T2];
      destruct (version_cmp v PEP440_MIN_VERSION) eqn:E; try (by rewrite above_cmp); cbn.
    - destruct (version_cmp w v); try done. by destruct T2.
    - destruct (version_cmp w v); try done. by destruct T2.
    - by rewrite T1. }
  set (floor := match r with Included _ => _ | Excluded _ => _ | Unbounded => _ end).
  assert (floor = true -> below r w = false) as Ef.
  { rewrite below_cmp. unfold floor, version_le, version_lt.
    destruct r as [v|v|]; [..|done]; destruct (cmp_min_trans v Br') as [T1 T2];
      destruct (version_cmp v PEP440_MIN_VERSION) eqn:E; try done; intros _.
    - by rewrite T1.
    - destruct (version_cmp w v); try done. by destruct T2.
    - by rewrite T1. }
  destruct floor; cbn [negb fst snd]; [rewrite Ef by done; by rewrite andb_false_r|].
  by rewrite Ea.
Qed.

End segment.

(** ** Canonical ranges *)

(** A bound without a sentinel that has a successor. *)
Lemma successor_none s v : replaces s v -> sentinel_successor s = None.
Proof.
  intros (_ & Hl & Hmin & Hmax & _). unfold sentinel_successor, is_local_max.
  rewrite bool_decide_eq_false_2 by done. by rewrite Hmin, Hmax.
Qed.

Lemma canonicalize_segment_canonical seg seg' :
  bound_ok seg.1 -> bound_ok seg.2 -> canonicalize_segment seg = Some seg' ->
  lower_bound_needs_canonicalization seg'.1 = false /\
  upper_bound_needs_canonicalization seg'.2 = false.
Proof.
  destruct seg as [l r]. cbn [fst snd]. intros Bl Br. unfold canonicalize_segment.
  destruct (negb _) eqn:F; [|done]. apply negb_true_iff in F. intros [= <-]. cbn [fst snd].
  assert (forall v s, sentinel_successor v = Some s -> boundary v -> sentinel_successor s = None) as N.
  { intros v s E B. pose proof (sentinel_successor_spec v B) as S. rewrite E in S.
    by eapply successor_none. }
  split.
  - destruct l as [v|v|]; cbn in *; [..|done]; destruct (sentinel_successor v) as [s|] eqn:E;
      (destruct (version_le _ _) eqn:L || destruct (version_lt _ _) eqn:L); [done| |done| |done| |done|];
      cbn; rewrite L; cbn; rewrite ?E, ?(N v s E Bl); by rewrite bool_decide_eq_false_2 by (by intros []).
  - destruct r as [v|v|]; cbn in *; [..|done]; destruct (sentinel_successor v) as [s|] eqn:E;
      cbn in *; rewrite F; cbn; rewrite ?E, ?(N v s E Br);
      by rewrite bool_decide_eq_false_2 by (by intros []).
Qed.

Section ranges.
Context `{!RangesType, !RangesSegments, !RangesSegmentsLaws}.

Definition ranges_ok (r : Ranges) : Prop :=
  Forall (fun seg => bound_ok seg.1 /\ bound_ok seg.2) (ranges_iter r).

Lemma canonicalize_members r w :
  ranges_ok r -> version_real w ->
  ranges_contains (default r (canonicalize_version_ranges r)) w = ranges_contains r w.
Proof.
  intros Hr Rw. unfold canonicalize_version_ranges. destruct (negb _); [done|]. cbn [default].
  cbn [from_option id]. rewrite contains_collect, contains_iter. unfold ranges_ok in Hr.
  induction Hr as [|seg segs [Bl Bu] Hr IH]; [done|]. cbn [omap list_omap existsb].
  rewrite <- (canonicalize_segment_members w Rw seg Bl Bu).
  destruct (canonicalize_segment seg); cbn [existsb]; by rewrite IH.
Qed.

End ranges.
