(* ===== verification/ReleaseRanges.v ===== *)
(** * Release-only ranges and bounds

    The release-only conversion of [crates/uv-pep440/src/version_ranges.rs], which tests Python
    versions: on versions that are a release and nothing else it agrees with the specifiers, whether
    or not trailing zeros are trimmed. The orders of lower and upper bounds. *)

From stdpp Require Import base list option numbers decidable.
From Stdlib Require Import ZArith Lia.
From S2P Require Import Prelude VersionTypes VersionSmall Version VersionOrder VersionCacheKey.
From S2P Require Import VersionParser VersionSpecifier VersionRanges VersionRangesFacts.

Local Open Scope Z_scope.

(** ** Versions that are a release *)

Definition release_version (v : Version) : Prop :=
  version_real v /\ version_make_full v = release_only (version_release v).

(** [v] compares like the release [ns]. *)
Lemma release_stands v : release_version v -> stands_for v (release_only (version_release v)).
Proof. intros [R <-]. by apply stands_for_real. Qed.

Lemma strip_zeros_idemp l : strip_zeros (strip_zeros l) = strip_zeros l.
Proof. destruct (strip_zeros_spec l) as [k E]. rewrite E at 2. by rewrite strip_zeros_app_zeros. Qed.

Lemma strip_trimmed l :
  strip_zeros (match strip_zeros l with [] => [0] | ns => ns end) = strip_zeros l.
Proof.
  pose proof (strip_zeros_idemp l) as E. destruct (strip_zeros l) as [|x k]; [done|exact E].
Qed.

Lemma full_cmp_releases a b :
  Forall is_u64 a -> Forall is_u64 b ->
  full_cmp (release_only a) (release_only b) = compare_release a b.
Proof.
  intros Ha Hb. unfold full_cmp. rewrite rel_cmp_release by done. cbn.
  by destruct (compare_release a b).
Qed.

Lemma release_numbers v : release_version v -> Forall is_number (version_release v).
Proof. intros [R _]. rewrite release_full. by apply real_release_numbers. Qed.

Lemma release_fields v :
  release_version v ->
  version_epoch v = 0 /\ version_pre v = None /\ version_post v = None /\ version_dev v = None /\
  version_local v = local_empty.
Proof. intros [_ E]. autorewrite with full. by rewrite E. Qed.

(** Both ways to drop what is no release give a version that compares alike. *)
Lemma version_trimmed_spec u (trim : bool) :
  release_version u ->
  exists t ns, (if trim then version_only_release_trimmed u else version_only_release u) = Some t /\
    stands_for t (release_only ns) /\ Forall is_u64 ns /\
    strip_zeros ns = strip_zeros (version_release u).
Proof.
  intros Hu. pose proof (numbers_u64 _ (release_numbers u Hu)) as Hn. destruct Hu as [[W R] E].
  destruct trim.
  - destruct (only_release_trimmed_spec u W) as (t & -> & [Wt _] & Et). eexists t, _.
    split; [done|]. split; [by apply stands_for_intro|]. split; [|apply strip_trimmed].
    apply strip_zeros_Forall in Hn. destruct (strip_zeros _); [by repeat constructor|done].
  - destruct (only_release_spec u W) as (t & -> & [Wt _] & Et). eexists t, _.
    split; [done|]. split; [by apply stands_for_intro|]. done.
Qed.

(** ** Agreement with the specifier *)

Section agree.
Context `{!RangesType, !RangesAlgebra, !RangesAlgebraLaws}.
Context (u w : Version) (Hu : release_version u) (Hw : release_version w).
Notation ru := (version_release u).
Notation rw := (version_release w).

Lemma candidate_self : candidate u w = w.
Proof.
  unfold candidate. destruct (release_fields w Hw) as (_ & _ & _ & _ & ->).
  by rewrite andb_false_r.
Qed.

Lemma not_special :
  version_any_prerelease w = false /\ version_is_post w = false.
Proof.
  unfold version_any_prerelease, version_is_pre, version_is_dev, version_is_post.
  destruct (release_fields w Hw) as (_ & -> & -> & -> & _).
  by rewrite bool_decide_eq_false_2 by (by intros []).
Qed.

(** Any test against a version that stands for a release with the same numbers. *)
Lemma trimmed_cmp t ns :
  stands_for t (release_only ns) -> Forall is_u64 ns -> strip_zeros ns = strip_zeros ru ->
  version_cmp w t = version_cmp w u /\ version_cmp t w = version_cmp u w.
Proof.
  intros St Hns Es. pose proof (numbers_u64 _ (release_numbers u Hu)) as Nu.
  pose proof (numbers_u64 _ (release_numbers w Hw)) as Nw.
  pose proof (release_stands u Hu) as Su. pose proof (release_stands w Hw) as Sw.
  rewrite (stands_cmp w t _ _ Sw St), (stands_cmp w u _ _ Sw Su).
  rewrite (stands_cmp t w _ _ St Sw), (stands_cmp u w _ _ Su Sw).
  rewrite !full_cmp_releases, !compare_release_strip by done. by rewrite Es.
Qed.

(** Being below a release, in terms of release numbers. *)
Lemma test_release t ns :
  stands_for t (release_only ns) -> Forall is_u64 ns ->
  version_lt w t = is_lt (compare_release rw ns) /\
  version_le t w = negb (is_lt (compare_release rw ns)).
Proof.
  intros St Hns. pose proof (release_stands w Hw) as Sw.
  pose proof (numbers_u64 _ (release_numbers w Hw)) as Nw.
  rewrite (test_lt_l t w _ _ St Sw), (test_le t w _ _ St Sw).
  by rewrite full_cmp_releases.
Qed.

Lemma release_star_bounds_spec :
  exists high, release_star_bounds u = Some (u, high) /\
    stands_for high (release_only (succ_last ru)).
Proof.
  unfold release_star_bounds. pose proof (release_numbers u Hu) as Hn.
  destruct Hu as [[W R] E]. destruct (only_release_spec u W) as (t & -> & [Wt Nt] & Et). cbn.
  assert (version_release t = ru) as Er by (by rewrite release_full, Et).
  rewrite Er in Nt. rewrite Er, (bump_last_spec _ Hn Nt). cbn.
  pose proof (with_release_spec t (succ_last ru) Wt (succ_last_bounds _ Hn)) as H'.
  destruct (version_with_release _ _) as [high|].
  - destruct H' as (_ & [Wh _] & Eh). exists high. split; [done|].
    apply stands_for_intro; [done|by rewrite Eh, Et|done].
  - by apply succ_last_nonempty in Nt.
Qed.

Lemma release_star_agree low high :
  release_star_bounds u = Some (low, high) ->
  version_le low w && version_lt w high =
    (version_epoch u =? version_epoch (candidate u w))
    && release_prefix ru (version_release (candidate u w)).
Proof.
  intros Eb. destruct release_star_bounds_spec as (high' & Eb' & Sh). rewrite Eb' in Eb.
  injection Eb as <- ->. pose proof (release_numbers u Hu) as Hn.
  pose proof (numbers_u64 _ Hn) as Nu. pose proof (numbers_u64 _ (release_numbers w Hw)) as Nw.
  destruct (test_release u ru (release_stands u Hu) Nu) as [_ ->].
  destruct (test_release high _ Sh (succ_last_bounds _ Hn)) as [-> _].
  rewrite candidate_self. destruct (release_fields u Hu) as (-> & _), (release_fields w Hw) as (-> & _).
  rewrite Z.eqb_refl. cbn [andb]. symmetry. apply release_prefix_range; [done|done|].
  apply Hu.
Qed.

Lemma release_tilde_agree t ns :
  stands_for t (release_only ns) -> Forall is_u64 ns -> strip_zeros ns = strip_zeros ru ->
  (2 <= length ru)%nat ->
  exists rest last upper, split_last_two ru = Some (rest, last) /\
    version_new (rest ++ [u64_wrapping_add last 1]) = Some upper /\
    specifier_contains (mkSpecifier TildeEqual u) w =
      Some (version_le t w && version_lt w upper).
Proof.
  intros St Hns Es Hlen. destruct (split_last_two_spec _ Hlen) as (rest & last & x & Esp & Er).
  pose proof (release_numbers u Hu) as Hn. rewrite Er in Hn. apply Forall_app in Hn as [Hn Hx].
  pose proof Hn as Hl. apply Forall_app in Hl as [_ Hl]. inversion Hl as [|?? Hlast _]; subst.
  pose proof (succ_last_bounds _ Hn) as Hs. rewrite succ_last_snoc in Hs.
  destruct (new_Some (rest ++ [last + 1]) Hs) as (upper & En & [Wv _] & Ev);
    [by intros [_ ?]%app_nil|].
  exists rest, last, upper. split; [done|]. split; [by rewrite (wrapping_succ last Hlast)|].
  destruct (test_release upper _ (stands_for_intro _ _ Wv Ev I) Hs) as [-> _].
  assert (version_le t w = version_ge w u) as ->.
  { destruct (trimmed_cmp t ns St Hns Es) as [_ E2]. unfold version_le. rewrite E2.
    fold (version_le u w).
    pose proof (release_stands u Hu) as Su. pose proof (release_stands w Hw) as Sw.
    by rewrite (test_le u w _ _ Su Sw), (test_ge_l u w _ _ Su Sw). }
  unfold specifier_contains. cbn [specifier_operator specifier_version]. fold (candidate u w).
  rewrite candidate_self. destruct (Nat.ltb_spec 1 (length ru)); [|lia].
  destruct (release_fields u Hu) as (-> & _), (release_fields w Hw) as (-> & _). cbn [Z.eqb negb].
  rewrite Er at 1 2. rewrite length_app, Nat.add_sub, (take_app_length (rest ++ [last])).
  pose proof (numbers_u64 _ (release_numbers w Hw)) as Nw.
  destruct (version_ge w u) eqn:G; cbn [andb];
    [|by repeat match goal with |- (if ?b then _ else _) = _ => destruct b end].
  rewrite (test_ge_l u w _ _ (release_stands u Hu) (release_stands w Hw)) in G.
  rewrite full_cmp_releases, Er in G
    by (done || (rewrite Er; apply numbers_u64, Forall_app; done)).
  rewrite (tilde_prefix_range _ x _ Hn Nw);
    [|by intros [_ ?]%app_nil|intros E'; by rewrite E' in G].
  rewrite succ_last_snoc. by destruct (is_lt (compare_release rw (rest ++ [last + 1]))).
Qed.

Lemma release_agree op trim :
  specifier_valid (mkSpecifier op u) ->
  exists r, release_specifier_to_range (mkSpecifier op u) trim = Some r /\
    specifier_contains (mkSpecifier op u) w = Some (ranges_contains r w).
Proof.
  intros V. destruct (version_trimmed_spec u trim Hu) as (t & ns & Et & St & Hns & Es).
  destruct (trimmed_cmp t ns St Hns Es) as [C1 C2].
  pose proof (release_stands u Hu) as Su. pose proof (release_stands w Hw) as Sw.
  destruct not_special as [Np Nq].
  destruct (release_fields u Hu) as (Eu & _), (release_fields w Hw) as (Ew & _).
  unfold release_specifier_to_range. cbn [specifier_operator specifier_version]. rewrite Et.
  cbn [mbind option_bind].
  assert (version_eq u w = version_eq w u) as Esym
    by (by rewrite (test_eq u w _ _ Su Sw), (test_eq_l u w _ _ Su Sw)).
  assert (version_le u w = version_ge w u) as Ele
    by (by rewrite (test_le u w _ _ Su Sw), (test_ge_l u w _ _ Su Sw)).
  assert (version_lt u w = version_gt w u) as Elt
    by (by rewrite (test_lt u w _ _ Su Sw), (test_gt_l u w _ _ Su Sw)).
  assert (version_eq w t = version_eq w u /\ version_lt w t = version_lt w u /\
    version_le w t = version_le w u /\ version_lt t w = version_gt w u /\
    version_le t w = version_ge w u) as (T1 & T2 & T3 & T4 & T5).
  { rewrite <- Elt, <- Ele. unfold version_eq, version_lt, version_le. by rewrite C1, C2. }
  pose proof candidate_self as Ec.
  destruct op.
  6: { destruct (release_tilde_agree t ns St Hns Es (valid_tilde _ V eq_refl))
         as (rest & last & upper & E1 & E2 & E3). rewrite E1. cbn [mbind option_bind].
       rewrite E2, E3. eexists. split; [done|]. by rewrite contains_from_range. }
  all: unfold specifier_contains; cbn [specifier_operator specifier_version]; fold (candidate u w).
  2, 5: destruct release_star_bounds_spec as (high & Eb & _);
    pose proof (release_star_agree u high Eb) as Ea; rewrite Eb; cbn; eexists; (split; [done|]);
    rewrite ?contains_complement, contains_from_range, Ea; by rewrite ?negb_andb.
  all: rewrite ?Ec; eexists; (split; [done|]);
    rewrite ?contains_complement, ?contains_singleton, ?contains_strictly_lower_than,
      ?contains_lower_than, ?contains_strictly_higher_than, ?contains_higher_than,
      ?T1, ?T2, ?T3, ?T4, ?T5, ?Esym, ?Np, ?Nq, ?Eu, ?Ew; cbn [Z.ltb Z.compare]; try done.
  all: by rewrite !andb_false_r.
Qed.

End agree.

(** ** Lower and upper bounds *)

(** The versions of a bound can be compared. *)
Definition bound_comparable (b : Bound) : Prop :=
  match b with
  | Included v | Excluded v => comparable v
  | Unbounded => True
  end.

(** Where a bound lies: on a version, or just beside it. *)
Definition lower_position (b : Bound) : ext (VersionFull * Z) :=
  match b with
  | Included v => Fin (version_make_full v, 0)
  | Excluded v => Fin (version_make_full v, 1)
  | Unbounded => NegInf
  end.

Definition upper_position (b : Bound) : ext (VersionFull * Z) :=
  match b with
  | Included v => Fin (version_make_full v, 0)
  | Excluded v => Fin (version_make_full v, -1)
  | Unbounded => PosInf
  end.

Definition position_cmp : ext (VersionFull * Z) -> ext (VersionFull * Z) -> comparison :=
  cmp_ext (cmp_pair full_cmp Z.compare).

#[export] Instance ord_ext_laws {A} (ca : A -> A -> comparison) `{!OrdLaws ca} :
  OrdLaws (cmp_ext ca).
Proof.
  split.
  - intros [|a|]; cbn; [done|apply (cmp_refl ca)|done].
  - intros [|a|] [|b|]; cbn; try done. apply (cmp_opp ca).
  - intros [|a|] [|b|] [|c|]; cbn; try done. apply (cmp_eq_l ca).
  - intros [|a|] [|b|] [|c|]; cbn; try done. apply (cmp_lt_trans ca).
Qed.

#[export] Instance ord_position : OrdLaws position_cmp.
Proof. unfold position_cmp. apply _. Qed.

Lemma lower_bound_cmp_position a b :
  bound_comparable a -> bound_comparable b ->
  lower_bound_cmp a b = position_cmp (lower_position a) (lower_position b).
Proof.
  destruct a, b; cbn; intros Ca Cb; try done; rewrite version_cmp_full by done;
    unfold cmp_pair; cbn; by destruct (full_cmp _ _).
Qed.

Lemma upper_bound_cmp_position a b :
  bound_comparable a -> bound_comparable b ->
  upper_bound_cmp a b = position_cmp (upper_position a) (upper_position b).
Proof.
  destruct a, b; cbn; intros Ca Cb; try done; rewrite version_cmp_full by done;
    unfold cmp_pair; cbn; by destruct (full_cmp _ _).
Qed.

(** A version satisfies a bound when it lies on the right side of its position. *)
Lemma lower_bound_contains_position b v :
  bound_comparable b -> comparable v ->
  lower_bound_contains b v = true <->
  position_cmp (lower_position b) (Fin (version_make_full v, 0)) <> Gt.
Proof.
  destruct b; cbn; intros Cb Cv; [..|done]; unfold version_le, version_lt, cmp_pair; cbn;
    rewrite version_cmp_full by done; by destruct (full_cmp _ _).
Qed.

Lemma upper_bound_contains_position b v :
  bound_comparable b -> comparable v ->
  upper_bound_contains b v = true <->
  position_cmp (Fin (version_make_full v, 0)) (upper_position b) <> Gt.
Proof.
  destruct b as [u|u|]; cbn; intros Cb Cv; [..|done]; unfold version_ge, version_gt, cmp_pair; cbn;
    rewrite version_cmp_full, (cmp_opp full_cmp (version_make_full u) (version_make_full v)) by done;
    by destruct (full_cmp _ _).
Qed.

(** A smaller lower bound admits more, and so does a larger upper bound. *)
Lemma lower_bound_monotone a b v :
  bound_comparable a -> bound_comparable b -> comparable v ->
  lower_bound_cmp a b <> Gt -> lower_bound_contains b v = true -> lower_bound_contains a v = true.
Proof.
  intros Ca Cb Cv. rewrite lower_bound_cmp_position, !lower_bound_contains_position by done.
  apply (cmp_le_trans position_cmp).
Qed.

Lemma upper_bound_monotone a b v :
  bound_comparable a -> bound_comparable b -> comparable v ->
  upper_bound_cmp a b <> Gt -> upper_bound_contains a v = true -> upper_bound_contains b v = true.
Proof.
  intros Ca Cb Cv. rewrite upper_bound_cmp_position, !upper_bound_contains_position by done.
  intros. by eapply (cmp_le_trans position_cmp).
Qed.
