(* ===== verification/SpecifierParser.v ===== *)
(** * Parsing and printing specifiers

    [FromStr] and [Display] of [VersionSpecifier] and [VersionSpecifiers] in
    [crates/uv-pep440/src/version_specifier.rs]. The text is a list of characters, given by their
    code points; versions are parsed from its UTF-8 bytes. The scanner comes from the [unscanny]
    crate, so it is an interface here. *)

From stdpp Require Import base list option numbers decidable strings.
From Stdlib Require Import ZArith Lia.
From S2P Require Import Prelude Text VersionTypes VersionSmall Version VersionOrder VersionCacheKey.
From S2P Require Import VersionParser VersionParserFacts VersionDisplay.
From S2P Require Import VersionSpecifier.

Local Open Scope Z_scope.

(** ** Characters *)

(** [char::is_whitespace]: the Unicode property [White_Space]. *)
Definition is_whitespace (c : Z) : bool :=
  ((9 <=? c) && (c <=? 13)) || (c =? 0x20) || (c =? 0x85) || (c =? 0xA0) || (c =? 0x1680)
  || ((0x2000 <=? c) && (c <=? 0x200A)) || (c =? 0x2028) || (c =? 0x2029) || (c =? 0x202F)
  || (c =? 0x205F) || (c =? 0x3000).

(** ** The interface of [unscanny::Scanner] *)

Class Scanner : Type := {
  scanner : Type;
  scanner_new : list Z -> scanner;
  (** The text that is left. *)
  scanner_after : scanner -> list Z;
  scanner_done : scanner -> bool;
  (** Consume characters while they match, and return them. *)
  scanner_eat_while : (Z -> bool) -> scanner -> list Z * scanner
}.

Class ScannerLaws `{!Scanner} : Prop := {
  after_new : forall s, scanner_after (scanner_new s) = s;
  done_after : forall sc, scanner_done sc = bool_decide (scanner_after sc = []);
  eat_while_eaten : forall p sc,
    (scanner_eat_while p sc).1 = take_while p (scanner_after sc);
  eat_while_after : forall p sc,
    scanner_after (scanner_eat_while p sc).2 = skip_while p (scanner_after sc)
}.

(** ** Parsing *)

Inductive ParseErrorKind : Type :=
| InvalidOperator (got : list Z)
| InvalidVersion (err : PatternErrorKind)
| InvalidSpecifier (err : BuildErrorKind)
| MissingOperator (version_pattern : option VersionPattern)
| MissingVersion
| InvalidTrailing (trail : list Z).

(** The characters ['=', '!', '~', '<', '>']. *)
Definition is_operator_char (c : Z) : bool :=
  (c =? 61) || (c =? 33) || (c =? 126) || (c =? 60) || (c =? 62).

Section parse.
Context `{!Scanner}.

Definition eat_whitespace (s : scanner) : scanner := (scanner_eat_while is_whitespace s).2.
Definition eat_word (s : scanner) : list Z * scanner :=
  scanner_eat_while (fun c => negb (is_whitespace c)) s.

(** [None] stands for a panic while a version is parsed. *)
Definition specifier_from_str (spec : list Z) :
    option (result VersionSpecifier ParseErrorKind) :=
  let s := scanner_new spec in
  let s := eat_whitespace s in
  let '(operator, s) := scanner_eat_while is_operator_char s in
  match operator with
  | [] =>
      let s := eat_whitespace s in
      let '(version, s) := eat_word s in
      match version_pattern_from_str (utf8 version) with
      | Done p => Some (Err (MissingOperator (Some p)))
      | Failed _ => Some (Err (MissingOperator None))
      | Panicked => None
      end
  | _ :: _ =>
      match operator_from_str operator with
      | Err got => Some (Err (InvalidOperator got))
      | Ok operator =>
          let s := eat_whitespace s in
          let '(version, s) := eat_word s in
          match version with
          | [] => Some (Err MissingVersion)
          | _ :: _ =>
              match version_pattern_from_str (utf8 version) with
              | Panicked => None
              | Failed err => Some (Err (InvalidVersion err))
              | Done vpat =>
                  match specifier_from_pattern operator vpat with
                  | Err err => Some (Err (InvalidSpecifier err))
                  | Ok version_specifier =>
                      let s := eat_whitespace s in
                      if negb (scanner_done s) then Some (Err (InvalidTrailing (scanner_after s)))
                      else Some (Ok version_specifier)
                  end
              end
          end
      end
  end.

(** The error with the span of the specifier that failed, in bytes of the line. *)
Record SpecifiersParseError : Type := mkSpecifiersError {
  error_err : ParseErrorKind;
  error_line : list Z;
  error_start : nat;
  error_end : nat
}.

Fixpoint parse_version_specifiers_loop (spec : list Z) (pieces : list (list Z)) (start : nat)
    (version_ranges : list VersionSpecifier) :
    option (result (list VersionSpecifier) SpecifiersParseError) :=
  match pieces with
  | [] => Some (Ok version_ranges)
  | piece :: pieces' =>
      match specifier_from_str piece with
      | None => None
      | Some (Err err) =>
          Some (Err (mkSpecifiersError err spec start (start + length (utf8 piece))))
      | Some (Ok version_range) =>
          parse_version_specifiers_loop spec pieces' (start + length (utf8 piece) + 1)
            (version_ranges ++ [version_range])
      end
  end.

(** The capacity hint of the vector has no effect on the result. *)
Definition parse_version_specifiers (spec : list Z) :
    option (result (list VersionSpecifier) SpecifiersParseError) :=
  parse_version_specifiers_loop spec (split_char 44 spec) 0 [].

Definition separator_count (s : list Z) : nat := length (filter (fun b => b = 44) (utf8 s)).

Definition specifiers_from_str (s : list Z) :
    option (result VersionSpecifiers SpecifiersParseError) :=
  if (separator_count s =? 0)%nat then
    match s with
    | [] => Some (Ok specifiers_empty)
    | _ :: _ =>
        match specifier_from_str s with
        | None => None
        | Some (Ok specifier) => Some (Ok [specifier])
        | Some (Err err) => Some (Err (mkSpecifiersError err s 0 (length (utf8 s))))
        end
    end
  else
    match parse_version_specifiers s with
    | None => None
    | Some (Ok specifiers) => Some (Ok (specifiers_from_unsorted specifiers))
    | Some (Err err) => Some (Err err)
    end.

End parse.

(** The message of [MissingOperator]: it unwraps a specifier built from the pattern. [None] stands
    for the panic of that [unwrap]; otherwise the suggested specifier, if there is one. *)
Definition operator_build_error_suggestion (version_pattern : option VersionPattern) :
    option (option VersionSpecifier) :=
  match version_pattern with
  | None => Some None
  | Some p => Some <$> unwrap (specifier_from_pattern Equal p)
  end.

(** ** Printing *)

Definition specifier_display (x : VersionSpecifier) : list Z :=
  if operator_is_star (specifier_operator x)
  then operator_as_str (specifier_operator x) ++ version_display (specifier_version x) ++ bytes ".*"
  else operator_as_str (specifier_operator x) ++ version_display (specifier_version x).

Definition specifiers_display (xs : VersionSpecifiers) : list Z :=
  match xs with
  | [] => []
  | x :: xs' => specifier_display x ++ concat ((fun y => bytes ", " ++ specifier_display y) <$> xs')
  end.

(** [Serialize]: the specifiers joined by commas. *)
Definition specifiers_serialize (xs : VersionSpecifiers) : list Z :=
  match xs with
  | [] => []
  | x :: xs' => specifier_display x ++ concat ((fun y => bytes "," ++ specifier_display y) <$> xs')
  end.

(** The scanner over a list of characters. *)
Definition list_scanner : Scanner := {|
  scanner := list Z;
  scanner_new := fun s => s;
  scanner_after := fun s => s;
  scanner_done := fun s => bool_decide (s = []);
  scanner_eat_while := fun p s => (take_while p s, skip_while p s)
|}.

Lemma list_scanner_laws : @ScannerLaws list_scanner.
Proof. by split. Qed.
