(* ===== verification/SpecifierFacts.v ===== *)
(** * Parsed and printed specifiers

    What the parser of specifiers accepts is valid, it never panics, and it reads printed
    specifiers back. *)

From stdpp Require Import base list option numbers decidable strings sorting.
From Stdlib Require Import ZArith Lia.
From S2P Require Import Prelude Text VersionTypes VersionSmall Version VersionOrder VersionCacheKey.
From S2P Require Import VersionParser VersionParserFacts VersionDisplay VersionSpecifier VersionRanges.
From S2P Require Import VersionRangesFacts SpecifierParser.

Local Open Scope Z_scope.

(** ** Scanned text *)

Lemma take_while_Forall_sub {A} (P : A -> Prop) p l : Forall P l -> Forall P (take_while p l).
Proof. induction 1 as [|x l Hx Hl IH]; simpl; [done|]. destruct (p x); by constructor. Qed.

Lemma skip_while_Forall_sub {A} (P : A -> Prop) p l : Forall P l -> Forall P (skip_while p l).
Proof.
  induction 1 as [|x l Hx Hl IH]; simpl; [done|]. destruct (p x); [done|by constructor].
Qed.

(** ** Building specifiers *)

Lemma from_version_valid op v x :
  specifier_from_version op v = Ok x -> version_real v ->
  (operator_is_star op = true ->
   version_pre v = None /\ version_post v = None /\ version_dev v = None) ->
  specifier_valid x.
Proof.
  unfold specifier_from_version. intros E R Hs.
  destruct (version_is_local v && negb (operator_is_local_compatible op)) eqn:El; [done|].
  destruct (bool_decide (op = TildeEqual) && (release_len v <? 2)%nat) eqn:Et; [done|].
  injection E as <-. split; cbn; [done|..|done].
  - intros Hc. rewrite Hc, andb_true_r in El. unfold version_is_local in El.
    apply negb_false_iff in El. by apply local_is_empty_spec in El.
  - intros ->. rewrite bool_decide_eq_true_2 in Et by done.
    cbn [andb] in Et. by apply Nat.ltb_ge in Et.
Qed.

Lemma from_pattern_valid op p x :
  specifier_from_pattern op p = Ok x -> pattern_parsed p -> wildcard_plain p ->
  operator_is_star op = false -> specifier_valid x.
Proof.
  unfold specifier_from_pattern. intros E [R _] Hw Hs. destruct (pattern_wildcard p) eqn:W.
  - destruct (Hw W) as (? & ? & ? & _). destruct (operator_to_star op); [|done].
    by eapply from_version_valid.
  - eapply from_version_valid; [done|done|]. by rewrite Hs.
Qed.

(** The specifier that the error message suggests can always be built. *)
Lemma suggestion_builds p :
  pattern_parsed p -> wildcard_plain p -> exists x, specifier_from_pattern Equal p = Ok x.
Proof.
  intros _ Hw. unfold specifier_from_pattern. destruct (pattern_wildcard p) eqn:W; cbn.
  - destruct (Hw W) as (_ & _ & _ & El). unfold specifier_from_version, version_is_local.
    rewrite El. by eexists.
  - unfold specifier_from_version. rewrite andb_false_r. by eexists.
Qed.

Lemma operator_from_str_base s op : operator_from_str s = Ok op -> operator_is_star op = false.
Proof. unfold operator_from_str. intros E. repeat case_bool_decide; by simplify_eq. Qed.

Lemma pattern_from_str_spec s :
  Forall is_u8 s ->
  match version_pattern_from_str s with
  | Done p => pattern_parsed p /\ wildcard_plain p
  | Failed _ => True
  | Panicked => False
  end.
Proof.
  intros Hs. pose proof (version_pattern_from_str_returns s Hs) as H1.
  pose proof (parse_pattern_slow_plain s Hs) as H2. unfold version_pattern_from_str in *.
  rewrite (parse_pattern_is_slow s Hs) in *. by destruct (parse_pattern_slow _).
Qed.

(** ** Parsing *)

Section parse.
Context `{!Scanner, !ScannerLaws}.

Lemma eat_whitespace_after s :
  scanner_after (eat_whitespace s) = skip_while is_whitespace (scanner_after s).
Proof. apply eat_while_after. Qed.

Lemma specifier_from_str_spec spec :
  Forall is_char spec ->
  match specifier_from_str spec with
  | None => False
  | Some (Ok x) => specifier_valid x
  | Some (Err (MissingOperator p)) => exists x, operator_build_error_suggestion p = Some x
  | Some (Err _) => True
  end.
Proof.
  intros Hs. unfold specifier_from_str.
  set (s1 := eat_whitespace (scanner_new spec)).
  assert (Forall is_char (scanner_after s1)) as H1.
  { unfold s1. rewrite eat_whitespace_after, after_new. by apply skip_while_Forall_sub. }
  pose proof (eat_while_after is_operator_char s1) as A2.
  destruct (scanner_eat_while is_operator_char s1) as [op s2]. cbn [snd] in A2.
  assert (Forall is_char (scanner_after s2)) as H2
    by (rewrite A2; by apply skip_while_Forall_sub).
  set (s3 := eat_whitespace s2).
  assert (Forall is_char (scanner_after s3)) as H3.
  { unfold s3. rewrite eat_whitespace_after. by apply skip_while_Forall_sub. }
  pose proof (eat_while_eaten (fun c => negb (is_whitespace c)) s3) as A4.
  unfold eat_word. destruct (scanner_eat_while _ s3) as [version s4]. cbn [fst] in A4.
  assert (Forall is_u8 (utf8 version)) as H4
    by (apply utf8_bytes; rewrite A4; by apply take_while_Forall_sub).
  pose proof (pattern_from_str_spec _ H4) as P.
  destruct op as [|c op].
  { destruct (version_pattern_from_str _) as [p|err|]; [|by exists None|done]. destruct P as [P1 P2].
    cbn. destruct (suggestion_builds p P1 P2) as [x ->]. by eexists. }
  destruct (operator_from_str _) as [o|] eqn:Eo; [|done]. apply operator_from_str_base in Eo.
  destruct version as [|b version]; [done|].
  destruct (version_pattern_from_str _) as [p|err|]; [|done|done]. destruct P as [P1 P2].
  destruct (specifier_from_pattern o p) as [x|] eqn:Ex; [|done].
  destruct (negb _); [done|]. by eapply from_pattern_valid.
Qed.

End parse.

(** ** Printing and parsing back *)

Lemma skip_while_stops (p : Z -> bool) l k :
  Forall (fun b => p b = true) l -> stops p k -> skip_while p (l ++ k) = k.
Proof.
  induction 1 as [|b l Hb Hl IH]; intros Hk; simpl.
  - destruct k as [|b k]; simpl in *; [done|by rewrite Hk].
  - by rewrite Hb, IH.
Qed.

(** The operator that is printed, and whether a wildcard is. *)
Definition base_operator (op : Operator) : Operator :=
  match op with EqualStar => Equal | NotEqualStar => NotEqual | _ => op end.

Lemma operator_roundtrip op :
  operator_as_str op <> [] /\ operator_from_str (operator_as_str op) = Ok (base_operator op) /\
  Forall (fun c => is_operator_char c = true) (operator_as_str op).
Proof. split_and!; destruct op; done || by repeat constructor. Qed.

(** The characters of a version are neither whitespace nor commas, and ASCII. *)
Lemma version_char_plain c :
  version_char c = true -> is_whitespace c = false /\ is_ascii c /\ c <> 44.
Proof.
  unfold version_char, is_ascii_digit, is_ascii_lowercase, is_whitespace, is_ascii.
  rewrite !orb_true_iff, !andb_true_iff, !Z.leb_le, !Z.eqb_eq. intros H. split; [|lia].
  repeat (apply orb_false_iff; split); rewrite ?andb_false_iff, ?Z.leb_gt, ?Z.eqb_neq; lia.
Qed.

Lemma star_char_plain c :
  c = 46 \/ c = 42 -> is_whitespace c = false /\ is_ascii c /\ c <> 44.
Proof. by intros [->| ->]. Qed.

(** The version part of a printed specifier. *)
Definition version_part (x : VersionSpecifier) : list Z :=
  version_display (specifier_version x)
  ++ (if operator_is_star (specifier_operator x) then bytes ".*" else []).

Lemma specifier_display_parts x :
  specifier_display x = operator_as_str (specifier_operator x) ++ version_part x.
Proof. unfold specifier_display, version_part. destruct (operator_is_star _); by rewrite ?app_nil_r. Qed.

Lemma version_part_plain x :
  version_parsed (specifier_version x) ->
  Forall (fun c => is_whitespace c = false /\ is_ascii c /\ c <> 44) (version_part x).
Proof.
  intros HP. apply Forall_app. split.
  - eapply Forall_impl; [by apply version_display_chars|]. apply version_char_plain.
  - destruct (operator_is_star _); [|constructor].
    repeat constructor; by apply star_char_plain; (left + right).
Qed.

Lemma version_part_head x :
  version_parsed (specifier_version x) ->
  exists b l, version_part x = b :: l /\ is_digit b.
Proof.
  intros HP. destruct (version_display_head _ HP) as (b & l & E & Hb).
  unfold version_part. rewrite E. by eexists _, _.
Qed.

Lemma version_part_parse x :
  specifier_valid x -> version_parsed (specifier_version x) ->
  exists w, version_pattern_from_str (version_part x) =
      Done (mkPattern w (operator_is_star (specifier_operator x))) /\
    version_real w /\ version_make_full w = version_make_full (specifier_version x).
Proof.
  intros V HP. unfold version_part. destruct (operator_is_star (specifier_operator x)) eqn:S.
  - destruct (valid_star x V S) as (? & ? & ?). apply display_parse_wildcard; try done.
    apply (valid_local x V). by destruct (specifier_operator x).
  - rewrite app_nil_r. by apply display_parse_pattern.
Qed.

(** Building from a version with the same fields gives the same specifier. *)
Lemma from_pattern_same x w :
  specifier_valid x -> version_make_full w = version_make_full (specifier_version x) ->
  specifier_from_pattern (base_operator (specifier_operator x))
    (mkPattern w (operator_is_star (specifier_operator x))) =
  Ok (mkSpecifier (specifier_operator x) w).
Proof.
  intros V E.
  assert (specifier_from_version (specifier_operator x) w = Ok (mkSpecifier (specifier_operator x) w))
    as H.
  { unfold specifier_from_version, version_is_local, release_len. rewrite local_full, release_full, E.
    rewrite <- local_full, <- release_full.
    assert (negb (local_is_empty (version_local (specifier_version x)))
      && negb (operator_is_local_compatible (specifier_operator x)) = false) as ->.
    { destruct (operator_is_local_compatible _) eqn:C; [by rewrite andb_false_r|].
      by rewrite (valid_local x V C). }
    case_bool_decide as Ht; [|done]. pose proof (valid_tilde x V Ht) as Hl. unfold release_len in Hl.
    destruct (Nat.ltb_spec (length (version_release (specifier_version x))) 2); [lia|done]. }
  unfold specifier_from_pattern. cbn [pattern_wildcard pattern_version].
  destruct (specifier_operator x); exact H.
Qed.

Section roundtrip.
Context `{!Scanner, !ScannerLaws}.

Lemma specifier_display_parse x ws :
  specifier_valid x -> version_parsed (specifier_version x) ->
  Forall (fun c => is_whitespace c = true) ws ->
  exists w, specifier_from_str (ws ++ specifier_display x) =
      Some (Ok (mkSpecifier (specifier_operator x) w)) /\
    version_real w /\ version_make_full w = version_make_full (specifier_version x).
Proof.
  intros V HP Hws. destruct (version_part_parse x V HP) as (w & Ep & Rw & Ew).
  exists w. split; [|done]. pose proof (from_pattern_same x w V Ew) as Eb.
  destruct (operator_roundtrip (specifier_operator x)) as (One & Oeq & Ofa).
  pose proof (version_part_plain x HP) as Hpl.
  destruct (version_part_head x HP) as (b & l & Eh & Hb).
  destruct (digit_plain b Hb) as [_ _].
  assert (is_whitespace b = false /\ is_operator_char b = false) as [Wb Ob].
  { apply digit_values in Hb. repeat destruct Hb as [->|Hb]; [done..|by subst b]. }
  rewrite specifier_display_parts. unfold specifier_from_str.
  set (s1 := eat_whitespace (scanner_new _)).
  assert (scanner_after s1 = operator_as_str (specifier_operator x) ++ version_part x) as A1.
  { unfold s1. rewrite eat_whitespace_after, after_new. apply skip_while_stops; [done|].
    by destruct (specifier_operator x). }
  pose proof (eat_while_eaten is_operator_char s1) as B2.
  pose proof (eat_while_after is_operator_char s1) as A2.
  rewrite A1 in A2, B2. rewrite skip_while_stops in A2 by (done || by rewrite Eh).
  rewrite take_while_stops in B2 by (done || by rewrite Eh).
  destruct (scanner_eat_while is_operator_char s1) as [op s2]. cbn [fst snd] in A2, B2. subst op.
  destruct (operator_as_str (specifier_operator x)) as [|c k] eqn:Eo; [done|]. rewrite Oeq.
  set (s3 := eat_whitespace s2).
  assert (scanner_after s3 = version_part x) as A3.
  { unfold s3. rewrite eat_whitespace_after, A2, Eh. simpl. by rewrite Wb. }
  assert (Forall (fun c => negb (is_whitespace c) = true) (version_part x)) as Hnw
    by (eapply Forall_impl; [exact Hpl|]; by intros ? [-> _]).
  pose proof (eat_while_eaten (fun c => negb (is_whitespace c)) s3) as B4.
  pose proof (eat_while_after (fun c => negb (is_whitespace c)) s3) as A4.
  rewrite A3 in A4, B4. rewrite <- (app_nil_r (version_part x)) in A4, B4.
  rewrite skip_while_stops in A4 by done. rewrite take_while_stops in B4 by done.
  unfold eat_word. destruct (scanner_eat_while _ s3) as [vs s4]. cbn [fst snd] in A4, B4. subst vs.
  destruct (version_part x) as [|b' l'] eqn:Ev; [done|]. rewrite <- Ev in *.
  rewrite utf8_ascii by (eapply Forall_impl; [exact Hpl|]; by intros ? (_ & ? & _)).
  rewrite Ep, Eb, done_after, eat_whitespace_after, A4. done.
Qed.

End roundtrip.

(** * Sorted lists of specifiers

    [VersionSpecifiers::from_unsorted] keeps what a list of specifiers contains, and the order in
    which the specifiers were written does not matter for the result; a printed list is read back. *)

(** ** Specifiers *)

(** What a specifier is sorted by. *)
Definition sort_key (x : VersionSpecifier) : ((Z * list Z) * (Key * LocalVersion)) * Z :=
  let f := version_make_full (specifier_version x) in
  (((full_epoch f, strip_zeros (full_release f)), (full_key f, full_local f)),
   operator_rank (specifier_operator x)).

Definition sort_key_cmp :
    ((Z * list Z) * (Key * LocalVersion)) * Z -> ((Z * list Z) * (Key * LocalVersion)) * Z ->
    comparison :=
  cmp_pair (cmp_pair (cmp_pair Z.compare (cmp_list Z.compare)) (cmp_pair key_cmp local_slice_cmp))
    Z.compare.

#[export] Instance ord_sort_key : OrdLaws sort_key_cmp.
Proof. unfold sort_key_cmp. apply _. Qed.

#[export] Instance ord_exact_sort_key : OrdExact sort_key_cmp.
Proof. unfold sort_key_cmp, key_cmp. apply _. Qed.

Definition specifier_comparable (x : VersionSpecifier) : Prop := comparable (specifier_version x).

Lemma sort_cmp_key x y :
  specifier_comparable x -> specifier_comparable y ->
  specifier_sort_cmp x y = sort_key_cmp (sort_key x) (sort_key y).
Proof.
  intros Cx Cy. unfold specifier_sort_cmp, operator_cmp. rewrite version_cmp_full by done. done.
Qed.

(** Equal keys: the same operator, and versions that compare equal. *)
Lemma sort_key_eq x y :
  specifier_comparable x -> specifier_comparable y -> sort_key x = sort_key y ->
  specifier_operator x = specifier_operator y /\
  version_eq (specifier_version x) (specifier_version y) = true.
Proof.
  intros Cx Cy E. pose proof (sort_cmp_key x y Cx Cy) as S.
  rewrite E, (cmp_refl sort_key_cmp) in S. unfold specifier_sort_cmp in S.
  unfold version_eq.
  destruct (version_cmp _ _); [|done..]. cbn in S. split; [|done].
  unfold operator_cmp in S. apply Z.compare_eq_iff in S.
  by destruct (specifier_operator x), (specifier_operator y).
Qed.

Lemma from_unsorted_unique xs ys :
  Forall specifier_comparable xs -> xs ≡ₚ ys ->
  Forall2 (fun x y => specifier_operator x = specifier_operator y /\
      version_eq (specifier_version x) (specifier_version y) = true)
    (specifiers_from_unsorted xs) (specifiers_from_unsorted ys).
Proof.
  intros Hxs E. unfold specifiers_from_unsorted.
  pose proof (sort_by_unique specifier_sort_cmp sort_key sort_key_cmp specifier_comparable
    sort_cmp_key xs ys Hxs E) as K.
  assert (Forall specifier_comparable (sort_by specifier_sort_cmp xs)) as F1
    by (by rewrite sort_by_perm).
  assert (Forall specifier_comparable (sort_by specifier_sort_cmp ys)) as F2
    by (by rewrite sort_by_perm, <- E).
  revert K F1 F2. generalize (sort_by specifier_sort_cmp xs), (sort_by specifier_sort_cmp ys).
  induction l as [|x l IH]; intros [|y l']; [by constructor|done|done|].
  rewrite !fmap_cons. intros [= K1 K2 K3 K4 K5 K]. intros [? F1]%Forall_cons [? F2]%Forall_cons.
  constructor; [|by apply IH]. apply sort_key_eq; [done..|]. unfold sort_key. congruence.
Qed.

(** ** Equality, order and hash of specifiers agree *)

Lemma operator_cmp_eq x y : operator_cmp x y = Eq <-> x = y.
Proof.
  unfold operator_cmp. rewrite Z.compare_eq_iff. split; [|by intros ->]. by destruct x, y.
Qed.

Lemma specifier_eq_cmp x y : specifier_eq x y = true <-> specifier_cmp x y = Eq.
Proof.
  unfold specifier_eq, specifier_cmp. case_bool_decide as Eo; cbn [negb].
  - rewrite (proj2 (operator_cmp_eq _ _) Eo). cbn [then_with]. unfold version_eq.
    case_bool_decide; cbn [andb]; [|by destruct (version_cmp _ _)].
    destruct (Nat.eqb_spec (release_len (specifier_version x)) (release_len (specifier_version y))) as [->|N];
      cbn [negb]; [rewrite Nat.compare_refl; by destruct (version_cmp _ _)|].
    split; [done|]. destruct (version_cmp _ _); cbn; [|done..]. by intros ?%Nat.compare_eq_iff.
  - split; [done|]. destruct (operator_cmp _ _) eqn:C; cbn; [|done..]. by apply operator_cmp_eq in C.
Qed.

Lemma specifier_eq_hash x y :
  version_real (specifier_version x) -> version_real (specifier_version y) ->
  specifier_eq x y = true -> specifier_hash x = specifier_hash y.
Proof.
  intros Rx Ry. unfold specifier_eq, specifier_hash. case_bool_decide as Eo; [|done]. cbn [negb].
  rewrite <- Eo. case_bool_decide; cbn [andb].
  - destruct (Nat.eqb_spec (release_len (specifier_version x)) (release_len (specifier_version y))) as [->|N];
      [|done]. cbn [negb]. intros E. by rewrite (version_eq_hash _ _ Rx Ry E).
  - intros E. by rewrite (version_eq_hash _ _ Rx Ry E).
Qed.

(** A list of valid specifiers contains a version when each of them does. *)
Definition matches (x : VersionSpecifier) (w : Version) : bool :=
  default false (specifier_contains x w).

Lemma contains_total x w :
  specifier_valid x -> exists b, specifier_contains x w = Some b.
Proof.
  intros V. unfold specifier_contains. destruct (specifier_operator x) eqn:E; try by eexists.
  - pose proof (valid_tilde x V E) as H. unfold release_len in H.
    destruct (Nat.ltb_spec 1 (length (version_release (specifier_version x)))); [|lia].
    repeat case_match; by eexists.
  - repeat case_match; by eexists.
  - repeat case_match; by eexists.
Qed.

Lemma specifiers_contains_forallb xs w :
  Forall specifier_valid xs ->
  specifiers_contains xs w = Some (forallb (fun x => matches x w) xs).
Proof.
  induction 1 as [|x xs Hx Hxs IH]; [done|]. cbn [specifiers_contains foldr forallb].
  destruct (contains_total x w Hx) as [b E]. unfold matches. rewrite E. cbn.
  destruct b; [exact IH|done].
Qed.

Lemma forallb_perm {A} (p : A -> bool) l l' : l ≡ₚ l' -> forallb p l = forallb p l'.
Proof.
  induction 1; simpl; [done|by f_equal|by rewrite !andb_assoc, (andb_comm (p y))|congruence].
Qed.

(** Sorting does not change what is contained. *)
Lemma from_unsorted_contains xs w :
  Forall specifier_valid xs ->
  specifiers_contains (specifiers_from_unsorted xs) w = specifiers_contains xs w.
Proof.
  intros V. unfold specifiers_from_unsorted.
  rewrite !specifiers_contains_forallb by (done || by rewrite sort_by_perm).
  f_equal. apply forallb_perm, sort_by_perm.
Qed.

(** ** Printed lists *)

Lemma operator_str_plain op :
  Forall (fun c => is_ascii c /\ c <> 44) (operator_as_str op).
Proof.
  destruct op;
    match goal with |- Forall _ ?l => let l' := eval vm_compute in l in change l with l' end;
    repeat (apply Forall_cons; split; [unfold is_ascii; lia|]); constructor.
Qed.

Lemma specifier_display_plain x :
  version_parsed (specifier_version x) ->
  Forall (fun c => is_ascii c /\ c <> 44) (specifier_display x).
Proof.
  intros HP. rewrite specifier_display_parts. apply Forall_app. split; [apply operator_str_plain|].
  eapply Forall_impl; [by apply version_part_plain|]. by intros c (_ & ? & ?).
Qed.

Lemma no_comma x :
  version_parsed (specifier_version x) -> 44 ∉ specifier_display x.
Proof. intros HP%specifier_display_plain Hin. rewrite Forall_forall in HP. by destruct (HP _ Hin). Qed.

(** The pieces between the commas. *)
Lemma specifiers_display_split x xs :
  version_parsed (specifier_version x) ->
  Forall (fun y => version_parsed (specifier_version y)) xs ->
  split_char 44 (specifiers_display (x :: xs)) =
    specifier_display x :: ((fun y => 32 :: specifier_display y) <$> xs).
Proof.
  intros Hx Hxs. cbn [specifiers_display].
  assert (forall p, 44 ∉ p ->
    split_char 44 (p ++ concat ((fun y => bytes ", " ++ specifier_display y) <$> xs)) =
    p :: ((fun y => 32 :: specifier_display y) <$> xs)) as H; [|by apply H, no_comma].
  induction Hxs as [|y xs Hy Hxs IH]; intros p Hp.
  - cbn. rewrite app_nil_r. by apply split_char_none.
  - rewrite !fmap_cons. cbn [concat]. change (bytes ", ") with [44; 32]. cbn [app].
    rewrite split_char_cons by done. f_equal.
    apply (IH (32 :: specifier_display y)). apply not_elem_of_cons. split; [done|by apply no_comma].
Qed.

(** Specifiers with the same operator and versions with the same fields. *)
Definition same_specifier (x y : VersionSpecifier) : Prop :=
  specifier_operator x = specifier_operator y /\ version_real (specifier_version y) /\
  version_make_full (specifier_version y) = version_make_full (specifier_version x).

Definition printable (x : VersionSpecifier) : Prop :=
  specifier_valid x /\ version_parsed (specifier_version x).

Section roundtrip.
Context `{!Scanner, !ScannerLaws}.

Lemma specifier_parse_same x ws :
  printable x -> Forall (fun c => is_whitespace c = true) ws ->
  exists y, specifier_from_str (ws ++ specifier_display x) = Some (Ok y) /\ same_specifier x y.
Proof.
  intros [V HP] Hws. destruct (specifier_display_parse x ws V HP Hws) as (w & E & R & Ew).
  eexists. split; [exact E|]. done.
Qed.

Lemma parse_loop_same spec xs start acc :
  Forall printable xs ->
  exists ys, parse_version_specifiers_loop spec ((fun y => 32 :: specifier_display y) <$> xs) start acc
      = Some (Ok (acc ++ ys)) /\ Forall2 same_specifier xs ys.
Proof.
  intros HP. revert start acc. induction HP as [|x xs Hx Hxs IH]; intros start acc.
  - exists []. rewrite app_nil_r. by split; [|constructor].
  - rewrite fmap_cons. cbn [parse_version_specifiers_loop].
    destruct (specifier_parse_same x [32] Hx) as (y & E & S); [by repeat constructor|].
    change ([32] ++ specifier_display x) with (32 :: specifier_display x) in E. rewrite E.
    destruct (IH (start + length (utf8 (32%Z :: specifier_display x)) + 1)%nat (acc ++ [y]))
      as (ys & -> & Hys).
    exists (y :: ys). rewrite <- app_assoc. by split; [|constructor].
Qed.

Lemma same_keys xs ys : Forall2 same_specifier xs ys -> sort_key <$> ys = sort_key <$> xs.
Proof.
  induction 1 as [|x y xs ys (Eo & _ & Ef) _ IH]; [done|]. rewrite !fmap_cons, IH.
  f_equal. unfold sort_key. by rewrite Eo, Ef.
Qed.

Lemma same_comparable xs ys : Forall2 same_specifier xs ys -> Forall specifier_comparable ys.
Proof.
  induction 1 as [|x y xs ys (_ & R & _) _ IH]; constructor; [|done]. by apply real_comparable.
Qed.

(** One specifier: there is no comma, and the text is parsed as it is. *)
Lemma specifiers_parse_one x :
  printable x ->
  exists y, specifiers_from_str (specifier_display x) = Some (Ok [y]) /\ same_specifier x y.
Proof.
  intros Hx. destruct (specifier_parse_same x [] Hx) as (y & E & Hy); [constructor|].
  cbn [app] in E. exists y. split; [|done]. unfold specifiers_from_str, separator_count.
  pose proof (specifier_display_plain x (proj2 Hx)) as Hpl.
  rewrite utf8_ascii by (eapply Forall_impl; [exact Hpl|]; by intros c []).
  assert (filter (fun b => b = 44) (specifier_display x) = []) as ->.
  { clear -Hpl. induction Hpl as [|c l [_ Hc] Hl IH]; [done|]. by rewrite filter_cons_False. }
  cbn [length Nat.eqb]. rewrite E. destruct (specifier_display x) eqn:D; [|done].
  rewrite specifier_display_parts in D. apply app_nil in D as [D _].
  by destruct (operator_roundtrip (specifier_operator x)).
Qed.

Lemma separator_count_many x y xs :
  (separator_count (specifiers_display (x :: y :: xs)) =? 0)%nat = false.
Proof.
  apply Nat.eqb_neq. intros C%length_zero_iff_nil. unfold separator_count in C.
  assert (44 ∈ utf8 (specifiers_display (x :: y :: xs))) as Hin.
  { cbn [specifiers_display]. rewrite fmap_cons. cbn [concat]. unfold utf8.
    apply list_elem_of_bind. exists 44. split; [by left|].
    apply elem_of_app. right. apply elem_of_app. left. left. }
  assert (44 ∈ filter (fun b => b = 44) (utf8 (specifiers_display (x :: y :: xs)))) as Hf
    by (by apply list_elem_of_filter).
  rewrite C in Hf. by apply not_elem_of_nil in Hf.
Qed.

(** A sorted list of specifiers is read back from its printed form. *)
Lemma specifiers_display_parse xs :
  Forall printable xs -> keys_sorted sort_key sort_key_cmp xs ->
  exists ys, specifiers_from_str (specifiers_display xs) = Some (Ok ys) /\
    Forall2 same_specifier xs ys.
Proof.
  intros HP HS. destruct HP as [|x [|x' xs] Hx Hxs].
  { exists []. by split; [|constructor]. }
  { destruct (specifiers_parse_one x Hx) as (y & E & Hy). exists [y].
    cbn [specifiers_display fmap list_fmap concat]. rewrite app_nil_r.
    split; [done|]. constructor; [done|constructor]. }
  assert (Forall (fun y => version_parsed (specifier_version y)) (x' :: xs)) as Hv
    by (eapply Forall_impl; [exact Hxs|]; by intros y []).
  unfold specifiers_from_str. rewrite separator_count_many.
  unfold parse_version_specifiers. rewrite specifiers_display_split by (apply Hx || done).
  cbn [parse_version_specifiers_loop].
  destruct (specifier_parse_same x [] Hx) as (y & E & Hy); [constructor|]. cbn [app] in E. rewrite E.
  cbn [app]. destruct (parse_loop_same (specifiers_display (x :: x' :: xs)) (x' :: xs)
    (0 + length (utf8 (specifier_display x)) + 1)%nat [y] Hxs) as (ys & -> & Hys).
  assert (Forall2 same_specifier (x :: x' :: xs) (y :: ys)) as HF by (by constructor).
  exists (y :: ys). split; [|done]. do 2 f_equal. unfold specifiers_from_unsorted.
  apply (sort_by_id _ sort_key sort_key_cmp specifier_comparable sort_cmp_key).
  - by eapply same_comparable.
  - unfold keys_sorted. by rewrite (same_keys _ _ HF).
Qed.

End roundtrip.
