(* ===== verification/SpecifierBounds.v ===== *)
(** * Specifiers from bounds

    [from_release_only_bounds] of [VersionSpecifier] and [VersionSpecifiers], and the bounding
    specifiers of [TildeVersionSpecifier], in [crates/uv-pep440/src/version_specifier.rs]: the
    specifiers describe the bounds they were made from, on versions that are a release. *)

From stdpp Require Import base list option numbers decidable.
From Stdlib Require Import ZArith Lia.
From S2P Require Import Prelude VersionTypes VersionSmall Version VersionOrder.
From S2P Require Import VersionCacheKey VersionParser VersionSpecifier VersionRanges.
From S2P Require Import VersionRangesFacts ReleaseRanges SpecifierFacts.

Local Open Scope Z_scope.

(** ** One range *)

(** The versions of a bound are releases. *)
Definition bound_release (b : Bound) : Prop :=
  match b with
  | Included v | Excluded v => release_version v
  | Unbounded => True
  end.

Lemma release_valid op v :
  release_version v -> (op = TildeEqual -> (2 <= release_len v)%nat) ->
  specifier_valid (mkSpecifier op v).
Proof.
  intros Hv Ht. destruct (release_fields v Hv) as (_ & ? & ? & ? & ?).
  split; cbn; [apply Hv|done|done|done].
Qed.

Lemma from_version_release op v :
  release_version v -> op <> TildeEqual ->
  specifier_from_version op v = Ok (mkSpecifier op v).
Proof.
  intros Hv Ht. destruct (release_fields v Hv) as (_ & _ & _ & _ & El).
  unfold specifier_from_version, version_is_local. rewrite El. cbn.
  by rewrite bool_decide_eq_false_2.
Qed.

Section bounds.
Context (w : Version) (Hw : release_version w).
Notation rw := (version_release w).

Lemma release_u64 v : release_version v -> Forall is_u64 (version_release v).
Proof. intros Hv. by apply numbers_u64, release_numbers. Qed.

Lemma release_cmp v :
  release_version v -> version_cmp w v = compare_release rw (version_release v) /\
    version_cmp v w = CompOpp (compare_release rw (version_release v)).
Proof.
  intros Hv. pose proof (release_stands v Hv) as Sv. pose proof (release_stands w Hw) as Sw.
  rewrite (stands_cmp w v _ _ Sw Sv), (stands_cmp v w _ _ Sv Sw).
  rewrite !full_cmp_releases by (by apply release_u64). split; [done|]. apply (cmp_opp compare_release).
Qed.

Lemma release_eq v1 v2 :
  release_version v1 -> release_version v2 -> version_eq v1 v2 = true ->
  compare_release rw (version_release v1) = compare_release rw (version_release v2).
Proof.
  intros H1 H2 E. apply version_eq_true in E.
  rewrite (stands_cmp _ _ _ _ (release_stands v1 H1) (release_stands v2 H2)),
    full_cmp_releases in E by (by apply release_u64).
  by apply (cmp_eq_r compare_release).
Qed.

(** The specifiers a bound is turned into. *)
Lemma matches_order v :
  release_version v ->
  matches (mkSpecifier Equal v) w = is_eq (compare_release rw (version_release v)) /\
  matches (mkSpecifier NotEqual v) w = negb (is_eq (compare_release rw (version_release v))) /\
  matches (mkSpecifier GreaterThanEqual v) w = negb (is_lt (compare_release rw (version_release v))) /\
  matches (mkSpecifier GreaterThan v) w = is_gt (compare_release rw (version_release v)) /\
  matches (mkSpecifier LessThanEqual v) w = negb (is_gt (compare_release rw (version_release v))) /\
  matches (mkSpecifier LessThan v) w = is_lt (compare_release rw (version_release v)).
Proof.
  intros Hv. destruct (release_cmp v Hv) as [C1 C2]. destruct (not_special w Hw) as [Np Nq].
  destruct (release_fields v Hv) as (Ev & _), (release_fields w Hw) as (Ew & _).
  unfold matches, specifier_contains. cbn [specifier_operator specifier_version].
  fold (candidate v w). rewrite (candidate_self v w Hw), Np, Nq, Ev, Ew, !andb_false_r. cbn [Z.ltb Z.compare].
  unfold version_eq, version_ge, version_gt, version_le, version_lt. rewrite C1, C2.
  split_and!; by destruct (compare_release rw _).
Qed.

Lemma matches_star v :
  release_version v ->
  matches (mkSpecifier EqualStar v) w = release_prefix (version_release v) rw /\
  matches (mkSpecifier NotEqualStar v) w = negb (release_prefix (version_release v) rw).
Proof.
  intros Hv. destruct (release_fields v Hv) as (Ev & _), (release_fields w Hw) as (Ew & _).
  unfold matches, specifier_contains. cbn [specifier_operator specifier_version].
  fold (candidate v w). by rewrite (candidate_self v w Hw), Ev, Ew.
Qed.

Lemma above_release b :
  bound_release b ->
  above b w = match b with
    | Included v => negb (is_lt (compare_release rw (version_release v)))
    | Excluded v => is_gt (compare_release rw (version_release v))
    | Unbounded => true
    end.
Proof.
  destruct b as [v|v|]; cbn; [..|done]; intros Hv; destruct (release_cmp v Hv) as [_ C];
    unfold version_le, version_lt; rewrite C; by destruct (compare_release rw _).
Qed.

Lemma below_release b :
  bound_release b ->
  below b w = match b with
    | Included v => negb (is_gt (compare_release rw (version_release v)))
    | Excluded v => is_lt (compare_release rw (version_release v))
    | Unbounded => true
    end.
Proof.
  destruct b as [v|v|]; cbn; [..|done]; intros Hv; destruct (release_cmp v Hv) as [C _];
    unfold version_le, version_lt; rewrite C; by destruct (compare_release rw _).
Qed.

(** What a list of specifiers says of [w]: the list is valid, and [w] matches it when [b]. *)
Definition describes (xs : list VersionSpecifier) (b : bool) : Prop :=
  Forall specifier_valid xs /\ forallb (fun x => matches x w) xs = b.

Lemma bound_pair_spec lower upper :
  bound_release lower -> bound_release upper ->
  exists xs, bound_pair lower upper = Some xs /\ describes xs (above lower w && below upper w).
Proof.
  intros Hl Hu. rewrite (above_release _ Hl), (below_release _ Hu). unfold bound_pair.
  assert (forall v, release_version v -> specifier_valid (mkSpecifier GreaterThanEqual v) /\
    specifier_valid (mkSpecifier GreaterThan v) /\ specifier_valid (mkSpecifier LessThanEqual v) /\
    specifier_valid (mkSpecifier LessThan v)) as HV
    by (intros v Hv; split_and!; by apply release_valid).
  destruct lower as [v1|v1|], upper as [v2|v2|]; cbn [bound_release] in *;
    unfold from_lower_bound, from_upper_bound;
    rewrite ?from_version_release by done; eexists; (split; [reflexivity|]);
    unfold describes, specifier_chain, option_list; cbn [option_rect app forallb].
  all: try (destruct (matches_order v1 Hl) as (_ & _ & M1 & M2 & _); rewrite ?M1, ?M2);
    try (destruct (matches_order v2 Hu) as (_ & _ & _ & _ & M3 & M4); rewrite ?M3, ?M4).
  all: try (specialize (HV v1 Hl) as V1); try (specialize (HV v2 Hu) as V2).
  all: rewrite ?andb_true_r; split; [|done];
    repeat apply Forall_cons_2; try apply Forall_nil_2; (apply V1 || apply V2).
Qed.

(** A version trimmed to its release numbers. *)
Lemma trimmed_release v :
  release_version v ->
  exists t, version_only_release_trimmed v = Some t /\ Forall is_number (version_release t) /\
    strip_zeros (version_release t) = strip_zeros (version_release v).
Proof.
  intros Hv. destruct (only_release_trimmed_spec v (proj1 (proj1 Hv))) as (t & E & _ & Et).
  exists t. split; [done|]. rewrite (release_full t), Et. cbn. split; [|apply strip_trimmed].
  pose proof (strip_zeros_Forall _ _ (release_numbers v Hv)) as H.
  destruct (strip_zeros _); [by repeat constructor|done].
Qed.

Lemma new_release ns v :
  Forall is_number ns -> version_new ns = Some v -> release_version v /\ version_release v = ns.
Proof.
  intros Hn E. pose proof (new_spec ns (numbers_u64 _ Hn)) as H. rewrite E in H.
  destruct H as (Hne & W & Ef). assert (version_release v = ns) as Er by (by rewrite release_full, Ef).
  split; [|done]. split; [|by rewrite Er, Ef]. split; [done|]. rewrite Ef. split; cbn; try done.
  induction Hn as [|n ns Hx Hn IH]; constructor; [apply Hx|]. clear -Hn.
  induction Hn; constructor; [apply H|done].
Qed.

Lemma new_release_Some ns :
  Forall is_number ns -> ns <> [] ->
  exists v, version_new ns = Some v /\ release_version v /\ version_release v = ns.
Proof.
  intros Hn Hne. destruct (new_Some ns (numbers_u64 _ Hn) Hne) as (v & E & _).
  exists v. split; [done|]. by apply new_release.
Qed.

Lemma compare_release_stripped a b c :
  Forall is_u64 a -> Forall is_u64 b -> Forall is_u64 c -> strip_zeros b = strip_zeros c ->
  compare_release a b = compare_release a c.
Proof. intros Ha Hb Hc E. rewrite !compare_release_strip by done. by rewrite E. Qed.

(** A range that is exactly the releases with a prefix. *)
Lemma star_range ns v1 v2 :
  Forall is_number ns -> ns <> [] -> release_version v1 -> release_version v2 ->
  strip_zeros (version_release v1) = strip_zeros ns ->
  strip_zeros (version_release v2) = strip_zeros (succ_last ns) ->
  exists v, version_new ns = Some v /\
    describes [equals_star_version v] (above (Included v1) w && below (Excluded v2) w).
Proof.
  intros Hn Hne H1 H2 E1 E2. destruct (new_release_Some ns Hn Hne) as (v & E & Hv & Er).
  exists v. split; [done|]. split.
  { constructor; [by apply release_valid|constructor]. }
  cbn [forallb]. rewrite andb_true_r. unfold equals_star_version.
  destruct (matches_star v Hv) as [-> _]. rewrite Er.
  rewrite (above_release (Included v1) H1), (below_release (Excluded v2) H2).
  rewrite (release_prefix_range ns rw Hn (release_u64 w Hw) Hne).
  rewrite (compare_release_stripped rw (version_release v1) ns);
    [|by apply release_u64|by apply release_u64|by apply numbers_u64|done].
  by rewrite (compare_release_stripped rw (version_release v2) (succ_last ns));
    [|by apply release_u64|by apply release_u64|by apply succ_last_bounds|done].
Qed.

Lemma release_only_bounds_spec lower upper :
  bound_release lower -> bound_release upper ->
  exists xs, specifier_from_release_only_bounds lower upper = Some xs /\
    describes xs (above lower w && below upper w).
Proof.
  intros Hl Hu. unfold specifier_from_release_only_bounds.
  pose proof (bound_pair_spec lower upper Hl Hu) as HP.
  destruct lower as [v1|v1|], upper as [v2|v2|]; try exact HP.
  - destruct (version_eq v1 v2) eqn:E; [|exact HP]. eexists. split; [reflexivity|]. split.
    { constructor; [by apply release_valid|constructor]. }
    cbn [forallb]. rewrite andb_true_r. unfold equals_version.
    destruct (matches_order v1 Hl) as [-> _].
    rewrite (above_release (Included v1) Hl), (below_release (Included v2) Hu).
    rewrite <- (release_eq _ _ Hl Hu E). by destruct (compare_release rw _).
  - destruct (trimmed_release v1 Hl) as (t1 & -> & N1 & S1).
    destruct (trimmed_release v2 Hu) as (t2 & -> & N2 & S2). cbn [mbind option_bind].
    destruct (version_release t1) as [|major [|minor [|]]]; try exact HP.
    + case_bool_decide as E2; [|exact HP]. inversion N1; subst.
      destruct (star_range [major; 0] v1 v2) as (v & -> & D); try done.
      * repeat apply Forall_cons_2; [done|by split|constructor].
      * by rewrite <- S2, E2.
      * by eexists.
    + case_bool_decide as E2; [|exact HP]. inversion N1 as [|?? Hmaj Hmin]; subst.
      inversion Hmin as [|?? Hm _]; subst. rewrite (wrapping_succ minor Hm) in E2.
      destruct (star_range [major; minor] v1 v2) as (v & -> & D); try done.
      * by rewrite <- S2, E2.
      * by eexists.
Qed.

(** ** The holes between ranges *)

Lemma minor_order major a b :
  a < b -> compare_release [major; a] [major; b] = Lt.
Proof.
  intros H. unfold compare_release. cbn. rewrite Z.compare_refl. by rewrite (proj2 (Z.compare_lt_iff a b)).
Qed.

Lemma is_lt_below r a b :
  compare_release a b <> Gt -> is_lt (compare_release r a) = true ->
  is_lt (compare_release r b) = true.
Proof.
  intros Hab Ha. rewrite (cmp_lt_le_trans compare_release r a b); [done| |done].
  by destruct (compare_release r a).
Qed.

Lemma minors_spec major lo hi :
  is_number major -> 0 <= lo <= hi -> is_number hi ->
  exists xs, mapM (not_equals_minor major) (minors lo hi) = Some xs /\
    describes xs (is_lt (compare_release rw [major; lo]) ||
                  negb (is_lt (compare_release rw [major; hi]))).
Proof.
  intros Hm Hlo Hhi. remember (Z.to_nat (hi - lo)) as n eqn:En.
  revert lo Hlo En. induction n as [|n IH]; intros lo Hlo En.
  { assert (lo = hi) as -> by lia. unfold minors. rewrite Z.sub_diag. exists []. split; [done|].
    split; [constructor|]. by destruct (is_lt _). }
  unfold minors. rewrite seqZ_cons by lia. cbn [mapM].
  replace (Z.pred (hi - lo)) with (hi - Z.succ lo) by lia. fold (minors (Z.succ lo) hi).
  destruct (IH (Z.succ lo)) as (xs & -> & V & M); [lia..|].
  assert (Forall is_number [major; lo]) as Hn
    by (repeat apply Forall_cons_2; [done|unfold is_number in *; lia|constructor]).
  destruct (new_release_Some [major; lo] Hn) as (v & E & Hv & Er); [done|].
  unfold not_equals_minor. rewrite E. eexists. split; [reflexivity|]. split.
  { constructor; [by apply release_valid|done]. }
  cbn [forallb]. rewrite M. unfold not_equals_star_version. destruct (matches_star v Hv) as [_ ->].
  rewrite Er, (release_prefix_range _ rw Hn (release_u64 w Hw)) by done. cbn [succ_last].
  change (lo + 1) with (Z.succ lo).
  assert (is_lt (compare_release rw [major; lo]) = true ->
    is_lt (compare_release rw [major; Z.succ lo]) = true) as T1
    by (apply is_lt_below; rewrite minor_order; [done|lia]).
  assert (is_lt (compare_release rw [major; Z.succ lo]) = true ->
    is_lt (compare_release rw [major; hi]) = true) as T2.
  { apply is_lt_below. destruct (decide (Z.succ lo = hi)) as [->|];
      [by rewrite (cmp_refl compare_release)|rewrite minor_order; [done|lia]]. }
  revert T1 T2. repeat destruct (is_lt (compare_release rw _)); intros T1 T2;
    (done || by specialize (T1 eq_refl) || by specialize (T2 eq_refl)).
Qed.

(** No specifiers were made. *)
Ltac ignored := eexists; split; [reflexivity|split; [constructor|by left]].

(** The specifiers of a hole exclude exactly that hole, or there are none. *)
Lemma gap_specifiers_spec next lower :
  bound_release next -> bound_release lower ->
  exists xs, gap_specifiers next lower = Some xs /\ Forall specifier_valid xs /\
    (xs = [] \/ forallb (fun x => matches x w) xs = below next w || above lower w).
Proof.
  intros Hn Hl. rewrite (below_release _ Hn), (above_release _ Hl).
  destruct next as [p|p|], lower as [l|l|]; cbn [gap_specifiers bound_release] in *;
    try ignored.
  - destruct (trimmed_release p Hn) as (tp & -> & Np & Sp).
    destruct (trimmed_release l Hl) as (tl & -> & Nl & Sl). cbn [mbind option_bind].
    rewrite <- (compare_release_stripped rw _ _ (release_u64 w Hw) (numbers_u64 _ Np) (release_u64 p Hn) Sp).
    rewrite <- (compare_release_stripped rw _ _ (release_u64 w Hw) (numbers_u64 _ Nl) (release_u64 l Hl) Sl).
    destruct (version_release tp) as [|major [|minor [|]]], (version_release tl) as [|lmajor [|lminor [|]]];
      try ignored.
    + destruct (Z.eqb_spec major lmajor) as [<-|]; [|ignored].
      inversion_clear Nl as [|?? Hmaj Hm]. inversion_clear Hm as [|?? Hm' _].
      destruct (minors_spec major 0 lminor) as (xs & -> & V & M); [done|unfold is_number in *; lia|done|].
      exists xs. split; [done|split; [done|right]]. rewrite M. do 2 f_equal.
      apply compare_release_stripped; [by apply release_u64|..|done];
        apply numbers_u64; repeat apply Forall_cons_2; (done || constructor).
    + destruct (Z.eqb_spec major lmajor) as [<-|]; [|ignored].
      destruct (Z.ltb_spec minor lminor); [|ignored].
      inversion_clear Nl as [|?? Hmaj Hm]. inversion_clear Hm as [|?? Hm' _].
      inversion_clear Np as [|?? _ Hp]. inversion_clear Hp as [|?? Hp' _].
      destruct (minors_spec major minor lminor) as (xs & -> & V & M); [done|unfold is_number in *; lia|done|].
      exists xs. split; [done|split; [done|by right]].
  - destruct (version_eq p l) eqn:E; [|ignored].
    eexists. split; [reflexivity|]. split; [constructor; [by apply release_valid|constructor]|right].
    cbn [forallb]. rewrite andb_true_r. unfold not_equals_version.
    destruct (matches_order p Hn) as (_ & -> & _).
    rewrite <- (release_eq _ _ Hn Hl E). by destruct (compare_release rw _).
Qed.

(** ** Several ranges *)

(** The ranges are in order: neither their lower nor their upper bounds decrease. *)
Fixpoint ascending (lower upper : Bound) (bounds : list (Bound * Bound)) : Prop :=
  bound_release lower /\ bound_release upper /\
  match bounds with
  | [] => True
  | (l, u) :: bounds' =>
      lower_bound_cmp lower l <> Gt /\ upper_bound_cmp upper u <> Gt /\ ascending l u bounds'
  end.

(** No hole is left without a specifier. *)
Fixpoint holes_described (next : Bound) (bounds : list (Bound * Bound)) : Prop :=
  match bounds with
  | [] => True
  | (l, u) :: bounds' => gap_specifiers next l <> Some [] /\ holes_described u bounds'
  end.

Lemma ascending_release lower upper bounds :
  ascending lower upper bounds -> bound_release lower /\ bound_release upper.
Proof. destruct bounds as [|[l u] bounds]; intros (? & ? & _); done. Qed.

Lemma release_bound_comparable b : bound_release b -> bound_comparable b.
Proof. destruct b; cbn; [..|done]; intros Hv; by apply real_comparable, Hv. Qed.

Lemma above_monotone a b :
  bound_release a -> bound_release b -> lower_bound_cmp a b <> Gt ->
  above b w = true -> above a w = true.
Proof.
  intros Ha Hb. apply (lower_bound_monotone a b w);
    [by apply release_bound_comparable..|by apply real_comparable, Hw].
Qed.

Lemma below_contains b : bound_release b -> upper_bound_contains b w = below b w.
Proof.
  destruct b as [v|v|]; cbn; [..|done]; intros Hv; unfold version_ge, version_gt, version_le, version_lt;
    destruct (release_cmp v Hv) as [-> ->]; by destruct (compare_release rw _).
Qed.

Lemma below_monotone a b :
  bound_release a -> bound_release b -> upper_bound_cmp a b <> Gt ->
  below a w = true -> below b w = true.
Proof.
  intros Ha Hb. rewrite <- !below_contains by done. apply (upper_bound_monotone a b w);
    [by apply release_bound_comparable..|by apply real_comparable, Hw].
Qed.

(** What the loop over the holes yields: the last upper bound, and specifiers that admit the
    versions of every range and, where no hole was left out, only versions before a hole or in
    a range. *)
Lemma gaps_loop_spec bounds : forall lower next acc,
  ascending lower next bounds ->
  exists xs last, gaps_loop next bounds acc = Some (acc ++ xs, last) /\
    Forall specifier_valid xs /\ bound_release last /\
    (below next w = true -> forallb (fun x => matches x w) xs = true /\ below last w = true) /\
    (existsb (in_segment w) ((lower, next) :: bounds) = true ->
      forallb (fun x => matches x w) xs = true /\ above lower w = true /\ below last w = true) /\
    (holes_described next bounds -> forallb (fun x => matches x w) xs = true ->
      above lower w = true -> below last w = true ->
      existsb (in_segment w) ((lower, next) :: bounds) = true).
Proof.
  induction bounds as [|[l u] bounds IH]; intros lower next acc HA.
  { destruct (ascending_release _ _ _ HA) as [Hl Hn]. exists [], next. rewrite app_nil_r.
    split_and!; cbn; try done; unfold in_segment; cbn; rewrite ?orb_false_r, ?andb_true_iff; tauto. }
  destruct HA as (Hl & Hn & Hll & Hnu & HA). destruct (ascending_release _ _ _ HA) as [Hl' Hu].
  destruct (gap_specifiers_spec next l Hn Hl') as (gap & E & Vg & Mg).
  destruct (IH l u (acc ++ gap) HA) as (xs & last & E' & V & HR & A1 & A2 & A3).
  exists (gap ++ xs), last. cbn [gaps_loop]. rewrite E. cbn [mbind option_bind].
  rewrite E', app_assoc, forallb_app, andb_true_iff.
  assert (below next w = true \/ above l w = true -> forallb (fun x => matches x w) gap = true) as G.
  { intros Hd. destruct Mg as [-> | ->]; [done|]. by rewrite orb_true_iff. }
  pose proof (below_monotone _ _ Hn Hu Hnu) as MB. pose proof (above_monotone _ _ Hl Hl' Hll) as MA.
  split_and!; [done|by apply Forall_app|done|tauto|..]; unfold in_segment in *; cbn [existsb fst snd] in *;
    rewrite !orb_true_iff, !andb_true_iff in *.
  - intros [Hs|Hs]; tauto.
  - intros [HG HD] [Mgap Mxs] Ha Hb. destruct Mg as [-> | Mg]; [done|].
    rewrite Mgap in Mg. symmetry in Mg. apply orb_true_iff in Mg as [Mg|Mg]; [by left|].
    right. by apply A3.
Qed.

(** The specifiers of a list of ranges admit every version of the ranges, and no others where no
    hole was left out. *)
Lemma release_only_bounds_list lower upper bounds :
  ascending lower upper bounds ->
  exists xs, specifiers_from_release_only_bounds ((lower, upper) :: bounds) = Some xs /\
    Forall specifier_valid xs /\
    (existsb (in_segment w) ((lower, upper) :: bounds) = true ->
      specifiers_contains xs w = Some true) /\
    (holes_described upper bounds ->
      specifiers_contains xs w = Some (existsb (in_segment w) ((lower, upper) :: bounds))).
Proof.
  intros HA. destruct (ascending_release _ _ _ HA) as [Hl _].
  destruct (gaps_loop_spec bounds lower upper [] HA) as (xs & last & E & V & Hr & _ & A & C).
  destruct (release_only_bounds_spec lower last Hl Hr) as (ys & E' & V' & M).
  unfold specifiers_from_release_only_bounds. rewrite E. cbn [mbind option_bind app]. rewrite E'.
  eexists. split; [reflexivity|]. assert (Forall specifier_valid (xs ++ ys)) as VV by (by apply Forall_app).
  assert (specifiers_contains (specifiers_from_unsorted (xs ++ ys)) w =
    Some (forallb (fun x => matches x w) xs && (above lower w && below last w))) as EC.
  { by rewrite from_unsorted_contains, specifiers_contains_forallb, forallb_app, M. }
  split_and!.
  - unfold specifiers_from_unsorted. by rewrite sort_by_perm.
  - intros H. destruct (A H) as (A1 & A2 & A3). by rewrite EC, A1, A2, A3.
  - intros HD. rewrite EC. f_equal. apply eq_true_iff_eq. rewrite !andb_true_iff. split.
    + intros (? & ? & ?). by apply C.
    + by intros (? & ? & ?)%A.
Qed.

(** They admit only versions between the first and the last bound. *)
Definition last_upper (upper : Bound) (bounds : list (Bound * Bound)) : Bound := foldl (fun _ s => s.2) upper bounds.

Lemma gaps_loop_last bounds : forall next acc xs last_,
  gaps_loop next bounds acc = Some (xs, last_) -> last_ = last_upper next bounds.
Proof.
  induction bounds as [|[l u] bounds IH]; intros next acc xs last_; cbn [gaps_loop]; [by intros [= _ <-]|].
  destruct (gap_specifiers next l) as [gap|]; [|done]. cbn [mbind option_bind]. intros E. by apply IH in E.
Qed.

Lemma release_only_bounds_outer lower upper bounds xs :
  ascending lower upper bounds -> specifiers_from_release_only_bounds ((lower, upper) :: bounds) = Some xs ->
  specifiers_contains xs w = Some true -> above lower w = true /\ below (last_upper upper bounds) w = true.
Proof.
  intros HA. destruct (ascending_release _ _ _ HA) as [Hl _].
  destruct (gaps_loop_spec bounds lower upper [] HA) as (gaps & last_ & E & V & Hr & _ & _ & _).
  destruct (release_only_bounds_spec lower last_ Hl Hr) as (ys & E' & V' & M).
  unfold specifiers_from_release_only_bounds. rewrite E. cbn [mbind option_bind app]. rewrite E'. intros [= <-].
  rewrite from_unsorted_contains, specifiers_contains_forallb, forallb_app, M by by apply Forall_app.
  intros [= [_ [Ha Hb]%andb_true_iff]%andb_true_iff]. split; [done|]. by rewrite <- (gaps_loop_last _ _ _ _ _ E).
Qed.

End bounds.

(** ** The bounds of [~=] *)

Section tilde.
Import Predicates.

(** Below the smallest version of a release. *)
Lemma before_min_cmp w f :
  version_real w -> full_post f = None -> full_max f = None ->
  is_lt (full_cmp (version_make_full w) (full_set_min f (Some 0))) =
  is_lt (rel_cmp (version_make_full w) f).
Proof.
  intros Rw Ep Em. rewrite (full_cmp_same _ f (full_set_min f (Some 0))) by done.
  rewrite full_key_min, Ep, (key_w w Rw) by done. pose proof (key_min w) as K.
  assert (key_cmp (suffix_key (version_make_full w)) (0, 0, None, 0) <> Eq) as K'
    by (by split_suffix (version_make_full w); key_arith).
  revert K K'. by destruct (rel_cmp _ _), (key_cmp _ _).
Qed.

(** [<] a release admits what lies below its first dev release. *)
Lemma less_than_release v w :
  release_version v -> version_real w ->
  specifier_contains (mkSpecifier LessThan v) w =
    Some (is_lt (rel_cmp (version_make_full w) (release_only (version_release v)))).
Proof.
  intros Hv Rw. destruct (release_fields v Hv) as (_ & Ep & Eq & Ed & El).
  rewrite <- (less_than_agree v w (proj1 Hv) Rw El). unfold less_than_to_range.
  destruct (not_special v Hv) as [-> ->].
  rewrite contains_strictly_lower_than.
  rewrite (test_lt_l _ w _ _ (with_min_stands v (proj1 Hv)) (stands_for_real w Rw)).
  rewrite before_min_cmp; [by destruct Hv as [_ ->]|done|..]; destruct Hv as [_ ->]; done.
Qed.

(** The version above those that a [~=] specifier admits. *)
Definition tilde_upper (release : list Z) : list Z :=
  succ_last (take (length release - 1) release).

Lemma tilde_contains_bounds u w :
  release_version u -> version_real w -> (2 <= length (version_release u))%nat ->
  specifier_contains (mkSpecifier TildeEqual u) w =
    Some (matches (mkSpecifier GreaterThanEqual u) w &&
          is_lt (rel_cmp (version_make_full w) (release_only (tilde_upper (version_release u))))).
Proof.
  intros Hu Rw Hlen. destruct (release_fields u Hu) as (_ & _ & _ & _ & El).
  pose proof (proj1 Hu) as Ru. destruct (tilde_agree u w Ru Rw El Hlen) as (r & Er & ->).
  destruct (split_last_two_spec _ Hlen) as (rest & last & x & Es & Ex).
  pose proof Ex as Ef. rewrite release_full in Ef.
  destruct (tilde_bounds_spec u Ru rest last x Ef) as (upper & En & Su).
  unfold tilde_equal_to_range in Er. rewrite Es in Er. cbn [mbind option_bind] in Er.
  rewrite En in Er. apply (inj Some) in Er as <-. rewrite contains_from_range. f_equal. f_equal.
  - pose proof (greater_than_equal_agree u w Ru Rw El) as G. rewrite contains_higher_than in G.
    rewrite G. reflexivity.
  - rewrite (test_lt_l _ w _ _ Su (stands_for_real w Rw)), (first_dev_cmp w) by done.
    unfold tilde_upper. rewrite Ex, length_app, Nat.add_sub, take_app_length.
    assert (full_epoch (version_make_full u) = 0) as -> by (destruct Hu as [_ ->]; done).
    reflexivity.
Qed.

(** The bounding specifiers match together what the [~=] specifier matches. *)
Lemma tilde_bounding_spec x t w :
  tilde_new x = Some t -> release_version (specifier_version x) ->
  Forall (fun n => n + 1 < U64_MAX) (version_release (specifier_version x)) -> version_real w ->
  exists lower upper, tilde_bounding_specifiers t = Some (lower, upper) /\
    specifier_valid lower /\ specifier_valid upper /\
    specifier_contains t w = Some (matches lower w && matches upper w).
Proof.
  destruct x as [op u]. unfold tilde_new. cbn [specifier_operator specifier_version]. intros HT Hu Hb Rw.
  case_bool_decide as Ho; [|done]. cbn [negb] in HT. subst op.
  destruct (release_len u <? 2)%nat eqn:L2; [done|]. destruct (3 <? release_len u)%nat eqn:L3; [done|].
  apply Nat.ltb_ge in L2, L3. cbn [orb] in HT. destruct (_ || _); [done|]. injection HT as <-.
  rewrite (tilde_contains_bounds u w Hu Rw L2). pose proof (release_numbers u Hu) as Hn.
  assert (exists v, release_version v /\ version_release v = tilde_upper (version_release u) /\
    tilde_bounding_specifiers (mkSpecifier TildeEqual u) =
      Some (greater_than_equal_version u, less_than_version v)) as (v & Hv & Ev & ->).
  { unfold tilde_bounding_specifiers, tilde_has_patch, release_len in *.
    cbn [specifier_version].
    destruct (version_release u) as [|a [|b [|c [|]]]]; cbn [length] in *; try lia;
      cbn [lookup list_lookup mbind option_bind Nat.eqb tilde_upper length Nat.sub take succ_last];
      inversion_clear Hb as [|?? Ba Hb']; inversion_clear Hb' as [|?? Bb _];
      inversion_clear Hn as [|?? Na Hn']; inversion_clear Hn' as [|?? Nb _];
      rewrite wrapping_succ by done.
    - destruct (new_release_Some [a + 1]) as (v & -> & Hv & Ev); [|done|by exists v].
      constructor; [unfold is_number in *; lia|constructor].
    - destruct (new_release_Some [a; b + 1]) as (v & -> & Hv & Ev); [|done|by exists v].
      repeat apply Forall_cons_2; [done|unfold is_number in *; lia|constructor]. }
  do 2 eexists. split; [reflexivity|]. split; [by apply release_valid|split; [by apply release_valid|]].
  f_equal. f_equal. unfold matches, less_than_version. by rewrite less_than_release, Ev.
Qed.

(** A release of two or three numbers makes a [~=] specifier. *)
Lemma tilde_new_release v :
  release_version v -> (2 <= length (version_release v) <= 3)%nat ->
  specifier_from_version TildeEqual v = Ok (mkSpecifier TildeEqual v) /\
  tilde_new (mkSpecifier TildeEqual v) = Some (mkSpecifier TildeEqual v).
Proof.
  intros Hv Hlen. destruct (release_fields v Hv) as (_ & _ & _ & _ & El).
  destruct (not_special v Hv) as [Hp Hq].
  assert (version_is_local v = false) as Hl.
  { unfold version_is_local. by rewrite El. }
  unfold specifier_from_version, tilde_new. cbn [specifier_operator specifier_version].
  unfold release_len. rewrite Hl, Hp, Hq. cbn [orb andb negb].
  rewrite !bool_decide_eq_true_2 by done. cbn [negb andb operator_is_local_compatible].
  destruct (Nat.ltb_spec (length (version_release v)) 2), (Nat.ltb_spec 3 (length (version_release v)));
    try lia. done.
Qed.

(** Replacing the patch number never panics and keeps the major and minor numbers. *)
Lemma tilde_with_patch_spec x t patch :
  tilde_new x = Some t -> version_real (specifier_version x) -> is_number patch ->
  exists v, tilde_with_patch_version t patch = Some (mkSpecifier TildeEqual v) /\
    release_version v /\
    version_release v = take 2 (version_release (specifier_version x)) ++ [patch].
Proof.
  destruct x as [op u]. unfold tilde_new. cbn [specifier_operator specifier_version]. intros HT Ru Hp.
  destruct (negb _); [done|].
  destruct (release_len u <? 2)%nat eqn:L2; [done|]. destruct (3 <? release_len u)%nat eqn:L3; [done|].
  apply Nat.ltb_ge in L2, L3. cbn [orb] in HT. destruct (_ || _); [done|]. injection HT as <-.
  pose proof (real_release_numbers u Ru) as Hn. rewrite <- release_full in Hn.
  destruct (new_release_Some (take 2 (version_release u) ++ [patch])) as (v & En & Hv & Er).
  { apply Forall_app. split; [by apply Forall_take|by constructor]. }
  { by intros [_ ?]%app_nil. }
  exists v. split; [|done]. unfold tilde_with_patch_version, tilde_has_patch, release_len in *.
  cbn [specifier_version].
  destruct (tilde_new_release v Hv) as [E1 E2]; [rewrite Er, length_app, length_take; cbn [length]; lia|].
  replace (if (_ =? 3)%nat then _ else _) with (take 2 (version_release u)).
  { rewrite En. cbn [mbind option_bind]. rewrite E1. exact E2. }
  destruct (Nat.eqb_spec (length (version_release u)) 3) as [->|]; [done|].
  apply take_ge. lia.
Qed.

End tilde.

(** * Bounds truncated to major and minor version

    [LowerBound::major_minor] and [UpperBound::major_minor] of
    [crates/uv-pep440/src/version_ranges.rs]: the truncated bound admits the truncation of every
    release that the bound admits, which is what the comparison of bounds with the major and minor
    version of a wheel tag relies on. *)

(** ** Truncated releases *)

Lemma cmp_list_take k (a b : list Z) :
  length a = length b -> cmp_list Z.compare a b <> Gt ->
  cmp_list Z.compare (take k a) (take k b) <> Gt.
Proof.
  revert a b. induction k as [|k IH]; intros [|x a] [|y b]; cbn; try done.
  intros [= L]. destruct (Z.compare x y); cbn; [by apply IH|done..].
Qed.

Lemma padded_take k n l :
  (length l <= n)%nat -> (k <= n)%nat -> padded k (take k l) = take k (padded n l).
Proof.
  intros Hl Hk. unfold padded. rewrite take_app, length_take, take_replicate. do 2 f_equal. lia.
Qed.

(** Truncation keeps the order. *)
Lemma compare_release_take k a b :
  compare_release a b <> Gt -> compare_release (take k a) (take k b) <> Gt.
Proof.
  set (n := Nat.max k (Nat.max (length a) (length b))).
  rewrite (compare_release_padded a b n), (compare_release_padded (take k a) (take k b) k)
    by (rewrite ?length_take; lia).
  rewrite (padded_take k n a), (padded_take k n b) by lia.
  apply cmp_list_take. rewrite !padded_length by lia. done.
Qed.

(** A truncated release is not larger. *)
Lemma compare_release_truncated k a :
  Forall is_u64 a -> compare_release (take k a) a <> Gt.
Proof.
  intros Ha. rewrite (compare_release_padded _ _ (length a)) by (rewrite ?length_take; lia).
  unfold padded. rewrite Nat.sub_diag. cbn [replicate]. rewrite app_nil_r. revert k.
  induction Ha as [|x a Hx Ha IH]; intros k; [destruct k; discriminate|].
  destruct k as [|k]; [|cbn; rewrite Z.compare_refl; apply IH].
  specialize (IH O). rewrite take_0, length_nil, Nat.sub_0_r in *. unfold is_u64 in Hx.
  cbn [app length replicate cmp_list] in *.
  destruct (Z.compare_spec 0 x); cbn [then_with]; [exact IH|done|lia].
Qed.

(** ** Bounds *)

Section truncation.
Context (v t : Version) (Hv : release_version v) (Ht : release_version t).
Context (Et : version_release t = take 2 (version_release v)).

Lemma truncated_new u :
  release_version u ->
  exists w, version_new (take 2 (version_release u)) = Some w /\ release_version w /\
    version_release w = take 2 (version_release u).
Proof.
  intros Hu. apply new_release_Some; [by apply Forall_take, release_numbers|].
  destruct Hu as [[[_ H] _] _]. by destruct (version_release u).
Qed.

Lemma version_cmp_release a b :
  release_version a -> release_version b ->
  version_cmp a b = compare_release (version_release a) (version_release b).
Proof. intros Ha Hb. by apply (release_cmp a Ha b Hb). Qed.

Lemma lower_major_minor b :
  bound_release b -> lower_bound_contains b v = true ->
  exists b', lower_bound_major_minor b = Some b' /\ lower_bound_contains b' t = true.
Proof.
  intros Hb C. destruct b as [u|u|]; [..|by exists Unbounded];
    destruct (truncated_new u Hb) as (w & E & Hw & Ew); cbn [lower_bound_major_minor]; rewrite E;
    (eexists; split; [reflexivity|]); cbn [lower_bound_contains fmap option_fmap option_map] in *;
    unfold version_le, version_lt in *; rewrite version_cmp_release in * by done; rewrite Et, Ew;
    pose proof (compare_release_take 2 (version_release u) (version_release v)) as M;
    destruct (compare_release (version_release u) (version_release v)); try done;
    by destruct (compare_release (take 2 _) (take 2 _)); try (by destruct M).
Qed.

(** An excluded upper bound whose third number is zero must end there. *)
Definition bound_precise (b : Bound) : Prop :=
  match b with
  | Excluded u => (length (version_release u) <= 3)%nat
  | _ => True
  end.

(** A bound without a patch number is its own truncation. *)
Lemma no_patch_truncated u :
  release_version u -> (length (version_release u) <= 3)%nat ->
  match version_release u !! 2%nat with Some patch => 0 <? patch | None => false end = false ->
  strip_zeros (take 2 (version_release u)) = strip_zeros (version_release u).
Proof.
  intros Hu L P. pose proof (release_numbers u Hu) as Hn.
  destruct (version_release u) as [|x [|y [|z [|]]]]; try done; [|cbn in L; lia].
  cbn in P. apply Z.ltb_ge in P.
  assert (z = 0) as ->.
  { inversion_clear Hn as [|?? _ H1]. inversion_clear H1 as [|?? _ H2].
    inversion_clear H2 as [|?? Hz _]. unfold is_number in Hz. lia. }
  exact (eq_sym (strip_zeros_snoc_0 [x; y])).
Qed.

Lemma upper_major_minor b :
  bound_release b -> bound_precise b -> upper_bound_contains b v = true ->
  exists b', upper_bound_major_minor b = Some b' /\ upper_bound_contains b' t = true.
Proof.
  intros Hb HP C. destruct b as [u|u|]; [..|by exists Unbounded];
    destruct (truncated_new u Hb) as (w & E & Hw & Ew); cbn [upper_bound_major_minor]; rewrite E;
    pose proof (compare_release_take 2 (version_release v) (version_release u)) as M;
    cbn [upper_bound_contains fmap option_fmap option_map] in *; unfold version_ge, version_gt in C;
    rewrite version_cmp_release, (cmp_opp compare_release (version_release v)) in C by done.
  - eexists; split; [reflexivity|]. cbn. unfold version_ge. rewrite version_cmp_release by done.
    rewrite Et, Ew, (cmp_opp compare_release (take 2 (version_release v))).
    destruct (compare_release (version_release v) (version_release u)); try done;
      by destruct (compare_release (take 2 _) (take 2 _)); try (by destruct M).
  - destruct (match _ with Some patch => _ | None => _ end) eqn:P;
      (eexists; split; [reflexivity|]); cbn; unfold version_ge, version_gt;
      rewrite version_cmp_release by done;
      rewrite Et, Ew, (cmp_opp compare_release (take 2 (version_release v))).
    + destruct (compare_release (version_release v) (version_release u)); try done;
        by destruct (compare_release (take 2 _) (take 2 _)); try (by destruct M).
    + pose proof (no_patch_truncated u Hb HP P) as S0.
      assert (compare_release (take 2 (version_release v)) (take 2 (version_release u)) = Lt) as ->; [|done].
      rewrite (compare_release_stripped _ (take 2 (version_release u)) (version_release u)); [|..|done];
        try (by apply release_u64 || by apply Forall_take, release_u64).
      eapply (cmp_le_lt_trans compare_release); [by apply (compare_release_truncated 2), release_u64|].
      by destruct (compare_release (version_release v) (version_release u)).
Qed.

End truncation.
