(* ===== verification/Normalize.v ===== *)
(** * Names of packages, extras and groups

    [crates/uv-normalize/src]: the normalisation of names ([lib.rs]), the escaped form of a
    package name ([package_name.rs]), and dependency groups with an optional path and as a list
    ([group_name.rs]). A string is its list of bytes. *)

From stdpp Require Import base list option numbers decidable strings sorting.
From Stdlib Require Import ZArith Lia.
From S2P Require Import Prelude Text.

Local Open Scope Z_scope.
Local Open Scope uv_scope.

Inductive InvalidNameError : Type :=
| mkInvalidName (name : list Z).

(** [b'-' | b'_' | b'.']. *)
Definition is_punctuation (b : Z) : bool := (b =? 45) || (b =? 95) || (b =? 46).

(** ** Normalisation *)

(** The loop over the bytes, with the last byte and the name built so far. *)
Fixpoint normalize_loop (name bs : list Z) (last : option Z) (normalized : list Z) :
    result (option Z * list Z) InvalidNameError :=
  match bs with
  | [] => Ok (last, normalized)
  | char :: bs' =>
      if is_ascii_uppercase char
      then normalize_loop name bs' (Some char) (normalized ++ [to_ascii_lowercase char])
      else if is_ascii_lowercase char || is_ascii_digit char
      then normalize_loop name bs' (Some char) (normalized ++ [char])
      else if is_punctuation char then
        match last with
        | None => Err (mkInvalidName name)
        | Some l =>
            if is_punctuation l then normalize_loop name bs' (Some char) normalized
            else normalize_loop name bs' (Some char) (normalized ++ [45])
        end
      else Err (mkInvalidName name)
  end.

Definition ends_in_punctuation (last : option Z) : bool :=
  match last with Some l => is_punctuation l | None => false end.

Definition normalize (name : list Z) : result (list Z) InvalidNameError :=
  match name with
  | [] => Err (mkInvalidName name)
  | _ =>
      let? r := normalize_loop name name None [] in
      let '(last, normalized) := r in
      if ends_in_punctuation last then Err (mkInvalidName name) else Ok normalized
  end.

(** The loop of [is_normalized]: an early answer, or the last byte. *)
Fixpoint is_normalized_loop (name bs : list Z) (last : option Z) :
    result (option Z + bool) InvalidNameError :=
  match bs with
  | [] => Ok (inl last)
  | char :: bs' =>
      if is_ascii_uppercase char then Ok (inr false)
      else if is_ascii_lowercase char || is_ascii_digit char
      then is_normalized_loop name bs' (Some char)
      else if (char =? 95) || (char =? 46) then Ok (inr false)
      else if char =? 45 then
        match last with
        | None => Err (mkInvalidName name)
        | Some l => if l =? 45 then Ok (inr false) else is_normalized_loop name bs' (Some char)
        end
      else Err (mkInvalidName name)
  end.

Definition is_normalized (name : list Z) : result bool InvalidNameError :=
  match name with
  | [] => Err (mkInvalidName name)
  | _ =>
      let? r := is_normalized_loop name name None in
      match r with
      | inr b => Ok b
      | inl last => if ends_in_punctuation last then Err (mkInvalidName name) else Ok true
      end
  end.

Definition validate_and_normalize_ref (name : list Z) : result (list Z) InvalidNameError :=
  let? b := is_normalized name in
  if b : bool then Ok name else normalize name.

(** ** Package names *)

(** Both constructors of a package name. *)
Definition package_name_from_str (name : list Z) : result (list Z) InvalidNameError :=
  validate_and_normalize_ref name.

Definition as_dist_info_name (name : list Z) : list Z :=
  match find_byte 45 name with
  | Some dash_position =>
      (take dash_position name ++ [95]) ++
      ((fun character => if character =? 45 then 95 else character) <$> drop (dash_position + 1) name)
  | None => name
  end.

(** ** Groups *)

Definition GroupName : Type := list Z.

Definition group_name_from_str (name : list Z) : result GroupName InvalidNameError :=
  validate_and_normalize_ref name.

Record PipGroupName : Type := mkPipGroup {
  pip_group_path : option (list Z);
  pip_group_name : GroupName
}.

Inductive InvalidPipGroupError : Type :=
| InvalidName (e : InvalidNameError)
| InvalidPath (path : list Z).

(** [str::rsplit_once]: what precedes and follows the last occurrence of a byte. *)
Fixpoint rsplit_once (b : Z) (s : list Z) : option (list Z * list Z) :=
  match s with
  | [] => None
  | c :: s' =>
      match rsplit_once b s' with
      | Some (before, after) => Some (c :: before, after)
      | None => if c =? b then Some ([], s') else None
      end
  end.

(** [str::ends_with]. *)
Definition ends_with (s suffix : list Z) : bool :=
  bool_decide (drop (length s - length suffix) s = suffix).

Definition PYPROJECT_TOML : list Z := bytes "pyproject.toml".

Definition pip_group_name_from_str (path_and_name : list Z) :
    result PipGroupName InvalidPipGroupError :=
  match rsplit_once 58 path_and_name with
  | Some (path, name) =>
      if negb (ends_with path PYPROJECT_TOML) then Err (InvalidPath path)
      else
        let? name := map_err InvalidName (group_name_from_str name) in
        Ok (mkPipGroup (Some path) name)
  | None =>
      let? name := map_err InvalidName (group_name_from_str path_and_name) in
      Ok (mkPipGroup None name)
  end.

Definition pip_group_name_display (p : PipGroupName) : list Z :=
  match pip_group_path p with
  | Some path => path ++ [58] ++ pip_group_name p
  | None => pip_group_name p
  end.

Inductive DefaultGroups : Type :=
| AllGroups
| GroupList (groups : list GroupName).

(** [Vec::dedup]: of consecutive equal elements, the first is kept. *)
Fixpoint dedup (l : list GroupName) : list GroupName :=
  match l with
  | [] => []
  | x :: l' =>
      match dedup l' with
      | [] => [x]
      | y :: l'' => if bool_decide (x = y) then x :: l'' else x :: y :: l''
      end
  end.

(** The derived order of names: that of their bytes. *)
Definition group_name_cmp : GroupName -> GroupName -> comparison := cmp_list Z.compare.

Definition default_groups_from_groups (groups : list GroupName) : DefaultGroups :=
  let groups := sort_by group_name_cmp groups in
  let groups := dedup groups in
  GroupList groups.

(** * Normalised names

    Normalisation computes the form of the packaging specification: the words of the name, in
    lower case, joined by dashes. The check that skips it is only an optimisation, normalising
    twice changes nothing, and the escaped form of a package name and the printed form of a group
    are read back. *)

(** ** The specification *)

(** The maximal runs between punctuation, empty ones included. *)
Fixpoint words (s : list Z) : list (list Z) :=
  match s with
  | [] => [[]]
  | c :: s' =>
      if is_punctuation c then [] :: words s'
      else match words s' with
           | w :: ws => (c :: w) :: ws
           | [] => [[c]]
           end
  end.

Fixpoint join (sep : list Z) (l : list (list Z)) : list Z :=
  match l with
  | [] => []
  | [w] => w
  | w :: l' => w ++ sep ++ join sep l'
  end.

Definition lower (s : list Z) : list Z := to_ascii_lowercase <$> s.

(** The words of a name in lower case. *)
Definition name_words (name : list Z) : list (list Z) :=
  lower <$> filter (fun w => w <> []) (words name).

Definition normal_form (name : list Z) : list Z := join [45] (name_words name).

Definition valid_byte (b : Z) : bool := is_ascii_alphanumeric b || is_punctuation b.

Definition alnum_end (o : option Z) : bool :=
  match o with Some b => negb (is_punctuation b) | None => false end.

(** Only letters, digits and punctuation, with a letter or digit first and last. *)
Definition valid_name (name : list Z) : bool :=
  forallb valid_byte name && alnum_end (head name) && alnum_end (last name).

(** ** The loop *)

(** What the loop adds for the bytes that remain, after a byte of punctuation or not. *)
Fixpoint collapse (punctuated : bool) (s : list Z) : list Z :=
  match s with
  | [] => []
  | c :: s' =>
      if is_punctuation c then (if punctuated then [] else [45]) ++ collapse true s'
      else to_ascii_lowercase c :: collapse false s'
  end.

Lemma byte_cases c :
  is_ascii_uppercase c = true /\ is_punctuation c = false /\ valid_byte c = true \/
  is_ascii_uppercase c = false /\ is_ascii_lowercase c || is_ascii_digit c = true /\
    is_punctuation c = false /\ valid_byte c = true /\ to_ascii_lowercase c = c \/
  is_ascii_uppercase c = false /\ is_ascii_lowercase c || is_ascii_digit c = false /\
    is_punctuation c = true /\ valid_byte c = true \/
  is_ascii_uppercase c = false /\ is_ascii_lowercase c || is_ascii_digit c = false /\
    is_punctuation c = false /\ valid_byte c = false.
Proof.
  unfold valid_byte, is_ascii_alphanumeric, to_ascii_lowercase, is_ascii_uppercase,
    is_ascii_lowercase, is_ascii_digit, is_punctuation.
  repeat match goal with
  | |- context [?a <=? ?b] => destruct (Z.leb_spec a b); try (exfalso; lia)
  | |- context [?a =? ?b] => destruct (Z.eqb_spec a b); try (exfalso; lia)
  end; cbn; tauto.
Qed.

Lemma last_default (c : Z) bs : last (c :: bs) = Some (default c (last bs)).
Proof.
  destruct bs as [|d bs]; [done|]. rewrite last_cons_cons.
  destruct (last (d :: bs)) eqn:E; [done|by apply last_None in E].
Qed.

Lemma normalize_loop_some name bs : forall l acc,
  normalize_loop name bs (Some l) acc =
    if forallb valid_byte bs
    then Ok (Some (default l (last bs)), acc ++ collapse (is_punctuation l) bs)
    else Err (mkInvalidName name).
Proof.
  induction bs as [|c bs IH]; intros l acc; cbn [normalize_loop forallb collapse].
  { by rewrite app_nil_r. }
  rewrite last_default. cbn [default from_option].
  destruct (byte_cases c) as [(-> & E & ->)|[(-> & -> & E & -> & ->)|[(-> & -> & E & ->)|(-> & -> & E & ->)]]];
    rewrite E; cbn [andb]; [by rewrite IH, E, <- app_assoc..| |done].
  destruct (is_punctuation l); rewrite IH, E; [done|]. by rewrite <- app_assoc.
Qed.

(** The loop from the start of a name. *)
Lemma normalize_loop_none name c bs :
  normalize_loop name (c :: bs) None [] =
    if forallb valid_byte (c :: bs) && negb (is_punctuation c)
    then Ok (last (c :: bs), collapse false (c :: bs)) else Err (mkInvalidName name).
Proof.
  rewrite last_default. cbn [normalize_loop collapse forallb].
  destruct (byte_cases c) as [(-> & E & ->)|[(-> & -> & E & -> & ->)|[(-> & -> & E & ->)|(-> & -> & E & ->)]]];
    rewrite E; cbn [andb negb]; rewrite ?andb_false_r, ?andb_true_r; try done.
  all: by rewrite normalize_loop_some, E.
Qed.

Lemma normalize_collapse name :
  normalize name = if valid_name name then Ok (collapse false name) else Err (mkInvalidName name).
Proof.
  destruct name as [|c bs]; [done|]. unfold normalize, valid_name. rewrite normalize_loop_none.
  cbn [head alnum_end]. destruct (forallb _ _ && _); [|done]. cbn [result_bind andb].
  rewrite last_default. cbn [ends_in_punctuation alnum_end]. by destruct (is_punctuation (default _ _)).
Qed.

(** ** Words *)

Definition nonempty_words (s : list Z) : list (list Z) := filter (fun w => w <> []) (words s).

Lemma words_cons s : exists w ws, words s = w :: ws.
Proof. induction s as [|c s (w & ws & IH)]; cbn; [by do 2 eexists|]. rewrite IH. case_match; by do 2 eexists. Qed.

(** Each further word is added after a dash. *)
Definition tail_words (ws : list (list Z)) : list Z :=
  mjoin ((fun w => 45 :: lower w) <$> filter (fun w => w <> []) ws).

Lemma collapse_words s :
  (s = [] \/ alnum_end (last s) = true ->
    exists w ws, words s = w :: ws /\ collapse false s = lower w ++ tail_words ws) /\
  (alnum_end (last s) = true -> 45 :: collapse true s = tail_words (words s)).
Proof.
  induction s as [|c s [IHf IHt]]; [split; [by do 2 eexists|done]|].
  assert (alnum_end (last (c :: s)) = true ->
    s = [] /\ is_punctuation c = false \/ alnum_end (last s) = true) as Hlast.
  { destruct s as [|d s]; [|by right]. cbn. intros H. left. split; [done|].
    by destruct (is_punctuation c). }
  assert (c :: s = [] \/ alnum_end (last (c :: s)) = true -> alnum_end (last (c :: s)) = true) as Hne
    by (by intros [|]).
  cbn [words collapse]. destruct (is_punctuation c) eqn:E.
  - split; [intros H%Hne|intros H]; destruct (Hlast H) as [[_ ?]|H']; try done; specialize (IHt H').
    + exists [], (words s). split; [done|]. exact IHt.
    + unfold tail_words. rewrite filter_cons_False by (by intros ?). exact IHt.
  - assert (alnum_end (last (c :: s)) = true ->
      exists w ws, words s = w :: ws /\ collapse false s = lower w ++ tail_words ws) as IH'
      by (intros H; apply IHf; destruct (Hlast H) as [[-> _]|]; auto).
    split; [intros H%Hne|intros H]; destruct (IH' H) as (w & ws & -> & ->).
    + by exists (c :: w), ws.
    + unfold tail_words. by rewrite filter_cons_True.
Qed.

Lemma join_tail w ws :
  join [45] (lower <$> (w :: ws)) = lower w ++ mjoin ((fun w => 45 :: lower w) <$> ws).
Proof.
  revert w. induction ws as [|v ws IH]; intros w; [by rewrite app_nil_r|].
  specialize (IH v). cbn in *. by rewrite IH.
Qed.

(** Normalisation computes the normal form of the valid names, and rejects the others. *)
Lemma normalize_spec name :
  normalize name = if valid_name name then Ok (normal_form name) else Err (mkInvalidName name).
Proof.
  rewrite normalize_collapse. destruct (valid_name name) eqn:V; [|done]. f_equal.
  unfold valid_name in V. rewrite !andb_true_iff in V. destruct V as [[_ Hh] Hl].
  destruct (collapse_words name) as [H _]. destruct (H (or_intror Hl)) as (w & ws & E & ->).
  unfold normal_form, name_words. rewrite E. destruct name as [|c s]; [done|]. cbn in Hh, E.
  destruct (is_punctuation c); [done|]. destruct (words_cons s) as (w' & ws' & E'). rewrite E' in E.
  injection E as <- <-. rewrite filter_cons_True by done. by rewrite join_tail.
Qed.

(** ** The check for normalised names *)

(** The last byte that the check remembers is a dash if it is punctuation at all. *)
Definition dash_or_alnum (o : option Z) : Prop :=
  match o with Some l => is_punctuation l = (l =? 45) | None => True end.

Lemma is_normalized_loop_spec name bs : forall last acc,
  dash_or_alnum last ->
  match is_normalized_loop name bs last with
  | Ok (inl l) => normalize_loop name bs last acc = Ok (l, acc ++ bs)
  | Ok (inr b) => b = false
  | Err e => normalize_loop name bs last acc = Err e
  end.
Proof.
  induction bs as [|c bs IH]; intros last acc HL; cbn [is_normalized_loop normalize_loop].
  { by rewrite app_nil_r. }
  destruct (byte_cases c) as [(-> & E & _)|[(-> & -> & E & _)|[(-> & -> & E & _)|(-> & -> & E & _)]]]; [done|..].
  - specialize (IH (Some c) (acc ++ [c])). rewrite <- app_assoc in IH. apply IH. cbn. rewrite E.
    symmetry. apply Z.eqb_neq. intros ->. done.
  - rewrite E. destruct ((c =? 95) || (c =? 46)) eqn:E1; [done|].
    assert (c = 45) as ->.
    { unfold is_punctuation in E. apply orb_false_iff in E1 as [E1 E2]. rewrite E1, E2, !orb_false_r in E.
      by apply Z.eqb_eq in E. }
    cbn [Z.eqb Pos.eqb]. destruct last as [l|]; [|done]. cbn in HL. rewrite HL.
    destruct (l =? 45); [done|]. specialize (IH (Some 45) (acc ++ [45])). rewrite <- app_assoc in IH.
    by apply IH.
  - assert (c =? 95 = false /\ c =? 46 = false /\ c =? 45 = false) as (-> & -> & ->); [|by rewrite E].
    unfold is_punctuation in E. rewrite !orb_false_iff in E. tauto.
Qed.

(** Checking first whether the name is normalised makes no difference. *)
Lemma validate_is_normalize name : validate_and_normalize_ref name = normalize name.
Proof.
  unfold validate_and_normalize_ref, is_normalized, normalize at 2. destruct name as [|c bs]; [done|].
  pose proof (is_normalized_loop_spec (c :: bs) (c :: bs) None [] I) as H.
  destruct (is_normalized_loop _ _ _) as [[l|b]|e]; cbn [result_bind].
  - rewrite H. cbn [result_bind]. by destruct (ends_in_punctuation l).
  - rewrite H. done.
  - by rewrite H.
Qed.

Lemma validate_spec name :
  validate_and_normalize_ref name =
    if valid_name name then Ok (normal_form name) else Err (mkInvalidName name).
Proof. by rewrite validate_is_normalize, normalize_spec. Qed.

(** ** Normal forms *)

Definition plain (w : list Z) : Prop := Forall (fun c => is_punctuation c = false) w.

Lemma words_plain s : Forall plain (words s).
Proof.
  induction s as [|c s IH]; cbn; [by repeat constructor|]. destruct (is_punctuation c) eqn:E.
  - constructor; [constructor|done].
  - destruct IH as [|w ws Hw Hws]; [by repeat constructor|]. constructor; [by constructor|done].
Qed.

Lemma words_app w s v vs : plain w -> words s = v :: vs -> words (w ++ s) = (w ++ v) :: vs.
Proof.
  intros Hw E. induction Hw as [|c w Hc Hw IH]; [done|]. cbn [app words]. by rewrite Hc, IH.
Qed.

Lemma words_join w ws : Forall plain (w :: ws) -> words (join [45] (w :: ws)) = w :: ws.
Proof.
  revert w. induction ws as [|v ws IH]; intros w [Hw Hws]%Forall_cons.
  - cbn [join]. rewrite <- (app_nil_r w) at 1. by rewrite (words_app w [] [] []), app_nil_r.
  - change (join [45] (w :: v :: ws)) with (w ++ 45 :: join [45] (v :: ws)).
    rewrite (words_app w _ [] (v :: ws)), app_nil_r; [done|done|].
    cbn [words]. by rewrite IH.
Qed.

Lemma lower_punctuation c : is_punctuation (to_ascii_lowercase c) = is_punctuation c.
Proof.
  unfold to_ascii_lowercase, is_punctuation, is_ascii_uppercase.
  destruct (Z.leb_spec 65 c), (Z.leb_spec c 90); cbn; try done.
  repeat match goal with |- context [?a =? ?b] => destruct (Z.eqb_spec a b) end; cbn; done || lia.
Qed.

Lemma lower_lower c : to_ascii_lowercase (to_ascii_lowercase c) = to_ascii_lowercase c.
Proof.
  unfold to_ascii_lowercase at 2 3. destruct (is_ascii_uppercase c) eqn:E;
    unfold to_ascii_lowercase; [|by rewrite E].
  unfold is_ascii_uppercase in *. replace (c + 32 <=? 90) with false by lia. by rewrite andb_false_r.
Qed.

Lemma name_words_plain name : Forall plain (name_words name).
Proof.
  unfold name_words. apply Forall_fmap, Forall_forall. intros w [_ Hw]%list_elem_of_filter.
  pose proof (proj1 (Forall_forall _ _) (words_plain name) w Hw) as Hp. unfold compose, plain, lower.
  apply Forall_fmap. eapply Forall_impl; [exact Hp|]. intros c. unfold compose.
  by rewrite lower_punctuation.
Qed.

(** The words of a valid name: there is one, and none is empty. *)
Lemma valid_name_words name :
  valid_name name = true ->
  exists w ws, name_words name = w :: ws /\ Forall (fun w => w <> []) (w :: ws).
Proof.
  unfold valid_name. rewrite !andb_true_iff. intros [[_ Hh] _].
  destruct name as [|c s]; [done|]. cbn in Hh. unfold name_words. cbn [words].
  destruct (is_punctuation c); [done|]. destruct (words_cons s) as (w & ws & ->).
  rewrite filter_cons_True by done. rewrite fmap_cons. do 2 eexists. split; [reflexivity|].
  constructor; [done|]. apply Forall_fmap, Forall_forall. intros x [Hx _]%list_elem_of_filter.
  unfold compose. intros Hn. apply Hx. by apply fmap_nil_inv in Hn.
Qed.

Lemma filter_nonempty (l : list (list Z)) :
  Forall (fun w => w <> []) l -> filter (fun w => w <> []) l = l.
Proof. induction 1; [done|]. rewrite filter_cons_True by done. by f_equal. Qed.

Lemma name_words_lower name : lower <$> name_words name = name_words name.
Proof.
  unfold name_words. rewrite <- list_fmap_compose. apply list_fmap_ext. intros i w _.
  unfold compose, lower. rewrite <- list_fmap_compose. apply list_fmap_ext. intros j c _.
  apply lower_lower.
Qed.

(** The words of the normal form are those of the name. *)
Lemma normal_form_words name :
  valid_name name = true -> name_words (normal_form name) = name_words name.
Proof.
  intros V. destruct (valid_name_words name V) as (w & ws & E & Hne).
  pose proof (name_words_plain name) as Hp. pose proof (name_words_lower name) as Hl.
  unfold normal_form. rewrite E in *. unfold name_words. rewrite words_join by done.
  by rewrite filter_nonempty.
Qed.

(** Names have the same normal form when they have the same words. *)
Lemma normal_form_eq a b :
  valid_name a = true -> valid_name b = true ->
  normal_form a = normal_form b <-> name_words a = name_words b.
Proof.
  intros Va Vb. split; [|unfold normal_form; by intros ->].
  intros E. by rewrite <- (normal_form_words a), <- (normal_form_words b), E.
Qed.

(** A byte of a normalised name. *)
Definition normal_byte (b : Z) : bool := is_ascii_lowercase b || is_ascii_digit b || (b =? 45).

Lemma lower_normal c : valid_byte c = true -> is_punctuation c = false -> normal_byte (to_ascii_lowercase c) = true.
Proof.
  intros V P. unfold normal_byte.
  destruct (byte_cases c) as [(E & _)|[(_ & H & _ & _ & ->)|[(_ & _ & ? & _)|(_ & _ & _ & ?)]]];
    [|by rewrite H|congruence..].
  unfold to_ascii_lowercase. rewrite E. unfold is_ascii_uppercase, is_ascii_lowercase in *.
  apply andb_true_iff in E as [E1%Z.leb_le E2%Z.leb_le].
  rewrite (proj2 (Z.leb_le 97 (c + 32))), (proj2 (Z.leb_le (c + 32) 122)) by lia. done.
Qed.

Lemma collapse_normal s : forall p, forallb valid_byte s = true -> forallb normal_byte (collapse p s) = true.
Proof.
  induction s as [|c s IH]; intros p; [done|]. cbn [forallb collapse].
  intros [Hc Hs]%andb_true_iff. destruct (is_punctuation c) eqn:E.
  - rewrite forallb_app, IH by done. by destruct p.
  - cbn [forallb]. by rewrite lower_normal, IH.
Qed.

Lemma alnum_end_cons c s : alnum_end (last s) = true -> alnum_end (last (c :: s)) = true.
Proof. rewrite last_cons. by destruct (last s). Qed.

Lemma collapse_last s : forall p, alnum_end (last s) = true -> alnum_end (last (collapse p s)) = true.
Proof.
  induction s as [|c s IH]; intros p; [done|]. rewrite last_cons. cbn [collapse].
  destruct (last s) eqn:E.
  - intros H. specialize (IH (is_punctuation c) H). destruct (is_punctuation c); [|by apply alnum_end_cons].
    destruct p; [done|]. by apply alnum_end_cons.
  - apply last_None in E as ->. cbn. intros H. destruct (is_punctuation c) eqn:P; [done|]. cbn.
    by rewrite lower_punctuation, P.
Qed.

Lemma normal_byte_valid b : normal_byte b = true -> valid_byte b = true.
Proof.
  unfold normal_byte, valid_byte, is_ascii_alphanumeric, is_punctuation. rewrite !orb_true_iff. tauto.
Qed.

Lemma forallb_impl {A} (p q : A -> bool) l :
  (forall x, p x = true -> q x = true) -> forallb p l = true -> forallb q l = true.
Proof. intros H. rewrite !forallb_forall. auto. Qed.

(** The normal form is a valid name of letters, digits and dashes, and is its own normal form. *)
Lemma normal_form_valid name :
  valid_name name = true ->
  forallb normal_byte (normal_form name) = true /\ valid_name (normal_form name) = true /\
  normal_form (normal_form name) = normal_form name.
Proof.
  intros V. assert (normal_form name = collapse false name) as E.
  { pose proof (normalize_spec name) as H1. rewrite normalize_collapse, V in H1. congruence. }
  pose proof V as V'. unfold valid_name in V. rewrite !andb_true_iff in V. destruct V as [[Hb Hh] Hl].
  assert (forallb normal_byte (normal_form name) = true) as Hn by (rewrite E; by apply collapse_normal).
  assert (valid_name (normal_form name) = true) as Hv.
  { unfold valid_name. rewrite !andb_true_iff. split_and!.
    - revert Hn. apply forallb_impl, normal_byte_valid.
    - rewrite E. destruct name as [|c s]; [done|]. cbn in *. destruct (is_punctuation c) eqn:P; [done|].
      cbn. by rewrite lower_punctuation, P.
    - rewrite E. by apply collapse_last. }
  split_and!; [done..|]. by apply normal_form_eq, normal_form_words.
Qed.

(** A normalised name is what the constructors of names accept and leave as it is. *)
Definition normalized_name (n : list Z) : Prop := validate_and_normalize_ref n = Ok n.

Lemma validate_normalized name n : validate_and_normalize_ref name = Ok n -> normalized_name n.
Proof.
  unfold normalized_name. rewrite !validate_spec. destruct (valid_name name) eqn:V; [|done].
  intros [= <-]. destruct (normal_form_valid name V) as (_ & -> & ->). done.
Qed.

Lemma normalized_bytes n :
  normalized_name n -> valid_name n = true /\ normal_form n = n /\ forallb normal_byte n = true.
Proof.
  unfold normalized_name. rewrite validate_spec. destruct (valid_name n) eqn:V; [|done].
  intros [= E]. destruct (normal_form_valid n V) as (H & _). by rewrite E in H.
Qed.

(** ** Escaped package names *)

Definition escape (c : Z) : Z := if c =? 45 then 95 else c.

Lemma as_dist_info_name_escape name : as_dist_info_name name = escape <$> name.
Proof.
  unfold as_dist_info_name. fold escape.
  assert (match find_byte 45 name with
    | Some i => take i name = escape <$> take i name /\ escape <$> drop i name = 95 :: (escape <$> drop (i + 1) name)
    | None => name = escape <$> name
    end) as H.
  { induction name as [|c name IH]; [done|]. cbn [find_byte]. destruct (Z.eqb_spec c 45) as [->|Hc].
    - by rewrite drop_0.
    - assert (escape c = c) as Ec by (unfold escape; by apply Z.eqb_neq in Hc as ->).
      destruct (find_byte 45 name) as [i|]; cbn [fmap option_fmap option_map].
      + cbn [take drop Nat.add]. rewrite fmap_cons, Ec. destruct IH as [E1 E2]. by rewrite <- E1.
      + by rewrite fmap_cons, Ec, <- IH. }
  destruct (find_byte 45 name) as [i|]; [|done]. destruct H as [E1 E2].
  rewrite <- (take_drop i name) at 3. rewrite fmap_app, <- E1, E2, <- app_assoc. done.
Qed.

Lemma escape_punctuation c : is_punctuation (escape c) = is_punctuation c.
Proof. unfold escape. by destruct (Z.eqb_spec c 45) as [->|]. Qed.

Lemma escape_valid c : valid_byte (escape c) = valid_byte c.
Proof. unfold escape. by destruct (Z.eqb_spec c 45) as [->|]. Qed.

Lemma words_escape s : words (escape <$> s) = words s.
Proof.
  induction s as [|c s IH]; [done|]. rewrite fmap_cons. cbn [words]. rewrite escape_punctuation, IH.
  destruct (is_punctuation c) eqn:E; [done|]. unfold escape.
  destruct (Z.eqb_spec c 45) as [->|]; done.
Qed.

Lemma valid_escape s : valid_name (escape <$> s) = valid_name s.
Proof.
  unfold valid_name. f_equal; [f_equal|].
  - induction s as [|c s IH]; [done|]. cbn. by rewrite escape_valid, IH.
  - destruct s; [done|]. cbn. by rewrite escape_punctuation.
  - rewrite fmap_last. destruct (last s); [|done]. cbn. by rewrite escape_punctuation.
Qed.

(** The escaped name has no dash, and is read back as the name. *)
Lemma dist_info_roundtrip n :
  normalized_name n ->
  validate_and_normalize_ref (as_dist_info_name n) = Ok n /\ 45 ∉ as_dist_info_name n.
Proof.
  intros (V & E & _)%normalized_bytes. rewrite as_dist_info_name_escape. split.
  - rewrite validate_spec, valid_escape, V. unfold normal_form, name_words in *. by rewrite words_escape, E.
  - intros (c & E' & _)%list_elem_of_fmap. unfold escape in E'. by destruct (Z.eqb_spec c 45).
Qed.

(** ** Groups *)

Lemma rsplit_once_None b s : b ∉ s -> rsplit_once b s = None.
Proof.
  induction s as [|c s IH]; [done|]. rewrite not_elem_of_cons. intros [Hc Hs]. cbn. rewrite IH by done.
  by destruct (Z.eqb_spec c b).
Qed.

Lemma rsplit_once_app b s t : b ∉ t -> rsplit_once b (s ++ b :: t) = Some (s, t).
Proof.
  intros Ht. induction s as [|c s IH]; cbn; [|by rewrite IH].
  by rewrite rsplit_once_None, Z.eqb_refl.
Qed.

Lemma normalized_no_colon n : normalized_name n -> 58 ∉ n.
Proof.
  intros (_ & _ & H)%normalized_bytes. rewrite forallb_forall in H. intros Hin%list_elem_of_In.
  by specialize (H 58 Hin).
Qed.

(** A group that was read is read back from what it prints as. *)
Lemma pip_group_roundtrip s p :
  pip_group_name_from_str s = Ok p ->
  normalized_name (pip_group_name p) /\ pip_group_name_from_str (pip_group_name_display p) = Ok p.
Proof.
  unfold pip_group_name_from_str at 1, group_name_from_str.
  destruct (rsplit_once 58 s) as [[path name]|] eqn:ES.
  - destruct (ends_with path PYPROJECT_TOML) eqn:EW; [|done]. cbn [negb].
    destruct (validate_and_normalize_ref name) as [n|] eqn:E; [|done]. intros [= <-].
    apply validate_normalized in E. split; [done|].
    unfold pip_group_name_from_str, pip_group_name_display. cbn [pip_group_path pip_group_name app].
    rewrite rsplit_once_app by (by apply normalized_no_colon). rewrite EW. cbn [negb].
    unfold group_name_from_str. by rewrite E.
  - destruct (validate_and_normalize_ref s) as [n|] eqn:E; [|done]. intros [= <-].
    apply validate_normalized in E. split; [done|].
    unfold pip_group_name_from_str, pip_group_name_display. cbn [pip_group_path pip_group_name].
    rewrite rsplit_once_None by (by apply normalized_no_colon). unfold group_name_from_str. by rewrite E.
Qed.

(** The strict order of names. *)
Definition group_lt (x y : GroupName) : Prop := group_name_cmp x y = Lt.

#[export] Instance ord_group_name : OrdLaws group_name_cmp.
Proof. unfold group_name_cmp. apply _. Qed.

#[export] Instance ord_exact_group_name : OrdExact group_name_cmp.
Proof. unfold group_name_cmp. apply _. Qed.

#[local] Instance group_lt_trans : Transitive group_lt.
Proof. intros x y z. apply (cmp_lt_trans group_name_cmp). Qed.

#[local] Instance group_lt_antisym : AntiSymm (=) group_lt.
Proof.
  intros x y H1 H2. unfold group_lt in *. rewrite (cmp_opp group_name_cmp x y), H1 in H2. done.
Qed.

Lemma dedup_elem_of l x : x ∈ dedup l <-> x ∈ l.
Proof.
  induction l as [|y l IH]; [done|]. cbn [dedup]. rewrite elem_of_cons, <- IH.
  destruct (dedup l) as [|z l'']; [by rewrite elem_of_cons|].
  case_bool_decide as E; [subst z|]; rewrite !elem_of_cons; tauto.
Qed.

Lemma dedup_sorted l : Sorted (key_le group_name_cmp) l -> Sorted group_lt (dedup l).
Proof.
  induction l as [|x l IH]; intros Hs; [constructor|]. apply Sorted_inv in Hs as [Hs Hh].
  specialize (IH Hs). cbn [dedup].
  assert (head (dedup l) = head l) as Ehd by (destruct l as [|y l]; [done|];
    cbn [dedup]; destruct (dedup l); [done|]; by case_bool_decide).
  destruct (dedup l) as [|z l'']; [by repeat constructor|].
  destruct l as [|y l]; [done|]. cbn in Ehd. injection Ehd as ->. inversion Hh as [|?? Hle]; subst.
  case_bool_decide as E; [by subst|]. constructor; [done|]. constructor. unfold group_lt, key_le in *.
  destruct (group_name_cmp x y) eqn:C; [by apply (cmp_exact group_name_cmp) in C|done|done].
Qed.

Lemma from_groups_spec gs :
  exists l, default_groups_from_groups gs = GroupList l /\ StronglySorted group_lt l /\
    forall g, g ∈ l <-> g ∈ gs.
Proof.
  eexists. split; [reflexivity|]. split.
  - apply Sorted_StronglySorted; [apply _|]. apply dedup_sorted.
    pose proof (sort_by_sorted group_name_cmp id group_name_cmp (fun _ => True)
      (fun x y _ _ => eq_refl) gs (Forall_true _ _ (fun _ => I))) as H.
    unfold keys_sorted in H. by rewrite list_fmap_id in H.
  - intros g. rewrite dedup_elem_of. by rewrite (sort_by_perm group_name_cmp gs).
Qed.

Lemma sorted_NoDup l : StronglySorted group_lt l -> NoDup l.
Proof.
  induction 1 as [|x l Hs IH Hx]; constructor; [|done]. intros Hin.
  rewrite Forall_forall in Hx. specialize (Hx x Hin). unfold group_lt in Hx.
  by rewrite (cmp_refl group_name_cmp) in Hx.
Qed.

(** The list depends on the set of groups alone. *)
Lemma from_groups_unique gs gs' :
  (forall g, g ∈ gs <-> g ∈ gs') -> default_groups_from_groups gs = default_groups_from_groups gs'.
Proof.
  intros H. destruct (from_groups_spec gs) as (l & -> & S1 & E1).
  destruct (from_groups_spec gs') as (l' & -> & S2 & E2). f_equal.
  apply (StronglySorted_unique group_lt); [done..|].
  apply NoDup_Permutation; [by apply sorted_NoDup..|]. intros g. by rewrite E1, E2.
Qed.
