(* ===== verification/Examples.v ===== *)
(** * Concrete versions and specifiers

    Versions and specifiers read from text, with the facts about them that the properties assume;
    the properties are evaluated on them. *)

From stdpp Require Import base list option numbers decidable strings.
From Stdlib Require Import ZArith Lia.
From S2P Require Import Prelude Text VersionTypes VersionSmall Version VersionOrder VersionCacheKey.
From S2P Require Import VersionParser VersionParserFacts VersionSpecifier VersionRanges.
From S2P Require Import VersionRangesFacts ReleaseRanges SpecifierParser SpecifierFacts.

Local Open Scope Z_scope.

#[local] Existing Instance list_scanner.
#[local] Existing Instance list_scanner_laws.

(** The version that a text stands for. *)
Definition version_of (s : string) : Version :=
  match version_from_str (bytes s) with
  | Done v => v
  | _ => Small small_new
  end.

Definition parses (s : string) : bool :=
  match version_from_str (bytes s) with Done _ => true | _ => false end.

Lemma version_of_parsed s : parses s = true -> version_parsed (version_of s).
Proof.
  unfold parses, version_of. pose proof (version_from_str_returns _ (bytes_u8 s)) as H.
  by destruct (version_from_str (bytes s)).
Qed.

Lemma version_of_real s : parses s = true -> version_real (version_of s).
Proof. intros H. by apply version_of_parsed. Qed.

Lemma version_of_comparable s : parses s = true -> comparable (version_of s).
Proof. intros H. by apply real_comparable, version_of_real. Qed.

Lemma version_of_release s :
  parses s = true ->
  version_make_full (version_of s) = release_only (version_release (version_of s)) ->
  release_version (version_of s).
Proof. intros H E. split; [by apply version_of_real|done]. Qed.

(** The specifier that a text stands for. *)
Definition specifier_of (s : string) : VersionSpecifier :=
  match specifier_from_str (bytes s) with
  | Some (Ok x) => x
  | _ => mkSpecifier Equal (Small small_new)
  end.

Definition specifies (s : string) : bool :=
  match specifier_from_str (bytes s) with Some (Ok _) => true | _ => false end.

Lemma bytes_chars s : Forall is_char (bytes s).
Proof.
  eapply Forall_impl; [apply bytes_u8|]. unfold is_u8, is_char, U8_MAX. lia.
Qed.

Lemma specifier_of_valid s : specifies s = true -> specifier_valid (specifier_of s).
Proof.
  unfold specifies, specifier_of. pose proof (specifier_from_str_spec (bytes s) (bytes_chars s)) as H.
  by destruct (specifier_from_str _) as [[x|]|].
Qed.
