(* ===== verification/PropertiesVersion.v ===== *)
(** * Properties of versions

    What [crates/uv-pep440/src/version.rs] promises: both representations of a version agree, the
    order is that of PEP 440, and the parser returns, on every input, what the printer prints. *)

From stdpp Require Import base list option numbers decidable strings.
From Stdlib Require Import ZArith Lia.
From S2P Require Import Prelude Text VersionTypes VersionSmall Version VersionOrder VersionCacheKey.
From S2P Require Import VersionParser VersionParserFacts VersionDisplay.
From S2P Require Import VersionRangesFacts VersionBump Examples.

Local Open Scope Z_scope.

(** ** Representation *)

(** [w] keeps the invariant and stands for the fields [f]. *)
Definition assigns (w : Version) (f : VersionFull) : Prop :=
  version_rep_wf w /\ version_make_full w = f.

(** C20: every setter keeps the invariant of both representations, and does to the fields that the
    version stands for exactly the assignment of its field, whether or not the packed
    representation has room for the value. *)
Theorem setters_assign_fields (v : Version) (n : Z) (pre : option Prerelease)
    (number : option Z) (local : LocalVersion) :
  version_rep_wf v -> is_u64 n -> opt_pre_u64 pre -> opt_u64 number -> local_wf local ->
  let f := version_make_full v in
  assigns (version_with_epoch v n) (full_set_epoch f n) /\
  assigns (version_push_release v n) (full_set_release f (full_release f ++ [n])) /\
  assigns (version_clear_release v) (full_set_release f []) /\
  assigns (version_with_pre v pre) (full_set_pre f pre) /\
  assigns (version_with_post v number) (full_set_post f number) /\
  assigns (version_with_dev v number) (full_set_dev f number) /\
  assigns (version_with_min v number) (full_set_min f number) /\
  assigns (version_with_max v number) (full_set_max f number) /\
  assigns (version_with_local v local) (full_set_local f local) /\
  assigns (version_without_local v) (full_set_local f local_empty).
Proof.
  intros W Hn Hp Hnum Hl f. split_and!.
  - by apply (with_epoch_implements n Hn v W).
  - by apply (push_release_implements n Hn v W).
  - by apply (clear_release_implements v W).
  - by apply (with_pre_implements pre Hp v W).
  - by apply (with_post_implements number Hnum v W).
  - by apply (with_dev_implements number Hnum v W).
  - by apply (with_min_implements number Hnum v W).
  - by apply (with_max_implements number Hnum v W).
  - by apply (with_local_implements local Hl v W).
  - by apply (without_local_implements v W).
Qed.

Lemma setters_assign_fields_witness :
  version_make_full (version_with_pre (version_of "1.2.3") (Some (mkPrerelease Beta 70000))) =
    mkFull 0 [1; 2; 3] (Some (mkPrerelease Beta 70000)) None None local_empty None None.
Proof.
  destruct (setters_assign_fields (version_of "1.2.3") 7 (Some (mkPrerelease Beta 70000)) (Some 1)
    (Segments [LocalNumber 5])) as (_ & _ & _ & [_ E] & _).
  - apply version_of_real. reflexivity.
  - by split.
  - by split.
  - by split.
  - repeat constructor; done.
  - rewrite E. vm_compute. reflexivity.
Defined.

(** A version is made from any non-empty list of release numbers, and stands for them; the
    constructor panics on the empty list and on no other. *)
Theorem version_new_total (ns : list Z) :
  Forall is_u64 ns ->
  match version_new ns with
  | None => ns = []
  | Some w => ns <> [] /\ version_wf w /\ version_make_full w = release_only ns
  end.
Proof. apply new_spec. Qed.

Lemma version_new_total_witness :
  match version_new [1; 300; 2; 4; 5] with
  | None => False
  | Some w => version_make_full w = release_only [1; 300; 2; 4; 5]
  end.
Proof.
  assert (Forall is_u64 [1; 300; 2; 4; 5]) as H by (repeat constructor; done).
  pose proof (version_new_total [1; 300; 2; 4; 5] H) as E. revert E.
  destruct (version_new [1; 300; 2; 4; 5]); [by intros (_ & _ & ->)|done].
Defined.

(** Trimming a version leaves its release without trailing zeros (a lone zero if nothing
    else is left) and drops every other component. *)
Theorem only_release_trimmed_correct (v : Version) :
  version_wf v ->
  exists w, version_only_release_trimmed v = Some w /\ version_wf w /\
    version_make_full w =
      release_only (match strip_zeros (version_release v) with [] => [0] | ns => ns end).
Proof. apply only_release_trimmed_spec. Qed.

Lemma only_release_trimmed_witness :
  exists w, version_only_release_trimmed (version_of "1!3.10.0.0a1") = Some w /\ version_wf w /\
    version_make_full w = release_only [3; 10].
Proof.
  apply (only_release_trimmed_correct (version_of "1!3.10.0.0a1")).
  apply version_of_real. reflexivity.
Defined.

(** Reducing a version to a precision keeps the epoch and that many release numbers, padded
    with zeros; only the precision zero is refused, and nothing panics. *)
Theorem only_release_at_precision_correct (v : Version) (precision : nat) :
  version_wf v ->
  match version_only_release_at_precision v precision with
  | None => False
  | Some None => precision = O
  | Some (Some w) => version_wf w /\
      version_make_full w =
        full_set_epoch (release_only (take precision (version_release v ++ replicate precision 0)))
          (version_epoch v)
  end.
Proof. apply only_release_at_precision_spec. Qed.

Lemma only_release_at_precision_witness :
  match version_only_release_at_precision (version_of "2!3.10rc1") 3 with
  | Some (Some w) => version_make_full w = full_set_epoch (release_only [3; 10; 0]) 2
  | _ => False
  end.
Proof.
  pose proof (only_release_at_precision_correct (version_of "2!3.10rc1") 3) as H.
  destruct (version_only_release_at_precision (version_of "2!3.10rc1") 3) as [[w|]|].
  - apply H. apply version_of_real. reflexivity.
  - discriminate H. apply version_of_real. reflexivity.
  - apply H. apply version_of_real. reflexivity.
Defined.

(** ** Order *)

(** C21: comparing the packed words of two versions gives the same result as comparing their
    components one by one. The versions may have the sentinel for the largest version, with the number 0
    that the code always gives it. *)
Theorem packed_comparison (v w : Version) :
  version_rep_wf v -> version_rep_wf w -> max_sentinel v -> max_sentinel w ->
  version_cmp v w = version_cmp_slow v w.
Proof. apply version_cmp_is_slow. Qed.

Lemma packed_comparison_witness :
  version_cmp_slow (version_of "1.2.dev3") (version_of "1.2a1") = Lt.
Proof.
  rewrite <- (packed_comparison (version_of "1.2.dev3") (version_of "1.2a1"));
    [vm_compute; reflexivity|apply version_of_real; reflexivity|apply version_of_real; reflexivity|..];
    vm_compute; exact I.
Defined.

(** C36: versions that a user can write are ordered as PEP 440 says: by epoch, then the release
    padded with zeros, then pre-releases (a development release below them), post-releases,
    development releases and the local version. *)
Theorem version_order_pep440 (v w : Version) :
  version_real v -> version_real w ->
  version_cmp v w = pep440_cmp (version_make_full v) (version_make_full w).
Proof. apply version_cmp_pep440. Qed.

Lemma version_order_pep440_witness :
  pep440_cmp (version_make_full (version_of "1.0b2.post345.dev456"))
    (version_make_full (version_of "1.0b2.post345")) = Lt.
Proof.
  rewrite <- (version_order_pep440 (version_of "1.0b2.post345.dev456") (version_of "1.0b2.post345"));
    [vm_compute; reflexivity|apply version_of_real; reflexivity..].
Defined.

(** The comparison is a total preorder, also between versions with the internal sentinels
    that the resolver uses. *)
Theorem version_order_total (u v w : Version) :
  comparable u -> comparable v -> comparable w ->
  version_cmp u u = Eq /\
  version_cmp v u = CompOpp (version_cmp u v) /\
  (version_cmp u v = Eq -> version_cmp u w = version_cmp v w) /\
  (version_cmp u v <> Gt -> version_cmp v w <> Gt -> version_cmp u w <> Gt).
Proof.
  intros Cu Cv Cw. rewrite !version_cmp_full by done. split_and!.
  - apply (cmp_refl full_cmp).
  - apply (cmp_opp full_cmp).
  - apply (cmp_eq_l full_cmp).
  - apply (cmp_le_trans full_cmp).
Qed.

Lemma version_order_total_witness :
  version_cmp (version_of "1.0rc1") (version_of "1.0+local.7") <> Gt.
Proof.
  apply (version_order_total (version_of "1.0rc1") (version_of "1.0") (version_of "1.0+local.7"));
    try (apply version_of_comparable; reflexivity); vm_compute; discriminate.
Defined.

(** Versions that compare equal, such as [1.0] and [1.0.0], are fed to the hasher as the same
    items. *)
Theorem equal_versions_hash_alike (v w : Version) :
  version_real v -> version_real w -> version_eq v w = true -> version_hash v = version_hash w.
Proof. apply version_eq_hash. Qed.

Lemma equal_versions_hash_alike_witness :
  version_hash (version_of "1!1.0.0") = version_hash (version_of "1!1").
Proof.
  apply (equal_versions_hash_alike (version_of "1!1.0.0") (version_of "1!1"));
    [apply version_of_real; reflexivity..|vm_compute; reflexivity].
Defined.

(** The comparison that ignores post-release and development numbers is the equality of the
    versions with those components (and the local version) of the left one removed. *)
Theorem base_equality (v w : Version) :
  version_real v -> version_real w ->
  version_without_post_and_dev_eq v w = true <->
  full_equiv (full_base (version_make_full v)) (version_make_full w).
Proof. apply without_post_and_dev_eq_iff. Qed.

Lemma base_equality_witness :
  full_equiv (full_base (version_make_full (version_of "1.2a1.post3.dev4")))
    (version_make_full (version_of "1.2.0a1")).
Proof.
  apply (base_equality (version_of "1.2a1.post3.dev4") (version_of "1.2.0a1"));
    [apply version_of_real; reflexivity..|vm_compute; reflexivity].
Defined.

(** ** Parsing and printing *)

(** C25: on any bytes, parsing a version ends without a panic, in an error or in a version that
    keeps the invariant, has no internal sentinel and no number equal to the largest [u64], and
    whose local version is lower case with its numbers read as numbers. *)
Theorem parse_total (text : list Z) :
  Forall is_u8 text ->
  match version_from_str text with
  | Done v => version_real v /\ local_canonical (version_local v)
  | Failed _ => True
  | Panicked => False
  end.
Proof.
  intros H. pose proof (version_from_str_returns text H) as R.
  by destruct (version_from_str text).
Qed.

Lemma parse_total_witness :
  match version_from_str (bytes "1!2.3RC4.post5.dev6+Ubuntu.007") with
  | Done v => version_real v
  | _ => False
  end.
Proof.
  assert (version_from_str (bytes "1!2.3RC4.post5.dev6+Ubuntu.007") =
    Done (version_of "1!2.3RC4.post5.dev6+Ubuntu.007")) as E by (vm_compute; reflexivity).
  pose proof (parse_total (bytes "1!2.3RC4.post5.dev6+Ubuntu.007") (bytes_u8 _)) as H.
  rewrite E in H |- *. destruct H as [H _]. exact H.
Defined.

(** C26: the fast path for short release-only versions gives the result of the full parser
    wherever it gives one, so trying it first changes nothing. *)
Theorem fast_path_agrees (text : list Z) :
  Forall is_u8 text ->
  (forall p, parse_fast text = Some p -> parse_pattern_slow (parser_new text) = Done p) /\
  parse_pattern (parser_new text) = parse_pattern_slow (parser_new text).
Proof.
  intros H. split; [intros p; by apply parse_fast_slow|by apply parse_pattern_is_slow].
Qed.

Lemma fast_path_agrees_witness :
  parse_pattern_slow (parser_new (bytes "3.12.255.7")) =
    Done (mkPattern (version_of "3.12.255.7") false).
Proof.
  destruct (fast_path_agrees (bytes "3.12.255.7") (bytes_u8 _)) as [H _]. apply H.
  vm_compute. reflexivity.
Defined.

(** The fuel of the two loops of the parser is enough: more than the number of bytes left
    gives the same result, whatever the amount. *)
Theorem parser_loops_terminate (s : Parser) (precursor : Z) (fuel : nat) :
  parser_wf s -> (length (rest s) < fuel)%nat ->
  parse_rest_of_release_loop fuel s = parse_rest_of_release_loop (S (length (rest s))) s /\
  parse_local_loop fuel precursor s = parse_local_loop (S (length (rest s))) precursor s.
Proof.
  intros W H. split; [apply parse_rest_loop_fuel|apply parse_local_loop_fuel]; done || lia.
Qed.

Lemma parser_loops_terminate_witness :
  parse_local_loop 100 43 (parser_new (bytes "ubuntu.1")) =
  parse_local_loop 9 43 (parser_new (bytes "ubuntu.1")).
Proof.
  apply (parser_loops_terminate (parser_new (bytes "ubuntu.1")) 43 100);
    [apply parser_new_wf, bytes_u8|cbn; lia].
Defined.

(** C27: a printed version is read back: parsing what a parsed version prints as gives a version
    with the same components. *)
Theorem print_parse_roundtrip (v : Version) :
  version_real v -> local_canonical (version_local v) ->
  exists w, version_from_str (version_display v) = Done w /\
    version_real w /\ version_make_full w = version_make_full v.
Proof. intros R L. by apply display_parse. Qed.

Lemma print_parse_roundtrip_witness :
  exists w, version_from_str (version_display (version_of "1!2.3RC4.post5.dev6+Ubuntu.007")) = Done w /\
    version_real w /\ version_make_full w = version_make_full (version_of "1!2.3c4-5dev6+ubuntu.7").
Proof.
  apply (print_parse_roundtrip (version_of "1!2.3RC4.post5.dev6+Ubuntu.007"));
    apply version_of_parsed; reflexivity.
Defined.

(** A release printed with a trailing [.*] is read back as a wildcard pattern. *)
Theorem wildcard_roundtrip (v : Version) :
  version_real v -> local_canonical (version_local v) ->
  version_pre v = None -> version_post v = None -> version_dev v = None ->
  version_local v = local_empty ->
  exists w, version_pattern_from_str (version_display v ++ bytes ".*") = Done (mkPattern w true) /\
    version_real w /\ version_make_full w = version_make_full v.
Proof. intros R L. by apply display_parse_wildcard. Qed.

Lemma wildcard_roundtrip_witness :
  exists w, version_pattern_from_str (bytes "3.12.*") = Done (mkPattern w true) /\
    version_real w /\ version_make_full w = version_make_full (version_of "3.12").
Proof.
  apply (wildcard_roundtrip (version_of "3.12")); try reflexivity;
    apply version_of_parsed; reflexivity.
Defined.

(** ** Bumping and cache keys *)

(** Every bump command keeps the invariant, and a command that bumps a component which is
    there (a release number, the post-release number, the number of the same kind of pre-release,
    the development number) yields a larger version. *)
Theorem bump_moves_forward (v : Version) (b : BumpCommand) :
  version_real v -> bump_wf b ->
  version_wf (version_bump v b) /\
  (bumps_forward v b = true -> version_cmp v (version_bump v b) = Lt).
Proof.
  intros R Hb. split; [apply bump_wf_version; [apply R|done]|by apply bump_increases].
Qed.

Lemma bump_moves_forward_witness :
  version_cmp (version_of "1.2.3rc4.dev5") (version_bump (version_of "1.2.3rc4.dev5") (BumpRelease 1 None)) = Lt.
Proof.
  apply (bump_moves_forward (version_of "1.2.3rc4.dev5") (BumpRelease 1 None));
    [apply version_of_real; reflexivity|exact I|reflexivity].
Defined.

(** What a version writes to the cache-key hasher determines its components (other than the
    internal sentinels), whatever is written after it. *)
Theorem cache_key_injective (v w : Version) (r r' : list CacheWrite) :
  version_cache_key v ++ r = version_cache_key w ++ r' ->
  version_epoch v = version_epoch w /\ version_release v = version_release w /\
  version_pre v = version_pre w /\ version_post v = version_post w /\
  version_dev v = version_dev w /\ version_local v = version_local w /\ r = r'.
Proof.
  intros E. destruct (version_cache_key_components v w r r' E) as [(? & ? & ? & ? & ? & ?) ?].
  by split_and!.
Qed.

Lemma cache_key_injective_witness :
  version_release (version_of "1.2.3") = version_release (Full (version_make_full (version_of "1.2.3"))).
Proof.
  apply (cache_key_injective (version_of "1.2.3") (Full (version_make_full (version_of "1.2.3")))
    [WriteU8 1] [WriteU8 1]). vm_compute. reflexivity.
Defined.
