(* ===== verification/PropertiesSpecifier.v ===== *)
(** * Properties of specifiers and ranges

    What [crates/uv-pep440/src/version_specifier.rs] and [version_ranges.rs] promise: a specifier
    and the range it is converted to admit the same versions, parsing never panics and reads back
    what is printed, and the operations on bounds and sentinels keep the versions a range admits. *)

From stdpp Require Import base list option numbers decidable strings.
From Stdlib Require Import ZArith Lia.
From S2P Require Import Prelude Text VersionTypes VersionSmall Version VersionOrder.
From S2P Require Import VersionCacheKey VersionParser VersionDisplay VersionSpecifier VersionRanges.
From S2P Require Import VersionRangesFacts VersionCanonical ReleaseRanges.
From S2P Require Import SpecifierParser SpecifierFacts SpecifierBounds.
From S2P Require Import Examples.

Local Open Scope Z_scope.

(** ** Specifiers and ranges *)

(** C4: a specifier is always converted to a range, and the range contains exactly the versions
    that the specifier matches: the resolver and the direct check never disagree. *)
Theorem specifier_range_agreement `{!RangesType, !RangesAlgebra, !RangesAlgebraLaws}
    (x : VersionSpecifier) (w : Version) :
  specifier_valid x -> version_real w ->
  exists r, specifier_to_range x = Some r /\
    specifier_contains x w = Some (ranges_contains r w).
Proof. apply specifier_agree. Qed.

Lemma specifier_range_agreement_witness :
  exists r, @specifier_to_range Predicates.predicate_ranges Predicates.predicate_algebra
      (specifier_of "~=1.4.5a4") = Some r /\
    specifier_contains (specifier_of "~=1.4.5a4") (version_of "1.4.6+local") =
      Some (@ranges_contains Predicates.predicate_ranges r (version_of "1.4.6+local")).
Proof.
  apply (@specifier_range_agreement _ _ Predicates.predicate_laws);
    [apply specifier_of_valid; reflexivity|apply version_of_real; reflexivity].
Defined.

(** The same holds of a list of specifiers and the intersection of their ranges. *)
Theorem specifiers_range_agreement `{!RangesType, !RangesAlgebra, !RangesAlgebraLaws}
    (xs : VersionSpecifiers) (w : Version) :
  Forall specifier_valid xs -> version_real w ->
  exists r, specifiers_to_range xs = Some r /\
    specifiers_contains xs w = Some (ranges_contains r w).
Proof.
  intros V R. destruct (specifiers_fold_agree xs w ranges_full V R) as (r & E & C).
  exists r. split; [exact E|]. destruct (specifiers_contains xs w) as [b|]; [|done].
  cbn in C. by rewrite contains_full in C.
Qed.

Lemma specifiers_range_agreement_witness :
  exists r, @specifiers_to_range Predicates.predicate_ranges Predicates.predicate_algebra
      [specifier_of ">=3.8"; specifier_of "!=3.9.*"; specifier_of "<4"] = Some r /\
    specifiers_contains [specifier_of ">=3.8"; specifier_of "!=3.9.*"; specifier_of "<4"]
      (version_of "3.10rc1") =
      Some (@ranges_contains Predicates.predicate_ranges r (version_of "3.10rc1")).
Proof.
  apply (@specifiers_range_agreement _ _ Predicates.predicate_laws);
    [|apply version_of_real; reflexivity].
  repeat apply Forall_cons_2; try apply Forall_nil_2; apply specifier_of_valid; reflexivity.
Defined.

(** With release-only semantics, as for [requires-python], the conversion (trimmed or not)
    agrees with the specifier on versions that are a release. *)
Theorem release_range_agreement `{!RangesType, !RangesAlgebra, !RangesAlgebraLaws}
    (op : Operator) (u w : Version) (trim : bool) :
  release_version u -> release_version w -> specifier_valid (mkSpecifier op u) ->
  exists r, release_specifier_to_range (mkSpecifier op u) trim = Some r /\
    specifier_contains (mkSpecifier op u) w = Some (ranges_contains r w).
Proof. intros Hu Hw. by apply release_agree. Qed.

Lemma release_range_agreement_witness :
  exists r, @release_specifier_to_range Predicates.predicate_ranges Predicates.predicate_algebra
      (mkSpecifier EqualStar (version_of "3.10.0")) true = Some r /\
    specifier_contains (mkSpecifier EqualStar (version_of "3.10.0")) (version_of "3.10.0.4") =
      Some (@ranges_contains Predicates.predicate_ranges r (version_of "3.10.0.4")).
Proof.
  apply (@release_range_agreement _ _ Predicates.predicate_laws);
    [apply version_of_release; reflexivity..|].
  apply release_valid; [apply version_of_release; reflexivity|discriminate].
Defined.

(** ** Sentinels *)

(** Canonicalising the sentinels in a range leaves its members among the versions that exist
    as they are. *)
Theorem canonicalize_keeps_members `{!RangesType, !RangesSegments, !RangesSegmentsLaws}
    (r : Ranges) (w : Version) :
  ranges_ok r -> version_real w ->
  ranges_contains (default r (canonicalize_version_ranges r)) w = ranges_contains r w.
Proof. apply canonicalize_members. Qed.

(** The range of [>1.0,<2.0], with the sentinels above [1.0] and below [2.0]. *)
Definition sentinel_range : list (Bound * Bound) :=
  [(Excluded (version_with_max (version_of "1.0") (Some 0)),
    Excluded (version_with_min (version_of "2.0") (Some 0)))].

Lemma sentinel_range_ok : @ranges_ok Segments.segment_ranges Segments.segment_segments sentinel_range.
Proof.
  unfold ranges_ok. cbn [ranges_iter Segments.segment_segments sentinel_range].
  repeat apply Forall_cons_2; [|apply Forall_nil_2]. split; cbn [bound_ok fst snd].
  - apply (boundary_max _ (version_of "1.0")); try reflexivity; [apply version_of_real; reflexivity|].
    apply with_max_stands. apply version_of_real. reflexivity.
  - apply (boundary_min _ (version_of "2.0")); try reflexivity; [apply version_of_real; reflexivity|].
    apply with_min_stands. apply version_of_real. reflexivity.
Qed.

Lemma canonicalize_keeps_members_witness :
  @ranges_contains Segments.segment_ranges
    (default sentinel_range (@canonicalize_version_ranges Segments.segment_ranges
      Segments.segment_segments sentinel_range)) (version_of "1.0.post1.dev2") =
  @ranges_contains Segments.segment_ranges sentinel_range (version_of "1.0.post1.dev2").
Proof.
  apply (@canonicalize_keeps_members _ _ Segments.segment_laws);
    [apply sentinel_range_ok|apply version_of_real; reflexivity].
Defined.

(** A canonicalised segment needs no further canonicalisation, so canonical ranges can be
    compared and hashed by their segments. *)
Theorem canonicalize_is_final (seg seg' : Bound * Bound) :
  bound_ok seg.1 -> bound_ok seg.2 -> canonicalize_segment seg = Some seg' ->
  lower_bound_needs_canonicalization seg'.1 = false /\
  upper_bound_needs_canonicalization seg'.2 = false.
Proof. apply canonicalize_segment_canonical. Qed.

Lemma canonicalize_is_final_witness :
  lower_bound_needs_canonicalization (Included (Full (version_make_full (version_of "1.0.dev4")))) = false.
Proof.
  destruct (canonicalize_is_final
    (Excluded (version_with_local (version_of "1.0.dev3") LocalMax), Unbounded)
    (Included (Full (version_make_full (version_of "1.0.dev4"))), Unbounded))
    as [H _]; [| |vm_compute; reflexivity|exact H].
  - apply (boundary_local _ (version_of "1.0.dev3")); [apply version_of_real; reflexivity|reflexivity|].
    apply with_local_stands; [apply version_of_real; reflexivity|exact I].
  - exact I.
Defined.

(** ** Parsing and printing *)

(** On any text, parsing a specifier ends without a panic: in an error, whose suggestion can
    be built, or in a specifier that keeps the rules of its operator (no local version with an
    ordering operator, two release numbers for [~=], a plain release before a wildcard). *)
Theorem specifier_parse_total `{!Scanner, !ScannerLaws} (spec : list Z) :
  Forall is_char spec ->
  match specifier_from_str spec with
  | None => False
  | Some (Ok x) => specifier_valid x
  | Some (Err (MissingOperator p)) => exists x, operator_build_error_suggestion p = Some x
  | Some (Err _) => True
  end.
Proof. apply specifier_from_str_spec. Qed.

Lemma specifier_parse_total_witness : specifier_valid (specifier_of " ~= 3.12.1rc2 ").
Proof.
  assert (@specifier_from_str list_scanner (bytes " ~= 3.12.1rc2 ") =
    Some (Ok (specifier_of " ~= 3.12.1rc2 "))) as E by (vm_compute; reflexivity).
  pose proof (@specifier_parse_total list_scanner list_scanner_laws (bytes " ~= 3.12.1rc2 ")
    (bytes_chars _)) as H.
  rewrite E in H. exact H.
Defined.

(** A printed specifier is read back, also after white space. *)
Theorem specifier_roundtrip `{!Scanner, !ScannerLaws} (x : VersionSpecifier) (ws : list Z) :
  specifier_valid x -> version_parsed (specifier_version x) ->
  Forall (fun c => is_whitespace c = true) ws ->
  exists w, specifier_from_str (ws ++ specifier_display x) =
      Some (Ok (mkSpecifier (specifier_operator x) w)) /\
    version_real w /\ version_make_full w = version_make_full (specifier_version x).
Proof. apply specifier_display_parse. Qed.

Lemma specifier_roundtrip_witness :
  exists w, @specifier_from_str list_scanner
      (bytes "  " ++ specifier_display (mkSpecifier NotEqualStar (version_of "3.9"))) =
      Some (Ok (mkSpecifier NotEqualStar w)) /\
    version_real w /\ version_make_full w = version_make_full (version_of "3.9").
Proof.
  apply (@specifier_roundtrip list_scanner list_scanner_laws
    (mkSpecifier NotEqualStar (version_of "3.9")) (bytes "  ")).
  - apply release_valid; [apply version_of_release; reflexivity|discriminate].
  - apply version_of_parsed. reflexivity.
  - repeat constructor.
Defined.

(** C39: A printed list of specifiers is read back to specifiers with the same operators and with versions of
    the same fields, in the same order, if the list is as the parser makes lists: of valid specifiers of
    parsed versions, sorted by version and operator. *)
Theorem specifiers_roundtrip `{!Scanner, !ScannerLaws} (xs : VersionSpecifiers) :
  Forall (fun x => specifier_valid x /\ version_parsed (specifier_version x)) xs ->
  keys_sorted sort_key sort_key_cmp xs ->
  exists ys, specifiers_from_str (specifiers_display xs) = Some (Ok ys) /\
    Forall2 same_specifier xs ys.
Proof. apply specifiers_display_parse. Qed.

Lemma specifiers_roundtrip_witness :
  exists ys, @specifiers_from_str list_scanner (bytes ">=3.8, !=3.9, <4") = Some (Ok ys) /\
    Forall2 same_specifier
      [mkSpecifier GreaterThanEqual (version_of "3.8"); mkSpecifier NotEqual (version_of "3.9");
       mkSpecifier LessThan (version_of "4")] ys.
Proof.
  apply (@specifiers_roundtrip list_scanner list_scanner_laws
    [mkSpecifier GreaterThanEqual (version_of "3.8"); mkSpecifier NotEqual (version_of "3.9");
     mkSpecifier LessThan (version_of "4")]).
  - repeat apply Forall_cons_2; try apply Forall_nil_2;
      (split; [apply release_valid; [apply version_of_release; reflexivity|discriminate]
              |apply version_of_parsed; reflexivity]).
  - unfold keys_sorted, key_le. repeat constructor; vm_compute; discriminate.
Defined.

(** ** Lists of specifiers *)

(** Sorting a list of specifiers keeps what it contains, sorts it, and the order in which the
    specifiers are given does not matter: the results have equal operators and equal versions. *)
Theorem sorted_specifiers (xs ys : list VersionSpecifier) (w : Version) :
  Forall specifier_valid xs -> xs ≡ₚ ys ->
  specifiers_contains (specifiers_from_unsorted xs) w = specifiers_contains xs w /\
  keys_sorted sort_key sort_key_cmp (specifiers_from_unsorted xs) /\
  Forall2 (fun x y => specifier_operator x = specifier_operator y /\
      version_eq (specifier_version x) (specifier_version y) = true)
    (specifiers_from_unsorted xs) (specifiers_from_unsorted ys).
Proof.
  intros V P. assert (Forall specifier_comparable xs) as C.
  { eapply Forall_impl; [exact V|]. intros x Hx. by apply real_comparable, valid_real. }
  split_and!; [by apply from_unsorted_contains| |by apply from_unsorted_unique].
  apply (sort_by_sorted _ _ _ specifier_comparable); [apply sort_cmp_key|done].
Qed.

Lemma sorted_specifiers_witness :
  specifiers_contains (specifiers_from_unsorted [specifier_of "<4"; specifier_of ">=3.8"])
    (version_of "3.9") = specifiers_contains [specifier_of "<4"; specifier_of ">=3.8"] (version_of "3.9").
Proof.
  apply (sorted_specifiers [specifier_of "<4"; specifier_of ">=3.8"]
    [specifier_of ">=3.8"; specifier_of "<4"]); [|apply Permutation_swap].
  repeat apply Forall_cons_2; try apply Forall_nil_2; apply specifier_of_valid; reflexivity.
Defined.

(** Equality, order and hash of specifiers agree: specifiers are equal exactly when they
    compare equal, and equal ones are fed to the hasher alike. *)
Theorem specifier_equality (x y : VersionSpecifier) :
  version_real (specifier_version x) -> version_real (specifier_version y) ->
  (specifier_eq x y = true <-> specifier_cmp x y = Eq) /\
  (specifier_eq x y = true -> specifier_hash x = specifier_hash y).
Proof. intros Rx Ry. split; [apply specifier_eq_cmp|by apply specifier_eq_hash]. Qed.

Lemma specifier_equality_witness :
  specifier_hash (specifier_of "==1.0") = specifier_hash (specifier_of "==1.0.0").
Proof.
  apply (specifier_equality (specifier_of "==1.0") (specifier_of "==1.0.0"));
    [apply (valid_real (specifier_of "==1.0")); apply specifier_of_valid; reflexivity
    |apply (valid_real (specifier_of "==1.0.0")); apply specifier_of_valid; reflexivity
    |vm_compute; reflexivity].
Defined.

(** ** Bounds *)

(** The specifiers made from ranges given in order admit every release in the ranges, and
    exactly those when each hole between ranges could be described. *)
Theorem specifiers_from_bounds (lower upper : Bound) (bounds : list (Bound * Bound)) (w : Version) :
  release_version w -> ascending lower upper bounds ->
  exists xs, specifiers_from_release_only_bounds ((lower, upper) :: bounds) = Some xs /\
    Forall specifier_valid xs /\
    (existsb (in_segment w) ((lower, upper) :: bounds) = true ->
      specifiers_contains xs w = Some true) /\
    (holes_described upper bounds ->
      specifiers_contains xs w = Some (existsb (in_segment w) ((lower, upper) :: bounds))).
Proof. intros Hw. by apply release_only_bounds_list. Qed.

Lemma specifiers_from_bounds_witness :
  exists xs, specifiers_from_release_only_bounds
      [(Included (version_of "3.8"), Excluded (version_of "3.9"));
       (Included (version_of "3.11"), Unbounded)] = Some xs /\
    specifiers_contains xs (version_of "3.10.4") = Some false.
Proof.
  destruct (specifiers_from_bounds (Included (version_of "3.8")) (Excluded (version_of "3.9"))
    [(Included (version_of "3.11"), Unbounded)] (version_of "3.10.4")) as (xs & E & _ & _ & C).
  - apply version_of_release; reflexivity.
  - refine (conj _ (conj _ (conj _ (conj _ (conj _ (conj I I))))));
      [apply version_of_release; reflexivity|apply version_of_release; reflexivity|
       vm_compute; discriminate|vm_compute; discriminate|apply version_of_release; reflexivity].
  - exists xs. split; [exact E|]. rewrite C; [vm_compute; reflexivity|].
    split; [vm_compute; discriminate|exact I].
Defined.

(** The bounding specifiers of a [~=] specifier with two or three release numbers match
    together what it matches. *)
Theorem tilde_bounds (x : VersionSpecifier) (t : TildeVersionSpecifier) (w : Version) :
  tilde_new x = Some t -> release_version (specifier_version x) ->
  Forall (fun n => n + 1 < U64_MAX) (version_release (specifier_version x)) -> version_real w ->
  exists lower upper, tilde_bounding_specifiers t = Some (lower, upper) /\
    specifier_valid lower /\ specifier_valid upper /\
    specifier_contains t w = Some (matches lower w && matches upper w).
Proof. apply tilde_bounding_spec. Qed.

Lemma tilde_bounds_witness :
  exists lower upper,
    tilde_bounding_specifiers (mkSpecifier TildeEqual (version_of "3.13.1")) = Some (lower, upper) /\
    specifier_valid lower /\ specifier_valid upper /\
    specifier_contains (mkSpecifier TildeEqual (version_of "3.13.1")) (version_of "3.13.4rc1") =
      Some (matches lower (version_of "3.13.4rc1") && matches upper (version_of "3.13.4rc1")).
Proof.
  apply (tilde_bounds (mkSpecifier TildeEqual (version_of "3.13.1"))).
  - vm_compute. reflexivity.
  - apply version_of_release; reflexivity.
  - cbn [specifier_version].
    assert (version_release (version_of "3.13.1") = [3; 13; 1]) as -> by (vm_compute; reflexivity).
    repeat apply Forall_cons_2; try apply Forall_nil_2; reflexivity.
  - apply version_of_real. reflexivity.
Defined.

(** Replacing the patch number of a [~=] specifier never panics, and gives the [~=] specifier
    with the same major and minor number and the new patch number. *)
Theorem tilde_patch (x : VersionSpecifier) (t : TildeVersionSpecifier) (patch : Z) :
  tilde_new x = Some t -> version_real (specifier_version x) -> is_number patch ->
  exists v, tilde_with_patch_version t patch = Some (mkSpecifier TildeEqual v) /\
    release_version v /\
    version_release v = take 2 (version_release (specifier_version x)) ++ [patch].
Proof. apply tilde_with_patch_spec. Qed.

Lemma tilde_patch_witness :
  exists v, tilde_with_patch_version (mkSpecifier TildeEqual (version_of "3.13")) 5 =
      Some (mkSpecifier TildeEqual v) /\
    release_version v /\ version_release v = [3; 13; 5].
Proof.
  apply (tilde_patch (mkSpecifier TildeEqual (version_of "3.13"))).
  - vm_compute. reflexivity.
  - apply version_of_real. reflexivity.
  - by split.
Defined.

(** Bounds are ordered by what they admit: a smaller lower bound admits whatever a larger one
    does, and a larger upper bound whatever a smaller one does. *)
Theorem bound_order (a b : Bound) (v : Version) :
  bound_comparable a -> bound_comparable b -> comparable v ->
  (lower_bound_cmp a b <> Gt ->
    lower_bound_contains b v = true -> lower_bound_contains a v = true) /\
  (upper_bound_cmp a b <> Gt ->
    upper_bound_contains a v = true -> upper_bound_contains b v = true).
Proof.
  intros Ca Cb Cv. split; [by apply lower_bound_monotone|by apply upper_bound_monotone].
Qed.

Lemma bound_order_witness :
  lower_bound_contains (Included (version_of "3.8")) (version_of "3.8.1") = true.
Proof.
  apply (bound_order (Included (version_of "3.8")) (Excluded (version_of "3.8")) (version_of "3.8.1"));
    [apply version_of_comparable; reflexivity..| |vm_compute; reflexivity].
  vm_compute. discriminate.
Defined.

(** Truncating a bound to major and minor version never excludes the major and minor version
    of a release that the bound admits (for an excluded upper bound, one with at most three
    numbers). *)
Theorem truncated_bounds (b : Bound) (v t : Version) :
  release_version v -> release_version t -> version_release t = take 2 (version_release v) ->
  bound_release b ->
  (lower_bound_contains b v = true ->
    exists b', lower_bound_major_minor b = Some b' /\ lower_bound_contains b' t = true) /\
  (bound_precise b -> upper_bound_contains b v = true ->
    exists b', upper_bound_major_minor b = Some b' /\ upper_bound_contains b' t = true).
Proof.
  intros Hv Ht Et Hb. split; [by apply (lower_major_minor v)|by apply (upper_major_minor v)].
Qed.

Lemma truncated_bounds_witness :
  exists b', upper_bound_major_minor (Excluded (version_of "3.10.1")) = Some b' /\
    upper_bound_contains b' (version_of "3.10") = true.
Proof.
  apply (truncated_bounds (Excluded (version_of "3.10.1")) (version_of "3.10.0") (version_of "3.10"));
    [apply version_of_release; reflexivity..|reflexivity|apply version_of_release; reflexivity| |].
  - cbn [bound_precise].
    assert (version_release (version_of "3.10.1") = [3; 10; 1]) as -> by (vm_compute; reflexivity).
    cbn. lia.
  - vm_compute. reflexivity.
Defined.

(** ** Where the code falls short *)

(** An upper bound with a zero patch number and a fourth number is truncated to exclude its
    own major and minor version: [<3.10.0.1] admits [3.10.0], but becomes [<3.10], which rejects
    [3.10]. *)
Theorem truncated_upper_bound_gap :
  upper_bound_contains (Excluded (version_of "3.10.0.1")) (version_of "3.10.0") = true /\
  exists b, upper_bound_major_minor (Excluded (version_of "3.10.0.1")) = Some b /\
    upper_bound_contains b (version_of "3.10") = false.
Proof.
  split; [vm_compute; reflexivity|]. eexists. split; [vm_compute; reflexivity|]. vm_compute. reflexivity.
Qed.

(** The bounding specifiers of [~=] lose the epoch: [~=1!3.13] matches [1!3.13], which the
    upper one, [<4], rejects. *)
Theorem tilde_bounds_lose_epoch :
  tilde_new (specifier_of "~=1!3.13") = Some (specifier_of "~=1!3.13") /\
  specifier_contains (specifier_of "~=1!3.13") (version_of "1!3.13") = Some true /\
  exists lower upper, tilde_bounding_specifiers (specifier_of "~=1!3.13") = Some (lower, upper) /\
    specifier_contains upper (version_of "1!3.13") = Some false.
Proof.
  split; [vm_compute; reflexivity|]. split; [vm_compute; reflexivity|].
  do 2 eexists. split; [vm_compute; reflexivity|]. vm_compute. reflexivity.
Qed.

(** Sorting does not break ties between [~=] specifiers with equal versions of different
    length, which are not equal: two orders of the same specifiers give different lists. *)
Theorem tilde_ties_unsorted :
  let xs := [specifier_of "~=1.0"; specifier_of "~=1.0.0"] in
  let ys := [specifier_of "~=1.0.0"; specifier_of "~=1.0"] in
  xs ≡ₚ ys /\
  forallb (fun '(x, y) => specifier_eq x y)
    (zip (specifiers_from_unsorted xs) (specifiers_from_unsorted ys)) = false.
Proof. split; [apply Permutation_swap|vm_compute; reflexivity]. Qed.
