(* ===== verification/PropertiesNormalize.v ===== *)
(** * Properties of names

    What [crates/uv-normalize/src] promises of the names of packages, extras and groups. *)

From stdpp Require Import base list option numbers decidable strings sorting.
From Stdlib Require Import ZArith Lia.
From S2P Require Import Prelude Text Normalize.

Local Open Scope Z_scope.

(** C40: normalisation accepts exactly the names of letters, digits and punctuation that start and
    end with a letter or digit, and yields their words, in lower case, joined by single dashes;
    looking first whether the name is normalised makes no difference. *)
Theorem normalize_correct (name : list Z) :
  validate_and_normalize_ref name =
    (if valid_name name then Ok (join [45] (name_words name)) else Err (mkInvalidName name)) /\
  validate_and_normalize_ref name = normalize name.
Proof. split; [apply validate_spec|apply validate_is_normalize]. Qed.

(** A name that was accepted is normalised: accepted again, it is left as it is, and it
    consists of lower-case letters, digits and dashes. *)
Theorem normalize_idempotent (name n : list Z) :
  validate_and_normalize_ref name = Ok n ->
  validate_and_normalize_ref n = Ok n /\ forallb normal_byte n = true.
Proof.
  intros H%validate_normalized. split; [exact H|]. by apply normalized_bytes.
Qed.

Lemma normalize_idempotent_witness :
  validate_and_normalize_ref (bytes "friendly-bard") = Ok (bytes "friendly-bard").
Proof.
  apply (normalize_idempotent (bytes "FrIeNdLy-._.-bArD")). vm_compute. reflexivity.
Defined.

(** Two accepted names are normalised to the same name exactly when they have the same words
    up to letter case. *)
Theorem normalize_equates (a b m n : list Z) :
  validate_and_normalize_ref a = Ok m -> validate_and_normalize_ref b = Ok n ->
  m = n <-> name_words a = name_words b.
Proof.
  rewrite !validate_spec. destruct (valid_name a) eqn:Va; [|done].
  destruct (valid_name b) eqn:Vb; [|done]. intros [= <-] [= <-]. by apply normal_form_eq.
Qed.

Lemma normalize_equates_witness : name_words (bytes "Foo__Bar") = name_words (bytes "foo.bar").
Proof.
  apply (normalize_equates (bytes "Foo__Bar") (bytes "foo.bar") (bytes "foo-bar") (bytes "foo-bar"));
    vm_compute; reflexivity.
Defined.

(** The escaped form of a package name, used in file names, has no dash, so that a dash can
    follow it, and is normalised back to the name. *)
Theorem dist_info_name_roundtrip (name n : list Z) :
  package_name_from_str name = Ok n ->
  package_name_from_str (as_dist_info_name n) = Ok n /\ 45 ∉ as_dist_info_name n.
Proof. intros H%validate_normalized. by apply dist_info_roundtrip. Qed.

Lemma dist_info_name_roundtrip_witness :
  package_name_from_str (bytes "a_b_c") = Ok (bytes "a-b-c").
Proof.
  apply (dist_info_name_roundtrip (bytes "A.b--C") (bytes "a-b-c")). vm_compute. reflexivity.
Defined.

(** A group read from the command line has a normalised name, and is read back from what it
    prints as, with a path or without. *)
Theorem pip_group_name_roundtrip (s : list Z) (p : PipGroupName) :
  pip_group_name_from_str s = Ok p ->
  group_name_from_str (pip_group_name p) = Ok (pip_group_name p) /\
  pip_group_name_from_str (pip_group_name_display p) = Ok p.
Proof. apply pip_group_roundtrip. Qed.

Lemma pip_group_name_roundtrip_witness :
  pip_group_name_from_str (bytes "c:/sub/pyproject.toml:dev") =
    Ok (mkPipGroup (Some (bytes "c:/sub/pyproject.toml")) (bytes "dev")).
Proof.
  apply (pip_group_name_roundtrip (bytes "c:/sub/pyproject.toml:Dev")
    (mkPipGroup (Some (bytes "c:/sub/pyproject.toml")) (bytes "dev"))). vm_compute. reflexivity.
Defined.

(** The list of default groups is in strictly increasing order, has the groups it was made
    from, and depends on nothing but which groups those are. *)
Theorem default_groups_canonical (gs gs' : list GroupName) :
  (exists l, default_groups_from_groups gs = GroupList l /\ StronglySorted group_lt l /\
    forall g, g ∈ l <-> g ∈ gs) /\
  ((forall g, g ∈ gs <-> g ∈ gs') ->
    default_groups_from_groups gs = default_groups_from_groups gs').
Proof. split; [apply from_groups_spec|apply from_groups_unique]. Qed.
