(* ===== verification/LanguageTag.v ===== *)
(** * Language tags

    [crates/uv-platform-tags/src/language_tag.rs]: the tag that names the Python implementation
    and version a wheel is for, its text and its parser. A string is its list of bytes. *)

From stdpp Require Import base countable list option numbers decidable strings.
From Stdlib Require Import ZArith Lia.
From S2P Require Import Prelude Text VersionDisplay.

Local Open Scope Z_scope.
Local Open Scope uv_scope.

(** ** Data *)

Inductive LanguageTag : Type :=
| LangNone
| LangPython (major : Z) (minor : option Z)
| LangCPython (python_version : Z * Z)
| LangPyPy (python_version : Z * Z)
| LangGraalPy (python_version : Z * Z)
| LangPyston (python_version : Z * Z)
| LangCPythonMajor (major : Z).

#[export] Instance language_tag_eq_dec : EqDecision LanguageTag.
Proof. solve_decision. Defined.

(** The keys of a hash map are countable. *)
#[export] Instance language_tag_countable : Countable LanguageTag.
Proof.
  refine (inj_countable'
    (fun t => match t with
              | LangNone => inl (inl ())
              | LangPython major minor => inl (inr (inl (major, minor)))
              | LangCPython v => inl (inr (inr v))
              | LangPyPy v => inr (inl (inl v))
              | LangGraalPy v => inr (inl (inr v))
              | LangPyston v => inr (inr (inl v))
              | LangCPythonMajor major => inr (inr (inr major))
              end)
    (fun c => match c with
              | inl (inl ()) => LangNone
              | inl (inr (inl (major, minor))) => LangPython major minor
              | inl (inr (inr v)) => LangCPython v
              | inr (inl (inl v)) => LangPyPy v
              | inr (inl (inr v)) => LangGraalPy v
              | inr (inr (inl v)) => LangPyston v
              | inr (inr (inr major)) => LangCPythonMajor major
              end) _).
  by intros [].
Defined.

Inductive ParseLanguageTagError : Type :=
| LangUnknownFormat (tag : list Z)
| LangMissingMajorVersion (implementation tag : list Z)
| LangInvalidMajorVersion (implementation tag : list Z)
| LangMissingMinorVersion (implementation tag : list Z)
| LangInvalidMinorVersion (implementation tag : list Z).

(** ** Display *)

(** Two numbers, one after the other. *)
Definition print_version (v : Z * Z) : list Z := print_u64 v.1 ++ print_u64 v.2.

Definition language_tag_display (t : LanguageTag) : list Z :=
  match t with
  | LangNone => bytes "none"
  | LangPython major (Some minor) => bytes "py" ++ print_u64 major ++ print_u64 minor
  | LangPython major None => bytes "py" ++ print_u64 major
  | LangCPython python_version => bytes "cp" ++ print_version python_version
  | LangPyPy python_version => bytes "pp" ++ print_version python_version
  | LangGraalPy python_version => bytes "graalpy" ++ print_version python_version
  | LangPyston python_version => bytes "pyston" ++ print_version python_version
  | LangCPythonMajor major => bytes "cp" ++ print_u64 major
  end.

Definition dotted (v : Z * Z) : list Z := print_u64 v.1 ++ bytes "." ++ print_u64 v.2.

Definition language_tag_pretty (t : LanguageTag) : option (list Z) :=
  match t with
  | LangNone => None
  | LangPython major (Some minor) => Some (bytes "Python " ++ dotted (major, minor))
  | LangPython major None => Some (bytes "Python " ++ print_u64 major)
  | LangCPython v => Some (bytes "CPython " ++ dotted v)
  | LangPyPy v => Some (bytes "PyPy " ++ dotted v)
  | LangGraalPy v => Some (bytes "GraalPy " ++ dotted v)
  | LangPyston v => Some (bytes "Pyston " ++ dotted v)
  | LangCPythonMajor major => Some (bytes "CPython " ++ print_u64 major)
  end.

(** ** Parsing *)

(** The first character, as a digit. *)
Definition parse_language_major (version_str implementation full_tag : list Z) :
    result Z ParseLanguageTagError :=
  let? c := ok_or (head version_str) (LangMissingMajorVersion implementation full_tag) in
  ok_or (to_digit c) (LangInvalidMajorVersion implementation full_tag).

Definition parse_language_version (version_str implementation full_tag : list Z) :
    result (Z * Z) ParseLanguageTagError :=
  let? major := parse_language_major version_str implementation full_tag in
  let? rest := ok_or (get_from_1 version_str) (LangMissingMinorVersion implementation full_tag) in
  let? minor := ok_or (parse_unsigned U8_MAX rest)
                      (LangInvalidMinorVersion implementation full_tag) in
  Ok (major, minor).

(** After [py]. *)
Definition parse_python_tag (py s : list Z) : result LanguageTag ParseLanguageTagError :=
  match length py with
  | 0%nat => Err (LangMissingMajorVersion (bytes "Python") s)
  | 1%nat =>
      let? major := parse_language_major py (bytes "Python") s in
      Ok (LangPython major None)
  | 2%nat | 3%nat =>
      let? v := parse_language_version py (bytes "Python") s in
      Ok (LangPython v.1 (Some v.2))
  | _ =>
      match strip_prefix (bytes "ston") py with
      | Some pyston =>
          let? v := parse_language_version pyston (bytes "Pyston") s in
          Ok (LangPyston v)
      | None => Err (LangUnknownFormat s)
      end
  end.

(** After [cp]. *)
Definition parse_cpython_tag (cp s : list Z) : result LanguageTag ParseLanguageTagError :=
  match length cp with
  | 0%nat => Err (LangMissingMajorVersion (bytes "CPython") s)
  | 1%nat =>
      let? major := parse_language_major cp (bytes "CPython") s in
      Ok (LangCPythonMajor major)
  | 2%nat | 3%nat =>
      let? v := parse_language_version cp (bytes "CPython") s in
      Ok (LangCPython v)
  | _ => Err (LangUnknownFormat s)
  end.

Definition language_tag_from_str (s : list Z) : result LanguageTag ParseLanguageTagError :=
  if decide (s = bytes "none") then Ok LangNone
  else match strip_prefix (bytes "py") s with
  | Some py => parse_python_tag py s
  | None =>
  match strip_prefix (bytes "cp") s with
  | Some cp => parse_cpython_tag cp s
  | None =>
  match strip_prefix (bytes "pp") s with
  | Some pp =>
      let? v := parse_language_version pp (bytes "PyPy") s in
      Ok (LangPyPy v)
  | None =>
  match strip_prefix (bytes "graalpy") s with
  | Some graalpy =>
      let? v := parse_language_version graalpy (bytes "GraalPy") s in
      Ok (LangGraalPy v)
  | None => Err (LangUnknownFormat s)
  end end end end.

(** ** Well-formedness *)

(** What the parser produces: one digit before at most [max]. *)
Definition version_wf (max : Z) (v : Z * Z) : Prop := 0 <= v.1 < 10 /\ 0 <= v.2 <= max.

Definition language_tag_wf (t : LanguageTag) : Prop :=
  match t with
  | LangNone => True
  | LangPython major None | LangCPythonMajor major => 0 <= major < 10
  | LangPython major (Some minor) => version_wf 99 (major, minor)
  | LangCPython v => version_wf 99 v
  | LangPyPy v | LangGraalPy v | LangPyston v => version_wf U8_MAX v
  end.

(** ** The round trip *)

Lemma to_digit_range c d : to_digit c = Some d -> 0 <= d < 10 /\ c = 48 + d.
Proof.
  unfold to_digit. destruct (is_ascii_digit c) eqn:E; [|done]. apply digit_bounds in E.
  intros [= <-]. lia.
Qed.

Lemma to_digit_print d : 0 <= d < 10 -> to_digit (48 + d) = Some d.
Proof.
  intros H. unfold to_digit. rewrite (proj2 (digit_bounds (48 + d))) by lia. f_equal. lia.
Qed.

Lemma parse_language_version_print v impl s :
  version_wf U8_MAX v -> parse_language_version (print_version v) impl s = Ok v.
Proof.
  destruct v as [major minor]. intros [H1 H2]. cbn [fst snd] in *.
  unfold parse_language_version, parse_language_major, print_version. cbn [fst snd].
  rewrite print_u64_small by done. cbn [app head ok_or result_bind].
  rewrite to_digit_print by done. cbn [ok_or result_bind].
  rewrite get_from_1_digits by (apply print_u64_digits; unfold is_u64, U8_MAX, U64_MAX in *; lia).
  cbn [ok_or result_bind].
  rewrite parse_unsigned_print by (unfold U8_MAX, U64_MAX in *; lia). done.
Qed.

(** What [parse_language_version] accepts; with few characters, the number is small. *)
Lemma parse_language_version_Ok str impl s v :
  parse_language_version str impl s = Ok v ->
  version_wf U8_MAX v /\ ((length str <= 3)%nat -> version_wf 99 v).
Proof.
  unfold parse_language_version, parse_language_major. destruct str as [|c str]; [done|].
  cbn [head ok_or result_bind]. destruct (to_digit c) as [major|] eqn:Ed; [|done].
  apply to_digit_range in Ed as [Hm ->]. cbn [ok_or result_bind]. intros H. result_inv H.
  injection H as <-. match goal with G : ok_or (get_from_1 _) _ = _ |- _ =>
    apply ok_or_Ok, get_from_1_Some in G as -> end.
  match goal with G : ok_or _ _ = Ok ?m |- _ => apply ok_or_Ok in G as Ep; rename m into minor end.
  pose proof (parse_unsigned_range U8_MAX str minor ltac:(unfold U8_MAX; lia) Ep).
  split; [by split|]. intros Hl. split; [done|]. cbn [snd]. split; [lia|].
  apply (parse_unsigned_short U8_MAX str); [|done].
  cbn [length] in Hl. lia.
Qed.

Lemma print_version_text max v : max <= U8_MAX -> version_wf max v -> tag_text (print_version v).
Proof.
  intros Hm [H1 H2]. apply tag_text_app; apply print_u64_tag; unfold is_u64, U8_MAX, U64_MAX in *; lia.
Qed.

Lemma parse_language_major_print d impl s :
  0 <= d < 10 -> parse_language_major (print_u64 d) impl s = Ok d.
Proof.
  intros H. unfold parse_language_major. rewrite print_u64_small by done.
  cbn [head ok_or result_bind]. by rewrite to_digit_print.
Qed.

(** The printed version is one digit and one or two more. *)
Lemma print_version_len v :
  version_wf 99 v -> length (print_version v) = 2%nat \/ length (print_version v) = 3%nat.
Proof.
  intros [H1 H2]. unfold print_version. rewrite print_u64_small by done. cbn [app length].
  destruct (print_u64_length_two v.2) as [-> | ->]; [lia|by left|by right].
Qed.

Lemma version_wf_weaken v : version_wf 99 v -> version_wf U8_MAX v.
Proof. unfold version_wf, U8_MAX. lia. Qed.

Lemma language_tag_display_parse t :
  language_tag_wf t -> language_tag_from_str (language_tag_display t) = Ok t.
Proof.
  destruct t as [|major [minor|]|v|v|v|v|major]; intros W; cbn in W;
    unfold language_tag_from_str, language_tag_display; [done|..];
    try change (bytes "pyston" ++ ?l) with (bytes "py" ++ bytes "ston" ++ l); strip_prefixes.
  - change (print_u64 major ++ print_u64 minor) with (print_version (major, minor)).
    unfold parse_python_tag. pose proof (version_wf_weaken _ W).
    destruct (print_version_len _ W) as [-> | ->]; by rewrite parse_language_version_print.
  - unfold parse_python_tag. rewrite print_u64_small at 1 by done. cbn [length]. by rewrite parse_language_major_print.
  - unfold parse_cpython_tag. pose proof (version_wf_weaken _ W).
    destruct (print_version_len _ W) as [-> | ->]; by rewrite parse_language_version_print.
  - by rewrite parse_language_version_print.
  - by rewrite parse_language_version_print.
  - unfold parse_python_tag. strip_prefixes.
    rewrite length_app. change (length (bytes "ston")) with 4%nat. cbn [Nat.add]. by rewrite parse_language_version_print.
  - unfold parse_cpython_tag. rewrite print_u64_small at 1 by done. cbn [length]. by rewrite parse_language_major_print.
Qed.

Lemma parse_language_major_Ok str impl s d : parse_language_major str impl s = Ok d -> 0 <= d < 10.
Proof.
  unfold parse_language_major. intros H. result_inv H. apply ok_or_Ok in H. by apply to_digit_range in H as [? _].
Qed.

Lemma language_tag_from_str_wf s t : language_tag_from_str s = Ok t -> language_tag_wf t.
Proof.
  unfold language_tag_from_str, parse_python_tag, parse_cpython_tag. intros H.
  destruct (decide _); [by injection H as <-|]. repeat case_match; try done; result_inv H;
    injection H as <-; cbn;
    try (by eapply parse_language_major_Ok; eauto);
    match goal with V : parse_language_version _ _ _ = Ok ?v |- _ =>
      apply parse_language_version_Ok in V as [V1 V2] end; try done.
  all: try (destruct v); apply V2; lia.
Qed.

Lemma language_tag_text t : language_tag_wf t -> tag_text (language_tag_display t).
Proof.
  assert (forall n, 0 <= n < 10 -> tag_text (print_u64 n)) as D
    by (intros; apply print_u64_tag; unfold is_u64, U64_MAX; lia).
  pose proof (fun v => print_version_text 99 v ltac:(unfold U8_MAX; lia)) as V.
  pose proof (fun v => print_version_text U8_MAX v ltac:(done)) as V'.
  destruct t as [|major [minor|]|v|v|v|v|major]; intros W; cbn in W; unfold language_tag_display;
    try (apply tag_text_app; [by apply tag_text_bytes|]); auto.
  - by apply tag_text_bytes.
  - by apply (V (major, minor)).
Qed.

(** A language tag starts with a letter. *)
Lemma language_tag_head t : exists c l, language_tag_display t = c :: l /\ is_ascii_digit c = false.
Proof. destruct t as [|major [minor|]|v|v|v|v|major]; eexists _, _; (split; [reflexivity|done]). Qed.
