(* ===== verification/AbiTag.v ===== *)
(** * ABI tags

    [crates/uv-platform-tags/src/abi_tag.rs]: the tag that names the binary interface a wheel is
    for, with the variants of a CPython build, its text and its parser. A string is its list of
    bytes. *)

From stdpp Require Import base countable list option numbers decidable strings.
From Stdlib Require Import ZArith Lia.
From S2P Require Import Prelude Text Libraries VersionDisplay LanguageTag.

Local Open Scope Z_scope.
Local Open Scope uv_scope.

(** ** Data *)

(** A set of flags in a [u8]. *)
Definition CPythonAbiVariants : Type := Z.

Definition Freethreading : CPythonAbiVariants := Z.shiftl 1 0.
Definition WideUnicode : CPythonAbiVariants := Z.shiftl 1 1.
Definition DebugBuild : CPythonAbiVariants := Z.shiftl 1 2.
Definition Pymalloc : CPythonAbiVariants := Z.shiftl 1 3.

Inductive AbiTag : Type :=
| AbiNone
| Abi3
| Abi3T
| AbiCPython (python_version : Z * Z) (variant : CPythonAbiVariants)
| AbiPyPy (python_version : option (Z * Z)) (implementation_version : Z * Z)
| AbiGraalPy (python_version implementation_version : Z * Z)
| AbiPyston (implementation_version : Z * Z).

#[export] Instance abi_tag_eq_dec : EqDecision AbiTag.
Proof. unfold EqDecision, CPythonAbiVariants. solve_decision. Defined.

#[export] Instance abi_tag_countable : Countable AbiTag.
Proof.
  refine (inj_countable'
    (fun t => match t with
              | AbiNone => inl (inl 0)
              | Abi3 => inl (inl 1)
              | Abi3T => inl (inl 2)
              | AbiCPython v variant => inl (inr (v, variant : Z))
              | AbiPyPy v i => inr (inl (v, i))
              | AbiGraalPy v i => inr (inr (inl (v, i)))
              | AbiPyston i => inr (inr (inr i))
              end)
    (fun c => match c with
              | inl (inl n) => if n =? 0 then AbiNone else if n =? 1 then Abi3 else Abi3T
              | inl (inr (v, variant)) => AbiCPython v variant
              | inr (inl (v, i)) => AbiPyPy v i
              | inr (inr (inl (v, i))) => AbiGraalPy v i
              | inr (inr (inr i)) => AbiPyston i
              end) _).
  by intros [].
Defined.

Inductive ParseAbiTagError : Type :=
| AbiUnknownFormat (tag : list Z)
| AbiMissingMajorVersion (implementation tag : list Z)
| AbiInvalidMajorVersion (implementation tag : list Z)
| AbiMissingMinorVersion (implementation tag : list Z)
| AbiInvalidMinorVersion (implementation tag : list Z)
| AbiInvalidFormat (implementation tag : list Z)
| AbiMissingImplMajorVersion (implementation tag : list Z)
| AbiInvalidImplMajorVersion (implementation tag : list Z)
| AbiMissingImplMinorVersion (implementation tag : list Z)
| AbiInvalidImplMinorVersion (implementation tag : list Z)
| UnknownAbiTagSuffix (suffix tag : list Z)
| DuplicateAbiTagSuffix (suffix tag : list Z).

Definition is_stable_abi (t : AbiTag) : bool :=
  match t with
  | Abi3 | Abi3T => true
  | _ => false
  end.

Section Abi.
Context `{!Bitflags}.

(** ** Display *)

Definition variants_display (self : CPythonAbiVariants) : list Z :=
  (if flags_contains self Freethreading then bytes "t" else [])
  ++ (if flags_contains self DebugBuild then bytes "d" else [])
  ++ (if flags_contains self Pymalloc then bytes "m" else [])
  ++ (if flags_contains self WideUnicode then bytes "u" else []).

Definition abi_tag_display (t : AbiTag) : list Z :=
  match t with
  | AbiNone => bytes "none"
  | Abi3 => bytes "abi3"
  | Abi3T => bytes "abi3t"
  | AbiCPython python_version variant =>
      bytes "cp" ++ print_version python_version ++ variants_display variant
  | AbiPyPy (Some python_version) implementation_version =>
      bytes "pypy" ++ print_version python_version ++ bytes "_pp"
        ++ print_version implementation_version
  | AbiPyPy None implementation_version => bytes "pypy_" ++ print_version implementation_version
  | AbiGraalPy python_version implementation_version =>
      bytes "graalpy" ++ print_version implementation_version ++ bytes "_"
        ++ print_version python_version ++ bytes "_native"
  | AbiPyston implementation_version =>
      bytes "pyston_" ++ print_version implementation_version ++ bytes "_x86_64_linux_gnu"
  end.

Definition abi_tag_pretty (t : AbiTag) : option (list Z) :=
  match t with
  | AbiNone => None
  | Abi3 => None
  | Abi3T => Some (bytes "stable ABI for free-threaded CPython")
  | AbiCPython python_version variant =>
      let prefix := if flags_contains variant Freethreading then bytes "free-threaded " else [] in
      Some (prefix ++ bytes "CPython " ++ dotted python_version)
  | AbiPyPy _ implementation_version => Some (bytes "PyPy " ++ dotted implementation_version)
  | AbiGraalPy _ implementation_version => Some (bytes "GraalPy " ++ dotted implementation_version)
  | AbiPyston _ => Some (bytes "Pyston")
  end.

(** ** Parsing *)

(** A digit and a number of at most 255; the errors tell a Python version from the version of an
    implementation. *)
Definition parse_abi_version
    (missing_major invalid_major missing_minor invalid_minor : ParseAbiTagError)
    (version_str : list Z) : result (Z * Z) ParseAbiTagError :=
  let? b := ok_or (head version_str) missing_major in
  let? major := ok_or (match u8_checked_sub b 48 with
                       | Some digit => if digit <? 10 then Some digit else None
                       | None => None
                       end) invalid_major in
  let? rest := ok_or (get_from_1 version_str) missing_minor in
  let? minor := ok_or (parse_unsigned U8_MAX rest) invalid_minor in
  Ok (major, minor).

Definition parse_python_version (version_str implementation full_tag : list Z) :
    result (Z * Z) ParseAbiTagError :=
  parse_abi_version
    (AbiMissingMajorVersion implementation full_tag) (AbiInvalidMajorVersion implementation full_tag)
    (AbiMissingMinorVersion implementation full_tag) (AbiInvalidMinorVersion implementation full_tag)
    version_str.

Definition parse_impl_version (version_str implementation full_tag : list Z) :
    result (Z * Z) ParseAbiTagError :=
  parse_abi_version
    (AbiMissingImplMajorVersion implementation full_tag)
    (AbiInvalidImplMajorVersion implementation full_tag)
    (AbiMissingImplMinorVersion implementation full_tag)
    (AbiInvalidImplMinorVersion implementation full_tag)
    version_str.

(** [CPythonAbiVariants::from_char], of a character that starts with the given byte. *)
Definition variants_from_char (suffix : Z) : option CPythonAbiVariants :=
  if suffix =? 116 then Some Freethreading
  else if suffix =? 117 then Some WideUnicode
  else if suffix =? 100 then Some DebugBuild
  else if suffix =? 109 then Some Pymalloc
  else None.

(** The loop over the suffixes: an accepted suffix is one byte. *)
Fixpoint parse_abi_suffixes (abi_suffixes : list Z) (variant : CPythonAbiVariants) (s : list Z) :
    result CPythonAbiVariants ParseAbiTagError :=
  match abi_suffixes with
  | [] => Ok variant
  | suffix_char :: rest =>
      match variants_from_char suffix_char with
      | None => Err (UnknownAbiTagSuffix (first_char abi_suffixes) s)
      | Some suffix =>
          if flags_contains variant suffix
          then Err (DuplicateAbiTagSuffix (first_char abi_suffixes) s)
          else parse_abi_suffixes rest (flags_insert variant suffix) s
      end
  end.

Definition parse_cpython_abi (cp s : list Z) : result AbiTag ParseAbiTagError :=
  let version_str := take_while is_ascii_digit cp in
  let? v := parse_python_version version_str (bytes "CPython") s in
  let abi_suffixes := skip_while is_ascii_digit cp in
  let? variant := parse_abi_suffixes abi_suffixes 0 s in
  Ok (AbiCPython v variant).

Definition parse_pypy_abi (rest s : list Z) : result AbiTag ParseAbiTagError :=
  match strip_prefix (bytes "_") rest with
  | Some rest =>
      let? i := parse_impl_version rest (bytes "PyPy") s in
      Ok (AbiPyPy None i)
  | None =>
      let? (version_str, rest) := ok_or (split_once 95 rest) (AbiInvalidFormat (bytes "PyPy") s) in
      let? v := parse_python_version version_str (bytes "PyPy") s in
      let? rest := ok_or (strip_prefix (bytes "pp") rest) (AbiInvalidFormat (bytes "PyPy") s) in
      let? i := parse_impl_version rest (bytes "PyPy") s in
      Ok (AbiPyPy (Some v) i)
  end.

Definition parse_graalpy_abi (rest s : list Z) : result AbiTag ParseAbiTagError :=
  let? (impl_ver_str, rest) :=
    ok_or (split_once 95 rest) (AbiInvalidFormat (bytes "GraalPy") s) in
  let? i := parse_impl_version impl_ver_str (bytes "GraalPy") s in
  let? (py_ver_str, suffix) :=
    ok_or (split_once 95 rest) (AbiInvalidFormat (bytes "GraalPy") s) in
  if decide (suffix <> bytes "native") then Err (AbiInvalidFormat (bytes "GraalPy") s)
  else
    let? v := parse_python_version py_ver_str (bytes "GraalPy") s in
    Ok (AbiGraalPy v i).

Definition parse_pyston_abi (rest s : list Z) : result AbiTag ParseAbiTagError :=
  let? rest := ok_or (strip_prefix (bytes "_") rest) (AbiInvalidFormat (bytes "Pyston") s) in
  let? rest := ok_or (strip_suffix (bytes "_x86_64_linux_gnu") rest)
                     (AbiInvalidFormat (bytes "Pyston") s) in
  let? i := parse_impl_version rest (bytes "Pyston") s in
  Ok (AbiPyston i).

Definition abi_tag_from_str (s : list Z) : result AbiTag ParseAbiTagError :=
  if decide (s = bytes "none") then Ok AbiNone
  else if decide (s = bytes "abi3") then Ok Abi3
  else if decide (s = bytes "abi3t") then Ok Abi3T
  else match strip_prefix (bytes "cp") s with
  | Some cp => parse_cpython_abi cp s
  | None =>
  match strip_prefix (bytes "pypy") s with
  | Some rest => parse_pypy_abi rest s
  | None =>
  match strip_prefix (bytes "graalpy") s with
  | Some rest => parse_graalpy_abi rest s
  | None =>
  match strip_prefix (bytes "pyston") s with
  | Some rest => parse_pyston_abi rest s
  | None => Err (AbiUnknownFormat s)
  end end end end.

End Abi.

(** ** Well-formedness *)

(** Only the four flags. *)
Definition variants_wf (v : CPythonAbiVariants) : Prop := 0 <= v < 16.

Definition abi_tag_wf (t : AbiTag) : Prop :=
  match t with
  | AbiNone | Abi3 | Abi3T => True
  | AbiCPython v variant => version_wf U8_MAX v /\ variants_wf variant
  | AbiPyPy None i | AbiPyston i => version_wf U8_MAX i
  | AbiPyPy (Some v) i | AbiGraalPy v i => version_wf U8_MAX v /\ version_wf U8_MAX i
  end.

Lemma variants_enum v : variants_wf v -> exists n, (n < 16)%nat /\ v = Z.of_nat n.
Proof. intros H. exists (Z.to_nat v). unfold variants_wf in H. lia. Qed.

(** A property of all sets of flags is a property of sixteen numbers. *)
Lemma variants_forall (P : Z -> Prop) :
  Forall P [0; 1; 2; 3; 4; 5; 6; 7; 8; 9; 10; 11; 12; 13; 14; 15] -> forall v, variants_wf v -> P v.
Proof.
  intros F v (n & Hn & ->)%variants_enum.
  change (Forall P (Z.of_nat <$> seq 0 16)) in F. rewrite Forall_forall in F. apply F.
  apply list_elem_of_fmap. exists n. split; [done|]. apply elem_of_seq. lia.
Qed.

Lemma parse_abi_version_print e1 e2 e3 e4 v :
  version_wf U8_MAX v -> parse_abi_version e1 e2 e3 e4 (print_version v) = Ok v.
Proof.
  destruct v as [major minor]. intros [H1 H2]. cbn [fst snd] in *.
  unfold parse_abi_version, print_version. cbn [fst snd].
  rewrite print_u64_small by done. cbn [app head ok_or result_bind].
  unfold u8_checked_sub. zif. zif. cbn [ok_or result_bind].
  rewrite get_from_1_digits by (apply print_u64_digits; unfold is_u64, U8_MAX, U64_MAX in *; lia).
  cbn [ok_or result_bind].
  rewrite parse_unsigned_print by (unfold U8_MAX, U64_MAX in *; lia). cbn. repeat f_equal. lia.
Qed.

Lemma parse_abi_version_wf e1 e2 e3 e4 str v :
  parse_abi_version e1 e2 e3 e4 str = Ok v -> version_wf U8_MAX v.
Proof.
  unfold parse_abi_version, u8_checked_sub. intros H. result_inv H. injection H as <-.
  repeat match goal with G : ok_or _ _ = Ok _ |- _ => apply ok_or_Ok in G end.
  split; cbn [fst snd].
  - match goal with G : match _ with Some _ => _ | None => _ end = Some _ |- _ => revert G end.
    repeat case_match; try done; simplify_eq. intros [= <-]. lia.
  - by eapply parse_unsigned_range; [unfold U8_MAX; lia|].
Qed.

Lemma print_version_digits v :
  version_wf U8_MAX v -> Forall (fun b => is_ascii_digit b = true) (print_version v).
Proof.
  intros [H1 H2]. apply Forall_app.
  split; apply print_u64_digits; unfold is_u64, U8_MAX, U64_MAX in *; lia.
Qed.

Lemma print_version_head v : version_wf U8_MAX v -> exists l, print_version v = 48 + v.1 :: l.
Proof. intros [H1 H2]. unfold print_version. rewrite print_u64_small by done. by eexists. Qed.

Lemma print_version_under v : version_wf U8_MAX v -> 95 ∉ print_version v.
Proof. intros W. apply (digits_not_in 95); [done|]. by apply print_version_digits. Qed.

(** Digits in front of something else. *)
Lemma take_while_app (p : Z -> bool) l k :
  Forall (fun b => p b = true) l -> from_option (fun b => p b = false) True (head k) ->
  take_while p (l ++ k) = l /\ skip_while p (l ++ k) = k.
Proof.
  intros Hl Hk. induction Hl as [|b l Hb Hl [IH1 IH2]]; cbn.
  - destruct k as [|b k]; [done|]. cbn in *. by rewrite Hk.
  - by rewrite Hb, IH1, IH2.
Qed.

Section AbiFacts.
Context `{!Bitflags, !BitflagsLaws}.

(** The laws fix the operations: they may be computed. *)
Lemma variants_display_bits v : variants_display v = @variants_display bits_flags v.
Proof. unfold variants_display. by rewrite !flags_contains_eq. Qed.

Lemma parse_abi_suffixes_bits l s : forall v,
  parse_abi_suffixes l v s = @parse_abi_suffixes bits_flags l v s.
Proof.
  induction l as [|c l IH]; intros v; cbn [parse_abi_suffixes]; [done|].
  destruct (variants_from_char c); [|done]. rewrite flags_contains_eq, flags_insert_spec. cbn.
  by destruct (_ =? _).
Qed.

Lemma abi_suffixes_print s v :
  variants_wf v -> parse_abi_suffixes (variants_display v) 0 s = Ok v.
Proof.
  rewrite variants_display_bits, parse_abi_suffixes_bits.
  revert v. apply variants_forall. repeat constructor.
Qed.

Lemma variants_display_text v :
  variants_wf v ->
  tag_text (variants_display v) /\
  from_option (fun b => is_ascii_digit b = false) True (head (variants_display v)).
Proof.
  rewrite variants_display_bits. revert v. apply variants_forall. repeat constructor.
Qed.

Lemma insert_wf v suffix c :
  variants_wf v -> variants_from_char c = Some suffix -> variants_wf (flags_insert v suffix).
Proof.
  intros W E. rewrite flags_insert_spec.
  assert (suffix = 1 \/ suffix = 2 \/ suffix = 8 \/ suffix = 4) as S
    by (revert E; unfold variants_from_char; repeat case_match; intros [= <-]; auto).
  revert v W. apply variants_forall.
  destruct S as [-> | [-> | [-> | ->]]]; repeat (apply Forall_cons_2; [by vm_compute|]);
    apply Forall_nil_2.
Qed.

Lemma abi_suffixes_wf l s : forall v w,
  variants_wf v -> parse_abi_suffixes l v s = Ok w -> variants_wf w.
Proof.
  induction l as [|c l IH]; intros v w W; cbn [parse_abi_suffixes]; [by intros [= <-]|].
  destruct (variants_from_char c) as [f|] eqn:Ec; [|done]. destruct (flags_contains v f); [done|].
  apply IH. by eapply insert_wf.
Qed.

(** ** The round trip *)

Lemma abi_tag_display_parse t :
  abi_tag_wf t -> abi_tag_from_str (abi_tag_display t) = Ok t.
Proof.
  destruct t as [| | |v variant|[v|] i|v i|i]; intros W; cbn in W; try done;
    unfold abi_tag_from_str, abi_tag_display.
  - destruct W as [Wv Ww]. strip_prefixes. unfold parse_cpython_abi.
    destruct (variants_display_text variant Ww) as [_ Hd].
    destruct (take_while_app is_ascii_digit (print_version v) (variants_display variant))
      as [-> ->]; [by apply print_version_digits|done|].
    unfold parse_python_version. rewrite parse_abi_version_print by done. cbn [result_bind].
    by rewrite abi_suffixes_print.
  - destruct W as [Wv Wi]. strip_prefixes. unfold parse_pypy_abi.
    destruct (print_version_head v Wv) as [l El].
    assert (strip_prefix (bytes "_") (print_version v ++ bytes "_pp" ++ print_version i) = None) as ->.
    { rewrite El. apply (strip_prefix_head 95). destruct Wv. lia. }
    change (bytes "_pp" ++ print_version i) with (95 :: bytes "pp" ++ print_version i).
    rewrite split_once_app by (by apply print_version_under). cbn [ok_or result_bind].
    unfold parse_python_version, parse_impl_version. rewrite parse_abi_version_print by done.
    cbn [result_bind]. strip_prefixes. cbn [ok_or result_bind]. by rewrite parse_abi_version_print.
  - change (bytes "pypy_" ++ print_version i) with (bytes "pypy" ++ bytes "_" ++ print_version i).
    strip_prefixes. unfold parse_pypy_abi. strip_prefixes. unfold parse_impl_version.
    by rewrite parse_abi_version_print.
  - destruct W as [Wv Wi]. strip_prefixes. unfold parse_graalpy_abi.
    cbn [app bytes]. rewrite split_once_app by (by apply print_version_under).
    cbn [ok_or result_bind]. unfold parse_python_version, parse_impl_version.
    rewrite parse_abi_version_print by done. cbn [result_bind].
    rewrite split_once_app by (by apply print_version_under).
    cbn [ok_or result_bind]. rewrite decide_False by (by intros []).
    by rewrite parse_abi_version_print.
  - change (bytes "pyston_" ++ ?l) with (bytes "pyston" ++ bytes "_" ++ l).
    strip_prefixes. unfold parse_pyston_abi. strip_prefixes. cbn [ok_or result_bind].
    rewrite strip_suffix_app. cbn [ok_or result_bind]. unfold parse_impl_version.
    by rewrite parse_abi_version_print.
Qed.

Lemma parse_cpython_abi_wf cp s t : parse_cpython_abi cp s = Ok t -> abi_tag_wf t.
Proof.
  unfold parse_cpython_abi. intros E. result_inv E. injection E as <-. split.
  - by eapply parse_abi_version_wf.
  - by eapply abi_suffixes_wf; [|eassumption].
Qed.

Lemma parse_pypy_abi_wf rest s t : parse_pypy_abi rest s = Ok t -> abi_tag_wf t.
Proof.
  unfold parse_pypy_abi. destruct (strip_prefix _ rest); intros E; result_inv E.
  - injection E as <-. by eapply parse_abi_version_wf.
  - destruct x. result_inv E. injection E as <-. split; by eapply parse_abi_version_wf.
Qed.

Lemma parse_graalpy_abi_wf rest s t : parse_graalpy_abi rest s = Ok t -> abi_tag_wf t.
Proof.
  unfold parse_graalpy_abi. intros E. result_inv E. destruct x. result_inv E. destruct x0.
  case_decide; [done|]. result_inv E. injection E as <-. split; by eapply parse_abi_version_wf.
Qed.

Lemma parse_pyston_abi_wf rest s t : parse_pyston_abi rest s = Ok t -> abi_tag_wf t.
Proof.
  unfold parse_pyston_abi. intros E. result_inv E. injection E as <-. by eapply parse_abi_version_wf.
Qed.

Lemma abi_tag_from_str_wf s t : abi_tag_from_str s = Ok t -> abi_tag_wf t.
Proof.
  unfold abi_tag_from_str. repeat case_decide; try (by intros [= <-]). repeat case_match; try done;
    eauto using parse_cpython_abi_wf, parse_pypy_abi_wf, parse_graalpy_abi_wf, parse_pyston_abi_wf.
Qed.

Lemma abi_tag_text t : abi_tag_wf t -> tag_text (abi_tag_display t).
Proof.
  pose proof (fun v => print_version_text U8_MAX v ltac:(done)) as V.
  destruct t as [| | |v variant|[v|] i|v i|i]; intros W; cbn in W; unfold abi_tag_display;
    try match type of W with _ /\ _ => destruct W as [W W'] end;
    repeat (apply tag_text_app; [first [by apply tag_text_bytes | by apply V]|]);
    try first [by apply tag_text_bytes | by apply V].
  by apply variants_display_text.
Qed.
End AbiFacts.
