(* ===== verification/Platform.v ===== *)
(** * Platforms

    [crates/uv-platform-tags/src/platform.rs]: architectures and operating systems, and the
    formats that [tags.rs] derives from an architecture (macOS binary formats, Android ABIs, iOS
    architectures), with their names. A string is its list of bytes. *)

From stdpp Require Import base countable list option numbers decidable strings finite.
From Stdlib Require Import ZArith Lia.
From S2P Require Import Prelude Text Libraries VersionDisplay.

Local Open Scope Z_scope.
Local Open Scope uv_scope.

(** A [match] on string literals: the value of the first literal that is equal. *)
Fixpoint match_str {A : Type} (s : list Z) (arms : list (string * A)) : option A :=
  match arms with
  | [] => None
  | (literal, a) :: arms' => if decide (s = bytes literal) then Some a else match_str s arms'
  end.

(** ** Architectures *)

Inductive Arch : Type :=
| Aarch64 | Armv5TEL | Armv6L | Armv7L | Powerpc64Le | Powerpc64 | Powerpc | X86 | X86_64 | S390X
| LoongArch64 | Riscv64 | Wasm32.

#[export] Instance arch_eq_dec : EqDecision Arch.
Proof. solve_decision. Defined.

Definition arch_name (a : Arch) : list Z :=
  match a with
  | Aarch64 => bytes "aarch64"
  | Armv5TEL => bytes "armv5tel"
  | Armv6L => bytes "armv6l"
  | Armv7L => bytes "armv7l"
  | Powerpc64Le => bytes "ppc64le"
  | Powerpc64 => bytes "ppc64"
  | Powerpc => bytes "ppc"
  | X86 => bytes "i686"
  | X86_64 => bytes "x86_64"
  | S390X => bytes "s390x"
  | LoongArch64 => bytes "loongarch64"
  | Riscv64 => bytes "riscv64"
  | Wasm32 => bytes "wasm32"
  end.

Definition arch_display (a : Arch) : list Z := arch_name a.

(** The error is a message that no caller keeps. *)
Definition arch_from_str (s : list Z) : option Arch :=
  match_str s
    [ ("aarch64", Aarch64); ("armv5tel", Armv5TEL); ("armv6l", Armv6L);
      ("armv7l", Armv7L); ("armv8l", Armv7L);
      ("ppc64le", Powerpc64Le); ("ppc64", Powerpc64); ("ppc", Powerpc); ("i686", X86);
      ("x86_64", X86_64); ("s390x", S390X); ("loongarch64", LoongArch64); ("riscv64", Riscv64) ]%string.

Definition get_minimum_manylinux_minor (a : Arch) : option Z :=
  match a with
  | Aarch64 | Armv7L | Powerpc64 | Powerpc64Le | S390X => Some 17
  | X86 | X86_64 => Some 5
  | Riscv64 => Some 31
  | LoongArch64 => Some 36
  | Powerpc | Armv5TEL | Armv6L | Wasm32 => None
  end.

Definition arch_machine (a : Arch) : list Z :=
  match a with
  | Aarch64 => bytes "arm64"
  | Armv5TEL | Armv6L | Armv7L => bytes "arm"
  | Powerpc | Powerpc64Le | Powerpc64 => bytes "powerpc"
  | X86 => bytes "i386"
  | X86_64 => bytes "amd64"
  | Riscv64 => bytes "riscv"
  | Wasm32 => bytes "wasm32"
  | S390X => bytes "s390x"
  | LoongArch64 => bytes "loongarch64"
  end.

(** ** Operating systems *)

Inductive Os : Type :=
| OsManylinux (major minor : Z)
| OsMusllinux (major minor : Z)
| OsWindows
| OsPyodide (major minor : Z)
| OsPyEmscripten (major minor : Z)
| OsMacos (major minor : Z)
| OsFreeBsd (release : list Z)
| OsNetBsd (release : list Z)
| OsOpenBsd (release : list Z)
| OsDragonfly (release : list Z)
| OsIllumos (release arch : list Z)
| OsHaiku (release : list Z)
| OsAndroid (api_level : Z)
| OsIos (major minor : Z) (simulator : bool).

Definition os_display (os : Os) : list Z :=
  match os with
  | OsManylinux _ _ => bytes "manylinux"
  | OsMusllinux _ _ => bytes "musllinux"
  | OsWindows => bytes "windows"
  | OsMacos _ _ => bytes "macos"
  | OsFreeBsd _ => bytes "freebsd"
  | OsNetBsd _ => bytes "netbsd"
  | OsOpenBsd _ => bytes "openbsd"
  | OsDragonfly _ => bytes "dragonfly"
  | OsIllumos _ _ => bytes "illumos"
  | OsHaiku _ => bytes "haiku"
  | OsAndroid _ => bytes "android"
  | OsPyodide _ _ => bytes "pyodide"
  | OsPyEmscripten _ _ => bytes "pyemscripten"
  | OsIos _ _ _ => bytes "ios"
  end.

(** Raw CPU data, kept with the platform and not looked at here. *)
Record CpuidLeaf : Type := mkCpuidLeaf {
  leaf : Z;
  subleaf : Z;
  registers : list Z
}.

Inductive CpuInfo : Type :=
| CpuFlags (flags : list Z)
| CpuCpuid (leaves : list CpuidLeaf) (xstate : Z)
| CpuAppleSilicon (brand : list Z)
| CpuLinuxAarch64 (cores : list (list Z * list Z)) (hwcaps : list Z).

Record Platform : Type := mkPlatform {
  platform_os : Os;
  platform_arch : Arch;
  platform_cpu_info : option CpuInfo
}.

Definition platform_new (os : Os) (arch : Arch) : Platform := mkPlatform os arch None.

Definition platform_pretty (p : Platform) : list Z :=
  let os := match platform_os p with
            | OsManylinux _ _ | OsMusllinux _ _ => bytes "Linux"
            | OsWindows => bytes "Windows"
            | OsPyodide _ _ => bytes "Pyodide"
            | OsPyEmscripten _ _ => bytes "Emscripten"
            | OsMacos _ _ => bytes "macOS"
            | OsFreeBsd _ => bytes "FreeBSD"
            | OsNetBsd _ => bytes "NetBSD"
            | OsOpenBsd _ => bytes "OpenBSD"
            | OsDragonfly _ => bytes "DragonFly"
            | OsIllumos _ _ => bytes "Illumos"
            | OsHaiku _ => bytes "Haiku"
            | OsAndroid _ => bytes "Android"
            | OsIos _ _ _ => bytes "iOS"
            end in
  os ++ bytes " " ++ arch_display (platform_arch p).

(** ** macOS binary formats *)

Inductive BinaryFormat : Type :=
| BinArm64 | BinFat | BinFat32 | BinFat64 | BinI386 | BinIntel | BinPpc | BinPpc64 | BinUniversal
| BinUniversal2 | BinX86_64.

#[export] Instance binary_format_eq_dec : EqDecision BinaryFormat.
Proof. solve_decision. Defined.

Definition binary_format_name (f : BinaryFormat) : list Z :=
  match f with
  | BinArm64 => bytes "arm64"
  | BinFat => bytes "fat"
  | BinFat32 => bytes "fat32"
  | BinFat64 => bytes "fat64"
  | BinI386 => bytes "i386"
  | BinIntel => bytes "intel"
  | BinPpc => bytes "ppc"
  | BinPpc64 => bytes "ppc64"
  | BinUniversal => bytes "universal"
  | BinUniversal2 => bytes "universal2"
  | BinX86_64 => bytes "x86_64"
  end.

Definition binary_format_from_str (s : list Z) : option BinaryFormat :=
  match_str s
    [ ("arm64", BinArm64); ("fat", BinFat); ("fat32", BinFat32); ("fat64", BinFat64);
      ("i386", BinI386); ("intel", BinIntel); ("ppc", BinPpc); ("ppc64", BinPpc64);
      ("universal", BinUniversal); ("universal2", BinUniversal2); ("x86_64", BinX86_64) ]%string.

(** [None] stands for [unreachable!]. *)
Definition binary_format_from_arch (a : Arch) : option (list BinaryFormat) :=
  match a with
  | Aarch64 => Some [BinArm64; BinUniversal2]
  | Powerpc64 => Some [BinPpc64; BinFat64; BinUniversal]
  | Powerpc => Some [BinPpc; BinFat32; BinFat; BinUniversal]
  | X86 => Some [BinI386; BinIntel; BinFat32; BinFat; BinUniversal]
  | X86_64 => Some [BinX86_64; BinIntel; BinFat64; BinFat32; BinUniversal2; BinUniversal]
  | _ => None
  end.

Definition platform_machine (f : BinaryFormat) : list BinaryFormat :=
  match f with
  | BinArm64 => [BinArm64]
  | BinFat => [BinX86_64; BinPpc]
  | BinFat32 => [BinX86_64; BinI386; BinPpc; BinPpc64]
  | BinFat64 => [BinX86_64; BinPpc64]
  | BinI386 => [BinI386]
  | BinIntel => [BinX86_64; BinI386]
  | BinPpc => [BinPpc]
  | BinPpc64 => [BinPpc64]
  | BinUniversal => [BinX86_64; BinI386; BinPpc64; BinPpc; BinIntel]
  | BinUniversal2 => [BinX86_64; BinArm64]
  | BinX86_64 => [BinX86_64]
  end.

(** ** Android ABIs *)

Inductive AndroidAbi : Type := ArmeabiV7a | Arm64V8a | AndroidX86 | AndroidX86_64.

#[export] Instance android_abi_eq_dec : EqDecision AndroidAbi.
Proof. solve_decision. Defined.

Definition android_abi_name (a : AndroidAbi) : list Z :=
  match a with
  | ArmeabiV7a => bytes "armeabi_v7a"
  | Arm64V8a => bytes "arm64_v8a"
  | AndroidX86 => bytes "x86"
  | AndroidX86_64 => bytes "x86_64"
  end.

Definition android_abi_from_str (s : list Z) : option AndroidAbi :=
  match_str s
    [ ("armeabi_v7a", ArmeabiV7a); ("arm64_v8a", Arm64V8a); ("x86", AndroidX86);
      ("x86_64", AndroidX86_64) ]%string.

(** ** iOS architectures *)

Inductive IosMultiarch : Type := Arm64Device | Arm64Simulator | X86_64Simulator.

#[export] Instance ios_multiarch_eq_dec : EqDecision IosMultiarch.
Proof. solve_decision. Defined.

Definition ios_multiarch_name (m : IosMultiarch) : list Z :=
  match m with
  | Arm64Device => bytes "arm64_iphoneos"
  | Arm64Simulator => bytes "arm64_iphonesimulator"
  | X86_64Simulator => bytes "x86_64_iphonesimulator"
  end.

Definition ios_multiarch_from_str (s : list Z) : option IosMultiarch :=
  match_str s
    [ ("arm64_iphoneos", Arm64Device); ("arm64_iphonesimulator", Arm64Simulator);
      ("x86_64_iphonesimulator", X86_64Simulator) ]%string.

(** ** Names are read back *)

(** WebAssembly has a name and is not read back. *)
Lemma arch_name_parse a : a <> Wasm32 -> arch_from_str (arch_name a) = Some a.
Proof. by destruct a. Qed.

Lemma arch_from_str_not_wasm s : arch_from_str s <> Some Wasm32.
Proof. unfold arch_from_str. cbn [match_str]. repeat case_decide; done. Qed.

Lemma binary_format_name_parse f : binary_format_from_str (binary_format_name f) = Some f.
Proof. by destruct f. Qed.

Lemma android_abi_name_parse a : android_abi_from_str (android_abi_name a) = Some a.
Proof. by destruct a. Qed.

Lemma ios_multiarch_name_parse m : ios_multiarch_from_str (ios_multiarch_name m) = Some m.
Proof. by destruct m. Qed.

Lemma arch_name_text a : tag_text (arch_name a) /\ arch_name a <> [].
Proof. by destruct a; (split; [apply tag_text_bytes|]). Qed.

Lemma binary_format_text f : tag_text (binary_format_name f) /\ binary_format_name f <> [].
Proof. by destruct f; (split; [apply tag_text_bytes|]). Qed.

Lemma android_abi_text a : tag_text (android_abi_name a) /\ android_abi_name a <> [].
Proof. by destruct a; (split; [apply tag_text_bytes|]). Qed.

Lemma ios_multiarch_text m : tag_text (ios_multiarch_name m) /\ ios_multiarch_name m <> [].
Proof. by destruct m; (split; [apply tag_text_bytes|]). Qed.

(** ** Versions of libc

    [crates/uv-platform-tags/src/libc_version.rs]; the numbers are [u16]. *)

Record LibcVersion : Type := mkLibcVersion {
  libc_major : Z;
  libc_minor : Z
}.

Inductive ParseLibcVersionError : Type := mkParseLibcVersionError.

(** A sign is rejected before the number is parsed. *)
Definition libc_from_str (value : list Z) : result LibcVersion ParseLibcVersionError :=
  let? (major, minor) := ok_or (split_once 46 value) mkParseLibcVersionError in
  if negb (forallb is_ascii_digit major) || negb (forallb is_ascii_digit minor)
  then Err mkParseLibcVersionError
  else
    let? major := ok_or (parse_unsigned U16_MAX major) mkParseLibcVersionError in
    let? minor := ok_or (parse_unsigned U16_MAX minor) mkParseLibcVersionError in
    Ok (mkLibcVersion major minor).

Definition libc_display (v : LibcVersion) : list Z :=
  print_u64 (libc_major v) ++ bytes "." ++ print_u64 (libc_minor v).

(** The derived order. *)
Definition libc_cmp : LibcVersion -> LibcVersion -> comparison :=
  cmp_on (fun v => (libc_major v, libc_minor v)) (cmp_pair Z.compare Z.compare).
