(* ===== verification/PlatformTag.v ===== *)
(** * Platform tags

    [crates/uv-platform-tags/src/platform_tag.rs]: the tag that names the platform a wheel is for,
    what platforms it stands for, its text and its parser. A string is its list of bytes. *)

From stdpp Require Import base countable list option numbers decidable strings.
From Stdlib Require Import ZArith Lia.
From S2P Require Import Prelude Text Libraries VersionDisplay Platform.

Local Open Scope Z_scope.
Local Open Scope uv_scope.

(** ** Data *)

(** An opaque suffix with a release and an architecture. *)
Definition ReleaseArch : Type := list Z.

Inductive PlatformTag : Type :=
| PlatformAny
| Manylinux (major minor : Z) (arch : Arch)
| Manylinux1 (arch : Arch)
| Manylinux2010 (arch : Arch)
| Manylinux2014 (arch : Arch)
| Linux (arch : Arch)
| Musllinux (major minor : Z) (arch : Arch)
| Macos (major minor : Z) (binary_format : BinaryFormat)
| Win32
| WinAmd64
| WinArm64
| WinIa64
| Android (api_level : Z) (abi : AndroidAbi)
| FreeBsd (release_arch : ReleaseArch)
| NetBsd (release_arch : ReleaseArch)
| OpenBsd (release_arch : ReleaseArch)
| Dragonfly (release_arch : ReleaseArch)
| Haiku (release_arch : ReleaseArch)
| Illumos (release_arch : ReleaseArch)
| Solaris (release_arch : ReleaseArch)
| Pyodide (major minor : Z)
| PyEmscripten (major minor : Z)
| Ios (major minor : Z) (multiarch : IosMultiarch).

#[export] Instance platform_tag_eq_dec : EqDecision PlatformTag.
Proof. unfold EqDecision, ReleaseArch. solve_decision. Defined.

(** The enumerations by number. *)
Definition arches : list Arch :=
  [Aarch64; Armv5TEL; Armv6L; Armv7L; Powerpc64Le; Powerpc64; Powerpc; X86; X86_64; S390X;
   LoongArch64; Riscv64; Wasm32].
Definition binary_formats : list BinaryFormat :=
  [BinArm64; BinFat; BinFat32; BinFat64; BinI386; BinIntel; BinPpc; BinPpc64; BinUniversal;
   BinUniversal2; BinX86_64].
Definition android_abis : list AndroidAbi := [ArmeabiV7a; Arm64V8a; AndroidX86; AndroidX86_64].
Definition ios_multiarches : list IosMultiarch := [Arm64Device; Arm64Simulator; X86_64Simulator].

Definition index_of `{EqDecision A} (l : list A) (x : A) : nat :=
  default 0%nat (fst <$> list_find (x =.) l).
Definition nth_of {A : Type} (d : A) (l : list A) (n : nat) : A := default d (l !! n).

Definition platform_tag_code (t : PlatformTag) : nat * list Z * nat :=
  match t with
  | PlatformAny => (0, [], 0)
  | Manylinux major minor arch => (1, [major; minor], index_of arches arch)
  | Manylinux1 arch => (2, [], index_of arches arch)
  | Manylinux2010 arch => (3, [], index_of arches arch)
  | Manylinux2014 arch => (4, [], index_of arches arch)
  | Linux arch => (5, [], index_of arches arch)
  | Musllinux major minor arch => (6, [major; minor], index_of arches arch)
  | Macos major minor f => (7, [major; minor], index_of binary_formats f)
  | Win32 => (8, [], 0)
  | WinAmd64 => (9, [], 0)
  | WinArm64 => (10, [], 0)
  | WinIa64 => (11, [], 0)
  | Android level abi => (12, [level], index_of android_abis abi)
  | FreeBsd r => (13, r, 0)
  | NetBsd r => (14, r, 0)
  | OpenBsd r => (15, r, 0)
  | Dragonfly r => (16, r, 0)
  | Haiku r => (17, r, 0)
  | Illumos r => (18, r, 0)
  | Solaris r => (19, r, 0)
  | Pyodide major minor => (20, [major; minor], 0)
  | PyEmscripten major minor => (21, [major; minor], 0)
  | Ios major minor m => (22, [major; minor], index_of ios_multiarches m)
  end%nat.

Definition platform_tag_decode (c : nat * list Z * nat) : PlatformTag :=
  let '(n, l, i) := c in
  let major := nth_of 0 l 0 in
  let minor := nth_of 0 l 1 in
  let arch := nth_of Wasm32 arches i in
  match n with
  | 0 => PlatformAny
  | 1 => Manylinux major minor arch
  | 2 => Manylinux1 arch
  | 3 => Manylinux2010 arch
  | 4 => Manylinux2014 arch
  | 5 => Linux arch
  | 6 => Musllinux major minor arch
  | 7 => Macos major minor (nth_of BinFat binary_formats i)
  | 8 => Win32
  | 9 => WinAmd64
  | 10 => WinArm64
  | 11 => WinIa64
  | 12 => Android major (nth_of AndroidX86 android_abis i)
  | 13 => FreeBsd l
  | 14 => NetBsd l
  | 15 => OpenBsd l
  | 16 => Dragonfly l
  | 17 => Haiku l
  | 18 => Illumos l
  | 19 => Solaris l
  | 20 => Pyodide major minor
  | 21 => PyEmscripten major minor
  | _ => Ios major minor (nth_of Arm64Device ios_multiarches i)
  end%nat.

#[export] Instance platform_tag_countable : Countable PlatformTag.
Proof.
  apply (inj_countable' platform_tag_code platform_tag_decode).
  intros [| ? ? []|[]|[]|[]|[]|? ? []|? ? []| | | | |? []| | | | | | | | | | ? ? []]; reflexivity.
Defined.

Inductive ParsePlatformTagError : Type :=
| PlatformUnknownFormat (tag : list Z)
| PlatformInvalidFormat (platform tag : list Z)
| PlatformInvalidMajorVersion (platform tag : list Z)
| PlatformInvalidMinorVersion (platform tag : list Z)
| PlatformInvalidArch (platform tag : list Z)
| PlatformInvalidApiLevel (platform tag : list Z)
| PlatformInvalidCharacters (tag : list Z).

Inductive ParseReleaseArchError : Type := mkParseReleaseArchError.

(** ** What a tag stands for *)

Definition platform_tag_pretty (t : PlatformTag) : option (list Z) :=
  match t with
  | PlatformAny => None
  | Manylinux _ _ _ => Some (bytes "Linux")
  | Manylinux1 _ => Some (bytes "Linux")
  | Manylinux2010 _ => Some (bytes "Linux")
  | Manylinux2014 _ => Some (bytes "Linux")
  | Linux _ => Some (bytes "Linux")
  | Musllinux _ _ _ => Some (bytes "Linux")
  | Macos _ _ _ => Some (bytes "macOS")
  | Win32 => Some (bytes "Windows")
  | WinAmd64 => Some (bytes "Windows")
  | WinArm64 => Some (bytes "Windows")
  | WinIa64 => Some (bytes "Windows")
  | Android _ _ => Some (bytes "Android")
  | FreeBsd _ => Some (bytes "FreeBSD")
  | NetBsd _ => Some (bytes "NetBSD")
  | OpenBsd _ => Some (bytes "OpenBSD")
  | Dragonfly _ => Some (bytes "DragonFly")
  | Haiku _ => Some (bytes "Haiku")
  | Illumos _ => Some (bytes "Illumos")
  | Solaris _ => Some (bytes "Solaris")
  | Pyodide _ _ => Some (bytes "Pyodide")
  | PyEmscripten _ _ => Some (bytes "Emscripten")
  | Ios _ _ _ => Some (bytes "iOS")
  end.

Definition is_any (t : PlatformTag) : bool :=
  match t with PlatformAny => true | _ => false end.

Definition is_manylinux (t : PlatformTag) : bool :=
  match t with
  | Manylinux _ _ _ | Manylinux1 _ | Manylinux2010 _ | Manylinux2014 _ => true
  | _ => false
  end.

Definition is_linux (t : PlatformTag) : bool :=
  match t with
  | Manylinux _ _ _ | Manylinux1 _ | Manylinux2010 _ | Manylinux2014 _ | Musllinux _ _ _
  | Linux _ => true
  | _ => false
  end.

Definition is_macos (t : PlatformTag) : bool :=
  match t with Macos _ _ _ => true | _ => false end.

Definition is_android (t : PlatformTag) : bool :=
  match t with Android _ _ => true | _ => false end.

Definition is_windows (t : PlatformTag) : bool :=
  match t with Win32 | WinAmd64 | WinArm64 | WinIa64 => true | _ => false end.

Definition is_arm (t : PlatformTag) : bool :=
  match t with
  | Manylinux _ _ Aarch64 | Manylinux1 Aarch64 | Manylinux2010 Aarch64 | Manylinux2014 Aarch64
  | Linux Aarch64 | Musllinux _ _ Aarch64 | Macos _ _ BinArm64
  | Ios _ _ (Arm64Device | Arm64Simulator) | WinArm64 | Android _ Arm64V8a => true
  | _ => false
  end.

Definition is_x86_64 (t : PlatformTag) : bool :=
  match t with
  | Manylinux _ _ X86_64 | Manylinux1 X86_64 | Manylinux2010 X86_64 | Manylinux2014 X86_64
  | Linux X86_64 | Musllinux _ _ X86_64 | Macos _ _ BinX86_64 | Ios _ _ X86_64Simulator
  | WinAmd64 => true
  | _ => false
  end.

Definition is_x86 (t : PlatformTag) : bool :=
  match t with
  | Manylinux _ _ X86 | Manylinux1 X86 | Manylinux2010 X86 | Manylinux2014 X86 | Linux X86
  | Musllinux _ _ X86 | Macos _ _ BinI386 | Win32 => true
  | _ => false
  end.

Definition is_ppc64le (t : PlatformTag) : bool :=
  match t with
  | Manylinux _ _ Powerpc64Le | Manylinux2014 Powerpc64Le | Linux Powerpc64Le
  | Musllinux _ _ Powerpc64Le => true
  | _ => false
  end.

Definition is_ppc64 (t : PlatformTag) : bool :=
  match t with
  | Manylinux _ _ Powerpc64 | Manylinux2014 Powerpc64 | Linux Powerpc64
  | Musllinux _ _ Powerpc64 => true
  | _ => false
  end.

Definition is_s390x (t : PlatformTag) : bool :=
  match t with
  | Manylinux _ _ S390X | Manylinux2014 S390X | Linux S390X | Musllinux _ _ S390X => true
  | _ => false
  end.

Definition is_riscv64 (t : PlatformTag) : bool :=
  match t with
  | Manylinux _ _ Riscv64 | Linux Riscv64 | Musllinux _ _ Riscv64 => true
  | _ => false
  end.

Definition is_loongarch64 (t : PlatformTag) : bool :=
  match t with
  | Manylinux _ _ LoongArch64 | Linux LoongArch64 | Musllinux _ _ LoongArch64 => true
  | _ => false
  end.

Definition is_armv7l (t : PlatformTag) : bool :=
  match t with
  | Manylinux _ _ Armv7L | Manylinux2014 Armv7L | Linux Armv7L | Musllinux _ _ Armv7L => true
  | _ => false
  end.

Definition is_armv6l (t : PlatformTag) : bool :=
  match t with
  | Manylinux _ _ Armv6L | Manylinux2014 Armv6L | Linux Armv6L | Musllinux _ _ Armv6L => true
  | _ => false
  end.

(** ** Display *)

Definition platform_tag_display (t : PlatformTag) : list Z :=
  match t with
  | PlatformAny => bytes "any"
  | Manylinux major minor arch =>
      bytes "manylinux_" ++ print_u64 major ++ bytes "_" ++ print_u64 minor ++ bytes "_"
        ++ arch_display arch
  | Manylinux1 arch => bytes "manylinux1_" ++ arch_display arch
  | Manylinux2010 arch => bytes "manylinux2010_" ++ arch_display arch
  | Manylinux2014 arch => bytes "manylinux2014_" ++ arch_display arch
  | Linux arch => bytes "linux_" ++ arch_display arch
  | Musllinux major minor arch =>
      bytes "musllinux_" ++ print_u64 major ++ bytes "_" ++ print_u64 minor ++ bytes "_"
        ++ arch_display arch
  | Macos major minor format =>
      bytes "macosx_" ++ print_u64 major ++ bytes "_" ++ print_u64 minor ++ bytes "_"
        ++ binary_format_name format
  | Win32 => bytes "win32"
  | WinAmd64 => bytes "win_amd64"
  | WinArm64 => bytes "win_arm64"
  | WinIa64 => bytes "win_ia64"
  | Android api_level abi =>
      bytes "android_" ++ print_u64 api_level ++ bytes "_" ++ android_abi_name abi
  | FreeBsd release_arch => bytes "freebsd_" ++ release_arch
  | NetBsd release_arch => bytes "netbsd_" ++ release_arch
  | OpenBsd release_arch => bytes "openbsd_" ++ release_arch
  | Dragonfly release_arch => bytes "dragonfly_" ++ release_arch
  | Haiku release_arch => bytes "haiku_" ++ release_arch
  | Illumos release_arch => bytes "illumos_" ++ release_arch
  | Solaris release_arch => bytes "solaris_" ++ release_arch ++ bytes "_64bit"
  | Pyodide major minor =>
      bytes "pyodide_" ++ print_u64 major ++ bytes "_" ++ print_u64 minor ++ bytes "_wasm32"
  | PyEmscripten major minor =>
      bytes "pyemscripten_" ++ print_u64 major ++ bytes "_" ++ print_u64 minor ++ bytes "_wasm32"
  | Ios major minor multiarch =>
      bytes "ios_" ++ print_u64 major ++ bytes "_" ++ print_u64 minor ++ bytes "_"
        ++ ios_multiarch_name multiarch
  end.

(** ** Parsing *)

Definition is_release_arch_byte (byte : Z) : bool := is_ascii_alphanumeric byte || (byte =? 95).

Definition release_arch_from_str (s : list Z) : result ReleaseArch ParseReleaseArchError :=
  if forallb is_release_arch_byte s then Ok (to_ascii_lowercase <$> s)
  else Err mkParseReleaseArchError.

(** A block [if let Some(rest) = s.strip_prefix(prefix) { return ... }]: no answer if the text does
    not start with the prefix. *)
Definition on_prefix {A : Type} (prefix : string) (s : list Z) (f : list Z -> A) : option A :=
  f <$> strip_prefix (bytes prefix) s.

(** The answer of the first block that returns. *)
Fixpoint first_return {A : Type} (blocks : list (option A)) : option A :=
  match blocks with
  | [] => None
  | Some a :: _ => Some a
  | None :: blocks' => first_return blocks'
  end.

Section Parse.
Context `{!Memchr}.

(** A major and a minor version and a name, separated by underscores. *)
Definition parse_versioned {A : Type} (parse_name : list Z -> option A) (platform s rest : list Z) :
    result (Z * Z * A) ParsePlatformTagError :=
  let? first_underscore := ok_or (memchr 95 rest) (PlatformInvalidFormat platform s) in
  let? second_underscore :=
    ok_or ((fun i => i + first_underscore + 1)%nat <$> memchr 95 (drop (first_underscore + 1) rest))
          (PlatformInvalidFormat platform s) in
  let? major := ok_or (parse_unsigned U16_MAX (take first_underscore rest))
                      (PlatformInvalidMajorVersion platform s) in
  let? minor :=
    ok_or (parse_unsigned U16_MAX
             (drop (first_underscore + 1) (take second_underscore rest)))
          (PlatformInvalidMinorVersion platform s) in
  let name_str := drop (second_underscore + 1) rest in
  if decide (name_str = []) then Err (PlatformInvalidFormat platform s)
  else
    let? name := ok_or (parse_name name_str) (PlatformInvalidArch platform s) in
    Ok (major, minor, name).

Definition parse_manylinux (s : list Z) : option (result PlatformTag ParsePlatformTagError) :=
  on_prefix "manylinux_" s (fun rest =>
    let? (major, minor, arch) := parse_versioned arch_from_str (bytes "manylinux") s rest in
    Ok (Manylinux major minor arch)).

Definition parse_manylinux1 (s : list Z) : option (result PlatformTag ParsePlatformTagError) :=
  on_prefix "manylinux1_" s (fun rest =>
    let? arch := ok_or (arch_from_str rest) (PlatformInvalidArch (bytes "manylinux1") s) in
    Ok (Manylinux1 arch)).

Definition parse_manylinux2010 (s : list Z) : option (result PlatformTag ParsePlatformTagError) :=
  on_prefix "manylinux2010_" s (fun rest =>
    let? arch := ok_or (arch_from_str rest) (PlatformInvalidArch (bytes "manylinux2010") s) in
    Ok (Manylinux2010 arch)).

Definition parse_manylinux2014 (s : list Z) : option (result PlatformTag ParsePlatformTagError) :=
  on_prefix "manylinux2014_" s (fun rest =>
    let? arch := ok_or (arch_from_str rest) (PlatformInvalidArch (bytes "manylinux2014") s) in
    Ok (Manylinux2014 arch)).

Definition parse_linux (s : list Z) : option (result PlatformTag ParsePlatformTagError) :=
  on_prefix "linux_" s (fun rest =>
    let? arch := ok_or (arch_from_str rest) (PlatformInvalidArch (bytes "linux") s) in
    Ok (Linux arch)).

Definition parse_musllinux (s : list Z) : option (result PlatformTag ParsePlatformTagError) :=
  on_prefix "musllinux_" s (fun rest =>
    let? (major, minor, arch) := parse_versioned arch_from_str (bytes "musllinux") s rest in
    Ok (Musllinux major minor arch)).

Definition parse_macosx (s : list Z) : option (result PlatformTag ParsePlatformTagError) :=
  on_prefix "macosx_" s (fun rest =>
    let? (major, minor, binary_format) :=
      parse_versioned binary_format_from_str (bytes "macosx") s rest in
    Ok (Macos major minor binary_format)).

Definition parse_android (s : list Z) : option (result PlatformTag ParsePlatformTagError) :=
  on_prefix "android_" s (fun rest =>
    let? underscore := ok_or (memchr 95 rest) (PlatformInvalidFormat (bytes "android") s) in
    let? api_level := ok_or (parse_unsigned U16_MAX (take underscore rest))
                            (PlatformInvalidApiLevel (bytes "android") s) in
    let abi_str := drop (underscore + 1) rest in
    if decide (abi_str = []) then Err (PlatformInvalidFormat (bytes "android") s)
    else
      let? abi := ok_or (android_abi_from_str abi_str) (PlatformInvalidArch (bytes "android") s) in
      Ok (Android api_level abi)).

(** A platform with an opaque suffix. *)
Definition parse_release_platform (make : ReleaseArch -> PlatformTag) (platform s rest : list Z) :
    result PlatformTag ParsePlatformTagError :=
  if decide (rest = []) then Err (PlatformInvalidFormat platform s)
  else
    let? release_arch :=
      map_err (fun _ => PlatformInvalidCharacters s) (release_arch_from_str rest) in
    Ok (make release_arch).

Definition parse_freebsd (s : list Z) : option (result PlatformTag ParsePlatformTagError) :=
  on_prefix "freebsd_" s (parse_release_platform FreeBsd (bytes "freebsd") s).

Definition parse_netbsd (s : list Z) : option (result PlatformTag ParsePlatformTagError) :=
  on_prefix "netbsd_" s (parse_release_platform NetBsd (bytes "netbsd") s).

Definition parse_openbsd (s : list Z) : option (result PlatformTag ParsePlatformTagError) :=
  on_prefix "openbsd_" s (parse_release_platform OpenBsd (bytes "openbsd") s).

Definition parse_dragonfly (s : list Z) : option (result PlatformTag ParsePlatformTagError) :=
  on_prefix "dragonfly_" s (parse_release_platform Dragonfly (bytes "dragonfly") s).

Definition parse_haiku (s : list Z) : option (result PlatformTag ParsePlatformTagError) :=
  on_prefix "haiku_" s (parse_release_platform Haiku (bytes "haiku") s).

Definition parse_illumos (s : list Z) : option (result PlatformTag ParsePlatformTagError) :=
  on_prefix "illumos_" s (parse_release_platform Illumos (bytes "illumos") s).

Definition parse_solaris (s : list Z) : option (result PlatformTag ParsePlatformTagError) :=
  on_prefix "solaris_" s (fun rest =>
    if decide (rest = []) then Err (PlatformInvalidFormat (bytes "solaris") s)
    else match strip_suffix (bytes "_64bit") rest with
    | Some ((_ :: _) as release_arch) =>
        let? release_arch :=
          map_err (fun _ => PlatformInvalidCharacters s) (release_arch_from_str release_arch) in
        Ok (Solaris release_arch)
    | _ => Err (PlatformInvalidArch (bytes "solaris") s)
    end).

(** A major and a minor version followed by [_wasm32]. *)
Definition parse_wasm (make : Z -> Z -> PlatformTag) (platform s rest : list Z) :
    result PlatformTag ParsePlatformTagError :=
  let? mid := ok_or (strip_suffix (bytes "_wasm32") rest) (PlatformInvalidArch platform s) in
  let? underscore := ok_or (memchr 95 mid) (PlatformInvalidFormat platform s) in
  let? major := ok_or (parse_unsigned U16_MAX (take underscore mid))
                      (PlatformInvalidMajorVersion platform s) in
  let? minor := ok_or (parse_unsigned U16_MAX (drop (underscore + 1) mid))
                      (PlatformInvalidMinorVersion platform s) in
  Ok (make major minor).

Definition parse_pyodide (s : list Z) : option (result PlatformTag ParsePlatformTagError) :=
  on_prefix "pyodide_" s (parse_wasm Pyodide (bytes "pyodide") s).

Definition parse_pyemscripten (s : list Z) : option (result PlatformTag ParsePlatformTagError) :=
  on_prefix "pyemscripten_" s (parse_wasm PyEmscripten (bytes "pyemscripten") s).

Definition parse_ios (s : list Z) : option (result PlatformTag ParsePlatformTagError) :=
  on_prefix "ios_" s (fun rest =>
    let? (major, minor, multiarch) :=
      parse_versioned ios_multiarch_from_str (bytes "ios") s rest in
    Ok (Ios major minor multiarch)).

Definition parse_static (s : list Z) : option PlatformTag :=
  match_str s
    [ ("any", PlatformAny); ("win32", Win32); ("win_amd64", WinAmd64); ("win_arm64", WinArm64);
      ("win_ia64", WinIa64) ]%string.

Definition platform_tag_from_str (s : list Z) : result PlatformTag ParsePlatformTagError :=
  match parse_static s with
  | Some t => Ok t
  | None =>
      match first_return
              [ parse_manylinux s; parse_manylinux1 s; parse_manylinux2010 s; parse_manylinux2014 s;
                parse_linux s; parse_musllinux s; parse_macosx s; parse_android s; parse_freebsd s;
                parse_netbsd s; parse_openbsd s; parse_dragonfly s; parse_haiku s; parse_illumos s;
                parse_solaris s; parse_pyodide s; parse_pyemscripten s; parse_ios s ] with
      | Some r => r
      | None => Err (PlatformUnknownFormat s)
      end
  end.

End Parse.

(** * Facts about platform tags

    What the parser of [platform_tag.rs] produces, and that it reads back what is printed. *)

(** ** Well-formedness *)

Definition is_u16 (n : Z) : Prop := 0 <= n <= U16_MAX.

(** What the parser accepts as a suffix, in lower case. *)
Definition release_arch_wf (r : ReleaseArch) : Prop := r <> [] /\ tag_text r.

(** The numbers fit, the architecture has a name that is read back, the suffix is in lower case. *)
Definition platform_tag_wf (t : PlatformTag) : Prop :=
  match t with
  | PlatformAny | Win32 | WinAmd64 | WinArm64 | WinIa64 => True
  | Manylinux major minor arch | Musllinux major minor arch =>
      is_u16 major /\ is_u16 minor /\ arch <> Wasm32
  | Manylinux1 arch | Manylinux2010 arch | Manylinux2014 arch | Linux arch => arch <> Wasm32
  | Macos major minor _ | Ios major minor _ | Pyodide major minor | PyEmscripten major minor =>
      is_u16 major /\ is_u16 minor
  | Android api_level _ => is_u16 api_level
  | FreeBsd r | NetBsd r | OpenBsd r | Dragonfly r | Haiku r | Illumos r | Solaris r =>
      release_arch_wf r
  end.

Lemma u16_u64 n : is_u16 n -> is_u64 n.
Proof. unfold is_u16, is_u64, U16_MAX, U64_MAX. lia. Qed.

Lemma print_u16_under n : is_u16 n -> 95 ∉ print_u64 n.
Proof. intros H. by apply (digits_not_in 95), print_u64_digits, u16_u64. Qed.

Lemma parse_u16_print n : is_u16 n -> parse_unsigned U16_MAX (print_u64 n) = Some n.
Proof. intros H. apply parse_unsigned_print; [done|]. unfold U16_MAX, U64_MAX. lia. Qed.

Lemma parse_u16_range s n : parse_unsigned U16_MAX s = Some n -> is_u16 n.
Proof. apply parse_unsigned_range. unfold U16_MAX. lia. Qed.

(** ** Suffixes *)

Lemma tag_char_lower c : tag_char c = true -> is_release_arch_byte c = true /\ to_ascii_lowercase c = c.
Proof.
  unfold tag_char, is_release_arch_byte, to_ascii_lowercase, is_ascii_alphanumeric,
    is_ascii_uppercase, is_ascii_lowercase, is_ascii_digit. intros H. split; [lia|].
  destruct ((65 <=? c) && (c <=? 90)) eqn:E; lia.
Qed.

Lemma release_arch_lower c : is_release_arch_byte c = true -> tag_char (to_ascii_lowercase c) = true.
Proof.
  unfold tag_char, is_release_arch_byte, to_ascii_lowercase, is_ascii_alphanumeric,
    is_ascii_uppercase, is_ascii_lowercase, is_ascii_digit.
  destruct ((65 <=? c) && (c <=? 90)) eqn:E; lia.
Qed.

Lemma release_arch_parse r : tag_text r -> release_arch_from_str r = Ok r.
Proof.
  intros H. unfold release_arch_from_str.
  assert (forallb is_release_arch_byte r = true /\ to_ascii_lowercase <$> r = r) as [-> ->]; [|done].
  induction H as [|c r Hc Hr [IH1 IH2]]; [done|]. apply tag_char_lower in Hc as [H1 H2].
  cbn. by rewrite H1, H2, IH1, IH2.
Qed.

Lemma release_arch_from_str_wf s r : s <> [] -> release_arch_from_str s = Ok r -> release_arch_wf r.
Proof.
  unfold release_arch_from_str. destruct (forallb is_release_arch_byte s) eqn:F; [|done].
  intros Hs [= <-]. split; [by destruct s|]. apply Forall_fmap, Forall_forall. intros c Hc.
  apply release_arch_lower. rewrite forallb_forall in F. by apply F, list_elem_of_In.
Qed.

Section Facts.
Context `{!Memchr, !MemchrLaws}.

(** ** Versions in tags *)

Lemma parse_versioned_print {A} (f : list Z -> option A) platform s major minor name a :
  is_u16 major -> is_u16 minor -> name <> [] -> f name = Some a ->
  parse_versioned f platform s
    (print_u64 major ++ bytes "_" ++ print_u64 minor ++ bytes "_" ++ name) = Ok (major, minor, a).
Proof.
  intros Hj Hn Hname Hf. unfold parse_versioned. cbv zeta. change (bytes "_") with [95].
  set (M := print_u64 major). set (N := print_u64 minor). cbn [app].
  assert (95 ∉ M /\ 95 ∉ N) as [HM HN] by (split; by apply print_u16_under).
  rewrite memchr_app by done. cbn [ok_or result_bind].
  assert (drop (length M + 1) (M ++ 95 :: N ++ 95 :: name) = N ++ 95 :: name) as D.
  { rewrite drop_app_ge by lia. replace (length M + 1 - length M)%nat with 1%nat by lia. done. }
  rewrite D, memchr_app by done. cbn [fmap option_fmap option_map ok_or result_bind].
  rewrite take_app_length. unfold M at 1. rewrite parse_u16_print by done. cbn [ok_or result_bind].
  rewrite skipn_firstn_comm, D.
  replace (length N + length M + 1 - (length M + 1))%nat with (length N) by lia.
  rewrite take_app_length. unfold N at 1. rewrite parse_u16_print by done. cbn [ok_or result_bind].
  replace (length N + length M + 1 + 1)%nat with (length M + 1 + (length N + 1))%nat by lia.
  rewrite <- drop_drop, D. rewrite drop_app_ge by lia.
  replace (length N + 1 - length N)%nat with 1%nat by lia. cbn [drop].
  rewrite drop_0, decide_False by done. by rewrite Hf.
Qed.

Lemma parse_versioned_wf {A} (f : list Z -> option A) platform s rest major minor a :
  parse_versioned f platform s rest = Ok (major, minor, a) ->
  is_u16 major /\ is_u16 minor /\ exists name, f name = Some a.
Proof.
  unfold parse_versioned. intros E. result_inv E. case_decide; [done|]. result_inv E.
  injection E as <- <- <-.
  repeat match goal with G : ok_or _ _ = Ok _ |- _ => apply ok_or_Ok in G end.
  split_and!; [by eapply parse_u16_range..|]. by eexists.
Qed.

(** ** The round trip *)

Ltac blocks :=
  unfold platform_tag_from_str, platform_tag_display, arch_display, parse_static, parse_manylinux, parse_manylinux1,
    parse_manylinux2010, parse_manylinux2014, parse_linux, parse_musllinux, parse_macosx,
    parse_android, parse_freebsd, parse_netbsd, parse_openbsd, parse_dragonfly, parse_haiku,
    parse_illumos, parse_solaris, parse_pyodide, parse_pyemscripten, parse_ios, on_prefix, match_str;
  strip_prefixes; cbn [fmap option_fmap option_map first_return].

Lemma parse_wasm_print make platform s major minor :
  is_u16 major -> is_u16 minor ->
  parse_wasm make platform s (print_u64 major ++ bytes "_" ++ print_u64 minor ++ bytes "_wasm32") =
    Ok (make major minor).
Proof.
  intros Hj Hn. unfold parse_wasm.
  assert (print_u64 major ++ bytes "_" ++ print_u64 minor ++ bytes "_wasm32" =
          (print_u64 major ++ 95 :: print_u64 minor) ++ bytes "_wasm32") as ->
    by (by rewrite <- app_assoc).
  rewrite strip_suffix_app. cbn [ok_or result_bind].
  rewrite memchr_app by (by apply print_u16_under). cbn [ok_or result_bind].
  rewrite take_app_length, parse_u16_print by done. cbn [ok_or result_bind].
  rewrite drop_app_ge by lia.
  replace (length (print_u64 major) + 1 - length (print_u64 major))%nat with 1%nat by lia.
  cbn [drop]. by rewrite drop_0, parse_u16_print.
Qed.

Lemma parse_release_print make platform s r :
  release_arch_wf r -> parse_release_platform make platform s r = Ok (make r).
Proof.
  intros [Hr Ht]. unfold parse_release_platform. rewrite decide_False by done.
  by rewrite release_arch_parse.
Qed.

Lemma platform_tag_display_parse t :
  platform_tag_wf t -> platform_tag_from_str (platform_tag_display t) = Ok t.
Proof.
  destruct t as [|major minor arch|arch|arch|arch|arch|major minor arch|major minor f| | | | |level abi
    |r|r|r|r|r|r|r|major minor|major minor|major minor m];
    intros W; cbn in W; [done|..]; try done; blocks;
    try (rewrite parse_release_print by done; done);
    try (rewrite arch_name_parse by done; done);
    try (destruct W as [? ?]; rewrite parse_wasm_print by done; done).
  - destruct W as (? & ? & ?). rewrite (parse_versioned_print _ _ _ _ _ _ arch); try done.
    + apply arch_name_text.
    + by apply arch_name_parse.
  - destruct W as (? & ? & ?). rewrite (parse_versioned_print _ _ _ _ _ _ arch); try done.
    + apply arch_name_text.
    + by apply arch_name_parse.
  - destruct W as [? ?]. rewrite (parse_versioned_print _ _ _ _ _ _ f); try done.
    + apply binary_format_text.
    + by apply binary_format_name_parse.
  - change (bytes "_") with [95]. cbn [app]. rewrite memchr_app by (by apply print_u16_under).
    cbn [ok_or result_bind]. rewrite take_app_length, parse_u16_print by done.
    cbn [ok_or result_bind]. rewrite drop_app_ge by lia.
    replace (length (print_u64 level) + 1 - length (print_u64 level))%nat with 1%nat by lia.
    cbn [drop]. rewrite drop_0, decide_False by apply android_abi_text. by rewrite android_abi_name_parse.
  - destruct W as [Hr Ht]. rewrite decide_False by (by intros [? ?]%app_nil).
    rewrite strip_suffix_app. destruct r as [|c r]; [done|]. by rewrite release_arch_parse.
  - destruct W as [? ?]. rewrite (parse_versioned_print _ _ _ _ _ _ m); try done.
    + apply ios_multiarch_text.
    + by apply ios_multiarch_name_parse.
Qed.

Lemma parse_release_wf make platform s rest t :
  (forall r, release_arch_wf r -> platform_tag_wf (make r)) ->
  parse_release_platform make platform s rest = Ok t -> platform_tag_wf t.
Proof.
  intros M. unfold parse_release_platform. case_decide; [done|]. intros E. result_inv E.
  injection E as <-. apply M.
  match goal with G : map_err _ _ = Ok _ |- _ => apply map_err_Ok in G end.
  by eapply release_arch_from_str_wf.
Qed.

Lemma parse_wasm_wf make platform s rest t :
  (forall major minor, is_u16 major -> is_u16 minor -> platform_tag_wf (make major minor)) ->
  parse_wasm make platform s rest = Ok t -> platform_tag_wf t.
Proof.
  intros M. unfold parse_wasm. intros E. result_inv E. injection E as <-.
  repeat match goal with G : ok_or _ _ = Ok _ |- _ => apply ok_or_Ok in G end.
  apply M; by eapply parse_u16_range.
Qed.

(** The block that answers. *)
Lemma first_return_elem {A} (l : list (option A)) a : first_return l = Some a -> Some a ∈ l.
Proof.
  induction l as [|[b|] l IH]; cbn; [done|intros [= <-]; left|]. intros E. right. by apply IH.
Qed.

Lemma on_prefix_Some {A} prefix s (f : list Z -> A) a :
  on_prefix prefix s f = Some a -> exists rest, a = f rest.
Proof. unfold on_prefix. intros (rest & _ & E)%fmap_Some. by exists rest. Qed.

Lemma parse_named_wf {A} (parse : list Z -> option A) (make : A -> PlatformTag)
    (e : ParsePlatformTagError) s t :
  (forall a, parse s = Some a -> platform_tag_wf (make a)) ->
  result_bind (ok_or (parse s) e) (fun a => Ok (make a)) = Ok t -> platform_tag_wf t.
Proof. intros M E. result_inv E. injection E as <-. by eapply M, ok_or_Ok. Qed.

Lemma parse_versioned_tag_wf {A} (f : list Z -> option A) platform s rest make t :
  (forall major minor name a, is_u16 major -> is_u16 minor -> f name = Some a ->
    platform_tag_wf (make major minor a)) ->
  (let? (major, minor, a) := parse_versioned f platform s rest in Ok (make major minor a)) = Ok t ->
  platform_tag_wf t.
Proof.
  intros M E. apply result_bind_Ok in E as ([[major minor] a] & E1 & E2). injection E2 as <-.
  destruct (parse_versioned_wf _ _ _ _ _ _ _ E1) as (? & ? & name & ?). by eapply M.
Qed.

Lemma arch_not_wasm s a : arch_from_str s = Some a -> a <> Wasm32.
Proof. intros E ->. by apply (arch_from_str_not_wasm s). Qed.

Lemma platform_tag_from_str_wf s t : platform_tag_from_str s = Ok t -> platform_tag_wf t.
Proof.
  unfold platform_tag_from_str. destruct (parse_static s) as [u|] eqn:E.
  { intros [= <-]. revert E. unfold parse_static. cbn [match_str]. repeat case_decide; by intros [= <-]. }
  destruct (first_return _) as [r|] eqn:F; [|done]. intros ->.
  apply first_return_elem in F. rewrite !elem_of_cons in F.
  destruct_or? F; [..|by apply elem_of_nil in F];
    symmetry in F; apply on_prefix_Some in F as [rest F]; symmetry in F; revert F;
    first [ apply parse_versioned_tag_wf; cbn [platform_tag_wf]; eauto using arch_not_wasm
          | apply (parse_named_wf arch_from_str); cbn [platform_tag_wf]; eauto using arch_not_wasm
          | by apply parse_release_wf
          | by apply parse_wasm_wf
          | idtac ].
  - intros F. result_inv F. cbv zeta in F. case_decide; [done|]. result_inv F. injection F as <-.
    repeat match goal with G : ok_or _ _ = Ok _ |- _ => apply ok_or_Ok in G end.
    by eapply parse_u16_range.
  - case_decide; [done|]. destruct (strip_suffix _ rest) as [[|c r]|]; try done. intros F.
    result_inv F. injection F as <-.
    match goal with G : map_err _ _ = Ok _ |- _ => apply map_err_Ok in G end.
    by eapply (release_arch_from_str_wf (c :: r)).
Qed.

Lemma platform_tag_text t : platform_tag_wf t -> tag_text (platform_tag_display t).
Proof.
  assert (forall n, is_u16 n -> tag_text (print_u64 n)) as P
    by (intros; by apply print_u64_tag, u16_u64).
  destruct t; intros W; cbn in W; unfold platform_tag_display, arch_display;
    repeat (apply tag_text_app; [first [by apply tag_text_bytes | by apply P; apply W | apply W]|]);
    first [by apply tag_text_bytes | apply arch_name_text | apply binary_format_text
          | apply android_abi_text | apply ios_multiarch_text | apply W].
Qed.
End Facts.

(** ** Versions of libc *)

Lemma digits_forallb l : Forall (fun b => is_ascii_digit b = true) l -> forallb is_ascii_digit l = true.
Proof. intros H. apply forallb_forall. intros c Hc%list_elem_of_In. by rewrite Forall_forall in H; apply H. Qed.

(** A version with numbers that fit is read back, and only such versions are read. *)
Lemma libc_display_parse v :
  is_u16 (libc_major v) -> is_u16 (libc_minor v) -> libc_from_str (libc_display v) = Ok v.
Proof.
  intros H1 H2. unfold libc_from_str, libc_display. change (bytes ".") with [46]. cbn [app].
  pose proof (print_u64_digits _ (u16_u64 _ H1)) as D1. pose proof (print_u64_digits _ (u16_u64 _ H2)) as D2.
  rewrite split_once_app by (by apply digits_not_in). cbn [ok_or result_bind].
  rewrite !digits_forallb by done. cbn [negb orb].
  rewrite !parse_u16_print by done. by destruct v.
Qed.

Lemma libc_from_str_wf s v : libc_from_str s = Ok v -> is_u16 (libc_major v) /\ is_u16 (libc_minor v).
Proof.
  unfold libc_from_str. intros E. result_inv E. destruct x. destruct (_ || _); [done|]. result_inv E.
  injection E as <-. split; eapply parse_u16_range, ok_or_Ok; eassumption.
Qed.
