(* ===== verification/Tags.v ===== *)
(** * Compatible tags

    [crates/uv-platform-tags/src/tags.rs]: the tags an interpreter accepts, in order of priority,
    and the compatibility of a wheel with them. *)

From stdpp Require Import base countable list option numbers decidable strings gmap.
From Stdlib Require Import ZArith Lia.
From S2P Require Import Prelude Text Libraries VersionDisplay LanguageTag AbiTag Platform.
From S2P Require Import PlatformTag.

Local Open Scope Z_scope.
Local Open Scope uv_scope.

(** ** Data *)

Definition U32_MAX : Z := 4294967295.

(** Error texts are left out. *)
Inductive PlatformError : Type :=
| OsVersionDetectionError
| InvalidReleaseArch (release_arch : list Z) (error : ParseReleaseArchError)
| InvalidAndroidArch (arch : Arch)
| InvalidIosSimulatorArch (arch : Arch)
| InvalidIosDeviceArch (arch : Arch).

Inductive TagsError : Type :=
| TagsPlatformError (e : PlatformError)
| UnsupportedImplementation (name : list Z)
| UnknownImplementation (name : list Z)
| InvalidPriority (priority : nat)
| GilIsACPythonProblem (name : list Z)
| DebugIsACPythonProblem (name : list Z).

Record TagsOptions : Type := mkTagsOptions {
  manylinux_compatible : bool;
  gil_disabled : bool;
  debug_enabled : bool;
  opt_is_cross : bool
}.

Inductive IncompatibleTag : Type :=
| IncVariant | IncInvalid | IncPython | IncAbi | IncFreethreadedAbi | IncAbiPythonVersion
| IncPlatform.

(** A [NonZeroU32]; higher is better. *)
Definition TagPriority : Type := Z.

Inductive TagCompatibility : Type :=
| Incompatible (t : IncompatibleTag)
| Compatible (p : TagPriority).

Record CompressedTags : Type := mkCompressedTags {
  python_tags : list LanguageTag;
  abi_tags : list AbiTag;
  platform_tags : list PlatformTag
}.

Record Tags : Type := mkTags {
  tags_map : gmap LanguageTag (gmap AbiTag (gmap PlatformTag TagPriority));
  tags_best : option (LanguageTag * AbiTag * PlatformTag);
  tags_python_platform : Platform;
  tags_python_version : Z * Z;
  tags_is_cross : bool;
  tags_is_freethreaded : bool
}.

(** ** Orders *)

(** The derived order follows the declaration. *)
Definition incompatible_rank (t : IncompatibleTag) : Z :=
  match t with
  | IncVariant => 0
  | IncInvalid => 1
  | IncPython => 2
  | IncAbi => 3
  | IncFreethreadedAbi => 4
  | IncAbiPythonVersion => 5
  | IncPlatform => 6
  end.

Definition incompatible_cmp (s t : IncompatibleTag) : comparison :=
  incompatible_rank s ?= incompatible_rank t.

Definition tag_compatibility_cmp (self other : TagCompatibility) : comparison :=
  match self, other with
  | Compatible p_self, Compatible p_other => p_self ?= p_other
  | Incompatible _, Compatible _ => Lt
  | Compatible _, Incompatible _ => Gt
  | Incompatible t_self, Incompatible t_other => incompatible_cmp t_self t_other
  end.

Definition tag_is_compatible (c : TagCompatibility) : bool :=
  match c with Compatible _ => true | Incompatible _ => false end.

(** [Ord::max]: the second on a tie. *)
Definition tag_max (a b : TagCompatibility) : TagCompatibility :=
  match tag_compatibility_cmp a b with
  | Gt => a
  | _ => b
  end.

(** ** Priorities *)

Definition tag_priority_try_from (priority : nat) : result TagPriority TagsError :=
  if U32_MAX <? Z.of_nat priority then Err (InvalidPriority priority)
  else
    let p := (1 + Z.of_nat priority) mod 2 ^ 32 in
    if p =? 0 then Err (InvalidPriority priority) else Ok p.

(** [map.entry(k).or_insert(v)]. *)
Definition or_insert {K V : Type} `{Countable K} (m : gmap K V) (k : K) (v : V) : gmap K V :=
  match m !! k with
  | Some _ => m
  | None => <[k := v]> m
  end.

(** One step of the loop of [Tags::new]: [None] is a panic. *)
Definition tags_insert (m : gmap LanguageTag (gmap AbiTag (gmap PlatformTag TagPriority)))
    (index : nat) (t : LanguageTag * AbiTag * PlatformTag) :
    option (gmap LanguageTag (gmap AbiTag (gmap PlatformTag TagPriority))) :=
  let '(py, abi, platform) := t in
  let abis := default ∅ (m !! py) in
  let platforms := default ∅ (abis !! abi) in
  match tag_priority_try_from index with
  | Ok p => Some (<[py := <[abi := or_insert platforms platform p]> abis]> m)
  | Err _ => None
  end.

Fixpoint tags_insert_all (m : gmap LanguageTag (gmap AbiTag (gmap PlatformTag TagPriority)))
    (index : nat) (tags : list (LanguageTag * AbiTag * PlatformTag)) :
    option (gmap LanguageTag (gmap AbiTag (gmap PlatformTag TagPriority))) :=
  match tags with
  | [] => Some m
  | t :: tags' =>
      match tags_insert m index t with
      | Some m' => tags_insert_all m' (S index) tags'
      | None => None
      end
  end.

Definition tags_new (tags : list (LanguageTag * AbiTag * PlatformTag)) (python_platform : Platform)
    (python_version : Z * Z) (is_cross is_freethreaded : bool) : option Tags :=
  let best := head tags in
  match tags_insert_all ∅ 0 (reverse tags) with
  | Some map => Some (mkTags map best python_platform python_version is_cross is_freethreaded)
  | None => None
  end.

(** ** Implementations *)

Inductive Implementation : Type :=
| ImplCPython (variant : CPythonAbiVariants)
| ImplPyPy
| ImplGraalPy
| ImplPyston.

Definition implementation_language_tag (self : Implementation) (python_version : Z * Z) : LanguageTag :=
  match self with
  | ImplCPython _ => LangCPython python_version
  | ImplPyPy => LangPyPy python_version
  | ImplGraalPy => LangGraalPy python_version
  | ImplPyston => LangPyston python_version
  end.

Definition implementation_abi_tag (self : Implementation)
    (python_version implementation_version : Z * Z) : AbiTag :=
  match self with
  | ImplCPython variant => AbiCPython python_version variant
  | ImplPyPy => AbiPyPy (Some python_version) implementation_version
  | ImplGraalPy => AbiGraalPy python_version implementation_version
  | ImplPyston => AbiPyston implementation_version
  end.

Definition implementation_parse (name : list Z) (variant : CPythonAbiVariants) :
    result Implementation TagsError :=
  match match_str name
    [ ("cpython", Ok (ImplCPython variant)); ("pypy", Ok ImplPyPy); ("graalpy", Ok ImplGraalPy);
      ("pyston", Ok ImplPyston); ("python", Err (UnsupportedImplementation name));
      ("ironpython", Err (UnsupportedImplementation name));
      ("jython", Err (UnsupportedImplementation name)) ]%string with
  | Some r => r
  | None => Err (UnknownImplementation name)
  end.

(** ** Ranges *)

(** [lo..=hi], and [(lo..=hi).rev()]. *)
Definition range_inclusive (lo hi : Z) : list Z :=
  (fun i => lo + Z.of_nat i) <$> seq 0 (Z.to_nat (hi - lo + 1)).
Definition range_down (lo hi : Z) : list Z := reverse (range_inclusive lo hi).

(** ** The tags of a platform *)

Definition android_abi_from_arch (a : Arch) : result AndroidAbi PlatformError :=
  match a with
  | Aarch64 => Ok Arm64V8a
  | Armv7L => Ok ArmeabiV7a
  | X86 => Ok AndroidX86
  | X86_64 => Ok AndroidX86_64
  | _ => Err (InvalidAndroidArch a)
  end.

Definition android_abi_arch (a : AndroidAbi) : Arch :=
  match a with
  | ArmeabiV7a => Armv7L
  | Arm64V8a => Aarch64
  | AndroidX86 => X86
  | AndroidX86_64 => X86_64
  end.

Definition ios_multiarch_from_arch (a : Arch) (simulator : bool) : result IosMultiarch PlatformError :=
  if simulator then
    match a with
    | Aarch64 => Ok Arm64Simulator
    | X86_64 => Ok X86_64Simulator
    | _ => Err (InvalidIosSimulatorArch a)
    end
  else
    match a with
    | Aarch64 => Ok Arm64Device
    | _ => Err (InvalidIosDeviceArch a)
    end.

(** Manylinux tags for one minor version, with the legacy tag it stands for. *)
Definition manylinux_minor_tags (major : Z) (arch : Arch) (minor : Z) : list PlatformTag :=
  [Manylinux major minor arch]
  ++ (if minor =? 12 then [Manylinux2010 arch] else [])
  ++ (if minor =? 17 then [Manylinux2014 arch] else [])
  ++ (if minor =? 5 then [Manylinux1 arch] else []).

Definition manylinux_tags (major minor : Z) (arch : Arch) : list PlatformTag :=
  (match get_minimum_manylinux_minor arch with
   | Some min_minor => range_down min_minor minor ≫= manylinux_minor_tags major arch
   | None => []
   end) ++ [Linux arch].

Definition musllinux_tags (major minor : Z) (arch : Arch) : list PlatformTag :=
  ((fun minor => Musllinux major minor arch) <$> range_down 0 minor) ++ [Linux arch].

(** Every binary format of one macOS version. *)
Definition macos_version_tags (formats : list BinaryFormat) (major minor : Z) : list PlatformTag :=
  (fun format => Macos major minor format) <$> formats.

Definition macos_x86_64_tags (formats : list BinaryFormat) (major minor : Z) :
    result (list PlatformTag) PlatformError :=
  if major =? 10 then
    Ok (range_down 4 minor ≫= macos_version_tags formats 10)
  else if 11 <=? major then
    Ok ((range_down 11 major ≫= fun major => macos_version_tags formats major 0)
        ++ (range_down 4 16 ≫= macos_version_tags formats 10))
  else Err OsVersionDetectionError.

Definition macos_aarch64_tags (formats : list BinaryFormat) (major : Z) : list PlatformTag :=
  (range_down 11 major ≫= fun major => macos_version_tags formats major 0)
  ++ ((fun minor => Macos 10 minor BinUniversal2) <$> range_down 4 16).

(** [release.replace(['.', '-'], "_")]. *)
Definition replace_dots (release : list Z) : list Z :=
  (fun c => if (c =? 46) || (c =? 45) then 95 else c) <$> release.

Definition parse_release_arch (release_arch : list Z) : result ReleaseArch PlatformError :=
  map_err (InvalidReleaseArch release_arch) (release_arch_from_str release_arch).

Definition android_tags (api_level : Z) (arch : Arch) : result (list PlatformTag) PlatformError :=
  foldl (fun acc ver =>
           let? platform_tags := acc in
           let? abi := android_abi_from_arch arch in
           Ok (platform_tags ++ [Android ver abi]))
        (Ok []) (range_down 16 api_level).

Definition ios_tags (major minor : Z) (simulator : bool) (arch : Arch) :
    result (list PlatformTag) PlatformError :=
  let? multiarch := ios_multiarch_from_arch arch simulator in
  if major <? 12 then Ok []
  else
    Ok ([Ios major minor multiarch]
        ++ ((fun min => Ios major min multiarch) <$> range_down 0 (minor - 1))
        ++ (range_down 12 (major - 1) ≫= fun maj =>
              (fun min => Ios maj min multiarch) <$> range_down 0 9)).

Definition illumos_tags (release arch : list Z) : result (list PlatformTag) PlatformError :=
  let illumos :=
    let? release_arch := parse_release_arch (release ++ bytes "_" ++ arch) in
    Ok [Illumos release_arch] in
  match split_once 95 release with
  | Some (major, other) =>
      let? major_ver := ok_or (parse_unsigned U64_MAX major) OsVersionDetectionError in
      if 5 <=? major_ver then
        let release := print_u64 (major_ver - 3) ++ bytes "_" ++ other in
        let arch := arch ++ bytes "_64bit" in
        let? release_arch := parse_release_arch (release ++ bytes "_" ++ arch) in
        Ok [Solaris release_arch]
      else illumos
  | None => illumos
  end.

Section Tags.
Context `{!Bitflags, !Lowercase}.

(** A release and an architecture, for the platforms with an opaque suffix. *)
Definition release_tags (make : ReleaseArch -> PlatformTag) (release arch : list Z) :
    result (list PlatformTag) PlatformError :=
  let release_tag := to_lowercase (replace_dots release) in
  let? release_arch := parse_release_arch (release_tag ++ bytes "_" ++ arch) in
  Ok [make release_arch].

(** The two macOS branches pass architectures that have binary formats: [unreachable!] is not
    reached. *)
Definition compatible_tags (platform : Platform) : result (list PlatformTag) PlatformError :=
  let arch := platform_arch platform in
  match platform_os platform, arch with
  | OsManylinux major minor, _ => Ok (manylinux_tags major minor arch)
  | OsMusllinux major minor, _ => Ok (musllinux_tags major minor arch)
  | OsMacos major minor, X86_64 =>
      macos_x86_64_tags (default [] (binary_format_from_arch arch)) major minor
  | OsMacos major _, Aarch64 =>
      Ok (macos_aarch64_tags (default [] (binary_format_from_arch arch)) major)
  | OsWindows, X86 => Ok [Win32]
  | OsWindows, X86_64 => Ok [WinAmd64]
  | OsWindows, Aarch64 => Ok [WinArm64]
  | OsFreeBsd release, _ => release_tags FreeBsd release (arch_machine arch)
  | OsNetBsd release, _ => release_tags NetBsd release (arch_machine arch)
  | OsOpenBsd release, _ => release_tags OpenBsd release (arch_machine arch)
  | OsDragonfly release, _ => release_tags Dragonfly release (arch_display arch)
  | OsHaiku release, _ => release_tags Haiku release (arch_display arch)
  | OsIllumos release arch, _ => illumos_tags release arch
  | OsAndroid api_level, _ => android_tags api_level arch
  | OsPyodide major minor, Wasm32 => Ok [PyEmscripten major minor; Pyodide major minor]
  | OsPyEmscripten major minor, Wasm32 => Ok [PyEmscripten major minor; Pyodide major minor]
  | OsIos major minor simulator, _ => ios_tags major minor simulator arch
  | _, _ => Err OsVersionDetectionError
  end.

(** ** The tags of an interpreter *)

(** The order of version tuples. *)
Definition version_le (v w : Z * Z) : bool :=
  (v.1 <? w.1) || ((v.1 =? w.1) && (v.2 <=? w.2)).

(** The variants of the build, with the errors. *)
Definition env_variant (python_version : Z * Z) (implementation_name : list Z) (options : TagsOptions) :
    result CPythonAbiVariants TagsError :=
  let cpython := bool_decide (implementation_name = bytes "cpython") in
  let variant := 0 in
  let? variant :=
    (if gil_disabled options then
       if negb cpython then Err (GilIsACPythonProblem implementation_name)
       else Ok (flags_insert variant Freethreading)
     else Ok variant) in
  let? variant :=
    (if debug_enabled options then
       if negb cpython then Err (DebugIsACPythonProblem implementation_name)
       else Ok (flags_insert variant DebugBuild)
     else Ok variant) in
  Ok (if version_le python_version (3, 7) && cpython then flags_insert variant Pymalloc else variant).

(** One tag per platform. *)
Definition on_platforms (lang : LanguageTag) (abi : AbiTag) (platform_tags : list PlatformTag) :
    list (LanguageTag * AbiTag * PlatformTag) :=
  (fun platform_tag => (lang, abi, platform_tag)) <$> platform_tags.

(** 1a: a debug build also accepts release builds. *)
Definition debug_tags (implementation : Implementation) (python_version : Z * Z)
    (platform_tags : list PlatformTag) : list (LanguageTag * AbiTag * PlatformTag) :=
  match implementation with
  | ImplCPython variant =>
      if version_le (3, 8) python_version && flags_contains variant DebugBuild then
        on_platforms (implementation_language_tag implementation python_version)
          (AbiCPython python_version (flags_remove variant DebugBuild)) platform_tags
      else []
  | _ => []
  end.

(** 2: the stable ABI of this and earlier versions, and no ABI. *)
Definition stable_abi_tags (implementation : Implementation) (python_version : Z * Z)
    (platform_tags : list PlatformTag) : list (LanguageTag * AbiTag * PlatformTag) :=
  match implementation with
  | ImplCPython variant =>
      range_down 2 python_version.2 ≫= fun minor =>
        let lang := implementation_language_tag implementation (python_version.1, minor) in
        (if flags_contains variant Freethreading then on_platforms lang Abi3T platform_tags
         else on_platforms lang Abi3 platform_tags)
        ++ (if minor =? python_version.2 then on_platforms lang AbiNone platform_tags else [])
  | _ => []
  end.

(** 3: no ABI, any Python of this major version up to this one. *)
Definition no_abi_tags (python_version : Z * Z) (platform_tags : list PlatformTag) :
    list (LanguageTag * AbiTag * PlatformTag) :=
  range_down 0 python_version.2 ≫= fun minor =>
    on_platforms (LangPython python_version.1 (Some minor)) AbiNone platform_tags
    ++ (if minor =? python_version.2 then
          on_platforms (LangPython python_version.1 None) AbiNone platform_tags
        else []).

(** 4: no binary. *)
Definition no_binary_tags (implementation : Implementation) (python_version : Z * Z) :
    list (LanguageTag * AbiTag * PlatformTag) :=
  (match implementation with
   | ImplCPython _ =>
       [(implementation_language_tag implementation python_version, AbiNone, PlatformAny)]
   | _ => []
   end)
  ++ (range_down 0 python_version.2 ≫= fun minor =>
        [(LangPython python_version.1 (Some minor), AbiNone, PlatformAny)]
        ++ (if minor =? python_version.2 then
              [(LangPython python_version.1 None, AbiNone, PlatformAny)]
            else [])).

Definition env_tags (implementation : Implementation) (python_version implementation_version : Z * Z)
    (platform_tags : list PlatformTag) : list (LanguageTag * AbiTag * PlatformTag) :=
  on_platforms (implementation_language_tag implementation python_version)
    (implementation_abi_tag implementation python_version implementation_version) platform_tags
  ++ debug_tags implementation python_version platform_tags
  ++ stable_abi_tags implementation python_version platform_tags
  ++ no_abi_tags python_version platform_tags
  ++ no_binary_tags implementation python_version.

(** The platform tags, without manylinux where the system does not provide it. *)
Definition env_platforms (platform : Platform) (options : TagsOptions) :
    result (list PlatformTag) TagsError :=
  let? platform_tags := map_err TagsPlatformError (compatible_tags platform) in
  Ok (match platform_os platform with
      | OsManylinux _ _ =>
          if negb (manylinux_compatible options)
          then List.filter (fun tag => negb (is_manylinux tag)) platform_tags else platform_tags
      | _ => platform_tags
      end).

(** [Ok None] is a panic of [Tags::new]. *)
Definition from_env (platform : Platform) (python_version : Z * Z) (implementation_name : list Z)
    (implementation_version : Z * Z) (options : TagsOptions) : result (option Tags) TagsError :=
  let? variant := env_variant python_version implementation_name options in
  let? implementation := implementation_parse implementation_name variant in
  let? platform_tags := env_platforms platform options in
  Ok (tags_new (env_tags implementation python_version implementation_version platform_tags)
        platform python_version (opt_is_cross options) (gil_disabled options)).

(** ** Compatibility *)

Definition is_freethreaded_compatible_abi (abi : AbiTag) : bool :=
  match abi with
  | AbiNone => true
  | Abi3T => true
  | AbiCPython _ variant => flags_contains variant Freethreading
  | _ => false
  end.

(** The nested loops return on the first match. *)
Definition is_compatible (self : Tags) (wheel_tags : CompressedTags) : bool :=
  existsb (fun wheel_py =>
    match tags_map self !! wheel_py with
    | None => false
    | Some abis =>
        existsb (fun wheel_abi =>
          match abis !! wheel_abi with
          | None => false
          | Some platforms =>
              existsb (fun wheel_platform => bool_decide (is_Some (platforms !! wheel_platform)))
                (platform_tags wheel_tags)
          end) (abi_tags wheel_tags)
    end) (python_tags wheel_tags).

Definition compatibility (self : Tags) (wheel_tags : CompressedTags) : TagCompatibility :=
  if tags_is_freethreaded self && negb (existsb is_freethreaded_compatible_abi (abi_tags wheel_tags))
  then Incompatible IncFreethreadedAbi
  else
    foldl (fun max_compatibility wheel_py =>
      match tags_map self !! wheel_py with
      | None => tag_max max_compatibility (Incompatible IncPython)
      | Some abis =>
          foldl (fun max_compatibility wheel_abi =>
            match abis !! wheel_abi with
            | None => tag_max max_compatibility (Incompatible IncAbi)
            | Some platforms =>
                foldl (fun max_compatibility wheel_platform =>
                  match platforms !! wheel_platform with
                  | Some priority => tag_max max_compatibility (Compatible priority)
                  | None => tag_max max_compatibility (Incompatible IncPlatform)
                  end) max_compatibility (platform_tags wheel_tags)
            end) max_compatibility (abi_tags wheel_tags)
      end) (Incompatible IncInvalid) (python_tags wheel_tags).

Definition compatibility_tag (self : Tags) (wheel_python_tag : LanguageTag) (wheel_abi_tag : AbiTag)
    (wheel_platform_tag : PlatformTag) : TagCompatibility :=
  if tags_is_freethreaded self && negb (is_freethreaded_compatible_abi wheel_abi_tag)
  then Incompatible IncFreethreadedAbi
  else
    match tags_map self !! wheel_python_tag with
    | None => Incompatible IncPython
    | Some abis =>
        match abis !! wheel_abi_tag with
        | None => Incompatible IncAbi
        | Some platforms =>
            match platforms !! wheel_platform_tag with
            | None => Incompatible IncPlatform
            | Some priority => Compatible priority
            end
        end
    end.

Definition tags_python_tag (self : Tags) : option LanguageTag :=
  (fun t => t.1.1) <$> tags_best self.
Definition tags_abi_tag (self : Tags) : option AbiTag := (fun t => t.1.2) <$> tags_best self.
Definition tags_platform_tag (self : Tags) : option PlatformTag := snd <$> tags_best self.

Definition is_compatible_abi (self : Tags) (python_tag : LanguageTag) (abi_tag : AbiTag) : bool :=
  match tags_map self !! python_tag with
  | Some abis => bool_decide (is_Some (abis !! abi_tag))
  | None => false
  end.

End Tags.

(** * Facts about compatible tags

    What [Tags::new] stores, what [Tags::compatibility] computes from it, and which tags
    [Tags::from_env] gives an interpreter. *)

Notation Tag := (LanguageTag * AbiTag * PlatformTag)%type.

(** The priority of a tag. *)
Definition tag_lookup (m : gmap LanguageTag (gmap AbiTag (gmap PlatformTag TagPriority))) (t : Tag) :
    option TagPriority :=
  abis ← m !! t.1.1; platforms ← abis !! t.1.2; platforms !! t.2.

(** ** Priorities *)

Lemma try_from_ok i : Z.of_nat i < U32_MAX -> tag_priority_try_from i = Ok (1 + Z.of_nat i).
Proof.
  unfold tag_priority_try_from, U32_MAX. intros H. zif. rewrite Z.mod_small by lia. by zif.
Qed.

Lemma or_insert_lookup {K V} `{Countable K} (m : gmap K V) k v j :
  or_insert m k v !! j = if decide (j = k) then Some (default v (m !! k)) else m !! j.
Proof.
  unfold or_insert. destruct (m !! k) as [w|] eqn:E; case_decide; subst; cbn; try done.
  - by rewrite lookup_insert_eq.
  - by rewrite lookup_insert_ne.
Qed.

Lemma lookup_default_empty {K V} `{Countable K} (o : option (gmap K V)) k :
  default ∅ o !! k = (m ← o; m !! k).
Proof. destruct o; [done|]. apply lookup_empty. Qed.

Lemma tags_insert_spec m i (t : Tag) :
  Z.of_nat i < U32_MAX ->
  exists m', tags_insert m i t = Some m' /\
    forall x, tag_lookup m' x =
      if decide (x = t) then Some (default (1 + Z.of_nat i) (tag_lookup m t)) else tag_lookup m x.
Proof.
  intros Hi. destruct t as [[py abi] platform]. unfold tags_insert. rewrite try_from_ok by done.
  eexists. split; [done|]. intros [[py' abi'] platform']. unfold tag_lookup. cbn [fst snd].
  destruct (decide (py' = py)) as [->|Hpy].
  2: { rewrite lookup_insert_ne by done. rewrite decide_False by congruence. done. }
  rewrite lookup_insert_eq. cbn [mbind option_bind].
  destruct (decide (abi' = abi)) as [->|Habi].
  2: { rewrite lookup_insert_ne by done. rewrite decide_False by congruence.
       rewrite lookup_default_empty. by destruct (m !! py). }
  rewrite lookup_insert_eq. cbn [mbind option_bind]. rewrite or_insert_lookup.
  assert (default ∅ (default ∅ (m !! py) !! abi) !! platform =
          (abis ← m !! py; platforms ← abis !! abi; platforms !! platform)) as E.
  { rewrite lookup_default_empty, lookup_default_empty. by destruct (m !! py). }
  destruct (decide (platform' = platform)) as [->|Hp].
  - rewrite decide_True by done. by rewrite E.
  - rewrite decide_False by congruence. rewrite lookup_default_empty, lookup_default_empty.
    by destruct (m !! py).
Qed.

(** The first position of a tag in a list. *)
Fixpoint first_index (x : Tag) (l : list Tag) : option nat :=
  match l with
  | [] => None
  | t :: l' => if decide (x = t) then Some 0%nat else S <$> first_index x l'
  end.

Lemma tags_insert_all_spec l : forall m i,
  Z.of_nat i + Z.of_nat (length l) <= U32_MAX ->
  exists m', tags_insert_all m i l = Some m' /\
    forall x, tag_lookup m' x =
      match tag_lookup m x with
      | Some p => Some p
      | None => (fun j => 1 + Z.of_nat (i + j)) <$> first_index x l
      end.
Proof.
  induction l as [|t l IH]; intros m i Hi; cbn [tags_insert_all length] in *.
  { exists m. split; [done|]. intros x. by destruct (tag_lookup m x). }
  destruct (tags_insert_spec m i t) as (m1 & -> & E1); [lia|].
  destruct (IH m1 (S i)) as (m2 & -> & E2); [lia|]. exists m2. split; [done|].
  intros x. rewrite E2, E1. cbn [first_index]. case_decide as D; subst.
  - destruct (tag_lookup m t); cbn; [done|]. f_equal. lia.
  - destruct (tag_lookup m x); [done|]. rewrite <- option_fmap_compose.
    destruct (first_index x l); [|done]. cbn. f_equal. lia.
Qed.

Lemma first_index_Some x l i :
  first_index x l = Some i <-> l !! i = Some x /\ x ∉ take i l.
Proof.
  revert i. induction l as [|t l IH]; intros i; cbn [first_index]; [by rewrite lookup_nil; split; [|intros []]|].
  case_decide as D; subst.
  - split; [intros [= <-]; split; [done|apply not_elem_of_nil]|].
    destruct i as [|i]; [done|]. intros [_ N]. destruct N. cbn. left.
  - destruct i as [|i]; cbn.
    + split; [by destruct (first_index x l)|]. intros [[= ->] _]. done.
    + rewrite not_elem_of_cons. specialize (IH i). destruct (first_index x l) as [j|]; cbn.
      * split; [intros [= ->]; by destruct (proj1 IH eq_refl)|]. intros (H1 & _ & H2).
        f_equal. assert (Some j = Some i) by (by apply IH). congruence.
      * split; [done|]. intros (H1 & _ & H2). by assert (None = Some i) by (by apply IH).
Qed.

(** The last occurrence of a tag counts; its priority is its distance from the end. *)
Definition has_priority (tags : list Tag) (x : Tag) (p : TagPriority) : Prop :=
  exists i, tags !! i = Some x /\ x ∉ drop (S i) tags /\ p = Z.of_nat (length tags - i).

Lemma first_index_reverse x l p :
  ((fun j => 1 + Z.of_nat j) <$> first_index x (reverse l)) = Some p <-> has_priority l x p.
Proof.
  rewrite fmap_Some. setoid_rewrite first_index_Some. setoid_rewrite reverse_lookup_Some.
  unfold has_priority. split.
  - intros (j & [[H1 H2] H3] & ->). exists (length l - S j)%nat. split; [done|].
    rewrite take_reverse, elem_of_reverse in H3. replace (S (length l - S j))%nat with (length l - j)%nat by lia.
    split; [done|]. lia.
  - intros (i & H1 & H2 & ->). pose proof (lookup_lt_Some _ _ _ H1).
    exists (length l - S i)%nat. rewrite take_reverse, elem_of_reverse.
    replace (length l - S (length l - S i))%nat with i by lia.
    replace (length l - (length l - S i))%nat with (S i) by lia. split_and!; try done; lia.
Qed.

Lemma tags_new_spec (tags : list Tag) platform version cross ft :
  Z.of_nat (length tags) <= U32_MAX ->
  exists t, tags_new tags platform version cross ft = Some t /\
    (forall x p, tag_lookup (tags_map t) x = Some p <-> has_priority tags x p) /\
    tags_best t = head tags /\ tags_is_freethreaded t = ft.
Proof.
  intros H. unfold tags_new.
  destruct (tags_insert_all_spec (reverse tags) ∅ 0) as (m & -> & E); [rewrite length_reverse; lia|].
  eexists. split; [done|]. split; [|done]. intros x p. cbn [tags_map]. rewrite E.
  rewrite <- first_index_reverse. done.
Qed.

Lemma has_priority_elem tags x : (exists p, has_priority tags x p) <-> x ∈ tags.
Proof.
  split; [intros (p & i & H & _); by apply list_elem_of_lookup_2 in H|].
  induction tags as [|t tags IH]; [by intros ?%elem_of_nil|]. intros [->|H]%elem_of_cons.
  - destruct (decide (t ∈ tags)) as [D|D].
    + destruct (IH D) as (p & i & H1 & H2 & H3). exists p, (S i). done.
    + exists (Z.of_nat (length (t :: tags))), 0%nat. done.
  - destruct (IH H) as (p & i & H1 & H2 & H3). exists p, (S i). done.
Qed.

(** Without repetition, an earlier tag has a higher priority. *)
Lemma has_priority_NoDup tags i x :
  NoDup tags -> tags !! i = Some x -> has_priority tags x (Z.of_nat (length tags - i)).
Proof.
  intros N H. exists i. split_and!; [done| |done]. intros [j Hj]%list_elem_of_lookup.
  rewrite lookup_drop in Hj. pose proof (NoDup_lookup _ _ _ _ N H Hj). lia.
Qed.

Lemma has_priority_fun tags x p q : has_priority tags x p -> has_priority tags x q -> p = q.
Proof. rewrite <- !first_index_reverse. congruence. Qed.

Lemma has_priority_pos tags x p : has_priority tags x p -> 1 <= p <= Z.of_nat (length tags).
Proof. intros (i & H & _ & ->). apply lookup_lt_Some in H. lia. Qed.

(** ** The order of compatibilities *)

(** A compatibility as a pair: compatible ones come last. *)
Definition tag_key (c : TagCompatibility) : Z * Z :=
  match c with
  | Incompatible t => (0, incompatible_rank t)
  | Compatible p => (1, p)
  end.

Lemma tag_cmp_key a b : tag_compatibility_cmp a b = cmp_on tag_key (cmp_pair Z.compare Z.compare) a b.
Proof. by destruct a, b. Qed.

#[export] Instance ord_tag_compatibility : OrdLaws tag_compatibility_cmp.
Proof.
  pose proof (ord_on tag_key (cmp_pair Z.compare Z.compare)) as [R O E T].
  split; intros; rewrite !tag_cmp_key in *; eauto.
Qed.

#[export] Instance ord_exact_tag_compatibility : OrdExact tag_compatibility_cmp.
Proof.
  intros a b. rewrite tag_cmp_key. unfold cmp_on. intros E%(cmp_exact (cmp_pair _ _)).
  destruct a as [s|p], b as [t|q]; cbn in E; simplify_eq; [|done].
  by destruct s, t.
Qed.

Definition tag_le (a b : TagCompatibility) : Prop := tag_compatibility_cmp a b <> Gt.

Lemma tag_max_spec a b : tag_le a (tag_max a b) /\ tag_le b (tag_max a b) /\
  (tag_max a b = a \/ tag_max a b = b).
Proof.
  unfold tag_le, tag_max. pose proof (cmp_refl tag_compatibility_cmp) as R.
  destruct (tag_compatibility_cmp a b) eqn:E; rewrite ?E, ?R; split_and!; auto; try done.
  by rewrite (cmp_opp tag_compatibility_cmp a b), E.
Qed.

(** The best of a list of compatibilities. *)
Lemma foldl_tag_max l : forall a,
  foldl tag_max a l ∈ a :: l /\ tag_le a (foldl tag_max a l) /\
  forall b, b ∈ l -> tag_le b (foldl tag_max a l).
Proof.
  induction l as [|c l IH]; intros a; cbn [foldl].
  { split_and!; [left|unfold tag_le; by rewrite cmp_refl by apply _|by intros b ?%elem_of_nil]. }
  destruct (IH (tag_max a c)) as (H1 & H2 & H3), (tag_max_spec a c) as (M1 & M2 & M3).
  split_and!.
  - apply elem_of_cons in H1 as [H1|H1]; [|by right; right].
    rewrite H1. destruct M3 as [-> | ->]; [by left|by right; left].
  - by eapply (cmp_le_trans tag_compatibility_cmp).
  - intros b [->|Hb]%elem_of_cons; [|by apply H3]. by eapply (cmp_le_trans tag_compatibility_cmp).
Qed.

(** The best is compatible exactly when there is a compatible one, and then has the highest
    priority. *)
Lemma foldl_tag_max_compatible l t p :
  foldl tag_max (Incompatible t) l = Compatible p <->
    Compatible p ∈ l /\ forall q, Compatible q ∈ l -> q <= p.
Proof.
  destruct (foldl_tag_max l (Incompatible t)) as (H1 & H2 & H3). split.
  - intros E. rewrite E in *. split; [by apply elem_of_cons in H1 as [|]|].
    intros q Hq. specialize (H3 _ Hq). by apply Z.compare_le_iff in H3.
  - intros [Hp Hq]. specialize (H3 _ Hp). unfold tag_le in H3.
    destruct (foldl tag_max (Incompatible t) l) as [u|q] eqn:E; [done|]. f_equal.
    apply elem_of_cons in H1 as [|H1]; [done|]. specialize (Hq _ H1).
    change ((p ?= q) <> Gt) in H3. apply Z.compare_le_iff in H3. by apply Z.le_antisymm.
Qed.

(** ** Compatibility *)

Lemma foldl_bind {A B C} (f : C -> B -> C) (g : A -> list B) l : forall c,
  foldl f c (l ≫= g) = foldl (fun c x => foldl f c (g x)) c l.
Proof. induction l as [|x l IH]; intros c; [done|]. cbn. by rewrite foldl_app, IH. Qed.

Lemma foldl_ext' {A C} (f g : C -> A -> C) l : (forall c x, f c x = g c x) -> forall c,
  foldl f c l = foldl g c l.
Proof. intros E. induction l as [|x l IH]; intros c; [done|]. cbn. by rewrite E, IH. Qed.

(** What each combination contributes; an unknown first or second component counts once. *)
Definition outcomes (m : gmap LanguageTag (gmap AbiTag (gmap PlatformTag TagPriority)))
    (w : CompressedTags) : list TagCompatibility :=
  python_tags w ≫= fun py =>
    match m !! py with
    | None => [Incompatible IncPython]
    | Some abis =>
        abi_tags w ≫= fun abi =>
          match abis !! abi with
          | None => [Incompatible IncAbi]
          | Some platforms =>
              (fun platform => match platforms !! platform with
                               | Some p => Compatible p
                               | None => Incompatible IncPlatform
                               end) <$> platform_tags w
          end
    end.

(** The combinations of the tags of a wheel. *)
Definition combination (w : CompressedTags) (t : Tag) : Prop :=
  t.1.1 ∈ python_tags w /\ t.1.2 ∈ abi_tags w /\ t.2 ∈ platform_tags w.

Lemma outcomes_compatible m w p :
  Compatible p ∈ outcomes m w <-> exists t, combination w t /\ tag_lookup m t = Some p.
Proof.
  unfold outcomes, combination, tag_lookup. rewrite list_elem_of_bind. split.
  - intros (py & H & Hpy). destruct (m !! py) as [abis|] eqn:Em; [|by apply list_elem_of_singleton in H].
    apply list_elem_of_bind in H as (abi & H & Habi).
    destruct (abis !! abi) as [ps|] eqn:Ea; [|by apply list_elem_of_singleton in H].
    apply list_elem_of_fmap in H as (pl & H & Hpl). exists (py, abi, pl). cbn.
    rewrite Em. cbn. rewrite Ea. cbn. split; [done|]. by destruct (ps !! pl); simplify_eq.
  - intros ([[py abi] pl] & (Hpy & Habi & Hpl) & E). cbn [fst snd] in *.
    apply bind_Some in E as (abis & Em & E). apply bind_Some in E as (ps & Ea & E).
    exists py. split; [|done]. rewrite Em. apply list_elem_of_bind. exists abi. split; [|done].
    rewrite Ea. apply list_elem_of_fmap. exists pl. by rewrite E.
Qed.

Section Compat.
Context {BF : Bitflags}.

(** On a free-threaded interpreter, none of the ABIs of the wheel can be used. *)
Definition freethreaded_mismatch (self : Tags) (w : CompressedTags) : bool :=
  tags_is_freethreaded self && negb (existsb is_freethreaded_compatible_abi (abi_tags w)).

Lemma compatibility_outcomes self w :
  compatibility self w =
    if freethreaded_mismatch self w then Incompatible IncFreethreadedAbi
    else foldl tag_max (Incompatible IncInvalid) (outcomes (tags_map self) w).
Proof.
  unfold compatibility, freethreaded_mismatch. destruct (_ && _); [done|].
  unfold outcomes. rewrite foldl_bind. apply foldl_ext'. intros c py.
  destruct (tags_map self !! py) as [abis|]; [|done]. rewrite foldl_bind.
  apply foldl_ext'. clear c. intros c abi. destruct (abis !! abi) as [ps|]; [|done].
  rewrite foldl_fmap. apply foldl_ext'. intros d pl. by destruct (ps !! pl).
Qed.

Lemma compatibility_compatible self w p :
  compatibility self w = Compatible p <->
    freethreaded_mismatch self w = false /\
    (exists t, combination w t /\ tag_lookup (tags_map self) t = Some p) /\
    (forall t q, combination w t -> tag_lookup (tags_map self) t = Some q -> q <= p).
Proof.
  rewrite compatibility_outcomes. destruct (freethreaded_mismatch self w); [by split; [|intros []]|].
  rewrite foldl_tag_max_compatible, outcomes_compatible. setoid_rewrite outcomes_compatible.
  naive_solver.
Qed.

Lemma is_compatible_spec self w :
  is_compatible self w = true <->
    exists t, combination w t /\ is_Some (tag_lookup (tags_map self) t).
Proof.
  unfold is_compatible, combination, tag_lookup. rewrite existsb_exists.
  setoid_rewrite <- list_elem_of_In. split.
  - intros (py & Hpy & H). destruct (tags_map self !! py) as [abis|] eqn:Em; [|done].
    apply existsb_exists in H as (abi & Habi%list_elem_of_In & H).
    destruct (abis !! abi) as [ps|] eqn:Ea; [|done].
    apply existsb_exists in H as (pl & Hpl%list_elem_of_In & H%bool_decide_eq_true).
    exists (py, abi, pl). cbn. rewrite Em. cbn. by rewrite Ea.
  - intros ([[py abi] pl] & (Hpy & Habi & Hpl) & [p E]). cbn [fst snd] in *.
    apply bind_Some in E as (abis & Em & E). apply bind_Some in E as (ps & Ea & E).
    exists py. split; [done|]. rewrite Em. apply existsb_exists. exists abi.
    split; [by apply list_elem_of_In|]. rewrite Ea. apply existsb_exists. exists pl.
    split; [by apply list_elem_of_In|]. apply bool_decide_eq_true. by exists p.
Qed.

Lemma compatibility_tag_singleton self py abi pl :
  compatibility_tag self py abi pl = compatibility self (mkCompressedTags [py] [abi] [pl]).
Proof.
  unfold compatibility_tag, compatibility. cbn [python_tags abi_tags platform_tags existsb foldl].
  rewrite orb_false_r. destruct (_ && _); [done|].
  destruct (tags_map self !! py) as [abis|]; [|done]. destruct (abis !! abi) as [ps|]; [|done].
  by destruct (ps !! pl).
Qed.

(** Every tag of the interpreter can be used with a free-threaded one, if it is free-threaded. *)
Definition freethreaded_consistent (self : Tags) : Prop :=
  tags_is_freethreaded self = true ->
  forall t, is_Some (tag_lookup (tags_map self) t) -> is_freethreaded_compatible_abi t.1.2 = true.

Lemma compatible_agree self w :
  freethreaded_consistent self ->
  is_compatible self w = tag_is_compatible (compatibility self w).
Proof.
  intros C. apply eq_bool_prop_intro. rewrite !Is_true_true, is_compatible_spec. split.
  - intros (t & Ht & Hp). rewrite compatibility_outcomes.
    assert (freethreaded_mismatch self w = false) as ->.
    { unfold freethreaded_mismatch. destruct (tags_is_freethreaded self) eqn:F; [|done].
      apply negb_false_iff, existsb_exists. exists t.1.2.
      split; [apply list_elem_of_In, Ht|by apply C]. }
    destruct Hp as [p Hp]. assert (Compatible p ∈ outcomes (tags_map self) w) as Hin
      by (apply outcomes_compatible; eauto).
    destruct (foldl_tag_max (outcomes (tags_map self) w) (Incompatible IncInvalid)) as (_ & _ & M).
    specialize (M _ Hin). by destruct (foldl _ _ _).
  - destruct (compatibility self w) as [|p] eqn:E; [done|]. intros _.
    apply compatibility_compatible in E as (_ & (t & Ht & E) & _). exists t. by rewrite E.
Qed.
End Compat.
