(* ===== verification/EnvTags.v ===== *)
(** * The tags of an interpreter

    Which tags [Tags::from_env] of [crates/uv-platform-tags/src/tags.rs] gives an interpreter: a
    specification of the tags, that they are distinct, that their number is within the range of
    priorities, and that on a free-threaded interpreter all of them are usable. *)

From stdpp Require Import base countable list option numbers decidable strings gmap.
From Stdlib Require Import ZArith Lia.
From S2P Require Import Prelude Text Libraries VersionDisplay LanguageTag AbiTag.
From S2P Require Import Platform PlatformTag Tags.

Local Open Scope Z_scope.
Local Open Scope uv_scope.

Lemma Ok_inj {A E} (a b : A) : @Ok A E a = Ok b -> a = b.
Proof. congruence. Qed.

(** ** Ranges *)

Lemma elem_of_range lo hi x : x ∈ range_down lo hi <-> lo <= x <= hi.
Proof.
  unfold range_down, range_inclusive. rewrite elem_of_reverse, list_elem_of_fmap.
  setoid_rewrite elem_of_seq. split; [intros (i & -> & H); lia|].
  intros H. exists (Z.to_nat (x - lo)). lia.
Qed.

Lemma NoDup_range lo hi : NoDup (range_down lo hi).
Proof.
  unfold range_down, range_inclusive. rewrite reverse_Permutation.
  apply NoDup_fmap_2; [|apply NoDup_seq]. intros i j H. lia.
Qed.

Lemma length_range lo hi : length (range_down lo hi) = Z.to_nat (hi - lo + 1).
Proof. unfold range_down, range_inclusive. by rewrite length_reverse, length_fmap, length_seq. Qed.

Lemma length_bind_le {A B} (f : A -> list B) k l :
  (forall x, x ∈ l -> (length (f x) <= k)%nat) -> (length (l ≫= f) <= length l * k)%nat.
Proof.
  induction l as [|x l IH]; intros H; [done|]. change ((x :: l) ≫= f) with (f x ++ (l ≫= f)). rewrite length_app.
  pose proof (H x ltac:(left)). specialize (IH (fun y Hy => H y ltac:(by right))).
  cbn [length]. lia.
Qed.

(** ** Specification *)

Section Env.
Context {BF : Bitflags}.
Context (implementation : Implementation) (python_version implementation_version : Z * Z).
Context (plats : list PlatformTag).

(** The tags that an interpreter accepts. *)
Inductive supported : Tag -> Prop :=
| supported_exact p :
    p ∈ plats ->
    supported (implementation_language_tag implementation python_version,
               implementation_abi_tag implementation python_version implementation_version, p)
| supported_release variant p :
    implementation = ImplCPython variant -> version_le (3, 8) python_version = true ->
    flags_contains variant DebugBuild = true -> p ∈ plats ->
    supported (LangCPython python_version,
               AbiCPython python_version (flags_remove variant DebugBuild), p)
| supported_stable variant minor p :
    implementation = ImplCPython variant -> 2 <= minor <= python_version.2 -> p ∈ plats ->
    supported (LangCPython (python_version.1, minor),
               (if flags_contains variant Freethreading then Abi3T else Abi3), p)
| supported_cpython variant p :
    implementation = ImplCPython variant ->
    (p ∈ plats /\ 2 <= python_version.2) \/ p = PlatformAny ->
    supported (LangCPython python_version, AbiNone, p)
| supported_python minor p :
    0 <= minor <= python_version.2 -> p ∈ plats \/ p = PlatformAny ->
    supported (LangPython python_version.1 (Some minor), AbiNone, p)
| supported_major p :
    0 <= python_version.2 -> p ∈ plats \/ p = PlatformAny ->
    supported (LangPython python_version.1 None, AbiNone, p).

Lemma elem_of_on_platforms lang abi ps (t : Tag) :
  t ∈ on_platforms lang abi ps <-> exists p, t = (lang, abi, p) /\ p ∈ ps.
Proof. apply list_elem_of_fmap. Qed.

Lemma elem_of_if {A} (b : bool) (x : A) l : x ∈ (if b then l else []) <-> b = true /\ x ∈ l.
Proof. destruct b; [naive_solver|]. rewrite elem_of_nil. naive_solver. Qed.

Lemma elem_of_debug t :
  t ∈ debug_tags implementation python_version plats <->
    exists variant p, implementation = ImplCPython variant /\
      version_le (3, 8) python_version = true /\ flags_contains variant DebugBuild = true /\
      p ∈ plats /\ t = (LangCPython python_version,
                        AbiCPython python_version (flags_remove variant DebugBuild), p).
Proof.
  unfold debug_tags. destruct implementation; try (rewrite elem_of_nil; naive_solver).
  rewrite elem_of_if, elem_of_on_platforms, andb_true_iff. naive_solver.
Qed.

Lemma elem_of_stable t :
  t ∈ stable_abi_tags implementation python_version plats <->
    exists variant p, implementation = ImplCPython variant /\ p ∈ plats /\
      ((exists minor, 2 <= minor <= python_version.2 /\
          t = (LangCPython (python_version.1, minor),
               (if flags_contains variant Freethreading then Abi3T else Abi3), p)) \/
       (2 <= python_version.2 /\ t = (LangCPython python_version, AbiNone, p))).
Proof.
  unfold stable_abi_tags. destruct implementation as [variant| | |];
    try (rewrite elem_of_nil; naive_solver).
  rewrite list_elem_of_bind. setoid_rewrite elem_of_app. setoid_rewrite elem_of_if.
  setoid_rewrite elem_of_range. setoid_rewrite elem_of_on_platforms. setoid_rewrite Z.eqb_eq.
  cbn [implementation_language_tag]. destruct python_version as [major minor]. cbn [fst snd]. split.
  - intros (m & [H|(-> & p & -> & Hp)] & Hm).
    + destruct (flags_contains variant Freethreading) eqn:F;
        apply elem_of_on_platforms in H as (p & -> & Hp);
        (exists variant, p; rewrite F; split_and!; [done|done|left; by exists m]).
    + exists variant, p. split_and!; [done|done|right; split; [lia|done]].
  - intros (v & p & [= <-] & Hp & [(m & Hm & ->)|(Hm & ->)]).
    + exists m. split; [|done]. left.
      destruct (flags_contains variant Freethreading); apply elem_of_on_platforms; eauto.
    + exists minor. split; [|lia]. right. split; [done|]. eauto.
Qed.

Lemma elem_of_no_abi t :
  t ∈ no_abi_tags python_version plats <->
    exists p, p ∈ plats /\
      ((exists minor, 0 <= minor <= python_version.2 /\
          t = (LangPython python_version.1 (Some minor), AbiNone, p)) \/
       (0 <= python_version.2 /\ t = (LangPython python_version.1 None, AbiNone, p))).
Proof.
  unfold no_abi_tags. rewrite list_elem_of_bind. setoid_rewrite elem_of_app.
  setoid_rewrite elem_of_if. setoid_rewrite elem_of_range. setoid_rewrite elem_of_on_platforms.
  setoid_rewrite Z.eqb_eq. split.
  - intros (m & [(p & -> & Hp)|(-> & p & -> & Hp)] & Hm); exists p; (split; [done|]).
    + left. by exists m.
    + right. split; [lia|done].
  - intros (p & Hp & [(m & Hm & ->)|(Hm & ->)]); [exists m; eauto 8|].
    exists python_version.2. split; [right; eauto|lia].
Qed.

Lemma elem_of_no_binary t :
  t ∈ no_binary_tags implementation python_version <->
    (exists variant, implementation = ImplCPython variant /\
       t = (LangCPython python_version, AbiNone, PlatformAny)) \/
    (exists minor, 0 <= minor <= python_version.2 /\
       t = (LangPython python_version.1 (Some minor), AbiNone, PlatformAny)) \/
    (0 <= python_version.2 /\ t = (LangPython python_version.1 None, AbiNone, PlatformAny)).
Proof.
  unfold no_binary_tags. rewrite elem_of_app, list_elem_of_bind. setoid_rewrite elem_of_app.
  setoid_rewrite elem_of_if. setoid_rewrite elem_of_range. setoid_rewrite list_elem_of_singleton.
  setoid_rewrite Z.eqb_eq. split.
  - intros [H|(m & [->|(-> & ->)] & Hm)]; [left|right; left; by exists m|right; right; split; [lia|done]].
    destruct implementation; try by apply elem_of_nil in H.
    apply list_elem_of_singleton in H as ->. eauto.
  - intros [(v & -> & ->)|[(m & Hm & ->)|(Hm & ->)]]; [left; by left|right; eauto 8|right].
    exists python_version.2. split; [by right|lia].
Qed.

Lemma env_tags_supported t :
  t ∈ env_tags implementation python_version implementation_version plats <-> supported t.
Proof.
  unfold env_tags. rewrite !elem_of_app, elem_of_on_platforms, elem_of_debug, elem_of_stable,
    elem_of_no_abi, elem_of_no_binary. split.
  - intros [(p & -> & Hp)|[(v & p & E & ? & ? & ? & ->)
      |[(v & p & E & Hp & [(m & Hm & ->)|(Hm & ->)])|[(p & Hp & [(m & Hm & ->)|(Hm & ->)])
      |[(v & E & ->)|[(m & Hm & ->)|(Hm & ->)]]]]]].
    + by apply supported_exact.
    + by eapply supported_release.
    + by eapply supported_stable.
    + eapply supported_cpython; eauto.
    + apply supported_python; auto.
    + apply supported_major; auto.
    + eapply supported_cpython; eauto.
    + apply supported_python; auto.
    + apply supported_major; auto.
  - destruct 1 as [p Hp|v p E ? ? ?|v m p E Hm Hp|v p E [[Hp Hm]|Hp]|m p Hm [Hp|Hp]|p Hm [Hp|Hp]]; subst.
    + left. eauto.
    + right; left. eauto 10.
    + right; right; left. eauto 12.
    + right; right; left. eauto 12.
    + right; right; right; right; left. eauto.
    + right; right; right; left. eauto 12.
    + right; right; right; right; right; left. eauto.
    + right; right; right; left. eauto 12.
    + right; right; right; right; right; right. eauto.
Qed.
End Env.

(** ** The number of tags *)

Lemma length_on_platforms lang abi ps : length (on_platforms lang abi ps) = length ps.
Proof. apply length_fmap. Qed.

Lemma length_if_le {A} (b : bool) (l : list A) k :
  (length l <= k)%nat -> (length (if b then l else []) <= k)%nat.
Proof. destruct b; cbn; lia. Qed.

Lemma env_tags_length {BF : Bitflags} impl v iv plats :
  0 <= v.2 <= U8_MAX ->
  (length (env_tags impl v iv plats) <= 1100 * length plats + 1000)%nat.
Proof.
  intros Hv. unfold env_tags, U8_MAX in *. rewrite !length_app, length_on_platforms.
  assert (length (debug_tags impl v plats) <= length plats)%nat.
  { unfold debug_tags. destruct impl; cbn [length]; try lia. apply length_if_le.
    by rewrite length_on_platforms. }
  assert (length (stable_abi_tags impl v plats) <= 254 * (2 * length plats))%nat.
  { unfold stable_abi_tags. destruct impl; cbn [length]; try lia.
    etrans; [apply (length_bind_le _ (2 * length plats))|].
    - intros m _. rewrite length_app. destruct (flags_contains _ _), (m =? v.2);
        rewrite ?length_on_platforms; cbn [length]; lia.
    - rewrite length_range. apply Nat.mul_le_mono_r. lia. }
  assert (length (no_abi_tags v plats) <= 256 * (2 * length plats))%nat.
  { unfold no_abi_tags. etrans; [apply (length_bind_le _ (2 * length plats))|].
    - intros m _. rewrite length_app. destruct (m =? v.2);
        rewrite ?length_on_platforms; cbn [length]; lia.
    - rewrite length_range. apply Nat.mul_le_mono_r. lia. }
  assert (length (no_binary_tags impl v) <= 1 + 256 * 2)%nat.
  { unfold no_binary_tags. rewrite length_app. apply Nat.add_le_mono; [by destruct impl; cbn; lia|].
    etrans; [apply (length_bind_le _ 2)|].
    - intros m _. rewrite length_app. by destruct (m =? v.2); cbn; lia.
    - rewrite length_range. apply Nat.mul_le_mono_r. lia. }
  lia.
Qed.

(** ** The tags are distinct *)

(** Two tags of different groups differ. *)
Ltac tags_differ :=
  repeat match goal with
         | |- _ -> _ => intros ?
         | |- ~ _ => intros ?
         | H : exists _, _ |- _ => destruct H
         | H : _ /\ _ |- _ => destruct H
         | H : _ \/ _ |- _ => destruct H
         end;
  simplify_eq/=; repeat case_match; simplify_eq; try done.

Lemma NoDup_on_platforms lang abi ps : NoDup ps -> NoDup (on_platforms lang abi ps).
Proof. apply NoDup_fmap_2. by intros p q [=]. Qed.

Lemma NoDup_if {A} (b : bool) (l : list A) : NoDup l -> NoDup (if b then l else []).
Proof. destruct b; [done|]. intros _. apply NoDup_nil_2. Qed.

Section Distinct.
Context {BF : Bitflags} {BL : BitflagsLaws}.

Lemma remove_debug_ne variant :
  flags_contains variant DebugBuild = true -> flags_remove variant DebugBuild <> variant.
Proof.
  rewrite flags_contains_spec, flags_remove_spec. intros C E.
  assert (Z.testbit (Z.land variant DebugBuild) 2 = true) as T by (by rewrite C).
  rewrite <- E, !Z.land_spec, Z.lnot_spec in T by lia. by rewrite andb_false_r in T.
Qed.

Lemma NoDup_stable impl v plats : NoDup plats -> NoDup (stable_abi_tags impl v plats).
Proof.
  intros N. unfold stable_abi_tags. destruct impl as [variant| | |]; try apply NoDup_nil_2.
  apply NoDup_bind; [| |apply NoDup_range].
  - intros m m' t _ _. rewrite !elem_of_app, !elem_of_if.
    destruct (flags_contains variant Freethreading); rewrite !elem_of_on_platforms; naive_solver.
  - intros m _. apply NoDup_app. split_and!.
    + by destruct (flags_contains _ _); apply NoDup_on_platforms.
    + intros t. rewrite elem_of_if.
      destruct (flags_contains variant Freethreading); rewrite !elem_of_on_platforms; naive_solver.
    + by apply NoDup_if, NoDup_on_platforms.
Qed.

Lemma NoDup_no_abi v plats : NoDup plats -> NoDup (no_abi_tags v plats).
Proof.
  intros N. unfold no_abi_tags. apply NoDup_bind; [| |apply NoDup_range].
  - intros m m' t _ _. rewrite !elem_of_app, !elem_of_if, !elem_of_on_platforms, !Z.eqb_eq. naive_solver.
  - intros m _. apply NoDup_app. split_and!; [by apply NoDup_on_platforms| |by apply NoDup_if, NoDup_on_platforms].
    intros t. rewrite elem_of_if, !elem_of_on_platforms. naive_solver.
Qed.

Lemma NoDup_no_binary impl v : NoDup (no_binary_tags impl v).
Proof.
  unfold no_binary_tags. apply NoDup_app. split_and!.
  - destruct impl; first [apply NoDup_singleton|apply NoDup_nil_2].
  - intros t Ht. rewrite list_elem_of_bind. setoid_rewrite elem_of_app. setoid_rewrite elem_of_if.
    setoid_rewrite list_elem_of_singleton. destruct impl; try by apply elem_of_nil in Ht.
    apply list_elem_of_singleton in Ht as ->. naive_solver.
  - apply NoDup_bind; [| |apply NoDup_range].
    + intros m m' t _ _. rewrite !elem_of_app, !elem_of_if, !list_elem_of_singleton, !Z.eqb_eq. naive_solver.
    + intros m _. apply NoDup_app. split_and!; [apply NoDup_singleton| |apply NoDup_if, NoDup_singleton].
      intros t. rewrite elem_of_if, !list_elem_of_singleton. naive_solver.
Qed.

Lemma NoDup_debug impl v plats : NoDup plats -> NoDup (debug_tags impl v plats).
Proof.
  intros N. unfold debug_tags. destruct impl; try apply NoDup_nil_2.
  by apply NoDup_if, NoDup_on_platforms.
Qed.

Lemma NoDup_env_tags impl v iv plats :
  NoDup plats -> PlatformAny ∉ plats -> NoDup (env_tags impl v iv plats).
Proof.
  intros N A. unfold env_tags. apply NoDup_app. split_and!; [by apply NoDup_on_platforms|..].
  { intros t. rewrite !elem_of_app, elem_of_on_platforms, elem_of_debug, elem_of_stable, elem_of_no_abi,
      elem_of_no_binary. pose proof remove_debug_ne. destruct impl as [variant| | |]; tags_differ.
    by eapply remove_debug_ne. }
  apply NoDup_app. split_and!; [by apply NoDup_debug|..].
  { intros t. rewrite !elem_of_app, elem_of_debug, elem_of_stable, elem_of_no_abi, elem_of_no_binary.
    tags_differ. }
  apply NoDup_app. split_and!; [by apply NoDup_stable|..].
  { intros t. rewrite !elem_of_app, elem_of_stable, elem_of_no_abi, elem_of_no_binary. tags_differ. }
  apply NoDup_app. split_and!; [by apply NoDup_no_abi| |apply NoDup_no_binary].
  intros t. rewrite elem_of_no_abi, elem_of_no_binary. tags_differ.
Qed.
End Distinct.

(** ** The tags of a platform *)

(** The numbers of an operating system are [u16]. *)
Definition os_wf (os : Os) : Prop :=
  match os with
  | OsManylinux major minor | OsMusllinux major minor | OsPyodide major minor
  | OsPyEmscripten major minor | OsMacos major minor | OsIos major minor _ =>
      is_u16 major /\ is_u16 minor
  | OsAndroid api_level => is_u16 api_level
  | _ => True
  end.

(** Distinct platform tags, none of them [any], and not too many. *)
Definition platforms_ok (ps : list PlatformTag) : Prop :=
  NoDup ps /\ PlatformAny ∉ ps /\ Z.of_nat (length ps) <= 800000.

Lemma platforms_ok_singleton p : p <> PlatformAny -> platforms_ok [p].
Proof.
  intros H. split_and!; [apply NoDup_singleton|by intros E%list_elem_of_singleton|cbn; lia].
Qed.

Lemma length_range_u16 lo hi : 0 <= lo -> is_u16 hi -> Z.of_nat (length (range_down lo hi)) <= 65536.
Proof. rewrite length_range. unfold is_u16, U16_MAX. lia. Qed.

Lemma manylinux_tags_ok major minor arch : is_u16 minor -> platforms_ok (manylinux_tags major minor arch).
Proof.
  intros Hm. unfold manylinux_tags.
  destruct (get_minimum_manylinux_minor arch) as [lo|] eqn:El; [|by apply platforms_ok_singleton].
  assert (0 <= lo) by (destruct arch; by simplify_eq/=).
  assert (forall t, t ∈ range_down lo minor ≫= manylinux_minor_tags major arch ->
    is_manylinux t = true) as M.
  { intros t. rewrite list_elem_of_bind. unfold manylinux_minor_tags.
    setoid_rewrite elem_of_app. setoid_rewrite elem_of_app. setoid_rewrite elem_of_app.
    setoid_rewrite elem_of_if. setoid_rewrite list_elem_of_singleton. tags_differ. }
  split_and!.
  - apply NoDup_app. split_and!; [| |apply NoDup_singleton].
    + apply NoDup_bind; [| |apply NoDup_range].
      * intros m m' t _ _. unfold manylinux_minor_tags.
        rewrite !elem_of_app, !elem_of_if, !list_elem_of_singleton, !Z.eqb_eq. tags_differ.
      * intros m _. unfold manylinux_minor_tags. repeat zif; cbn; repeat (constructor; [set_solver|]); constructor.
    + intros t Ht ->%list_elem_of_singleton. by apply M in Ht.
  - rewrite elem_of_app. intros [C%M|C%list_elem_of_singleton]; done.
  - rewrite length_app. pose proof (length_range_u16 lo minor ltac:(done) Hm).
    pose proof (length_bind_le (manylinux_minor_tags major arch) 4 (range_down lo minor)) as B.
    cbn [length]. enough (length (range_down lo minor ≫= manylinux_minor_tags major arch)
      <= length (range_down lo minor) * 4)%nat by lia. apply B.
    intros m _. unfold manylinux_minor_tags. by repeat case_match; cbn; lia.
Qed.

Lemma musllinux_tags_ok major minor arch : is_u16 minor -> platforms_ok (musllinux_tags major minor arch).
Proof.
  intros Hm. unfold musllinux_tags. split_and!.
  - apply NoDup_app. split_and!; [| |apply NoDup_singleton].
    + apply NoDup_fmap_2; [by intros ? ? [=]|apply NoDup_range].
    + intros t (m & -> & _)%list_elem_of_fmap ?%list_elem_of_singleton. done.
  - rewrite elem_of_app, list_elem_of_fmap, list_elem_of_singleton. by intros [(? & ? & _)|].
  - rewrite length_app, length_fmap. pose proof (length_range_u16 0 minor ltac:(done) Hm). cbn. lia.
Qed.

(** Every format of every version. *)
Lemma macos_product (formats : list BinaryFormat) (f : Z -> Z * Z) versions :
  NoDup formats -> NoDup versions -> Inj (=) (=) f ->
  NoDup (versions ≫= fun m => macos_version_tags formats (f m).1 (f m).2).
Proof.
  intros Nf Nv I. apply NoDup_bind; [| |done].
  - intros m m' t _ _ (? & -> & _)%list_elem_of_fmap (? & E & _)%list_elem_of_fmap.
    injection E as E1 E2 _. apply (inj f).
    by rewrite (surjective_pairing (f m)), E1, E2, <- surjective_pairing.
  - intros m _. apply NoDup_fmap_2; [by intros ? ? [=]|done].
Qed.

Lemma elem_of_macos formats f versions t :
  t ∈ (versions ≫= fun m => macos_version_tags formats ((f m).1) ((f m).2 : Z)) <->
    exists (m : Z) format, t = Macos (f m).1 (f m).2 format /\ m ∈ versions /\ format ∈ formats.
Proof.
  rewrite list_elem_of_bind. unfold macos_version_tags. setoid_rewrite list_elem_of_fmap. naive_solver.
Qed.

Lemma macos_product_length formats f versions :
  (length formats <= 6)%nat ->
  (length (versions ≫= fun m : Z => macos_version_tags formats (f m).1 (f m).2)
     <= length versions * 6)%nat.
Proof. intros H. apply length_bind_le. intros m _. unfold macos_version_tags. by rewrite length_fmap. Qed.

(** Versions from 11 on, by their major number, and the versions of macOS 10. *)
Definition macos_11 (major : Z) : Z * Z := (major, 0).
Definition macos_10 (minor : Z) : Z * Z := (10, minor).

Lemma macos_new_tags_ok formats major old :
  NoDup formats -> (length formats <= 6)%nat -> is_u16 major ->
  NoDup old -> (forall t, t ∈ old -> exists m f, t = Macos 10 m f) -> (length old <= 78)%nat ->
  platforms_ok ((range_down 11 major ≫= fun major => macos_version_tags formats major 0) ++ old).
Proof.
  intros Nf Lf Hm No Ho Lo.
  pose proof (macos_product formats macos_11 (range_down 11 major) Nf (NoDup_range _ _)
                ltac:(by intros ? ? [=])) as N.
  pose proof (macos_product_length formats macos_11 (range_down 11 major) Lf) as L.
  pose proof (length_range_u16 11 major ltac:(done) Hm).
  pose proof (fun t => proj1 (elem_of_macos formats macos_11 (range_down 11 major) t)) as E.
  cbn [macos_11 fst snd] in *. split_and!.
  - apply NoDup_app. split_and!; [done| |done].
    intros t (m & f & -> & Hv%elem_of_range & _)%E (m' & f' & C)%Ho. simplify_eq. lia.
  - rewrite elem_of_app. by intros [(? & ? & ? & _)%E|(? & ? & ?)%Ho].
  - rewrite length_app. lia.
Qed.

Lemma macos_10_tags_ok formats hi :
  NoDup formats -> (length formats <= 6)%nat -> is_u16 hi ->
  platforms_ok (range_down 4 hi ≫= macos_version_tags formats 10) /\
  forall t, t ∈ range_down 4 hi ≫= macos_version_tags formats 10 -> exists m f, t = Macos 10 m f.
Proof.
  intros Nf Lf Hm.
  pose proof (fun t => proj1 (elem_of_macos formats macos_10 (range_down 4 hi) t)) as E.
  pose proof (macos_product_length formats macos_10 (range_down 4 hi) Lf) as L.
  pose proof (length_range_u16 4 hi ltac:(done) Hm).
  cbn [macos_10 fst snd] in *. split; [split_and!|].
  - apply (macos_product formats macos_10 (range_down 4 hi) Nf (NoDup_range _ _)).
    by intros ? ? [=].
  - by intros (? & ? & ? & _)%E.
  - etrans; [apply Nat2Z.inj_le, L|]. lia.
  - intros t (m & f & -> & _)%E. eauto.
Qed.

Lemma macos_x86_64_tags_ok formats major minor ps :
  NoDup formats -> (length formats <= 6)%nat -> is_u16 major -> is_u16 minor ->
  macos_x86_64_tags formats major minor = Ok ps -> platforms_ok ps.
Proof.
  intros Nf Lf Hj Hn. unfold macos_x86_64_tags. destruct (major =? 10).
  { intros [= <-]. by apply macos_10_tags_ok. }
  destruct (11 <=? major); [|done].
  destruct (macos_10_tags_ok formats 16 Nf Lf) as [(N & _ & _) E]; [unfold is_u16, U16_MAX; lia|].
  assert (length (range_down 4 16 ≫= macos_version_tags formats 10) <= 78)%nat as L.
  { etrans; [apply (length_bind_le _ 6)|by rewrite length_range].
    intros m _. unfold macos_version_tags. by rewrite length_fmap. }
  intros [= <-]. by apply macos_new_tags_ok.
Qed.

Lemma macos_aarch64_tags_ok formats major :
  NoDup formats -> (length formats <= 6)%nat -> is_u16 major ->
  platforms_ok (macos_aarch64_tags formats major).
Proof.
  intros Nf Lf Hj. apply macos_new_tags_ok; [done|done|done|..].
  - apply NoDup_fmap_2; [by intros ? ? [=]|apply NoDup_range].
  - intros t (m & -> & _)%list_elem_of_fmap. eauto.
  - rewrite length_fmap, length_range. lia.
Qed.

Lemma foldl_android abi l acc :
  foldl (fun acc ver =>
           let? platform_tags := acc in
           let? abi := @Ok _ PlatformError abi in
           Ok (platform_tags ++ [Android ver abi])) (Ok acc) l =
    Ok (acc ++ ((fun ver => Android ver abi) <$> l)).
Proof.
  revert acc. induction l as [|v l IH]; intros acc; cbn [foldl]; [by rewrite app_nil_r|].
  cbn [result_bind]. rewrite IH, <- app_assoc. done.
Qed.

Lemma foldl_android_Err (f : list PlatformTag -> Z -> result (list PlatformTag) PlatformError) e l :
  foldl (fun acc ver => let? platform_tags := acc in f platform_tags ver) (Err e) l = Err e.
Proof. induction l; [done|]. done. Qed.

(** The Android tags: none below level 16, whatever the architecture. *)
Lemma android_tags_spec api_level arch :
  android_tags api_level arch =
    match android_abi_from_arch arch with
    | Ok abi => Ok ((fun ver => Android ver abi) <$> range_down 16 api_level)
    | Err e => if api_level <? 16 then Ok [] else Err e
    end.
Proof.
  unfold android_tags. destruct (android_abi_from_arch arch) as [abi|e] eqn:E.
  - apply (foldl_android abi _ []).
  - destruct (Z.ltb_spec api_level 16) as [Hl|Hl].
    + assert (length (range_down 16 api_level) = 0%nat) as ->%nil_length_inv
        by (rewrite length_range; lia). done.
    + destruct (range_down 16 api_level) as [|v l] eqn:R.
      { assert (16 ∈ range_down 16 api_level) as C by (apply elem_of_range; lia).
        rewrite R in C. by apply elem_of_nil in C. }
      cbn [foldl result_bind]. apply foldl_android_Err.
Qed.

Lemma android_tags_ok api_level arch ps :
  is_u16 api_level -> android_tags api_level arch = Ok ps -> platforms_ok ps.
Proof.
  intros Hl. rewrite android_tags_spec.
  assert (platforms_ok []) as Nil.
  { split_and!; [apply NoDup_nil_2|apply not_elem_of_nil|cbn; lia]. }
  destruct (android_abi_from_arch arch) as [abi|e]; [|by destruct (_ <? _); [intros [= <-]|]].
  intros [= <-]. split_and!.
  - apply NoDup_fmap_2; [by intros ? ? [=]|apply NoDup_range].
  - by intros (? & ? & _)%list_elem_of_fmap.
  - rewrite length_fmap. pose proof (length_range_u16 16 api_level ltac:(done) Hl). lia.
Qed.

Lemma ios_tags_ok major minor simulator arch ps :
  is_u16 major -> is_u16 minor -> ios_tags major minor simulator arch = Ok ps -> platforms_ok ps.
Proof.
  intros Hj Hn. unfold ios_tags. destruct (ios_multiarch_from_arch arch simulator) as [m|e]; [|done].
  cbn [result_bind]. destruct (major <? 12).
  { intros [= <-]. split_and!; [apply NoDup_nil_2|apply not_elem_of_nil|cbn; lia]. }
  intros <-%Ok_inj.
  assert (forall t, t ∈ (range_down 12 (major - 1) ≫= fun maj => (fun min => Ios maj min m) <$> range_down 0 9)
    -> exists maj min, t = Ios maj min m /\ maj < major) as E.
  { intros t (maj & (min & -> & _)%list_elem_of_fmap & H%elem_of_range)%list_elem_of_bind.
    exists maj, min. split; [done|lia]. }
  split_and!.
  - apply NoDup_cons. split; [|apply NoDup_app; split_and!].
    + rewrite elem_of_app, list_elem_of_fmap.
      intros [(min & [= ->] & H%elem_of_range)|(? & ? & [= -> ->] & H)%E]; lia.
    + apply NoDup_fmap_2; [by intros ? ? [=]|apply NoDup_range].
    + intros t (min & -> & H)%list_elem_of_fmap (maj & ? & [= -> ->] & C)%E. lia.
    + apply NoDup_bind; [| |apply NoDup_range].
      * intros a b t _ _ (? & -> & _)%list_elem_of_fmap (? & [= -> _] & _)%list_elem_of_fmap. done.
      * intros a _. apply NoDup_fmap_2; [by intros ? ? [=]|apply NoDup_range].
  - rewrite !elem_of_app, list_elem_of_singleton, list_elem_of_fmap.
    by intros [|[(? & ? & _)|(? & ? & ? & _)%E]].
  - rewrite !length_app, length_fmap, length_range.
    pose proof (length_bind_le (fun maj => (fun min => Ios maj min m) <$> range_down 0 9) 10
      (range_down 12 (major - 1))) as B. rewrite length_range in B.
    unfold is_u16, U16_MAX in *.
    assert (length (range_down 12 (major - 1) ≫= fun maj => (fun min => Ios maj min m) <$> range_down 0 9)
      <= Z.to_nat (major - 1 - 12 + 1) * 10)%nat.
    { apply B. intros x _. rewrite length_fmap, length_range. done. }
    cbn [length]. lia.
Qed.

(** ** The interpreter *)

Section Interpreter.
Context {BF : Bitflags} {BL : BitflagsLaws} {LC : Lowercase}.

Lemma release_tags_ok make release arch ps :
  (forall r, make r <> PlatformAny) -> release_tags make release arch = Ok ps -> platforms_ok ps.
Proof.
  intros M. unfold release_tags. intros E. result_inv E. injection E as <-.
  by apply platforms_ok_singleton.
Qed.

Lemma illumos_tags_ok release arch ps : illumos_tags release arch = Ok ps -> platforms_ok ps.
Proof.
  unfold illumos_tags. cbv zeta. intros E.
  destruct (split_once 95 release) as [[major other]|]; result_inv E; [|injection E as <-; by apply platforms_ok_singleton].
  destruct (5 <=? _); result_inv E; injection E as <-; by apply platforms_ok_singleton.
Qed.

Lemma platforms_ok_pair p q : p <> q -> p <> PlatformAny -> q <> PlatformAny -> platforms_ok [p; q].
Proof.
  intros. split_and!; [|rewrite !elem_of_cons, elem_of_nil; naive_solver|cbn; lia].
  apply NoDup_cons. split; [by intros ?%list_elem_of_singleton|apply NoDup_singleton].
Qed.

Lemma formats_ok arch formats :
  binary_format_from_arch arch = Some formats -> NoDup formats /\ (length formats <= 6)%nat.
Proof.
  destruct arch; intros [= <-]; (split; [|cbn; lia]);
    by apply (bool_decide_unpack _); vm_compute.
Qed.

Lemma compatible_tags_ok platform ps :
  os_wf (platform_os platform) -> compatible_tags platform = Ok ps -> platforms_ok ps.
Proof.
  destruct platform as [os arch cpu]. unfold compatible_tags. cbn [platform_os platform_arch].
  pose proof (formats_ok X86_64 _ eq_refl) as [? ?]. pose proof (formats_ok Aarch64 _ eq_refl) as [? ?].
  destruct os; intros W; cbn in W.
  - destruct W as [_ W]. intros <-%Ok_inj. by apply manylinux_tags_ok.
  - destruct W as [_ W]. intros <-%Ok_inj. by apply musllinux_tags_ok.
  - destruct arch; try done; intros [= <-]; by apply platforms_ok_singleton.
  - destruct arch; try done; intros [= <-]; by apply platforms_ok_pair.
  - destruct arch; try done; intros [= <-]; by apply platforms_ok_pair.
  - destruct W as [? ?]. destruct arch; try done.
    + intros <-%Ok_inj. by apply macos_aarch64_tags_ok.
    + by apply macos_x86_64_tags_ok.
  - by apply release_tags_ok.
  - by apply release_tags_ok.
  - by apply release_tags_ok.
  - by apply release_tags_ok.
  - apply illumos_tags_ok.
  - by apply release_tags_ok.
  - by apply android_tags_ok.
  - destruct W as [? ?]. by apply ios_tags_ok.
Qed.

Lemma env_platforms_ok platform options ps :
  os_wf (platform_os platform) -> env_platforms platform options = Ok ps -> platforms_ok ps.
Proof.
  unfold env_platforms. intros W E. result_inv E. apply Ok_inj in E as <-.
  match goal with G : map_err _ _ = Ok _ |- _ => apply map_err_Ok, compatible_tags_ok in G; [|done] end.
  destruct (platform_os platform); try done. destruct (negb _); [|done].
  match goal with G : platforms_ok _ |- _ => destruct G as (N & A & L) end. split_and!.
  - apply NoDup_ListNoDup, List.NoDup_filter, NoDup_ListNoDup, N.
  - intros [C _]%list_elem_of_In%List.filter_In. by apply A, list_elem_of_In.
  - etrans; [apply Nat2Z.inj_le, List.filter_length_le|done].
Qed.

(** Unless there is an error, there are tags, and their priorities follow their order. *)
Lemma from_env_spec platform v name iv options r :
  os_wf (platform_os platform) -> 0 <= v.2 <= U8_MAX ->
  from_env platform v name iv options = Ok r ->
  exists t variant impl ps,
    r = Some t /\ env_variant v name options = Ok variant /\
    implementation_parse name variant = Ok impl /\ env_platforms platform options = Ok ps /\
    tags_is_freethreaded t = gil_disabled options /\
    tags_best t = head (env_tags impl v iv ps) /\ NoDup (env_tags impl v iv ps) /\
    forall x p, tag_lookup (tags_map t) x = Some p <-> has_priority (env_tags impl v iv ps) x p.
Proof.
  intros W Hv E. unfold from_env in E. result_inv E. apply Ok_inj in E as <-.
  rename x into variant, x0 into impl, x1 into ps.
  destruct (env_platforms_ok platform options ps) as (N & A & L); [done..|].
  pose proof (env_tags_length impl v iv ps Hv) as Le.
  destruct (tags_new_spec (env_tags impl v iv ps) platform v (opt_is_cross options) (gil_disabled options))
    as (t & -> & Hp & Hb & Hf); [unfold U32_MAX; lia|].
  exists t, variant, impl, ps. split_and!; try done. by apply NoDup_env_tags.
Qed.

(** A free-threaded interpreter has the free-threaded flag. *)
Lemma env_variant_freethreaded v name options variant :
  env_variant v name options = Ok variant -> gil_disabled options = true ->
  name = bytes "cpython" /\ flags_contains variant Freethreading = true.
Proof.
  unfold env_variant. intros E G. rewrite G in E. cbv zeta in E.
  destruct (bool_decide_reflect (name = bytes "cpython")) as [->|]; cbn [negb] in E; [|done].
  result_inv E. injection E as <-. split; [done|]. apply flags_contains_spec.
  assert (forall f g, Z.land (Z.lor f g) Freethreading = Z.lor (Z.land f Freethreading) (Z.land g Freethreading)) as D
    by (intros; apply Z.land_lor_distr_l).
  match goal with G : Ok _ = Ok ?x |- _ => injection G as <- end.
  destruct (debug_enabled options);
    match goal with G : Ok _ = Ok ?x |- _ => injection G as <- end;
    destruct (version_le v (3, 7)); rewrite ?flags_insert_spec; reflexivity.
Qed.

Lemma from_env_consistent platform v name iv options t :
  os_wf (platform_os platform) -> 0 <= v.2 <= U8_MAX ->
  from_env platform v name iv options = Ok (Some t) -> freethreaded_consistent t.
Proof.
  intros W Hv E. destruct (from_env_spec _ _ _ _ _ _ W Hv E)
    as (t' & variant & impl & ps & [= <-] & Ev & Ei & _ & Ef & _ & _ & Hp).
  intros F x [p Hx]. rewrite Ef in F. destruct (env_variant_freethreaded _ _ _ _ Ev F) as [-> C].
  injection Ei as <-. apply Hp in Hx.
  assert (x ∈ env_tags (ImplCPython variant) v iv ps) as S%env_tags_supported
    by (apply has_priority_elem; eauto).
  assert (forall u, flags_contains u Freethreading = true ->
    flags_contains (flags_remove u DebugBuild) Freethreading = true) as R.
  { intros u. rewrite !flags_contains_spec, flags_remove_spec. intros Eu.
    rewrite <- Z.land_assoc, (Z.land_comm (Z.lnot _)), Z.land_assoc, Eu. done. }
  destruct S as [p' ?|w p' [= <-] ? ? ?|w m p' [= <-] ? ?|w p' ? ?|m p' ? ?|p' ? ?]; cbn; try done.
  - by apply R.
  - by rewrite C.
Qed.
End Interpreter.
