(* ===== verification/WheelFilename.v ===== *)
(** * Wheel filenames

    [crates/uv-distribution-filename/src]: the name of a wheel file and its parts: build tags
    ([build_tag.rs]), variant labels ([variant_label.rs]), the tags ([wheel_tag.rs]), the splitting
    iterator ([splitter.rs]), the parser and the printer ([wheel.rs]), the tags listed in a [WHEEL]
    file ([expanded_tags.rs]). A string is its list of bytes. *)

From stdpp Require Import base countable list option numbers decidable strings gmap.
From Stdlib Require Import ZArith Lia.
From S2P Require Import Prelude Text Libraries VersionTypes VersionSmall Version.
From S2P Require Import VersionCacheKey VersionParser VersionDisplay Normalize.
From S2P Require Import LanguageTag AbiTag Platform PlatformTag Tags.

Local Open Scope Z_scope.
Local Open Scope uv_scope.

(** ** Build tags *)

Inductive BuildTagError : Type :=
| BuildEmpty
| BuildNoLeadingDigit
| BuildInvalidCharacters
| BuildParseInt.

Record BuildTag : Type := mkBuildTag {
  build_number : Z;
  build_suffix : option (list Z)
}.

Definition is_build_tag_byte (byte : Z) : bool :=
  is_ascii_alphanumeric byte || ((byte =? 95) || (byte =? 46)).

(** The loop over the bytes, with the end of the digits found so far. *)
Fixpoint build_tag_loop (bs : list Z) (index : nat) (prefix_end : option nat) :
    result (option nat) BuildTagError :=
  match bs with
  | [] => Ok prefix_end
  | byte :: bs' =>
      if negb (is_build_tag_byte byte) then Err BuildInvalidCharacters
      else
        build_tag_loop bs' (S index)
          (match prefix_end with
           | None => if negb (is_ascii_digit byte) then Some index else None
           | Some _ => prefix_end
           end)
  end.

Definition build_tag_from_str (s : list Z) : result BuildTag BuildTagError :=
  match s with
  | [] => Err BuildEmpty
  | _ :: _ =>
      let? prefix_end := build_tag_loop s 0 None in
      let? (prefix, suffix) :=
        (match prefix_end with
         | Some 0%nat => Err BuildNoLeadingDigit
         | Some split => Ok (take split s, Some (drop split s))
         | None => Ok (s, None)
         end) in
      let? number := ok_or (parse_unsigned U64_MAX prefix) BuildParseInt in
      Ok (mkBuildTag number suffix)
  end.

Definition build_tag_display (t : BuildTag) : list Z :=
  match build_suffix t with
  | Some suffix => print_u64 (build_number t) ++ suffix
  | None => print_u64 (build_number t)
  end.

(** ** Variant labels *)

Inductive InvalidVariantLabel : Type :=
| LabelEmpty
| LabelInvalidCharacters (character : list Z).

Definition VariantLabel : Type := list Z.

Definition valid_character (character : Z) : bool :=
  is_ascii_lowercase character || is_ascii_digit character || ((character =? 46) || (character =? 95)).

(** The first character that is not valid; a valid one is a single byte. *)
Fixpoint find_invalid (label : list Z) : option (list Z) :=
  match label with
  | [] => None
  | c :: label' => if valid_character c then find_invalid label' else Some (first_char label)
  end.

Definition variant_label_try_from (label : list Z) : result VariantLabel InvalidVariantLabel :=
  match label with
  | [] => Err LabelEmpty
  | _ :: _ =>
      match find_invalid label with
      | Some character => Err (LabelInvalidCharacters character)
      | None => Ok label
      end
  end.

(** ** Tags *)

Record WheelTagSmall : Type := mkSmall {
  small_python_tag : LanguageTag;
  small_abi_tag : AbiTag;
  small_platform_tag : PlatformTag
}.

Record WheelTagLarge : Type := mkLarge {
  large_build_tag : option BuildTag;
  large_python_tag : list LanguageTag;
  large_abi_tag : list AbiTag;
  large_platform_tag : list PlatformTag;
  large_variant : option VariantLabel;
  large_repr : list Z
}.

Inductive WheelTag : Type :=
| WheelSmall (small : WheelTagSmall)
| WheelLarge (large : WheelTagLarge).

Definition wheel_python_tags (t : WheelTag) : list LanguageTag :=
  match t with
  | WheelSmall small => [small_python_tag small]
  | WheelLarge large => large_python_tag large
  end.

Definition wheel_abi_tags (t : WheelTag) : list AbiTag :=
  match t with
  | WheelSmall small => [small_abi_tag small]
  | WheelLarge large => large_abi_tag large
  end.

Definition wheel_platform_tags (t : WheelTag) : list PlatformTag :=
  match t with
  | WheelSmall small => [small_platform_tag small]
  | WheelLarge large => large_platform_tag large
  end.

Definition wheel_tag_build_tag (t : WheelTag) : option BuildTag :=
  match t with
  | WheelSmall _ => None
  | WheelLarge large => large_build_tag large
  end.

Definition compressed_tags (t : WheelTag) : CompressedTags :=
  mkCompressedTags (wheel_python_tags t) (wheel_abi_tags t) (wheel_platform_tags t).

(** ** Splitting *)

(** The iterator: the positions that [memchr] has still to yield, and the current offset. *)
Record MemchrSplitter : Type := mkSplitter {
  splitter_memchr : list nat;
  splitter_haystack : list Z;
  splitter_offset : nat
}.

(** [&haystack[start..stop]]. *)
Definition slice (start stop : nat) (l : list Z) : list Z := drop start (take stop l).

Definition splitter_next (self : MemchrSplitter) : option (list Z * MemchrSplitter) :=
  let haystack := splitter_haystack self in
  match splitter_memchr self with
  | index :: memchr =>
      Some (slice (splitter_offset self) index haystack, mkSplitter memchr haystack (index + 1))
  | [] =>
      if (splitter_offset self <? length haystack)%nat then
        Some (drop (splitter_offset self) haystack, mkSplitter [] haystack (length haystack))
      else None
  end.

(** The items of the iterator: one per position and one more. *)
Fixpoint splitter_items (fuel : nat) (self : MemchrSplitter) : list (list Z) :=
  match fuel with
  | O => []
  | S fuel =>
      match splitter_next self with
      | Some (item, self') => item :: splitter_items fuel self'
      | None => []
      end
  end.

Section Wheel.
Context `{!Bitflags, !Memchr}.

Definition splitter_split (haystack : list Z) (delimiter : Z) : MemchrSplitter :=
  mkSplitter (memchr_iter delimiter haystack) haystack 0.

Definition splitter_collect (haystack : list Z) (delimiter : Z) : list (list Z) :=
  let self := splitter_split haystack delimiter in
  splitter_items (length (splitter_memchr self) + 2) self.

(** ** Compatibility and text of the tags *)

Definition wheel_tag_compatibility (t : WheelTag) (compatible_tags : Tags) : TagCompatibility :=
  match t with
  | WheelSmall small =>
      compatibility_tag compatible_tags (small_python_tag small) (small_abi_tag small)
        (small_platform_tag small)
  | WheelLarge _ => compatibility compatible_tags (compressed_tags t)
  end.

Definition wheel_tag_display (t : WheelTag) : list Z :=
  match t with
  | WheelSmall small =>
      language_tag_display (small_python_tag small) ++ bytes "-"
        ++ abi_tag_display (small_abi_tag small) ++ bytes "-"
        ++ platform_tag_display (small_platform_tag small)
  | WheelLarge large => large_repr large
  end.

(** ** Filenames *)

Record WheelFilename : Type := mkWheel {
  wheel_name : list Z;
  wheel_version : Version;
  wheel_tags : WheelTag
}.

Inductive WheelFilenameError : Type :=
| InvalidWheelFileName (filename : list Z) (reason : string)
| InvalidVersion (filename : list Z) (e : PatternErrorKind)
| InvalidPackageName (filename : list Z) (e : InvalidNameError)
| InvalidBuildTag (filename : list Z) (e : BuildTagError)
| InvalidLabel (filename : list Z) (e : InvalidVariantLabel)
| UnexpectedExtension (filename : list Z).

(** The slices of the stem. *)
Record WheelParts : Type := mkParts {
  part_name : list Z;
  part_version : list Z;
  part_build_tag : option (list Z);
  part_python_tag : list Z;
  part_abi_tag : list Z;
  part_platform_tag : list Z;
  part_variant : option (list Z);
  part_is_small : bool;
  part_repr : list Z
}.

Definition starts_with_digit (s : list Z) : bool :=
  match s with
  | c :: _ => is_ascii_digit c
  | [] => false
  end.

(** [splitter.next()], with the message if there is no other dash. *)
Definition next_dash (positions : list nat) (filename : list Z) (reason : string) :
    result (nat * list nat) WheelFilenameError :=
  match positions with
  | i :: positions' => Ok (i, positions')
  | [] => Err (InvalidWheelFileName filename reason)
  end.

Definition wheel_parts (stem filename : list Z) : result WheelParts WheelFilenameError :=
  let splitter := memchr_iter 45 stem in
  let? (version, splitter) := next_dash splitter filename "Must have a version" in
  let? (build_tag_or_python_tag, splitter) := next_dash splitter filename "Must have a Python tag" in
  let? (python_tag_or_abi_tag, splitter) := next_dash splitter filename "Must have an ABI tag" in
  let? (abi_tag_or_platform_tag, splitter) := next_dash splitter filename "Must have a platform tag" in
  let name := take version stem in
  let version_part := slice (version + 1) build_tag_or_python_tag stem in
  let third := slice (build_tag_or_python_tag + 1) python_tag_or_abi_tag stem in
  let fourth := slice (python_tag_or_abi_tag + 1) abi_tag_or_platform_tag stem in
  let repr := drop (build_tag_or_python_tag + 1) stem in
  match splitter with
  | platform_tag :: variant_tag :: splitter =>
      match splitter with
      | _ :: _ =>
          Err (InvalidWheelFileName filename "Must have 5 to 7 components, but has more")
      | [] =>
          Ok (mkParts name version_part (Some third) fourth
                (slice (abi_tag_or_platform_tag + 1) platform_tag stem)
                (slice (platform_tag + 1) variant_tag stem)
                (Some (drop (variant_tag + 1) stem)) false repr)
      end
  | [platform_tag] =>
      if negb (starts_with_digit third) then
        Ok (mkParts name version_part None third fourth
              (slice (abi_tag_or_platform_tag + 1) platform_tag stem)
              (Some (drop (platform_tag + 1) stem)) false repr)
      else
        Ok (mkParts name version_part (Some third) fourth
              (slice (abi_tag_or_platform_tag + 1) platform_tag stem)
              (drop (platform_tag + 1) stem) None false repr)
  | [] =>
      Ok (mkParts name version_part None third fourth (drop (abi_tag_or_platform_tag + 1) stem) None
            (match memchr 46 (drop build_tag_or_python_tag stem) with
             | None => true
             | Some _ => false
             end) repr)
  end.

Definition is_tag_atom_byte (byte : Z) : bool := is_ascii_alphanumeric byte || (byte =? 95).

Definition invalid_tag_component (filename : list Z) : WheelFilenameError :=
  InvalidWheelFileName filename
    "Tag components must contain only ASCII letters, digits, underscores, and periods".

(** The loop over the tags of a component: unsupported tags are left out. *)
Fixpoint parse_tags {T E : Type} (from_str : list Z -> result T E) (filename : list Z)
    (items : list (list Z)) (tags : list T) : result (list T) WheelFilenameError :=
  match items with
  | [] => Ok tags
  | tag :: items' =>
      match tag with
      | [] => Err (invalid_tag_component filename)
      | _ :: _ =>
          if negb (forallb is_tag_atom_byte tag) then Err (invalid_tag_component filename)
          else
            parse_tags from_str filename items'
              (match from_str tag with
               | Ok t => tags ++ [t]
               | Err _ => tags
               end)
      end
  end.

Definition parse_large_tag_component {T E : Type} (from_str : list Z -> result T E)
    (component filename : list Z) : result (list T) WheelFilenameError :=
  match component with
  | [] => Err (invalid_tag_component filename)
  | _ :: _ => parse_tags from_str filename (splitter_collect component 46) []
  end.

Definition normalized_package_name_matches (actual expected : list Z) : bool :=
  bool_decide
    ((fun byte => if is_ascii_uppercase byte then to_ascii_lowercase byte
                  else if (byte =? 95) || (byte =? 46) then 45 else byte) <$> actual = expected).

(** A single tag of each kind, if there are no periods and all three are known. *)
Definition try_small (parts : WheelParts) : option WheelTagSmall :=
  if part_is_small parts then
    match language_tag_from_str (part_python_tag parts), abi_tag_from_str (part_abi_tag parts),
          platform_tag_from_str (part_platform_tag parts) with
    | Ok python_tag, Ok abi_tag, Ok platform_tag => Some (mkSmall python_tag abi_tag platform_tag)
    | _, _, _ => None
    end
  else None.

Definition parse_wheel_tags (parts : WheelParts) (build_tag : option BuildTag)
    (variant : option VariantLabel) (filename : list Z) : result WheelTag WheelFilenameError :=
  match try_small parts with
  | Some small => Ok (WheelSmall small)
  | None =>
      let? python_tag :=
        parse_large_tag_component language_tag_from_str (part_python_tag parts) filename in
      let? abi_tag := parse_large_tag_component abi_tag_from_str (part_abi_tag parts) filename in
      let? platform_tag :=
        parse_large_tag_component platform_tag_from_str (part_platform_tag parts) filename in
      Ok (WheelLarge (mkLarge build_tag python_tag abi_tag platform_tag variant (part_repr parts)))
  end.

(** [Option::map] followed by [Option::transpose]. *)
Definition transpose {A B E : Type} (f : A -> result B E) (o : option A) : result (option B) E :=
  match o with
  | None => Ok None
  | Some a => let? b := f a in Ok (Some b)
  end.

Definition parse_wheel_name (name : list Z) (hint : option (list Z)) (filename : list Z) :
    result (list Z) WheelFilenameError :=
  match hint with
  | Some hint =>
      if normalized_package_name_matches name hint then Ok hint
      else map_err (InvalidPackageName filename) (package_name_from_str name)
  | None => map_err (InvalidPackageName filename) (package_name_from_str name)
  end.

(** [None] stands for a panic of the version parser. *)
Definition wheel_parse (stem filename : list Z) (hint : option (list Z)) :
    option (result WheelFilename WheelFilenameError) :=
  match wheel_parts stem filename with
  | Err e => Some (Err e)
  | Ok parts =>
      if starts_with_digit (part_python_tag parts) then
        Some (Err (InvalidWheelFileName filename "Python tag must not start with a digit"))
      else
        match parse_wheel_name (part_name parts) hint filename with
        | Err e => Some (Err e)
        | Ok name =>
            match version_from_str (part_version parts) with
            | Panicked => None
            | Failed err => Some (Err (InvalidVersion filename err))
            | Done version =>
                Some (
                  let? build_tag := transpose (fun build_tag =>
                    map_err (InvalidBuildTag filename) (build_tag_from_str build_tag))
                    (part_build_tag parts) in
                  let? variant := transpose (fun variant =>
                    map_err (InvalidLabel filename) (variant_label_try_from variant))
                    (part_variant parts) in
                  let? tags := parse_wheel_tags parts build_tag variant filename in
                  Ok (mkWheel name version tags))
            end
        end
  end.

Definition parse_filename (filename : list Z) (hint : option (list Z)) :
    option (result WheelFilename WheelFilenameError) :=
  match strip_suffix (bytes ".whl") filename with
  | None => Some (Err (InvalidWheelFileName filename "Must end with .whl"))
  | Some stem => wheel_parse stem filename hint
  end.

Definition wheel_from_str (filename : list Z) : option (result WheelFilename WheelFilenameError) :=
  parse_filename filename None.

Definition wheel_from_hint (filename hint : list Z) :
    option (result WheelFilename WheelFilenameError) :=
  parse_filename filename (Some hint).

Definition wheel_new (name : list Z) (version : Version) (python_tag : LanguageTag)
    (abi_tag : AbiTag) (platform_tag : PlatformTag) : WheelFilename :=
  mkWheel name version (WheelSmall (mkSmall python_tag abi_tag platform_tag)).

Definition wheel_stem (w : WheelFilename) : list Z :=
  as_dist_info_name (wheel_name w) ++ bytes "-" ++ version_display (wheel_version w) ++ bytes "-"
    ++ wheel_tag_display (wheel_tags w).

Definition wheel_display (w : WheelFilename) : list Z :=
  as_dist_info_name (wheel_name w) ++ bytes "-" ++ version_display (wheel_version w) ++ bytes "-"
    ++ wheel_tag_display (wheel_tags w) ++ bytes ".whl".

Definition wheel_variant (w : WheelFilename) : option VariantLabel :=
  match wheel_tags w with
  | WheelSmall _ => None
  | WheelLarge large => large_variant large
  end.

Definition wheel_is_compatible (w : WheelFilename) (compatible_tags : Tags) : bool :=
  bool_decide (wheel_variant w = None)
    && is_compatible compatible_tags (compressed_tags (wheel_tags w)).

Definition tag_compatibility (w : WheelFilename) (compatible_tags : Tags) : TagCompatibility :=
  wheel_tag_compatibility (wheel_tags w) compatible_tags.

Definition wheel_compatibility (w : WheelFilename) (compatible_tags : Tags) : TagCompatibility :=
  match wheel_variant w with
  | Some _ => Incompatible IncVariant
  | None => tag_compatibility w compatible_tags
  end.

(** ** Tags of a [WHEEL] file *)

Inductive ExpandedTagError : Type :=
| MissingLanguageTag (tag : list Z)
| MissingAbiTag (tag : list Z)
| MissingPlatformTag (tag : list Z)
| ExtraSegment (tag : list Z).

Definition filter_ok {T E : Type} (from_str : list Z -> result T E) (items : list (list Z)) : list T :=
  items ≫= fun item => match from_str item with Ok t => [t] | Err _ => [] end.

Definition parse_expanded_tag (tag : list Z) : result WheelTag ExpandedTagError :=
  match tag, memchr_iter 45 tag with
  | [], _ => Err (MissingLanguageTag tag)
  | _, [] => Err (MissingAbiTag tag)
  | _, [_] => Err (MissingPlatformTag tag)
  | _, python_tag_index :: abi_tag_index :: _ :: _ => Err (ExtraSegment tag)
  | _, [python_tag_index; abi_tag_index] =>
      let python_tag := take python_tag_index tag in
      let abi_tag := slice (python_tag_index + 1) abi_tag_index tag in
      let platform_tag := drop (abi_tag_index + 1) tag in
      let is_small := match memchr 46 tag with None => true | Some _ => false end in
      let parts := mkParts [] [] None python_tag abi_tag platform_tag None is_small tag in
      match try_small parts with
      | Some small => Ok (WheelSmall small)
      | None =>
          Ok (WheelLarge (mkLarge None
                (filter_ok language_tag_from_str (splitter_collect python_tag 46))
                (filter_ok abi_tag_from_str (splitter_collect abi_tag 46))
                (filter_ok platform_tag_from_str (splitter_collect platform_tag 46)) None tag))
      end
  end.

Definition ExpandedTags : Type := list WheelTag.

Fixpoint expanded_tags_parse (tags : list (list Z)) : result ExpandedTags ExpandedTagError :=
  match tags with
  | [] => Ok []
  | tag :: tags' =>
      let? t := parse_expanded_tag tag in
      let? ts := expanded_tags_parse tags' in
      Ok (t :: ts)
  end.

Definition expanded_python_tags (self : ExpandedTags) : list LanguageTag := self ≫= wheel_python_tags.
Definition expanded_abi_tags (self : ExpandedTags) : list AbiTag := self ≫= wheel_abi_tags.
Definition expanded_platform_tags (self : ExpandedTags) : list PlatformTag := self ≫= wheel_platform_tags.

Definition expanded_is_compatible (self : ExpandedTags) (compatible_tags : Tags) : bool :=
  existsb (fun tag => is_compatible compatible_tags (compressed_tags tag)) self.

(** [Iterator::max] keeps the last of equal elements. *)
Definition expanded_compatibility (self : ExpandedTags) (compatible_tags : Tags) : TagCompatibility :=
  match self with
  | [tag] => wheel_tag_compatibility tag compatible_tags
  | [] => Incompatible IncInvalid
  | tag :: tags =>
      foldl tag_max (wheel_tag_compatibility tag compatible_tags)
        ((fun tag => wheel_tag_compatibility tag compatible_tags) <$> tags)
  end.

End Wheel.

(** ** Cache keys *)

(** The hash of what is written to a [SeaHasher], a [u64], and the hexadecimal digits of bytes. *)
Class Digest : Type := {
  sea_hash : list CacheWrite -> Z;
  hex_encode : list Z -> list Z
}.

Class DigestLaws `{!Digest} : Prop := {
  sea_hash_u64 w : is_u64 (sea_hash w);
  hex_encode_length l : length (hex_encode l) = (2 * length l)%nat
}.

(** [u64::to_le_bytes]. *)
Definition to_le_bytes (n : Z) : list Z :=
  (fun i => Z.land (Z.shiftr n (8 * Z.of_nat i)) 255) <$> seq 0 8.

Section CacheKey.
Context `{!Bitflags, !Digest}.

Definition to_hex (num : Z) : list Z := hex_encode (to_le_bytes num).

Definition cache_digest_str (s : list Z) : list Z := to_hex (sea_hash [WriteStr s]).

(** [trim_end_matches(['.', '+'])]. *)
Definition trim_end_dots (s : list Z) : list Z :=
  reverse (skip_while (fun c => (c =? 46) || (c =? 43)) (reverse s)).

Definition CACHE_KEY_MAX_LEN : nat := 64.

Definition wheel_cache_key (w : WheelFilename) : list Z :=
  let full := version_display (wheel_version w) ++ bytes "-" ++ wheel_tag_display (wheel_tags w) in
  if (length full <=? CACHE_KEY_MAX_LEN)%nat then full
  else
    let digest := cache_digest_str (wheel_tag_display (wheel_tags w)) in
    let version_width := (CACHE_KEY_MAX_LEN - 1 - 16)%nat in
    let version := take version_width (version_display (wheel_version w)) in
    trim_end_dots version ++ bytes "-" ++ digest.

End CacheKey.
