(* ===== verification/WheelFacts.v ===== *)
(** * Facts about wheel filenames

    The parts of a stem, the round trip of names, and what the compatibility of a wheel means. *)

From stdpp Require Import base countable list option numbers decidable strings gmap.
From Stdlib Require Import ZArith Lia.
From S2P Require Import Prelude Text Libraries VersionTypes VersionSmall Version.
From S2P Require Import VersionOrder VersionCacheKey VersionParser VersionParserFacts VersionDisplay.
From S2P Require Import VersionDisplay SpecifierParser Normalize LanguageTag AbiTag.
From S2P Require Import Platform PlatformTag Tags WheelFilename.

Local Open Scope Z_scope.
Local Open Scope uv_scope.

(** ** Positions and slices *)

Lemma positions_shift b l : forall k, positions k b l = (fun i => k + i)%nat <$> positions 0 b l.
Proof.
  induction l as [|c l IH]; intros k; cbn [positions]; [done|].
  rewrite (IH (S k)), (IH 1%nat). destruct (c =? b); rewrite ?fmap_cons, <- list_fmap_compose.
  - f_equal; [lia|]. apply list_fmap_ext. intros ? i _. cbn. lia.
  - apply list_fmap_ext. intros ? i _. cbn. lia.
Qed.

Lemma positions_none k b l : b ∉ l -> positions k b l = [].
Proof.
  revert k. induction l as [|c l IH]; intros k; [done|]. intros [Hc Hl]%not_elem_of_cons. cbn.
  destruct (Z.eqb_spec c b); [done|]. by apply IH.
Qed.

Lemma positions_app k b l t :
  b ∉ l -> positions k b (l ++ b :: t) = (k + length l)%nat :: positions (k + length l + 1) b t.
Proof.
  revert k. induction l as [|c l IH]; intros k.
  - intros _. cbn [app positions length]. rewrite Z.eqb_refl. f_equal; [lia|f_equal; lia].
  - intros [Hc Hl]%not_elem_of_cons. cbn [app positions length].
    destruct (Z.eqb_spec c b); [congruence|]. rewrite IH by done. f_equal; [lia|f_equal; lia].
Qed.

Lemma slice_app p l i j : slice (length p + i) (length p + j) (p ++ l) = slice i j l.
Proof. unfold slice. rewrite take_app_add, drop_app_add. done. Qed.

(** ** The parts after name and version *)

Record WheelTail : Type := mkTail {
  tail_build_tag : option (list Z);
  tail_python_tag : list Z;
  tail_abi_tag : list Z;
  tail_platform_tag : list Z;
  tail_variant : option (list Z)
}.

(** The tail of a stem by its components. *)
Definition tail_of (components : list (list Z)) : option WheelTail :=
  match components with
  | [a; b; c] => Some (mkTail None a b c None)
  | [a; b; c; d] =>
      if negb (starts_with_digit a) then Some (mkTail None a b c (Some d))
      else Some (mkTail (Some a) b c d None)
  | [a; b; c; d; e] => Some (mkTail (Some a) b c d (Some e))
  | _ => None
  end.

Definition tail_small (components : list (list Z)) : bool :=
  bool_decide (length components = 3%nat) && forallb (fun c => bool_decide (46 ∉ c)) components.

(** Components joined by dashes. *)
Fixpoint dashed (components : list (list Z)) : list Z :=
  match components with
  | [] => []
  | [c] => c
  | c :: components' => c ++ 45 :: dashed components'
  end.

Lemma split_char_dashed s : split_char 45 s <> [] /\ dashed (split_char 45 s) = s /\
  Forall (fun c => 45 ∉ c) (split_char 45 s).
Proof.
  induction s as [|x s (H1 & H2 & H3)]; cbn [split_char].
  { split_and!; [done|done|]. constructor; [apply not_elem_of_nil|constructor]. }
  destruct (split_char 45 s) as [|p ps]; [done|]. destruct (Z.eqb_spec x 45) as [->|Hx].
  - split_and!; [done|cbn; by rewrite <- H2|]. constructor; [apply not_elem_of_nil|done].
  - inversion_clear H3 as [|?? Hp Hps]. split_and!; [done| |].
    + cbn in H2 |- *. destruct ps; by rewrite <- H2.
    + constructor; [|done]. by apply not_elem_of_cons.
Qed.

Lemma slice_at p c t stem i j :
  stem = p ++ c ++ t -> i = length p -> j = (i + length c)%nat -> slice i j stem = c.
Proof.
  intros -> -> ->. unfold slice. rewrite take_app_add, drop_app_length.
  by rewrite take_app_length.
Qed.

Lemma drop_at {A} (p t stem : list A) i : stem = p ++ t -> i = length p -> drop i stem = t.
Proof. intros -> ->. apply drop_app_length. Qed.

(** Why a stem with so many components is rejected. *)
Definition component_error (n : nat) : string :=
  match n with
  | 1 => "Must have a version"
  | 2 => "Must have a Python tag"
  | 3 => "Must have an ABI tag"
  | 4 => "Must have a platform tag"
  | _ => "Must have 5 to 7 components, but has more"
  end%nat.

Ltac list_eq := repeat first [progress cbn [app] | rewrite <- app_assoc]; reflexivity.
Ltac len_eq := repeat first [progress cbn [length] | rewrite length_app]; lia.

(** The facts about each element of a list. *)
Ltac split_forall :=
  repeat match goal with
         | H : Forall _ (_ :: _) |- _ => apply Forall_cons in H as [? H]
         end.

Section Parts.
Context {BF : Bitflags} {MC : Memchr} {ML : MemchrLaws}.

(** What the parser makes of the components of a stem. *)
Definition parts_of (components : list (list Z)) (filename : list Z) :
    result WheelParts WheelFilenameError :=
  match components with
  | name :: version :: tail =>
      match tail_of tail with
      | Some t => Ok (mkParts name version (tail_build_tag t) (tail_python_tag t) (tail_abi_tag t)
                        (tail_platform_tag t) (tail_variant t) (tail_small tail) (dashed tail))
      | None => Err (InvalidWheelFileName filename (component_error (length components)))
      end
  | _ => Err (InvalidWheelFileName filename (component_error (length components)))
  end.

Lemma memchr_small b l : (match memchr b l with None => true | Some _ => false end) = bool_decide (b ∉ l).
Proof.
  destruct (memchr b l) as [i|] eqn:E; symmetry.
  - apply bool_decide_eq_false. intros C. apply C. apply memchr_Some in E as [E _].
    by eapply list_elem_of_lookup_2.
  - by apply bool_decide_eq_true, memchr_None.
Qed.

(** The parts of a stem with given dashes. *)
Ltac part p := first [eapply (slice_at p) | eapply (drop_at p)]; [list_eq|len_eq..].

Lemma wheel_parts_five c1 c2 c3 c4 c5 f :
  Forall (fun c => 45 ∉ c) [c1; c2; c3; c4; c5] ->
  wheel_parts (dashed [c1; c2; c3; c4; c5]) f = parts_of [c1; c2; c3; c4; c5] f.
Proof.
  intros F. split_forall. unfold wheel_parts. rewrite memchr_iter_positions. cbn [dashed].
  rewrite !positions_app, positions_none by done. cbn [next_dash result_bind].
  cbn [parts_of tail_of tail_build_tag tail_python_tag tail_abi_tag tail_platform_tag tail_variant].
  f_equal. f_equal.
  - by rewrite Nat.add_0_l, take_app_length.
  - part (c1 ++ [45]).
  - part (c1 ++ 45 :: c2 ++ [45]).
  - part (c1 ++ 45 :: c2 ++ 45 :: c3 ++ [45]).
  - part (c1 ++ 45 :: c2 ++ 45 :: c3 ++ 45 :: c4 ++ [45]).
  - rewrite (drop_at (c1 ++ 45 :: c2) (45 :: c3 ++ 45 :: c4 ++ 45 :: c5)) by (list_eq || len_eq).
    rewrite memchr_small. unfold tail_small. cbn [length forallb]. rewrite andb_true_r.
    apply eq_bool_prop_intro. rewrite !Is_true_true, !andb_true_iff, !bool_decide_eq_true.
    rewrite !not_elem_of_cons, !not_elem_of_app, !not_elem_of_cons, !not_elem_of_app, !not_elem_of_cons.
    split; intros; destruct_and?; split_and!; done.
  - part (c1 ++ 45 :: c2 ++ [45]).
Qed.

Lemma wheel_parts_six c1 c2 c3 c4 c5 c6 f :
  Forall (fun c => 45 ∉ c) [c1; c2; c3; c4; c5; c6] ->
  wheel_parts (dashed [c1; c2; c3; c4; c5; c6]) f = parts_of [c1; c2; c3; c4; c5; c6] f.
Proof.
  intros F. split_forall. unfold wheel_parts. rewrite memchr_iter_positions. cbn [dashed].
  rewrite !positions_app, positions_none by done. cbn [next_dash result_bind].
  assert (slice (0 + length c1 + 1 + length c2 + 1) (0 + length c1 + 1 + length c2 + 1 + length c3)
            (c1 ++ 45 :: c2 ++ 45 :: c3 ++ 45 :: c4 ++ 45 :: c5 ++ 45 :: c6) = c3) as ->
    by part (c1 ++ 45 :: c2 ++ [45]).
  cbn [parts_of tail_of]. destruct (negb (starts_with_digit c3));
    cbn [tail_build_tag tail_python_tag tail_abi_tag tail_platform_tag tail_variant];
    f_equal; f_equal.
  all: try (by rewrite Nat.add_0_l, take_app_length).
  all: try part (c1 ++ [45]).
  all: try part (c1 ++ 45 :: c2 ++ [45]).
  all: try part (c1 ++ 45 :: c2 ++ 45 :: c3 ++ [45]).
  all: try part (c1 ++ 45 :: c2 ++ 45 :: c3 ++ 45 :: c4 ++ [45]).
  all: try part (c1 ++ 45 :: c2 ++ 45 :: c3 ++ 45 :: c4 ++ 45 :: c5 ++ [45]).
  f_equal. part (c1 ++ 45 :: c2 ++ 45 :: c3 ++ 45 :: c4 ++ 45 :: c5 ++ [45]).
Qed.

Lemma wheel_parts_seven c1 c2 c3 c4 c5 c6 c7 f :
  Forall (fun c => 45 ∉ c) [c1; c2; c3; c4; c5; c6; c7] ->
  wheel_parts (dashed [c1; c2; c3; c4; c5; c6; c7]) f = parts_of [c1; c2; c3; c4; c5; c6; c7] f.
Proof.
  intros F. split_forall. unfold wheel_parts. rewrite memchr_iter_positions. cbn [dashed].
  rewrite !positions_app, positions_none by done. cbn [next_dash result_bind parts_of tail_of].
  cbn [tail_build_tag tail_python_tag tail_abi_tag tail_platform_tag tail_variant].
  f_equal. f_equal; try (f_equal).
  all: try (by rewrite Nat.add_0_l, take_app_length).
  all: try part (c1 ++ [45]).
  all: try part (c1 ++ 45 :: c2 ++ [45]).
  all: try part (c1 ++ 45 :: c2 ++ 45 :: c3 ++ [45]).
  all: try part (c1 ++ 45 :: c2 ++ 45 :: c3 ++ 45 :: c4 ++ [45]).
  all: try part (c1 ++ 45 :: c2 ++ 45 :: c3 ++ 45 :: c4 ++ 45 :: c5 ++ [45]).
  all: try part (c1 ++ 45 :: c2 ++ 45 :: c3 ++ 45 :: c4 ++ 45 :: c5 ++ 45 :: c6 ++ [45]).
Qed.

Lemma wheel_parts_more c1 c2 c3 c4 c5 c6 c7 c8 l f :
  Forall (fun c => 45 ∉ c) [c1; c2; c3; c4; c5; c6; c7] ->
  wheel_parts (dashed (c1 :: c2 :: c3 :: c4 :: c5 :: c6 :: c7 :: c8 :: l)) f =
    parts_of (c1 :: c2 :: c3 :: c4 :: c5 :: c6 :: c7 :: c8 :: l) f.
Proof.
  intros F. split_forall. unfold wheel_parts. rewrite memchr_iter_positions.
  change (dashed (c1 :: c2 :: c3 :: c4 :: c5 :: c6 :: c7 :: c8 :: l)) with
    (c1 ++ 45 :: c2 ++ 45 :: c3 ++ 45 :: c4 ++ 45 :: c5 ++ 45 :: c6 ++ 45 :: c7 ++ 45 :: dashed (c8 :: l)).
  by rewrite !positions_app by done.
Qed.

Lemma wheel_parts_spec stem filename :
  wheel_parts stem filename = parts_of (split_char 45 stem) filename.
Proof.
  destruct (split_char_dashed stem) as (Hne & E & F). set (cs := split_char 45 stem) in *.
  rewrite <- E. clearbody cs. clear E stem.
  destruct cs as [|c1 [|c2 [|c3 [|c4 [|c5 [|c6 [|c7 [|c8 l]]]]]]]]; [done|..].
  1-4: unfold wheel_parts; rewrite memchr_iter_positions; split_forall; cbn [dashed];
    by rewrite ?positions_app, positions_none by done.
  - by apply wheel_parts_five.
  - by apply wheel_parts_six.
  - by apply wheel_parts_seven.
  - apply wheel_parts_more. split_forall. by repeat constructor.
Qed.
End Parts.

(** ** The round trip *)

Lemma split_char_of_dashed cs :
  cs <> [] -> Forall (fun c => 45 ∉ c) cs -> split_char 45 (dashed cs) = cs.
Proof.
  induction cs as [|c cs IH]; [done|]. intros _ (Hc & Hcs)%Forall_cons.
  destruct cs as [|d cs]; [by apply split_char_none|].
  change (dashed (c :: d :: cs)) with (c ++ 45 :: dashed (d :: cs)).
  rewrite split_char_cons by done. by rewrite IH.
Qed.

(** An accepted component is accepted in any file name. *)
Lemma parse_tags_filename {T E} (f : list Z -> result T E) fn fn' items : forall acc l,
  parse_tags f fn items acc = Ok l -> parse_tags f fn' items acc = Ok l.
Proof.
  induction items as [|tag items IH]; intros acc l; [done|]. cbn [parse_tags].
  destruct tag; [done|]. destruct (negb _); [done|]. apply IH.
Qed.

Section RoundTrip.
Context {BF : Bitflags} {BL : BitflagsLaws} {MC : Memchr} {ML : MemchrLaws}.

Lemma parse_large_filename {T E} (f : list Z -> result T E) c fn fn' l :
  parse_large_tag_component f c fn = Ok l -> parse_large_tag_component f c fn' = Ok l.
Proof. unfold parse_large_tag_component. destruct c; [done|]. apply parse_tags_filename. Qed.

Lemma parse_wheel_tags_filename parts b v fn fn' t :
  parse_wheel_tags parts b v fn = Ok t -> parse_wheel_tags parts b v fn' = Ok t.
Proof.
  unfold parse_wheel_tags. destruct (try_small parts); [done|]. intros E. result_inv E.
  injection E as <-.
  repeat match goal with
         | G : parse_large_tag_component _ _ fn = Ok _ |- _ =>
             apply (parse_large_filename _ _ fn fn') in G; rewrite G; clear G; cbn [result_bind]
         end. done.
Qed.

(** What is parsed after the version. *)
Definition parse_rest (parts : WheelParts) (filename : list Z) : result WheelTag WheelFilenameError :=
  let? build_tag := transpose (fun build_tag =>
    map_err (InvalidBuildTag filename) (build_tag_from_str build_tag)) (part_build_tag parts) in
  let? variant := transpose (fun variant =>
    map_err (InvalidLabel filename) (variant_label_try_from variant)) (part_variant parts) in
  parse_wheel_tags parts build_tag variant filename.

Lemma transpose_filename {A B E} (f g : A -> result B E) o b :
  (forall a b, f a = Ok b -> g a = Ok b) -> transpose f o = Ok b -> transpose g o = Ok b.
Proof.
  intros H. destruct o as [a|]; cbn; [|done]. intros E1. result_inv E1. injection E1 as <-.
  by erewrite H.
Qed.

Lemma map_err_filename {A E F} (f g : E -> F) (r : result A E) a :
  map_err f r = Ok a -> map_err g r = Ok a.
Proof. by destruct r. Qed.

Lemma parse_rest_filename parts fn fn' t : parse_rest parts fn = Ok t -> parse_rest parts fn' = Ok t.
Proof.
  unfold parse_rest. intros E. result_inv E.
  match goal with
  | G1 : transpose _ (part_build_tag _) = Ok _, G2 : transpose _ (part_variant _) = Ok _ |- _ =>
      rewrite (transpose_filename _ _ _ _ (fun a b => map_err_filename _ _ _ b) G1); cbn [result_bind];
      rewrite (transpose_filename _ _ _ _ (fun a b => map_err_filename _ _ _ b) G2); cbn [result_bind]
  end.
  by eapply parse_wheel_tags_filename.
Qed.

Lemma wheel_parse_Ok stem filename hint w :
  wheel_parse stem filename hint = Some (Ok w) <->
    exists parts, wheel_parts stem filename = Ok parts /\
      starts_with_digit (part_python_tag parts) = false /\
      parse_wheel_name (part_name parts) hint filename = Ok (wheel_name w) /\
      version_from_str (part_version parts) = Done (wheel_version w) /\
      parse_rest parts filename = Ok (wheel_tags w).
Proof.
  unfold wheel_parse, parse_rest. split.
  - destruct (wheel_parts stem filename) as [parts|] eqn:Ep; [|done].
    destruct (starts_with_digit _) eqn:Ed; [done|].
    destruct (parse_wheel_name _ _ _) as [n|] eqn:En; [|done].
    destruct (version_from_str _) as [v| |] eqn:Ev; [|done|done]. intros [= E]. result_inv E.
    injection E as <-. exists parts. split_and!; try done. cbn.
    repeat match goal with G : _ = Ok _ |- _ => rewrite G; clear G; cbn [result_bind] end. done.
  - intros (parts & -> & -> & -> & -> & E). f_equal. result_inv E.
    repeat match goal with G : _ = Ok _ |- _ => rewrite G; clear G; cbn [result_bind] end.
    by destruct w.
Qed.

Lemma parse_rest_large parts fn l :
  parse_rest parts fn = Ok (WheelLarge l) -> large_repr l = part_repr parts.
Proof.
  unfold parse_rest, parse_wheel_tags. intros E. result_inv E. destruct (try_small parts); [done|].
  result_inv E. by injection E as <-.
Qed.

Lemma parse_rest_small parts fn s :
  parse_rest parts fn = Ok (WheelSmall s) -> try_small parts = Some s.
Proof.
  unfold parse_rest, parse_wheel_tags. intros E. result_inv E. destruct (try_small parts).
  - by injection E as <-.
  - result_inv E. done.
Qed.

Lemma try_small_Some parts s :
  try_small parts = Some s ->
  part_is_small parts = true /\
  language_tag_wf (small_python_tag s) /\ abi_tag_wf (small_abi_tag s) /\
  platform_tag_wf (small_platform_tag s).
Proof.
  unfold try_small. destruct (part_is_small parts); [|done].
  destruct (language_tag_from_str _) eqn:E1; [|done]. destruct (abi_tag_from_str _) eqn:E2; [|done].
  destruct (platform_tag_from_str _) eqn:E3; [|done]. intros [= <-]. cbn.
  split_and!; [done|by eapply language_tag_from_str_wf|by eapply abi_tag_from_str_wf|].
  by eapply platform_tag_from_str_wf.
Qed.

(** The components of a printed tag. *)
Definition small_components (s : WheelTagSmall) : list (list Z) :=
  [language_tag_display (small_python_tag s); abi_tag_display (small_abi_tag s);
   platform_tag_display (small_platform_tag s)].

Lemma small_components_text parts s :
  try_small parts = Some s -> Forall tag_text (small_components s).
Proof.
  intros (_ & ? & ? & ?)%try_small_Some.
  repeat constructor; [by apply language_tag_text|by apply abi_tag_text|by apply platform_tag_text].
Qed.

Lemma small_tail parts s n v fn :
  try_small parts = Some s ->
  exists parts', parts_of (n :: v :: small_components s) fn = Ok parts' /\
    part_name parts' = n /\ part_version parts' = v /\
    starts_with_digit (part_python_tag parts') = false /\
    parse_rest parts' fn = Ok (WheelSmall s).
Proof.
  intros E. pose proof (small_components_text _ _ E) as T. eexists. split; [done|].
  destruct (try_small_Some _ _ E) as (_ & W1 & W2 & W3). split_and!; [done|done| |].
  - cbn. by destruct (language_tag_head (small_python_tag s)) as (c & l & -> & Hc).
  - unfold parse_rest, parse_wheel_tags, try_small. cbn [parts_of tail_of small_components
      part_build_tag part_variant transpose result_bind part_is_small part_python_tag part_abi_tag
      part_platform_tag tail_build_tag tail_python_tag tail_abi_tag tail_platform_tag tail_variant].
    assert (tail_small (small_components s) = true) as ->.
    { unfold tail_small. apply andb_true_iff. split; [done|]. apply forallb_forall.
      intros c Hc%list_elem_of_In. apply bool_decide_eq_true.
      rewrite Forall_forall in T. by apply (tag_text_not_in 46), T. }
    rewrite language_tag_display_parse, abi_tag_display_parse, platform_tag_display_parse by done.
    by destruct s.
Qed.

(** What was parsed after the version is parsed again from its text. *)
Lemma tail_roundtrip n v tail fn parts t :
  Forall (fun c => 45 ∉ c) tail -> parts_of (n :: v :: tail) fn = Ok parts ->
  starts_with_digit (part_python_tag parts) = false -> parse_rest parts fn = Ok t ->
  exists tail', dashed tail' = wheel_tag_display t /\ tail' <> [] /\ Forall (fun c => 45 ∉ c) tail' /\
    forall n' v' fn', exists parts',
      parts_of (n' :: v' :: tail') fn' = Ok parts' /\ part_name parts' = n' /\
      part_version parts' = v' /\ starts_with_digit (part_python_tag parts') = false /\
      parse_rest parts' fn' = Ok t.
Proof.
  intros Nd Ep Hd Et. destruct t as [s|l].
  - pose proof (parse_rest_small _ _ _ Et) as Es. exists (small_components s).
    split_and!; [done|done| |intros; by eapply small_tail].
    eapply Forall_impl; [by eapply small_components_text|]. intros c. by apply tag_text_not_in.
  - exists tail. pose proof (parse_rest_large _ _ _ Et) as El. cbn [parts_of] in Ep.
    destruct (tail_of tail) as [tl|] eqn:Etl; [|done]. injection Ep as <-.
    split_and!; [cbn; by rewrite El|by destruct tail|done|].
    intros n' v' fn'. cbn [parts_of]. rewrite Etl. eexists. split_and!; [done..|].
    by apply (parse_rest_filename _ fn fn') in Et.
Qed.

Lemma version_no_dash v : version_parsed v -> 45 ∉ version_display v.
Proof.
  intros H%version_display_chars Hin. unfold version_text in H. rewrite Forall_forall in H.
  by specialize (H _ Hin).
Qed.

(** The names and versions a stem is made of. *)
Lemma wheel_parse_parts stem fn hint w :
  wheel_parse stem fn hint = Some (Ok w) ->
  exists n v tail parts, split_char 45 stem = n :: v :: tail /\
    parts_of (n :: v :: tail) fn = Ok parts /\
    starts_with_digit (part_python_tag parts) = false /\
    parse_wheel_name n hint fn = Ok (wheel_name w) /\
    version_from_str v = Done (wheel_version w) /\ parse_rest parts fn = Ok (wheel_tags w).
Proof.
  intros (parts & Ep & Hd & En & Ev & Et)%wheel_parse_Ok. rewrite wheel_parts_spec in Ep.
  destruct (split_char 45 stem) as [|n [|v tail]]; [done..|]. exists n, v, tail, parts.
  assert (part_name parts = n /\ part_version parts = v) as [<- <-]; [|done].
  cbn [parts_of] in Ep. destruct (tail_of tail); [|done]. by injection Ep as <-.
Qed.

Lemma wheel_parsed_version stem fn hint w :
  Forall is_u8 stem -> wheel_parse stem fn hint = Some (Ok w) -> version_parsed (wheel_version w).
Proof.
  intros B (n & v & tail & parts & Es & _ & _ & _ & Ev & _)%wheel_parse_parts.
  apply (split_char_forall is_u8 45) in B. rewrite Es in B. split_forall.
  pose proof (version_from_str_returns v ltac:(done)) as R. by rewrite Ev in R.
Qed.

Lemma wheel_parse_roundtrip stem fn w :
  Forall is_u8 stem -> wheel_parse stem fn None = Some (Ok w) ->
  forall fn', exists w', wheel_parse (wheel_stem w) fn' None = Some (Ok w') /\
    wheel_name w' = wheel_name w /\ wheel_tags w' = wheel_tags w /\
    version_make_full (wheel_version w') = version_make_full (wheel_version w).
Proof.
  intros B E fn'. pose proof (wheel_parsed_version _ _ _ _ B E) as Vp.
  apply wheel_parse_parts in E as (n & v & tail & parts & Es & Ep & Hd & En & Ev & Et).
  destruct (split_char_dashed stem) as (_ & _ & Nd). rewrite Es in Nd.
  apply Forall_cons in Nd as [_ Nd]. apply Forall_cons in Nd as [_ Nd].
  destruct (tail_roundtrip _ _ _ _ _ _ Nd Ep Hd Et) as (tail' & Ed & Hne & Nd' & P).
  destruct (dist_info_roundtrip (wheel_name w)) as [Hn Hnd].
  { cbn in En. apply map_err_Ok in En. by eapply validate_normalized. }
  destruct (display_parse (wheel_version w) Vp) as (vw & Evw & _ & Efull).
  exists (mkWheel (wheel_name w) vw (wheel_tags w)). split; [|done].
  apply wheel_parse_Ok. rewrite wheel_parts_spec.
  assert (split_char 45 (wheel_stem w) =
    as_dist_info_name (wheel_name w) :: version_display (wheel_version w) :: tail') as ->.
  { unfold wheel_stem. change (bytes "-") with [45]. cbn [app].
    rewrite split_char_cons by done. rewrite split_char_cons by (by apply version_no_dash).
    by rewrite <- Ed, split_char_of_dashed. }
  destruct (P (as_dist_info_name (wheel_name w)) (version_display (wheel_version w)) fn')
    as (parts' & Ep' & Pn & Pv & Hd' & Et').
  exists parts'. rewrite Pn, Pv. cbn. split_and!; try done. unfold package_name_from_str in *.
  by rewrite Hn.
Qed.

Lemma wheel_display_stem w : wheel_display w = wheel_stem w ++ bytes ".whl".
Proof. unfold wheel_display, wheel_stem. by rewrite <- !app_assoc. Qed.

Lemma wheel_roundtrip f w :
  Forall is_u8 f -> wheel_from_str f = Some (Ok w) ->
  exists w', wheel_from_str (wheel_display w) = Some (Ok w') /\
    wheel_name w' = wheel_name w /\ wheel_tags w' = wheel_tags w /\
    version_make_full (wheel_version w') = version_make_full (wheel_version w).
Proof.
  unfold wheel_from_str, parse_filename. intros B.
  destruct (strip_suffix (bytes ".whl") f) as [stem|] eqn:Es; [|done].
  apply strip_suffix_Some in Es as ->. apply Forall_app in B as [B _].
  intros E. rewrite wheel_display_stem, strip_suffix_app. by eapply wheel_parse_roundtrip.
Qed.

(** The parser does not panic. *)
Lemma wheel_parse_total f hint : Forall is_u8 f -> parse_filename f hint <> None.
Proof.
  intros B. unfold parse_filename. destruct (strip_suffix (bytes ".whl") f) as [stem|] eqn:Es; [|done].
  apply strip_suffix_Some in Es as ->. apply Forall_app in B as [B _]. unfold wheel_parse.
  rewrite wheel_parts_spec. destruct (parts_of _ _) as [parts|] eqn:Ep; [|done].
  destruct (starts_with_digit _); [done|]. destruct (parse_wheel_name _ _ _); [|done].
  apply (split_char_forall is_u8 45) in B.
  assert (Forall is_u8 (part_version parts)) as Bv.
  { destruct (split_char 45 stem) as [|n [|v tail]]; [done..|]. cbn in Ep. split_forall.
    destruct (tail_of tail); [|done]. by injection Ep as <-. }
  pose proof (version_from_str_returns _ Bv) as R. by destruct (version_from_str _).
Qed.
End RoundTrip.

(** ** The hint *)

Definition match_byte (byte : Z) : Z :=
  if is_ascii_uppercase byte then to_ascii_lowercase byte
  else if (byte =? 95) || (byte =? 46) then 45 else byte.

Lemma match_byte_cases c :
  (is_ascii_uppercase c = true /\ match_byte c = c + 32) \/
  ((c = 95 \/ c = 46) /\ match_byte c = 45) \/
  (is_ascii_uppercase c = false /\ c <> 95 /\ c <> 46 /\ match_byte c = c).
Proof.
  unfold match_byte, to_ascii_lowercase. destruct (is_ascii_uppercase c) eqn:E; [by left|]. right.
  destruct (Z.eqb_spec c 95); [by left; auto|]. destruct (Z.eqb_spec c 46); [by left; auto|]. by right.
Qed.

Lemma match_byte_props c :
  is_punctuation (match_byte c) = is_punctuation c /\ valid_byte (match_byte c) = valid_byte c /\
  (is_punctuation c = false -> to_ascii_lowercase (match_byte c) = to_ascii_lowercase c).
Proof.
  destruct (match_byte_cases c) as [[U ->]|[[C ->]|(U & C1 & C2 & ->)]].
  - assert (c + 32 = to_ascii_lowercase c) as -> by (unfold to_ascii_lowercase; by rewrite U).
    rewrite lower_punctuation. split_and!; [done| |intros; apply lower_lower].
    unfold valid_byte. rewrite lower_punctuation. f_equal.
    unfold to_ascii_lowercase. rewrite U. unfold is_ascii_alphanumeric, is_ascii_uppercase,
      is_ascii_lowercase, is_ascii_digit in *. lia.
  - by destruct C as [-> | ->].
  - done.
Qed.

Lemma collapse_match s : forall p, collapse p (match_byte <$> s) = collapse p s.
Proof.
  induction s as [|c s IH]; intros p; [done|]. rewrite fmap_cons. cbn [collapse].
  destruct (match_byte_props c) as (-> & _ & L). destruct (is_punctuation c); [by rewrite IH|].
  by rewrite L, IH.
Qed.

Lemma valid_match s : valid_name (match_byte <$> s) = valid_name s.
Proof.
  unfold valid_name. f_equal; [f_equal|].
  - induction s as [|c s IH]; [done|]. cbn. by rewrite IH, (proj1 (proj2 (match_byte_props c))).
  - destruct s as [|c s]; [done|]. cbn. by rewrite (proj1 (match_byte_props c)).
  - rewrite fmap_last. destruct (last s) as [c|]; [|done]. cbn. by rewrite (proj1 (match_byte_props c)).
Qed.

(** A name that matches the hint is normalised to it. *)
Lemma hint_matches actual expected :
  normalized_name expected -> normalized_package_name_matches actual expected = true ->
  package_name_from_str actual = Ok expected.
Proof.
  unfold normalized_package_name_matches, package_name_from_str, normalized_name.
  rewrite !validate_is_normalize, !normalize_collapse. intros H E%bool_decide_eq_true.
  change (match_byte <$> actual = expected) in E. subst expected.
  rewrite valid_match, collapse_match in H. by destruct (valid_name actual).
Qed.

Lemma parse_wheel_name_hint n hint fn :
  normalized_name hint -> parse_wheel_name n (Some hint) fn = parse_wheel_name n None fn.
Proof.
  intros H. cbn. destruct (normalized_package_name_matches n hint) eqn:E; [|done].
  by rewrite (hint_matches _ _ H E).
Qed.

Section Compat.
Context {BF : Bitflags} {MC : Memchr}.

Lemma wheel_hint f hint :
  normalized_name hint -> wheel_from_hint f hint = wheel_from_str f.
Proof.
  intros H. unfold wheel_from_hint, wheel_from_str, parse_filename, wheel_parse.
  destruct (strip_suffix _ f); [|done]. destruct (wheel_parts _ _); [|done].
  by rewrite parse_wheel_name_hint.
Qed.

(** ** Compatibility of wheels *)

Lemma wheel_tag_compatibility_compressed t tags :
  wheel_tag_compatibility t tags = compatibility tags (compressed_tags t).
Proof. destruct t as [s|l]; [|done]. apply compatibility_tag_singleton. Qed.

Lemma wheel_compatible_agree w tags :
  freethreaded_consistent tags ->
  wheel_is_compatible w tags = tag_is_compatible (wheel_compatibility w tags).
Proof.
  intros C. unfold wheel_is_compatible, wheel_compatibility, tag_compatibility.
  destruct (wheel_variant w); [done|]. rewrite wheel_tag_compatibility_compressed.
  rewrite bool_decide_eq_true_2, andb_true_l by done. by apply compatible_agree.
Qed.

Lemma tag_max_compatible a b :
  tag_is_compatible (tag_max a b) = tag_is_compatible a || tag_is_compatible b.
Proof.
  unfold tag_max. destruct a as [s|p], b as [t|q]; cbn [tag_compatibility_cmp];
    repeat case_match; done.
Qed.

Lemma foldl_max_compatible l : forall a,
  tag_is_compatible (foldl tag_max a l) = tag_is_compatible a || existsb tag_is_compatible l.
Proof.
  induction l as [|b l IH]; intros a; cbn [foldl existsb]; [by rewrite orb_false_r|].
  by rewrite IH, tag_max_compatible, orb_assoc.
Qed.

(** A [WHEEL] file is compatible if one of its rows is. *)
Lemma expanded_compatible_agree ts tags :
  freethreaded_consistent tags ->
  expanded_is_compatible ts tags = tag_is_compatible (expanded_compatibility ts tags).
Proof.
  intros C. unfold expanded_is_compatible, expanded_compatibility.
  assert (forall l, existsb tag_is_compatible ((fun t => wheel_tag_compatibility t tags) <$> l) =
    existsb (fun t => is_compatible tags (compressed_tags t)) l) as E.
  { induction l as [|t l IH]; [done|]. rewrite fmap_cons. cbn [existsb].
    by rewrite IH, wheel_tag_compatibility_compressed, <- compatible_agree. }
  destruct ts as [|t [|t' ts]]; [done|..].
  - cbn [existsb]. by rewrite orb_false_r, wheel_tag_compatibility_compressed, compatible_agree.
  - rewrite foldl_max_compatible, E. cbn [existsb].
    by rewrite wheel_tag_compatibility_compressed, <- compatible_agree.
Qed.

(** The best of the rows, never a combination of two. *)
Lemma expanded_compatibility_best t t' ts tags :
  let rows := t :: t' :: ts in
  (exists r, r ∈ rows /\
     expanded_compatibility rows tags = compatibility tags (compressed_tags r)) /\
  forall r, r ∈ rows -> tag_le (compatibility tags (compressed_tags r)) (expanded_compatibility rows tags).
Proof.
  intros rows. unfold rows, expanded_compatibility.
  set (c := fun t => wheel_tag_compatibility t tags).
  destruct (foldl_tag_max (c <$> t' :: ts) (c t)) as (H1 & H2 & H3). split.
  - apply elem_of_cons in H1 as [E|E]; [exists t|].
    + split; [left|]. unfold c in *. by rewrite E, wheel_tag_compatibility_compressed.
    + apply list_elem_of_fmap in E as (r & E & Hr). exists r. split; [by right|].
      by rewrite <- wheel_tag_compatibility_compressed.
  - intros r [->|Hr]%elem_of_cons; rewrite <- wheel_tag_compatibility_compressed; [done|].
    apply H3, list_elem_of_fmap. by exists r.
Qed.
End Compat.

(** ** Cache keys *)

Lemma trim_end_length s : (length (trim_end_dots s) <= length s)%nat.
Proof.
  unfold trim_end_dots. rewrite length_reverse, <- (length_reverse s).
  induction (reverse s) as [|c l IH]; cbn; [done|]. destruct (_ || _); cbn; lia.
Qed.

Lemma cache_key_length `{!Bitflags, !Digest, !DigestLaws} w : (length (wheel_cache_key w) <= 64)%nat.
Proof.
  unfold wheel_cache_key. destruct (Nat.leb_spec (length (version_display (wheel_version w) ++
    bytes "-" ++ wheel_tag_display (wheel_tags w))) CACHE_KEY_MAX_LEN) as [L|L]; [done|].
  rewrite !length_app. unfold cache_digest_str, to_hex. rewrite hex_encode_length.
  unfold to_le_bytes. rewrite length_fmap, length_seq. cbn [length bytes].
  pose proof (trim_end_length (take (CACHE_KEY_MAX_LEN - 1 - 16) (version_display (wheel_version w)))) as T.
  rewrite length_take in T. change (CACHE_KEY_MAX_LEN - 1 - 16)%nat with 47%nat in *. lia.
Qed.

(** ** Splitting *)

(** The pieces between the delimiters, without an empty last one. *)
Definition drop_empty_last (pieces : list (list Z)) : list (list Z) :=
  match last pieces with
  | Some [] => take (length pieces - 1) pieces
  | _ => pieces
  end.

Lemma drop_empty_last_cons p q ps : drop_empty_last (p :: q :: ps) = p :: drop_empty_last (q :: ps).
Proof.
  unfold drop_empty_last. change (last (p :: q :: ps)) with (last (q :: ps)).
  destruct (last (q :: ps)) as [[|]|]; [|done|done]. cbn [length].
  by replace (S (S (length ps)) - 1)%nat with (S (length ps - 0)) by lia.
Qed.

(** The iterator at an offset. *)
Lemma splitter_items_spec h d : forall l k,
  drop k h = l -> (k <= length h)%nat ->
  splitter_items (length (positions k d l) + 2) (mkSplitter (positions k d l) h k) =
    drop_empty_last (split_char d l).
Proof.
  intros l. remember (length l) as n eqn:Hn. revert l Hn.
  induction (lt_wf n) as [n _ IH]. intros l Hn k Hk Hle.
  destruct (decide (d ∈ l)) as [Hin|Hout].
  - destruct (split_once d l) as [[a b]|] eqn:Es; [|by apply split_once_None in Es].
    apply split_once_Some in Es as [-> Ha]. rewrite positions_app, split_char_cons by done.
    cbn [length Nat.add splitter_items splitter_next splitter_memchr splitter_offset splitter_haystack].
    destruct (split_char d b) as [|q ps] eqn:Eb; [by apply split_char_append in Eb|].
    rewrite drop_empty_last_cons, <- Eb. f_equal.
    + unfold slice. rewrite <- take_drop_commute, Hk. by rewrite take_app_length.
    + rewrite <- (IH (length b)) with (k := (k + length a + 1)%nat); [done| |done| |].
      * rewrite Hn, length_app. cbn. lia.
      * rewrite <- Nat.add_assoc, <- drop_drop, Hk.
        rewrite drop_app_ge by lia. by replace (length a + 1 - length a)%nat with 1%nat by lia.
      * assert (length (drop k h) = (length h - k)%nat) as L by apply length_drop.
        rewrite Hk, length_app in L. cbn in L. lia.
  - rewrite positions_none, split_char_none by done.
    cbn [length Nat.add splitter_items splitter_next splitter_memchr splitter_offset splitter_haystack].
    assert (length l = (length h - k)%nat) as L by (rewrite <- Hk; apply length_drop).
    unfold drop_empty_last. cbn [last]. destruct l as [|x l].
    + destruct (Nat.ltb_spec k (length h)); [cbn in L; lia|done].
    + cbn in L. destruct (Nat.ltb_spec k (length h)); [|lia]. rewrite Hk.
      unfold splitter_next. cbn [splitter_memchr splitter_offset splitter_haystack].
      by rewrite Nat.ltb_irrefl.
Qed.

Lemma splitter_collect_spec `{!Memchr, !MemchrLaws} h d :
  splitter_collect h d = drop_empty_last (split_char d h).
Proof.
  unfold splitter_collect, splitter_split. cbn [splitter_memchr].
  rewrite memchr_iter_positions. apply splitter_items_spec; [apply drop_0|lia].
Qed.

(** ** Build tags *)

Lemma build_tag_loop_some bs : forall i j,
  build_tag_loop bs i (Some j) =
    if forallb is_build_tag_byte bs then Ok (Some j) else Err BuildInvalidCharacters.
Proof.
  induction bs as [|b bs IH]; intros i j; cbn; [done|]. by destruct (is_build_tag_byte b); cbn.
Qed.

Lemma build_tag_loop_spec bs : forall i,
  build_tag_loop bs i None =
    if forallb is_build_tag_byte bs then
      Ok (match skip_while is_ascii_digit bs with
          | [] => None
          | _ :: _ => Some (i + length (take_while is_ascii_digit bs))%nat
          end)
    else Err BuildInvalidCharacters.
Proof.
  induction bs as [|b bs IH]; intros i; cbn; [done|]. destruct (is_build_tag_byte b); [|done].
  cbn [negb andb]. destruct (is_ascii_digit b) eqn:D; cbn [negb].
  - rewrite IH. destruct (forallb _ bs); [|done]. destruct (skip_while _ bs); [done|].
    f_equal. f_equal. cbn. lia.
  - rewrite build_tag_loop_some. destruct (forallb _ bs); [|done]. f_equal. f_equal. cbn. lia.
Qed.

(** A build tag is its digits and the rest. *)
Lemma build_tag_from_str_spec s :
  build_tag_from_str s =
    if bool_decide (s = []) then Err BuildEmpty
    else if negb (forallb is_build_tag_byte s) then Err BuildInvalidCharacters
    else if negb (starts_with_digit s) then Err BuildNoLeadingDigit
    else match parse_unsigned U64_MAX (take_while is_ascii_digit s) with
         | None => Err BuildParseInt
         | Some n =>
             let rest := skip_while is_ascii_digit s in
             Ok (mkBuildTag n (if bool_decide (rest = []) then None else Some rest))
         end.
Proof.
  destruct s as [|c s]; [done|]. unfold build_tag_from_str. rewrite build_tag_loop_spec.
  rewrite bool_decide_eq_false_2 by done. set (l := c :: s). destruct (forallb _ l); [|done].
  cbn [negb result_bind Nat.add]. pose proof (take_skip_while is_ascii_digit l) as E.
  assert (starts_with_digit l = negb (bool_decide (take_while is_ascii_digit l = []))) as ->.
  { unfold l. cbn. by destruct (is_ascii_digit c). }
  destruct (skip_while is_ascii_digit l) as [|d r] eqn:Es.
  - rewrite app_nil_r in E. rewrite E. cbn [result_bind]. unfold l at 2. cbn [bool_decide negb].
    rewrite bool_decide_eq_false_2 by done. cbn [negb].
    destruct (parse_unsigned U64_MAX l); done.
  - destruct (take_while is_ascii_digit l) as [|x p] eqn:Et; [done|]. cbn [length result_bind].
    rewrite bool_decide_eq_false_2 by done. cbn [negb].
    assert (take (S (length p)) l = x :: p /\ drop (S (length p)) l = d :: r) as [-> ->].
    { rewrite <- E. split; [by apply take_app_length'|by apply drop_app_length']. }
    by destruct (parse_unsigned U64_MAX (x :: p)).
Qed.

Lemma skip_while_head {A} (p : A -> bool) l : from_option (fun b => p b = false) True (head (skip_while p l)).
Proof. induction l as [|x l IH]; cbn; [done|]. by destruct (p x) eqn:E; cbn. Qed.

Lemma build_tag_roundtrip s t :
  build_tag_from_str s = Ok t -> build_tag_from_str (build_tag_display t) = Ok t.
Proof.
  rewrite !build_tag_from_str_spec. destruct (bool_decide (s = [])) eqn:E1; [done|].
  destruct (forallb is_build_tag_byte s) eqn:E2; [|done]. destruct (starts_with_digit s) eqn:E3; [|done].
  cbn [negb]. destruct (parse_unsigned U64_MAX _) as [n|] eqn:E4; [|done]. intros [= <-].
  apply parse_unsigned_range in E4 as Hn; [|unfold U64_MAX; lia].
  pose proof (take_skip_while is_ascii_digit s) as Es.
  set (q := skip_while is_ascii_digit s) in *.
  assert (build_tag_display (mkBuildTag n (if bool_decide (q = []) then None else Some q)) =
          print_u64 n ++ q) as -> by (unfold build_tag_display; destruct q; [by rewrite app_nil_r|done]).
  pose proof (print_u64_digits n Hn) as D.
  assert (print_u64 n <> []) as Hne by apply (print_u64_spec n Hn).
  destruct (take_while_app is_ascii_digit (print_u64 n) q) as [-> ->]; [done|apply skip_while_head|].
  rewrite bool_decide_eq_false_2 by (by intros [? ?]%app_nil).
  assert (forallb is_build_tag_byte (print_u64 n ++ q) = true) as ->.
  { rewrite forallb_app. apply andb_true_iff. split.
    - apply forallb_forall. intros c Hc%list_elem_of_In. rewrite Forall_forall in D.
      unfold is_build_tag_byte, is_ascii_alphanumeric. by rewrite (D c Hc).
    - rewrite <- Es, forallb_app in E2. by apply andb_true_iff in E2 as [_ ?]. }
  assert (starts_with_digit (print_u64 n ++ q) = true) as ->.
  { destruct (print_u64 n) as [|c l]; [done|]. cbn. by apply Forall_cons in D as [? _]. }
  cbn [negb]. by rewrite parse_unsigned_print.
Qed.
