(* ===== verification/SourceDist.v ===== *)
(** * Source distribution and egg filenames

    [crates/uv-distribution-filename/src]: file extensions ([extension.rs]), names of source
    distributions ([source_dist.rs]) and of [.egg-info] files ([egg.rs]), and names of either kind
    of distribution ([lib.rs]). A string is its list of bytes. *)

From stdpp Require Import base countable list option numbers decidable strings gmap.
From Stdlib Require Import ZArith Lia.
From S2P Require Import Prelude Text Libraries VersionTypes VersionSmall Version VersionParser.
From S2P Require Import VersionDisplay SpecifierParser Normalize LanguageTag AbiTag Platform PlatformTag.
From S2P Require Import Tags WheelFilename VersionOrder VersionParserFacts VersionDisplay WheelFacts.

Local Open Scope Z_scope.
Local Open Scope uv_scope.

(** ** Paths *)

(** [Path::file_name]: the last component, unless it is [..]; empty components and [.] are passed
    over. *)
Definition path_components (path : list Z) : list (list Z) :=
  List.filter (fun c => negb (bool_decide (c = []) || bool_decide (c = bytes "."))) (split_char 47 path).

Definition file_name (path : list Z) : option (list Z) :=
  match last (path_components path) with
  | Some name => if decide (name = bytes "..") then None else Some name
  | None => None
  end.

(** The name before and after its last dot; a name whose only dot comes first has no extension. *)
Definition rsplit_file_at_dot (name : list Z) : option (list Z) * option (list Z) :=
  match rsplit_once 46 name with
  | Some ([], _) => (Some name, None)
  | Some (before, after) => (Some before, Some after)
  | None => (None, Some name)
  end.

(** [Path::extension]. *)
Definition path_extension (path : list Z) : option (list Z) :=
  name ← file_name path;
  match rsplit_file_at_dot name with
  | (Some _, Some after) => Some after
  | _ => None
  end.

(** [Path::file_stem]. *)
Definition file_stem (path : list Z) : option (list Z) :=
  name ← file_name path;
  match rsplit_file_at_dot name with
  | (Some before, _) => Some before
  | (None, after) => after
  end.

(** ** Extensions *)

Inductive LegacySourceDistExtension : Type :=
| ExtTar | ExtTarBz2 | ExtTarLz | ExtTarLzma | ExtTarXz | ExtTarZst | ExtTbz | ExtTgz | ExtTlz
| ExtTxz | ExtZip.

Inductive SourceDistExtension : Type :=
| TarGz
| Legacy (e : LegacySourceDistExtension).

Inductive DistExtension : Type :=
| ExtWheel
| ExtSource (e : SourceDistExtension).

Inductive ExtensionError : Type := ErrDist | ErrSourceDist.

Definition is_tar (path : list Z) : bool :=
  match file_stem path with
  | Some stem =>
      match path_extension stem with
      | Some ext => bool_decide (to_ascii_lowercase <$> ext = bytes "tar")
      | None => false
      end
  | None => false
  end.

Definition source_dist_extension_from_path (path : list Z) :
    result SourceDistExtension ExtensionError :=
  match path_extension path with
  | None => Err ErrSourceDist
  | Some extension =>
      let tar e := if is_tar path then Ok e else Err ErrSourceDist in
      match match_str extension
        [ ("gz", tar TarGz); ("zip", Ok (Legacy ExtZip)); ("tar", Ok (Legacy ExtTar));
          ("tgz", Ok (Legacy ExtTgz)); ("tbz", Ok (Legacy ExtTbz)); ("txz", Ok (Legacy ExtTxz));
          ("tlz", Ok (Legacy ExtTlz)); ("bz2", tar (Legacy ExtTarBz2)); ("xz", tar (Legacy ExtTarXz));
          ("lz", tar (Legacy ExtTarLz)); ("lzma", tar (Legacy ExtTarLzma));
          ("zst", tar (Legacy ExtTarZst)) ]%string with
      | Some r => r
      | None => Err ErrSourceDist
      end
  end.

Definition dist_extension_from_path (path : list Z) : result DistExtension ExtensionError :=
  match path_extension path with
  | None => Err ErrDist
  | Some extension =>
      if decide (extension = bytes "whl") then Ok ExtWheel
      else
        match source_dist_extension_from_path path with
        | Ok e => Ok (ExtSource e)
        | Err _ => Err ErrDist
        end
  end.

Definition source_dist_extension_name (e : SourceDistExtension) : list Z :=
  match e with
  | TarGz => bytes "tar.gz"
  | Legacy ExtTar => bytes "tar"
  | Legacy ExtTarBz2 => bytes "tar.bz2"
  | Legacy ExtTarLz => bytes "tar.lz"
  | Legacy ExtTarLzma => bytes "tar.lzma"
  | Legacy ExtTarXz => bytes "tar.xz"
  | Legacy ExtTarZst => bytes "tar.zst"
  | Legacy ExtTbz => bytes "tbz"
  | Legacy ExtTgz => bytes "tgz"
  | Legacy ExtTlz => bytes "tlz"
  | Legacy ExtTxz => bytes "txz"
  | Legacy ExtZip => bytes "zip"
  end.

Definition dist_extension_name (e : DistExtension) : list Z :=
  match e with
  | ExtWheel => bytes "whl"
  | ExtSource ext => source_dist_extension_name ext
  end.

Definition is_pep625_compliant (e : SourceDistExtension) : bool :=
  match e with
  | TarGz | Legacy ExtZip => true
  | _ => false
  end.

(** ** Source distributions *)

Record SourceDistFilename : Type := mkSdist {
  sdist_name : list Z;
  sdist_version : Version;
  sdist_extension : SourceDistExtension
}.

Inductive SourceDistFilenameError : Type :=
| SdistFilename (package_name : list Z)
| SdistExtension
| SdistVersion (e : PatternErrorKind)
| SdistPackageName (e : InvalidNameError)
| SdistMinus.

(** [s.get(..n)] and [s.get(n..)]: no slice past the end or inside a character. *)
Definition is_char_boundary (s : list Z) (n : nat) : bool :=
  match s !! n with
  | Some b => negb (is_continuation b)
  | None => bool_decide (n = length s)
  end.
Definition get_to (s : list Z) (n : nat) : option (list Z) :=
  if is_char_boundary s n then Some (take n s) else None.
Definition get_from (s : list Z) (n : nat) : option (list Z) :=
  if is_char_boundary s n then Some (drop n s) else None.

(** The version of a file name; [None] stands for a panic of its parser. *)
Definition sdist_of (name : list Z) (version : list Z) (extension : SourceDistExtension) :
    option (result SourceDistFilename SourceDistFilenameError) :=
  match version_from_str version with
  | Panicked => None
  | Failed err => Some (Err (SdistVersion err))
  | Done version => Some (Ok (mkSdist name version extension))
  end.

Definition sdist_parse (filename : list Z) (extension : SourceDistExtension) (package_name : list Z) :
    option (result SourceDistFilename SourceDistFilenameError) :=
  let suffix_len := (length (source_dist_extension_name extension) + 1)%nat in
  if (length filename <=? suffix_len)%nat then Some (Err SdistExtension)
  else
    match get_to filename (length filename - suffix_len) with
    | None => Some (Err SdistExtension)
    | Some stem =>
        let package_name_len := length package_name in
        if (length stem <=? package_name_len + 1)%nat then Some (Err (SdistFilename package_name))
        else
          match get_to stem package_name_len,
                (suffix ← get_from stem package_name_len; strip_prefix (bytes "-") suffix) with
          | Some actual_package_name, Some version =>
              if negb (normalized_package_name_matches actual_package_name package_name) then
                match package_name_from_str actual_package_name with
                | Err err => Some (Err (SdistPackageName err))
                | Ok _ => Some (Err (SdistFilename package_name))
                end
              else sdist_of package_name version extension
          | _, _ => Some (Err (SdistFilename package_name))
          end
    end.

(** The end of the slice is at the dot of the extension. *)
Definition parsed_normalized_filename (filename : list Z) :
    option (result SourceDistFilename SourceDistFilenameError) :=
  match source_dist_extension_from_path filename with
  | Err _ => Some (Err SdistExtension)
  | Ok extension =>
      let suffix_len := (length (source_dist_extension_name extension) + 1)%nat in
      if (length filename <=? suffix_len)%nat then Some (Err SdistExtension)
      else
        let stem := take (length filename - suffix_len) filename in
        match rsplit_once 45 stem with
        | None => Some (Err SdistMinus)
        | Some (package_name, version) =>
            match package_name_from_str package_name with
            | Err err => Some (Err (SdistPackageName err))
            | Ok package_name => sdist_of package_name version extension
            end
        end
  end.

Definition sdist_display (s : SourceDistFilename) : list Z :=
  as_dist_info_name (sdist_name s) ++ bytes "-" ++ version_display (sdist_version s) ++ bytes "."
    ++ source_dist_extension_name (sdist_extension s).

(** ** Egg-info files *)

Inductive EggInfoFilenameError : Type :=
| EggInvalidExtension (filename : list Z)
| EggMissingPackageName (filename : list Z)
| EggInvalidPackageName (filename : list Z) (e : InvalidNameError)
| EggInvalidVersion (filename : list Z) (e : PatternErrorKind).

Record EggInfoFilename : Type := mkEgg {
  egg_name : list Z;
  egg_version : option Version
}.

Definition egg_parse (stem : list Z) : option (result EggInfoFilename EggInfoFilenameError) :=
  let filename := stem ++ bytes ".egg-info" in
  match split_char 45 stem with
  | [] => Some (Err (EggMissingPackageName filename))
  | name :: parts =>
      match package_name_from_str name with
      | Err e => Some (Err (EggInvalidPackageName filename e))
      | Ok name =>
          match parts with
          | [] => Some (Ok (mkEgg name None))
          | s :: _ =>
              match version_from_str s with
              | Panicked => None
              | Failed e => Some (Err (EggInvalidVersion filename e))
              | Done version => Some (Ok (mkEgg name (Some version)))
              end
          end
      end
  end.

Definition egg_from_str (filename : list Z) : option (result EggInfoFilename EggInfoFilenameError) :=
  match strip_suffix (bytes ".egg-info") filename with
  | None => Some (Err (EggInvalidExtension filename))
  | Some stem => egg_parse stem
  end.

(** ** Distributions of either kind *)

Inductive DistFilename : Type :=
| DistSource (filename : SourceDistFilename)
| DistWheel (filename : WheelFilename).

Inductive DistFilenameError : Type :=
| NoRecognizedExtension (e : ExtensionError)
| InvalidWheel (e : WheelFilenameError)
| InvalidSourceDist (e : SourceDistFilenameError).

(** A result of one kind as a result of either. *)
Definition lift {A B E F : Type} (f : A -> B) (g : E -> F) (r : option (result A E)) :
    option (result B F) :=
  match r with
  | None => None
  | Some (Ok a) => Some (Ok (f a))
  | Some (Err e) => Some (Err (g e))
  end.

Section Dist.
Context `{!Bitflags, !Memchr}.

(** [WheelFilename::from_stem]: the stem has no [.whl] of its own. *)
Definition wheel_from_stem (stem : list Z) : option (result WheelFilename WheelFilenameError) :=
  match path_extension stem with
  | Some ext =>
      if bool_decide (to_ascii_lowercase <$> ext = bytes "whl") then Some (Err (UnexpectedExtension stem))
      else wheel_parse stem stem None
  | None => wheel_parse stem stem None
  end.

Definition try_from_filename_with_reason (filename package_name : list Z) :
    option (result DistFilename DistFilenameError) :=
  match dist_extension_from_path filename with
  | Ok ExtWheel => lift DistWheel InvalidWheel (wheel_from_hint filename package_name)
  | Ok (ExtSource extension) =>
      lift DistSource InvalidSourceDist (sdist_parse filename extension package_name)
  | Err err => Some (Err (NoRecognizedExtension err))
  end.

(** [Result::ok]. *)
Definition ok {A E : Type} (r : option (result A E)) : option (option A) :=
  match r with
  | None => None
  | Some (Ok a) => Some (Some a)
  | Some (Err _) => Some None
  end.

Definition try_from_filename (filename package_name : list Z) : option (option DistFilename) :=
  ok (try_from_filename_with_reason filename package_name).

Definition try_from_normalized_filename (filename : list Z) : option (option DistFilename) :=
  match dist_extension_from_path filename with
  | Ok ExtWheel => ok (lift DistWheel InvalidWheel (wheel_from_str filename))
  | Ok (ExtSource _) => ok (lift DistSource InvalidSourceDist (parsed_normalized_filename filename))
  | Err _ => Some None
  end.

Definition dist_name (d : DistFilename) : list Z :=
  match d with
  | DistSource filename => sdist_name filename
  | DistWheel filename => wheel_name filename
  end.

Definition dist_version (d : DistFilename) : Version :=
  match d with
  | DistSource filename => sdist_version filename
  | DistWheel filename => wheel_version filename
  end.

Definition filetype (d : DistFilename) : list Z :=
  match d with
  | DistSource _ => bytes "sdist"
  | DistWheel _ => bytes "bdist_wheel"
  end.

Definition dist_display (d : DistFilename) : list Z :=
  match d with
  | DistSource filename => sdist_display filename
  | DistWheel filename => wheel_display filename
  end.
End Dist.

(** * Facts about source distribution filenames

    A printed name is read back, with the package name and without it. *)

(** ** Paths *)

Lemma path_components_plain x : x <> [] -> x <> bytes "." -> 47 ∉ x -> path_components x = [x].
Proof.
  intros H1 H2 H3. unfold path_components. rewrite split_char_none by done. cbn.
  by rewrite !bool_decide_eq_false_2.
Qed.

Lemma file_name_plain x :
  x <> [] -> x <> bytes "." -> x <> bytes ".." -> 47 ∉ x -> file_name x = Some x.
Proof.
  intros. unfold file_name. rewrite path_components_plain by done. cbn [last].
  by rewrite decide_False.
Qed.

Lemma rsplit_dot x e : x <> [] -> 46 ∉ e -> rsplit_file_at_dot (x ++ 46 :: e) = (Some x, Some e).
Proof.
  intros Hx He. unfold rsplit_file_at_dot. rewrite rsplit_once_app by done. by destruct x.
Qed.

Lemma path_extension_app x e :
  x <> [] -> e <> [] -> 47 ∉ x -> 47 ∉ e -> 46 ∉ e ->
  path_extension (x ++ 46 :: e) = Some e /\ file_stem (x ++ 46 :: e) = Some x.
Proof.
  intros Hx He Sx Se De. unfold path_extension, file_stem.
  assert (file_name (x ++ 46 :: e) = Some (x ++ 46 :: e)) as ->.
  { apply file_name_plain.
    - by destruct x.
    - destruct x as [|? [|]]; done.
    - destruct x as [|? [|? [|]]]; [done| |done..]. destruct e; [done|]. by intros [=].
    - rewrite elem_of_app, elem_of_cons. naive_solver. }
  cbn [mbind option_bind]. by rewrite rsplit_dot.
Qed.

Lemma literal_not_in c (s : string) : forallb (fun b => negb (b =? c)) (bytes s) = true -> c ∉ bytes s.
Proof.
  intros H Hin. rewrite forallb_forall in H. apply list_elem_of_In in Hin. specialize (H _ Hin).
  by rewrite Z.eqb_refl in H.
Qed.

(** A path that ends in a dot and a literal; two literals with a dot between. *)
Lemma literal_extension x (a : string) :
  x <> [] -> 47 ∉ x -> bytes a <> [] ->
  forallb (fun b => negb (b =? 47)) (bytes a) = true ->
  forallb (fun b => negb (b =? 46)) (bytes a) = true ->
  path_extension (x ++ 46 :: bytes a) = Some (bytes a) /\ file_stem (x ++ 46 :: bytes a) = Some x.
Proof. intros. apply path_extension_app; try done; by apply literal_not_in. Qed.

Lemma tar_extension x (a : string) :
  x <> [] -> 47 ∉ x -> bytes a <> [] ->
  forallb (fun b => negb (b =? 47)) (bytes a) = true ->
  forallb (fun b => negb (b =? 46)) (bytes a) = true ->
  path_extension (x ++ 46 :: bytes "tar" ++ 46 :: bytes a) = Some (bytes a) /\
  is_tar (x ++ 46 :: bytes "tar" ++ 46 :: bytes a) = true.
Proof.
  intros Hx Sx Ha F1 F2.
  assert (x ++ 46 :: bytes "tar" ++ 46 :: bytes a = (x ++ 46 :: bytes "tar") ++ 46 :: bytes a) as ->
    by (by rewrite <- app_assoc).
  destruct (literal_extension (x ++ 46 :: bytes "tar") a) as [-> Es]; try done.
  - by destruct x.
  - rewrite elem_of_app, elem_of_cons. pose proof (literal_not_in 47 "tar" eq_refl). naive_solver.
  - split; [done|]. unfold is_tar. rewrite Es.
    destruct (literal_extension x "tar") as [-> _]; done.
Qed.

(** The extension of a path is the one that was appended. *)
Lemma extension_from_path x e :
  x <> [] -> 47 ∉ x ->
  source_dist_extension_from_path (x ++ bytes "." ++ source_dist_extension_name e) = Ok e.
Proof.
  intros Hx Sx. unfold source_dist_extension_from_path. change (bytes ".") with [46]. cbn [app].
  assert (forall a : string, bytes a <> [] ->
    forallb (fun b => negb (b =? 47)) (bytes a) = true ->
    forallb (fun b => negb (b =? 46)) (bytes a) = true ->
    forall t, t = bytes "tar" ++ 46 :: bytes a ->
    path_extension (x ++ 46 :: t) = Some (bytes a) /\ is_tar (x ++ 46 :: t) = true) as T.
  { intros a H1 H2 H3 t ->. by apply tar_extension. }
  destruct e as [|[]]; unfold source_dist_extension_name.
  1: destruct (T "gz" ltac:(done) eq_refl eq_refl (bytes "tar.gz") eq_refl) as [-> ->].
  3: destruct (T "bz2" ltac:(done) eq_refl eq_refl (bytes "tar.bz2") eq_refl) as [-> ->].
  4: destruct (T "lz" ltac:(done) eq_refl eq_refl (bytes "tar.lz") eq_refl) as [-> ->].
  5: destruct (T "lzma" ltac:(done) eq_refl eq_refl (bytes "tar.lzma") eq_refl) as [-> ->].
  6: destruct (T "xz" ltac:(done) eq_refl eq_refl (bytes "tar.xz") eq_refl) as [-> ->].
  7: destruct (T "zst" ltac:(done) eq_refl eq_refl (bytes "tar.zst") eq_refl) as [-> ->].
  1, 3-7: reflexivity.
  all: match goal with |- context [path_extension (_ ++ 46 :: bytes ?a)] =>
         destruct (literal_extension x a) as [-> _]; done end.
Qed.

(** ** The round trip *)

Lemma match_escape n : normalized_name n -> normalized_package_name_matches (as_dist_info_name n) n = true.
Proof.
  intros (_ & _ & B)%normalized_bytes. rewrite as_dist_info_name_escape.
  apply bool_decide_eq_true. change ((match_byte <$> (escape <$> n)) = n).
  rewrite <- list_fmap_compose. rewrite <- (list_fmap_id n) at 2. apply list_fmap_ext.
  intros i c Hc. cbn. rewrite forallb_forall in B. apply list_elem_of_lookup_2, list_elem_of_In, B in Hc.
  unfold escape. destruct (Z.eqb_spec c 45) as [->|Hc']; [done|].
  destruct (match_byte_cases c) as [[U _]|[[C _]|(_ & _ & _ & ->)]]; [| |done];
    unfold normal_byte, is_ascii_uppercase, is_ascii_lowercase, is_ascii_digit in *; lia.
Qed.

Definition sdist_wf (s : SourceDistFilename) : Prop :=
  normalized_name (sdist_name s) /\ version_parsed (sdist_version s).

Lemma dist_info_length n : length (as_dist_info_name n) = length n.
Proof. rewrite as_dist_info_name_escape. apply length_fmap. Qed.

Lemma boundary_app p c t : is_continuation c = false -> is_char_boundary (p ++ c :: t) (length p) = true.
Proof.
  intros H. unfold is_char_boundary. rewrite lookup_app_r by done. rewrite Nat.sub_diag. cbn.
  by rewrite H.
Qed.

Lemma get_to_app p c t : is_continuation c = false -> get_to (p ++ c :: t) (length p) = Some p.
Proof. intros H. unfold get_to. by rewrite boundary_app, take_app_length. Qed.

Lemma get_from_app p c t : is_continuation c = false -> get_from (p ++ c :: t) (length p) = Some (c :: t).
Proof. intros H. unfold get_from. by rewrite boundary_app, drop_app_length. Qed.

Lemma dist_info_no_slash n : normalized_name n -> 47 ∉ as_dist_info_name n.
Proof.
  intros (_ & _ & B)%normalized_bytes H. rewrite as_dist_info_name_escape in H.
  apply list_elem_of_fmap in H as (c & E & Hc).
  rewrite forallb_forall in B. apply list_elem_of_In, B in Hc.
  unfold escape in E. destruct (Z.eqb_spec c 45); [done|]. by subst c.
Qed.

Lemma version_no_slash v : version_parsed v -> 47 ∉ version_display v.
Proof.
  intros H%version_display_chars Hin. unfold version_text in H. rewrite Forall_forall in H.
  by specialize (H _ Hin).
Qed.

(** The stem: an escaped name, a dash and a version. *)
Lemma sdist_stem s :
  sdist_wf s ->
  let N := as_dist_info_name (sdist_name s) in
  let V := version_display (sdist_version s) in
  sdist_display s = (N ++ 45 :: V) ++ 46 :: source_dist_extension_name (sdist_extension s) /\
  V <> [] /\ 45 ∉ V /\ 47 ∉ N ++ 45 :: V.
Proof.
  intros [Hn Hv] N V. split_and!.
  - unfold sdist_display. by rewrite <- app_assoc.
  - unfold V. by destruct (version_display_head _ Hv) as (b & l & -> & _).
  - by apply version_no_dash.
  - rewrite elem_of_app, elem_of_cons. intros [H|[H|H]]; [|done|].
    + by apply dist_info_no_slash in H.
    + by apply version_no_slash in H.
Qed.

Lemma sdist_of_display s :
  sdist_wf s -> exists s', sdist_of (sdist_name s) (version_display (sdist_version s)) (sdist_extension s) =
    Some (Ok s') /\ sdist_name s' = sdist_name s /\ sdist_extension s' = sdist_extension s /\
    version_make_full (sdist_version s') = version_make_full (sdist_version s).
Proof.
  intros [_ Hv]. destruct (display_parse _ Hv) as (w & E & _ & Ew). unfold sdist_of. rewrite E.
  eexists. by split_and!.
Qed.

Lemma sdist_parse_display s :
  sdist_wf s ->
  sdist_parse (sdist_display s) (sdist_extension s) (sdist_name s) =
    sdist_of (sdist_name s) (version_display (sdist_version s)) (sdist_extension s).
Proof.
  intros W. destruct (sdist_stem s W) as (-> & HV & _ & _).
  set (N := as_dist_info_name (sdist_name s)) in *. set (V := version_display (sdist_version s)) in *.
  set (e := source_dist_extension_name (sdist_extension s)) in *. unfold sdist_parse. fold e.
  rewrite length_app. cbn [length].
  destruct (Nat.leb_spec (length (N ++ 45%Z :: V) + S (length e)) (length e + 1)) as [L|L].
  { rewrite length_app in L. cbn in L. lia. }
  replace (length (N ++ 45%Z :: V) + S (length e) - (length e + 1))%nat with (length (N ++ 45%Z :: V)) by lia.
  rewrite get_to_app by done. rewrite length_app. cbn [length].
  assert (length N = length (sdist_name s)) as LN by apply dist_info_length.
  destruct (Nat.leb_spec (length N + S (length V)) (length (sdist_name s) + 1)) as [L'|L'].
  { destruct V; [done|]. cbn in L'. lia. }
  rewrite <- LN, get_to_app, get_from_app by done. cbn [mbind option_bind].
  change (45 :: V) with (bytes "-" ++ V). rewrite strip_prefix_app.
  unfold N. by rewrite match_escape by apply W.
Qed.

Lemma parsed_normalized_display s :
  sdist_wf s ->
  parsed_normalized_filename (sdist_display s) =
    sdist_of (sdist_name s) (version_display (sdist_version s)) (sdist_extension s).
Proof.
  intros W. destruct (sdist_stem s W) as (-> & HV & DV & SV).
  set (N := as_dist_info_name (sdist_name s)) in *. set (V := version_display (sdist_version s)) in *.
  unfold parsed_normalized_filename.
  pose proof (extension_from_path (N ++ 45 :: V) (sdist_extension s)) as E.
  change (bytes "." ++ source_dist_extension_name (sdist_extension s))
    with (46 :: source_dist_extension_name (sdist_extension s)) in E.
  rewrite E by (done || by destruct N). set (e := source_dist_extension_name (sdist_extension s)) in *.
  rewrite length_app. cbn [length].
  destruct (Nat.leb_spec (length (N ++ 45%Z :: V) + S (length e)) (length e + 1)) as [L|L].
  { rewrite length_app in L. cbn in L. lia. }
  replace (length (N ++ 45%Z :: V) + S (length e) - (length e + 1))%nat with (length (N ++ 45%Z :: V)) by lia.
  rewrite take_app_length, rsplit_once_app by done.
  destruct (dist_info_roundtrip _ (proj1 W)) as [Hn _]. unfold package_name_from_str.
  fold N in Hn. by rewrite Hn.
Qed.

(** An accepted name is well formed. *)
Lemma sdist_of_wf name version extension s :
  normalized_name name -> Forall is_u8 version -> sdist_of name version extension = Some (Ok s) ->
  sdist_wf s /\ sdist_name s = name /\ sdist_extension s = extension.
Proof.
  intros Hn Hv. unfold sdist_of. pose proof (version_from_str_returns version Hv) as R.
  destruct (version_from_str version) as [v| |]; [|done..]. by intros [= <-].
Qed.

Lemma get_to_bytes s n t : Forall is_u8 s -> get_to s n = Some t -> Forall is_u8 t.
Proof. unfold get_to. destruct (is_char_boundary s n); [|done]. intros H [= <-]. by apply Forall_take. Qed.

Lemma get_from_bytes s n t : Forall is_u8 s -> get_from s n = Some t -> Forall is_u8 t.
Proof. unfold get_from. destruct (is_char_boundary s n); [|done]. intros H [= <-]. by apply Forall_drop. Qed.

Lemma sdist_parse_wf f e n s :
  Forall is_u8 f -> normalized_name n -> sdist_parse f e n = Some (Ok s) ->
  sdist_wf s /\ sdist_name s = n /\ sdist_extension s = e.
Proof.
  intros B Hn. unfold sdist_parse. destruct (_ <=? _)%nat; [done|].
  destruct (get_to f _) as [stem|] eqn:E1; [|done]. apply get_to_bytes in E1; [|done].
  destruct (_ <=? _)%nat; [done|].
  repeat case_match; try done; apply sdist_of_wf; try done.
  all: repeat match goal with
       | H : _ ≫= _ = Some _ |- _ => apply bind_Some in H as (? & H & ?)
       | H : get_from ?st _ = Some _ |- _ => apply get_from_bytes in H; [|done]
       | H : strip_prefix _ _ = Some _ |- _ => apply strip_prefix_Some in H as ->
       end; by eapply Forall_app.
Qed.

(** ** File names of distributions *)

Section DistRoundTrip.
Context {BF : Bitflags} {BL : BitflagsLaws} {MC : Memchr} {ML : MemchrLaws}.

Lemma drop_empty_last_elem p ps : p ∈ ps -> p <> [] -> p ∈ drop_empty_last ps.
Proof.
  unfold drop_empty_last. destruct (last ps) as [[|]|] eqn:E; [|done|done].
  apply last_Some in E as [ps' ->]. rewrite length_app. cbn [length]. rewrite Nat.add_sub, take_app_length.
  by intros [?|?%list_elem_of_singleton]%elem_of_app.
Qed.

Lemma parse_tags_atoms {T E} (f : list Z -> result T E) fn items : forall acc l,
  parse_tags f fn items acc = Ok l -> Forall (fun p => forallb is_tag_atom_byte p = true) items.
Proof.
  induction items as [|p items IH]; intros acc l; [constructor|]. cbn [parse_tags].
  destruct p as [|x p]; [done|]. destruct (forallb is_tag_atom_byte (x :: p)) eqn:F; [|done].
  intros H. constructor; [done|]. exact (IH _ _ H).
Qed.

(** No slash in what was accepted. *)
Lemma component_no_slash {T E} (f : list Z -> result T E) c fn l :
  parse_large_tag_component f c fn = Ok l -> 47 ∉ c.
Proof.
  unfold parse_large_tag_component. destruct c as [|x c]; [done|].
  rewrite splitter_collect_spec. intros A%parse_tags_atoms Hin.
  destruct (split_char_elem 46 _ _ Hin ltac:(done)) as (p & Hp & Hx).
  apply drop_empty_last_elem in Hp; [|by intros ->; apply elem_of_nil in Hx].
  rewrite Forall_forall in A. specialize (A _ Hp). rewrite forallb_forall in A.
  by specialize (A _ (proj1 (list_elem_of_In _ _) Hx)).
Qed.

Lemma forallb_no_slash (p : Z -> bool) l : forallb p l = true -> p 47 = false -> 47 ∉ l.
Proof.
  intros F H Hin%list_elem_of_In. rewrite forallb_forall in F. specialize (F _ Hin). congruence.
Qed.

Lemma build_tag_no_slash s t : build_tag_from_str s = Ok t -> 47 ∉ s.
Proof.
  rewrite build_tag_from_str_spec. destruct (bool_decide _); [done|].
  destruct (forallb is_build_tag_byte s) eqn:F; [|done]. intros _. by eapply forallb_no_slash.
Qed.

Lemma find_invalid_None l : find_invalid l = None -> forallb valid_character l = true.
Proof. induction l as [|c l IH]; [done|]. cbn [find_invalid forallb]. by destruct (valid_character c). Qed.

Lemma variant_label_spec s :
  variant_label_try_from s = Ok s <-> s <> [] /\ forallb valid_character s = true.
Proof.
  destruct s as [|c s]; [by split; [|intros []]|]. unfold variant_label_try_from. split.
  - destruct (find_invalid (c :: s)) eqn:E; [done|]. split; [done|]. by apply find_invalid_None.
  - intros [_ F]. assert (forall l, forallb valid_character l = true -> find_invalid l = None) as ->; [|done..].
    induction l as [|x l IH]; [done|]. cbn [find_invalid forallb]. by destruct (valid_character x).
Qed.

Lemma variant_no_slash s t : variant_label_try_from s = Ok t -> 47 ∉ s.
Proof.
  destruct s as [|c s]; [intros _; apply not_elem_of_nil|]. unfold variant_label_try_from.
  destruct (find_invalid (c :: s)) eqn:E; [done|]. intros _.
  by eapply forallb_no_slash; [apply find_invalid_None|].
Qed.

Lemma dashed_no_slash cs : Forall (fun c => 47 ∉ c) cs -> 47 ∉ dashed cs.
Proof.
  induction 1 as [|c cs Hc Hcs IH]; [apply not_elem_of_nil|]. destruct cs; [done|].
  change (dashed (c :: l :: cs)) with (c ++ 45 :: dashed (l :: cs)).
  rewrite elem_of_app, elem_of_cons. naive_solver.
Qed.

Lemma parse_rest_no_slash parts fn l :
  try_small parts = None -> parse_rest parts fn = Ok l ->
  Forall (fun c => 47 ∉ c) (option_list (part_build_tag parts) ++
    [part_python_tag parts; part_abi_tag parts; part_platform_tag parts] ++
    option_list (part_variant parts)).
Proof.
  intros Es. unfold parse_rest, parse_wheel_tags. rewrite Es. intros E. result_inv E.
  repeat match goal with
         | G : parse_large_tag_component _ _ _ = Ok _ |- _ => apply component_no_slash in G
         end.
  apply Forall_app. split; [|apply Forall_app; split; [by repeat apply Forall_cons_2|]].
  - destruct (part_build_tag parts) as [b|]; [|constructor]. repeat constructor.
    match goal with G : transpose _ (Some b) = Ok _ |- _ => cbn in G; result_inv G end.
    match goal with G : map_err _ _ = Ok _ |- _ => by apply map_err_Ok, build_tag_no_slash in G end.
  - destruct (part_variant parts) as [b|]; [|constructor]. repeat constructor.
    match goal with G : transpose _ (Some b) = Ok _ |- _ => cbn in G; result_inv G end.
    match goal with G : map_err _ _ = Ok _ |- _ => by apply map_err_Ok, variant_no_slash in G end.
Qed.

Lemma tail_of_components tail t :
  tail_of tail = Some t ->
  tail = option_list (tail_build_tag t) ++ [tail_python_tag t; tail_abi_tag t; tail_platform_tag t] ++
         option_list (tail_variant t).
Proof. intros E. destruct tail as [|a [|b [|c [|d [|e [|? ?]]]]]]; simplify_eq/=; repeat case_match; by simplify_eq/=. Qed.

Lemma wheel_stem_no_slash stem fn w :
  Forall is_u8 stem -> wheel_parse stem fn None = Some (Ok w) -> 47 ∉ wheel_stem w.
Proof.
  intros B E. pose proof (wheel_parsed_version _ _ _ _ B E) as Vp.
  apply wheel_parse_parts in E as (n & v & tail & parts & Es & Ep & Hd & En & Ev & Et).
  assert (normalized_name (wheel_name w)) as Nn.
  { cbn in En. apply map_err_Ok in En. by eapply validate_normalized. }
  unfold wheel_stem. rewrite !elem_of_app.
  apply dist_info_no_slash in Nn. apply version_no_slash in Vp.
  enough (47 ∉ wheel_tag_display (wheel_tags w)) by
    (pose proof (literal_not_in 47 "-" eq_refl); naive_solver).
  destruct (wheel_tags w) as [s|l].
  - apply parse_rest_small, small_components_text in Et.
    change (47 ∉ dashed (small_components s)). apply dashed_no_slash.
    eapply Forall_impl; [exact Et|]. intros c. by apply tag_text_not_in.
  - pose proof (parse_rest_large _ _ _ Et) as El. cbn [parts_of] in Ep.
    destruct (tail_of tail) as [tl|] eqn:Etl; [|done]. injection Ep as <-. cbn [wheel_tag_display].
    rewrite El. cbn [part_repr]. apply dashed_no_slash. rewrite (tail_of_components _ _ Etl).
    apply (parse_rest_no_slash (mkParts n v _ _ _ _ _ _ _) fn _) in Et; [exact Et|].
    destruct (try_small _) as [s|] eqn:S; [|done].
    exfalso. revert Et. unfold parse_rest, parse_wheel_tags. rewrite S. intros Et. by result_inv Et.
Qed.

Definition same_dist (d d' : DistFilename) : Prop :=
  match d, d' with
  | DistSource s, DistSource s' =>
      sdist_name s' = sdist_name s /\ sdist_extension s' = sdist_extension s /\
      version_make_full (sdist_version s') = version_make_full (sdist_version s)
  | DistWheel w, DistWheel w' =>
      wheel_name w' = wheel_name w /\ wheel_tags w' = wheel_tags w /\
      version_make_full (wheel_version w') = version_make_full (wheel_version w)
  | _, _ => False
  end.

Lemma dist_extension_source path e :
  source_dist_extension_from_path path = Ok e -> dist_extension_from_path path = Ok (ExtSource e).
Proof.
  intros E. unfold dist_extension_from_path. rewrite E. unfold source_dist_extension_from_path in E.
  destruct (path_extension path) as [x|]; [|done]. destruct (decide (x = bytes "whl")) as [->|]; [|done].
  exfalso. revert E. generalize (is_tar path). intros b E. vm_compute in E. discriminate E.
Qed.

Lemma ok_lift {A B E F} (f : A -> B) (g : E -> F) r b :
  ok (lift f g r) = Some (Some b) <-> exists a, r = Some (Ok a) /\ b = f a.
Proof.
  destruct r as [[a|e]|]; cbn; split; try done; try (by intros (? & [=] & _)).
  - intros [= <-]. eauto.
  - by intros (? & [= <-] & ->).
Qed.

(** A wheel that was accepted, printed. *)
Lemma wheel_display_accepted f w :
  Forall is_u8 f -> wheel_from_str f = Some (Ok w) ->
  dist_extension_from_path (wheel_display w) = Ok ExtWheel /\ normalized_name (wheel_name w).
Proof.
  unfold wheel_from_str, parse_filename. intros B.
  destruct (strip_suffix (bytes ".whl") f) as [stem|] eqn:Es; [|done].
  apply strip_suffix_Some in Es as ->. apply Forall_app in B as [B _]. intros E. split.
  - unfold dist_extension_from_path. rewrite wheel_display_stem.
    destruct (literal_extension (wheel_stem w) "whl") as [X _]; [|by eapply wheel_stem_no_slash|done..|].
    { unfold wheel_stem. by destruct (as_dist_info_name (wheel_name w)). }
    change (bytes ".whl") with (46 :: bytes "whl"). rewrite X. by rewrite decide_True.
  - apply wheel_parse_parts in E as (n & v & tail & parts & _ & _ & _ & En & _).
    cbn in En. apply map_err_Ok in En. by eapply validate_normalized.
Qed.

(** Whatever its kind, a file name that was accepted for a package is printed so that it is
    accepted again. *)
Lemma dist_roundtrip f package d :
  Forall is_u8 f -> normalized_name package -> try_from_filename f package = Some (Some d) ->
  exists d', try_from_filename (dist_display d) (dist_name d) = Some (Some d') /\ same_dist d d' /\
             try_from_normalized_filename (dist_display d) = Some (Some d').
Proof.
  intros B Hp. unfold try_from_filename at 1, try_from_filename_with_reason.
  destruct (dist_extension_from_path f) as [[|e]|] eqn:Ex; [..|done].
  - rewrite ok_lift, wheel_hint by done. intros (w & Ew & ->).
    destruct (wheel_display_accepted _ _ B Ew) as [X Nn].
    destruct (wheel_roundtrip _ _ B Ew) as (w' & Ew' & S). exists (DistWheel w').
    unfold try_from_filename, try_from_filename_with_reason, try_from_normalized_filename.
    cbn [dist_display dist_name]. rewrite X, wheel_hint, Ew' by done. done.
  - rewrite ok_lift. intros (s & Ew & ->). destruct (sdist_parse_wf _ _ _ _ B Hp Ew) as (W & _ & _).
    destruct (sdist_of_display _ W) as (s' & Es' & S). exists (DistSource s').
    unfold try_from_filename, try_from_filename_with_reason, try_from_normalized_filename.
    cbn [dist_display dist_name].
    destruct (sdist_stem _ W) as (Ed & _ & _ & Sl).
    rewrite (dist_extension_source _ (sdist_extension s)).
    + by rewrite sdist_parse_display, parsed_normalized_display, Es' by done.
    + rewrite Ed. apply extension_from_path; [|done]. by destruct (as_dist_info_name _).
Qed.
End DistRoundTrip.
