(* ===== verification/Ranges.v ===== *)
(** * Ranges

    The interface of the crate [version-ranges], [Ranges<T>], for any ordered type: sets of values
    made of segments, each given by a lower and an upper bound. The operations are a class, and
    what the crate documents of them are its laws; [RangesSegments] gives an instance. *)

From stdpp Require Import base countable list option numbers decidable sorting.
From Stdlib Require Import ZArith Lia.
From S2P Require Import Prelude.

Local Open Scope Z_scope.

(** ** Segments *)

Section Segments.
Context {T : Type} (cmp : T -> T -> comparison).

Definition segment_above (lower : bound_of T) (v : T) : bool :=
  match lower with
  | Included l => bool_decide (cmp l v <> Gt)
  | Excluded l => bool_decide (cmp l v = Lt)
  | Unbounded => true
  end.

Definition segment_below (upper : bound_of T) (v : T) : bool :=
  match upper with
  | Included u => bool_decide (cmp v u <> Gt)
  | Excluded u => bool_decide (cmp v u = Lt)
  | Unbounded => true
  end.

Definition segment_contains (v : T) (s : bound_of T * bound_of T) : bool :=
  segment_above s.1 v && segment_below s.2 v.

(** A segment that has room for a value. *)
Definition segment_valid (lower upper : bound_of T) : bool :=
  match lower, upper with
  | Included l, Included u => bool_decide (cmp l u <> Gt)
  | Included l, Excluded u | Excluded l, Included u | Excluded l, Excluded u => bool_decide (cmp l u = Lt)
  | Unbounded, _ | _, Unbounded => true
  end.

(** The bounds meet without a gap: what is below the first is not above the second. *)
Definition bounds_meet (upper lower : bound_of T) : bool :=
  match upper, lower with
  | Included u, Excluded l | Excluded u, Included l => bool_decide (cmp u l = Eq)
  | _, _ => false
  end.
End Segments.

(** ** Continuous sets

    The crate compares bounds and nothing else, so that a segment is a piece of a continuous line:
    between two values there are points, whether they are values or not. A point is a value with an
    offset, below, at or above the value. *)

Section Points.
Context {T : Type} (cmp : T -> T -> comparison).

Definition point_cmp : T * Z -> T * Z -> comparison := cmp_pair cmp Z.compare.

Definition lift_bound (b : bound_of T) : bound_of (T * Z) :=
  match b with
  | Included v => Included (v, 0)
  | Excluded v => Excluded (v, 0)
  | Unbounded => Unbounded
  end.

Definition point_above (lower : bound_of T) (p : T * Z) : bool := segment_above point_cmp (lift_bound lower) p.
Definition point_below (upper : bound_of T) (p : T * Z) : bool := segment_below point_cmp (lift_bound upper) p.
Definition point_in (p : T * Z) (s : bound_of T * bound_of T) : bool := point_above s.1 p && point_below s.2 p.

(** A point lies above the first segment and below the second. *)
Definition separated (s t : bound_of T * bound_of T) : Prop :=
  exists p, point_below s.2 p = false /\ point_above t.1 p = false.

Definition bound_values (b : bound_of T) : list T :=
  match b with Included v | Excluded v => [v] | Unbounded => [] end.

Definition segments_values (l : list (bound_of T * bound_of T)) : list T :=
  l ≫= fun s => bound_values s.1 ++ bound_values s.2.
End Points.

(** ** Points and segments *)

Section Order.
Context {T : Type} `{!Inhabited T} (law : T -> T -> comparison) `{!OrdLaws law}.

Notation point := (T * Z)%type.

#[local] Instance point_order : OrdLaws (point_cmp law).
Proof. unfold point_cmp. apply _. Qed.

Notation "p ≺ q" := (point_cmp law p q = Lt) (at level 70).

Lemma point_order_cases p q : p ≺ q \/ point_cmp law q p <> Gt.
Proof. rewrite (cmp_opp (point_cmp law) p q). destruct (point_cmp law p q); [by right|by left|by right]. Qed.

Lemma point_irreflexive p : ~ p ≺ p.
Proof. by rewrite (cmp_refl (point_cmp law)). Qed.

Lemma above_mono lower p q : point_above law lower p = true -> point_cmp law p q <> Gt -> point_above law lower q = true.
Proof.
  unfold point_above. destruct lower as [v|v|]; cbn; [| |done]; rewrite !bool_decide_eq_true; intros H1 H2.
  - by eapply (cmp_le_trans (point_cmp law)).
  - by eapply (cmp_lt_le_trans (point_cmp law)).
Qed.

Lemma below_mono upper p q : point_below law upper q = true -> point_cmp law p q <> Gt -> point_below law upper p = true.
Proof.
  unfold point_below. destruct upper as [v|v|]; cbn; [| |done]; rewrite !bool_decide_eq_true; intros H1 H2.
  - by eapply (cmp_le_trans (point_cmp law)).
  - by eapply (cmp_le_lt_trans (point_cmp law)).
Qed.

Lemma above_split lower p q : point_above law lower p = false -> point_above law lower q = true -> p ≺ q.
Proof.
  intros H1 H2. destruct (point_order_cases p q) as [|H]; [done|]. by rewrite (above_mono lower q p) in H1.
Qed.

Lemma below_split upper p q : point_below law upper p = true -> point_below law upper q = false -> p ≺ q.
Proof.
  intros H1 H2. destruct (point_order_cases p q) as [|H]; [done|]. by rewrite (below_mono upper q p) in H2.
Qed.

(** A segment that has room has a point. *)
Lemma valid_point lower upper : segment_valid law lower upper = true -> exists p, point_in law p (lower, upper) = true.
Proof.
  assert (Hrefl : forall v, law v v = Eq) by apply (cmp_refl law).
  unfold point_in, point_above, point_below.
  destruct lower as [a|a|], upper as [b|b|]; cbn; intros H; try apply bool_decide_eq_true in H.
  - exists (a, 0). unfold point_cmp, cmp_pair. cbn. rewrite Hrefl. cbn. by destruct (law a b).
  - exists (a, 0). unfold point_cmp, cmp_pair. cbn. by rewrite Hrefl, H.
  - exists (a, 0). unfold point_cmp, cmp_pair. cbn. by rewrite Hrefl.
  - exists (b, 0). unfold point_cmp, cmp_pair. cbn. by rewrite Hrefl, H.
  - exists (a, 1). unfold point_cmp, cmp_pair. cbn. by rewrite Hrefl, H.
  - exists (a, 1). unfold point_cmp, cmp_pair. cbn. by rewrite Hrefl.
  - exists (b, 0). unfold point_cmp, cmp_pair. cbn. by rewrite Hrefl.
  - exists (b, -1). unfold point_cmp, cmp_pair. cbn. by rewrite Hrefl.
  - by exists (inhabitant, 0).
Qed.

Lemma invalid_point lower upper p : segment_valid law lower upper = false -> point_in law p (lower, upper) = false.
Proof.
  intros H. apply not_true_iff_false. intros [H1 H2]%andb_true_iff. cbn in H1, H2. unfold point_above, point_below in *.
  assert (Hl : forall a b, point_cmp law (a, 0) (b, 0) = law a b).
  { intros a b. unfold point_cmp, cmp_pair. cbn. by destruct (law a b). }
  destruct lower as [a|a|], upper as [b|b|]; cbn in *; try done;
    apply bool_decide_eq_false in H; apply bool_decide_eq_true in H1, H2; apply H; rewrite <- Hl.
  - by eapply (cmp_le_trans (point_cmp law)).
  - by eapply (cmp_le_lt_trans (point_cmp law)).
  - by eapply (cmp_lt_le_trans (point_cmp law)).
  - by eapply (cmp_lt_trans (point_cmp law)).
Qed.

(** Below a segment is before its end, and above it after its start. *)
Lemma not_above_below lower upper p :
  segment_valid law lower upper = true -> point_above law lower p = false -> point_below law upper p = true.
Proof.
  intros (q & [H1 H2]%andb_true_iff)%valid_point Hp. cbn in H1, H2. apply (below_mono upper p q); [done|].
  rewrite (above_split lower p q); done.
Qed.

Lemma not_below_above lower upper p :
  segment_valid law lower upper = true -> point_below law upper p = false -> point_above law lower p = true.
Proof.
  intros (q & [H1 H2]%andb_true_iff)%valid_point Hp. cbn in H1, H2. apply (above_mono lower q p); [done|].
  rewrite (below_split upper q p); done.
Qed.

Lemma point_in_convex s p q m :
  point_in law p s = true -> point_in law q s = true -> point_cmp law p m <> Gt -> point_cmp law m q <> Gt -> point_in law m s = true.
Proof.
  unfold point_in. rewrite !andb_true_iff. intros [H1 _] [_ H2] Hp Hq.
  split; [by apply (above_mono s.1 p)|by apply (below_mono s.2 m q)].
Qed.

(** What is not above a segment is not above the ones that follow. *)
Lemma separated_above s t p :
  segment_valid law s.1 s.2 = true -> separated law s t -> point_above law s.1 p = false -> point_above law t.1 p = false.
Proof.
  intros Hv (g & Hg1 & Hg2) Hp. pose proof (not_above_below _ _ _ Hv Hp) as Hb.
  pose proof (below_split _ _ _ Hb Hg1) as L. apply not_true_iff_false. intros Ht.
  by rewrite (above_mono t.1 p g) in Hg2 by (done || by rewrite L).
Qed.

(** Bounds that divide the points in the same way. *)
Definition bound_eq (x y : bound_of T) : bool :=
  match x, y with
  | Included a, Included b | Excluded a, Excluded b => bool_decide (law a b = Eq)
  | Unbounded, Unbounded => true
  | _, _ => false
  end.

Lemma bound_eq_above x y p : bound_eq x y = true -> point_above law x p = point_above law y p.
Proof.
  unfold point_above. destruct x as [a|a|], y as [b|b|]; cbn; try done; intros E%bool_decide_eq_true;
    assert (El : point_cmp law (a, 0) (b, 0) = Eq) by (unfold point_cmp, cmp_pair; cbn; by rewrite E);
    by rewrite (cmp_eq_l (point_cmp law) _ _ p El).
Qed.

Lemma bound_eq_below x y p : bound_eq x y = true -> point_below law x p = point_below law y p.
Proof.
  unfold point_below. destruct x as [a|a|], y as [b|b|]; cbn; try done; intros E%bool_decide_eq_true;
    assert (El : point_cmp law (a, 0) (b, 0) = Eq) by (unfold point_cmp, cmp_pair; cbn; by rewrite E);
    by rewrite (cmp_eq_r (point_cmp law) _ _ p El).
Qed.

(** Points next to the value of a bound tell it from others. *)
Lemma above_bound_eq x y : (forall p, point_above law x p = point_above law y p) -> bound_eq x y = true.
Proof.
  assert (Hrefl : forall v, law v v = Eq) by apply (cmp_refl law). unfold point_above, point_cmp, cmp_pair.
  intros H. destruct x as [a|a|], y as [b|b|]; cbn in H |- *; try done;
    try (pose proof (H (a, 0)) as Ha0; pose proof (H (a, 1)) as Ha1; pose proof (H (a, -1)) as Ha2; cbn in Ha0, Ha1, Ha2; rewrite ?Hrefl in Ha0, Ha1, Ha2);
    try (pose proof (H (b, 0)) as Hb0; pose proof (H (b, 1)) as Hb1; pose proof (H (b, -1)) as Hb2; cbn in Hb0, Hb1, Hb2; rewrite ?Hrefl in Hb0, Hb1, Hb2);
    cbn in *; try done; rewrite ?(cmp_opp law a b) in *; destruct (law a b); cbn in *; done.
Qed.

Lemma below_bound_eq x y : (forall p, point_below law x p = point_below law y p) -> bound_eq x y = true.
Proof.
  assert (Hrefl : forall v, law v v = Eq) by apply (cmp_refl law). unfold point_below, point_cmp, cmp_pair.
  intros H. destruct x as [a|a|], y as [b|b|]; cbn in H |- *; try done;
    try (pose proof (H (a, 0)) as Ha0; pose proof (H (a, 1)) as Ha1; pose proof (H (a, -1)) as Ha2; cbn in Ha0, Ha1, Ha2; rewrite ?Hrefl in Ha0, Ha1, Ha2);
    try (pose proof (H (b, 0)) as Hb0; pose proof (H (b, 1)) as Hb1; pose proof (H (b, -1)) as Hb2; cbn in Hb0, Hb1, Hb2; rewrite ?Hrefl in Hb0, Hb1, Hb2);
    cbn in *; try done; rewrite ?(cmp_opp law a b) in *; destruct (law a b); cbn in *; done.
Qed.

End Order.

(** ** Operations *)

Class RangeOps (T : Type) : Type := {
  range : Type;
  range_contains : range -> T -> bool;
  range_empty : range;
  range_full : range;
  range_singleton : T -> range;
  range_higher_than : T -> range;
  range_strictly_higher_than : T -> range;
  range_lower_than : T -> range;
  range_strictly_lower_than : T -> range;
  range_from_bounds : bound_of T -> bound_of T -> range;
  range_complement : range -> range;
  range_intersection : range -> range -> range;
  range_union : range -> range -> range;
  range_is_empty : range -> bool;
  range_is_disjoint : range -> range -> bool;
  range_bounding : range -> option (bound_of T * bound_of T);
  range_iter : range -> list (bound_of T * bound_of T);
  range_collect : list (bound_of T * bound_of T) -> range;
  (** [PartialEq]. *)
  range_eq : range -> range -> bool
}.

Arguments range T {_}.

(** The points of a range, and the values of its bounds. *)
Definition range_at {T : Type} (cmp : T -> T -> comparison) `{!RangeOps T} (r : range T) (p : T * Z) : bool :=
  existsb (point_in cmp p) (range_iter r).

Definition range_values {T : Type} `{!RangeOps T} (r : range T) : list T := segments_values (range_iter r).

(** What the crate documents: membership after each operation, for values and for points, that
    ranges are equal when they have the same points, and that [iter] gives the segments in order, none of them empty and no two overlapping or touching; bounds
    are those of the operands. *)
Class RangeLaws {T : Type} (cmp : T -> T -> comparison) `{!RangeOps T} : Prop := {
  range_contains_empty : forall v, range_contains range_empty v = false;
  range_contains_full : forall v, range_contains range_full v = true;
  range_contains_singleton : forall u v,
    range_contains (range_singleton u) v = bool_decide (cmp v u = Eq);
  range_contains_higher : forall u v,
    range_contains (range_higher_than u) v = segment_above cmp (Included u) v;
  range_contains_strictly_higher : forall u v,
    range_contains (range_strictly_higher_than u) v = segment_above cmp (Excluded u) v;
  range_contains_lower : forall u v,
    range_contains (range_lower_than u) v = segment_below cmp (Included u) v;
  range_contains_strictly_lower : forall u v,
    range_contains (range_strictly_lower_than u) v = segment_below cmp (Excluded u) v;
  range_contains_from_bounds : forall lower upper v,
    range_contains (range_from_bounds lower upper) v = segment_contains cmp v (lower, upper);
  range_contains_complement : forall r v,
    range_contains (range_complement r) v = negb (range_contains r v);
  range_contains_intersection : forall r s v,
    range_contains (range_intersection r s) v = range_contains r v && range_contains s v;
  range_contains_union : forall r s v,
    range_contains (range_union r s) v = range_contains r v || range_contains s v;
  range_contains_iter : forall r v,
    range_contains r v = existsb (segment_contains cmp v) (range_iter r);
  range_contains_collect : forall l v,
    range_contains (range_collect l) v = existsb (segment_contains cmp v) l;
  range_iter_valid : forall r, Forall (fun s => segment_valid cmp s.1 s.2 = true) (range_iter r);
  range_iter_exclusive : forall r v,
    (length (List.filter (segment_contains cmp v) (range_iter r)) <= 1)%nat;
  range_iter_from_bounds : forall lower upper,
    segment_valid cmp lower upper = true ->
    range_iter (range_from_bounds lower upper) = [(lower, upper)];
  range_is_empty_iter : forall r, range_is_empty r = match range_iter r with [] => true | _ :: _ => false end;
  range_is_disjoint_intersection : forall r s,
    range_is_disjoint r s = range_is_empty (range_intersection r s);
  range_bounding_iter : forall r,
    range_bounding r =
      match head (range_iter r), last (range_iter r) with
      | Some first, Some final => Some (first.1, final.2)
      | _, _ => None
      end;
  range_eq_at : forall r s, range_eq r s = true <-> forall p, range_at cmp r p = range_at cmp s p;
  range_iter_empty : range_iter range_empty = [];
  range_iter_full : range_iter range_full = [(Unbounded, Unbounded)];
  range_iter_singleton : forall u, range_iter (range_singleton u) = [(Included u, Included u)];
  range_iter_higher : forall u, range_iter (range_higher_than u) = [(Included u, Unbounded)];
  range_iter_strictly_higher : forall u, range_iter (range_strictly_higher_than u) = [(Excluded u, Unbounded)];
  range_iter_lower : forall u, range_iter (range_lower_than u) = [(Unbounded, Included u)];
  range_iter_strictly_lower : forall u, range_iter (range_strictly_lower_than u) = [(Unbounded, Excluded u)];
  range_iter_invalid : forall lower upper,
    segment_valid cmp lower upper = false -> range_iter (range_from_bounds lower upper) = [];
  range_iter_separated : forall r, StronglySorted (separated cmp) (range_iter r);
  range_at_collect : forall l p, range_at cmp (range_collect l) p = existsb (point_in cmp p) l;
  range_at_complement : forall r p, range_at cmp (range_complement r) p = negb (range_at cmp r p);
  range_at_intersection : forall r s p,
    range_at cmp (range_intersection r s) p = range_at cmp r p && range_at cmp s p;
  range_at_union : forall r s p,
    range_at cmp (range_union r s) p = range_at cmp r p || range_at cmp s p;
  range_values_complement : forall r, range_values (range_complement r) ⊆ range_values r;
  range_values_intersection : forall r s,
    range_values (range_intersection r s) ⊆ range_values r ++ range_values s;
  range_values_union : forall r s, range_values (range_union r s) ⊆ range_values r ++ range_values s;
  range_values_collect : forall l, range_values (range_collect l) ⊆ segments_values l
}.

Section Facts.
Context {T : Type} (cmp : T -> T -> comparison) `{!RangeOps T, !RangeLaws cmp}.

Lemma empty_contains r v : range_is_empty r = true -> range_contains r v = false.
Proof.
  rewrite (range_is_empty_iter (cmp := cmp)), (range_contains_iter (cmp := cmp)). by destruct (range_iter r).
Qed.

Lemma not_empty_bounding r : range_is_empty r = false -> is_Some (range_bounding r).
Proof.
  rewrite (range_is_empty_iter (cmp := cmp)), (range_bounding_iter (cmp := cmp)).
  destruct (range_iter r) as [|s l]; [done|]. intros _. cbn [head].
  destruct (last (s :: l)) eqn:El; [eauto|]. by apply last_None in El.
Qed.

(** A value is a point. *)
Lemma segment_at_value s v : point_in cmp (v, 0) s = segment_contains cmp v s.
Proof.
  assert (Hl : forall a b, point_cmp cmp (a, 0) (b, 0) = cmp a b).
  { intros a b. unfold point_cmp, cmp_pair. cbn. by destruct (cmp a b). }
  unfold point_in, segment_contains. f_equal.
  - unfold point_above. destruct s.1; cbn; by rewrite ?Hl.
  - unfold point_below. destruct s.2; cbn; by rewrite ?Hl.
Qed.

Lemma range_at_value r v : range_at cmp r (v, 0) = range_contains r v.
Proof.
  rewrite (range_contains_iter (cmp := cmp)). unfold range_at. induction (range_iter r) as [|s l IH]; [done|].
  cbn. by rewrite IH, segment_at_value.
Qed.

Lemma empty_at r p : range_is_empty r = true -> range_at cmp r p = false.
Proof. rewrite (range_is_empty_iter (cmp := cmp)). unfold range_at. by destruct (range_iter r). Qed.

Lemma from_bounds_nonempty lower upper :
  segment_valid cmp lower upper = true -> range_is_empty (range_from_bounds lower upper) = false.
Proof.
  intros H. by rewrite (range_is_empty_iter (cmp := cmp)), (range_iter_from_bounds (cmp := cmp)).
Qed.
End Facts.
