(* ===== verification/RangesSegments.v ===== *)
(** * A model of ranges

    An instance of the interface of [Ranges] that satisfies its laws: a range is a list of
    segments. It shows that what is assumed of the crate [version-ranges] can hold, and makes the
    marker algebra executable. *)

From stdpp Require Import base countable list option numbers decidable sorting.
From Stdlib Require Import ZArith Lia.
From S2P Require Import Prelude Ranges.

Local Open Scope Z_scope.

Section Model.
Context {T : Type} (cmp : T -> T -> comparison).

Definition segment : Type := bound_of T * bound_of T.

(** The stronger of two lower and of two upper bounds. *)
Definition max_lower (x y : bound_of T) : bound_of T :=
  match x, y with
  | Unbounded, _ => y
  | _, Unbounded => x
  | Included a, Included b => if decide (cmp a b = Lt) then y else x
  | Included a, Excluded b => if decide (cmp a b = Gt) then x else y
  | Excluded a, Included b => if decide (cmp a b = Lt) then y else x
  | Excluded a, Excluded b => if decide (cmp a b = Lt) then y else x
  end.

Definition min_upper (x y : bound_of T) : bound_of T :=
  match x, y with
  | Unbounded, _ => y
  | _, Unbounded => x
  | Included a, Included b => if decide (cmp a b = Gt) then y else x
  | Included a, Excluded b => if decide (cmp a b = Lt) then x else y
  | Excluded a, Included b => if decide (cmp a b = Gt) then y else x
  | Excluded a, Excluded b => if decide (cmp a b = Gt) then y else x
  end.

Definition segments_valid (l : list segment) : list segment :=
  List.filter (fun s => segment_valid cmp s.1 s.2) l.

Definition segments_contains (l : list segment) (v : T) : bool := existsb (segment_contains cmp v) l.

Definition segments_intersection (r s : list segment) : list segment :=
  segments_valid (r ≫= fun a => (fun b => (max_lower a.1 b.1, min_upper a.2 b.2)) <$> s).

(** What lies below a lower and above an upper bound. *)
Definition below_lower (lower : bound_of T) : list segment :=
  match lower with
  | Included x => [(Unbounded, Excluded x)]
  | Excluded x => [(Unbounded, Included x)]
  | Unbounded => []
  end.

Definition above_upper (upper : bound_of T) : list segment :=
  match upper with
  | Included x => [(Excluded x, Unbounded)]
  | Excluded x => [(Included x, Unbounded)]
  | Unbounded => []
  end.

Definition segments_complement (r : list segment) : list segment :=
  foldr (fun s acc => segments_intersection (below_lower s.1 ++ above_upper s.2) acc)
    [(Unbounded, Unbounded)] (segments_valid r).

(** Segments that do not overlap. *)
Definition segments_normal (r : list segment) : list segment := segments_complement (segments_complement r).

Definition segments_union (r s : list segment) : list segment :=
  segments_complement (segments_intersection (segments_complement r) (segments_complement s)).

Fixpoint segments_eq (r s : list segment) : bool :=
  match r, s with
  | [], [] => true
  | a :: r', b :: s' => bound_eq cmp a.1 b.1 && bound_eq cmp a.2 b.2 && segments_eq r' s'
  | _, _ => false
  end.

Definition is_nil {A : Type} (l : list A) : bool := match l with [] => true | _ :: _ => false end.

Definition segment_ops : RangeOps T := {|
  range := list segment;
  range_contains := segments_contains;
  range_empty := [];
  range_full := [(Unbounded, Unbounded)];
  range_singleton v := [(Included v, Included v)];
  range_higher_than v := [(Included v, Unbounded)];
  range_strictly_higher_than v := [(Excluded v, Unbounded)];
  range_lower_than v := [(Unbounded, Included v)];
  range_strictly_lower_than v := [(Unbounded, Excluded v)];
  range_from_bounds lower upper := segments_valid [(lower, upper)];
  range_complement r := segments_complement (segments_normal r);
  range_intersection r s := segments_intersection (segments_normal r) (segments_normal s);
  range_union r s := segments_union (segments_normal r) (segments_normal s);
  range_is_empty r := is_nil (segments_normal r);
  range_is_disjoint r s := is_nil (segments_normal (segments_intersection (segments_normal r) (segments_normal s)));
  range_bounding r :=
    match head (segments_normal r), last (segments_normal r) with
    | Some first, Some final => Some (first.1, final.2)
    | _, _ => None
    end;
  range_iter := segments_normal;
  range_collect := segments_normal;
  range_eq r s := segments_eq (segments_normal r) (segments_normal s)
|}.

Context `{!OrdLaws cmp}.

(** Facts about comparisons, closed under transitivity. *)
Ltac new_fact H := let P := type of H in lazymatch goal with _ : P |- _ => fail | _ => pose proof H end.
Ltac order_facts :=
  repeat match goal with
         | H : ~ cmp ?a ?b = Lt |- _ => destruct (cmp a b) eqn:?; [clear H|done|clear H]
         | H : cmp ?a ?b <> Gt |- _ => destruct (cmp a b) eqn:?; [clear H|clear H|done]
         | H : cmp ?a ?b <> Eq |- _ => destruct (cmp a b) eqn:?; [done|clear H|clear H]
         | H : cmp ?a ?b = Gt |- _ => apply (cmp_gt_lt cmp) in H
         | H : cmp ?a ?a = Lt |- _ => by rewrite (cmp_refl cmp) in H
         | H : cmp ?a ?b = Lt, H' : cmp ?b ?c = Lt |- _ => new_fact (cmp_lt_trans cmp _ _ _ H H')
         | H : cmp ?a ?b = Eq, H' : cmp ?b ?c = Lt |- _ =>
             new_fact (eq_trans (cmp_eq_l cmp a b c H) H')
         | H : cmp ?b ?c = Eq, H' : cmp ?a ?b = Lt |- _ =>
             new_fact (eq_trans (eq_sym (cmp_eq_r cmp b c a H)) H')
         | H : cmp ?a ?b = Eq |- _ => new_fact (cmp_eq_sym cmp a b H)
         end; try congruence.
Ltac order :=
  repeat match goal with
         | _ => case_bool_decide
         | _ => case_decide
         | H : ~ _ <> _ |- _ => apply dec_stable in H
         end; cbn [andb orb negb]; try reflexivity; exfalso; order_facts.

(** ** Bounds *)

Lemma max_lower_above x y v :
  segment_above cmp (max_lower x y) v = segment_above cmp x v && segment_above cmp y v.
Proof.
  destruct x as [a|a|], y as [b|b|]; cbn [max_lower segment_above]; rewrite ?andb_true_r; try done;
    repeat case_decide; cbn [segment_above]; order.
Qed.

Lemma min_upper_below x y v :
  segment_below cmp (min_upper x y) v = segment_below cmp x v && segment_below cmp y v.
Proof.
  destruct x as [a|a|], y as [b|b|]; cbn [min_upper segment_below]; rewrite ?andb_true_r; try done;
    repeat case_decide; cbn [segment_below]; order.
Qed.

(** A segment without room contains nothing. *)
Lemma invalid_contains lower upper v :
  segment_valid cmp lower upper = false -> segment_contains cmp v (lower, upper) = false.
Proof.
  unfold segment_contains.
  destruct lower as [a|a|], upper as [b|b|]; cbn [segment_valid segment_above segment_below fst snd];
    try done; intros H%bool_decide_eq_false; order.
Qed.

Lemma below_lower_contains lower v :
  segments_contains (below_lower lower) v = negb (segment_above cmp lower v).
Proof.
  destruct lower; cbn; unfold segment_contains; cbn; rewrite ?orb_false_r; try done; order.
Qed.

Lemma above_upper_contains upper v :
  segments_contains (above_upper upper) v = negb (segment_below cmp upper v).
Proof.
  destruct upper; cbn; unfold segment_contains; cbn; rewrite ?orb_false_r, ?andb_true_r; try done; order.
Qed.

(** ** Lists of segments *)

Lemma segments_valid_contains l v : segments_contains (segments_valid l) v = segments_contains l v.
Proof.
  unfold segments_contains, segments_valid. induction l as [|[lower upper] l IH]; [done|].
  cbn [List.filter fst snd existsb]. destruct (segment_valid cmp lower upper) eqn:E.
  - cbn [existsb]. by rewrite IH.
  - by rewrite IH, invalid_contains.
Qed.

Lemma segments_app_contains r s v :
  segments_contains (r ++ s) v = segments_contains r v || segments_contains s v.
Proof. apply existsb_app. Qed.

Lemma segments_intersection_contains r s v :
  segments_contains (segments_intersection r s) v = segments_contains r v && segments_contains s v.
Proof.
  unfold segments_intersection. rewrite segments_valid_contains.
  induction r as [|a r IH]; [done|]. cbn [mbind list_bind]. rewrite segments_app_contains, IH.
  cbn [segments_contains existsb]. rewrite andb_orb_distrib_l. f_equal. clear IH.
  induction s as [|b s IH]; [by rewrite andb_false_r|]. cbn [fmap list_fmap segments_contains existsb].
  cbn [segments_contains existsb] in IH. rewrite andb_orb_distrib_r. unfold segments_contains in *.
  rewrite IH. f_equal. unfold segment_contains. cbn [fst snd]. rewrite max_lower_above, min_upper_below.
  by destruct (segment_above cmp a.1 v), (segment_above cmp b.1 v), (segment_below cmp a.2 v).
Qed.

Lemma segments_complement_contains r v :
  segments_contains (segments_complement r) v = negb (segments_contains r v).
Proof.
  rewrite <- (segments_valid_contains r). unfold segments_complement.
  induction (segments_valid r) as [|s l IH]; [done|]. cbn [foldr].
  rewrite segments_intersection_contains, segments_app_contains, below_lower_contains, above_upper_contains, IH.
  cbn [segments_contains existsb]. unfold segment_contains.
  by destruct (segment_above cmp s.1 v), (segment_below cmp s.2 v).
Qed.

Lemma segments_normal_contains r v : segments_contains (segments_normal r) v = segments_contains r v.
Proof. unfold segments_normal. rewrite !segments_complement_contains. apply negb_involutive. Qed.

(** How many segments contain a value. *)
Definition count (v : T) (l : list segment) : nat := length (List.filter (segment_contains cmp v) l).

Lemma count_valid v l : count v (segments_valid l) = count v l.
Proof.
  unfold count, segments_valid. induction l as [|[lower upper] l IH]; [done|]. cbn [List.filter fst snd].
  destruct (segment_valid cmp lower upper) eqn:E; cbn [List.filter].
  - destruct (segment_contains cmp v (lower, upper)); cbn [length]; by rewrite IH.
  - by rewrite invalid_contains.
Qed.

Lemma count_app v a b : count v (a ++ b) = (count v a + count v b)%nat.
Proof. unfold count. by rewrite List.filter_app, length_app. Qed.

Lemma count_intersection v a b : count v (segments_intersection a b) = (count v a * count v b)%nat.
Proof.
  unfold segments_intersection. rewrite count_valid.
  assert (Hrow : forall s, count v ((fun t => (max_lower s.1 t.1, min_upper s.2 t.2)) <$> b) =
    if segment_contains cmp v s then count v b else 0%nat).
  { intros s. unfold count. induction b as [|t b IH]; [by destruct (segment_contains cmp v s)|].
    cbn. unfold segment_contains at 1. cbn [fst snd]. rewrite max_lower_above, min_upper_below.
    unfold segment_contains in *.
    by destruct (segment_above cmp s.1 v), (segment_above cmp t.1 v), (segment_below cmp s.2 v),
      (segment_below cmp t.2 v); cbn [andb length] in *; rewrite IH. }
  induction a as [|s a IH]; [done|]. cbn [mbind list_bind]. rewrite count_app, IH, Hrow.
  unfold count at 3. cbn. destruct (segment_contains cmp v s); cbn [length]; unfold count; lia.
Qed.

(** What surrounds a segment with room does not overlap. *)
Lemma count_outside v lower upper :
  segment_valid cmp lower upper = true -> (count v (below_lower lower ++ above_upper upper) <= 1)%nat.
Proof.
  rewrite count_app. unfold count, segment_contains.
  destruct lower as [a|a|], upper as [b|b|]; cbn; try (repeat case_bool_decide; cbn; lia);
    intros H%bool_decide_eq_true; repeat case_bool_decide; cbn; try lia; exfalso; order_facts.
Qed.

Lemma segments_complement_valid r s :
  s ∈ segments_complement r -> segment_valid cmp s.1 s.2 = true.
Proof.
  unfold segments_complement. destruct (segments_valid r) as [|a l]; cbn [foldr].
  - intros ->%list_elem_of_singleton. done.
  - unfold segments_intersection, segments_valid. intros [_ H]%list_elem_of_In%filter_In. done.
Qed.

Lemma count_complement v r : (count v (segments_complement r) <= 1)%nat.
Proof.
  unfold segments_complement. assert (Hv : Forall (fun s => segment_valid cmp s.1 s.2 = true) (segments_valid r)).
  { apply Forall_forall. intros s Hs. apply list_elem_of_In, filter_In in Hs. apply Hs. }
  induction (segments_valid r) as [|s l IH]; [done|]. apply Forall_cons in Hv as [H1 H2]. cbn [foldr].
  rewrite count_intersection. pose proof (count_outside v _ _ H1). specialize (IH H2). nia.
Qed.

Lemma segments_union_contains r s v :
  segments_contains (segments_union r s) v = segments_contains r v || segments_contains s v.
Proof.
  unfold segments_union. rewrite segments_complement_contains, segments_intersection_contains.
  rewrite !segments_complement_contains. by destruct (segments_contains r v), (segments_contains s v).
Qed.

Lemma singleton_contains u v :
  segments_contains [(Included u, Included u)] v = bool_decide (cmp v u = Eq).
Proof. cbn. unfold segment_contains. cbn. rewrite orb_false_r. order. Qed.

Lemma one_contains lower upper v :
  segments_contains [(lower, upper)] v = segment_contains cmp v (lower, upper).
Proof. apply orb_false_r. Qed.

(** A single segment is normal. *)
Lemma normal_one lower upper :
  segment_valid cmp lower upper = true -> segments_normal [(lower, upper)] = [(lower, upper)].
Proof.
  intros E. unfold segments_normal, segments_complement, segments_intersection, segments_valid.
  cbn. rewrite E. destruct lower, upper; cbn in *; by rewrite ?E.
Qed.
End Model.

(** ** Points *)

Section Points.
Context {T : Type} (cmp : T -> T -> comparison) `{!OrdLaws cmp}.

Notation segment := (bound_of T * bound_of T)%type.

#[local] Existing Instance point_order.

Lemma point_cmp_lift a b : point_cmp cmp (a, 0) (b, 0) = cmp a b.
Proof. unfold point_cmp, cmp_pair. cbn. by destruct (cmp a b). Qed.

Definition lift_segment (s : segment) : bound_of (T * Z) * bound_of (T * Z) := (lift_bound s.1, lift_bound s.2).

Lemma lift_max_lower x y : lift_bound (max_lower cmp x y) = max_lower (point_cmp cmp) (lift_bound x) (lift_bound y).
Proof.
  destruct x as [a|a|], y as [b|b|]; cbn [max_lower lift_bound]; rewrite ?point_cmp_lift; try done; by case_decide.
Qed.

Lemma lift_min_upper x y : lift_bound (min_upper cmp x y) = min_upper (point_cmp cmp) (lift_bound x) (lift_bound y).
Proof.
  destruct x as [a|a|], y as [b|b|]; cbn [min_upper lift_bound]; rewrite ?point_cmp_lift; try done; by case_decide.
Qed.

Lemma lift_valid x y : segment_valid (point_cmp cmp) (lift_bound x) (lift_bound y) = segment_valid cmp x y.
Proof. destruct x as [a|a|], y as [b|b|]; cbn [segment_valid lift_bound]; by rewrite ?point_cmp_lift. Qed.

Lemma lift_segments_valid l : lift_segment <$> segments_valid cmp l = segments_valid (point_cmp cmp) (lift_segment <$> l).
Proof.
  unfold segments_valid. induction l as [|[x y] l IH]; [done|]. cbn. rewrite lift_valid.
  destruct (segment_valid cmp x y); cbn; by rewrite IH.
Qed.

Lemma lift_intersection r s :
  lift_segment <$> segments_intersection cmp r s =
    segments_intersection (point_cmp cmp) (lift_segment <$> r) (lift_segment <$> s).
Proof.
  unfold segments_intersection. rewrite lift_segments_valid. f_equal.
  induction r as [|a r IH]; [done|]. cbn [mbind list_bind fmap list_fmap]. rewrite fmap_app, IH. f_equal.
  rewrite <- !list_fmap_compose. apply list_fmap_ext. intros _ b _. cbn. unfold lift_segment. cbn.
  by rewrite lift_max_lower, lift_min_upper.
Qed.

Lemma lift_complement r :
  lift_segment <$> segments_complement cmp r = segments_complement (point_cmp cmp) (lift_segment <$> r).
Proof.
  unfold segments_complement. rewrite <- lift_segments_valid. induction (segments_valid cmp r) as [|[x y] l IH]; [done|].
  cbn [foldr fmap list_fmap]. rewrite lift_intersection, IH. f_equal. by destruct x, y.
Qed.

Definition segments_at (l : list segment) (p : T * Z) : bool := existsb (point_in cmp p) l.

Lemma segments_at_lift l p : segments_at l p = segments_contains (point_cmp cmp) (lift_segment <$> l) p.
Proof. unfold segments_at, segments_contains. induction l as [|s l IH]; [done|]. cbn. by rewrite IH. Qed.

Lemma segments_at_complement r p : segments_at (segments_complement cmp r) p = negb (segments_at r p).
Proof. rewrite !segments_at_lift, lift_complement. apply segments_complement_contains. apply _. Qed.

Lemma segments_at_intersection r s p :
  segments_at (segments_intersection cmp r s) p = segments_at r p && segments_at s p.
Proof. rewrite !segments_at_lift, lift_intersection. apply segments_intersection_contains. apply _. Qed.

Lemma segments_at_normal r p : segments_at (segments_normal cmp r) p = segments_at r p.
Proof. unfold segments_normal. rewrite !segments_at_complement. apply negb_involutive. Qed.

Lemma segments_at_union r s p : segments_at (segments_union cmp r s) p = segments_at r p || segments_at s p.
Proof.
  unfold segments_union. rewrite segments_at_complement, segments_at_intersection, !segments_at_complement.
  by destruct (segments_at r p), (segments_at s p).
Qed.

(** *** Order *)

Lemma point_above_max x y p : point_above cmp (max_lower cmp x y) p = point_above cmp x p && point_above cmp y p.
Proof. unfold point_above. rewrite lift_max_lower. apply max_lower_above. apply _. Qed.

Lemma point_below_min x y p : point_below cmp (min_upper cmp x y) p = point_below cmp x p && point_below cmp y p.
Proof. unfold point_below. rewrite lift_min_upper. apply min_upper_below. apply _. Qed.

Lemma separated_shrink (s t s' t' : segment) :
  separated cmp s t -> separated cmp (max_lower cmp s.1 s'.1, min_upper cmp s.2 s'.2) (max_lower cmp t.1 t'.1, min_upper cmp t.2 t'.2).
Proof. intros (p & H1 & H2). exists p. cbn. by rewrite point_below_min, point_above_max, H1, H2. Qed.

Lemma separated_shrink_r (s t s' t' : segment) :
  separated cmp s' t' -> separated cmp (max_lower cmp s.1 s'.1, min_upper cmp s.2 s'.2) (max_lower cmp t.1 t'.1, min_upper cmp t.2 t'.2).
Proof.
  intros (p & H1 & H2). exists p. cbn. rewrite point_below_min, point_above_max, H1, H2. by rewrite !andb_false_r.
Qed.

Lemma filter_separated (f : segment -> bool) l : StronglySorted (separated cmp) l -> StronglySorted (separated cmp) (List.filter f l).
Proof.
  induction 1 as [|s l Hl IH Hs]; [constructor|]. cbn. destruct (f s); [|done]. constructor; [done|].
  rewrite Forall_forall in *. intros t Ht%list_elem_of_In%filter_In. apply Hs, list_elem_of_In, Ht.
Qed.

Lemma intersection_separated r s :
  StronglySorted (separated cmp) r -> StronglySorted (separated cmp) s -> StronglySorted (separated cmp) (segments_intersection cmp r s).
Proof.
  intros Hr Hs. unfold segments_intersection. apply filter_separated. induction Hr as [|a r Hr IH Ha]; [constructor|].
  cbn [mbind list_bind]. apply StronglySorted_app_2; [|by eapply StronglySorted_fmap; [|exact Hs]; intros; apply separated_shrink_r|done].
  intros x1 x2 (b & -> & _)%list_elem_of_fmap (a' & (b' & -> & _)%list_elem_of_fmap & Ha')%list_elem_of_bind.
  apply separated_shrink. rewrite Forall_forall in Ha. by apply Ha.
Qed.

(** Below and above a segment that has room. *)
Lemma outside_separated lower upper :
  segment_valid cmp lower upper = true -> StronglySorted (separated cmp) (below_lower lower ++ above_upper upper).
Proof.
  assert (Hbelow : forall v, point_cmp cmp (v, -1) (v, 0) = Lt) by (intros v; unfold point_cmp, cmp_pair; by rewrite (cmp_refl cmp)).
  assert (Habove : forall v, point_cmp cmp (v, 1) (v, 0) = Gt) by (intros v; unfold point_cmp, cmp_pair; by rewrite (cmp_refl cmp)).
  assert (Hone : forall s, StronglySorted (separated cmp) [s]) by (intros s; constructor; [constructor|constructor]).
  destruct lower as [a|a|], upper as [b|b|]; cbn; intros H; try apply Hone; try constructor; try apply Hone;
    (apply Forall_cons_2; [|apply Forall_nil_2]); apply bool_decide_eq_true in H.
  - exists (a, 0). cbn. unfold point_below, point_above. cbn. rewrite !point_cmp_lift, (cmp_refl cmp). split; [done|].
    apply bool_decide_eq_false. rewrite (cmp_opp cmp a b). by destruct (cmp a b).
  - exists (a, 0). unfold point_below, point_above. cbn. rewrite !point_cmp_lift, (cmp_refl cmp). split; [done|].
    apply bool_decide_eq_false. rewrite (cmp_opp cmp a b), H. by intros Hc.
  - exists (b, 0). unfold point_below, point_above. cbn. rewrite !point_cmp_lift, (cmp_refl cmp). split; [|done].
    apply bool_decide_eq_false. rewrite (cmp_opp cmp a b), H. by intros Hc.
  - exists (a, 1). unfold point_below, point_above. cbn. split; apply bool_decide_eq_false.
    + rewrite Habove. by intros Hc.
    + unfold point_cmp, cmp_pair. cbn. rewrite (cmp_opp cmp a b), H. by intros Hc.
Qed.

Lemma complement_separated r : StronglySorted (separated cmp) (segments_complement cmp r).
Proof.
  unfold segments_complement. assert (Hv : Forall (fun s => segment_valid cmp s.1 s.2 = true) (segments_valid cmp r)).
  { apply Forall_forall. intros s Hs. apply list_elem_of_In, filter_In in Hs. apply Hs. }
  induction (segments_valid cmp r) as [|s l IH]; cbn [foldr]; [constructor; constructor|].
  apply Forall_cons in Hv as [H1 H2]. apply intersection_separated; [by apply outside_separated|by apply IH].
Qed.

(** *** Equality *)

Lemma segments_eq_at r s p : segments_eq cmp r s = true -> segments_at r p = segments_at s p.
Proof.
  revert s. induction r as [|a r IH]; intros [|b s]; try done. cbn [segments_eq segments_at existsb].
  intros [[E1 E2]%andb_true_iff E3]%andb_true_iff. unfold point_in.
  rewrite (bound_eq_above _ _ _ _ E1), (bound_eq_below _ _ _ _ E2). f_equal. by apply IH.
Qed.

Section Complete.
Context `{!Inhabited T}.

Lemma segments_at_cons a l p :
  segments_at (a :: l) p = point_above cmp a.1 p && point_below cmp a.2 p || segments_at l p.
Proof. done. Qed.

(** Segments with room, in order and apart. *)
Definition segments_apart (l : list segment) : Prop :=
  Forall (fun s => segment_valid cmp s.1 s.2 = true) l /\ StronglySorted (separated cmp) l.

Lemma apart_cons a l : segments_apart (a :: l) ->
  segment_valid cmp a.1 a.2 = true /\ segments_apart l /\ Forall (separated cmp a) l.
Proof.
  intros [[H1 H2]%Forall_cons [H3 H4]%StronglySorted_inv]. done.
Qed.

(** What is not above the first segment is in none. *)
Lemma apart_outside a l p : segments_apart (a :: l) -> point_above cmp a.1 p = false -> segments_at (a :: l) p = false.
Proof.
  intros (Hv & _ & Hs)%apart_cons Hp. apply not_true_iff_false.
  intros (t & Ht%list_elem_of_In & [Hta _]%andb_true_iff)%existsb_exists.
  apply elem_of_cons in Ht as [->|Ht]; [congruence|]. rewrite Forall_forall in Hs.
  by rewrite (separated_above cmp a t p Hv (Hs _ Ht) Hp) in Hta.
Qed.

(** A point in the gap after the first segment. *)
Lemma apart_gap a l p : segments_apart (a :: l) -> segments_at l p = true ->
  exists g, point_below cmp a.2 g = false /\ point_cmp cmp g p = Lt /\ segments_at (a :: l) g = false.
Proof.
  intros (Hv & Hl & Hs)%apart_cons Hp. destruct l as [|t l]; [done|].
  apply Forall_inv in Hs as (g & Hg1 & Hg2). exists g. split; [done|].
  pose proof (apart_outside t l g Hl Hg2) as Hout. split.
  - apply (above_split cmp t.1); [done|]. apply not_false_iff_true. intros Hta.
    by rewrite (apart_outside t l p Hl Hta) in Hp.
  - by rewrite segments_at_cons, Hg1, andb_false_r.
Qed.

Lemma same_start a r b s :
  segments_apart (a :: r) -> segments_apart (b :: s) -> (forall p, segments_at (a :: r) p = segments_at (b :: s) p) ->
  forall p, point_above cmp a.1 p = true -> point_above cmp b.1 p = true.
Proof.
  intros Ha Hb Heq p Hp. destruct (apart_cons _ _ Ha) as (Hv & _ & _). apply not_false_iff_true. intros Hpb.
  assert (exists q, point_in cmp q a = true /\ point_cmp cmp q p <> Gt) as (q & Hq & Hle).
  { destruct (point_below cmp a.2 p) eqn:Eb.
    - exists p. unfold point_in. rewrite Hp, Eb. split; [done|]. by rewrite (cmp_refl (point_cmp cmp)).
    - destruct a as [l u]. destruct (valid_point cmp l u Hv) as [q Hq]. exists q. split; [done|].
      apply andb_true_iff in Hq as [_ Hq]. by rewrite (below_split cmp u q p). }
  assert (Hqb : segments_at (b :: s) q = false).
  { apply apart_outside; [done|]. apply not_true_iff_false. intros H. by rewrite (above_mono cmp _ _ _ H Hle) in Hpb. }
  rewrite <- Heq in Hqb. cbn in Hqb. by rewrite Hq in Hqb.
Qed.

Lemma same_end a r b s :
  segments_apart (a :: r) -> segments_apart (b :: s) -> (forall p, segments_at (a :: r) p = segments_at (b :: s) p) ->
  forall p, point_below cmp a.2 p = true -> point_below cmp b.2 p = true.
Proof.
  intros Ha Hb Heq p Hp. destruct (apart_cons _ _ Hb) as (Hv & _ & _). apply not_false_iff_true. intros Hpb.
  assert (Hstart : forall q, point_below cmp b.2 q = false -> point_above cmp a.1 q = true).
  { intros q Hq. apply (same_start b s a r Hb Ha); [intros; by rewrite Heq|]. by apply (not_below_above cmp _ b.2). }
  assert (Hps : segments_at s p = true).
  { specialize (Heq p). rewrite !segments_at_cons, Hp, (Hstart p Hpb), Hpb, andb_false_r in Heq.
    exact (eq_sym Heq). }
  destruct (apart_gap b s p Hb Hps) as (g & Hg1 & Hg2 & Hg3). rewrite <- Heq, segments_at_cons in Hg3.
  by rewrite (Hstart g Hg1), (below_mono cmp a.2 g p Hp) in Hg3 by (by rewrite Hg2).
Qed.

Lemma apart_head_only a l p : segments_apart (a :: l) -> point_in cmp p a = true -> segments_at l p = false.
Proof.
  intros H Ha. apply not_true_iff_false. intros Hl. destruct (apart_gap a l p H Hl) as (g & Hg1 & Hg2 & _).
  apply andb_true_iff in Ha as [_ Ha]. by rewrite (below_mono cmp a.2 g p Ha) in Hg1 by (by rewrite Hg2).
Qed.

Lemma segments_eq_complete r s :
  segments_apart r -> segments_apart s -> (forall p, segments_at r p = segments_at s p) -> segments_eq cmp r s = true.
Proof.
  assert (Hnil : forall a l, segments_apart (a :: l) -> (forall p, segments_at (a :: l) p = false) -> False).
  { intros [x y] l H Hno. destruct (apart_cons _ _ H) as (Hv & _ & _). destruct (valid_point cmp x y Hv) as [p Hp].
    specialize (Hno p). cbn in Hno. by rewrite Hp in Hno. }
  revert s. induction r as [|a r IH]; intros [|b s] Hr Hs Heq; [done| | |].
  - exfalso. apply (Hnil b s Hs). intros p. by rewrite <- Heq.
  - exfalso. by apply (Hnil a r Hr).
  - assert (Heq' : forall p, segments_at (b :: s) p = segments_at (a :: r) p) by done.
    assert (H1 : forall p, point_above cmp a.1 p = point_above cmp b.1 p).
    { intros p. apply eq_true_iff_eq. split; by eapply same_start. }
    assert (H2 : forall p, point_below cmp a.2 p = point_below cmp b.2 p).
    { intros p. apply eq_true_iff_eq. split; by eapply same_end. }
    cbn. rewrite (above_bound_eq _ _ _ H1), (below_bound_eq _ _ _ H2). apply IH; [by apply apart_cons in Hr as (_ & ? & _)|by apply apart_cons in Hs as (_ & ? & _)|].
    intros p. specialize (Heq p). cbn in Heq. destruct (point_in cmp p a) eqn:Ea.
    + rewrite (apart_head_only a r) by done. symmetry. apply (apart_head_only b s); [done|].
      unfold point_in in *. by rewrite <- H1, <- H2.
    + assert (Eb : point_in cmp p b = false) by (unfold point_in in *; by rewrite <- H1, <- H2). by rewrite Eb in Heq.
Qed.
End Complete.

(** *** Values *)

Lemma intersection_values r s : segments_values (segments_intersection cmp r s) ⊆ segments_values r ++ segments_values s.
Proof.
  intros v (x & Hv & Hx)%list_elem_of_bind. unfold segments_intersection, segments_valid in Hx.
  apply list_elem_of_In, filter_In in Hx as [Hx%list_elem_of_In _].
  apply list_elem_of_bind in Hx as (a & (b & -> & Hb)%list_elem_of_fmap & Ha). cbn [fst snd] in Hv.
  assert (Hmax : forall x y : bound_of T, max_lower cmp x y = x \/ max_lower cmp x y = y)
    by (intros [] []; cbn; try case_decide; tauto).
  assert (Hmin : forall x y : bound_of T, min_upper cmp x y = x \/ min_upper cmp x y = y)
    by (intros [] []; cbn; try case_decide; tauto).
  apply elem_of_app. rewrite elem_of_app in Hv.
  destruct (Hmax a.1 b.1) as [E|E], (Hmin a.2 b.2) as [E'|E']; rewrite E, E' in Hv;
    (destruct Hv as [Hv|Hv]; [|]); (left; apply list_elem_of_bind; exists a; split; [|done]; apply elem_of_app; tauto) ||
    (right; apply list_elem_of_bind; exists b; split; [|done]; apply elem_of_app; tauto).
Qed.

Lemma complement_values r : segments_values (segments_complement cmp r) ⊆ segments_values r.
Proof.
  assert (Hv : segments_values (segments_valid cmp r) ⊆ segments_values r).
  { intros v (s & Hs & Hin)%list_elem_of_bind. apply list_elem_of_bind. exists s. split; [done|].
    apply list_elem_of_In, filter_In in Hin as [Hin _]. by apply list_elem_of_In. }
  unfold segments_complement. etransitivity; [|exact Hv]. clear Hv.
  induction (segments_valid cmp r) as [|[x y] l IH]; [done|]. cbn [foldr]. etransitivity; [apply intersection_values|].
  intros v [Hv|Hv]%elem_of_app.
  - apply elem_of_app. left. by destruct x, y.
  - apply elem_of_app. right. by apply IH.
Qed.

Lemma normal_values r : segments_values (segments_normal cmp r) ⊆ segments_values r.
Proof. unfold segments_normal. etransitivity; apply complement_values. Qed.

Lemma union_values r s : segments_values (segments_union cmp r s) ⊆ segments_values r ++ segments_values s.
Proof.
  unfold segments_union. etransitivity; [apply complement_values|]. etransitivity; [apply intersection_values|].
  intros v [Hv|Hv]%elem_of_app; apply elem_of_app; [left|right]; by apply complement_values.
Qed.
End Points.

(** ** The laws *)

Section Laws.
Context {T : Type} (cmp : T -> T -> comparison) `{!OrdLaws cmp, !Inhabited T}.

Lemma normal_apart r : segments_apart cmp (segments_normal cmp r).
Proof.
  split; [|by apply complement_separated]. apply Forall_forall. intros s. unfold segments_normal.
  by apply segments_complement_valid.
Qed.

Lemma segments_laws : RangeLaws cmp (RangeOps0 := segment_ops cmp).
Proof.
  split.
  - done.
  - done.
  - apply singleton_contains. apply _.
  - intros. etransitivity; [apply one_contains|apply andb_true_r].
  - intros. etransitivity; [apply one_contains|apply andb_true_r].
  - intros. apply one_contains.
  - intros. apply one_contains.
  - intros. exact (eq_trans (segments_valid_contains _ _ _) (one_contains _ _ _ _)).
  - intros r v. etransitivity; [by apply segments_complement_contains|]. f_equal. by apply segments_normal_contains.
  - intros r s v. etransitivity; [by apply segments_intersection_contains|]. f_equal; by apply segments_normal_contains.
  - intros r s v. etransitivity; [by apply segments_union_contains|]. f_equal; by apply segments_normal_contains.
  - intros r v. symmetry. by apply segments_normal_contains.
  - intros l v. by apply segments_normal_contains.
  - intros r. apply Forall_forall. intros s. cbn. unfold segments_normal. by apply segments_complement_valid.
  - intros r v. by apply count_complement.
  - intros lower upper E. cbn. unfold segments_valid. cbn. rewrite E. by apply normal_one.
  - done.
  - done.
  - done.
  - intros r s. split.
    + intros E p. by apply segments_eq_at.
    + intros H. apply segments_eq_complete; try apply normal_apart; done.
  - done.
  - by apply normal_one.
  - intros u. apply normal_one. cbn. by rewrite (cmp_refl cmp).
  - intros u. by apply normal_one.
  - intros u. by apply normal_one.
  - intros u. by apply normal_one.
  - intros u. by apply normal_one.
  - intros lower upper E. cbn. unfold segments_valid. cbn. by rewrite E.
  - intros r. by apply complement_separated.
  - intros l p. cbn. etransitivity; by apply segments_at_normal.
  - intros r p. cbn. etransitivity; [by apply segments_at_normal|]. by apply segments_at_complement.
  - intros r s p. cbn. etransitivity; [by apply segments_at_normal|]. by apply segments_at_intersection.
  - intros r s p. cbn. etransitivity; [by apply segments_at_normal|]. by apply segments_at_union.
  - intros r. cbn. etransitivity; [by apply normal_values|]. by apply complement_values.
  - intros r s. cbn. etransitivity; [by apply normal_values|]. by apply intersection_values.
  - intros r s. cbn. etransitivity; [by apply normal_values|]. by apply union_values.
  - intros l. cbn. etransitivity; apply normal_values.
Qed.
End Laws.
