(* ===== verification/MarkerTypes.v ===== *)
(** * Markers: data

    The data of the marker algebra of [crates/uv-pep508/src/marker]: marker variables and
    expressions ([tree.rs]), their canonical forms ([lowering.rs]), and the nodes of the decision
    diagrams ([algebra.rs]), with the order of the variables and the arithmetic of node references.
    A string is its list of bytes. *)

From stdpp Require Import base countable list option numbers decidable sorting strings.
From Stdlib Require Import ZArith Lia.
From S2P Require Import Prelude Ranges VersionTypes VersionSmall Version VersionOrder VersionParser.
From S2P Require Import VersionSpecifier Normalize VersionRanges.

Local Open Scope Z_scope.

(** ** Keys *)

Inductive MarkerValueVersion : Type :=
| MvImplementationVersion | MvPythonFullVersion | MvPythonVersion.

Inductive MarkerValueString : Type :=
| MvImplementationName | MvOsName | MvOsNameDeprecated | MvPlatformMachine
| MvPlatformMachineDeprecated | MvPlatformPythonImplementation
| MvPlatformPythonImplementationDeprecated | MvPythonImplementationDeprecated | MvPlatformRelease
| MvPlatformSystem | MvPlatformVersion | MvPlatformVersionDeprecated | MvSysPlatform
| MvSysPlatformDeprecated.

Inductive MarkerValueList : Type := ListExtras | ListDependencyGroups.

Inductive CanonicalMarkerValueVersion : Type := ImplementationVersion | PythonFullVersion.

Inductive CanonicalMarkerValueString : Type :=
| OsName | SysPlatform | PlatformSystem | PlatformMachine | PlatformPythonImplementation
| PlatformRelease | PlatformVersion | ImplementationName.

(** [From<MarkerValueString> for CanonicalMarkerValueString]. *)
Definition canonical_string (value : MarkerValueString) : CanonicalMarkerValueString :=
  match value with
  | MvImplementationName => ImplementationName
  | MvOsName | MvOsNameDeprecated => OsName
  | MvPlatformMachine | MvPlatformMachineDeprecated => PlatformMachine
  | MvPlatformPythonImplementation | MvPlatformPythonImplementationDeprecated
  | MvPythonImplementationDeprecated => PlatformPythonImplementation
  | MvPlatformRelease => PlatformRelease
  | MvPlatformSystem => PlatformSystem
  | MvPlatformVersion | MvPlatformVersionDeprecated => PlatformVersion
  | MvSysPlatform | MvSysPlatformDeprecated => SysPlatform
  end.

(** [From<CanonicalMarkerValueString> for MarkerValueString]. *)
Definition marker_value_string (value : CanonicalMarkerValueString) : MarkerValueString :=
  match value with
  | ImplementationName => MvImplementationName
  | OsName => MvOsName
  | PlatformMachine => MvPlatformMachine
  | PlatformPythonImplementation => MvPlatformPythonImplementation
  | PlatformRelease => MvPlatformRelease
  | PlatformSystem => MvPlatformSystem
  | PlatformVersion => MvPlatformVersion
  | SysPlatform => MvSysPlatform
  end.

(** [From<CanonicalMarkerValueVersion> for MarkerValueVersion]. *)
Definition marker_value_version (value : CanonicalMarkerValueVersion) : MarkerValueVersion :=
  match value with
  | ImplementationVersion => MvImplementationVersion
  | PythonFullVersion => MvPythonFullVersion
  end.

(** The derived orders follow the declarations. *)
Definition canonical_string_rank (k : CanonicalMarkerValueString) : Z :=
  match k with
  | OsName => 0 | SysPlatform => 1 | PlatformSystem => 2 | PlatformMachine => 3
  | PlatformPythonImplementation => 4 | PlatformRelease => 5 | PlatformVersion => 6
  | ImplementationName => 7
  end.

Definition canonical_version_rank (k : CanonicalMarkerValueVersion) : Z :=
  match k with ImplementationVersion => 0 | PythonFullVersion => 1 end.

Definition marker_list_rank (k : MarkerValueList) : Z :=
  match k with ListExtras => 0 | ListDependencyGroups => 1 end.

(** [self <= Self::PlatformSystem]. *)
Definition is_conflicting (k : CanonicalMarkerValueString) : bool :=
  canonical_string_rank k <=? canonical_string_rank PlatformSystem.

#[export] Instance marker_version_eq_dec : EqDecision MarkerValueVersion.
Proof. solve_decision. Defined.
#[export] Instance canonical_string_eq_dec : EqDecision CanonicalMarkerValueString.
Proof. solve_decision. Defined.
#[export] Instance canonical_version_eq_dec : EqDecision CanonicalMarkerValueVersion.
Proof. solve_decision. Defined.
#[export] Instance marker_list_eq_dec : EqDecision MarkerValueList.
Proof. solve_decision. Defined.

(** ** Operators and expressions *)

Inductive MarkerOperator : Type :=
| MEqual | MNotEqual | MGreaterThan | MGreaterEqual | MLessThan | MLessEqual | MTildeEqual
| MIn | MNotIn | MContains | MNotContains.

Inductive ExtraOperator : Type := ExtraEqual | ExtraNotEqual.

Inductive ContainerOperator : Type := ContainerIn | ContainerNotIn.

#[export] Instance container_operator_eq_dec : EqDecision ContainerOperator.
Proof. solve_decision. Defined.

Definition to_pep440_operator (o : MarkerOperator) : option Operator :=
  match o with
  | MEqual => Some Equal
  | MNotEqual => Some NotEqual
  | MGreaterThan => Some GreaterThan
  | MGreaterEqual => Some GreaterThanEqual
  | MLessThan => Some LessThan
  | MLessEqual => Some LessThanEqual
  | MTildeEqual => Some TildeEqual
  | _ => None
  end.

Definition marker_operator_invert (o : MarkerOperator) : MarkerOperator :=
  match o with
  | MLessThan => MGreaterThan
  | MLessEqual => MGreaterEqual
  | MGreaterThan => MLessThan
  | MGreaterEqual => MLessEqual
  | MEqual => MEqual
  | MNotEqual => MNotEqual
  | MTildeEqual => MTildeEqual
  | MIn => MContains
  | MNotIn => MNotContains
  | MContains => MIn
  | MNotContains => MNotIn
  end.

(** [ExtraOperator::from_marker_operator] and [ContainerOperator::from_marker_operator]. *)
Definition extra_operator_from (operator : MarkerOperator) : option ExtraOperator :=
  match operator with
  | MEqual => Some ExtraEqual
  | MNotEqual => Some ExtraNotEqual
  | _ => None
  end.

Definition container_operator_from (operator : MarkerOperator) : option ContainerOperator :=
  match operator with
  | MIn => Some ContainerIn
  | MNotIn => Some ContainerNotIn
  | _ => None
  end.

Definition ExtraName : Type := list Z.

(** A valid name, or an invalid one kept as it is. *)
Inductive MarkerValueExtra : Type :=
| ExtraValid (extra : list Z)
| ExtraArbitrary (name : list Z).

Inductive CanonicalMarkerListPair : Type :=
| PairExtras (extra : list Z)
| PairDependencyGroup (group : list Z)
| PairArbitrary (key : MarkerValueList) (value : list Z).

#[export] Instance marker_pair_eq_dec : EqDecision CanonicalMarkerListPair.
Proof. solve_decision. Defined.

Definition pair_key (p : CanonicalMarkerListPair) : MarkerValueList :=
  match p with
  | PairExtras _ => ListExtras
  | PairDependencyGroup _ => ListDependencyGroups
  | PairArbitrary key _ => key
  end.

Definition pair_value (p : CanonicalMarkerListPair) : list Z :=
  match p with
  | PairExtras v | PairDependencyGroup v | PairArbitrary _ v => v
  end.

Inductive MarkerExpression : Type :=
| ExprVersion (key : MarkerValueVersion) (specifier : VersionSpecifier)
| ExprVersionIn (key : MarkerValueVersion) (versions : list Version) (operator : ContainerOperator)
| ExprString (key : MarkerValueString) (operator : MarkerOperator) (value : list Z)
| ExprList (pair : CanonicalMarkerListPair) (operator : ContainerOperator)
| ExprExtra (name : MarkerValueExtra) (operator : ExtraOperator).

(** ** Variables *)

(** The variable of a decision; the order of declaration is the order of the diagrams. *)
Inductive MarkerVariable : Type :=
| VarString (key : CanonicalMarkerValueString)
| VarVersionString (key : CanonicalMarkerValueString)
| VarVersion (key : CanonicalMarkerValueVersion)
| VarIn (key : CanonicalMarkerValueString) (value : list Z)
| VarContains (key : CanonicalMarkerValueString) (value : list Z)
| VarExtra (extra : list Z)
| VarList (pair : CanonicalMarkerListPair).

#[export] Instance variable_eq_dec : EqDecision MarkerVariable.
Proof. solve_decision. Defined.

(** The derived order: by variant, then by its fields. *)
Definition variable_key (v : MarkerVariable) : Z * (Z * (Z * list Z)) :=
  match v with
  | VarString k => (0, (canonical_string_rank k, (0, [])))
  | VarVersionString k => (1, (canonical_string_rank k, (0, [])))
  | VarVersion k => (2, (canonical_version_rank k, (0, [])))
  | VarIn k value => (3, (canonical_string_rank k, (0, value)))
  | VarContains k value => (4, (canonical_string_rank k, (0, value)))
  | VarExtra extra => (5, (0, (0, extra)))
  | VarList (PairExtras extra) => (6, (0, (0, extra)))
  | VarList (PairDependencyGroup group) => (6, (1, (0, group)))
  | VarList (PairArbitrary key value) => (6, (2, (marker_list_rank key, value)))
  end.

Definition variable_cmp : MarkerVariable -> MarkerVariable -> comparison :=
  cmp_on variable_key
    (cmp_pair Z.compare (cmp_pair Z.compare (cmp_pair Z.compare (cmp_list Z.compare)))).

#[export] Instance ord_variable : OrdLaws variable_cmp.
Proof. apply ord_on, _. Qed.

Lemma canonical_string_rank_inj j k : canonical_string_rank j = canonical_string_rank k -> j = k.
Proof. by destruct j, k. Qed.

Lemma variable_key_inj v w : variable_key v = variable_key w -> v = w.
Proof.
  destruct v as [k|k|[]|k s|k s|e|[e|g|[] s]], w as [k'|k'|[]|k' s'|k' s'|e'|[e'|g'|[] s']]; cbn;
    intros E; simplify_eq; try reflexivity;
    match goal with H : canonical_string_rank _ = _ |- _ => by apply canonical_string_rank_inj in H as -> end.
Qed.

#[export] Instance ord_exact_variable : OrdExact variable_cmp.
Proof. intros v w E. by apply variable_key_inj, (cmp_exact (cmp_pair _ _)). Qed.

Definition is_conflicting_variable (v : MarkerVariable) : bool :=
  match v with
  | VarString marker => is_conflicting marker
  | _ => false
  end.

(** ** Node references *)

(** The lowest bit is set for a complemented reference; the two smallest are the terminals. *)
Definition NodeId : Type := Z.

Definition NODE_TRUE : NodeId := 0.
Definition NODE_FALSE : NodeId := 1.

Definition node_new (index : nat) (complement : bool) : NodeId :=
  Z.lor (Z.shiftl (Z.of_nat index + 1) 1) (if complement then 1 else 0).

(** Of a reference to a node, the position of the node. *)
Definition node_index (i : NodeId) : nat := Z.to_nat (Z.shiftr i 1 - 1).

Definition node_is_complement (i : NodeId) : bool := Z.land i 1 =? 1.

Definition node_not (i : NodeId) : NodeId := Z.lxor i 1.

Definition node_negate (i parent : NodeId) : NodeId :=
  if node_is_complement parent then node_not i else i.

Definition node_is_false (i : NodeId) : bool := i =? NODE_FALSE.
Definition node_is_true (i : NodeId) : bool := i =? NODE_TRUE.

Definition and_trivial (self other : NodeId) : option NodeId :=
  if node_is_true self then Some other
  else if node_is_true other then Some self
  else if self =? other then Some self
  else if node_is_false self || node_is_false other then Some NODE_FALSE
  else if node_not self =? other then Some NODE_FALSE
  else None.

Definition or_trivial (self other : NodeId) : option NodeId :=
  node_not <$> and_trivial (node_not self) (node_not other).

Definition is_disjoint_trivial (self other : NodeId) : option bool :=
  node_is_false <$> and_trivial self other.

(** ** Nodes *)

Section Nodes.
Context `{!RangeOps Version, !RangeOps (list Z)}.

Inductive Edges : Type :=
| EdgesVersion (edges : list (range Version * NodeId))
| EdgesString (edges : list (range (list Z) * NodeId))
| EdgesBoolean (high low : NodeId).

Record Node : Type := mkNode {
  node_var : MarkerVariable;
  node_children : Edges
}.

Definition edges_nodes (e : Edges) : list NodeId :=
  match e with
  | EdgesVersion edges => edges.*2
  | EdgesString edges => edges.*2
  | EdgesBoolean high low => [high; low]
  end.

Definition has_multiple_nonterminal_children (e : Edges) : bool :=
  (2 <=? length (List.filter (fun node => negb (node_is_true node) && negb (node_is_false node))
                  (edges_nodes e)))%nat.

Definition edges_not (e : Edges) : Edges :=
  match e with
  | EdgesVersion edges => EdgesVersion ((fun '(range, node) => (range, node_not node)) <$> edges)
  | EdgesString edges => EdgesString ((fun '(range, node) => (range, node_not node)) <$> edges)
  | EdgesBoolean high low => EdgesBoolean (node_not high) (node_not low)
  end.

(** Derived equality; ranges compare their segments. *)
Fixpoint range_edges_eq {T : Type} `{!RangeOps T} (a b : list (range T * NodeId)) : bool :=
  match a, b with
  | [], [] => true
  | (r, i) :: a', (s, j) :: b' => range_eq r s && (i =? j) && range_edges_eq a' b'
  | _, _ => false
  end.

Definition edges_eq (a b : Edges) : bool :=
  match a, b with
  | EdgesVersion a, EdgesVersion b => range_edges_eq a b
  | EdgesString a, EdgesString b => range_edges_eq a b
  | EdgesBoolean h l, EdgesBoolean h' l' => (h =? h') && (l =? l')
  | _, _ => false
  end.

Definition node_eq (a b : Node) : bool :=
  bool_decide (node_var a = node_var b) && edges_eq (node_children a) (node_children b).

Definition edges_from_bool (complemented : bool) : Edges :=
  if complemented then EdgesBoolean NODE_TRUE NODE_FALSE else EdgesBoolean NODE_FALSE NODE_TRUE.
End Nodes.

(** * Markers: the edges of expressions

    The edges that [crates/uv-pep508/src/marker/algebra.rs] gives a marker expression: ranges of
    strings and versions with a child for each segment, and the translation of [python_version]
    comparisons to [python_full_version]. A panic is [None]. *)

(** Equality of [ArcStr] and of [Version], as [Ord]. *)
Definition string_cmp : list Z -> list Z -> comparison := cmp_list Z.compare.

Section RangeEdges.
Context {T : Type} (cmp : T -> T -> comparison) `{!RangeOps T}.

(** [None] is a panic of [bounding_range().unwrap()]. *)
Definition compare_disjoint_range_start (range1 range2 : range T) : option comparison :=
  b1 ← range_bounding range1;
  b2 ← range_bounding range2;
  Some (match b1.1, b2.1 with
        | Unbounded, _ => Lt
        | _, Unbounded => Gt
        | Included v1, Excluded v2 => if decide (cmp v1 v2 = Eq) then Lt else cmp v1 v2
        | Excluded v1, Included v2 => if decide (cmp v1 v2 = Eq) then Gt else cmp v1 v2
        | Included v1, Included v2 | Excluded v1, Excluded v2 => cmp v1 v2
        end).

Definition can_conjoin (range1 range2 : range T) : bool :=
  match range_bounding range1, range_bounding range2 with
  | Some (_, last), Some (start, _) => bounds_meet cmp last start
  | _, _ => false
  end.

(** The ranges of [from_range] are not empty, so that the comparison does not panic; the default is
    not used. *)
Definition from_range (r : range T) : list (range T * NodeId) :=
  let true_edges := (fun s => (range_from_bounds s.1 s.2, NODE_TRUE)) <$> range_iter r in
  let false_edges := (fun s => (range_from_bounds s.1 s.2, NODE_FALSE)) <$> range_iter (range_complement r) in
  sort_by (fun a b => default Lt (compare_disjoint_range_start a.1 b.1)) (true_edges ++ false_edges).

(** Add a range with its child, or widen the last range when it has the same child. *)
Definition push_edge (edges : list (range T * NodeId)) (r : range T) (child : NodeId) :
    list (range T * NodeId) :=
  match last edges with
  | Some (previous_range, previous) =>
      if (previous =? child) && can_conjoin previous_range r
      then take (length edges - 1) edges ++ [(range_union previous_range r, previous)]
      else edges ++ [(r, child)]
  | None => [(r, child)]
  end.
End RangeEdges.

(** ** [python_version] *)

(** The range operations, as [VersionRanges] names them. *)
Section PythonVersion.
Context `{!RangeOps Version}.

#[local] Instance version_ranges : RangesType :=
  {| Ranges := range Version; ranges_contains := range_contains |}.
#[local] Instance version_algebra : RangesAlgebra := {|
  ranges_full := range_full;
  ranges_singleton := range_singleton;
  ranges_higher_than := range_higher_than;
  ranges_strictly_higher_than := range_strictly_higher_than;
  ranges_lower_than := range_lower_than;
  ranges_strictly_lower_than := range_strictly_lower_than;
  ranges_between v1 v2 := range_from_bounds (Included v1) (Excluded v2);
  ranges_from_range v1 v2 := range_from_bounds (Included v1) (Excluded v2);
  ranges_complement := range_complement;
  ranges_intersection := range_intersection
|}.

(** [release_specifier_to_range(specifier, true)]. *)
Definition specifier_range (specifier : VersionSpecifier) : option (range Version) :=
  release_specifier_to_range specifier true.
End PythonVersion.

Definition all_zero (l : list Z) : bool := forallb (fun x => x =? 0) l.

(** A constant node in place of a specifier is [inr]. *)
Definition python_version_to_full_version (specifier : VersionSpecifier) :
    option (VersionSpecifier + NodeId) :=
  let operator := specifier_operator specifier in
  let release := version_release (specifier_version specifier) in
  if operator_is_star operator then
    match release with
    | [_] => Some (inl specifier)
    | major :: minor :: rest =>
        if all_zero rest then
          python_version ← version_new [major; minor];
          match specifier_from_version operator python_version with
          | Ok s => Some (inl s)
          | Err _ => None
          end
        else Some (inr NODE_FALSE)
    | [] => Some (inr NODE_FALSE)
    end
  else if bool_decide (operator = TildeEqual) then
    match release with
    | [_; _] => Some (inl specifier)
    | major :: minor :: rest =>
        if all_zero rest then
          python_version ← version_new [major; minor];
          Some (inl (equals_star_version python_version))
        else Some (inr NODE_FALSE)
    | _ => Some (inr NODE_FALSE)
    end
  else
    trimmed ← version_only_release_trimmed (specifier_version specifier);
    match version_release trimmed with
    | [_] | [_; _] =>
        let major := default 0 (version_release trimmed !! 0%nat) in
        let minor := default 0 (version_release trimmed !! 1%nat) in
        version ← version_new [major; minor];
        match operator with
        | Equal | ExactEqual => Some (inl (equals_star_version version))
        | NotEqual => Some (inl (not_equals_star_version version))
        | GreaterThan =>
            next ← version_new [major; u64_wrapping_add minor 1];
            Some (inl (greater_than_equal_version next))
        | LessThan =>
            if (major =? 0) && (minor =? 0) then Some (inr NODE_FALSE) else Some (inl specifier)
        | GreaterThanEqual =>
            if (major =? 0) && (minor =? 0) then Some (inr NODE_TRUE) else Some (inl specifier)
        | LessThanEqual =>
            next ← version_new [major; u64_wrapping_add minor 1];
            Some (inl (less_than_version next))
        | EqualStar | NotEqualStar | TildeEqual => None
        end
    | _ =>
        match release with
        | major :: minor :: _ =>
            match operator with
            | Equal | ExactEqual => Some (inr NODE_FALSE)
            | NotEqual => Some (inr NODE_TRUE)
            | LessThan | LessThanEqual =>
                next ← version_new [major; u64_wrapping_add minor 1];
                Some (inl (less_than_version next))
            | GreaterThan | GreaterThanEqual =>
                next ← version_new [major; u64_wrapping_add minor 1];
                Some (inl (greater_than_equal_version next))
            | EqualStar | NotEqualStar | TildeEqual => None
            end
        | _ => None
        end
    end.

(** ** Expressions *)

Section Expressions.
Context `{!RangeOps Version, !RangeOps (list Z)}.

(** Orders of [platform_release] and [platform_version] are lexicographic, those of other keys are
    equality or nothing. *)
Definition string_range (key : CanonicalMarkerValueString) (operator : MarkerOperator) (value : list Z) :
    option (range (list Z)) :=
  let ordered := bool_decide (key = PlatformRelease) || bool_decide (key = PlatformVersion) in
  match operator with
  | MGreaterThan => Some (if ordered then range_strictly_higher_than value else range_empty)
  | MGreaterEqual => Some (if ordered then range_higher_than value else range_singleton value)
  | MLessThan => Some (if ordered then range_strictly_lower_than value else range_empty)
  | MLessEqual => Some (if ordered then range_lower_than value else range_singleton value)
  | MEqual => Some (range_singleton value)
  | MNotEqual => Some (range_complement (range_singleton value))
  | MTildeEqual | MIn | MNotIn | MContains | MNotContains => None
  end.

Definition edges_from_string (key : CanonicalMarkerValueString) (operator : MarkerOperator)
    (value : list Z) : option Edges :=
  r ← string_range key operator value;
  Some (EdgesString (from_range string_cmp r)).

Definition edges_from_specifier (specifier : VersionSpecifier) : option Edges :=
  specifier ← specifier_only_release specifier;
  r ← specifier_range specifier;
  Some (EdgesVersion (from_range version_cmp r)).

Definition negated_if (operator : ContainerOperator) (r : range Version) : range Version :=
  if decide (operator = ContainerNotIn) then range_complement r else r.

(** The segments of the versions, or the first constant. *)
Fixpoint python_version_segments (versions : list Version) :
    option (list (Bound * Bound) + NodeId) :=
  match versions with
  | [] => Some (inl [])
  | version :: versions' =>
      release ← version_only_release version;
      specifier ← python_version_to_full_version (equals_version release);
      match specifier with
      | inr node => Some (inr node)
      | inl specifier =>
          r ← specifier_range specifier;
          rest ← python_version_segments versions';
          match rest with
          | inr node => Some (inr node)
          | inl segments => Some (inl (range_iter r ++ segments))
          end
      end
  end.

Definition edges_from_python_versions (versions : list Version) (operator : ContainerOperator) :
    option (Edges + NodeId) :=
  segments ← python_version_segments versions;
  match segments with
  | inr node => Some (inr node)
  | inl segments =>
      Some (inl (EdgesVersion (from_range version_cmp (negated_if operator (range_collect segments)))))
  end.

Definition edges_from_versions (versions : list Version) (operator : ContainerOperator) : option Edges :=
  releases ← mapM version_only_release versions;
  let segments := (fun version => (Included version, Included version)) <$> releases in
  Some (EdgesVersion (from_range version_cmp (negated_if operator (range_collect segments)))).
End Expressions.
