(* ===== verification/Interner.v ===== *)
(** * Markers: the interner

    The marker algebra of [crates/uv-pep508/src/marker/algebra.rs]: the table of decision nodes and
    the operations on it. An operation is a function of the interner and of a local cache (the
    hash maps that some operations create), which it returns changed; [None] is a panic, or an
    exhausted recursion bound, which [InternerFacts] excludes. Assertions of debug builds are left
    out. *)

From stdpp Require Import base countable list option numbers decidable strings gmap.
From Stdlib Require Import ZArith Lia.
From S2P Require Import Prelude Ranges VersionTypes VersionSmall Version VersionOrder.
From S2P Require Import VersionParser VersionSpecifier MarkerTypes.

Local Open Scope Z_scope.

(** ** State *)

Section Interner.
Context {RV : RangeOps Version} {RS : RangeOps (list Z)}.

(** The nodes, the references to them that the hash table of unique nodes holds, the results of
    conjunctions, and the exclusions once they are computed. *)
Record Interner : Type := mkInterner {
  nodes : list Node;
  unique : list NodeId;
  cache : gmap (Z * Z) Z;
  exclusions_cache : option NodeId
}.

Definition interner_new : Interner := mkInterner [] [] ∅ None.

(** An operation with a local cache of type [C]. *)
Definition M (C A : Type) : Type := Interner * C -> option (A * (Interner * C)).

Definition ret {C A : Type} (a : A) : M C A := fun s => Some (a, s).
Definition panic {C A : Type} : M C A := fun _ => None.
Definition bind {C A B : Type} (m : M C A) (k : A -> M C B) : M C B :=
  fun s => '(a, s') ← m s; k a s'.
Definition lift_option {C A : Type} (o : option A) : M C A := fun s => a ← o; Some (a, s).

(** A computation with a fresh local cache. *)
Definition with_cache {C D A : Type} (d : D) (m : M D A) : M C A :=
  fun s => '(a, s') ← m (s.1, d); Some (a, (s'.1, s.2)).

Definition get_local {C : Type} : M C C := fun s => Some (s.2, s).
Definition set_local {C : Type} (c : C) : M C () := fun s => Some ((), (s.1, c)).
Definition get_interner {C : Type} : M C Interner := fun s => Some (s.1, s).
Definition set_interner {C : Type} (st : Interner) : M C () := fun s => Some ((), (st, s.2)).
End Interner.

Notation "'let!' x ':=' m 'in' k" := (bind m (fun x => k))
  (at level 200, x pattern, m at level 100, k at level 200) : uv_scope.
Notation "m ';;' k" := (bind m (fun _ => k)) (at level 100, right associativity) : uv_scope.

Local Open Scope uv_scope.

Section Operations.
Context {RV : RangeOps Version} {RS : RangeOps (list Z)}.

(** ** Nodes *)

(** A terminal has no node. *)
Definition node_at (table : list Node) (i : NodeId) : option Node :=
  if node_is_true i || node_is_false i then None else table !! node_index i.

(** [self.shared.node(id)]. *)
Definition get_node {C : Type} (i : NodeId) : M C Node :=
  let! st := get_interner in lift_option (node_at (nodes st) i).

(** The entry of the hash table that is equal to a node. *)
Definition find_unique (st : Interner) (node : Node) : option NodeId :=
  List.find (fun id => match node_at (nodes st) id with
                       | Some stored => node_eq stored node
                       | None => false
                       end) (unique st).

Definition create_node {C : Type} (var : MarkerVariable) (children : Edges) : M C NodeId :=
  let! first := lift_option (head (edges_nodes children)) in
  let flipped := node_is_complement first in
  let children := if flipped then edges_not children else children in
  let first := if flipped then node_not first else first in
  if forallb (fun node => node =? first) (edges_nodes children) then
    ret (if flipped then node_not first else first)
  else
    let node := mkNode var children in
    let! st := get_interner in
    let! id :=
      match find_unique st node with
      | Some id => ret id
      | None =>
          let id := node_new (length (nodes st)) false in
          set_interner (mkInterner (nodes st ++ [node]) (unique st ++ [id]) (cache st) (exclusions_cache st)) ;;
          ret id
      end in
    ret (if flipped then node_not id else id).

(** ** Edges *)

Section Ranges.
Context {C T : Type} (cmp : T -> T -> comparison) `{!RangeOps T}.

Fixpoint map_ranges (f : NodeId -> M C NodeId) (edges : list (range T * NodeId)) (parent : NodeId)
    (mapped : list (range T * NodeId)) : M C (list (range T * NodeId)) :=
  match edges with
  | [] => ret mapped
  | (r, child) :: edges' =>
      let! child := f (node_negate child parent) in
      map_ranges f edges' parent (push_edge cmp mapped r child)
  end.

(** The inner loop, for a left edge. *)
Fixpoint apply_right (apply : NodeId -> NodeId -> M C NodeId) (left_range : range T) (left : NodeId)
    (right_edges : list (range T * NodeId)) (right_parent : NodeId)
    (combined : list (range T * NodeId)) : M C (list (range T * NodeId)) :=
  match right_edges with
  | [] => ret combined
  | (right_range, right_child) :: right_edges' =>
      let intersection := range_intersection right_range left_range in
      if range_is_empty intersection then
        apply_right apply left_range left right_edges' right_parent combined
      else
        let! node := apply left (node_negate right_child right_parent) in
        apply_right apply left_range left right_edges' right_parent
          (push_edge cmp combined intersection node)
  end.

Fixpoint apply_ranges (apply : NodeId -> NodeId -> M C NodeId)
    (left_edges : list (range T * NodeId)) (left_parent : NodeId)
    (right_edges : list (range T * NodeId)) (right_parent : NodeId)
    (combined : list (range T * NodeId)) : M C (list (range T * NodeId)) :=
  match left_edges with
  | [] => ret combined
  | (left_range, left_child) :: left_edges' =>
      let! combined :=
        apply_right apply left_range (node_negate left_child left_parent) right_edges right_parent combined in
      apply_ranges apply left_edges' left_parent right_edges right_parent combined
  end.
End Ranges.

Definition edges_map {C : Type} (self : Edges) (parent : NodeId) (f : NodeId -> M C NodeId) : M C Edges :=
  match self with
  | EdgesVersion edges =>
      let! edges := map_ranges version_cmp f edges parent [] in ret (EdgesVersion edges)
  | EdgesString edges =>
      let! edges := map_ranges string_cmp f edges parent [] in ret (EdgesString edges)
  | EdgesBoolean high low =>
      let! low := f (node_negate low parent) in
      let! high := f (node_negate high parent) in
      ret (EdgesBoolean high low)
  end.

Definition edges_apply {C : Type} (self : Edges) (parent : NodeId) (right_edges : Edges)
    (right_parent : NodeId) (apply : NodeId -> NodeId -> M C NodeId) : M C Edges :=
  match self, right_edges with
  | EdgesVersion edges, EdgesVersion right_edges =>
      let! edges := apply_ranges version_cmp apply edges parent right_edges right_parent [] in
      ret (EdgesVersion edges)
  | EdgesString edges, EdgesString right_edges =>
      let! edges := apply_ranges string_cmp apply edges parent right_edges right_parent [] in
      ret (EdgesString edges)
  | EdgesBoolean high low, EdgesBoolean right_high right_low =>
      let! high := apply (node_negate high parent) (node_negate right_high right_parent) in
      let! low := apply (node_negate low parent) (node_negate right_low right_parent) in
      ret (EdgesBoolean high low)
  | _, _ => panic
  end.

(** ** Disjointness *)

(** [all], with a test that may panic; it stops at the first failure. *)
Fixpoint all_option {A : Type} (f : A -> option bool) (l : list A) : option bool :=
  match l with
  | [] => Some true
  | a :: l' => b ← f a; if (b : bool) then all_option f l' else Some false
  end.

Section Disjoint.
Context (disjointness : NodeId -> NodeId -> option bool).

Definition is_disjoint_ranges {T : Type} `{!RangeOps T} (left_edges : list (range T * NodeId))
    (left_parent : NodeId) (right_edges : list (range T * NodeId)) (right_parent : NodeId) :
    option bool :=
  all_option (fun '(left_range, left_child) =>
    all_option (fun '(right_range, right_child) =>
      if range_is_disjoint right_range left_range then Some true
      else disjointness (node_negate left_child left_parent) (node_negate right_child right_parent))
    right_edges) left_edges.

Definition edges_is_disjoint (self : Edges) (parent : NodeId) (right_edges : Edges)
    (right_parent : NodeId) : option bool :=
  match self, right_edges with
  | EdgesVersion edges, EdgesVersion right_edges => is_disjoint_ranges edges parent right_edges right_parent
  | EdgesString edges, EdgesString right_edges => is_disjoint_ranges edges parent right_edges right_parent
  | EdgesBoolean high low, EdgesBoolean right_high right_low =>
      b ← disjointness (node_negate high parent) (node_negate right_high right_parent);
      if (b : bool) then disjointness (node_negate low parent) (node_negate right_low right_parent)
      else Some false
  | _, _ => None
  end.

(** The expansion of the variable that comes first; it does not change the interner. *)
Definition disjoint_expansion (table : list Node) (xi yi : NodeId) : option bool :=
  x ← node_at table xi;
  y ← node_at table yi;
  match variable_cmp (node_var x) (node_var y) with
  | Lt => all_option (fun x => disjointness (node_negate x xi) yi) (edges_nodes (node_children x))
  | Gt => all_option (fun y => disjointness (node_negate y yi) xi) (edges_nodes (node_children y))
  | Eq => edges_is_disjoint (node_children x) xi (node_children y) yi
  end.
End Disjoint.

Fixpoint disjointness (fuel : nat) (table : list Node) (xi yi : NodeId) : option bool :=
  if node_is_false xi || node_is_false yi then Some true
  else if node_is_true xi || node_is_true yi then Some false
  else if xi =? yi then Some false
  else if node_not xi =? yi then Some true
  else
    match fuel with
    | O => None
    | S fuel => disjoint_expansion (disjointness fuel table) table xi yi
    end.

(** The bound on recursion: children are older than their parents. *)
Definition node_rank (i : NodeId) : nat :=
  if node_is_true i || node_is_false i then 0 else S (node_index i).

Definition disjoint_nodes (table : list Node) (xi yi : NodeId) : option bool :=
  disjointness (node_rank xi + node_rank yi) table xi yi.
End Operations.
