(* ===== verification/EdgesOrder.v ===== *)
(** * Markers: the order of edges

    The edges of a decision on a version or a string are a partition of the line: every range is a
    single segment, the ranges are in order, and they cover every point. This is what the comment on
    [Edges] in [algebra.rs] promises; the functions that build edges keep it. *)

From stdpp Require Import base countable list option numbers decidable strings gmap sorting.
From Stdlib Require Import ZArith Lia.
From S2P Require Import Prelude Ranges VersionTypes VersionSmall Version VersionOrder VersionCacheKey.
From S2P Require Import VersionParser VersionSpecifier MarkerTypes Interner.

Local Open Scope Z_scope.
Local Open Scope uv_scope.

(** ** Ranges of one segment *)

Section Order.
Context {T : Type} `{!Inhabited T} (law : T -> T -> comparison) `{!OrdLaws law}.

#[local] Existing Instance point_order.

Notation point := (T * Z)%type.
Notation "p ≺ q" := (point_cmp law p q = Lt) (at level 70).

Context `{!RangeOps T, !RangeLaws law}.

Definition one_segment (r : range T) : Prop := exists lower upper, range_iter r = [(lower, upper)].

Notation range_point := (range_at law).

Lemma one_segment_valid r lower upper : range_iter r = [(lower, upper)] -> segment_valid law lower upper = true.
Proof. intros E. pose proof (range_iter_valid (cmp := law) r) as H. rewrite E in H. by apply Forall_inv in H. Qed.

Lemma one_segment_at r lower upper p : range_iter r = [(lower, upper)] -> range_point r p = point_in law p (lower, upper).
Proof. intros E. unfold range_at. rewrite E. apply orb_false_r. Qed.

Lemma from_bounds_at lower upper p : range_point (range_from_bounds lower upper) p = point_in law p (lower, upper).
Proof.
  destruct (segment_valid law lower upper) eqn:E.
  - by apply one_segment_at, (range_iter_from_bounds (cmp := law)).
  - rewrite (invalid_point law) by done. unfold range_at. by rewrite (range_iter_invalid (cmp := law)).
Qed.

Lemma one_segment_point r : one_segment r -> exists p, range_point r p = true.
Proof.
  intros (lower & upper & E). destruct (valid_point law lower upper) as [p Hp]; [by eapply one_segment_valid|].
  exists p. by rewrite (one_segment_at _ _ _ _ E).
Qed.

Lemma one_segment_convex r p q m :
  one_segment r -> range_point r p = true -> range_point r q = true ->
  point_cmp law p m <> Gt -> point_cmp law m q <> Gt -> range_point r m = true.
Proof. intros (lower & upper & E). rewrite !(one_segment_at _ _ _ _ E). apply (point_in_convex law). Qed.

(** A convex range is a single segment. *)
Lemma convex_one_segment r :
  range_is_empty r = false ->
  (forall p q m, range_point r p = true -> range_point r q = true ->
    point_cmp law p m <> Gt -> point_cmp law m q <> Gt -> range_point r m = true) ->
  one_segment r.
Proof.
  rewrite (range_is_empty_iter (cmp := law)). intros He Hconvex. unfold range_at in Hconvex.
  pose proof (range_iter_valid (cmp := law) r) as Hv. pose proof (range_iter_separated (cmp := law) r) as Hs.
  destruct (range_iter r) as [|[l1 u1] [|[l2 u2] rest]] eqn:E; [done|by exists l1, u1|]. exfalso.
  apply Forall_cons in Hv as [Hv1 [Hv2 _]%Forall_cons]. cbn in Hv1, Hv2.
  apply (valid_point law) in Hv1 as (p1 & H1), Hv2 as (p2 & H2).
  apply StronglySorted_inv in Hs as [Hs Hs1]. apply StronglySorted_inv in Hs as [_ Hs2].
  apply Forall_inv in Hs1 as (g & Hg1 & Hg2). cbn in Hg1, Hg2.
  assert (H1' := H1). apply andb_true_iff in H1' as [_ H1u]. assert (H2' := H2). apply andb_true_iff in H2' as [H2l H2u].
  cbn in H1u, H2l, H2u. pose proof (below_split law u1 p1 g H1u Hg1) as L1. pose proof (above_split law l2 g p2 Hg2 H2l) as L2.
  assert (Hg : existsb (point_in law g) ((l1, u1) :: (l2, u2) :: rest) = true).
  { apply (Hconvex p1 p2 g); [|by cbn; rewrite H2, orb_true_r|by rewrite L1|by rewrite L2].
    cbn [existsb]. by rewrite H1. }
  unfold point_in in Hg. cbn in Hg. rewrite Hg1, Hg2, andb_false_r in Hg. cbn in Hg.
  apply existsb_exists in Hg as (s & Hin%list_elem_of_In & [Hsl _]%andb_true_iff).
  rewrite Forall_forall in Hs2. destruct (Hs2 s Hin) as (h & Hh1 & Hh2). cbn in Hh1.
  pose proof (below_split law u2 p2 h H2u Hh1) as L3. pose proof (above_split law s.1 h g Hh2 Hsl) as L4.
  apply (point_irreflexive law p2). eapply (cmp_lt_trans (point_cmp law)); [exact L3|].
  by eapply (cmp_lt_trans (point_cmp law)).
Qed.

Lemma intersection_one_segment r s :
  one_segment r -> one_segment s -> range_is_empty (range_intersection r s) = false -> one_segment (range_intersection r s).
Proof.
  intros Hr Hs He. apply convex_one_segment; [done|]. intros p q m.
  rewrite !(range_at_intersection (cmp := law)), !andb_true_iff. intros [] [] ??.
  split; by apply (one_segment_convex _ p q m).
Qed.

Lemma nonempty_point r : range_is_empty r = false -> exists p, range_point r p = true.
Proof.
  rewrite (range_is_empty_iter (cmp := law)). pose proof (range_iter_valid (cmp := law) r) as Hv. unfold range_at.
  destruct (range_iter r) as [|[l u] rest]; [done|]. intros _. apply Forall_inv in Hv. cbn in Hv.
  apply (valid_point law) in Hv as [p Hp]. exists p. cbn. by rewrite Hp.
Qed.

(** Two segments that meet. *)
Lemma meet_cover upper lower p :
  bounds_meet law upper lower = true -> point_below law upper p = true \/ point_above law lower p = true.
Proof.
  unfold point_below, point_above. destruct upper as [u|u|], lower as [l|l|]; cbn; try done; intros E%bool_decide_eq_true;
    rewrite !bool_decide_eq_true; assert (El : point_cmp law (u, 0) (l, 0) = Eq) by (unfold point_cmp, cmp_pair; cbn; by rewrite E);
    rewrite <- (cmp_eq_l (point_cmp law) _ _ p El), (cmp_opp (point_cmp law) p (u, 0)); destruct (point_cmp law p (u, 0)); first [by left|by right].
Qed.

Lemma union_one_segment r s l1 u1 l2 u2 :
  range_iter r = [(l1, u1)] -> range_iter s = [(l2, u2)] -> bounds_meet law u1 l2 = true ->
  (forall p q, range_point r p = true -> range_point s q = true -> p ≺ q) ->
  one_segment (range_union r s).
Proof.
  intros Er Es Hm Hlt. assert (Hr : one_segment r) by by exists l1, u1. assert (Hs : one_segment s) by by exists l2, u2.
  destruct (one_segment_point r Hr) as [pr Hpr]. apply convex_one_segment.
  - destruct (range_is_empty (range_union r s)) eqn:Ee; [|done].
    apply (empty_at law _ pr) in Ee. by rewrite (range_at_union (cmp := law)), Hpr in Ee.
  - intros p q m. rewrite !(range_at_union (cmp := law)), !orb_true_iff.
    rewrite !(one_segment_at _ _ _ _ Er), !(one_segment_at _ _ _ _ Es).
    intros [Hp|Hp] [Hq|Hq] Lp Lq.
    + left. by apply (point_in_convex law _ p q m).
    + apply andb_true_iff in Hp as [Hp _], Hq as [_ Hq]. unfold point_in. rewrite !andb_true_iff. cbn in *.
      destruct (meet_cover u1 l2 m Hm) as [Hu|Hl].
      * left. split; [by apply (above_mono law l1 p)|done].
      * right. split; [done|by apply (below_mono law u2 m q)].
    + exfalso. assert (Hqp : q ≺ p) by (apply Hlt; [by rewrite (one_segment_at _ _ _ _ Er)|by rewrite (one_segment_at _ _ _ _ Es)]).
      apply (point_irreflexive law p). eapply (cmp_le_lt_trans (point_cmp law)); [|exact Hqp].
      by eapply (cmp_le_trans (point_cmp law)).
    + right. by apply (point_in_convex law _ p q m).
Qed.

(** The last point of a segment and the first one, when they are bounded. *)
Lemma last_point_in lower upper u :
  segment_valid law lower upper = true -> upper = Included u \/ upper = Excluded u ->
  point_in law (u, match upper with Included _ => 0 | _ => -1 end) (lower, upper) = true.
Proof.
  assert (Hrefl : forall v, law v v = Eq) by apply (cmp_refl law).
  unfold point_in, point_above, point_below, point_cmp, cmp_pair.
  intros Hv [-> | ->]; destruct lower as [a|a|]; cbn in *; rewrite ?Hrefl; cbn; try done;
    apply bool_decide_eq_true in Hv; by destruct (law a u).
Qed.

Lemma first_point_in lower upper l :
  segment_valid law lower upper = true -> lower = Included l \/ lower = Excluded l ->
  point_in law (l, match lower with Included _ => 0 | _ => 1 end) (lower, upper) = true.
Proof.
  assert (Hrefl : forall v, law v v = Eq) by apply (cmp_refl law).
  unfold point_in, point_above, point_below, point_cmp, cmp_pair.
  intros Hv [-> | ->]; destruct upper as [a|a|]; cbn in *; rewrite ?Hrefl; cbn; try done;
    apply bool_decide_eq_true in Hv; by destruct (law l a).
Qed.

(** Between two segments that do not meet there is a point. *)
Definition between (r s : range T) (g : point) : Prop :=
  (forall p, range_point r p = true -> p ≺ g) /\ (forall q, range_point s q = true -> g ≺ q).

Lemma apart_between r s l1 u1 l2 u2 :
  range_iter r = [(l1, u1)] -> range_iter s = [(l2, u2)] -> bounds_meet law u1 l2 = false ->
  (forall p q, range_point r p = true -> range_point s q = true -> p ≺ q) -> exists g, between r s g.
Proof.
  intros Er Es Hm Hlt. pose proof (one_segment_valid _ _ _ Er) as Vr. pose proof (one_segment_valid _ _ _ Es) as Vs.
  cut (exists g, point_below law u1 g = false /\ point_above law l2 g = false).
  { intros (g & H1 & H2). exists g. split; intros p.
    - rewrite (one_segment_at _ _ _ _ Er). intros [_ H]%andb_true_iff. by apply (below_split law u1).
    - rewrite (one_segment_at _ _ _ _ Es). intros [H _]%andb_true_iff. by apply (above_split law l2). }
  assert (Hbounds : (exists u, u1 = Included u \/ u1 = Excluded u) /\ (exists l, l2 = Included l \/ l2 = Excluded l)).
  { destruct (valid_point law _ _ Vr) as [p Hp], (valid_point law _ _ Vs) as [q Hq].
    assert (Hpq : p ≺ q) by (apply Hlt; [by rewrite (one_segment_at _ _ _ _ Er)|by rewrite (one_segment_at _ _ _ _ Es)]).
    split; [destruct u1 as [u|u|]; eauto|destruct l2 as [l|l|]; eauto]; exfalso.
    - apply (point_irreflexive law q), Hlt; [|by rewrite (one_segment_at _ _ _ _ Es)].
      rewrite (one_segment_at _ _ _ _ Er). apply andb_true_iff in Hp as [Hp _]. apply andb_true_iff. split; [|done].
      apply (above_mono law l1 p q Hp). by rewrite Hpq.
    - apply (point_irreflexive law p), Hlt; [by rewrite (one_segment_at _ _ _ _ Er)|].
      rewrite (one_segment_at _ _ _ _ Es). apply andb_true_iff in Hq as [_ Hq]. apply andb_true_iff. split; [done|].
      apply (below_mono law u2 p q Hq). by rewrite Hpq. }
  destruct Hbounds as [[u Hu] [l Hl]].
  pose proof (last_point_in l1 u1 u Vr Hu) as Hlast. pose proof (first_point_in l2 u2 l Vs Hl) as Hfirst.
  rewrite <- (one_segment_at _ _ _ _ Er) in Hlast. rewrite <- (one_segment_at _ _ _ _ Es) in Hfirst.
  pose proof (Hlt _ _ Hlast Hfirst) as L. clear Hlast Hfirst Hlt.
  assert (Hrefl : forall v, law v v = Eq) by apply (cmp_refl law).
  exists (u, match u1 with Included _ => 1 | _ => 0 end). unfold point_above, point_below, point_cmp, cmp_pair in *.
  destruct Hu as [-> | ->], Hl as [-> | ->]; cbn in *; rewrite Hrefl, (cmp_opp law u l); destruct (law u l); done.
Qed.
End Order.

(** ** Chains of edges *)

Section Chains.
Context {T : Type} `{!Inhabited T} (law : T -> T -> comparison) `{!OrdLaws law, !RangeOps T, !RangeLaws law}.
(** The values on which the comparison of the code is the order. *)
Context (good : T -> Prop).

Notation "p ≺ q" := (point_cmp law p q = Lt) (at level 70).

Definition covered (edges : list (range T * NodeId)) (p : T * Z) : bool := existsb (fun e => range_at law e.1 p) edges.

Definition range_before (r s : range T) : Prop := forall p q, range_at law r p = true -> range_at law s q = true -> p ≺ q.

(** An edge before another one; when both have the same child, they do not meet. *)
Definition edge_before (e e' : range T * NodeId) : Prop :=
  range_before e.1 e'.1 /\ (e.2 = e'.2 -> exists g, between law e.1 e'.1 g).

(** Segments in order, merged where they could be. *)
Record chain (edges : list (range T * NodeId)) : Prop := {
  chain_segments : Forall (fun e => one_segment e.1) edges;
  chain_values : Forall (fun e => Forall good (range_values e.1)) edges;
  chain_order : StronglySorted edge_before edges
}.

Record line_partition (edges : list (range T * NodeId)) : Prop := {
  partition_chain : chain edges;
  partition_covered : forall p, covered edges p = true
}.

(** The points of the edges are before those of a range. *)
Definition edges_before (edges : list (range T * NodeId)) (r : range T) : Prop :=
  forall p q, covered edges p = true -> range_at law r q = true -> p ≺ q.

Lemma covered_app a b p : covered (a ++ b) p = covered a p || covered b p.
Proof. apply existsb_app. Qed.

Lemma covered_cons r c edges p : covered ((r, c) :: edges) p = range_at law r p || covered edges p.
Proof. done. Qed.

Lemma covered_one r c p : covered [(r, c)] p = range_at law r p.
Proof. apply orb_false_r. Qed.

Lemma edges_before_forall edges r : edges_before edges r <-> Forall (fun e => range_before e.1 r) edges.
Proof.
  rewrite Forall_forall. split.
  - intros H e He p q Hp. apply H. apply existsb_exists. exists e. split; [by apply list_elem_of_In|done].
  - intros H p q (e & He%list_elem_of_In & Hp)%existsb_exists. by apply (H e He).
Qed.

Lemma chain_nil : chain [].
Proof. split; constructor. Qed.

Lemma chain_snoc edges r c :
  chain edges -> one_segment r -> Forall good (range_values r) -> Forall (fun e => edge_before e (r, c)) edges ->
  chain (edges ++ [(r, c)]).
Proof.
  intros [H1 H2 H3] Hr Hg Hb. split.
  - apply Forall_app_2; [done|]. by apply Forall_cons_2; [|apply Forall_nil_2].
  - apply Forall_app_2; [done|]. by apply Forall_cons_2; [|apply Forall_nil_2].
  - apply StronglySorted_app_2; [|done|constructor; constructor].
    intros e e' He ->%list_elem_of_singleton. rewrite Forall_forall in Hb. by apply Hb.
Qed.

Lemma chain_last edges r c : chain (edges ++ [(r, c)]) -> Forall (fun e => edge_before e (r, c)) edges.
Proof.
  intros [_ _ H3]. apply Forall_forall. intros e He.
  exact (StronglySorted_app_1_elem_of _ _ _ e (r, c) H3 He (proj2 (list_elem_of_singleton _ _) eq_refl)).
Qed.

Lemma chain_first e edges : chain (e :: edges) -> Forall (edge_before e) edges.
Proof. intros [_ _ H3]. by apply StronglySorted_inv in H3 as [_ H3]. Qed.

Lemma chain_front edges r c :
  chain (edges ++ [(r, c)]) ->
  chain edges /\ one_segment r /\ Forall good (range_values r) /\ edges_before edges r.
Proof.
  intros Hc. pose proof (chain_last _ _ _ Hc) as Hl. destruct Hc as [[H1 H1']%Forall_app [H2 H2']%Forall_app H3].
  apply Forall_inv in H1', H2'. split_and!; try done.
  - split; [done..|]. by eapply StronglySorted_app_1_l.
  - apply edges_before_forall. eapply Forall_impl; [exact Hl|]. by intros e [H _].
Qed.

Lemma chain_head r c edges :
  chain ((r, c) :: edges) ->
  chain edges /\ one_segment r /\ Forall good (range_values r) /\ Forall (fun e => range_before r e.1) edges.
Proof.
  intros [H1 H2 H3]. apply Forall_cons in H1 as [H1 H1'], H2 as [H2 H2']. apply StronglySorted_inv in H3 as [H3 H3'].
  split_and!; try done. eapply Forall_impl; [exact H3'|]. by intros e [H _].
Qed.

Lemma before_covered r edges p q :
  Forall (fun e => range_before r e.1) edges -> range_at law r p = true -> covered edges q = true -> p ≺ q.
Proof.
  intros H Hp (e & He%list_elem_of_In & Hq)%existsb_exists. rewrite Forall_forall in H. by apply (H e He).
Qed.

Context (cmp : T -> T -> comparison) (Hgood : forall x y, good x -> good y -> cmp x y = law x y).

Lemma bounds_meet_law upper lower :
  Forall good (bound_values upper) -> Forall good (bound_values lower) ->
  bounds_meet cmp upper lower = bounds_meet law upper lower.
Proof.
  destruct upper, lower; cbn; try done; intros Hu%Forall_inv Hl%Forall_inv; by rewrite Hgood.
Qed.

Lemma one_segment_values r lower upper :
  range_iter r = [(lower, upper)] -> Forall good (range_values r) ->
  Forall good (bound_values lower) /\ Forall good (bound_values upper).
Proof. intros E. unfold range_values. rewrite E. cbn. rewrite app_nil_r. apply Forall_app. Qed.

Lemma one_segment_bounding r lower upper : range_iter r = [(lower, upper)] -> range_bounding r = Some (lower, upper).
Proof. intros E. by rewrite (range_bounding_iter (cmp := law)), E. Qed.

Lemma good_union r s : Forall good (range_values r) -> Forall good (range_values s) -> Forall good (range_values (range_union r s)).
Proof.
  rewrite !Forall_forall. intros Hr Hs v Hv%(range_values_union (cmp := law)).
  apply elem_of_app in Hv as [Hv|Hv]; [by apply Hr|by apply Hs].
Qed.

Lemma good_intersection r s :
  Forall good (range_values r) -> Forall good (range_values s) -> Forall good (range_values (range_intersection r s)).
Proof.
  rewrite !Forall_forall. intros Hr Hs v Hv%(range_values_intersection (cmp := law)).
  apply elem_of_app in Hv as [Hv|Hv]; [by apply Hr|by apply Hs].
Qed.

(** A range after the last edge, which it does not meet if the child is the same. *)
Lemma push_edge_before edges r child :
  chain edges -> edges_before edges r ->
  (forall previous, last edges = Some (previous, child) -> exists g, between law previous r g) ->
  Forall (fun e => edge_before e (r, child)) edges.
Proof.
  intros Hc Hb Hlast. apply Forall_forall. intros e He.
  assert (Hb' := Hb). apply edges_before_forall in Hb'. rewrite Forall_forall in Hb'.
  split; [by apply Hb'|]. cbn. intros Hchild. destruct (last edges) as [[previous c]|] eqn:El; [|by apply last_None in El as ->; apply elem_of_nil in He].
  apply last_Some in El as [front ->]. apply elem_of_app in He as [He| ->%list_elem_of_singleton].
  - destruct (chain_front _ _ _ Hc) as (_ & Hp & _ & Hf). destruct (one_segment_point law _ Hp) as [m Hm]. exists m.
    apply edges_before_forall in Hf. rewrite Forall_forall in Hf. split; intros p Hp'; [by apply (Hf e He)|].
    apply (Hb m p); [|done]. by rewrite covered_app, covered_one, Hm, orb_true_r.
  - cbn in Hchild. subst c. by apply Hlast.
Qed.

Lemma push_edge_chain edges r child :
  chain edges -> one_segment r -> Forall good (range_values r) -> edges_before edges r ->
  chain (push_edge cmp edges r child) /\
  forall p, covered (push_edge cmp edges r child) p = covered edges p || range_at law r p.
Proof.
  intros Hc Hr Hg Hb.
  assert (Hadd : (forall previous, last edges = Some (previous, child) -> can_conjoin cmp previous r = false) ->
    chain (edges ++ [(r, child)]) /\ forall p, covered (edges ++ [(r, child)]) p = covered edges p || range_at law r p).
  { intros Hno. split; [|intros p; by rewrite covered_app, covered_one]. apply chain_snoc; [done..|].
    apply push_edge_before; [done..|]. intros previous El. specialize (Hno _ El). apply last_Some in El as [front ->].
    destruct (chain_front _ _ _ Hc) as (_ & (l1 & u1 & E1) & Hgp & _), Hr as (l2 & u2 & E2). unfold can_conjoin in Hno.
    rewrite (one_segment_bounding _ _ _ E1), (one_segment_bounding _ _ _ E2), bounds_meet_law in Hno;
      [|by apply (one_segment_values _ _ _ E1)|by apply (one_segment_values _ _ _ E2)].
    apply (apart_between law _ _ _ _ _ _ E1 E2 Hno). intros p q Hp. apply Hb.
    by rewrite covered_app, covered_one, Hp, orb_true_r. }
  unfold push_edge. destruct (last edges) as [[previous c]|] eqn:El; [|by apply last_None in El as ->; apply Hadd].
  destruct ((c =? child) && can_conjoin cmp previous r) eqn:Ej.
  2: { apply Hadd. intros ? [= <- ->]. by rewrite Z.eqb_refl in Ej. }
  apply last_Some in El as [front ->]. rewrite length_app, Nat.add_sub, take_app_length.
  pose proof (chain_last _ _ _ Hc) as Hlast.
  destruct (chain_front _ _ _ Hc) as (Hcf & Hp & Hgp & Hbp). apply andb_true_iff in Ej as [->%Z.eqb_eq Ej].
  assert (Hpr : range_before previous r).
  { intros p q Hp' Hq. apply Hb; [|done]. rewrite covered_app, covered_one, Hp'. apply orb_true_r. }
  assert (Hu : one_segment (range_union previous r)).
  { destruct Hp as (l1 & u1 & E1), Hr as (l2 & u2 & E2). unfold can_conjoin in Ej.
    rewrite (one_segment_bounding _ _ _ E1), (one_segment_bounding _ _ _ E2) in Ej.
    eapply (union_one_segment law); [exact E1|exact E2| |exact Hpr]. rewrite <- bounds_meet_law; [done|..].
    - by apply (one_segment_values _ _ _ E1).
    - by apply (one_segment_values _ _ _ E2). }
  split; [|intros p; by rewrite !covered_app, !covered_one, (range_at_union (cmp := law)), orb_assoc].
  apply chain_snoc; [done|done|by apply good_union|]. destruct (one_segment_point law _ Hp) as [m Hm].
  eapply Forall_impl; [exact Hlast|]. intros e [H1 H2]. split; cbn.
  - intros p q Hp'. rewrite (range_at_union (cmp := law)), orb_true_iff. intros [Hq|Hq]; [by apply H1|].
    eapply (cmp_lt_trans (point_cmp law)); [by apply (H1 p m)|by apply Hpr].
  - intros (g & Hg1 & Hg2)%H2. exists g. split; [done|]. intros q. cbn.
    rewrite (range_at_union (cmp := law)), orb_true_iff. intros [Hq|Hq]; [by apply Hg2|].
    eapply (cmp_lt_trans (point_cmp law)); [by apply (Hg2 m)|by apply Hpr].
Qed.

(** The ranges matter, and which children are the same. *)
Lemma partition_children (f : NodeId -> NodeId) edges :
  (forall c d, f c = f d -> c = d) ->
  line_partition edges -> line_partition ((fun '(r, c) => (r, f c)) <$> edges).
Proof.
  intros Hf [[H1 H2 H3] H4]. split; [split|].
  - apply Forall_fmap. eapply Forall_impl; [exact H1|]. by intros [r c].
  - apply Forall_fmap. eapply Forall_impl; [exact H2|]. by intros [r c].
  - eapply StronglySorted_fmap; [|exact H3]. intros [r c] [r' c'] [Hb Hg]. split; [done|]. cbn. intros E%Hf. by apply Hg.
  - intros p. rewrite <- (H4 p). unfold covered. clear. induction edges as [|[r c] edges IH]; [done|]. cbn. by rewrite IH.
Qed.

(** ** [from_range] *)

Lemma from_bounds_iter s r : s ∈ range_iter r -> range_iter (range_from_bounds s.1 s.2) = [s].
Proof.
  intros Hs. pose proof (range_iter_valid (cmp := law) r) as Hv. rewrite Forall_forall in Hv.
  rewrite (range_iter_from_bounds (cmp := law)); [by destruct s|by apply Hv].
Qed.

(** Of two segments that share no point, the one that starts first is before the other. *)
Lemma disjoint_order s t :
  (forall p, point_in law p s && point_in law p t = false) ->
  (forall p, point_above law t.1 p = true -> point_above law s.1 p = true) ->
  forall p q, point_in law p s = true -> point_in law q t = true -> p ≺ q.
Proof.
  intros Hd Hstart p q Hp Hq. destruct (point_order_cases law p q) as [|Hle]; [done|]. exfalso.
  assert (Hq' := Hq). apply andb_true_iff in Hp as [Hp1 Hp2], Hq as [Hq1 Hq2].
  specialize (Hd q). rewrite Hq', andb_true_r in Hd. unfold point_in in Hd. rewrite (Hstart q Hq1) in Hd. cbn in Hd.
  by rewrite (below_mono law s.2 q p) in Hd.
Qed.

Lemma separated_disjoint s t p : separated law s t -> point_in law p s && point_in law p t = false.
Proof.
  intros (g & Hg1 & Hg2). apply not_true_iff_false. rewrite andb_true_iff. unfold point_in. rewrite !andb_true_iff.
  intros [[_ H1] [H2 _]]. pose proof (below_split law s.2 p g H1 Hg1) as L1. pose proof (above_split law t.1 g p Hg2 H2) as L2.
  apply (point_irreflexive law p). by eapply (cmp_lt_trans (point_cmp law)).
Qed.

(** The start of a segment, as [compare_disjoint_range_start] compares it. *)
Definition start_cmp (x y : bound_of T) : comparison :=
  match x, y with
  | Unbounded, _ => Lt
  | _, Unbounded => Gt
  | Included v1, Excluded v2 => if decide (cmp v1 v2 = Eq) then Lt else cmp v1 v2
  | Excluded v1, Included v2 => if decide (cmp v1 v2 = Eq) then Gt else cmp v1 v2
  | Included v1, Included v2 | Excluded v1, Excluded v2 => cmp v1 v2
  end.

Lemma start_cmp_above x y :
  Forall good (bound_values x) -> Forall good (bound_values y) ->
  (start_cmp x y <> Gt -> forall p, point_above law y p = true -> point_above law x p = true) /\
  (start_cmp x y = Gt -> forall p, point_above law x p = true -> point_above law y p = true).
Proof.
  assert (Hlift : forall a b, point_cmp law (a, 0) (b, 0) = law a b) by (intros a b; unfold point_cmp, cmp_pair; cbn; by destruct (law a b)).
  assert (Hle : forall a b p, law a b <> Gt -> point_cmp law (b, 0) p <> Gt -> point_cmp law (a, 0) p <> Gt).
  { intros a b p H1 H2. eapply (cmp_le_trans (point_cmp law)); [by rewrite Hlift|done]. }
  assert (Hlt : forall a b p, law a b <> Gt -> point_cmp law (b, 0) p = Lt -> point_cmp law (a, 0) p = Lt).
  { intros a b p H1 H2. eapply (cmp_le_lt_trans (point_cmp law)); [by rewrite Hlift|done]. }
  assert (Hlt' : forall a b p, law a b = Lt -> point_cmp law (b, 0) p <> Gt -> point_cmp law (a, 0) p = Lt).
  { intros a b p H1 H2. eapply (cmp_lt_le_trans (point_cmp law)); [by rewrite Hlift|done]. }
  assert (Hne : forall c, c = Lt -> c <> Gt) by by intros c ->.
  assert (Hopp : forall a b, law b a = CompOpp (law a b)) by apply (cmp_opp law).
  unfold point_above. destruct x as [a|a|], y as [b|b|]; cbn [start_cmp bound_values lift_bound segment_above];
    intros Ga Gb; try (apply Forall_inv in Ga, Gb; rewrite (Hgood a b Ga Gb)); try (by split);
    (split; intros Hs p; rewrite !bool_decide_eq_true; pose proof (Hopp a b) as Ho);
    destruct (law a b) eqn:E; cbn in *; try done; intros Hp; eauto; try congruence.
  all: first [apply (Hle a b); [by rewrite E|eauto; done] | apply (Hlt a b); [by rewrite E|eauto; done]
    | apply (Hle b a); [by rewrite Ho|eauto; done] | apply (Hlt b a); [by rewrite Ho|eauto; done] | idtac].
Qed.

(** The edges of the segments, before they are sorted. *)
Lemma from_range_disjoint (r : range T) :
  StronglySorted (fun s t => forall p, point_in law p s && point_in law p t = false) (range_iter r ++ range_iter (range_complement r)).
Proof.
  assert (Hone : forall r', StronglySorted (fun s t => forall p, point_in law p s && point_in law p t = false) (range_iter r')).
  { intros r'. pose proof (range_iter_separated (cmp := law) r') as Hs. induction Hs as [|s l _ IH Hl]; constructor; [done|].
    eapply Forall_impl; [exact Hl|]. intros t Ht p. by apply separated_disjoint. }
  apply StronglySorted_app_2; [|by apply Hone..]. intros s t Hs Ht p. apply not_true_iff_false. rewrite andb_true_iff. intros [H1 H2].
  pose proof (range_at_complement (cmp := law) r p) as Hc. unfold range_at in Hc.
  rewrite (proj2 (existsb_exists _ (range_iter r))), (proj2 (existsb_exists _ (range_iter (range_complement r)))) in Hc; [done|..];
    eexists; by rewrite <- list_elem_of_In.
Qed.

Definition segment_edge (x : (bound_of T * bound_of T) * NodeId) : range T * NodeId := (range_from_bounds x.1.1 x.1.2, x.2).

Lemma from_range_partition (r : range T) : Forall good (range_values r) -> line_partition (from_range cmp r).
Proof.
  intros Hg. unfold from_range.
  set (segments := ((fun s => (s, NODE_TRUE)) <$> range_iter r) ++ ((fun s => (s, NODE_FALSE)) <$> range_iter (range_complement r))).
  set (compare := fun a b : range T * NodeId => _).
  match goal with |- line_partition (sort_by _ ?l) => replace l with (segment_edge <$> segments) end.
  2: { unfold segments. rewrite fmap_app, <- !list_fmap_compose. done. }
  assert (Hiter : forall x, x ∈ segments -> range_iter (segment_edge x).1 = [x.1] /\ Forall good (bound_values x.1.1 ++ bound_values x.1.2)).
  { intros x [(s & -> & Hs)%list_elem_of_fmap|(s & -> & Hs)%list_elem_of_fmap]%elem_of_app; cbn; (split; [by eapply from_bounds_iter|]);
      rewrite Forall_forall in *; intros v Hv; apply Hg; [|apply (range_values_complement (cmp := law))]; apply list_elem_of_bind; eauto. }
  assert (Hsegs : StronglySorted (fun x y => (forall p, point_in law p x.1 && point_in law p y.1 = false) /\
    (x.2 = y.2 -> separated law x.1 y.1)) segments).
  { pose proof (from_range_disjoint r) as Hd. apply StronglySorted_app in Hd as (Hd1 & _ & _).
    assert (Hone : forall (c : NodeId) r', StronglySorted (fun x y => (forall p, point_in law p x.1 && point_in law p y.1 = false) /\
      (x.2 = y.2 -> separated law x.1 y.1)) ((fun s => (s, c)) <$> range_iter r')).
    { intros c r'. eapply StronglySorted_fmap; [|exact (range_iter_separated (cmp := law) r')].
      intros x y Hxy. split; [|done]. intros p. by apply separated_disjoint. }
    apply StronglySorted_app_2; [|apply Hone..].
    intros x y (s & -> & Hs)%list_elem_of_fmap (t & -> & Ht)%list_elem_of_fmap. split; [by apply Hd1|done]. }
  assert (Hat : forall x p, x ∈ segments -> range_at law (segment_edge x).1 p = point_in law p x.1).
  { intros x p Hx. destruct x as [[l u] c]. by rewrite (one_segment_at law _ l u) by apply (Hiter _ Hx). }
  assert (Hsort : StronglySorted edge_before (sort_by compare (segment_edge <$> segments))).
  { apply (sort_by_strongly _ _ (fun e => one_segment e.1)).
    - intros x y z Hy [Hxy _] [Hyz _]. destruct (one_segment_point law _ Hy) as [m Hm]. split.
      + intros p q Hp Hq. eapply (cmp_lt_trans (point_cmp law)); [by apply Hxy|by apply Hyz].
      + intros _. exists m. split; intros p Hp; [by apply Hxy|by apply Hyz].
    - apply Forall_forall. intros e (x & -> & Hx)%list_elem_of_fmap. destruct x as [[l u] c]. exists l, u. apply (Hiter _ Hx).
    - clear Hg. induction Hsegs as [|x l Hl IH Hx]; [constructor|]. cbn [fmap list_fmap].
      constructor; [by apply IH; intros; [apply Hiter|apply Hat]; right|]. apply Forall_forall. intros e (y & -> & Hy)%list_elem_of_fmap.
      rewrite Forall_forall in Hx. destruct (Hx y Hy) as [Hxy Hsep]. clear Hx.
      destruct (Hiter x) as [Ex Gx]; [by left|]. destruct (Hiter y) as [Ey Gy]; [by right|].
      apply Forall_app in Gx as [Gx _], Gy as [Gy _]. destruct (start_cmp_above x.1.1 y.1.1 Gx Gy) as [S1 S2].
      replace (compare (segment_edge x) (segment_edge y)) with (start_cmp x.1.1 y.1.1).
      2: { unfold compare, compare_disjoint_range_start. destruct x as [[l1 u1] c1], y as [[l2 u2] c2].
           by rewrite (one_segment_bounding _ _ _ Ex), (one_segment_bounding _ _ _ Ey). }
      assert (Hx1 : forall p, range_at law (segment_edge x).1 p = point_in law p x.1) by (intros; apply Hat; by left).
      assert (Hy1 : forall p, range_at law (segment_edge y).1 p = point_in law p y.1) by (intros; apply Hat; by right).
      split; intros Hs; split.
      + intros p q. rewrite Hx1, Hy1. apply (disjoint_order x.1 y.1 Hxy (S1 Hs)).
      + intros (g & Hg1 & Hg2)%Hsep. exists g. split; intros p; rewrite ?Hx1, ?Hy1; intros [? ?]%andb_true_iff;
          [by apply (below_split law x.1.2)|by apply (above_split law y.1.1)].
      + intros p q. rewrite Hx1, Hy1. apply (disjoint_order y.1 x.1); [intros m; by rewrite andb_comm|exact (S2 Hs)].
      + intros E. destruct (Hsep (eq_sym E)) as (g & Hg1 & Hg2). exfalso.
        destruct (one_segment_point law (segment_edge x).1) as [p Hp]; [destruct x as [[l1 u1] c1]; by exists l1, u1|].
        destruct (one_segment_point law (segment_edge y).1) as [q Hq]; [destruct y as [[l1 u1] c1]; by exists l1, u1|].
        rewrite Hx1 in Hp. rewrite Hy1 in Hq.
        assert (Hqp : q ≺ p) by (apply (disjoint_order y.1 x.1); [intros m; by rewrite andb_comm|exact (S2 Hs)|done|done]).
        apply andb_true_iff in Hp as [_ Hp], Hq as [Hq _]. apply (point_irreflexive law p).
        eapply (cmp_lt_trans (point_cmp law)); [by apply (below_split law x.1.2 p g)|].
        eapply (cmp_lt_trans (point_cmp law)); [by apply (above_split law y.1.1 g q)|done]. }
  split.
  - split; [..|done]; rewrite sort_by_perm; apply Forall_forall; intros e (x & -> & Hx)%list_elem_of_fmap;
      destruct (Hiter x Hx) as [Ex Gx]; destruct x as [[l u] c].
    + by exists l, u.
    + unfold range_values. rewrite Ex. cbn. by rewrite app_nil_r.
  - intros p. unfold covered.
    assert (Hany : range_at law r p || range_at law (range_complement r) p = true) by (rewrite (range_at_complement (cmp := law)); by destruct (range_at law r p)).
    apply existsb_exists. unfold range_at in Hany. rewrite <- existsb_app in Hany. apply existsb_exists in Hany as (s & Hs%list_elem_of_In & Hp).
    assert (Hx : exists c, (s, c) ∈ segments).
    { apply elem_of_app in Hs as [Hs|Hs]; [exists NODE_TRUE|exists NODE_FALSE]; apply elem_of_app; [left|right]; apply list_elem_of_fmap; eauto. }
    destruct Hx as [c Hx]. exists (segment_edge (s, c)). split; [|by rewrite Hat].
    apply list_elem_of_In. rewrite sort_by_perm. by apply list_elem_of_fmap_2.
Qed.

(** ** The functions that build edges *)

Context {RV : RangeOps Version} {RS : RangeOps (list Z)}.

Lemma map_ranges_chain {C : Type} (f : NodeId -> M C NodeId) edges parent mapped s out s' :
  map_ranges cmp f edges parent mapped s = Some (out, s') ->
  chain edges -> chain mapped -> Forall (fun e => edges_before mapped e.1) edges ->
  chain out /\ forall p, covered out p = covered mapped p || covered edges p.
Proof.
  revert mapped s. induction edges as [|[r c] edges IH]; intros mapped s E He Hm Hb; cbn in E.
  - injection E as <- _. split; [done|]. intros p. by rewrite orb_false_r.
  - unfold bind in E. destruct (f (node_negate c parent) s) as [[d s1]|]; [|done]. cbn in E.
    destruct (chain_head _ _ _ He) as (He' & Hr & Hg & Hre). apply Forall_cons in Hb as [Hbr Hb].
    destruct (push_edge_chain mapped r d Hm Hr Hg Hbr) as [Hm' Hcov].
    destruct (IH _ _ E He' Hm') as [Ho Hco].
    + rewrite Forall_forall in *. intros e Hin p q. rewrite Hcov, orb_true_iff.
      intros [Hp|Hp] Hq; [by apply (Hb e Hin)|by apply (Hre e Hin)].
    + split; [done|]. intros p. rewrite Hco, Hcov, covered_cons. by rewrite orb_assoc.
Qed.

Lemma apply_right_chain {C : Type} (apply : NodeId -> NodeId -> M C NodeId) left_range left right parent combined s out s' :
  apply_right cmp apply left_range left right parent combined s = Some (out, s') ->
  one_segment left_range -> Forall good (range_values left_range) -> chain right -> chain combined ->
  (forall p q, covered combined p = true -> range_at law left_range q = true -> covered right q = true -> p ≺ q) ->
  chain out /\ forall p, covered out p = covered combined p || (range_at law left_range p && covered right p).
Proof.
  intros E Hl Hgl. revert combined s E. induction right as [|[r b] right IH]; intros combined s E Hc Hm Hb; cbn in E.
  - injection E as <- _. split; [done|]. intros p. by rewrite andb_false_r, orb_false_r.
  - destruct (chain_head _ _ _ Hc) as (Hc' & Hr & Hg & Hre).
    destruct (range_is_empty (range_intersection r left_range)) eqn:Ee.
    + destruct (IH _ _ E Hc' Hm) as [Ho Hco].
      { intros p q Hp Hq Hq'. apply Hb; [done|done|]. by rewrite covered_cons, Hq', orb_true_r. }
      split; [done|]. intros p. rewrite Hco, covered_cons. f_equal. pose proof (empty_at law _ p Ee) as Hp.
      rewrite (range_at_intersection (cmp := law)) in Hp. by destruct (range_at law r p), (range_at law left_range p).
    + unfold bind in E. destruct (apply left (node_negate b parent) s) as [[d s1]|]; [|done]. cbn in E.
      assert (Hi : one_segment (range_intersection r left_range)) by by apply (intersection_one_segment law).
      destruct (push_edge_chain combined (range_intersection r left_range) d Hm Hi) as [Hm' Hcov]; [by apply good_intersection| |].
      { intros p q Hp. rewrite (range_at_intersection (cmp := law)), andb_true_iff. intros [Hq1 Hq2].
        apply Hb; [done|done|]. by rewrite covered_cons, Hq1. }
      destruct (IH _ _ E Hc' Hm') as [Ho Hco].
      * intros p q. rewrite Hcov, orb_true_iff, (range_at_intersection (cmp := law)), andb_true_iff. intros [Hp|[Hp _]] Hq Hq'.
        -- apply Hb; [done|done|]. by rewrite covered_cons, Hq', orb_true_r.
        -- by apply (before_covered r right).
      * split; [done|]. intros p. rewrite Hco, Hcov, covered_cons, (range_at_intersection (cmp := law)).
        by destruct (covered combined p), (range_at law r p), (range_at law left_range p).
Qed.

Lemma apply_ranges_chain {C : Type} (apply : NodeId -> NodeId -> M C NodeId) left left_parent right right_parent combined s out s' :
  apply_ranges cmp apply left left_parent right right_parent combined s = Some (out, s') ->
  chain left -> chain right -> chain combined ->
  (forall p q, covered combined p = true -> covered left q = true -> p ≺ q) ->
  chain out /\ forall p, covered out p = covered combined p || (covered left p && covered right p).
Proof.
  revert combined s. induction left as [|[r a] left IH]; intros combined s E Hl Hr Hm Hb; cbn in E.
  - injection E as <- _. split; [done|]. intros p. by rewrite orb_false_r.
  - unfold bind in E. destruct (apply_right cmp apply r _ right right_parent combined s) as [[middle s1]|] eqn:Em; [|done]. cbn in E.
    destruct (chain_head _ _ _ Hl) as (Hl' & Hs & Hg & Hre).
    destruct (apply_right_chain _ _ _ _ _ _ _ _ _ Em Hs Hg Hr Hm) as [Hm' Hcov].
    { intros p q Hp Hq _. apply Hb; [done|]. by rewrite covered_cons, Hq. }
    destruct (IH _ _ E Hl' Hr Hm') as [Ho Hco].
    + intros p q. rewrite Hcov, orb_true_iff, andb_true_iff. intros [Hp|[Hp _]] Hq.
      * apply Hb; [done|]. by rewrite covered_cons, Hq, orb_true_r.
      * by apply (before_covered r left).
    + split; [done|]. intros p. rewrite Hco, Hcov, covered_cons. by destruct (covered combined p), (range_at law r p), (covered right p), (covered left p).
Qed.

End Chains.

(** ** Edges *)

(** The comparison of the code is the order, for the values that occur. *)
Lemma version_cmp_good x y : comparable x -> comparable y -> version_cmp x y = version_cmp_slow x y.
Proof. intros [] []. by apply version_cmp_is_slow. Qed.

#[global] Instance version_inhabited : Inhabited Version := populate (Small small_new).

Definition any_string (value : list Z) : Prop := True.

Definition edges_partition {RV : RangeOps Version} {RS : RangeOps (list Z)} (e : Edges) : Prop :=
  match e with
  | EdgesVersion edges => line_partition version_cmp_slow comparable edges
  | EdgesString edges => line_partition string_cmp any_string edges
  | EdgesBoolean _ _ => True
  end.

Section Edges.
Context {RV : RangeOps Version} {RS : RangeOps (list Z)}.
Context {LV : RangeLaws version_cmp_slow} {LS : RangeLaws string_cmp}.

Lemma edges_not_partition e : edges_partition e -> edges_partition (edges_not e).
Proof.
  assert (Hinj : forall c d, node_not c = node_not d -> c = d).
  { intros c d E. rewrite <- (Z.lxor_0_r c), <- (Z.lxor_0_r d), <- (Z.lxor_nilpotent 1), <- !Z.lxor_assoc. by unfold node_not in E; rewrite E. }
  destruct e; cbn; [by apply partition_children..|done].
Qed.

Lemma edges_map_partition {C : Type} (f : NodeId -> M C NodeId) e parent s out s' :
  edges_map e parent f s = Some (out, s') -> edges_partition e -> edges_partition out.
Proof.
  destruct e as [edges|edges|high low]; cbn [edges_map]; unfold bind.
  - destruct (map_ranges version_cmp f edges parent [] s) as [[l s1]|] eqn:E; [|done]. intros [= <- _] [Hc Hp].
    destruct (map_ranges_chain version_cmp_slow comparable version_cmp version_cmp_good _ _ _ _ _ _ _ E Hc) as [H1 H2];
      [apply chain_nil|by apply Forall_forall; intros ? _ ? ? ?|]. split; [done|]. intros p. rewrite H2. apply Hp.
  - destruct (map_ranges string_cmp f edges parent [] s) as [[l s1]|] eqn:E; [|done]. intros [= <- _] [Hc Hp].
    destruct (map_ranges_chain string_cmp any_string string_cmp (fun _ _ _ _ => eq_refl) _ _ _ _ _ _ _ E Hc) as [H1 H2];
      [apply chain_nil|by apply Forall_forall; intros ? _ ? ? ?|]. split; [done|]. intros p. rewrite H2. apply Hp.
  - destruct (f (node_negate low parent) s) as [[a s1]|]; [|done]. cbn.
    destruct (f (node_negate high parent) s1) as [[b s2]|]; [|done]. by intros [= <- _].
Qed.

Lemma edges_apply_partition {C : Type} (apply : NodeId -> NodeId -> M C NodeId) e parent e' parent' s out s' :
  edges_apply e parent e' parent' apply s = Some (out, s') -> edges_partition e -> edges_partition e' -> edges_partition out.
Proof.
  destruct e as [l|l|high low], e' as [l'|l'|high' low']; try done; cbn [edges_apply]; unfold bind.
  - destruct (apply_ranges version_cmp apply l parent l' parent' [] s) as [[o s1]|] eqn:E; [|done]. intros [= <- _] [Hc Hp] [Hc' Hp'].
    destruct (apply_ranges_chain version_cmp_slow comparable version_cmp version_cmp_good _ _ _ _ _ _ _ _ _ E Hc Hc') as [H1 H2];
      [apply chain_nil|done|]. split; [done|]. intros p. by rewrite H2, Hp, Hp'.
  - destruct (apply_ranges string_cmp apply l parent l' parent' [] s) as [[o s1]|] eqn:E; [|done]. intros [= <- _] [Hc Hp] [Hc' Hp'].
    destruct (apply_ranges_chain string_cmp any_string string_cmp (fun _ _ _ _ => eq_refl) _ _ _ _ _ _ _ _ _ E Hc Hc') as [H1 H2];
      [apply chain_nil|done|]. split; [done|]. intros p. by rewrite H2, Hp, Hp'.
  - destruct (apply _ _ s) as [[a s1]|]; [|done]. cbn. destruct (apply _ _ s1) as [[b s2]|]; [|done]. by intros [= <- _].
Qed.

Lemma version_range_partition r : Forall comparable (range_values r) -> edges_partition (EdgesVersion (from_range version_cmp r)).
Proof. by apply from_range_partition; [apply _..|apply version_cmp_good]. Qed.

Lemma string_range_partition r : edges_partition (EdgesString (from_range string_cmp r)).
Proof. apply from_range_partition; [apply _..|done|]. by apply Forall_forall. Qed.
End Edges.
