(* ===== verification/MarkerAlgebra.v ===== *)
(** * Markers: the algebra

    The operations of the interner of [crates/uv-pep508/src/marker/algebra.rs]: expressions,
    conjunction with the known exclusions, and the operations built on it. Recursion is bounded by
    fuel: the age of the nodes, or the number of variables left. *)

From stdpp Require Import base countable list option numbers decidable strings gmap.
From Stdlib Require Import ZArith Lia.
From S2P Require Import Prelude Ranges VersionTypes VersionSmall Version VersionOrder.
From S2P Require Import VersionParser VersionSpecifier MarkerTypes Interner.

Local Open Scope Z_scope.
Local Open Scope uv_scope.

Section Algebra.
Context {RV : RangeOps Version} {RS : RangeOps (list Z)}.

(** The Shannon expansion that conjunctions share. *)
Definition expand {C : Type} (conj : NodeId -> NodeId -> M C NodeId) (xi yi : NodeId) : M C NodeId :=
  let! x := get_node xi in
  let! y := get_node yi in
  match variable_cmp (node_var x) (node_var y) with
  | Lt =>
      let! children := edges_map (node_children x) xi (fun node => conj node yi) in
      create_node (node_var x) children
  | Gt =>
      let! children := edges_map (node_children y) yi (fun node => conj node xi) in
      create_node (node_var y) children
  | Eq =>
      let! children := edges_apply (node_children x) xi (node_children y) yi conj in
      create_node (node_var x) children
  end.

(** ** Exclusions *)

(** The conjunction inside [exclusions]: without knowledge from outside, and with a cache of its
    own. *)
Fixpoint conjunction (fuel : nat) (xi yi : NodeId) : M (gmap (Z * Z) Z) NodeId :=
  if node_is_true xi then ret yi
  else if node_is_true yi then ret xi
  else if xi =? yi then ret xi
  else if node_is_false xi || node_is_false yi then ret NODE_FALSE
  else if node_not xi =? yi then ret NODE_FALSE
  else
    let! memo := get_local in
    match memo !! (xi, yi) with
    | Some result => ret result
    | None =>
        match fuel with
        | O => panic
        | S fuel =>
            let! node := expand (conjunction fuel) xi yi in
            let! memo := get_local in
            set_local (<[(xi, yi) := node]> memo) ;;
            ret node
        end
    end.

Definition conjunction_nodes (xi yi : NodeId) : M (gmap (Z * Z) Z) NodeId :=
  conjunction (node_rank xi + node_rank yi) xi yi.

Definition disjunction (xi yi : NodeId) : M (gmap (Z * Z) Z) NodeId :=
  let! node := conjunction_nodes (node_not xi) (node_not yi) in ret (node_not node).

Section Expression.
Context {C : Type} (and : NodeId -> NodeId -> M C NodeId).

Definition or_with (xi yi : NodeId) : M C NodeId :=
  let! node := and (node_not xi) (node_not yi) in ret (node_not node).

(** [platform_system] values that correspond to a [sys_platform] value. *)
Definition lower_string (key : MarkerValueString) (value : list Z) :
    CanonicalMarkerValueString * list Z :=
  match key with
  | MvPlatformSystem =>
      if decide (value = bytes "Windows") then (SysPlatform, bytes "win32")
      else if decide (value = bytes "Darwin") then (SysPlatform, bytes "darwin")
      else if decide (value = bytes "Linux") then (SysPlatform, bytes "linux")
      else if decide (value = bytes "AIX") then (SysPlatform, bytes "aix")
      else if decide (value = bytes "Emscripten") then (SysPlatform, bytes "emscripten")
      else if decide (value = bytes "Android") then (SysPlatform, bytes "android")
      else (canonical_string key, value)
  | _ => (canonical_string key, value)
  end.

(** The comparison of [platform_release] with a version, if it is one: [Some None] is a value
    that is not a version, [None] a panic of the parser. *)
Definition release_specifier (operator : MarkerOperator) (value : list Z) :
    option (option VersionSpecifier) :=
  match to_pep440_operator operator with
  | None => Some None
  | Some operator =>
      match version_pattern_from_str value with
      | Panicked => None
      | Failed _ => Some None
      | Done pattern =>
          Some (match specifier_from_pattern operator pattern with
                | Ok specifier => Some specifier
                | Err _ => None
                end)
      end
  end.

(** [sys_platform == 'darwin']; the recursive call of [expression]. *)
Definition darwin_node : M C NodeId :=
  let! edges := lift_option (edges_from_string SysPlatform MEqual (bytes "darwin")) in
  create_node (VarString SysPlatform) edges.

Definition string_expression (key : MarkerValueString) (operator : MarkerOperator) (value : list Z) :
    M C NodeId :=
  let '(key, value) := lower_string key value in
  let! edges := lift_option (edges_from_string key operator value) in
  let! string := create_node (VarString key) edges in
  if bool_decide (key = PlatformRelease) then
    let! specifier := lift_option (release_specifier operator value) in
    match specifier with
    | Some specifier =>
        let! edges := lift_option (edges_from_specifier specifier) in
        let! version := create_node (VarVersionString key) edges in
        let! darwin := darwin_node in
        let! version := and darwin version in
        let! string := and (node_not darwin) string in
        or_with version string
    | None => ret string
    end
  else ret string.

Definition version_variable (key : MarkerValueVersion) : MarkerVariable :=
  match key with
  | MvImplementationVersion => VarVersion ImplementationVersion
  | MvPythonFullVersion | MvPythonVersion => VarVersion PythonFullVersion
  end.

Definition version_expression (key : MarkerValueVersion) (specifier : VersionSpecifier) : M C NodeId :=
  match key with
  | MvImplementationVersion | MvPythonFullVersion =>
      let! edges := lift_option (edges_from_specifier specifier) in
      create_node (version_variable key) edges
  | MvPythonVersion =>
      let! specifier := lift_option (specifier_only_release specifier) in
      let! specifier := lift_option (python_version_to_full_version specifier) in
      match specifier with
      | inl specifier =>
          let! edges := lift_option (edges_from_specifier specifier) in
          create_node (version_variable key) edges
      | inr node => ret node
      end
  end.

Definition version_in_expression (key : MarkerValueVersion) (versions : list Version)
    (operator : ContainerOperator) : M C NodeId :=
  match key with
  | MvImplementationVersion | MvPythonFullVersion =>
      let! edges := lift_option (edges_from_versions versions operator) in
      create_node (version_variable key) edges
  | MvPythonVersion =>
      let! edges := lift_option (edges_from_python_versions versions operator) in
      match edges with
      | inl edges => create_node (version_variable key) edges
      | inr node => ret node
      end
  end.

Definition expression_with (expr : MarkerExpression) : M C NodeId :=
  match expr with
  | ExprVersion key specifier => version_expression key specifier
  | ExprVersionIn key versions operator => version_in_expression key versions operator
  | ExprString key MIn value =>
      create_node (VarIn (canonical_string key) value) (edges_from_bool true)
  | ExprString key MNotIn value =>
      create_node (VarIn (canonical_string key) value) (edges_from_bool false)
  | ExprString key MContains value =>
      create_node (VarContains (canonical_string key) value) (edges_from_bool true)
  | ExprString key MNotContains value =>
      create_node (VarContains (canonical_string key) value) (edges_from_bool false)
  | ExprString key operator value => string_expression key operator value
  | ExprList p operator =>
      create_node (VarList p) (edges_from_bool (bool_decide (operator = ContainerIn)))
  | ExprExtra (ExtraValid extra) ExtraEqual => create_node (VarExtra extra) (edges_from_bool true)
  | ExprExtra (ExtraValid extra) ExtraNotEqual => create_node (VarExtra extra) (edges_from_bool false)
  | ExprExtra (ExtraArbitrary _) _ => ret NODE_FALSE
  end.

(** [key == value], as [exclusions] creates it. *)
Definition equal_node (key : MarkerValueString) (value : string) : M C NodeId :=
  expression_with (ExprString key MEqual (bytes value)).

Fixpoint exclude_pairs (pairs : list (NodeId * NodeId)) (tree : NodeId) : M (gmap (Z * Z) Z) NodeId :=
  match pairs with
  | [] => ret tree
  | (a, b) :: pairs' =>
      let! a_and_b := conjunction_nodes a b in
      let! tree := disjunction tree a_and_b in
      exclude_pairs pairs' tree
  end.

Definition exclusions_with : M C NodeId :=
  let! st := get_interner in
  match exclusions_cache st with
  | Some exclusions => ret exclusions
  | None =>
      let! os_name_nt := equal_node MvOsName "nt" in
      let! os_name_posix := equal_node MvOsName "posix" in
      let! sys_platform_linux := equal_node MvSysPlatform "linux" in
      let! sys_platform_darwin := equal_node MvSysPlatform "darwin" in
      let! sys_platform_ios := equal_node MvSysPlatform "ios" in
      let! sys_platform_win32 := equal_node MvSysPlatform "win32" in
      let! platform_system_freebsd := equal_node MvPlatformSystem "FreeBSD" in
      let! platform_system_netbsd := equal_node MvPlatformSystem "NetBSD" in
      let! platform_system_openbsd := equal_node MvPlatformSystem "OpenBSD" in
      let! platform_system_sunos := equal_node MvPlatformSystem "SunOS" in
      let! platform_system_ios := equal_node MvPlatformSystem "iOS" in
      let! platform_system_ipados := equal_node MvPlatformSystem "iPadOS" in
      let! sys_platform_aix := equal_node MvSysPlatform "aix" in
      let! sys_platform_android := equal_node MvSysPlatform "android" in
      let! sys_platform_emscripten := equal_node MvSysPlatform "emscripten" in
      let! sys_platform_cygwin := equal_node MvSysPlatform "cygwin" in
      let! sys_platform_wasi := equal_node MvSysPlatform "wasi" in
      let pairs :=
        [(os_name_nt, sys_platform_linux); (os_name_nt, sys_platform_darwin);
         (os_name_nt, sys_platform_ios); (os_name_posix, sys_platform_win32)] ++
        ([platform_system_freebsd; platform_system_netbsd; platform_system_openbsd;
          platform_system_sunos; platform_system_ios; platform_system_ipados] ≫= fun platform_system =>
          [sys_platform_aix; sys_platform_android; sys_platform_emscripten; sys_platform_ios;
           sys_platform_linux; sys_platform_darwin; sys_platform_win32; sys_platform_cygwin;
           sys_platform_wasi] ≫= fun sys_platform =>
            if (sys_platform =? sys_platform_ios) &&
               ((platform_system =? platform_system_ios) || (platform_system =? platform_system_ipados))
            then [] else [(platform_system, sys_platform)]) in
      let! tree := with_cache ∅ (exclude_pairs pairs NODE_FALSE) in
      let! st := get_interner in
      set_interner (mkInterner (nodes st) (unique st) (cache st) (Some tree)) ;;
      ret tree
  end.
End Expression.

(** ** Conjunction *)

Definition and_nontrivial_with {C : Type} (and : NodeId -> NodeId -> M C NodeId) (xi yi : NodeId) :
    M C NodeId :=
  let key := if xi <? yi then (xi, yi) else (yi, xi) in
  let! st := get_interner in
  match cache st !! key with
  | Some result => ret result
  | None =>
      let! x := get_node xi in
      let! y := get_node yi in
      let conflicts := is_conflicting_variable (node_var x) && is_conflicting_variable (node_var y) in
      let! node := expand and xi yi in
      let! node :=
        (if conflicts then
           let! exclusions := exclusions_with and in
           let! st := get_interner in
           let! disjoint := lift_option (disjoint_nodes (nodes st) node (node_not exclusions)) in
           ret (if (disjoint : bool) then NODE_FALSE else node)
         else ret node) in
      let! st := get_interner in
      set_interner (mkInterner (nodes st) (unique st) (<[key := node]> (cache st)) (exclusions_cache st)) ;;
      ret node
  end.

Fixpoint and_fuel {C : Type} (fuel : nat) (xi yi : NodeId) : M C NodeId :=
  match and_trivial xi yi with
  | Some result => ret result
  | None =>
      match fuel with
      | O => panic
      | S fuel => and_nontrivial_with (and_fuel fuel) xi yi
      end
  end.

Definition and {C : Type} (xi yi : NodeId) : M C NodeId := and_fuel (node_rank xi + node_rank yi) xi yi.

Definition or {C : Type} (xi yi : NodeId) : M C NodeId :=
  let! node := and (node_not xi) (node_not yi) in ret (node_not node).

Definition and_nontrivial {C : Type} (xi yi : NodeId) : M C NodeId := and_nontrivial_with and xi yi.

Definition or_nontrivial {C : Type} (xi yi : NodeId) : M C NodeId :=
  let! node := and_nontrivial (node_not xi) (node_not yi) in ret (node_not node).

Definition expression {C : Type} (expr : MarkerExpression) : M C NodeId := expression_with and expr.

Definition exclusions {C : Type} : M C NodeId := exclusions_with and.

(** ** Queries *)

Definition is_disjoint_nontrivial {C : Type} (xi yi : NodeId) : M C bool :=
  let! x := get_node xi in
  let! y := get_node yi in
  if is_conflicting_variable (node_var x) && is_conflicting_variable (node_var y) then
    let! node := and xi yi in ret (node_is_false node)
  else
    let! st := get_interner in
    lift_option (disjoint_expansion (disjoint_nodes (nodes st)) (nodes st) xi yi).

Definition is_unreachable {C : Type} (marker : NodeId) : M C bool :=
  let! exclusions := exclusions in
  let! node := and marker (node_not exclusions) in
  ret (node_is_false node).
End Algebra.
