(* ===== verification/MarkerRestrict.v ===== *)
(** * Markers: restriction and substitution

    The operations of [crates/uv-pep508/src/marker/algebra.rs] that rewrite a marker: restriction
    to an assumption, the removal of extras, and the substitution of conditions for extras. Each
    has a cache of its own, the local state of the computation. *)

From stdpp Require Import base countable list option numbers decidable strings gmap.
From Stdlib Require Import ZArith Lia.
From S2P Require Import Prelude Ranges VersionTypes VersionSmall Version VersionOrder.
From S2P Require Import VersionParser VersionSpecifier MarkerTypes Interner MarkerAlgebra.

Local Open Scope Z_scope.
Local Open Scope uv_scope.

(** ** Local variables *)

(** The caches: by node, by pair of nodes, and of bounds. *)
Notation node_cache := (gmap Z Z).
Notation pair_cache := (gmap (Z * Z) Z).
Notation bounds_cache := (gmap Z (Z * Z)).

(** A computation that has one more local variable, and returns its last value. *)
Definition zoom {RV : RangeOps Version} {RS : RangeOps (list Z)} {C D A : Type} (m : M C A) : M (C * D) A :=
  fun s => '(a, s') ← m (s.1, s.2.1); Some (a, (s'.1, (s'.2, s.2.2))).

Definition with_variable {RV : RangeOps Version} {RS : RangeOps (list Z)} {C D A : Type} (d : D)
    (m : M (C * D) A) : M C (A * D) :=
  fun s => '(a, s') ← m (s.1, (s.2, d)); Some ((a, s'.2.2), (s'.1, s'.2.1)).

Section Restrict.
Context {RV : RangeOps Version} {RS : RangeOps (list Z)}.

Definition get_variable {C D : Type} : M (C * D) D := fun s => Some (s.2.2, s).
Definition set_variable {C D : Type} (d : D) : M (C * D) () := fun s => Some ((), (s.1, (s.2.1, d))).

(** ** Restriction of boolean variables *)

(** The cache is created when the traversal first branches. *)
Fixpoint restrict_by_cached (fuel : nat) (f : MarkerVariable -> option bool) (i : NodeId) :
    M (option node_cache) NodeId :=
  if node_is_true i || node_is_false i then ret i
  else
    let! cache := get_local in
    let cache_result := bool_decide (is_Some cache) in
    match cache ≫= (fun cache => cache !! i) with
    | Some result => ret result
    | None =>
        match fuel with
        | O => panic
        | S fuel =>
            let! node := get_node i in
            let! result :=
              match node_children node, f (node_var node) with
              | EdgesBoolean high low, Some value =>
                  restrict_by_cached fuel f (node_negate (if (value : bool) then high else low) i)
              | children, _ =>
                  (if negb (bool_decide (is_Some cache)) && has_multiple_nonterminal_children children
                   then set_local (Some ∅) else ret ()) ;;
                  let! children := edges_map children i (restrict_by_cached fuel f) in
                  create_node (node_var node) children
              end in
            let! cache := get_local in
            (match cache with
             | Some cache => if cache_result then set_local (Some (<[i := result]> cache)) else ret ()
             | None => ret ()
             end) ;;
            ret result
        end
    end.

Definition restrict_by {C : Type} (i : NodeId) (f : MarkerVariable -> option bool) : M C NodeId :=
  with_cache None (restrict_by_cached (node_rank i) f i).

(** ** Restriction to an assumption *)

(** [for child in nodes { i = self.or(i, child.negate(parent)) }]. *)
Fixpoint or_children {C : Type} (nodes : list NodeId) (parent : NodeId) (i : NodeId) : M C NodeId :=
  match nodes with
  | [] => ret i
  | child :: nodes' => let! i := or i (node_negate child parent) in or_children nodes' parent i
  end.

Section RestrictStep.
Context (restrict_cached : NodeId -> NodeId -> M pair_cache NodeId).

(** The first traversal of matching ranges: the result of the first range that is reachable. *)
Definition restrict_first (value assumption : NodeId) : M (pair_cache * option NodeId) NodeId :=
  if node_is_false assumption then ret NODE_FALSE
  else
    let! result := zoom (restrict_cached value assumption) in
    let! fallback := get_variable in
    set_variable (Some (default result fallback)) ;;
    ret result.

Definition restrict_second (fallback : NodeId) (value assumption : NodeId) : M pair_cache NodeId :=
  if node_is_false assumption then ret fallback else restrict_cached value assumption.

(** [None] is the early return, which does not fill the cache. *)
Definition restrict_expansion (value assumption : NodeId) : M pair_cache (option NodeId) :=
  let! value_node := get_node value in
  let! assumption_node := get_node assumption in
  match variable_cmp (node_var value_node) (node_var assumption_node) with
  | Lt =>
      let! children := edges_map (node_children value_node) value (fun value => restrict_cached value assumption) in
      let! node := create_node (node_var value_node) children in
      ret (Some node)
  | Gt =>
      let! quantified := or_children (edges_nodes (node_children assumption_node)) assumption NODE_FALSE in
      let! node := restrict_cached value quantified in
      ret (Some node)
  | Eq =>
      let! first :=
        with_variable None (edges_apply (node_children value_node) value (node_children assumption_node)
          assumption restrict_first) in
      match first.2 with
      | None => ret None
      | Some fallback =>
          let! children :=
            edges_apply (node_children value_node) value (node_children assumption_node) assumption
              (restrict_second fallback) in
          let! node := create_node (node_var value_node) children in
          ret (Some node)
      end
  end.
End RestrictStep.

Fixpoint restrict_cached (fuel : nat) (value assumption : NodeId) : M pair_cache NodeId :=
  if node_is_true assumption || (node_is_true value || node_is_false value) then ret value
  else if node_is_false assumption then ret NODE_FALSE
  else if value =? assumption then ret NODE_TRUE
  else if value =? node_not assumption then ret NODE_FALSE
  else
    let! cache := get_local in
    match cache !! (value, assumption) with
    | Some result => ret result
    | None =>
        match fuel with
        | O => panic
        | S fuel =>
            let! result := restrict_expansion (restrict_cached fuel) value assumption in
            match result with
            | None => ret NODE_FALSE
            | Some result =>
                let! cache := get_local in
                set_local (<[(value, assumption) := result]> cache) ;;
                ret result
            end
        end
    end.

(** Each step decides a variable of the value or of the assumption. *)
Definition restrict {C : Type} (value assumption : NodeId) : M C NodeId :=
  let! st := get_interner in
  with_cache ∅ (restrict_cached (length (nodes st) + length (nodes st)) value assumption).

(** ** Extras *)

Definition is_extra (var : MarkerVariable) : bool :=
  match var with VarExtra _ => true | _ => false end.

Fixpoint without_extras_cached (fuel : nat) (i : NodeId) : M node_cache NodeId :=
  if node_is_true i || node_is_false i then ret i
  else
    let! cache := get_local in
    match cache !! i with
    | Some cached => ret cached
    | None =>
        match fuel with
        | O => panic
        | S fuel =>
            let! node := get_node i in
            let! result :=
              (if is_extra (node_var node) then
                 let! j := or_children (edges_nodes (node_children node)) i NODE_FALSE in
                 if node_is_true j then ret NODE_TRUE else without_extras_cached fuel j
               else
                 let! children := edges_map (node_children node) i (without_extras_cached fuel) in
                 create_node (node_var node) children) in
            let! cache := get_local in
            set_local (<[i := result]> cache) ;;
            ret result
        end
    end.

Definition without_extras {C : Type} (i : NodeId) : M C NodeId :=
  let! st := get_interner in with_cache ∅ (without_extras_cached (length (nodes st)) i).

Fixpoint only_extras_fuel {C : Type} (fuel : nat) (i : NodeId) : M C NodeId :=
  if node_is_true i || node_is_false i then ret i
  else
    match fuel with
    | O => panic
    | S fuel =>
        let! node := get_node i in
        if negb (is_extra (node_var node)) then
          let! j := or_children (edges_nodes (node_children node)) i NODE_FALSE in
          if node_is_true j then ret NODE_TRUE else only_extras_fuel fuel j
        else
          let! children := edges_map (node_children node) i (only_extras_fuel fuel) in
          create_node (node_var node) children
    end.

Definition only_extras {C : Type} (i : NodeId) : M C NodeId :=
  let! st := get_interner in only_extras_fuel (length (nodes st)) i.

(** The search of [contains_extras]: the references to visit and the nodes that were seen. *)
Fixpoint push_unvisited (children : list NodeId) (pending : list NodeId) (visited : gset Z) :
    list NodeId * gset Z :=
  match children with
  | [] => (pending, visited)
  | child :: children' =>
      if negb (node_is_true child) && negb (node_is_false child)
         && negb (bool_decide (Z.of_nat (node_index child) ∈ visited))
      then push_unvisited children' (child :: pending) ({[Z.of_nat (node_index child)]} ∪ visited)
      else push_unvisited children' pending visited
  end.

Fixpoint contains_extras_fuel (fuel : nat) (table : list Node) (pending : list NodeId) (visited : gset Z) :
    option bool :=
  match fuel with
  | O => None
  | S fuel =>
      match pending with
      | [] => Some false
      | marker :: pending =>
          if node_is_true marker || node_is_false marker then contains_extras_fuel fuel table pending visited
          else
            node ← node_at table marker;
            if is_extra (node_var node) then Some true
            else
              let '(pending, visited) := push_unvisited (edges_nodes (node_children node)) pending visited in
              contains_extras_fuel fuel table pending visited
      end
  end.

(** Every node is pushed once, and the marker itself perhaps twice. *)
Definition contains_extras (table : list Node) (marker : NodeId) : option bool :=
  contains_extras_fuel (length table + 2) table [marker] ∅.

(** ** Substitution of extras *)

(** A decision with children that may have earlier variables. *)
Fixpoint rebuild_ranges {C T : Type} (cmp : T -> T -> comparison) `{!RangeOps T}
    (to_edges : list (range T * NodeId) -> Edges) (variable : MarkerVariable)
    (edges : list (range T * NodeId)) (result : NodeId) : M C NodeId :=
  match edges with
  | [] => ret result
  | (r, child) :: edges' =>
      if node_is_false child then rebuild_ranges cmp to_edges variable edges' result
      else
        let! condition := create_node variable (to_edges (from_range cmp r)) in
        let! branch := and condition child in
        let! result := or result branch in
        rebuild_ranges cmp to_edges variable edges' result
  end.

Definition rebuild_node {C : Type} (variable : MarkerVariable) (children : Edges) : M C NodeId :=
  match children with
  | EdgesBoolean high low =>
      let! condition := create_node variable (edges_from_bool true) in
      let! high := and condition high in
      let! low := and (node_not condition) low in
      or high low
  | EdgesVersion edges => rebuild_ranges version_cmp EdgesVersion variable edges NODE_FALSE
  | EdgesString edges => rebuild_ranges string_cmp EdgesString variable edges NODE_FALSE
  end.

(** The closure of [map]: it records whether a child changed. *)
Definition mark_changed {C : Type} (f : NodeId -> M C NodeId) (child : NodeId) : M (C * bool) NodeId :=
  let! result := zoom (f child) in
  let! changed := get_variable in
  set_variable (changed || negb (result =? child)) ;;
  ret result.

Definition known_extra (known_extras : gmap (list Z) Z) (name : list Z) : NodeId :=
  default NODE_FALSE (known_extras !! name).

Fixpoint resolve_extras_cached (fuel : nat) (known_extras : gmap (list Z) Z) (marker : NodeId) :
    M node_cache NodeId :=
  if node_is_true marker || node_is_false marker then ret marker
  else
    let! cache := get_local in
    match cache !! marker with
    | Some result => ret result
    | None =>
        match fuel with
        | O => panic
        | S fuel =>
            let! node := get_node marker in
            let! result :=
              match node_var node, node_children node with
              | VarExtra name, EdgesBoolean high low =>
                  let condition := known_extra known_extras name in
                  if node_is_true condition then resolve_extras_cached fuel known_extras (node_negate high marker)
                  else if node_is_false condition then
                    resolve_extras_cached fuel known_extras (node_negate low marker)
                  else
                    let! high := resolve_extras_cached fuel known_extras (node_negate high marker) in
                    let! low := resolve_extras_cached fuel known_extras (node_negate low marker) in
                    let! high := and condition high in
                    let! low := and (node_not condition) low in
                    or high low
              | var, children =>
                  let! mapped :=
                    with_variable false (edges_map children marker
                      (mark_changed (resolve_extras_cached fuel known_extras))) in
                  if mapped.2 then rebuild_node var mapped.1 else ret marker
              end in
            let! cache := get_local in
            set_local (<[marker := result]> cache) ;;
            ret result
        end
    end.

Definition resolve_extras {C : Type} (marker : NodeId) (known_extras : gmap (list Z) Z) : M C NodeId :=
  with_cache ∅ (resolve_extras_cached (node_rank marker) known_extras marker).

(** The bounds of an extra: where it is active for sure, and where it may be. *)
Definition known_bounds (known_extras : gmap (list Z) (Z * Z)) (name : list Z) : NodeId * NodeId :=
  default (NODE_FALSE, NODE_FALSE) (known_extras !! name).

(** The bounds of a decision on an extra, from those of its children. *)
Definition combine_bounds {C : Type} (bounds high low : NodeId * NodeId) : M C (NodeId * NodeId) :=
  let '(lower, upper) := bounds in
  let '(high_lower, high_upper) := high in
  let '(low_lower, low_upper) := low in
  let! positive_lower := and lower high_lower in
  let! negative_lower := and (node_not upper) low_lower in
  let! result_lower := or positive_lower negative_lower in
  let! result_lower :=
    (if lower =? upper then ret result_lower
     else
       let! consensus := and high_lower low_lower in
       or result_lower consensus) in
  let! positive_upper := and upper high_upper in
  let! negative_upper := and (node_not lower) low_upper in
  let! result_upper := or positive_upper negative_upper in
  ret (result_lower, result_upper).

(** One bound of the children of a decision. *)
Definition map_bound (f : NodeId -> M bounds_cache (NodeId * NodeId)) (side : NodeId * NodeId -> NodeId)
    (children : Edges) (marker : NodeId) : M bounds_cache (Edges * bool) :=
  with_variable false (edges_map children marker
    (mark_changed (fun child => let! bounds := f child in ret (side bounds)))).

Definition rebuild_if {C : Type} (var : MarkerVariable) (mapped : Edges * bool) (marker : NodeId) : M C NodeId :=
  if mapped.2 then rebuild_node var mapped.1 else ret marker.

Fixpoint resolve_extras_with_bounds_cached (fuel : nat) (known_extras : gmap (list Z) (Z * Z))
    (marker : NodeId) : M bounds_cache (NodeId * NodeId) :=
  if node_is_true marker || node_is_false marker then ret (marker, marker)
  else
    let! cache := get_local in
    match cache !! marker with
    | Some result => ret result
    | None =>
        match fuel with
        | O => panic
        | S fuel =>
            let! node := get_node marker in
            let! result :=
              match node_var node, node_children node with
              | VarExtra name, EdgesBoolean high low =>
                  let '(lower, upper) := known_bounds known_extras name in
                  if node_is_true lower then
                    resolve_extras_with_bounds_cached fuel known_extras (node_negate high marker)
                  else if node_is_false upper then
                    resolve_extras_with_bounds_cached fuel known_extras (node_negate low marker)
                  else
                    let! high := resolve_extras_with_bounds_cached fuel known_extras (node_negate high marker) in
                    let! low := resolve_extras_with_bounds_cached fuel known_extras (node_negate low marker) in
                    combine_bounds (lower, upper) high low
              | var, children =>
                  let! lower := map_bound (resolve_extras_with_bounds_cached fuel known_extras) fst children marker in
                  let! upper := map_bound (resolve_extras_with_bounds_cached fuel known_extras) snd children marker in
                  let! lower := rebuild_if var lower marker in
                  let! upper := rebuild_if var upper marker in
                  ret (lower, upper)
              end in
            let! cache := get_local in
            set_local (<[marker := result]> cache) ;;
            ret result
        end
    end.

Definition resolve_extras_with_bounds {C : Type} (marker : NodeId) (known_extras : gmap (list Z) (Z * Z)) :
    M C (NodeId * NodeId) :=
  with_cache ∅ (resolve_extras_with_bounds_cached (node_rank marker) known_extras marker).

(** ** Python versions *)

Definition is_unbounded {T : Type} (b : bound_of T) : bool :=
  match b with Unbounded => true | _ => false end.

(** The edges that have versions within the bounds, cut to the bounds. *)
Definition overlapping (py_range : range Version) (edges : list (range Version * NodeId)) :
    list (range Version * NodeId) :=
  omap (fun '(r, node) =>
    let overlap := range_intersection r py_range in
    if range_is_empty overlap then None else Some (overlap, node)) edges.

(** [*new.first_mut() = (clipped, first_node_id)]: the first range is extended downwards. *)
Definition clip_first (new : list (range Version * NodeId)) : option (list (range Version * NodeId)) :=
  match new with
  | [] => None
  | (first_range, first_node_id) :: rest =>
      bounds ← range_bounding first_range;
      Some ((range_from_bounds Unbounded bounds.2, first_node_id) :: rest)
  end.

(** [*new.last_mut() = (clipped, last_node_id)]: the last range is extended upwards. *)
Definition clip_last (new : list (range Version * NodeId)) : option (list (range Version * NodeId)) :=
  '(last_range, last_node_id) ← last new;
  bounds ← range_bounding last_range;
  Some (take (length new - 1) new ++ [(range_from_bounds bounds.1 Unbounded, last_node_id)]).

Fixpoint simplify_python_versions_fuel {C : Type} (fuel : nat) (i : NodeId) (py_lower py_upper : Bound) : M C NodeId :=
  if (node_is_true i || node_is_false i) || (is_unbounded py_lower && is_unbounded py_upper) then ret i
  else
    match fuel with
    | O => panic
    | S fuel =>
        let! node := get_node i in
        match node_var node, node_children node with
        | VarVersion PythonFullVersion, EdgesVersion edges =>
            let py_range := range_from_bounds py_lower py_upper in
            if range_is_empty py_range then ret NODE_FALSE
            else
              match clip_first (overlapping py_range edges) ≫= clip_last with
              | None => panic
              | Some new =>
                  let! result := create_node (node_var node) (EdgesVersion new) in
                  ret (node_negate result i)
              end
        | _, children =>
            let! children := edges_map children i (fun node_id => simplify_python_versions_fuel fuel node_id py_lower py_upper) in
            create_node (node_var node) children
        end
    end.

Definition simplify_python_versions {C : Type} (i : NodeId) (py_lower py_upper : Bound) : M C NodeId :=
  simplify_python_versions_fuel (node_rank i) i py_lower py_upper.

Definition complexify_python_versions {C : Type} (i : NodeId) (py_lower py_upper : Bound) : M C NodeId :=
  if node_is_false i || (is_unbounded py_lower && is_unbounded py_upper) then ret i
  else
    let py_range := range_from_bounds py_lower py_upper in
    let! versions := create_node (VarVersion PythonFullVersion) (EdgesVersion (from_range version_cmp py_range)) in
    and i versions.
End Restrict.
