(* ===== verification/Isop.v ===== *)
(** * Markers: covers

    The extraction of a sum of products from a decision diagram,
    [crates/uv-pep508/src/marker/algebra/isop.rs]. A call [isop_cached(lower, upper)] returns a
    cover between its bounds; the recursion is bounded by the number of variables left. The
    reference to a terminal has no node, so that an interval with a terminal bound that is not one of
    the first two cases panics. *)

From stdpp Require Import base countable list option numbers decidable strings gmap.
From Stdlib Require Import ZArith Lia.
From S2P Require Import Prelude Ranges VersionTypes VersionSmall Version VersionOrder.
From S2P Require Import VersionParser VersionSpecifier MarkerTypes Interner MarkerAlgebra.

Local Open Scope Z_scope.
Local Open Scope uv_scope.

(** ** Covers *)

(** A condition on one variable: a node, or the edges of a node that lead to a child. *)
Inductive Guard : Type :=
| GuardNode (node : NodeId)
| GuardEdge (node child : NodeId).

Inductive Cover : Type :=
| CoverFalse
| CoverTrue
| CoverGuard (node : NodeId)
| CoverBranches (branches : list (Guard * Cover)).

(** The cache of [isop_cached]. *)
Notation cover_cache := (gmap (Z * Z) (Z * Cover)).

(** ** Cofactors *)

(** An [IndexMap] keeps the order in which its keys were inserted; the value of a key that is
    present changes in place. *)
Section IndexMap.
Context {K V : Type} `{!EqDecision K}.

Definition index_get (m : list (K * V)) (k : K) : option V :=
  snd <$> List.find (fun e => bool_decide (e.1 = k)) m.

Fixpoint index_insert (m : list (K * V)) (k : K) (v : V) : list (K * V) :=
  match m with
  | [] => [(k, v)]
  | e :: m' => if decide (e.1 = k) then (k, v) :: m' else e :: index_insert m' k v
  end.
End IndexMap.

Section Cofactors.
Context {T : Type} (cmp : T -> T -> comparison) `{!RangeOps T}.

(** The edges of the decision whether the child is the selected one. *)
Definition guard_edges (edges : list (range T * NodeId)) (parent child : NodeId) : list (range T * NodeId) :=
  from_range cmp (range_collect
    (List.filter (fun e => node_negate e.2 parent =? child) edges ≫= fun e => range_iter e.1)).

(** An included end comes after an excluded one. *)
Definition compare_ends (left right : bound_of T) : comparison :=
  match left, right with
  | Unbounded, Unbounded => Eq
  | Unbounded, _ => Gt
  | _, Unbounded => Lt
  | Included l, Included r | Excluded l, Excluded r => cmp l r
  | Included l, Excluded r => match cmp l r with Eq => Gt | c => c end
  | Excluded l, Included r => match cmp l r with Eq => Lt | c => c end
  end.

(** The regions with the pairs of cofactors; each step leaves one edge at least. *)
Fixpoint range_regions (fuel : nat) (left right : list (range T * NodeId)) (lower_parent upper_parent : NodeId)
    (regions : list ((NodeId * NodeId) * range T)) : option (list ((NodeId * NodeId) * range T)) :=
  match left, right with
  | (lower_range, lower) :: left', (upper_range, upper) :: right' =>
      match fuel with
      | O => None
      | S fuel =>
          let intersection := range_intersection lower_range upper_range in
          let regions :=
            if range_is_empty intersection then regions
            else
              let cofactors := (node_negate lower lower_parent, node_negate upper upper_parent) in
              index_insert regions cofactors
                (match index_get regions cofactors with
                 | Some range => range_union range intersection
                 | None => intersection
                 end) in
          match snd <$> range_bounding lower_range, snd <$> range_bounding upper_range with
          | Some lower_end, Some upper_end =>
              match compare_ends lower_end upper_end with
              | Lt => range_regions fuel left' right lower_parent upper_parent regions
              | Eq => range_regions fuel left' right' lower_parent upper_parent regions
              | Gt => range_regions fuel left right' lower_parent upper_parent regions
              end
          | None, _ => range_regions fuel left' right lower_parent upper_parent regions
          | _, None => range_regions fuel left right' lower_parent upper_parent regions
          end
      end
  | _, _ => Some regions
  end.

(** Without edges, an operand is one edge, which is not relative to a parent. *)
Definition range_cofactors (lower : NodeId) (lower_edges : option (list (range T * NodeId)))
    (upper : NodeId) (upper_edges : option (list (range T * NodeId))) :
    option (list ((NodeId * NodeId) * range T)) :=
  let '(lower_edges, lower_parent) :=
    match lower_edges with Some edges => (edges, lower) | None => ([(range_full, lower)], NODE_TRUE) end in
  let '(upper_edges, upper_parent) :=
    match upper_edges with Some edges => (edges, upper) | None => ([(range_full, upper)], NODE_TRUE) end in
  range_regions (length lower_edges + length upper_edges) lower_edges upper_edges lower_parent upper_parent [].
End Cofactors.

Section Isop.
Context {RV : RangeOps Version} {RS : RangeOps (list Z)}.

Definition guard_node {C : Type} (guard : Guard) : M C NodeId :=
  match guard with
  | GuardNode node => ret node
  | GuardEdge node child =>
      let! decision := get_node node in
      create_node (node_var decision)
        (match node_children decision with
         | EdgesBoolean high _ => edges_from_bool (node_negate high node =? child)
         | EdgesVersion edges => EdgesVersion (guard_edges version_cmp edges node child)
         | EdgesString edges => EdgesString (guard_edges string_cmp edges node child)
         end)
  end.

(** The guards of regions; a region that needs no cover has none. *)
Fixpoint region_guards {C T : Type} (cmp : T -> T -> comparison) `{!RangeOps T}
    (to_edges : list (range T * NodeId) -> Edges) (variable : MarkerVariable)
    (regions : list ((NodeId * NodeId) * range T)) : M C (list (Guard * (NodeId * NodeId))) :=
  match regions with
  | [] => ret []
  | ((lower, upper), region) :: regions' =>
      let! guard :=
        (if node_is_false lower then ret NODE_FALSE
         else create_node variable (to_edges (from_range cmp region))) in
      let! guards := region_guards cmp to_edges variable regions' in
      ret ((GuardNode guard, (lower, upper)) :: guards)
  end.

(** The children of a reference, without repetition. *)
Fixpoint distinct (seen : gset Z) (l : list NodeId) : list NodeId :=
  match l with
  | [] => []
  | child :: l' => if decide (child ∈ seen) then distinct seen l' else child :: distinct ({[child]} ∪ seen) l'
  end.

Definition exact_cofactors (lower : NodeId) (node : Node) : list (Guard * (NodeId * NodeId)) :=
  match node_children node with
  | EdgesBoolean high low =>
      (fun child => let child := node_negate child lower in (GuardEdge lower child, (child, child))) <$> [low; high]
  | children =>
      (fun child => (GuardEdge lower child, (child, child)))
        <$> distinct ∅ ((fun child => node_negate child lower) <$> edges_nodes children)
  end.

(** The edges of a node, if it decides on the variable. *)
Definition version_edges (node : Node) (variable : MarkerVariable) : option (list (range Version * NodeId)) :=
  match node_children node with
  | EdgesVersion edges => if decide (node_var node = variable) then Some edges else None
  | _ => None
  end.

Definition string_edges (node : Node) (variable : MarkerVariable) : option (list (range (list Z) * NodeId)) :=
  match node_children node with
  | EdgesString edges => if decide (node_var node = variable) then Some edges else None
  | _ => None
  end.

(** The low and the high child of a reference, if its node decides on the variable. *)
Definition boolean_cofactors (i : NodeId) (node : Node) (variable : MarkerVariable) : NodeId * NodeId :=
  match node_children node with
  | EdgesBoolean high low =>
      if decide (node_var node = variable) then (node_negate low i, node_negate high i) else (i, i)
  | _ => (i, i)
  end.

Definition cover_cofactors {C : Type} (lower upper : NodeId) : M C (list (Guard * (NodeId * NodeId))) :=
  if lower =? upper then
    let! node := get_node lower in ret (exact_cofactors lower node)
  else
    let! lower_node := get_node lower in
    let! upper_node := get_node upper in
    let variable :=
      match variable_cmp (node_var lower_node) (node_var upper_node) with
      | Gt => node_var upper_node
      | _ => node_var lower_node
      end in
    let first := if decide (node_var lower_node = variable) then lower_node else upper_node in
    match node_children first with
    | EdgesBoolean _ _ =>
        let '(lower_low, lower_high) := boolean_cofactors lower lower_node variable in
        let '(upper_low, upper_high) := boolean_cofactors upper upper_node variable in
        let! guard := create_node variable (edges_from_bool true) in
        ret [(GuardNode (node_not guard), (lower_low, upper_low)); (GuardNode guard, (lower_high, upper_high))]
    | EdgesVersion _ =>
        let! regions := lift_option (range_cofactors version_cmp lower (version_edges lower_node variable)
          upper (version_edges upper_node variable)) in
        region_guards version_cmp EdgesVersion variable regions
    | EdgesString _ =>
        let! regions := lift_option (range_cofactors string_cmp lower (string_edges lower_node variable)
          upper (string_edges upper_node variable)) in
        region_guards string_cmp EdgesString variable regions
    end.

(** ** Extraction *)

(** The branches by their functions. *)
Notation branch_map := (list (NodeId * (Guard * Cover))).

Fixpoint common_bound {C : Type} (cofactors : list (Guard * (NodeId * NodeId))) (common : NodeId) : M C NodeId :=
  match cofactors with
  | [] => ret common
  | (_, (_, upper)) :: cofactors' => let! common := and common upper in common_bound cofactors' common
  end.

(** Equal functions share a branch. *)
Definition add_branch {C : Type} (branches : branch_map) (specific : NodeId) (guard : Guard) (cover : Cover) :
    M C branch_map :=
  match index_get branches specific with
  | None => ret (index_insert branches specific (guard, cover))
  | Some (previous, shared) =>
      let! previous := guard_node previous in
      let! added := guard_node guard in
      let! union := or previous added in
      ret (index_insert branches specific (GuardNode union, shared))
  end.

(** The loop over the cofactors: what is left for the common cover, the function so far, and the branches. *)
Fixpoint isop_branches (isop : NodeId -> NodeId -> M cover_cache (NodeId * Cover)) (exact : bool)
    (common_upper : NodeId) (cofactors : list (Guard * (NodeId * NodeId)))
    (common_lower function : NodeId) (branches : branch_map) :
    M cover_cache (NodeId * NodeId * branch_map) :=
  match cofactors with
  | [] => ret (common_lower, function, branches)
  | (guard, (lower, upper)) :: cofactors' =>
      let! required := and lower (node_not common_upper) in
      let! result := isop required upper in
      let '(specific, cover) := result in
      let! remaining := and lower (node_not specific) in
      let! common_lower := or common_lower remaining in
      if node_is_false specific then
        isop_branches isop exact common_upper cofactors' common_lower function branches
      else
        let! function :=
          (if exact then ret function
           else
             let! condition := guard_node guard in
             let! term := and condition specific in
             or function term) in
        let! branches := add_branch branches specific guard cover in
        isop_branches isop exact common_upper cofactors' common_lower function branches
  end.

Definition is_single_decision (node : Node) : bool :=
  forallb (fun child => node_is_true child || node_is_false child) (edges_nodes (node_children node)).

Definition isop_expansion (isop : NodeId -> NodeId -> M cover_cache (NodeId * Cover)) (lower upper : NodeId) :
    M cover_cache (NodeId * Cover) :=
  let exact := lower =? upper in
  let! cofactors := cover_cofactors lower upper in
  let! common_upper := common_bound cofactors NODE_TRUE in
  let! state := isop_branches isop exact common_upper cofactors NODE_FALSE NODE_FALSE [] in
  let '(common_lower, function, branches) := state in
  let! result := isop common_lower common_upper in
  let '(common, cover) := result in
  let! function := (if exact then ret lower else or function common) in
  let branches :=
    if node_is_false common then branches
    else index_insert branches common (GuardNode NODE_TRUE, cover) in
  ret (function, CoverBranches branches.*2).

Fixpoint isop_cached (fuel : nat) (lower upper : NodeId) : M cover_cache (NodeId * Cover) :=
  if node_is_false lower then ret (NODE_FALSE, CoverFalse)
  else if node_is_true upper then ret (NODE_TRUE, CoverTrue)
  else
    let! cache := get_local in
    match cache !! (lower, upper) with
    | Some result => ret result
    | None =>
        let! single :=
          (if lower =? upper then let! node := get_node lower in ret (is_single_decision node) else ret false) in
        if (single : bool) then ret (lower, CoverGuard lower)
        else
          match fuel with
          | O => panic
          | S fuel =>
              let! result := isop_expansion (isop_cached fuel) lower upper in
              let! cache := get_local in
              set_local (<[(lower, upper) := result]> cache) ;;
              ret result
          end
    end.

(** Every step decides a variable of one of the bounds, and bounds have the variables of the marker. *)
Definition isop {C : Type} (marker : NodeId) : M C Cover :=
  let! st := get_interner in
  let! result := with_cache ∅ (isop_cached (length (nodes st)) marker marker) in
  ret result.2.
End Isop.
