(* ===== verification/PythonVersion.v ===== *)
(** * Markers: [python_version], verified

    [python_version_to_full_version]: a comparison of [python_version], which is the first two
    numbers of the Python version, is turned into a comparison of the whole version, or into a
    constant. *)

From stdpp Require Import base countable list option numbers decidable.
From Stdlib Require Import ZArith Lia.
From S2P Require Import Prelude Ranges VersionTypes VersionSmall Version VersionOrder VersionCacheKey.
From S2P Require Import VersionParser VersionSpecifier VersionRanges VersionRangesFacts.
From S2P Require Import ReleaseRanges SpecifierFacts SpecifierBounds.
From S2P Require Import MarkerTypes.

Local Open Scope Z_scope.

(** ** Specifiers on releases *)

(** The test of an operator on release numbers. *)
Definition release_test (op : Operator) (u w : list Z) : bool :=
  match op with
  | Equal | ExactEqual => is_eq (compare_release w u)
  | NotEqual => negb (is_eq (compare_release w u))
  | LessThan => is_lt (compare_release w u)
  | LessThanEqual => negb (is_gt (compare_release w u))
  | GreaterThan => is_gt (compare_release w u)
  | GreaterThanEqual => negb (is_lt (compare_release w u))
  | EqualStar => release_prefix u w
  | NotEqualStar => negb (release_prefix u w)
  | TildeEqual =>
      forallb (fun '(x, y) => x =? y) (zip (take (length u - 1) u) w) && negb (is_lt (compare_release w u))
  end.

Lemma matches_release op u w :
  release_version u -> release_version w -> specifier_valid (mkSpecifier op u) ->
  matches (mkSpecifier op u) w = release_test op (version_release u) (version_release w).
Proof.
  intros Hu Hw V. destruct (matches_order w Hw u Hu) as (M1 & M2 & M3 & M4 & M5 & M6).
  destruct (matches_star w Hw u Hu) as (M7 & M8), (release_cmp w Hw u Hu) as [C1 C2].
  destruct (release_fields u Hu) as (Eu & _), (release_fields w Hw) as (Ew & _).
  destruct op; try done; unfold matches, specifier_contains; cbn [specifier_operator specifier_version];
    fold (candidate u w); rewrite ?(candidate_self u w Hw), ?Eu, ?Ew; cbn [default negb Z.eqb].
  - unfold version_eq. rewrite C2. cbn. by destruct (compare_release _ _).
  - pose proof (valid_tilde _ V eq_refl) as Ht. unfold release_len in Ht. cbn in Ht.
    destruct (Nat.ltb_spec 1 (length (version_release u))) as [|Hlt]; [|lia].
    unfold version_ge, release_test. rewrite C1. destruct (forallb _ _); cbn; [|done].
    by destruct (compare_release (version_release w) (version_release u)).
Qed.

(** ** Two numbers *)

Lemma number_succ_u64 b : is_number b -> is_u64 (b + 1).
Proof. unfold is_number, is_u64. lia. Qed.

Lemma version_ge_lt v w : version_ge v w = negb (version_lt v w).
Proof. unfold version_ge, version_lt. by destruct (version_cmp v w). Qed.

Definition pair_cmp (a b c d : Z) : comparison := then_with (Z.compare a c) (Z.compare b d).

Lemma compare_pairs a b c d : compare_release [a; b] [c; d] = pair_cmp a b c d.
Proof. rewrite !compare_release_cons. unfold pair_cmp. by destruct (a ?= c), (b ?= d). Qed.

(** A longer release, against two numbers. *)
Lemma compare_long a b rest c d :
  Forall is_u64 rest ->
  compare_release (a :: b :: rest) [c; d] =
    match pair_cmp a b c d with Eq => compare_release rest [] | r => r end /\
  compare_release rest [] <> Lt.
Proof.
  intros H. rewrite !compare_release_cons. split; [|by apply compare_release_nil_r].
  unfold pair_cmp. by destruct (a ?= c), (b ?= d).
Qed.

Lemma prefix_pair a b rest c d : release_prefix [c; d] (a :: b :: rest) = is_eq (pair_cmp a b c d).
Proof.
  rewrite !release_prefix_cons. unfold pair_cmp, release_prefix. cbn. rewrite andb_true_r.
  destruct (Z.compare_spec a c), (Z.compare_spec b d), (Z.eqb_spec c a), (Z.eqb_spec d b); cbn; try done; lia.
Qed.

(** The order of two numbers, of a longer release. *)
Lemma long_lt a b rest c d :
  Forall is_u64 rest -> is_lt (compare_release (a :: b :: rest) [c; d]) = is_lt (pair_cmp a b c d).
Proof.
  intros H. destruct (compare_long a b rest c d H) as [-> Hn].
  destruct (pair_cmp a b c d); [|done..]. by destruct (compare_release rest []).
Qed.

Lemma long_lt_succ a b rest c d :
  Forall is_u64 rest -> is_lt (compare_release (a :: b :: rest) [c; d + 1]) = negb (is_gt (pair_cmp a b c d)).
Proof.
  intros H. rewrite long_lt by done. unfold pair_cmp.
  by destruct (Z.compare_spec a c), (Z.compare_spec b (d + 1)), (Z.compare_spec b d); cbn; try done; lia.
Qed.

(** Zeros do not count, other numbers do. *)
Lemma all_zero_strip l : all_zero l = true <-> strip_zeros l = [].
Proof.
  induction l as [|x l IH]; [done|]. cbn. rewrite andb_true_iff, IH. destruct (strip_zeros l).
  - destruct (Z.eqb_spec x 0); split; [by intros|done| |done]. by intros [].
  - split; [by intros []|done].
Qed.

Lemma compare_nil_zeros l :
  Forall is_u64 l -> compare_release [] l = if all_zero l then Eq else Lt.
Proof.
  intros H. rewrite compare_release_strip by done. pose proof (all_zero_strip l) as E.
  destruct (strip_zeros l) as [|x k]; [by rewrite (proj2 E)|].
  destruct (all_zero l); [by destruct E as [E _]; specialize (E eq_refl)|done].
Qed.

Lemma prefix_nil l : release_prefix l [] = all_zero l.
Proof. induction l as [|x l IH]; [done|]. rewrite release_prefix_cons_nil, IH. done. Qed.

Lemma strip_two a b l :
  all_zero l = false -> strip_zeros (a :: b :: l) = a :: b :: strip_zeros l /\ strip_zeros l <> [].
Proof.
  intros H. assert (Hne : strip_zeros l <> []) by (intros E%all_zero_strip; congruence).
  split; [|done]. cbn. by destruct (strip_zeros l).
Qed.

(** ** The translation *)

(** What a translation tests, of the whole version. *)
Definition translated_matches (t : VersionSpecifier + NodeId) (w : Version) : bool :=
  match t with
  | inl specifier => matches specifier w
  | inr node => node_is_true node
  end.

(** A bound at two numbers; an incremented one may be the largest of its width. *)
Definition order_bound (specifier : VersionSpecifier) : Prop :=
  (specifier_operator specifier = LessThan \/ specifier_operator specifier = GreaterThanEqual) /\
  exists a b, is_u64 a /\ is_u64 b /\ version_new [a; b] = Some (specifier_version specifier).

(** The version of such a bound is well-formed. *)
Lemma new_stands ns v :
  Forall is_u64 ns -> version_new ns = Some v -> version_wf v /\ version_release v = ns /\ stands_for v (release_only ns) /\
    version_epoch v = 0 /\ local_is_empty (version_local v) = true.
Proof.
  intros Hn E. pose proof (new_spec ns Hn) as H. rewrite E in H. destruct H as (_ & W & Ef). autorewrite with full. rewrite Ef.
  split_and!; [done|done|by apply stands_for_intro; [apply W| |]|done|done].
Qed.

Lemma order_bound_matches op a b v w :
  op = LessThan \/ op = GreaterThanEqual -> Forall is_u64 [a; b] -> version_new [a; b] = Some v -> release_version w ->
  matches (mkSpecifier op v) w = release_test op [a; b] (version_release w).
Proof.
  intros Hop Hn E Hw. destruct (new_stands _ _ Hn E) as (_ & _ & St & Ev & El).
  destruct (test_release w Hw v [a; b] St Hn) as [T1 _]. destruct (not_special w Hw) as [Np _].
  destruct (release_fields w Hw) as (Ew & _). unfold matches, specifier_contains. cbn [specifier_operator specifier_version].
  fold (candidate v w). rewrite (candidate_self v w Hw).
  destruct Hop as [->| ->]; cbn [release_test]; [|by rewrite version_ge_lt, T1]. by rewrite Ew, Ev, Np, andb_false_r, T1.
Qed.

Definition translated_valid (t : VersionSpecifier + NodeId) : Prop :=
  match t with
  | inl specifier =>
      release_version (specifier_version specifier) /\ specifier_valid specifier \/ order_bound specifier
  | inr node => node = NODE_TRUE \/ node = NODE_FALSE
  end.

Section Translation.
Context (w : Version) (major minor : Z) (rest : list Z).
Context (Hw : release_version w) (Erw : version_release w = major :: minor :: rest).

Definition translates (o : option (VersionSpecifier + NodeId)) (b : bool) : Prop :=
  exists t, o = Some t /\ translated_valid t /\ translated_matches t w = b.

Lemma rest_u64 : Forall is_u64 rest.
Proof.
  pose proof (release_u64 w Hw) as H. rewrite Erw in H.
  exact (Forall_inv_tail (Forall_inv_tail H)).
Qed.

Lemma translates_node (b : bool) b' :
  b = b' -> translates (Some (inr (if b then NODE_TRUE else NODE_FALSE))) b'.
Proof. intros <-. eexists. split; [done|]. destruct b; cbn; eauto. Qed.

Lemma translates_new op a b test :
  is_number a -> is_number b -> op <> TildeEqual -> release_test op [a; b] (major :: minor :: rest) = test ->
  exists v, version_new [a; b] = Some v /\ release_version v /\ translates (Some (inl (mkSpecifier op v))) test.
Proof.
  intros Ha Hb Hop <-. destruct (new_release_Some [a; b]) as (v & Ev & Hv & Erv);
    [repeat (apply Forall_cons_2; [done|]); apply Forall_nil_2|done|]. exists v. split_and!; [done|done|]. exists (inl (mkSpecifier op v)).
  assert (V : specifier_valid (mkSpecifier op v)) by by apply release_valid.
  split_and!; [done|by left|]. cbn. by rewrite matches_release, Erv, Erw.
Qed.

Lemma translates_bound op a b test :
  op = LessThan \/ op = GreaterThanEqual -> is_u64 a -> is_u64 b -> release_test op [a; b] (major :: minor :: rest) = test ->
  exists v, version_new [a; b] = Some v /\ translates (Some (inl (mkSpecifier op v))) test.
Proof.
  intros Hop Ha Hb <-. assert (Hn : Forall is_u64 [a; b]) by (repeat (apply Forall_cons_2; [done|]); apply Forall_nil_2).
  destruct (new_Some [a; b] Hn) as (v & Ev & _); [done|]. exists v. split; [done|]. exists (inl (mkSpecifier op v)).
  split_and!; [done|right; split; [done|by exists a, b]|]. cbn. by rewrite (order_bound_matches op a b v w), Erw.
Qed.

Lemma translates_same op u test :
  release_version u -> specifier_valid (mkSpecifier op u) ->
  release_test op (version_release u) (major :: minor :: rest) = test ->
  translates (Some (inl (mkSpecifier op u))) test.
Proof. intros Hu V <-. eexists. split_and!; [done|by left|]. cbn. by rewrite matches_release, Erw. Qed.

Context (u : Version) (Hu : release_version u).
Notation ru := (version_release u).

Lemma two_numbers a b l :
  ru = a :: b :: l -> is_number a /\ is_number b /\ Forall is_u64 l.
Proof.
  intros E. pose proof (release_u64 u Hu) as H. pose proof (release_numbers u Hu) as Hnum. rewrite E in H, Hnum.
  split_and!; [exact (Forall_inv Hnum)|exact (Forall_inv (Forall_inv_tail Hnum))|exact (Forall_inv_tail (Forall_inv_tail H))].
Qed.

(** Wildcards; a wildcard below the minor version cannot be excluded. *)
Lemma star_translates op :
  op = EqualStar \/ op = NotEqualStar /\ all_zero (drop 2 ru) = true ->
  translates (python_version_to_full_version (mkSpecifier op u)) (release_test op ru [major; minor]).
Proof.
  intros Hop. assert (V : specifier_valid (mkSpecifier op u)).
  { apply release_valid; [done|]. by destruct Hop as [->|[-> _]]. }
  unfold python_version_to_full_version. cbn [specifier_operator specifier_version].
  replace (operator_is_star op) with true by by destruct Hop as [->|[-> _]].
  assert (Hne : ru <> []) by apply Hu. pose proof two_numbers as Htwo.
  destruct ru as [|a [|b l]] eqn:E; [done| |].
  - apply translates_same; [done..|]. rewrite E.
    destruct Hop as [->|[-> _]]; cbn [release_test]; by rewrite !release_prefix_cons.
  - destruct (Htwo a b l eq_refl) as (Ha & Hb & Hl).
    assert (Hp : release_prefix (a :: b :: l) [major; minor] = is_eq (pair_cmp major minor a b) && all_zero l).
    { rewrite !release_prefix_cons, prefix_nil, <- (prefix_pair major minor [] a b), !release_prefix_cons.
      by rewrite !andb_assoc, andb_true_r. }
    destruct (all_zero l) eqn:Ez.
    + destruct (translates_new op a b (release_test op (a :: b :: l) [major; minor])) as (v & -> & Hv & Ht);
        [done|done|by destruct Hop as [->|[-> _]]| |].
      { destruct Hop as [->|[-> _]]; cbn [release_test]; by rewrite Hp, prefix_pair, andb_true_r. }
      cbn. unfold specifier_from_version.
      destruct (release_fields v Hv) as (_ & _ & _ & _ & El). unfold version_is_local. rewrite El. cbn.
      rewrite bool_decide_eq_false_2 by by destruct Hop as [->|[-> _]]. exact Ht.
    + destruct Hop as [->|[-> Hz]]; [|change (all_zero l = true) in Hz; by rewrite Ez in Hz].
      apply (translates_node false). cbn [release_test]. by rewrite Hp, andb_false_r.
Qed.

(** The release of two numbers, against one that continues. *)
Lemma compare_continued a b l :
  Forall is_u64 l ->
  compare_release [major; minor] (a :: b :: l) =
    match pair_cmp major minor a b with Eq => if all_zero l then Eq else Lt | r => r end.
Proof.
  intros Hl. rewrite !compare_release_cons, compare_nil_zeros by done. unfold pair_cmp.
  by destruct (major ?= a), (minor ?= b).
Qed.

Lemma zip_two a b l l' :
  forallb (fun '(x, y) => x =? y) (zip (a :: b :: l) (major :: minor :: l')) =
    is_eq (pair_cmp major minor a b) && forallb (fun '(x, y) => x =? y) (zip l l').
Proof.
  cbn. rewrite andb_assoc. f_equal. unfold pair_cmp.
  destruct (Z.eqb_spec a major), (Z.eqb_spec b minor), (Z.compare_spec major a), (Z.compare_spec minor b);
    cbn; try done; lia.
Qed.

Lemma zip_nil (l : list Z) : zip l ([] : list Z) = [].
Proof. by destruct l. Qed.

Lemma tilde_translates :
  specifier_valid (mkSpecifier TildeEqual u) ->
  translates (python_version_to_full_version (mkSpecifier TildeEqual u)) (release_test TildeEqual ru [major; minor]).
Proof.
  intros V. unfold python_version_to_full_version. cbn [specifier_operator specifier_version operator_is_star].
  rewrite bool_decide_eq_true_2 by done. pose proof (valid_tilde _ V eq_refl) as Hlen. cbn in Hlen.
  unfold release_len in Hlen. pose proof two_numbers as Htwo. pose proof rest_u64 as Hr.
  destruct ru as [|a [|b l]] eqn:E; [cbn in Hlen; lia..|].
  destruct (Htwo a b l eq_refl) as (Ha & Hb & Hl). destruct l as [|c l].
  - apply translates_same; [done..|]. rewrite E. cbn [release_test length Nat.sub take].
    rewrite long_lt, compare_pairs by done. done.
  - remember (c :: l) as cl eqn:Ecl. assert (Hlast : release_test TildeEqual (a :: b :: cl) [major; minor] =
      is_eq (pair_cmp major minor a b) && all_zero cl).
    { cbn [release_test]. rewrite compare_continued by done.
      replace (take (length (a :: b :: cl) - 1) (a :: b :: cl)) with (a :: b :: take (length cl - 1) cl)
        by (subst cl; cbn; by rewrite !Nat.sub_0_r).
      rewrite zip_two, zip_nil. cbn. by destruct (pair_cmp major minor a b), (all_zero cl). }
    rewrite Hlast. destruct cl as [|c' l']; [done|]. destruct (all_zero (c' :: l')) eqn:Ez.
    + destruct (translates_new EqualStar a b (is_eq (pair_cmp major minor a b) && true)) as (v & -> & _ & Ht);
        [done..| |].
      { cbn [release_test]. by rewrite prefix_pair, andb_true_r. }
      done.
    + apply (translates_node false). by rewrite andb_false_r.
Qed.

(** The orders: [a] and [b] are the numbers of the specifier, without trailing zeros. *)
Lemma order_two op a b :
  op <> EqualStar -> op <> NotEqualStar -> op <> TildeEqual ->
  specifier_valid (mkSpecifier op u) -> is_number a -> is_number b ->
  strip_zeros ru = strip_zeros [a; b] -> 0 <= major -> 0 <= minor ->
  translates (version ← version_new [a; b];
    match op with
    | Equal | ExactEqual => Some (inl (equals_star_version version))
    | NotEqual => Some (inl (not_equals_star_version version))
    | GreaterThan =>
        next ← version_new [a; u64_wrapping_add b 1]; Some (inl (greater_than_equal_version next))
    | LessThan => if (a =? 0) && (b =? 0) then Some (inr NODE_FALSE) else Some (inl (mkSpecifier op u))
    | GreaterThanEqual =>
        if (a =? 0) && (b =? 0) then Some (inr NODE_TRUE) else Some (inl (mkSpecifier op u))
    | LessThanEqual =>
        next ← version_new [a; u64_wrapping_add b 1]; Some (inl (less_than_version next))
    | EqualStar | NotEqualStar | TildeEqual => None
    end) (release_test op ru [major; minor]).
Proof.
  intros N1 N2 N3 V Ha Hb Es HM Hm. pose proof rest_u64 as Hr.
  assert (Hab : Forall is_u64 [a; b]) by (apply numbers_u64; by repeat (apply Forall_cons_2; [done|]); apply Forall_nil_2).
  assert (Hp : forall x, Forall is_u64 x -> compare_release x ru = compare_release x [a; b]).
  { intros x Hx. apply compare_release_stripped; [done|by apply release_u64|done..]. }
  pose proof (release_u64 w Hw) as HW. rewrite Erw in HW.
  assert (HP : Forall is_u64 [major; minor]).
  { apply Forall_cons_2; [exact (Forall_inv HW)|]. apply Forall_cons_2; [exact (Forall_inv (Forall_inv_tail HW))|].
    apply Forall_nil_2. }
  assert (Hzero : (a =? 0) && (b =? 0) = true -> is_lt (pair_cmp major minor a b) = false).
  { intros [->%Z.eqb_eq ->%Z.eqb_eq]%andb_true_iff. unfold pair_cmp.
    by destruct (Z.compare_spec major 0), (Z.compare_spec minor 0); cbn; try done; lia. }
  assert (Hnew : forall op' test, op' <> TildeEqual -> release_test op' [a; b] (major :: minor :: rest) = test ->
    exists v, version_new [a; b] = Some v /\ translates (Some (inl (mkSpecifier op' v))) test).
  { intros op' test Hop' Ht. destruct (translates_new op' a b test Ha Hb Hop' Ht) as (v & Ev & _ & H). by exists v. }
  rewrite (wrapping_succ b Hb). destruct (Hnew EqualStar _ ltac:(done) eq_refl) as (v0 & Ev0 & _).
  pose proof (number_succ_u64 b Hb) as Hb'. pose proof (Forall_inv Hab) as Ha'.
  destruct op; try done; cbn [release_test]; rewrite ?(Hp [major; minor] HP), ?compare_pairs.
  - destruct (Hnew EqualStar _ ltac:(done) (prefix_pair _ _ _ _ _)) as (v & -> & Ht). exact Ht.
  - destruct (Hnew EqualStar _ ltac:(done) (prefix_pair _ _ _ _ _)) as (v & -> & Ht). exact Ht.
  - destruct (Hnew NotEqualStar _ ltac:(done) (f_equal negb (prefix_pair _ _ _ _ _))) as (v & -> & Ht). exact Ht.
  - rewrite Ev0. cbn. destruct ((a =? 0) && (b =? 0)) eqn:Ez.
    + apply (translates_node false). symmetry. by apply Hzero.
    + apply translates_same; [done..|]. cbn. by rewrite (Hp _ HW), long_lt.
  - rewrite Ev0. cbn. destruct (translates_bound LessThan a (b + 1) _ (or_introl eq_refl) Ha' Hb' (long_lt_succ _ _ _ _ _ Hr)) as (v & -> & Ht).
    exact Ht.
  - rewrite Ev0. cbn. destruct (translates_bound GreaterThanEqual a (b + 1) _ (or_intror eq_refl) Ha' Hb' (f_equal negb (long_lt_succ _ _ _ _ _ Hr)))
      as (v & -> & Ht). cbn. by rewrite negb_involutive in Ht.
  - rewrite Ev0. cbn. destruct ((a =? 0) && (b =? 0)) eqn:Ez.
    + apply (translates_node true). by rewrite Hzero.
    + apply translates_same; [done..|]. cbn. by rewrite (Hp _ HW), long_lt.
Qed.

(** The orders, for a specifier with more than a minor version. *)
Lemma order_long op a b l :
  op <> EqualStar -> op <> NotEqualStar -> op <> TildeEqual -> ru = a :: b :: l -> all_zero l = false ->
  translates (match op with
    | Equal | ExactEqual => Some (inr NODE_FALSE)
    | NotEqual => Some (inr NODE_TRUE)
    | LessThan | LessThanEqual =>
        next ← version_new [a; u64_wrapping_add b 1]; Some (inl (less_than_version next))
    | GreaterThan | GreaterThanEqual =>
        next ← version_new [a; u64_wrapping_add b 1]; Some (inl (greater_than_equal_version next))
    | EqualStar | NotEqualStar | TildeEqual => None
    end) (release_test op ru [major; minor]).
Proof.
  intros N1 N2 N3 E Hz. pose proof rest_u64 as Hr. destruct (two_numbers a b l E) as (Ha & Hb & Hl).
  rewrite (wrapping_succ b Hb). rewrite E. pose proof (number_succ_u64 b Hb) as Hb'.
  pose proof (Forall_inv (numbers_u64 [a] ltac:(by apply Forall_cons_2, Forall_nil_2))) as Ha'.
  destruct (translates_bound LessThan a (b + 1) _ (or_introl eq_refl) Ha' Hb' (long_lt_succ _ _ _ _ _ Hr)) as (v & Ev & Hlt).
  destruct (translates_bound GreaterThanEqual a (b + 1) _ (or_intror eq_refl) Ha' Hb'
    (f_equal negb (long_lt_succ _ _ _ _ _ Hr))) as (v' & Ev' & Hge). rewrite Ev in Ev'. injection Ev' as <-.
  pose proof (compare_continued a b l Hl) as Hc. rewrite Hz in Hc. rewrite Ev. cbn [mbind option_bind].
  destruct op; try done; cbn [release_test]; rewrite Hc.
  - apply (translates_node false). by destruct (pair_cmp _ _ _ _).
  - apply (translates_node false). by destruct (pair_cmp _ _ _ _).
  - apply (translates_node true). by destruct (pair_cmp _ _ _ _).
  - by destruct (pair_cmp major minor a b).
  - by destruct (pair_cmp major minor a b).
  - by destruct (pair_cmp major minor a b).
  - by destruct (pair_cmp major minor a b).
Qed.

(** What is left of a release without its trailing zeros. *)
Lemma trimmed_cases :
  exists t, version_only_release_trimmed u = Some t /\
    ((exists a, version_release t = [a] /\ strip_zeros ru = strip_zeros [a; 0] /\ is_number a) \/
     (exists a b, version_release t = [a; b] /\ strip_zeros ru = strip_zeros [a; b] /\
        is_number a /\ is_number b) \/
     ((3 <= length (version_release t))%nat /\ exists a b l, ru = a :: b :: l /\ all_zero l = false)).
Proof.
  pose proof (release_numbers u Hu) as Hnum. destruct Hu as [[W _] _]. destruct (only_release_trimmed_spec u W) as (t & Et & _ & Ef).
  exists t. split; [done|]. assert (Er : version_release t = match strip_zeros ru with [] => [0] | ns => ns end)
    by by rewrite release_full, Ef. rewrite Er. clear Er Ef Et t.
  pose proof (strip_zeros_Forall _ _ Hnum) as Hs. destruct (strip_zeros_spec ru) as [k Ek].
  assert (H0 : is_number 0) by (unfold is_number, U64_MAX; lia).
  pose proof (strip_zeros_idemp ru) as Hidem.
  destruct (strip_zeros ru) as [|a [|b [|c l]]] eqn:Es.
  - left. exists 0. tauto.
  - left. exists a. split_and!; [done| |exact (Forall_inv Hs)]. rewrite <- Hidem at 1.
    change [a; 0] with ([a] ++ [0]). by rewrite strip_zeros_snoc_0.
  - right; left. exists a, b. pose proof (Forall_inv Hs). pose proof (Forall_inv (Forall_inv_tail Hs)). by rewrite Hidem.
  - right; right. split; [cbn; lia|]. exists a, b, (c :: l ++ replicate k 0). split; [done|].
    destruct (all_zero (c :: l ++ replicate k 0)) eqn:Ez; [|done]. exfalso.
    apply all_zero_strip in Ez. change (c :: l ++ replicate k 0) with ((c :: l) ++ replicate k 0) in Ez.
    rewrite strip_zeros_app_zeros in Ez. cbn in Hidem, Ez.
    destruct (match strip_zeros l with [] => _ | _ => _ end); [|done]. cbn in Hidem.
    destruct (b =? 0); [destruct (a =? 0)|]; done.
Qed.

(** A comparison of [python_version] holds of the first two numbers exactly when its translation
    holds of the whole version. *)
Lemma translation_correct op p :
  specifier_valid (mkSpecifier op u) -> (op = NotEqualStar -> all_zero (drop 2 ru) = true) ->
  release_version p -> version_release p = [major; minor] ->
  translates (python_version_to_full_version (mkSpecifier op u)) (matches (mkSpecifier op u) p).
Proof.
  intros V Hstar Hp Ep. rewrite matches_release, Ep by done.
  destruct (decide (op = EqualStar)) as [->|N1]; [apply star_translates; tauto|].
  destruct (decide (op = NotEqualStar)) as [->|N2]; [apply star_translates; tauto|].
  destruct (decide (op = TildeEqual)) as [->|N3]; [by apply tilde_translates|].
  unfold python_version_to_full_version. cbn [specifier_operator specifier_version].
  replace (operator_is_star op) with false by by destruct op. rewrite bool_decide_eq_false_2 by done.
  pose proof (release_numbers w Hw) as HW. rewrite Erw in HW.
  destruct (Forall_inv HW) as [HM _], (Forall_inv (Forall_inv_tail HW)) as [Hm _].
  destruct trimmed_cases as (t & -> & Hcases). cbn [mbind option_bind].
  destruct Hcases as [(a & -> & Es & Ha)|[(a & b & -> & Es & Ha & Hb)|(Hlen & a & b & l & E & Hz)]].
  - apply order_two; try done; unfold is_number, U64_MAX; lia.
  - by apply order_two.
  - destruct (version_release t) as [|x [|y [|z l']]]; [cbn in Hlen; lia..|]. rewrite E at 1.
    by apply (order_long op a b l).
Qed.
End Translation.

(** An equality with at most a minor version is translated to a specifier. *)
Lemma equal_translation u t :
  release_version u -> all_zero (drop 2 (version_release u)) = true ->
  python_version_to_full_version (equals_version u) = Some t -> exists specifier, t = inl specifier.
Proof.
  intros Hu Hz. unfold python_version_to_full_version. cbn [equals_version specifier_operator specifier_version operator_is_star].
  rewrite bool_decide_eq_false_2 by done. destruct (trimmed_cases u Hu) as (v & -> & Hcases). cbn [mbind option_bind].
  destruct Hcases as [(a & -> & _)|[(a & b & -> & _)|(_ & a & b & l & E & Hnz)]].
  - cbn. destruct (version_new _); [|done]. intros [= <-]. eauto.
  - cbn. destruct (version_new _); [|done]. intros [= <-]. eauto.
  - rewrite E in Hz. change (all_zero l = true) in Hz. by rewrite Hz in Hnz.
Qed.

Lemma equal_translation_operator u x :
  python_version_to_full_version (equals_version u) = Some (inl x) -> specifier_operator x = EqualStar.
Proof.
  unfold python_version_to_full_version. cbn [equals_version specifier_operator specifier_version operator_is_star].
  rewrite bool_decide_eq_false_2 by done. destruct (version_only_release_trimmed u) as [t|]; [|done]. cbn [mbind option_bind].
  destruct (version_release t) as [|a [|b [|c l]]]; [|destruct (version_new _); [|done]; by intros [= <-]..|];
    by destruct (version_release u) as [|? [|? ?]].
Qed.

(** [!=] with a star below the minor version is [false]. *)
Lemma patch_star_translation u :
  negb (all_zero (drop 2 (version_release u))) = true ->
  python_version_to_full_version (mkSpecifier NotEqualStar u) = Some (inr NODE_FALSE).
Proof.
  unfold python_version_to_full_version. cbn [specifier_operator specifier_version operator_is_star].
  destruct (version_release u) as [|a [|b l]]; [done..|]. change (drop 2 (a :: b :: l)) with l.
  intros Hz%negb_true_iff. by rewrite Hz.
Qed.

(** An equality with more than a minor version is [false]. *)
Lemma patch_equal_translation u :
  release_version u -> all_zero (drop 2 (version_release u)) = false ->
  python_version_to_full_version (equals_version u) = Some (inr NODE_FALSE).
Proof.
  intros Hu Hz. unfold python_version_to_full_version. cbn [equals_version specifier_operator specifier_version operator_is_star].
  rewrite bool_decide_eq_false_2 by done. destruct Hu as [[W _] _]. destruct (only_release_trimmed_spec u W) as (t & Et & _ & Ef).
  rewrite Et. cbn [mbind option_bind]. rewrite (release_full t), Ef. cbn [full_release release_only].
  destruct (version_release u) as [|a [|b l]]; [done..|]. change (all_zero l = false) in Hz.
  destruct (strip_two a b l Hz) as [-> Hne]. by destruct (strip_zeros l).
Qed.
