(* ===== verification/MarkerTree.v ===== *)
(** * Markers: environments and trees

    [MarkerEnvironment] ([crates/uv-pep508/src/marker/environment.rs]) and the operations of
    [MarkerTree] ([tree.rs]) over the interner: construction, evaluation in an environment, and the
    rewriting of extras. [None] is a panic. The warnings that an evaluation reports are left out:
    they do not change its result. *)

From stdpp Require Import base countable list option numbers decidable strings gmap.
From Stdlib Require Import ZArith Lia.
From S2P Require Import Prelude Text Ranges VersionTypes VersionSmall Version VersionOrder VersionParser.
From S2P Require Import VersionDisplay VersionSpecifier MarkerTypes Interner MarkerAlgebra.
From S2P Require Import MarkerRestrict.

Local Open Scope Z_scope.
Local Open Scope uv_scope.

(** ** Environments *)

(** A version and its text. *)
Record StringVersion : Type := mkStringVersion {
  sv_string : list Z;
  sv_version : Version
}.

(** [From<Version> for StringVersion] and [FromStr for StringVersion]. *)
Definition string_version_from (version : Version) : StringVersion :=
  mkStringVersion (version_display version) version.

Definition string_version_from_str (s : list Z) : outcome StringVersion :=
  outcome_bind (version_from_str s) (fun version => Done (mkStringVersion s version)).

Record MarkerEnvironment : Type := mkMarkerEnvironment {
  implementation_name : list Z;
  implementation_version : StringVersion;
  os_name : list Z;
  platform_machine : list Z;
  platform_python_implementation : list Z;
  platform_release : list Z;
  platform_system : list Z;
  platform_version : list Z;
  python_full_version : StringVersion;
  python_version : StringVersion;
  sys_platform : list Z
}.

Definition get_version (env : MarkerEnvironment) (key : CanonicalMarkerValueVersion) : Version :=
  match key with
  | ImplementationVersion => sv_version (implementation_version env)
  | PythonFullVersion => sv_version (python_full_version env)
  end.

Definition get_string (env : MarkerEnvironment) (key : CanonicalMarkerValueString) : list Z :=
  match key with
  | ImplementationName => implementation_name env
  | OsName => os_name env
  | PlatformMachine => platform_machine env
  | PlatformPythonImplementation => platform_python_implementation env
  | PlatformRelease => platform_release env
  | PlatformSystem => platform_system env
  | PlatformVersion => platform_version env
  | SysPlatform => sys_platform env
  end.

(** *** Setters *)

Definition with_implementation_version (env : MarkerEnvironment) (value : StringVersion) : MarkerEnvironment :=
  mkMarkerEnvironment (implementation_name env) value (os_name env) (platform_machine env)
    (platform_python_implementation env) (platform_release env) (platform_system env)
    (platform_version env) (python_full_version env) (python_version env) (sys_platform env).

Definition with_os_name (env : MarkerEnvironment) (value : list Z) : MarkerEnvironment :=
  mkMarkerEnvironment (implementation_name env) (implementation_version env) value (platform_machine
    env) (platform_python_implementation env) (platform_release env) (platform_system env)
    (platform_version env) (python_full_version env) (python_version env) (sys_platform env).

Definition with_platform_machine (env : MarkerEnvironment) (value : list Z) : MarkerEnvironment :=
  mkMarkerEnvironment (implementation_name env) (implementation_version env) (os_name env) value
    (platform_python_implementation env) (platform_release env) (platform_system env)
    (platform_version env) (python_full_version env) (python_version env) (sys_platform env).

Definition with_platform_release (env : MarkerEnvironment) (value : list Z) : MarkerEnvironment :=
  mkMarkerEnvironment (implementation_name env) (implementation_version env) (os_name env)
    (platform_machine env) (platform_python_implementation env) value (platform_system env)
    (platform_version env) (python_full_version env) (python_version env) (sys_platform env).

Definition with_platform_system (env : MarkerEnvironment) (value : list Z) : MarkerEnvironment :=
  mkMarkerEnvironment (implementation_name env) (implementation_version env) (os_name env)
    (platform_machine env) (platform_python_implementation env) (platform_release env) value
    (platform_version env) (python_full_version env) (python_version env) (sys_platform env).

Definition with_platform_version (env : MarkerEnvironment) (value : list Z) : MarkerEnvironment :=
  mkMarkerEnvironment (implementation_name env) (implementation_version env) (os_name env)
    (platform_machine env) (platform_python_implementation env) (platform_release env)
    (platform_system env) value (python_full_version env) (python_version env) (sys_platform env).

Definition with_python_full_version (env : MarkerEnvironment) (value : StringVersion) : MarkerEnvironment :=
  mkMarkerEnvironment (implementation_name env) (implementation_version env) (os_name env)
    (platform_machine env) (platform_python_implementation env) (platform_release env)
    (platform_system env) (platform_version env) value (python_version env) (sys_platform env).

Definition with_python_version (env : MarkerEnvironment) (value : StringVersion) : MarkerEnvironment :=
  mkMarkerEnvironment (implementation_name env) (implementation_version env) (os_name env)
    (platform_machine env) (platform_python_implementation env) (platform_release env)
    (platform_system env) (platform_version env) (python_full_version env) value (sys_platform env).

Definition with_sys_platform (env : MarkerEnvironment) (value : list Z) : MarkerEnvironment :=
  mkMarkerEnvironment (implementation_name env) (implementation_version env) (os_name env)
    (platform_machine env) (platform_python_implementation env) (platform_release env)
    (platform_system env) (platform_version env) (python_full_version env) (python_version env)
    value.

(** *** The builder *)

Record MarkerEnvironmentBuilder : Type := mkBuilder {
  b_implementation_name : list Z;
  b_implementation_version : list Z;
  b_os_name : list Z;
  b_platform_machine : list Z;
  b_platform_python_implementation : list Z;
  b_platform_release : list Z;
  b_platform_system : list Z;
  b_platform_version : list Z;
  b_python_full_version : list Z;
  b_python_version : list Z;
  b_sys_platform : list Z
}.

(** The versions are parsed in the order of the fields. *)
Definition environment_try_from (builder : MarkerEnvironmentBuilder) : outcome MarkerEnvironment :=
  outcome_bind (string_version_from_str (b_implementation_version builder)) (fun implementation_version =>
  outcome_bind (string_version_from_str (b_python_full_version builder)) (fun python_full_version =>
  outcome_bind (string_version_from_str (b_python_version builder)) (fun python_version =>
  Done (mkMarkerEnvironment (b_implementation_name builder) implementation_version (b_os_name builder)
    (b_platform_machine builder) (b_platform_python_implementation builder) (b_platform_release builder)
    (b_platform_system builder) (b_platform_version builder) python_full_version python_version
    (b_sys_platform builder))))).

(** ** Extras and groups *)

Inductive ExtrasEnvironment : Type :=
| EnvExtras (extras : list (list Z))
| EnvPep751 (extras groups : list (list Z)).

Definition env_extra (e : ExtrasEnvironment) : list (list Z) :=
  match e with EnvExtras extra => extra | EnvPep751 _ _ => [] end.
Definition env_extras (e : ExtrasEnvironment) : list (list Z) :=
  match e with EnvExtras _ => [] | EnvPep751 extras _ => extras end.
Definition env_dependency_groups (e : ExtrasEnvironment) : list (list Z) :=
  match e with EnvExtras _ => [] | EnvPep751 _ groups => groups end.

(** [slice.contains(name)]. *)
Definition contains_name (names : list (list Z)) (name : list Z) : bool := bool_decide (name ∈ names).

(** [haystack.contains(needle)] for strings. *)
Fixpoint str_contains (haystack needle : list Z) : bool :=
  bool_decide (is_Some (strip_prefix needle haystack)) ||
  match haystack with
  | [] => false
  | _ :: haystack' => str_contains haystack' needle
  end.

(** [any], with a test that may panic; it stops at the first success. *)
Fixpoint any_option {A : Type} (f : A -> option bool) (l : list A) : option bool :=
  match l with
  | [] => Some false
  | a :: l' => b ← f a; if (b : bool) then Some true else any_option f l'
  end.

(** ** Kinds *)

Section Tree.
Context {RV : RangeOps Version} {RS : RangeOps (list Z)}.

(** The references of the last four are relative to the node; those of the maps are not. *)
Inductive MarkerTreeKind : Type :=
| KindTrue
| KindFalse
| KindVersion (id : NodeId) (key : CanonicalMarkerValueVersion) (map : list (range Version * NodeId))
| KindVersionString (id : NodeId) (key : CanonicalMarkerValueString) (map : list (range Version * NodeId))
| KindString (id : NodeId) (key : CanonicalMarkerValueString) (map : list (range (list Z) * NodeId))
| KindIn (key : CanonicalMarkerValueString) (value : list Z) (high low : NodeId)
| KindContains (key : CanonicalMarkerValueString) (value : list Z) (high low : NodeId)
| KindList (pair : CanonicalMarkerListPair) (high low : NodeId)
| KindExtra (name : list Z) (high low : NodeId).

(** Other combinations of variables and edges are [unreachable!]. *)
Definition kind (table : list Node) (i : NodeId) : option MarkerTreeKind :=
  if node_is_true i then Some KindTrue
  else if node_is_false i then Some KindFalse
  else
    node ← node_at table i;
    match node_var node, node_children node with
    | VarVersion key, EdgesVersion map => Some (KindVersion i key map)
    | VarString key, EdgesString map => Some (KindString i key map)
    | VarVersionString key, EdgesVersion map => Some (KindVersionString i key map)
    | VarIn key value, EdgesBoolean high low =>
        Some (KindIn key value (node_negate high i) (node_negate low i))
    | VarContains key value, EdgesBoolean high low =>
        Some (KindContains key value (node_negate high i) (node_negate low i))
    | VarList key, EdgesBoolean high low => Some (KindList key (node_negate high i) (node_negate low i))
    | VarExtra name, EdgesBoolean high low => Some (KindExtra name (node_negate high i) (node_negate low i))
    | _, _ => None
    end.

(** [edges] and [children] of the trees with maps; [edge] of the others. *)
Definition map_edges {T : Type} `{!RangeOps T} (id : NodeId) (map : list (range T * NodeId)) :
    list (range T * NodeId) :=
  (fun e => (e.1, node_negate e.2 id)) <$> map.

Definition edge (high low : NodeId) (value : bool) : NodeId := if value then high else low.

(** ** Evaluation *)

(** The tree of the first range that has the value. *)
Definition first_edge {T : Type} `{!RangeOps T} (v : T) (edges : list (range T * NodeId)) : option NodeId :=
  snd <$> List.find (fun e => range_contains e.1 v) edges.

Fixpoint evaluate_reporter_impl (fuel : nat) (table : list Node) (env : MarkerEnvironment)
    (extras : ExtrasEnvironment) (i : NodeId) : option bool :=
  match fuel with
  | O => None
  | S fuel =>
      let evaluate := evaluate_reporter_impl fuel table env extras in
      let evaluate_edge tree := match tree with Some tree => evaluate tree | None => Some false end in
      k ← kind table i;
      match k with
      | KindTrue => Some true
      | KindFalse => Some false
      | KindVersion id key map => evaluate_edge (first_edge (get_version env key) (map_edges id map))
      | KindString id key map => evaluate_edge (first_edge (get_string env key) (map_edges id map))
      | KindVersionString id key map =>
          match version_from_str (get_string env key) with
          | Done version => evaluate_edge (first_edge version (map_edges id map))
          | Failed _ => Some false
          | Panicked => None
          end
      | KindIn key value high low => evaluate (edge high low (str_contains value (get_string env key)))
      | KindContains key value high low => evaluate (edge high low (str_contains (get_string env key) value))
      | KindExtra name high low => evaluate (edge high low (contains_name (env_extra extras) name))
      | KindList p high low =>
          match p with
          | PairExtras extra => evaluate (edge high low (contains_name (env_extras extras) extra))
          | PairDependencyGroup group =>
              evaluate (edge high low (contains_name (env_dependency_groups extras) group))
          | PairArbitrary _ _ => Some false
          end
      end
  end.

(** Each step goes to an older node. *)
Definition evaluate_in (table : list Node) (env : MarkerEnvironment) (extras : ExtrasEnvironment) (i : NodeId) :
    option bool :=
  evaluate_reporter_impl (S (node_rank i)) table env extras i.

Definition evaluate (table : list Node) (i : NodeId) (env : MarkerEnvironment) (extras : list (list Z)) :
    option bool :=
  evaluate_in table env (EnvExtras extras) i.

Definition evaluate_pep751 (table : list Node) (i : NodeId) (env : MarkerEnvironment)
    (extras groups : list (list Z)) : option bool :=
  evaluate_in table env (EnvPep751 extras groups) i.

(** The trees of a kind, other than the ones of an extra. *)
Definition kind_trees (k : MarkerTreeKind) : list NodeId :=
  match k with
  | KindTrue | KindFalse => []
  | KindVersion id _ map | KindVersionString id _ map => (map_edges id map).*2
  | KindString id _ map => (map_edges id map).*2
  | KindIn _ _ high low | KindContains _ _ high low | KindList _ high low | KindExtra _ high low => [high; low]
  end.

Fixpoint evaluate_extras_fuel (fuel : nat) (table : list Node) (extras : list (list Z)) (i : NodeId) :
    option bool :=
  match fuel with
  | O => None
  | S fuel =>
      k ← kind table i;
      match k with
      | KindTrue => Some true
      | KindFalse => Some false
      | KindExtra name high low =>
          evaluate_extras_fuel fuel table extras (edge high low (contains_name extras name))
      | k => any_option (evaluate_extras_fuel fuel table extras) (kind_trees k)
      end
  end.

Definition evaluate_extras (table : list Node) (i : NodeId) (extras : list (list Z)) : option bool :=
  evaluate_extras_fuel (S (node_rank i)) table extras i.

Fixpoint evaluate_only_extras_fuel (fuel : nat) (table : list Node) (extras : list (list Z)) (i : NodeId) :
    option bool :=
  match fuel with
  | O => None
  | S fuel =>
      k ← kind table i;
      match k with
      | KindTrue => Some true
      | KindFalse => Some false
      | KindExtra name high low =>
          evaluate_only_extras_fuel fuel table extras (edge high low (contains_name extras name))
      | k => all_option (evaluate_only_extras_fuel fuel table extras) (kind_trees k)
      end
  end.

Definition evaluate_only_extras (table : list Node) (i : NodeId) (extras : list (list Z)) : option bool :=
  evaluate_only_extras_fuel (S (node_rank i)) table extras i.

Definition evaluate_optional_environment (table : list Node) (i : NodeId) (env : option MarkerEnvironment)
    (extras : list (list Z)) : option bool :=
  match env with
  | None => evaluate_extras table i extras
  | Some env => evaluate table i env extras
  end.

(** ** Construction *)

Section Operations.
Context {C : Type}.

Definition tree_expression (expr : MarkerExpression) : M C NodeId := expression expr.

Definition tree_negate (self : NodeId) : NodeId := node_not self.

Definition tree_and (self tree : NodeId) : M C NodeId :=
  match and_trivial self tree with
  | Some node => ret node
  | None => and_nontrivial self tree
  end.

Definition tree_or (self tree : NodeId) : M C NodeId :=
  match or_trivial self tree with
  | Some node => ret node
  | None => or_nontrivial self tree
  end.

Definition tree_implies (self consequent : NodeId) : M C NodeId := tree_or (tree_negate self) consequent.

Definition tree_is_disjoint (self other : NodeId) : M C bool :=
  match is_disjoint_trivial self other with
  | Some disjoint => ret disjoint
  | None => is_disjoint_nontrivial self other
  end.

Definition tree_is_unreachable (self : NodeId) : M C bool :=
  if node_is_true self || node_is_false self then ret (node_is_false self) else is_unreachable self.

(** ** Rewriting *)

Definition tree_simplify_python_versions (self : NodeId) (lower upper : Bound) : M C NodeId :=
  simplify_python_versions self lower upper.

Definition tree_complexify_python_versions (self : NodeId) (lower upper : Bound) : M C NodeId :=
  complexify_python_versions self lower upper.

Definition tree_restrict (self assumption : NodeId) : M C NodeId := restrict self assumption.

Definition extra_is (is_extra : list Z -> bool) (value : bool) (var : MarkerVariable) : option bool :=
  match var with
  | VarExtra name => if is_extra name then Some value else None
  | _ => None
  end.

Definition simplify_extras_with (self : NodeId) (is_extra : list Z -> bool) : M C NodeId :=
  restrict_by self (extra_is is_extra true).

Definition simplify_extras (self : NodeId) (extras : list (list Z)) : M C NodeId :=
  simplify_extras_with self (contains_name extras).

Definition simplify_not_extras_with (self : NodeId) (is_extra : list Z -> bool) : M C NodeId :=
  restrict_by self (extra_is is_extra false).

Definition tree_without_extras (self : NodeId) : M C NodeId := without_extras self.

Definition tree_only_extras (self : NodeId) : M C NodeId := only_extras self.

(** A later entry for a name replaces an earlier one. *)
Definition collect_map {A : Type} (l : list (list Z * A)) : gmap (list Z) A :=
  foldl (fun m kv => <[kv.1 := kv.2]> m) ∅ l.

Definition tree_resolve_extras (self : NodeId) (known_extras : list (list Z * Z)) : M C NodeId :=
  if node_is_true self || node_is_false self then ret self
  else
    let! st := get_interner in
    let! extras := lift_option (contains_extras (nodes st) self) in
    if negb extras then ret self else resolve_extras self (collect_map known_extras).

Definition tree_resolve_extras_with_bounds (self : NodeId) (known_extras : list (list Z * (Z * Z))) :
    M C (NodeId * NodeId) :=
  if node_is_true self || node_is_false self then ret (self, self)
  else
    let! st := get_interner in
    let! extras := lift_option (contains_extras (nodes st) self) in
    if negb extras then ret (self, self) else resolve_extras_with_bounds self (collect_map known_extras).
End Operations.

(** ** Visits *)

(** The calls of [visit_extras], in order; the set of visited trees exists once the traversal has
    branched. *)
Fixpoint visit_extras_fuel (fuel : nat) (table : list Node) (tree : NodeId)
    (s : list (MarkerOperator * list Z) * option (gset Z)) :
    option (list (MarkerOperator * list Z) * option (gset Z)) :=
  if node_is_true tree || node_is_false tree then Some s
  else
    match fuel with
    | O => None
    | S fuel =>
        node ← node_at table tree;
        let '(calls, visited) := s in
        let visited :=
          match visited with
          | None => if has_multiple_nonterminal_children (node_children node) then Some ∅ else None
          | Some _ => visited
          end in
        if match visited with Some visited => bool_decide (tree ∈ visited) | None => false end
        then Some (calls, visited)
        else
          let visited := (fun visited => {[tree]} ∪ visited) <$> visited in
          let calls :=
            match node_var node, node_children node with
            | VarExtra extra, EdgesBoolean _ low =>
                calls ++ [(if node_is_false (node_negate low tree) then MEqual else MNotEqual, extra)]
            | _, _ => calls
            end in
          foldl (fun s child => s ← s; visit_extras_fuel fuel table (node_negate child tree) s)
            (Some (calls, visited)) (edges_nodes (node_children node))
    end.

Definition visit_extras (table : list Node) (tree : NodeId) : option (list (MarkerOperator * list Z)) :=
  fst <$> visit_extras_fuel (node_rank tree) table tree ([], None).
End Tree.
