(* ===== verification/MarkerEval.v ===== *)
(** * Markers: the meaning of a node

    The arithmetic of node references, the value of a node under a valuation of the variables, and
    the well-formedness of the table of nodes: the specification that the operations of the
    interner are proved against. *)

From stdpp Require Import base countable list option numbers decidable strings gmap.
From Stdlib Require Import ZArith Lia.
From S2P Require Import Prelude Ranges VersionTypes VersionSmall Version VersionOrder.
From S2P Require Import VersionParser VersionSpecifier MarkerTypes Interner EdgesOrder.

Local Open Scope Z_scope.

(** ** References *)

Lemma node_new_value k c : node_new k c = 2 * (Z.of_nat k + 1) + (if c then 1 else 0).
Proof.
  unfold node_new. rewrite Z.shiftl_mul_pow2 by lia.
  destruct c; [|rewrite Z.lor_0_r; lia].
  rewrite <- Z.lxor_lor, <- Z.add_nocarry_lxor; try lia;
    apply Z.bits_inj'; intros n Hn; rewrite Z.land_spec, Z.bits_0;
    (destruct (decide (n = 0)) as [->|]; [by rewrite Z.mul_pow2_bits_low by lia|]);
    by rewrite (Z.bits_above_log2 1 n), andb_false_r by (cbn; lia).
Qed.

Lemma land_1 i : Z.land i 1 = i mod 2.
Proof. exact (Z.land_ones i 1 ltac:(lia)). Qed.

Lemma node_not_value i : node_not i = if node_is_complement i then i - 1 else i + 1.
Proof.
  unfold node_is_complement, node_not. rewrite land_1.
  pose proof (Z.mod_pos_bound i 2 ltac:(lia)). pose proof (Z.div_mod i 2 ltac:(lia)).
  assert (Heven : forall q, Z.lxor (2 * q) 1 = 2 * q + 1).
  { intros q. rewrite <- Z.add_nocarry_lxor; [done|]. rewrite land_1, Z.mul_comm. apply Z_mod_mult. }
  destruct (Z.eqb_spec (i mod 2) 1) as [E|E].
  - replace i with (2 * (i / 2) + 1) at 1 by lia. rewrite <- Heven, Z.lxor_assoc, Z.lxor_0_r. lia.
  - replace i with (2 * (i / 2)) at 1 by lia. rewrite Heven. lia.
Qed.

Lemma node_is_complement_value i : node_is_complement i = Z.odd i.
Proof.
  unfold node_is_complement. rewrite land_1, Zmod_odd. by destruct (Z.odd i).
Qed.

Lemma node_not_not i : node_not (node_not i) = i.
Proof. unfold node_not. by rewrite Z.lxor_assoc, Z.lxor_0_r. Qed.

Lemma node_not_inj i j : node_not i = node_not j -> i = j.
Proof. intros E. by rewrite <- (node_not_not i), E, node_not_not. Qed.

Lemma node_not_complement i : node_is_complement (node_not i) = negb (node_is_complement i).
Proof.
  rewrite node_not_value, !node_is_complement_value.
  destruct (Z.odd i) eqn:E; [rewrite Z.odd_sub, E|rewrite Z.odd_add, E]; done.
Qed.

Lemma node_not_negate i j : node_negate (node_not i) j = node_not (node_negate i j).
Proof. unfold node_negate. by destruct (node_is_complement j). Qed.

Lemma node_negate_not i j : node_negate i (node_not j) = node_not (node_negate i j).
Proof.
  unfold node_negate. rewrite node_not_complement.
  destruct (node_is_complement j); cbn; [by rewrite node_not_not|done].
Qed.

Lemma node_is_true_spec i : node_is_true i = true <-> i = NODE_TRUE.
Proof. apply Z.eqb_eq. Qed.
Lemma node_is_false_spec i : node_is_false i = true <-> i = NODE_FALSE.
Proof. apply Z.eqb_eq. Qed.

(** A terminal, or a reference to a node. *)
Lemma node_cases i : 0 <= i ->
  i = NODE_TRUE \/ i = NODE_FALSE \/ (node_is_true i = false /\ node_is_false i = false /\ 2 <= i).
Proof.
  intros H. unfold node_is_true, node_is_false, NODE_TRUE, NODE_FALSE.
  destruct (Z.eqb_spec i 0), (Z.eqb_spec i 1); try tauto. right; right. split_and!; lia.
Qed.

Lemma node_index_value i : node_index i = Z.to_nat (i / 2 - 1).
Proof. unfold node_index. by rewrite Z.shiftr_div_pow2. Qed.

Lemma node_index_new k c : node_index (node_new k c) = k.
Proof.
  rewrite node_index_value, node_new_value.
  replace ((2 * (Z.of_nat k + 1) + (if c then 1 else 0)) / 2) with (Z.of_nat k + 1); [lia|].
  symmetry. rewrite Z.mul_comm, Z.div_add_l by lia. destruct c; rewrite Z.div_small; lia.
Qed.

Lemma node_index_not i : 2 <= i -> node_index (node_not i) = node_index i.
Proof.
  intros H. rewrite !node_index_value, node_not_value, node_is_complement_value. do 2 f_equal.
  pose proof (Z.div_mod i 2 ltac:(lia)) as Hm. rewrite (Zmod_odd i) in Hm.
  destruct (Z.odd i) eqn:E; rewrite ?E in Hm;
    [replace (i - 1) with (i / 2 * 2) by lia|replace (i + 1) with (i / 2 * 2 + 1) by lia];
    [by rewrite Z.div_mul|rewrite Z.div_add_l, (Z.div_small 1 2); lia].
Qed.

Lemma node_not_large i : 2 <= i <-> 2 <= node_not i.
Proof.
  assert (Hd : forall j, 2 <= j -> 2 <= node_not j).
  { intros j Hj. rewrite node_not_value, node_is_complement_value. destruct (Z.odd j) eqn:E; [|lia].
    destruct (Z.eq_dec j 2) as [->|]; [done|lia]. }
  split; [apply Hd|]. intros H%Hd. by rewrite node_not_not in H.
Qed.

Lemma node_not_nonneg i : 0 <= i -> 0 <= node_not i.
Proof. intros H. apply Z.lxor_nonneg. lia. Qed.

Lemma node_rank_not i : 0 <= i -> node_rank (node_not i) = node_rank i.
Proof.
  intros H. destruct (node_cases i H) as [->|[->|(H1 & H2 & H3)]]; [done..|].
  unfold node_rank. rewrite H1, H2, node_index_not by done. cbn.
  pose proof (proj1 (node_not_large i) H3).
  by destruct (node_cases (node_not i) ltac:(lia)) as [E|[E|(-> & -> & _)]]; [rewrite E in *..|].
Qed.

Lemma node_rank_negate i j : 0 <= i -> node_rank (node_negate i j) = node_rank i.
Proof. intros H. unfold node_negate. destruct (node_is_complement j); [by apply node_rank_not|done]. Qed.

(** ** Valuations *)

(** A value for each variable: which of the three a variable has depends on its kind. An offset that
    is not zero is a point next to the value, which the ranges tell apart from it; the values of an
    environment have none. *)
Record Valuation : Type := mkValuation {
  version_at : MarkerVariable -> Version;
  string_at : MarkerVariable -> list Z;
  bool_at : MarkerVariable -> bool;
  offset_at : MarkerVariable -> Z
}.

Definition version_point (sigma : Valuation) (var : MarkerVariable) : Version * Z :=
  (version_at sigma var, offset_at sigma var).
Definition string_point (sigma : Valuation) (var : MarkerVariable) : list Z * Z :=
  (string_at sigma var, offset_at sigma var).

#[global] Instance valuation_inhabited : Inhabited Valuation :=
  populate (mkValuation (fun _ => Small small_new) (fun _ => []) (fun _ => false) (fun _ => 0)).

Section Eval.
Context {RV : RangeOps Version} {RS : RangeOps (list Z)}.

(** The children whose range has a point. *)
Definition matching {T : Type} (law : T -> T -> comparison) `{!RangeOps T} (p : T * Z)
    (edges : list (range T * NodeId)) : list NodeId :=
  (List.filter (fun e => range_at law e.1 p) edges).*2.

Definition edges_select (sigma : Valuation) (var : MarkerVariable) (e : Edges) : list NodeId :=
  match e with
  | EdgesVersion edges => matching version_cmp_slow (version_point sigma var) edges
  | EdgesString edges => matching string_cmp (string_point sigma var) edges
  | EdgesBoolean high low => [if bool_at sigma var then high else low]
  end.

(** The first edge that matches decides, as in [MarkerTree::evaluate]. *)
Fixpoint eval_fuel (fuel : nat) (table : list Node) (sigma : Valuation) (i : NodeId) : bool :=
  if node_is_true i then true
  else if node_is_false i then false
  else
    match fuel with
    | O => false
    | S fuel =>
        match node_at table i with
        | None => false
        | Some node =>
            match edges_select sigma (node_var node) (node_children node) with
            | [] => false
            | child :: _ => eval_fuel fuel table sigma (node_negate child i)
            end
        end
    end.

Definition eval (table : list Node) (sigma : Valuation) (i : NodeId) : bool :=
  eval_fuel (node_rank i) table sigma i.

(** ** Well-formed tables *)

(** A terminal or a node of the table. *)
Definition node_valid (table : list Node) (i : NodeId) : Prop :=
  0 <= i /\ (node_rank i <= length table)%nat.

(** The variable comes before that of the node. *)
Definition before (table : list Node) (var : MarkerVariable) (i : NodeId) : Prop :=
  forall node, node_at table i = Some node -> variable_cmp var (node_var node) = Lt.

(** All variables that decide the value of a node. *)
Inductive all_vars (table : list Node) (P : MarkerVariable -> Prop) : NodeId -> Prop :=
| all_vars_terminal i : node_at table i = None -> all_vars table P i
| all_vars_node i node :
    node_at table i = Some node -> P (node_var node) ->
    (forall child, child ∈ edges_nodes (node_children node) -> all_vars table P child) ->
    all_vars table P i.

(** The kind of edges that a variable has. *)
Definition edges_kind (var : MarkerVariable) (e : Edges) : Prop :=
  match var, e with
  | VarVersion _, EdgesVersion _ | VarVersionString _, EdgesVersion _ => True
  | VarString _, EdgesString _ => True
  | VarIn _ _, EdgesBoolean _ _ | VarContains _ _, EdgesBoolean _ _ => True
  | VarExtra _, EdgesBoolean _ _ | VarList _, EdgesBoolean _ _ => True
  | _, _ => False
  end.

(** Every point has exactly one edge. *)
Definition edges_total (var : MarkerVariable) (e : Edges) : Prop :=
  forall sigma, exists child, edges_select sigma var e = [child].

(** Edges for a variable: exhaustive, exclusive, to nodes of later variables; their ranges are
    segments in order. *)
Record edges_ok (table : list Node) (var : MarkerVariable) (e : Edges) : Prop := {
  ok_kind : edges_kind var e;
  ok_total : edges_total var e;
  ok_valid : forall i, i ∈ edges_nodes e -> node_valid table i;
  ok_before : forall i, i ∈ edges_nodes e -> before table var i;
  ok_partition : edges_partition e
}.

(** A node is not redundant, and is the canonical one of itself and its complement. *)
Record node_ok (table : list Node) (node : Node) : Prop := {
  ok_edges : edges_ok table (node_var node) (node_children node);
  ok_first : exists first, head (edges_nodes (node_children node)) = Some first /\
    node_is_complement first = false /\
    forallb (fun i => i =? first) (edges_nodes (node_children node)) = false
}.

(** A node refers to older nodes, and is not in the table before. *)
Record table_ok (table : list Node) : Prop := {
  ok_node : forall k node, table !! k = Some node -> node_ok (take k table) node;
  ok_unique : forall j k a b, (j < k)%nat -> table !! j = Some a -> table !! k = Some b -> node_eq a b = false
}.

(** ** Basic facts *)

Lemma true_valid table : node_valid table NODE_TRUE.
Proof. split; [done|cbn; lia]. Qed.
Lemma false_valid table : node_valid table NODE_FALSE.
Proof. split; [done|cbn; lia]. Qed.

Lemma not_valid table i : node_valid table i -> node_valid table (node_not i).
Proof. intros [H1 H2]. split; [by apply node_not_nonneg|]. by rewrite node_rank_not. Qed.

Lemma negate_valid table i j : node_valid table i -> node_valid table (node_negate i j).
Proof. intros H. unfold node_negate. destruct (node_is_complement j); [by apply not_valid|done]. Qed.

Lemma node_at_not table i : 0 <= i -> node_at table (node_not i) = node_at table i.
Proof.
  intros H. destruct (node_cases i H) as [->|[->|(H1 & H2 & H3)]]; [done..|].
  unfold node_at. rewrite H1, H2, node_index_not by done.
  pose proof (proj1 (node_not_large i) H3).
  by destruct (node_cases (node_not i) ltac:(lia)) as [E|[E|(-> & -> & _)]]; [rewrite E in *..|].
Qed.

Lemma node_at_negate table i j : 0 <= i -> node_at table (node_negate i j) = node_at table i.
Proof. intros H. unfold node_negate. destruct (node_is_complement j); [by apply node_at_not|done]. Qed.

Lemma before_not table var i : 0 <= i -> before table var i -> before table var (node_not i).
Proof. intros H Hb node. rewrite node_at_not by done. apply Hb. Qed.

Lemma before_negate table var i j : 0 <= i -> before table var i -> before table var (node_negate i j).
Proof. intros H. unfold node_negate. destruct (node_is_complement j); [by apply before_not|done]. Qed.

Lemma before_terminal table var i : i = NODE_TRUE \/ i = NODE_FALSE -> before table var i.
Proof. by intros [->| ->] node. Qed.

Lemma before_trans table var var' i :
  variable_cmp var var' = Lt -> before table var' i -> before table var i.
Proof. intros H Hb node Hn%Hb. by eapply (cmp_lt_trans variable_cmp). Qed.

(** *** Variables of a node *)

Lemma all_vars_not table P i : 0 <= i -> all_vars table P i -> all_vars table P (node_not i).
Proof.
  intros Hi H. destruct H as [j E|j node E H1 H2].
  - left. by rewrite node_at_not.
  - eapply all_vars_node; [by rewrite node_at_not|done|done].
Qed.

Lemma all_vars_negate table P i j : 0 <= i -> all_vars table P i -> all_vars table P (node_negate i j).
Proof. intros H. unfold node_negate. destruct (node_is_complement j); [by apply all_vars_not|done]. Qed.

Lemma all_vars_true table P i : i = NODE_TRUE \/ i = NODE_FALSE -> all_vars table P i.
Proof. intros [->| ->]; by left. Qed.

Lemma all_vars_weaken table (P Q : MarkerVariable -> Prop) i :
  (forall var, P var -> Q var) -> all_vars table P i -> all_vars table Q i.
Proof.
  intros H. induction 1 as [i E|i node E H1 H2 IH]; [by left|]. eright; [done|by apply H|done].
Qed.

Lemma all_vars_top table P i node : node_at table i = Some node -> all_vars table P i -> P (node_var node).
Proof.
  intros E H. inversion H as [j E'|j n E' H1 H2]; subst; [congruence|]. rewrite E in E'. by injection E' as <-.
Qed.

Lemma all_vars_child table P i node child :
  node_at table i = Some node -> all_vars table P i -> child ∈ edges_nodes (node_children node) ->
  all_vars table P child.
Proof.
  intros E H Hc. inversion H as [j E'|j n E' H1 H2]; subst; [congruence|]. rewrite E in E'. injection E' as <-. by apply H2.
Qed.

(** A reference that is not a terminal has a node. *)
Lemma node_valid_at table i :
  node_valid table i -> node_is_true i = false -> node_is_false i = false ->
  exists node, node_at table i = Some node /\ node_rank i = S (node_index i) /\
    table !! node_index i = Some node.
Proof.
  intros [H1 H2] Ht Hf. unfold node_rank, node_at in *. rewrite Ht, Hf in *. cbn [orb] in *.
  destruct (lookup_lt_is_Some_2 table (node_index i)) as [node E]; [lia|]. eauto.
Qed.

Lemma node_at_lookup table i node :
  node_at table i = Some node ->
  node_is_true i = false /\ node_is_false i = false /\ table !! node_index i = Some node.
Proof. unfold node_at. by destruct (node_is_true i), (node_is_false i). Qed.

(** ** Extension *)

Lemma valid_extend table table' i : table `prefix_of` table' -> node_valid table i -> node_valid table' i.
Proof. intros E%prefix_length [H1 H2]. split; [done|lia]. Qed.

Lemma node_at_extend table table' i :
  table `prefix_of` table' -> node_valid table i -> node_at table' i = node_at table i.
Proof.
  intros E [H1 H2]. unfold node_at, node_rank in *. destruct (node_is_true i || node_is_false i) eqn:Et; [done|].
  destruct (lookup_lt_is_Some_2 table (node_index i)) as [node En]; [lia|].
  rewrite En. by eapply prefix_lookup_Some.
Qed.

Lemma before_extend table table' var i :
  table `prefix_of` table' -> node_valid table i -> before table var i -> before table' var i.
Proof. intros E Hv Hb node. rewrite (node_at_extend _ _ _ E Hv). apply Hb. Qed.

Lemma edges_ok_extend table table' var e :
  table `prefix_of` table' -> edges_ok table var e -> edges_ok table' var e.
Proof.
  intros E [H1 H2 H3 H4 H5]. split; [done..| | |done]; intros i Hi.
  - by eapply valid_extend, H3.
  - eapply before_extend; eauto.
Qed.

(** The node of a valid reference, in the whole table. *)
Lemma node_at_ok table i node :
  table_ok table -> node_at table i = Some node -> edges_ok table (node_var node) (node_children node).
Proof.
  intros Hok (_ & _ & E)%node_at_lookup. apply (ok_node _ Hok) in E as [E _].
  eapply edges_ok_extend; [|done]. apply prefix_take.
Qed.

Lemma valid_ind table (Q : NodeId -> Prop) :
  table_ok table -> Q NODE_TRUE -> Q NODE_FALSE ->
  (forall i node, node_valid table i -> node_at table i = Some node ->
     (forall child, child ∈ edges_nodes (node_children node) -> node_valid table child /\ Q child) -> Q i) ->
  forall i, node_valid table i -> Q i.
Proof.
  intros Hok Ht Hf Hnode i. remember (node_rank i) as n eqn:En. revert i En.
  induction n as [n IH] using lt_wf_ind. intros i -> Hv.
  destruct (node_is_true i) eqn:Et; [by apply node_is_true_spec in Et as ->|].
  destruct (node_is_false i) eqn:Ef; [by apply node_is_false_spec in Ef as ->|].
  destruct (node_valid_at _ _ Hv Et Ef) as (node & En & Er & El). apply (Hnode i node Hv En).
  intros child Hc. pose proof (ok_valid _ _ _ (ok_edges _ _ (ok_node _ Hok _ _ El)) _ Hc) as [H1 H2].
  rewrite length_take in H2. assert (Hvc : node_valid table child) by (split; [done|lia]).
  split; [done|]. eapply IH; [|reflexivity|done]. lia.
Qed.

Lemma all_vars_extend table table' P i :
  table_ok table -> table `prefix_of` table' -> node_valid table i ->
  all_vars table' P i <-> all_vars table P i.
Proof.
  intros Hok Hp Hv. revert i Hv.
  apply (valid_ind table (fun i => all_vars table' P i <-> all_vars table P i) Hok);
    [split; by left|split; by left|]. intros i node Hv En Hch.
  assert (En' : node_at table' i = Some node) by by rewrite (node_at_extend _ _ _ Hp Hv).
  split; intros H.
  - eright; [done|exact (all_vars_top _ _ _ _ En' H)|]. intros child Hc. apply Hch; [done|].
    exact (all_vars_child _ _ _ _ _ En' H Hc).
  - eright; [done|exact (all_vars_top _ _ _ _ En H)|]. intros child Hc. apply Hch; [done|].
    exact (all_vars_child _ _ _ _ _ En H Hc).
Qed.

(** The variable of a node comes before all others. *)
Lemma before_all_vars table var i :
  table_ok table -> node_valid table i -> before table var i <-> all_vars table (fun v => variable_cmp var v = Lt) i.
Proof.
  intros Hok Hv. split.
  - revert i Hv var. apply (valid_ind table (fun i => forall var, before table var i -> all_vars table _ i) Hok);
      [by left|by left|]. intros i node Hv En Hch var Hb. pose proof (Hb _ En) as Hlt.
    eright; [done|done|]. intros child Hc. apply Hch; [done|].
    eapply before_trans; [done|]. by apply (ok_before _ _ _ (node_at_ok _ _ _ Hok En)).
  - intros H node En. by apply (all_vars_top _ _ _ _ En H).
Qed.

(** Children are older. *)
Lemma child_rank table i node child :
  table_ok table -> node_at table i = Some node -> child ∈ edges_nodes (node_children node) ->
  (node_rank (node_negate child i) < node_rank i)%nat.
Proof.
  intros Hok (Ht & Hf & E)%node_at_lookup Hc. pose proof (ok_node _ Hok _ _ E) as [[_ _ Hv _] _].
  destruct (Hv _ Hc) as [H1 H2]. rewrite node_rank_negate by done.
  rewrite length_take in H2. unfold node_rank at 2. rewrite Ht, Hf. cbn. lia.
Qed.

Lemma matching_elem {T : Type} (law : T -> T -> comparison) `{!RangeOps T} (p : T * Z) edges child :
  child ∈ matching law p edges -> exists r, (r, child) ∈ edges /\ range_at law r p = true.
Proof.
  unfold matching. intros ([r c] & -> & Hx)%list_elem_of_fmap.
  apply list_elem_of_In, filter_In in Hx as [Hx Hr]. exists r. split; [by apply list_elem_of_In|done].
Qed.

Lemma select_elem sigma var e child :
  child ∈ edges_select sigma var e -> child ∈ edges_nodes e.
Proof.
  destruct e as [edges|edges|high low]; cbn.
  - intros (r & Hr & _)%matching_elem. by apply (list_elem_of_fmap_2 snd) in Hr.
  - intros (r & Hr & _)%matching_elem. by apply (list_elem_of_fmap_2 snd) in Hr.
  - destruct (bool_at sigma var); set_solver.
Qed.

(** The child that a valuation selects. *)
Lemma total_select sigma var e :
  edges_total var e -> exists child, edges_select sigma var e = [child] /\ child ∈ edges_nodes e.
Proof.
  intros H. destruct (H sigma) as [child E]. exists child. split; [done|].
  apply (select_elem sigma var). rewrite E. set_solver.
Qed.

(** ** Evaluation *)

Lemma eval_true table sigma : eval table sigma NODE_TRUE = true.
Proof. done. Qed.
Lemma eval_false table sigma : eval table sigma NODE_FALSE = false.
Proof. done. Qed.

(** Fuel does not matter once it is enough. *)
Lemma eval_fuel_enough table sigma fuel i :
  table_ok table -> node_valid table i -> (node_rank i <= fuel)%nat ->
  eval_fuel fuel table sigma i = eval table sigma i.
Proof.
  intros Hok. revert i. induction fuel as [fuel IH] using lt_wf_ind. intros i Hv Hf. unfold eval.
  destruct (node_is_true i) eqn:Et; [apply node_is_true_spec in Et as ->; by destruct fuel|].
  destruct (node_is_false i) eqn:Ef; [apply node_is_false_spec in Ef as ->; by destruct fuel|].
  destruct (node_valid_at _ _ Hv Et Ef) as (node & En & Er & _). rewrite Er in *.
  destruct fuel as [|fuel]; [lia|]. cbn [eval_fuel]. rewrite Et, Ef, En.
  pose proof (node_at_ok _ _ _ Hok En) as [_ Htot Hval _].
  destruct (total_select sigma _ _ Htot) as (child & -> & Hc).
  pose proof (child_rank _ _ _ _ Hok En Hc) as Hr.
  assert (Hvc : node_valid table (node_negate child i)) by apply negate_valid, Hval, Hc.
  rewrite (IH fuel), (IH (node_index i)); [done|lia|done|lia|lia|done|lia].
Qed.

(** A node has the value of the child that is selected. *)
Lemma eval_node table sigma i node :
  table_ok table -> node_at table i = Some node ->
  exists child, edges_select sigma (node_var node) (node_children node) = [child] /\
    child ∈ edges_nodes (node_children node) /\
    eval table sigma i = eval table sigma (node_negate child i).
Proof.
  intros Hok En. pose proof (node_at_ok _ _ _ Hok En) as [_ Htot Hval _].
  destruct (total_select sigma _ _ Htot) as (child & Es & Hc). exists child. split_and!; [done..|].
  pose proof (child_rank _ _ _ _ Hok En Hc) as Hr. pose proof (node_at_lookup _ _ _ En) as (Et & Ef & _).
  unfold eval at 1. unfold node_rank in Hr |- *. rewrite Et, Ef in Hr |- *. cbn [orb] in *.
  cbn [eval_fuel]. rewrite Et, Ef, En, Es.
  apply eval_fuel_enough; [done|apply negate_valid, Hval, Hc|]. unfold node_rank. lia.
Qed.

(** The complement of a reference has the complementary value. *)
Lemma eval_not table sigma i :
  table_ok table -> node_valid table i -> eval table sigma (node_not i) = negb (eval table sigma i).
Proof.
  intros Hok. remember (node_rank i) as n eqn:En. revert i En.
  induction n as [n IH] using lt_wf_ind. intros i -> Hv.
  destruct (node_is_true i) eqn:Et; [by apply node_is_true_spec in Et as ->|].
  destruct (node_is_false i) eqn:Ef; [by apply node_is_false_spec in Ef as ->|].
  destruct (node_valid_at _ _ Hv Et Ef) as (node & En & Er & _).
  assert (En' : node_at table (node_not i) = Some node) by (rewrite node_at_not; [done|apply Hv]).
  destruct (eval_node table sigma i node Hok En) as (child & Es & Hc & ->).
  destruct (eval_node table sigma _ node Hok En') as (child' & Es' & _ & ->).
  rewrite Es in Es'. injection Es' as <-. rewrite node_negate_not.
  eapply IH; [|reflexivity|].
  - by eapply child_rank.
  - apply negate_valid. by apply (ok_valid _ _ _ (node_at_ok _ _ _ Hok En)).
Qed.

Lemma eval_negate table sigma i j :
  table_ok table -> node_valid table i ->
  eval table sigma (node_negate i j) = xorb (node_is_complement j) (eval table sigma i).
Proof.
  intros Hok Hv. unfold node_negate. destruct (node_is_complement j); [|by destruct (eval table sigma i)].
  rewrite eval_not by done. by destruct (eval table sigma i).
Qed.

(** New nodes do not change the value of old ones. *)
Lemma eval_extend table table' sigma i :
  table_ok table -> table_ok table' -> table `prefix_of` table' -> node_valid table i ->
  eval table' sigma i = eval table sigma i.
Proof.
  intros Hok Hok' Hp. remember (node_rank i) as n eqn:En. revert i En.
  induction n as [n IH] using lt_wf_ind. intros i -> Hv.
  destruct (node_is_true i) eqn:Et; [by apply node_is_true_spec in Et as ->|].
  destruct (node_is_false i) eqn:Ef; [by apply node_is_false_spec in Ef as ->|].
  destruct (node_valid_at _ _ Hv Et Ef) as (node & En & Er & _).
  assert (En' : node_at table' i = Some node) by by rewrite (node_at_extend _ _ _ Hp Hv).
  destruct (eval_node table sigma i node Hok En) as (child & Es & Hc & ->).
  destruct (eval_node table' sigma _ node Hok' En') as (child' & Es' & _ & ->).
  rewrite Es in Es'. injection Es' as <-. eapply IH; [|reflexivity|].
  - by eapply child_rank.
  - apply negate_valid. by apply (ok_valid _ _ _ (node_at_ok _ _ _ Hok En)).
Qed.

(** *** Valuations that agree *)

Definition agree_at (sigma tau : Valuation) (var : MarkerVariable) : Prop :=
  version_at sigma var = version_at tau var /\ string_at sigma var = string_at tau var /\
  bool_at sigma var = bool_at tau var /\ offset_at sigma var = offset_at tau var.

Lemma agree_select sigma tau var e : agree_at sigma tau var -> edges_select sigma var e = edges_select tau var e.
Proof.
  intros (H1 & H2 & H3 & H4). destruct e; cbn; unfold version_point, string_point; by rewrite ?H1, ?H2, ?H3, ?H4.
Qed.

(** The value of a node depends on its variables only. *)
Lemma eval_agree table sigma tau i :
  table_ok table -> node_valid table i -> all_vars table (agree_at sigma tau) i ->
  eval table sigma i = eval table tau i.
Proof.
  intros Hok Hv. revert i Hv. apply (valid_ind table (fun i => all_vars table _ i -> eval table sigma i = eval table tau i) Hok);
    [done..|]. intros i node Hv En Hch Hall.
  destruct (eval_node table sigma i node Hok En) as (c & Es & Hc & ->).
  destruct (eval_node table tau i node Hok En) as (c' & Es' & _ & ->).
  rewrite (agree_select sigma tau) in Es by by apply (all_vars_top _ _ _ _ En Hall).
  rewrite Es in Es'. injection Es' as <-. destruct (Hch c Hc) as [Hvc IH].
  rewrite !eval_negate, IH by (done || by apply (all_vars_child _ _ _ _ _ En Hall)). done.
Qed.

(** The variables of the table. *)
Lemma all_vars_table table i :
  table_ok table -> node_valid table i -> all_vars table (fun var => var ∈ node_var <$> table) i.
Proof.
  intros Hok Hv. revert i Hv. apply (valid_ind table (fun i => all_vars table _ i) Hok); [by left|by left|].
  intros i node Hv En Hch. eright; [done| |intros child Hc; by apply Hch].
  apply node_at_lookup in En as (_ & _ & E). by apply list_elem_of_fmap_2, (list_elem_of_lookup_2 _ (node_index i)).
Qed.

Lemma all_vars_and table (P Q : MarkerVariable -> Prop) i :
  all_vars table P i -> all_vars table Q i -> all_vars table (fun var => P var /\ Q var) i.
Proof.
  induction 1 as [i E|i node E H1 H2 IH]; intros HQ; [by left|].
  eright; [done|split; [done|by apply (all_vars_top _ _ _ _ E HQ)]|].
  intros c Hc. apply IH; [done|]. by apply (all_vars_child _ _ _ _ _ E HQ).
Qed.

(** Below a node there are later variables only. *)
Lemma all_vars_later table (l : list MarkerVariable) i node child :
  table_ok table -> node_at table i = Some node -> all_vars table (fun var => var ∈ l) i ->
  child ∈ edges_nodes (node_children node) ->
  all_vars table (fun var => var ∈ l /\ variable_cmp (node_var node) var = Lt) child.
Proof.
  intros Hok En Hl Hc. pose proof (node_at_ok _ _ _ Hok En) as [_ _ Hval Hbef].
  apply all_vars_and; [by apply (all_vars_child _ _ _ _ _ En Hl)|]. by apply before_all_vars; [|apply Hval|apply Hbef].
Qed.
End Eval.

(** Validity and nodes of references, in an extension of the table. *)
Ltac extend :=
  lazymatch goal with
  | |- node_valid ?table ?i =>
      first
        [ assumption
        | match goal with
          | H : ?small `prefix_of` table |- _ => apply (valid_extend small table i H); extend
          end ]
  | |- node_at ?table ?i = Some _ =>
      first
        [ assumption
        | match goal with
          | H : ?small `prefix_of` table |- _ => rewrite (node_at_extend small table i H); [extend|extend]
          end ]
  end.
