(* ===== verification/InternerFacts.v ===== *)
(** * Markers: the interner, verified

    What the operations on the table of nodes promise: they do not panic on a well-formed interner,
    leave it well-formed, only add nodes, and their results have the stated values. *)

From stdpp Require Import base countable list option numbers decidable strings gmap.
From Stdlib Require Import ZArith Lia.
From S2P Require Import Prelude Ranges VersionTypes VersionSmall Version VersionOrder VersionParser.
From S2P Require Import VersionSpecifier MarkerTypes Interner EdgesOrder MarkerEval.

Local Open Scope Z_scope.
Local Open Scope uv_scope.

(** ** The invariant *)

(** Markers that do not hold together, whatever the environment. *)
Definition exclusion_pairs :
    list ((CanonicalMarkerValueString * list Z) * (CanonicalMarkerValueString * list Z)) :=
  [((OsName, bytes "nt"), (SysPlatform, bytes "linux"));
   ((OsName, bytes "nt"), (SysPlatform, bytes "darwin"));
   ((OsName, bytes "nt"), (SysPlatform, bytes "ios"));
   ((OsName, bytes "posix"), (SysPlatform, bytes "win32"))] ++
  (["FreeBSD"; "NetBSD"; "OpenBSD"; "SunOS"; "iOS"; "iPadOS"]%string ≫= fun system =>
   ["aix"; "android"; "emscripten"; "ios"; "linux"; "darwin"; "win32"; "cygwin"; "wasi"]%string
     ≫= fun platform =>
     if bool_decide (platform = "ios"%string) &&
        (bool_decide (system = "iOS"%string) || bool_decide (system = "iPadOS"%string))
     then [] else [((PlatformSystem, bytes system), (SysPlatform, bytes platform))]).

Definition holds_equal (sigma : Valuation) (p : CanonicalMarkerValueString * list Z) : bool :=
  bool_decide (string_point sigma (VarString p.1) = (p.2, 0)).

Definition excluded (sigma : Valuation) : bool :=
  existsb (fun p => holds_equal sigma p.1 && holds_equal sigma p.2) exclusion_pairs.

(** A valuation that an environment can have. *)
Definition allowed (sigma : Valuation) : Prop := excluded sigma = false.

Section Invariant.
Context {RV : RangeOps Version} {RS : RangeOps (list Z)}.

(** The conjunction of two nodes, for the valuations [A]; it has no variable that is not in one of
    them. *)
Record is_and (A : Valuation -> Prop) (table : list Node) (x y r : NodeId) : Prop := {
  and_valid : node_valid table r;
  and_eval : forall sigma, A sigma -> eval table sigma r = eval table sigma x && eval table sigma y;
  and_vars : forall P, all_vars table P x -> all_vars table P y -> all_vars table P r
}.

Record interner_ok (st : Interner) : Prop := {
  ok_table : table_ok (nodes st);
  ok_registered : unique st = (fun k => node_new k false) <$> seq 0 (length (nodes st));
  ok_cache : forall x y r, cache st !! (x, y) = Some r ->
    node_valid (nodes st) x /\ node_valid (nodes st) y /\ is_and allowed (nodes st) x y r;
  ok_exclusions : forall r, exclusions_cache st = Some r ->
    node_valid (nodes st) r /\ forall sigma, eval (nodes st) sigma r = excluded sigma
}.

Lemma is_and_comm A table x y r : is_and A table x y r -> is_and A table y x r.
Proof.
  intros [H1 H2 H3]. split; [done| |eauto]. intros sigma Hs. rewrite (H2 _ Hs). apply andb_comm.
Qed.

Lemma is_and_extend A table table' x y r :
  table_ok table -> table_ok table' -> table `prefix_of` table' ->
  node_valid table x -> node_valid table y -> is_and A table x y r -> is_and A table' x y r.
Proof.
  intros Hok Hok' Hp Hx Hy [H1 H2 H3]. split.
  - by eapply valid_extend.
  - intros sigma Hs. rewrite !(eval_extend table table') by done. by apply H2.
  - intros P. rewrite !(all_vars_extend table table') by done. apply H3.
Qed.

Lemma interner_new_ok : interner_ok interner_new.
Proof. by split. Qed.
End Invariant.

(** ** Total correctness *)

(** Local caches that stay right when nodes are added. *)
Class LocalInvariant {C : Type} {RV : RangeOps Version} {RS : RangeOps (list Z)}
    (L : C -> list Node -> Prop) : Prop :=
  local_extend : forall c table table',
    table_ok table -> table_ok table' -> table `prefix_of` table' -> L c table -> L c table'.

Section Runs.
Context {RV : RangeOps Version} {RS : RangeOps (list Z)}.
Context {C : Type} (L : C -> list Node -> Prop) {HL : LocalInvariant L}.

Definition state_ok (s : Interner * C) : Prop := interner_ok s.1 /\ L s.2 (nodes s.1).

(** The operation returns, keeps the invariant, only adds nodes, and its result satisfies [Q]. *)
Definition runs {A : Type} (m : M C A) (s : Interner * C) (Q : A -> list Node -> Prop) : Prop :=
  exists a s', m s = Some (a, s') /\ state_ok s' /\ nodes s.1 `prefix_of` nodes s'.1 /\ Q a (nodes s'.1).

Lemma runs_ret {A : Type} (a : A) s (Q : A -> list Node -> Prop) :
  state_ok s -> Q a (nodes s.1) -> runs (ret a) s Q.
Proof. intros H1 H2. by exists a, s. Qed.

(** What holds of any result. *)
Lemma runs_returned {A : Type} (m : M C A) s (P : A -> list Node -> Prop) (X : A -> Prop) :
  runs m s P -> (forall a s', m s = Some (a, s') -> X a) -> runs m s (fun a table => P a table /\ X a).
Proof. intros (a & s' & E & H1 & H2 & H3) HX. exists a, s'. split_and!; try done. by eapply HX. Qed.

(** The rule for a continuation that depends on how the first computation went. *)
Lemma runs_bind_result {A B : Type} (m : M C A) (k : A -> M C B) s P (Q : B -> list Node -> Prop) :
  runs m s P ->
  (forall a s', m s = Some (a, s') -> state_ok s' -> nodes s.1 `prefix_of` nodes s'.1 -> P a (nodes s'.1) ->
    runs (k a) s' Q) ->
  runs (bind m k) s Q.
Proof.
  intros (a & s' & E & Hok & Hp & HP) Hk.
  destruct (Hk a s' E Hok Hp HP) as (b & s'' & E' & Hok' & Hp' & HQ).
  exists b, s''. unfold bind. rewrite E. split_and!; [done..|by etransitivity|done].
Qed.

Lemma runs_bind {A B : Type} (m : M C A) (k : A -> M C B) s P (Q : B -> list Node -> Prop) :
  runs m s P ->
  (forall a s', state_ok s' -> nodes s.1 `prefix_of` nodes s'.1 -> P a (nodes s'.1) -> runs (k a) s' Q) ->
  runs (bind m k) s Q.
Proof. intros Hm Hk. eapply runs_bind_result; [exact Hm|]. intros a s' _. apply Hk. Qed.

Lemma runs_weaken {A : Type} (m : M C A) s (P Q : A -> list Node -> Prop) :
  runs m s P ->
  (forall a table, table_ok table -> nodes s.1 `prefix_of` table -> P a table -> Q a table) -> runs m s Q.
Proof.
  intros (a & s' & E & Hok & Hp & HP) H. exists a, s'. split_and!; [done..|].
  apply H; [apply Hok|done..].
Qed.

Lemma runs_lift {A B : Type} (o : option A) a (k : A -> M C B) s Q :
  o = Some a -> runs (k a) s Q -> runs (let! x := lift_option o in k x) s Q.
Proof. by intros ->. Qed.

Lemma runs_get_node {A : Type} i node (k : Node -> M C A) s Q :
  node_at (nodes s.1) i = Some node -> runs (k node) s Q -> runs (let! n := get_node i in k n) s Q.
Proof.
  intros En Hk. unfold runs, get_node, bind, get_interner, lift_option. cbn. by rewrite En.
Qed.

Lemma runs_get_interner {A : Type} (k : Interner -> M C A) s Q :
  runs (k s.1) s Q -> runs (let! st := get_interner in k st) s Q.
Proof. done. Qed.

Lemma runs_get_local {A : Type} (k : C -> M C A) s Q :
  runs (k s.2) s Q -> runs (let! c := get_local in k c) s Q.
Proof. done. Qed.

Lemma runs_set_local {A : Type} c (m : M C A) s Q : runs m (s.1, c) Q -> runs (set_local c ;; m) s Q.
Proof. done. Qed.

(** ** Creation of nodes *)

Lemma edges_not_nodes e : edges_nodes (edges_not e) = node_not <$> edges_nodes e.
Proof.
  destruct e as [edges|edges|high low]; cbn; [..|done]; rewrite <- !list_fmap_compose;
    by apply list_fmap_ext; intros ? [] ?.
Qed.

Lemma matching_not {T : Type} (law : T -> T -> comparison) `{!RangeOps T} (p : T * Z) edges :
  matching law p ((fun '(r, node) => (r, node_not node)) <$> edges) = node_not <$> matching law p edges.
Proof.
  unfold matching. induction edges as [|[r c] edges IH]; [done|]. cbn in *.
  destruct (range_at law r p); cbn; by rewrite IH.
Qed.

Lemma edges_not_select sigma var e :
  edges_select sigma var (edges_not e) = node_not <$> edges_select sigma var e.
Proof. destruct e as [edges|edges|high low]; cbn; [apply matching_not..|]. by destruct (bool_at _ _). Qed.

Lemma edges_not_ok table var e : edges_ok table var e -> edges_ok table var (edges_not e).
Proof.
  intros [H1 H2 H3 H4 H5]. split; [| | | |by apply edges_not_partition].
  - by destruct var, e.
  - intros sigma. destruct (H2 sigma) as [child E]. exists (node_not child). by rewrite edges_not_select, E.
  - intros i. rewrite edges_not_nodes. intros (j & -> & Hj)%list_elem_of_fmap. by apply not_valid, H3.
  - intros i. rewrite edges_not_nodes. intros (j & -> & Hj)%list_elem_of_fmap.
    apply before_not; [by apply H3|by apply H4].
Qed.

(** The node that [create_node] promises: it decides on the variable. *)
Record decides (table : list Node) (var : MarkerVariable) (e : Edges) (r : NodeId) : Prop := {
  decides_valid : node_valid table r;
  decides_eval : forall sigma child,
    edges_select sigma var e = [child] -> eval table sigma r = eval table sigma child;
  decides_vars : forall P : MarkerVariable -> Prop,
    P var -> (forall child, child ∈ edges_nodes e -> all_vars table P child) -> all_vars table P r
}.

Lemma decides_not table var e r :
  table_ok table -> edges_ok table var e ->
  decides table var (edges_not e) r -> decides table var e (node_not r).
Proof.
  intros Hok He [H1 H2 H3]. split.
  - by apply not_valid.
  - intros sigma child E. rewrite eval_not by done.
    rewrite (H2 sigma (node_not child)) by by rewrite edges_not_select, E.
    rewrite eval_not; [apply negb_involutive|done|]. apply (ok_valid _ _ _ He), (select_elem sigma var).
    rewrite E. set_solver.
  - intros P Hv Hc. apply all_vars_not; [apply H1|]. apply H3; [done|]. intros child.
    rewrite edges_not_nodes. intros (c & -> & Hin)%list_elem_of_fmap.
    apply all_vars_not; [by apply (ok_valid _ _ _ He)|by apply Hc].
Qed.

Lemma edges_nonempty table var e : edges_ok table var e -> exists first, head (edges_nodes e) = Some first.
Proof.
  intros He. destruct (total_select inhabitant _ _ (ok_total _ _ _ He)) as (child & _ & Hc).
  destruct (edges_nodes e) as [|first l]; [set_solver|]. by exists first.
Qed.

(** Equal nodes have equal children and choose alike. *)
Lemma range_edges_eq_matching {T : Type} `{!RangeOps T} (cmp : T -> T -> comparison) `{!RangeLaws cmp} v a b :
  range_edges_eq a b = true -> a.*2 = b.*2 /\ matching cmp v a = matching cmp v b.
Proof.
  revert b. induction a as [|[r i] a IH]; intros [|[r' i'] b]; try done. cbn [range_edges_eq].
  intros [[Hr <-%Z.eqb_eq]%andb_true_iff Hrest]%andb_true_iff. destruct (IH _ Hrest) as [H1 H2].
  unfold matching in *. cbn. rewrite (proj1 (range_eq_at (cmp := cmp) r r') Hr v). split; [by f_equal|].
  destruct (range_at cmp r' v); cbn; by rewrite H2.
Qed.

Context {LV : RangeLaws version_cmp_slow} {LS : RangeLaws string_cmp}.

Lemma node_eq_select a b sigma :
  node_eq a b = true ->
  node_var a = node_var b /\ edges_nodes (node_children a) = edges_nodes (node_children b) /\
  edges_select sigma (node_var a) (node_children a) = edges_select sigma (node_var b) (node_children b).
Proof.
  intros [Hv%bool_decide_eq_true He]%andb_true_iff. split; [done|]. rewrite Hv.
  destruct (node_children a) as [x|x|h l], (node_children b) as [y|y|h' l']; try done; cbn in *.
  - by apply (range_edges_eq_matching version_cmp_slow).
  - by apply (range_edges_eq_matching string_cmp).
  - by apply andb_true_iff in He as [->%Z.eqb_eq ->%Z.eqb_eq].
Qed.

Lemma node_at_new table k c : node_at table (node_new k c) = table !! k.
Proof.
  unfold node_at. rewrite node_index_new. unfold node_is_true, node_is_false, NODE_TRUE, NODE_FALSE.
  rewrite node_new_value. destruct (Z.eqb_spec (2 * (Z.of_nat k + 1) + (if c then 1 else 0)) 0); [destruct c; lia|].
  destruct (Z.eqb_spec (2 * (Z.of_nat k + 1) + (if c then 1 else 0)) 1); [destruct c; lia|done].
Qed.

Lemma node_new_valid (table : list Node) k c : (k < length table)%nat -> node_valid table (node_new k c).
Proof.
  intros H. assert (Hpos : 2 <= node_new k c) by (rewrite node_new_value; destruct c; lia).
  split; [lia|]. unfold node_rank. rewrite node_index_new. by destruct (_ || _); lia.
Qed.

(** The lookup in the hash table finds the node that is equal, if there is one. *)
Lemma find_unique_some st node id :
  interner_ok st -> find_unique st node = Some id ->
  exists k stored, id = node_new k false /\ nodes st !! k = Some stored /\ node_eq stored node = true.
Proof.
  intros Hok [Hin E]%find_some. rewrite (ok_registered _ Hok) in Hin.
  apply list_elem_of_In, list_elem_of_fmap in Hin as (k & -> & _).
  rewrite node_at_new in E. destruct (nodes st !! k) as [stored|] eqn:Ek; [|done]. by exists k, stored.
Qed.

Lemma find_unique_none st node k stored :
  interner_ok st -> find_unique st node = None -> nodes st !! k = Some stored -> node_eq stored node = false.
Proof.
  intros Hok E Ek. pose proof (lookup_lt_Some _ _ _ Ek).
  assert (Hin : In (node_new k false) (unique st)).
  { rewrite (ok_registered _ Hok). apply list_elem_of_In, list_elem_of_fmap. exists k.
    split; [done|]. apply elem_of_seq. lia. }
  apply (find_none _ _ E) in Hin. by rewrite node_at_new, Ek in Hin.
Qed.

Lemma table_add table node :
  table_ok table -> node_ok table node ->
  (forall k stored, table !! k = Some stored -> node_eq stored node = false) -> table_ok (table ++ [node]).
Proof.
  intros [H1 H2] Hn Hu. split.
  - intros k n [E|[Hk [Hk' <-]%list_lookup_singleton_Some]]%lookup_app_Some.
    + pose proof (lookup_lt_Some _ _ _ E). rewrite take_app_le by lia. by apply H1.
    + replace k with (length table) by lia. by rewrite take_app_length.
  - intros j k a b Hjk Ea [E|[Hk [Hk' <-]%list_lookup_singleton_Some]]%lookup_app_Some.
    + pose proof (lookup_lt_Some _ _ _ E). rewrite lookup_app_l in Ea by lia. exact (H2 _ _ _ _ Hjk Ea E).
    + rewrite lookup_app_l in Ea by lia. exact (Hu _ _ Ea).
Qed.

(** The state after a node is added. *)
Definition add_node (st : Interner) (node : Node) : Interner :=
  mkInterner (nodes st ++ [node]) (unique st ++ [node_new (length (nodes st)) false]) (cache st)
    (exclusions_cache st).

Lemma add_node_ok st node :
  interner_ok st -> node_ok (nodes st) node -> find_unique st node = None -> interner_ok (add_node st node).
Proof.
  intros Hok Hn Hf. assert (Ht : table_ok (nodes st ++ [node])).
  { apply table_add; [apply Hok|done|]. intros k stored. by apply find_unique_none. }
  pose proof (ok_table _ Hok) as Ht0.
  assert (Hp : nodes st `prefix_of` nodes st ++ [node]) by by apply prefix_app_r.
  split; cbn.
  - done.
  - rewrite (ok_registered _ Hok), length_app. cbn. rewrite Nat.add_1_r, seq_S, fmap_app. done.
  - intros x y r (Hx & Hy & Hr)%(ok_cache _ Hok). split_and!; [by eapply valid_extend..|].
    by eapply is_and_extend.
  - intros r (Hr & He)%(ok_exclusions _ Hok). split; [by eapply valid_extend|].
    intros sigma. by rewrite (eval_extend (nodes st)).
Qed.

(** The reference to a node of the table decides as the node. *)
Lemma stored_decides table k node var e :
  table_ok table -> table !! k = Some node -> node_var node = var ->
  (forall sigma, edges_select sigma var (node_children node) = edges_select sigma var e) ->
  edges_nodes (node_children node) = edges_nodes e -> decides table var e (node_new k false).
Proof.
  intros Hok Hk Hv Hs Hn. pose proof (lookup_lt_Some _ _ _ Hk).
  assert (En : node_at table (node_new k false) = Some node) by by rewrite node_at_new.
  split.
  - by apply node_new_valid.
  - intros sigma child E. destruct (eval_node table sigma _ node Hok En) as (c & Es & _ & ->).
    rewrite Hv, Hs, E in Es. injection Es as ->. unfold node_negate.
    rewrite node_is_complement_value, node_new_value, Z.add_0_r, Z.odd_mul. done.
  - intros P HP Hc. eright; [done|by rewrite Hv|]. intros child. rewrite Hn. apply Hc.
Qed.

(** Children that are all equal make the decision redundant. *)
Lemma redundant_decides table var e first :
  edges_ok table var e -> head (edges_nodes e) = Some first ->
  forallb (fun i => i =? first) (edges_nodes e) = true -> decides table var e first.
Proof.
  intros He Hf Hall. assert (Hin : first ∈ edges_nodes e) by (apply head_Some in Hf as [l ->]; set_solver).
  split.
  - by apply (ok_valid _ _ _ He).
  - intros sigma child E. assert (Hc : child ∈ edges_nodes e).
    { apply (select_elem sigma var). rewrite E. set_solver. }
    rewrite forallb_forall in Hall. apply list_elem_of_In, Hall, Z.eqb_eq in Hc. by subst.
  - intros P _ Hc. by apply Hc.
Qed.

(** The last step of [create_node]: find or add the node. *)
Definition intern (var : MarkerVariable) (e : Edges) : M C NodeId :=
  let node := mkNode var e in
  let! st := get_interner in
  match find_unique st node with
  | Some id => ret id
  | None => set_interner (add_node st node) ;; ret (node_new (length (nodes st)) false)
  end.

Lemma intern_runs var e s :
  state_ok s -> node_ok (nodes s.1) (mkNode var e) ->
  runs (intern var e) s (fun r table => decides table var e r).
Proof.
  intros [Hok Hl] Hn. unfold intern, runs, bind, get_interner. cbn.
  destruct (find_unique s.1 (mkNode var e)) as [id|] eqn:Ef.
  - destruct (find_unique_some _ _ _ Hok Ef) as (k & stored & -> & Ek & Eq).
    exists (node_new k false), s. split_and!; [done..|].
    destruct (node_eq_select _ _ inhabitant Eq) as (Hv & Hn' & _). cbn in Hv, Hn'.
    eapply stored_decides; [apply Hok|done|done| |done]. intros sigma.
    destruct (node_eq_select _ _ sigma Eq) as (_ & _ & Hs). cbn in Hs. by rewrite <- Hs, Hv.
  - pose proof (add_node_ok _ _ Hok Hn Ef) as Hok'.
    assert (Hp : nodes s.1 `prefix_of` nodes (add_node s.1 (mkNode var e))) by by apply prefix_app_r.
    exists (node_new (length (nodes s.1)) false), (add_node s.1 (mkNode var e), s.2). split_and!; [done| |done|].
    + split; [done|]. eapply local_extend; [apply Hok|apply Hok'|done..].
    + eapply stored_decides; [apply Hok'|apply list_lookup_middle; reflexivity|done..].
Qed.

Lemma create_node_runs var e s :
  state_ok s -> edges_ok (nodes s.1) var e ->
  runs (create_node var e) s (fun r table => decides table var e r).
Proof.
  intros Hs He. destruct (edges_nonempty _ _ _ He) as [first Hf].
  assert (Hcore : forall e' first', edges_ok (nodes s.1) var e' -> head (edges_nodes e') = Some first' ->
    node_is_complement first' = false ->
    runs (if forallb (fun node => node =? first') (edges_nodes e') then ret first' else intern var e') s
      (fun r table => decides table var e' r)).
  { intros e' first' He' Hf' Hc. destruct (forallb _ _) eqn:Eall.
    - apply runs_ret; [done|]. by apply redundant_decides.
    - apply intern_runs; [done|]. split; [done|]. cbn. eauto. }
  assert (Hhead : head (edges_nodes (edges_not e)) = Some (node_not first)).
  { rewrite edges_not_nodes. apply head_Some in Hf as [l ->]. done. }
  unfold create_node, bind at 1, lift_option. cbn. rewrite Hf. cbn.
  destruct (node_is_complement first) eqn:Ec.
  - destruct (Hcore (edges_not e) (node_not first)) as (r & s' & E & Hs' & Hp & Hd);
      [by apply edges_not_ok|done|by rewrite node_not_complement, Ec|].
    exists (node_not r), s'. split_and!; [|done..|].
    + destruct (forallb _ _); [by injection E as <- <-|]. unfold intern, bind in *. cbn in *.
      by destruct (find_unique _ _); injection E as <- <-.
    + apply decides_not; [apply Hs'| |done]. by eapply edges_ok_extend.
  - destruct (Hcore e first) as (r & s' & E & Hs' & Hp & Hd); [done..|].
    exists r, s'. split_and!; [|done..].
    destruct (forallb _ _); [done|]. unfold intern, bind in *. cbn in *.
    by destruct (find_unique _ _); injection E as <- <-.
Qed.
End Runs.

(** * Markers: disjointness, verified

    [disjointness] returns on every pair of nodes, and when it returns true no valuation satisfies
    both nodes. *)

(** A test that returns, and whose success implies [P]. *)
Definition tests (o : option bool) (P : Prop) : Prop := exists b, o = Some b /\ (b = true -> P).

Lemma tests_weaken o (P Q : Prop) : (P -> Q) -> tests o P -> tests o Q.
Proof. intros H (b & -> & Hb). exists b. auto. Qed.

Lemma all_option_tests {A : Type} (f : A -> option bool) l (P : A -> Prop) :
  (forall a, a ∈ l -> tests (f a) (P a)) -> tests (all_option f l) (forall a, a ∈ l -> P a).
Proof.
  induction l as [|a l IH]; intros H; [exists true; set_solver|].
  destruct (H a) as (b & Eb & Hb); [set_solver|].
  destruct IH as (c & Ec & Hc); [intros; apply H; set_solver|].
  cbn [all_option]. rewrite Eb. cbn. destruct b; [|by exists false].
  exists c. split; [done|]. intros Ht a' [-> |Ha]%elem_of_cons; [by apply Hb|by apply Hc].
Qed.

Section Disjoint.
Context {RV : RangeOps Version} {RS : RangeOps (list Z)}.
Context {LV : RangeLaws version_cmp_slow} {LS : RangeLaws string_cmp}.
Context (table : list Node) (Hok : table_ok table).

(** No valuation satisfies both. *)
Definition exclusive (x y : NodeId) : Prop :=
  forall sigma, eval table sigma x && eval table sigma y = false.

Lemma exclusive_comm x y : exclusive x y -> exclusive y x.
Proof. intros H sigma. rewrite andb_comm. apply H. Qed.

Context (disjointness' : NodeId -> NodeId -> option bool) (bound : nat).
Hypothesis Htests : forall a b, node_valid table a -> node_valid table b ->
  (node_rank a + node_rank b < bound)%nat -> tests (disjointness' a b) (exclusive a b).

(** Ranges that overlap have exclusive children. *)
Lemma is_disjoint_ranges_tests {T : Type} (cmp : T -> T -> comparison) `{!RangeOps T, !RangeLaws cmp}
    (left right : list (range T * NodeId)) xi yi :
  (forall a b, a ∈ left.*2 -> b ∈ right.*2 ->
    tests (disjointness' (node_negate a xi) (node_negate b yi))
      (exclusive (node_negate a xi) (node_negate b yi))) ->
  tests (is_disjoint_ranges disjointness' left xi right yi)
    (forall v a b, matching cmp v left = [a] -> matching cmp v right = [b] ->
       exclusive (node_negate a xi) (node_negate b yi)).
Proof.
  intros H. eapply tests_weaken; [|apply (all_option_tests _ _ (fun l => forall r, r ∈ right ->
    (exists v, range_at cmp l.1 v = true /\ range_at cmp r.1 v = true) ->
    exclusive (node_negate l.2 xi) (node_negate r.2 yi)))].
  - intros Hall v a b Ea Eb.
    destruct (matching_elem cmp v left a) as (ra & Ha & Hra); [rewrite Ea; set_solver|].
    destruct (matching_elem cmp v right b) as (rb & Hb & Hrb); [rewrite Eb; set_solver|].
    apply (Hall (ra, a) Ha (rb, b) Hb). by exists v.
  - intros [ra a] Ha. apply all_option_tests. intros [rb b] Hb.
    destruct (range_is_disjoint rb ra) eqn:E.
    + exists true. split; [done|]. intros _ (v & Hv1 & Hv2). cbn in *. exfalso.
      rewrite (range_is_disjoint_intersection (cmp := cmp)) in E.
      apply (empty_at cmp _ v) in E. rewrite (range_at_intersection (cmp := cmp)) in E.
      by rewrite Hv1, Hv2 in E.
    + eapply tests_weaken; [|apply H; by eapply (list_elem_of_fmap_2 snd) in Ha, Hb]. by intros.
Qed.

Lemma exclusive_node xi yi x :
  node_at table xi = Some x ->
  (forall c, c ∈ edges_nodes (node_children x) -> exclusive (node_negate c xi) yi) -> exclusive xi yi.
Proof.
  intros Ex H sigma. destruct (eval_node table sigma xi x Hok Ex) as (c & _ & Hc & ->). by apply H.
Qed.

(** The expansion of one operand. *)
Lemma disjoint_children xi yi x y :
  node_valid table xi -> node_valid table yi -> node_at table xi = Some x -> node_at table yi = Some y ->
  (node_rank xi + node_rank yi <= bound)%nat ->
  tests (all_option (fun x => disjointness' (node_negate x xi) yi) (edges_nodes (node_children x)))
    (exclusive xi yi).
Proof.
  intros Hx Hy Ex Ey Hb. eapply tests_weaken; [by apply exclusive_node|].
  apply all_option_tests. intros c Hc. apply Htests.
  - apply negate_valid. by apply (ok_valid _ _ _ (node_at_ok _ _ _ Hok Ex)).
  - done.
  - pose proof (child_rank _ _ _ _ Hok Ex Hc). lia.
Qed.

(** The expansion of both. *)
Lemma disjoint_edges xi yi x y :
  node_valid table xi -> node_valid table yi -> node_at table xi = Some x -> node_at table yi = Some y ->
  node_var x = node_var y -> (node_rank xi + node_rank yi <= bound)%nat ->
  tests (edges_is_disjoint disjointness' (node_children x) xi (node_children y) yi) (exclusive xi yi).
Proof.
  intros Hx Hy Ex Ey Hv Hb.
  pose proof (node_at_ok _ _ _ Hok Ex) as [K1 K2 K3 K4]. pose proof (node_at_ok _ _ _ Hok Ey) as [J1 J2 J3 J4].
  assert (Hchild : forall a b, a ∈ edges_nodes (node_children x) -> b ∈ edges_nodes (node_children y) ->
    tests (disjointness' (node_negate a xi) (node_negate b yi))
      (exclusive (node_negate a xi) (node_negate b yi))).
  { intros a b Ha Hb'. apply Htests; [by apply negate_valid, K3|by apply negate_valid, J3|].
    pose proof (child_rank _ _ _ _ Hok Ex Ha). pose proof (child_rank _ _ _ _ Hok Ey Hb'). lia. }
  assert (Hsel : (forall sigma a b, edges_select sigma (node_var x) (node_children x) = [a] ->
    edges_select sigma (node_var x) (node_children y) = [b] ->
    exclusive (node_negate a xi) (node_negate b yi)) -> exclusive xi yi).
  { intros H sigma. destruct (eval_node table sigma xi x Hok Ex) as (a & Ea & _ & ->).
    destruct (eval_node table sigma yi y Hok Ey) as (b & Eb & _ & ->). rewrite <- Hv in Eb.
    by apply (H sigma a b). }
  rewrite <- Hv in *. eapply tests_weaken; [exact Hsel|]. clear Hsel K2 K3 K4 J2 J3 J4.
  destruct (node_children x) as [e|e|h l], (node_children y) as [e'|e'|h' l'];
    try (by destruct (node_var x)); cbn [edges_is_disjoint edges_select edges_nodes] in *.
  - eapply tests_weaken; [|by apply (is_disjoint_ranges_tests version_cmp_slow)]. intros H sigma. apply H.
  - eapply tests_weaken; [|by apply (is_disjoint_ranges_tests string_cmp)]. intros H sigma. apply H.
  - destruct (Hchild h h') as (b & -> & Hh); [set_solver..|]. cbn. destruct b; [|by exists false].
    destruct (Hchild l l') as (b & -> & Hl); [set_solver..|]. exists b. split; [done|].
    intros Ht sigma a c [= <-] [= <-]. destruct (bool_at sigma (node_var x)); [by apply Hh|by apply Hl].
Qed.

Lemma disjoint_expansion_tests xi yi :
  node_valid table xi -> node_valid table yi ->
  node_is_true xi = false -> node_is_false xi = false -> node_is_true yi = false -> node_is_false yi = false ->
  (node_rank xi + node_rank yi <= bound)%nat ->
  tests (disjoint_expansion disjointness' table xi yi) (exclusive xi yi).
Proof.
  intros Hx Hy Tx Fx Ty Fy Hb. destruct (node_valid_at _ _ Hx Tx Fx) as (x & Ex & _).
  destruct (node_valid_at _ _ Hy Ty Fy) as (y & Ey & _). unfold disjoint_expansion. rewrite Ex, Ey. cbn.
  destruct (variable_cmp (node_var x) (node_var y)) eqn:E.
  - apply (cmp_exact variable_cmp) in E. by apply disjoint_edges.
  - by apply (disjoint_children xi yi x y).
  - eapply tests_weaken; [apply exclusive_comm|]. apply (disjoint_children yi xi y x); [done..|lia].
Qed.
End Disjoint.

Section Disjointness.
Context {RV : RangeOps Version} {RS : RangeOps (list Z)}.
Context {LV : RangeLaws version_cmp_slow} {LS : RangeLaws string_cmp}.

Lemma disjointness_tests table fuel xi yi :
  table_ok table -> node_valid table xi -> node_valid table yi ->
  (node_rank xi + node_rank yi <= fuel)%nat ->
  tests (disjointness fuel table xi yi) (exclusive table xi yi).
Proof.
  intros Hok. revert xi yi. induction fuel as [|fuel IH]; intros xi yi Hx Hy Hf; cbn [disjointness].
  all: destruct (node_is_false xi || node_is_false yi) eqn:F;
    [apply orb_true_iff in F as [->%node_is_false_spec| ->%node_is_false_spec];
     exists true; (split; [done|]); intros _ sigma; rewrite eval_false; [done|apply andb_false_r]|].
  all: apply orb_false_iff in F as [Fx Fy].
  all: destruct (node_is_true xi || node_is_true yi) eqn:T; [by exists false|].
  all: apply orb_false_iff in T as [Tx Ty].
  all: destruct (Z.eqb_spec xi yi) as [_|_]; [by exists false|].
  all: destruct (Z.eqb_spec (node_not xi) yi) as [<-|_];
    [exists true; split; [done|]; intros _ sigma; by rewrite eval_not, andb_negb_r|].
  - destruct (node_valid_at _ _ Hx Tx Fx) as (_ & _ & Er & _). lia.
  - apply (disjoint_expansion_tests table Hok _ (node_rank xi + node_rank yi)); [|done..].
    intros a b Ha Hb Hr. apply IH; [done..|lia].
Qed.

Lemma disjoint_nodes_tests table xi yi :
  table_ok table -> node_valid table xi -> node_valid table yi ->
  tests (disjoint_nodes table xi yi) (exclusive table xi yi).
Proof. intros. by apply disjointness_tests. Qed.
End Disjointness.
