(* ===== verification/EdgesFacts.v ===== *)
(** * Markers: maps over edges, verified

    [Edges::map] and [Edges::apply]: the result has an edge for each value, and its child is what
    the function gives for the children of the operands. *)

From stdpp Require Import base countable list option numbers decidable strings gmap.
From Stdlib Require Import ZArith Lia.
From S2P Require Import Prelude Ranges VersionTypes VersionSmall Version VersionOrder.
From S2P Require Import VersionParser VersionSpecifier MarkerTypes Interner EdgesOrder MarkerEval.
From S2P Require Import InternerFacts.

Local Open Scope Z_scope.
Local Open Scope uv_scope.

(** ** Adding an edge *)

Section PushEdge.
Context {T : Type} (cmp law_cmp : T -> T -> comparison) `{!RangeOps T, !RangeLaws law_cmp}.

Lemma matching_app (v : T * Z) a b : matching law_cmp v (a ++ b) = matching law_cmp v a ++ matching law_cmp v b.
Proof. unfold matching. by rewrite List.filter_app, fmap_app. Qed.

Lemma matching_cons (v : T * Z) r c edges :
  matching law_cmp v ((r, c) :: edges) = if range_at law_cmp r v then c :: matching law_cmp v edges else matching law_cmp v edges.
Proof. unfold matching. cbn. by destruct (range_at law_cmp r v). Qed.

(** Either the edge is added, or the last one has the same child and is widened. *)
Lemma push_edge_cases edges r child :
  push_edge cmp edges r child = edges ++ [(r, child)] \/
  exists front previous, edges = front ++ [(previous, child)] /\
    push_edge cmp edges r child = front ++ [(range_union previous r, child)].
Proof.
  unfold push_edge. destruct (last edges) as [[previous c]|] eqn:El.
  - apply last_Some in El as [front ->]. destruct (Z.eqb_spec c child) as [->|]; [|by left].
    destruct (can_conjoin cmp previous r); [|by left]. right. exists front, previous. split; [done|].
    rewrite length_app. cbn. by rewrite Nat.add_sub, take_app_length.
  - apply last_None in El as ->. by left.
Qed.

Lemma push_edge_skip (v : T * Z) edges r child :
  range_at law_cmp r v = false -> matching law_cmp v (push_edge cmp edges r child) = matching law_cmp v edges.
Proof.
  intros H. destruct (push_edge_cases edges r child) as [->|(front & previous & -> & ->)];
    rewrite !matching_app, !matching_cons.
  - by rewrite H, app_nil_r.
  - by rewrite (range_at_union (cmp := law_cmp)), H, orb_false_r.
Qed.

Lemma push_edge_hit (v : T * Z) edges r child :
  range_at law_cmp r v = true -> matching law_cmp v edges = [] -> matching law_cmp v (push_edge cmp edges r child) = [child].
Proof.
  intros H. destruct (push_edge_cases edges r child) as [->|(front & previous & -> & ->)];
    rewrite !matching_app, !matching_cons.
  - intros ->. by rewrite H.
  - intros [-> _]%app_eq_nil. by rewrite (range_at_union (cmp := law_cmp)), H, orb_true_r.
Qed.

Lemma push_edge_nodes edges r child d :
  d ∈ (push_edge cmp edges r child).*2 -> d = child \/ d ∈ edges.*2.
Proof.
  destruct (push_edge_cases edges r child) as [->|(front & previous & -> & ->)];
    rewrite !fmap_app; cbn; set_solver.
Qed.
End PushEdge.

(** ** Maps *)

Section Relations.
Context {T : Type} (cmp law_cmp : T -> T -> comparison) `{!RangeOps T, !RangeLaws law_cmp}.

(** Mapped edges, after the edges [mapped] that were there before. *)
Record range_image (R : NodeId -> NodeId -> Prop) (edges mapped out : list (range T * NodeId)) : Prop := {
  range_image_nodes : forall d, d ∈ out.*2 -> d ∈ mapped.*2 \/ exists c, c ∈ edges.*2 /\ R c d;
  range_image_skip : forall v, matching law_cmp v edges = [] -> matching law_cmp v out = matching law_cmp v mapped;
  range_image_hit : forall v c, matching law_cmp v edges = [c] -> matching law_cmp v mapped = [] ->
    exists d, matching law_cmp v out = [d] /\ R c d
}.

Lemma range_image_cons (R : NodeId -> NodeId -> Prop) r c d edges mapped out :
  R c d -> range_image R edges (push_edge cmp mapped r d) out -> range_image R ((r, c) :: edges) mapped out.
Proof.
  intros HR [H1 H2 H3]. split.
  - intros d' [[-> | Hd]%(push_edge_nodes cmp law_cmp)|(c' & Hc & Hd)]%H1; [right; exists c; set_solver|by left|].
    right. exists c'. set_solver.
  - intros v. rewrite matching_cons. destruct (range_at law_cmp r v) eqn:E; [done|].
    intros Hm%H2. by rewrite Hm, (push_edge_skip cmp law_cmp).
  - intros v c'. rewrite matching_cons. destruct (range_at law_cmp r v) eqn:E.
    + intros [= <- Hm] Hmap. exists d. split; [|done]. by rewrite (H2 _ Hm), (push_edge_hit cmp law_cmp).
    + intros Hm Hmap. apply H3; [done|]. by rewrite (push_edge_skip cmp law_cmp).
Qed.

(** Edges combined with those of a right operand. *)
Record range_product (R : NodeId -> NodeId -> NodeId -> Prop)
    (left right combined out : list (range T * NodeId)) : Prop := {
  range_product_nodes : forall d, d ∈ out.*2 ->
    d ∈ combined.*2 \/ exists a b, a ∈ left.*2 /\ b ∈ right.*2 /\ R a b d;
  range_product_skip : forall v, matching law_cmp v left = [] -> matching law_cmp v out = matching law_cmp v combined;
  range_product_hit : forall v a b, matching law_cmp v left = [a] -> matching law_cmp v right = [b] ->
    matching law_cmp v combined = [] -> exists d, matching law_cmp v out = [d] /\ R a b d
}.

(** One left edge. *)
Record range_row (R : NodeId -> NodeId -> Prop) (left_range : range T)
    (right combined out : list (range T * NodeId)) : Prop := {
  range_row_nodes : forall d, d ∈ out.*2 -> d ∈ combined.*2 \/ exists b, b ∈ right.*2 /\ R b d;
  range_row_outside : forall v, range_at law_cmp left_range v = false -> matching law_cmp v out = matching law_cmp v combined;
  range_row_skip : forall v, matching law_cmp v right = [] -> matching law_cmp v out = matching law_cmp v combined;
  range_row_hit : forall v b, range_at law_cmp left_range v = true -> matching law_cmp v right = [b] ->
    matching law_cmp v combined = [] -> exists d, matching law_cmp v out = [d] /\ R b d
}.

Lemma range_row_cons (R : NodeId -> NodeId -> Prop) left_range r b d right combined out :
  R b d ->
  range_row R left_range right (push_edge cmp combined (range_intersection r left_range) d) out ->
  range_row R left_range ((r, b) :: right) combined out.
Proof.
  intros HR [H1 H2 H3 H4]. split.
  - intros d' [[-> | Hd]%(push_edge_nodes cmp law_cmp)|(b' & Hb & Hd)]%H1; [right; exists b; set_solver|by left|].
    right. exists b'. set_solver.
  - intros v Hv. rewrite H2 by done. apply (push_edge_skip cmp law_cmp).
    by rewrite (range_at_intersection (cmp := law_cmp)), Hv, andb_false_r.
  - intros v. rewrite matching_cons. destruct (range_at law_cmp r v) eqn:E; [done|]. intros Hm.
    rewrite H3 by done. apply (push_edge_skip cmp law_cmp).
    by rewrite (range_at_intersection (cmp := law_cmp)), E.
  - intros v b' Hv. rewrite matching_cons. destruct (range_at law_cmp r v) eqn:E.
    + intros [= <- Hm] Hc. exists d. split; [|done]. rewrite H3 by done.
      apply (push_edge_hit cmp law_cmp); [|done].
      by rewrite (range_at_intersection (cmp := law_cmp)), E, Hv.
    + intros Hm Hc. apply H4; [done..|]. rewrite (push_edge_skip cmp law_cmp); [done|].
      by rewrite (range_at_intersection (cmp := law_cmp)), E.
Qed.

(** An edge that does not overlap the left one. *)
Lemma range_row_disjoint (R : NodeId -> NodeId -> Prop) left_range r b right combined out :
  (forall v, range_at law_cmp r v && range_at law_cmp left_range v = false) ->
  range_row R left_range right combined out -> range_row R left_range ((r, b) :: right) combined out.
Proof.
  intros Hr [H1 H2 H3 H4]. split.
  - intros d [Hd|(b' & Hb & Hd)]%H1; [by left|]. right. exists b'. set_solver.
  - done.
  - intros v. rewrite matching_cons. destruct (range_at law_cmp r v); [done|]. apply H3.
  - intros v b' Hv. rewrite matching_cons. specialize (Hr v). rewrite Hv, andb_true_r in Hr. rewrite Hr. by apply H4.
Qed.

Lemma range_product_cons (R : NodeId -> NodeId -> NodeId -> Prop) r a left right combined middle out :
  range_row (R a) r right combined middle -> range_product R left right middle out ->
  range_product R ((r, a) :: left) right combined out.
Proof.
  intros [H1 H2 H3 H4] [K1 K2 K3]. split.
  - intros d [Hd|(a' & b & Ha & Hb & Hd)]%K1; [|right; exists a', b; set_solver].
    apply H1 in Hd as [Hd|(b & Hb & Hd)]; [by left|]. right. exists a, b. set_solver.
  - intros v. rewrite matching_cons. destruct (range_at law_cmp r v) eqn:E; [done|]. intros Hm%K2. by rewrite Hm, H2.
  - intros v a' b. rewrite matching_cons. destruct (range_at law_cmp r v) eqn:E.
    + intros [= <- Hm] Hb Hc. rewrite (K2 _ Hm). by apply H4.
    + intros Hm Hb Hc. apply K3; [done..|]. by rewrite H2.
Qed.

End Relations.

(** A property of tables that stays true when nodes are added. *)
Definition stable {RV : RangeOps Version} {RS : RangeOps (list Z)} (P : list Node -> Prop) : Prop :=
  forall table table', table_ok table -> table_ok table' -> table `prefix_of` table' -> P table -> P table'.

(** A cache of results that are related to their keys. *)
Section Caches.
Context {RV : RangeOps Version} {RS : RangeOps (list Z)}.
Context {K V : Type} `{Countable K} (R : K -> V -> list Node -> Prop).

Definition caches (cache : gmap K V) (table : list Node) : Prop :=
  forall k v, cache !! k = Some v -> R k v table.

Lemma caches_local : (forall k v, stable (R k v)) -> LocalInvariant caches.
Proof. intros HR cache table table' Hok Hok' Hp Hc k v E%Hc. by apply (HR k v table). Qed.

Lemma caches_empty table : caches ∅ table.
Proof. intros k v. by rewrite lookup_empty. Qed.

Lemma caches_insert cache k v table : caches cache table -> R k v table -> caches (<[k := v]> cache) table.
Proof.
  intros Hc Hr k' v'. destruct (decide (k = k')) as [->|Hne].
  - rewrite lookup_insert_eq. by intros [= <-].
  - rewrite lookup_insert_ne by done. apply Hc.
Qed.
End Caches.

Section Maps.
Context {RV : RangeOps Version} {RS : RangeOps (list Z)}.
Context {C : Type} (L : C -> list Node -> Prop) {HL : LocalInvariant L}.

Section Ranges.
Context {T : Type} (cmp law_cmp : T -> T -> comparison) `{!RangeOps T, !RangeLaws law_cmp}.

Lemma map_ranges_runs (f : NodeId -> M C NodeId) (R : NodeId -> NodeId -> list Node -> Prop) parent edges mapped s :
  (forall c d, stable (R c d)) -> state_ok L s ->
  (forall c s', c ∈ edges.*2 -> state_ok L s' -> nodes s.1 `prefix_of` nodes s'.1 ->
    runs L (f (node_negate c parent)) s' (R c)) ->
  runs L (map_ranges cmp f edges parent mapped) s
    (fun out table => range_image law_cmp (fun c d => R c d table) edges mapped out).
Proof.
  intros HR. revert mapped s. induction edges as [|[r c] edges IH]; intros mapped s Hs Hf.
  - cbn. apply runs_ret; [done|]. split; [by left|by intros|]. intros v c E. discriminate E.
  - cbn. eapply runs_bind.
    + apply Hf; [set_solver|done|reflexivity].
    + intros d s' Hs' Hp Hd. cbn in Hd. eapply runs_weaken.
      * apply IH; [done|]. intros c' s'' Hc Hs'' Hp'. apply Hf; [set_solver|done|by etransitivity].
      * intros out table Ht Hp' Him. eapply (range_image_cons cmp law_cmp); [|exact Him].
        eapply HR; [apply Hs'|done..].
Qed.

Lemma apply_right_runs (apply : NodeId -> NodeId -> M C NodeId) (R : NodeId -> NodeId -> list Node -> Prop)
    left_range left right_parent right combined s :
  (forall b d, stable (R b d)) -> state_ok L s ->
  (forall b s', b ∈ right.*2 -> state_ok L s' -> nodes s.1 `prefix_of` nodes s'.1 ->
    runs L (apply left (node_negate b right_parent)) s' (R b)) ->
  runs L (apply_right cmp apply left_range left right right_parent combined) s
    (fun out table => range_row law_cmp (fun b d => R b d table) left_range right combined out).
Proof.
  intros HR. revert combined s. induction right as [|[r b] right IH]; intros combined s Hs Hf.
  - cbn. apply runs_ret; [done|]. split; [by left|by intros..|]. intros. discriminate.
  - cbn [apply_right]. destruct (range_is_empty (range_intersection r left_range)) eqn:Ee.
    + eapply runs_weaken.
      * apply IH; [done|]. intros b' s' Hb. apply Hf. set_solver.
      * intros out table Ht Hp Hrow. apply (range_row_disjoint law_cmp); [|done]. intros v.
        rewrite <- (range_at_intersection (cmp := law_cmp)). by apply (empty_at law_cmp).
    + eapply runs_bind; [apply Hf; [set_solver|done|reflexivity]|]. intros d s' Hs' Hp Hd. cbn in Hd.
      eapply runs_weaken.
      * apply IH; [done|]. intros b' s'' Hb Hs'' Hp'. apply Hf; [set_solver|done|by etransitivity].
      * intros out table Ht Hp' Hrow. eapply (range_row_cons cmp law_cmp); [|exact Hrow]. eapply HR; [apply Hs'|done..].
Qed.

Lemma apply_ranges_runs (apply : NodeId -> NodeId -> M C NodeId)
    (R : NodeId -> NodeId -> NodeId -> list Node -> Prop) left_parent right_parent left right combined s :
  (forall a b d, stable (R a b d)) -> state_ok L s ->
  (forall a b s', a ∈ left.*2 -> b ∈ right.*2 -> state_ok L s' -> nodes s.1 `prefix_of` nodes s'.1 ->
    runs L (apply (node_negate a left_parent) (node_negate b right_parent)) s' (R a b)) ->
  runs L (apply_ranges cmp apply left left_parent right right_parent combined) s
    (fun out table => range_product law_cmp (fun a b d => R a b d table) left right combined out).
Proof.
  intros HR. revert combined s. induction left as [|[r a] left IH]; intros combined s Hs Hf.
  - cbn. apply runs_ret; [done|]. split; [by left|by intros..|]. intros. discriminate.
  - cbn [apply_ranges]. eapply runs_bind.
    + apply (apply_right_runs apply (R a)); [done..|]. intros b s' Hb. apply Hf; [set_solver|done].
    + intros middle s' Hs' Hp Hrow. cbn in Hrow. eapply runs_weaken.
      * apply IH; [done|]. intros a' b s'' Ha Hb Hs'' Hp'. apply Hf; [set_solver|done..|by etransitivity].
      * intros out table Ht Hp' Hprod. eapply (range_product_cons law_cmp); [|exact Hprod].
        destruct Hrow as [H1 H2 H3 H4]. split; [|done|done|].
        -- intros d [Hd|(b & Hb & Hd)]%H1; [by left|]. right. exists b. split; [done|].
           eapply HR; [apply Hs'|done..].
        -- intros v b Hv Hm Hc. destruct (H4 v b Hv Hm Hc) as (d & Hd & Hrd). exists d. split; [done|].
           eapply HR; [apply Hs'|done..].
Qed.
End Ranges.

(** ** Edges *)

Context {LV : RangeLaws version_cmp_slow} {LS : RangeLaws string_cmp}.

(** Edges whose children are related to those of [e]. *)
Record edges_image (R : NodeId -> NodeId -> Prop) (var : MarkerVariable) (e out : Edges) : Prop := {
  image_kind : edges_kind var out;
  image_nodes : forall d, d ∈ edges_nodes out -> exists c, c ∈ edges_nodes e /\ R c d;
  image_select : forall sigma c, edges_select sigma var e = [c] ->
    exists d, edges_select sigma var out = [d] /\ R c d;
  image_partition : edges_partition e -> edges_partition out
}.

Lemma edges_image_stable R var e out : (forall c d, stable (R c d)) ->
  stable (fun table => edges_image (fun c d => R c d table) var e out).
Proof.
  intros HR table table' Hok Hok' Hp [H1 H2 H3 H4]. split; [done| | |done].
  - intros d (c & Hc & Hd)%H2. exists c. split; [done|]. by apply (HR c d table).
  - intros sigma c (d & Ed & Hd)%H3. exists d. split; [done|]. by apply (HR c d table).
Qed.

Lemma edges_map_children (f : NodeId -> M C NodeId) (R : NodeId -> NodeId -> list Node -> Prop) parent var e s :
  (forall c d, stable (R c d)) -> state_ok L s -> edges_kind var e ->
  (forall c s', c ∈ edges_nodes e -> state_ok L s' -> nodes s.1 `prefix_of` nodes s'.1 ->
    runs L (f (node_negate c parent)) s' (R c)) ->
  runs L (edges_map e parent f) s (fun out table =>
    edges_kind var out /\ (forall d, d ∈ edges_nodes out -> exists c, c ∈ edges_nodes e /\ R c d table) /\
    forall sigma c, edges_select sigma var e = [c] -> exists d, edges_select sigma var out = [d] /\ R c d table).
Proof.
  intros HR Hs Hk Hf. destruct e as [edges|edges|high low]; cbn [edges_map].
  - eapply runs_bind; [by apply (map_ranges_runs version_cmp version_cmp_slow f R)|].
    intros out s' Hs' Hp [H1 H2 H3]. apply runs_ret; [done|]. split_and!; cbn.
    + by destruct var.
    + intros d [Hd|Hd]%H1; [set_solver|done].
    + intros sigma c E. by apply H3.
  - eapply runs_bind; [by apply (map_ranges_runs string_cmp string_cmp f R)|].
    intros out s' Hs' Hp [H1 H2 H3]. apply runs_ret; [done|]. split_and!; cbn.
    + by destruct var.
    + intros d [Hd|Hd]%H1; [set_solver|done].
    + intros sigma c E. by apply H3.
  - eapply runs_bind; [apply Hf; [set_solver|done|reflexivity]|]. intros dl s1 Hs1 Hp1 Hdl. cbn in Hdl.
    eapply runs_bind; [apply Hf; [set_solver|done..]|]. intros dh s2 Hs2 Hp2 Hdh. cbn in Hdh.
    apply runs_ret; [done|]. assert (Hdl' : R low dl (nodes s2.1)) by (eapply HR; [apply Hs1|apply Hs2|done..]).
    split_and!; cbn.
    + by destruct var.
    + intros d. rewrite !elem_of_cons. intros [-> |[-> |[]%not_elem_of_nil]]; [exists high|exists low]; set_solver.
    + intros sigma c [= <-]. destruct (bool_at sigma var); eauto.
Qed.

Lemma edges_map_runs (f : NodeId -> M C NodeId) (R : NodeId -> NodeId -> list Node -> Prop) parent var e s :
  (forall c d, stable (R c d)) -> state_ok L s -> edges_kind var e ->
  (forall c s', c ∈ edges_nodes e -> state_ok L s' -> nodes s.1 `prefix_of` nodes s'.1 ->
    runs L (f (node_negate c parent)) s' (R c)) ->
  runs L (edges_map e parent f) s (fun out table => edges_image (fun c d => R c d table) var e out).
Proof.
  intros HR Hs Hk Hf. eapply runs_weaken; [apply (runs_returned L); [by apply (edges_map_children f R)|intros out s' E; exact (edges_map_partition _ _ _ _ _ _ E)]|].
  by intros out table _ _ [(H1 & H2 & H3) H4].
Qed.

(** Edges whose children are related to those of two operands. *)
Record edges_product (R : NodeId -> NodeId -> NodeId -> Prop) (var : MarkerVariable) (e e' out : Edges) : Prop := {
  product_kind : edges_kind var out;
  product_nodes : forall d, d ∈ edges_nodes out ->
    exists a b, a ∈ edges_nodes e /\ b ∈ edges_nodes e' /\ R a b d;
  product_select : forall sigma a b, edges_select sigma var e = [a] -> edges_select sigma var e' = [b] ->
    exists d, edges_select sigma var out = [d] /\ R a b d;
  product_partition : edges_partition e -> edges_partition e' -> edges_partition out
}.

Lemma edges_product_stable R var e e' out : (forall a b d, stable (R a b d)) ->
  stable (fun table => edges_product (fun a b d => R a b d table) var e e' out).
Proof.
  intros HR table table' Hok Hok' Hp [H1 H2 H3 H4]. split; [done| | |done].
  - intros d (a & b & Ha & Hb & Hd)%H2. exists a, b. split_and!; [done..|]. by apply (HR a b d table).
  - intros sigma a b Ea Eb. destruct (H3 sigma a b Ea Eb) as (d & Ed & Hd). exists d. split; [done|].
    by apply (HR a b d table).
Qed.

Lemma edges_apply_children (apply : NodeId -> NodeId -> M C NodeId)
    (R : NodeId -> NodeId -> NodeId -> list Node -> Prop) parent parent' var e e' s :
  (forall a b d, stable (R a b d)) -> state_ok L s -> edges_kind var e -> edges_kind var e' ->
  (forall a b s', a ∈ edges_nodes e -> b ∈ edges_nodes e' -> state_ok L s' ->
    nodes s.1 `prefix_of` nodes s'.1 ->
    runs L (apply (node_negate a parent) (node_negate b parent')) s' (R a b)) ->
  runs L (edges_apply e parent e' parent' apply) s
    (fun out table =>
      edges_kind var out /\
      (forall d, d ∈ edges_nodes out -> exists a b, a ∈ edges_nodes e /\ b ∈ edges_nodes e' /\ R a b d table) /\
      forall sigma a b, edges_select sigma var e = [a] -> edges_select sigma var e' = [b] ->
        exists d, edges_select sigma var out = [d] /\ R a b d table).
Proof.
  intros HR Hs Hk Hk' Hf.
  destruct e as [edges|edges|high low], e' as [edges'|edges'|high' low']; try by destruct var.
  - cbn [edges_apply]. eapply runs_bind.
    { by apply (apply_ranges_runs version_cmp version_cmp_slow apply R). }
    intros out s' Hs' Hp [H1 H2 H3]. apply runs_ret; [done|]. split_and!; cbn.
    + by destruct var.
    + intros d [Hd|Hd]%H1; [set_solver|done].
    + intros sigma a b Ea Eb. by apply H3.
  - cbn [edges_apply]. eapply runs_bind.
    { by apply (apply_ranges_runs string_cmp string_cmp apply R). }
    intros out s' Hs' Hp [H1 H2 H3]. apply runs_ret; [done|]. split_and!; cbn.
    + by destruct var.
    + intros d [Hd|Hd]%H1; [set_solver|done].
    + intros sigma a b Ea Eb. by apply H3.
  - cbn [edges_apply].
    eapply runs_bind; [apply Hf; [set_solver..|done|reflexivity]|]. intros dh s1 Hs1 Hp1 Hdh. cbn in Hdh.
    eapply runs_bind; [apply Hf; [set_solver..|done|done]|]. intros dl s2 Hs2 Hp2 Hdl. cbn in Hdl.
    apply runs_ret; [done|].
    assert (Hdh' : R high high' dh (nodes s2.1)) by (eapply HR; [apply Hs1|apply Hs2|done..]).
    split_and!; cbn.
    + by destruct var.
    + intros d. rewrite !elem_of_cons. intros [-> |[-> |[]%not_elem_of_nil]];
        [exists high, high'|exists low, low']; set_solver.
    + intros sigma a b [= <-] [= <-]. destruct (bool_at sigma var); eauto.
Qed.
Lemma edges_apply_runs (apply : NodeId -> NodeId -> M C NodeId)
    (R : NodeId -> NodeId -> NodeId -> list Node -> Prop) parent parent' var e e' s :
  (forall a b d, stable (R a b d)) -> state_ok L s -> edges_kind var e -> edges_kind var e' ->
  (forall a b s', a ∈ edges_nodes e -> b ∈ edges_nodes e' -> state_ok L s' ->
    nodes s.1 `prefix_of` nodes s'.1 ->
    runs L (apply (node_negate a parent) (node_negate b parent')) s' (R a b)) ->
  runs L (edges_apply e parent e' parent' apply) s
    (fun out table => edges_product (fun a b d => R a b d table) var e e' out).
Proof.
  intros HR Hs Hk Hk' Hf. eapply runs_weaken; [apply (runs_returned L); [by apply (edges_apply_children apply R)|intros out s' E; exact (edges_apply_partition _ _ _ _ _ _ _ _ E)]|].
  by intros out table _ _ [(H1 & H2 & H3) H4].
Qed.
End Maps.

(** ** Facts from the end of a traversal

    A condition [T] on the local state that, when it holds at the end, held all along: then every
    call satisfied [Q]. *)

Section Trace.
Context {RV : RangeOps Version} {RS : RangeOps (list Z)}.
Context {LV : RangeLaws version_cmp_slow} {LS : RangeLaws string_cmp}.
Context {C : Type} (T : Interner * C -> Prop).

Lemma bind_Some_inv {A B : Type} (m : M C A) (k : A -> M C B) s b s' :
  bind m k s = Some (b, s') -> exists a s1, m s = Some (a, s1) /\ k a s1 = Some (b, s').
Proof. unfold bind. destruct (m s) as [[a s1]|]; [|done]. eauto. Qed.

Section MapTrace.
Context (f : NodeId -> M C NodeId) (Q : NodeId -> NodeId -> Prop).
Hypothesis Hf : forall c s d s', f c s = Some (d, s') -> T s' -> T s /\ Q c d.

Lemma map_ranges_trace {X : Type} (cmp law_cmp : X -> X -> comparison) `{!RangeOps X, !RangeLaws law_cmp}
    edges parent mapped s out s' :
  map_ranges cmp f edges parent mapped s = Some (out, s') -> T s' ->
  T s /\ range_image law_cmp (fun c d => Q (node_negate c parent) d) edges mapped out.
Proof.
  revert mapped s. induction edges as [|[r c] edges IH]; intros mapped s E Ht; cbn in E.
  - injection E as <- <-. split; [done|]. split; [by left|by intros|]. intros v c E. discriminate E.
  - apply bind_Some_inv in E as (d & s1 & Ed & E). destruct (IH _ _ E Ht) as [Ht1 Him].
    destruct (Hf _ _ _ _ Ed Ht1) as [Ht0 HQ]. split; [done|]. by apply (range_image_cons cmp law_cmp _ r c d).
Qed.

Lemma edges_map_trace e parent s out s' :
  edges_map e parent f s = Some (out, s') -> T s' ->
  T s /\ forall sigma var c, edges_select sigma var e = [c] ->
    exists d, edges_select sigma var out = [d] /\ Q (node_negate c parent) d.
Proof.
  intros E Ht. destruct e as [edges|edges|high low]; cbn in E.
  - apply bind_Some_inv in E as (edges' & s1 & Ed & [= <- <-]).
    destruct (map_ranges_trace version_cmp version_cmp_slow _ _ _ _ _ _ Ed Ht) as [Ht0 [_ _ H3]].
    split; [done|]. intros sigma var c Hc. by apply H3.
  - apply bind_Some_inv in E as (edges' & s1 & Ed & [= <- <-]).
    destruct (map_ranges_trace string_cmp string_cmp _ _ _ _ _ _ Ed Ht) as [Ht0 [_ _ H3]].
    split; [done|]. intros sigma var c Hc. by apply H3.
  - apply bind_Some_inv in E as (dl & s1 & El & E). apply bind_Some_inv in E as (dh & s2 & Eh & [= <- <-]).
    destruct (Hf _ _ _ _ Eh Ht) as [Ht1 Qh]. destruct (Hf _ _ _ _ El Ht1) as [Ht0 Ql].
    split; [done|]. intros sigma var c [= <-]. cbn. destruct (bool_at sigma var); eauto.
Qed.
End MapTrace.

Section ApplyTrace.
Context (g : NodeId -> NodeId -> M C NodeId) (Q : NodeId -> NodeId -> Prop).
Hypothesis Hg : forall a b s d s', g a b s = Some (d, s') -> T s' -> T s /\ Q a b.

Lemma apply_right_trace {X : Type} (cmp law_cmp : X -> X -> comparison) `{!RangeOps X, !RangeLaws law_cmp}
    left_range left right parent combined s out s' :
  apply_right cmp g left_range left right parent combined s = Some (out, s') -> T s' ->
  T s /\ forall v b, range_at law_cmp left_range v = true -> b ∈ matching law_cmp v right -> Q left (node_negate b parent).
Proof.
  revert combined s. induction right as [|[r b] right IH]; intros combined s E Ht; cbn [apply_right] in E.
  - injection E as <- <-. split; [done|]. by intros v b _ ?%elem_of_nil.
  - destruct (range_is_empty (range_intersection r left_range)) eqn:Ee.
    + destruct (IH _ _ E Ht) as [Ht0 H]. split; [done|]. intros v b' Hv. rewrite matching_cons.
      destruct (range_at law_cmp r v) eqn:Er; [|by apply H]. exfalso.
      apply (empty_at law_cmp _ v) in Ee. rewrite (range_at_intersection (cmp := law_cmp)) in Ee.
      by rewrite Er, Hv in Ee.
    + apply bind_Some_inv in E as (d & s1 & Ed & E). destruct (IH _ _ E Ht) as [Ht1 H].
      destruct (Hg _ _ _ _ _ Ed Ht1) as [Ht0 HQ]. split; [done|]. intros v b' Hv. rewrite matching_cons.
      destruct (range_at law_cmp r v); [|by apply H]. intros [->|Hin]%elem_of_cons; [done|by apply (H v)].
Qed.

Lemma apply_ranges_trace {X : Type} (cmp law_cmp : X -> X -> comparison) `{!RangeOps X, !RangeLaws law_cmp}
    left left_parent right right_parent combined s out s' :
  apply_ranges cmp g left left_parent right right_parent combined s = Some (out, s') -> T s' ->
  T s /\ forall v a b, a ∈ matching law_cmp v left -> b ∈ matching law_cmp v right ->
    Q (node_negate a left_parent) (node_negate b right_parent).
Proof.
  revert combined s. induction left as [|[r a] left IH]; intros combined s E Ht; cbn [apply_ranges] in E.
  - injection E as <- <-. split; [done|]. by intros v a b ?%elem_of_nil.
  - apply bind_Some_inv in E as (middle & s1 & Em & E). destruct (IH _ _ E Ht) as [Ht1 H].
    destruct (apply_right_trace cmp law_cmp _ _ _ _ _ _ _ _ Em Ht1) as [Ht0 H0]. split; [done|].
    intros v a' b. rewrite matching_cons. destruct (range_at law_cmp r v) eqn:Er; [|apply H].
    intros [->|Hin]%elem_of_cons Hb; [by apply (H0 v)|by apply (H v)].
Qed.

Lemma edges_apply_trace e parent e' parent' s out s' :
  edges_apply e parent e' parent' g s = Some (out, s') -> T s' ->
  T s /\ forall sigma var a b, edges_select sigma var e = [a] -> edges_select sigma var e' = [b] ->
    Q (node_negate a parent) (node_negate b parent').
Proof.
  intros E Ht. destruct e as [l|l|high low], e' as [l'|l'|high' low']; try done; cbn in E.
  - apply bind_Some_inv in E as (edges' & s1 & Ed & [= <- <-]).
    destruct (apply_ranges_trace version_cmp version_cmp_slow _ _ _ _ _ _ _ _ Ed Ht) as [Ht0 H].
    split; [done|]. intros sigma var a b Ea Eb. apply (H (version_point sigma var)); cbn in *; rewrite ?Ea, ?Eb; set_solver.
  - apply bind_Some_inv in E as (edges' & s1 & Ed & [= <- <-]).
    destruct (apply_ranges_trace string_cmp string_cmp _ _ _ _ _ _ _ _ Ed Ht) as [Ht0 H].
    split; [done|]. intros sigma var a b Ea Eb. apply (H (string_point sigma var)); cbn in *; rewrite ?Ea, ?Eb; set_solver.
  - apply bind_Some_inv in E as (dh & s1 & Eh & E). apply bind_Some_inv in E as (dl & s2 & El & [= <- <-]).
    destruct (Hg _ _ _ _ _ El Ht) as [Ht1 Ql]. destruct (Hg _ _ _ _ _ Eh Ht1) as [Ht0 Qh].
    split; [done|]. intros sigma var a b [= <-] [= <-]. by destruct (bool_at sigma var).
Qed.
End ApplyTrace.
End Trace.
