(* ===== verification/Canonical.v ===== *)
(** * Markers: canonical references

    Markers are compared by their references. Two references of a well-formed table that have the
    same value at every point are the same reference: decisions are ordered, none is redundant,
    edges are merged, equal nodes are shared, and one of a node and its complement is stored. *)

From stdpp Require Import base countable list option numbers decidable strings gmap sorting.
From Stdlib Require Import ZArith Lia.
From S2P Require Import Prelude Ranges VersionTypes VersionSmall Version VersionOrder VersionCacheKey.
From S2P Require Import VersionParser VersionSpecifier MarkerTypes Interner EdgesOrder MarkerEval.
From S2P Require Import InternerFacts EdgesFacts.

Local Open Scope Z_scope.
Local Open Scope uv_scope.

(** ** The edge of a point *)

Section Partition.
Context {T : Type} `{!Inhabited T} (law : T -> T -> comparison) `{!OrdLaws law, !RangeOps T, !RangeLaws law}.
Context (good : T -> Prop).

Notation "p ≺ q" := (point_cmp law p q = Lt) (at level 70).

#[local] Existing Instance point_order.

(** A point has at most one edge of a chain. *)
Lemma chain_select edges p r c :
  chain law good edges -> (r, c) ∈ edges -> range_at law r p = true -> matching law p edges = [c].
Proof.
  intros Hc. induction edges as [|[r' c'] edges IH]; [by intros ?%elem_of_nil|].
  destruct (chain_head _ _ _ _ _ Hc) as (Hc' & _ & _ & Hb). rewrite (matching_cons law).
  assert (Hno : range_at law r' p = true -> covered law edges p = true -> False).
  { intros Hr Hcov. apply (point_irreflexive law p). by eapply (before_covered law); [exact Hb| |exact Hcov]. }
  intros [[= <- <-]|Hin]%elem_of_cons Hr.
  - rewrite Hr. f_equal. destruct (matching law p edges) as [|d l] eqn:El; [done|]. exfalso.
    destruct (matching_elem law p edges d) as (r' & Hin & Hr'); [rewrite El; by left|]. apply Hno; [done|].
    apply existsb_exists. exists (r', d). split; [by apply list_elem_of_In|done].
  - destruct (range_at law r' p) eqn:Er'; [|by apply IH]. exfalso. apply Hno; [done|].
    apply existsb_exists. exists (r, c). split; [by apply list_elem_of_In|done].
Qed.

(** And exactly one of a partition. *)
Lemma partition_select edges p :
  line_partition law good edges -> exists r c, (r, c) ∈ edges /\ range_at law r p = true /\ matching law p edges = [c].
Proof.
  intros [Hc Hcov]. specialize (Hcov p). apply existsb_exists in Hcov as ([r c] & Hin%list_elem_of_In & Hr).
  exists r, c. split_and!; [done..|]. by apply (chain_select edges p r c).
Qed.

(** Every child is selected at some point. *)
Lemma chain_child edges c : chain law good edges -> c ∈ edges.*2 -> exists p, matching law p edges = [c].
Proof.
  intros Hc ([r d] & -> & Hin)%list_elem_of_fmap. pose proof (chain_segments _ _ _ Hc) as Hs.
  rewrite Forall_forall in Hs. destruct (one_segment_point law _ (Hs _ Hin)) as [p Hp]. exists p. by apply (chain_select edges p r).
Qed.

(** ** Edges that select alike *)

(** A point of the first range of one chain is in the first range of the other. *)
Lemma same_first a b r c s d p :
  chain law good ((r, c) :: a) -> chain law good ((s, d) :: b) ->
  (forall p, matching law p ((r, c) :: a) = matching law p ((s, d) :: b)) ->
  range_at law r p = true -> range_at law s p = true.
Proof.
  intros Ha Hb Heq Hp. apply not_false_iff_true. intros Hsp.
  destruct (chain_head _ _ _ _ _ Ha) as (_ & Hr & _ & Hra). destruct (chain_head _ _ _ _ _ Hb) as (Hb' & Hs & _ & Hsb).
  assert (Hin : forall m, range_at law r m = true -> matching law m ((r, c) :: a) = [c])
    by (intros; apply (chain_select _ _ r); [done|by left|done]).
  destruct (one_segment_point law _ Hs) as [q Hq].
  assert (exists s2 d2 b2 m, b = (s2, d2) :: b2 /\ range_at law s2 m = true /\ q ≺ m /\ point_cmp law m p <> Gt)
    as (s2 & d2 & b2 & m & -> & Hm & Lqm & Lmp).
  { pose proof (Hin p Hp) as Ep. rewrite Heq, (matching_cons law), Hsp in Ep.
    destruct b as [|[s2 d2] b2]; [done|]. exists s2, d2, b2. apply Forall_cons in Hsb as [Hs2 Hsb].
    rewrite (matching_cons law) in Ep. destruct (range_at law s2 p) eqn:E2.
    - exists p. split_and!; [done..|by apply Hs2|]. by rewrite (cmp_refl (point_cmp law)).
    - destruct (chain_head _ _ _ _ _ Hb') as (_ & H2 & _ & H2b). destruct (one_segment_point law _ H2) as [m Hm].
      exists m. split_and!; [done..|by apply Hs2|]. destruct (matching_elem law p b2 c) as (s3 & Hin3 & Hp3); [rewrite Ep; by left|].
      rewrite Forall_forall in H2b. by rewrite (H2b _ Hin3 m p Hm Hp3). }
  assert (Lqp : point_cmp law q p <> Gt) by (eapply (cmp_le_trans (point_cmp law)); [by rewrite Lqm|done]).
  assert (Hrq : range_at law r q = true).
  { pose proof (chain_select _ q s d Hb (list_elem_of_here _ _) Hq) as Eq. rewrite <- Heq, (matching_cons law) in Eq.
    destruct (range_at law r q) eqn:E; [done|]. exfalso. destruct (matching_elem law q a d) as (r' & Hin' & Hq'); [rewrite Eq; by left|].
    rewrite Forall_forall in Hra. apply Lqp. rewrite (cmp_opp (point_cmp law) p q). by rewrite (Hra _ Hin' p q Hp Hq'). }
  assert (Hbetween : forall g, point_cmp law q g <> Gt -> point_cmp law g p <> Gt -> matching law g ((s, d) :: (s2, d2) :: b2) = [c]).
  { intros g H1 H2. rewrite <- Heq. apply Hin. by apply (one_segment_convex law r q p g). }
  assert (d = c) as ->.
  { pose proof (Hbetween q) as E. rewrite (chain_select _ q s d Hb (list_elem_of_here _ _) Hq) in E.
    rewrite (cmp_refl (point_cmp law)) in E. by injection (E ltac:(done) Lqp). }
  assert (d2 = c) as ->.
  { pose proof (Hbetween m) as E.
    rewrite (chain_select _ m s2 d2 Hb (list_elem_of_further _ _ _ (list_elem_of_here _ _)) Hm), Lqm in E.
    by injection (E ltac:(done) Lmp). }
  pose proof (chain_first _ _ _ _ Hb) as Hf. apply Forall_inv in Hf as [_ Hgap]. destruct (Hgap eq_refl) as (g & Hg1 & Hg2).
  cbn in Hg1, Hg2. pose proof (Hg1 q Hq) as Lqg. pose proof (Hg2 m Hm) as Lgm.
  assert (Eg : matching law g ((s, c) :: (s2, c) :: b2) = [c]).
  { apply Hbetween; [by rewrite Lqg|]. eapply (cmp_le_trans (point_cmp law)); [by rewrite Lgm|done]. }
  assert (Hcov : covered law ((s, c) :: (s2, c) :: b2) g = true).
  { destruct (matching_elem law g _ c ltac:(rewrite Eg; by left)) as (t & Ht & Hgt). apply existsb_exists.
    exists (t, c). split; [by apply list_elem_of_In|done]. }
  rewrite !covered_cons, !orb_true_iff in Hcov. destruct Hcov as [H|[H|H]].
  - by apply (point_irreflexive law g), Hg1.
  - by apply (point_irreflexive law g), Hg2.
  - destruct (chain_head _ _ _ _ _ Hb') as (_ & _ & _ & H2b). pose proof (before_covered law s2 b2 m g H2b Hm H) as Lmg.
    apply (point_irreflexive law g). by eapply (cmp_lt_trans (point_cmp law)).
Qed.

(** Chains that select the same child at every point are equal. *)
Lemma chain_unique a b :
  chain law good a -> chain law good b -> (forall p, matching law p a = matching law p b) -> range_edges_eq a b = true.
Proof.
  assert (Hnil : forall r c l, chain law good ((r, c) :: l) -> exists p, range_at law r p = true /\ matching law p ((r, c) :: l) = [c]).
  { intros r c l H. destruct (chain_head _ _ _ _ _ H) as (_ & Hr & _). destruct (one_segment_point law _ Hr) as [p Hp].
    exists p. split; [done|]. by apply (chain_select _ p r); [|left|]. }
  revert b. induction a as [|[r c] a IH]; intros [|[s d] b] Ha Hb Heq; [done| | |].
  - exfalso. destruct (Hnil _ _ _ Hb) as (p & _ & Hp). by rewrite <- Heq in Hp.
  - exfalso. destruct (Hnil _ _ _ Ha) as (p & _ & Hp). by rewrite Heq in Hp.
  - assert (Hrs : forall p, range_at law r p = range_at law s p).
    { intros p. apply eq_true_iff_eq. split; [by eapply same_first|]. eapply same_first; [exact Hb|exact Ha|done]. }
    cbn [range_edges_eq]. rewrite (proj2 (range_eq_at (cmp := law) r s) Hrs).
    destruct (Hnil _ _ _ Ha) as (p & Hp & Ep). assert (Hps := Hp). rewrite Hrs in Hps.
    rewrite Heq, (chain_select _ p s d Hb (list_elem_of_here _ _) Hps) in Ep. injection Ep as ->. rewrite Z.eqb_refl.
    apply IH; [by apply (chain_head law good r c)|by apply (chain_head law good s c)|]. intros q. specialize (Heq q).
    rewrite !(matching_cons law), <- Hrs in Heq. destruct (range_at law r q); [by injection Heq|done].
Qed.

(** The first edges of two partitions share a point. *)
Lemma first_point a b r c s d :
  line_partition law good ((r, c) :: a) -> line_partition law good ((s, d) :: b) ->
  exists p, matching law p ((r, c) :: a) = [c] /\ matching law p ((s, d) :: b) = [d].
Proof.
  assert (Hone : forall a b r c s d p q, line_partition law good ((r, c) :: a) -> line_partition law good ((s, d) :: b) ->
    range_at law r p = true -> range_at law s q = true -> point_cmp law p q <> Gt ->
    matching law p ((r, c) :: a) = [c] /\ matching law p ((s, d) :: b) = [d]).
  { clear a b r c s d. intros a b r c s d p q [Ha _] [Hb Hcov] Hp Hq Hle. split; [by apply (chain_select _ p r); [|left|]|].
    apply (chain_select _ p s); [done|by left|]. specialize (Hcov p). rewrite covered_cons in Hcov.
    apply orb_true_iff in Hcov as [?|Hcov]; [done|]. exfalso. destruct (chain_head _ _ _ _ _ Hb) as (_ & _ & _ & Hsb).
    apply Hle. rewrite (cmp_opp (point_cmp law) q p). by rewrite (before_covered law s b q p Hsb Hq Hcov). }
  intros Ha Hb. destruct (chain_head _ _ _ _ _ (partition_chain _ _ _ Ha)) as (_ & Hr & _).
  destruct (chain_head _ _ _ _ _ (partition_chain _ _ _ Hb)) as (_ & Hs & _).
  destruct (one_segment_point law _ Hr) as [p Hp], (one_segment_point law _ Hs) as [q Hq].
  destruct (point_order_cases law p q) as [Hlt|Hle].
  - exists p. apply (Hone a b r c s d p q); [done..|]. by rewrite Hlt.
  - exists q. destruct (Hone b a s d r c q p) as [H1 H2]; done.
Qed.
End Partition.

(** ** Valuations that differ in one variable *)

Definition version_valuation (p : Version * Z) : Valuation :=
  mkValuation (fun _ => p.1) (fun _ => []) (fun _ => false) (fun _ => p.2).
Definition string_valuation (p : list Z * Z) : Valuation :=
  mkValuation (fun _ => Small small_new) (fun _ => p.1) (fun _ => false) (fun _ => p.2).
Definition bool_valuation (b : bool) : Valuation :=
  mkValuation (fun _ => Small small_new) (fun _ => []) (fun _ => b) (fun _ => 0).

(** [sigma], with the value of [tau] for a variable. *)
Definition redirect (sigma tau : Valuation) (var : MarkerVariable) : Valuation :=
  let at_var {A : Type} (f : Valuation -> MarkerVariable -> A) v := f (if decide (v = var) then tau else sigma) v in
  mkValuation (at_var version_at) (at_var string_at) (at_var bool_at) (at_var offset_at).

Lemma redirect_here sigma tau var : agree_at (redirect sigma tau var) tau var.
Proof. unfold agree_at, redirect. cbn. by rewrite decide_True. Qed.

Lemma redirect_other sigma tau var v : v <> var -> agree_at (redirect sigma tau var) sigma v.
Proof. intros H. unfold agree_at, redirect. cbn. by rewrite decide_False. Qed.

Section Canonical.
Context {RV : RangeOps Version} {RS : RangeOps (list Z)}.
Context {LV : RangeLaws version_cmp_slow} {LS : RangeLaws string_cmp}.

Lemma negate_inj c d i : node_negate c i = node_negate d i -> c = d.
Proof. unfold node_negate. destruct (node_is_complement i); [apply node_not_inj|done]. Qed.

(** A child is selected by some valuation. *)
Lemma child_valuation table var e c : edges_ok table var e -> c ∈ edges_nodes e -> exists tau, edges_select tau var e = [c].
Proof.
  intros [_ _ _ _ K5] Hc. destruct e as [edges|edges|high low]; cbn in Hc, K5.
  - destruct (chain_child version_cmp_slow comparable edges c) as [p Hp]; [apply K5|done|].
    exists (version_valuation p). cbn. by destruct p.
  - destruct (chain_child string_cmp any_string edges c) as [p Hp]; [apply K5|done|].
    exists (string_valuation p). cbn. by destruct p.
  - assert (c = high \/ c = low) as [->| ->] by set_solver; [by exists (bool_valuation true)|by exists (bool_valuation false)].
Qed.

(** The first children of two decisions on a variable are selected together. *)
Lemma first_valuation table table' var e e' c d :
  edges_ok table var e -> edges_ok table' var e' -> head (edges_nodes e) = Some c -> head (edges_nodes e') = Some d ->
  exists tau, edges_select tau var e = [c] /\ edges_select tau var e' = [d].
Proof.
  intros [K1 _ _ _ K5] [J1 _ _ _ J5] Hc Hd.
  destruct e as [l|l|high low], e' as [l'|l'|high' low']; try (by destruct var); cbn in Hc, Hd, K5, J5.
  - destruct l as [|[r c'] l], l' as [|[s d'] l']; try done. injection Hc as ->. injection Hd as ->.
    destruct (first_point version_cmp_slow comparable _ _ _ _ _ _ K5 J5) as (p & H1 & H2).
    exists (version_valuation p). cbn. by destruct p.
  - destruct l as [|[r c'] l], l' as [|[s d'] l']; try done. injection Hc as ->. injection Hd as ->.
    destruct (first_point string_cmp any_string _ _ _ _ _ _ K5 J5) as (p & H1 & H2).
    exists (string_valuation p). cbn. by destruct p.
  - injection Hc as ->. injection Hd as ->. by exists (bool_valuation true).
Qed.

(** Decisions that select alike have equal edges. *)
Lemma select_edges_eq table table' var e e' :
  edges_ok table var e -> edges_ok table' var e' ->
  (forall tau, edges_select tau var e = edges_select tau var e') -> edges_eq e e' = true.
Proof.
  intros [K1 _ _ _ K5] [J1 _ _ _ J5] Heq.
  destruct e as [l|l|high low], e' as [l'|l'|high' low']; try (by destruct var); cbn in K5, J5 |- *.
  - apply (chain_unique version_cmp_slow comparable); [apply K5|apply J5|]. intros p.
    specialize (Heq (version_valuation p)). cbn in Heq. by destruct p.
  - apply (chain_unique string_cmp any_string); [apply K5|apply J5|]. intros p.
    specialize (Heq (string_valuation p)). cbn in Heq. by destruct p.
  - pose proof (Heq (bool_valuation true)) as E. pose proof (Heq (bool_valuation false)) as E'. cbn in E, E'.
    injection E as ->. injection E' as ->. by rewrite !Z.eqb_refl.
Qed.

Context (table : list Node) (Hok : table_ok table).

(** Later nodes do not see the change. *)
Lemma redirect_before sigma tau var i :
  node_valid table i -> before table var i -> eval table (redirect sigma tau var) i = eval table sigma i.
Proof.
  intros Hi Hb. apply eval_agree; [done..|]. eapply all_vars_weaken; [|by apply before_all_vars].
  intros v Hlt. cbn in Hlt. apply redirect_other. intros ->. by rewrite (cmp_refl variable_cmp) in Hlt.
Qed.

Lemma redirect_node sigma tau i node c :
  node_at table i = Some node -> edges_select tau (node_var node) (node_children node) = [c] ->
  eval table (redirect sigma tau (node_var node)) i = eval table sigma (node_negate c i).
Proof.
  intros En Ec. destruct (eval_node table (redirect sigma tau (node_var node)) i node Hok En) as (c' & Ec' & Hc & ->).
  rewrite (agree_select _ tau) in Ec' by apply redirect_here. rewrite Ec in Ec'. injection Ec' as <-.
  pose proof (node_at_ok _ _ _ Hok En) as [_ _ K3 K4]. apply redirect_before; [by apply negate_valid, K3|].
  apply before_negate; [by apply K3|by apply K4].
Qed.

(** The stored nodes are not redundant. *)
Lemma two_children i node :
  node_at table i = Some node -> exists c d, c ∈ edges_nodes (node_children node) /\ d ∈ edges_nodes (node_children node) /\ c <> d.
Proof.
  intros En. apply node_at_lookup in En as (_ & _ & E). destruct (ok_first _ _ (ok_node _ Hok _ _ E)) as (first & Hf & _ & Hall).
  assert (Hin : first ∈ edges_nodes (node_children node)) by (apply head_Some in Hf as [l ->]; by left).
  destruct (decide (Forall (fun c => c = first) (edges_nodes (node_children node)))) as [Ha|Hn].
  - exfalso. apply not_true_iff_false in Hall. apply Hall, forallb_forall. intros c Hc%list_elem_of_In.
    rewrite Forall_forall in Ha. apply Z.eqb_eq. by apply Ha.
  - apply not_Forall_Exists in Hn; [|intros c; apply _]. apply Exists_exists in Hn as (c & Hc & Hne). by exists c, first.
Qed.

(** References below a bound are canonical. *)
Definition canonical_below (n : nat) : Prop :=
  forall x y, node_valid table x -> node_valid table y -> (node_rank x + node_rank y < n)%nat ->
    (forall sigma, eval table sigma x = eval table sigma y) -> x = y.

(** A node does not have the values of a reference with later variables. *)
Lemma not_constant i node j :
  canonical_below (node_rank i + node_rank j) -> node_at table i = Some node -> node_valid table j ->
  before table (node_var node) j -> (forall sigma, eval table sigma i = eval table sigma j) -> False.
Proof.
  intros IH En Hj Hb Heq. pose proof (node_at_ok _ _ _ Hok En) as Hedges.
  assert (Hc : forall c, c ∈ edges_nodes (node_children node) -> node_negate c i = j).
  { intros c Hc. destruct (child_valuation _ _ _ _ Hedges Hc) as [tau Et]. pose proof (child_rank _ _ _ _ Hok En Hc).
    apply IH; [by apply negate_valid, (ok_valid _ _ _ Hedges)|done|lia|]. intros sigma.
    rewrite <- (redirect_node sigma tau i node c En Et), Heq. by apply redirect_before. }
  destruct (two_children i node En) as (c & d & H1 & H2 & Hne). apply Hne, (negate_inj c d i). by rewrite !Hc.
Qed.

Lemma negate_complement c i : node_is_complement c = false -> node_is_complement (node_negate c i) = node_is_complement i.
Proof. intros H. unfold node_negate. destruct (node_is_complement i) eqn:E; [by rewrite node_not_complement, H|done]. Qed.

(** A reference to a node is its position and its sign. *)
Lemma node_reference i : 2 <= i -> i = node_new (node_index i) (node_is_complement i).
Proof.
  intros H. rewrite node_new_value, node_index_value, node_is_complement_value.
  pose proof (Z.div_mod i 2 ltac:(lia)) as Hd. rewrite (Zmod_odd i) in Hd.
  assert (1 <= i / 2) by (apply Z.div_le_lower_bound; lia). rewrite Z2Nat.id by lia. destruct (Z.odd i); lia.
Qed.

(** Decisions on the same variable. *)
Lemma same_decision i j x y :
  canonical_below (node_rank i + node_rank j) -> node_valid table i -> node_valid table j ->
  node_at table i = Some x -> node_at table j = Some y -> node_var x = node_var y ->
  (forall sigma, eval table sigma i = eval table sigma j) -> i = j.
Proof.
  intros IH Hi Hj Ex Ey Hv Heq. pose proof (node_at_ok _ _ _ Hok Ex) as Kx. pose proof (node_at_ok _ _ _ Hok Ey) as Ky.
  rewrite <- Hv in Ky.
  assert (Hsel : forall tau c d, edges_select tau (node_var x) (node_children x) = [c] ->
    edges_select tau (node_var x) (node_children y) = [d] -> node_negate c i = node_negate d j).
  { intros tau c d Ec Ed. assert (Hc : c ∈ edges_nodes (node_children x)) by (apply (select_elem tau (node_var x)); rewrite Ec; by left).
    assert (Hd : d ∈ edges_nodes (node_children y)) by (apply (select_elem tau (node_var x)); rewrite Ed; by left).
    pose proof (child_rank _ _ _ _ Hok Ex Hc). pose proof (child_rank _ _ _ _ Hok Ey Hd).
    apply IH; [by apply negate_valid, (ok_valid _ _ _ Kx)|by apply negate_valid, (ok_valid _ _ _ Ky)|lia|]. intros sigma.
    rewrite <- (redirect_node sigma tau i x c Ex Ec), Heq, Hv. rewrite Hv in Ed. by apply redirect_node. }
  destruct (node_at_lookup _ _ _ Ex) as (Ti & Fi & Lx), (node_at_lookup _ _ _ Ey) as (Tj & Fj & Ly).
  destruct (ok_first _ _ (ok_node _ Hok _ _ Lx)) as (f & Hf & Cf & _), (ok_first _ _ (ok_node _ Hok _ _ Ly)) as (g & Hg & Cg & _).
  assert (Hcomp : node_is_complement i = node_is_complement j).
  { destruct (first_valuation _ _ _ _ _ f g Kx Ky Hf Hg) as (tau & Ef & Eg).
    rewrite <- (negate_complement f i Cf), <- (negate_complement g j Cg). by rewrite (Hsel tau f g). }
  assert (Hnode : node_eq x y = true).
  { unfold node_eq. rewrite bool_decide_eq_true_2 by done. apply (select_edges_eq _ _ _ _ _ Kx Ky). intros tau.
    destruct (ok_total _ _ _ Kx tau) as [c Ec], (ok_total _ _ _ Ky tau) as [d Ed]. rewrite Ec, Ed. f_equal.
    pose proof (Hsel tau c d Ec Ed) as E. apply (negate_inj c d i). rewrite E. unfold node_negate. by rewrite Hcomp. }
  assert (Hindex : node_index i = node_index j).
  { destruct (Nat.lt_trichotomy (node_index i) (node_index j)) as [Hlt|[?|Hlt]]; [|done|]; exfalso.
    - by rewrite (ok_unique _ Hok _ _ _ _ Hlt Lx Ly) in Hnode.
    - assert (Hnode' : node_eq y x = true).
      { unfold node_eq. rewrite bool_decide_eq_true_2 by done. apply (select_edges_eq _ _ _ _ _ Ky Kx). intros tau.
        destruct (node_eq_select x y tau Hnode) as (_ & _ & E). by rewrite E, Hv. }
      by rewrite (ok_unique _ Hok _ _ _ _ Hlt Ly Lx) in Hnode'. }
  destruct (node_cases i (proj1 Hi)) as [->|[->|(_ & _ & Li)]]; [done..|].
  destruct (node_cases j (proj1 Hj)) as [->|[->|(_ & _ & Lj)]]; [done..|].
  by rewrite (node_reference i Li), (node_reference j Lj), Hindex, Hcomp.
Qed.

(** References with the same values are the same. *)
Lemma canonical x y :
  node_valid table x -> node_valid table y -> (forall sigma, eval table sigma x = eval table sigma y) -> x = y.
Proof.
  enough (H : forall n, canonical_below n) by (intros; by apply (H (S (node_rank x + node_rank y))); [..|lia|]).
  induction n as [n IHn] using lt_wf_ind. intros i j Hi Hj Hn Heq. specialize (IHn _ Hn).
  assert (IHn' : canonical_below (node_rank j + node_rank i)) by by rewrite Nat.add_comm.
  destruct (node_at table i) as [a|] eqn:Ea, (node_at table j) as [b|] eqn:Eb.
  - destruct (variable_cmp (node_var a) (node_var b)) eqn:E.
    + apply (cmp_exact variable_cmp) in E. by apply (same_decision i j a b).
    + exfalso. apply (not_constant i a j); [done..| |done]. intros n'. rewrite Eb. by intros [= <-].
    + exfalso. apply (not_constant j b i); [done..| |done]. intros n'. rewrite Ea. intros [= <-]. by apply (cmp_gt_lt variable_cmp).
  - exfalso. apply (not_constant i a j); [done..| |done]. intros n'. by rewrite Eb.
  - exfalso. apply (not_constant j b i); [done..| |done]. intros n'. by rewrite Ea.
  - assert (Hterm : forall k, node_valid table k -> node_at table k = None -> k = NODE_TRUE \/ k = NODE_FALSE).
    { intros k Hk E. destruct (node_cases k (proj1 Hk)) as [?|[?|(Tk & Fk & _)]]; [by left|by right|].
      destruct (node_valid_at _ _ Hk Tk Fk) as (n' & En & _). congruence. }
    specialize (Heq inhabitant).
    destruct (Hterm i Hi Ea) as [->| ->], (Hterm j Hj Eb) as [->| ->]; done.
Qed.

Lemma canonical_true x : node_valid table x -> (forall sigma, eval table sigma x = true) -> x = NODE_TRUE.
Proof. intros Hx H. apply canonical; [done|apply true_valid|done]. Qed.

Lemma canonical_false x : node_valid table x -> (forall sigma, eval table sigma x = false) -> x = NODE_FALSE.
Proof. intros Hx H. apply canonical; [done|apply false_valid|done]. Qed.
End Canonical.
