(* ===== verification/AlgebraFacts.v ===== *)
(** * Markers: the algebra, verified

    Conjunction, disjunction, the known exclusions and disjointness: their results have the value
    of the connective for every valuation that an environment can have, and the table of nodes
    stays well-formed. *)

From stdpp Require Import base countable list option numbers decidable strings gmap.
From Stdlib Require Import ZArith Lia.
From S2P Require Import Prelude Ranges VersionTypes VersionSmall Version VersionOrder.
From S2P Require Import VersionParser VersionSpecifier MarkerTypes Interner MarkerAlgebra.
From S2P Require Import MarkerEval InternerFacts EdgesFacts.

Local Open Scope Z_scope.
Local Open Scope uv_scope.

Section Algebra.
Context {RV : RangeOps Version} {RS : RangeOps (list Z)}.
Context {LV : RangeLaws version_cmp_slow} {LS : RangeLaws string_cmp}.

(** A conjunction of nodes of the table. *)
Definition and_of (A : Valuation -> Prop) (x y r : NodeId) (table : list Node) : Prop :=
  node_valid table x /\ node_valid table y /\ is_and A table x y r.

Lemma and_of_stable A x y r : stable (and_of A x y r).
Proof.
  intros table table' Hok Hok' Hp (Hx & Hy & Hr). split_and!; [by eapply valid_extend..|].
  by apply (is_and_extend A table).
Qed.

Lemma and_of_comm A x y r table : and_of A x y r table -> and_of A y x r table.
Proof. intros (Hx & Hy & Hr). split_and!; [done..|]. by apply is_and_comm. Qed.

(** The cases that need no expansion. *)
Lemma and_trivial_some A table x y r :
  table_ok table -> node_valid table x -> node_valid table y -> and_trivial x y = Some r ->
  and_of A x y r table.
Proof.
  intros Hok Hx Hy. unfold and_trivial.
  destruct (node_is_true x) eqn:Tx; [apply node_is_true_spec in Tx as ->; intros [= <-]; by split_and!|].
  destruct (node_is_true y) eqn:Ty.
  { apply node_is_true_spec in Ty as ->. intros [= <-]. split_and!; [done..|].
    split; [done|intros; by rewrite eval_true, andb_true_r|done]. }
  destruct (Z.eqb_spec x y) as [<-|]; [intros [= <-]; split_and!; [done..|]; split; [done| |done];
    intros; symmetry; apply andb_diag|].
  destruct (node_is_false x || node_is_false y) eqn:F.
  { intros [= <-]. split_and!; [done..|]. split; [apply false_valid| |intros; by apply all_vars_true; right].
    intros sigma _. apply orb_true_iff in F as [->%node_is_false_spec| ->%node_is_false_spec];
      rewrite !eval_false; [done|by rewrite andb_false_r]. }
  destruct (Z.eqb_spec (node_not x) y) as [<-|]; [|done]. intros [= <-]. split_and!; [done..|].
  split; [apply false_valid| |intros; by apply all_vars_true; right].
  intros sigma _. by rewrite eval_false, eval_not, andb_negb_r.
Qed.

Lemma and_trivial_none x y :
  and_trivial x y = None ->
  node_is_true x = false /\ node_is_false x = false /\ node_is_true y = false /\ node_is_false y = false.
Proof.
  unfold and_trivial. destruct (node_is_true x), (node_is_true y), (x =? y); try done.
  by destruct (node_is_false x), (node_is_false y).
Qed.

Lemma and_before A table x y r :
  table_ok table -> node_valid table x -> node_valid table y -> is_and A table x y r ->
  forall var, before table var x -> before table var y -> before table var r.
Proof.
  intros Hok Hx Hy [H1 _ H3] var. rewrite !before_all_vars by done. apply H3.
Qed.

(** ** Shannon expansion *)

Section Expand.
Context {C : Type} (L : C -> list Node -> Prop) {HL : LocalInvariant L}.
Context (A : Valuation -> Prop) (conj : NodeId -> NodeId -> M C NodeId).

(** The operation is a conjunction for smaller operands. *)
Definition conj_below (bound : nat) : Prop :=
  forall a b s, state_ok L s -> node_valid (nodes s.1) a -> node_valid (nodes s.1) b ->
    (node_rank a + node_rank b < bound)%nat -> runs L (conj a b) s (and_of A a b).

(** A decision on the variable of [x], whose children are conjunctions with [y]. *)
Lemma map_is_and table xi x yi y out r :
  table_ok table -> node_valid table xi -> node_valid table yi ->
  node_at table xi = Some x -> node_at table yi = Some y ->
  variable_cmp (node_var x) (node_var y) = Lt ->
  edges_image (fun c d => and_of A (node_negate c xi) yi d table) (node_var x) (node_children x) out ->
  edges_ok table (node_var x) out /\ (decides table (node_var x) out r -> and_of A xi yi r table).
Proof.
  intros Hok Hx Hy Ex Ey Hlt [H1 H2 H3 H4]. pose proof (node_at_ok _ _ _ Hok Ex) as [K1 K2 K3 K4 K5].
  assert (Hby : before table (node_var x) yi) by (intros n; rewrite Ey; by intros [= <-]).
  split.
  - split; [done| | | |by apply H4].
    + intros sigma. destruct (K2 sigma) as [c Ec]. destruct (H3 _ _ Ec) as (d & Ed & _). by exists d.
    + intros d (c & Hc & _ & _ & Hd)%H2. apply Hd.
    + intros d (c & Hc & Hvc & _ & Hd)%H2. apply (and_before _ _ _ _ _ Hok Hvc Hy Hd); [|done].
      apply before_negate; [by apply K3|by apply K4].
  - intros [D1 D2 D3]. split_and!; [done..|]. split; [done| |].
    + intros sigma Hs. destruct (eval_node table sigma xi x Hok Ex) as (c & Ec & Hc & ->).
      destruct (H3 _ _ Ec) as (d & Ed & _ & _ & Hd). rewrite (D2 _ _ Ed). by apply (and_eval _ _ _ _ _ Hd).
    + intros P Hvx Hvy. apply D3; [by apply (all_vars_top _ _ _ _ Ex Hvx)|]. intros d (c & Hc & _ & _ & Hd)%H2.
      apply (and_vars _ _ _ _ _ Hd); [|done]. apply all_vars_negate; [by apply K3|].
      by apply (all_vars_child _ _ _ _ _ Ex Hvx).
Qed.

(** A decision on the variable of both. *)
Lemma apply_is_and table xi x yi y out r :
  table_ok table -> node_valid table xi -> node_valid table yi ->
  node_at table xi = Some x -> node_at table yi = Some y -> node_var x = node_var y ->
  edges_product (fun a b d => and_of A (node_negate a xi) (node_negate b yi) d table)
    (node_var x) (node_children x) (node_children y) out ->
  edges_ok table (node_var x) out /\ (decides table (node_var x) out r -> and_of A xi yi r table).
Proof.
  intros Hok Hx Hy Ex Ey Hv [H1 H2 H3 H4].
  pose proof (node_at_ok _ _ _ Hok Ex) as [K1 K2 K3 K4 K5]. pose proof (node_at_ok _ _ _ Hok Ey) as [J1 J2 J3 J4 J5].
  rewrite <- Hv in *. split.
  - split; [done| | | |by apply H4].
    + intros sigma. destruct (K2 sigma) as [a Ea], (J2 sigma) as [b Eb].
      destruct (H3 _ _ _ Ea Eb) as (d & Ed & _). by exists d.
    + intros d (a & b & _ & _ & _ & _ & Hd)%H2. apply Hd.
    + intros d (a & b & Ha & Hb & Hva & Hvb & Hd)%H2.
      apply (and_before _ _ _ _ _ Hok Hva Hvb Hd); apply before_negate;
        [by apply K3|by apply K4|by apply J3|by apply J4].
  - intros [D1 D2 D3]. split_and!; [done..|]. split; [done| |].
    + intros sigma Hs. destruct (eval_node table sigma xi x Hok Ex) as (a & Ea & Ha & ->).
      destruct (eval_node table sigma yi y Hok Ey) as (b & Eb & Hb & ->). rewrite <- Hv in Eb.
      destruct (H3 _ _ _ Ea Eb) as (d & Ed & _ & _ & Hd). rewrite (D2 _ _ Ed).
      by apply (and_eval _ _ _ _ _ Hd).
    + intros P Hvx Hvy. apply D3; [by apply (all_vars_top _ _ _ _ Ex Hvx)|].
      intros d (a & b & Ha & Hb & _ & _ & Hd)%H2. apply (and_vars _ _ _ _ _ Hd); apply all_vars_negate;
        [by apply K3|by apply (all_vars_child _ _ _ _ _ Ex Hvx)|
         by apply J3|by apply (all_vars_child _ _ _ _ _ Ey Hvy)].
Qed.

(** The children of a node, as operands. *)
Lemma child_operand s s' i node c :
  state_ok L s -> state_ok L s' -> nodes s.1 `prefix_of` nodes s'.1 ->
  node_at (nodes s.1) i = Some node -> c ∈ edges_nodes (node_children node) ->
  node_valid (nodes s'.1) (node_negate c i) /\ (node_rank (node_negate c i) < node_rank i)%nat.
Proof.
  intros Hs Hs' Hp Hn Hc. pose proof (ok_table _ (proj1 Hs)) as Hok. split.
  - apply negate_valid. eapply valid_extend; [done|].
    by apply (ok_valid _ _ _ (node_at_ok _ _ _ Hok Hn)).
  - by eapply child_rank.
Qed.

Lemma expand_map_runs xi x yi y s :
  state_ok L s -> node_valid (nodes s.1) xi -> node_valid (nodes s.1) yi ->
  node_at (nodes s.1) xi = Some x -> node_at (nodes s.1) yi = Some y ->
  variable_cmp (node_var x) (node_var y) = Lt -> conj_below (node_rank xi + node_rank yi) ->
  runs L (let! children := edges_map (node_children x) xi (fun node => conj node yi) in
          create_node (node_var x) children) s (and_of A xi yi).
Proof.
  intros Hs Hx Hy Ex Ey Hlt Hconj. pose proof (ok_table _ (proj1 Hs)) as Hok.
  assert (HR : forall c d, stable (and_of A (node_negate c xi) yi d)) by (intros; apply and_of_stable).
  eapply runs_bind.
  - apply (edges_map_runs L _ (fun c d => and_of A (node_negate c xi) yi d) xi (node_var x)); [done..| |].
    + apply (ok_kind _ _ _ (node_at_ok _ _ _ Hok Ex)).
    + intros c s' Hc Hs' Hp. destruct (child_operand s s' xi x c) as [Hv Hr]; [done..|].
      apply Hconj; [done..|extend|lia].
  - intros out s' Hs' Hp Him. pose proof (ok_table _ (proj1 Hs')) as Hok'.
    eapply runs_weaken.
    + apply (create_node_runs L); [done|].
      apply (map_is_and _ xi x yi y out NODE_TRUE); [done|extend..|done|done].
    + intros r table Ht Hp' Hd. apply (map_is_and table xi x yi y out); [done|extend..|done| |done].
      by apply (edges_image_stable _ _ _ _ HR (nodes s'.1)).
Qed.

Lemma expand_apply_runs xi x yi y s :
  state_ok L s -> node_valid (nodes s.1) xi -> node_valid (nodes s.1) yi ->
  node_at (nodes s.1) xi = Some x -> node_at (nodes s.1) yi = Some y ->
  node_var x = node_var y -> conj_below (node_rank xi + node_rank yi) ->
  runs L (let! children := edges_apply (node_children x) xi (node_children y) yi conj in
          create_node (node_var x) children) s (and_of A xi yi).
Proof.
  intros Hs Hx Hy Ex Ey Hv Hconj. pose proof (ok_table _ (proj1 Hs)) as Hok.
  assert (HR : forall a b d, stable (and_of A (node_negate a xi) (node_negate b yi) d))
    by (intros; apply and_of_stable).
  eapply runs_bind.
  - apply (edges_apply_runs L _ (fun a b d => and_of A (node_negate a xi) (node_negate b yi) d) xi yi (node_var x));
      [done..| | |].
    + apply (ok_kind _ _ _ (node_at_ok _ _ _ Hok Ex)).
    + rewrite Hv. apply (ok_kind _ _ _ (node_at_ok _ _ _ Hok Ey)).
    + intros a b s' Ha Hb Hs' Hp. destruct (child_operand s s' xi x a) as [Hva Hra]; [done..|].
      destruct (child_operand s s' yi y b) as [Hvb Hrb]; [done..|]. apply Hconj; [done..|lia].
  - intros out s' Hs' Hp Him. pose proof (ok_table _ (proj1 Hs')) as Hok'.
    eapply runs_weaken.
    + apply (create_node_runs L); [done|].
      apply (apply_is_and _ xi x yi y out NODE_TRUE); [done|extend..|done|done].
    + intros r table Ht Hp' Hd. apply (apply_is_and table xi x yi y out); [done|extend..|done| |done].
      by apply (edges_product_stable _ _ _ _ _ HR (nodes s'.1)).
Qed.

(** Conjunction of smaller operands gives conjunction. *)
Lemma expand_runs xi yi s :
  state_ok L s -> node_valid (nodes s.1) xi -> node_valid (nodes s.1) yi ->
  node_is_true xi = false -> node_is_false xi = false ->
  node_is_true yi = false -> node_is_false yi = false ->
  conj_below (node_rank xi + node_rank yi) -> runs L (expand conj xi yi) s (and_of A xi yi).
Proof.
  intros Hs Hx Hy Tx Fx Ty Fy Hconj. destruct (node_valid_at _ _ Hx Tx Fx) as (x & Ex & _).
  destruct (node_valid_at _ _ Hy Ty Fy) as (y & Ey & _).
  unfold expand. apply (runs_get_node L _ x), (runs_get_node L _ y); [done..|].
  destruct (variable_cmp (node_var x) (node_var y)) eqn:E.
  - apply (cmp_exact variable_cmp) in E. by apply expand_apply_runs.
  - by apply (expand_map_runs xi x yi y).
  - destruct (expand_map_runs yi y xi x s) as (r & s' & Er & Hs' & Hp & Hr); [done..| | |].
    + by apply (cmp_gt_lt variable_cmp).
    + by rewrite Nat.add_comm.
    + exists r, s'. split_and!; [done..|]. by apply and_of_comm.
Qed.
End Expand.

(** ** The conjunction of exclusions *)

(** The cache of that conjunction. *)
Definition memo_ok (memo : gmap (Z * Z) Z) (table : list Node) : Prop :=
  forall x y r, memo !! (x, y) = Some r -> and_of (fun _ => True) x y r table.

#[export] Instance memo_local : LocalInvariant memo_ok.
Proof. intros memo table table' Hok Hok' Hp Hm x y r E%Hm. by apply (and_of_stable _ _ _ _ table). Qed.

Lemma memo_insert memo table x y r :
  memo_ok memo table -> and_of (fun _ => True) x y r table -> memo_ok (<[(x, y) := r]> memo) table.
Proof.
  intros Hm Hr a b c. destruct (decide ((x, y) = (a, b))) as [[= -> ->]|Hne].
  - rewrite lookup_insert_eq. by intros [= <-].
  - rewrite lookup_insert_ne by done. apply Hm.
Qed.

Lemma conjunction_unfold fuel xi yi :
  conjunction fuel xi yi =
    match and_trivial xi yi with
    | Some r => ret r
    | None =>
        let! memo := get_local in
        match memo !! (xi, yi) with
        | Some result => ret result
        | None =>
            match fuel with
            | O => panic
            | S fuel =>
                let! node := expand (conjunction fuel) xi yi in
                let! memo := get_local in
                set_local (<[(xi, yi) := node]> memo) ;;
                ret node
            end
        end
    end.
Proof.
  unfold and_trivial. destruct fuel; cbn [conjunction];
    by destruct (node_is_true xi), (node_is_true yi), (xi =? yi), (node_is_false xi || node_is_false yi),
      (node_not xi =? yi).
Qed.

Lemma conjunction_runs fuel xi yi s :
  state_ok memo_ok s -> node_valid (nodes s.1) xi -> node_valid (nodes s.1) yi ->
  (node_rank xi + node_rank yi <= fuel)%nat ->
  runs memo_ok (conjunction fuel xi yi) s (and_of (fun _ => True) xi yi).
Proof.
  revert xi yi s. induction fuel as [|fuel IH]; intros xi yi s Hs Hx Hy Hf; rewrite conjunction_unfold;
    (destruct (and_trivial xi yi) as [r|] eqn:Et;
     [apply runs_ret; [done|]; apply and_trivial_some; [apply Hs|done..]|]);
    apply and_trivial_none in Et as (Tx & Fx & Ty & Fy).
  { destruct (node_valid_at _ _ Hx Tx Fx) as (_ & _ & Er & _). lia. }
  unfold runs, bind at 1, get_local. cbn.
  destruct (s.2 !! (xi, yi)) as [r|] eqn:Em; [apply runs_ret; [done|]; by apply (proj2 Hs)|].
  eapply (runs_bind memo_ok).
  - apply (expand_runs memo_ok (fun _ => True)); [done..|]. intros a b s' Hs' Ha Hb Hr. apply IH; [done..|lia].
  - intros r s' [Hok Hm] Hp Hr. exists r, (s'.1, <[(xi, yi) := r]> s'.2). split_and!; [done| |done..].
    split; [done|]. by apply memo_insert.
Qed.

Lemma conjunction_nodes_runs xi yi s :
  state_ok memo_ok s -> node_valid (nodes s.1) xi -> node_valid (nodes s.1) yi ->
  runs memo_ok (conjunction_nodes xi yi) s (and_of (fun _ => True) xi yi).
Proof. intros. by apply conjunction_runs. Qed.

(** A disjunction, for the valuations [A]. *)
Record is_or (A : Valuation -> Prop) (table : list Node) (x y r : NodeId) : Prop := {
  or_valid : node_valid table r;
  or_eval : forall sigma, A sigma -> eval table sigma r = eval table sigma x || eval table sigma y;
  or_vars : forall P, all_vars table P x -> all_vars table P y -> all_vars table P r
}.

Lemma and_of_or A table x y r :
  table_ok table -> node_valid table x -> node_valid table y ->
  and_of A (node_not x) (node_not y) r table -> is_or A table x y (node_not r).
Proof.
  intros Hok Hx Hy (Hnx & Hny & [H1 H2 H3]). split.
  - by apply not_valid.
  - intros sigma Hs. rewrite eval_not, (H2 _ Hs), !eval_not by done. by rewrite negb_andb, !negb_involutive.
  - intros P Hbx Hby. apply all_vars_not; [apply H1|]. apply H3; (apply all_vars_not; [|done]); [apply Hx|apply Hy].
Qed.

Lemma disjunction_runs xi yi s :
  state_ok memo_ok s -> node_valid (nodes s.1) xi -> node_valid (nodes s.1) yi ->
  runs memo_ok (disjunction xi yi) s (fun r table => is_or (fun _ => True) table xi yi r).
Proof.
  intros Hs Hx Hy. unfold disjunction. eapply (runs_bind memo_ok).
  - apply conjunction_nodes_runs; [done|by apply not_valid..].
  - intros r s' Hs' Hp Hr. apply runs_ret; [done|]. apply and_of_or; [apply Hs'|extend..|done].
Qed.
End Algebra.
