(* ===== verification/ExclusionFacts.v ===== *)
(** * Markers: expressions on strings and the exclusions, verified

    The node of a range of strings or versions, and the formula of the known exclusions. *)

From stdpp Require Import base countable list option numbers decidable strings gmap.
From Stdlib Require Import ZArith Lia.
From S2P Require Import Prelude Ranges VersionTypes VersionSmall Version VersionOrder VersionParser.
From S2P Require Import VersionCacheKey VersionSpecifier MarkerTypes Interner EdgesOrder MarkerAlgebra MarkerEval.
From S2P Require Import InternerFacts EdgesFacts AlgebraFacts.

Local Open Scope Z_scope.
Local Open Scope uv_scope.

(** ** Edges of a range *)

Section FromRange.
Context {T : Type} `{!Inhabited T} (cmp law_cmp : T -> T -> comparison) `{!OrdLaws law_cmp, !RangeOps T, !RangeLaws law_cmp}.

Lemma matching_perm (p : T * Z) a b : a ≡ₚ b -> matching law_cmp p a ≡ₚ matching law_cmp p b.
Proof.
  unfold matching. intros H. apply fmap_Permutation. induction H as [|[r c] a b H IH|[r c] [s d] a|a b d _ IH1 _ IH2]; cbn.
  - done.
  - destruct (range_at law_cmp r p); [by constructor|done].
  - destruct (range_at law_cmp r p), (range_at law_cmp s p); try done. constructor.
  - by etransitivity.
Qed.

(** The edges of the segments of a range, to one child. *)
Lemma segments_matching (r : range T) node p :
  matching law_cmp p ((fun s => (range_from_bounds s.1 s.2, node)) <$> range_iter r) =
    if range_at law_cmp r p then [node] else [].
Proof.
  assert (E : forall s, s ∈ range_iter r -> range_at law_cmp (range_from_bounds s.1 s.2) p = point_in law_cmp p s).
  { intros s Hs. rewrite (one_segment_at law_cmp _ s.1 s.2); [by destruct s|].
    rewrite (from_bounds_iter law_cmp s r Hs). by destruct s. }
  unfold range_at at 1. pose proof (range_iter_separated (cmp := law_cmp) r) as Hsep.
  induction Hsep as [|s l _ IH Hl]; [done|]. cbn [fmap list_fmap existsb]. rewrite (matching_cons law_cmp), E by (by left).
  destruct (point_in law_cmp p s) eqn:Es; [|apply IH; intros; apply E; by right]. cbn [orb]. f_equal.
  rewrite IH by (intros; apply E; by right). destruct (existsb _ l) eqn:El; [|done]. exfalso.
  apply existsb_exists in El as (t & Ht%list_elem_of_In & Hp). rewrite Forall_forall in Hl.
  pose proof (separated_disjoint law_cmp s t p (Hl t Ht)) as Hd. by rewrite Es, Hp in Hd.
Qed.

Lemma from_range_matching (r : range T) p :
  matching law_cmp p (from_range cmp r) = [if range_at law_cmp r p then NODE_TRUE else NODE_FALSE].
Proof.
  apply Permutation_singleton_r. unfold from_range. rewrite (matching_perm p _ _ (sort_by_perm _ _)).
  rewrite (matching_app law_cmp), !segments_matching, (range_at_complement (cmp := law_cmp)).
  by destruct (range_at law_cmp r p).
Qed.

Lemma from_range_nodes (r : range T) i : i ∈ (from_range cmp r).*2 -> i = NODE_TRUE \/ i = NODE_FALSE.
Proof.
  unfold from_range. intros ([s c] & -> & Hin)%list_elem_of_fmap.
  apply list_elem_of_In, (Permutation_in _ (sort_by_perm _ _)), list_elem_of_In in Hin.
  apply elem_of_app in Hin as [Hin|Hin]; apply list_elem_of_fmap in Hin as (seg & [= -> ->] & _); [by left|by right].
Qed.
End FromRange.

(** ** Nodes and their meanings *)

Section Meaning.
Context {RV : RangeOps Version} {RS : RangeOps (list Z)}.
Context {LV : RangeLaws version_cmp_slow} {LS : RangeLaws string_cmp}.

(** The node has the value [P], for the valuations [A]. *)
Definition means (A : Valuation -> Prop) (P : Valuation -> bool) (i : NodeId) (table : list Node) : Prop :=
  node_valid table i /\ forall sigma, A sigma -> eval table sigma i = P sigma.

Definition any_valuation (sigma : Valuation) : Prop := True.

Lemma means_stable A P i : stable (means A P i).
Proof.
  intros table table' Hok Hok' Hp [Hv He]. split; [extend|]. intros sigma Hs.
  rewrite (eval_extend table) by done. by apply He.
Qed.

Lemma means_weaken (A B : Valuation -> Prop) P i table :
  (forall sigma, B sigma -> A sigma) -> means A P i table -> means B P i table.
Proof. intros H [Hv He]. split; [done|]. intros sigma Hs%H. by apply He. Qed.

Lemma means_ext (A : Valuation -> Prop) (P Q : Valuation -> bool) i table :
  (forall sigma, A sigma -> P sigma = Q sigma) -> means A P i table -> means A Q i table.
Proof. intros H [Hv He]. split; [done|]. intros sigma Hs. by rewrite <- H, He. Qed.

Lemma means_terminal A (b : bool) table :
  means A (fun _ => b) (if b then NODE_TRUE else NODE_FALSE) table.
Proof. split; [destruct b; [apply true_valid|apply false_valid]|by destruct b]. Qed.

Lemma means_not A P i table :
  table_ok table -> means A P i table -> means A (fun sigma => negb (P sigma)) (node_not i) table.
Proof.
  intros Hok [Hv He]. split; [by apply not_valid|]. intros sigma Hs. by rewrite eval_not, (He _ Hs).
Qed.

(** Nodes of different meaning are different. *)
Lemma means_different P Q i j table sigma :
  means any_valuation P i table -> means any_valuation Q j table -> P sigma <> Q sigma -> (i =? j) = false.
Proof.
  intros [_ Hi] [_ Hj] H. apply Z.eqb_neq. intros ->. apply H. by rewrite <- Hi, <- Hj.
Qed.

Context {C : Type} (L : C -> list Node -> Prop) {HL : LocalInvariant L}.

(** A decision between terminals. *)
Lemma decision_node_runs var e (P : Valuation -> bool) s :
  state_ok L s -> edges_kind var e -> edges_partition e ->
  (forall i, i ∈ edges_nodes e -> i = NODE_TRUE \/ i = NODE_FALSE) ->
  (forall sigma, edges_select sigma var e = [if P sigma then NODE_TRUE else NODE_FALSE]) ->
  runs L (create_node var e) s (fun i table => means any_valuation P i table /\ all_vars table (eq var) i).
Proof.
  intros Hs Hk Hpart Hn Hsel. eapply runs_weaken.
  - apply (create_node_runs L); [done|]. split; [done| | | |done].
    + intros sigma. eexists. apply Hsel.
    + intros i [->| ->]%Hn; [apply true_valid|apply false_valid].
    + intros i Hi%Hn. by apply before_terminal.
  - intros i table Hok _ [H1 H2 H3]. split; [split; [done|]|].
    + intros sigma _. rewrite (H2 _ _ (Hsel sigma)). by destruct (P sigma).
    + apply H3; [done|]. intros child Hc%Hn. by apply all_vars_true.
Qed.

Lemma terminal_node_runs A var e (P : Valuation -> bool) s :
  state_ok L s -> edges_kind var e -> edges_partition e ->
  (forall i, i ∈ edges_nodes e -> i = NODE_TRUE \/ i = NODE_FALSE) ->
  (forall sigma, edges_select sigma var e = [if P sigma then NODE_TRUE else NODE_FALSE]) ->
  runs L (create_node var e) s (means A P).
Proof.
  intros Hs Hk Hpart Hn Hsel. eapply runs_weaken; [by apply decision_node_runs|].
  intros i table _ _ [H _]. by apply (means_weaken any_valuation).
Qed.

Lemma string_node_runs A key r s :
  state_ok L s ->
  runs L (create_node (VarString key) (EdgesString (from_range string_cmp r))) s
    (means A (fun sigma => range_at string_cmp r (string_point sigma (VarString key)))).
Proof.
  intros Hs. apply terminal_node_runs; [done..|apply string_range_partition| |].
  - intros i. apply (from_range_nodes string_cmp).
  - intros sigma. apply (from_range_matching string_cmp string_cmp).
Qed.

(** The values of the bounds of a range. *)
Lemma iter_values (P : Version -> Prop) (r : range Version) lower upper :
  range_iter r = [(lower, upper)] -> Forall P (bound_values lower) -> Forall P (bound_values upper) ->
  Forall P (range_values r).
Proof. intros E Hl Hu. unfold range_values. rewrite E. cbn. rewrite app_nil_r. by apply Forall_app_2. Qed.

Lemma bounds_values_from (P : Version -> Prop) lower upper :
  Forall P (bound_values lower) -> Forall P (bound_values upper) ->
  Forall P (range_values (range_from_bounds lower upper)).
Proof.
  intros Hl Hu. destruct (segment_valid version_cmp_slow lower upper) eqn:E.
  - by apply (iter_values P _ lower upper); [apply (range_iter_from_bounds (cmp := version_cmp_slow))|..].
  - unfold range_values. rewrite (range_iter_invalid (cmp := version_cmp_slow)) by done. apply Forall_nil_2.
Qed.

Lemma complement_values_from (P : Version -> Prop) (r : range Version) :
  Forall P (range_values r) -> Forall P (range_values (range_complement r)).
Proof.
  rewrite !Forall_forall. intros H v Hv. apply H. by apply (range_values_complement (cmp := version_cmp_slow)).
Qed.

Lemma version_node_runs A var r s :
  state_ok L s -> edges_kind var (EdgesVersion []) -> Forall comparable (range_values r) ->
  runs L (create_node var (EdgesVersion (from_range version_cmp r))) s
    (means A (fun sigma => range_at version_cmp_slow r (version_point sigma var))).
Proof.
  intros Hs Hk Hg. apply terminal_node_runs; [done|by destruct var|by apply version_range_partition| |].
  - intros i. apply (from_range_nodes version_cmp).
  - intros sigma. apply (from_range_matching version_cmp version_cmp_slow).
Qed.

Lemma bool_node_runs A var b s :
  state_ok L s -> edges_kind var (EdgesBoolean 0 0) ->
  runs L (create_node var (edges_from_bool b)) s
    (means A (fun sigma => Bool.eqb b (bool_at sigma var))).
Proof.
  intros Hs Hk. apply terminal_node_runs; [done|by destruct var, b|by destruct b| |].
  - destruct b; cbn; set_solver.
  - intros sigma. by destruct b; cbn; destruct (bool_at sigma var).
Qed.

(** ** Exclusions *)

Lemma string_cmp_eq a b : string_cmp a b = Eq <-> a = b.
Proof.
  split; [apply (cmp_exact string_cmp)|intros ->; apply (cmp_refl string_cmp)].
Qed.

Lemma singleton_string (value v : list Z) : range_contains (range_singleton value) v = bool_decide (v = value).
Proof.
  rewrite (range_contains_singleton (cmp := string_cmp)). apply bool_decide_ext, string_cmp_eq.
Qed.

Lemma singleton_point (value : list Z) p : range_at string_cmp (range_singleton value) p = bool_decide (p = (value, 0)).
Proof.
  rewrite (one_segment_at string_cmp _ (Included value) (Included value)) by apply (range_iter_singleton (cmp := string_cmp)).
  unfold point_in, point_above, point_below, point_cmp, cmp_pair. cbn. destruct p as [v z]. cbn.
  rewrite (cmp_opp string_cmp v value). apply eq_true_iff_eq.
  rewrite andb_true_iff, !bool_decide_eq_true. destruct (string_cmp v value) eqn:E; cbn.
  - apply string_cmp_eq in E as ->. split; [|by intros [= ->]]. by destruct z; cbn; [|intros []..].
  - split; [by intros []|]. intros [= -> ->]. by rewrite (cmp_refl string_cmp) in E.
  - split; [by intros []|]. intros [= -> ->]. by rewrite (cmp_refl string_cmp) in E.
Qed.

(** [key == value] for a key that is not compared as a version. *)
Lemma equal_node_runs and key value canonical lowered s :
  state_ok L s -> lower_string key (bytes value) = (canonical, lowered) -> canonical <> PlatformRelease ->
  runs L (equal_node and key value) s (means any_valuation (fun sigma => holds_equal sigma (canonical, lowered))).
Proof.
  intros Hs El Hne. unfold equal_node. cbn [expression_with]. unfold string_expression. rewrite El. cbn.
  rewrite bool_decide_eq_false_2 by done.
  eapply runs_lift; [done|]. eapply runs_bind; [by apply (string_node_runs any_valuation)|].
  intros i s' Hs' Hp [Hv He]. apply runs_ret; [done|]. split; [done|]. intros sigma Hsig.
  rewrite (He _ Hsig). apply singleton_point.
Qed.

(** Nodes for pairs of markers. *)
Definition pair_means (table : list Node) (ab : NodeId * NodeId)
    (pq : (CanonicalMarkerValueString * list Z) * (CanonicalMarkerValueString * list Z)) : Prop :=
  means any_valuation (fun sigma => holds_equal sigma pq.1) ab.1 table /\
  means any_valuation (fun sigma => holds_equal sigma pq.2) ab.2 table.
End Meaning.

Section Exclusions.
Context {RV : RangeOps Version} {RS : RangeOps (list Z)}.
Context {LV : RangeLaws version_cmp_slow} {LS : RangeLaws string_cmp}.

Lemma exclude_pairs_runs pairs spec tree P s :
  state_ok memo_ok s -> means any_valuation P tree (nodes s.1) -> Forall2 (pair_means (nodes s.1)) pairs spec ->
  runs memo_ok (exclude_pairs pairs tree) s
    (means any_valuation (fun sigma =>
       P sigma || existsb (fun p => holds_equal sigma p.1 && holds_equal sigma p.2) spec)).
Proof.
  intros Hs Ht Hpairs. revert spec tree P s Hs Ht Hpairs.
  induction pairs as [|[a b] pairs IH]; intros spec tree P s Hs Ht Hpairs.
  - apply Forall2_nil_inv_l in Hpairs as ->. apply runs_ret; [done|].
    split; [apply Ht|]. intros sigma Hsig. rewrite orb_false_r. by apply Ht.
  - apply Forall2_cons_inv_l in Hpairs as ([p q] & spec' & [[Hva Ha] [Hvb Hb]] & Hrest & ->). cbn [fst snd] in *.
    cbn [exclude_pairs]. eapply (runs_bind memo_ok); [by apply conjunction_nodes_runs|].
    intros ab s1 Hs1 Hp1 (_ & _ & [Hvab Hab _]).
    eapply (runs_bind memo_ok); [apply disjunction_runs; [done|destruct Ht; extend|done]|].
    intros tree' s2 Hs2 Hp2 [Hvt Htree _].
    assert (Hp : nodes s.1 `prefix_of` nodes s2.1) by by etransitivity.
    eapply (runs_weaken memo_ok).
    + apply (IH spec' tree' (fun sigma => P sigma || (holds_equal sigma p && holds_equal sigma q))); [done| |].
      * split; [done|]. intros sigma Hsig. rewrite (Htree _ I). destruct Ht as [Hvt' Ht].
        pose proof (ok_table _ (proj1 Hs)). pose proof (ok_table _ (proj1 Hs1)). pose proof (ok_table _ (proj1 Hs2)).
        rewrite (eval_extend (nodes s.1) (nodes s2.1)), (Ht _ Hsig) by done.
        rewrite (eval_extend (nodes s1.1) (nodes s2.1)), (Hab _ I) by done.
        by rewrite !(eval_extend (nodes s.1) (nodes s1.1)), (Ha _ Hsig), (Hb _ Hsig).
      * eapply Forall2_impl; [exact Hrest|]. intros x y [Hx Hy].
        split; (eapply means_stable; [apply Hs|apply Hs2|done..]).
    + intros r table _ _ [Hvr Hr]. split; [done|]. intros sigma Hsig. rewrite (Hr _ Hsig). cbn.
      by rewrite orb_assoc.
Qed.

Context {C : Type} (L : C -> list Node -> Prop) {HL : LocalInvariant L}.

Lemma with_cache_runs {D A : Type} (L' : D -> list Node -> Prop) (d : D) (m : M D A) s Q :
  state_ok L s -> runs L' m (s.1, d) Q -> runs L (with_cache d m) s Q.
Proof.
  intros [Hok Hl] (a & s' & E & [Hok' _] & Hp & HQ). exists a, (s'.1, s.2). unfold with_cache. rewrite E. cbn in *.
  split_and!; [done| |done..]. split; [done|]. eapply local_extend; [apply Hok|apply Hok'|done..].
Qed.

Lemma set_exclusions_ok st r :
  interner_ok st -> means any_valuation excluded r (nodes st) ->
  interner_ok (mkInterner (nodes st) (unique st) (cache st) (Some r)).
Proof.
  intros [H1 H2 H3 H4] [Hv He]. split; [done..|]. intros r' [= <-]. split; [done|]. intros sigma. by apply He.
Qed.

(** Two values of one key are different nodes. *)
Lemma equal_nodes_different k a b i j table :
  means any_valuation (fun sigma => holds_equal sigma (k, a)) i table ->
  means any_valuation (fun sigma => holds_equal sigma (k, b)) j table -> a <> b -> (i =? j) = false.
Proof.
  intros Hi Hj Hne. apply (means_different _ _ _ _ _ (mkValuation (version_at inhabitant) (fun _ => a) (fun _ => false) (fun _ => 0)) Hi Hj).
  unfold holds_equal, string_point. cbn. rewrite bool_decide_eq_true_2, bool_decide_eq_false_2; [done|congruence|done].
Qed.

(** Bind a node for [key == value]. *)
Ltac equal_node_step :=
  eapply runs_bind;
    [ eapply (equal_node_runs L); [assumption|reflexivity|discriminate]
    | let i := fresh "i" in let s' := fresh "s'" in let Hs' := fresh "Hs'" in let Hp := fresh "Hp" in
      let Hi := fresh "Hi" in
      intros i s' Hs' Hp Hi;
      repeat match goal with
             | H : means _ ?P ?j (nodes ?t.1), Hst : state_ok _ ?t |- _ =>
                 lazymatch t with
                 | s' => fail
                 | _ => apply (fun Hx => means_stable any_valuation P j (nodes t.1) (nodes s'.1) Hx) in H;
                        [|apply Hst|apply Hs'|assumption]
                 end
             end ].

(** The tests on node references, for nodes of known meaning. *)
Ltac decide_nodes :=
  repeat match goal with
         | |- context [?i =? ?i] => rewrite (Z.eqb_refl i)
         | Hi : means _ (fun sigma => holds_equal sigma (?k, ?a)) ?i ?t,
           Hj : means _ (fun sigma => holds_equal sigma (?k, ?b)) ?j ?t |- context [?i =? ?j] =>
             rewrite (equal_nodes_different k a b i j t Hi Hj) by (vm_compute; discriminate)
         end.

Lemma exclusions_runs and s :
  state_ok L s -> runs L (exclusions_with and) s (means any_valuation excluded).
Proof.
  intros Hs. unfold exclusions_with. apply runs_get_interner.
  destruct (exclusions_cache s.1) as [r|] eqn:Ec.
  { apply runs_ret; [done|]. destruct (ok_exclusions _ (proj1 Hs) _ Ec) as [Hv He]. by split. }
  do 17 equal_node_step. cbv zeta. cbn [mbind list_bind app]. decide_nodes. cbn [andb orb app].
  eapply runs_bind.
  - apply (with_cache_runs memo_ok); [done|].
    apply (exclude_pairs_runs _ exclusion_pairs _ (fun _ => false)).
    + split; [apply Hs'15|]. intros x y r. cbn [snd]. by rewrite lookup_empty.
    + apply (means_terminal _ false).
    + cbn [fst]. let l := eval vm_compute in exclusion_pairs in change exclusion_pairs with l.
      repeat (apply Forall2_cons_2; [by split|]). apply Forall2_nil_2.
  - intros tree st Hst Hpt Ht. exists tree.
    eexists (mkInterner _ _ _ _, st.2). split_and!; [reflexivity| |done|done].
    split; [|apply Hst]. by apply set_exclusions_ok; [apply Hst|].
Qed.
End Exclusions.

(** * Markers: conjunction with the exclusions, verified

    [and] and [or] of the interner: total, and correct for every valuation that is not excluded. *)

Section And.
Context {RV : RangeOps Version} {RS : RangeOps (list Z)}.
Context {LV : RangeLaws version_cmp_slow} {LS : RangeLaws string_cmp}.
Context {C : Type} (L : C -> list Node -> Prop) {HL : LocalInvariant L}.

(** A node that only excluded valuations satisfy is the conjunction [NODE_FALSE]. *)
Lemma exclude_and_of table x y r e :
  table_ok table -> and_of allowed x y r table -> means any_valuation excluded e table ->
  exclusive table r (node_not e) -> and_of allowed x y NODE_FALSE table.
Proof.
  intros Hok (Hx & Hy & [H1 H2 H3]) [Hve He] Hex. split_and!; [done..|]. split.
  - apply false_valid.
  - intros sigma Hs. rewrite <- (H2 _ Hs), eval_false. specialize (Hex sigma).
    rewrite eval_not, (He _ I), Hs, andb_true_r in Hex by done. done.
  - intros. apply all_vars_true. by right.
Qed.

Lemma insert_cache_ok st x y r :
  interner_ok st -> and_of allowed x y r (nodes st) ->
  interner_ok (mkInterner (nodes st) (unique st) (<[(x, y) := r]> (cache st)) (exclusions_cache st)).
Proof.
  intros [H1 H2 H3 H4] Hr. split; [done..| |done]. intros a b c. cbn.
  destruct (decide ((x, y) = (a, b))) as [[= -> ->]|Hne].
  - rewrite lookup_insert_eq. by intros [= <-].
  - rewrite lookup_insert_ne by done. apply H3.
Qed.

(** The key of the cache, for both orders of the operands. *)
Lemma key_and_of A (x y r : NodeId) a b table :
  (if x <? y then (x, y) else (y, x)) = (a, b) -> and_of A a b r table <-> and_of A x y r table.
Proof. destruct (x <? y); intros [= <- <-]; [done|]. split; apply and_of_comm. Qed.

Lemma conflict_runs and xi yi r conflicts s :
  state_ok L s -> and_of allowed xi yi r (nodes s.1) ->
  runs L (if (conflicts : bool) then
            let! exclusions := exclusions_with and in
            let! st := get_interner in
            let! disjoint := lift_option (disjoint_nodes (nodes st) r (node_not exclusions)) in
            ret (if (disjoint : bool) then NODE_FALSE else r)
          else ret r) s (and_of allowed xi yi).
Proof.
  intros Hs Hr. destruct conflicts; [|by apply runs_ret].
  eapply runs_bind; [by apply (exclusions_runs L)|]. intros e s' Hs' Hp He. apply runs_get_interner.
  assert (Hr' : and_of allowed xi yi r (nodes s'.1)) by (eapply and_of_stable; [apply Hs|apply Hs'|done..]).
  destruct (disjoint_nodes_tests (nodes s'.1) r (node_not e)) as (b & Eb & Hb);
    [apply Hs'|apply Hr'|apply not_valid, He|].
  eapply runs_lift; [exact Eb|]. apply runs_ret; [done|]. destruct b; [|done].
  eapply exclude_and_of; [apply Hs'|done..|by apply Hb].
Qed.

Lemma and_nontrivial_runs and xi yi s :
  state_ok L s -> node_valid (nodes s.1) xi -> node_valid (nodes s.1) yi -> and_trivial xi yi = None ->
  conj_below L allowed and (node_rank xi + node_rank yi) ->
  runs L (and_nontrivial_with and xi yi) s (and_of allowed xi yi).
Proof.
  intros Hs Hx Hy (Tx & Fx & Ty & Fy)%and_trivial_none Hand. unfold and_nontrivial_with.
  destruct (if xi <? yi then (xi, yi) else (yi, xi)) as [a b] eqn:Ek. apply runs_get_interner.
  destruct (cache s.1 !! (a, b)) as [r|] eqn:Ec.
  { apply runs_ret; [done|]. apply (key_and_of _ _ _ _ _ _ _ Ek). by apply (ok_cache _ (proj1 Hs)). }
  destruct (node_valid_at _ _ Hx Tx Fx) as (x & Ex & _). destruct (node_valid_at _ _ Hy Ty Fy) as (y & Ey & _).
  apply (runs_get_node L _ x), (runs_get_node L _ y); [done..|].
  eapply runs_bind; [by apply (expand_runs L allowed)|]. intros r s1 Hs1 Hp1 Hr.
  eapply runs_bind; [by apply conflict_runs|]. intros r' s2 Hs2 Hp2 Hr'. cbn in Hr'.
  exists r', (mkInterner (nodes s2.1) (unique s2.1) (<[(a, b) := r']> (cache s2.1)) (exclusions_cache s2.1), s2.2).
  split_and!; [done| |done..]. split; [|apply Hs2]. apply insert_cache_ok; [apply Hs2|].
  by apply (key_and_of _ _ _ _ _ _ _ Ek).
Qed.

Lemma and_fuel_runs fuel xi yi s :
  state_ok L s -> node_valid (nodes s.1) xi -> node_valid (nodes s.1) yi ->
  (node_rank xi + node_rank yi <= fuel)%nat -> runs L (and_fuel fuel xi yi) s (and_of allowed xi yi).
Proof.
  revert xi yi s. induction fuel as [|fuel IH]; intros xi yi s Hs Hx Hy Hf; cbn [and_fuel];
    (destruct (and_trivial xi yi) as [r|] eqn:Et;
     [apply runs_ret; [done|]; apply and_trivial_some; [apply Hs|done..]|]).
  - apply and_trivial_none in Et as (Tx & Fx & _). destruct (node_valid_at _ _ Hx Tx Fx) as (_ & _ & Er & _). lia.
  - apply and_nontrivial_runs; [done..|]. intros a b s' Hs' Ha Hb Hr. apply IH; [done..|lia].
Qed.

Lemma and_runs xi yi s :
  state_ok L s -> node_valid (nodes s.1) xi -> node_valid (nodes s.1) yi ->
  runs L (and xi yi) s (and_of allowed xi yi).
Proof. intros. by apply and_fuel_runs. Qed.

Lemma or_runs xi yi s :
  state_ok L s -> node_valid (nodes s.1) xi -> node_valid (nodes s.1) yi ->
  runs L (or xi yi) s (fun r table => is_or allowed table xi yi r).
Proof.
  intros Hs Hx Hy. unfold or. eapply runs_bind; [apply and_runs; [done|by apply not_valid..]|].
  intros r s' Hs' Hp Hr. apply runs_ret; [done|]. apply and_of_or; [apply Hs'|extend..|done].
Qed.

(** Conjunction and disjunction, by meaning. *)
Lemma and_means (A : Valuation -> Prop) P Q xi yi s :
  (forall sigma, A sigma -> allowed sigma) -> state_ok L s ->
  means A P xi (nodes s.1) -> means A Q yi (nodes s.1) ->
  runs L (and xi yi) s (means A (fun sigma => P sigma && Q sigma)).
Proof.
  intros HA Hs Hx Hy. eapply runs_weaken; [apply and_runs; [done|apply Hx|apply Hy]|].
  intros r table Hok Hp (_ & _ & [H1 H2 _]). split; [done|]. intros sigma Hsig. rewrite (H2 _ (HA _ Hsig)).
  pose proof (ok_table _ (proj1 Hs)). destruct Hx as [Hvx Hx], Hy as [Hvy Hy].
  by rewrite !(eval_extend (nodes s.1) table), (Hx _ Hsig), (Hy _ Hsig).
Qed.

Lemma or_means (A : Valuation -> Prop) P Q xi yi s :
  (forall sigma, A sigma -> allowed sigma) -> state_ok L s ->
  means A P xi (nodes s.1) -> means A Q yi (nodes s.1) ->
  runs L (or xi yi) s (means A (fun sigma => P sigma || Q sigma)).
Proof.
  intros HA Hs Hx Hy. eapply runs_weaken; [apply or_runs; [done|apply Hx|apply Hy]|].
  intros r table Hok Hp [H1 H2 _]. split; [done|]. intros sigma Hsig. rewrite (H2 _ (HA _ Hsig)).
  pose proof (ok_table _ (proj1 Hs)). destruct Hx as [Hvx Hx], Hy as [Hvy Hy].
  by rewrite !(eval_extend (nodes s.1) table), (Hx _ Hsig), (Hy _ Hsig).
Qed.

(** ** Queries *)

Lemma is_disjoint_nontrivial_runs xi yi s :
  state_ok L s -> node_valid (nodes s.1) xi -> node_valid (nodes s.1) yi -> is_disjoint_trivial xi yi = None ->
  runs L (is_disjoint_nontrivial xi yi) s (fun b table =>
    b = true -> forall sigma, allowed sigma -> eval table sigma xi && eval table sigma yi = false).
Proof.
  intros Hs Hx Hy Et. unfold is_disjoint_trivial in Et. rewrite fmap_None in Et.
  pose proof (and_trivial_none _ _ Et) as (Tx & Fx & Ty & Fy).
  destruct (node_valid_at _ _ Hx Tx Fx) as (x & Ex & _). destruct (node_valid_at _ _ Hy Ty Fy) as (y & Ey & _).
  unfold is_disjoint_nontrivial. apply (runs_get_node L _ x), (runs_get_node L _ y); [done..|].
  destruct (_ && _).
  - eapply runs_bind; [by apply and_runs|]. intros r s' Hs' Hp (_ & _ & [_ H2 _]). apply runs_ret; [done|].
    intros ->%node_is_false_spec sigma Hsig. by rewrite <- (H2 _ Hsig).
  - apply runs_get_interner.
    destruct (disjoint_expansion_tests (nodes s.1) (ok_table _ (proj1 Hs)) (disjoint_nodes (nodes s.1))
      (node_rank xi + node_rank yi)) with (xi := xi) (yi := yi) as (b & Eb & Hb); [|done..|].
    { intros a c Ha Hc _. apply disjoint_nodes_tests; [apply Hs|done..]. }
    exists b, s. unfold lift_option. rewrite Eb. split_and!; [done..|]. intros Ht sigma _. by apply Hb.
Qed.

Lemma is_unreachable_runs i s :
  state_ok L s -> node_valid (nodes s.1) i ->
  runs L (is_unreachable i) s (fun b table =>
    b = true -> forall sigma, allowed sigma -> eval table sigma i = false).
Proof.
  intros Hs Hi. unfold is_unreachable. eapply runs_bind; [by apply (exclusions_runs L)|].
  intros e s1 Hs1 Hp1 He. eapply runs_bind; [apply and_runs; [done|extend|apply not_valid, He]|].
  intros r s2 Hs2 Hp2 (_ & _ & [_ H2 _]). apply runs_ret; [done|]. intros ->%node_is_false_spec sigma Hsig.
  specialize (H2 _ Hsig). rewrite eval_false in H2. symmetry in H2.
  pose proof (ok_table _ (proj1 Hs1)). pose proof (ok_table _ (proj1 Hs2)). destruct He as [Hve He].
  rewrite (eval_extend (nodes s1.1) (nodes s2.1) sigma (node_not e)), eval_not, (He _ I), Hsig, andb_true_r in H2;
    [done..|by apply not_valid].
Qed.
End And.
