(* ===== verification/ExpressionFacts.v ===== *)
(** * Markers: expressions, verified

    The node of a marker expression has the value of the expression: the comparison of strings or
    versions that the expression stands for. *)

From stdpp Require Import base countable list option numbers decidable strings gmap.
From Stdlib Require Import ZArith Lia.
From S2P Require Import Prelude Text Ranges VersionTypes VersionSmall Version VersionOrder VersionCacheKey.
From S2P Require Import VersionParser VersionSpecifier VersionRanges VersionRangesFacts.
From S2P Require Import ReleaseRanges SpecifierFacts SpecifierBounds.
From S2P Require Import MarkerTypes Interner MarkerAlgebra PythonVersion MarkerEval.
From S2P Require Import InternerFacts EdgesFacts AlgebraFacts ExclusionFacts.

Local Open Scope Z_scope.
Local Open Scope uv_scope.

(** ** Specifiers *)

Section Specifiers.
Context {RV : RangeOps Version} {LV : RangeLaws version_cmp_slow}.

#[local] Existing Instances MarkerTypes.version_ranges MarkerTypes.version_algebra.

(** The tests of a range, on versions that can be compared. *)
Lemma slow_tests t w :
  comparable t -> comparable w ->
  bool_decide (version_cmp_slow w t = Eq) = version_eq w t /\
  segment_above version_cmp_slow (Included t) w = version_le t w /\
  segment_above version_cmp_slow (Excluded t) w = version_lt t w /\
  segment_below version_cmp_slow (Included t) w = version_le w t /\
  segment_below version_cmp_slow (Excluded t) w = version_lt w t.
Proof.
  intros [W1 M1] [W2 M2]. unfold version_eq, version_le, version_lt, segment_above, segment_below.
  rewrite !version_cmp_is_slow by done.
  split_and!; by destruct (version_cmp_slow _ _).
Qed.

(** The bounds of a range are versions that can be compared. *)
Lemma tilde_upper_comparable u :
  release_version u -> (2 <= length (version_release u))%nat ->
  exists rest last upper, split_last_two (version_release u) = Some (rest, last) /\
    version_new (rest ++ [u64_wrapping_add last 1]) = Some upper /\ comparable upper.
Proof.
  intros Hu Hlen. destruct (split_last_two_spec _ Hlen) as (rest & last & x & Es & Er).
  pose proof (release_numbers u Hu) as Hn. rewrite Er in Hn. apply Forall_app in Hn as [Hn _].
  pose proof (succ_last_bounds _ Hn) as Hs. rewrite succ_last_snoc in Hs. apply Forall_app in Hn as [_ Hl].
  destruct (new_Some (rest ++ [last + 1]) Hs) as (upper & En & [Wv _] & Ev); [by intros [_ ?]%app_nil|].
  exists rest, last, upper. rewrite (wrapping_succ last (Forall_inv Hl)). split_and!; [done..|].
  by apply (stands_for_intro _ _ Wv Ev).
Qed.

(** The range of a specifier contains the releases that the specifier admits. *)
Lemma release_range_matches op u trim :
  release_version u -> specifier_valid (mkSpecifier op u) ->
  exists r : range Version, release_specifier_to_range (mkSpecifier op u) trim = Some r /\
    forall w, release_version w -> range_contains r w = matches (mkSpecifier op u) w.
Proof.
  intros Hu V. destruct (version_trimmed_spec u trim Hu) as (t & ns & Et & [Ct _] & _).
  assert (Hpred : forall w, release_version w -> exists rp,
    @release_specifier_to_range Predicates.predicate_ranges Predicates.predicate_algebra (mkSpecifier op u) trim = Some rp /\
    matches (mkSpecifier op u) w = rp w).
  { intros w Hw. destruct (@release_agree _ _ Predicates.predicate_laws u w Hu Hw op trim V) as (rp & Ep & Ec).
    exists rp. split; [done|]. unfold matches. by rewrite Ec. }
  assert (Cu : comparable u) by by apply (release_stands u Hu).
  assert (Cw : forall w, release_version w -> comparable w) by (intros w Hw; by apply (release_stands w Hw)).
  unfold release_specifier_to_range in *. cbn [specifier_version specifier_operator] in *.
  rewrite Et in *. cbn [mbind option_bind] in *.
  destruct (release_star_bounds_spec u Hu) as (high & Eb & [Ch _]).
  destruct op.
  6: destruct (tilde_upper_comparable u Hu (valid_tilde _ V eq_refl)) as (rest & last & upper & E1 & E2 & Cup);
    rewrite E1 in *; cbn [mbind option_bind] in *; rewrite E2 in *.
  all: rewrite ?Eb in *; cbn [mbind option_bind] in *; eexists; (split; [reflexivity|]); intros w Hw;
    destruct (Hpred w Hw) as (rp & [= <-] & ->); specialize (Cw w Hw);
    cbn [Predicates.predicate_algebra ranges_complement ranges_singleton ranges_strictly_lower_than
      ranges_lower_than ranges_strictly_higher_than ranges_higher_than ranges_from_range version_algebra];
    rewrite ?(range_contains_complement (cmp := version_cmp_slow)),
      ?(range_contains_singleton (cmp := version_cmp_slow)), ?(range_contains_higher (cmp := version_cmp_slow)),
      ?(range_contains_strictly_higher (cmp := version_cmp_slow)), ?(range_contains_lower (cmp := version_cmp_slow)),
      ?(range_contains_strictly_lower (cmp := version_cmp_slow)),
      ?(range_contains_from_bounds (cmp := version_cmp_slow)).
  all: unfold segment_contains; cbn [fst snd];
    destruct (slow_tests t w Ct Cw) as (T1 & T2 & T3 & T4 & T5), (slow_tests u w Cu Cw) as (_ & U2 & _),
      (slow_tests high w Ch Cw) as (_ & _ & _ & _ & H5).
  6: destruct (slow_tests upper w Cup Cw) as (_ & _ & _ & _ & P5); by rewrite T2, P5.
  all: by rewrite ?T1, ?T2, ?T3, ?T4, ?T5, ?U2, ?H5.
Qed.

(** The values of the range of a specifier. *)
Lemma release_range_values (P : Version -> Prop) op u (trim : bool) (r : range Version) :
  release_version u -> specifier_valid (mkSpecifier op u) -> P u ->
  (forall t, (if trim then version_only_release_trimmed u else version_only_release u) = Some t -> P t) ->
  (forall high, release_star_bounds u = Some (u, high) -> P high) ->
  (forall (rest : list Z) (last : Z) (upper : Version), split_last_two (version_release u) = Some (rest, last) ->
    version_new (rest ++ [u64_wrapping_add last 1]) = Some upper -> P upper) ->
  release_specifier_to_range (mkSpecifier op u) trim = Some r -> Forall P (range_values r).
Proof.
  intros Hu V Pu Pt Ph Pup. destruct (version_trimmed_spec u trim Hu) as (t & ns & Et & _).
  destruct (release_star_bounds_spec u Hu) as (high & Eb & _). specialize (Pt t Et). specialize (Ph high Eb).
  assert (Hone : forall v, P v -> Forall P [v]) by (intros v Hv; by apply Forall_cons_2, Forall_nil_2).
  unfold release_specifier_to_range. cbn [specifier_version specifier_operator].
  rewrite Et. cbn [mbind option_bind]. destruct op.
  6: destruct (tilde_upper_comparable u Hu (valid_tilde _ V eq_refl)) as (rest & last & upper & E1 & E2 & _);
    specialize (Pup rest last upper E1 E2); rewrite E1; cbn [mbind option_bind]; rewrite E2.
  all: rewrite ?Eb; cbn [mbind option_bind]; intros [= <-]; try apply complement_values_from.
  all: first
    [ apply bounds_values_from; by apply Hone
    | eapply iter_values;
      [first [apply (range_iter_singleton (cmp := version_cmp_slow)) | apply (range_iter_strictly_lower (cmp := version_cmp_slow))
             | apply (range_iter_lower (cmp := version_cmp_slow)) | apply (range_iter_strictly_higher (cmp := version_cmp_slow))
             | apply (range_iter_higher (cmp := version_cmp_slow))]
      | by apply Hone || apply Forall_nil_2 | by apply Hone || apply Forall_nil_2 ] ].
Qed.

Lemma specifier_range_values op u trim (r : range Version) :
  release_version u -> specifier_valid (mkSpecifier op u) ->
  release_specifier_to_range (mkSpecifier op u) trim = Some r -> Forall comparable (range_values r).
Proof.
  intros Hu V E. apply (release_range_values comparable op u trim); [done..|by apply (release_stands u Hu)| | | |done].
  - intros t Et. destruct (version_trimmed_spec u trim Hu) as (t' & ns & Et' & [Ct _] & _). rewrite Et in Et'. by injection Et' as ->.
  - intros high Eb. destruct (release_star_bounds_spec u Hu) as (high' & Eb' & [Ch _]). rewrite Eb in Eb'. by injection Eb' as ->.
  - intros rest last upper E1 E2. assert (H2 : (2 <= length (version_release u))%nat).
    { unfold split_last_two in E1. destruct (version_release u) as [|x [|y l]]; [done..|cbn; lia]. }
    destruct (tilde_upper_comparable u Hu H2) as (rest' & last' & upper' & E1' & E2' & Cup).
    rewrite E1 in E1'. injection E1' as <- <-. rewrite E2 in E2'. by injection E2' as <-.
Qed.

(** The release of a version that exists. *)
Lemma only_release_release v :
  version_real v -> exists u, version_only_release v = Some u /\ release_version u /\
    version_release u = version_release v.
Proof.
  intros Hv. unfold version_only_release. apply new_release_Some; [|apply Hv].
  rewrite release_full. by apply real_release_numbers.
Qed.

Lemma specifier_only_release_valid op v :
  specifier_valid (mkSpecifier op v) ->
  exists u, specifier_only_release (mkSpecifier op v) = Some (mkSpecifier op u) /\ release_version u /\
    version_release u = version_release v /\ specifier_valid (mkSpecifier op u).
Proof.
  intros V. destruct (only_release_release v (valid_real _ V)) as (u & Eu & Hu & Er). exists u.
  unfold specifier_only_release. cbn. rewrite Eu. split_and!; [done..|].
  apply release_valid; [done|]. intros ->. pose proof (valid_tilde _ V eq_refl) as Ht. cbn in Ht.
  unfold release_len in *. by rewrite Er.
Qed.

Lemma edges_from_specifier_spec {RS : RangeOps (list Z)} op v :
  specifier_valid (mkSpecifier op v) ->
  exists r u, specifier_only_release (mkSpecifier op v) = Some (mkSpecifier op u) /\
    edges_from_specifier (mkSpecifier op v) = Some (EdgesVersion (from_range version_cmp r)) /\
    Forall comparable (range_values r) /\
    forall w, release_version w -> range_contains r w = matches (mkSpecifier op u) w.
Proof.
  intros V. destruct (specifier_only_release_valid op v V) as (u & Eu & Hu & _ & V').
  destruct (release_range_matches op u true Hu V') as (r & Er & Hr). exists r, u. split; [done|].
  unfold edges_from_specifier. rewrite Eu. cbn [mbind option_bind]. unfold specifier_range. rewrite Er. split_and!; [done| |done].
  by apply (specifier_range_values op u true).
Qed.

(** The release of a release. *)
Lemma edges_from_release_spec {RS : RangeOps (list Z)} op u :
  release_version u -> specifier_valid (mkSpecifier op u) ->
  exists r, edges_from_specifier (mkSpecifier op u) = Some (EdgesVersion (from_range version_cmp r)) /\
    Forall comparable (range_values r) /\
    forall w, release_version w -> range_contains r w = matches (mkSpecifier op u) w.
Proof.
  intros Hu V. destruct (specifier_only_release_valid op u V) as (u' & Eu' & Hu' & Er & V').
  destruct (edges_from_specifier_spec op u V) as (r & u'' & Eu'' & Ee & Hval & Hr). exists r. split_and!; [done..|].
  rewrite Eu' in Eu''. injection Eu'' as <-. intros w Hw. rewrite Hr by done. by rewrite !matches_release, Er.
Qed.

(** A bound on two numbers. *)
Lemma edges_from_bound_spec {RS : RangeOps (list Z)} x :
  order_bound x ->
  exists r, edges_from_specifier x = Some (EdgesVersion (from_range version_cmp r)) /\
    Forall comparable (range_values r) /\
    forall w, release_version w -> range_contains r w = matches x w.
Proof.
  destruct x as [op v]. intros [Hop (a & b & Ha & Hb & Ev)]. cbn [specifier_operator specifier_version] in *.
  assert (Hn : Forall is_u64 [a; b]) by (repeat (apply Forall_cons_2; [done|]); apply Forall_nil_2).
  destruct (new_stands _ _ Hn Ev) as (_ & Er & _). unfold edges_from_specifier, specifier_only_release, version_only_release.
  cbn [specifier_operator specifier_version]. rewrite Er, Ev. cbn [fmap option_fmap option_map mbind option_bind].
  destruct (new_stands _ _ Hn Ev) as (W & _ & _). destruct (only_release_trimmed_spec v W) as (t & Et & [Wt _] & Ef).
  rewrite Er in Ef. set (ns := match strip_zeros [a; b] with [] => [0] | ns => ns end) in *.
  assert (Hns : Forall is_u64 ns).
  { unfold ns. apply strip_zeros_Forall in Hn. destruct (strip_zeros [a; b]); [|done].
    apply Forall_cons_2; [unfold is_u64, U64_MAX; lia|apply Forall_nil_2]. }
  assert (St : stands_for t (release_only ns)) by by apply stands_for_intro.
  assert (Ct : comparable t) by apply St.
  assert (Htest : forall w, release_version w -> version_lt w t = is_lt (compare_release (version_release w) [a; b]) /\
    version_le t w = negb (is_lt (compare_release (version_release w) [a; b]))).
  { intros w Hw. destruct (test_release w Hw t ns St Hns) as [-> ->].
    rewrite (compare_release_stripped _ ns [a; b]); [done|by apply release_u64|done..|apply strip_trimmed]. }
  unfold specifier_range, release_specifier_to_range. cbn [specifier_version specifier_operator]. rewrite Et. cbn [mbind option_bind].
  assert (Hslow : forall w, release_version w -> comparable w) by (intros w Hw; by apply (release_stands w Hw)).
  destruct Hop as [->| ->]; eexists; (split; [reflexivity|]); split.
  - eapply iter_values; [apply (range_iter_strictly_lower (cmp := version_cmp_slow))|apply Forall_nil_2|by apply Forall_cons_2, Forall_nil_2].
  - intros w Hw. rewrite (order_bound_matches LessThan a b v w (or_introl eq_refl) Hn Ev Hw).
    destruct (slow_tests t w Ct (Hslow w Hw)) as (_ & _ & _ & _ & T5). cbn [ranges_strictly_lower_than version_algebra].
    rewrite (range_contains_strictly_lower (cmp := version_cmp_slow)), T5. apply Htest, Hw.
  - eapply iter_values; [apply (range_iter_higher (cmp := version_cmp_slow))|by apply Forall_cons_2, Forall_nil_2|apply Forall_nil_2].
  - intros w Hw. rewrite (order_bound_matches GreaterThanEqual a b v w (or_intror eq_refl) Hn Ev Hw).
    destruct (slow_tests t w Ct (Hslow w Hw)) as (_ & T2 & _). cbn [ranges_higher_than version_algebra].
    rewrite (range_contains_higher (cmp := version_cmp_slow)), T2. apply Htest, Hw.
Qed.

Lemma translated_edges_spec {RS : RangeOps (list Z)} x :
  translated_valid (inl x) ->
  exists r, edges_from_specifier x = Some (EdgesVersion (from_range version_cmp r)) /\
    Forall comparable (range_values r) /\
    forall w, release_version w -> range_contains r w = matches x w.
Proof. destruct x as [op u]. intros [[Hu V]|Hb]; [by apply edges_from_release_spec|by apply edges_from_bound_spec]. Qed.
End Specifiers.

(** ** The value of an expression *)

(** [python_version] is the first two numbers of the Python version. *)
Definition python_version_of (w : Version) : Version := default w (version_new (take 2 (version_release w))).

Definition version_value (sigma : Valuation) (key : MarkerValueVersion) : Version :=
  match key with
  | MvImplementationVersion => version_at sigma (VarVersion ImplementationVersion)
  | MvPythonFullVersion => version_at sigma (VarVersion PythonFullVersion)
  | MvPythonVersion => python_version_of (version_at sigma (VarVersion PythonFullVersion))
  end.

(** A comparison looks at the release of its version. *)
Definition released_matches (specifier : VersionSpecifier) (w : Version) : bool :=
  matches (default specifier (specifier_only_release specifier)) w.

(** Of strings, only releases and versions of the platform are ordered. *)
Definition string_test (key : CanonicalMarkerValueString) (operator : MarkerOperator) (s value : list Z) : bool :=
  let ordered := bool_decide (key = PlatformRelease) || bool_decide (key = PlatformVersion) in
  match operator with
  | MEqual => bool_decide (s = value)
  | MNotEqual => negb (bool_decide (s = value))
  | MGreaterThan => ordered && bool_decide (string_cmp value s = Lt)
  | MGreaterEqual => if ordered then bool_decide (string_cmp value s <> Gt) else bool_decide (s = value)
  | MLessThan => ordered && bool_decide (string_cmp s value = Lt)
  | MLessEqual => if ordered then bool_decide (string_cmp s value <> Gt) else bool_decide (s = value)
  | MTildeEqual | MIn | MNotIn | MContains | MNotContains => false
  end.

(** On Darwin, [platform_release] is compared as a version, if the value is one. *)
Definition string_value (sigma : Valuation) (key : MarkerValueString) (operator : MarkerOperator) (value : list Z) : bool :=
  let '(key, value) := lower_string key value in
  let test := string_test key operator (string_at sigma (VarString key)) value in
  match release_specifier operator value with
  | Some (Some specifier) =>
      if bool_decide (key = PlatformRelease) then
        if bool_decide (string_at sigma (VarString SysPlatform) = bytes "darwin")
        then released_matches specifier (version_at sigma (VarVersionString key))
        else test
      else test
  | _ => test
  end.

(** What an expression says of an environment. *)
Definition expression_meaning (sigma : Valuation) (expr : MarkerExpression) : bool :=
  match expr with
  | ExprVersion key specifier => released_matches specifier (version_value sigma key)
  | ExprVersionIn key versions operator =>
      xorb (bool_decide (operator = ContainerNotIn))
        (existsb (fun v => matches (equals_version (default v (version_only_release v))) (version_value sigma key)) versions)
  | ExprString key MIn value => bool_at sigma (VarIn (canonical_string key) value)
  | ExprString key MNotIn value => negb (bool_at sigma (VarIn (canonical_string key) value))
  | ExprString key MContains value => bool_at sigma (VarContains (canonical_string key) value)
  | ExprString key MNotContains value => negb (bool_at sigma (VarContains (canonical_string key) value))
  | ExprString key operator value => string_value sigma key operator value
  | ExprList p operator => xorb (bool_decide (operator = ContainerNotIn)) (bool_at sigma (VarList p))
  | ExprExtra (ExtraValid extra) ExtraEqual => bool_at sigma (VarExtra extra)
  | ExprExtra (ExtraValid extra) ExtraNotEqual => negb (bool_at sigma (VarExtra extra))
  | ExprExtra (ExtraArbitrary _) _ => false
  end.

(** A release with more than a minor version. *)
Definition has_patch (v : Version) : bool := negb (all_zero (drop 2 (version_release v))).

(** The comparisons of [python_version] that are [false] whatever they say: [!=] with a star below the
    minor version, and lists of versions of which one has a patch. *)
Definition patch_constant (expr : MarkerExpression) : bool :=
  match expr with
  | ExprVersion MvPythonVersion specifier =>
      bool_decide (specifier_operator specifier = NotEqualStar) && has_patch (specifier_version specifier)
  | ExprVersionIn MvPythonVersion versions _ => existsb has_patch versions
  | _ => false
  end.

(** The value of the marker of an expression. *)
Definition expression_value (sigma : Valuation) (expr : MarkerExpression) : bool :=
  if patch_constant expr then false else expression_meaning sigma expr.

(** What the parser makes sure of: specifiers are valid, versions exist, strings are bytes and are not
    compared by [~=]. *)
Definition expression_ok (expr : MarkerExpression) : Prop :=
  match expr with
  | ExprVersion _ specifier => specifier_valid specifier
  | ExprVersionIn _ versions _ => Forall version_real versions
  | ExprString _ operator value => operator <> MTildeEqual /\ Forall is_u8 value
  | ExprList _ _ | ExprExtra _ _ => True
  end.

(** An environment of released versions. *)
Definition released (sigma : Valuation) : Prop :=
  (forall var, release_version (version_at sigma var)) /\
  exists major minor rest, version_release (version_at sigma (VarVersion PythonFullVersion)) = major :: minor :: rest.

(** The values of variables, and no points next to them. *)
Definition at_values (sigma : Valuation) : Prop := forall var, offset_at sigma var = 0.

Definition environment (sigma : Valuation) : Prop := (allowed sigma /\ at_values sigma) /\ released sigma.

Lemma version_at_value sigma var : at_values sigma -> version_point sigma var = (version_at sigma var, 0).
Proof. intros H. unfold version_point. by rewrite H. Qed.

Lemma string_at_value sigma var : at_values sigma -> string_point sigma var = (string_at sigma var, 0).
Proof. intros H. unfold string_point. by rewrite H. Qed.

Lemma python_version_release w major minor rest :
  release_version w -> version_release w = major :: minor :: rest ->
  release_version (python_version_of w) /\ version_release (python_version_of w) = [major; minor].
Proof.
  intros Hw E. unfold python_version_of. rewrite E. change (take 2 (major :: minor :: rest)) with [major; minor].
  pose proof (release_numbers w Hw) as Hn. rewrite E in Hn.
  destruct (new_release_Some [major; minor]) as (p & -> & Hp & Ep); [|done|done].
  apply Forall_cons_2; [exact (Forall_inv Hn)|].
  apply Forall_cons_2; [exact (Forall_inv (Forall_inv_tail Hn))|apply Forall_nil_2].
Qed.

(** The translation of a comparison of [python_version] does not depend on the version. *)
Lemma translation_uniform op u :
  release_version u -> specifier_valid (mkSpecifier op u) ->
  (op = NotEqualStar -> all_zero (drop 2 (version_release u)) = true) ->
  exists t, python_version_to_full_version (mkSpecifier op u) = Some t /\ translated_valid t /\
    forall w major minor rest, release_version w -> version_release w = major :: minor :: rest ->
      translated_matches t w = matches (mkSpecifier op u) (python_version_of w).
Proof.
  intros Hu V Hstar.
  assert (Hall : forall w major minor rest, release_version w -> version_release w = major :: minor :: rest ->
    translates w (python_version_to_full_version (mkSpecifier op u)) (matches (mkSpecifier op u) (python_version_of w))).
  { intros w major minor rest Hw E. destruct (python_version_release w major minor rest Hw E) as [Hp Ep].
    by apply (translation_correct w major minor rest). }
  destruct (new_release_Some [3; 0]) as (w0 & _ & Hw0 & E0); [|done|].
  { repeat (apply Forall_cons_2; [unfold is_number, U64_MAX; lia|]). apply Forall_nil_2. }
  destruct (Hall w0 3 0 [] Hw0 E0) as (t & Et & Hv & _). exists t. split_and!; [done..|].
  intros w major minor rest Hw E. destruct (Hall w major minor rest Hw E) as (t' & Et' & _ & Ht).
  rewrite Et in Et'. by injection Et' as <-.
Qed.

Section ExpressionRuns.
Context {RV : RangeOps Version} {RS : RangeOps (list Z)}.
Context {LV : RangeLaws version_cmp_slow} {LS : RangeLaws string_cmp}.
Context {C : Type} (L : C -> list Node -> Prop) {HL : LocalInvariant L}.

(** The node of a range of versions. *)
Lemma version_range_runs var r P s :
  state_ok L s -> edges_kind var (EdgesVersion []) -> Forall comparable (range_values r) ->
  (forall sigma, environment sigma -> range_contains r (version_at sigma var) = P sigma) ->
  runs L (create_node var (EdgesVersion (from_range version_cmp r))) s (means environment P).
Proof.
  intros Hs Hk Hval H. eapply runs_weaken; [by apply (version_node_runs L environment)|].
  intros i table _ _. apply means_ext. intros sigma Henv.
  rewrite <- (H _ Henv), version_at_value by apply Henv. apply (range_at_value version_cmp_slow).
Qed.

(** A comparison of [python_version] that is translated. *)
Lemma python_translation_runs op u P s :
  state_ok L s -> release_version u -> specifier_valid (mkSpecifier op u) ->
  (op = NotEqualStar -> all_zero (drop 2 (version_release u)) = true) ->
  (forall sigma, environment sigma ->
    P sigma = matches (mkSpecifier op u) (python_version_of (version_at sigma (VarVersion PythonFullVersion)))) ->
  runs L (let! specifier := lift_option (python_version_to_full_version (mkSpecifier op u)) in
    match specifier with
    | inl specifier =>
        let! edges := lift_option (edges_from_specifier specifier) in create_node (VarVersion PythonFullVersion) edges
    | inr node => ret node
    end) s (means environment P).
Proof.
  intros Hs Hu V Hstar HP. destruct (translation_uniform op u Hu V Hstar) as (t & Et & Hv & Ht). eapply runs_lift; [exact Et|].
  assert (Hval : forall sigma, environment sigma -> translated_matches t (version_at sigma (VarVersion PythonFullVersion)) = P sigma).
  { intros sigma Henv. rewrite (HP _ Henv). destruct Henv as [_ [Hrel (major & minor & rest & E)]]. by apply (Ht _ major minor rest). }
  destruct t as [x|node].
  - destruct (translated_edges_spec x Hv) as (r & Ee & Hrv & Hr). eapply runs_lift; [exact Ee|].
    apply version_range_runs; [done..|]. intros sigma Henv. rewrite <- (Hval _ Henv). apply Hr. apply Henv.
  - apply runs_ret; [done|]. split; [destruct Hv as [->| ->]; [apply true_valid|apply false_valid]|].
    intros sigma Henv. rewrite <- (Hval _ Henv). by destruct Hv as [->| ->].
Qed.

Lemma version_expression_runs key specifier s :
  state_ok L s -> expression_ok (ExprVersion key specifier) ->
  runs L (version_expression key specifier) s
    (means environment (fun sigma => expression_value sigma (ExprVersion key specifier))).
Proof.
  intros Hs V. destruct specifier as [op v]. cbn [expression_ok] in V.
  destruct (specifier_only_release_valid op v V) as (u & Eu & Hu & Er & V').
  destruct (edges_from_specifier_spec op v V) as (r & u' & Eu' & Ee & Hrv & Hr).
  rewrite Eu in Eu'. injection Eu' as <-.
  assert (Hfull : forall var, edges_kind var (EdgesVersion []) ->
    runs L (let! edges := lift_option (edges_from_specifier (mkSpecifier op v)) in create_node var edges) s
      (means environment (fun sigma => released_matches (mkSpecifier op v) (version_at sigma var)))).
  { intros var Hk. eapply runs_lift; [exact Ee|]. apply version_range_runs; [done..|].
    intros sigma [_ [Hrel _]]. unfold released_matches. rewrite Eu. by apply Hr. }
  destruct key; cbn [version_expression]; [by apply Hfull..|].
  eapply runs_lift; [exact Eu|]. unfold expression_value, patch_constant. cbn [specifier_version specifier_operator].
  case_bool_decide as Hstar; [subst op; destruct (has_patch v) eqn:Hp|]; cbn [andb].
  - unfold has_patch in Hp. rewrite <- Er in Hp. eapply runs_lift; [by apply patch_star_translation|]. apply runs_ret; [done|]. apply (means_terminal _ false).
  - apply (python_translation_runs NotEqualStar u); [done..| |].
    { intros _. rewrite Er. by apply negb_false_iff. }
    intros sigma _. cbn. unfold released_matches. by rewrite Eu.
  - apply (python_translation_runs op u); [done..|]. intros sigma _. cbn. unfold released_matches. by rewrite Eu.
Qed.

(** A segment that is one version. *)
Lemma point_contains u w :
  release_version u -> release_version w ->
  segment_contains version_cmp_slow w (Included u, Included u) = matches (equals_version u) w.
Proof.
  intros Hu Hw. destruct (slow_tests u w) as (_ & H1 & _ & H2 & _); [by apply (release_stands u Hu)|by apply (release_stands w Hw)|].
  unfold segment_contains. cbn [fst snd]. rewrite H1, H2. unfold version_le.
  destruct (release_cmp w Hw u Hu) as [-> ->]. destruct (matches_order w Hw u Hu) as [E _].
  unfold equals_version. rewrite E. by destruct (compare_release _ _).
Qed.

Lemma releases_contains versions :
  Forall version_real versions ->
  exists releases, mapM version_only_release versions = Some releases /\
    Forall comparable (segments_values ((fun v => (Included v, Included v)) <$> releases)) /\
    forall w, release_version w ->
      existsb (segment_contains version_cmp_slow w) ((fun v => (Included v, Included v)) <$> releases) =
      existsb (fun v => matches (equals_version (default v (version_only_release v))) w) versions.
Proof.
  induction 1 as [|v versions Hv _ (releases & E & Hval & IH)]; [exists []; split_and!; [done|apply Forall_nil_2|done]|].
  destruct (only_release_release v Hv) as (u & Eu & Hu & _). exists (u :: releases).
  cbn. rewrite Eu. cbn. rewrite E. split_and!; [done| |].
  { assert (Cu : comparable u) by by apply (release_stands u Hu). by do 2 (apply Forall_cons_2; [done|]). }
  intros w Hw. cbn.
  rewrite IH by done. by rewrite (point_contains u w Hu Hw).
Qed.

Lemma negated_contains operator r w :
  range_contains (negated_if operator r) w = xorb (bool_decide (operator = ContainerNotIn)) (range_contains r w).
Proof.
  unfold negated_if. case_decide as E; [rewrite bool_decide_eq_true_2 by done|rewrite bool_decide_eq_false_2 by done].
  - by rewrite (range_contains_complement (cmp := version_cmp_slow)).
  - by destruct (range_contains r w).
Qed.

Lemma negated_values operator segments :
  Forall comparable (segments_values segments) -> Forall comparable (range_values (negated_if operator (range_collect segments))).
Proof.
  intros H. assert (Hc : Forall comparable (range_values (range_collect segments))).
  { rewrite Forall_forall in *. intros v Hv. apply H. by apply (range_values_collect (cmp := version_cmp_slow)). }
  unfold negated_if. case_decide; [by apply complement_values_from|done].
Qed.

Lemma python_segments_spec versions :
  Forall version_real versions ->
  exists t, python_version_segments versions = Some t /\
    match t with
    | inr node => node = NODE_FALSE /\ existsb has_patch versions = true
    | inl segments => existsb has_patch versions = false /\ Forall comparable (segments_values segments) /\
        forall w major minor rest, release_version w -> version_release w = major :: minor :: rest ->
          existsb (segment_contains version_cmp_slow w) segments =
          existsb (fun v => matches (equals_version (default v (version_only_release v))) (python_version_of w)) versions
    end.
Proof.
  induction 1 as [|v versions Hv _ (t & E & IH)]; [exists (inl []); split_and!; [done|done|apply Forall_nil_2|done]|].
  destruct (only_release_release v Hv) as (u & Eu & Hu & Er). cbn [python_version_segments existsb]. rewrite Eu. cbn [mbind option_bind].
  unfold has_patch at 1 3. rewrite <- Er. destruct (all_zero (drop 2 (version_release u))) eqn:Hz.
  2: { rewrite (patch_equal_translation u Hu Hz). by exists (inr NODE_FALSE). }
  destruct (translation_uniform Equal u Hu (release_valid Equal u Hu ltac:(done)) ltac:(done)) as (t' & Et & Hvt & Ht).
  destruct (equal_translation u t' Hu Hz Et) as [[op u'] ->].
  change (equals_version u) with (mkSpecifier Equal u). rewrite Et. cbn [mbind option_bind].
  destruct Hvt as [[Hu' V']|[[Hop|Hop] _]]; [|by apply equal_translation_operator in Et; rewrite Et in Hop..].
  destruct (release_range_matches op u' true Hu' V') as (r & Er' & Hr). unfold specifier_range. rewrite Er'. cbn [mbind option_bind].
  rewrite E. cbn [mbind option_bind negb orb]. destruct t as [segments|node]; [|by exists (inr node)].
  destruct IH as (Hnone & Hval & IH). exists (inl (range_iter r ++ segments)). split_and!; [done|done| |].
  { unfold segments_values. rewrite bind_app. apply Forall_app_2; [|done]. by apply (specifier_range_values op u' true). }
  intros w major minor rest Hw Ew. rewrite existsb_app, <- (range_contains_iter (cmp := version_cmp_slow)).
  rewrite (IH w major minor rest Hw Ew), (Hr _ Hw). cbn [existsb default].
  f_equal. exact (Ht w major minor rest Hw Ew).
Qed.

Lemma version_in_expression_runs key versions operator s :
  state_ok L s -> expression_ok (ExprVersionIn key versions operator) ->
  runs L (version_in_expression key versions operator) s
    (means environment (fun sigma => expression_value sigma (ExprVersionIn key versions operator))).
Proof.
  intros Hs Hok. destruct (decide (key = MvPythonVersion)) as [->|Hne].
  - cbn [version_in_expression]. unfold edges_from_python_versions.
    destruct (python_segments_spec versions Hok) as (t & -> & Ht). cbn [mbind option_bind].
    unfold expression_value, patch_constant. destruct t as [segments|node].
    2: { destruct Ht as [-> ->]. eapply runs_lift; [done|]. apply runs_ret; [done|]. apply (means_terminal _ false). }
    destruct Ht as (-> & Hsv & Hseg).
    eapply runs_lift; [done|]. apply version_range_runs; [done..|by apply negated_values|].
    intros sigma [_ [Hrel (major & minor & rest & E)]]. cbn [expression_meaning version_value].
    rewrite negated_contains, (range_contains_collect (cmp := version_cmp_slow)). f_equal.
    by apply (Hseg _ major minor rest).
  - destruct (releases_contains versions Hok) as (releases & Er & Hrv & Hr).
    assert (Hrun : forall var, edges_kind var (EdgesVersion []) ->
      runs L (let! edges := lift_option (edges_from_versions versions operator) in create_node var edges) s
        (means environment (fun sigma => xorb (bool_decide (operator = ContainerNotIn))
          (existsb (fun v => matches (equals_version (default v (version_only_release v))) (version_at sigma var)) versions)))).
    { intros var Hk. unfold edges_from_versions. rewrite Er. cbn [mbind option_bind]. eapply runs_lift; [done|].
      apply version_range_runs; [done..|by apply negated_values|]. intros sigma [_ [Hrel _]].
      rewrite negated_contains, (range_contains_collect (cmp := version_cmp_slow)). f_equal. by apply Hr. }
    destruct key; [by apply Hrun..|done].
Qed.

(** ** Strings *)

Lemma string_range_spec key operator value :
  to_pep440_operator operator <> None -> operator <> MTildeEqual ->
  exists r, string_range key operator value = Some r /\
    forall s, range_contains r s = string_test key operator s value.
Proof.
  intros H1 H2. destruct operator; try done; cbn [string_range]; eexists; (split; [reflexivity|]); intros s;
    unfold string_test; destruct (bool_decide (key = PlatformRelease) || bool_decide (key = PlatformVersion)); cbn [andb];
    rewrite ?(range_contains_complement (cmp := string_cmp)), ?singleton_string,
      ?(range_contains_strictly_higher (cmp := string_cmp)), ?(range_contains_higher (cmp := string_cmp)),
      ?(range_contains_strictly_lower (cmp := string_cmp)), ?(range_contains_lower (cmp := string_cmp)),
      ?(range_contains_empty (cmp := string_cmp)); done.
Qed.

Lemma environment_allowed sigma : environment sigma -> allowed sigma.
Proof. by intros [[]]. Qed.

Lemma or_with_and xi yi : or_with (C := C) and xi yi = or xi yi.
Proof. done. Qed.

(** The specifier of a release is valid, and parsing it does not panic. *)
Lemma release_specifier_spec operator value :
  Forall is_u8 value ->
  match release_specifier operator value with
  | None => False
  | Some None => True
  | Some (Some specifier) => specifier_valid specifier
  end.
Proof.
  intros Hv. unfold release_specifier. destruct (to_pep440_operator operator) as [op|] eqn:Eo; [|done].
  pose proof (pattern_from_str_spec value Hv) as Hp. destruct (version_pattern_from_str value) as [pat|err|]; [|done|done].
  destruct (specifier_from_pattern op pat) as [x|] eqn:Ex; [|done]. destruct Hp as [P1 P2].
  eapply from_pattern_valid; [done..|]. by destruct operator; cbn in Eo; injection Eo as <- || done.
Qed.

(** [a] where [sys_platform] is Darwin, [b] elsewhere. *)
Lemma darwin_split_runs P Q version string s :
  state_ok L s -> means environment P version (nodes s.1) -> means environment Q string (nodes s.1) ->
  runs L (let! darwin := darwin_node in
          let! version := and darwin version in
          let! string := and (node_not darwin) string in
          or_with and version string) s
    (means environment (fun sigma =>
       if bool_decide (string_at sigma (VarString SysPlatform) = bytes "darwin") then P sigma else Q sigma)).
Proof.
  intros Hs Hv Hstr. unfold darwin_node. eapply runs_bind.
  { eapply runs_lift; [done|]. by apply (string_node_runs L environment). }
  intros darwin s1 Hs1 Hp1 Hd.
  assert (Hstep : forall s' R i, state_ok L s' -> nodes s.1 `prefix_of` nodes s'.1 ->
    means environment R i (nodes s.1) -> means environment R i (nodes s'.1)).
  { intros s' R i Hs' Hp Hm. eapply means_stable; [apply Hs|apply Hs'|done..]. }
  eapply runs_bind; [apply (and_means L environment); [apply environment_allowed|done|exact Hd|by apply Hstep]|].
  intros version' s2 Hs2 Hp2 Hv2. assert (Hp02 : nodes s.1 `prefix_of` nodes s2.1) by by etransitivity.
  assert (Hd2 : means environment _ darwin (nodes s2.1)) by (eapply means_stable; [apply Hs1|apply Hs2|done..]).
  eapply runs_bind.
  { apply (and_means L environment); [apply environment_allowed|done| |by apply Hstep].
    apply means_not; [apply Hs2|exact Hd2]. }
  intros string' s3 Hs3 Hp3 Hst3. eapply runs_weaken.
  { rewrite or_with_and. apply (or_means L environment); [apply environment_allowed|done| |exact Hst3].
    eapply means_stable; [apply Hs2|apply Hs3|done|exact Hv2]. }
  intros i table _ _. apply means_ext. intros sigma Henv. cbn. rewrite singleton_point, string_at_value by apply Henv.
  destruct (decide (string_at sigma (VarString SysPlatform) = bytes "darwin")) as [E|E].
  - rewrite !bool_decide_eq_true_2 by (by rewrite ?E). apply orb_false_r.
  - rewrite !bool_decide_eq_false_2; [done|done|by intros [= ?]].
Qed.

Lemma string_expression_runs key operator value s :
  state_ok L s -> to_pep440_operator operator <> None -> operator <> MTildeEqual -> Forall is_u8 value ->
  runs L (string_expression and key operator value) s
    (means environment (fun sigma => string_value sigma key operator value)).
Proof.
  intros Hs H1 H2 Hval. unfold string_expression, string_value.
  destruct (lower_string key value) as [k v] eqn:El.
  assert (Hv : Forall is_u8 v).
  { replace v with (lower_string key value).2 by by rewrite El. clear El. unfold lower_string.
    destruct key; try exact Hval. repeat case_decide; first [apply bytes_u8|exact Hval]. }
  destruct (string_range_spec k operator v H1 H2) as (r & Er & Hr). unfold edges_from_string. rewrite Er.
  eapply runs_lift; [done|].
  eapply runs_bind; [by apply (string_node_runs L environment)|]. intros string s1 Hs1 Hp1 Hstr.
  apply (means_ext _ _ (fun sigma => string_test k operator (string_at sigma (VarString k)) v)) in Hstr;
    [|intros sigma Henv; by rewrite <- Hr, string_at_value, (range_at_value string_cmp) by apply Henv].
  pose proof (release_specifier_spec operator v Hv) as Hspec.
  case_bool_decide as Ek.
  - subst k. destruct (release_specifier operator v) as [[[op u]|]|]; [| |done]; cbn [lift_option].
    + eapply runs_lift; [done|]. destruct (edges_from_specifier_spec op u Hspec) as (r' & u' & Eu' & Ee & Hrv' & Hr').
      eapply runs_lift; [exact Ee|].
      eapply runs_bind; [apply (version_range_runs _ _
        (fun sigma => released_matches (mkSpecifier op u) (version_at sigma (VarVersionString PlatformRelease)))); [done..|]|].
      { intros sigma [_ [Hrel _]]. unfold released_matches. rewrite Eu'. by apply Hr'. }
      intros version s2 Hs2 Hp2 Hver. apply darwin_split_runs; [done..|].
      eapply means_stable; [apply Hs1|apply Hs2|done..].
    + eapply runs_lift; [done|]. by apply runs_ret.
  - apply runs_ret; [done|]. by destruct (release_specifier operator v) as [[|]|].
Qed.

(** ** All expressions *)

Lemma bool_expression_runs var b (P : Valuation -> bool) s :
  state_ok L s -> edges_kind var (EdgesBoolean 0 0) ->
  (forall sigma, Bool.eqb b (bool_at sigma var) = P sigma) ->
  runs L (create_node var (edges_from_bool b)) s (means environment P).
Proof.
  intros Hs Hk H. eapply runs_weaken; [by apply (bool_node_runs L environment)|].
  intros i table _ _. apply means_ext. by intros.
Qed.

Lemma expression_runs expr s :
  state_ok L s -> expression_ok expr ->
  runs L (expression expr) s (means environment (fun sigma => expression_value sigma expr)).
Proof.
  intros Hs Hok. unfold expression, expression_value. destruct expr as [key spec|key vs op|key op value|p op|[extra|name] op].
  - by apply (version_expression_runs key spec).
  - by apply (version_in_expression_runs key vs op).
  - destruct Hok as [Hne Hval]. destruct op; try done; cbn [expression_with expression_meaning patch_constant];
      first [by apply string_expression_runs
            |apply bool_expression_runs; [done|done|intros sigma; by destruct (bool_at _ _)]].
  - cbn [expression_with expression_meaning patch_constant]. apply bool_expression_runs; [done|done|].
    intros sigma. by destruct op, (bool_at _ _).
  - destruct op; cbn [expression_with expression_meaning patch_constant]; (apply bool_expression_runs; [done|done|]);
      intros sigma; by destruct (bool_at _ _).
  - cbn [expression_with expression_meaning patch_constant]. apply runs_ret; [done|]. split; [apply false_valid|done].
Qed.
End ExpressionRuns.
