(* ===== verification/RestrictFacts.v ===== *)
(** * Markers: restriction, verified

    The operations that rewrite a marker: their results have the value of the marker under the
    assumption, or after the substitution, that the operation stands for. *)

From stdpp Require Import base countable list option numbers decidable strings gmap.
From Stdlib Require Import ZArith Lia.
From S2P Require Import Prelude Ranges VersionTypes VersionSmall Version VersionOrder VersionParser.
From S2P Require Import VersionSpecifier MarkerTypes Interner MarkerAlgebra MarkerRestrict.
From S2P Require Import MarkerEval InternerFacts EdgesFacts AlgebraFacts ExclusionFacts.

Local Open Scope Z_scope.
Local Open Scope uv_scope.

Section Rewriting.
Context {RV : RangeOps Version} {RS : RangeOps (list Z)}.
Context {LV : RangeLaws version_cmp_slow} {LS : RangeLaws string_cmp}.

(** ** Rewriting the children of a node *)

(** A node that replaces another, without new variables. *)
Record replaces (table : list Node) (i r : NodeId) : Prop := {
  replaces_old : node_valid table i;
  replaces_new : node_valid table r;
  replaces_vars : forall P, all_vars table P i -> all_vars table P r
}.

Lemma replaces_stable i r : stable (fun table => replaces table i r).
Proof.
  intros table table' Hok Hok' Hp [H1 H2 H3]. split; [extend..|]. intros P.
  rewrite !(all_vars_extend table table') by done. apply H3.
Qed.

Section Map.
Context {C : Type} (L : C -> list Node -> Prop) {HL : LocalInvariant L}.

(** The result of a map over the children of [i]. *)
Record rewritten (S : NodeId -> NodeId -> list Node -> Prop) (table : list Node) (i : NodeId) (node : Node)
    (r : NodeId) : Prop := {
  rewritten_replaces : replaces table i r;
  rewritten_vars : forall P : MarkerVariable -> Prop, P (node_var node) ->
    (forall c d, c ∈ edges_nodes (node_children node) -> S (node_negate c i) d table -> all_vars table P d) ->
    all_vars table P r;
  rewritten_eval : forall sigma, exists c d,
    edges_select sigma (node_var node) (node_children node) = [c] /\ c ∈ edges_nodes (node_children node) /\
    S (node_negate c i) d table /\ eval table sigma r = eval table sigma d
}.

Lemma map_create_runs (S : NodeId -> NodeId -> list Node -> Prop) (f : NodeId -> M C NodeId) i node s :
  (forall c d, stable (S c d)) -> (forall c d table, S c d table -> replaces table c d) ->
  state_ok L s -> node_valid (nodes s.1) i -> node_at (nodes s.1) i = Some node ->
  (forall c s', c ∈ edges_nodes (node_children node) -> state_ok L s' -> nodes s.1 `prefix_of` nodes s'.1 ->
    runs L (f (node_negate c i)) s' (S (node_negate c i))) ->
  runs L (let! children := edges_map (node_children node) i f in create_node (node_var node) children) s
    (fun r table => rewritten S table i node r).
Proof.
  intros HS Hrep Hs Hi En Hf. pose proof (ok_table _ (proj1 Hs)) as Hok.
  pose proof (node_at_ok _ _ _ Hok En) as [K1 K2 K3 K4 K5].
  assert (HR : forall c d, stable (S (node_negate c i) d)) by (intros; apply HS).
  eapply runs_bind.
  { by apply (edges_map_runs L f (fun c d => S (node_negate c i) d) i (node_var node)). }
  intros out s' Hs' Hp [H1 H2 H3 H4]. pose proof (ok_table _ (proj1 Hs')) as Hok'.
  assert (Hout : edges_ok (nodes s'.1) (node_var node) out).
  { split; [done| | | |by apply H4].
    - intros sigma. destruct (K2 sigma) as [c Ec]. destruct (H3 _ _ Ec) as (d & Ed & _). by exists d.
    - intros d (c & Hc & Hd)%H2. apply (Hrep _ _ _ Hd).
    - intros d (c & Hc & Hd)%H2. destruct (Hrep _ _ _ Hd) as [R1 R2 R3].
      apply before_all_vars; [done..|]. apply R3, before_all_vars; [done..|].
      apply (before_extend (nodes s.1)); [done|apply negate_valid, K3, Hc|].
      apply before_negate; [by apply K3|by apply K4]. }
  eapply runs_weaken; [by apply (create_node_runs L)|]. intros r table Ht Hp' [D1 D2 D3].
  assert (HSt : forall c d, S c d (nodes s'.1) -> S c d table) by (intros c d; by apply (HS c d)).
  assert (Hpt : nodes s.1 `prefix_of` table) by by etransitivity.
  assert (En' : node_at table i = Some node) by extend.
  split; [split; [extend|done|]| |].
  - intros P HP. apply D3; [by apply (all_vars_top _ _ _ _ En' HP)|]. intros d (c & Hc & Hd)%H2.
    apply (replaces_vars _ _ _ (Hrep _ _ _ (HSt _ _ Hd))). apply all_vars_negate; [by apply K3|].
    by apply (all_vars_child _ _ _ _ _ En' HP).
  - intros P HP HPd. apply D3; [done|]. intros d (c & Hc & Hd)%H2. by apply (HPd c d Hc), HSt.
  - intros sigma. destruct (total_select sigma _ _ K2) as (c & Ec & Hc). destruct (H3 _ _ Ec) as (d & Ed & Hd).
    exists c, d. split_and!; [done..|by apply HSt|by apply D2].
Qed.
End Map.

(** ** Restriction of boolean variables *)

Section RestrictBy.
Context (f : MarkerVariable -> option bool).

(** The valuation that has the values of [f]. *)
Definition assign (sigma : Valuation) : Valuation :=
  mkValuation (version_at sigma) (string_at sigma) (fun var => default (bool_at sigma var) (f var))
    (offset_at sigma).

Definition restricts (i r : NodeId) (table : list Node) : Prop :=
  replaces table i r /\ forall sigma, eval table sigma r = eval table (assign sigma) i.

Lemma restricts_stable i r : stable (restricts i r).
Proof.
  intros table table' Hok Hok' Hp [H1 H2]. split; [by apply (replaces_stable _ _ table)|]. intros sigma.
  destruct H1. by rewrite !(eval_extend table table').
Qed.

Definition restrict_local (cache : option node_cache) (table : list Node) : Prop :=
  forall m i r, cache = Some m -> m !! i = Some r -> restricts i r table.

#[local] Instance restrict_local_invariant : LocalInvariant restrict_local.
Proof.
  intros cache table table' Hok Hok' Hp H m i r Em Ei. apply (restricts_stable _ _ table); [done..|]. by eapply H.
Qed.

Lemma restrict_local_insert cache m i r table :
  restrict_local cache table -> cache = Some m -> restricts i r table -> restrict_local (Some (<[i := r]> m)) table.
Proof.
  intros Hc -> Hr m' j r' [= <-]. destruct (decide (i = j)) as [->|Hne].
  - rewrite lookup_insert_eq. by intros [= <-].
  - rewrite lookup_insert_ne by done. by apply Hc.
Qed.

(** A decision that [f] does not take. *)
Lemma assign_select sigma node :
  match node_children node, f (node_var node) with EdgesBoolean _ _, Some _ => False | _, _ => True end ->
  edges_select (assign sigma) (node_var node) (node_children node) =
    edges_select sigma (node_var node) (node_children node).
Proof. destruct (node_children node); cbn; [done..|]. by destruct (f (node_var node)). Qed.

Lemma restricts_rewritten table i node r :
  table_ok table -> node_at table i = Some node ->
  match node_children node, f (node_var node) with EdgesBoolean _ _, Some _ => False | _, _ => True end ->
  rewritten (fun c d => restricts c d) table i node r -> restricts i r table.
Proof.
  intros Hok En Hf [H1 _ H2]. split; [done|]. intros sigma.
  destruct (H2 sigma) as (c & d & Ec & _ & [_ Hd] & ->).
  destruct (eval_node table (assign sigma) i node Hok En) as (c' & Ec' & _ & ->).
  rewrite assign_select, Ec in Ec' by done. injection Ec' as <-. apply Hd.
Qed.

(** A decision that [f] takes. *)
Lemma restricts_taken table i node high low value r :
  table_ok table -> node_valid table i -> node_at table i = Some node ->
  node_children node = EdgesBoolean high low -> f (node_var node) = Some value ->
  restricts (node_negate (if value then high else low) i) r table -> restricts i r table.
Proof.
  intros Hok Hi En Ee Ef [[R1 R2 R3] He]. assert (Hin : (if value then high else low) ∈ edges_nodes (node_children node)).
  { rewrite Ee. destruct value; set_solver. }
  split; [split; [done..|]|].
  - intros P HP. apply R3, all_vars_negate; [|by apply (all_vars_child _ _ _ _ _ En HP)].
    by apply (ok_valid _ _ _ (node_at_ok _ _ _ Hok En)).
  - intros sigma. rewrite He. destruct (eval_node table (assign sigma) i node Hok En) as (c & Ec & _ & ->).
    rewrite Ee in Ec. cbn in Ec. rewrite Ef in Ec. by injection Ec as <-.
Qed.

Lemma restrict_step_runs (rec : NodeId -> M (option node_cache) NodeId) i node s :
  state_ok restrict_local s -> node_valid (nodes s.1) i -> node_at (nodes s.1) i = Some node ->
  (forall j s', state_ok restrict_local s' -> node_valid (nodes s'.1) j -> (node_rank j < node_rank i)%nat ->
    runs restrict_local (rec j) s' (restricts j)) ->
  runs restrict_local
    match node_children node, f (node_var node) with
    | EdgesBoolean high low, Some value => rec (node_negate (if (value : bool) then high else low) i)
    | children, _ =>
        (if negb (bool_decide (is_Some s.2)) && has_multiple_nonterminal_children children
         then set_local (Some ∅) else ret ()) ;;
        let! children := edges_map children i rec in
        create_node (node_var node) children
    end s (restricts i).
Proof.
  intros Hs Hi En Hrec. pose proof (ok_table _ (proj1 Hs)) as Hok.
  assert (Hmap : forall b : bool,
    match node_children node, f (node_var node) with EdgesBoolean _ _, Some _ => False | _, _ => True end ->
    runs restrict_local ((if b then set_local (Some ∅) else ret ()) ;;
      let! children := edges_map (node_children node) i rec in create_node (node_var node) children) s (restricts i)).
  { intros b Hf. assert (Hs0 : state_ok restrict_local (s.1, if b then Some ∅ else s.2)).
    { split; [apply Hs|]. destruct b; [|apply Hs]. intros m j r [= <-]. by rewrite lookup_empty. }
    assert (Hrun : runs restrict_local (let! children := edges_map (node_children node) i rec in
      create_node (node_var node) children) (s.1, if b then Some ∅ else s.2) (restricts i)).
    { eapply runs_weaken; [apply (map_create_runs restrict_local (fun c d => restricts c d)); [|..|done|done|done|]|].
      - intros. apply restricts_stable.
      - by intros c d table [H _].
      - intros c s' Hc Hs' Hp. destruct (child_operand _ _ s' i node c Hs0 Hs' Hp En Hc) as [Hv Hr]. by apply Hrec.
      - intros r table Ht Hp. apply restricts_rewritten; [done|cbn in Hp; extend|done]. }
    destruct b; [exact Hrun|]. by destruct s. }
  destruct (node_children node) as [e|e|high low] eqn:Ee; [by apply Hmap..|].
  destruct (f (node_var node)) as [value|] eqn:Ef; [|by apply Hmap].
  assert (Hc : (if value then high else low) ∈ edges_nodes (node_children node)) by (rewrite Ee; destruct value; set_solver).
  destruct (child_operand _ s s i node _ Hs Hs ltac:(done) En Hc) as [Hv Hr].
  eapply runs_weaken; [by apply Hrec|]. intros r table Ht Hp.
  apply (restricts_taken table i node high low value r); [done|extend|extend|done..].
Qed.

Lemma restrict_by_cached_runs fuel i s :
  state_ok restrict_local s -> node_valid (nodes s.1) i -> (node_rank i <= fuel)%nat ->
  runs restrict_local (restrict_by_cached fuel f i) s (restricts i).
Proof.
  revert i s. induction fuel as [|fuel IH]; intros i s Hs Hi Hf; cbn [restrict_by_cached];
    (destruct (node_is_true i || node_is_false i) eqn:Et;
     [apply runs_ret; [done|]; split; [by split|]; intros sigma;
      by apply orb_true_iff in Et as [->%node_is_true_spec| ->%node_is_false_spec]|]);
    apply orb_false_iff in Et as [Et Ef]; destruct (node_valid_at _ _ Hi Et Ef) as (node & En & Er & _); [lia|].
  apply runs_get_local.
  destruct (s.2 ≫= (fun cache => cache !! i)) as [r|] eqn:Ec.
  { apply runs_ret; [done|]. apply bind_Some in Ec as (m & Em & Ei). by apply (proj2 Hs m). }
  apply (runs_get_node _ _ node); [done|]. eapply runs_bind.
  { apply (restrict_step_runs (restrict_by_cached fuel f)); [done..|]. intros j s' Hs' Hj Hr. apply IH; [done..|lia]. }
  intros r s' Hs' Hp Hr. apply runs_get_local. destruct s'.2 as [m|] eqn:Em; [|by apply runs_ret].
  case_bool_decide; [|by apply runs_ret]. apply runs_set_local, runs_ret; [|done].
  split; [apply Hs'|]. cbn. eapply restrict_local_insert; [apply Hs'|done..].
Qed.

(** The result has the value of the node where [f] decides. *)
Lemma restrict_by_runs {C : Type} (L : C -> list Node -> Prop) {HL : LocalInvariant L} i s :
  state_ok L s -> node_valid (nodes s.1) i -> runs L (restrict_by i f) s (restricts i).
Proof.
  intros Hs Hi. unfold restrict_by. apply (with_cache_runs L restrict_local); [done|].
  apply restrict_by_cached_runs; [|done..]. split; [apply Hs|]. by intros m j r [=].
Qed.
End RestrictBy.
End Rewriting.

(** * Markers: quantification over extras, verified

    [without_extras] and [only_extras]: a marker without extras holds where some choice of extras
    makes the marker hold; the extras of a marker hold where the marker does. *)

(** ** Variables that are left *)

(** The variables after [var]. *)
Definition later (var : MarkerVariable) (l : list MarkerVariable) : list MarkerVariable :=
  List.filter (fun v => bool_decide (variable_cmp var v = Lt)) l.

Lemma later_elem var l v : v ∈ later var l <-> v ∈ l /\ variable_cmp var v = Lt.
Proof.
  unfold later. rewrite list_elem_of_In, filter_In, <- list_elem_of_In. by rewrite bool_decide_eq_true.
Qed.

Lemma later_shorter var l : var ∈ l -> (length (later var l) < length l)%nat.
Proof.
  unfold later. induction l as [|v l IH]; [by intros ?%elem_of_nil|]. intros [->|Hin]%elem_of_cons.
  - cbn. rewrite bool_decide_eq_false_2 by by rewrite (cmp_refl variable_cmp). clear IH.
    apply Nat.lt_succ_r. induction l as [|w l IH]; [done|]. cbn. case_bool_decide; cbn; lia.
  - specialize (IH Hin). cbn. case_bool_decide; cbn; lia.
Qed.

Section Quantify.
Context {RV : RangeOps Version} {RS : RangeOps (list Z)}.
Context {LV : RangeLaws version_cmp_slow} {LS : RangeLaws string_cmp}.

(** The children of a node have fewer variables. *)
Lemma child_later table l i node c :
  table_ok table -> node_at table i = Some node -> all_vars table (fun v => v ∈ l) i ->
  c ∈ edges_nodes (node_children node) -> all_vars table (fun v => v ∈ later (node_var node) l) c.
Proof.
  intros Hok En Hl Hc. eapply all_vars_weaken; [|by apply (all_vars_later table l i node c)].
  intros v. cbn. by rewrite later_elem.
Qed.

(** *** Disjunction of the children *)

Section OrChildren.
Context {C : Type} (L : C -> list Node -> Prop) {HL : LocalInvariant L}.

Record or_all (table : list Node) (children : list NodeId) (parent i r : NodeId) : Prop := {
  or_all_valid : node_valid table r;
  or_all_eval : forall sigma, allowed sigma -> eval table sigma r =
    eval table sigma i || existsb (fun c => eval table sigma (node_negate c parent)) children;
  or_all_vars : forall P, all_vars table P i -> (forall c, c ∈ children -> all_vars table P c) -> all_vars table P r
}.

Lemma or_all_stable children parent i r :
  stable (fun table => node_valid table i /\ (forall c, c ∈ children -> node_valid table c) /\
    or_all table children parent i r).
Proof.
  intros table table' Hok Hok' Hp (Hi & Hc & [H1 H2 H3]). split; [extend|]. split; [intros c Hin%Hc; extend|].
  split; [extend| |].
  - intros sigma Hs. rewrite !(eval_extend table table'), (H2 _ Hs) by done. f_equal.
    apply eq_true_iff_eq. rewrite !existsb_exists.
    split; intros (c & Hin & He); exists c; (split; [done|]); apply list_elem_of_In in Hin;
      revert He; rewrite (eval_extend table table') by (done || by apply negate_valid, Hc); done.
  - intros P. rewrite !(all_vars_extend table table') by done. intros HP HPc. apply H3; [done|].
    intros c Hin. apply (all_vars_extend table table'); [done..|by apply Hc|by apply HPc].
Qed.

Lemma or_children_runs children parent i s :
  state_ok L s -> node_valid (nodes s.1) i -> (forall c, c ∈ children -> node_valid (nodes s.1) c) ->
  runs L (or_children children parent i) s (fun r table => or_all table children parent i r).
Proof.
  revert i s. induction children as [|c children IH]; intros i s Hs Hi Hc; cbn [or_children].
  - apply runs_ret; [done|]. split; [done|intros; by rewrite orb_false_r|done].
  - eapply runs_bind; [apply (or_runs L); [done..|apply negate_valid, Hc; set_solver]|].
    intros j s1 Hs1 Hp1 [J1 J2 J3]. eapply runs_weaken.
    { apply IH; [done..|]. intros c' Hc'. eapply valid_extend; [done|]. apply Hc. set_solver. }
    intros r table Hok Hp [R1 R2 R3]. pose proof (ok_table _ (proj1 Hs)). pose proof (ok_table _ (proj1 Hs1)).
    assert (Hp' : nodes s.1 `prefix_of` table) by by etransitivity.
    assert (Hvc : node_valid (nodes s.1) c) by (apply Hc; set_solver).
    split; [done| |].
    + intros sigma Hs'. rewrite (R2 _ Hs'), (eval_extend (nodes s1.1) table), (J2 _ Hs') by done.
      rewrite !(eval_extend (nodes s.1) (nodes s1.1)) by (done || by apply negate_valid).
      cbn [existsb]. rewrite <- orb_assoc. f_equal; [by rewrite (eval_extend (nodes s.1) table)|].
      f_equal. symmetry. apply eval_extend; [done..|by apply negate_valid].
    + intros P HPi HPc. apply R3; [|intros c' Hc'; apply HPc; set_solver].
      apply (all_vars_extend (nodes s1.1)); [done..|].
      apply J3; apply (all_vars_extend (nodes s1.1) table); try done; [extend|by apply negate_valid; extend|].
      apply all_vars_negate; [apply Hvc|]. apply HPc. set_solver.
Qed.
End OrChildren.

(** ** Markers without extras *)

(** A valuation with other extras. *)
Definition with_extras (extras : list Z -> bool) (sigma : Valuation) : Valuation :=
  mkValuation (version_at sigma) (string_at sigma)
    (fun var => match var with VarExtra name => extras name | _ => bool_at sigma var end) (offset_at sigma).

Definition not_extra (var : MarkerVariable) : Prop := is_extra var = false.

(** [r] has no extras, and holds where some choice of extras makes [i] hold. *)
Record quantifies (i r : NodeId) (table : list Node) : Prop := {
  quantifies_replaces : replaces table i r;
  quantifies_vars : all_vars table not_extra r;
  quantifies_intro : forall sigma extras, allowed sigma ->
    eval table (with_extras extras sigma) i = true -> eval table sigma r = true;
  quantifies_elim : forall sigma, allowed sigma -> eval table sigma r = true ->
    exists extras, eval table (with_extras extras sigma) i = true
}.

Lemma quantifies_stable i r : stable (quantifies i r).
Proof.
  intros table table' Hok Hok' Hp [H1 H2 H3 H4]. pose proof H1 as [V1 V2 _]. split.
  - by apply (replaces_stable _ _ table).
  - by apply (all_vars_extend table).
  - intros sigma extras. rewrite !(eval_extend table table') by done. exact (H3 sigma extras).
  - intros sigma Hs. rewrite (eval_extend table table') by done. intros (extras & He)%H4; [|done].
    exists extras. by rewrite (eval_extend table table').
Qed.

Lemma quantifies_terminal i table : i = NODE_TRUE \/ i = NODE_FALSE -> quantifies i i table.
Proof.
  intros Hi. assert (Hv : node_valid table i) by (destruct Hi as [->| ->]; [apply true_valid|apply false_valid]).
  split; [by split|by apply all_vars_true| |]; destruct Hi as [->| ->]; try done.
  by exists (fun _ => false).
Qed.

(** A decision that is not on an extra. *)
Lemma quantifies_rewritten table i node r :
  table_ok table -> node_at table i = Some node -> not_extra (node_var node) ->
  rewritten (fun c d => quantifies c d) table i node r -> quantifies i r table.
Proof.
  intros Hok En Hx [H1 Hvars H2]. split; [done| | |].
  - apply Hvars; [done|]. intros c d _ Hd. exact (quantifies_vars _ _ _ Hd).
  - intros sigma extras Hs. destruct (H2 sigma) as (c & d & Ec & _ & Hd & ->).
    destruct (eval_node table (with_extras extras sigma) i node Hok En) as (c' & Ec' & _ & ->).
    assert (c' = c) as ->; [|by apply Hd].
    cut ([c'] = [c]); [by intros [=]|]. rewrite <- Ec, <- Ec'. apply agree_select. split_and!; [done|done| |done].
    cbn. by destruct (node_var node).
  - intros sigma Hs. destruct (H2 sigma) as (c & d & Ec & _ & Hd & ->). intros Ht.
    destruct (quantifies_elim _ _ _ Hd sigma Hs Ht) as [extras He]. exists extras.
    destruct (eval_node table (with_extras extras sigma) i node Hok En) as (c' & Ec' & _ & ->).
    assert (c' = c) as ->; [|done].
    cut ([c'] = [c]); [by intros [=]|]. rewrite <- Ec, <- Ec'. apply agree_select. split_and!; [done|done| |done].
    cbn. by destruct (node_var node).
Qed.

(** A decision on an extra: one of its children holds. *)
Lemma quantifies_decision table i node j r :
  table_ok table -> node_valid table i -> node_at table i = Some node -> is_extra (node_var node) = true ->
  or_all table (edges_nodes (node_children node)) i NODE_FALSE j -> quantifies j r table -> quantifies i r table.
Proof.
  intros Hok Hi En Hx [J1 J2 J3] [[R1 R2 R3] R4 R5 R6]. pose proof (node_at_ok _ _ _ Hok En) as [K1 K2 K3 K4].
  split; [split; [done..|]|done| |].
  - intros P HP. apply R3, J3; [by apply all_vars_true; right|]. intros c. by apply (all_vars_child _ _ _ _ _ En HP).
  - intros sigma extras Hs Ht. apply (R5 sigma extras Hs). rewrite (J2 (with_extras extras sigma) Hs). cbn [orb].
    destruct (eval_node table (with_extras extras sigma) i node Hok En) as (c & _ & Hc & E). rewrite E in Ht.
    apply orb_true_iff. right. apply existsb_exists. exists c. split; [by apply list_elem_of_In|done].
  - intros sigma Hs Ht. destruct (R6 sigma Hs Ht) as [extras He]. rewrite (J2 (with_extras extras sigma) Hs) in He.
    cbn [orb] in He. apply existsb_exists in He as (c & Hc%list_elem_of_In & He).
    destruct (node_var node) as [| | | | |name|] eqn:Ev; try done.
    destruct (node_children node) as [|e|high low] eqn:Ee; [done..|].
    exists (fun n => if decide (n = name) then bool_decide (c = high) else extras n).
    set (extras' := fun n => if decide (n = name) then bool_decide (c = high) else extras n).
    destruct (eval_node table (with_extras extras' sigma) i node Hok En) as (c' & Ec' & _ & ->).
    rewrite Ev, Ee in Ec'. cbn in Ec'. unfold extras' in Ec' at 1. rewrite decide_True in Ec' by done.
    assert (c' = c) as ->.
    { injection Ec' as <-. case_bool_decide; [done|]. set_solver. }
    rewrite <- He. apply eval_agree; [done|by apply negate_valid, K3|].
    eapply all_vars_weaken; [|apply (before_all_vars table (VarExtra name)); [done|by apply negate_valid, K3|]].
    + intros var Hlt. split_and!; [done|done| |done]. cbn. destruct var; try done. unfold extras'.
      rewrite decide_False; [done|]. intros ->. by rewrite (cmp_refl variable_cmp) in Hlt.
    + apply before_negate; [by apply K3|by apply K4].
Qed.

Notation quantify_local := (caches (K := Z) (V := Z) quantifies).

#[local] Instance quantify_local_invariant : LocalInvariant quantify_local.
Proof. apply caches_local, quantifies_stable. Qed.

Lemma without_extras_cached_runs fuel l i s :
  state_ok quantify_local s -> node_valid (nodes s.1) i -> all_vars (nodes s.1) (fun v => v ∈ l) i ->
  (length l <= fuel)%nat -> runs quantify_local (without_extras_cached fuel i) s (quantifies i).
Proof.
  revert l i s. induction fuel as [|fuel IH]; intros l i s Hs Hi Hl Hf; cbn [without_extras_cached];
    (destruct (node_is_true i || node_is_false i) eqn:Et;
     [apply runs_ret; [done|]; apply quantifies_terminal;
      apply orb_true_iff in Et as [->%node_is_true_spec| ->%node_is_false_spec]; tauto|]);
    apply orb_false_iff in Et as [Et Ef]; destruct (node_valid_at _ _ Hi Et Ef) as (node & En & Er & _);
    pose proof (later_shorter _ _ (all_vars_top _ _ _ _ En Hl)) as Hlater; [lia|].
  pose proof (ok_table _ (proj1 Hs)) as Hok. pose proof (node_at_ok _ _ _ Hok En) as [_ _ K3 _].
  apply runs_get_local. destruct (s.2 !! i) as [r|] eqn:Ec; [apply runs_ret; [done|]; by apply (proj2 Hs)|].
  apply (runs_get_node _ _ node); [done|]. eapply runs_bind.
  - destruct (is_extra (node_var node)) eqn:Ex.
    + eapply runs_bind; [apply (or_children_runs quantify_local); [done|apply false_valid|done]|].
      intros j s1 Hs1 Hp1 Hj. pose proof (ok_table _ (proj1 Hs1)) as Hok1.
      assert (Hch : forall c, c ∈ edges_nodes (node_children node) -> node_valid (nodes s1.1) c)
        by (intros c Hc%K3; extend).
      destruct (node_is_true j) eqn:Ej.
      * apply node_is_true_spec in Ej as ->. apply runs_ret; [done|].
        apply (quantifies_decision _ i node NODE_TRUE NODE_TRUE); [done|extend|extend|done|done|].
        apply quantifies_terminal. by left.
      * eapply runs_weaken.
        { apply (IH (later (node_var node) l) j s1); [done|apply Hj| |lia].
          apply (or_all_vars _ _ _ _ _ Hj); [apply all_vars_true; by right|]. intros c Hc.
          apply (all_vars_extend (nodes s.1)); [done|done|by apply K3|]. by apply (child_later _ _ i). }
        intros r table Ht Hp Hr. apply (quantifies_decision _ i node j r); [done|extend|extend|done| |done].
        by apply (or_all_stable _ _ _ _ (nodes s1.1)); [..|split_and!; [apply false_valid|done|done]].
    + eapply runs_weaken; [apply (map_create_runs quantify_local (fun c d => quantifies c d)); [..|done|done|done|]|].
      * intros. apply quantifies_stable.
      * by intros c d table [H].
      * intros c s' Hc Hs' Hp. destruct (child_operand _ _ s' i node c Hs Hs' Hp En Hc) as [Hv Hr].
        apply (IH (later (node_var node) l)); [done..| |lia].
        apply (all_vars_extend (nodes s.1)); [done|done|by apply negate_valid, K3|].
        apply all_vars_negate; [by apply K3|]. by apply (child_later _ _ i).
      * intros r table Ht Hp. apply quantifies_rewritten; [done|extend|done].
  - intros r s' Hs' Hp Hr. apply runs_get_local, runs_set_local, runs_ret; [|done].
    split; [apply Hs'|]. by apply caches_insert; [apply Hs'|].
Qed.

Lemma without_extras_runs {C : Type} (L : C -> list Node -> Prop) {HL : LocalInvariant L} i s :
  state_ok L s -> node_valid (nodes s.1) i -> runs L (without_extras i) s (quantifies i).
Proof.
  intros Hs Hi. unfold without_extras. apply runs_get_interner, (with_cache_runs L quantify_local); [done|].
  apply (without_extras_cached_runs _ (node_var <$> nodes s.1)); [|done| |by rewrite length_fmap].
  - split; [apply Hs|apply caches_empty].
  - by apply all_vars_table; [apply Hs|].
Qed.

(** ** The extras of a marker *)

(** [r] has extras only, and holds where [i] does. *)
Record only_extras_of (i r : NodeId) (table : list Node) : Prop := {
  only_replaces : replaces table i r;
  only_vars : all_vars table (fun var => is_extra var = true) r;
  only_eval : forall sigma, allowed sigma -> eval table sigma i = true -> eval table sigma r = true
}.

Lemma only_stable i r : stable (only_extras_of i r).
Proof.
  intros table table' Hok Hok' Hp [H1 H2 H3]. pose proof H1 as [V1 V2 _]. split.
  - by apply (replaces_stable _ _ table).
  - by apply (all_vars_extend table).
  - intros sigma. rewrite !(eval_extend table table') by done. exact (H3 sigma).
Qed.

Lemma only_terminal i table : i = NODE_TRUE \/ i = NODE_FALSE -> only_extras_of i i table.
Proof.
  intros Hi. assert (Hv : node_valid table i) by (destruct Hi as [->| ->]; [apply true_valid|apply false_valid]).
  split; [by split|by apply all_vars_true|done].
Qed.

Lemma only_rewritten table i node r :
  table_ok table -> node_at table i = Some node -> is_extra (node_var node) = true ->
  rewritten (fun c d => only_extras_of c d) table i node r -> only_extras_of i r table.
Proof.
  intros Hok En Hx [H1 Hvars H2]. split; [done| |].
  - apply Hvars; [done|]. intros c d _ Hd. exact (only_vars _ _ _ Hd).
  - intros sigma Hs. destruct (H2 sigma) as (c & d & Ec & _ & Hd & ->).
    destruct (eval_node table sigma i node Hok En) as (c' & Ec' & _ & ->).
    rewrite Ec in Ec'. injection Ec' as <-. by apply Hd.
Qed.

Lemma only_decision table i node j r :
  table_ok table -> node_valid table i -> node_at table i = Some node ->
  or_all table (edges_nodes (node_children node)) i NODE_FALSE j -> only_extras_of j r table -> only_extras_of i r table.
Proof.
  intros Hok Hi En [J1 J2 J3] [[R1 R2 R3] R4 R5]. split; [split; [done..|]|done|].
  - intros P HP. apply R3, J3; [by apply all_vars_true; right|]. intros c. by apply (all_vars_child _ _ _ _ _ En HP).
  - intros sigma Hs Ht. apply R5; [done|]. rewrite (J2 _ Hs). cbn [orb].
    destruct (eval_node table sigma i node Hok En) as (c & _ & Hc & E). rewrite E in Ht.
    apply orb_true_iff. right. apply existsb_exists. exists c. split; [by apply list_elem_of_In|done].
Qed.

Lemma only_extras_fuel_runs {C : Type} (L : C -> list Node -> Prop) {HL : LocalInvariant L} fuel l i s :
  state_ok L s -> node_valid (nodes s.1) i -> all_vars (nodes s.1) (fun v => v ∈ l) i ->
  (length l <= fuel)%nat -> runs L (only_extras_fuel fuel i) s (only_extras_of i).
Proof.
  revert l i s. induction fuel as [|fuel IH]; intros l i s Hs Hi Hl Hf; cbn [only_extras_fuel];
    (destruct (node_is_true i || node_is_false i) eqn:Et;
     [apply runs_ret; [done|]; apply only_terminal;
      apply orb_true_iff in Et as [->%node_is_true_spec| ->%node_is_false_spec]; tauto|]);
    apply orb_false_iff in Et as [Et Ef]; destruct (node_valid_at _ _ Hi Et Ef) as (node & En & Er & _);
    pose proof (later_shorter _ _ (all_vars_top _ _ _ _ En Hl)) as Hlater; [lia|].
  pose proof (ok_table _ (proj1 Hs)) as Hok. pose proof (node_at_ok _ _ _ Hok En) as [_ _ K3 _].
  apply (runs_get_node _ _ node); [done|]. destruct (is_extra (node_var node)) eqn:Ex; cbn [negb].
  - eapply runs_weaken; [apply (map_create_runs L (fun c d => only_extras_of c d)); [..|done|done|done|]|].
    + intros. apply only_stable.
    + by intros c d table [H].
    + intros c s' Hc Hs' Hp. destruct (child_operand _ _ s' i node c Hs Hs' Hp En Hc) as [Hv Hr].
      apply (IH (later (node_var node) l)); [done..| |lia].
      apply (all_vars_extend (nodes s.1)); [done|done|by apply negate_valid, K3|].
      apply all_vars_negate; [by apply K3|]. by apply (child_later _ _ i).
    + intros r table Ht Hp. apply only_rewritten; [done|extend|done].
  - eapply runs_bind; [apply (or_children_runs L); [done|apply false_valid|done]|].
    intros j s1 Hs1 Hp1 Hj. pose proof (ok_table _ (proj1 Hs1)) as Hok1.
    assert (Hch : forall c, c ∈ edges_nodes (node_children node) -> node_valid (nodes s1.1) c)
      by (intros c Hc%K3; extend).
    destruct (node_is_true j) eqn:Ej.
    { apply node_is_true_spec in Ej as ->. apply runs_ret; [done|].
      apply (only_decision _ i node NODE_TRUE NODE_TRUE); [done|extend|extend|done|]. apply only_terminal. by left. }
    eapply runs_weaken.
    { apply (IH (later (node_var node) l) j s1); [done|apply Hj| |lia].
      apply (or_all_vars _ _ _ _ _ Hj); [apply all_vars_true; by right|]. intros c Hc.
      apply (all_vars_extend (nodes s.1)); [done|done|by apply K3|]. by apply (child_later _ _ i). }
    intros r table Ht Hp Hr. apply (only_decision _ i node j r); [done|extend|extend| |done].
    by apply (or_all_stable _ _ _ _ (nodes s1.1)); [..|split_and!; [apply false_valid|done|done]].
Qed.

Lemma only_extras_runs {C : Type} (L : C -> list Node -> Prop) {HL : LocalInvariant L} i s :
  state_ok L s -> node_valid (nodes s.1) i -> runs L (only_extras i) s (only_extras_of i).
Proof.
  intros Hs Hi. unfold only_extras. apply runs_get_interner.
  apply (only_extras_fuel_runs L _ (node_var <$> nodes s.1)); [done|done| |by rewrite length_fmap].
  by apply all_vars_table; [apply Hs|].
Qed.
End Quantify.
