(* ===== verification/AssumptionFacts.v ===== *)
(** * Markers: restriction to an assumption, verified

    [restrict] returns a marker that has the value of the given one wherever the assumption holds,
    and no variable that the given one does not have. *)

From stdpp Require Import base countable list option numbers decidable strings gmap.
From Stdlib Require Import ZArith Lia.
From S2P Require Import Prelude Ranges VersionTypes VersionSmall Version VersionOrder.
From S2P Require Import VersionParser VersionSpecifier MarkerTypes Interner MarkerAlgebra.
From S2P Require Import MarkerRestrict MarkerEval InternerFacts EdgesFacts AlgebraFacts ExclusionFacts.
From S2P Require Import RestrictFacts.

Local Open Scope Z_scope.
Local Open Scope uv_scope.

Section Assumption.
Context {RV : RangeOps Version} {RS : RangeOps (list Z)}.
Context {LV : RangeLaws version_cmp_slow} {LS : RangeLaws string_cmp}.

(** [r] is [value] wherever [assumption] holds. *)
Record assumes (value assumption r : NodeId) (table : list Node) : Prop := {
  assumes_replaces : replaces table value r;
  assumes_valid : node_valid table assumption;
  assumes_eval : forall sigma, allowed sigma -> eval table sigma assumption = true ->
    eval table sigma r = eval table sigma value
}.

Lemma assumes_stable value assumption r : stable (assumes value assumption r).
Proof.
  intros table table' Hok Hok' Hp [H1 H2 H3]. pose proof H1 as [V1 V2 _]. split.
  - by apply (replaces_stable _ _ table).
  - extend.
  - intros sigma. rewrite !(eval_extend table table') by done. exact (H3 sigma).
Qed.

Notation assume_local := (caches (K := Z * Z) (V := Z) (fun va : Z * Z => assumes va.1 va.2)).

#[local] Instance assume_local_invariant : LocalInvariant assume_local.
Proof. apply caches_local. intros [v a] r. apply assumes_stable. Qed.

(** *** The cases that need no expansion *)

Lemma replaces_self table i : node_valid table i -> replaces table i i.
Proof. intros H. by split. Qed.

Lemma replaces_terminal table i r :
  node_valid table i -> r = NODE_TRUE \/ r = NODE_FALSE -> replaces table i r.
Proof.
  intros H Hr. split; [done| |intros; by apply all_vars_true].
  destruct Hr as [->| ->]; [apply true_valid|apply false_valid].
Qed.

Definition restrict_trivial (value assumption : NodeId) : option NodeId :=
  if node_is_true assumption || (node_is_true value || node_is_false value) then Some value
  else if node_is_false assumption then Some NODE_FALSE
  else if value =? assumption then Some NODE_TRUE
  else if value =? node_not assumption then Some NODE_FALSE
  else None.

Lemma restrict_trivial_some value assumption r table :
  table_ok table -> node_valid table value -> node_valid table assumption ->
  restrict_trivial value assumption = Some r -> assumes value assumption r table.
Proof.
  intros Hok Hv Ha. unfold restrict_trivial. destruct (_ || _).
  { intros [= <-]. split; [by apply replaces_self|done|done]. }
  destruct (node_is_false assumption) eqn:Fa.
  { intros [= <-]. apply node_is_false_spec in Fa as ->. split; [apply replaces_terminal; tauto|done|done]. }
  destruct (Z.eqb_spec value assumption) as [->|].
  { intros [= <-]. split; [apply replaces_terminal; tauto|done|]. intros sigma _ ->. apply eval_true. }
  destruct (Z.eqb_spec value (node_not assumption)) as [->|]; [|done]. intros [= <-].
  split; [apply replaces_terminal; tauto|done|]. intros sigma _ Ht. by rewrite eval_false, eval_not, Ht.
Qed.

Lemma restrict_trivial_none value assumption :
  restrict_trivial value assumption = None ->
  node_is_true value = false /\ node_is_false value = false /\
  node_is_true assumption = false /\ node_is_false assumption = false.
Proof.
  unfold restrict_trivial. destruct (node_is_true assumption), (node_is_true value), (node_is_false value); try done.
  by destruct (node_is_false assumption).
Qed.

Lemma restrict_cached_unfold fuel value assumption :
  restrict_cached fuel value assumption =
    match restrict_trivial value assumption with
    | Some r => ret r
    | None =>
        let! cache := get_local in
        match cache !! (value, assumption) with
        | Some result => ret result
        | None =>
            match fuel with
            | O => panic
            | S fuel =>
                let! result := restrict_expansion (restrict_cached fuel) value assumption in
                match result with
                | None => ret NODE_FALSE
                | Some result =>
                    let! cache := get_local in
                    set_local (<[(value, assumption) := result]> cache) ;;
                    ret result
                end
            end
        end
    end.
Proof.
  unfold restrict_trivial. destruct fuel; cbn [restrict_cached];
    by destruct (node_is_true assumption || (node_is_true value || node_is_false value)),
      (node_is_false assumption), (value =? assumption), (value =? node_not assumption).
Qed.

(** *** Local variables *)

Lemma zoom_runs {C D A : Type} (L : C -> list Node -> Prop) (K : D -> list Node -> Prop)
    {HK : LocalInvariant K} (m : M C A) s Q :
  K s.2.2 (nodes s.1) -> interner_ok s.1 -> runs L m (s.1, s.2.1) Q ->
  runs (fun c table => L c.1 table /\ K c.2 table) (zoom m) s Q.
Proof.
  intros Hk Hok (a & s' & E & [Hok' Hl] & Hp & HQ). exists a, (s'.1, (s'.2, s.2.2)). unfold zoom. rewrite E.
  split_and!; [done| |done..]. split; [done|]. split; [done|]. cbn in *.
  eapply local_extend; [apply Hok|apply Hok'|done..].
Qed.

Lemma with_variable_runs {C D A : Type} (L : C -> list Node -> Prop) (K : D -> list Node -> Prop) d
    (m : M (C * D) A) s Q :
  runs (fun c table => L c.1 table /\ K c.2 table) m (s.1, (s.2, d)) Q ->
  runs L (with_variable d m) s (fun r table => Q r.1 table /\ K r.2 table).
Proof.
  intros (a & s' & E & [Hok' [Hl Hk]] & Hp & HQ). exists (a, s'.2.2), (s'.1, s'.2.1). unfold with_variable. rewrite E.
  by split_and!.
Qed.

#[export] Instance product_invariant {C D : Type} (L : C -> list Node -> Prop) (K : D -> list Node -> Prop)
    `{!LocalInvariant L, !LocalInvariant K} :
  LocalInvariant (fun (c : C * D) table => L c.1 table /\ K c.2 table).
Proof.
  intros [c d] table table' Hok Hok' Hp [H1 H2]. split; eapply local_extend; try exact H1; try exact H2; done.
Qed.

(** The result of two computations, wrapped. *)
Lemma runs_bind_wrap {C A B : Type} (L : C -> list Node -> Prop) (m : M C A) (k : A -> M C B) s
    (Q : B -> list Node -> Prop) :
  runs L (let! a := m in k a) s Q ->
  forall d, runs L (let! a := m in let! b := k a in ret (Some b)) s (fun r table => Q (default d r) table).
Proof.
  intros (b & s' & E & Hs' & Hp & HQ) d. exists (Some b), s'. split_and!; [|done..].
  revert E. unfold bind, ret. destruct (m s) as [[a s1]|]; [|done]. cbn. by intros ->.
Qed.

(** ** The expansion *)

(** A node with no other variables than the given ones. *)
Definition within (children : list NodeId) (x : NodeId) (table : list Node) : Prop :=
  (forall c, c ∈ children -> node_valid table c) /\ node_valid table x /\
  forall P, (forall c, c ∈ children -> all_vars table P c) -> all_vars table P x.

Lemma within_stable children x : stable (within children x).
Proof.
  intros table table' Hok Hok' Hp (H1 & H2 & H3). split_and!; [intros c Hc%H1; extend|extend|].
  intros P HP. apply (all_vars_extend table); [done..|]. apply H3. intros c Hc.
  apply (all_vars_extend table table'); [done|done|by apply H1|by apply HP].
Qed.

Definition fallback_ok (children : list NodeId) (fallback : option NodeId) (table : list Node) : Prop :=
  forall x, fallback = Some x -> within children x table.

#[local] Instance fallback_invariant children : LocalInvariant (fallback_ok children).
Proof. intros fb table table' Hok Hok' Hp H x E%H. by apply (within_stable _ _ table). Qed.

(** What a pair of children is replaced by. *)
Definition pair_assumes (value assumption : NodeId) (children : list NodeId) (a b d : NodeId) (table : list Node) : Prop :=
  within children d table /\ node_valid table a /\ node_valid table b /\
  forall sigma, allowed sigma -> eval table sigma (node_negate b assumption) = true ->
    eval table sigma d = eval table sigma (node_negate a value).

Lemma pair_assumes_stable value assumption children a b d :
  stable (pair_assumes value assumption children a b d).
Proof.
  intros table table' Hok Hok' Hp (H1 & H2 & H3 & H4). pose proof H1 as (_ & Hd & _).
  split_and!; [by apply (within_stable _ _ table)|extend..|]. intros sigma.
  rewrite !(eval_extend table table') by (done || by apply negate_valid). exact (H4 sigma).
Qed.

(** A restricted child. *)
Lemma assumes_pair value assumption children a b d table :
  (forall c, c ∈ children -> node_valid table c) -> a ∈ children -> node_valid table b ->
  assumes (node_negate a value) (node_negate b assumption) d table ->
  pair_assumes value assumption children a b d table.
Proof.
  intros Hch Ha Hb [[R1 R2 R3] _ He]. split_and!; [|by apply Hch|done|done].
  split_and!; [done..|]. intros P HP. apply R3, all_vars_negate; [by apply Hch|by apply HP].
Qed.

Section Expansion.
Context (rec : NodeId -> NodeId -> M (gmap (Z * Z) Z) NodeId) (bound : nat).
Hypothesis Hrec : forall l1 l2 v a s, state_ok assume_local s -> node_valid (nodes s.1) v ->
  node_valid (nodes s.1) a -> all_vars (nodes s.1) (fun x => x ∈ l1) v -> all_vars (nodes s.1) (fun x => x ∈ l2) a ->
  (length l1 + length l2 < bound)%nat -> runs assume_local (rec v a) s (assumes v a).

Context (value assumption : NodeId) (vn an : Node) (l1 l2 : list MarkerVariable) (s : Interner * gmap (Z * Z) Z).
Hypothesis Hs : state_ok assume_local s.
Hypothesis Hv : node_valid (nodes s.1) value.
Hypothesis Ha : node_valid (nodes s.1) assumption.
Hypothesis Ev : node_at (nodes s.1) value = Some vn.
Hypothesis Ea : node_at (nodes s.1) assumption = Some an.
Hypothesis Hl1 : all_vars (nodes s.1) (fun x => x ∈ l1) value.
Hypothesis Hl2 : all_vars (nodes s.1) (fun x => x ∈ l2) assumption.
Hypothesis Hbound : (length l1 + length l2 <= bound)%nat.

Lemma table_s : table_ok (nodes s.1).
Proof. apply Hs. Qed.

(** The operands of a recursive call, in a later state. *)
Lemma operand_later s' i node l c :
  state_ok assume_local s' -> nodes s.1 `prefix_of` nodes s'.1 -> node_at (nodes s.1) i = Some node ->
  all_vars (nodes s.1) (fun x => x ∈ l) i -> c ∈ edges_nodes (node_children node) ->
  node_valid (nodes s'.1) (node_negate c i) /\
  all_vars (nodes s'.1) (fun x => x ∈ later (node_var node) l) (node_negate c i) /\
  (length (later (node_var node) l) < length l)%nat.
Proof.
  intros Hs' Hp En Hl Hc. pose proof (ok_valid _ _ _ (node_at_ok _ _ _ table_s En) _ Hc) as Hvc.
  split_and!.
  - apply negate_valid. extend.
  - apply (all_vars_extend (nodes s.1)); [apply table_s|done|by apply negate_valid|].
    apply all_vars_negate; [apply Hvc|]. apply (child_later _ _ i); [apply table_s|done..].
  - apply later_shorter. by apply (all_vars_top _ _ _ _ En Hl).
Qed.

(** The value decides first. *)
Lemma restrict_lt_runs :
  runs assume_local
    (let! children := edges_map (node_children vn) value (fun value => rec value assumption) in
     create_node (node_var vn) children) s (assumes value assumption).
Proof.
  eapply runs_weaken.
  - apply (map_create_runs assume_local (fun c d => assumes c assumption d) _ value vn s); [..|done|done|done|].
    + intros. apply assumes_stable.
    + by intros c d table [H].
    + intros c s' Hc Hs' Hp. destruct (operand_later s' value vn l1 c) as (H1 & H2 & H3); [done..|].
      eapply (Hrec (later (node_var vn) l1) l2); [done|done|extend|done| |lia].
      apply (all_vars_extend (nodes s.1)); [apply table_s|done..].
  - intros r table Ht Hp [H1 _ H2]. split; [done|extend|]. intros sigma Hsig Hta.
    destruct (H2 sigma) as (c & d & Ec & Hc & Hd & ->).
    destruct (eval_node table sigma value vn Ht) as (c' & Ec' & _ & ->); [extend|].
    rewrite Ec in Ec'. injection Ec' as <-. by apply Hd.
Qed.

(** The assumption decides first, on a variable that the value does not have. *)
Lemma restrict_gt_runs :
  runs assume_local
    (let! quantified := or_children (edges_nodes (node_children an)) assumption NODE_FALSE in
     rec value quantified) s (assumes value assumption).
Proof.
  pose proof (node_at_ok _ _ _ table_s Ea) as [_ _ K3 _].
  eapply runs_bind; [apply (or_children_runs assume_local); [done|apply false_valid|done]|].
  intros q s1 Hs1 Hp1 Hq. eapply runs_weaken.
  - apply (Hrec l1 (later (node_var an) l2)); [done|extend|apply Hq| | |].
    + apply (all_vars_extend (nodes s.1)); [apply table_s|done..].
    + apply (or_all_vars _ _ _ _ _ Hq); [apply all_vars_true; by right|]. intros c Hc.
      apply (all_vars_extend (nodes s.1)); [apply table_s|done|by apply K3|].
      apply (child_later _ _ assumption); [apply table_s|done..].
    + pose proof (later_shorter _ _ (all_vars_top _ _ _ _ Ea Hl2)). lia.
  - intros r table Ht Hp [H1 _ H2]. split; [done|extend|]. intros sigma Hsig Hta. apply H2; [done|].
    destruct (or_all_stable (edges_nodes (node_children an)) assumption NODE_FALSE q (nodes s1.1) table
      (ok_table _ (proj1 Hs1)) Ht Hp) as (_ & _ & [_ He _]).
    { split_and!; [apply false_valid| |exact Hq]. intros c Hc%K3. extend. }
    rewrite (He _ Hsig). cbn [orb]. assert (Ea' : node_at table assumption = Some an) by extend.
    destruct (eval_node table sigma assumption an Ht Ea') as (c & _ & Hc & E). rewrite E in Hta.
    apply orb_true_iff. right. apply existsb_exists. exists c. split; [by apply list_elem_of_In|done].
Qed.

Lemma children_valid i node table :
  node_at (nodes s.1) i = Some node -> nodes s.1 `prefix_of` table ->
  forall c, c ∈ edges_nodes (node_children node) -> node_valid table c.
Proof.
  intros En Hp c Hc. pose proof (ok_valid _ _ _ (node_at_ok _ _ _ table_s En) _ Hc). extend.
Qed.

(** A pair of children that is reachable. *)
Lemma pair_runs a b s' :
  state_ok assume_local s' -> nodes s.1 `prefix_of` nodes s'.1 ->
  a ∈ edges_nodes (node_children vn) -> b ∈ edges_nodes (node_children an) ->
  runs assume_local (rec (node_negate a value) (node_negate b assumption)) s'
    (pair_assumes value assumption (edges_nodes (node_children vn)) a b).
Proof.
  intros Hs' Hp Hin Hin'. destruct (operand_later s' value vn l1 a) as (H1 & H2 & H3); [done..|].
  destruct (operand_later s' assumption an l2 b) as (K1 & K2 & K3); [done..|].
  eapply runs_weaken; [apply (Hrec (later (node_var vn) l1) (later (node_var an) l2)); [done..|lia]|].
  intros d table Ht Hp' Hd. assert (Hpt : nodes s.1 `prefix_of` table) by by etransitivity.
  apply assumes_pair; [by apply (children_valid value)|done|by apply (children_valid assumption an)|done].
Qed.

Notation first_local :=
  (fun (c : gmap (Z * Z) Z * option NodeId) table =>
     assume_local c.1 table /\ fallback_ok (edges_nodes (node_children vn)) c.2 table).

Lemma restrict_first_runs a b s' :
  state_ok first_local s' -> nodes s.1 `prefix_of` nodes s'.1 ->
  a ∈ edges_nodes (node_children vn) -> b ∈ edges_nodes (node_children an) ->
  runs first_local (restrict_first rec (node_negate a value) (node_negate b assumption)) s' (fun _ _ => True).
Proof.
  intros Hs' Hp Hin Hin'. unfold restrict_first. destruct (node_is_false _); [by apply runs_ret|].
  destruct Hs' as [Hok' [Hl Hk]]. eapply runs_bind.
  { apply (zoom_runs assume_local (fallback_ok _)); [done|done|]. by apply pair_runs. }
  intros d s1 [Hok1 [Hl1' Hk1]] Hp1 Hd.
  exists d, (s1.1, (s1.2.1, Some (default d s1.2.2))). split_and!; [done| |done|done].
  split; [done|]. split; [done|]. cbn. intros x [= <-]. destruct s1.2.2 as [x|] eqn:Ex; cbn; [by apply Hk1|apply Hd].
Qed.

Lemma restrict_second_runs fallback a b s' :
  within (edges_nodes (node_children vn)) fallback (nodes s'.1) ->
  state_ok assume_local s' -> nodes s.1 `prefix_of` nodes s'.1 ->
  a ∈ edges_nodes (node_children vn) -> b ∈ edges_nodes (node_children an) ->
  runs assume_local (restrict_second rec fallback (node_negate a value) (node_negate b assumption)) s'
    (pair_assumes value assumption (edges_nodes (node_children vn)) a b).
Proof.
  intros Hw Hs' Hp Hin Hin'. unfold restrict_second. destruct (node_is_false _) eqn:Ef; [|by apply pair_runs].
  apply node_is_false_spec in Ef. apply runs_ret; [done|].
  split_and!; [done|by apply (children_valid value vn)|by apply (children_valid assumption an)|].
  intros sigma _. by rewrite Ef, eval_false.
Qed.

(** The decision with the pairs of children replaced. *)
Lemma pair_is_assumed table out r :
  table_ok table -> nodes s.1 `prefix_of` table -> node_var vn = node_var an ->
  edges_product (fun a b d => pair_assumes value assumption (edges_nodes (node_children vn)) a b d table)
    (node_var vn) (node_children vn) (node_children an) out ->
  edges_ok table (node_var vn) out /\ (decides table (node_var vn) out r -> assumes value assumption r table).
Proof.
  intros Hok Hp Hvar [H1 H2 H3 H4]. assert (Ev' : node_at table value = Some vn) by extend.
  assert (Ea' : node_at table assumption = Some an) by extend.
  pose proof (node_at_ok _ _ _ Hok Ev') as [K1 K2 K3 K4 K5]. pose proof (node_at_ok _ _ _ Hok Ea') as [J1 J2 J3 J4 J5].
  rewrite <- Hvar in *. split.
  - split; [done| | | |by apply H4].
    + intros sigma. destruct (K2 sigma) as [a Ea1], (J2 sigma) as [b Eb].
      destruct (H3 _ _ _ Ea1 Eb) as (d & Ed & _). by exists d.
    + intros d (a & b & _ & _ & ((_ & Hd & _) & _))%H2. done.
    + intros d (a & b & _ & _ & ((Hch & Hd & Hdv) & _))%H2. apply before_all_vars; [done..|].
      apply Hdv. intros c Hc. apply before_all_vars; [done|by apply K3|by apply K4].
  - intros [D1 D2 D3]. split; [split; [extend|done|]|extend|].
    + intros P HP. apply D3; [by apply (all_vars_top _ _ _ _ Ev' HP)|].
      intros d (a & b & _ & _ & ((Hch & Hd & Hdv) & _))%H2. apply Hdv. intros c.
      by apply (all_vars_child _ _ _ _ _ Ev' HP).
    + intros sigma Hsig. destruct (eval_node table sigma value vn Hok Ev') as (a & Ea1 & _ & ->).
      destruct (eval_node table sigma assumption an Hok Ea') as (b & Eb & _ & ->). rewrite <- Hvar in Eb.
      intros Ht. destruct (H3 _ _ _ Ea1 Eb) as (d & Ed & (_ & _ & _ & Hd)). rewrite (D2 _ _ Ed). by apply Hd.
Qed.

(** No result in the first traversal: no pair of matching ranges is reachable. *)
Lemma restrict_first_trace v a s0 d s' :
  restrict_first rec v a s0 = Some (d, s') -> s'.2.2 = None -> s0.2.2 = None /\ node_is_false a = true.
Proof.
  unfold restrict_first. destruct (node_is_false a).
  - by intros [= <- <-].
  - intros E Hn. apply bind_Some_inv in E as (x & s1 & _ & E). cbn in E. injection E as <- <-. discriminate Hn.
Qed.

Lemma unreachable_assumption children s' table :
  edges_apply (node_children vn) value (node_children an) assumption (restrict_first rec) (s.1, (s.2, None))
    = Some (children, s') ->
  s'.2.2 = None -> node_var vn = node_var an -> table_ok table -> nodes s.1 `prefix_of` table ->
  assumes value assumption NODE_FALSE table.
Proof.
  intros E Hn Hvar Hok Hp.
  destruct (edges_apply_trace (fun s => s.2.2 = None) (restrict_first rec) (fun _ b => node_is_false b = true)
    restrict_first_trace _ _ _ _ _ _ _ E Hn) as [_ HQ].
  split; [apply replaces_terminal; [extend|by right]|extend|]. intros sigma _ Ht. exfalso.
  destruct (eval_node table sigma value vn) as (a & Ea1 & _ & _); [done|extend|].
  destruct (eval_node table sigma assumption an) as (b & Eb & _ & Et); [done|extend|].
  rewrite <- Hvar in Eb. pose proof (HQ sigma _ a b Ea1 Eb) as Hb%node_is_false_spec.
  by rewrite Et, Hb, eval_false in Ht.
Qed.

(** Both decide on the same variable. *)
Lemma restrict_eq_runs :
  node_var vn = node_var an ->
  runs assume_local
    (let! first :=
       with_variable None (edges_apply (node_children vn) value (node_children an) assumption (restrict_first rec)) in
     match first.2 with
     | None => ret None
     | Some fallback =>
         let! children :=
           edges_apply (node_children vn) value (node_children an) assumption (restrict_second rec fallback) in
         let! node := create_node (node_var vn) children in
         ret (Some node)
     end) s (fun r table => assumes value assumption (default NODE_FALSE r) table).
Proof.
  intros Hvar. pose proof (node_at_ok _ _ _ table_s Ev) as Kv. pose proof (node_at_ok _ _ _ table_s Ea) as Ka.
  eapply runs_bind_result.
  { apply (with_variable_runs assume_local (fallback_ok (edges_nodes (node_children vn))) None _ s (fun _ _ => True)).
    eapply runs_weaken; [|done].
    apply (edges_apply_runs first_local (restrict_first rec) (fun _ _ _ _ => True) _ _ (node_var vn)).
    - by intros.
    - destruct Hs as [Hok Hl]. split; [done|]. split; [done|]. by intros x.
    - apply Kv.
    - rewrite Hvar. apply Ka.
    - intros a b s' Hina Hinb Hs' Hp. by apply restrict_first_runs. }
  intros [out fb] s1 E1 Hs1 Hp1 [_ Hfb]. cbn [snd] in *. destruct fb as [fb|].
  - specialize (Hfb fb eq_refl). eapply runs_bind.
    { apply (edges_apply_runs assume_local (restrict_second rec fb)
        (fun a b d => pair_assumes value assumption (edges_nodes (node_children vn)) a b d) _ _ (node_var vn)).
      - intros. apply pair_assumes_stable.
      - done.
      - apply Kv.
      - rewrite Hvar. apply Ka.
      - intros a b s' Hina Hinb Hs' Hp. apply restrict_second_runs; [|done|by etransitivity|done..].
        apply (within_stable _ _ (nodes s1.1)); [apply Hs1|apply Hs'|done..]. }
    intros children s2 Hs2 Hp2 Hprod. cbn in Hprod.
    assert (Hp02 : nodes s.1 `prefix_of` nodes s2.1) by by etransitivity.
    eapply runs_bind.
    { apply (create_node_runs assume_local); [done|]. by apply (pair_is_assumed (nodes s2.1) children 0); [apply Hs2|..]. }
    intros r s3 Hs3 Hp3 Hd. cbn beta in Hd. apply runs_ret; [done|]. cbn [default from_option].
    apply (pair_is_assumed (nodes s3.1) children r); [apply Hs3|by etransitivity|done| |done].
    eapply edges_product_stable; [|apply Hs2|apply Hs3|done|exact Hprod]. intros. apply pair_assumes_stable.
  - apply runs_ret; [done|]. cbn [default from_option].
    unfold with_variable in E1. destruct (edges_apply _ _ _ _ _ _) as [[ch s']|] eqn:Ee; [|done].
    cbn in E1. injection E1 as -> En <-. cbn in *.
    by apply (unreachable_assumption out s'); [done|done|done|apply Hs1|].
Qed.

Lemma restrict_expansion_runs :
  runs assume_local (restrict_expansion rec value assumption) s
    (fun r table => assumes value assumption (default NODE_FALSE r) table).
Proof.
  unfold restrict_expansion. apply (runs_get_node assume_local _ vn), (runs_get_node assume_local _ an); [done..|].
  destruct (variable_cmp (node_var vn) (node_var an)) eqn:E.
  - apply restrict_eq_runs. by apply (cmp_exact variable_cmp) in E.
  - exact (runs_bind_wrap assume_local _ _ _ _ restrict_lt_runs NODE_FALSE).
  - exact (runs_bind_wrap assume_local _ _ _ _ restrict_gt_runs NODE_FALSE).
Qed.
End Expansion.

(** ** The restriction *)

Lemma restrict_cached_runs fuel l1 l2 value assumption s :
  state_ok assume_local s -> node_valid (nodes s.1) value -> node_valid (nodes s.1) assumption ->
  all_vars (nodes s.1) (fun x => x ∈ l1) value -> all_vars (nodes s.1) (fun x => x ∈ l2) assumption ->
  (length l1 + length l2 <= fuel)%nat -> runs assume_local (restrict_cached fuel value assumption) s (assumes value assumption).
Proof.
  revert l1 l2 value assumption s. induction fuel as [|fuel IH]; intros l1 l2 value assumption s Hs Hv Ha Hl1 Hl2 Hlen;
    rewrite restrict_cached_unfold; destruct (restrict_trivial value assumption) as [r|] eqn:Et;
    try (apply runs_ret; [done|]; apply restrict_trivial_some; [apply Hs|done..]);
    apply restrict_trivial_none in Et as (T1 & F1 & T2 & F2); apply runs_get_local;
    destruct (s.2 !! (value, assumption)) as [r|] eqn:Ec; try (apply runs_ret; [done|]; by apply (proj2 Hs (value, assumption)));
    destruct (node_valid_at _ _ Hv T1 F1) as (vn & Ev & _); pose proof (all_vars_top _ _ _ _ Ev Hl1) as Hin.
  - exfalso. destruct l1; [by apply not_elem_of_nil in Hin|cbn in Hlen; lia].
  - destruct (node_valid_at _ _ Ha T2 F2) as (an & Ea & _). eapply runs_bind.
    + apply (restrict_expansion_runs (restrict_cached fuel) (S fuel)) with (vn := vn) (an := an) (l1 := l1) (l2 := l2); try done.
      intros l1' l2' v a s' ? ? ? ? ? ?. apply (IH l1' l2'); [done..|lia].
    + intros [r|] s1 Hs1 Hp1 Hr; cbn in Hr; [|by apply runs_ret].
      apply runs_get_local, runs_set_local, runs_ret; [|done]. split; [apply Hs1|].
      by apply caches_insert; [apply Hs1|].
Qed.

(** [restrict] always returns, in every state. *)
Lemma restrict_runs {C : Type} (L : C -> list Node -> Prop) {HL : LocalInvariant L} value assumption s :
  state_ok L s -> node_valid (nodes s.1) value -> node_valid (nodes s.1) assumption ->
  runs L (restrict value assumption) s (assumes value assumption).
Proof.
  intros Hs Hv Ha. unfold restrict. apply runs_get_interner, (with_cache_runs L assume_local); [done|].
  apply (restrict_cached_runs _ (node_var <$> nodes s.1) (node_var <$> nodes s.1)); [|done|done|..].
  - split; [apply Hs|apply caches_empty].
  - by apply all_vars_table; [apply Hs|].
  - by apply all_vars_table; [apply Hs|].
  - by rewrite length_fmap.
Qed.
End Assumption.
