(* ===== verification/PythonFacts.v ===== *)
(** * Markers: simplification to Python versions, verified

    [simplify_python_versions]: the edges that are left and extended are again a partition of the
    versions, and the result has the value of the marker for every Python version within the
    bounds. *)

From stdpp Require Import base countable list option numbers decidable strings gmap sorting.
From Stdlib Require Import ZArith Lia.
From S2P Require Import Prelude Ranges VersionTypes VersionSmall Version VersionOrder VersionCacheKey.
From S2P Require Import VersionParser VersionSpecifier MarkerTypes Interner EdgesOrder MarkerAlgebra.
From S2P Require Import MarkerRestrict MarkerEval InternerFacts EdgesFacts Canonical AlgebraFacts ExclusionFacts.
From S2P Require Import RestrictFacts AssumptionFacts.

Local Open Scope Z_scope.
Local Open Scope uv_scope.

(** ** Edges within bounds *)

Section Clip.
Context {RV : RangeOps Version} {RS : RangeOps (list Z)}.
Context {LV : RangeLaws version_cmp_slow} {LS : RangeLaws string_cmp}.

Notation law := version_cmp_slow.
Notation chain := (chain law comparable).
Notation covered := (covered law).
Notation "p ≺ q" := (point_cmp law p q = Lt) (at level 70).

#[local] Instance points_order : OrdLaws (point_cmp law).
Proof. apply point_order. apply _. Qed.

Lemma overlapping_elem py edges r c :
  (r, c) ∈ overlapping py edges <->
  exists r', (r', c) ∈ edges /\ r = range_intersection r' py /\ range_is_empty r = false.
Proof.
  unfold overlapping. rewrite list_elem_of_omap. split.
  - intros ([r' c'] & Hin & E). destruct (range_is_empty _) eqn:Ee; [done|]. injection E as <- <-. by exists r'.
  - intros (r' & Hin & -> & Ee). exists (r', c). by rewrite Ee.
Qed.

Lemma overlapping_chain py edges :
  one_segment py -> Forall comparable (range_values py) -> chain edges ->
  chain (overlapping py edges) /\ forall p, covered (overlapping py edges) p = range_at law py p && covered edges p.
Proof.
  intros Hpy Hg. induction edges as [|[r c] edges IH]; intros Hc.
  { split; [apply chain_nil|]. intros p. by rewrite andb_false_r. }
  destruct (chain_head _ _ _ _ _ Hc) as (Hc' & Hr & Hgr & Hb). destruct (IH Hc') as [[I1 I2 I3] I4].
  unfold overlapping. cbn [omap list_omap]. fold (overlapping py edges).
  destruct (range_is_empty (range_intersection r py)) eqn:Ee.
  - split; [done|]. intros p. rewrite I4, covered_cons. pose proof (empty_at law _ p Ee) as Hp.
    rewrite (range_at_intersection (cmp := law)) in Hp. by destruct (range_at law py p), (range_at law r p).
  - split; [split|].
    + apply Forall_cons_2; [|done]. by apply (intersection_one_segment law).
    + apply Forall_cons_2; [|done]. by apply (good_intersection law).
    + constructor; [done|]. apply Forall_forall. intros [r' c'] (r0 & Hin & -> & _)%overlapping_elem.
      apply chain_first in Hc. rewrite Forall_forall in Hc. destruct (Hc (r0, c') Hin) as [Hb' Hg']. cbn in Hb', Hg'. split; cbn.
      * intros p q. rewrite !(range_at_intersection (cmp := law)), !andb_true_iff. intros [Hp _] [Hq _]. by apply Hb'.
      * intros (g & Hg1 & Hg2)%Hg'. exists g.
        split; intros p; rewrite (range_at_intersection (cmp := law)), andb_true_iff; intros [Hp _]; [by apply Hg1|by apply Hg2].
    + intros p. rewrite !covered_cons, I4, (range_at_intersection (cmp := law)).
      by destruct (range_at law r p), (range_at law py p).
Qed.

(** A range that is a segment, and the one extended downwards. *)
Lemma extend_down r lower upper p :
  range_iter r = [(lower, upper)] -> range_at law (range_from_bounds Unbounded upper) p = point_below law upper p.
Proof.
  intros E. rewrite (one_segment_at law _ Unbounded upper); [done|].
  by apply (range_iter_from_bounds (cmp := law)).
Qed.

Lemma extend_up r lower upper p :
  range_iter r = [(lower, upper)] -> range_at law (range_from_bounds lower Unbounded) p = point_above law lower p.
Proof.
  intros E. rewrite (one_segment_at law _ lower Unbounded); [apply andb_true_r|].
  apply (range_iter_from_bounds (cmp := law)). by destruct lower.
Qed.

Lemma clip_first_chain r lower upper c edges :
  range_iter r = [(lower, upper)] -> chain ((r, c) :: edges) -> chain ((range_from_bounds Unbounded upper, c) :: edges).
Proof.
  intros E Hc. pose proof (chain_first _ _ _ _ Hc) as Hf.
  destruct (chain_head _ _ _ _ _ Hc) as (Hc' & Hr & Hg & _). destruct Hc' as [H1 H2 H3].
  destruct (one_segment_values comparable r lower upper E Hg) as [_ Gu].
  destruct (one_segment_point law r Hr) as [m Hm].
  assert (Hafter : forall g, (forall p, range_at law r p = true -> p ≺ g) -> point_below law upper g = false).
  { intros g Hg'. apply not_true_iff_false. intros Hbelow. apply (point_irreflexive law g), Hg'.
    pose proof (Hg' m Hm) as Hlt. rewrite (one_segment_at law _ _ _ m E) in Hm. rewrite (one_segment_at law _ _ _ g E). apply andb_true_iff in Hm as [Hm _].
    apply andb_true_iff. split; [|done]. apply (above_mono law lower m g Hm). by rewrite Hlt. }
  split.
  - apply Forall_cons_2; [|done]. exists Unbounded, upper. by apply (range_iter_from_bounds (cmp := law)).
  - apply Forall_cons_2; [|done]. by apply bounds_values_from; [constructor|].
  - constructor; [done|]. eapply Forall_impl; [exact Hf|]. intros e [Hb Hgap]. split; cbn.
    + intros p q. rewrite (extend_down r lower upper) by done. intros Hp Hq. apply (below_split law upper); [done|].
      apply Hafter. intros p' Hp'. by apply Hb.
    + intros (g & Hg1 & Hg2)%Hgap. exists g. split; [|done]. intros p. rewrite (extend_down r lower upper) by done.
      intros Hp. apply (below_split law upper); [done|]. by apply Hafter.
Qed.

Lemma clip_last_chain r lower upper c edges :
  range_iter r = [(lower, upper)] -> chain (edges ++ [(r, c)]) -> chain (edges ++ [(range_from_bounds lower Unbounded, c)]).
Proof.
  intros E Hc. pose proof (chain_last _ _ _ _ _ Hc) as Hf.
  destruct (chain_front _ _ _ _ _ Hc) as (Hc' & Hr & Hg & _).
  destruct (one_segment_values comparable r lower upper E Hg) as [Gl _].
  destruct (one_segment_point law r Hr) as [m Hm].
  assert (Hbefore : forall g, (forall p, range_at law r p = true -> g ≺ p) -> point_above law lower g = false).
  { intros g Hg'. apply not_true_iff_false. intros Habove. apply (point_irreflexive law g), Hg'.
    pose proof (Hg' m Hm) as Hlt. rewrite (one_segment_at law _ _ _ m E) in Hm. rewrite (one_segment_at law _ _ _ g E). apply andb_true_iff in Hm as [_ Hm].
    apply andb_true_iff. split; [done|]. apply (below_mono law upper g m Hm). by rewrite Hlt. }
  apply chain_snoc; [done| | |].
  - exists lower, Unbounded. apply (range_iter_from_bounds (cmp := law)). by destruct lower.
  - by apply bounds_values_from; [|constructor].
  - eapply Forall_impl; [exact Hf|]. intros e [Hb Hgap]. split; cbn.
    + intros p q Hp. rewrite (extend_up r lower upper) by done. intros Hq. apply (above_split law lower); [|done].
      apply Hbefore. intros p' Hp'. by apply Hb.
    + intros (g & Hg1 & Hg2)%Hgap. exists g. split; [done|]. intros p. rewrite (extend_up r lower upper) by done.
      intros Hp. apply (above_split law lower); [|done]. by apply Hbefore.
Qed.

(** The same edges, with wider ranges. *)
Definition widens (e e' : range Version * NodeId) : Prop :=
  e.2 = e'.2 /\ forall p, range_at law e.1 p = true -> range_at law e'.1 p = true.

Lemma widens_refl e : widens e e.
Proof. by split. Qed.

#[local] Instance widens_trans : Transitive widens.
Proof. intros a b c [H1 H2] [H3 H4]. split; [by rewrite H1|eauto]. Qed.

Lemma widens_all l : Forall2 widens l l.
Proof. induction l; constructor; [apply widens_refl|done]. Qed.

Lemma widens_covered l l' p : Forall2 widens l l' -> covered l p = true -> covered l' p = true.
Proof.
  intros H. induction H as [|[r c] [r' c'] l l' [_ Hw] _ IH]; [done|]. rewrite !covered_cons, !orb_true_iff. cbn in Hw.
  intros [Hp|Hp]; [left; by apply Hw|right; by apply IH].
Qed.

Lemma clip_first_extends r c edges :
  chain ((r, c) :: edges) ->
  exists new, clip_first ((r, c) :: edges) = Some new /\ chain new /\ Forall2 widens ((r, c) :: edges) new /\
    forall p q, range_at law r q = true -> point_cmp law p q <> Gt -> covered new p = true.
Proof.
  intros Hc. destruct (chain_head _ _ _ _ _ Hc) as (_ & (lower & upper & E) & _ & _). cbn [clip_first].
  rewrite (one_segment_bounding law r lower upper E). cbn [mbind option_bind snd]. eexists. split; [done|].
  split_and!; [by eapply clip_first_chain|constructor; [|apply widens_all]|].
  - split; [done|]. intros p. cbn. rewrite (one_segment_at law _ _ _ _ E), (extend_down r lower upper _ E).
    by intros [_ H]%andb_true_iff.
  - intros p q. rewrite covered_cons, (one_segment_at law _ _ _ _ E), (extend_down r lower upper _ E).
    intros [_ H]%andb_true_iff Hle. by rewrite (below_mono law upper p q).
Qed.

Lemma clip_last_extends r c edges :
  chain (edges ++ [(r, c)]) ->
  exists new, clip_last (edges ++ [(r, c)]) = Some new /\ chain new /\ Forall2 widens (edges ++ [(r, c)]) new /\
    forall p q, range_at law r q = true -> point_cmp law q p <> Gt -> covered new p = true.
Proof.
  intros Hc. destruct (chain_front _ _ _ _ _ Hc) as (_ & (lower & upper & E) & _ & _). unfold clip_last.
  rewrite last_snoc. cbn [mbind option_bind]. rewrite (one_segment_bounding law r lower upper E).
  cbn [mbind option_bind fst]. rewrite length_app, Nat.add_sub, take_app_length. eexists. split; [done|].
  split_and!; [by eapply clip_last_chain|apply Forall2_app; [apply widens_all|constructor; [|constructor]]|].
  - split; [done|]. intros p. cbn. rewrite (one_segment_at law _ _ _ _ E), (extend_up r lower upper _ E).
    by intros [H _]%andb_true_iff.
  - intros p q. rewrite covered_app, covered_one, (one_segment_at law _ _ _ _ E), (extend_up r lower upper _ E).
    intros [H _]%andb_true_iff Hle. rewrite (above_mono law lower q p) by done. apply orb_true_r.
Qed.

(** A point outside a segment is before or after all of it. *)
Lemma outside_segment py lower upper p :
  range_iter py = [(lower, upper)] -> range_at law py p = false ->
  (forall q, range_at law py q = true -> p ≺ q) \/ (forall q, range_at law py q = true -> q ≺ p).
Proof.
  intros E. rewrite (one_segment_at law _ _ _ _ E). intros [H|H]%andb_false_iff; cbn in H; [left|right]; intros q;
    rewrite (one_segment_at law _ _ _ _ E); intros [H1 H2]%andb_true_iff; cbn in H1, H2.
  - by apply (above_split law lower).
  - by apply (below_split law upper).
Qed.

Lemma clip_partition py edges :
  one_segment py -> Forall comparable (range_values py) -> line_partition law comparable edges ->
  exists new, clip_first (overlapping py edges) ≫= clip_last = Some new /\ line_partition law comparable new /\
    Forall2 widens (overlapping py edges) new.
Proof.
  intros Hpy Hg [Hc Hcov]. destruct (overlapping_chain py edges Hpy Hg Hc) as [Ho Hoc].
  assert (Hoc' : forall q, covered (overlapping py edges) q = range_at law py q) by (intros q; by rewrite Hoc, Hcov, andb_true_r).
  clear Hoc Hc Hcov. destruct (overlapping py edges) as [|[r1 c1] rest] eqn:Eo.
  { exfalso. destruct (one_segment_point law py Hpy) as [p Hp]. by rewrite <- Hoc' in Hp. }
  destruct (clip_first_extends r1 c1 rest Ho) as (middle & -> & Hm & Hwm & Hfirst). cbn [mbind option_bind].
  destruct (last ((r1, c1) :: rest)) as [[rn cn]|] eqn:El; [|by apply last_None in El].
  apply last_Some in El as [front Ef]. rewrite Ef in Hwm.
  apply Forall2_app_inv_l in Hwm as (front' & l' & Hwf & Hwl & ->). inversion Hwl as [|x [rm cm] ? ? [Hc Hw] Hwn E1 E2]; subst.
  inversion Hwn; subst. clear Hwl Hwn. cbn in Hc, Hw. subst cm.
  destruct (clip_last_extends rm cn front' Hm) as (new & -> & Hn & Hwn & Hlast). exists new. split; [done|].
  assert (Hall : Forall2 widens ((r1, c1) :: rest) new).
  { rewrite Ef. eapply (Forall2_trans widens widens widens); [intros; by etransitivity| |exact Hwn].
    apply Forall2_app; [done|]. by constructor; [split|constructor]. }
  split; [|done]. split; [done|]. intros p.
  destruct (range_at law py p) eqn:Hp; [apply (widens_covered _ _ _ Hall); by rewrite Hoc'|].
  destruct Ho as [Hseg _ _]. destruct Hpy as (lower & upper & Epy).
  destruct (outside_segment py lower upper p Epy Hp) as [Hb|Ha].
  - apply (widens_covered _ _ _ Hwn). apply Forall_inv in Hseg. destruct (one_segment_point law r1 Hseg) as [q Hq].
    apply (Hfirst p q Hq). rewrite Hb; [done|]. rewrite <- Hoc', covered_cons. cbn in Hq. by rewrite Hq.
  - rewrite Ef in Hseg, Hoc'. apply Forall_app in Hseg as [_ Hseg]. apply Forall_inv in Hseg.
    destruct (one_segment_point law rn Hseg) as [q Hq]. cbn in Hq. apply (Hlast p q); [by apply Hw|].
    rewrite Ha; [done|]. by rewrite <- Hoc', covered_app, covered_one, Hq, orb_true_r.
Qed.

(** For a version within the bounds, the edge that is selected stays. *)
Lemma clip_select py edges new v :
  line_partition law comparable edges -> line_partition law comparable new ->
  Forall2 widens (overlapping py edges) new -> range_at law py v = true -> matching law v new = matching law v edges.
Proof.
  intros He Hn Hw Hv. destruct (partition_select law comparable edges v He) as (r & c & Hin & Hr & ->).
  assert (Ho : (range_intersection r py, c) ∈ overlapping py edges).
  { apply overlapping_elem. exists r. split_and!; [done..|]. destruct (range_is_empty (range_intersection r py)) eqn:Ee; [|done].
    apply (empty_at law _ v) in Ee. by rewrite (range_at_intersection (cmp := law)), Hr, Hv in Ee. }
  apply list_elem_of_lookup in Ho as [k Hk]. destruct (Forall2_lookup_l _ _ _ _ _ Hw Hk) as ([r' c'] & Hk' & Hc & Hat).
  cbn in Hc, Hat. subst c'. apply (chain_select law comparable new v r'); [apply Hn|by eapply list_elem_of_lookup_2|].
  apply Hat. by rewrite (range_at_intersection (cmp := law)), Hr, Hv.
Qed.

Lemma clip_nodes py edges new c : Forall2 widens (overlapping py edges) new -> c ∈ new.*2 -> c ∈ edges.*2.
Proof.
  intros Hw ([r c'] & -> & Hin)%list_elem_of_fmap. apply list_elem_of_lookup in Hin as [k Hk].
  destruct (Forall2_lookup_r _ _ _ _ _ Hw Hk) as ([r0 c0] & Hk0 & Hc & _). cbn in *. subst c0.
  apply list_elem_of_lookup_2, overlapping_elem in Hk0 as (r1 & Hin & _). by apply (list_elem_of_fmap_2 snd) in Hin.
Qed.
End Clip.

(** ** Simplification *)

Section Simplify.
Context {RV : RangeOps Version} {RS : RangeOps (list Z)}.
Context {LV : RangeLaws version_cmp_slow} {LS : RangeLaws string_cmp}.
Context (lo up : Bound) (Hlo : Forall comparable (bound_values lo)) (Hup : Forall comparable (bound_values up)).
Context {C : Type} (L : C -> list Node -> Prop) {HL : LocalInvariant L}.

(** The Python version is within the bounds. *)
Definition python_within (sigma : Valuation) : bool :=
  point_in version_cmp_slow (version_point sigma (VarVersion PythonFullVersion)) (lo, up).

Definition simplifies (i r : NodeId) (table : list Node) : Prop :=
  replaces table i r /\ forall sigma, python_within sigma = true -> eval table sigma r = eval table sigma i.

Lemma simplifies_stable i r : stable (simplifies i r).
Proof.
  intros table table' Hok Hok' Hp [H1 H2]. split; [by apply (replaces_stable _ _ table)|]. intros sigma Hs.
  destruct H1. rewrite !(eval_extend table table') by done. by apply H2.
Qed.

Lemma simplifies_rewritten table i node r :
  table_ok table -> node_at table i = Some node -> rewritten simplifies table i node r -> simplifies i r table.
Proof.
  intros Hok En [H1 _ H2]. split; [done|]. intros sigma Hs.
  destruct (H2 sigma) as (c & d & Ec & _ & [_ Hd] & ->). rewrite (Hd _ Hs).
  destruct (eval_node table sigma i node Hok En) as (c' & Ec' & _ & ->). rewrite Ec in Ec'. by injection Ec' as <-.
Qed.

Lemma py_segment :
  range_is_empty (range_from_bounds lo up) = false -> one_segment (range_from_bounds lo up).
Proof.
  rewrite (range_is_empty_iter (cmp := version_cmp_slow)). destruct (segment_valid version_cmp_slow lo up) eqn:E.
  - intros _. exists lo, up. by apply (range_iter_from_bounds (cmp := version_cmp_slow)).
  - by rewrite (range_iter_invalid (cmp := version_cmp_slow)).
Qed.

(** A decision on the Python version. *)
Lemma simplify_decision_runs i edges new s node :
  state_ok L s -> node_valid (nodes s.1) i -> node_at (nodes s.1) i = Some node ->
  node_var node = VarVersion PythonFullVersion -> node_children node = EdgesVersion edges ->
  line_partition version_cmp_slow comparable new ->
  Forall2 widens (overlapping (range_from_bounds lo up) edges) new ->
  runs L (let! result := create_node (node_var node) (EdgesVersion new) in ret (node_negate result i)) s (simplifies i).
Proof.
  intros Hs Hi En Hvar Hch Hnew Hw. pose proof (ok_table _ (proj1 Hs)) as Hok.
  pose proof (node_at_ok _ _ _ Hok En) as [K1 K2 K3 K4 K5]. rewrite Hch in K3, K4, K5. cbn in K5.
  eapply runs_bind.
  { apply (create_node_runs L); [done|]. split; [by rewrite Hvar| | | |done].
    - intros sigma. rewrite Hvar. cbn. destruct (partition_select version_cmp_slow comparable new
        (version_point sigma (VarVersion PythonFullVersion)) Hnew) as (r & c & _ & _ & E). by exists c.
    - intros c Hc. by apply K3, (clip_nodes _ _ _ _ Hw).
    - intros c Hc. by apply K4, (clip_nodes _ _ _ _ Hw). }
  intros r s' Hs' Hp [D1 D2 D3]. apply runs_ret; [done|]. pose proof (ok_table _ (proj1 Hs')) as Hok'.
  assert (En' : node_at (nodes s'.1) i = Some node) by extend.
  split; [split; [extend|by apply negate_valid|]|].
  - intros P HP. apply all_vars_negate; [apply D1|]. apply D3; [by apply (all_vars_top _ _ _ _ En' HP)|].
    intros c Hc. apply (all_vars_child _ _ _ _ _ En' HP). rewrite Hch. by apply (clip_nodes _ _ _ _ Hw).
  - intros sigma Hsig. rewrite eval_negate by done.
    destruct (eval_node (nodes s'.1) sigma i node Hok' En') as (c & Ec & Hc & ->).
    rewrite (D2 sigma c), eval_negate; [done|done| |].
    + by apply (ok_valid _ _ _ (node_at_ok _ _ _ Hok' En')).
    + rewrite Hvar, Hch in Ec. rewrite Hvar. cbn in Ec |- *. rewrite <- Ec. apply (clip_select (range_from_bounds lo up)); [done..|].
      by rewrite (from_bounds_at version_cmp_slow).
Qed.

Lemma simplify_python_versions_fuel_runs fuel i s :
  state_ok L s -> node_valid (nodes s.1) i -> (node_rank i <= fuel)%nat ->
  runs L (simplify_python_versions_fuel fuel i lo up) s (simplifies i).
Proof.
  assert (Hsame : forall i s, state_ok L s -> node_valid (nodes s.1) i -> runs L (ret i) s (simplifies i)).
  { intros j s' Hs Hj. apply runs_ret; [done|]. by split. }
  revert i s. induction fuel as [|fuel IH]; intros i s Hs Hi Hf; cbn [simplify_python_versions_fuel];
    (destruct ((node_is_true i || node_is_false i) || (is_unbounded lo && is_unbounded up)) eqn:Et; [by apply Hsame|]);
    apply orb_false_iff in Et as [[Et Ef]%orb_false_iff _]; destruct (node_valid_at _ _ Hi Et Ef) as (node & En & Er & _); [lia|].
  apply (runs_get_node _ _ node); [done|]. pose proof (ok_table _ (proj1 Hs)) as Hok.
  assert (Hmap : runs L (let! children := edges_map (node_children node) i (fun node_id =>
      simplify_python_versions_fuel fuel node_id lo up) in create_node (node_var node) children) s (simplifies i)).
  { eapply runs_weaken; [apply (map_create_runs L simplifies); [|..|done|done|done|]|].
    - intros. apply simplifies_stable.
    - by intros c d table [H _].
    - intros c s' Hc Hs' Hp. destruct (child_operand _ _ s' i node c Hs Hs' Hp En Hc) as [Hv Hr]. apply IH; [done..|lia].
    - intros r table Ht Hp. apply simplifies_rewritten; [done|extend]. }
  destruct (node_var node) as [| |key|key|key|key|key] eqn:Evar, (node_children node) as [edges| |] eqn:Ech; try exact Hmap.
  all: destruct key; try exact Hmap.
  destruct (range_is_empty (range_from_bounds lo up)) eqn:Ee.
  - apply runs_ret; [done|]. split; [apply replaces_terminal; [done|by right]|]. intros sigma Hsig. exfalso.
    apply (empty_at version_cmp_slow _ (version_point sigma (VarVersion PythonFullVersion))) in Ee.
    rewrite (from_bounds_at version_cmp_slow) in Ee.
    unfold python_within in Hsig. by rewrite Hsig in Ee.
  - destruct (clip_partition (range_from_bounds lo up) edges) as (new & -> & Hnew & Hw).
    + by apply py_segment.
    + by apply bounds_values_from.
    + pose proof (ok_partition _ _ _ (node_at_ok _ _ _ Hok En)) as H. by rewrite Ech in H.
    + rewrite <- Evar. by apply (simplify_decision_runs i edges new).
Qed.

(** The result has the value of the marker for every Python version within the bounds. *)
Lemma simplify_python_versions_runs i s :
  state_ok L s -> node_valid (nodes s.1) i -> runs L (simplify_python_versions i lo up) s (simplifies i).
Proof. intros Hs Hi. by apply simplify_python_versions_fuel_runs. Qed.
End Simplify.
