(* ===== verification/SubstitutionFacts.v ===== *)
(** * Markers: substitution of conditions for extras, verified

    [resolve_extras]: the result has the value of the marker in which each extra has the value of
    its condition. [resolve_extras_with_bounds]: the results bound the marker, for every choice of
    extras between their bounds. *)

From stdpp Require Import base countable list option numbers decidable strings gmap.
From Stdlib Require Import ZArith Lia.
From S2P Require Import Prelude Ranges VersionTypes VersionSmall Version VersionOrder.
From S2P Require Import VersionCacheKey VersionParser VersionSpecifier MarkerTypes Interner EdgesOrder MarkerAlgebra.
From S2P Require Import MarkerRestrict MarkerEval InternerFacts EdgesFacts AlgebraFacts ExclusionFacts.
From S2P Require Import RestrictFacts AssumptionFacts.

Local Open Scope Z_scope.
Local Open Scope uv_scope.

Section Substitution.
Context {RV : RangeOps Version} {RS : RangeOps (list Z)}.
Context {LV : RangeLaws version_cmp_slow} {LS : RangeLaws string_cmp}.

(** ** Decisions rebuilt from conjunctions and disjunctions *)

Section Rebuild.
Context {C : Type} (L : C -> list Node -> Prop) {HL : LocalInvariant L}.

(** The node, as it was in an earlier table. *)
Lemma valid_means table table' i :
  table_ok table -> table_ok table' -> table `prefix_of` table' -> node_valid table i ->
  means allowed (fun sigma => eval table sigma i) i table'.
Proof. intros Hok Hok' Hp Hi. split; [extend|]. intros sigma _. by apply eval_extend. Qed.

Section Ranges.
Context {T : Type} (cmp law : T -> T -> comparison) `{!RangeOps T} (to_edges : list (range T * NodeId) -> Edges).
Context (variable : MarkerVariable) (at_point : Valuation -> T * Z) (table : list Node).
Hypothesis Hok : table_ok table.
Context (good : T -> Prop).
Hypothesis Hcreate : forall r s, state_ok L s -> Forall good (range_values r) ->
  runs L (create_node variable (to_edges (from_range cmp r))) s
    (means allowed (fun sigma => range_at law r (at_point sigma))).

Lemma rebuild_ranges_runs edges result P s :
  state_ok L s -> table `prefix_of` nodes s.1 -> (forall c, c ∈ edges.*2 -> node_valid table c) ->
  Forall (fun e => Forall good (range_values e.1)) edges -> means allowed P result (nodes s.1) ->
  runs L (rebuild_ranges cmp to_edges variable edges result) s
    (means allowed (fun sigma => P sigma || existsb (eval table sigma) (matching law (at_point sigma) edges))).
Proof.
  revert result P s. induction edges as [|[r child] edges IH]; intros result P s Hs Hp Hc Hg Hr; cbn [rebuild_ranges].
  - apply runs_ret; [done|]. eapply means_ext; [|done]. intros sigma _. by rewrite orb_false_r.
  - assert (Hedges : forall c, c ∈ edges.*2 -> node_valid table c) by (intros c Hin; apply Hc; set_solver).
    apply Forall_cons in Hg as [Hgr Hg]. cbn in Hgr. destruct (node_is_false child) eqn:Ef.
    + eapply runs_weaken; [by apply IH|]. intros r' table' _ _. apply means_ext. intros sigma _.
      rewrite (matching_cons law). apply node_is_false_spec in Ef as ->. destruct (range_at law r _); [|done].
      cbn [existsb]. by rewrite eval_false.
    + eapply runs_bind; [by apply Hcreate|]. intros condition s1 Hs1 Hp1 H1.
      assert (Hchild : means allowed (fun sigma => eval table sigma child) child (nodes s1.1)).
      { apply valid_means; [done|apply Hs1|by etransitivity|apply Hc; set_solver]. }
      eapply runs_bind; [by apply (and_means L allowed _ _ _ _ _ (fun _ H => H) Hs1 H1 Hchild)|].
      intros branch s2 Hs2 Hp2 H2. eapply runs_bind.
      { eapply (or_means L allowed P _ result branch s2 (fun _ H => H) Hs2); [|exact H2].
        apply (means_stable _ _ _ (nodes s.1)); [apply Hs|apply Hs2|by etransitivity|done]. }
      intros result' s3 Hs3 Hp3 H3. eapply runs_weaken.
      { eapply (IH result' _ s3 Hs3); [|done|done|exact H3]. transitivity (nodes s.1); [done|].
        transitivity (nodes s1.1); [done|]. by transitivity (nodes s2.1). }
      intros r' table' _ _. apply means_ext. intros sigma _. rewrite (matching_cons law).
      destruct (range_at law r (at_point sigma)); cbn; [by rewrite orb_assoc|by rewrite orb_false_r].
Qed.
End Ranges.

(** [rebuild_node]: the decision on [variable], with children that need not come after it. *)
Lemma rebuild_node_runs variable children s :
  state_ok L s -> edges_kind variable children -> edges_partition children ->
  (forall c, c ∈ edges_nodes children -> node_valid (nodes s.1) c) ->
  runs L (rebuild_node variable children) s
    (means allowed (fun sigma => existsb (eval (nodes s.1) sigma) (edges_select sigma variable children))).
Proof.
  intros Hs Hk Hpart Hc. pose proof (ok_table _ (proj1 Hs)) as Hok.
  assert (Hfalse : means allowed (fun _ => false) NODE_FALSE (nodes s.1)) by apply (means_terminal _ false).
  destruct children as [edges|edges|high low]; cbn [rebuild_node].
  - apply (rebuild_ranges_runs version_cmp version_cmp_slow EdgesVersion variable (fun sigma => version_point sigma variable)
      (nodes s.1) Hok comparable) with (P := fun _ => false); [|done..|apply Hpart|done].
    intros r s' Hs' Hr. apply (version_node_runs L); [done|by destruct variable|done].
  - apply (rebuild_ranges_runs string_cmp string_cmp EdgesString variable (fun sigma => string_point sigma variable)
      (nodes s.1) Hok any_string) with (P := fun _ => false); [|done..|apply Hpart|done].
    intros r s' Hs' _. destruct variable; try done. by apply (string_node_runs L).
  - eapply runs_bind; [apply (bool_node_runs L allowed variable true s Hs); by destruct variable|].
    intros condition s1 Hs1 Hp1 H1. eapply runs_bind.
    { eapply (and_means L allowed _ _ _ _ _ (fun _ H => H) Hs1 H1). apply (valid_means (nodes s.1)); [done|apply Hs1|done|].
      apply Hc. set_solver. }
    intros high' s2 Hs2 Hp2 H2. assert (Hp02 : nodes s.1 `prefix_of` nodes s2.1) by by etransitivity.
    eapply runs_bind.
    { eapply (and_means L allowed _ _ _ _ _ (fun _ H => H) Hs2).
      - apply means_not; [apply Hs2|]. eapply means_stable; [apply Hs1|apply Hs2|done|exact H1].
      - apply (valid_means (nodes s.1)); [done|apply Hs2|done|]. apply Hc. set_solver. }
    intros low' s3 Hs3 Hp3 H3. eapply runs_weaken.
    { eapply (or_means L allowed _ _ high' low' s3 (fun _ H => H) Hs3); [|exact H3].
      eapply means_stable; [apply Hs2|apply Hs3|done|exact H2]. }
    intros r table _ _. apply means_ext. intros sigma _. cbn.
    by destruct (bool_at sigma variable); cbn; rewrite ?orb_false_r.
Qed.

(** ** Children that change *)

Lemma mark_changed_trace (f : NodeId -> M C NodeId) c s d s' :
  mark_changed f c s = Some (d, s') -> s'.2.2 = false -> s.2.2 = false /\ d = c.
Proof.
  unfold mark_changed. intros E Hf. apply bind_Some_inv in E as (x & s1 & Ex & E). cbn in E. injection E as -> <-.
  cbn in Hf. apply orb_false_iff in Hf as [Hf Hd]. apply negb_false_iff, Z.eqb_eq in Hd. split; [|done].
  unfold zoom in Ex. destruct (f c (s.1, s.2.1)) as [[y s2]|]; [|done]. cbn in Ex. by injection Ex as <- <-.
Qed.

#[local] Instance any_local : LocalInvariant (fun (_ : bool) _ => True).
Proof. done. Qed.

#[local] Instance flag_local : LocalInvariant (fun (c : C * bool) table => L c.1 table /\ True).
Proof. exact (product_invariant L (fun (_ : bool) _ => True)). Qed.

Lemma mark_changed_runs (f : NodeId -> M C NodeId) c s Q :
  interner_ok s.1 -> runs L (f c) (s.1, s.2.1) Q ->
  runs (fun (c : C * bool) table => L c.1 table /\ True) (mark_changed f c) s Q.
Proof.
  intros Hok Hf. unfold mark_changed. eapply (runs_bind (fun (c : C * bool) table => L c.1 table /\ True)).
  { by apply (zoom_runs L (fun (_ : bool) _ => True)). }
  intros d s1 Hs1 Hp1 Hd. exists d, (s1.1, (s1.2.1, s1.2.2 || negb (d =? c))). split_and!; [done| |done..].
  destruct Hs1 as [H1 H2]. by split.
Qed.

(** The mapped children, and that they are the old ones when none is marked. *)
Lemma map_changed_runs (S : NodeId -> NodeId -> list Node -> Prop) (f : NodeId -> M C NodeId) i node s :
  (forall c d, stable (S c d)) -> state_ok L s -> node_at (nodes s.1) i = Some node ->
  (forall c s', c ∈ edges_nodes (node_children node) -> state_ok L s' -> nodes s.1 `prefix_of` nodes s'.1 ->
    runs L (f (node_negate c i)) s' (S (node_negate c i))) ->
  runs L (with_variable false (edges_map (node_children node) i (mark_changed f))) s
    (fun mapped table =>
       edges_image (fun c d => S (node_negate c i) d table) (node_var node) (node_children node) mapped.1 /\
       (mapped.2 = false -> forall sigma c, edges_select sigma (node_var node) (node_children node) = [c] ->
          edges_select sigma (node_var node) mapped.1 = [node_negate c i])).
Proof.
  intros HS Hs En Hf. pose proof (node_at_ok _ _ _ (ok_table _ (proj1 Hs)) En) as [K1 _ _ _ _].
  assert (Hmap : runs (fun (c : C * bool) table => L c.1 table /\ True)
    (edges_map (node_children node) i (mark_changed f)) (s.1, (s.2, false))
    (fun out table => edges_image (fun c d => S (node_negate c i) d table) (node_var node) (node_children node) out)).
  { apply (edges_map_runs (fun (c : C * bool) table => L c.1 table /\ True) (mark_changed f)
      (fun c d => S (node_negate c i) d) i (node_var node)); [intros; apply HS| |done|].
    - destruct Hs as [H1 H2]. by split.
    - intros c s' Hc [Hok' [Hl _]] Hp. apply mark_changed_runs; [done|]. by apply Hf. }
  destruct Hmap as (out & s' & E & [Hok' [Hl _]] & Hp & Him). exists (out, s'.2.2), (s'.1, s'.2.1).
  unfold with_variable. rewrite E. split_and!; [done..|]. cbn. intros Hn sigma c Ec.
  destruct (edges_map_trace (fun s => s.2.2 = false) (mark_changed f) (fun c d => d = c)
    (mark_changed_trace f) _ _ _ _ _ E Hn) as [_ HQ].
  destruct (HQ sigma _ c Ec) as (d & Ed & ->). exact Ed.
Qed.

(** The node of the mapped children. *)
Lemma rebuild_if_runs (S : NodeId -> NodeId -> list Node -> Prop) (mapped : Edges * bool) i node s :
  (forall c d, stable (S c d)) -> (forall c d table, S c d table -> node_valid table d) ->
  state_ok L s -> node_valid (nodes s.1) i -> node_at (nodes s.1) i = Some node ->
  edges_image (fun c d => S (node_negate c i) d (nodes s.1)) (node_var node) (node_children node) mapped.1 ->
  (mapped.2 = false -> forall sigma c, edges_select sigma (node_var node) (node_children node) = [c] ->
     edges_select sigma (node_var node) mapped.1 = [node_negate c i]) ->
  runs L (rebuild_if (node_var node) mapped i) s (fun r table =>
    node_valid table r /\ forall sigma, allowed sigma -> exists c d,
      edges_select sigma (node_var node) (node_children node) = [c] /\ S (node_negate c i) d table /\
      eval table sigma r = eval table sigma d).
Proof.
  intros HS Hval Hs Hi En [H1 H2 H3 H4] Hn. pose proof (ok_table _ (proj1 Hs)) as Hok.
  pose proof (node_at_ok _ _ _ Hok En) as [K1 K2 K3 K4 K5].
  unfold rebuild_if. destruct mapped as [out [|]]; cbn [fst snd] in *.
  - eapply runs_weaken; [apply rebuild_node_runs; [done|done|by apply H4|]|].
    + intros d (c & Hc & Hd)%H2. by apply (Hval _ _ _ Hd).
    + intros r table Ht Hp [Hv He]. split; [done|]. intros sigma Hsig. destruct (K2 sigma) as [c Ec].
      destruct (H3 _ _ Ec) as (d & Ed & Hd). exists c, d. split_and!; [done|by apply (HS _ _ (nodes s.1))|].
      rewrite (He _ Hsig), Ed. cbn. rewrite orb_false_r. symmetry. apply eval_extend; [done..|]. by apply (Hval _ _ _ Hd).
  - apply runs_ret; [done|]. split; [done|]. intros sigma Hsig.
    destruct (eval_node (nodes s.1) sigma i node Hok En) as (c & Ec & _ & Ei).
    destruct (H3 _ _ Ec) as (d & Ed & Hd). rewrite (Hn eq_refl _ _ Ec) in Ed. injection Ed as <-. eauto.
Qed.
End Rebuild.

(** ** Substitution *)

(** Decisions on extras. *)
Definition extra_decision (node : Node) : option (list Z * NodeId * NodeId) :=
  match node_var node, node_children node with
  | VarExtra name, EdgesBoolean high low => Some (name, high, low)
  | _, _ => None
  end.

Lemma other_decision table sigma extras node :
  edges_ok table (node_var node) (node_children node) -> extra_decision node = None ->
  edges_select (with_extras extras sigma) (node_var node) (node_children node) =
    edges_select sigma (node_var node) (node_children node).
Proof.
  intros [K1 _ _ _] Hn. apply agree_select. split_and!; [done|done| |done]. unfold extra_decision in Hn. cbn.
  by destruct (node_var node), (node_children node).
Qed.

Lemma extra_child table sigma extras i node name high low :
  table_ok table -> node_at table i = Some node -> extra_decision node = Some (name, high, low) ->
  eval table (with_extras extras sigma) i =
    eval table (with_extras extras sigma) (node_negate (if extras name then high else low) i).
Proof.
  intros Hok En Hd. destruct (eval_node table (with_extras extras sigma) i node Hok En) as (c & Ec & _ & ->).
  unfold extra_decision in Hd. destruct (node_var node) as [| | | | |n|], (node_children node) as [| |h l]; try done.
  injection Hd as -> -> ->. cbn in Ec. by injection Ec as <-.
Qed.

Section Resolve.
Context (known_extras : gmap (list Z) Z).

(** The extras have the values of their conditions. *)
Definition substitute (table : list Node) (sigma : Valuation) : Valuation :=
  with_extras (fun name => eval table sigma (known_extra known_extras name)) sigma.

Definition known_valid (table : list Node) : Prop :=
  forall name, node_valid table (known_extra known_extras name).

Lemma known_valid_extend table table' : table `prefix_of` table' -> known_valid table -> known_valid table'.
Proof. intros Hp H name. specialize (H name). extend. Qed.

Record resolves (i r : NodeId) (table : list Node) : Prop := {
  resolves_known : known_valid table;
  resolves_marker : node_valid table i;
  resolves_valid : node_valid table r;
  resolves_eval : forall sigma, allowed sigma -> eval table sigma r = eval table (substitute table sigma) i
}.

Lemma substitute_extend table table' sigma i :
  table_ok table -> table_ok table' -> table `prefix_of` table' -> known_valid table -> node_valid table i ->
  eval table' (substitute table' sigma) i = eval table (substitute table sigma) i.
Proof.
  intros Hok Hok' Hp Hk Hi. rewrite (eval_extend table table') by done. apply eval_agree; [done..|].
  eapply all_vars_weaken; [|by apply all_vars_table]. intros var _. split_and!; [done|done| |done]. cbn.
  destruct var; try done. apply eval_extend; [done..|]. apply Hk.
Qed.

Lemma resolves_stable i r : stable (resolves i r).
Proof.
  intros table table' Hok Hok' Hp [H1 H2 H3 H4]. split; [by apply (known_valid_extend table)|extend..|].
  intros sigma Hs. rewrite (substitute_extend table table'), (eval_extend table table') by done. by apply H4.
Qed.

Notation resolve_local := (caches (K := Z) (V := Z) resolves).

#[local] Instance resolve_local_invariant : LocalInvariant resolve_local.
Proof. apply caches_local, resolves_stable. Qed.

(** A decision on an extra, from the results for its children. *)
Lemma resolves_decision table i node name high low h l r :
  table_ok table -> node_valid table i -> node_at table i = Some node ->
  extra_decision node = Some (name, high, low) ->
  resolves (node_negate high i) h table -> resolves (node_negate low i) l table -> node_valid table r ->
  (forall sigma, allowed sigma -> eval table sigma r =
     if eval table sigma (known_extra known_extras name) then eval table sigma h else eval table sigma l) ->
  resolves i r table.
Proof.
  intros Hok Hi En Hd [H1 H2 H3 H4] [L1 L2 L3 L4] Hr He. split; [done..|]. intros sigma Hs.
  unfold substitute. rewrite (extra_child _ _ _ _ _ _ _ _ Hok En Hd), (He _ Hs).
  destruct (eval table sigma (known_extra known_extras name)); [by apply H4|by apply L4].
Qed.

(** [if condition then high else low], from conjunctions and a disjunction. *)
Lemma choose_runs {C : Type} (L : C -> list Node -> Prop) {HL : LocalInvariant L} condition high low s :
  state_ok L s -> node_valid (nodes s.1) condition -> node_valid (nodes s.1) high -> node_valid (nodes s.1) low ->
  runs L (let! high := and condition high in
          let! low := and (node_not condition) low in
          or high low) s
    (means allowed (fun sigma =>
       if eval (nodes s.1) sigma condition then eval (nodes s.1) sigma high else eval (nodes s.1) sigma low)).
Proof.
  intros Hs Hc Hh Hl. pose proof (ok_table _ (proj1 Hs)) as Hok.
  assert (Hold : forall s', state_ok L s' -> nodes s.1 `prefix_of` nodes s'.1 -> forall i, node_valid (nodes s.1) i ->
    means allowed (fun sigma => eval (nodes s.1) sigma i) i (nodes s'.1)).
  { intros s' Hs' Hp i Hi. apply valid_means; [done|apply Hs'|done..]. }
  eapply runs_bind; [by eapply (and_means L allowed _ _ _ _ _ (fun _ H => H) Hs); apply Hold|].
  intros high' s1 Hs1 Hp1 H1. eapply runs_bind.
  { eapply (and_means L allowed _ _ _ _ _ (fun _ H => H) Hs1); [|by apply Hold].
    apply means_not; [apply Hs1|by apply Hold]. }
  intros low' s2 Hs2 Hp2 H2. eapply runs_weaken.
  { eapply (or_means L allowed _ _ high' low' s2 (fun _ H => H) Hs2); [|exact H2].
    eapply means_stable; [apply Hs1|apply Hs2|done|exact H1]. }
  intros r table _ _. apply means_ext. intros sigma _. cbn.
  by destruct (eval (nodes s.1) sigma condition); cbn; rewrite ?orb_false_r.
Qed.

Section Step.
Context (rec : NodeId -> M (gmap Z Z) NodeId) (i : NodeId) (node : Node) (s : Interner * gmap Z Z).
Hypothesis Hs : state_ok resolve_local s.
Hypothesis Hk : known_valid (nodes s.1).
Hypothesis Hi : node_valid (nodes s.1) i.
Hypothesis En : node_at (nodes s.1) i = Some node.
Hypothesis Hrec : forall c s', c ∈ edges_nodes (node_children node) -> state_ok resolve_local s' ->
  nodes s.1 `prefix_of` nodes s'.1 -> runs resolve_local (rec (node_negate c i)) s' (resolves (node_negate c i)).

(** A decision on an extra. *)
Lemma resolve_extra_runs name high low :
  extra_decision node = Some (name, high, low) ->
  runs resolve_local
    (let condition := known_extra known_extras name in
     if node_is_true condition then rec (node_negate high i)
     else if node_is_false condition then rec (node_negate low i)
     else
       let! high := rec (node_negate high i) in
       let! low := rec (node_negate low i) in
       let! high := and condition high in
       let! low := and (node_not condition) low in
       or high low) s (resolves i).
Proof.
  intros Hd. cbv zeta. assert (Hch : high ∈ edges_nodes (node_children node) /\ low ∈ edges_nodes (node_children node)).
  { unfold extra_decision in Hd. destruct (node_var node), (node_children node); try done.
    injection Hd as -> -> ->. cbn. set_solver. }
  destruct Hch as [Hh Hl]. destruct (node_is_true (known_extra known_extras name)) eqn:Et.
  { eapply runs_weaken; [by apply Hrec|]. intros r table Ht Hp [H1 H2 H3 H4]. split; [done|extend|done|].
    intros sigma Hsig. rewrite (H4 _ Hsig). symmetry. unfold substitute.
    rewrite (extra_child table _ _ i node name high low) by (done || extend).
    apply node_is_true_spec in Et as ->. by rewrite eval_true. }
  destruct (node_is_false (known_extra known_extras name)) eqn:Ef.
  { eapply runs_weaken; [by apply Hrec|]. intros r table Ht Hp [H1 H2 H3 H4]. split; [done|extend|done|].
    intros sigma Hsig. rewrite (H4 _ Hsig). symmetry. unfold substitute.
    rewrite (extra_child table _ _ i node name high low) by (done || extend).
    apply node_is_false_spec in Ef as ->. by rewrite eval_false. }
  eapply runs_bind; [by apply Hrec|]. intros h s1 Hs1 Hp1 H1.
  eapply runs_bind; [by apply Hrec|]. intros l s2 Hs2 Hp2 H2.
  assert (Hp : nodes s.1 `prefix_of` nodes s2.1) by by etransitivity.
  assert (H1' : resolves (node_negate high i) h (nodes s2.1)).
  { apply (resolves_stable _ _ (nodes s1.1)); [apply Hs1|apply Hs2|done..]. }
  eapply runs_weaken.
  { apply (choose_runs resolve_local); [done| |apply H1'|apply H2]. apply (known_valid_extend (nodes s.1)); done. }
  intros r table Ht Hp' [Hv He]. pose proof (ok_table _ (proj1 Hs2)) as Hok2.
  apply (resolves_decision table i node name high low h l); [done|extend|extend|done| | |done|].
  - by apply (resolves_stable _ _ (nodes s2.1)).
  - by apply (resolves_stable _ _ (nodes s2.1)).
  - intros sigma Hsig. rewrite (He _ Hsig). pose proof (known_valid_extend _ _ Hp Hk name).
    rewrite !(eval_extend (nodes s2.1) table); [done|done|done|done|apply H2|done|done|done|apply H1'|done..].
Qed.

(** Another decision. *)
Lemma resolve_other_runs :
  extra_decision node = None ->
  runs resolve_local
    (let! mapped := with_variable false (edges_map (node_children node) i (mark_changed rec)) in
     if mapped.2 then rebuild_node (node_var node) mapped.1 else ret i) s (resolves i).
Proof.
  intros Hd. eapply runs_bind.
  { apply (map_changed_runs resolve_local (fun c d => resolves c d)); [intros; apply resolves_stable|done..]. }
  intros mapped s1 Hs1 Hp1 [Him Hn]. cbn in Him. eapply runs_weaken.
  { apply (rebuild_if_runs resolve_local (fun c d => resolves c d) mapped i node s1); [..|extend|extend|done|done].
    - intros. apply resolves_stable.
    - intros c d table H. apply H.
    - done. }
  intros r table Ht Hp [Hv He]. assert (En' : node_at table i = Some node) by extend.
  split; [apply (known_valid_extend (nodes s.1)); [by etransitivity|done]|extend|done|].
  intros sigma Hsig. destruct (He _ Hsig) as (c & d & Ec & [_ _ _ Hr] & ->). rewrite (Hr _ Hsig).
  destruct (eval_node table (substitute table sigma) i node Ht En') as (c' & Ec' & _ & ->).
  unfold substitute in Ec'. rewrite (other_decision table), Ec in Ec'; [by injection Ec' as <-| |done].
  by apply (node_at_ok _ i).
Qed.
End Step.

Lemma resolve_extras_cached_runs fuel i s :
  state_ok resolve_local s -> known_valid (nodes s.1) -> node_valid (nodes s.1) i -> (node_rank i <= fuel)%nat ->
  runs resolve_local (resolve_extras_cached fuel known_extras i) s (resolves i).
Proof.
  revert i s. induction fuel as [|fuel IH]; intros i s Hs Hk Hi Hf; cbn [resolve_extras_cached];
    (destruct (node_is_true i || node_is_false i) eqn:Et;
     [apply runs_ret; [done|]; split; [done..|]; intros sigma _;
      by apply orb_true_iff in Et as [->%node_is_true_spec| ->%node_is_false_spec]|]);
    apply orb_false_iff in Et as [Et Ef]; destruct (node_valid_at _ _ Hi Et Ef) as (node & En & Er & _); [lia|].
  apply runs_get_local. destruct (s.2 !! i) as [r|] eqn:Ec; [apply runs_ret; [done|]; by apply (proj2 Hs)|].
  assert (Hrec : forall c s', c ∈ edges_nodes (node_children node) -> state_ok resolve_local s' ->
    nodes s.1 `prefix_of` nodes s'.1 ->
    runs resolve_local (resolve_extras_cached fuel known_extras (node_negate c i)) s' (resolves (node_negate c i))).
  { intros c s' Hc Hs' Hp. destruct (child_operand _ _ s' i node c Hs Hs' Hp En Hc) as [Hv Hr].
    apply IH; [done|by apply (known_valid_extend (nodes s.1))|done|lia]. }
  apply (runs_get_node _ _ node); [done|]. eapply runs_bind.
  - destruct (extra_decision node) as [[[name high] low]|] eqn:Ed.
    + pose proof (resolve_extra_runs _ i node s Hs Hk Hi En Hrec name high low Ed) as H.
      unfold extra_decision in Ed. destruct (node_var node), (node_children node); try done.
      injection Ed as -> -> ->. exact H.
    + pose proof (resolve_other_runs _ i node s Hs Hk Hi En Hrec Ed) as H.
      unfold extra_decision in Ed. by destruct (node_var node), (node_children node).
  - intros r s' Hs' Hp Hr. apply runs_get_local, runs_set_local, runs_ret; [|done].
    split; [apply Hs'|]. by apply caches_insert; [apply Hs'|].
Qed.

Lemma resolve_extras_runs {C : Type} (L : C -> list Node -> Prop) {HL : LocalInvariant L} i s :
  state_ok L s -> known_valid (nodes s.1) -> node_valid (nodes s.1) i ->
  runs L (resolve_extras i known_extras) s (resolves i).
Proof.
  intros Hs Hk Hi. unfold resolve_extras. apply (with_cache_runs L resolve_local); [done|].
  apply resolve_extras_cached_runs; [|done..]. split; [apply Hs|apply caches_empty].
Qed.
End Resolve.

(** ** Bounds *)

Section Bounds.
Context (known_extras : gmap (list Z) (Z * Z)).

(** A choice of extras between their bounds. *)
Definition chooses (table : list Node) (sigma : Valuation) (extras : list Z -> bool) : Prop :=
  forall name,
    (eval table sigma (known_bounds known_extras name).1 = true -> extras name = true) /\
    (extras name = true -> eval table sigma (known_bounds known_extras name).2 = true).

Definition bounds_valid (table : list Node) : Prop :=
  forall name, node_valid table (known_bounds known_extras name).1 /\ node_valid table (known_bounds known_extras name).2.

Lemma bounds_valid_extend table table' : table `prefix_of` table' -> bounds_valid table -> bounds_valid table'.
Proof. intros Hp H name. destruct (H name). split; extend. Qed.

Lemma chooses_extend table table' sigma extras :
  table_ok table -> table_ok table' -> table `prefix_of` table' -> bounds_valid table ->
  chooses table' sigma extras <-> chooses table sigma extras.
Proof.
  intros Hok Hok' Hp Hb. unfold chooses. apply forall_proper. intros name. destruct (Hb name).
  by rewrite !(eval_extend table table').
Qed.

(** The first node implies the marker, and the marker the second. *)
Record bounds (i : NodeId) (r : NodeId * NodeId) (table : list Node) : Prop := {
  bounds_known : bounds_valid table;
  bounds_marker : node_valid table i;
  bounds_lower_valid : node_valid table r.1;
  bounds_upper_valid : node_valid table r.2;
  bounds_lower : forall sigma extras, allowed sigma -> chooses table sigma extras ->
    eval table sigma r.1 = true -> eval table (with_extras extras sigma) i = true;
  bounds_upper : forall sigma extras, allowed sigma -> chooses table sigma extras ->
    eval table (with_extras extras sigma) i = true -> eval table sigma r.2 = true
}.

Lemma bounds_stable i r : stable (bounds i r).
Proof.
  intros table table' Hok Hok' Hp [H1 H2 H3 H4 H5 H6]. split; [by apply (bounds_valid_extend table)|extend..| |].
  - intros sigma extras Hs. rewrite (chooses_extend table table'), !(eval_extend table table') by done. by apply H5.
  - intros sigma extras Hs. rewrite (chooses_extend table table'), !(eval_extend table table') by done. by apply H6.
Qed.

Notation bounds_local := (caches (K := Z) (V := Z * Z) bounds).

#[local] Instance bounds_local_invariant : LocalInvariant bounds_local.
Proof. apply caches_local, bounds_stable. Qed.

(** The formulas of [combine_bounds]. *)
Definition lower_value (same lower upper high low : bool) : bool :=
  (lower && high) || (negb upper && low) || (negb same && (high && low)).
Definition upper_value (lower upper high low : bool) : bool := (upper && high) || (negb lower && low).

Lemma combine_bounds_runs {C : Type} (L : C -> list Node -> Prop) {HL : LocalInvariant L} lower upper hl hu ll lu s :
  state_ok L s -> Forall (node_valid (nodes s.1)) [lower; upper; hl; hu; ll; lu] ->
  runs L (combine_bounds (lower, upper) (hl, hu) (ll, lu)) s (fun r table =>
    means allowed (fun sigma => lower_value (lower =? upper) (eval (nodes s.1) sigma lower)
      (eval (nodes s.1) sigma upper) (eval (nodes s.1) sigma hl) (eval (nodes s.1) sigma ll)) r.1 table /\
    means allowed (fun sigma => upper_value (eval (nodes s.1) sigma lower) (eval (nodes s.1) sigma upper)
      (eval (nodes s.1) sigma hu) (eval (nodes s.1) sigma lu)) r.2 table).
Proof.
  intros Hs Hv. pose proof (ok_table _ (proj1 Hs)) as Hok.
  assert (Hold : forall i, i ∈ [lower; upper; hl; hu; ll; lu] -> forall s', state_ok L s' ->
    nodes s.1 `prefix_of` nodes s'.1 -> means allowed (fun sigma => eval (nodes s.1) sigma i) i (nodes s'.1)).
  { intros i Hin s' Hs' Hp. apply valid_means; [done|apply Hs'|done|].
    by eapply (proj1 (Forall_forall _ _) Hv). }
  pose proof (Hold lower ltac:(set_solver)) as Mlo. pose proof (Hold upper ltac:(set_solver)) as Mup.
  pose proof (Hold hl ltac:(set_solver)) as Mhl. pose proof (Hold hu ltac:(set_solver)) as Mhu.
  pose proof (Hold ll ltac:(set_solver)) as Mll. pose proof (Hold lu ltac:(set_solver)) as Mlu. clear Hold Hv.
  cbn [combine_bounds].
  eapply runs_bind; [by eapply (and_means L allowed _ _ _ _ _ (fun _ H => H) Hs); [apply Mlo|apply Mhl]|].
  intros pl s1 Hs1 Hp1 H1.
  eapply runs_bind.
  { eapply (and_means L allowed _ _ _ _ _ (fun _ H => H) Hs1); [|by apply Mll].
    apply means_not; [apply Hs1|by apply Mup]. }
  intros nl s2 Hs2 Hp2 H2. assert (Hp02 : nodes s.1 `prefix_of` nodes s2.1) by by etransitivity.
  eapply runs_bind.
  { eapply (or_means L allowed _ _ _ _ _ (fun _ H => H) Hs2); [|exact H2].
    eapply means_stable; [apply Hs1|apply Hs2|done|exact H1]. }
  intros rl s3 Hs3 Hp3 H3. assert (Hp03 : nodes s.1 `prefix_of` nodes s3.1) by by etransitivity.
  assert (Hcons : runs L (if lower =? upper then ret rl
     else let! consensus := and hl ll in or rl consensus) s3
     (means allowed (fun sigma => lower_value (lower =? upper) (eval (nodes s.1) sigma lower)
      (eval (nodes s.1) sigma upper) (eval (nodes s.1) sigma hl) (eval (nodes s.1) sigma ll)))).
  { unfold lower_value. destruct (lower =? upper).
    - apply runs_ret; [done|]. eapply means_ext; [|exact H3]. intros sigma _. cbn. by rewrite orb_false_r.
    - eapply runs_bind; [by eapply (and_means L allowed _ _ _ _ _ (fun _ H => H) Hs3); [apply Mhl|apply Mll]|].
      intros cs s4 Hs4 Hp4 H4. eapply (or_means L allowed _ _ _ _ _ (fun _ H => H) Hs4); [|exact H4].
      eapply means_stable; [apply Hs3|apply Hs4|done|exact H3]. }
  eapply runs_bind; [exact Hcons|]. intros rl' s4 Hs4 Hp4 H4.
  assert (Hp04 : nodes s.1 `prefix_of` nodes s4.1) by by etransitivity.
  eapply runs_bind; [by eapply (and_means L allowed _ _ _ _ _ (fun _ H => H) Hs4); [apply Mup|apply Mhu]|].
  intros pu s5 Hs5 Hp5 H5. assert (Hp05 : nodes s.1 `prefix_of` nodes s5.1) by by etransitivity.
  eapply runs_bind.
  { eapply (and_means L allowed _ _ _ _ _ (fun _ H => H) Hs5); [|by apply Mlu].
    apply means_not; [apply Hs5|by apply Mlo]. }
  intros nu s6 Hs6 Hp6 H6. eapply runs_bind.
  { eapply (or_means L allowed _ _ _ _ _ (fun _ H => H) Hs6); [|exact H6].
    eapply means_stable; [apply Hs5|apply Hs6|done|exact H5]. }
  intros ru s7 Hs7 Hp7 H7. apply runs_ret; [done|]. split; [|exact H7].
  eapply means_stable; [apply Hs4|apply Hs7| |exact H4].
  etransitivity; [exact Hp5|]. by etransitivity.
Qed.

(** A decision on an extra, from the bounds of its children. *)
Lemma bounds_decision table i node name high low h l r :
  table_ok table -> node_valid table i -> node_at table i = Some node ->
  extra_decision node = Some (name, high, low) ->
  bounds (node_negate high i) h table -> bounds (node_negate low i) l table ->
  (exists same, means allowed (fun sigma => lower_value same (eval table sigma (known_bounds known_extras name).1)
    (eval table sigma (known_bounds known_extras name).2) (eval table sigma h.1) (eval table sigma l.1)) r.1 table) ->
  means allowed (fun sigma => upper_value (eval table sigma (known_bounds known_extras name).1)
    (eval table sigma (known_bounds known_extras name).2) (eval table sigma h.2) (eval table sigma l.2)) r.2 table ->
  bounds i r table.
Proof.
  intros Hok Hi En Hd [H1 H2 H3 H4 H5 H6] [L1 L2 L3 L4 L5 L6] (same & Hvl & Hel) [Hvu Heu]. split; [done..| |];
    intros sigma extras Hs Hc; rewrite (extra_child _ _ _ _ _ _ _ _ Hok En Hd); destruct (Hc name) as [C1 C2];
    [rewrite (Hel _ Hs)|rewrite (Heu _ Hs)]; unfold lower_value, upper_value;
    specialize (H5 sigma extras Hs Hc); specialize (H6 sigma extras Hs Hc);
    specialize (L5 sigma extras Hs Hc); specialize (L6 sigma extras Hs Hc);
    destruct (extras name); repeat destruct (eval table sigma _); try done; try (by rewrite ?C2 in *);
    try (by specialize (C1 eq_refl)); try (by specialize (C2 eq_refl)); intros; auto.
  all: try (by apply orb_true_iff in H as [?|?]); try (by destruct same).
Qed.

Section Step.
Context (rec : NodeId -> M (gmap Z (Z * Z)) (NodeId * NodeId)) (i : NodeId) (node : Node).
Context (s : Interner * gmap Z (Z * Z)).
Hypothesis Hs : state_ok bounds_local s.
Hypothesis Hk : bounds_valid (nodes s.1).
Hypothesis Hi : node_valid (nodes s.1) i.
Hypothesis En : node_at (nodes s.1) i = Some node.
Hypothesis Hrec : forall c s', c ∈ edges_nodes (node_children node) -> state_ok bounds_local s' ->
  nodes s.1 `prefix_of` nodes s'.1 -> runs bounds_local (rec (node_negate c i)) s' (bounds (node_negate c i)).

(** An extra whose value does not depend on the choice. *)
Lemma bounds_fixed table name high low (b : bool) r :
  table_ok table -> nodes s.1 `prefix_of` table -> extra_decision node = Some (name, high, low) ->
  (forall sigma extras, chooses table sigma extras -> extras name = b) ->
  bounds (node_negate (if b then high else low) i) r table -> bounds i r table.
Proof.
  intros Ht Hp Hd Hb [H1 H2 H3 H4 H5 H6]. assert (En' : node_at table i = Some node) by extend.
  split; [done|extend|done..| |]; intros sigma extras Hsig Hc;
    rewrite (extra_child table _ _ i node name high low), (Hb _ _ Hc) by done; [by apply H5|by apply H6].
Qed.

Lemma bounds_extra_runs name high low :
  extra_decision node = Some (name, high, low) ->
  runs bounds_local
    (let '(lower, upper) := known_bounds known_extras name in
     if node_is_true lower then rec (node_negate high i)
     else if node_is_false upper then rec (node_negate low i)
     else
       let! high := rec (node_negate high i) in
       let! low := rec (node_negate low i) in
       combine_bounds (lower, upper) high low) s (bounds i).
Proof.
  intros Hd. assert (Hch : high ∈ edges_nodes (node_children node) /\ low ∈ edges_nodes (node_children node)).
  { unfold extra_decision in Hd. destruct (node_var node), (node_children node); try done.
    injection Hd as -> -> ->. cbn. set_solver. }
  destruct Hch as [Hh Hl]. destruct (known_bounds known_extras name) as [lower upper] eqn:Eb.
  destruct (node_is_true lower) eqn:Et.
  { eapply runs_weaken; [by apply Hrec|]. intros r table Ht Hp.
    apply (bounds_fixed table name high low true); [done..|].
    intros sigma extras Hc. apply (Hc name). rewrite Eb. apply node_is_true_spec in Et as ->. apply eval_true. }
  destruct (node_is_false upper) eqn:Ef.
  { eapply runs_weaken; [by apply Hrec|]. intros r table Ht Hp.
    apply (bounds_fixed table name high low false); [done..|].
    intros sigma extras Hc. destruct (Hc name) as [_ C2]. rewrite Eb in C2. apply node_is_false_spec in Ef as ->.
    cbn [snd] in C2. rewrite eval_false in C2. by destruct (extras name); [specialize (C2 eq_refl)|]. }
  eapply runs_bind; [by apply Hrec|]. intros [hl hu] s1 Hs1 Hp1 H1.
  eapply runs_bind; [by apply Hrec|]. intros [ll lu] s2 Hs2 Hp2 H2.
  assert (Hp : nodes s.1 `prefix_of` nodes s2.1) by by etransitivity.
  assert (H1' : bounds (node_negate high i) (hl, hu) (nodes s2.1)).
  { apply (bounds_stable _ _ (nodes s1.1)); [apply Hs1|apply Hs2|done..]. }
  destruct (bounds_valid_extend _ _ Hp Hk name) as [Kl Ku]. rewrite Eb in Kl, Ku. cbn in Kl, Ku.
  pose proof (bounds_lower_valid _ _ _ H1') as V1. pose proof (bounds_upper_valid _ _ _ H1') as V2.
  pose proof (bounds_lower_valid _ _ _ H2) as V3. pose proof (bounds_upper_valid _ _ _ H2) as V4. cbn in V1, V2, V3, V4.
  eapply runs_weaken; [apply (combine_bounds_runs bounds_local); [done|by repeat apply Forall_cons_2]|].
  intros r table Ht Hp' [M1 M2]. pose proof (ok_table _ (proj1 Hs2)) as Hok2.
  apply (bounds_decision table i node name high low (hl, hu) (ll, lu)); [done|extend|extend|done| | | |].
  - by apply (bounds_stable _ _ (nodes s2.1)).
  - by apply (bounds_stable _ _ (nodes s2.1)).
  - exists (lower =? upper). rewrite Eb. eapply means_ext; [|exact M1]. intros sigma _. cbn.
    by rewrite !(eval_extend (nodes s2.1) table).
  - rewrite Eb. eapply means_ext; [|exact M2]. intros sigma _. cbn. by rewrite !(eval_extend (nodes s2.1) table).
Qed.

(** One bound of each child. *)
Lemma map_bound_runs (side : NodeId * NodeId -> NodeId) s0 :
  state_ok bounds_local s0 -> nodes s.1 `prefix_of` nodes s0.1 ->
  runs bounds_local (map_bound rec side (node_children node) i) s0 (fun mapped table =>
    edges_image (fun c d => exists r, side r = d /\ bounds (node_negate c i) r table) (node_var node)
      (node_children node) mapped.1 /\
    (mapped.2 = false -> forall sigma c, edges_select sigma (node_var node) (node_children node) = [c] ->
       edges_select sigma (node_var node) mapped.1 = [node_negate c i])).
Proof.
  intros Hs0 Hp0. apply (map_changed_runs bounds_local (fun c d table => exists r, side r = d /\ bounds c r table)).
  - intros c d table table' Hok Hok' Hp (r & Er & Hr). exists r. split; [done|]. by apply (bounds_stable _ _ table).
  - done.
  - extend.
  - intros c s' Hc Hs' Hp. eapply runs_bind; [apply Hrec; [done..|by etransitivity]|].
    intros r s1 Hs1 Hp1 Hr. apply runs_ret; [done|]. eauto.
Qed.

Lemma bounds_other_runs :
  extra_decision node = None ->
  runs bounds_local
    (let! lower := map_bound rec fst (node_children node) i in
     let! upper := map_bound rec snd (node_children node) i in
     let! lower := rebuild_if (node_var node) lower i in
     let! upper := rebuild_if (node_var node) upper i in
     ret (lower, upper)) s (bounds i).
Proof.
  intros Hd.
  assert (Hst : forall (side : NodeId * NodeId -> NodeId) c d,
    stable (fun table => exists r, side r = d /\ bounds c r table)).
  { intros side c d table table' Hok Hok' Hp (r & Er & Hr). exists r. split; [done|]. by apply (bounds_stable _ _ table). }
  eapply runs_bind; [by apply (map_bound_runs fst)|]. intros lo s1 Hs1 Hp1 [L1 L2].
  eapply runs_bind; [by apply (map_bound_runs snd)|]. intros up s2 Hs2 Hp2 [U1 U2]. cbn in L1, L2, U1, U2.
  assert (Hp02 : nodes s.1 `prefix_of` nodes s2.1) by by etransitivity.
  eapply runs_bind.
  { apply (rebuild_if_runs bounds_local (fun c d table => exists r, r.1 = d /\ bounds c r table) lo i node s2);
      [intros; apply Hst| |done|extend|extend| |done].
    - intros c d table (r & <- & Hr). apply Hr.
    - apply (edges_image_stable (fun c d table => exists r, r.1 = d /\ bounds (node_negate c i) r table)) with (table := nodes s1.1);
        [intros; apply Hst|apply Hs1|apply Hs2|done|done]. }
  intros lower s3 Hs3 Hp3 [Vl El]. assert (Hp03 : nodes s.1 `prefix_of` nodes s3.1) by by etransitivity.
  eapply runs_bind.
  { apply (rebuild_if_runs bounds_local (fun c d table => exists r, r.2 = d /\ bounds c r table) up i node s3);
      [intros; apply Hst| |done|extend|extend| |done].
    - intros c d table (r & <- & Hr). apply Hr.
    - apply (edges_image_stable (fun c d table => exists r, r.2 = d /\ bounds (node_negate c i) r table)) with (table := nodes s2.1);
        [intros; apply Hst|apply Hs2|apply Hs3|done|done]. }
  intros upper s4 Hs4 Hp4 [Vu Eu]. assert (Hp04 : nodes s.1 `prefix_of` nodes s4.1) by by etransitivity.
  assert (Hok3 : table_ok (nodes s3.1)) by apply Hs3. assert (Hok4 : table_ok (nodes s4.1)) by apply Hs4.
  assert (En' : node_at (nodes s4.1) i = Some node) by extend.
  assert (Hsel : forall sigma extras c, edges_select sigma (node_var node) (node_children node) = [c] ->
    eval (nodes s4.1) (with_extras extras sigma) i = eval (nodes s4.1) (with_extras extras sigma) (node_negate c i)).
  { intros sigma extras c Ec. destruct (eval_node _ (with_extras extras sigma) i node Hok4 En') as (c' & Ec' & _ & ->).
    rewrite (other_decision (nodes s4.1)), Ec in Ec'; [by injection Ec' as <-| |done]. by apply (node_at_ok _ i). }
  apply runs_ret; [done|]. split; cbn [fst snd]; [by apply (bounds_valid_extend (nodes s.1))|extend|extend|done| |];
    intros sigma extras Hsig Hc.
  - rewrite (eval_extend (nodes s3.1)) by done. destruct (El _ Hsig) as (c & d & Ec & (r & <- & Hr) & ->).
    rewrite (Hsel _ _ _ Ec). pose proof (bounds_stable _ _ _ _ Hok3 Hok4 Hp4 Hr) as Hr'.
    rewrite <- (eval_extend (nodes s3.1) (nodes s4.1)); [by apply (bounds_lower _ _ _ Hr')|done..|apply Hr].
  - destruct (Eu _ Hsig) as (c & d & Ec & (r & <- & Hr) & ->).
    rewrite (Hsel _ _ _ Ec). by apply (bounds_upper _ _ _ Hr).
Qed.
End Step.

Lemma resolve_extras_with_bounds_cached_runs fuel i s :
  state_ok bounds_local s -> bounds_valid (nodes s.1) -> node_valid (nodes s.1) i -> (node_rank i <= fuel)%nat ->
  runs bounds_local (resolve_extras_with_bounds_cached fuel known_extras i) s (bounds i).
Proof.
  revert i s. induction fuel as [|fuel IH]; intros i s Hs Hk Hi Hf; cbn [resolve_extras_with_bounds_cached];
    (destruct (node_is_true i || node_is_false i) eqn:Et;
     [apply runs_ret; [done|]; split; [done..| |]; intros sigma extras _ _;
      by apply orb_true_iff in Et as [->%node_is_true_spec| ->%node_is_false_spec]|]);
    apply orb_false_iff in Et as [Et Ef]; destruct (node_valid_at _ _ Hi Et Ef) as (node & En & Er & _); [lia|].
  apply runs_get_local. destruct (s.2 !! i) as [r|] eqn:Ec; [apply runs_ret; [done|]; by apply (proj2 Hs)|].
  assert (Hrec : forall c s', c ∈ edges_nodes (node_children node) -> state_ok bounds_local s' ->
    nodes s.1 `prefix_of` nodes s'.1 ->
    runs bounds_local (resolve_extras_with_bounds_cached fuel known_extras (node_negate c i)) s' (bounds (node_negate c i))).
  { intros c s' Hc Hs' Hp. destruct (child_operand _ _ s' i node c Hs Hs' Hp En Hc) as [Hv Hr].
    apply IH; [done|by apply (bounds_valid_extend (nodes s.1))|done|lia]. }
  apply (runs_get_node _ _ node); [done|]. eapply runs_bind.
  - destruct (extra_decision node) as [[[name high] low]|] eqn:Ed.
    + pose proof (bounds_extra_runs _ i node s Hs Hk Hi En Hrec name high low Ed) as H.
      unfold extra_decision in Ed. destruct (node_var node), (node_children node); try done.
      injection Ed as -> -> ->. exact H.
    + pose proof (bounds_other_runs _ i node s Hs Hk Hi En Hrec Ed) as H.
      unfold extra_decision in Ed. by destruct (node_var node), (node_children node).
  - intros r s' Hs' Hp Hr. apply runs_get_local, runs_set_local, runs_ret; [|done].
    split; [apply Hs'|]. by apply caches_insert; [apply Hs'|].
Qed.

Lemma resolve_extras_with_bounds_runs {C : Type} (L : C -> list Node -> Prop) {HL : LocalInvariant L} i s :
  state_ok L s -> bounds_valid (nodes s.1) -> node_valid (nodes s.1) i ->
  runs L (resolve_extras_with_bounds i known_extras) s (bounds i).
Proof.
  intros Hs Hk Hi. unfold resolve_extras_with_bounds. apply (with_cache_runs L bounds_local); [done|].
  apply resolve_extras_with_bounds_cached_runs; [|done..]. split; [apply Hs|apply caches_empty].
Qed.
End Bounds.

(** ** Python versions *)

Lemma complexify_python_versions_runs {C : Type} (L : C -> list Node -> Prop) {HL : LocalInvariant L} i lo up s :
  state_ok L s -> node_valid (nodes s.1) i ->
  Forall comparable (bound_values lo) -> Forall comparable (bound_values up) ->
  runs L (complexify_python_versions i lo up) s
    (means allowed (fun sigma => eval (nodes s.1) sigma i &&
       point_in version_cmp_slow (version_point sigma (VarVersion PythonFullVersion)) (lo, up))).
Proof.
  intros Hs Hi Hlo Hup. pose proof (ok_table _ (proj1 Hs)) as Hok. unfold complexify_python_versions.
  destruct (node_is_false i) eqn:Ef; [|destruct (is_unbounded lo && is_unbounded up) eqn:Eu]; cbn [orb].
  - apply runs_ret; [done|]. apply node_is_false_spec in Ef as ->. split; [done|]. intros sigma _. by rewrite eval_false.
  - apply runs_ret; [done|]. split; [done|]. intros sigma _. destruct lo, up; try done. cbn. by rewrite andb_true_r.
  - eapply runs_bind; [by apply (version_node_runs L allowed), bounds_values_from|]. intros v s1 Hs1 Hp1 H1.
    eapply runs_weaken.
    { eapply (and_means L allowed _ _ _ _ _ (fun _ H => H) Hs1); [|exact H1].
      apply (valid_means (nodes s.1)); [done|apply Hs1|done..]. }
    intros r table _ _. apply means_ext. intros sigma _. cbn. by rewrite (from_bounds_at version_cmp_slow).
Qed.
End Substitution.
