(* ===== verification/TreeFacts.v ===== *)
(** * Markers: the search for extras, verified

    [contains_extras] visits each node of a marker once, always returns, and tells whether a
    decision of the marker is on an extra. *)

From stdpp Require Import base countable list option numbers decidable strings gmap.
From Stdlib Require Import ZArith Lia.
From S2P Require Import Prelude Ranges VersionTypes VersionSmall Version VersionOrder MarkerTypes Interner.
From S2P Require Import MarkerRestrict MarkerEval RestrictFacts Text VersionParser VersionParserFacts.
From S2P Require Import VersionSpecifier MarkerAlgebra MarkerTree InternerFacts EdgesFacts.
From S2P Require Import AlgebraFacts ExclusionFacts AssumptionFacts SubstitutionFacts.

Local Open Scope Z_scope.

Section Search.
Context {RV : RangeOps Version} {RS : RangeOps (list Z)}.
Context (table : list Node).
Hypothesis Hok : table_ok table.

Definition terminal (i : NodeId) : bool := node_is_true i || node_is_false i.

Definition index_of (i : NodeId) : Z := Z.of_nat (node_index i).

(** A node that was expanded: its children are terminals or were seen. *)
Definition expanded (visited : gset Z) (i : NodeId) : Prop :=
  exists node, node_at table i = Some node /\ is_extra (node_var node) = false /\
    forall c, c ∈ edges_nodes (node_children node) -> terminal c = true \/ index_of c ∈ visited.

(** The state of the search from [root]: every node that was seen is expanded or to be visited. *)
Record search_ok (root : NodeId) (pending : list NodeId) (visited : gset Z) : Prop := {
  search_valid : forall i, i ∈ pending -> node_valid table i;
  search_bound : forall x, x ∈ visited -> 0 <= x < Z.of_nat (length table);
  search_root : terminal root = true \/ root ∈ pending \/ expanded visited root;
  search_seen : forall i, node_valid table i -> terminal i = false -> index_of i ∈ visited ->
    (exists p, p ∈ pending /\ terminal p = false /\ node_index p = node_index i) \/ expanded visited i;
  search_vars : all_vars table not_extra root -> forall i, i ∈ pending -> all_vars table not_extra i
}.

Lemma node_at_index i j :
  terminal i = false -> terminal j = false -> node_index i = node_index j -> node_at table i = node_at table j.
Proof. unfold terminal, node_at. by intros -> -> ->. Qed.

Lemma expanded_weaken (v w : gset Z) i : v ⊆ w -> expanded v i -> expanded w i.
Proof. intros Hvw (node & En & Hx & Hc). exists node. split_and!; [done..|]. intros c [Ht|Hv]%Hc; set_solver. Qed.

(** The children that are pushed. *)
Lemma push_unvisited_spec children pending visited pending' visited' :
  push_unvisited children pending visited = (pending', visited') ->
  exists pushed, pending' = pushed ++ pending /\
    (forall c, c ∈ pushed -> c ∈ children /\ terminal c = false) /\
    (forall x, x ∈ visited' <-> x ∈ visited \/ exists c, c ∈ pushed /\ x = index_of c) /\
    (size visited' = size visited + length pushed)%nat /\
    forall c, c ∈ children -> terminal c = true \/ index_of c ∈ visited'.
Proof.
  revert pending visited. induction children as [|c children IH]; intros pending visited; cbn [push_unvisited].
  - intros [= <- <-]. exists []. split_and!; [done|set_solver|set_solver|cbn; lia|set_solver].
  - unfold terminal, index_of in *. destruct (node_is_true c) eqn:Et, (node_is_false c) eqn:Ef; cbn [negb andb];
      try (intros E; destruct (IH _ _ E) as (pushed & -> & H1 & H2 & H3 & H4); exists pushed;
           split_and!; [done|set_solver|done|done|];
           intros d [->|Hd]%elem_of_cons; [left; by rewrite Et, ?Ef|by apply H4]).
    case_bool_decide as Hin; cbn [negb].
    + intros E. destruct (IH _ _ E) as (pushed & -> & H1 & H2 & H3 & H4). exists pushed.
      split_and!; [done|set_solver|done|done|]. intros d [->|Hd]%elem_of_cons; [right; apply H2; by left|by apply H4].
    + intros E. destruct (IH _ _ E) as (pushed & -> & H1 & H2 & H3 & H4). exists (pushed ++ [c]).
      split_and!.
      * by rewrite <- app_assoc.
      * intros d [Hd|Hd]%elem_of_app; [set_solver|]. apply list_elem_of_singleton in Hd as ->. rewrite Et, Ef. set_solver.
      * intros x. rewrite H2. set_solver.
      * rewrite H3, size_union, size_singleton, length_app by set_solver. cbn. lia.
      * intros d [->|Hd]%elem_of_cons; [|by apply H4]. right. apply H2. set_solver.
Qed.

(** One node is expanded. *)
Lemma search_step root marker node pending visited pending' visited' :
  search_ok root (marker :: pending) visited -> node_at table marker = Some node -> is_extra (node_var node) = false ->
  push_unvisited (edges_nodes (node_children node)) pending visited = (pending', visited') ->
  search_ok root pending' visited'.
Proof.
  intros [H1 H2 H3 H4 H5] En Hx Hp. destruct (push_unvisited_spec _ _ _ _ _ Hp) as (pushed & -> & P1 & P2 & _ & P4).
  pose proof (node_at_ok _ _ _ Hok En) as [_ _ K3 _]. pose proof (node_at_lookup _ _ _ En) as (Et & Ef & _).
  assert (Htm : terminal marker = false) by (unfold terminal; by rewrite Et, Ef).
  assert (Hm : expanded visited' marker) by (exists node; auto).
  assert (Hsub : visited ⊆ visited') by (intros x Hx'; apply P2; by left).
  split.
  - intros i [[Hi%K3 _]%P1|Hi]%elem_of_app; [done|]. apply H1, elem_of_cons. by right.
  - intros x [Hx'|(c & [Hc Htc]%P1 & ->)]%P2; [by apply H2|]. destruct (K3 _ Hc) as [_ Hr].
    unfold index_of. unfold node_rank in Hr. unfold terminal in Htc. rewrite Htc in Hr. lia.
  - destruct H3 as [H3|[[->|H3]%elem_of_cons|H3]]; [by left|by right; right|right; left; apply elem_of_app; by right|].
    right; right. by apply (expanded_weaken visited).
  - intros i Hi Hti Hin. apply P2 in Hin as [Hin|(c & Hc & Ec)].
    + destruct (H4 i Hi Hti Hin) as [(p & [->|Hpp]%elem_of_cons & Htp & Ep)|He].
      * right. destruct Hm as (n & En' & Hn). exists n. split; [|done]. rewrite <- En'. by apply node_at_index.
      * left. exists p. split; [apply elem_of_app; by right|done].
      * right. by apply (expanded_weaken visited).
    + left. exists c. split_and!; [apply elem_of_app; by left|by apply P1|]. unfold index_of in Ec. lia.
  - intros Hall i [[Hi _]%P1|Hi]%elem_of_app; [|apply (H5 Hall), elem_of_cons; by right].
    apply (all_vars_child _ _ marker node); [done|apply (H5 Hall), elem_of_cons; by left|done].
Qed.

(** When nothing is left, the nodes that were seen have no extras. *)
Lemma search_end root visited : node_valid table root -> search_ok root [] visited -> all_vars table not_extra root.
Proof.
  intros Hr [_ _ H3 H4 _].
  assert (Hseen : forall i, node_valid table i -> terminal i = true \/ expanded visited i -> all_vars table not_extra i).
  { apply (valid_ind table (fun i => terminal i = true \/ expanded visited i -> all_vars table not_extra i) Hok).
    - intros _. by apply all_vars_true; left.
    - intros _. by apply all_vars_true; right.
    - intros i node Hi En Hch Hor. apply (all_vars_node _ _ _ node En).
      + destruct Hor as [Ht|(n & En' & Hx & _)].
        * pose proof (node_at_lookup _ _ _ En) as (Et & Ef & _). unfold terminal in Ht. by rewrite Et, Ef in Ht.
        * rewrite En in En'. by injection En' as <-.
      + intros c Hc. destruct (Hch c Hc) as [Hv IH]. apply IH. destruct (terminal c) eqn:Ht; [by left|]. right.
        destruct Hor as [Hti|(n & En' & _ & Hn)].
        * pose proof (node_at_lookup _ _ _ En) as (Et & Ef & _). unfold terminal in Hti. by rewrite Et, Ef in Hti.
        * rewrite En in En'. injection En' as <-. destruct (Hn c Hc) as [Hc'|Hc']; [by rewrite Ht in Hc'|].
          destruct (H4 c Hv Ht Hc') as [(p & []%elem_of_nil & _)|He]; done. }
  apply Hseen; [done|]. destruct H3 as [H3|[[]%elem_of_nil|H3]]; tauto.
Qed.

(** The numbers below the length of the table. *)
Lemma visited_size root pending visited : search_ok root pending visited -> (size visited <= length table)%nat.
Proof.
  intros [_ H _ _ _]. transitivity (size (list_to_set (seqZ 0 (Z.of_nat (length table))) : gset Z)).
  - apply subseteq_size. intros x Hx%H. apply elem_of_list_to_set, elem_of_seqZ. lia.
  - rewrite size_list_to_set by apply NoDup_seqZ. rewrite length_seqZ. lia.
Qed.

Lemma contains_extras_fuel_spec fuel root pending visited :
  node_valid table root -> search_ok root pending visited ->
  (length pending + (length table - size visited) < fuel)%nat ->
  exists b, contains_extras_fuel fuel table pending visited = Some b /\
    (b = false <-> all_vars table not_extra root).
Proof.
  intros Hroot. revert pending visited. induction fuel as [|fuel IH]; intros pending visited Hs Hf; [lia|].
  cbn [contains_extras_fuel]. destruct pending as [|marker pending].
  - exists false. split; [done|]. split; [|done]. intros _. by apply (search_end root visited).
  - fold (terminal marker). destruct (terminal marker) eqn:Ht.
    + apply IH; [|cbn in Hf; lia]. destruct Hs as [H1 H2 H3 H4 H5]. split; [set_solver|done| | |set_solver].
      * destruct H3 as [H3|[[->|H3]%elem_of_cons|H3]]; tauto.
      * intros i Hi Hti Hin. destruct (H4 i Hi Hti Hin) as [(p & [->|Hp]%elem_of_cons & Htp & Ep)|He]; [congruence| |by right].
        left. by exists p.
    + pose proof Ht as [Et Ef]%orb_false_iff.
      destruct (node_valid_at table marker) as (node & En & _ & _); [apply Hs; set_solver|done..|].
      rewrite En. cbn [mbind option_bind]. destruct (is_extra (node_var node)) eqn:Ex.
      * exists true. split; [done|]. split; [done|]. intros Hall. exfalso.
        pose proof (search_vars _ _ _ Hs Hall marker ltac:(set_solver)) as Hm.
        apply (all_vars_top _ _ _ _ En) in Hm. unfold not_extra in Hm. congruence.
      * destruct (push_unvisited _ pending visited) as [pending' visited'] eqn:Ep.
        pose proof (search_step _ _ _ _ _ _ _ Hs En Ex Ep) as Hs'.
        apply IH; [done|]. pose proof (visited_size _ _ _ Hs'). pose proof (visited_size _ _ _ Hs).
        destruct (push_unvisited_spec _ _ _ _ _ Ep) as (pushed & -> & _ & _ & Hsize & _).
        rewrite length_app. cbn in Hf. lia.
Qed.

Lemma contains_extras_spec marker :
  node_valid table marker ->
  exists b, contains_extras table marker = Some b /\ (b = false <-> all_vars table not_extra marker).
Proof.
  intros Hm. apply (contains_extras_fuel_spec _ marker); [done| |].
  - split.
    + intros i ->%list_elem_of_singleton. done.
    + intros x []%elem_of_empty.
    + right; left. by apply list_elem_of_singleton.
    + intros i _ _ []%elem_of_empty.
    + by intros Hall i ->%list_elem_of_singleton.
  - rewrite size_empty. cbn. lia.
Qed.
End Search.

(** * Markers: evaluation of trees, verified

    [MarkerTree::evaluate] returns the value of the marker at the environment; the evaluations
    that know the extras only bound it; [contains_extras] finds the extras of a marker. *)

Local Open Scope uv_scope.

Section Trees.
Context {RV : RangeOps Version} {RS : RangeOps (list Z)}.
Context {LV : RangeLaws version_cmp_slow} {LS : RangeLaws string_cmp}.

(** ** Evaluation in an environment *)

(** The values of the variables. *)
Definition environment_at (env : MarkerEnvironment) (extras : ExtrasEnvironment) : Valuation :=
  mkValuation
    (fun var =>
       match var with
       | VarVersion key => get_version env key
       | VarVersionString key =>
           match version_from_str (get_string env key) with
           | Done version => version
           | _ => get_version env PythonFullVersion
           end
       | _ => get_version env PythonFullVersion
       end)
    (fun var => match var with VarString key => get_string env key | _ => [] end)
    (fun var =>
       match var with
       | VarIn key value => str_contains value (get_string env key)
       | VarContains key value => str_contains (get_string env key) value
       | VarExtra name => contains_name (env_extra extras) name
       | VarList (PairExtras extra) => contains_name (env_extras extras) extra
       | VarList (PairDependencyGroup group) => contains_name (env_dependency_groups extras) group
       | _ => false
       end)
    (fun _ => 0).

(** The variables that have a value in the environment. *)
Definition evaluable (env : MarkerEnvironment) (var : MarkerVariable) : bool :=
  match var with
  | VarVersionString key => match version_from_str (get_string env key) with Done _ => true | _ => false end
  | VarList (PairArbitrary _ _) => false
  | _ => true
  end.

Definition has_value (env : MarkerEnvironment) (var : MarkerVariable) : Prop := evaluable env var = true.

(** The variables of a table that satisfies a test. *)
Lemma all_vars_forallb (P : MarkerVariable -> bool) table i :
  table_ok table -> node_valid table i -> forallb (fun node => P (node_var node)) table = true ->
  all_vars table (fun var => P var = true) i.
Proof.
  intros Hok Hi Hall. eapply all_vars_weaken; [|by apply all_vars_table]. cbn. intros var Hin.
  apply list_elem_of_fmap in Hin as (node & -> & Hn). rewrite forallb_forall in Hall.
  by apply Hall, list_elem_of_In.
Qed.

Lemma first_edge_select {T : Type} (law : T -> T -> comparison) `{!RangeOps T, !RangeLaws law} (v : T)
    (map : list (range T * NodeId)) id c :
  matching law (v, 0) map = [c] -> first_edge v (map_edges id map) = Some (node_negate c id).
Proof.
  unfold first_edge, map_edges. induction map as [|[r d] map IH]; [done|]. rewrite (matching_cons law), (range_at_value law). cbn.
  destruct (range_contains r v); [by intros [= -> _]|]. apply IH.
Qed.

Lemma evaluate_step fuel table env extras i node :
  table_ok table -> node_at table i = Some node -> has_value env (node_var node) ->
  exists c, edges_select (environment_at env extras) (node_var node) (node_children node) = [c] /\
    evaluate_reporter_impl (S fuel) table env extras i =
    evaluate_reporter_impl fuel table env extras (node_negate c i).
Proof.
  intros Hok En Hev. pose proof (node_at_ok _ _ _ Hok En) as [K1 K2 _ _].
  destruct (total_select (environment_at env extras) _ _ K2) as (c & Ec & _). exists c. split; [done|].
  cbn [evaluate_reporter_impl]. unfold kind. pose proof (node_at_lookup _ _ _ En) as (-> & -> & _). rewrite En.
  destruct node as [[k|k|k|k v|k v|e|[e|g|k v]] [m|m|h l]]; try done; unfold has_value in Hev; cbn in Ec, Hev |- *; unfold string_point, version_point in Ec; cbn in Ec;
    try (by rewrite (first_edge_select string_cmp _ _ _ _ Ec));
    try (by rewrite (first_edge_select version_cmp_slow _ _ _ _ Ec));
    try (injection Ec as <-; by match goal with |- context [if ?b then _ else _] => destruct b end).
  - destruct (version_from_str (get_string env k)); try done. by rewrite (first_edge_select version_cmp_slow _ _ _ _ Ec).
Qed.

Lemma evaluate_fuel_spec fuel table env extras i :
  table_ok table -> node_valid table i -> all_vars table (has_value env) i -> (node_rank i < fuel)%nat ->
  evaluate_reporter_impl fuel table env extras i = Some (eval table (environment_at env extras) i).
Proof.
  intros Hok. revert i. induction fuel as [|fuel IH]; intros i Hi Hall Hf; [lia|].
  destruct (node_is_true i) eqn:Et; [by apply node_is_true_spec in Et as ->|].
  destruct (node_is_false i) eqn:Ef; [by apply node_is_false_spec in Ef as ->|].
  destruct (node_valid_at _ _ Hi Et Ef) as (node & En & _ & _).
  destruct (evaluate_step fuel table env extras i node Hok En) as (c & Ec & ->); [by apply (all_vars_top _ _ _ _ En)|].
  destruct (eval_node table (environment_at env extras) i node Hok En) as (c' & Ec' & Hc & ->).
  rewrite Ec in Ec'. injection Ec' as <-. pose proof (node_at_ok _ _ _ Hok En) as [_ _ K3 _].
  pose proof (child_rank _ _ _ _ Hok En Hc). apply IH; [by apply negate_valid, K3| |lia].
  apply all_vars_negate; [by apply K3|]. by apply (all_vars_child _ _ _ _ _ En Hall).
Qed.

Lemma evaluate_in_spec table env extras i :
  table_ok table -> node_valid table i -> all_vars table (has_value env) i ->
  evaluate_in table env extras i = Some (eval table (environment_at env extras) i).
Proof. intros. apply evaluate_fuel_spec; [done..|lia]. Qed.

(** ** Evaluation of the extras *)

(** The valuations with the given extras. *)
Definition has_extras (extras : list (list Z)) (sigma : Valuation) : Prop :=
  forall name, bool_at sigma (VarExtra name) = contains_name extras name.

(** A test that succeeds at least where [P] holds. *)
Definition covers (m : option bool) (P : Prop) : Prop := exists b, m = Some b /\ (P -> b = true).

Lemma covers_weaken m (P Q : Prop) : (Q -> P) -> covers m P -> covers m Q.
Proof. intros H (b & E & Hb). exists b. tauto. Qed.

Lemma any_option_covers {A : Type} (f : A -> option bool) l (P : A -> Prop) :
  (forall a, a ∈ l -> covers (f a) (P a)) -> covers (any_option f l) (exists a, a ∈ l /\ P a).
Proof.
  induction l as [|a l IH]; intros H; cbn.
  - exists false. split; [done|]. by intros (a & ?%elem_of_nil & _).
  - destruct (H a) as (b & -> & Hb); [set_solver|]. cbn. destruct b; [by exists true|].
    destruct IH as (c & Ec & Hc); [set_solver|]. exists c. split; [done|].
    intros (a' & [->|Ha]%elem_of_cons & HP); [by specialize (Hb HP)|]. apply Hc. eauto.
Qed.

(** A kind: a decision on an extra, or another decision, with the children of the node. *)
Lemma kind_node table i node :
  table_ok table -> node_at table i = Some node ->
  exists k, kind table i = Some k /\
    match extra_decision node with
    | Some (name, high, low) => k = KindExtra name (node_negate high i) (node_negate low i)
    | None => (forall c, c ∈ edges_nodes (node_children node) -> node_negate c i ∈ kind_trees k) /\
        (forall c, c ∈ kind_trees k -> exists d, d ∈ edges_nodes (node_children node) /\ c = node_negate d i) /\
        match k with KindTrue | KindFalse | KindExtra _ _ _ => False | _ => True end
    end.
Proof.
  intros Hok En. pose proof (node_at_ok _ _ _ Hok En) as [K1 _ _ _]. unfold kind.
  pose proof (node_at_lookup _ _ _ En) as (-> & -> & _). rewrite En. cbn [mbind option_bind].
  assert (Hmap : forall (T : Type) (R : RangeOps T) (m : list (range T * NodeId)),
    (map_edges i m).*2 = (fun c => node_negate c i) <$> m.*2).
  { intros T R m. unfold map_edges. rewrite <- !list_fmap_compose. by apply list_fmap_ext. }
  destruct node as [[k|k|k|k v|k v|e|p] [m|m|h l]]; try done; eexists; (split; [reflexivity|]); cbn; try done;
    rewrite ?Hmap; split_and!; try done.
  all: try (intros c Hc; apply list_elem_of_fmap; by exists c).
  all: try (intros c Hc; apply list_elem_of_fmap in Hc as (d & -> & Hd); by exists d).
  all: try (intros c; rewrite !elem_of_cons, elem_of_nil; intros [->|[->|[]]]; tauto).
  all: intros c; rewrite !elem_of_cons, elem_of_nil; intros [->|[->|[]]]; [exists h|exists l]; set_solver.
Qed.

(** The edge of an extra that the valuations have. *)
Lemma extra_edge table extras sigma i node name high low :
  table_ok table -> node_at table i = Some node -> extra_decision node = Some (name, high, low) ->
  has_extras extras sigma ->
  eval table sigma i =
    eval table sigma (edge (node_negate high i) (node_negate low i) (contains_name extras name)).
Proof.
  intros Hok En Hd Hx. destruct (eval_node table sigma i node Hok En) as (c & Ec & _ & ->).
  unfold extra_decision in Hd. destruct (node_var node) as [| | | | |n|], (node_children node) as [| |h l]; try done.
  injection Hd as -> -> ->. cbn in Ec. rewrite Hx in Ec. injection Ec as <-. by destruct (contains_name extras name).
Qed.

Lemma extra_decision_children node name high low :
  extra_decision node = Some (name, high, low) ->
  high ∈ edges_nodes (node_children node) /\ low ∈ edges_nodes (node_children node).
Proof.
  unfold extra_decision. destruct (node_var node), (node_children node); try done.
  intros [= -> -> ->]. cbn. set_solver.
Qed.

Lemma evaluate_extras_covers fuel table extras i :
  table_ok table -> node_valid table i -> (node_rank i < fuel)%nat ->
  covers (evaluate_extras_fuel fuel table extras i)
    (exists sigma, has_extras extras sigma /\ eval table sigma i = true).
Proof.
  intros Hok. revert i. induction fuel as [|fuel IH]; intros i Hi Hf; [lia|].
  destruct (node_is_true i) eqn:Et; [apply node_is_true_spec in Et as ->; by exists true|].
  destruct (node_is_false i) eqn:Ef.
  { apply node_is_false_spec in Ef as ->. exists false. split; [done|]. by intros (sigma & _ & ?%eq_sym). }
  destruct (node_valid_at _ _ Hi Et Ef) as (node & En & _ & _). destruct (kind_node table i node Hok En) as (k & Ek & Hk).
  pose proof (node_at_ok _ _ _ Hok En) as [_ _ K3 _].
  assert (Hrec : forall c, c ∈ edges_nodes (node_children node) -> covers (evaluate_extras_fuel fuel table extras (node_negate c i))
    (exists sigma, has_extras extras sigma /\ eval table sigma (node_negate c i) = true)).
  { intros c Hc. pose proof (child_rank _ _ _ _ Hok En Hc). apply IH; [by apply negate_valid, K3|lia]. }
  cbn [evaluate_extras_fuel]. rewrite Ek. cbn [mbind option_bind].
  destruct (extra_decision node) as [[[name high] low]|] eqn:Ed.
  - subst k. destruct (extra_decision_children _ _ _ _ Ed) as [Hh Hl].
    apply (covers_weaken _ (exists sigma, has_extras extras sigma /\
      eval table sigma (edge (node_negate high i) (node_negate low i) (contains_name extras name)) = true)).
    { intros (sigma & Hx & He). exists sigma. split; [done|]. by rewrite <- (extra_edge _ _ _ _ _ _ _ _ Hok En Ed Hx). }
    unfold edge. destruct (contains_name extras name); by apply Hrec.
  - destruct Hk as (H1 & H2 & H3).
    assert (Hany : covers (any_option (evaluate_extras_fuel fuel table extras) (kind_trees k))
      (exists sigma, has_extras extras sigma /\ eval table sigma i = true)); [|by destruct k].
    eapply covers_weaken; [|apply (any_option_covers _ _ (fun c => exists sigma, has_extras extras sigma /\ eval table sigma c = true))].
    + intros (sigma & Hx & He). destruct (eval_node table sigma i node Hok En) as (c & _ & Hc & E).
      rewrite E in He. exists (node_negate c i). split; [by apply H1|]. by exists sigma.
    + intros c (d & Hd & ->)%H2. by apply Hrec.
Qed.

Lemma evaluate_only_extras_tests fuel table extras i :
  table_ok table -> node_valid table i -> (node_rank i < fuel)%nat ->
  tests (evaluate_only_extras_fuel fuel table extras i)
    (forall sigma, has_extras extras sigma -> eval table sigma i = true).
Proof.
  intros Hok. revert i. induction fuel as [|fuel IH]; intros i Hi Hf; [lia|].
  destruct (node_is_true i) eqn:Et; [apply node_is_true_spec in Et as ->; by exists true|].
  destruct (node_is_false i) eqn:Ef; [apply node_is_false_spec in Ef as ->; by exists false|].
  destruct (node_valid_at _ _ Hi Et Ef) as (node & En & _ & _). destruct (kind_node table i node Hok En) as (k & Ek & Hk).
  pose proof (node_at_ok _ _ _ Hok En) as [_ _ K3 _].
  assert (Hrec : forall c, c ∈ edges_nodes (node_children node) -> tests (evaluate_only_extras_fuel fuel table extras (node_negate c i))
    (forall sigma, has_extras extras sigma -> eval table sigma (node_negate c i) = true)).
  { intros c Hc. pose proof (child_rank _ _ _ _ Hok En Hc). apply IH; [by apply negate_valid, K3|lia]. }
  cbn [evaluate_only_extras_fuel]. rewrite Ek. cbn [mbind option_bind].
  destruct (extra_decision node) as [[[name high] low]|] eqn:Ed.
  - subst k. destruct (extra_decision_children _ _ _ _ Ed) as [Hh Hl].
    assert (He : tests (evaluate_only_extras_fuel fuel table extras
        (edge (node_negate high i) (node_negate low i) (contains_name extras name)))
      (forall sigma, has_extras extras sigma ->
        eval table sigma (edge (node_negate high i) (node_negate low i) (contains_name extras name)) = true)).
    { unfold edge. destruct (contains_name extras name); by apply Hrec. }
    destruct He as (b & E & Hb). exists b. split; [done|]. intros ->. intros sigma Hx.
    rewrite (extra_edge _ _ _ _ _ _ _ _ Hok En Ed Hx). by apply Hb.
  - destruct Hk as (H1 & H2 & H3).
    assert (Hall : tests (all_option (evaluate_only_extras_fuel fuel table extras) (kind_trees k))
      (forall sigma, has_extras extras sigma -> eval table sigma i = true)); [|by destruct k].
    destruct (all_option_tests (evaluate_only_extras_fuel fuel table extras) (kind_trees k)
      (fun c => forall sigma, has_extras extras sigma -> eval table sigma c = true)) as (b & E & Hb).
    + intros c (d & Hd & ->)%H2. by apply Hrec.
    + exists b. split; [done|]. intros -> sigma Hx.
      destruct (eval_node table sigma i node Hok En) as (c & _ & Hc & ->). apply (Hb eq_refl); [by apply H1|done].
Qed.
End Trees.

(** * Markers: the operations of trees, verified

    Each operation of [MarkerTree] returns, keeps the interner well-formed and its nodes where
    they are, and has the value that its name says, for the environments that the known exclusions
    allow. *)

Local Open Scope uv_scope.

Section Collected.
Context {RV : RangeOps Version} {RS : RangeOps (list Z)}.

(** The values of a collected map come from its list. *)
Lemma collect_map_elem {A : Type} (l : list (list Z * A)) name a :
  collect_map l !! name = Some a -> (name, a) ∈ l.
Proof.
  unfold collect_map. assert (H : forall m : gmap (list Z) A, foldl (fun m kv => <[kv.1 := kv.2]> m) m l !! name = Some a ->
    (name, a) ∈ l \/ m !! name = Some a).
  { induction l as [|[k v] l IH]; intros m; cbn; [tauto|]. intros [Hin|Hm]%IH; [left; set_solver|].
    destruct (decide (k = name)) as [->|Hne].
    - rewrite lookup_insert_eq in Hm. injection Hm as ->. left. set_solver.
    - rewrite lookup_insert_ne in Hm by done. by right. }
  intros [Hin|Hm]%H; [done|]. by rewrite lookup_empty in Hm.
Qed.

Lemma collected_valid (known_extras : list (list Z * Z)) table :
  Forall (fun kv => node_valid table kv.2) known_extras -> known_valid (collect_map known_extras) table.
Proof.
  intros Hk name. unfold known_extra. destruct (collect_map (A := Z) known_extras !! name) as [i|] eqn:E; [|apply false_valid].
  apply collect_map_elem in E. by apply (proj1 (Forall_forall _ _) Hk (name, i)).
Qed.

Lemma collected_bounds_valid (known_extras : list (list Z * (Z * Z))) table :
  Forall (fun kv => node_valid table kv.2.1 /\ node_valid table kv.2.2) known_extras ->
  bounds_valid (collect_map known_extras) table.
Proof.
  intros Hk name. unfold known_bounds. destruct (collect_map known_extras !! name) as [b|] eqn:E.
  - apply collect_map_elem in E. by apply (proj1 (Forall_forall _ _) Hk (name, b)).
  - split; apply false_valid.
Qed.

End Collected.

Section Operations.
Context {RV : RangeOps Version} {RS : RangeOps (list Z)}.
Context {LV : RangeLaws version_cmp_slow} {LS : RangeLaws string_cmp}.
Context {C : Type} (L : C -> list Node -> Prop) {HL : LocalInvariant L}.

(** ** Connectives *)

Lemma and_nontrivial_of xi yi s :
  state_ok L s -> node_valid (nodes s.1) xi -> node_valid (nodes s.1) yi -> and_trivial xi yi = None ->
  runs L (and_nontrivial xi yi) s (and_of allowed xi yi).
Proof.
  intros Hs Hx Hy Et. apply and_nontrivial_runs; [done..|]. intros a b s' Hs' Ha Hb _. by apply and_runs.
Qed.

Lemma tree_and_runs xi yi s :
  state_ok L s -> node_valid (nodes s.1) xi -> node_valid (nodes s.1) yi ->
  runs L (tree_and xi yi) s (and_of allowed xi yi).
Proof.
  intros Hs Hx Hy. unfold tree_and. destruct (and_trivial xi yi) as [r|] eqn:Et; [|by apply and_nontrivial_of].
  apply runs_ret; [done|]. apply and_trivial_some; [apply Hs|done..].
Qed.

Lemma tree_or_runs xi yi s :
  state_ok L s -> node_valid (nodes s.1) xi -> node_valid (nodes s.1) yi ->
  runs L (tree_or xi yi) s (fun r table => is_or allowed table xi yi r).
Proof.
  intros Hs Hx Hy. unfold tree_or, or_trivial. destruct (and_trivial (node_not xi) (node_not yi)) as [r|] eqn:Et; cbn.
  - apply runs_ret; [done|]. apply and_of_or; [apply Hs|done..|].
    apply and_trivial_some; [apply Hs|by apply not_valid..|done].
  - eapply runs_bind; [apply and_nontrivial_of; [done|by apply not_valid..|done]|].
    intros r s' Hs' Hp Hr. apply runs_ret; [done|]. apply and_of_or; [apply Hs'|extend..|done].
Qed.

(** [self] implies [consequent]. *)
Lemma tree_implies_runs xi yi s :
  state_ok L s -> node_valid (nodes s.1) xi -> node_valid (nodes s.1) yi ->
  runs L (tree_implies xi yi) s (fun r table => node_valid table r /\
    forall sigma, allowed sigma -> eval table sigma r = implb (eval table sigma xi) (eval table sigma yi)).
Proof.
  intros Hs Hx Hy. eapply runs_weaken; [apply tree_or_runs; [done|by apply not_valid|done]|].
  intros r table Hok Hp [H1 H2 _]. split; [done|]. intros sigma Hsig. rewrite (H2 _ Hsig). unfold tree_negate.
  rewrite eval_not by (done || extend). by destruct (eval table sigma xi).
Qed.

(** ** Queries *)

Lemma tree_is_disjoint_runs xi yi s :
  state_ok L s -> node_valid (nodes s.1) xi -> node_valid (nodes s.1) yi ->
  runs L (tree_is_disjoint xi yi) s (fun b table =>
    b = true -> forall sigma, allowed sigma -> eval table sigma xi && eval table sigma yi = false).
Proof.
  intros Hs Hx Hy. unfold tree_is_disjoint. destruct (is_disjoint_trivial xi yi) as [b|] eqn:Et.
  - apply runs_ret; [done|]. intros -> sigma _. apply fmap_Some in Et as (r & Et & Hr%eq_sym%node_is_false_spec).
    destruct (and_trivial_some (fun _ => True) _ _ _ _ (ok_table _ (proj1 Hs)) Hx Hy Et) as (_ & _ & [_ He _]).
    by rewrite <- (He sigma I), Hr.
  - by apply is_disjoint_nontrivial_runs.
Qed.

Lemma tree_is_unreachable_runs i s :
  state_ok L s -> node_valid (nodes s.1) i ->
  runs L (tree_is_unreachable i) s (fun b table =>
    b = true -> forall sigma, allowed sigma -> eval table sigma i = false).
Proof.
  intros Hs Hi. unfold tree_is_unreachable. destruct (node_is_true i || node_is_false i) eqn:E;
    [|by apply is_unreachable_runs].
  apply runs_ret; [done|]. intros ->%node_is_false_spec sigma _. apply eval_false.
Qed.

(** ** Extras *)

(** The valuation in which the extras of [is_extra] have the value [b]. *)
Definition assign_extras (is_extra : list Z -> bool) (b : bool) (sigma : Valuation) : Valuation :=
  with_extras (fun name => if is_extra name then b else bool_at sigma (VarExtra name)) sigma.

Lemma assign_extra_is table is_extra b sigma i :
  table_ok table -> node_valid table i ->
  eval table (assign (extra_is is_extra b) sigma) i = eval table (assign_extras is_extra b sigma) i.
Proof.
  intros Hok Hi. apply eval_agree; [done..|]. eapply all_vars_weaken; [|by apply all_vars_table].
  intros var _. split_and!; [done|done| |done]. cbn. destruct var; try done. cbn. by destruct (is_extra extra).
Qed.

Lemma simplify_extras_runs self is_extra (b : bool) s :
  state_ok L s -> node_valid (nodes s.1) self ->
  runs L (restrict_by self (extra_is is_extra b)) s (fun r table => replaces table self r /\
    forall sigma, eval table sigma r = eval table (assign_extras is_extra b sigma) self).
Proof.
  intros Hs Hi. eapply runs_weaken; [by apply (restrict_by_runs _ L)|]. intros r table Hok Hp [H1 H2].
  split; [done|]. intros sigma. rewrite H2. apply assign_extra_is; [done|]. by destruct H1.
Qed.

(** A marker without extras, for any extras. *)
Lemma eval_no_extras table sigma extras i :
  table_ok table -> node_valid table i -> all_vars table not_extra i ->
  eval table (with_extras extras sigma) i = eval table sigma i.
Proof.
  intros Hok Hi Hall. apply eval_agree; [done..|]. eapply all_vars_weaken; [|exact Hall].
  intros var Hv. split_and!; [done|done| |done]. cbn. by destruct var.
Qed.

Lemma tree_resolve_extras_runs self (known_extras : list (list Z * Z)) s :
  state_ok L s -> node_valid (nodes s.1) self -> Forall (fun kv => node_valid (nodes s.1) kv.2) known_extras ->
  runs L (tree_resolve_extras self known_extras) s (resolves (collect_map known_extras) self).
Proof.
  intros Hs Hi Hk. pose proof (ok_table _ (proj1 Hs)) as Hok.
  pose proof (collected_valid _ _ Hk) as Hv.
  unfold tree_resolve_extras. destruct (node_is_true self || node_is_false self) eqn:E.
  { apply runs_ret; [done|]. split; [done..|]. intros sigma _.
    by apply orb_true_iff in E as [->%node_is_true_spec| ->%node_is_false_spec]. }
  apply runs_get_interner. destruct (contains_extras_spec (nodes s.1) Hok self Hi) as (b & Eb & Hb).
  eapply runs_lift; [exact Eb|]. destruct b; cbn [negb]; [by apply (resolve_extras_runs _ L)|].
  apply runs_ret; [done|]. split; [done..|]. intros sigma _. symmetry. apply eval_no_extras; [done..|by apply Hb].
Qed.

Lemma tree_resolve_extras_with_bounds_runs self (known_extras : list (list Z * (Z * Z))) s :
  state_ok L s -> node_valid (nodes s.1) self ->
  Forall (fun kv => node_valid (nodes s.1) kv.2.1 /\ node_valid (nodes s.1) kv.2.2) known_extras ->
  runs L (tree_resolve_extras_with_bounds self known_extras) s (bounds (collect_map known_extras) self).
Proof.
  intros Hs Hi Hk. pose proof (ok_table _ (proj1 Hs)) as Hok.
  pose proof (collected_bounds_valid _ _ Hk) as Hv.
  unfold tree_resolve_extras_with_bounds. destruct (node_is_true self || node_is_false self) eqn:E.
  { apply runs_ret; [done|]. split; [done..| |]; intros sigma extras _ _;
    by apply orb_true_iff in E as [->%node_is_true_spec| ->%node_is_false_spec]. }
  apply runs_get_interner. destruct (contains_extras_spec (nodes s.1) Hok self Hi) as (b & Eb & Hb).
  eapply runs_lift; [exact Eb|]. destruct b; cbn [negb]; [by apply (resolve_extras_with_bounds_runs _ L)|].
  assert (Hall : all_vars (nodes s.1) not_extra self) by by apply Hb.
  apply runs_ret; [done|]. split; [done..| |]; intros sigma extras _ _; by rewrite eval_no_extras.
Qed.
End Operations.
