(* ===== verification/IsopFacts.v ===== *)
(** * Markers: cofactors, verified

    The guards and cofactors of [crates/uv-pep508/src/marker/algebra/isop.rs]: the first variable of
    two markers is divided into regions, on each of which the markers are their cofactors, and the
    guard of a region holds there and nowhere else. *)

From stdpp Require Import base countable list option numbers decidable strings gmap sorting.
From Stdlib Require Import ZArith Lia.
From S2P Require Import Prelude Ranges VersionTypes VersionSmall Version VersionOrder VersionCacheKey.
From S2P Require Import VersionParser VersionSpecifier MarkerTypes Interner EdgesOrder MarkerAlgebra.
From S2P Require Import Isop MarkerEval InternerFacts EdgesFacts Canonical AlgebraFacts ExclusionFacts.

Local Open Scope Z_scope.
Local Open Scope uv_scope.

(** ** Results of computations that may panic *)

Section Outcome.
Context {RV : RangeOps Version} {RS : RangeOps (list Z)}.
Context {C : Type} (L : C -> list Node -> Prop) (T : Prop).

(** What is returned keeps the invariant and satisfies [Q]; if [T] holds, something is returned. *)
Definition outcome {A : Type} (m : M C A) (s : Interner * C) (Q : A -> list Node -> Prop) : Prop :=
  match m s with
  | Some (a, s') => state_ok L s' /\ nodes s.1 `prefix_of` nodes s'.1 /\ Q a (nodes s'.1)
  | None => ~ T
  end.

Lemma runs_outcome {A : Type} (m : M C A) s Q : runs L m s Q -> outcome m s Q.
Proof. intros (a & s' & E & H1 & H2 & H3). unfold outcome. by rewrite E. Qed.

Lemma outcome_runs {A : Type} (m : M C A) s Q : T -> outcome m s Q -> runs L m s Q.
Proof. unfold outcome. destruct (m s) as [[a s']|] eqn:E; [|done]. intros _ (H1 & H2 & H3). by exists a, s'. Qed.

Lemma outcome_bind {A B : Type} (m : M C A) (k : A -> M C B) s P (Q : B -> list Node -> Prop) :
  outcome m s P ->
  (forall a s', state_ok L s' -> nodes s.1 `prefix_of` nodes s'.1 -> P a (nodes s'.1) -> outcome (k a) s' Q) ->
  outcome (bind m k) s Q.
Proof.
  unfold outcome, bind. destruct (m s) as [[a s']|]; [|done]. intros (H1 & H2 & H3) Hk. cbn.
  specialize (Hk a s' H1 H2 H3). destruct (k a s') as [[b s'']|]; [|done]. destruct Hk as (K1 & K2 & K3).
  split_and!; [done|by etransitivity|done].
Qed.

Lemma outcome_weaken {A : Type} (m : M C A) s (P Q : A -> list Node -> Prop) :
  outcome m s P -> (forall a table, table_ok table -> nodes s.1 `prefix_of` table -> P a table -> Q a table) -> outcome m s Q.
Proof.
  unfold outcome. destruct (m s) as [[a s']|]; [|done]. intros (H1 & H2 & H3) H. split_and!; [done..|].
  apply H; [apply H1|done..].
Qed.
End Outcome.

(** ** Ordered maps *)

Section IndexMap.
Context {K V : Type} `{!EqDecision K}.

Lemma index_get_elem (m : list (K * V)) k v : index_get m k = Some v -> (k, v) ∈ m.
Proof.
  unfold index_get. destruct (List.find _ m) as [[k' v']|] eqn:E; [|done]. intros [= <-].
  apply find_some in E as [Hin Hk%bool_decide_eq_true]. cbn in Hk. subst k'. by apply list_elem_of_In.
Qed.

(** The entries after an insertion: the new one, and all but one that had its key. *)
Lemma index_insert_elem (m : list (K * V)) k v e : e ∈ index_insert m k v -> e = (k, v) \/ e ∈ m.
Proof.
  induction m as [|e' m IH]; cbn; [set_solver|]. case_decide; [set_solver|]. intros [->|Hin%IH]%elem_of_cons; set_solver.
Qed.

Lemma index_insert_here (m : list (K * V)) k v : (k, v) ∈ index_insert m k v.
Proof. induction m as [|e m IH]; cbn; [set_solver|]. case_decide; set_solver. Qed.

Lemma index_insert_other (m : list (K * V)) k v e :
  e ∈ m -> e ∈ index_insert m k v \/ (e.1 = k /\ index_get m k = Some e.2).
Proof.
  induction m as [|e' m IH]; cbn; [by intros ?%elem_of_nil|]. unfold index_get. cbn [List.find].
  case_decide as E; [rewrite bool_decide_eq_true_2 by done|rewrite bool_decide_eq_false_2 by done].
  - intros [->|H]%elem_of_cons; [right|left]; [done|by right].
  - intros [->|H]%elem_of_cons; [left; by left|]. destruct (IH H) as [H'|H']; [left; by right|by right].
Qed.
End IndexMap.

(** ** Regions *)

Section Regions.
Context {T : Type} `{!Inhabited T} (law : T -> T -> comparison) `{!OrdLaws law, !RangeOps T, !RangeLaws law}.
Context (good : T -> Prop) (cmp : T -> T -> comparison) (Hgood : forall x y, good x -> good y -> cmp x y = law x y).

Notation "p ≺ q" := (point_cmp law p q = Lt) (at level 70).

#[local] Existing Instance point_order.

(** A point is in a region of a pair of cofactors. *)
Definition in_region (regions : list ((NodeId * NodeId) * range T)) (k : NodeId * NodeId) (p : T * Z) : Prop :=
  exists r, (k, r) ∈ regions /\ range_at law r p = true.

Lemma add_region regions k i k' p :
  in_region (index_insert regions k (match index_get regions k with Some r => range_union r i | None => i end)) k' p <->
  in_region regions k' p \/ (k' = k /\ range_at law i p = true).
Proof.
  split.
  - intros (r & [[= -> ->]|Hin]%index_insert_elem & Hp).
    + destruct (index_get regions k) as [r|] eqn:E; [|by right]. rewrite (range_at_union (cmp := law)) in Hp.
      apply orb_true_iff in Hp as [Hp|Hp]; [left; exists r; split; [by apply index_get_elem|done]|by right].
    + left. by exists r.
  - intros [(r & Hin & Hp)|[-> Hp]].
    + destruct (index_insert_other regions k (match index_get regions k with Some r => range_union r i | None => i end) _ Hin) as [H|[Hk Hg]];
        [by exists r|]. cbn in Hk, Hg. subst k'. eexists. split; [apply index_insert_here|]. rewrite Hg.
      by rewrite (range_at_union (cmp := law)), Hp.
    + eexists. split; [apply index_insert_here|]. destruct (index_get regions k); [|done].
      by rewrite (range_at_union (cmp := law)), Hp, orb_true_r.
Qed.

(** Regions that have points, with bounds that can be compared. *)
Definition regions_ok (regions : list ((NodeId * NodeId) * range T)) : Prop :=
  Forall (fun x => Forall good (range_values x.2) /\ exists p, range_at law x.2 p = true) regions.

Lemma add_region_ok regions k i :
  regions_ok regions -> Forall good (range_values i) -> range_is_empty i = false ->
  regions_ok (index_insert regions k (match index_get regions k with Some r => range_union r i | None => i end)).
Proof.
  unfold regions_ok. rewrite !Forall_forall. intros Hr Hi He x [-> |Hx]%index_insert_elem; [|by apply Hr].
  destruct (nonempty_point law i He) as [p Hp]. cbn. destruct (index_get regions k) as [r|] eqn:E; [|split; [by apply Forall_forall|by exists p]].
  split; [|exists p; by rewrite (range_at_union (cmp := law)), Hp, orb_true_r].
  apply (good_union law); [|by apply Forall_forall]. by apply (Hr (k, r)), index_get_elem.
Qed.

(** The ends of ranges, compared as the code does. *)
Lemma compare_ends_below x y p :
  Forall good (bound_values x) -> Forall good (bound_values y) ->
  (compare_ends cmp x y <> Gt -> point_below law x p = true -> point_below law y p = true) /\
  (compare_ends cmp x y <> Lt -> point_below law y p = true -> point_below law x p = true).
Proof.
  assert (Hl : forall a b, point_cmp law (a, 0) (b, 0) = law a b) by (intros a b; unfold point_cmp, cmp_pair; cbn; by destruct (law a b)).
  assert (Hlt : forall a b, law a b = Lt -> point_cmp law (a, 0) (b, 0) = Lt) by (intros; by rewrite Hl).
  assert (Hle : forall a b, law a b <> Gt -> point_cmp law (a, 0) (b, 0) <> Gt) by (intros a b; by rewrite Hl).
  assert (Hopp : forall a b, law b a = CompOpp (law a b)) by apply (cmp_opp law).
  assert (Hne : forall c, c = Lt -> c <> Gt) by by intros c ->.
  unfold point_below. destruct x as [a|a|], y as [b|b|]; cbn [compare_ends bound_values lift_bound segment_below];
    intros Ga Gb; try (apply Forall_inv in Ga, Gb; rewrite (Hgood a b Ga Gb)); try (by split);
    (split; intros Hc; rewrite !bool_decide_eq_true; intros Hp; pose proof (Hopp a b) as Ho; destruct (law a b) eqn:E; cbn in *; try done).
  all: first
    [ eapply (cmp_le_trans (point_cmp law)); [exact Hp|apply Hle; congruence]
    | eapply (cmp_le_lt_trans (point_cmp law)); [exact Hp|apply Hlt; congruence]
    | eapply (cmp_lt_le_trans (point_cmp law)); [exact Hp|apply Hle; congruence]
    | apply Hne; eapply (cmp_lt_le_trans (point_cmp law)); [exact Hp|apply Hle; congruence] ].
Qed.

(** A point of a chain that is not past the end of its first range is in that range. *)
Lemma chain_below_first r c edges l u p :
  chain law good ((r, c) :: edges) -> range_iter r = [(l, u)] -> covered law ((r, c) :: edges) p = true ->
  point_below law u p = true -> range_at law r p = true.
Proof.
  intros Hc E Hcov Hp. rewrite covered_cons in Hcov. apply orb_true_iff in Hcov as [?|Hcov]; [done|]. exfalso.
  destruct (chain_head _ _ _ _ _ Hc) as (_ & Hr & _ & Hb). destruct (one_segment_point law _ Hr) as [m Hm].
  pose proof (before_covered law r edges m p Hb Hm Hcov) as Hlt.
  assert (Hrp : range_at law r p = true).
  { rewrite (one_segment_at law _ _ _ m E) in Hm. rewrite (one_segment_at law _ _ _ p E). apply andb_true_iff in Hm as [Hm _]. apply andb_true_iff. split; [|done].
    cbn in *. apply (above_mono law l m p Hm). by rewrite Hlt. }
  apply (point_irreflexive law p). exact (before_covered law r edges p p Hb Hrp Hcov).
Qed.

(** A point that is covered by both chains and leaves one of them with its first edge is in the
    intersection of the first edges. *)
Lemma drop_first r c edges s d edges' l1 u1 l2 u2 p :
  chain law good ((r, c) :: edges) -> chain law good ((s, d) :: edges') ->
  range_iter r = [(l1, u1)] -> range_iter s = [(l2, u2)] ->
  (point_below law u1 p = true -> point_below law u2 p = true) ->
  covered law ((r, c) :: edges) p = true -> covered law ((s, d) :: edges') p = true -> covered law edges p = false ->
  range_at law (range_intersection r s) p = true.
Proof.
  intros Hc Hc' E1 E2 Hends Hcov Hcov' Hno. rewrite (range_at_intersection (cmp := law)).
  assert (Hr : range_at law r p = true) by (rewrite covered_cons in Hcov; by rewrite Hno, orb_false_r in Hcov).
  rewrite Hr. apply (chain_below_first s d edges' l2 u2 p Hc' E2 Hcov'). apply Hends.
  rewrite (one_segment_at law _ _ _ _ E1) in Hr. by apply andb_true_iff in Hr as [_ Hr].
Qed.

(** The pair of cofactors of a point. *)
Definition paired (left right : list (range T * NodeId)) (lower_parent upper_parent : NodeId) (k : NodeId * NodeId) (p : T * Z) : Prop :=
  exists c d, matching law p left = [c] /\ matching law p right = [d] /\
    k = (node_negate c lower_parent, node_negate d upper_parent).

Lemma matching_covered p edges c : matching law p edges = [c] -> covered law edges p = true.
Proof.
  intros E. destruct (matching_elem law p edges c) as (r & Hin & Hp); [rewrite E; by left|].
  apply existsb_exists. exists (r, c). split; [by apply list_elem_of_In|done].
Qed.

Lemma matching_tail r c edges p d :
  chain law good ((r, c) :: edges) -> matching law p edges = [d] -> matching law p ((r, c) :: edges) = [d].
Proof.
  intros Hc E. rewrite (matching_cons law). destruct (range_at law r p) eqn:Er; [|done]. exfalso.
  destruct (chain_head _ _ _ _ _ Hc) as (_ & _ & _ & Hb). apply (point_irreflexive law p).
  by apply (before_covered law r edges); [| |eapply matching_covered].
Qed.

Section Step.
Context (r s : range T) (c d : NodeId) (left right : list (range T * NodeId)) (lp up : NodeId).
Context (l1 u1 l2 u2 : bound_of T) (E1 : range_iter r = [(l1, u1)]) (E2 : range_iter s = [(l2, u2)]).
Context (Hl : chain law good ((r, c) :: left)) (Hr : chain law good ((s, d) :: right)).

(** A step of the walk: the ranges that end are left behind. *)
Lemma paired_step (dl dr : bool) k p :
  (dl = true -> point_below law u1 p = true -> point_below law u2 p = true) ->
  (dr = true -> point_below law u2 p = true -> point_below law u1 p = true) ->
  paired ((r, c) :: left) ((s, d) :: right) lp up k p <->
  (k = (node_negate c lp, node_negate d up) /\ range_at law (range_intersection r s) p = true) \/
  paired (if dl then left else (r, c) :: left) (if dr then right else (s, d) :: right) lp up k p.
Proof.
  intros Hdl Hdr. split.
  - intros (c' & d' & Ec & Ed & ->). destruct (range_at law (range_intersection r s) p) eqn:Ei.
    + left. rewrite (range_at_intersection (cmp := law)) in Ei. apply andb_true_iff in Ei as [Hpr Hps].
      rewrite (chain_select law good _ p r c Hl (list_elem_of_here _ _) Hpr) in Ec.
      rewrite (chain_select law good _ p s d Hr (list_elem_of_here _ _) Hps) in Ed. by simplify_eq.
    + right. pose proof (matching_covered _ _ _ Ec) as Cl. pose proof (matching_covered _ _ _ Ed) as Cr.
      exists c', d'. split_and!; [| |done].
      * destruct dl; [|done]. destruct (covered law left p) eqn:Eco.
        -- rewrite (matching_cons law) in Ec. destruct (range_at law r p) eqn:Er; [|done]. exfalso.
           destruct (chain_head _ _ _ _ _ Hl) as (_ & _ & _ & Hb). apply (point_irreflexive law p).
           exact (before_covered law r left p p Hb Er Eco).
        -- exfalso. by rewrite (drop_first r c left s d right l1 u1 l2 u2 p Hl Hr E1 E2 (Hdl eq_refl) Cl Cr Eco) in Ei.
      * destruct dr; [|done]. destruct (covered law right p) eqn:Eco.
        -- rewrite (matching_cons law) in Ed. destruct (range_at law s p) eqn:Es; [|done]. exfalso.
           destruct (chain_head _ _ _ _ _ Hr) as (_ & _ & _ & Hb). apply (point_irreflexive law p).
           exact (before_covered law s right p p Hb Es Eco).
        -- exfalso. pose proof (drop_first s d right r c left l2 u2 l1 u1 p Hr Hl E2 E1 (Hdr eq_refl) Cr Cl Eco) as Hi.
           rewrite (range_at_intersection (cmp := law)) in Hi, Ei. by rewrite andb_comm, Ei in Hi.
  - intros [[-> Hi]|(c' & d' & Ec & Ed & ->)].
    + rewrite (range_at_intersection (cmp := law)) in Hi. apply andb_true_iff in Hi as [Hpr Hps]. exists c, d.
      split_and!; [by apply (chain_select law good _ p r); [|left|]|by apply (chain_select law good _ p s); [|left|]|done].
    + exists c', d'. split_and!; [|..|done]; [destruct dl; [by apply matching_tail|done]|destruct dr; [by apply matching_tail|done]].
Qed.
End Step.

(** The walk over two chains gives the regions of all pairs of cofactors. *)
Lemma range_regions_spec fuel left right lp up regions :
  (length left + length right <= fuel)%nat -> chain law good left -> chain law good right -> regions_ok regions ->
  exists out, range_regions cmp fuel left right lp up regions = Some out /\ regions_ok out /\
    forall k p, in_region out k p <-> in_region regions k p \/ paired left right lp up k p.
Proof.
  assert (Hstop : forall left right regions, left = [] \/ right = [] -> regions_ok regions ->
    exists out, Some regions = Some out /\ regions_ok out /\
      forall k p, in_region out k p <-> in_region regions k p \/ paired left right lp up k p).
  { intros l r rs Hnil Hok. exists rs. split_and!; [done..|]. intros k p. split; [by left|]. intros [?|(c & d & Ec & Ed & _)]; [done|].
    by destruct Hnil as [->| ->]. }
  revert left right regions. induction fuel as [|fuel IH]; intros [|[r c] left] [|[s d] right] regions Hf Hl Hr Hok;
    cbn [range_regions]; try (apply Hstop; [tauto|done]); [cbn in Hf; lia|]. cbn [length] in Hf.
  destruct (chain_head _ _ _ _ _ Hl) as (Hl' & (l1 & u1 & E1) & Gr & _), (chain_head _ _ _ _ _ Hr) as (Hr' & (l2 & u2 & E2) & Gs & _).
  rewrite (one_segment_bounding law _ _ _ E1), (one_segment_bounding law _ _ _ E2). cbn [fmap option_fmap option_map snd].
  destruct (one_segment_values good _ _ _ E1 Gr) as [_ Gu1], (one_segment_values good _ _ _ E2 Gs) as [_ Gu2].
  set (regions' := if range_is_empty _ then regions else _).
  assert (Hr1 : regions_ok regions' /\ forall k p, in_region regions' k p <-> in_region regions k p \/
    (k = (node_negate c lp, node_negate d up) /\ range_at law (range_intersection r s) p = true)).
  { unfold regions'. destruct (range_is_empty (range_intersection r s)) eqn:Ee.
    - split; [done|]. intros k p. split; [by left|]. intros [?|[_ Hp]]; [done|]. by rewrite (empty_at law) in Hp.
    - split; [by apply add_region_ok; [..|apply (good_intersection law)|]|]. intros k p. apply add_region. }
  clearbody regions'. destruct Hr1 as [Hok' Hadd].
  assert (Hnext : forall dl dr : bool, (dl = true \/ dr = true) ->
    (forall p, dl = true -> point_below law u1 p = true -> point_below law u2 p = true) ->
    (forall p, dr = true -> point_below law u2 p = true -> point_below law u1 p = true) ->
    exists out, range_regions cmp fuel (if dl then left else (r, c) :: left) (if dr then right else (s, d) :: right) lp up regions' = Some out /\
      regions_ok out /\ forall k p, in_region out k p <-> in_region regions k p \/ paired ((r, c) :: left) ((s, d) :: right) lp up k p).
  { intros dl dr Hd H1 H2. destruct (IH (if dl then left else (r, c) :: left) (if dr then right else (s, d) :: right) regions')
      as (out & Eo & Hoo & Hio); [destruct dl, dr; cbn in *; destruct Hd; lia || done|by destruct dl|by destruct dr|done|].
    exists out. split_and!; [done..|]. intros k p. rewrite Hio, Hadd.
    rewrite (paired_step r s c d left right lp up l1 u1 l2 u2 E1 E2 Hl Hr dl dr k p (H1 p) (H2 p)). tauto. }
  pose proof (fun p => compare_ends_below u1 u2 p Gu1 Gu2) as Hends.
  destruct (compare_ends cmp u1 u2); [apply (Hnext true true)|apply (Hnext true false)|apply (Hnext false true)]; try tauto;
    intros p; destruct (Hends p) as [H1 H2]; intros ?; try done; by first [apply H1|apply H2].
Qed.
End Regions.

(** ** Guards *)

Section Guards.
Context {RV : RangeOps Version} {RS : RangeOps (list Z)}.

(** The guard of an edge holds where the node has the child. *)
Definition guard_holds (table : list Node) (sigma : Valuation) (g : Guard) : bool :=
  match g with
  | GuardNode i => eval table sigma i
  | GuardEdge i child =>
      match node_at table i with
      | Some node =>
          existsb (fun c => node_negate c i =? child) (edges_select sigma (node_var node) (node_children node))
      | None => false
      end
  end.

(** A condition on one variable. *)
Definition guard_on (table : list Node) (var : MarkerVariable) (g : Guard) : Prop :=
  match g with
  | GuardNode i => node_valid table i /\ all_vars table (eq var) i
  | GuardEdge i child =>
      node_valid table i /\ exists node c, node_at table i = Some node /\ node_var node = var /\
        c ∈ edges_nodes (node_children node) /\ child = node_negate c i
  end.

Lemma guard_on_stable var g : stable (fun table => guard_on table var g).
Proof.
  intros table table' Hok Hok' Hp. destruct g as [i|i child]; cbn.
  - intros [Hi Ha]. split; [extend|]. by apply (all_vars_extend table table').
  - intros (Hi & node & c & En & Hv & Hc & ->). split; [extend|]. exists node, c. split_and!; [extend|done..].
Qed.

Lemma guard_holds_extend table table' var sigma g :
  table_ok table -> table_ok table' -> table `prefix_of` table' -> guard_on table var g ->
  guard_holds table' sigma g = guard_holds table sigma g.
Proof.
  intros Hok Hok' Hp. destruct g as [i|i child]; cbn.
  - intros [Hi _]. by apply eval_extend.
  - intros (Hi & _). by rewrite (node_at_extend table table').
Qed.

Context {LV : RangeLaws version_cmp_slow} {LS : RangeLaws string_cmp}.

Lemma existsb_filter {A : Type} (f g : A -> bool) l : existsb f (List.filter g l) = existsb (fun x => g x && f x) l.
Proof. induction l as [|x l IH]; [done|]. cbn. destruct (g x); cbn; by rewrite IH. Qed.

Lemma existsb_bind {A B : Type} (f : B -> bool) (g : A -> list B) l : existsb f (l ≫= g) = existsb (fun x => existsb f (g x)) l.
Proof. induction l as [|x l IH]; [done|]. cbn. by rewrite existsb_app, IH. Qed.

Lemma existsb_fmap {A B : Type} (f : B -> bool) (g : A -> B) l : existsb f (g <$> l) = existsb (fun x => f (g x)) l.
Proof. induction l as [|x l IH]; [done|]. cbn. by rewrite IH. Qed.

(** The ranges of the edges to a child. *)
Definition child_range {T : Type} `{!RangeOps T} (edges : list (range T * NodeId)) (parent child : NodeId) : range T :=
  range_collect (List.filter (fun e => node_negate e.2 parent =? child) edges ≫= fun e => range_iter e.1).

Lemma child_range_at {T : Type} (law : T -> T -> comparison) `{!RangeOps T, !RangeLaws law} (edges : list (range T * NodeId)) parent child p :
  range_at law (child_range edges parent child) p = existsb (fun c => node_negate c parent =? child) (matching law p edges).
Proof.
  unfold child_range, matching. rewrite (range_at_collect (cmp := law)), existsb_bind, existsb_filter, existsb_fmap, existsb_filter.
  induction edges as [|e edges IH]; [done|]. cbn [existsb]. rewrite IH. f_equal. apply andb_comm.
Qed.

Lemma child_range_values {T : Type} (law : T -> T -> comparison) `{!RangeOps T, !RangeLaws law} (good : T -> Prop)
    (edges : list (range T * NodeId)) parent child :
  Forall (fun e => Forall good (range_values e.1)) edges -> Forall good (range_values (child_range edges parent child)).
Proof.
  rewrite !Forall_forall. intros H v Hv%(range_values_collect (cmp := law)).
  apply list_elem_of_bind in Hv as (s & Hv & (e & Hs & He)%list_elem_of_bind).
  apply list_elem_of_In, filter_In in He as [He%list_elem_of_In _]. specialize (H e He). rewrite Forall_forall in H.
  apply H. apply list_elem_of_bind. eauto.
Qed.

Context {C : Type} (L : C -> list Node -> Prop) {HL : LocalInvariant L}.

(** The node of a condition on versions or strings. *)
Lemma version_condition_runs var r s :
  state_ok L s -> edges_kind var (EdgesVersion []) -> Forall comparable (range_values r) ->
  runs L (create_node var (EdgesVersion (from_range version_cmp r))) s (fun i table =>
    means any_valuation (fun sigma => range_at version_cmp_slow r (version_point sigma var)) i table /\ all_vars table (eq var) i).
Proof.
  intros Hs Hk Hg. apply (decision_node_runs L); [done|by destruct var|by apply version_range_partition| |].
  - intros i. apply (from_range_nodes version_cmp).
  - intros sigma. apply (from_range_matching version_cmp version_cmp_slow).
Qed.

Lemma string_condition_runs var r s :
  state_ok L s -> edges_kind var (EdgesString []) ->
  runs L (create_node var (EdgesString (from_range string_cmp r))) s (fun i table =>
    means any_valuation (fun sigma => range_at string_cmp r (string_point sigma var)) i table /\ all_vars table (eq var) i).
Proof.
  intros Hs Hk. apply (decision_node_runs L); [done|by destruct var|apply string_range_partition| |].
  - intros i. apply (from_range_nodes string_cmp).
  - intros sigma. apply (from_range_matching string_cmp string_cmp).
Qed.

Lemma bool_condition_runs var b s :
  state_ok L s -> edges_kind var (EdgesBoolean 0 0) ->
  runs L (create_node var (edges_from_bool b)) s (fun i table =>
    means any_valuation (fun sigma => Bool.eqb b (bool_at sigma var)) i table /\ all_vars table (eq var) i).
Proof.
  intros Hs Hk. apply (decision_node_runs L); [done|by destruct var, b|by destruct b| |].
  - destruct b; cbn; set_solver.
  - intros sigma. by destruct b; cbn; destruct (bool_at sigma var).
Qed.

(** [guard_node]: the node holds where the guard does. *)
Lemma guard_node_runs var g s :
  state_ok L s -> guard_on (nodes s.1) var g ->
  runs L (guard_node g) s (fun i table =>
    means any_valuation (fun sigma => guard_holds (nodes s.1) sigma g) i table /\ all_vars table (eq var) i).
Proof.
  intros Hs Hg. pose proof (ok_table _ (proj1 Hs)) as Hok. destruct g as [i|i child]; cbn [guard_node].
  - destruct Hg as [Hi Ha]. apply runs_ret; [done|]. split; [by split|done].
  - destruct Hg as (Hi & node & c & En & <- & Hc & ->). apply (runs_get_node L _ node); [done|].
    pose proof (node_at_ok _ _ _ Hok En) as [K1 K2 K3 K4 K5].
    destruct (two_children (nodes s.1) Hok i node En) as (a & b & Ha & Hb & Hne).
    assert (Hmeans : forall (P Q : Valuation -> bool) m, (forall sigma, P sigma = Q sigma) ->
      runs L m s (fun j table => means any_valuation P j table /\ all_vars table (eq (node_var node)) j) ->
      runs L m s (fun j table => means any_valuation Q j table /\ all_vars table (eq (node_var node)) j)).
    { intros P Q m HPQ Hm. eapply runs_weaken; [exact Hm|]. intros j table _ _ [H1 H2]. split; [|done].
      eapply means_ext; [|exact H1]. intros; apply HPQ. }
    unfold guard_holds. rewrite En. destruct (node_children node) as [edges|edges|high low] eqn:Ech; cbn [edges_nodes] in *.
    + eapply Hmeans; [|apply (version_condition_runs (node_var node) (child_range edges i (node_negate c i))); [done|by destruct (node_var node)|]].
      * intros sigma. apply (child_range_at version_cmp_slow).
      * apply (child_range_values version_cmp_slow comparable). cbn in K5. apply (chain_values _ _ _ (partition_chain _ _ _ K5)).
    + eapply Hmeans; [|apply (string_condition_runs (node_var node) (child_range edges i (node_negate c i))); [done|by destruct (node_var node)]].
      intros sigma. apply (child_range_at string_cmp).
    + eapply Hmeans; [|apply bool_condition_runs; [done|by destruct (node_var node)]].
      intros sigma. cbn. rewrite orb_false_r.
      assert (Hd : node_negate high i <> node_negate low i) by (intros E%negate_inj; set_solver).
      assert (c = high \/ c = low) as [->| ->] by set_solver.
      * rewrite Z.eqb_refl. destruct (bool_at sigma (node_var node)); cbn; [by rewrite Z.eqb_refl|].
        symmetry. apply Z.eqb_neq. congruence.
      * rewrite (proj2 (Z.eqb_neq (node_negate high i) (node_negate low i)) Hd).
        destruct (bool_at sigma (node_var node)); cbn; symmetry; [by apply Z.eqb_neq|apply Z.eqb_refl].
Qed.
End Guards.

(** ** Cofactors *)

Section Cofactors.
Context {RV : RangeOps Version} {RS : RangeOps (list Z)}.
Context {LV : RangeLaws version_cmp_slow} {LS : RangeLaws string_cmp}.

(** The cofactor of a reference at the value of a variable. *)
Definition cofactor (table : list Node) (var : MarkerVariable) (i : NodeId) (sigma : Valuation) : NodeId :=
  match node_at table i with
  | Some node =>
      if decide (node_var node = var)
      then node_negate (default NODE_TRUE (head (edges_select sigma var (node_children node)))) i
      else i
  | None => i
  end.

(** No variable of the reference comes before. *)
Definition starts (table : list Node) (var : MarkerVariable) (i : NodeId) : Prop :=
  node_valid table i /\ forall node, node_at table i = Some node -> node_var node = var \/ variable_cmp var (node_var node) = Lt.

Section Facts.
Context (table : list Node) (Hok : table_ok table) (var : MarkerVariable) (i : NodeId) (Hi : starts table var i).

Lemma cofactor_cases sigma :
  (exists node c, node_at table i = Some node /\ node_var node = var /\ edges_select sigma var (node_children node) = [c] /\
     c ∈ edges_nodes (node_children node) /\ cofactor table var i sigma = node_negate c i) \/
  (before table var i /\ cofactor table var i sigma = i).
Proof.
  unfold cofactor. destruct Hi as [Hv Hs]. destruct (node_at table i) as [node|] eqn:En.
  - case_decide as E.
    + left. exists node. pose proof (node_at_ok _ _ _ Hok En) as [_ K2 _ _ _]. rewrite E in K2.
      destruct (total_select sigma _ _ K2) as (c & Ec & Hc). exists c. by rewrite Ec.
    + right. split; [|done]. intros n. rewrite En. intros [= <-]. by destruct (Hs _ eq_refl).
  - right. split; [|done]. intros n. by rewrite En.
Qed.

Lemma cofactor_before sigma : node_valid table (cofactor table var i sigma) /\ before table var (cofactor table var i sigma).
Proof.
  destruct (cofactor_cases sigma) as [(node & c & En & <- & _ & Hc & ->)|[Hb ->]]; [|split; [apply Hi|done]].
  pose proof (node_at_ok _ _ _ Hok En) as [_ _ K3 K4 _].
  split; [by apply negate_valid, K3|]. apply before_negate; [by apply K3|by apply K4].
Qed.

Lemma cofactor_vars sigma V : all_vars table V i -> all_vars table V (cofactor table var i sigma).
Proof.
  intros HV. destruct (cofactor_cases sigma) as [(node & c & En & _ & _ & Hc & ->)|[_ ->]]; [|done].
  apply all_vars_negate; [by apply (ok_valid _ _ _ (node_at_ok _ _ _ Hok En))|]. by apply (all_vars_child _ _ _ _ _ En HV).
Qed.

Lemma cofactor_eval sigma : eval table sigma i = eval table sigma (cofactor table var i sigma).
Proof.
  destruct (cofactor_cases sigma) as [(node & c & En & <- & Ec & Hc & ->)|[_ ->]]; [|done].
  destruct (eval_node table sigma i node Hok En) as (c' & Ec' & _ & ->). rewrite Ec in Ec'. by injection Ec' as <-.
Qed.

Lemma cofactor_redirect sigma tau : eval table (redirect sigma tau var) i = eval table sigma (cofactor table var i tau).
Proof.
  destruct (cofactor_cases tau) as [(node & c & En & <- & Ec & Hc & ->)|[Hb ->]]; [by apply redirect_node|].
  apply redirect_before; [done|apply Hi|done].
Qed.
End Facts.

(** What [cover_cofactors] returns: guards on the variable, with the cofactors where they hold; a
    region without a guard has the lower cofactor [false]. *)
Record cofactors_ok (table : list Node) (var : MarkerVariable) (lower upper : NodeId)
    (cofactors : list (Guard * (NodeId * NodeId))) : Prop := {
  cofactors_guard : forall g l u, (g, (l, u)) ∈ cofactors -> guard_on table var g;
  cofactors_region : forall g l u, (g, (l, u)) ∈ cofactors ->
    exists tau, l = cofactor table var lower tau /\ u = cofactor table var upper tau;
  cofactors_holds : forall sigma g l u, (g, (l, u)) ∈ cofactors -> guard_holds table sigma g = true ->
    l = cofactor table var lower sigma /\ u = cofactor table var upper sigma;
  cofactors_cover : forall sigma, exists g,
    (g, (cofactor table var lower sigma, cofactor table var upper sigma)) ∈ cofactors /\
    (guard_holds table sigma g = true \/ cofactor table var lower sigma = NODE_FALSE)
}.

Lemma cofactor_extend table table' var i sigma :
  table `prefix_of` table' -> node_valid table i -> cofactor table' var i sigma = cofactor table var i sigma.
Proof. intros Hp Hi. unfold cofactor. by rewrite (node_at_extend table table'). Qed.

Lemma cofactors_stable table table' var lower upper cofactors :
  table_ok table -> table_ok table' -> table `prefix_of` table' -> node_valid table lower -> node_valid table upper ->
  cofactors_ok table var lower upper cofactors -> cofactors_ok table' var lower upper cofactors.
Proof.
  intros Hok Hok' Hp Hl Hu [H1 H2 H3 H4]. split.
  - intros g l u Hin%H1. by apply (guard_on_stable var g table).
  - intros g l u (tau & -> & ->)%H2. exists tau. by rewrite !(cofactor_extend table table').
  - intros sigma g l u Hin. rewrite (guard_holds_extend table table' var sigma g) by eauto.
    rewrite !(cofactor_extend table table') by done. by apply (H3 sigma g).
  - intros sigma. destruct (H4 sigma) as (g & Hin & Hg). exists g. rewrite !(cofactor_extend table table') by done.
    split; [done|]. by rewrite (guard_holds_extend table table' var sigma g) by eauto.
Qed.

(** *** Equal bounds *)

Lemma distinct_elem seen l x : x ∈ distinct seen l <-> x ∈ l /\ x ∉ seen.
Proof.
  revert seen. induction l as [|y l IH]; intros seen; cbn; [set_solver|]. case_decide as E; rewrite ?elem_of_cons, IH; [set_solver|].
  destruct (decide (x = y)) as [->|]; set_solver.
Qed.

Lemma exact_cofactors_elem i node g l u :
  (g, (l, u)) ∈ exact_cofactors i node <->
  exists c, c ∈ edges_nodes (node_children node) /\ g = GuardEdge i (node_negate c i) /\ l = node_negate c i /\ u = node_negate c i.
Proof.
  assert (Hranges : (g, (l, u)) ∈ (fun child => (GuardEdge i child, (child, child)))
      <$> distinct ∅ ((fun child => node_negate child i) <$> edges_nodes (node_children node)) <->
    exists c, c ∈ edges_nodes (node_children node) /\ g = GuardEdge i (node_negate c i) /\ l = node_negate c i /\ u = node_negate c i).
  { rewrite list_elem_of_fmap. split.
    - intros (x & [= -> -> ->] & [(c & -> & Hc)%list_elem_of_fmap _]%distinct_elem). by exists c.
    - intros (c & Hc & -> & -> & ->). exists (node_negate c i). split; [done|]. apply distinct_elem.
      split; [|set_solver]. apply list_elem_of_fmap. by exists c. }
  unfold exact_cofactors. destruct (node_children node) as [edges|edges|high low]; [exact Hranges..|].
  clear Hranges. rewrite list_elem_of_fmap. split.
  - intros (c & [= -> -> ->] & Hc). exists c. split_and!; [set_solver|done..].
  - intros (c & Hc & -> & -> & ->). exists c. split; [done|]. set_solver.
Qed.

Lemma exact_cofactors_ok table i node :
  table_ok table -> node_valid table i -> node_at table i = Some node ->
  cofactors_ok table (node_var node) i i (exact_cofactors i node).
Proof.
  intros Hok Hi En. pose proof (node_at_ok _ _ _ Hok En) as Hedges.
  assert (Hcof : forall sigma c, edges_select sigma (node_var node) (node_children node) = [c] ->
    cofactor table (node_var node) i sigma = node_negate c i).
  { intros sigma c Ec. unfold cofactor. rewrite En, decide_True by done. by rewrite Ec. }
  split.
  - intros g l u (c & Hc & -> & _)%exact_cofactors_elem. split; [done|]. by exists node, c.
  - intros g l u (c & Hc & _ & -> & ->)%exact_cofactors_elem. destruct (child_valuation _ _ _ _ Hedges Hc) as [tau Et].
    exists tau. by rewrite (Hcof tau c).
  - intros sigma g l u (c & Hc & -> & -> & ->)%exact_cofactors_elem. cbn. rewrite En.
    destruct (ok_total _ _ _ Hedges sigma) as [d Ed]. rewrite (Hcof sigma d), Ed by done. cbn. rewrite orb_false_r. by intros ->%Z.eqb_eq.
  - intros sigma. destruct (total_select sigma _ _ (ok_total _ _ _ Hedges)) as (c & Ec & Hc).
    exists (GuardEdge i (node_negate c i)). rewrite (Hcof sigma c) by done. split.
    + apply exact_cofactors_elem. by exists c.
    + left. cbn. rewrite En, Ec. cbn. by rewrite Z.eqb_refl.
Qed.

(** *** Decisions on a boolean *)

Lemma boolean_cofactors_spec table i node var sigma :
  table_ok table -> node_at table i = Some node -> edges_kind var (EdgesBoolean 0 0) ->
  cofactor table var i sigma = if bool_at sigma var then (boolean_cofactors i node var).2 else (boolean_cofactors i node var).1.
Proof.
  intros Hok En Hk. pose proof (ok_kind _ _ _ (node_at_ok _ _ _ Hok En)) as K1. unfold cofactor, boolean_cofactors. rewrite En.
  case_decide as E; [rewrite E in K1; destruct (node_children node); try (by destruct var); cbn; by destruct (bool_at sigma var)|].
  destruct (node_children node); cbn; by destruct (bool_at sigma var).
Qed.

Context {C : Type} (L : C -> list Node -> Prop) {HL : LocalInvariant L}.

Lemma boolean_cofactors_runs lower upper lower_node upper_node var s :
  state_ok L s -> node_valid (nodes s.1) lower -> node_valid (nodes s.1) upper ->
  node_at (nodes s.1) lower = Some lower_node -> node_at (nodes s.1) upper = Some upper_node -> edges_kind var (EdgesBoolean 0 0) ->
  runs L (let '(lower_low, lower_high) := boolean_cofactors lower lower_node var in
          let '(upper_low, upper_high) := boolean_cofactors upper upper_node var in
          let! guard := create_node var (edges_from_bool true) in
          ret [(GuardNode (node_not guard), (lower_low, upper_low)); (GuardNode guard, (lower_high, upper_high))]) s
    (fun cofactors table => cofactors_ok table var lower upper cofactors).
Proof.
  intros Hs Hl Hu El Eu Hk.
  destruct (boolean_cofactors lower lower_node var) as [ll lh] eqn:Bl, (boolean_cofactors upper upper_node var) as [ul uh] eqn:Bu.
  eapply runs_bind; [by apply (bool_condition_runs L)|]. intros g s1 Hs1 Hp1 [[Hv Hg] Hvar].
  apply runs_ret; [done|]. pose proof (ok_table _ (proj1 Hs1)) as Hok.
  assert (Cl : forall sigma, cofactor (nodes s1.1) var lower sigma = if bool_at sigma var then lh else ll).
  { intros sigma. rewrite (boolean_cofactors_spec (nodes s1.1) lower lower_node var sigma) by (done || extend). by rewrite Bl. }
  assert (Cu : forall sigma, cofactor (nodes s1.1) var upper sigma = if bool_at sigma var then uh else ul).
  { intros sigma. rewrite (boolean_cofactors_spec (nodes s1.1) upper upper_node var sigma) by (done || extend). by rewrite Bu. }
  assert (Hcases : forall x l u, (x, (l, u)) ∈ [(GuardNode (node_not g), (ll, ul)); (GuardNode g, (lh, uh))] ->
    exists b : bool, x = GuardNode (if b then g else node_not g) /\ l = (if b then lh else ll) /\ u = (if b then uh else ul)).
  { intros x l u [[= -> -> ->]|[[= -> -> ->]|?%elem_of_nil]%elem_of_cons]%elem_of_cons; [by exists false|by exists true|done]. }
  assert (Hholds : forall sigma b, guard_holds (nodes s1.1) sigma (GuardNode (if (b : bool) then g else node_not g)) = Bool.eqb b (bool_at sigma var)).
  { intros sigma []; cbn; rewrite ?eval_not, (Hg _ I) by done; by destruct (bool_at sigma var). }
  split.
  - intros x l u ([] & -> & _)%Hcases; cbn; [done|]. split; [by apply not_valid|]. apply all_vars_not; [apply Hv|done].
  - intros x l u (b & _ & -> & ->)%Hcases. exists (bool_valuation b). by rewrite Cl, Cu.
  - intros sigma x l u (b & -> & -> & ->)%Hcases. rewrite Hholds, Cl, Cu. intros ->%Bool.eqb_prop. done.
  - intros sigma. rewrite Cl, Cu. exists (GuardNode (if bool_at sigma var then g else node_not g)). rewrite Hholds, Bool.eqb_reflx.
    split; [|by left]. destruct (bool_at sigma var); set_solver.
Qed.

(** *** Decisions on ranges *)

Section RangeCofactors.
Context {T : Type} `{!Inhabited T} (law : T -> T -> comparison) `{!OrdLaws law, !RangeOps T, !RangeLaws law}.
Context (good : T -> Prop) (cmp : T -> T -> comparison) (Hgood : forall x y, good x -> good y -> cmp x y = law x y).
Context (to_edges : list (range T * NodeId) -> Edges) (var : MarkerVariable) (at_point : Valuation -> T * Z).
Context (valuation : T * Z -> Valuation) (Hval : forall p, at_point (valuation p) = p).
Hypothesis Hcreate : forall r s, state_ok L s -> Forall good (range_values r) ->
  runs L (create_node var (to_edges (from_range cmp r))) s (fun i table =>
    means any_valuation (fun sigma => range_at law r (at_point sigma)) i table /\ all_vars table (eq var) i).

(** A range with its guard. *)
Definition region_guard (table : list Node) (region : (NodeId * NodeId) * range T) (x : Guard * (NodeId * NodeId)) : Prop :=
  x.2 = region.1 /\ guard_on table var x.1 /\
  ((x.2.1 = NODE_FALSE /\ x.1 = GuardNode NODE_FALSE) \/
   forall sigma, guard_holds table sigma x.1 = range_at law region.2 (at_point sigma)).

Lemma region_guard_stable region x : stable (fun table => region_guard table region x).
Proof.
  intros table table' Hok Hok' Hp (H1 & H2 & H3). split_and!; [done|by apply (guard_on_stable var x.1 table)|].
  destruct H3 as [H3|H3]; [by left|]. right. intros sigma. by rewrite (guard_holds_extend table table' var).
Qed.

Lemma region_guards_runs regions s :
  state_ok L s -> regions_ok law good regions ->
  runs L (region_guards cmp to_edges var regions) s (fun out table => Forall2 (region_guard table) regions out).
Proof.
  revert s. induction regions as [|[[l u] r] regions IH]; intros s Hs Hr; cbn [region_guards]; [by apply runs_ret|].
  apply Forall_cons in Hr as [[Hg _] Hr]. eapply (runs_bind L) with (P := fun g table => region_guard table ((l, u), r) (GuardNode g, (l, u))).
  - destruct (node_is_false l) eqn:El.
    + apply runs_ret; [done|]. apply node_is_false_spec in El as ->. split_and!; [done| |by left].
      split; [apply false_valid|by apply all_vars_true; right].
    + eapply runs_weaken; [by apply Hcreate|]. intros g table _ _ [[Hv Hm] Ha]. split_and!; [done|done|].
      right. intros sigma. by apply Hm.
  - intros g s1 Hs1 Hp1 H1. eapply runs_bind; [by apply IH|]. intros out s2 Hs2 Hp2 H2. apply runs_ret; [done|].
    constructor; [|done]. eapply region_guard_stable; [apply Hs1|apply Hs2|done..].
Qed.

(** An operand, as edges. *)
Definition operand (table : list Node) (i : NodeId) (edges : list (range T * NodeId)) (parent : NodeId) : Prop :=
  line_partition law good edges /\
  forall sigma c, matching law (at_point sigma) edges = [c] -> cofactor table var i sigma = node_negate c parent.

Lemma region_cofactors_ok table lower upper left right lp up regions out :
  operand table lower left lp -> operand table upper right up -> regions_ok law good regions ->
  (forall k p, in_region law regions k p <-> paired law left right lp up k p) ->
  Forall2 (region_guard table) regions out -> cofactors_ok table var lower upper out.
Proof.
  intros [Pl Hl] [Pr Hr] Hok Hreg Hout.
  assert (Hin : forall x, x ∈ out -> exists region, region ∈ regions /\ region_guard table region x).
  { intros x [k Hk]%list_elem_of_lookup. destruct (Forall2_lookup_r _ _ _ _ _ Hout Hk) as (region & Hr' & Hg).
    exists region. split; [by eapply list_elem_of_lookup_2|done]. }
  assert (Hcof : forall sigma k, paired law left right lp up k (at_point sigma) ->
    k = (cofactor table var lower sigma, cofactor table var upper sigma)).
  { intros sigma k (c & d & Ec & Ed & ->). by rewrite (Hl _ _ Ec), (Hr _ _ Ed). }
  assert (Hholds : forall sigma x, x ∈ out -> guard_holds table sigma x.1 = true ->
    x.2 = (cofactor table var lower sigma, cofactor table var upper sigma)).
  { intros sigma x Hx Hg. destruct (Hin x Hx) as ([k r] & Hr' & E & _ & [[_ E']|Hh]).
    - rewrite E' in Hg. done.
    - rewrite E. apply Hcof, Hreg. exists r. split; [done|]. by rewrite Hh in Hg. }
  split.
  - intros g l u Hx. destruct (Hin _ Hx) as (region & _ & _ & Hg & _). done.
  - intros g l u Hx. destruct (Hin _ Hx) as ([k r] & Hr' & E & _). cbn in E. subst k.
    unfold regions_ok in Hok. rewrite Forall_forall in Hok. destruct (Hok _ Hr') as [_ [p Hp]]. exists (valuation p).
    assert (Hpair : paired law left right lp up (l, u) (at_point (valuation p))).
    { rewrite Hval. apply Hreg. by exists r. }
    by injection (Hcof _ _ Hpair) as -> ->.
  - intros sigma g l u Hx Hg. by injection (Hholds sigma _ Hx Hg) as -> ->.
  - intros sigma. destruct (partition_select law good left (at_point sigma) Pl) as (_ & c & _ & _ & Ec).
    destruct (partition_select law good right (at_point sigma) Pr) as (_ & d & _ & _ & Ed).
    assert (Hpair : paired law left right lp up (cofactor table var lower sigma, cofactor table var upper sigma) (at_point sigma)).
    { exists c, d. by rewrite (Hl _ _ Ec), (Hr _ _ Ed). }
    apply Hreg in Hpair as (r & Hr' & Hp). apply list_elem_of_lookup in Hr' as [k Hk].
    destruct (Forall2_lookup_l _ _ _ _ _ Hout Hk) as ([g x] & Hk' & E & _ & H). cbn in E, H. subst x.
    exists g. split; [by eapply list_elem_of_lookup_2|]. destruct H as [[H _]|H]; [by right|left]. by rewrite H.
Qed.

Lemma range_cofactors_runs lower upper lower_edges upper_edges s :
  state_ok L s -> node_valid (nodes s.1) lower -> node_valid (nodes s.1) upper ->
  operand (nodes s.1) lower (default [(range_full, lower)] lower_edges) (if lower_edges is Some _ then lower else NODE_TRUE) ->
  operand (nodes s.1) upper (default [(range_full, upper)] upper_edges) (if upper_edges is Some _ then upper else NODE_TRUE) ->
  runs L (let! regions := lift_option (range_cofactors cmp lower lower_edges upper upper_edges) in
          region_guards cmp to_edges var regions) s
    (fun cofactors table => cofactors_ok table var lower upper cofactors).
Proof.
  intros Hs Hl Hu Ol Ou.
  assert (exists regions, range_cofactors cmp lower lower_edges upper upper_edges = Some regions /\ regions_ok law good regions /\
    forall k p, in_region law regions k p <->
      paired law (default [(range_full, lower)] lower_edges) (default [(range_full, upper)] upper_edges)
        (if lower_edges is Some _ then lower else NODE_TRUE) (if upper_edges is Some _ then upper else NODE_TRUE) k p)
    as (regions & Er & Hok & Hreg).
  { destruct (range_regions_spec law good cmp Hgood
      (length (default [(range_full, lower)] lower_edges) + length (default [(range_full, upper)] upper_edges))
      (default [(range_full, lower)] lower_edges) (default [(range_full, upper)] upper_edges)
      (if lower_edges is Some _ then lower else NODE_TRUE) (if upper_edges is Some _ then upper else NODE_TRUE) [])
      as (out & E & Ho & Hr); [done|apply Ol|apply Ou|apply Forall_nil_2|].
    exists out. split_and!; [by destruct lower_edges, upper_edges|done|]. intros k p. rewrite Hr.
    split; [|by right]. intros [(r & ?%elem_of_nil & _)|]; done. }
  eapply runs_lift; [exact Er|]. eapply runs_weaken; [by apply region_guards_runs|]. intros out table Ht Hp Hout.
  assert (Hop : forall i edges parent, node_valid (nodes s.1) i -> operand (nodes s.1) i edges parent -> operand table i edges parent).
  { intros i edges parent Hi [H1 H2]. split; [done|]. intros sigma c Ec. rewrite (cofactor_extend (nodes s.1)) by done. by apply H2. }
  by eapply region_cofactors_ok; [by apply Hop|by apply Hop|exact Hok|exact Hreg|].
Qed.
End RangeCofactors.

(** *** The first variable *)

Record first_variable (table : list Node) (lower upper : NodeId) (var : MarkerVariable) : Prop := {
  first_lower : starts table var lower;
  first_upper : starts table var upper;
  first_vars : forall V, all_vars table V lower -> all_vars table V upper -> V var
}.

Lemma first_variable_stable lower upper var : stable (fun table => first_variable table lower upper var).
Proof.
  intros table table' Hok Hok' Hp [[V1 H1] [V2 H2] H3]. split.
  - split; [extend|]. intros node. rewrite (node_at_extend table table') by done. apply H1.
  - split; [extend|]. intros node. rewrite (node_at_extend table table') by done. apply H2.
  - intros V. rewrite !(all_vars_extend table table') by done. apply H3.
Qed.

Lemma full_partition {T : Type} `{!Inhabited T} (law : T -> T -> comparison) `{!OrdLaws law, !RangeOps T, !RangeLaws law} (good : T -> Prop) i :
  line_partition law good [(range_full, i)].
Proof.
  pose proof (range_iter_full (cmp := law)) as Ei. split; [split|].
  - apply Forall_cons_2; [|apply Forall_nil_2]. by exists Unbounded, Unbounded.
  - apply Forall_cons_2; [|apply Forall_nil_2]. unfold range_values. cbn. rewrite Ei. apply Forall_nil_2.
  - constructor; constructor.
  - intros p. rewrite covered_cons, (one_segment_at law _ _ _ _ Ei). done.
Qed.

Lemma full_operand {T : Type} `{!Inhabited T} (law : T -> T -> comparison) `{!OrdLaws law, !RangeOps T, !RangeLaws law} (good : T -> Prop)
    var at_point table i node :
  node_at table i = Some node -> node_var node <> var ->
  operand law good var at_point table i [(range_full, i)] NODE_TRUE.
Proof.
  intros En Hne. split; [by apply full_partition|]. intros sigma c. rewrite (matching_cons law).
  rewrite (one_segment_at law _ _ _ _ (range_iter_full (cmp := law))). intros [= <-].
  unfold cofactor. by rewrite En, decide_False.
Qed.

Lemma edges_operand {T : Type} (law : T -> T -> comparison) `{!RangeOps T} (good : T -> Prop)
    (to_edges : list (range T * NodeId) -> Edges) var at_point table i node edges :
  (forall sigma, edges_select sigma var (to_edges edges) = matching law (at_point sigma) edges) ->
  node_at table i = Some node -> node_var node = var -> node_children node = to_edges edges -> line_partition law good edges ->
  operand law good var at_point table i edges i.
Proof.
  intros Hsel En Hv He Hp. split; [done|]. intros sigma c Ec. unfold cofactor. rewrite En, decide_True by done.
  by rewrite He, Hsel, Ec.
Qed.

Lemma version_operand table i node var :
  table_ok table -> node_at table i = Some node -> edges_kind var (EdgesVersion []) ->
  operand version_cmp_slow comparable var (fun sigma => version_point sigma var) table i
    (default [(range_full, i)] (version_edges node var)) (if version_edges node var is Some _ then i else NODE_TRUE).
Proof.
  intros Hok En Hk. pose proof (node_at_ok _ _ _ Hok En) as [K1 _ _ _ K5]. unfold version_edges. destruct (decide (node_var node = var)) as [E|E].
  - rewrite E in K1. destruct (node_children node) as [edges|edges|high low] eqn:Ec; try (by destruct var).
    by apply (edges_operand version_cmp_slow comparable EdgesVersion _ _ _ _ node).
  - by destruct (node_children node); apply (full_operand version_cmp_slow comparable var _ table i node).
Qed.

Lemma string_operand table i node var :
  table_ok table -> node_at table i = Some node -> edges_kind var (EdgesString []) ->
  operand string_cmp any_string var (fun sigma => string_point sigma var) table i
    (default [(range_full, i)] (string_edges node var)) (if string_edges node var is Some _ then i else NODE_TRUE).
Proof.
  intros Hok En Hk. pose proof (node_at_ok _ _ _ Hok En) as [K1 _ _ _ K5]. unfold string_edges. destruct (decide (node_var node = var)) as [E|E].
  - rewrite E in K1. destruct (node_children node) as [edges|edges|high low] eqn:Ec; try (by destruct var).
    by apply (edges_operand string_cmp any_string EdgesString _ _ _ _ node).
  - by destruct (node_children node); apply (full_operand string_cmp any_string var _ table i node).
Qed.

Lemma cover_cofactors_runs lower upper lower_node upper_node s :
  state_ok L s -> node_valid (nodes s.1) lower -> node_valid (nodes s.1) upper ->
  node_at (nodes s.1) lower = Some lower_node -> node_at (nodes s.1) upper = Some upper_node ->
  runs L (cover_cofactors lower upper) s (fun cofactors table =>
    exists var, first_variable table lower upper var /\ cofactors_ok table var lower upper cofactors).
Proof.
  intros Hs Hl Hu El Eu. pose proof (ok_table _ (proj1 Hs)) as Hok. unfold cover_cofactors.
  destruct (Z.eqb_spec lower upper) as [<-|Hne].
  { apply (runs_get_node L _ lower_node); [done|]. apply runs_ret; [done|]. exists (node_var lower_node).
    assert (Hst : starts (nodes s.1) (node_var lower_node) lower) by (split; [done|]; intros n; rewrite El; intros [= <-]; by left).
    split; [|by apply exact_cofactors_ok]. split; [done..|]. intros V HV _. by apply (all_vars_top _ _ _ _ El). }
  apply (runs_get_node L _ lower_node); [done|]. apply (runs_get_node L _ upper_node); [done|].
  set (var := match variable_cmp _ _ with Gt => _ | _ => _ end).
  assert (Hfirst : first_variable (nodes s.1) lower upper var /\
    exists i node, (if decide (node_var lower_node = var) then lower_node else upper_node) = node /\ node_at (nodes s.1) i = Some node /\ node_var node = var).
  { unfold var. destruct (variable_cmp (node_var lower_node) (node_var upper_node)) eqn:Ec.
    - apply (cmp_exact variable_cmp) in Ec. rewrite decide_True by done. split; [|by exists lower, lower_node].
      split; [split; [done|]; intros n; rewrite El; intros [= <-]; by left
             |split; [done|]; intros n; rewrite Eu; intros [= <-]; by left|]. intros V HV _. by apply (all_vars_top _ _ _ _ El).
    - rewrite decide_True by done. split; [|by exists lower, lower_node].
      split; [split; [done|]; intros n; rewrite El; intros [= <-]; by left
             |split; [done|]; intros n; rewrite Eu; intros [= <-]; by right|]. intros V HV _. by apply (all_vars_top _ _ _ _ El).
    - assert (Hgt := Ec). apply (cmp_gt_lt variable_cmp) in Hgt.
      rewrite decide_False by (intros E; by rewrite E, (cmp_refl variable_cmp) in Hgt). split; [|by exists upper, upper_node].
      split; [split; [done|]; intros n; rewrite El; intros [= <-]; by right
             |split; [done|]; intros n; rewrite Eu; intros [= <-]; by left|]. intros V _ HV. by apply (all_vars_top _ _ _ _ Eu). }
  clearbody var. destruct Hfirst as [Hfirst (i & node & -> & En & Hv)].
  pose proof (ok_kind _ _ _ (node_at_ok _ _ _ Hok En)) as K1. rewrite Hv in K1.
  assert (Hwith : forall m, runs L m s (fun cofactors table => cofactors_ok table var lower upper cofactors) ->
    runs L m s (fun cofactors table => exists var, first_variable table lower upper var /\ cofactors_ok table var lower upper cofactors)).
  { intros m Hm. eapply runs_weaken; [exact Hm|]. intros out table Ht Hp H. exists var. split; [|done].
    by apply (first_variable_stable lower upper var (nodes s.1)). }
  apply Hwith. destruct (node_children node) as [edges|edges|high low].
  - apply (range_cofactors_runs version_cmp_slow comparable version_cmp version_cmp_good EdgesVersion var
      (fun sigma => version_point sigma var) version_valuation); [by intros []| |done..| |].
    + intros r s' Hs' Hg. apply (version_condition_runs L); [done|by destruct var|done].
    + by apply version_operand; [..|destruct var].
    + by apply version_operand; [..|destruct var].
  - apply (range_cofactors_runs string_cmp any_string string_cmp (fun _ _ _ _ => eq_refl) EdgesString var
      (fun sigma => string_point sigma var) string_valuation); [by intros []| |done..| |].
    + intros r s' Hs' _. apply (string_condition_runs L); [done|by destruct var].
    + by apply string_operand; [..|destruct var].
    + by apply string_operand; [..|destruct var].
  - by apply boolean_cofactors_runs.
Qed.
End Cofactors.
