(* ===== verification/CoverFacts.v ===== *)
(** * Markers: covers, verified

    What [crates/uv-pep508/src/marker/algebra/isop.rs] returns: a cover that holds where the marker
    does, in every environment. If at most one platform variable occurs, a cover is returned. *)

From stdpp Require Import base countable list option numbers decidable strings gmap.
From Stdlib Require Import ZArith Lia.
From S2P Require Import Prelude Ranges VersionTypes VersionSmall Version VersionOrder.
From S2P Require Import VersionParser VersionSpecifier MarkerTypes Interner EdgesOrder MarkerAlgebra.
From S2P Require Import Isop MarkerEval InternerFacts EdgesFacts Canonical AlgebraFacts ExclusionFacts.
From S2P Require Import RestrictFacts IsopFacts.

Local Open Scope Z_scope.
Local Open Scope uv_scope.

(** ** The value of a cover *)

Section Values.
Context {RV : RangeOps Version} {RS : RangeOps (list Z)}.

Fixpoint cover_holds (table : list Node) (sigma : Valuation) (cover : Cover) : bool :=
  match cover with
  | CoverFalse => false
  | CoverTrue => true
  | CoverGuard node => eval table sigma node
  | CoverBranches branches =>
      existsb (fun '(g, c) => guard_holds table sigma g && cover_holds table sigma c) branches
  end.

(** The references of a cover are to nodes of the table, and each guard is a condition on one
    variable. *)
Inductive cover_valid (table : list Node) : Cover -> Prop :=
| valid_false : cover_valid table CoverFalse
| valid_true : cover_valid table CoverTrue
| valid_guard node var : node_valid table node -> all_vars table (eq var) node -> cover_valid table (CoverGuard node)
| valid_branches branches :
    (forall g c, (g, c) ∈ branches -> exists var, guard_on table var g) ->
    (forall g c, (g, c) ∈ branches -> cover_valid table c) -> cover_valid table (CoverBranches branches).

Lemma cover_valid_stable cover : stable (fun table => cover_valid table cover).
Proof.
  intros table table' Hok Hok' Hp. induction 1 as [| |node var Hv Ha|branches Hg Hc IH].
  - constructor.
  - constructor.
  - apply (valid_guard _ _ var); [extend|]. by apply (all_vars_extend table table').
  - constructor; [|done]. intros g c [var H]%Hg. exists var. by apply (guard_on_stable var g table).
Qed.

Lemma cover_holds_extend table table' sigma cover :
  table_ok table -> table_ok table' -> table `prefix_of` table' -> cover_valid table cover ->
  cover_holds table' sigma cover = cover_holds table sigma cover.
Proof.
  intros Hok Hok' Hp. induction 1 as [| |node var Hv Ha|branches Hg Hc IH]; [done..|by apply eval_extend|].
  cbn. clear Hc. induction branches as [|[g c] branches IHb]; [done|]. cbn. f_equal.
  - destruct (Hg g c) as [var H]; [by left|]. rewrite (guard_holds_extend table table' var) by done.
    f_equal. apply (IH g). by left.
  - apply IHb; intros g' c' H; [by apply (Hg g' c'); right|by apply (IH g'); right].
Qed.

(** A branch that holds. *)
Definition branch_at (table : list Node) (sigma : Valuation) (branches : list (NodeId * (Guard * Cover))) : Prop :=
  exists k g c, (k, (g, c)) ∈ branches /\ guard_holds table sigma g = true /\ eval table sigma k = true.

(** A branch under its function. *)
Record branch_ok (table : list Node) (var : MarkerVariable) (upper : NodeId) (e : NodeId * (Guard * Cover)) : Prop := {
  branch_guard : guard_on table var e.2.1;
  branch_function : node_valid table e.1;
  branch_cover : cover_valid table e.2.2;
  branch_value : forall sigma, allowed sigma -> cover_holds table sigma e.2.2 = eval table sigma e.1;
  branch_upper : forall sigma, allowed sigma -> guard_holds table sigma e.2.1 = true -> eval table sigma e.1 = true ->
    eval table sigma upper = true
}.

Lemma branch_ok_stable table table' var upper e :
  table_ok table -> table_ok table' -> table `prefix_of` table' -> node_valid table upper ->
  branch_ok table var upper e -> branch_ok table' var upper e.
Proof.
  intros Hok Hok' Hp Hu [H1 H2 H3 H4 H5]. split.
  - by apply (guard_on_stable var _ table).
  - extend.
  - by apply (cover_valid_stable _ table).
  - intros sigma Hs. rewrite (cover_holds_extend table table'), (eval_extend table table') by done. by apply H4.
  - intros sigma Hs. rewrite (guard_holds_extend table table' var), !(eval_extend table table') by done. by apply H5.
Qed.

Lemma branch_at_extend table table' var upper sigma branches :
  table_ok table -> table_ok table' -> table `prefix_of` table' -> Forall (branch_ok table var upper) branches ->
  branch_at table' sigma branches <-> branch_at table sigma branches.
Proof.
  intros Hok Hok' Hp Hb. rewrite Forall_forall in Hb.
  split; intros (k & g & c & Hin & Hg & Hk); exists k, g, c; destruct (Hb _ Hin) as [H1 H2 _ _ _]; cbn in H1, H2;
    rewrite (guard_holds_extend table table' var), (eval_extend table table') in *; done.
Qed.

(** The cover of the branches holds where one of them does. *)
Lemma branches_cover table sigma var upper branches :
  allowed sigma -> Forall (branch_ok table var upper) branches ->
  cover_holds table sigma (CoverBranches branches.*2) = true <-> branch_at table sigma branches.
Proof.
  intros Hs Hb. rewrite Forall_forall in Hb. cbn. rewrite existsb_exists. split.
  - intros ([g c] & Hin%list_elem_of_In & [Hg Hc]%andb_true_iff). apply list_elem_of_fmap in Hin as ([k [g' c']] & [= -> ->] & Hin).
    exists k, g', c'. split_and!; [done..|]. pose proof (branch_value _ _ _ _ (Hb _ Hin) sigma Hs) as E. cbn in E. congruence.
  - intros (k & g & c & Hin & Hg & Hk). exists (g, c). split; [apply list_elem_of_In, list_elem_of_fmap; by exists (k, (g, c))|].
    pose proof (branch_value _ _ _ _ (Hb _ Hin) sigma Hs) as E. cbn in E. by rewrite Hg, E.
Qed.

Lemma branches_valid table var upper branches :
  Forall (branch_ok table var upper) branches -> cover_valid table (CoverBranches branches.*2).
Proof.
  intros Hb. rewrite Forall_forall in Hb.
  constructor; intros g c ([k [g' c']] & [= -> ->] & Hin)%list_elem_of_fmap; destruct (Hb _ Hin) as [H1 _ H3 _ _].
  - by exists var.
  - done.
Qed.

(** The entry of a function is replaced by one with a weaker guard. *)
Lemma index_insert_branch table sigma branches k g c :
  (forall g' c', index_get branches k = Some (g', c') -> guard_holds table sigma g' = true -> eval table sigma k = true ->
    guard_holds table sigma g = true) ->
  branch_at table sigma (index_insert branches k (g, c)) <->
  branch_at table sigma branches \/ (guard_holds table sigma g = true /\ eval table sigma k = true).
Proof.
  intros Hold. split.
  - intros (k' & g' & c' & [[= -> -> ->]|Hin]%index_insert_elem & Hg & Hk); [by right|left]. by exists k', g', c'.
  - intros [(k' & g' & c' & Hin & Hg & Hk)|[Hg Hk]]; [|exists k, g, c; split; [apply index_insert_here|done]].
    destruct (index_insert_other branches k (g, c) _ Hin) as [H|[E Hget]]; [by exists k', g', c'|]. cbn in E, Hget. subst k'.
    exists k, g, c. split; [apply index_insert_here|]. split; [by apply (Hold g' c')|done].
Qed.
End Values.

(** ** Covers between bounds *)

Section Bounds.
Context {RV : RangeOps Version} {RS : RangeOps (list Z)}.
Context {LV : RangeLaws version_cmp_slow} {LS : RangeLaws string_cmp}.

(** What [isop_cached] returns for its bounds. *)
Record cover_of (bounds : NodeId * NodeId) (result : NodeId * Cover) (table : list Node) : Prop := {
  cover_bounds : node_valid table bounds.1 /\ node_valid table bounds.2;
  cover_function : node_valid table result.1;
  cover_vars : forall V, all_vars table V bounds.1 -> all_vars table V bounds.2 -> all_vars table V result.1;
  cover_shape : cover_valid table result.2;
  cover_value : forall sigma, allowed sigma -> cover_holds table sigma result.2 = eval table sigma result.1;
  cover_lower : forall sigma, allowed sigma -> eval table sigma bounds.1 = true -> eval table sigma result.1 = true;
  cover_upper : forall sigma, allowed sigma -> eval table sigma result.1 = true -> eval table sigma bounds.2 = true
}.

Lemma cover_of_stable bounds result : stable (cover_of bounds result).
Proof.
  intros table table' Hok Hok' Hp [[B1 B2] H1 H2 H3 H4 H5 H6]. split.
  - split; extend.
  - extend.
  - intros V. rewrite !(all_vars_extend table table') by done. apply H2.
  - by apply (cover_valid_stable _ table).
  - intros sigma Hs. rewrite (cover_holds_extend table table'), (eval_extend table table') by done. by apply H4.
  - intros sigma Hs. rewrite !(eval_extend table table') by done. by apply H5.
  - intros sigma Hs. rewrite !(eval_extend table table') by done. by apply H6.
Qed.

(** *** One platform variable *)

(** At most one of the variables is about the platform. *)
Definition one_platform (l : list MarkerVariable) : Prop :=
  forall v w, v ∈ l -> w ∈ l -> is_conflicting_variable v = true -> is_conflicting_variable w = true -> v = w.

(** Keep the variables of the list, and no platform otherwise. *)
Definition tame (l : list MarkerVariable) (sigma : Valuation) : Valuation :=
  mkValuation (version_at sigma)
    (fun var => if is_conflicting_variable var && negb (bool_decide (var ∈ l)) then [] else string_at sigma var)
    (bool_at sigma)
    (fun var => if is_conflicting_variable var && negb (bool_decide (var ∈ l)) then 0 else offset_at sigma var).

Lemma exclusion_pairs_conflict :
  Forall (fun p => p.1.1 <> p.2.1 /\ is_conflicting p.1.1 = true /\ is_conflicting p.2.1 = true /\ p.1.2 <> [] /\ p.2.2 <> []) exclusion_pairs.
Proof.
  assert (H : forallb (fun p => bool_decide (p.1.1 <> p.2.1) && is_conflicting p.1.1 && is_conflicting p.2.1 &&
    bool_decide (p.1.2 <> []) && bool_decide (p.2.2 <> [])) exclusion_pairs = true) by (vm_compute; reflexivity).
  apply Forall_forall. intros p Hp%list_elem_of_In. rewrite forallb_forall in H. specialize (H p Hp). cbn in H.
  rewrite !andb_true_iff, !bool_decide_eq_true in H. tauto.
Qed.

Lemma tame_allowed l sigma : one_platform l -> allowed (tame l sigma).
Proof.
  intros Hone. unfold allowed, excluded. apply not_true_iff_false. intros (p & Hp%list_elem_of_In & [H1 H2]%andb_true_iff)%existsb_exists.
  pose proof exclusion_pairs_conflict as Hc. rewrite Forall_forall in Hc. destruct (Hc p Hp) as (Hne & C1 & C2 & N1 & N2).
  assert (Hin : forall q, is_conflicting q.1 = true -> q.2 <> [] -> holds_equal (tame l sigma) q = true -> VarString q.1 ∈ l).
  { intros q Cq Nq Hq%bool_decide_eq_true. injection Hq as Hq _. cbn in Hq. rewrite Cq in Hq.
    destruct (decide (VarString q.1 ∈ l)) as [?|Hn]; [done|]. rewrite bool_decide_eq_false_2 in Hq by done. cbn in Hq. congruence. }
  apply Hne. assert (E : VarString p.1.1 = VarString p.2.1) by (apply Hone; [by apply Hin|by apply Hin|done|done]).
  by injection E.
Qed.

Lemma tame_eval table l sigma i :
  table_ok table -> node_valid table i -> all_vars table (fun v => v ∈ l) i -> eval table (tame l sigma) i = eval table sigma i.
Proof.
  intros Hok Hi Ha. apply eval_agree; [done..|]. eapply all_vars_weaken; [|exact Ha]. intros v Hv. cbn in Hv.
  split_and!; cbn; [done| |done|]; by rewrite bool_decide_eq_true_2, andb_false_r.
Qed.

(** What holds in the environments holds everywhere. *)
Lemma tame_implies table l x y :
  table_ok table -> node_valid table x -> node_valid table y -> one_platform l ->
  all_vars table (fun v => v ∈ l) x -> all_vars table (fun v => v ∈ l) y ->
  (forall sigma, allowed sigma -> eval table sigma x = true -> eval table sigma y = true) ->
  forall sigma, eval table sigma x = true -> eval table sigma y = true.
Proof.
  intros Hok Hx Hy Hone Ax Ay H sigma. rewrite <- (tame_eval table l sigma x), <- (tame_eval table l sigma y) by done.
  by apply H, tame_allowed.
Qed.

(** Bounds on which the extraction returns: they have the variables [l], and are in order. *)
Record ready (l : list MarkerVariable) (lower upper : NodeId) (table : list Node) : Prop := {
  ready_one : one_platform l;
  ready_lower : all_vars table (fun v => v ∈ l) lower;
  ready_upper : all_vars table (fun v => v ∈ l) upper;
  ready_order : forall sigma, allowed sigma -> eval table sigma lower = true -> eval table sigma upper = true
}.

(** Such bounds are nodes, unless there is nothing to do. *)
Lemma ready_nodes l lower upper table :
  table_ok table -> node_valid table lower -> node_valid table upper -> ready l lower upper table ->
  node_is_false lower = false -> node_is_true upper = false ->
  (exists node, node_at table lower = Some node) /\ exists node, node_at table upper = Some node.
Proof.
  intros Hok Hl Hu [R1 R2 R3 R4] Fl Tu. pose proof (tame_implies table l lower upper Hok Hl Hu R1 R2 R3 R4) as Himp.
  split.
  - destruct (node_is_true lower) eqn:Tl; [|by destruct (node_valid_at _ _ Hl Tl Fl) as (node & En & _); exists node].
    exfalso. apply node_is_true_spec in Tl as ->. apply not_true_iff_false in Tu. apply Tu, node_is_true_spec.
    apply (canonical_true table Hok upper Hu). intros sigma. by apply Himp.
  - destruct (node_is_false upper) eqn:Fu; [|by destruct (node_valid_at _ _ Hu Tu Fu) as (node & En & _); exists node].
    exfalso. apply node_is_false_spec in Fu as ->. apply not_true_iff_false in Fl. apply Fl, node_is_false_spec.
    apply (canonical_false table Hok lower Hl). intros sigma. apply not_true_iff_false. by intros H%Himp.
Qed.

(** The cofactors of such bounds are in order, and have the variables that are left. *)
Lemma ready_cofactors l lower upper table var cofactors g lo up :
  table_ok table -> ready l lower upper table -> first_variable table lower upper var ->
  cofactors_ok table var lower upper cofactors -> (g, (lo, up)) ∈ cofactors -> ready (later var l) lo up table.
Proof.
  intros Hok [R1 R2 R3 R4] [F1 F2 _] Hc Hin. destruct (cofactors_region _ _ _ _ _ Hc _ _ _ Hin) as (tau & -> & ->).
  pose proof (tame_implies table l lower upper Hok (proj1 F1) (proj1 F2) R1 R2 R3 R4) as Himp.
  assert (Hlater : forall i, starts table var i -> all_vars table (fun v => v ∈ l) i ->
    all_vars table (fun v => v ∈ later var l) (cofactor table var i tau)).
  { intros i Hs Ha. destruct (cofactor_before table Hok var i Hs tau) as [Hv Hb].
    pose proof (cofactor_vars table Hok var i Hs tau _ Ha) as Ha'. rewrite before_all_vars in Hb by done.
    eapply all_vars_weaken; [|by apply (all_vars_and _ _ _ _ Ha' Hb)]. intros v. by rewrite later_elem. }
  split; [|by apply Hlater|by apply Hlater|].
  - intros v w [Hv _]%later_elem [Hw _]%later_elem. by apply R1.
  - intros sigma _. rewrite <- !(cofactor_redirect table Hok var _) by done. apply Himp.
Qed.
End Bounds.

(** ** The branches *)

Section Branches.
Context {RV : RangeOps Version} {RS : RangeOps (list Z)}.
Context {LV : RangeLaws version_cmp_slow} {LS : RangeLaws string_cmp}.

(** A disjunction of nodes of the table. *)
Definition or_of (x y r : NodeId) (table : list Node) : Prop :=
  node_valid table x /\ node_valid table y /\ is_or allowed table x y r.

Lemma or_of_stable x y r : stable (or_of x y r).
Proof.
  intros table table' Hok Hok' Hp (Hx & Hy & [H1 H2 H3]). split_and!; [extend..|]. split; [extend| |].
  - intros sigma Hs. rewrite !(eval_extend table table') by done. by apply H2.
  - intros P. rewrite !(all_vars_extend table table') by done. apply H3.
Qed.

Context {C : Type} (L : C -> list Node -> Prop) {HL : LocalInvariant L}.

Lemma or_of_runs x y s :
  state_ok L s -> node_valid (nodes s.1) x -> node_valid (nodes s.1) y -> runs L (or x y) s (or_of x y).
Proof.
  intros Hs Hx Hy. eapply runs_weaken; [by apply or_runs|]. intros r table Ht Hp Hr. split_and!; [extend..|done].
Qed.

(** [add_branch]: one more branch. *)
Lemma add_branch_runs var upper branches specific guard cover s :
  state_ok L s -> node_valid (nodes s.1) upper ->
  Forall (branch_ok (nodes s.1) var upper) branches -> branch_ok (nodes s.1) var upper (specific, (guard, cover)) ->
  runs L (add_branch branches specific guard cover) s (fun branches' table =>
    Forall (branch_ok table var upper) branches' /\
    forall sigma, allowed sigma -> branch_at table sigma branches' <->
      branch_at table sigma branches \/ (guard_holds table sigma guard = true /\ eval table sigma specific = true)).
Proof.
  intros Hs Hu Hb Hnew. pose proof (ok_table _ (proj1 Hs)) as Hok. unfold add_branch.
  destruct (index_get branches specific) as [[previous shared]|] eqn:Eget.
  - pose proof (index_get_elem _ _ _ Eget) as Hin. assert (Hold := proj1 (Forall_forall _ _) Hb _ Hin).
    eapply runs_bind; [apply (guard_node_runs L var); [done|apply Hold]|]. intros i s1 Hs1 Hp1 [Mi Vi].
    pose proof (ok_table _ (proj1 Hs1)) as Hok1.
    eapply runs_bind; [apply (guard_node_runs L var); [done|]|].
    { apply (guard_on_stable var guard (nodes s.1)); [done..|]. apply Hnew. }
    intros j s2 Hs2 Hp2 [Mj Vj]. pose proof (ok_table _ (proj1 Hs2)) as Hok2.
    eapply runs_bind; [apply or_of_runs; [done|destruct Mi as [Mi _]; extend|apply Mj]|].
    intros u s3 Hs3 Hp3 (V1 & V2 & [U1 U2 U3]). pose proof (ok_table _ (proj1 Hs3)) as Hok3. apply runs_ret; [done|].
    assert (P2 : nodes s.1 `prefix_of` nodes s2.1) by by etransitivity.
    assert (P3 : nodes s.1 `prefix_of` nodes s3.1) by by etransitivity.
    assert (Hval : forall sigma, allowed sigma ->
      eval (nodes s3.1) sigma u = guard_holds (nodes s3.1) sigma previous || guard_holds (nodes s3.1) sigma guard).
    { intros sigma Ha. rewrite (U2 _ Ha). f_equal.
      - rewrite (eval_extend (nodes s1.1)), (proj2 Mi) by (done || apply Mi || by etransitivity).
        symmetry. apply (guard_holds_extend _ _ var); [done..|apply Hold].
      - rewrite (eval_extend (nodes s2.1)), (proj2 Mj) by (done || apply Mj).
        rewrite (guard_holds_extend (nodes s1.1) (nodes s3.1) var); [done|done|done|by etransitivity|].
        apply (guard_on_stable var guard (nodes s.1)); [done..|]. apply Hnew. }
    pose proof (branch_ok_stable _ _ _ _ _ Hok Hok3 P3 Hu Hold) as Hold3.
    pose proof (branch_ok_stable _ _ _ _ _ Hok Hok3 P3 Hu Hnew) as Hnew3.
    split.
    + apply Forall_forall. intros e [->|He]%index_insert_elem.
      * destruct Hold3 as [O1 O2 O3 O4 O5], Hnew3 as [_ _ _ _ N5]. split; cbn in *; [|done..|].
        -- split; [done|]. apply U3; [by apply (all_vars_extend (nodes s1.1)); [done|by etransitivity|apply Mi|]
                                     |by apply (all_vars_extend (nodes s2.1)); [done|done|apply Mj|]].
        -- intros sigma Ha. rewrite (Hval _ Ha). intros [Hg|Hg]%orb_true_iff; [by apply O5|by apply N5].
      * rewrite Forall_forall in Hb. by apply (branch_ok_stable (nodes s.1)), Hb.
    + intros sigma Ha. rewrite index_insert_branch; cbn.
      * rewrite (Hval _ Ha), orb_true_iff. split; [|tauto]. intros [?|[[Hg|Hg] Hk]]; [by left|left|by right].
        by exists specific, previous, shared.
      * intros g' c'. rewrite Eget. intros [= <- <-] Hg _. by rewrite (Hval _ Ha), Hg.
  - apply runs_ret; [done|]. split.
    + apply Forall_forall. intros e [->|He]%index_insert_elem; [done|]. rewrite Forall_forall in Hb. by apply Hb.
    + intros sigma _. apply index_insert_branch. by rewrite Eget.
Qed.
End Branches.

(** ** The loop over the cofactors *)

Section Loop.
Context {RV : RangeOps Version} {RS : RangeOps (list Z)}.
Context {LV : RangeLaws version_cmp_slow} {LS : RangeLaws string_cmp}.
Context (base : list Node) (Hbase : table_ok base) (lower upper : NodeId) (var : MarkerVariable).
Context (Hfirst : first_variable base lower upper var).
Context (cofactors : list (Guard * (NodeId * NodeId))) (Hcof : cofactors_ok base var lower upper cofactors).

(** The variables of the cofactors. *)
Definition left_vars (V : MarkerVariable -> Prop) : Prop :=
  forall g lo up, (g, (lo, up)) ∈ cofactors -> all_vars base V lo /\ all_vars base V up.

Lemma cofactor_refs g lo up : (g, (lo, up)) ∈ cofactors -> node_valid base lo /\ node_valid base up.
Proof.
  intros (tau & -> & ->)%(cofactors_region _ _ _ _ _ Hcof). destruct Hfirst as [F1 F2 _].
  split; by apply cofactor_before.
Qed.

Lemma left_vars_bounds V : all_vars base V lower -> all_vars base V upper -> left_vars V.
Proof.
  intros H1 H2 g lo up (tau & -> & ->)%(cofactors_region _ _ _ _ _ Hcof). destruct Hfirst as [F1 F2 _].
  split; by apply cofactor_vars.
Qed.

Section Table.
Context (table : list Node) (Hok : table_ok table) (Hp : base `prefix_of` table).

Lemma left_vars_at V g lo up : left_vars V -> (g, (lo, up)) ∈ cofactors -> all_vars table V lo /\ all_vars table V up.
Proof.
  intros HV Hin. destruct (cofactor_refs _ _ _ Hin) as [R1 R2].
  split; apply (all_vars_extend base table); try done; by apply (HV g lo up).
Qed.

(** Where the guard holds, the cofactor is the marker. *)
Lemma cofactor_value sigma g lo up :
  (g, (lo, up)) ∈ cofactors -> guard_holds table sigma g = true ->
  eval table sigma lower = eval table sigma lo /\ eval table sigma upper = eval table sigma up.
Proof.
  intros Hin Hg. destruct Hfirst as [F1 F2 _]. destruct (cofactor_refs _ _ _ Hin) as [R1 R2].
  rewrite (guard_holds_extend base table var) in Hg by (done || by apply (cofactors_guard _ _ _ _ _ Hcof _ _ _ Hin)).
  destruct (cofactors_holds _ _ _ _ _ Hcof _ _ _ _ Hin Hg) as [El Eu].
  rewrite !(eval_extend base table) by (done || apply F1 || apply F2).
  rewrite El, Eu. split; by apply cofactor_eval.
Qed.

(** Somewhere a guard holds, unless nothing is required. *)
Lemma cofactor_somewhere sigma :
  exists g lo up, (g, (lo, up)) ∈ cofactors /\ eval table sigma upper = eval table sigma up /\
    (eval table sigma lower = true -> guard_holds table sigma g = true /\ eval table sigma lo = true).
Proof.
  destruct Hfirst as [F1 F2 _]. destruct (cofactors_cover _ _ _ _ _ Hcof sigma) as (g & Hin & Hg).
  exists g, (cofactor base var lower sigma), (cofactor base var upper sigma). destruct (cofactor_refs _ _ _ Hin) as [R1 R2].
  rewrite !(eval_extend base table) by (done || apply F1 || apply F2).
  rewrite <- !cofactor_eval by done. split_and!; [done..|]. intros Hl.
  rewrite (guard_holds_extend base table var) by (done || by apply (cofactors_guard _ _ _ _ _ Hcof _ _ _ Hin)).
  split; [|done]. destruct Hg as [Hg|Hf]; [done|]. exfalso. rewrite (cofactor_eval base Hbase var lower F1), Hf in Hl.
  by rewrite eval_false in Hl.
Qed.
End Table.

(** The bound of what is common to the branches. *)
Record common_ok (seen : list (Guard * (NodeId * NodeId))) (common : NodeId) (table : list Node) : Prop := {
  common_valid : node_valid table common;
  common_vars : forall V, left_vars V -> all_vars table V common;
  common_below : forall sigma, allowed sigma -> eval table sigma common = true ->
    forall g lo up, (g, (lo, up)) ∈ seen -> eval table sigma up = true
}.

Lemma common_ok_stable common table table' :
  table_ok table -> table_ok table' -> base `prefix_of` table -> table `prefix_of` table' ->
  common_ok cofactors common table -> common_ok cofactors common table'.
Proof.
  intros Hok Hok' Hb Hp [H1 H2 H3]. split.
  - extend.
  - intros V HV. by apply (all_vars_extend table table'); [..|apply H2].
  - intros sigma Ha. rewrite (eval_extend table table') by done. intros Hc g lo up Hin.
    destruct (cofactor_refs _ _ _ Hin) as [R1 R2]. rewrite (eval_extend table table') by (done || extend). by apply (H3 sigma Ha Hc g lo).
Qed.

Lemma common_upper table common :
  table_ok table -> base `prefix_of` table -> common_ok cofactors common table ->
  forall sigma, allowed sigma -> eval table sigma common = true -> eval table sigma upper = true.
Proof.
  intros Hok Hp [_ _ H3] sigma Ha Hc. destruct (cofactor_somewhere table Hok Hp sigma) as (g & lo & up & Hin & -> & _).
  by apply (H3 sigma Ha Hc g lo).
Qed.

Lemma common_bound_runs {C : Type} (L : C -> list Node -> Prop) {HL : LocalInvariant L} seen rest common s :
  state_ok L s -> base `prefix_of` nodes s.1 -> seen ++ rest = cofactors -> common_ok seen common (nodes s.1) ->
  runs L (common_bound rest common) s (common_ok cofactors).
Proof.
  revert seen common s. induction rest as [|[g [lo up]] rest IH]; intros seen common s Hs Hp Hsplit Hc; cbn [common_bound].
  - rewrite app_nil_r in Hsplit. subst seen. by apply runs_ret.
  - assert (Hin : (g, (lo, up)) ∈ cofactors) by (rewrite <- Hsplit; set_solver).
    destruct (cofactor_refs _ _ _ Hin) as [R1 R2]. pose proof (ok_table _ (proj1 Hs)) as Hok. destruct Hc as [H1 H2 H3].
    eapply runs_bind; [apply (and_runs L); [done|done|extend]|]. intros r s' Hs' Hp' (_ & _ & [A1 A2 A3]).
    pose proof (ok_table _ (proj1 Hs')) as Hok'.
    apply (IH (seen ++ [(g, (lo, up))])); [done|by etransitivity|by rewrite <- app_assoc|]. split; [done| |].
    + intros V HV. apply A3; [apply (all_vars_extend (nodes s.1)); [done|done|done|by apply H2]|].
      apply (left_vars_at (nodes s'.1) ltac:(by etransitivity) V g lo up HV Hin).
    + intros sigma Ha. rewrite (A2 _ Ha), andb_true_iff. intros [Hcm Hup] g' lo' up' [Hseen|E%list_elem_of_singleton]%elem_of_app.
      * assert (Hin' : (g', (lo', up')) ∈ cofactors) by (rewrite <- Hsplit; set_solver).
        destruct (cofactor_refs _ _ _ Hin') as [R1' R2'].
        rewrite (eval_extend (nodes s.1)) in Hcm by done. rewrite (eval_extend (nodes s.1)) by (done || extend).
        by apply (H3 sigma Ha Hcm g' lo').
      * by injection E as -> -> ->.
Qed.

(** *** What the loop has done *)

Context (exact : bool) (common : NodeId).

Record loop_ok (seen : list (Guard * (NodeId * NodeId))) (rest function : NodeId)
    (branches : list (NodeId * (Guard * Cover))) (table : list Node) : Prop := {
  loop_rest : node_valid table rest;
  loop_function : node_valid table function;
  loop_rest_vars : forall V, left_vars V -> all_vars table V rest;
  loop_function_vars : forall V, V var -> left_vars V -> all_vars table V function;
  loop_branches : Forall (branch_ok table var upper) branches;
  loop_order : forall sigma, allowed sigma -> eval table sigma rest = true -> eval table sigma common = true;
  loop_covered : forall sigma g lo up, allowed sigma -> (g, (lo, up)) ∈ seen ->
    guard_holds table sigma g = true -> eval table sigma lo = true ->
    eval table sigma rest = true \/ branch_at table sigma branches;
  loop_value : exact = false -> forall sigma, allowed sigma ->
    eval table sigma function = true <-> branch_at table sigma branches
}.

Lemma loop_start table : loop_ok [] NODE_FALSE NODE_FALSE [] table.
Proof.
  split; [apply false_valid..| | | | | |].
  - intros V _. apply all_vars_true. by right.
  - intros V _ _. apply all_vars_true. by right.
  - apply Forall_nil_2.
  - done.
  - by intros sigma g lo up _ ?%elem_of_nil.
  - intros _ sigma _. rewrite eval_false. split; [done|]. by intros (k & g & c & ?%elem_of_nil & _).
Qed.

Lemma loop_stable seen rest function branches table table' :
  table_ok table -> table_ok table' -> base `prefix_of` table -> table `prefix_of` table' -> node_valid table common ->
  seen ⊆ cofactors -> loop_ok seen rest function branches table -> loop_ok seen rest function branches table'.
Proof.
  intros Hok Hok' Hb Hp Hc Hseen [H1 H2 H3 H4 H5 H6 H7 H8].
  assert (Hu : node_valid table upper) by (destruct Hfirst as [_ [F2 _] _]; extend). split.
  - extend.
  - extend.
  - intros V HV. by apply (all_vars_extend table table'); [..|apply H3].
  - intros V Hv HV. by apply (all_vars_extend table table'); [..|apply H4].
  - eapply Forall_impl; [exact H5|]. intros e. by apply branch_ok_stable.
  - intros sigma Ha. rewrite !(eval_extend table table') by done. by apply H6.
  - intros sigma g lo up Ha Hin. destruct (cofactor_refs g lo up) as [R1 R2]; [by apply Hseen|].
    rewrite (guard_holds_extend table table' var), !(eval_extend table table') by
      (done || extend || by apply (guard_on_stable var g base), (cofactors_guard _ _ _ _ _ Hcof g lo up), Hseen).
    rewrite (branch_at_extend table table' var upper) by done. by apply (H7 sigma g lo up).
  - intros He sigma Ha. rewrite (eval_extend table table'), (branch_at_extend table table' var upper) by done. by apply H8.
Qed.

(** One more cofactor: what it requires beyond the common bound is covered, and what its cover leaves is common. *)
Lemma loop_step seen rest function branches table g lo up required specific cover remaining rest' function' branches' :
  table_ok table -> base `prefix_of` table -> (g, (lo, up)) ∈ cofactors -> common_ok cofactors common table ->
  loop_ok seen rest function branches table ->
  and_of allowed lo (node_not common) required table -> cover_of (required, up) (specific, cover) table ->
  and_of allowed lo (node_not specific) remaining table -> or_of rest remaining rest' table ->
  node_valid table function' -> (forall V, V var -> left_vars V -> all_vars table V function') ->
  Forall (branch_ok table var upper) branches' ->
  (forall sigma, allowed sigma -> branch_at table sigma branches' <->
    branch_at table sigma branches \/ (guard_holds table sigma g = true /\ eval table sigma specific = true)) ->
  (exact = false -> forall sigma, allowed sigma -> eval table sigma function' = true <->
    eval table sigma function = true \/ (guard_holds table sigma g = true /\ eval table sigma specific = true)) ->
  loop_ok (seen ++ [(g, (lo, up))]) rest' function' branches' table.
Proof.
  intros Hok Hp Hin Hcommon [H1 H2 H3 H4 H5 H6 H7 H8] (_ & Vc & [A1 A2 A3]) [_ S1 S2 _ _ S5 S6] (_ & _ & [B1 B2 B3])
    (_ & _ & [O1 O2 O3]) F1 F2 HB Hbranch Hfun. cbn in *.
  assert (Hcv : node_valid table common) by apply Hcommon.
  assert (Hrem : forall sigma, allowed sigma -> eval table sigma remaining = eval table sigma lo && negb (eval table sigma specific)).
  { intros sigma Ha. by rewrite (B2 _ Ha), eval_not by done. }
  split; try done.
  - intros V HV. destruct (left_vars_at table Hp V g lo up HV Hin) as [L1 L2].
    pose proof (common_vars _ _ _ Hcommon V HV) as L3.
    apply O3; [by apply H3|]. apply B3; [done|]. apply all_vars_not; [apply S1|].
    apply S2; [|done]. apply A3; [done|]. apply all_vars_not; [apply Hcv|done].
  - intros sigma Ha. rewrite (O2 _ Ha), (Hrem _ Ha). intros [Hr|[Hlo Hs]%andb_true_iff]%orb_true_iff; [by apply H6|].
    apply negb_true_iff in Hs. destruct (eval table sigma common) eqn:Ec; [done|]. rewrite <- Hs. apply (S5 _ Ha).
    by rewrite (A2 _ Ha), eval_not, Hlo, Ec.
  - intros sigma g' lo' up' Ha Hin' Hg Hlo. rewrite (O2 _ Ha), (Hbranch _ Ha), orb_true_iff, (Hrem _ Ha), andb_true_iff, negb_true_iff.
    apply elem_of_app in Hin' as [Hs|E%list_elem_of_singleton].
    + destruct (H7 sigma g' lo' up' Ha Hs Hg Hlo); tauto.
    + injection E as -> -> ->. destruct (eval table sigma specific); tauto.
  - intros He sigma Ha. by rewrite (Hfun He _ Ha), (H8 He _ Ha), (Hbranch _ Ha).
Qed.

(** The branch of a cofactor. *)
Lemma specific_branch table g lo up required specific cover :
  table_ok table -> base `prefix_of` table -> (g, (lo, up)) ∈ cofactors ->
  cover_of (required, up) (specific, cover) table -> branch_ok table var upper (specific, (g, cover)).
Proof.
  intros Hok Hp Hin [_ S1 _ S3 S4 _ S6]. split; cbn; [|done..|].
  - by apply (guard_on_stable var g base), (cofactors_guard _ _ _ _ _ Hcof g lo up).
  - intros sigma Ha Hg Hs. destruct (cofactor_value table Hok Hp sigma g lo up Hin Hg) as [_ ->]. by apply S6.
Qed.
End Loop.

(** ** Extraction *)

Section Extract.
Context {RV : RangeOps Version} {RS : RangeOps (list Z)}.
Context {LV : RangeLaws version_cmp_slow} {LS : RangeLaws string_cmp}.

Notation cover_local := (caches (K := Z * Z) (V := Z * Cover) cover_of).

#[local] Instance cover_local_invariant : LocalInvariant cover_local.
Proof. apply caches_local, cover_of_stable. Qed.

Lemma ready_stable l lower upper table table' :
  table_ok table -> table_ok table' -> table `prefix_of` table' -> node_valid table lower -> node_valid table upper ->
  ready l lower upper table -> ready l lower upper table'.
Proof.
  intros Hok Hok' Hp Hl Hu [R1 R2 R3 R4]. split; [done| | |].
  - by apply (all_vars_extend table table').
  - by apply (all_vars_extend table table').
  - intros sigma. rewrite !(eval_extend table table') by done. apply R4.
Qed.

(** When [T] holds, the extraction returns. *)
Context (T : Prop).

Section Expansion.
Context (base : list Node) (Hbase : table_ok base) (lower upper : NodeId) (var : MarkerVariable).
Context (Hfirst : first_variable base lower upper var).
Context (cofactors : list (Guard * (NodeId * NodeId))) (Hcof : cofactors_ok base var lower upper cofactors).
Context (l : list MarkerVariable) (Hready : T -> ready l lower upper base).
Context (isop : NodeId -> NodeId -> M cover_cache (NodeId * Cover)).
Context (Hisop : forall lo up s, state_ok cover_local s -> node_valid (nodes s.1) lo -> node_valid (nodes s.1) up ->
  (T -> ready (later var l) lo up (nodes s.1)) -> outcome cover_local T (isop lo up) s (cover_of (lo, up))).

Lemma left_vars_later : T -> left_vars base cofactors (fun v => v ∈ later var l).
Proof. intros Ht g lo up Hin. destruct (ready_cofactors l lower upper base var cofactors g lo up) as [_ ? ? _]; try done. by apply Hready. Qed.

(** What a cofactor requires is below it. *)
Lemma required_ready table common g lo up required :
  table_ok table -> base `prefix_of` table -> (g, (lo, up)) ∈ cofactors -> common_ok base cofactors cofactors common table ->
  and_of allowed lo (node_not common) required table -> T -> ready (later var l) required up table.
Proof.
  intros Hok Hp Hin Hc (_ & _ & [_ A2 A3]) Ht.
  destruct (cofactor_refs base Hbase lower upper var Hfirst cofactors Hcof g lo up Hin) as [R1 R2].
  assert (Hr : ready (later var l) lo up table).
  { apply (ready_stable _ _ _ base); [done..|]. by apply (ready_cofactors l lower upper base var cofactors g); [| apply Hready|..]. }
  destruct Hr as [Q1 Q2 Q3 Q4]. split; [done| |done|].
  - apply A3; [done|]. apply all_vars_not; [apply (common_valid _ _ _ _ _ Hc)|]. by apply (common_vars _ _ _ _ _ Hc), left_vars_later.
  - intros sigma Ha. rewrite (A2 _ Ha), andb_true_iff. intros [Hlo _]. by apply Q4.
Qed.

(** The function of the branches, unless the bounds determine it. *)
Lemma function_runs (exact : bool) function g lo up specific s :
  state_ok cover_local s -> base `prefix_of` nodes s.1 -> (g, (lo, up)) ∈ cofactors ->
  node_valid (nodes s.1) function -> node_valid (nodes s.1) specific ->
  runs cover_local
    (if exact then ret function
     else let! condition := guard_node g in let! term := and condition specific in or function term) s
    (fun function' table => node_valid table function' /\
      (forall V, V var -> all_vars table V function -> all_vars table V specific -> all_vars table V function') /\
      (exact = false -> forall sigma, allowed sigma -> eval table sigma function' = true <->
        eval table sigma function = true \/ (guard_holds table sigma g = true /\ eval table sigma specific = true))).
Proof.
  intros Hs Hp Hin Hf Hsp. pose proof (ok_table _ (proj1 Hs)) as Hok. destruct exact; [by apply runs_ret|].
  assert (Hg : guard_on (nodes s.1) var g) by (apply (guard_on_stable var g base); [done..|]; by apply (cofactors_guard _ _ _ _ _ Hcof g lo up)).
  eapply runs_bind; [by apply (guard_node_runs cover_local var)|]. intros i s1 Hs1 Hp1 [[Vi Mi] Ai].
  pose proof (ok_table _ (proj1 Hs1)) as Hok1.
  eapply runs_bind; [apply (and_runs cover_local); [done|done|extend]|]. intros t s2 Hs2 Hp2 (_ & _ & [T1 T2 T3]).
  pose proof (ok_table _ (proj1 Hs2)) as Hok2.
  eapply runs_weaken; [apply (or_of_runs cover_local); [done|extend|done]|]. intros r table Ht Hpt (_ & _ & [O1 O2 O3]).
  assert (Hp02 : nodes s.1 `prefix_of` table) by (etransitivity; [exact Hp1|by etransitivity]).
  assert (Hp1t : nodes s1.1 `prefix_of` table) by by etransitivity.
  split_and!; [done| |].
  - intros V Hv Hvf Hvs. apply O3; [done|]. apply (all_vars_extend (nodes s2.1)); [done..|]. apply T3.
    + apply (all_vars_extend (nodes s1.1)); [done..|]. eapply all_vars_weaken; [|exact Ai]. by intros v <-.
    + apply (all_vars_extend (nodes s2.1) table); [done|done|extend|done].
  - intros _ sigma Ha. rewrite (O2 _ Ha), orb_true_iff, (eval_extend (nodes s2.1) table sigma t), (T2 _ Ha), andb_true_iff by done.
    rewrite (eval_extend (nodes s1.1) (nodes s2.1) sigma i), (Mi sigma I) by done.
    rewrite (guard_holds_extend (nodes s.1) table var) by done.
    by rewrite (eval_extend (nodes s2.1) table sigma specific) by (done || extend).
Qed.

(** What was computed for a cofactor. *)
Definition step_of (common : NodeId) (lo up rest required : NodeId) (result : NodeId * Cover) (remaining rest' : NodeId)
    (table : list Node) : Prop :=
  and_of allowed lo (node_not common) required table /\ cover_of (required, up) result table /\
  and_of allowed lo (node_not result.1) remaining table /\ or_of rest remaining rest' table.

Lemma step_of_stable common lo up rest required result remaining rest' :
  stable (step_of common lo up rest required result remaining rest').
Proof.
  intros table table' Hok Hok' Hp (H1 & H2 & H3 & H4).
  split_and!; [by apply (and_of_stable _ _ _ _ table)|by apply (cover_of_stable _ _ table)
              |by apply (and_of_stable _ _ _ _ table)|by apply (or_of_stable _ _ _ table)].
Qed.

Notation loop := (loop_ok base upper var cofactors).

Lemma step_vars common lo up rest required result remaining rest' g table V :
  base `prefix_of` table -> (g, (lo, up)) ∈ cofactors -> common_ok base cofactors cofactors common table ->
  step_of common lo up rest required result remaining rest' table -> left_vars base cofactors V -> all_vars table V result.1.
Proof.
  intros Hp Hin Hc ((_ & _ & [_ _ A3]) & [_ _ S3 _ _ _ _] & _) HV.
  destruct (left_vars_at base Hbase lower upper var Hfirst cofactors Hcof table Hp V g lo up HV Hin) as [L1 L2].
  apply S3; [|done]. apply A3; [done|]. apply all_vars_not; [apply (common_valid _ _ _ _ _ Hc)|]. by apply (common_vars _ _ _ _ _ Hc).
Qed.

Lemma step_outcome {B : Type} (common : NodeId) (g : Guard) (lo up cl : NodeId) (k : NodeId -> Cover -> NodeId -> M cover_cache B) s (Q : B -> list Node -> Prop) :
  state_ok cover_local s -> base `prefix_of` nodes s.1 -> (g, (lo, up)) ∈ cofactors ->
  common_ok base cofactors cofactors common (nodes s.1) -> node_valid (nodes s.1) cl ->
  (forall required specific cover remaining cl' s', state_ok cover_local s' -> nodes s.1 `prefix_of` nodes s'.1 ->
    step_of common lo up cl required (specific, cover) remaining cl' (nodes s'.1) ->
    outcome cover_local T (k specific cover cl') s' Q) ->
  outcome cover_local T
    (let! required := and lo (node_not common) in
     let! result := isop required up in
     let '(specific, cover) := result in
     let! remaining := and lo (node_not specific) in
     let! cl' := or cl remaining in
     k specific cover cl') s Q.
Proof.
  intros Hs Hp Hin Hc Hcl Hk. pose proof (common_valid _ _ _ _ _ Hc) as Hcv.
  destruct (cofactor_refs base Hbase lower upper var Hfirst cofactors Hcof g lo up Hin) as [R1 R2].
  pose proof (ok_table _ (proj1 Hs)) as Hok.
  eapply outcome_bind; [apply runs_outcome, (and_runs cover_local); [done|extend|by apply not_valid]|].
  intros required s1 Hs1 Hp1 Hand. pose proof (ok_table _ (proj1 Hs1)) as Hok1.
  assert (P1 : base `prefix_of` nodes s1.1) by by etransitivity.
  eapply outcome_bind.
  { apply Hisop; [done|apply Hand|extend|]. apply (required_ready _ common g lo); [done..| |done].
    by apply (common_ok_stable base Hbase lower upper var Hfirst cofactors Hcof common (nodes s.1)). }
  intros [specific cover] s2 Hs2 Hp2 Hcover. pose proof (ok_table _ (proj1 Hs2)) as Hok2.
  assert (Hsp : node_valid (nodes s2.1) specific) by apply Hcover.
  eapply outcome_bind; [apply runs_outcome, (and_runs cover_local); [done|extend|by apply not_valid]|].
  intros remaining s3 Hs3 Hp3 Hrem. pose proof (ok_table _ (proj1 Hs3)) as Hok3.
  eapply outcome_bind; [apply runs_outcome, (or_of_runs cover_local); [done|extend|apply Hrem]|].
  intros cl' s4 Hs4 Hp4 Hor. pose proof (ok_table _ (proj1 Hs4)) as Hok4.
  assert (P24 : nodes s2.1 `prefix_of` nodes s4.1) by by etransitivity.
  assert (P14 : nodes s1.1 `prefix_of` nodes s4.1) by by etransitivity.
  apply (Hk required specific cover remaining cl'); [done|by etransitivity|].
  split_and!; [by apply (and_of_stable _ _ _ _ (nodes s1.1))|by apply (cover_of_stable _ _ (nodes s2.1))
              |by apply (and_of_stable _ _ _ _ (nodes s3.1))|done].
Qed.

(** [isop_branches]: every cofactor is covered by the branches or left for the common cover. *)
Lemma isop_branches_outcome exact common seen rest cl function branches s :
  state_ok cover_local s -> base `prefix_of` nodes s.1 -> seen ++ rest = cofactors ->
  common_ok base cofactors cofactors common (nodes s.1) -> loop exact common seen cl function branches (nodes s.1) ->
  outcome cover_local T (isop_branches isop exact common rest cl function branches) s
    (fun '(cl', function', branches') => loop exact common cofactors cl' function' branches').
Proof.
  revert seen cl function branches s. induction rest as [|[g [lo up]] rest IH]; intros seen cl function branches s Hs Hp Hsplit Hc Hl;
    cbn [isop_branches].
  { rewrite app_nil_r in Hsplit. subst seen. by apply runs_outcome, runs_ret. }
  assert (Hin : (g, (lo, up)) ∈ cofactors) by (rewrite <- Hsplit; set_solver).
  assert (Hsub : seen ⊆ cofactors) by (rewrite <- Hsplit; set_solver).
  pose proof (common_valid _ _ _ _ _ Hc) as Hcv. pose proof (ok_table _ (proj1 Hs)) as Hok.
  assert (Hstable : forall s', state_ok cover_local s' -> nodes s.1 `prefix_of` nodes s'.1 ->
    base `prefix_of` nodes s'.1 /\ common_ok base cofactors cofactors common (nodes s'.1) /\
    loop exact common seen cl function branches (nodes s'.1)).
  { intros s' Hs' Hp'. pose proof (ok_table _ (proj1 Hs')). split_and!; [by etransitivity
      |by apply (common_ok_stable base Hbase lower upper var Hfirst cofactors Hcof common (nodes s.1))
      |by apply (loop_stable base Hbase lower upper var Hfirst cofactors Hcof exact common seen cl function branches (nodes s.1))]. }
  apply (step_outcome common g lo up cl (fun specific cover cl' => _)); [done..|apply Hl|].
  intros required specific cover remaining cl' s1 Hs1 Hp1 Hstep. pose proof (ok_table _ (proj1 Hs1)) as Hok1.
  destruct (Hstable s1 Hs1 Hp1) as (Hb1 & Hc1 & Hl1). pose proof Hl1 as [_ L2 _ L4 L5 _ _ _].
  assert (Hcover : cover_of (required, up) (specific, cover) (nodes s1.1)) by apply Hstep.
  destruct (node_is_false specific) eqn:Ef.
  { apply node_is_false_spec in Ef as ->. destruct Hstep as (H1 & H2 & H3 & H4).
    apply (IH (seen ++ [(g, (lo, up))])); [done..|by rewrite <- app_assoc|done|].
    eapply (loop_step base Hbase lower upper var Hfirst cofactors Hcof exact common seen cl function branches); try done.
    - intros sigma _. rewrite eval_false. split; [by left|]. by intros [?|[_ ?]].
    - intros _ sigma _. rewrite eval_false. split; [by left|]. by intros [?|[_ ?]]. }
  eapply outcome_bind; [apply runs_outcome, (function_runs exact function g lo up specific); [done..|apply Hcover]|].
  intros function' s2 Hs2 Hp2 (F1 & F2 & F3). pose proof (ok_table _ (proj1 Hs2)) as Hok2.
  destruct (Hstable s2 Hs2 ltac:(by etransitivity)) as (Hb2 & Hc2 & Hl2). pose proof Hl2 as [_ L2' _ L4' L5' _ _ _].
  pose proof (cover_of_stable _ _ _ _ Hok1 Hok2 Hp2 Hcover) as Hcover2.
  assert (Hu : node_valid (nodes s2.1) upper) by (destruct Hfirst as [_ [F2' _] _]; extend).
  eapply outcome_bind; [apply runs_outcome, (add_branch_runs cover_local var upper); [done..|]|].
  { by apply (specific_branch base Hbase lower upper var Hfirst cofactors Hcof _ g lo up required). }
  intros branches' s3 Hs3 Hp3 [B1 B2]. pose proof (ok_table _ (proj1 Hs3)) as Hok3.
  assert (P13 : nodes s1.1 `prefix_of` nodes s3.1) by by etransitivity.
  destruct (Hstable s3 Hs3 ltac:(by etransitivity)) as (Hb3 & Hc3 & Hl3).
  destruct (step_of_stable _ _ _ _ _ _ _ _ _ _ Hok1 Hok3 P13 Hstep) as (H1 & H2 & H3 & H4).
  apply (IH (seen ++ [(g, (lo, up))])); [done..|by rewrite <- app_assoc|done|].
  eapply (loop_step base Hbase lower upper var Hfirst cofactors Hcof exact common seen cl function branches); try done; [extend| |].
  - intros V Hv HV. apply (all_vars_extend (nodes s2.1)); [done..|]. apply F2; [done|by apply L4'|].
    apply (step_vars common lo up cl required (specific, cover) remaining cl' g); [done..| |done].
    by apply (step_of_stable _ _ _ _ _ _ _ _ (nodes s1.1)).
  - intros He sigma Ha. rewrite !(eval_extend (nodes s2.1) (nodes s3.1)) by (done || apply Hcover2).
    rewrite (guard_holds_extend (nodes s2.1) (nodes s3.1) var); [by apply F3|done..|].
    by apply (guard_on_stable var g base), (cofactors_guard _ _ _ _ _ Hcof g lo up).
Qed.

(** The branches with the common cover. *)
Definition all_branches (branches : list (NodeId * (Guard * Cover))) (common : NodeId) (cover : Cover) :
    list (NodeId * (Guard * Cover)) :=
  if node_is_false common then branches else index_insert branches common (GuardNode NODE_TRUE, cover).

Lemma all_branches_at table sigma branches common cover :
  branch_at table sigma (all_branches branches common cover) <-> branch_at table sigma branches \/ eval table sigma common = true.
Proof.
  unfold all_branches. destruct (node_is_false common) eqn:Ef.
  - apply node_is_false_spec in Ef as ->. rewrite eval_false. split; [by left|]. by intros [?|?].
  - rewrite index_insert_branch by done. cbn [guard_holds]. rewrite eval_true. tauto.
Qed.

Lemma all_branches_ok table branches bound rest common cover :
  table_ok table -> base `prefix_of` table -> common_ok base cofactors cofactors bound table ->
  cover_of (rest, bound) (common, cover) table -> Forall (branch_ok table var upper) branches ->
  Forall (branch_ok table var upper) (all_branches branches common cover).
Proof.
  intros Hok Hp Hc [_ S1 _ S3 S4 _ S6] Hb. unfold all_branches. destruct (node_is_false common); [done|].
  rewrite Forall_forall in Hb |- *. intros e [->|He]%index_insert_elem; [|by apply Hb]. split; cbn; [|done..|].
  - split; [apply true_valid|]. apply all_vars_true. by left.
  - intros sigma Ha _ Hs. apply (common_upper base Hbase lower upper var Hfirst cofactors Hcof table bound); [done..|]. by apply S6.
Qed.

(** The branches and the common cover, together. *)
Lemma expansion_cover table bound rest function branches common cover result :
  table_ok table -> base `prefix_of` table -> common_ok base cofactors cofactors bound table ->
  loop (lower =? upper) bound cofactors rest function branches table -> cover_of (rest, bound) (common, cover) table ->
  (if lower =? upper then result = lower else or_of function common result table) ->
  cover_of (lower, upper) (result, CoverBranches (all_branches branches common cover).*2) table.
Proof.
  intros Hok Hp Hc [L1 L2 L3 L4 L5 L6 L7 L8] Hcover Hres.
  pose proof (all_branches_ok _ _ _ _ _ _ Hok Hp Hc Hcover L5) as Hb. destruct Hcover as [_ S1 S2 S3 S4 S5 S6]. cbn in *.
  assert (Hl : node_valid table lower) by (destruct Hfirst as [[F _] _ _]; extend).
  assert (Hu : node_valid table upper) by (destruct Hfirst as [_ [F _] _]; extend).
  assert (Hbound : forall sigma, allowed sigma -> branch_at table sigma (all_branches branches common cover) -> eval table sigma upper = true).
  { intros sigma Ha (k & g & c & Hin & Hg & Hk). rewrite Forall_forall in Hb. by apply (branch_upper _ _ _ _ (Hb _ Hin) sigma). }
  assert (Hcovered : forall sigma, allowed sigma -> eval table sigma lower = true -> branch_at table sigma (all_branches branches common cover)).
  { intros sigma Ha Hlo. rewrite all_branches_at.
    destruct (cofactor_somewhere base Hbase lower upper var Hfirst cofactors Hcof table Hok Hp sigma) as (g & lo & up & Hin & _ & Hg).
    destruct (Hg Hlo) as [Hg1 Hg2]. destruct (L7 sigma g lo up Ha Hin Hg1 Hg2) as [Hr|Hr]; [right; by apply S5|by left]. }
  assert (Hfun : node_valid table result /\
    (forall V, all_vars table V lower -> all_vars table V upper -> all_vars table V result) /\
    forall sigma, allowed sigma -> eval table sigma result = true <-> branch_at table sigma (all_branches branches common cover)).
  { destruct (Z.eqb_spec lower upper) as [E|_].
    - subst result. split_and!; [done..|]. intros sigma Ha. split; [by apply Hcovered|]. intros H. rewrite E. by apply Hbound.
    - destruct Hres as (_ & _ & [O1 O2 O3]). split_and!; [done| |].
      + intros V V1 V2. destruct Hfirst as [[F1 F1'] [F2 F2'] F3].
        rewrite (all_vars_extend base table) in V1, V2 by done.
        assert (HV : left_vars base cofactors V) by by apply (left_vars_bounds base Hbase lower upper var Hfirst cofactors Hcof).
        apply O3; [apply L4; [by apply F3|done]|]. apply S2; [by apply L3|]. by apply (common_vars _ _ _ _ _ Hc).
      + intros sigma Ha. by rewrite (O2 _ Ha), orb_true_iff, all_branches_at, (L8 eq_refl _ Ha). }
  destruct Hfun as (R1 & R2 & R3). split; cbn [fst snd]; [done..|by apply (branches_valid _ var upper)| | |].
  - intros sigma Ha. apply eq_true_iff_eq. by rewrite (R3 _ Ha), (branches_cover _ _ var upper).
  - intros sigma Ha Hlo. by apply R3, Hcovered.
  - intros sigma Ha Hr. by apply Hbound, R3.
Qed.
End Expansion.

(** [isop_expansion], for bounds that are nodes. *)
Lemma isop_expansion_outcome isop l lower upper lower_node upper_node s :
  state_ok cover_local s -> node_valid (nodes s.1) lower -> node_valid (nodes s.1) upper ->
  node_at (nodes s.1) lower = Some lower_node -> node_at (nodes s.1) upper = Some upper_node ->
  (T -> ready l lower upper (nodes s.1)) ->
  (forall var lo up s', (T -> var ∈ l) -> state_ok cover_local s' -> node_valid (nodes s'.1) lo -> node_valid (nodes s'.1) up ->
    (T -> ready (later var l) lo up (nodes s'.1)) -> outcome cover_local T (isop lo up) s' (cover_of (lo, up))) ->
  outcome cover_local T (isop_expansion isop lower upper) s (cover_of (lower, upper)).
Proof.
  intros Hs Hl Hu El Eu Hready Hisop. pose proof (ok_table _ (proj1 Hs)) as Hok. unfold isop_expansion.
  eapply outcome_bind; [by apply runs_outcome, (cover_cofactors_runs cover_local lower upper lower_node upper_node)|].
  intros cofactors s1 Hs1 Hp1 (var & Hfirst & Hcof). pose proof (ok_table _ (proj1 Hs1)) as Hok1.
  pose proof (fun t => ready_stable _ _ _ _ _ Hok Hok1 Hp1 Hl Hu (Hready t)) as Hready1.
  assert (Hvar : T -> var ∈ l) by (intros [_ ? ? _]%Hready1; by apply (first_vars _ _ _ _ Hfirst)).
  pose proof (fun lo up s' => Hisop var lo up s' Hvar) as Hisop'.
  eapply outcome_bind.
  { apply runs_outcome, (common_bound_runs (nodes s1.1) Hok1 lower upper var Hfirst cofactors Hcof cover_local []); [done..|].
    split; [apply true_valid|intros V _; apply all_vars_true; by left|]. by intros sigma _ _ g lo up ?%elem_of_nil. }
  intros bound s2 Hs2 Hp2 Hc2. pose proof (ok_table _ (proj1 Hs2)) as Hok2.
  eapply outcome_bind.
  { apply (isop_branches_outcome (nodes s1.1) Hok1 lower upper var Hfirst cofactors Hcof l Hready1 isop Hisop' _ bound []);
      [done..|]. apply loop_start. }
  intros [[rest function] branches] s3 Hs3 Hp3 Hloop. pose proof (ok_table _ (proj1 Hs3)) as Hok3.
  assert (P13 : nodes s1.1 `prefix_of` nodes s3.1) by by etransitivity.
  pose proof (common_ok_stable _ Hok1 _ _ _ Hfirst _ Hcof _ _ _ Hok2 Hok3 Hp2 Hp3 Hc2) as Hc3.
  eapply outcome_bind.
  { apply Hisop'; [done|apply Hloop|apply Hc3|]. intros t.
    pose proof (left_vars_later _ Hok1 _ _ _ Hfirst _ Hcof l Hready1 t) as HV.
    destruct Hloop as [_ _ L3 _ _ L6 _ _]. split; [|by apply L3|by apply (common_vars _ _ _ _ _ Hc3)|done].
    destruct (Hready1 t) as [R1 _ _ _]. intros v w [Hv _]%later_elem [Hw _]%later_elem. by apply R1. }
  intros [common cover] s4 Hs4 Hp4 Hcover. pose proof (ok_table _ (proj1 Hs4)) as Hok4.
  assert (P14 : nodes s1.1 `prefix_of` nodes s4.1) by by etransitivity.
  pose proof (common_valid _ _ _ _ _ Hc3) as Hbound.
  pose proof (loop_stable _ Hok1 _ _ _ Hfirst _ Hcof _ _ _ _ _ _ _ _ Hok3 Hok4 P13 Hp4 Hbound ltac:(done) Hloop) as Hloop4.
  eapply outcome_bind with (P := fun result table => if lower =? upper then result = lower else or_of function common result table).
  { apply runs_outcome. destruct (lower =? upper); [by apply runs_ret|].
    apply (or_of_runs cover_local); [done|apply Hloop4|apply Hcover]. }
  intros result s5 Hs5 Hp5 Hres. pose proof (ok_table _ (proj1 Hs5)) as Hok5.
  assert (P15 : nodes s1.1 `prefix_of` nodes s5.1) by by etransitivity.
  apply runs_outcome, runs_ret; [done|].
  apply (expansion_cover (nodes s1.1) Hok1 lower upper var Hfirst cofactors Hcof (nodes s5.1) bound rest function branches common cover result);
    try done.
  - apply (common_ok_stable _ Hok1 _ _ _ Hfirst _ Hcof _ (nodes s3.1)); [done..|by etransitivity|done].
  - apply (loop_stable _ Hok1 _ _ _ Hfirst _ Hcof _ _ _ _ _ _ (nodes s4.1)); [done..|extend|done|done].
  - by apply (cover_of_stable _ _ (nodes s4.1)).
Qed.

(** *** The recursion *)

Lemma cover_cofactors_nodes {C : Type} lower upper (s : Interner * C) cofactors s' :
  cover_cofactors lower upper s = Some (cofactors, s') ->
  (exists node, node_at (nodes s.1) lower = Some node) /\ exists node, node_at (nodes s.1) upper = Some node.
Proof.
  unfold cover_cofactors, get_node, bind, get_interner, lift_option. destruct (Z.eqb_spec lower upper) as [<-|_]; cbn.
  - destruct (node_at (nodes s.1) lower) as [node|]; [eauto|done].
  - destruct (node_at (nodes s.1) lower) as [x|]; [|done]. cbn. destruct (node_at (nodes s.1) upper) as [y|]; [eauto|done].
Qed.

(** A single decision is its own cover. *)
Lemma single_cover table i node :
  table_ok table -> node_valid table i -> node_at table i = Some node -> is_single_decision node = true ->
  cover_of (i, i) (i, CoverGuard i) table.
Proof.
  intros Hok Hi En Hsingle. split; cbn; try done.
  apply (valid_guard _ _ (node_var node)); [done|]. eright; [done|done|]. intros c Hc%list_elem_of_In.
  unfold is_single_decision in Hsingle. rewrite forallb_forall in Hsingle. apply all_vars_true.
  by destruct (orb_prop _ _ (Hsingle c Hc)) as [?%node_is_true_spec|?%node_is_false_spec]; [left|right].
Qed.

Lemma false_cover table upper : node_valid table upper -> cover_of (NODE_FALSE, upper) (NODE_FALSE, CoverFalse) table.
Proof.
  intros Hu. split; cbn; try done; [split; [apply false_valid|done]|apply false_valid|constructor].
Qed.

Lemma true_cover table lower : node_valid table lower -> cover_of (lower, NODE_TRUE) (NODE_TRUE, CoverTrue) table.
Proof.
  intros Hl. split; cbn; try done; [split; [done|apply true_valid]|apply true_valid|constructor].
Qed.

(** The cases that need no expansion. *)
Lemma isop_entry_outcome (l : list MarkerVariable) (lower upper : NodeId) (m : M cover_cache (NodeId * Cover)) s :
  state_ok cover_local s -> node_valid (nodes s.1) lower -> node_valid (nodes s.1) upper ->
  (T -> ready l lower upper (nodes s.1)) ->
  ((T -> (exists node, node_at (nodes s.1) lower = Some node) /\ exists node, node_at (nodes s.1) upper = Some node) ->
    outcome cover_local T m s (cover_of (lower, upper))) ->
  outcome cover_local T
    (if node_is_false lower then ret (NODE_FALSE, CoverFalse)
     else if node_is_true upper then ret (NODE_TRUE, CoverTrue)
     else
       let! cache := get_local in
       match cache !! (lower, upper) with
       | Some result => ret result
       | None =>
           let! single :=
             (if lower =? upper then let! node := get_node lower in ret (is_single_decision node) else ret false) in
           if (single : bool) then ret (lower, CoverGuard lower) else m
       end) s (cover_of (lower, upper)).
Proof.
  intros Hs Hl Hu Hready Hm. pose proof (ok_table _ (proj1 Hs)) as Hok.
  destruct (node_is_false lower) eqn:Fl; [apply node_is_false_spec in Fl as ->; apply runs_outcome, runs_ret; [done|by apply false_cover]|].
  destruct (node_is_true upper) eqn:Tu; [apply node_is_true_spec in Tu as ->; apply runs_outcome, runs_ret; [done|by apply true_cover]|].
  pose proof (fun t => ready_nodes l lower upper _ Hok Hl Hu (Hready t) Fl Tu) as Hnodes. specialize (Hm Hnodes).
  change (outcome cover_local T (match s.2 !! (lower, upper) with
    | Some result => ret result
    | None => let! single := (if lower =? upper then let! node := get_node lower in ret (is_single_decision node) else ret false) in
              if (single : bool) then ret (lower, CoverGuard lower) else m end) s (cover_of (lower, upper))).
  destruct (s.2 !! (lower, upper)) as [result|] eqn:Ec; [apply runs_outcome, runs_ret; [done|]; by apply (proj2 Hs)|].
  destruct (Z.eqb_spec lower upper) as [<-|_]; [|exact Hm].
  assert (Hget : get_node (C := cover_cache) lower s = (fun node => (node, s)) <$> node_at (nodes s.1) lower).
  { unfold get_node, bind, get_interner, lift_option. cbn. by destruct (node_at (nodes s.1) lower). }
  revert Hm. unfold outcome, bind. rewrite Hget. destruct (node_at (nodes s.1) lower) as [node|] eqn:En; cbn.
  - intros Hm. destruct (is_single_decision node) eqn:Es; [|exact Hm]. split_and!; [done..|]. by apply (single_cover _ _ node).
  - intros _ [[node E] _]%Hnodes. done.
Qed.

(** [isop_cached]: a cover between the bounds. *)
Lemma isop_cached_outcome fuel l lower upper s :
  state_ok cover_local s -> node_valid (nodes s.1) lower -> node_valid (nodes s.1) upper ->
  (T -> ready l lower upper (nodes s.1) /\ (length l <= fuel)%nat) ->
  outcome cover_local T (isop_cached fuel lower upper) s (cover_of (lower, upper)).
Proof.
  revert l lower upper s. induction fuel as [|fuel IH]; intros l lower upper s Hs Hl Hu Hready; cbn [isop_cached];
    (apply (isop_entry_outcome l); [done..|by intros [? _]%Hready|]; intros Hnodes).
  - intros t. destruct (Hready t) as [[_ Hv _ _] Hlen], (Hnodes t) as [[node En] _].
    pose proof (all_vars_top _ _ _ _ En Hv) as Hin. cbn in Hin. destruct l as [|v l]; [by apply elem_of_nil in Hin|cbn in Hlen; lia].
  - eapply outcome_bind with (P := cover_of (lower, upper)).
    + destruct (node_at (nodes s.1) lower) as [x|] eqn:El; [destruct (node_at (nodes s.1) upper) as [y|] eqn:Eu|].
      * apply (isop_expansion_outcome _ l lower upper x y); [done..|by intros [? _]%Hready|].
        intros var lo up s' Hvar Hs' Hlo Hup Hr. apply (IH (later var l)); [done..|]. intros t. split; [by apply Hr|].
        pose proof (later_shorter var l (Hvar t)). destruct (Hready t) as [_ ?]. lia.
      * unfold outcome, isop_expansion, bind. destruct (cover_cofactors lower upper s) as [[cs s']|] eqn:E.
        -- apply cover_cofactors_nodes in E as [_ [node E]]. congruence.
        -- intros [_ [node E']]%Hnodes. congruence.
      * unfold outcome, isop_expansion, bind. destruct (cover_cofactors lower upper s) as [[cs s']|] eqn:E.
        -- apply cover_cofactors_nodes in E as [[node E] _]. congruence.
        -- intros [[node E'] _]%Hnodes. congruence.
    + intros result s' Hs' Hp Hcover. apply runs_outcome, runs_get_local, runs_set_local, runs_ret; [|done].
      split; [apply Hs'|]. by apply caches_insert; [apply Hs'|].
Qed.
End Extract.

(** ** The cover of a marker *)

Section Isop.
Context {RV : RangeOps Version} {RS : RangeOps (list Z)}.
Context {LV : RangeLaws version_cmp_slow} {LS : RangeLaws string_cmp}.
Context {C : Type} (L : C -> list Node -> Prop) {HL : LocalInvariant L}.

(** A cover of a marker: it holds where the marker does. *)
Definition covers_marker (marker : NodeId) (cover : Cover) (table : list Node) : Prop :=
  cover_valid table cover /\ forall sigma, allowed sigma -> cover_holds table sigma cover = eval table sigma marker.

Lemma cover_of_marker marker result table : cover_of (marker, marker) result table -> covers_marker marker result.2 table.
Proof.
  intros [_ _ _ H3 H4 H5 H6]. split; [done|]. intros sigma Ha. rewrite (H4 _ Ha). apply eq_true_iff_eq.
  split; [by apply H6|by apply H5].
Qed.

(** [isop]: a cover that is returned is one of the marker, and one is returned if the marker has the variables [l]. *)
Lemma isop_outcome (T : Prop) l marker s :
  state_ok L s -> node_valid (nodes s.1) marker ->
  (T -> one_platform l /\ all_vars (nodes s.1) (fun v => v ∈ l) marker /\ (length l <= length (nodes s.1))%nat) ->
  outcome L T (isop marker) s (covers_marker marker).
Proof.
  intros Hs Hm Ht.
  pose proof (isop_cached_outcome T (length (nodes s.1)) l marker marker (s.1, ∅)) as H.
  assert (Hout : outcome (caches (K := Z * Z) (V := Z * Cover) cover_of) T (isop_cached (length (nodes s.1)) marker marker) (s.1, ∅)
    (cover_of (marker, marker))).
  { apply H; [split; [apply Hs|apply caches_empty]|done|done|]. intros t. destruct (Ht t) as (H1 & H2 & H3). split; [by split|done]. }
  clear H. revert Hout. unfold outcome, isop, bind, get_interner, with_cache. cbn [fst mbind option_bind].
  destruct (isop_cached (length (nodes s.1)) marker marker (s.1, ∅)) as [[result s']|]; [|done].
  intros ([Hok' _] & Hp & Hcover). cbn in *. split_and!; [|done|by apply cover_of_marker].
  split; [done|]. cbn. destruct Hs as [Hs1 Hs2]. eapply local_extend; [apply Hs1|apply Hok'|done|done].
Qed.

(** The variables of a marker of one platform variable. *)
Lemma platform_list table marker platform :
  table_ok table -> node_valid table marker ->
  all_vars table (fun v => is_conflicting_variable v = true -> v = platform) marker ->
  exists l, one_platform l /\ all_vars table (fun v => v ∈ l) marker /\ (length l <= length table)%nat.
Proof.
  intros Hok Hm Ha. set (keep v := implb (is_conflicting_variable v) (bool_decide (v = platform))).
  assert (Hkeep : forall v, keep v = true <-> (is_conflicting_variable v = true -> v = platform)).
  { intros v. unfold keep. destruct (is_conflicting_variable v); cbn; [|done]. rewrite bool_decide_eq_true. tauto. }
  assert (Helem : forall v, v ∈ List.filter keep (node_var <$> table) <-> v ∈ node_var <$> table /\ keep v = true).
  { intros v. by rewrite !list_elem_of_In, filter_In. }
  exists (List.filter keep (node_var <$> table)). split_and!.
  - intros v w [_ Hv]%Helem [_ Hw]%Helem Cv Cw. rewrite Hkeep in Hv, Hw. by rewrite (Hv Cv), (Hw Cw).
  - eapply all_vars_weaken; [|by apply (all_vars_and _ _ _ _ (all_vars_table _ _ Hok Hm) Ha)]. intros v [H1 H2].
    apply Helem. split; [done|]. by apply Hkeep.
  - rewrite <- (length_fmap node_var table). apply filter_length_le.
Qed.
End Isop.
