(* ===== verification/Dnf.v ===== *)
(** * Markers: normal forms and their text

    [crates/uv-pep508/src/marker/simplify.rs], which expands the cover of a marker to clauses of
    expressions, and the [Display] implementations of [tree.rs], which print them. *)

From stdpp Require Import base countable list option numbers decidable strings gmap.
From Stdlib Require Import ZArith Lia.
From S2P Require Import Prelude Text Ranges VersionTypes VersionSmall Version VersionOrder VersionParser.
From S2P Require Import VersionDisplay Normalize VersionSpecifier MarkerTypes Interner MarkerAlgebra Isop MarkerTree.

Local Open Scope Z_scope.
Local Open Scope uv_scope.

(** ** Comparisons from bounds *)

Definition operator_from_lower_bound (bound : bound_of (list Z)) : option (MarkerOperator * list Z) :=
  match bound with
  | Included value => Some (MGreaterEqual, value)
  | Excluded value => Some (MGreaterThan, value)
  | Unbounded => None
  end.

Definition operator_from_upper_bound (bound : bound_of (list Z)) : option (MarkerOperator * list Z) :=
  match bound with
  | Included value => Some (MLessEqual, value)
  | Excluded value => Some (MLessThan, value)
  | Unbounded => None
  end.

Definition operator_from_bounds (lower upper : bound_of (list Z)) : list (MarkerOperator * list Z) :=
  let both := option_list (operator_from_lower_bound lower) ++ option_list (operator_from_upper_bound upper) in
  match lower, upper with
  | Included v1, Included v2 => if decide (v1 = v2) then [(MEqual, v1)] else both
  | Excluded v1, Excluded v2 => if decide (v1 = v2) then [(MNotEqual, v1)] else both
  | _, _ => both
  end.

(** [Bound::map]. *)
Definition bound_map {A B : Type} (f : A -> B) (b : bound_of A) : bound_of B :=
  match b with Included a => Included (f a) | Excluded a => Excluded (f a) | Unbounded => Unbounded end.

(** ** Ranges *)

Section Guards.
Context {T : Type} `{!RangeOps T} (eqb : T -> T -> bool).

Definition guard_range (edges : list (range T * NodeId)) (child : NodeId) : range T :=
  range_collect (List.filter (fun e => e.2 =? child) edges ≫= fun e => range_iter e.1).

(** The values between neighbours ([tuple_windows]), if each pair has just one. *)
Fixpoint excluded_values (segments : list (bound_of T * bound_of T)) : option (list T) :=
  match segments with
  | (_, end_) :: (((start, _) :: _) as segments') =>
      match end_, start with
      | Excluded v1, Excluded v2 => if eqb v1 v2 then cons v1 <$> excluded_values segments' else None
      | _, _ => None
      end
  | _ => Some []
  end.

Definition is_line (bounds : option (bound_of T * bound_of T)) : bool :=
  match bounds with Some (Unbounded, Unbounded) => true | _ => false end.

Definition range_inequality (r : range T) : option (list T) :=
  if range_is_empty r || negb (is_line (range_bounding r)) then None
  else excluded_values (range_iter r).
End Guards.

(** The panic of [Version::new] on an empty release does not occur, and increments wrap. *)
Definition star_range_specifier `{!RangeOps Version} (r : range Version) : option (option VersionSpecifier) :=
  match range_iter r with
  | [(Unbounded, Excluded v1); (Included v2, Unbounded)] =>
      t1 ← version_only_release_trimmed v1;
      match version_release t1 with
      | [major] =>
          if decide (version_release v2 = [major; 1])
          then version ← version_new [major; 0]; Some (Some (not_equals_star_version version))
          else Some None
      | [major; minor] =>
          if decide (version_release v2 = [major; u64_wrapping_add minor 1])
          then Some (Some (not_equals_star_version v1))
          else Some None
      | _ => Some None
      end
  | _ => Some None
  end.

(** ** Clauses *)

Section Clauses.
Context {RV : RangeOps Version} {RS : RangeOps (list Z)}.

Definition version_comparisons (key : CanonicalMarkerValueVersion) (specifiers : list VersionSpecifier) :
    list MarkerExpression :=
  ExprVersion (marker_value_version key) <$> specifiers.

Definition version_alternatives (key : CanonicalMarkerValueVersion) (r : range Version) :
    option (list (list MarkerExpression)) :=
  match range_inequality version_eq r with
  | Some excluded => Some [version_comparisons key (not_equals_version <$> excluded)]
  | None =>
      match star_range_specifier r with
      | None => None
      | Some (Some specifier) => Some [version_comparisons key [specifier]]
      | Some None =>
          alternatives ← mapM (fun bounds => specifier_from_release_only_bounds bounds.1 bounds.2) (range_iter r);
          Some (version_comparisons key <$> alternatives)
      end
  end.

Definition string_comparisons (key : CanonicalMarkerValueString) (lower upper : bound_of (list Z)) :
    list MarkerExpression :=
  (fun x => ExprString (marker_value_string key) x.1 x.2) <$> operator_from_bounds lower upper.

Definition version_string_alternatives (key : CanonicalMarkerValueString) (r : range Version) :
    list (list MarkerExpression) :=
  (fun bounds => string_comparisons key (bound_map version_display bounds.1) (bound_map version_display bounds.2))
    <$> range_iter r.

Definition string_alternatives (key : CanonicalMarkerValueString) (r : range (list Z)) :
    list (list MarkerExpression) :=
  match range_inequality (fun v1 v2 => bool_decide (v1 = v2)) r with
  | Some excluded => [(fun value => ExprString (marker_value_string key) MNotEqual value) <$> excluded]
  | None => (fun bounds => string_comparisons key bounds.1 bounds.2) <$> range_iter r
  end.

(** The values of a boolean decision that lead to the child. *)
Definition boolean_alternatives (high low child : NodeId) (expression : bool -> MarkerExpression) :
    list (list MarkerExpression) :=
  (fun e => [expression e.1]) <$> List.filter (fun e => e.2 =? child) [(true, high); (false, low)].

(** What each turn of [collect_guard] puts on the path. *)
Definition kind_alternatives (child : NodeId) (k : MarkerTreeKind) : option (list (list MarkerExpression)) :=
  match k with
  | KindFalse => Some []
  | KindTrue => Some [[]]
  | KindVersion id key map => version_alternatives key (guard_range (map_edges id map) child)
  | KindVersionString id key map => Some (version_string_alternatives key (guard_range (map_edges id map) child))
  | KindString id key map => Some (string_alternatives key (guard_range (map_edges id map) child))
  | KindIn key value high low =>
      Some (boolean_alternatives high low child (fun b =>
        ExprString (marker_value_string key) (if b then MIn else MNotIn) value))
  | KindContains key value high low =>
      Some (boolean_alternatives high low child (fun b =>
        ExprString (marker_value_string key) (if b then MContains else MNotContains) value))
  | KindList p high low =>
      Some (boolean_alternatives high low child (fun b => ExprList p (if b then ContainerIn else ContainerNotIn)))
  | KindExtra name high low =>
      Some (boolean_alternatives high low child (fun b =>
        ExprExtra (ExtraValid name) (if b then ExtraEqual else ExtraNotEqual)))
  end.

(** The node of a guard, and the child it selects. *)
Definition guard_ref (guard : Guard) : NodeId := match guard with GuardNode node | GuardEdge node _ => node end.
Definition guard_child (guard : Guard) : NodeId :=
  match guard with GuardNode _ => NODE_TRUE | GuardEdge _ child => child end.

Definition guard_alternatives (table : list Node) (guard : Guard) : option (list (list MarkerExpression)) :=
  k ← kind table (guard_ref guard);
  kind_alternatives (guard_child guard) k.

Notation Dnf := (list (list MarkerExpression)).

(** The path is restored after each turn. *)
Definition collect_guard (table : list Node) (guard : Guard)
    (collect_suffix : Dnf -> list MarkerExpression -> option Dnf) (dnf : Dnf) (path : list MarkerExpression) :
    option Dnf :=
  alternatives ← guard_alternatives table guard;
  foldl (fun dnf alternative => dnf ← dnf; collect_suffix dnf (path ++ alternative)) (Some dnf) alternatives.

Definition collect_true (dnf : Dnf) (path : list MarkerExpression) : option Dnf :=
  Some (match path with [] => dnf | _ :: _ => dnf ++ [path] end).

Fixpoint collect_cover (table : list Node) (cover : Cover) (dnf : Dnf) (path : list MarkerExpression) : option Dnf :=
  match cover with
  | CoverFalse => Some dnf
  | CoverTrue => collect_true dnf path
  | CoverGuard node => collect_guard table (GuardNode node) collect_true dnf path
  | CoverBranches branches =>
      (fix collect_branches (branches : list (Guard * Cover)) (dnf : Dnf) : option Dnf :=
         match branches with
         | [] => Some dnf
         | (guard, suffix) :: branches' =>
             dnf ← collect_guard table guard (collect_cover table suffix) dnf path;
             collect_branches branches' dnf
         end) branches dnf
  end.

(** ** Order *)

(** The derived orders follow the declarations. *)
Definition marker_version_rank (k : MarkerValueVersion) : Z :=
  match k with MvImplementationVersion => 0 | MvPythonFullVersion => 1 | MvPythonVersion => 2 end.

Definition marker_string_rank (k : MarkerValueString) : Z :=
  match k with
  | MvImplementationName => 0 | MvOsName => 1 | MvOsNameDeprecated => 2 | MvPlatformMachine => 3
  | MvPlatformMachineDeprecated => 4 | MvPlatformPythonImplementation => 5
  | MvPlatformPythonImplementationDeprecated => 6 | MvPythonImplementationDeprecated => 7
  | MvPlatformRelease => 8 | MvPlatformSystem => 9 | MvPlatformVersion => 10
  | MvPlatformVersionDeprecated => 11 | MvSysPlatform => 12 | MvSysPlatformDeprecated => 13
  end.

(** [MarkerExpression::kind], by variant and then by key. *)
Definition expression_kind (expr : MarkerExpression) : Z * Z :=
  match expr with
  | ExprVersion key _ => (0, marker_version_rank key)
  | ExprVersionIn key _ _ => (1, marker_version_rank key)
  | ExprString key _ _ => (2, marker_string_rank key)
  | ExprList p _ => (3, marker_list_rank (pair_key p))
  | ExprExtra _ _ => (4, 0)
  end.

Definition kind_cmp : Z * Z -> Z * Z -> comparison := cmp_pair Z.compare Z.compare.

Definition sort (dnf : Dnf) : Dnf :=
  sort_by (cmp_on (fmap expression_kind) (cmp_list kind_cmp)) (sort_by (cmp_on expression_kind kind_cmp) <$> dnf).

Definition to_dnf {C : Type} (tree : NodeId) : M C Dnf :=
  let! cover := isop tree in
  let! st := get_interner in
  let! dnf := lift_option (collect_cover (nodes st) cover [] []) in
  ret (sort dnf).
End Clauses.

Notation Dnf := (list (list MarkerExpression)).

(** ** Text *)

Definition marker_value_version_display (key : MarkerValueVersion) : list Z :=
  match key with
  | MvImplementationVersion => bytes "implementation_version"
  | MvPythonFullVersion => bytes "python_full_version"
  | MvPythonVersion => bytes "python_version"
  end.

Definition marker_value_string_display (key : MarkerValueString) : list Z :=
  match key with
  | MvImplementationName => bytes "implementation_name"
  | MvOsName | MvOsNameDeprecated => bytes "os_name"
  | MvPlatformMachine | MvPlatformMachineDeprecated => bytes "platform_machine"
  | MvPlatformPythonImplementation | MvPlatformPythonImplementationDeprecated
  | MvPythonImplementationDeprecated => bytes "platform_python_implementation"
  | MvPlatformRelease => bytes "platform_release"
  | MvPlatformSystem => bytes "platform_system"
  | MvPlatformVersion | MvPlatformVersionDeprecated => bytes "platform_version"
  | MvSysPlatform | MvSysPlatformDeprecated => bytes "sys_platform"
  end.

Definition marker_value_list_display (key : MarkerValueList) : list Z :=
  match key with ListExtras => bytes "extras" | ListDependencyGroups => bytes "dependency_groups" end.

Definition marker_operator_display (operator : MarkerOperator) : list Z :=
  match operator with
  | MEqual => bytes "=="
  | MNotEqual => bytes "!="
  | MGreaterThan => bytes ">"
  | MGreaterEqual => bytes ">="
  | MLessThan => bytes "<"
  | MLessEqual => bytes "<="
  | MTildeEqual => bytes "~="
  | MIn | MContains => bytes "in"
  | MNotIn | MNotContains => bytes "not in"
  end.

Definition extra_operator_display (operator : ExtraOperator) : list Z :=
  match operator with ExtraEqual => bytes "==" | ExtraNotEqual => bytes "!=" end.

Definition container_operator_display (operator : ContainerOperator) : list Z :=
  match operator with ContainerIn => bytes "in" | ContainerNotIn => bytes "not in" end.

Definition marker_value_extra_display (name : MarkerValueExtra) : list Z :=
  match name with ExtraValid extra => extra | ExtraArbitrary name => name end.

(** Between single quotes, as it is. *)
Definition quoted (text : list Z) : list Z := bytes "'" ++ text ++ bytes "'".

Definition expression_display (expr : MarkerExpression) : list Z :=
  match expr with
  | ExprVersion key specifier =>
      let op := specifier_operator specifier in
      let star := match op with EqualStar | NotEqualStar => bytes ".*" | _ => [] end in
      marker_value_version_display key ++ bytes " " ++ operator_as_str op ++ bytes " " ++
        quoted (version_display (specifier_version specifier) ++ star)
  | ExprVersionIn key versions operator =>
      marker_value_version_display key ++ bytes " " ++ container_operator_display operator ++ bytes " " ++
        quoted (join (bytes " ") (version_display <$> versions))
  | ExprString key operator value =>
      match operator with
      | MContains | MNotContains =>
          quoted value ++ bytes " " ++ marker_operator_display (marker_operator_invert operator) ++ bytes " " ++
            marker_value_string_display key
      | _ => marker_value_string_display key ++ bytes " " ++ marker_operator_display operator ++ bytes " " ++ quoted value
      end
  | ExprList p operator =>
      quoted (pair_value p) ++ bytes " " ++ container_operator_display operator ++ bytes " " ++
        marker_value_list_display (pair_key p)
  | ExprExtra name operator =>
      bytes "extra " ++ extra_operator_display operator ++ bytes " " ++ quoted (marker_value_extra_display name)
  end.

Definition conjunction_display (conjunction : list MarkerExpression) : list Z :=
  join (bytes " and ") (expression_display <$> conjunction).

Definition dnf_display (dnf : Dnf) : list Z :=
  match dnf with
  | [conjunction] => conjunction_display conjunction
  | _ =>
      join (bytes " or ") ((fun conjunction =>
        match conjunction with
        | [_] => conjunction_display conjunction
        | _ => bytes "(" ++ conjunction_display conjunction ++ bytes ")"
        end) <$> dnf)
  end.

#[export] Instance marker_value_extra_eq_dec : EqDecision MarkerValueExtra.
Proof. solve_decision. Defined.

Section Contents.
Context {RV : RangeOps Version} {RS : RangeOps (list Z)}.

(** [Display for MarkerTreeContents]. *)
Definition contents_display {C : Type} (tree : NodeId) : M C (list Z) :=
  if node_is_false tree then ret (bytes "python_version < '0'")
  else let! dnf := to_dnf tree in ret (dnf_display dnf).

Definition try_to_string {C : Type} (tree : NodeId) : M C (option (list Z)) :=
  if node_is_true tree then ret None else let! text := contents_display tree in ret (Some text).

(** ** The extra of a marker *)

(** [matches!(expression, MarkerExpression::Extra { operator: ExtraOperator::Equal, .. })], with the name. *)
Definition equal_extra (expr : MarkerExpression) : option MarkerValueExtra :=
  match expr with ExprExtra name ExtraEqual => Some name | _ => None end.

(** The first such expression of each conjunction, if they are all the same; [extra] is the one so far. *)
Fixpoint common_extra (dnf : Dnf) (extra : option MarkerValueExtra) : option MarkerValueExtra :=
  match dnf with
  | [] => extra
  | conjunction :: dnf' =>
      found ← head (omap equal_extra conjunction);
      match extra with
      | Some name => if decide (name = found) then common_extra dnf' extra else None
      | None => common_extra dnf' (Some found)
      end
  end.

Definition top_level_extra {C : Type} (tree : NodeId) : M C (option MarkerExpression) :=
  let! dnf := to_dnf tree in ret ((fun name => ExprExtra name ExtraEqual) <$> common_extra dnf None).

Definition into_extra (name : MarkerValueExtra) : option (list Z) :=
  match name with ExtraValid extra => Some extra | ExtraArbitrary _ => None end.

Definition top_level_extra_name {C : Type} (tree : NodeId) : M C (option (list Z)) :=
  let! st := get_interner in
  let! k := lift_option (kind (nodes st) tree) in
  let slow :=
    let! found := top_level_extra tree in
    match found with
    | None => ret None
    | Some (ExprExtra name _) => ret (into_extra name)
    | Some _ => lift_option None
    end in
  match k with
  | KindExtra name high low => if node_is_true (edge high low true) then ret (Some name) else slow
  | _ => slow
  end.
End Contents.
