(* ===== verification/MarkerApi.v ===== *)
(** * Markers: sequences of calls

    The marker interner is global: every call of [MarkerTree] changes the same state, and the
    references that a call returned are passed to later ones. The calls are a step relation on the
    interner and the references issued so far; what holds of its reachable states holds of every
    program that uses the library. *)

From stdpp Require Import base countable list option numbers decidable strings gmap.
From Stdlib Require Import ZArith Lia.
From S2P Require Import Prelude Text Ranges VersionTypes VersionSmall Version VersionOrder VersionCacheKey VersionParser.
From S2P Require Import VersionSpecifier MarkerTypes Interner MarkerAlgebra MarkerRestrict.
From S2P Require Import MarkerTree MarkerEval InternerFacts EdgesFacts AlgebraFacts ExclusionFacts.
From S2P Require Import ExpressionFacts RestrictFacts AssumptionFacts PythonFacts SubstitutionFacts.
From S2P Require Import TreeFacts Isop IsopFacts CoverFacts Dnf RangesSegments VersionRangesFacts ReleaseRanges Examples.

Local Open Scope Z_scope.
Local Open Scope uv_scope.

Section Api.
Context {RV : RangeOps Version} {RS : RangeOps (list Z)}.

(** ** Calls *)

Inductive Call : Type :=
| CallExpression (expr : MarkerExpression)
| CallNegate (self : NodeId)
| CallAnd (self tree : NodeId)
| CallOr (self tree : NodeId)
| CallImplies (self consequent : NodeId)
| CallIsDisjoint (self other : NodeId)
| CallIsUnreachable (self : NodeId)
| CallRestrict (self assumption : NodeId)
| CallSimplify (self : NodeId) (lower upper : Bound)
| CallComplexify (self : NodeId) (lower upper : Bound)
| CallSimplifyExtras (self : NodeId) (extras : list (list Z))
| CallSimplifyNotExtras (self : NodeId) (is_extra : list Z -> bool)
| CallWithoutExtras (self : NodeId)
| CallOnlyExtras (self : NodeId)
| CallResolveExtras (self : NodeId) (known_extras : list (list Z * Z))
| CallResolveExtrasWithBounds (self : NodeId) (known_extras : list (list Z * (Z * Z)))
| CallToDnf (self : NodeId)
| CallTryToString (self : NodeId)
| CallTopLevelExtraName (self : NodeId).

Definition call_operands (c : Call) : list NodeId :=
  match c with
  | CallExpression _ => []
  | CallNegate i | CallIsUnreachable i | CallSimplify i _ _ | CallComplexify i _ _ | CallSimplifyExtras i _
  | CallSimplifyNotExtras i _ | CallWithoutExtras i | CallOnlyExtras i | CallToDnf i | CallTryToString i
  | CallTopLevelExtraName i => [i]
  | CallAnd i j | CallOr i j | CallImplies i j | CallIsDisjoint i j | CallRestrict i j => [i; j]
  | CallResolveExtras i known => i :: known.*2
  | CallResolveExtrasWithBounds i known => i :: known.*2.*1 ++ known.*2.*2
  end.

(** The references that a call returns; a query returns none. *)
Definition call_run (c : Call) : M () (list NodeId) :=
  match c with
  | CallExpression e => let! r := tree_expression e in ret [r]
  | CallNegate i => ret [tree_negate i]
  | CallAnd i j => let! r := tree_and i j in ret [r]
  | CallOr i j => let! r := tree_or i j in ret [r]
  | CallImplies i j => let! r := tree_implies i j in ret [r]
  | CallIsDisjoint i j => let! _ := tree_is_disjoint i j in ret []
  | CallIsUnreachable i => let! _ := tree_is_unreachable i in ret []
  | CallRestrict i j => let! r := tree_restrict i j in ret [r]
  | CallSimplify i lo up => let! r := tree_simplify_python_versions i lo up in ret [r]
  | CallComplexify i lo up => let! r := tree_complexify_python_versions i lo up in ret [r]
  | CallSimplifyExtras i extras => let! r := simplify_extras i extras in ret [r]
  | CallSimplifyNotExtras i is_extra => let! r := simplify_not_extras_with i is_extra in ret [r]
  | CallWithoutExtras i => let! r := tree_without_extras i in ret [r]
  | CallOnlyExtras i => let! r := tree_only_extras i in ret [r]
  | CallResolveExtras i known => let! r := tree_resolve_extras i known in ret [r]
  | CallResolveExtrasWithBounds i known => let! r := tree_resolve_extras_with_bounds i known in ret [r.1; r.2]
  | CallToDnf i => let! _ := to_dnf i in ret []
  | CallTryToString i => let! _ := try_to_string i in ret []
  | CallTopLevelExtraName i => let! _ := top_level_extra_name i in ret []
  end.

(** The calls that extract a cover, which may panic. *)
Definition extracts (c : Call) : bool :=
  match c with CallToDnf _ | CallTryToString _ | CallTopLevelExtraName _ => true | _ => false end.

(** Expressions come from the parser; the versions of bounds are ones that the parser returns. *)
Definition bounds_ok (lower upper : Bound) : Prop :=
  Forall comparable (bound_values lower) /\ Forall comparable (bound_values upper).

Definition call_ok (c : Call) : Prop :=
  match c with
  | CallExpression e => expression_ok e
  | CallSimplify _ lower upper | CallComplexify _ lower upper => bounds_ok lower upper
  | _ => True
  end.

(** ** Steps *)

Record ApiState : Type := mkApiState {
  api_interner : Interner;
  api_issued : list NodeId
}.

Definition api_init : ApiState := mkApiState interner_new [NODE_TRUE; NODE_FALSE].

Inductive api_step : ApiState -> ApiState -> Prop :=
| api_call c st issued st' out :
    call_ok c -> (forall i, i ∈ call_operands c -> i ∈ issued) ->
    call_run c (st, tt) = Some (out, (st', tt)) ->
    api_step (mkApiState st issued) (mkApiState st' (out ++ issued)).

Inductive api_reachable : ApiState -> Prop :=
| api_reachable_init : api_reachable api_init
| api_reachable_step s s' : api_reachable s -> api_step s s' -> api_reachable s'.

(** What every reachable state satisfies. *)
Record api_ok (s : ApiState) : Prop := {
  api_ok_interner : interner_ok (api_interner s);
  api_ok_issued : forall i, i ∈ api_issued s -> node_valid (nodes (api_interner s)) i
}.

(** ** Facts *)

Context {LV : RangeLaws version_cmp_slow} {LS : RangeLaws string_cmp}.

(** The trivial local state. *)
Notation no_local := (fun (_ : ()) (_ : list Node) => True).

#[export] Instance no_local_invariant : LocalInvariant no_local.
Proof. by intros c table table'. Qed.

(** A call that returns one reference. *)
Lemma call_one (m : M () NodeId) s P :
  runs no_local m s P -> (forall r table, P r table -> node_valid table r) ->
  runs no_local (let! r := m in ret [r]) s (fun out table => forall i, i ∈ out -> node_valid table i).
Proof.
  intros Hm HP. eapply runs_bind; [exact Hm|]. intros r s' Hs' Hp Hr. apply runs_ret; [done|].
  intros i ->%list_elem_of_singleton. by apply HP.
Qed.

(** A query. *)
Lemma call_none {A : Type} (m : M () A) s P :
  runs no_local m s P ->
  runs no_local (let! _ := m in ret []) s (fun out table => forall i, i ∈ out -> node_valid table i).
Proof.
  intros Hm. eapply runs_bind; [exact Hm|]. intros r s' Hs' Hp _. apply runs_ret; [done|]. by intros i ?%elem_of_nil.
Qed.

Lemma call_runs c s :
  extracts c = false -> state_ok no_local s -> call_ok c -> (forall i, i ∈ call_operands c -> node_valid (nodes s.1) i) ->
  runs no_local (call_run c) s (fun out table => forall i, i ∈ out -> node_valid table i).
Proof.
  intros Hx Hs Hc Hop.
  destruct c as [e|i|i j|i j|i j|i j|i|i j|i lo up|i lo up|i ex|i ex|i|i|i known|i known|i|i|i]; try done; cbn in Hc, Hop |- *;
    try (assert (Hi : node_valid (nodes s.1) i) by (apply Hop; set_solver));
    try (assert (Hj : node_valid (nodes s.1) j) by (apply Hop; set_solver)).
  - eapply call_one; [by apply (expression_runs no_local)|]. by intros r table [H _].
  - apply runs_ret; [done|]. intros k ->%list_elem_of_singleton. by apply not_valid.
  - eapply call_one; [by apply (tree_and_runs no_local)|]. by intros r table (_ & _ & [H _ _]).
  - eapply call_one; [by apply (tree_or_runs no_local)|]. by intros r table [H _ _].
  - eapply call_one; [by apply (tree_implies_runs no_local)|]. by intros r table [H _].
  - eapply call_none. by apply (tree_is_disjoint_runs no_local).
  - eapply call_none. by apply (tree_is_unreachable_runs no_local).
  - eapply call_one; [by apply (restrict_runs no_local)|]. intros r table [[_ H _] _ _]. exact H.
  - destruct Hc as [Hlo Hup]. eapply call_one; [by apply simplify_python_versions_runs|]. by intros r table [[_ H _] _].
  - destruct Hc as [Hlo Hup]. eapply call_one; [by apply (complexify_python_versions_runs no_local)|]. by intros r table [H _].
  - eapply call_one; [by apply (simplify_extras_runs no_local)|]. by intros r table [[_ H _] _].
  - eapply call_one; [by apply (simplify_extras_runs no_local)|]. by intros r table [[_ H _] _].
  - eapply call_one; [by apply (without_extras_runs no_local)|]. intros r table [[_ H _] _ _ _]. exact H.
  - eapply call_one; [by apply (only_extras_runs no_local)|]. intros r table [[_ H _] _ _]. exact H.
  - eapply call_one; [apply (tree_resolve_extras_runs no_local); [done..|]|].
    + apply Forall_forall. intros [k v] Hin. cbn. apply Hop. rewrite elem_of_cons. right.
      apply list_elem_of_fmap. by exists (k, v).
    + intros r table H. apply H.
  - eapply runs_bind; [apply (tree_resolve_extras_with_bounds_runs no_local); [done..|]|].
    + apply Forall_forall. intros [k [lo up]] Hin. cbn. split; apply Hop; rewrite elem_of_cons, elem_of_app; right;
        [left|right]; rewrite <- list_fmap_compose; apply list_elem_of_fmap; by exists (k, (lo, up)).
    + intros [lo up] s' Hs' Hp Hb. apply runs_ret; [done|]. cbn.
      intros k [->|[->|?%elem_of_nil]%elem_of_cons]%elem_of_cons; [apply Hb|apply Hb|done].
Qed.

(** Extractions that return keep the state well-formed. *)
Lemma outcome_bind_unit {A B : Type} (m : M () A) (k : A -> M () B) s :
  outcome no_local False m s (fun _ _ => True) ->
  (forall a s', state_ok no_local s' -> nodes s.1 `prefix_of` nodes s'.1 -> outcome no_local False (k a) s' (fun _ _ => True)) ->
  outcome no_local False (let! a := m in k a) s (fun _ _ => True).
Proof.
  unfold outcome, bind. destruct (m s) as [[a s']|]; [|done]. intros (H1 & H2 & _) Hk. cbn [mbind option_bind].
  specialize (Hk a s' H1 H2). destruct (k a s') as [[b s'']|]; [|done]. destruct Hk as (K1 & K2 & _).
  split_and!; [done|by transitivity (nodes s'.1)|done].
Qed.

Lemma outcome_ret_unit {A : Type} (a : A) s : state_ok no_local s -> outcome no_local False (ret a) s (fun _ _ => True).
Proof. intros Hs. unfold outcome. cbn. by split_and!. Qed.

Lemma outcome_lift_unit {A : Type} (o : option A) s : state_ok no_local s -> outcome no_local False (lift_option o) s (fun _ _ => True).
Proof. intros Hs. unfold outcome, lift_option. destruct o; cbn; [by split_and!|tauto]. Qed.

Lemma outcome_interner_unit s : state_ok no_local s -> outcome no_local False get_interner s (fun _ _ => True).
Proof. intros Hs. unfold outcome. cbn. by split_and!. Qed.

Lemma to_dnf_outcome i s : state_ok no_local s -> node_valid (nodes s.1) i -> outcome no_local False (to_dnf i) s (fun _ _ => True).
Proof.
  intros Hs Hi. apply outcome_bind_unit.
  - pose proof (isop_outcome no_local False [] i s Hs Hi ltac:(done)) as H. unfold outcome in *.
    destruct (isop i s) as [[cover s']|]; [|done]. by destruct H as (? & ? & _).
  - intros cover s1 Hs1 _. apply outcome_bind_unit; [by apply outcome_interner_unit|]. intros st s2 Hs2 _.
    apply outcome_bind_unit; [by apply outcome_lift_unit|]. intros dnf s3 Hs3 _. by apply outcome_ret_unit.
Qed.

Lemma extraction_outcome c s :
  extracts c = true -> state_ok no_local s -> (forall i, i ∈ call_operands c -> node_valid (nodes s.1) i) ->
  outcome no_local False (call_run c) s (fun out _ => out = []).
Proof.
  intros Hx Hs Hop.
  assert (Hunit : forall (A : Type) (m : M () A), outcome no_local False m s (fun _ _ => True) ->
    outcome no_local False (let! _ := m in ret ([] : list NodeId)) s (fun out _ => out = [])).
  { intros A m H. unfold outcome, bind in *. destruct (m s) as [[a s']|]; [|done]. cbn. tauto. }
  destruct c as [| | | | | | | | | | | | | | | |i|i|i]; try done; cbn [call_run]; apply Hunit;
    (assert (Hi : node_valid (nodes s.1) i) by (apply Hop; by left)).
  - by apply to_dnf_outcome.
  - unfold try_to_string. destruct (node_is_true i); [by apply outcome_ret_unit|].
    apply outcome_bind_unit; [|intros text s1 Hs1 _; by apply outcome_ret_unit].
    unfold contents_display. destruct (node_is_false i); [by apply outcome_ret_unit|].
    apply outcome_bind_unit; [by apply to_dnf_outcome|]. intros dnf s1 Hs1 _. by apply outcome_ret_unit.
  - unfold top_level_extra_name. apply outcome_bind_unit; [by apply outcome_interner_unit|]. intros st s1 Hs1 Hp1.
    apply outcome_bind_unit; [by apply outcome_lift_unit|]. intros k s2 Hs2 Hp2.
    assert (Hslow : outcome no_local False (let! found := top_level_extra i in
      match found with None => ret None | Some (ExprExtra name _) => ret (into_extra name) | Some _ => lift_option None end) s2 (fun _ _ => True)).
    { apply outcome_bind_unit.
      - apply outcome_bind_unit; [apply to_dnf_outcome; [done|]|intros dnf s3 Hs3 _; by apply outcome_ret_unit].
        apply (valid_extend (nodes s.1)); [by transitivity (nodes s1.1)|done].
      - intros found s3 Hs3 _. destruct found as [[]|]; try (by apply outcome_ret_unit); by apply outcome_lift_unit. }
    destruct k; try exact Hslow. destruct (node_is_true _); [by apply outcome_ret_unit|exact Hslow].
Qed.

Lemma api_init_ok : api_ok api_init.
Proof.
  split; [apply interner_new_ok|]. cbn. intros i [->|[->|?%elem_of_nil]%elem_of_cons]%elem_of_cons;
    [apply true_valid|apply false_valid|done].
Qed.

(** A call that does not extract a cover returns. *)
Lemma api_call_returns c st issued :
  api_ok (mkApiState st issued) -> extracts c = false -> call_ok c -> (forall i, i ∈ call_operands c -> i ∈ issued) ->
  exists out st', call_run c (st, tt) = Some (out, (st', tt)).
Proof.
  intros [H1 H2] Hx Hc Hop. cbn in H1, H2.
  destruct (call_runs c (st, tt)) as (out & [st' []] & E & _); [done|by split|done|intros; by apply H2, Hop|]. by exists out, st'.
Qed.

(** A call that returns keeps the invariant and the nodes. *)
Lemma api_step_ok s s' : api_ok s -> api_step s s' -> api_ok s' /\ nodes (api_interner s) `prefix_of` nodes (api_interner s').
Proof.
  intros [H1 H2] Hstep. destruct Hstep as [c st issued st' out Hc Hop E]. cbn in H1, H2 |- *.
  assert (Hst : state_ok no_local (st, tt)) by by split.
  assert (Hv : forall i, i ∈ call_operands c -> node_valid (nodes st) i) by (intros; by apply H2, Hop).
  assert (H : interner_ok st' /\ nodes st `prefix_of` nodes st' /\ forall i, i ∈ out -> node_valid (nodes st') i).
  { destruct (extracts c) eqn:Hx.
    - pose proof (extraction_outcome c (st, tt) Hx Hst Hv) as H. unfold outcome in H. rewrite E in H.
      destruct H as ([Hok _] & Hp & ->). split_and!; [done|done|]. by intros i ?%elem_of_nil.
    - destruct (call_runs c (st, tt) Hx Hst Hc Hv) as (out' & [st'' []] & E' & [Hok _] & Hp & Hout).
      rewrite E in E'. by injection E' as <- <-. }
  destruct H as (Hok & Hp & Hout). split; [|done]. split; [done|]. cbn.
  intros i [Hi|Hi]%elem_of_app; [by apply Hout|]. specialize (H2 i Hi). extend.
Qed.

Lemma api_reachable_ok s : api_reachable s -> api_ok s.
Proof. induction 1 as [|s s' _ IH Hstep]; [apply api_init_ok|]. by apply (api_step_ok s s'). Qed.

(** A state after a call; calls that are not possible leave it. *)
Definition api_exec (s : ApiState) (c : Call) : ApiState :=
  match call_run c (api_interner s, tt) with
  | Some (out, (st', _)) => mkApiState st' (out ++ api_issued s)
  | None => s
  end.

Lemma api_exec_reachable s c :
  api_reachable s -> call_ok c -> forallb (fun i => bool_decide (i ∈ api_issued s)) (call_operands c) = true ->
  api_reachable (api_exec s c).
Proof.
  intros Hs Hc Hop. destruct s as [st issued].
  assert (Hop' : forall i, i ∈ call_operands c -> i ∈ issued).
  { intros i Hi%list_elem_of_In. rewrite forallb_forall in Hop. by apply Hop, bool_decide_eq_true in Hi. }
  unfold api_exec. cbn [api_interner api_issued]. destruct (call_run c (st, tt)) as [[out [st' []]]|] eqn:E; [|done].
  by eapply api_reachable_step, api_call.
Qed.

(** ** Results *)

(** A computation returns, keeps the interner well-formed and its nodes, and satisfies [Q]. *)
Definition yields {A : Type} (m : M () A) (st : Interner) (Q : A -> list Node -> Prop) : Prop :=
  exists a st', m (st, tt) = Some (a, (st', tt)) /\ interner_ok st' /\ nodes st `prefix_of` nodes st' /\ Q a (nodes st').

Lemma runs_yields {A : Type} (m : M () A) st (P Q : A -> list Node -> Prop) :
  interner_ok st -> (state_ok no_local (st, tt) -> runs no_local m (st, tt) P) ->
  (forall a table, table_ok table -> nodes st `prefix_of` table -> P a table -> Q a table) -> yields m st Q.
Proof.
  intros Hst Hm HPQ. destruct Hm as (a & [st' []] & E & [Hok _] & Hp & HP); [by split|].
  exists a, st'. split_and!; [done..|]. apply HPQ; [apply Hok|done..].
Qed.

(** What a computation returns satisfies a test. *)
Definition returns_with {A : Type} (m : M () A) (st : Interner) (test : A -> Interner -> bool) : bool :=
  match m (st, tt) with Some (a, (st', _)) => test a st' | None => false end.

Lemma returns_with_eq {A : Type} (m : M () A) st test a st' :
  m (st, tt) = Some (a, (st', tt)) -> returns_with m st test = true -> test a st' = true.
Proof. unfold returns_with. by intros ->. Qed.

(** [r] evaluates to the combination of the values of two markers, in every environment that the
    exclusions allow and in which they can be evaluated. *)
Definition combines (st : Interner) (i j : NodeId) (f : bool -> bool -> bool) (r : NodeId) (table : list Node) : Prop :=
  forall env extras, allowed (environment_at env extras) ->
    all_vars (nodes st) (has_value env) i -> all_vars (nodes st) (has_value env) j ->
    exists x y, evaluate_in (nodes st) env extras i = Some x /\ evaluate_in (nodes st) env extras j = Some y /\
      evaluate_in table env extras r = Some (f x y).

Lemma combines_intro st i j f r table :
  table_ok (nodes st) -> node_valid (nodes st) i -> node_valid (nodes st) j -> table_ok table ->
  nodes st `prefix_of` table -> node_valid table r ->
  (forall P, all_vars table P i -> all_vars table P j -> all_vars table P r) ->
  (forall sigma, allowed sigma -> eval table sigma r = f (eval table sigma i) (eval table sigma j)) ->
  combines st i j f r table.
Proof.
  intros Hok Hi Hj Hok' Hp Hr Hv He env extras Hal Vi Vj.
  exists (eval (nodes st) (environment_at env extras) i), (eval (nodes st) (environment_at env extras) j).
  rewrite !evaluate_in_spec; try done.
  - by rewrite (He _ Hal), !(eval_extend (nodes st) table).
  - by apply Hv; apply (all_vars_extend (nodes st)).
Qed.

(** The tree evaluates to [P] in every environment of released versions that the exclusions allow. *)
Definition tree_denotes (P : Valuation -> bool) (tree : NodeId) (table : list Node) : Prop :=
  node_valid table tree /\
  forall env extras, environment (environment_at env extras) -> all_vars table (has_value env) tree ->
    evaluate_in table env extras tree = Some (P (environment_at env extras)).

Lemma means_denotes P Q tree table :
  table_ok table -> means environment P tree table -> (forall sigma, P sigma = Q sigma) -> tree_denotes Q tree table.
Proof.
  intros Hok [Hv HP] HPQ. split; [done|]. intros env extras Henv Hvars. by rewrite evaluate_in_spec, (HP _ Henv), HPQ.
Qed.
End Api.

(** * Markers: examples

    The interner with the concrete ranges of [RangesSegments], an environment, and the states after
    a few calls: the inputs on which the theorems on markers are applied. *)

Definition version_ranges : RangeOps Version := segment_ops version_cmp_slow.
Definition string_ranges : RangeOps (list Z) := segment_ops string_cmp.

Lemma version_ranges_laws : RangeLaws version_cmp_slow (RangeOps0 := version_ranges).
Proof. exact (segments_laws _). Qed.

Lemma string_ranges_laws : RangeLaws string_cmp (RangeOps0 := string_ranges).
Proof. exact (segments_laws _). Qed.

#[local] Existing Instances version_ranges string_ranges version_ranges_laws string_ranges_laws.

(** Linux on CPython 3.12.1. *)
Definition linux_env : MarkerEnvironment :=
  mkMarkerEnvironment (bytes "cpython") (string_version_from (version_of "3.12.1")) (bytes "posix") (bytes "x86_64")
    (bytes "CPython") (bytes "6.1.0") (bytes "Linux") (bytes "#1 SMP") (string_version_from (version_of "3.12.1"))
    (string_version_from (version_of "3.12")) (bytes "linux").

(** [os_name == 'posix'], [sys_platform == 'linux'], [extra == 'dev'] and [python_version >= '3.9']. *)
Definition posix_call : Call := CallExpression (ExprString MvOsName MEqual (bytes "posix")).
Definition linux_call : Call := CallExpression (ExprString MvSysPlatform MEqual (bytes "linux")).
Definition dev_call : Call := CallExpression (ExprExtra (ExtraValid (bytes "dev")) ExtraEqual).
Definition python_call : Call :=
  CallExpression (ExprVersion MvPythonVersion (specifier_of ">=3.9")).

(** The references, from the last call to the first. *)
Definition example_state : ApiState :=
  api_exec (api_exec (api_exec (api_exec api_init posix_call) linux_call) dev_call) python_call.

Definition posix_node : NodeId := nth 3 (api_issued example_state) 0.
Definition linux_node : NodeId := nth 2 (api_issued example_state) 0.
Definition dev_node : NodeId := nth 1 (api_issued example_state) 0.
Definition python_node : NodeId := nth 0 (api_issued example_state) 0.

(** A marker on several variables: [os_name == 'posix' and extra == 'dev']. *)
Definition both_state : ApiState := api_exec example_state (CallAnd posix_node dev_node).
Definition both_node : NodeId := nth 0 (api_issued both_state) 0.

Lemma python_expression_ok : expression_ok (ExprVersion MvPythonVersion (specifier_of ">=3.9")).
Proof. by apply specifier_of_valid; vm_compute. Qed.

Lemma string_expression_ok key value : expression_ok (ExprString key MEqual (bytes value)).
Proof. split; [done|apply bytes_u8]. Qed.

Lemma example_reachable : api_reachable example_state.
Proof.
  apply api_exec_reachable; [|exact python_expression_ok|done].
  apply api_exec_reachable; [|exact I|done].
  apply api_exec_reachable; [|apply string_expression_ok|done].
  apply api_exec_reachable; [|apply string_expression_ok|done].
  apply api_reachable_init.
Qed.

Lemma both_reachable : api_reachable both_state.
Proof. apply api_exec_reachable; [apply example_reachable|done|by vm_compute]. Qed.

Lemma example_ok : interner_ok (api_interner example_state).
Proof. apply api_reachable_ok, example_reachable. Qed.

Lemma both_ok : interner_ok (api_interner both_state).
Proof. apply api_reachable_ok, both_reachable. Qed.

(** The references of the states are valid. *)
Lemma example_valid i :
  bool_decide (i ∈ api_issued example_state) = true -> node_valid (nodes (api_interner example_state)) i.
Proof. intros H%bool_decide_eq_true. by apply (api_ok_issued _ (api_reachable_ok _ example_reachable)). Qed.

Lemma both_valid i :
  bool_decide (i ∈ api_issued both_state) = true -> node_valid (nodes (api_interner both_state)) i.
Proof. intros H%bool_decide_eq_true. by apply (api_ok_issued _ (api_reachable_ok _ both_reachable)). Qed.

(** Linux is an environment of releases. *)
Lemma linux_environment extras : environment (environment_at linux_env extras).
Proof.
  assert (R1 : release_version (version_of "3.12.1")) by (apply version_of_release; by vm_compute).
  assert (R2 : release_version (version_of "6.1.0")) by (apply version_of_release; by vm_compute).
  split; [by vm_compute|]. split.
  - intros [k|k|[]|k v|k v|e|p]; try exact R1.
    destruct k; try exact R1. exact R2.
  - by exists 3, 12, [1].
Qed.
