(* ===== verification/RequiresPython.v ===== *)
(** * Supported Python versions

    [crates/uv-distribution-types/src/requires_python.rs]: the specifiers of the Python versions
    that a project supports together with their bounds, the narrowing of the bounds during
    resolution, their marker, the filter of wheels by their tags, and markers that are simplified to
    the supported versions. [None] is a panic: versions need a release number. *)

From stdpp Require Import base countable list option numbers decidable strings gmap.
From Stdlib Require Import ZArith Lia.
From S2P Require Import Prelude Text Libraries LanguageTag AbiTag Platform PlatformTag Tags WheelFilename.
From S2P Require Import Ranges VersionTypes VersionSmall Version VersionOrder VersionParser VersionSpecifier.
From S2P Require Import VersionRanges MarkerTypes Interner MarkerAlgebra MarkerRestrict MarkerTree.

Local Open Scope Z_scope.
Local Open Scope uv_scope.

(** ** Bounds *)

(** [RequiresPythonRange(LowerBound, UpperBound)]. *)
Record RequiresPythonRange : Type := mkPythonRange {
  python_lower : Bound;
  python_upper : Bound
}.

Definition python_range_default : RequiresPythonRange := mkPythonRange Unbounded Unbounded.

(** The derived equality of bounds. *)
Definition bound_version_eq (a b : Bound) : bool :=
  match a, b with
  | Included v, Included w | Excluded v, Excluded w => version_eq v w
  | Unbounded, Unbounded => true
  | _, _ => false
  end.

Definition python_range_eq (a b : RequiresPythonRange) : bool :=
  bound_version_eq (python_lower a) (python_lower b) && bound_version_eq (python_upper a) (python_upper b).

Definition python_range_specifiers (self : RequiresPythonRange) : VersionSpecifiers :=
  specifiers_from_unsorted
    (option_list (lower_bound_specifier (python_lower self)) ++ option_list (upper_bound_specifier (python_upper self))).

(** ** Supported versions *)

Record RequiresPython : Type := mkRequires {
  requires_specifiers : VersionSpecifiers;
  requires_range : RequiresPythonRange
}.

Section RequiresPython.
Context {RV : RangeOps Version}.

#[local] Existing Instances MarkerTypes.version_ranges MarkerTypes.version_algebra.

(** [release_specifiers_to_ranges] of [version_ranges.rs]. *)
Definition release_ranges (specifiers : VersionSpecifiers) : option (range Version) :=
  release_specifiers_to_ranges specifiers.

(** [bounding_range().map(..).unwrap_or((Unbounded, Unbounded))]. *)
Definition bounding_or_unbounded (r : range Version) : Bound * Bound :=
  default (Unbounded, Unbounded) (range_bounding r).

Definition python_range_from_range (r : range Version) : RequiresPythonRange :=
  let '(lower, upper) := bounding_or_unbounded r in mkPythonRange lower upper.

(** [Ranges::from(RequiresPythonRange)]. *)
Definition python_range_ranges (self : RequiresPythonRange) : range Version :=
  range_from_bounds (python_lower self) (python_upper self).

Definition requires_greater_than_equal_version (version : Version) : option RequiresPython :=
  version ← version_only_release version;
  lower ← lower_bound_new (Included version);
  upper ← upper_bound_new Unbounded;
  Some (mkRequires [greater_than_equal_version version] (mkPythonRange lower upper)).

Definition requires_from_specifiers (specifiers : VersionSpecifiers) : option RequiresPython :=
  r ← release_ranges specifiers;
  let '(lower_bound, upper_bound) := bounding_or_unbounded r in
  lower ← lower_bound_new lower_bound;
  upper ← upper_bound_new upper_bound;
  Some (mkRequires specifiers (mkPythonRange lower upper)).

(** [Deserialize], after the specifiers. *)
Definition requires_deserialized (specifiers : VersionSpecifiers) : option RequiresPython :=
  r ← release_ranges specifiers;
  Some (mkRequires specifiers (python_range_from_range r)).

(** [map(..).reduce(..)]. *)
Fixpoint reduce_ranges (acc : range Version) (specifiers : list VersionSpecifiers) : option (range Version) :=
  match specifiers with
  | [] => Some acc
  | specs :: specifiers' =>
      r ← release_ranges specs;
      reduce_ranges (range_intersection acc r) specifiers'
  end.

Definition requires_of_range (r : range Version) : option RequiresPython :=
  specifiers ← specifiers_from_release_only_bounds (range_iter r);
  Some (mkRequires specifiers (python_range_from_range r)).

Definition requires_intersection (specifiers : list VersionSpecifiers) : option (option RequiresPython) :=
  match specifiers with
  | [] => Some None
  | specs :: specifiers' =>
      first ← release_ranges specs;
      r ← reduce_ranges first specifiers';
      if range_is_empty r then Some None else Some <$> requires_of_range r
  end.

Definition requires_split (self : RequiresPython) (bound : Bound) : option (option (RequiresPython * RequiresPython)) :=
  let upper := range_from_bounds bound (python_upper (requires_range self)) in
  let lower := range_complement upper in
  let lower := range_intersection lower (python_range_ranges (requires_range self)) in
  let upper := range_intersection upper (python_range_ranges (requires_range self)) in
  if range_is_empty lower || range_is_empty upper then Some None
  else
    below ← requires_of_range lower;
    above ← requires_of_range upper;
    Some (Some (below, above)).

Definition requires_narrow (self : RequiresPython) (r : RequiresPythonRange) : option RequiresPython :=
  if python_range_eq r (requires_range self) then None
  else
    let current := requires_range self in
    let lower :=
      if bool_decide (lower_bound_cmp (python_lower r) (python_lower current) <> Lt) then Some (python_lower r) else None in
    let upper :=
      if bool_decide (upper_bound_cmp (python_upper r) (python_upper current) <> Gt) then Some (python_upper r) else None in
    narrowed ←
      match lower, upper with
      | Some lower, Some upper => Some (mkPythonRange lower upper)
      | Some lower, None => Some (mkPythonRange lower (python_upper current))
      | None, Some upper => Some (mkPythonRange (python_lower current) upper)
      | None, None => None
      end;
    Some (mkRequires (python_range_specifiers narrowed) narrowed).

Definition requires_contains (self : RequiresPython) (version : Version) : option bool :=
  version ← version_only_release version;
  specifiers_contains (requires_specifiers self) version.

Definition is_contained_by (self : RequiresPython) (target : VersionSpecifiers) : option bool :=
  r ← release_ranges target;
  let target := (bounding_or_unbounded r).1 in
  Some (bool_decide (lower_bound_cmp (python_lower (requires_range self)) target <> Lt)).

Definition requires_is_unbounded (self : RequiresPython) : bool :=
  bound_version_eq (python_lower (requires_range self)) Unbounded.

Definition is_exact_without_patch (self : RequiresPython) : bool :=
  match python_lower (requires_range self) with
  | Included version =>
      (length (version_release version) =? 2)%nat && bound_version_eq (python_upper (requires_range self)) (Included version)
  | _ => false
  end.

(** [u8::try_from]. *)
Definition try_u8 (n : Z) : option Z := if n <=? U8_MAX then Some n else None.

Definition requires_abi_tag (self : RequiresPython) : option AbiTag :=
  match python_lower (requires_range self) with
  | Included version | Excluded version =>
      major ← version_release version !! 0%nat;
      major ← try_u8 major;
      minor ← version_release version !! 1%nat;
      minor ← try_u8 minor;
      Some (AbiCPython (major, minor) 0)
  | Unbounded => None
  end.

(** ** Wheels *)

(** The wheel is for a version before the lower bound, after the upper bound. *)
Definition wheel_below (self : RequiresPython) (minor : Z) : option bool :=
  version ← version_new [3; minor];
  lower ← lower_bound_major_minor (python_lower (requires_range self));
  Some (bool_decide (lower_bound_cmp (Included version) lower = Lt)).

Definition wheel_above (self : RequiresPython) (minor : Z) : option bool :=
  version ← version_new [3; minor];
  upper ← upper_bound_major_minor (python_upper (requires_range self));
  Some (bool_decide (upper_bound_cmp (Included version) upper = Gt)).

Definition wheel_exact (self : RequiresPython) (minor : Z) : option bool :=
  before ← wheel_below self minor;
  if (before : bool) then Some false
  else
    after ← wheel_above self minor;
    if (after : bool) then Some false else Some true.

Definition python_tag_is_2 (python_tag : LanguageTag) : bool :=
  match python_tag with
  | LangPython major _ => major =? 2
  | LangCPython v | LangPyPy v | LangGraalPy v | LangPyston v => v.1 =? 2
  | _ => false
  end.

Definition matches_python_tag (self : RequiresPython) (python_tag : LanguageTag) : option bool :=
  if python_tag_is_2 python_tag then Some false
  else
    match python_tag with
    | LangPython 3 (Some minor) =>
        after ← wheel_above self minor;
        if (after : bool) then Some false else Some true
    | LangCPython (3, minor) | LangPyPy (3, minor) | LangGraalPy (3, minor) | LangPyston (3, minor) =>
        wheel_exact self minor
    | _ => Some true
    end.

Definition abi_tag_is_2 (abi_tag : AbiTag) : bool :=
  match abi_tag with
  | AbiCPython v _ | AbiGraalPy v _ => v.1 =? 2
  | AbiPyPy v _ => match v with None => true | Some v => v.1 =? 2 end
  | _ => false
  end.

Definition matches_abi_tag (self : RequiresPython) (python_tags : list LanguageTag) (abi_tag : AbiTag) : option bool :=
  if is_stable_abi abi_tag then Some true
  else if bool_decide (abi_tag = AbiNone) then any_option (matches_python_tag self) python_tags
  else if abi_tag_is_2 abi_tag then Some false
  else
    match abi_tag with
    | AbiCPython (3, minor) _ | AbiPyPy (Some (3, minor)) _ | AbiGraalPy (3, minor) _ => wheel_exact self minor
    | _ => Some true
    end.

Definition matches_wheel_tag (self : RequiresPython) (wheel : WheelFilename) : option bool :=
  any_option (matches_abi_tag self (wheel_python_tags (wheel_tags wheel))) (wheel_abi_tags (wheel_tags wheel)).

(** ** Markers *)

Context {RS : RangeOps (list Z)} {C : Type}.

Definition full_version_expression (specifier : VersionSpecifier) : M C NodeId :=
  tree_expression (ExprVersion MvPythonFullVersion specifier).

Definition requires_to_marker_tree (self : RequiresPython) : M C NodeId :=
  let both lower upper :=
    let! lower := full_version_expression lower in
    let! upper := full_version_expression upper in
    tree_and lower upper in
  match python_lower (requires_range self), python_upper (requires_range self) with
  | Included lower, Included upper => both (greater_than_equal_version lower) (less_than_equal_version upper)
  | Included lower, Excluded upper => both (greater_than_equal_version lower) (less_than_version upper)
  | Excluded lower, Included upper => both (greater_than_version lower) (less_than_equal_version upper)
  | Excluded lower, Excluded upper => both (greater_than_version lower) (less_than_version upper)
  | Unbounded, Unbounded => ret NODE_TRUE
  | Unbounded, Included upper => full_version_expression (less_than_equal_version upper)
  | Unbounded, Excluded upper => full_version_expression (less_than_version upper)
  | Included lower, Unbounded => full_version_expression (greater_than_equal_version lower)
  | Excluded lower, Unbounded => full_version_expression (greater_than_version lower)
  end.

Definition simplify_markers (self : RequiresPython) (marker : NodeId) : M C NodeId :=
  tree_simplify_python_versions marker (python_lower (requires_range self)) (python_upper (requires_range self)).

Definition complexify_markers (self : RequiresPython) (marker : NodeId) : M C NodeId :=
  tree_complexify_python_versions marker (python_lower (requires_range self)) (python_upper (requires_range self)).

(** [SimplifiedMarkerTree]: a marker that is only meant for the supported versions. *)
Definition simplified_new (requires_python : RequiresPython) (marker : NodeId) : M C NodeId :=
  simplify_markers requires_python marker.

Definition into_marker (self : NodeId) (requires_python : RequiresPython) : M C NodeId :=
  complexify_markers requires_python self.

Definition simplified_and (self marker : NodeId) : M C NodeId := tree_and self marker.
End RequiresPython.
