(* ===== verification/RequiresPythonFacts.v ===== *)
(** * Supported Python versions, verified

    The ranges of [requires_python.rs] against membership of versions: the specifiers of a range, the
    intersection, the split and the narrowing of supported versions, their marker, and the filter of
    wheels. *)

From stdpp Require Import base countable list option numbers decidable strings gmap sorting.
From Stdlib Require Import ZArith Lia.
From S2P Require Import Prelude Text Libraries LanguageTag AbiTag Platform PlatformTag Tags WheelFilename EnvTags.
From S2P Require Import Ranges VersionTypes VersionSmall Version VersionOrder VersionCacheKey VersionParser.
From S2P Require Import VersionSpecifier VersionRanges VersionRangesFacts ReleaseRanges SpecifierFacts SpecifierBounds.
From S2P Require Import MarkerTypes Interner EdgesOrder MarkerAlgebra MarkerRestrict MarkerTree.
From S2P Require Import MarkerEval InternerFacts EdgesFacts AlgebraFacts ExclusionFacts ExpressionFacts RestrictFacts.
From S2P Require Import AssumptionFacts PythonFacts SubstitutionFacts PythonVersion TreeFacts RequiresPython.

Local Open Scope Z_scope.
Local Open Scope uv_scope.

#[local] Existing Instances MarkerTypes.version_ranges MarkerTypes.version_algebra.

(** ** Specifiers of Python versions *)

(** Numbers that can be incremented twice. *)
Definition release_below_max (v : Version) : Prop :=
  Forall (fun n => is_number n /\ is_number (n + 1)) (version_release v).

(** A specifier of releases, whose numbers can be incremented. *)
Definition python_specifier (x : VersionSpecifier) : Prop :=
  specifier_valid x /\ release_version (specifier_version x) /\ release_below_max (specifier_version x).

(** A version within the bounds. *)
Definition range_admits (r : RequiresPythonRange) (w : Version) : bool :=
  lower_bound_contains (python_lower r) w && upper_bound_contains (python_upper r) w.

Definition bounds_release (r : RequiresPythonRange) : Prop :=
  bound_release (python_lower r) /\ bound_release (python_upper r).

Lemma release_comparable v : release_version v -> comparable v.
Proof. intros H. apply (release_stands v H). Qed.

Lemma stands_release v ns : stands_for v (release_only ns) -> Forall is_number ns -> ns <> [] -> release_version v.
Proof.
  intros [[W _] E] Hn Hne. assert (Er : version_release v = ns) by (by rewrite release_full, E).
  split; [|by rewrite Er, E]. split; [split; [done|by rewrite Er]|]. rewrite E. split; cbn; try done.
  eapply Forall_impl; [exact Hn|]. by intros n [].
Qed.

Section Ranges.
Context {RV : RangeOps Version} {LV : RangeLaws version_cmp_slow}.

(** The range of a specifier: its members and the versions of its bounds. *)
Lemma python_specifier_range x :
  python_specifier x ->
  exists r : range Version, release_specifier_to_range x false = Some r /\ Forall release_version (range_values r) /\
    forall w, release_version w -> range_contains r w = matches x w.
Proof.
  destruct x as [op u]. intros (V & Hu & Hmax). cbn in Hu, Hmax.
  destruct (release_range_matches op u false Hu V) as (r & E & Hr). exists r. split_and!; [done| |done].
  assert (Hn : Forall is_number (version_release u)) by by apply release_numbers.
  assert (Hne : version_release u <> []) by apply Hu.
  apply (release_range_values release_version op u false); [done..| | | |done].
  - intros t Et. destruct (only_release_release u (proj1 Hu)) as (t' & Et' & Ht & _). rewrite Et in Et'. by injection Et' as ->.
  - intros high Eb. destruct (release_star_bounds_spec u Hu) as (high' & Eb' & Sh). rewrite Eb in Eb'. injection Eb' as <-.
    apply (stands_release high (succ_last (version_release u))); [done| |by apply succ_last_nonempty].
    clear -Hmax. unfold release_below_max in Hmax. induction Hmax as [|n l [H1 H2] Hl IH]; [constructor|].
    destruct l as [|m l]; [by apply Forall_cons_2|]. rewrite succ_last_cons by done. by apply Forall_cons_2.
  - intros rest last upper E1 E2. assert (Hlen : (2 <= length (version_release u))%nat).
    { unfold split_last_two in E1. destruct (version_release u) as [|x [|y l]]; [done..|cbn; lia]. }
    destruct (split_last_two_spec _ Hlen) as (rest' & last' & x & Es & Er). rewrite E1 in Es. injection Es as <- <-.
    unfold release_below_max in Hmax. rewrite Er in Hmax, Hn. apply Forall_app in Hmax as [Hmax _], Hn as [Hn _].
    apply Forall_app in Hmax as [_ Hl]. apply Forall_inv in Hl as [L1 L2]. apply Forall_app in Hn as [Hn _].
    rewrite (wrapping_succ last L1) in E2. apply (new_release (rest ++ [last + 1])); [|done].
    apply Forall_app_2; [done|by apply Forall_cons_2].
Qed.

Lemma intersection_values_from (P : Version -> Prop) (r s : range Version) :
  Forall P (range_values r) -> Forall P (range_values s) -> Forall P (range_values (range_intersection r s)).
Proof. apply (good_intersection version_cmp_slow). Qed.

(** The range of a list of specifiers. *)
Lemma release_ranges_spec xs :
  Forall python_specifier xs ->
  exists r : range Version, release_ranges xs = Some r /\ Forall release_version (range_values r) /\
    forall w, release_version w -> Some (range_contains r w) = specifiers_contains xs w.
Proof.
  intros Hxs. unfold release_ranges, release_specifiers_to_ranges.
  assert (Hfold : forall acc : range Version, Forall release_version (range_values acc) ->
    exists r : range Version, foldl (fun range specifier =>
        option_bind _ _ (fun range => option_bind _ _ (fun r => Some (ranges_intersection range r))
          (release_specifier_to_range specifier false)) range) (Some acc) xs = Some r /\
      Forall release_version (range_values r) /\
      forall w, release_version w -> range_contains r w = range_contains acc w && forallb (fun x => matches x w) xs).
  { induction Hxs as [|x xs Hx _ IH]; intros acc Hacc.
    - exists acc. split_and!; [done..|]. intros w _. by rewrite andb_true_r.
    - destruct (python_specifier_range x Hx) as (r & E & Hv & Hr). cbn [foldl mbind option_bind]. rewrite E. cbn [mbind option_bind].
      destruct (IH (range_intersection acc r)) as (r' & E' & Hv' & Hr'); [by apply intersection_values_from|].
      exists r'. split_and!; [done..|]. intros w Hw.
      rewrite Hr', (range_contains_intersection (cmp := version_cmp_slow)), Hr by done. by rewrite <- andb_assoc. }
  destruct (Hfold range_full) as (r & E & Hv & Hr).
  { unfold range_values. rewrite (range_iter_full (cmp := version_cmp_slow)). apply Forall_nil_2. }
  exists r. split_and!; [done..|]. intros w Hw. rewrite Hr by done.
  rewrite specifiers_contains_forallb by (eapply Forall_impl; [exact Hxs|]; by intros x []).
  by rewrite (range_contains_full (cmp := version_cmp_slow)).
Qed.

(** ** Bounds *)

Notation law := version_cmp_slow.

#[local] Instance python_points_order : OrdLaws (point_cmp law).
Proof. apply point_order. apply _. Qed.

Lemma bound_release_values b : bound_release b <-> Forall release_version (bound_values b).
Proof. destruct b; cbn; rewrite ?Forall_singleton; [done..|]. split; [constructor|done]. Qed.

Lemma bound_release_comparable b : bound_release b -> Forall comparable (bound_values b).
Proof. rewrite bound_release_values. intros H. eapply Forall_impl; [exact H|]. apply release_comparable. Qed.

Lemma values_comparable (r : range Version) : Forall release_version (range_values r) -> Forall comparable (range_values r).
Proof. intros H. eapply Forall_impl; [exact H|]. apply release_comparable. Qed.

(** The tests of bounds, in the code and in the ranges. *)
Lemma admits_segment lo up w :
  Forall comparable (bound_values lo) -> Forall comparable (bound_values up) -> comparable w ->
  range_admits (mkPythonRange lo up) w = segment_contains law w (lo, up).
Proof.
  intros Hl Hu Cw. unfold range_admits, segment_contains. cbn [python_lower python_upper fst snd]. f_equal.
  - destruct lo as [v|v|]; cbn; [..|done]; apply Forall_inv in Hl; destruct (slow_tests v w Hl Cw) as (_ & H1 & H2 & _);
      cbn in H1, H2; by rewrite ?H1, ?H2.
  - destruct up as [v|v|]; cbn [upper_bound_contains segment_below]; [..|done]; apply Forall_inv in Hu;
      destruct (slow_tests v w Hu Cw) as (_ & _ & _ & H3 & H4); cbn in H3, H4; rewrite ?H3, ?H4;
      unfold version_ge, version_gt, version_le, version_lt; destruct Hu, Cw;
      rewrite !version_cmp_is_slow, (cmp_opp law v w) by done; by destruct (law v w).
Qed.

Lemma admits_in_segment lo up w :
  bound_release lo -> bound_release up -> release_version w ->
  range_admits (mkPythonRange lo up) w = in_segment w (lo, up).
Proof.
  intros Hl Hu Hw. unfold range_admits, in_segment. cbn. f_equal. by apply below_contains.
Qed.

Lemma lower_cmp_points a b :
  Forall comparable (bound_values a) -> Forall comparable (bound_values b) ->
  (lower_bound_cmp a b <> Gt -> forall p, point_above law b p = true -> point_above law a p = true) /\
  (lower_bound_cmp a b = Gt -> forall p, point_above law a p = true -> point_above law b p = true).
Proof.
  intros Ha Hb. destruct (start_cmp_above law comparable version_cmp version_cmp_good a b Ha Hb) as [H1 H2].
  assert (E : lower_bound_cmp a b = Gt <-> start_cmp version_cmp a b = Gt).
  { destruct a, b; cbn; try done; by destruct (version_cmp _ _). }
  split; [intros H; apply H1; by rewrite <- E|intros H; apply H2; by apply E].
Qed.

Lemma upper_cmp_points a b :
  Forall comparable (bound_values a) -> Forall comparable (bound_values b) -> upper_bound_cmp a b = Gt ->
  forall p, point_below law b p = true -> point_below law a p = true.
Proof.
  assert (Hlift : forall x y, point_cmp law (x, 0) (y, 0) = law x y) by (intros x y; unfold point_cmp, cmp_pair; cbn; by destruct (law x y)).
  destruct a as [u|u|], b as [v|v|]; cbn [bound_values upper_bound_cmp]; try done; intros Ha Hb;
    apply Forall_inv in Ha, Hb; rewrite (version_cmp_good u v Ha Hb); intros E p; unfold point_below; cbn;
    rewrite !bool_decide_eq_true; intros Hp; assert (Ho : law v u = CompOpp (law u v)) by apply (cmp_opp law);
    destruct (law u v) eqn:Euv; try done; cbn in Ho.
  - eapply (cmp_le_trans (point_cmp law)); [exact Hp|by rewrite Hlift, Ho].
  - rewrite (cmp_lt_le_trans (point_cmp law) p (v, 0) (u, 0)); [done|done|by rewrite Hlift, Ho].
  - rewrite (cmp_lt_le_trans (point_cmp law) p (v, 0) (u, 0)); [done|done|by rewrite Hlift, Ho].
  - eapply (cmp_le_lt_trans (point_cmp law)); [exact Hp|by rewrite Hlift, Ho].
  - eapply (cmp_lt_le_trans (point_cmp law)); [exact Hp|by rewrite Hlift, Ho].
Qed.

(** Of separated segments the first has the smaller bounds. *)
Lemma separated_bounds s t :
  Forall comparable (bound_values s.1 ++ bound_values s.2) -> Forall comparable (bound_values t.1 ++ bound_values t.2) ->
  segment_valid law s.1 s.2 = true -> segment_valid law t.1 t.2 = true -> separated law s t ->
  lower_bound_cmp s.1 t.1 <> Gt /\ upper_bound_cmp s.2 t.2 <> Gt.
Proof.
  intros [Hs1 Hs2]%Forall_app [Ht1 Ht2]%Forall_app Vs Vt (g & Hg1 & Hg2).
  destruct (valid_point law _ _ Vs) as (m & [Hm1 Hm2]%andb_true_iff), (valid_point law _ _ Vt) as (n & [Hn1 Hn2]%andb_true_iff).
  cbn in *.
  pose proof (below_split law s.2 m g Hm2 Hg1) as Lm. pose proof (above_split law t.1 g n Hg2 Hn1) as Ln. split; intros E.
  - pose proof (proj2 (lower_cmp_points s.1 t.1 Hs1 Ht1) E m Hm1) as H. rewrite (above_mono law t.1 m g) in Hg2; [done|done|by rewrite Lm].
  - pose proof (upper_cmp_points s.2 t.2 Hs2 Ht2 E n Hn2) as H. rewrite (below_mono law s.2 g n) in Hg1; [done|done|by rewrite Ln].
Qed.

(** The segments of a range are in the order that the specifiers of a list of bounds need. *)
Lemma iter_ascending (r : range Version) s l :
  Forall release_version (range_values r) -> range_iter r = s :: l -> ascending s.1 s.2 l.
Proof.
  intros Hv E. pose proof (range_iter_valid (cmp := law) r) as Hvalid. pose proof (range_iter_separated (cmp := law) r) as Hsep.
  unfold range_values in Hv. rewrite E in *. clear E. revert s Hv Hvalid Hsep.
  induction l as [|t l IH]; intros s Hv Hvalid Hsep; unfold segments_values in Hv; rewrite bind_cons in Hv;
    apply Forall_app in Hv as [Hs Hv]; apply Forall_app in Hs; rewrite <- !bound_release_values in Hs;
    destruct Hs as [Hs1 Hs2]; [done|].
  apply Forall_cons in Hvalid as [Hvs Hvalid].
  apply StronglySorted_inv in Hsep as [Hsep Hst]. apply Forall_inv in Hst.
  specialize (IH t Hv Hvalid Hsep). destruct (ascending_release _ _ _ IH) as [Ht1 Ht2]. apply Forall_inv in Hvalid.
  destruct (separated_bounds s t) as [C1 C2]; [| |done..|].
  - by apply Forall_app_2; apply bound_release_comparable.
  - by apply Forall_app_2; apply bound_release_comparable.
  - by destruct t.
Qed.

(** ** Contiguous ranges *)

Notation "p ≼ q" := (point_cmp law p q <> Gt) (at level 70).

Definition convex (r : range Version) : Prop :=
  forall p q m, range_at law r p = true -> range_at law r q = true -> p ≼ m -> m ≼ q -> range_at law r m = true.

Lemma segment_convex (r : range Version) s : range_iter r = [s] -> convex r.
Proof. destruct s as [lower upper]. intros E p q m. apply (one_segment_convex law). by exists lower, upper. Qed.

Lemma bounds_convex lower upper : convex (range_from_bounds lower upper).
Proof.
  destruct (segment_valid law lower upper) eqn:E; [by apply (segment_convex _ (lower, upper)), (range_iter_from_bounds (cmp := law))|].
  intros p q m. unfold range_at. by rewrite (range_iter_invalid (cmp := law)).
Qed.

Lemma intersection_convex (r s : range Version) : convex r -> convex s -> convex (range_intersection r s).
Proof.
  intros Hr Hs p q m. rewrite !(range_at_intersection (cmp := law)), !andb_true_iff. intros [] [] ??.
  split; [by apply (Hr p q)|by apply (Hs p q)].
Qed.

(** Every operator but the negative ones describes a contiguous range. *)
Definition contiguous (x : VersionSpecifier) : Prop :=
  specifier_operator x <> NotEqual /\ specifier_operator x <> NotEqualStar.

Lemma specifier_range_convex x (r : range Version) :
  contiguous x -> release_specifier_to_range x false = Some r -> convex r.
Proof.
  destruct x as [op u]. intros [H1 H2]. unfold release_specifier_to_range. cbn in H1, H2 |- *.
  destruct (version_only_release u) as [t|]; [|done]. cbn [mbind option_bind]. destruct op; try done.
  all: repeat match goal with
              | |- context [release_star_bounds ?v] => destruct (release_star_bounds v) as [[low high]|]; [|done]
              | |- context [split_last_two ?l] => destruct (split_last_two l) as [[rest last]|]; [cbn [mbind option_bind]|done]
              | |- context [version_new ?l] => destruct (version_new l); [|done]
              end.
  all: intros [= <-]; first [apply bounds_convex | eapply segment_convex;
    first [apply (range_iter_singleton (cmp := law)) | apply (range_iter_strictly_lower (cmp := law))
          | apply (range_iter_lower (cmp := law)) | apply (range_iter_strictly_higher (cmp := law))
          | apply (range_iter_higher (cmp := law))]].
Qed.

Lemma release_ranges_convex xs (r : range Version) : Forall contiguous xs -> release_ranges xs = Some r -> convex r.
Proof.
  intros Hxs. unfold release_ranges, release_specifiers_to_ranges.
  assert (Hfull : convex range_full) by (eapply segment_convex, (range_iter_full (cmp := law))).
  change (ranges_full) with (range_full : range Version). revert Hfull. generalize (range_full : range Version).
  induction Hxs as [|x xs Hx _ IH]; intros acc Hacc; [by intros [= <-]|]. cbn [foldl mbind option_bind].
  destruct (release_specifier_to_range x false) as [r0|] eqn:E; cbn [mbind option_bind].
  - apply IH. apply intersection_convex; [done|by apply (specifier_range_convex x)].
  - clear. by induction xs.
Qed.

Lemma nonempty_segment (r : range Version) :
  convex r -> range_is_empty r = false -> exists lower upper, range_iter r = [(lower, upper)].
Proof. intros Hc He. by apply (convex_one_segment law). Qed.

(** ** The supported versions of a range *)

Definition released_version (v : Version) : Version := default v (version_only_release v).

Lemma released_contains v :
  version_real v -> release_version (released_version v) /\
    forall rp, requires_contains rp v = specifiers_contains (requires_specifiers rp) (released_version v).
Proof.
  intros Hv. unfold requires_contains, released_version. by destruct (only_release_release v Hv) as (u & -> & Hu & _).
Qed.

Lemma iter_in_segment (r : range Version) w :
  Forall release_version (range_values r) -> release_version w ->
  existsb (in_segment w) (range_iter r) = range_contains r w.
Proof.
  intros Hv Hw. rewrite (range_contains_iter (cmp := law)). unfold range_values in Hv.
  induction (range_iter r) as [|[lo up] l IH]; [done|]. unfold segments_values in Hv. rewrite bind_cons in Hv.
  apply Forall_app in Hv as [Hs Hv]. apply Forall_app in Hs as [Hl Hu]. cbn [existsb]. rewrite IH by done. f_equal.
  rewrite <- !bound_release_values in Hl, Hu. cbn in Hl, Hu.
  rewrite <- admits_in_segment by done. apply admits_segment; [by apply bound_release_comparable..|by apply release_comparable].
Qed.

(** The first lower bound and the last upper bound of a list in order. *)
Lemma ascending_bounds w s l f :
  release_version w -> ascending s.1 s.2 l -> last (s :: l) = Some f ->
  bound_release s.1 /\ bound_release f.2 /\ (below s.2 w = true -> below f.2 w = true) /\
  (existsb (in_segment w) (s :: l) = true -> above s.1 w = true /\ below f.2 w = true).
Proof.
  intros Hw. revert s. induction l as [|[tl tu] l IH]; intros s HA El; cbn [existsb].
  - injection El as <-. destruct HA as (Hs1 & Hs2 & _). split_and!; [done..|]. rewrite orb_false_r. apply andb_true_iff.
  - destruct HA as (Hs1 & Hs2 & C1 & C2 & HA). destruct (ascending_release _ _ _ HA) as [Ht1 Ht2].
    destruct (IH (tl, tu) HA El) as (_ & Hf & IHb & IHe). cbn in IHb.
    pose proof (below_monotone w Hw _ _ Hs2 Ht2 C2) as MB. pose proof (above_monotone w Hw _ _ Hs1 Ht1 C1) as MA.
    split_and!; [done..|auto|]. unfold in_segment at 1. rewrite orb_true_iff, andb_true_iff.
    intros [[Ha Hb]|[Ha Hb]%IHe]; auto.
Qed.

Lemma a_release : exists w, release_version w.
Proof.
  destruct (new_release_Some [3; 0]) as (w & _ & Hw & _); [|done|by exists w].
  repeat (apply Forall_cons_2; [unfold is_number, U64_MAX; lia|]). apply Forall_nil_2.
Qed.

(** What the supported versions made of a range admit. *)
Record describes_range (r : range Version) (rp : RequiresPython) : Prop := {
  describes_bounds : bounds_release (requires_range rp);
  describes_sound : forall w, release_version w -> range_contains r w = true ->
    specifiers_contains (requires_specifiers rp) w = Some true /\ range_admits (requires_range rp) w = true;
  describes_exact : convex r -> forall w, release_version w ->
    specifiers_contains (requires_specifiers rp) w = Some (range_contains r w) /\
    range_admits (requires_range rp) w = range_contains r w
}.

Lemma requires_of_range_spec (r : range Version) :
  Forall release_version (range_values r) -> range_is_empty r = false ->
  exists rp, requires_of_range r = Some rp /\ describes_range r rp.
Proof.
  intros Hv He. assert (Hiter : exists s l, range_iter r = s :: l).
  { rewrite (range_is_empty_iter (cmp := law)) in He. destruct (range_iter r) as [|s l]; [done|eauto]. }
  destruct Hiter as (s & l & E). pose proof (iter_ascending r s l Hv E) as HA.
  assert (Hlast : exists f, last (s :: l) = Some f) by (destruct (last (s :: l)) eqn:El; [eauto|by apply last_None in El]).
  destruct Hlast as [f El].
  assert (Hbounds : python_range_from_range r = mkPythonRange s.1 f.2).
  { unfold python_range_from_range, bounding_or_unbounded. rewrite (range_bounding_iter (cmp := law)), E. cbn [head]. by rewrite El. }
  assert (Hxs : exists xs, specifiers_from_release_only_bounds (range_iter r) = Some xs /\ forall w, release_version w ->
    (range_contains r w = true -> specifiers_contains xs w = Some true) /\
    (holes_described s.2 l -> specifiers_contains xs w = Some (range_contains r w))).
  { rewrite E. destruct s as [lo up]. destruct a_release as [w0 Hw0].
    destruct (release_only_bounds_list w0 Hw0 lo up l HA) as (xs & Exs & _). exists xs. split; [done|]. intros w Hw.
    destruct (release_only_bounds_list w Hw lo up l HA) as (xs' & Exs' & _ & H1 & H2).
    rewrite Exs in Exs'. injection Exs' as <-. rewrite <- (iter_in_segment r w Hv Hw), E. by split. }
  destruct Hxs as (xs & Exs & Hxs). unfold requires_of_range. rewrite Exs. cbn [mbind option_bind].
  eexists. split; [reflexivity|]. rewrite Hbounds. split; cbn [requires_specifiers requires_range].
  - destruct a_release as [w0 Hw0]. destruct (ascending_bounds w0 s l f Hw0 HA El) as (H1 & H2 & _). by split.
  - intros w Hw Hr. split; [by apply Hxs|]. destruct (ascending_bounds w s l f Hw HA El) as (H1 & H2 & _ & H3).
    rewrite admits_in_segment by done. rewrite <- (iter_in_segment r w Hv Hw), E in Hr. apply H3 in Hr as [Ha Hb].
    unfold in_segment. cbn. by rewrite Ha, Hb.
  - intros Hc w Hw. destruct (nonempty_segment r Hc He) as (lo & up & E'). rewrite E in E'. injection E' as -> ->.
    injection El as <-. split; [by apply Hxs|]. rewrite <- (iter_in_segment r w Hv Hw), E. cbn [existsb]. rewrite orb_false_r.
    destruct HA as (? & ? & _). by apply admits_in_segment.
Qed.

(** ** Intersection *)

Definition all_contain (specifiers : list VersionSpecifiers) (w : Version) : bool :=
  forallb (fun xs => default false (specifiers_contains xs w)) specifiers.

Lemma reduce_ranges_spec specifiers : forall acc : range Version,
  Forall (Forall python_specifier) specifiers -> Forall release_version (range_values acc) ->
  exists r, reduce_ranges acc specifiers = Some r /\ Forall release_version (range_values r) /\
    (forall w, release_version w -> range_contains r w = range_contains acc w && all_contain specifiers w) /\
    (Forall (Forall contiguous) specifiers -> convex acc -> convex r).
Proof.
  induction specifiers as [|xs specifiers IH]; intros acc Hs Hacc; cbn [reduce_ranges].
  - exists acc. split_and!; [done..| |done]. intros w _. by rewrite andb_true_r.
  - apply Forall_cons in Hs as [Hxs Hs]. destruct (release_ranges_spec xs Hxs) as (r0 & E0 & Hv0 & H0).
    rewrite E0. cbn [mbind option_bind].
    destruct (IH (range_intersection acc r0) Hs) as (r & E & Hv & H & Hc); [by apply intersection_values_from|].
    exists r. split_and!; [done..| |].
    + intros w Hw. rewrite H, (range_contains_intersection (cmp := law)) by done. unfold all_contain. cbn [forallb].
      rewrite <- (H0 w Hw). cbn [default from_option]. by rewrite andb_assoc.
    + intros Hcs Hca. apply Forall_cons in Hcs as [Hcx Hcs]. apply Hc; [done|]. apply intersection_convex; [done|].
      by apply (release_ranges_convex xs).
Qed.

Lemma requires_intersection_spec specifiers :
  specifiers <> [] -> Forall (Forall python_specifier) specifiers ->
  exists o r, requires_intersection specifiers = Some o /\
    (forall w, release_version w -> range_contains r w = all_contain specifiers w) /\
    (Forall (Forall contiguous) specifiers -> convex r) /\
    match o with
    | None => forall w, range_contains r w = false
    | Some rp => describes_range r rp
    end.
Proof.
  destruct specifiers as [|xs specifiers]; [done|]. intros _ [Hxs Hs]%Forall_cons. cbn [requires_intersection].
  destruct (release_ranges_spec xs Hxs) as (r0 & E0 & Hv0 & H0). rewrite E0. cbn [mbind option_bind].
  destruct (reduce_ranges_spec specifiers r0 Hs Hv0) as (r & E & Hv & H & Hc). rewrite E. cbn [mbind option_bind].
  assert (Hr : forall w, release_version w -> range_contains r w = all_contain (xs :: specifiers) w).
  { intros w Hw. rewrite H by done. unfold all_contain. cbn [forallb]. by rewrite <- (H0 w Hw). }
  assert (Hcr : Forall (Forall contiguous) (xs :: specifiers) -> convex r).
  { intros [Hcx Hcs]%Forall_cons. apply Hc; [done|]. by apply (release_ranges_convex xs). }
  destruct (range_is_empty r) eqn:Ee.
  - exists None, r. split_and!; [done..|]. intros w. rewrite <- (range_at_value law). by apply (empty_at law).
  - destruct (requires_of_range_spec r Hv Ee) as (rp & -> & Hd). by exists (Some rp), r.
Qed.

(** ** Splitting *)

Lemma split_lower_convex (self : RequiresPythonRange) bound :
  convex (range_intersection (range_complement (range_from_bounds bound (python_upper self))) (python_range_ranges self)).
Proof.
  set (upper := range_from_bounds bound (python_upper self)). unfold python_range_ranges.
  set (whole := range_from_bounds (python_lower self) (python_upper self)).
  intros p q m. rewrite !(range_at_intersection (cmp := law)), !(range_at_complement (cmp := law)), !andb_true_iff, !negb_true_iff.
  intros [Hp Hpw] [Hq Hqw] Lp Lq. assert (Hmw : range_at law whole m = true) by by apply (bounds_convex _ _ p q m).
  split; [|done]. destruct (range_at law upper m) eqn:Hm; [|done]. exfalso.
  assert (Hat : forall lo up x, range_at law (range_from_bounds lo up) x = true -> segment_valid law lo up = true /\ point_in law x (lo, up) = true).
  { intros lo up x. destruct (segment_valid law lo up) eqn:E.
    - by rewrite (one_segment_at law _ lo up) by by apply (range_iter_from_bounds (cmp := law)).
    - unfold range_at. by rewrite (range_iter_invalid (cmp := law)). }
  destruct (Hat _ _ _ Hm) as [V [Hb _]%andb_true_iff], (Hat _ _ _ Hqw) as [_ [_ Hu]%andb_true_iff]. cbn in Hb, Hu.
  unfold upper in Hq. rewrite (one_segment_at law _ bound (python_upper self)) in Hq by by apply (range_iter_from_bounds (cmp := law)).
  unfold point_in in Hq. cbn in Hq. by rewrite Hu, (above_mono law bound m q) in Hq.
Qed.

Lemma requires_split_spec rp bound :
  bounds_release (requires_range rp) -> bound_release bound ->
  exists o, requires_split rp bound = Some o /\
    match o with
    | None =>
        (forall w, release_version w -> range_admits (requires_range rp) w = true -> lower_bound_contains bound w = true) \/
        (forall w, release_version w -> range_admits (requires_range rp) w = true -> lower_bound_contains bound w = false)
    | Some (below, above) =>
        bounds_release (requires_range below) /\ bounds_release (requires_range above) /\
        forall w, release_version w ->
          range_admits (requires_range below) w = range_admits (requires_range rp) w && negb (lower_bound_contains bound w) /\
          range_admits (requires_range above) w = range_admits (requires_range rp) w && lower_bound_contains bound w /\
          specifiers_contains (requires_specifiers below) w = Some (range_admits (requires_range below) w) /\
          specifiers_contains (requires_specifiers above) w = Some (range_admits (requires_range above) w)
    end.
Proof.
  intros [Hl Hu] Hb. unfold requires_split. destruct (requires_range rp) as [lo up] eqn:Er. cbn in Hl, Hu |- *.
  set (whole := python_range_ranges (mkPythonRange lo up)). set (upper := range_from_bounds bound up).
  assert (Vw : Forall release_version (range_values whole)) by (apply bounds_values_from; by apply bound_release_values).
  assert (Vu : Forall release_version (range_values upper)) by (apply bounds_values_from; by apply bound_release_values).
  set (low := range_intersection (range_complement upper) whole). set (high := range_intersection upper whole).
  assert (Vlow : Forall release_version (range_values low)) by (apply intersection_values_from; [by apply complement_values_from|done]).
  assert (Vhigh : Forall release_version (range_values high)) by by apply intersection_values_from.
  assert (Hin : forall w, release_version w ->
    range_contains low w = range_admits (mkPythonRange lo up) w && negb (lower_bound_contains bound w) /\
    range_contains high w = range_admits (mkPythonRange lo up) w && lower_bound_contains bound w).
  { intros w Hw. assert (Cw : comparable w) by by apply release_comparable.
    unfold low, high, whole, upper, python_range_ranges. cbn [python_lower python_upper].
    rewrite !(range_contains_intersection (cmp := law)), (range_contains_complement (cmp := law)), !(range_contains_from_bounds (cmp := law)).
    rewrite <- !admits_segment by (done || by apply bound_release_comparable). unfold range_admits. cbn [python_lower python_upper].
    by destruct (lower_bound_contains bound w), (upper_bound_contains up w), (lower_bound_contains lo w). }
  assert (Hempty : forall r : range Version, range_is_empty r = true -> forall w, range_contains r w = false).
  { intros r He w. rewrite <- (range_at_value law). by apply (empty_at law). }
  destruct (range_is_empty low) eqn:El; [|destruct (range_is_empty high) eqn:Eh]; cbn [orb].
  - exists None. split; [done|]. left. intros w Hw Ha. destruct (Hin w Hw) as [H _].
    rewrite (Hempty low El w), Ha in H. by destruct (lower_bound_contains bound w).
  - exists None. split; [done|]. right. intros w Hw Ha. destruct (Hin w Hw) as [_ H].
    rewrite (Hempty high Eh w), Ha in H. by destruct (lower_bound_contains bound w).
  - destruct (requires_of_range_spec low Vlow El) as (below & Eb & [B1 _ B2]), (requires_of_range_spec high Vhigh Eh) as (above & Ea & [A1 _ A2]).
    rewrite Eb. cbn [mbind option_bind]. rewrite Ea. cbn [mbind option_bind]. eexists. split; [reflexivity|]. cbn.
    split_and!; [done..|]. intros w Hw. destruct (Hin w Hw) as [<- <-].
    destruct (B2 (split_lower_convex (mkPythonRange lo up) bound) w Hw) as [B3 B4].
    destruct (A2 (intersection_convex _ _ (bounds_convex _ _) (bounds_convex _ _)) w Hw) as [A3 A4].
    by rewrite B3, B4, A3, A4.
Qed.
End Ranges.

(** ** Narrowing *)

(** Of two bounds, the tighter one. *)
Lemma lower_bound_tighter a b w :
  bound_comparable a -> bound_comparable b -> comparable w ->
  (lower_bound_cmp a b <> Lt -> lower_bound_contains a w = lower_bound_contains a w && lower_bound_contains b w) /\
  (lower_bound_cmp a b = Lt -> lower_bound_contains b w = lower_bound_contains a w && lower_bound_contains b w).
Proof.
  intros Ca Cb Cw. pose proof (lower_bound_monotone a b w Ca Cb Cw) as M1. pose proof (lower_bound_monotone b a w Cb Ca Cw) as M2.
  assert (Ho : lower_bound_cmp b a = CompOpp (lower_bound_cmp a b)).
  { rewrite !lower_bound_cmp_position by done. apply (cmp_opp position_cmp). }
  rewrite Ho in M2. destruct (lower_bound_cmp a b); cbn in M2; split; intros; try done;
    destruct (lower_bound_contains a w), (lower_bound_contains b w); try done; exfalso;
    first [by discriminate (M1 ltac:(done) eq_refl)|by discriminate (M2 ltac:(done) eq_refl)].
Qed.

Lemma upper_bound_tighter a b w :
  bound_comparable a -> bound_comparable b -> comparable w ->
  (upper_bound_cmp a b <> Gt -> upper_bound_contains a w = upper_bound_contains a w && upper_bound_contains b w) /\
  (upper_bound_cmp a b = Gt -> upper_bound_contains b w = upper_bound_contains a w && upper_bound_contains b w).
Proof.
  intros Ca Cb Cw. pose proof (upper_bound_monotone a b w Ca Cb Cw) as M1. pose proof (upper_bound_monotone b a w Cb Ca Cw) as M2.
  assert (Ho : upper_bound_cmp b a = CompOpp (upper_bound_cmp a b)).
  { rewrite !upper_bound_cmp_position by done. apply (cmp_opp position_cmp). }
  rewrite Ho in M2. destruct (upper_bound_cmp a b); cbn in M2; split; intros; try done;
    destruct (upper_bound_contains a w), (upper_bound_contains b w); try done; exfalso;
    first [by discriminate (M1 ltac:(done) eq_refl)|by discriminate (M2 ltac:(done) eq_refl)].
Qed.

Lemma bound_eq_cmp a b :
  bound_version_eq a b = true -> lower_bound_cmp a b = Eq /\ upper_bound_cmp a b = Eq.
Proof.
  destruct a as [v|v|], b as [w|w|]; cbn; try done; unfold version_eq; by destruct (version_cmp v w).
Qed.

Definition range_comparable (r : RequiresPythonRange) : Prop :=
  bound_comparable (python_lower r) /\ bound_comparable (python_upper r).

Lemma narrow_admits rp r w :
  range_comparable (requires_range rp) -> range_comparable r -> comparable w ->
  range_admits (requires_range (default rp (requires_narrow rp r))) w =
    range_admits r w && range_admits (requires_range rp) w.
Proof.
  intros [Cl Cu] [Dl Du] Cw. destruct (requires_range rp) as [lo up] eqn:Er, r as [lo' up']. cbn in Cl, Cu, Dl, Du.
  destruct (lower_bound_tighter lo' lo w Dl Cl Cw) as [L1 L2], (upper_bound_tighter up' up w Du Cu Cw) as [U1 U2].
  assert (Hsplit : range_admits (mkPythonRange lo' up') w && range_admits (mkPythonRange lo up) w =
    (lower_bound_contains lo' w && lower_bound_contains lo w) && (upper_bound_contains up' w && upper_bound_contains up w)).
  { unfold range_admits. cbn. by destruct (lower_bound_contains lo' w), (lower_bound_contains lo w), (upper_bound_contains up' w). }
  rewrite Hsplit. unfold requires_narrow. rewrite Er. destruct (python_range_eq _ _) eqn:Eq.
  - apply andb_true_iff in Eq as [El Eu]. cbn in El, Eu. apply bound_eq_cmp in El as [El _], Eu as [_ Eu].
    cbn [default]. rewrite Er. destruct (lower_bound_tighter lo lo' w Cl Dl Cw) as [L3 _], (upper_bound_tighter up up' w Cu Du Cw) as [U3 _].
    rewrite lower_bound_cmp_position in El, L3 by done. rewrite upper_bound_cmp_position in Eu, U3 by done.
    rewrite (cmp_eq_sym position_cmp _ _ El) in L3. rewrite (cmp_eq_sym position_cmp _ _ Eu) in U3.
    unfold range_admits. cbn. rewrite (L3 ltac:(done)), (U3 ltac:(done)).
    by destruct (lower_bound_contains lo' w), (lower_bound_contains lo w), (upper_bound_contains up' w), (upper_bound_contains up w).
  - cbn [python_lower python_upper]. do 2 case_bool_decide; cbn [mbind option_bind default requires_range].
    all: try match goal with H : ~ lower_bound_cmp _ _ <> Lt |- _ => apply dec_stable in H end.
    all: try match goal with H : ~ upper_bound_cmp _ _ <> Gt |- _ => apply dec_stable in H end.
    all: unfold range_admits; cbn [python_lower python_upper]; rewrite ?Er; cbn [python_lower python_upper].
    + by rewrite <- L1, <- U1.
    + by rewrite <- L1, <- U2.
    + by rewrite <- L2, <- U1.
    + by rewrite <- L2, <- U2.
Qed.

(** The specifiers of bounds. *)
Lemma range_specifiers_contains r w :
  bounds_release r -> release_version w ->
  specifiers_contains (python_range_specifiers r) w = Some (range_admits r w).
Proof.
  destruct r as [lo up]. intros [Hl Hu] Hw. cbn in Hl, Hu. unfold python_range_specifiers. cbn [python_lower python_upper].
  rewrite admits_in_segment by done. unfold in_segment. cbn [fst snd]. rewrite (above_release w Hw _ Hl), (below_release w Hw _ Hu).
  assert (Hvalid : forall op v, release_version v -> op <> TildeEqual -> specifier_valid (mkSpecifier op v)) by (intros op v Hv Ho; by apply release_valid).
  assert (V : Forall specifier_valid (option_list (lower_bound_specifier lo) ++ option_list (upper_bound_specifier up))).
  { destruct lo, up; cbn; repeat apply Forall_cons_2; try apply Forall_nil_2; by apply Hvalid. }
  rewrite from_unsorted_contains, specifiers_contains_forallb by done. f_equal.
  rewrite forallb_app. f_equal.
  - destruct lo as [v|v|]; cbn; rewrite ?andb_true_r; [..|done]; destruct (matches_order w Hw v Hl) as (_ & _ & M1 & M2 & _); done.
  - destruct up as [v|v|]; cbn; rewrite ?andb_true_r; [..|done]; destruct (matches_order w Hw v Hu) as (_ & _ & _ & _ & M3 & M4); done.
Qed.

Lemma narrow_bounds rp r rp' :
  bounds_release (requires_range rp) -> bounds_release r -> requires_narrow rp r = Some rp' ->
  bounds_release (requires_range rp') /\ requires_specifiers rp' = python_range_specifiers (requires_range rp').
Proof.
  intros [H1 H2] [H3 H4]. unfold requires_narrow. destruct (python_range_eq _ _); [done|].
  do 2 case_bool_decide; cbn [mbind option_bind]; try done; intros [= <-]; by split.
Qed.

(** ** Containment *)

Section Containment.
Context {RV : RangeOps Version} {LV : RangeLaws version_cmp_slow}.

(** The bounding range of the members. *)
Lemma bounding_release (r : range Version) :
  Forall release_version (range_values r) ->
  bounds_release (python_range_from_range r) /\
  (forall w, release_version w -> range_contains r w = true -> range_admits (python_range_from_range r) w = true) /\
  (convex r -> forall x, range_contains r x = true -> forall w, release_version w ->
    range_admits (python_range_from_range r) w = range_contains r w).
Proof.
  intros Hv. destruct (range_is_empty r) eqn:Ee.
  - assert (Hno : forall w, range_contains r w = false) by (intros w; rewrite <- (range_at_value version_cmp_slow); by apply (empty_at version_cmp_slow)).
    split_and!; [|intros w _; by rewrite Hno|intros _ x; by rewrite Hno].
    unfold python_range_from_range, bounding_or_unbounded. rewrite (range_bounding_iter (cmp := version_cmp_slow)).
    rewrite (range_is_empty_iter (cmp := version_cmp_slow)) in Ee. by destruct (range_iter r).
  - destruct (requires_of_range_spec r Hv Ee) as (rp & E & [H1 H2 H3]). unfold requires_of_range in E.
    destruct (specifiers_from_release_only_bounds _); [|done]. injection E as <-. cbn in H1, H2, H3.
    split_and!; [done|intros w Hw Hr; by apply H2|intros Hc _ _ w Hw; by apply H3].
Qed.

Lemma is_contained_by_spec rp target :
  bounds_release (requires_range rp) -> Forall python_specifier target ->
  exists b, is_contained_by rp target = Some b /\
    (b = true -> Forall contiguous target -> forall w x, release_version w -> release_version x ->
       range_admits (requires_range rp) w = true -> specifiers_contains target x = Some true -> version_le w x = true ->
       specifiers_contains target w = Some true) /\
    (b = false -> forall v, python_lower (requires_range rp) = Included v -> specifiers_contains target v = Some false).
Proof.
  intros [Hl Hu] Ht. destruct (release_ranges_spec target Ht) as (r & E & Hv & Hr). unfold is_contained_by. rewrite E.
  cbn [mbind option_bind]. destruct (bounding_release r Hv) as ([B1 B2] & B3 & B4).
  unfold python_range_from_range in *. destruct (bounding_or_unbounded r) as [lo up]. cbn in B1, B2 |- *.
  eexists. split; [reflexivity|]. apply release_bound_comparable in Hl as Cl, B1 as Clo. split.
  - rewrite bool_decide_eq_true. intros C Hc w x Hw Hx [Ha _]%andb_true_iff Htx Hle.
    rewrite <- Hr in Htx |- * by done. injection Htx as Htx. f_equal.
    rewrite <- (B4 (release_ranges_convex target r Hc E) x Htx w Hw). unfold range_admits. cbn.
    rewrite (lower_bound_monotone lo (python_lower (requires_range rp)) w); [..|done]; [|done|done|by apply release_comparable|].
    + specialize (B3 x Hx Htx). apply andb_true_iff in B3 as [_ B3]. cbn in B3 |- *.
      rewrite (below_contains w Hw _ B2). rewrite (below_contains x Hx _ B2) in B3. clear -B3 Hle Hw Hx B2.
      destruct up as [v|v|]; cbn in *; [..|done]; unfold version_le, version_lt in *;
        rewrite version_cmp_release in B3, Hle |- * by done.
      * destruct (compare_release (version_release w) (version_release v)) eqn:Ev; [done..|].
        assert (compare_release (version_release w) (version_release v) <> Gt) as Hn; [|done].
        apply (cmp_le_trans compare_release _ (version_release x)); [|by destruct (compare_release (version_release x) (version_release v))].
        by destruct (compare_release (version_release w) (version_release x)).
      * rewrite (cmp_le_lt_trans compare_release _ (version_release x) (version_release v)); [done|..].
        -- by destruct (compare_release (version_release w) (version_release x)).
        -- by destruct (compare_release (version_release x) (version_release v)).
    + rewrite lower_bound_cmp_position in C |- * by done. rewrite (cmp_opp position_cmp). by destruct (position_cmp _ _).
  - rewrite bool_decide_eq_false. intros C%dec_stable v Ev. rewrite Ev in Hl, Cl, C. cbn in Hl. rewrite <- Hr by done. f_equal.
    destruct (range_contains r v) eqn:Erv; [|done]. exfalso. specialize (B3 v Hl Erv). apply andb_true_iff in B3 as [B3 _]. cbn in B3.
    apply lower_bound_contains_position in B3; [|done|by apply release_comparable].
    rewrite lower_bound_cmp_position in C by done.
    apply B3. rewrite (cmp_opp position_cmp). cbn [lower_position] in C. by rewrite C.
Qed.
End Containment.

(** ** All supported versions *)

(** Trimming a bound does not change what it admits. *)
Lemma bound_trimmed_spec b :
  bound_release b ->
  exists b', bound_trimmed b = Some b' /\ bound_release b' /\
    forall w, release_version w -> above b' w = above b w /\ below b' w = below b w.
Proof.
  assert (Hv : forall v, release_version v -> exists t, version_only_release_trimmed v = Some t /\ release_version t /\
    forall w, release_version w -> compare_release (version_release w) (version_release t) = compare_release (version_release w) (version_release v)).
  { intros v Hv. destruct (only_release_trimmed_spec v (proj1 (proj1 Hv))) as (t & Et & [Wt Nt] & Ft). exists t. split; [done|].
    assert (Er : version_release t = match strip_zeros (version_release v) with [] => [0] | ns => ns end) by by rewrite release_full, Ft.
    destruct (trimmed_release v Hv) as (t' & Et' & Hn & Hs). rewrite Et in Et'. injection Et' as <-.
    assert (Ht : release_version t).
    { apply (stands_release t (version_release t)); [|done|done]. rewrite Er. apply stands_for_intro; [done|done|done]. }
    split; [done|]. intros w Hw. apply compare_release_stripped; [by apply release_u64..|done]. }
  destruct b as [v|v|]; cbn; intros Hb; [| |by exists Unbounded];
    destruct (Hv v Hb) as (t & -> & Ht & Hc); (eexists; split; [reflexivity|]); (split; [exact Ht|]); intros w Hw; cbn;
    destruct (release_cmp w Hw v Hb) as [C1 C2], (release_cmp w Hw t Ht) as [D1 D2];
    unfold version_le, version_lt; by rewrite C1, C2, D1, D2, Hc.
Qed.

Section Constructed.
Context {RV : RangeOps Version} {LV : RangeLaws version_cmp_slow}.

(** The supported versions that the program makes: from a version, from specifiers, and from other ones. *)
Inductive constructed : RequiresPython -> Prop :=
| made_from_version v rp :
    version_real v -> requires_greater_than_equal_version v = Some rp -> constructed rp
| made_from_specifiers xs rp :
    Forall python_specifier xs -> requires_from_specifiers xs = Some rp -> constructed rp
| made_deserialized xs rp :
    Forall python_specifier xs -> requires_deserialized xs = Some rp -> constructed rp
| made_intersection xss rp :
    Forall (Forall python_specifier) xss -> requires_intersection xss = Some (Some rp) -> constructed rp
| made_below rp bound below above :
    constructed rp -> bound_release bound -> requires_split rp bound = Some (Some (below, above)) -> constructed below
| made_above rp bound below above :
    constructed rp -> bound_release bound -> requires_split rp bound = Some (Some (below, above)) -> constructed above
| made_narrowed rp rp' rp'' :
    constructed rp -> constructed rp' -> requires_narrow rp (requires_range rp') = Some rp'' -> constructed rp''.

(** The bounds are releases, and bound the versions that the specifiers admit. *)
Record requires_ok (rp : RequiresPython) : Prop := {
  requires_bounds : bounds_release (requires_range rp);
  requires_bounded : forall w, release_version w -> specifiers_contains (requires_specifiers rp) w = Some true ->
    range_admits (requires_range rp) w = true
}.

Lemma from_version_ok v rp : version_real v -> requires_greater_than_equal_version v = Some rp -> requires_ok rp.
Proof.
  intros Hv. unfold requires_greater_than_equal_version. destruct (only_release_release v Hv) as (u & -> & Hu & _). cbn [mbind option_bind].
  destruct (bound_trimmed_spec (Included u) Hu) as (lo & El & Hlo & Hc). unfold lower_bound_new. rewrite El. cbn. intros [= <-].
  split; [by split|]. intros w Hw. rewrite specifiers_contains_forallb by (apply Forall_cons_2; [by apply release_valid|apply Forall_nil_2]).
  cbn [forallb requires_specifiers]. rewrite andb_true_r. unfold greater_than_equal_version. destruct (matches_order w Hw u Hu) as (_ & _ & -> & _).
  intros [= Hm]. cbn [requires_range]. rewrite admits_in_segment by done. unfold in_segment. cbn [fst snd below]. rewrite andb_true_r.
  rewrite (proj1 (Hc w Hw)), (above_release w Hw (Included u) Hu). exact Hm.
Qed.

Lemma deserialized_ok xs rp : Forall python_specifier xs -> requires_deserialized xs = Some rp -> requires_ok rp.
Proof.
  intros Hxs. unfold requires_deserialized. destruct (release_ranges_spec xs Hxs) as (r & -> & Hv & Hr). cbn. intros [= <-].
  destruct (bounding_release r Hv) as (B1 & B2 & _). split; [done|]. cbn [requires_specifiers requires_range]. intros w Hw. rewrite <- (Hr w Hw). intros [= Hc]. by apply B2.
Qed.

Lemma from_specifiers_ok xs rp : Forall python_specifier xs -> requires_from_specifiers xs = Some rp -> requires_ok rp.
Proof.
  intros Hxs. unfold requires_from_specifiers. destruct (release_ranges_spec xs Hxs) as (r & E & Hv & Hr). rewrite E. cbn [mbind option_bind].
  destruct (bounding_release r Hv) as ([B1 B2] & B3 & _). unfold python_range_from_range in *.
  destruct (bounding_or_unbounded r) as [lo up]. cbn in B1, B2.
  destruct (bound_trimmed_spec lo B1) as (lo' & El & Hl & Cl), (bound_trimmed_spec up B2) as (up' & Eu & Hu & Cu).
  unfold lower_bound_new, upper_bound_new. rewrite El. cbn [mbind option_bind]. rewrite Eu. cbn [mbind option_bind]. intros [= <-].
  split; [by split|]. cbn [requires_specifiers requires_range]. intros w Hw. rewrite <- (Hr w Hw). intros [= Hc]. specialize (B3 w Hw Hc).
  rewrite admits_in_segment in B3 |- * by done. unfold in_segment in *. cbn in *. by rewrite (proj1 (Cl w Hw)), (proj2 (Cu w Hw)).
Qed.

Lemma of_range_ok (r : range Version) rp :
  Forall release_version (range_values r) -> range_is_empty r = false -> requires_of_range r = Some rp -> requires_ok rp.
Proof.
  intros Hv He E. destruct (requires_of_range_spec r Hv He) as (rp' & E' & [B _ _]). rewrite E in E'. injection E' as <-.
  split; [done|]. intros w Hw Hc. revert B. unfold requires_of_range in E.
  destruct (range_iter r) as [|s l] eqn:Ei; [by rewrite (range_is_empty_iter (cmp := version_cmp_slow)), Ei in He|].
  destruct (specifiers_from_release_only_bounds (s :: l)) as [xs|] eqn:Ex; [|done]. injection E as <-. cbn [requires_specifiers requires_range] in *.
  pose proof (iter_ascending r s l Hv Ei) as HA. destruct s as [lo up].
  destruct (release_only_bounds_outer w Hw lo up l xs HA Ex Hc) as [Ha Hb].
  unfold python_range_from_range, bounding_or_unbounded. rewrite (range_bounding_iter (cmp := version_cmp_slow)), Ei. cbn [head].
  assert (Hlast : exists f, last ((lo, up) :: l) = Some f /\ f.2 = last_upper up l).
  { clear. destruct (last l) as [f|] eqn:El.
    - exists f. apply last_Some in El as [l' ->]. unfold last_upper. by rewrite app_comm_cons, last_snoc, foldl_app.
    - apply last_None in El as ->. by exists (lo, up). }
  destruct Hlast as (f & -> & Ef). cbn. intros [B1 B2]. cbn in B1, B2. rewrite admits_in_segment by done. unfold in_segment. cbn.
  by rewrite Ef, Ha, Hb.
Qed.

Lemma intersection_ok xss rp :
  Forall (Forall python_specifier) xss -> requires_intersection xss = Some (Some rp) -> requires_ok rp.
Proof.
  destruct xss as [|xs xss]; [done|]. intros [Hxs Hs]%Forall_cons. cbn [requires_intersection].
  destruct (release_ranges_spec xs Hxs) as (r0 & -> & Hv0 & _). cbn [mbind option_bind].
  destruct (reduce_ranges_spec xss r0 Hs Hv0) as (r & -> & Hv & _). cbn [mbind option_bind].
  destruct (range_is_empty r) eqn:Ee; [done|]. destruct (requires_of_range r) as [rp'|] eqn:E; [|done]. intros [= <-].
  by apply (of_range_ok r).
Qed.

Lemma split_ok rp bound below above :
  bounds_release (requires_range rp) -> bound_release bound -> requires_split rp bound = Some (Some (below, above)) ->
  requires_ok below /\ requires_ok above.
Proof.
  intros Hr Hb E. destruct (requires_split_spec rp bound Hr Hb) as (o & E' & Ho). rewrite E in E'. injection E' as <-.
  destruct Ho as (B1 & B2 & Ho). split; (split; [done|]); intros w Hw; destruct (Ho w Hw) as (_ & _ & H1 & H2); rewrite ?H1, ?H2; by intros [= ->].
Qed.

Lemma constructed_ok rp : constructed rp -> requires_ok rp.
Proof.
  induction 1 as [v rp Hv E|xs rp Hxs E|xs rp Hxs E|xss rp Hxs E|rp bound below above _ [IH _] Hb E|rp bound below above _ [IH _] Hb E
    |rp rp' rp'' _ [IH _] _ [IH' _] E].
  - by apply (from_version_ok v).
  - by apply (from_specifiers_ok xs).
  - by apply (deserialized_ok xs).
  - by apply (intersection_ok xss).
  - by apply (split_ok rp bound below above).
  - by apply (split_ok rp bound below above).
  - destruct (narrow_bounds _ _ _ IH IH' E) as [Hb Hs]. split; [done|]. intros w Hw.
    rewrite Hs, range_specifiers_contains by done. by intros [= ->].
Qed.
End Constructed.

(** ** Markers *)

Section Markers.
Context {RV : RangeOps Version} {RS : RangeOps (list Z)}.
Context {LV : RangeLaws version_cmp_slow} {LS : RangeLaws string_cmp}.
Context {C : Type} (L : C -> list Node -> Prop) {HL : LocalInvariant L}.

Notation python_full sigma := (version_at sigma (VarVersion PythonFullVersion)).

Lemma full_version_runs op u s :
  state_ok L s -> release_version u -> op <> TildeEqual ->
  runs L (full_version_expression (mkSpecifier op u)) s
    (means environment (fun sigma => matches (mkSpecifier op u) (python_full sigma))).
Proof.
  intros Hs Hu Hop. assert (V : specifier_valid (mkSpecifier op u)) by by apply release_valid.
  eapply runs_weaken; [by apply (expression_runs L)|]. intros r table _ _. apply means_ext. intros sigma [_ [Hrel _]].
  cbn. unfold released_matches. destruct (specifier_only_release_valid op u V) as (u' & -> & Hu' & Er & V').
  cbn [default from_option]. rewrite (matches_release op u'), (matches_release op u) by done. by rewrite Er.
Qed.

Lemma full_versions_runs op u op' u' s :
  state_ok L s -> release_version u -> release_version u' -> op <> TildeEqual -> op' <> TildeEqual ->
  runs L (let! lower := full_version_expression (mkSpecifier op u) in
          let! upper := full_version_expression (mkSpecifier op' u') in tree_and lower upper) s
    (means environment (fun sigma =>
       matches (mkSpecifier op u) (python_full sigma) && matches (mkSpecifier op' u') (python_full sigma))).
Proof.
  intros Hs Hu Hu' Ho Ho'. eapply runs_bind; [by apply full_version_runs|]. intros i s1 Hs1 Hp1 H1.
  eapply runs_bind; [by apply full_version_runs|]. intros j s2 Hs2 Hp2 [V2 H2].
  assert (H1' : means environment (fun sigma => matches (mkSpecifier op u) (python_full sigma)) i (nodes s2.1)).
  { eapply means_stable; [apply Hs1|apply Hs2|done|exact H1]. }
  destruct H1' as [V1 H1']. eapply runs_weaken; [by apply (tree_and_runs L)|]. intros r table Ht Hp (_ & _ & [A1 A2 _]).
  split; [done|]. intros sigma Hsig. rewrite (A2 _ (environment_allowed _ Hsig)). pose proof (ok_table _ (proj1 Hs2)).
  by rewrite !(eval_extend (nodes s2.1) table), (H1' _ Hsig), (H2 _ Hsig).
Qed.

(** The marker holds for the versions within the bounds. *)
Lemma to_marker_tree_runs rp s :
  state_ok L s -> bounds_release (requires_range rp) ->
  runs L (requires_to_marker_tree rp) s
    (means environment (fun sigma => range_admits (requires_range rp) (python_full sigma))).
Proof.
  intros Hs [Hl Hu]. unfold requires_to_marker_tree. destruct (requires_range rp) as [lo up]. cbn [python_lower python_upper] in *.
  assert (Hadmit : forall sigma, environment sigma -> range_admits (mkPythonRange lo up) (python_full sigma) =
    match lo with
    | Included v => matches (greater_than_equal_version v) (python_full sigma)
    | Excluded v => matches (greater_than_version v) (python_full sigma)
    | Unbounded => true
    end &&
    match up with
    | Included v => matches (less_than_equal_version v) (python_full sigma)
    | Excluded v => matches (less_than_version v) (python_full sigma)
    | Unbounded => true
    end).
  { intros sigma [_ [Hrel _]]. specialize (Hrel (VarVersion PythonFullVersion)). rewrite admits_in_segment by done.
    unfold in_segment. cbn [fst snd]. rewrite (above_release _ Hrel _ Hl), (below_release _ Hrel _ Hu).
    unfold greater_than_equal_version, greater_than_version, less_than_equal_version, less_than_version. f_equal.
    - destruct lo as [v|v|]; [..|done]; destruct (matches_order _ Hrel v Hl) as (_ & _ & M1 & M2 & _); by rewrite ?M1, ?M2.
    - destruct up as [v|v|]; [..|done]; destruct (matches_order _ Hrel v Hu) as (_ & _ & _ & _ & M3 & M4); by rewrite ?M3, ?M4. }
  destruct lo as [l|l|], up as [u|u|]; cbn [bound_release] in *.
  all: first
    [ eapply runs_weaken; [by apply full_versions_runs|]; intros r table _ _; apply means_ext; intros sigma Hsig; by rewrite Hadmit
    | eapply runs_weaken; [by apply full_version_runs|]; intros r table _ _; apply means_ext; intros sigma Hsig; rewrite Hadmit by done;
      by rewrite ?andb_true_r
    | apply runs_ret; [done|]; split; [apply true_valid|]; intros sigma Hsig; by rewrite Hadmit, eval_true ].
Qed.

(** ** Simplified markers *)

Lemma bound_comparable_values b : bound_comparable b <-> Forall comparable (bound_values b).
Proof. destruct b; cbn; rewrite ?Forall_singleton; [done..|]. split; [constructor|done]. Qed.

(** A marker that is simplified to the supported versions and restored. *)
Lemma simplified_restored_runs rp i s :
  state_ok L s -> node_valid (nodes s.1) i -> range_comparable (requires_range rp) ->
  runs L (let! simplified := simplified_new rp i in into_marker simplified rp) s
    (means allowed (fun sigma => eval (nodes s.1) sigma i && python_within (python_lower (requires_range rp)) (python_upper (requires_range rp)) sigma)).
Proof.
  intros Hs Hi [Hl%bound_comparable_values Hu%bound_comparable_values]. pose proof (ok_table _ (proj1 Hs)) as Hok.
  eapply runs_bind; [by apply simplify_python_versions_runs|]. intros r s1 Hs1 Hp1 [[_ Hr _] Hval].
  pose proof (ok_table _ (proj1 Hs1)) as Hok1. eapply runs_weaken; [by apply (complexify_python_versions_runs L)|]. intros r' table Ht Hp. apply means_ext. intros sigma _.
  cbn. fold (python_within (python_lower (requires_range rp)) (python_upper (requires_range rp)) sigma).
  destruct (python_within _ _ sigma) eqn:Ew; [|by rewrite !andb_false_r]. rewrite (Hval _ Ew). by rewrite (eval_extend (nodes s.1) (nodes s1.1)).
Qed.
End Markers.

(** ** Wheels *)

Lemma any_option_total {A : Type} (f : A -> option bool) l :
  (forall x, x ∈ l -> is_Some (f x)) -> any_option f l = Some (existsb (fun x => bool_decide (f x = Some true)) l).
Proof.
  induction l as [|x l IH]; intros H; [done|]. destruct (H x) as [b Eb]; [by left|]. cbn. rewrite Eb. cbn.
  destruct b; [by rewrite bool_decide_eq_true_2|]. rewrite bool_decide_eq_false_2 by done. apply IH. intros y Hy. apply H. by right.
Qed.

Lemma any_option_some {A : Type} (f : A -> option bool) l x :
  (forall y, y ∈ l -> is_Some (f y)) -> x ∈ l -> f x = Some true -> any_option f l = Some true.
Proof.
  intros H Hx E. rewrite any_option_total by done. f_equal. apply existsb_exists. exists x.
  split; [by apply list_elem_of_In|by apply bool_decide_eq_true].
Qed.

Section Wheels.
Context (rp : RequiresPython) (Hr : bounds_release (requires_range rp)).

Lemma lower_truncated b : bound_release b -> exists b', lower_bound_major_minor b = Some b' /\ bound_release b'.
Proof.
  destruct b as [u|u|]; cbn; [| |by exists Unbounded]; intros Hu; destruct (truncated_new u Hu) as (w & -> & Hw & _);
    cbn; (eexists; split; [reflexivity|done]).
Qed.

Lemma upper_truncated b : bound_release b -> exists b', upper_bound_major_minor b = Some b' /\ bound_release b'.
Proof.
  destruct b as [u|u|]; cbn; [| |by exists Unbounded]; intros Hu; destruct (truncated_new u Hu) as (w & -> & Hw & _);
    cbn; [|destruct (match _ with Some _ => _ | None => _ end)]; (eexists; split; [reflexivity|done]).
Qed.

(** The filter does not panic. *)
Lemma wheel_tests_total minor :
  0 <= minor <= U8_MAX ->
  is_Some (wheel_below rp minor) /\ is_Some (wheel_above rp minor) /\ is_Some (wheel_exact rp minor).
Proof.
  intros Hm. destruct Hr as [Hl Hu]. destruct (new_release_Some [3; minor]) as (v & Ev & _); [|done|].
  { unfold is_number, U64_MAX, U8_MAX in *. repeat (apply Forall_cons_2; [lia|]). apply Forall_nil_2. }
  destruct (lower_truncated _ Hl) as (lo & El & _), (upper_truncated _ Hu) as (up & Eu & _).
  unfold wheel_exact, wheel_below, wheel_above. rewrite Ev. cbn. rewrite El, Eu. cbn.
  split_and!; [eauto..|]. repeat case_bool_decide; eauto.
Qed.

Lemma python_tag_total t : language_tag_wf t -> is_Some (matches_python_tag rp t).
Proof.
  intros Hw. assert (H : forall minor, 0 <= minor <= U8_MAX -> is_Some (wheel_above rp minor) /\ is_Some (wheel_exact rp minor))
    by (intros; split; by apply wheel_tests_total).
  unfold matches_python_tag. destruct (python_tag_is_2 t); [eauto|].
  repeat case_match; eauto; subst; destruct Hw as [_ Hm]; cbn in Hm; destruct (H _ ltac:(unfold U8_MAX in *; split; [apply Hm|lia])) as [[b Eb] He];
    [|exact He..]. rewrite Eb. destruct b; eauto.
Qed.

Lemma abi_tag_total tags t : Forall language_tag_wf tags -> abi_tag_wf t -> is_Some (matches_abi_tag rp tags t).
Proof.
  intros Ht Hw. unfold matches_abi_tag. destruct (is_stable_abi t); [eauto|]. case_bool_decide.
  - rewrite any_option_total; [eauto|]. rewrite Forall_forall in Ht. intros x Hx. by apply python_tag_total, Ht.
  - destruct (abi_tag_is_2 t); [eauto|]. repeat case_match; eauto; subst; apply wheel_tests_total; apply Hw.
Qed.

(** The tags that the parser gives a wheel. *)
Definition wheel_tags_wf (wheel : WheelFilename) : Prop :=
  Forall language_tag_wf (wheel_python_tags (wheel_tags wheel)) /\ Forall abi_tag_wf (wheel_abi_tags (wheel_tags wheel)).

Lemma matches_wheel_total wheel : wheel_tags_wf wheel -> is_Some (matches_wheel_tag rp wheel).
Proof.
  intros [Hp Ha]. unfold matches_wheel_tag. rewrite any_option_total; [eauto|]. rewrite (Forall_forall abi_tag_wf) in Ha.
  intros x Hx. by apply abi_tag_total, Ha.
Qed.

(** A Python that is supported. *)
Context (Hp : bound_precise (python_upper (requires_range rp))).
Context (w : Version) (minor : Z) (rest : list Z).
Context (Hw : release_version w) (Ew : version_release w = 3 :: minor :: rest).
Context (Ha : range_admits (requires_range rp) w = true).

Lemma minor_version k : 0 <= k <= minor ->
  exists t, version_new [3; k] = Some t /\ release_version t /\ version_release t = [3; k].
Proof.
  intros Hk. apply new_release_Some; [|done]. pose proof (release_numbers w Hw) as Hn. rewrite Ew in Hn.
  apply Forall_cons in Hn as [H3 Hn]. apply Forall_inv in Hn. unfold is_number in *.
  apply Forall_cons_2; [done|]. apply Forall_cons_2; [lia|apply Forall_nil_2].
Qed.

Lemma minor_nonnegative : 0 <= minor.
Proof. pose proof (release_numbers w Hw) as Hn. rewrite Ew in Hn. apply Forall_cons in Hn as [_ Hn]. apply Forall_inv in Hn. apply Hn. Qed.

(** It is not after the upper bound, nor is an earlier one. *)
Lemma not_above k : 0 <= k <= minor -> wheel_above rp k = Some false.
Proof.
  intros Hk. destruct Hr as [_ Hu]. apply andb_true_iff in Ha as [_ Hau]. destruct (minor_version k Hk) as (tk & Ek & Hrk & Erk).
  destruct (minor_version minor) as (t & _ & Ht & Et); [lia|].
  assert (Et' : version_release t = take 2 (version_release w)) by by rewrite Et, Ew.
  destruct (upper_major_minor w t Hw Ht Et' _ Hu Hp Hau) as (b & Eb & Hb).
  destruct (upper_truncated _ Hu) as (b' & Eb' & Hb'). rewrite Eb in Eb'. injection Eb' as <-.
  unfold wheel_above. rewrite Ek. cbn [mbind option_bind]. rewrite Eb. cbn [mbind option_bind]. f_equal.
  apply bool_decide_eq_false. rewrite upper_bound_cmp_position; [|by apply release_comparable|by apply release_bound_comparable].
  apply upper_bound_contains_position in Hb; [|by apply release_bound_comparable|by apply release_comparable].
  eapply (cmp_le_trans position_cmp); [|exact Hb]. cbn. unfold cmp_pair. cbn.
  rewrite <- version_cmp_full by by apply release_comparable. rewrite version_cmp_release, Erk, Et by done.
  destruct (decide (k = minor)) as [->|Hne]; [by rewrite (cmp_refl compare_release)|]. rewrite minor_order by lia. done.
Qed.

(** Nor before the lower bound. *)
Lemma not_below : wheel_below rp minor = Some false.
Proof.
  destruct Hr as [Hl _]. apply andb_true_iff in Ha as [Hal _].
  destruct (minor_version minor) as (t & Ek & Ht & Et); [pose proof minor_nonnegative; lia|].
  assert (Et' : version_release t = take 2 (version_release w)) by by rewrite Et, Ew.
  destruct (lower_major_minor w t Hw Ht Et' _ Hl Hal) as (b & Eb & Hb).
  destruct (lower_truncated _ Hl) as (b' & Eb' & Hb'). rewrite Eb in Eb'. injection Eb' as <-.
  unfold wheel_below. rewrite Ek. cbn [mbind option_bind]. rewrite Eb. cbn [mbind option_bind]. f_equal.
  apply bool_decide_eq_false. rewrite lower_bound_cmp_position; [|by apply release_comparable|by apply release_bound_comparable].
  apply lower_bound_contains_position in Hb; [|by apply release_bound_comparable|by apply release_comparable].
  intros E. apply Hb. rewrite (cmp_opp position_cmp). cbn in E |- *. by rewrite E.
Qed.

Lemma exact_matches : wheel_exact rp minor = Some true.
Proof. unfold wheel_exact. rewrite not_below. cbn. rewrite not_above; [done|]. pose proof minor_nonnegative. lia. Qed.

(** A tag that an interpreter of this version supports passes. *)
Lemma supported_matches {BF : Bitflags} impl iv plats lang abi plat tags :
  supported impl (3, minor) iv plats (lang, abi, plat) -> lang ∈ tags -> Forall language_tag_wf tags -> matches_abi_tag rp tags abi = Some true.
Proof.
  pose proof exact_matches as Hexact. intros Hs Hlang Htags.
  assert (Hnone : matches_python_tag rp lang = Some true -> matches_abi_tag rp tags AbiNone = Some true).
  { intros Hm. unfold matches_abi_tag. cbn [is_stable_abi]. rewrite bool_decide_eq_true_2 by done.
    apply (any_option_some _ _ lang); [|done..]. rewrite Forall_forall in Htags. intros y Hy. by apply python_tag_total, Htags. }
  inversion Hs; subst; cbn [fst snd] in *.
  - destruct impl; exact Hexact || done.
  - exact Hexact.
  - by destruct (flags_contains variant Freethreading).
  - by apply Hnone.
  - apply Hnone. unfold matches_python_tag. cbn. rewrite not_above by done. done.
  - by apply Hnone.
Qed.

(** A wheel that such an interpreter can install passes. *)
Lemma compatible_matches {BF : Bitflags} {BL : BitflagsLaws} {LC : Lowercase} platform name iv options tags wheel :
  os_wf (platform_os platform) -> minor <= U8_MAX -> from_env platform (3, minor) name iv options = Ok (Some tags) ->
  wheel_tags_wf wheel -> wheel_is_compatible wheel tags = true -> matches_wheel_tag rp wheel = Some true.
Proof.
  intros Hos Hm E [Hwp Hwa] [_ Hc]%andb_true_iff.
  destruct (from_env_spec platform (3, minor) name iv options (Some tags)) as (t & variant & impl & ps & [= <-] & _ & _ & _ & _ & _ & _ & Hpr);
    [done|split; [apply minor_nonnegative|done]|done|].
  apply is_compatible_spec in Hc as ([[lang abi] plat] & (H1 & H2 & _) & [p Hl]). cbn in H1, H2.
  assert (Hs : supported impl (3, minor) iv ps (lang, abi, plat)).
  { apply env_tags_supported, has_priority_elem. exists p. by apply Hpr. }
  unfold matches_wheel_tag. apply (any_option_some _ _ abi); [|done|by apply (supported_matches impl iv ps lang abi plat)].
  rewrite (Forall_forall abi_tag_wf) in Hwa. intros y Hy. by apply abi_tag_total, Hwa.
Qed.
End Wheels.
