(* ===== verification/DnfFacts.v ===== *)
(** * Markers: normal forms, verified

    What [crates/uv-pep508/src/marker/simplify.rs] collects: clauses that hold, as expressions, in
    the environments in which the cover does. Strings are compared in few ways, and a range of
    versions may be printed as an inequality or with a star; the condition [plain] says when such an
    expression means its comparison. *)

From stdpp Require Import base countable list option numbers decidable strings gmap.
From Stdlib Require Import ZArith Lia.
From S2P Require Import Prelude Text Ranges VersionTypes VersionSmall Version VersionOrder VersionCacheKey.
From S2P Require Import VersionParser VersionSpecifier VersionRanges VersionRangesFacts ReleaseRanges.
From S2P Require Import SpecifierFacts SpecifierBounds PythonVersion MarkerTypes Interner EdgesOrder MarkerAlgebra.
From S2P Require Import Isop MarkerTree MarkerEval InternerFacts EdgesFacts Canonical AlgebraFacts ExclusionFacts.
From S2P Require Import ExpressionFacts IsopFacts CoverFacts Dnf RequiresPython RequiresPythonFacts.

Local Open Scope Z_scope.
Local Open Scope uv_scope.

(** ** Inequalities *)

Section Inequality.
Context {T : Type} (law : T -> T -> comparison) `{!OrdLaws law} (eqb : T -> T -> bool).
Context (good : T -> Prop) (Heqb : forall x y, good x -> good y -> eqb x y = true -> law x y = Eq).

Notation segment := (bound_of T * bound_of T)%type.

(** Segments that are not empty, with bounds that can be compared. *)
Definition fit (s : segment) : Prop := segment_valid law s.1 s.2 = true /\ Forall good (bound_values s.1 ++ bound_values s.2).

Lemma excluded_values_cons lo hi lo' hi' segs ex :
  Forall fit ((lo, hi) :: (lo', hi') :: segs) -> excluded_values eqb ((lo, hi) :: (lo', hi') :: segs) = Some ex ->
  exists x y ex', hi = Excluded x /\ lo' = Excluded y /\ law x y = Eq /\ ex = x :: ex' /\
    segment_valid law lo hi = true /\ Forall fit ((lo', hi') :: segs) /\
    excluded_values eqb ((lo', hi') :: segs) = Some ex'.
Proof.
  intros Hfit. pose proof (Forall_inv Hfit) as [H1 H2]. pose proof (Forall_inv_tail Hfit) as Htail.
  pose proof (Forall_inv Htail) as [_ H2'].
  change (excluded_values eqb ((lo, hi) :: (lo', hi') :: segs)) with
    (match hi, lo' with
     | Excluded v1, Excluded v2 => if eqb v1 v2 then cons v1 <$> excluded_values eqb ((lo', hi') :: segs) else None
     | _, _ => None
     end).
  destruct hi as [x|x|], lo' as [y|y|]; try done. destruct (eqb x y) eqn:E; [|done].
  destruct (excluded_values eqb ((Excluded y, hi') :: segs)) as [ex'|]; [|done]. intros [= <-].
  exists x, y, ex'. split_and!; try done. apply Heqb; [|by apply Forall_inv in H2'|done].
  rewrite Forall_forall in H2. apply H2. cbn. apply elem_of_app. right. by left.
Qed.

(** The values between segments come after the start of the first. *)
Lemma excluded_after v hi segs ex :
  Forall fit ((Excluded v, hi) :: segs) -> excluded_values eqb ((Excluded v, hi) :: segs) = Some ex ->
  Forall (fun x => law v x = Lt) ex.
Proof.
  revert v hi ex. induction segs as [|[lo' hi'] segs IH]; intros v hi ex Hv; [intros [= <-]; apply Forall_nil_2|].
  intros Ex. destruct (excluded_values_cons _ _ _ _ _ _ Hv Ex) as (x & y & ex' & -> & -> & E & -> & Hx & Hv' & Ex').
  cbn in Hx. apply bool_decide_eq_true in Hx.
  apply Forall_cons_2; [done|]. eapply Forall_impl; [by apply (IH y hi')|]. intros z Hz. cbn in Hz.
  apply (cmp_lt_trans law v y z); [|done]. by rewrite <- (cmp_eq_r law x y v E).
Qed.

(** A value that is not above the first start is in no segment. *)
Lemma excluded_none v lo hi segs ex :
  Forall fit ((lo, hi) :: segs) -> excluded_values eqb ((lo, hi) :: segs) = Some ex -> segment_above law lo v = false ->
  existsb (segment_contains law v) ((lo, hi) :: segs) = false.
Proof.
  revert lo hi ex. induction segs as [|[lo' hi'] segs IH]; intros lo hi ex Hv Ex Ha; cbn [existsb];
    unfold segment_contains at 1; cbn [fst snd]; rewrite Ha; [done|]. cbn [andb orb].
  destruct (excluded_values_cons _ _ _ _ _ _ Hv Ex) as (x & y & ex' & -> & -> & E & -> & Hx & Hv' & Ex').
  apply (IH _ _ ex'); [done..|].
  cbn. apply bool_decide_eq_false_2. rewrite <- (cmp_eq_l law x y v E). intros Hlt. apply not_true_iff_false in Ha. apply Ha.
  destruct lo as [a|a|]; cbn in Hx |- *; [..|done]; apply bool_decide_eq_true in Hx; apply bool_decide_eq_true_2.
  - by rewrite (cmp_lt_trans law a x v).
  - by apply (cmp_lt_trans law a x v).
Qed.

(** A line with holes: the values that are not holes. *)
Lemma excluded_values_spec v lo hi segs ex f :
  Forall fit ((lo, hi) :: segs) -> excluded_values eqb ((lo, hi) :: segs) = Some ex ->
  last ((lo, hi) :: segs) = Some f -> f.2 = Unbounded -> segment_above law lo v = true ->
  existsb (segment_contains law v) ((lo, hi) :: segs) = forallb (fun x => negb (bool_decide (law v x = Eq))) ex.
Proof.
  revert lo hi ex. induction segs as [|[lo' hi'] segs IH]; intros lo hi ex Hv Ex Hl Hf Ha.
  - injection Hl as <-. cbn in Ex, Hf. injection Ex as <-. subst hi. cbn. unfold segment_contains. cbn. by rewrite Ha.
  - destruct (excluded_values_cons _ _ _ _ _ _ Hv Ex) as (x & y & ex' & -> & -> & E & -> & Hx & Hv' & Ex').
    specialize (IH _ _ ex' Hv' Ex' Hl Hf).
    pose proof (excluded_after _ _ _ _ Hv' Ex') as Hafter. rewrite Forall_forall in Hafter.
    assert (E' : existsb (segment_contains law v) ((lo, Excluded x) :: (Excluded y, hi') :: segs) =
      bool_decide (law v x = Lt) || existsb (segment_contains law v) ((Excluded y, hi') :: segs)).
    { cbn [existsb]. f_equal. unfold segment_contains. cbn. by rewrite Ha. }
    rewrite E'. cbn [forallb]. destruct (law v x) eqn:Ev.
    + rewrite (bool_decide_eq_false_2 (Eq = Lt)), (bool_decide_eq_true_2 (Eq = Eq)) by done. cbn [orb andb negb].
      apply (excluded_none v _ _ _ ex'); [done..|].
      cbn. apply bool_decide_eq_false_2. rewrite (cmp_eq_r law v x y Ev), (cmp_opp law x y), E. done.
    + rewrite (bool_decide_eq_true_2 (Lt = Lt)), (bool_decide_eq_false_2 (Lt = Eq)) by done. symmetry.
      apply forallb_forall. intros z Hz%list_elem_of_In%Hafter.
      rewrite bool_decide_eq_false_2; [done|]. rewrite (cmp_lt_trans law v y z); [done| |done]. by rewrite <- (cmp_eq_r law x y v E).
    + rewrite (bool_decide_eq_false_2 (Gt = Lt)), (bool_decide_eq_false_2 (Gt = Eq)) by done. cbn [orb andb negb]. apply IH.
      cbn. apply bool_decide_eq_true_2. rewrite <- (cmp_eq_l law x y v E). by apply (cmp_gt_lt law).
Qed.

Lemma range_inequality_spec `{!RangeOps T, !RangeLaws law} (r : range T) ex v :
  Forall good (range_values r) -> range_inequality eqb r = Some ex ->
  range_contains r v = forallb (fun x => negb (bool_decide (law v x = Eq))) ex.
Proof.
  intros Hg. assert (Hfit : Forall fit (range_iter r)).
  { pose proof (range_iter_valid (cmp := law) r) as Hv. rewrite Forall_forall in Hv. rewrite Forall_forall in Hg.
    apply Forall_forall. intros s Hs. split; [by apply Hv|]. apply Forall_forall. intros x Hx. apply Hg, list_elem_of_bind. by exists s. }
  unfold range_inequality. rewrite (range_is_empty_iter (cmp := law)), (range_bounding_iter (cmp := law)), (range_contains_iter (cmp := law)).
  destruct (range_iter r) as [|[lo hi] segs]; [done|]. cbn [head orb fst snd].
  destruct (last ((lo, hi) :: segs)) as [f|] eqn:El; [|done]. destruct f as [fl fu]. cbn [snd].
  destruct lo as [| |]; try done. destruct fu as [| |] eqn:Ef; try done. cbn [is_line negb]. intros Ex.
  by apply (excluded_values_spec v _ _ _ ex (fl, Unbounded)).
Qed.
End Inequality.

(** ** Plain expressions *)

(** A release, of a version that can be compared. *)
Definition is_release (v : Version) : bool :=
  bool_decide (version_make_full v = release_only (version_release v)) &&
  forallb (fun n => (0 <=? n) && (n <? U64_MAX)) (version_release v) && negb (bool_decide (version_release v = [])).

Lemma is_release_spec v : comparable v -> is_release v = true -> release_version v.
Proof.
  intros Hc [[E%bool_decide_eq_true Hn]%andb_true_iff Hne%negb_true_iff]%andb_true_iff.
  apply bool_decide_eq_false in Hne. apply (stands_release v (version_release v)); [by split| |done].
  apply Forall_forall. intros n Hin%list_elem_of_In. rewrite forallb_forall in Hn. apply Hn, andb_true_iff in Hin as [H1 H2].
  apply Z.leb_le in H1. apply Z.ltb_lt in H2. split; lia.
Qed.

(** An expression that means its comparison: a star on two numbers, an ordered string only for the
    version of the platform, and a string that is not lowered to another variable. *)
Definition plain (expr : MarkerExpression) : bool :=
  match expr with
  | ExprVersion _ specifier =>
      match specifier_operator specifier with
      | NotEqualStar => (length (version_release (specifier_version specifier)) =? 2)%nat
      | _ => true
      end
  | ExprString key operator value =>
      let literal := bool_decide (lower_string key value = (canonical_string key, value)) &&
        negb (bool_decide (canonical_string key = PlatformRelease)) in
      match operator with
      | MIn | MNotIn | MContains | MNotContains => true
      | MEqual | MNotEqual => literal
      | _ => literal && bool_decide (canonical_string key = PlatformVersion)
      end
  | _ => true
  end.

Definition clause_value (sigma : Valuation) (clause : list MarkerExpression) : bool :=
  forallb (expression_value sigma) clause.

Definition dnf_value (sigma : Valuation) (dnf : Dnf) : bool := existsb (clause_value sigma) dnf.

Definition plain_clauses (dnf : Dnf) : bool := forallb (forallb plain) dnf.

(** ** Versions *)

Lemma released_matches_release op u w :
  release_version u -> release_version w -> specifier_valid (mkSpecifier op u) ->
  released_matches (mkSpecifier op u) w = matches (mkSpecifier op u) w.
Proof.
  intros Hu Hw V. destruct (specifier_only_release_valid op u V) as (u' & E & Hu' & Er & V').
  unfold released_matches. rewrite E. change (matches (mkSpecifier op u') w = matches (mkSpecifier op u) w). rewrite (matches_release op u' w), (matches_release op u w) by done. by rewrite Er.
Qed.

(** The specifiers of a bound compare with releases, and not as text. *)
Definition release_comparison (x : VersionSpecifier) : Prop :=
  release_version (specifier_version x) /\ specifier_operator x <> ExactEqual.

Definition release_specifier_ok (x : VersionSpecifier) : Prop := release_version (specifier_version x) /\ specifier_valid x.

Lemma released_clause xs w :
  Forall release_specifier_ok xs -> release_version w ->
  forallb (fun x => released_matches x w) xs = forallb (fun x => matches x w) xs.
Proof.
  intros Hx Hw. induction Hx as [|[op u] xs [H1 H2] _ IH]; [done|]. cbn [forallb]. by rewrite IH, released_matches_release.
Qed.

Lemma bound_pair_releases lower upper xs :
  bound_release lower -> bound_release upper -> bound_pair lower upper = Some xs -> Forall release_comparison xs.
Proof.
  intros Hl Hu. unfold bound_pair.
  destruct lower as [v1|v1|], upper as [v2|v2|]; cbn [bound_release] in *; unfold from_lower_bound, from_upper_bound;
    rewrite ?from_version_release by done; intros [= <-]; repeat (apply Forall_cons_2; [by split|]); apply Forall_nil_2.
Qed.

Lemma release_only_bounds_releases lower upper xs :
  bound_release lower -> bound_release upper -> specifier_from_release_only_bounds lower upper = Some xs ->
  Forall release_comparison xs.
Proof.
  intros Hl Hu. pose proof (fun H => bound_pair_releases lower upper xs Hl Hu H) as HP. unfold specifier_from_release_only_bounds.
  assert (Hnew : forall a b x, is_number a -> is_number b -> version_new [a; b] = Some x -> release_version x).
  { intros a b x Ha Hb E. apply (new_release [a; b]); [|done]. repeat apply Forall_cons_2; [done|done|constructor]. }
  destruct lower as [v1|v1|], upper as [v2|v2|]; try exact HP.
  - destruct (version_eq v1 v2); [|exact HP]. intros [= <-]. by apply Forall_cons_2; [split|apply Forall_nil_2].
  - destruct (trimmed_release v1 Hl) as (t1 & -> & N1 & _), (trimmed_release v2 Hu) as (t2 & -> & _). cbn [mbind option_bind].
    destruct (version_release t1) as [|major [|minor [|]]]; try exact HP; case_bool_decide; try exact HP.
    + destruct (version_new [major; 0]) as [x|] eqn:Ex; [|done]. intros [= <-]. inversion N1; subst.
      apply Forall_cons_2; [|apply Forall_nil_2]. split; [|done]. by apply (Hnew major 0); [|split|].
    + destruct (version_new [major; minor]) as [x|] eqn:Ex; [|done]. intros [= <-]. inversion N1 as [|?? Hmaj Hmin]; subst.
      inversion Hmin; subst. apply Forall_cons_2; [|apply Forall_nil_2]. split; [|done]. by apply (Hnew major minor).
Qed.

Lemma existsb_ext_in {A : Type} (f g : A -> bool) l : (forall x, x ∈ l -> f x = g x) -> existsb f l = existsb g l.
Proof. induction l as [|x l IH]; intros H; [done|]. cbn. rewrite IH by (intros; apply H; by right). by rewrite (H x) by by left. Qed.

Lemma forallb_ext_in {A : Type} (f g : A -> bool) l : (forall x, x ∈ l -> f x = g x) -> forallb f l = forallb g l.
Proof. induction l as [|x l IH]; intros H; [done|]. cbn. rewrite IH by (intros; apply H; by right). by rewrite (H x) by by left. Qed.

Lemma forallb_fmap {A B : Type} (f : B -> bool) (g : A -> B) l : forallb f (g <$> l) = forallb (fun x => f (g x)) l.
Proof. induction l as [|x l IH]; [done|]. cbn. by rewrite IH. Qed.

Lemma excluded_values_in {T : Type} (eqb : T -> T -> bool) segs ex :
  excluded_values eqb segs = Some ex -> ex ⊆ segments_values segs.
Proof.
  revert ex. induction segs as [|[lo hi] segs IH]; intros ex; [intros [= <-]; set_solver|].
  destruct segs as [|[lo' hi'] segs]; [intros [= <-]; set_solver|].
  change (excluded_values eqb ((lo, hi) :: (lo', hi') :: segs)) with
    (match hi, lo' with
     | Excluded v1, Excluded v2 => if eqb v1 v2 then cons v1 <$> excluded_values eqb ((lo', hi') :: segs) else None
     | _, _ => None
     end).
  destruct hi as [x|x|], lo' as [y|y|]; try done. destruct (eqb x y); [|done].
  destruct (excluded_values eqb ((Excluded y, hi') :: segs)) as [ex'|]; [|done]. intros [= <-].
  specialize (IH ex' eq_refl). unfold segments_values in *. rewrite bind_cons. cbn [bound_values fst snd] in *. set_solver.
Qed.

Lemma range_inequality_in {T : Type} `{!RangeOps T} (eqb : T -> T -> bool) (r : range T) ex :
  range_inequality eqb r = Some ex -> ex ⊆ range_values r.
Proof. unfold range_inequality. destruct (_ || _); [done|]. apply excluded_values_in. Qed.

Section Versions.
Context {RV : RangeOps Version} {LV : RangeLaws version_cmp_slow}.

Lemma release_eq_slow v w : release_version v -> release_version w ->
  matches (mkSpecifier NotEqual v) w = negb (bool_decide (version_cmp_slow w v = Eq)).
Proof.
  intros Hv Hw. destruct (matches_order w Hw v Hv) as (_ & -> & _). destruct (release_cmp w Hw v Hv) as [<- _].
  rewrite (version_cmp_good w v) by by apply release_comparable. by destruct (version_cmp_slow w v).
Qed.

Lemma version_clause key sigma xs :
  clause_value sigma (version_comparisons key xs) =
  forallb (fun x => released_matches x (version_at sigma (VarVersion key))) xs.
Proof. unfold clause_value, version_comparisons. rewrite forallb_fmap. by destruct key. Qed.

(** Two numbers and the wrap-around of their successor. *)
Lemma star_numbers v1 v2 ns w :
  release_version v1 -> release_version v2 -> release_version w -> Forall is_number ns -> ns <> [] ->
  strip_zeros (version_release v1) = strip_zeros ns -> version_release v2 = succ_last ns ->
  existsb (in_segment w) [(Unbounded, Excluded v1); (Included v2, Unbounded)] = negb (release_prefix ns (version_release w)).
Proof.
  intros H1 H2 Hw Hn Hne E1 E2. cbn [existsb]. unfold in_segment. cbn [fst snd]. rewrite orb_false_r.
  rewrite (below_release w Hw (Excluded v1) H1), (above_release w Hw (Included v2) H2), E2. cbn [above below andb].
  rewrite (release_prefix_range ns (version_release w) Hn (release_u64 w Hw) Hne).
  rewrite (compare_release_stripped (version_release w) (version_release v1) ns);
    [|by apply release_u64|by apply release_u64|by apply numbers_u64|done].
  rewrite andb_true_r, negb_andb, negb_involutive. done.
Qed.

Lemma star_range_operator (r : range Version) x : star_range_specifier r = Some (Some x) -> specifier_operator x = NotEqualStar.
Proof.
  unfold star_range_specifier. destruct (range_iter r) as [|[[| |] [|v1|]] [|[[v2| |] [| |]] [|]]]; try done.
  destruct (version_only_release_trimmed v1) as [t1|]; [|done]. cbn [mbind option_bind].
  destruct (version_release t1) as [|major [|minor [|]]]; try done; case_decide; try done.
  - destruct (version_new [major; 0]); [|done]. by intros [= <-].
  - by intros [= <-].
Qed.

(** A star holds outside of the numbers it is on. *)
Lemma star_range_spec (r : range Version) x w :
  Forall release_version (range_values r) -> release_version w -> star_range_specifier r = Some (Some x) ->
  length (version_release (specifier_version x)) = 2%nat ->
  specifier_operator x = NotEqualStar /\ release_version (specifier_version x) /\
  matches x w = existsb (in_segment w) (range_iter r).
Proof.
  unfold star_range_specifier, range_values. intros Hv Hw.
  destruct (range_iter r) as [|[[| |] [|v1|]] [|[[v2| |] [| |]] [|]]]; try done.
  cbn [segments_values mbind list_bind bound_values fst snd app] in Hv. apply Forall_cons in Hv as [H1 Hv].
  apply Forall_cons in Hv as [H2 _]. destruct (trimmed_release v1 H1) as (t1 & Et1 & N1 & S1).
  destruct (only_release_trimmed_spec v1 (proj1 (proj1 H1))) as (t & Et2 & _ & Ef). rewrite Et1 in Et2. injection Et2 as <-.
  rewrite Et1. cbn [mbind option_bind].
  assert (Hout : forall ns v, Forall is_number ns -> ns <> [] -> strip_zeros (version_release v1) = strip_zeros ns ->
    version_release v2 = succ_last ns -> release_version v -> version_release v = ns ->
    NotEqualStar = NotEqualStar /\ release_version v /\
    matches (not_equals_star_version v) w = existsb (in_segment w) [(Unbounded, Excluded v1); (Included v2, Unbounded)]).
  { intros ns v Hn Hne E1 E2 Hr Er. split_and!; [done..|]. destruct (matches_star w Hw v Hr) as [_ M].
    unfold not_equals_star_version. rewrite M, Er. symmetry. by apply star_numbers. }
  destruct (version_release t1) as [|major [|minor [|]]] eqn:Et; try done; case_decide as E2; try done.
  - destruct (version_new [major; 0]) as [v|] eqn:Ev; [|done]. intros [= <-] _. cbn.
    assert (Hn : Forall is_number [major; 0]) by (inversion N1; subst; repeat apply Forall_cons_2; [done|by split|constructor]).
    destruct (new_release _ _ Hn Ev) as [Hr Er]. by apply (Hout [major; 0]).
  - intros [= <-] Hlen. cbn in Hlen |- *. inversion N1 as [|?? Hmaj Hmin]; subst. inversion Hmin as [|?? Hm _]; subst.
    rewrite (wrapping_succ minor Hm) in E2.
    apply (Hout [major; minor]); try done. rewrite release_full, Ef in Et. cbn in Et.
    destruct (version_release v1) as [|a [|b [|]]]; try done. cbn in Et |- *. by destruct (b =? 0), (a =? 0).
Qed.

Lemma segment_releases (r : range Version) bounds :
  Forall release_version (range_values r) -> bounds ∈ range_iter r -> bound_release bounds.1 /\ bound_release bounds.2.
Proof.
  intros Hv Hin. rewrite !bound_release_values, <- Forall_app. rewrite Forall_forall in Hv |- *. intros v Hb. apply Hv.
  apply list_elem_of_bind. by exists bounds.
Qed.

(** The specifiers of the segments, together. *)
Lemma segment_alternatives (segs : list (Bound * Bound)) :
  Forall (fun s => bound_release s.1 /\ bound_release s.2) segs ->
  exists xss, mapM (fun bounds => specifier_from_release_only_bounds bounds.1 bounds.2) segs = Some xss /\
    forall w, release_version w -> existsb (forallb (fun x => released_matches x w)) xss = existsb (in_segment w) segs.
Proof.
  destruct a_release as [w0 Hw0]. induction 1 as [|[lo hi] segs [Hl Hh] _ IH]; [by exists []|].
  destruct IH as (xss & E & H). destruct (release_only_bounds_spec w0 Hw0 lo hi Hl Hh) as (xs & Ex & Hvalid & _).
  exists (xs :: xss). cbn [mapM fst snd]. rewrite Ex. cbn [mbind option_bind]. rewrite E. split; [done|].
  intros w Hw. cbn [existsb]. rewrite (H w Hw). f_equal.
  destruct (release_only_bounds_spec w Hw lo hi Hl Hh) as (xs' & Ex' & _ & M). rewrite Ex in Ex'. injection Ex' as <-.
  rewrite released_clause; [exact M| |done]. pose proof (release_only_bounds_releases lo hi xs Hl Hh Ex) as Hr.
  rewrite Forall_forall in Hr, Hvalid |- *. intros x Hx. split; [by apply Hr|by apply Hvalid].
Qed.

(** [version_alternatives]: one of the clauses holds for the versions of the range. *)
Lemma version_alternatives_spec key (r : range Version) :
  Forall release_version (range_values r) ->
  exists alts, version_alternatives key r = Some alts /\
    (plain_clauses alts = true -> forall sigma, release_version (version_at sigma (VarVersion key)) ->
      dnf_value sigma alts = range_contains r (version_at sigma (VarVersion key))).
Proof.
  intros Hv. unfold version_alternatives. pose proof (values_comparable r Hv) as Hc.
  destruct (range_inequality version_eq r) as [ex|] eqn:Ein.
  - eexists. split; [reflexivity|]. intros _ sigma Hw. unfold dnf_value. cbn [existsb]. rewrite orb_false_r, version_clause, forallb_fmap.
    assert (Hex : Forall release_version ex).
    { rewrite Forall_forall in Hv |- *. intros v Hin. apply Hv. by apply (range_inequality_in _ _ _ Ein). }
    assert (Heq : forall x y, comparable x -> comparable y -> version_eq x y = true -> version_cmp_slow x y = Eq).
    { intros x y Hx Hy E%version_eq_true. by rewrite <- version_cmp_good. }
    rewrite (range_inequality_spec version_cmp_slow version_eq comparable Heq r ex) by done.
    apply forallb_ext_in. intros v Hin. rewrite Forall_forall in Hex. specialize (Hex v Hin). unfold not_equals_version.
    rewrite released_matches_release; [by apply release_eq_slow|done|done|]. by apply release_valid.
  - destruct (star_range_specifier r) as [[x|]|] eqn:Estar.
    + eexists. split; [reflexivity|]. intros Hplain sigma Hw. unfold dnf_value. cbn [existsb]. rewrite orb_false_r, version_clause.
      cbn [forallb]. rewrite andb_true_r.
      pose proof (star_range_operator r x Estar) as Hop.
      cbn in Hplain. rewrite Hop, !andb_true_r in Hplain. apply Nat.eqb_eq in Hplain.
      destruct (star_range_spec r x (version_at sigma (VarVersion key)) Hv Hw Estar Hplain) as (_ & Hr & M).
      rewrite <- (iter_in_segment r) by done. rewrite <- M. destruct x as [op u]. apply released_matches_release; [done..|].
      cbn in Hop. subst op. by apply release_valid.
    + destruct (segment_alternatives (range_iter r)) as (xss & E & H).
      { apply Forall_forall. intros s. by apply segment_releases. }
      rewrite E. eexists. split; [reflexivity|]. intros _ sigma Hw. unfold dnf_value. rewrite existsb_fmap.
      rewrite <- (iter_in_segment r), <- (H _ Hw) by done. apply existsb_ext_in. intros xs _. apply version_clause.
    + exfalso. revert Estar. unfold star_range_specifier. unfold range_values in Hv.
      destruct (range_iter r) as [|[[| |] [|v1|]] [|[[v2| |] [| |]] [|]]]; try done.
      apply Forall_inv in Hv. destruct (trimmed_release v1 Hv) as (t1 & -> & N1 & _). cbn [mbind option_bind].
      destruct (version_release t1) as [|major [|minor [|]]]; try done; case_decide; try done.
      destruct (new_release_Some [major; 0]) as (v & -> & _); [|done|done].
      apply Forall_inv in N1. repeat apply Forall_cons_2; [done|by split|constructor].
Qed.
End Versions.

(** ** Strings *)

Section Strings.
Context {RS : RangeOps (list Z)} {LS : RangeLaws string_cmp}.

Lemma canonical_marker_string key : canonical_string (marker_value_string key) = key.
Proof. by destruct key. Qed.

(** What a plain comparison says. *)
Definition literal_test (operator : MarkerOperator) (s value : list Z) : bool :=
  match operator with
  | MEqual => bool_decide (string_cmp s value = Eq)
  | MNotEqual => negb (bool_decide (string_cmp s value = Eq))
  | MGreaterEqual => segment_above string_cmp (Included value) s
  | MGreaterThan => segment_above string_cmp (Excluded value) s
  | MLessEqual => segment_below string_cmp (Included value) s
  | MLessThan => segment_below string_cmp (Excluded value) s
  | _ => false
  end.

Definition is_comparison (operator : MarkerOperator) : bool :=
  match operator with
  | MEqual | MNotEqual | MGreaterThan | MGreaterEqual | MLessThan | MLessEqual => true
  | _ => false
  end.

Lemma plain_literal sigma key operator value :
  is_comparison operator = true -> plain (ExprString (marker_value_string key) operator value) = true ->
  expression_value sigma (ExprString (marker_value_string key) operator value) =
  literal_test operator (string_at sigma (VarString key)) value.
Proof.
  intros Hop Hplain. assert (Hl : lower_string (marker_value_string key) value = (key, value) /\ key <> PlatformRelease /\
    (key = PlatformVersion \/ operator = MEqual \/ operator = MNotEqual)).
  { unfold plain in Hplain. rewrite canonical_marker_string in Hplain.
    destruct operator; try done; rewrite ?andb_true_iff, negb_true_iff, ?bool_decide_eq_true, bool_decide_eq_false in Hplain; tauto. }
  destruct Hl as (El & Hne & Hord).
  assert (Ev : string_value sigma (marker_value_string key) operator value =
    string_test key operator (string_at sigma (VarString key)) value).
  { unfold string_value. rewrite El. rewrite (bool_decide_eq_false_2 (key = PlatformRelease)) by done.
    by destruct (release_specifier operator value) as [[x|]|]. }
  assert (Hs : forall s, bool_decide (s = value) = bool_decide (string_cmp s value = Eq))
    by (intros s; apply bool_decide_ext; symmetry; apply string_cmp_eq).
  destruct operator; try done; unfold expression_value; cbn [patch_constant expression_meaning]; rewrite Ev; unfold string_test, literal_test;
    rewrite ?Hs; try done; destruct Hord as [->|[?|?]]; done.
Qed.

Lemma string_segment sigma key lo hi :
  segment_valid string_cmp lo hi = true -> forallb plain (string_comparisons key lo hi) = true ->
  clause_value sigma (string_comparisons key lo hi) = segment_contains string_cmp (string_at sigma (VarString key)) (lo, hi).
Proof.
  intros Hv Hplain. set (s := string_at sigma (VarString key)).
  assert (Hlit : forall xs, (fun x => ExprString (marker_value_string key) x.1 x.2) <$> xs = string_comparisons key lo hi ->
    Forall (fun x => is_comparison x.1 = true) xs ->
    clause_value sigma (string_comparisons key lo hi) = forallb (fun x => literal_test x.1 s x.2) xs).
  { intros xs Exs Hops. rewrite <- Exs in Hplain |- *. unfold clause_value. rewrite forallb_fmap in Hplain |- *.
    apply forallb_ext_in. intros x Hx. rewrite Forall_forall in Hops. apply plain_literal; [by apply Hops|].
    rewrite forallb_forall in Hplain. by apply Hplain, list_elem_of_In. }
  rewrite (Hlit (operator_from_bounds lo hi) eq_refl).
  - unfold operator_from_bounds, segment_contains. cbn [fst snd].
    destruct lo as [v1|v1|], hi as [v2|v2|]; try case_decide as E; cbn [option_list operator_from_lower_bound operator_from_upper_bound app forallb fst snd literal_test option_rect];
      rewrite ?andb_true_r; try done.
    + subst v2. cbn. rewrite (cmp_opp string_cmp s v1). by destruct (string_cmp s v1).
    + subst v2. exfalso. cbn in Hv. rewrite (cmp_refl string_cmp) in Hv. done.
  - unfold operator_from_bounds. destruct lo as [v1|v1|], hi as [v2|v2|]; try case_decide;
      repeat (apply Forall_cons_2; [done|]); apply Forall_nil_2.
Qed.

(** [string_alternatives]: one of the clauses holds for the strings of the range. *)
Lemma string_alternatives_spec sigma key (r : range (list Z)) :
  plain_clauses (string_alternatives key r) = true ->
  dnf_value sigma (string_alternatives key r) = range_contains r (string_at sigma (VarString key)).
Proof.
  unfold string_alternatives. destruct (range_inequality _ r) as [ex|] eqn:Ein.
  - unfold plain_clauses, dnf_value. cbn [forallb existsb]. rewrite andb_true_r, orb_false_r. unfold clause_value. rewrite !forallb_fmap.
    intros Hplain. assert (Heq : forall x y, any_string x -> any_string y -> bool_decide (x = y) = true -> string_cmp x y = Eq)
      by (intros x y _ _ E%bool_decide_eq_true; by apply string_cmp_eq).
    rewrite (range_inequality_spec string_cmp _ any_string Heq r ex) by (done || by apply Forall_true).
    apply forallb_ext_in. intros v Hin. rewrite plain_literal; [done|done|]. rewrite forallb_forall in Hplain. by apply Hplain, list_elem_of_In.
  - unfold plain_clauses, dnf_value. rewrite forallb_fmap, existsb_fmap, (range_contains_iter (cmp := string_cmp)). intros Hplain.
    apply existsb_ext_in. intros [lo hi] Hin. apply string_segment.
    + pose proof (range_iter_valid (cmp := string_cmp) r) as Hv. rewrite Forall_forall in Hv. by apply (Hv (lo, hi)).
    + rewrite forallb_forall in Hplain. by apply (Hplain (lo, hi)), list_elem_of_In.
Qed.
End Strings.

(** ** Guards *)

Section GuardClauses.
Context {RV : RangeOps Version} {RS : RangeOps (list Z)}.
Context {LV : RangeLaws version_cmp_slow} {LS : RangeLaws string_cmp}.

(** A guard on releases or on another variable than a version in a string, with plain clauses. *)
Definition guard_plain (table : list Node) (g : Guard) : bool :=
  match node_at table (guard_ref g) with
  | Some node =>
      match node_var node with VarVersionString _ => false | _ => true end &&
      match node_children node with
      | EdgesVersion edges => forallb (fun e => forallb is_release (range_values e.1)) edges
      | _ => true
      end
  | None => true
  end &&
  match guard_alternatives table g with Some alternatives => plain_clauses alternatives | None => false end.

Fixpoint cover_plain (table : list Node) (cover : Cover) : bool :=
  match cover with
  | CoverFalse | CoverTrue => true
  | CoverGuard node => guard_plain table (GuardNode node)
  | CoverBranches branches => forallb (fun '(g, c) => guard_plain table g && cover_plain table c) branches
  end.

Context (table : list Node) (Hok : table_ok table).

Lemma terminal_child var i node c :
  node_at table i = Some node -> all_vars table (eq var) i -> c ∈ edges_nodes (node_children node) ->
  c = NODE_TRUE \/ c = NODE_FALSE.
Proof.
  intros En Ha Hc. pose proof (node_at_ok _ _ _ Hok En) as Hedges. pose proof (ok_valid _ _ _ Hedges c Hc) as Hv.
  destruct (node_cases c (proj1 Hv)) as [?|[?|(Tc & Fc & _)]]; [by left|by right|]. exfalso.
  destruct (node_valid_at _ _ Hv Tc Fc) as (n & Enc & _). pose proof (ok_before _ _ _ Hedges c Hc n Enc) as Hlt.
  rewrite <- (all_vars_top _ _ _ _ En Ha) in Hlt. pose proof (all_vars_top _ _ _ _ Enc (all_vars_child _ _ _ _ _ En Ha Hc)) as E.
  cbn in E. by rewrite <- E, (cmp_refl variable_cmp) in Hlt.
Qed.

(** A guard holds where its node has the child. *)
Lemma guard_selects var g node sigma :
  guard_on table var g -> node_at table (guard_ref g) = Some node ->
  guard_holds table sigma g = existsb (fun c => node_negate c (guard_ref g) =? guard_child g)
    (edges_select sigma (node_var node) (node_children node)).
Proof.
  destruct g as [i|i child]; cbn; intros Hg En; [|by rewrite En]. destruct Hg as [Hi Ha].
  destruct (eval_node table sigma i node Hok En) as (c & Ec & Hc & ->). rewrite Ec. cbn. rewrite orb_false_r.
  unfold node_negate. destruct (terminal_child var i node c En Ha Hc) as [->| ->]; by destruct (node_is_complement i).
Qed.

Lemma guard_range_child {T : Type} `{!RangeOps T} (edges : list (range T * NodeId)) parent child :
  guard_range (map_edges parent edges) child = child_range edges parent child.
Proof.
  unfold guard_range, child_range, map_edges. f_equal. induction edges as [|e edges IH]; [done|]. cbn.
  destruct (node_negate e.2 parent =? child); cbn; by rewrite IH.
Qed.

Lemma boolean_alternatives_spec sigma var i high low child expression :
  (forall b, expression_value sigma (expression b) = Bool.eqb b (bool_at sigma var)) ->
  dnf_value sigma (boolean_alternatives (node_negate high i) (node_negate low i) child expression) =
  existsb (fun c => node_negate c i =? child) (edges_select sigma var (EdgesBoolean high low)).
Proof.
  intros He. unfold boolean_alternatives, dnf_value, clause_value. rewrite existsb_fmap, existsb_filter. cbn. rewrite !He, !orb_false_r.
  by destruct (bool_at sigma var); cbn; rewrite ?andb_true_r, ?andb_false_r, ?orb_false_r.
Qed.

(** The values that lead to a child are bounded by releases, if those of its node are. *)
Lemma child_range_releases i key edges child :
  node_at table i = Some (mkNode (VarVersion key) (EdgesVersion edges)) ->
  forallb (fun e => forallb is_release (range_values e.1)) edges = true ->
  Forall release_version (range_values (child_range edges i child)).
Proof.
  intros En Hnode. pose proof (node_at_ok _ _ _ Hok En) as [_ _ _ _ K5]. apply (child_range_values version_cmp_slow).
  cbn in K5. pose proof (chain_values _ _ _ (partition_chain _ _ _ K5)) as Hc.
  rewrite forallb_forall in Hnode. rewrite Forall_forall in Hc |- *. intros e He. specialize (Hc e He). apply list_elem_of_In in He.
  specialize (Hnode e He). rewrite forallb_forall in Hnode. rewrite Forall_forall in Hc |- *.
  intros x Hx. apply is_release_spec; [by apply Hc|]. by apply Hnode, list_elem_of_In.
Qed.

(** The clauses of a decision hold where it has the child. *)
Lemma kind_alternatives_spec node k i child :
  node_at table i = Some node -> kind table i = Some k ->
  match node_var node with VarVersionString _ => false | _ => true end &&
  match node_children node with
  | EdgesVersion edges => forallb (fun e => forallb is_release (range_values e.1)) edges
  | _ => true
  end = true ->
  exists alts, kind_alternatives child k = Some alts /\
    (plain_clauses alts = true -> forall sigma, environment sigma ->
      dnf_value sigma alts = existsb (fun c => node_negate c i =? child) (edges_select sigma (node_var node) (node_children node))).
Proof.
  intros En Ek Hnode. pose proof (node_at_ok _ _ _ Hok En) as [K1 _ _ _ K5]. unfold kind in Ek.
  pose proof (node_at_lookup _ _ _ En) as (Ti & Fi & _). rewrite Ti, Fi, En in Ek. cbn [mbind option_bind] in Ek.
  destruct node as [v e]. cbn [node_var node_children] in *.
  assert (Hbool : forall high low expression, e = EdgesBoolean high low ->
    (forall sigma b, expression_value sigma (expression b) = Bool.eqb b (bool_at sigma v)) ->
    exists alts, Some (boolean_alternatives (node_negate high i) (node_negate low i) child expression) = Some alts /\
      (plain_clauses alts = true -> forall sigma, environment sigma ->
        dnf_value sigma alts = existsb (fun c => node_negate c i =? child) (edges_select sigma v e))).
  { intros high low expression -> He. eexists. split; [reflexivity|]. intros _ sigma _. by apply boolean_alternatives_spec. }
  destruct v as [key|key|key|key value|key value|name|p], e as [edges|edges|high low]; try done; injection Ek as <-; cbn [kind_alternatives].
  - eexists. split; [reflexivity|]. intros Hplain sigma [[_ Hval] _]. rewrite string_alternatives_spec, guard_range_child by done.
    rewrite <- (range_at_value string_cmp), (child_range_at string_cmp). by rewrite <- string_at_value.
  - pose proof (child_range_releases _ _ _ child En Hnode) as Hr.
    rewrite guard_range_child. destruct (version_alternatives_spec key _ Hr) as (alts & Ea & H). exists alts. split; [done|].
    intros Hplain sigma [[_ Hval] [Hrel _]]. rewrite (H Hplain sigma) by apply Hrel.
    rewrite <- (range_at_value version_cmp_slow), (child_range_at version_cmp_slow). by rewrite <- version_at_value.
  - apply Hbool; [done|]. intros sigma b. destruct b; cbn; rewrite canonical_marker_string; by destruct (bool_at _ _).
  - apply Hbool; [done|]. intros sigma b. destruct b; cbn; rewrite canonical_marker_string; by destruct (bool_at _ _).
  - apply Hbool; [done|]. intros sigma b. destruct b; cbn; by destruct (bool_at _ _).
  - apply Hbool; [done|]. intros sigma b. destruct b; cbn; by destruct (bool_at _ _).
Qed.

(** [guard_alternatives]: one of the clauses holds where the guard does. *)
Lemma guard_alternatives_spec var g :
  guard_on table var g -> guard_plain table g = true ->
  exists alts, guard_alternatives table g = Some alts /\
    forall sigma, environment sigma -> dnf_value sigma alts = guard_holds table sigma g.
Proof.
  intros Hg [Hnode Hplain]%andb_true_iff. unfold guard_alternatives in *.
  assert (Hi : node_valid table (guard_ref g)) by (destruct g; apply Hg).
  destruct (node_at table (guard_ref g)) as [node|] eqn:En.
  - destruct (kind table (guard_ref g)) as [k|] eqn:Ek; [|done]. cbn [mbind option_bind] in *.
    destruct (kind_alternatives_spec node k (guard_ref g) (guard_child g)) as (alts & Ea & H); [done..|].
    exists alts. split; [done|]. intros sigma Henv. rewrite Ea in Hplain. rewrite (guard_selects var g node) by done. by apply H.
  - destruct g as [i|i child]; cbn in *; [|by destruct Hg as (_ & node & _ & E & _); rewrite E in En]. unfold kind.
    destruct (node_cases i (proj1 Hi)) as [->|[->|(Ti & Fi & _)]]; [by eexists; split|by eexists; split|].
    destruct (node_valid_at _ _ Hi Ti Fi) as (node & E & _). congruence.
Qed.

(** ** The clauses of a cover *)

Lemma dnf_value_snoc sigma dnf clause : dnf_value sigma (dnf ++ [clause]) = dnf_value sigma dnf || clause_value sigma clause.
Proof. unfold dnf_value. rewrite existsb_app. cbn. by rewrite orb_false_r. Qed.

(** What is collected for a suffix: the clauses so far, and the path where the suffix holds, unless the
    path is empty and the suffix always holds. *)
Definition collects (holds : Valuation -> bool) (collect : Dnf -> list MarkerExpression -> option Dnf) : Prop :=
  forall dnf path, exists dnf', collect dnf path = Some dnf' /\
    forall sigma, environment sigma ->
      (dnf_value sigma dnf' = true -> dnf_value sigma dnf = true \/ (clause_value sigma path = true /\ holds sigma = true)) /\
      (dnf_value sigma dnf = true -> dnf_value sigma dnf' = true) /\
      (clause_value sigma path = true -> holds sigma = true ->
        dnf_value sigma dnf' = true \/ (path = [] /\ forall tau, environment tau -> holds tau = true)).

Lemma collect_true_collects : collects (fun _ => true) collect_true.
Proof.
  intros dnf path. eexists. split; [reflexivity|]. intros sigma _. destruct path as [|e path]; [split_and!; [by left|done|by right]|].
  rewrite dnf_value_snoc.
  split_and!; [intros [?|?]%orb_true_iff; [by left|by right]|by intros ->|intros -> _; left; apply orb_true_r].
Qed.

Lemma alternatives_collect holds collect path alts dnf :
  collects holds collect ->
  exists dnf', foldl (fun dnf alternative => dnf ← dnf; collect dnf (path ++ alternative)) (Some dnf) alts = Some dnf' /\
    forall sigma, environment sigma ->
      (dnf_value sigma dnf' = true -> dnf_value sigma dnf = true \/
        (clause_value sigma path = true /\ dnf_value sigma alts = true /\ holds sigma = true)) /\
      (dnf_value sigma dnf = true -> dnf_value sigma dnf' = true) /\
      (clause_value sigma path = true -> dnf_value sigma alts = true -> holds sigma = true ->
        dnf_value sigma dnf' = true \/ (path = [] /\ [] ∈ alts /\ forall tau, environment tau -> holds tau = true)).
Proof.
  intros Hc. revert dnf. induction alts as [|alt alts IH]; intros dnf; cbn [foldl].
  - exists dnf. split; [done|]. intros sigma _. split_and!; [by left|done|done].
  - cbn [mbind option_bind]. destruct (Hc dnf (path ++ alt)) as (d1 & -> & H1). destruct (IH d1) as (d2 & -> & H2).
    exists d2. split; [done|]. intros sigma Henv. destruct (H1 sigma Henv) as (A1 & A2 & A3), (H2 sigma Henv) as (B1 & B2 & B3).
    unfold clause_value in A1, A3. rewrite forallb_app, andb_true_iff in A1, A3. unfold dnf_value in *. cbn [existsb].
    rewrite orb_true_iff. unfold clause_value in *. split_and!.
    + intros [H|(Hp & Ha & Hh)]%B1; [apply A1 in H as [?|[[? ?] ?]]; [by left|right; tauto]|right; tauto].
    + tauto.
    + intros Hp [Ha|Ha] Hh.
      * destruct A3 as [H|[E Ht]]; [done|done|left; by apply B2|]. right. apply app_eq_nil in E as [-> ->].
        split_and!; [done|by left|done].
      * destruct B3 as [H|(E & Hn & Ht)]; [done|done|done|by left|]. right. split_and!; [done|by right|done].
Qed.

Lemma collect_guard_collects var g holds collect :
  guard_on table var g -> guard_plain table g = true -> collects holds collect ->
  collects (fun sigma => guard_holds table sigma g && holds sigma) (collect_guard table g collect).
Proof.
  intros Hg Hplain Hc dnf path. destruct (guard_alternatives_spec var g Hg Hplain) as (alts & Ea & Hv).
  unfold collect_guard. rewrite Ea. cbn [mbind option_bind].
  destruct (alternatives_collect holds collect path alts dnf Hc) as (dnf' & E & H). exists dnf'. split; [exact E|].
  intros sigma Henv. destruct (H sigma Henv) as (A1 & A2 & A3). rewrite (Hv _ Henv) in A1, A3. split_and!.
  - intros [?|(H1 & H2 & H3)]%A1; [by left|right]. by rewrite H2, H3.
  - done.
  - intros Hp [Hg' Hh]%andb_true_iff. destruct (A3 Hp Hg' Hh) as [?|(E' & Hn & Ht)]; [by left|right]. split; [done|].
    intros tau Ht'. rewrite (Ht _ Ht'), andb_true_r, <- (Hv _ Ht'). apply existsb_exists. exists []. split; [by apply list_elem_of_In|done].
Qed.

(** [collect_cover]: the clauses hold where the cover does. *)
Lemma collect_cover_collects cover :
  cover_valid table cover -> cover_plain table cover = true ->
  collects (fun sigma => cover_holds table sigma cover) (collect_cover table cover).
Proof.
  induction 1 as [| |node var Hv Ha|branches Hg Hc IH]; intros Hplain.
  - intros dnf path. exists dnf. split; [done|]. intros sigma _. split_and!; [by left|done|done].
  - apply collect_true_collects.
  - intros dnf path. destruct (collect_guard_collects var (GuardNode node) (fun _ => true) collect_true ltac:(by split) Hplain collect_true_collects dnf path)
      as (dnf' & E & H). exists dnf'. split; [exact E|]. intros sigma Henv. destruct (H sigma Henv) as (A1 & A2 & A3). cbn [guard_holds] in *.
    rewrite andb_true_r in A1, A3. split_and!; [done..|]. intros Hp Hh. destruct (A3 Hp Hh) as [?|[? Ht]]; [by left|right].
    split; [done|]. intros tau Ht'. specialize (Ht _ Ht'). by rewrite andb_true_r in Ht.
  - cbn [cover_plain] in Hplain. clear Hc. induction branches as [|[g c] branches IHb].
    { intros dnf path. exists dnf. split; [done|]. intros sigma _. split_and!; [by left|done|done]. }
    cbn [forallb] in Hplain. apply andb_true_iff in Hplain as [[Hpg Hpc]%andb_true_iff Hpb].
    destruct (Hg g c) as [var Hgo]; [by left|].
    assert (Hfirst := collect_guard_collects var g _ _ Hgo Hpg (IH g c ltac:(by left) Hpc)).
    assert (Hrest : collects (fun sigma => cover_holds table sigma (CoverBranches branches)) (collect_cover table (CoverBranches branches))).
    { apply IHb; [..|done]; intros g' c' H; [by apply (Hg g' c'); right|by apply (IH g'); right]. }
    clear IH IHb. intros dnf path. destruct (Hfirst dnf path) as (d1 & E1 & H1), (Hrest d1 path) as (d2 & E2 & H2).
    exists d2. split.
    { change (collect_cover table (CoverBranches ((g, c) :: branches)) dnf path) with
        (d ← collect_guard table g (collect_cover table c) dnf path; collect_cover table (CoverBranches branches) d path).
      by rewrite E1. }
    assert (Hval : forall sigma, cover_holds table sigma (CoverBranches ((g, c) :: branches)) =
      (guard_holds table sigma g && cover_holds table sigma c) || cover_holds table sigma (CoverBranches branches)) by done.
    intros sigma Henv. destruct (H1 sigma Henv) as (A1 & A2 & A3), (H2 sigma Henv) as (B1 & B2 & B3). rewrite Hval, orb_true_iff.
    split_and!; [|tauto|].
    + intros [H|[? ?]]%B1; [apply A1 in H as [?|[? ?]]; [by left|right; tauto]|right; tauto].
    + intros Hp [Hh|Hh].
      * destruct (A3 Hp Hh) as [?|[? Ht]]; [left; by apply B2|right]. split; [done|]. intros tau Ht'. by rewrite Hval, (Ht _ Ht').
      * destruct (B3 Hp Hh) as [?|[? Ht]]; [by left|right]. split; [done|]. intros tau Ht'. by rewrite Hval, (Ht _ Ht'), orb_true_r.
Qed.
End GuardClauses.

(** ** Order *)

Lemma clause_value_perm sigma a b : a ≡ₚ b -> clause_value sigma a = clause_value sigma b.
Proof. unfold clause_value. induction 1 as [|x a b _ IH|x y a|a b c _ IH1 _ IH2]; cbn; [done|by rewrite IH|by rewrite !andb_assoc, (andb_comm (expression_value sigma x))|congruence]. Qed.

Lemma dnf_value_perm sigma a b : a ≡ₚ b -> dnf_value sigma a = dnf_value sigma b.
Proof. unfold dnf_value. induction 1 as [|x a b _ IH|x y a|a b c _ IH1 _ IH2]; cbn; [done|by rewrite IH|by rewrite !orb_assoc, (orb_comm (clause_value sigma x))|congruence]. Qed.

(** Sorting keeps the clauses. *)
Lemma sort_value sigma dnf : dnf_value sigma (sort dnf) = dnf_value sigma dnf.
Proof.
  unfold sort. rewrite (dnf_value_perm sigma _ _ (sort_by_perm _ _)). unfold dnf_value. rewrite existsb_fmap.
  apply existsb_ext_in. intros clause _. apply clause_value_perm, sort_by_perm.
Qed.

(** ** Normal forms *)

Section ToDnf.
Context {RV : RangeOps Version} {RS : RangeOps (list Z)}.
Context {LV : RangeLaws version_cmp_slow} {LS : RangeLaws string_cmp}.

(** [to_dnf]: from a plain cover of a marker, clauses that hold where it does. *)
Lemma to_dnf_value {C : Type} (s s' : Interner * C) marker cover :
  table_ok (nodes s'.1) -> isop marker s = Some (cover, s') -> covers_marker marker cover (nodes s'.1) ->
  cover_plain (nodes s'.1) cover = true ->
  exists dnf, to_dnf marker s = Some (dnf, s') /\
    ((exists tau, environment tau /\ eval (nodes s'.1) tau marker = false) -> forall sigma, environment sigma ->
      dnf_value sigma dnf = eval (nodes s'.1) sigma marker).
Proof.
  intros Hok E [Hvalid Hholds] Hplain.
  destruct (collect_cover_collects (nodes s'.1) Hok cover Hvalid Hplain [] []) as (dnf & Ed & H).
  exists (sort dnf). split.
  { unfold to_dnf, bind. rewrite E. unfold get_interner, lift_option. cbn. by rewrite Ed. }
  intros (tau & Ht & Hf) sigma Henv. rewrite sort_value. destruct (H sigma Henv) as (H1 & _ & H3).
  rewrite <- (Hholds sigma (environment_allowed _ Henv)). apply eq_true_iff_eq. split.
  - by intros [?|[_ ?]]%H1.
  - intros Hc. destruct (H3 eq_refl Hc) as [?|[_ Hall]]; [done|]. specialize (Hall tau Ht).
    rewrite (Hholds tau (environment_allowed _ Ht)) in Hall. congruence.
Qed.
End ToDnf.
