(* ===== verification/OnceMap.v ===== *)
(** * Jobs that run once: [uv-once-map]

    [OnceMap] and [RegisteredOnceMap] are shared between tasks. A call is a sequence of atomic steps:
    the operations of the concurrent map, the lock of a value and the operations of a notification.
    [call_step] is the code of one call from one such operation to the next; a system interleaves the
    steps of its calls. The concurrent map ([papaya]) and the notification ([tokio::sync::Notify]) are
    classes with the documented laws. *)

From stdpp Require Import base list option gmap.
From S2P Require Import Prelude.

(** ** The concurrent map *)

Class ConcurrentMap (K : Type) := {
  cmap : Type -> Type;
  cmap_new {A : Type} : cmap A;
  cmap_get {A : Type} : cmap A -> K -> option A;
  cmap_insert {A : Type} : cmap A -> K -> A -> cmap A * option A;
  (** The new map, or the value that is present. *)
  cmap_try_insert {A : Type} : cmap A -> K -> A -> cmap A + A;
  cmap_remove {A : Type} : cmap A -> K -> cmap A * option A;
}.

Class ConcurrentMapLaws (K : Type) {C : ConcurrentMap K} := {
  cmap_get_new {A : Type} (k : K) : cmap_get (cmap_new (A := A)) k = None;
  cmap_insert_old {A : Type} (m : cmap A) k a : (cmap_insert m k a).2 = cmap_get m k;
  cmap_get_insert {A : Type} (m : cmap A) k a : cmap_get (cmap_insert m k a).1 k = Some a;
  cmap_get_insert_ne {A : Type} (m : cmap A) k k' a :
    k <> k' -> cmap_get (cmap_insert m k a).1 k' = cmap_get m k';
  cmap_try_insert_present {A : Type} (m : cmap A) k a b :
    cmap_get m k = Some b -> cmap_try_insert m k a = inr b;
  cmap_try_insert_absent {A : Type} (m : cmap A) k a :
    cmap_get m k = None -> cmap_try_insert m k a = inl (cmap_insert m k a).1;
  cmap_remove_old {A : Type} (m : cmap A) k : (cmap_remove m k).2 = cmap_get m k;
  cmap_get_remove {A : Type} (m : cmap A) k : cmap_get (cmap_remove m k).1 k = None;
  cmap_get_remove_ne {A : Type} (m : cmap A) k k' :
    k <> k' -> cmap_get (cmap_remove m k).1 k' = cmap_get m k';
}.

(** ** Notifications *)

Class NotifyOps := {
  Notify : Type;
  Notified : Type;
  notify_new : Notify;
  notify_notified : Notify -> Notify * Notified;
  notify_waiters : Notify -> Notify;
  notified_ready : Notify -> Notified -> bool;
}.

(** The notifications that [notified] and [notify_waiters] lead to. *)
Inductive notify_used `{NotifyOps} : Notify -> Prop :=
  | used_new : notify_used notify_new
  | used_notified n : notify_used n -> notify_used (notify_notified n).1
  | used_waiters n : notify_used n -> notify_used (notify_waiters n).

(** A future that was created by a call of [notified] on this notification. *)
Inductive notified_of `{NotifyOps} : Notify -> Notified -> Prop :=
  | of_created n : notify_used n -> notified_of (notify_notified n).1 (notify_notified n).2
  | of_notified n f : notified_of n f -> notified_of (notify_notified n).1 f
  | of_waiters n f : notified_of n f -> notified_of (notify_waiters n) f.

Class NotifyLaws `{NotifyOps} := {
  (** [notify_waiters] stores no permit for futures that are created later. *)
  notified_pending n : notify_used n -> notified_ready (notify_notified n).1 (notify_notified n).2 = false;
  notified_others n f :
    notified_of n f -> notified_ready (notify_notified n).1 f = notified_ready n f;
  (** All futures that were created before are woken, polled or not. *)
  waiters_woken n f : notified_of n f -> notified_ready (notify_waiters n) f = true;
}.

(** ** The shared state *)

Section OnceMap.
Context {K V : Type} {C : ConcurrentMap K} {N : NotifyOps}.

(** A value of the map, with the positions of its notification and of its lock. *)
Inductive OnceValue : Type :=
  | Waiting (notify : nat)
  | Filled (cell : nat).

(** The map, the notifications behind [Arc], and the contents of the locks. *)
Record OnceMap : Type := mkOnceMap {
  items : cmap OnceValue;
  notifies : list Notify;
  cells : list (option V);
}.

Definition once_new : OnceMap := mkOnceMap cmap_new [] [].

(** [Value::filled]: a new lock. *)
Definition value_filled (s : OnceMap) (v : V) : OnceValue * OnceMap :=
  (Filled (length (cells s)), mkOnceMap (items s) (notifies s) (cells s ++ [Some v])).

(** [Value::get] and [Value::take], once the lock is held. *)
Definition value_get (s : OnceMap) (value : OnceValue) : option V :=
  match value with
  | Filled cell => mjoin (cells s !! cell)
  | Waiting _ => None
  end.

Definition value_take (s : OnceMap) (value : OnceValue) : option V * OnceMap :=
  match value with
  | Filled cell => (mjoin (cells s !! cell), mkOnceMap (items s) (notifies s) (<[cell := None]> (cells s)))
  | Waiting _ => (None, s)
  end.

(** [FromIterator]. *)
Fixpoint once_from_iter (entries : list (K * V)) (s : OnceMap) : OnceMap :=
  match entries with
  | [] => s
  | (k, v) :: entries =>
      let '(value, s) := value_filled s v in
      once_from_iter entries (mkOnceMap (cmap_insert (items s) k value).1 (notifies s) (cells s))
  end.

(** [try_insert_with(key, || Value::Waiting(Arc::new(Notify::new())))]: the value that is present, or
    [None] after the insertion. *)
Definition try_insert_waiting (s : OnceMap) (k : K) : option OnceValue * OnceMap :=
  match cmap_try_insert (items s) k (Waiting (length (notifies s))) with
  | inl m => (None, mkOnceMap m (notifies s ++ [notify_new]) (cells s))
  | inr value => (Some value, s)
  end.

(** ** Calls *)

Inductive OnceCall : Type :=
  | CallRegister (k : K)
  | CallRegisterEntry (k : K)
  | CallGetRegistered (k : K)
  | CallRegisterOrWait (k : K)
  | CallWait (k : K)
  | CallDone (k : K) (v : V)
  | CallGet (k : K)
  | CallRemove (k : K).

(** What a call returns. *)
Inductive Answer : Type :=
  | AnswerBool (registered : bool)
  | RegistrationNew (k : K)
  | RegistrationExisting (k : K)
  | AnswerEntry (entry : option K)
  | AnswerOption (value : option V)
  | AnswerValue (value : V)
  | AnswerUnit.

(** The function that awaits [wait_pending], through [wait_registered] or not. *)
Inductive Waiter : Type := ByRegisterOrWait | ByEntry.

(** What follows the lock of a value: return it, or the check of [wait_pending]. *)
Inductive AfterRead : Type :=
  | ReadReturn (waiter : Waiter)
  | ReadCheck (waiter : Waiter) (k : K) (notify : nat) (future : Notified).

(** The position in the code of a call. *)
Inductive Position : Type :=
  | AtStart (call : OnceCall)
  | AtRead (value : OnceValue) (next : AfterRead)
  | AtPending (waiter : Waiter) (k : K) (notify : nat)
  | AtCheck (waiter : Waiter) (k : K) (notify : nat) (future : Notified)
  | AtAwait (waiter : Waiter) (k : K) (notify : nat) (future : Notified)
  | AtFinal (waiter : Waiter) (k : K)
  | AtNotify (notify : nat)
  | AtTake (value : OnceValue)
  | Returned (answer : Answer)
  | Dropped (last : Position)
  | Panicked.

(** The result of [register_or_wait], or the [expect] of [RegisteredEntry::wait] on the result of
    [wait_registered]. *)
Definition finish (waiter : Waiter) (value : option V) : Position :=
  match waiter, value with
  | ByRegisterOrWait, value => Returned (AnswerOption value)
  | ByEntry, Some v => Returned (AnswerValue v)
  | ByEntry, None => Panicked
  end.

Definition register (s : OnceMap) (k : K) : bool * OnceMap :=
  let '(present, s) := try_insert_waiting s k in
  (match present with None => true | Some _ => false end, s).

Definition register_entry (s : OnceMap) (k : K) : Answer * OnceMap :=
  let '(registered, s) := register s k in
  (if registered then RegistrationNew k else RegistrationExisting k, s).

Definition get_registered (s : OnceMap) (k : K) : option K :=
  match cmap_get (items s) k with Some _ => Some k | None => None end.

Definition register_or_wait (s : OnceMap) (k : K) : Position * OnceMap :=
  match try_insert_waiting s k with
  | (None, s) => (Returned (AnswerOption None), s)
  | (Some (Filled cell), s) => (AtRead (Filled cell) (ReadReturn ByRegisterOrWait), s)
  | (Some (Waiting notify), s) => (AtPending ByRegisterOrWait k notify, s)
  end.

Definition wait_registered (s : OnceMap) (k : K) : Position :=
  match cmap_get (items s) k with
  | None => finish ByEntry None
  | Some (Filled cell) => AtRead (Filled cell) (ReadReturn ByEntry)
  | Some (Waiting notify) => AtPending ByEntry k notify
  end.

(** [notify.notified()]. *)
Definition wait_pending (s : OnceMap) (waiter : Waiter) (k : K) (notify : nat) :
    option (Position * OnceMap) :=
  n ← notifies s !! notify;
  let '(n, future) := notify_notified n in
  Some (AtCheck waiter k notify future, mkOnceMap (items s) (<[notify := n]> (notifies s)) (cells s)).

(** The value was not inserted in between; [Waiting] has no lock, and its [get] is [None]. *)
Definition wait_check (s : OnceMap) (waiter : Waiter) (k : K) (notify : nat) (future : Notified) : Position :=
  match cmap_get (items s) k with
  | None => Panicked
  | Some value => AtRead value (ReadCheck waiter k notify future)
  end.

Definition wait_await (s : OnceMap) (waiter : Waiter) (k : K) (notify : nat) (future : Notified) :
    option Position :=
  n ← notifies s !! notify;
  if notified_ready n future then Some (AtFinal waiter k) else None.

Definition wait_final (s : OnceMap) (waiter : Waiter) (k : K) : Position :=
  match cmap_get (items s) k with
  | None => Panicked
  | Some (Filled cell) => AtRead (Filled cell) (ReadReturn waiter)
  | Some (Waiting _) => Panicked
  end.

Definition after_read (value : option V) (next : AfterRead) : Position :=
  match next, value with
  | ReadReturn waiter, value => finish waiter value
  | ReadCheck waiter _ _ _, Some v => finish waiter (Some v)
  | ReadCheck waiter k notify future, None => AtAwait waiter k notify future
  end.

Definition done (s : OnceMap) (k : K) (v : V) : Position * OnceMap :=
  let '(value, s) := value_filled s v in
  let '(m, old) := cmap_insert (items s) k value in
  let s := mkOnceMap m (notifies s) (cells s) in
  match old with
  | Some (Waiting notify) => (AtNotify notify, s)
  | _ => (Returned AnswerUnit, s)
  end.

Definition done_notify (s : OnceMap) (notify : nat) : option OnceMap :=
  n ← notifies s !! notify;
  Some (mkOnceMap (items s) (<[notify := notify_waiters n]> (notifies s)) (cells s)).

Definition get (s : OnceMap) (k : K) : Position :=
  match cmap_get (items s) k with
  | None => Returned (AnswerOption None)
  | Some value => AtRead value (ReadReturn ByRegisterOrWait)
  end.

Definition remove (s : OnceMap) (k : K) : Position * OnceMap :=
  let '(m, old) := cmap_remove (items s) k in
  let s := mkOnceMap m (notifies s) (cells s) in
  match old with
  | None => (Returned (AnswerOption None), s)
  | Some value => (AtTake value, s)
  end.

Definition start_call (s : OnceMap) (call : OnceCall) : Position * OnceMap :=
  match call with
  | CallRegister k => let '(registered, s) := register s k in (Returned (AnswerBool registered), s)
  | CallRegisterEntry k => let '(answer, s) := register_entry s k in (Returned answer, s)
  | CallGetRegistered k => (Returned (AnswerEntry (get_registered s k)), s)
  | CallRegisterOrWait k => register_or_wait s k
  | CallWait k => (wait_registered s k, s)
  | CallDone k v => done s k v
  | CallGet k => (get s k, s)
  | CallRemove k => remove s k
  end.

(** The next step of a call; [None] when it is suspended, or over. *)
Definition call_step (s : OnceMap) (at_ : Position) : option (Position * OnceMap) :=
  match at_ with
  | AtStart call => Some (start_call s call)
  | AtRead value next => Some (after_read (value_get s value) next, s)
  | AtPending waiter k notify => wait_pending s waiter k notify
  | AtCheck waiter k notify future => Some (wait_check s waiter k notify future, s)
  | AtAwait waiter k notify future => next ← wait_await s waiter k notify future; Some (next, s)
  | AtFinal waiter k => Some (wait_final s waiter k, s)
  | AtNotify notify => s ← done_notify s notify; Some (Returned AnswerUnit, s)
  | AtTake value => let '(v, s) := value_take s value in Some (Returned (AnswerOption v), s)
  | Returned _ | Dropped _ | Panicked => None
  end.

(** ** Systems *)

(** A call and its position. *)
Record Task : Type := mkTask { task_call : OnceCall; task_at : Position }.

(** The values that were ever submitted are recorded for the theorems. *)
Record System : Type := mkSystem {
  shared : OnceMap;
  tasks : list Task;
  submitted : list (K * V);
}.

Definition finished (at_ : Position) : bool :=
  match at_ with Returned _ | Dropped _ | Panicked => true | _ => false end.

(** A returned handle ([RegisteredEntry]) that was not dropped. *)
Definition entry_of (at_ : Position) : option K :=
  match at_ with
  | Returned (RegistrationNew k) | Returned (RegistrationExisting k) | Returned (AnswerEntry (Some k)) => Some k
  | _ => None
  end.

Definition submits (call : OnceCall) : list (K * V) :=
  match call with CallDone k v => [(k, v)] | _ => [] end.

Inductive Label : Type :=
  | Spawn (call : OnceCall)
  | Run (t : nat)
  | Drop (t : nat)
  | Remove (k : K)
  | Stutter.

(** The call of a registered map is possible: removal needs exclusive access, and [wait] a handle. *)
Definition call_allowed `{EqDecision K} (s : System) (call : OnceCall) : bool :=
  match call with
  | CallRemove _ => false
  | CallWait k => existsb (fun t => bool_decide (entry_of (task_at t) = Some k)) (tasks s)
  | _ => true
  end.

(** No call borrows the map, and no handle does. *)
Definition exclusive (s : System) : bool :=
  forallb (fun t => finished (task_at t) && match entry_of (task_at t) with None => true | Some _ => false end) (tasks s).

Definition spawn (s : System) (call : OnceCall) : System :=
  mkSystem (shared s) (tasks s ++ [mkTask call (AtStart call)]) (submits call ++ submitted s).

Definition run (s : System) (t : nat) : option System :=
  task ← tasks s !! t;
  '(next, shared) ← call_step (shared s) (task_at task);
  Some (mkSystem shared (<[t := mkTask (task_call task) next]> (tasks s)) (submitted s)).

(** A handle goes out of scope, or a future that is suspended is dropped. *)
Definition droppable (at_ : Position) : bool :=
  match at_ with
  | AtAwait _ _ _ _ => true
  | _ => match entry_of at_ with Some _ => true | None => false end
  end.

Definition drop_task (s : System) (t : nat) : option System :=
  task ← tasks s !! t;
  if droppable (task_at task)
  then Some (mkSystem (shared s) (<[t := mkTask (task_call task) (Dropped (task_at task))]> (tasks s)) (submitted s))
  else None.

Definition call_key (call : OnceCall) : K :=
  match call with
  | CallRegister k | CallRegisterEntry k | CallGetRegistered k | CallRegisterOrWait k
  | CallWait k | CallDone k _ | CallGet k | CallRemove k => k
  end.

(** [RegisteredOnceMap::remove], with exclusive access: the removal runs alone. The calls on the key,
    which are over, are forgotten. *)
Definition remove_exclusive `{EqDecision K} (s : System) (k : K) : System :=
  let shared :=
    match remove (shared s) k with
    | (AtTake value, shared) => (value_take shared value).2
    | (_, shared) => shared
    end in
  mkSystem shared (filter (fun t => call_key (task_call t) <> k) (tasks s)) (submitted s).

(** One step of the tasks that share a [RegisteredOnceMap]. *)
Definition registered_exec `{EqDecision K} (s : System) (l : Label) : option System :=
  match l with
  | Spawn call => if call_allowed s call then Some (spawn s call) else None
  | Run t => run s t
  | Drop t => drop_task s t
  | Remove k => if exclusive s then Some (remove_exclusive s k) else None
  | Stutter => Some s
  end.

(** One step of the tasks that share an [OnceMap], where removal is a call like the others. *)
Definition once_exec (s : System) (l : Label) : option System :=
  match l with
  | Spawn (CallWait _) | Spawn (CallRegisterEntry _) | Spawn (CallGetRegistered _) => None
  | Spawn call => Some (spawn s call)
  | Run t => run s t
  | Drop t => drop_task s t
  | Remove _ => None
  | Stutter => Some s
  end.

Definition system_new (entries : list (K * V)) : System :=
  mkSystem (once_from_iter entries once_new) [] entries.

Definition execs (exec : System -> Label -> option System) (s : System) (ls : list Label) : option System :=
  foldl (fun s l => s ≫= fun s => exec s l) (Some s) ls.

Inductive registered_reachable `{EqDecision K} : System -> Prop :=
  | reachable_new entries : registered_reachable (system_new entries)
  | reachable_step s l s' :
      registered_reachable s -> registered_exec s l = Some s' -> registered_reachable s'.
End OnceMap.

Arguments OnceMap _ _ {_ _}.
Arguments OnceCall : clear implicits.
Arguments Answer : clear implicits.
Arguments Position _ _ {_}.
Arguments Task _ _ {_}.
Arguments System _ _ {_ _}.
Arguments Label : clear implicits.

(** ** Instances *)

#[export] Instance gmap_concurrent (K : Type) `{Countable K} : ConcurrentMap K := {|
  cmap := gmap K;
  cmap_new := fun _ => ∅;
  cmap_get := fun _ m k => m !! k;
  cmap_insert := fun _ m k a => (<[k := a]> m, m !! k);
  cmap_try_insert := fun _ m k a => match m !! k with Some b => inr b | None => inl (<[k := a]> m) end;
  cmap_remove := fun _ m k => (delete k m, m !! k);
|}.

#[export] Instance gmap_concurrent_laws (K : Type) `{Countable K} : ConcurrentMapLaws K.
Proof.
  split; intros; cbn in *; try done.
  - by rewrite lookup_insert_eq.
  - by rewrite lookup_insert_ne.
  - by case_match; simplify_eq.
  - by case_match; simplify_eq.
  - by rewrite lookup_delete_eq.
  - by rewrite lookup_delete_ne.
Qed.

(** A notification counts the calls of [notify_waiters], and a future keeps the count at its creation. *)
#[export] Instance counting_notify : NotifyOps := {|
  Notify := nat;
  Notified := nat;
  notify_new := O;
  notify_notified := fun n => (n, n);
  notify_waiters := S;
  notified_ready := fun n f => (f <? n)%nat;
|}.

#[export] Instance counting_laws : NotifyLaws.
Proof.
  split; cbn.
  - intros n _. apply Nat.ltb_irrefl.
  - done.
  - intros n f Hf. apply Nat.leb_le.
    induction Hf; cbn in *; lia.
Qed.
