(* ===== verification/OnceMapFacts.v ===== *)
(** * The invariant of a shared [RegisteredOnceMap]

    The steps of calls only extend the shared state ([evolves]); with it, the positions of all calls
    stay right ([position_ok]), no notification is lost, and one call is told to start a job. *)

From stdpp Require Import base list option.
From S2P Require Import Prelude OnceMap.

Section Facts.
Context {K V : Type} `{EqDecision K} {C : ConcurrentMap K} {CL : ConcurrentMapLaws K}.
Context {N : NotifyOps} {NL : NotifyLaws}.

Notation at_key s k := (cmap_get (items s) k).

(** ** What holds of the map *)

Definition value_ok (s : OnceMap K V) (sub : list (K * V)) (k : K) (value : OnceValue) : Prop :=
  match value with
  | Waiting n => exists nt, notifies s !! n = Some nt /\ notify_used nt
  | Filled c => exists v, cells s !! c = Some (Some v) /\ (k, v) ∈ sub
  end.

Record map_ok (s : OnceMap K V) (sub : list (K * V)) : Prop := {
  map_values k value : at_key s k = Some value -> value_ok s sub k value;
  map_unique k k' value : at_key s k = Some value -> at_key s k' = Some value -> k = k';
}.

(** ** Positions *)

(** The call that created [f] waits for the notification of the key, which comes after its value. *)
Definition registered_on (s : OnceMap K V) (k : K) (n : nat) : Prop :=
  at_key s k = Some (Waiting n) \/ exists c, at_key s k = Some (Filled c).

Definition waits_on (s : OnceMap K V) (k : K) (n : nat) (f : Notified) : Prop :=
  registered_on s k n /\
  exists nt, notifies s !! n = Some nt /\ notified_of nt f /\
    (at_key s k = Some (Waiting n) -> notified_ready nt f = false).

Definition answer_ok (s : OnceMap K V) (sub : list (K * V)) (call : OnceCall K V) (answer : Answer K V) : Prop :=
  match answer with
  | AnswerOption (Some v) | AnswerValue v => (call_key call, v) ∈ sub
  | RegistrationNew k | RegistrationExisting k | AnswerEntry (Some k) => k = call_key call /\ is_Some (at_key s k)
  | AnswerBool true => is_Some (at_key s (call_key call))
  | AnswerOption None => forall k, call = CallRegisterOrWait k -> is_Some (at_key s k)
  | _ => True
  end.

Definition next_ok (s : OnceMap K V) (call : OnceCall K V) (value : OnceValue) (next : AfterRead) : Prop :=
  match next with
  | ReadReturn _ => match value with Filled _ => True | Waiting _ => call = CallGet (call_key call) end
  | ReadCheck _ k n f => k = call_key call /\ waits_on s k n f
  end.

Definition read_ok (s : OnceMap K V) (sub : list (K * V)) (call : OnceCall K V) (value : OnceValue) : Prop :=
  match value with
  | Filled c => exists v, cells s !! c = Some (Some v) /\ (call_key call, v) ∈ sub
  | Waiting _ => True
  end.

(** The calls that may be suspended. *)
Definition waits_by (call : OnceCall K V) (w : Waiter) : Prop :=
  match w with
  | ByEntry => call = CallWait (call_key call)
  | ByRegisterOrWait => call = CallRegisterOrWait (call_key call)
  end.

Definition by_call (call : OnceCall K V) (next : AfterRead (K := K)) : Prop :=
  match next with
  | ReadReturn ByEntry => call = CallWait (call_key call)
  | ReadReturn ByRegisterOrWait => True
  | ReadCheck w _ _ _ => waits_by call w
  end.

Definition position_ok (s : OnceMap K V) (sub : list (K * V)) (call : OnceCall K V) (at_ : Position K V) : Prop :=
  match at_ with
  | AtStart call' => call' = call /\ (forall k, call = CallWait k -> is_Some (at_key s k)) /\
      (forall k v, call = CallDone k v -> (k, v) ∈ sub) /\ (forall k, call <> CallRemove k)
  | AtRead value next => read_ok s sub call value /\ next_ok s call value next /\ by_call call next
  | AtPending w k n => k = call_key call /\ registered_on s k n /\ waits_by call w /\
      exists nt, notifies s !! n = Some nt /\ notify_used nt
  | AtCheck w k n f | AtAwait w k n f => k = call_key call /\ waits_on s k n f /\ waits_by call w
  | AtFinal w k => k = call_key call /\ by_call call (ReadReturn w) /\ exists c, at_key s k = Some (Filled c)
  | AtNotify n => (exists nt, notifies s !! n = Some nt /\ notify_used nt) /\
      (forall k, at_key s k <> Some (Waiting n)) /\ is_Some (at_key s (call_key call))
  | Returned answer => answer_ok s sub call answer
  | Dropped (Returned answer) => answer_ok s sub call answer
  | Dropped _ => True
  | AtTake _ | Panicked => False
  end.

(** ** Steps extend the map *)

Record evolves (s s' : OnceMap K V) : Prop := {
  evolves_items k value : at_key s k = Some value ->
    at_key s' k = Some value \/ exists c, at_key s' k = Some (Filled c);
  evolves_waiting k n : at_key s' k = Some (Waiting n) ->
    at_key s k = Some (Waiting n) \/ (length (notifies s) <= n)%nat;
  evolves_notifies n nt : notifies s !! n = Some nt -> exists nt', notifies s' !! n = Some nt' /\
    (notify_used nt -> notify_used nt') /\
    forall f, notified_of nt f -> notified_of nt' f /\
      (notified_ready nt f = true -> notified_ready nt' f = true) /\
      ((exists k, at_key s' k = Some (Waiting n)) -> notified_ready nt' f = notified_ready nt f);
  evolves_cells c x : cells s !! c = Some x -> cells s' !! c = Some x;
}.

Lemma evolves_refl s : evolves s s.
Proof. split; eauto 8. Qed.

Lemma notify_kept (s : OnceMap K V) n nt :
  notifies s !! n = Some nt -> exists nt', notifies s !! n = Some nt' /\
    (notify_used nt -> notify_used nt') /\
    forall f, notified_of nt f -> notified_of nt' f /\
      (notified_ready nt f = true -> notified_ready nt' f = true) /\
      ((exists k, at_key s k = Some (Waiting n)) -> notified_ready nt' f = notified_ready nt f).
Proof. intros E. exists nt. eauto 8. Qed.

Lemma is_Some_evolves s s' k : evolves s s' -> is_Some (at_key s k) -> is_Some (at_key s' k).
Proof. intros E [value Hv]. destruct (evolves_items _ _ E k value Hv) as [->|[c ->]]; eauto. Qed.

Lemma filled_evolves s s' k c :
  evolves s s' -> at_key s k = Some (Filled c) -> exists c', at_key s' k = Some (Filled c').
Proof. intros E Hc. destruct (evolves_items _ _ E k _ Hc) as [->|[c' ->]]; eauto. Qed.

Lemma registered_on_evolves s s' k n : evolves s s' -> registered_on s k n -> registered_on s' k n.
Proof.
  intros E [H|[c H]].
  - destruct (evolves_items _ _ E k _ H) as [H'|[c' H']]; [by left|right; eauto].
  - right. by eapply filled_evolves.
Qed.

Lemma waits_on_evolves s s' k n f : evolves s s' -> waits_on s k n f -> waits_on s' k n f.
Proof.
  intros E (Hr & nt & Hn & Hf & Hw). split; [by eapply registered_on_evolves|].
  destruct (evolves_notifies _ _ E n nt Hn) as (nt' & Hn' & _ & H). destruct (H f Hf) as (Hf' & _ & Hsame).
  exists nt'. split_and!; [done|done|]. intros Hk. rewrite Hsame by eauto.
  destruct (evolves_waiting _ _ E k n Hk) as [Hk'|Hlen]; [by apply Hw|].
  apply lookup_lt_Some in Hn. lia.
Qed.

Lemma used_evolves s s' n :
  evolves s s' -> (exists nt, notifies s !! n = Some nt /\ notify_used nt) ->
  exists nt, notifies s' !! n = Some nt /\ notify_used nt.
Proof.
  intros E (nt & Hn & Hu). destruct (evolves_notifies _ _ E n nt Hn) as (nt' & ? & H & _). eauto.
Qed.

Lemma answer_evolves s s' (sub sub' : list (K * V)) call answer :
  evolves s s' -> (forall x, x ∈ sub -> x ∈ sub') -> answer_ok s sub call answer -> answer_ok s' sub' call answer.
Proof.
  intros E Hs. destruct answer as [[]|k|k|[k|]|[v|]|v|]; cbn; auto;
    try (intros [-> H]; split; [done|]); try (intros H k Hk; specialize (H k Hk)); try intros H; by eapply is_Some_evolves.
Qed.

Lemma cell_evolves s s' (sub sub' : list (K * V)) k c :
  evolves s s' -> (forall x, x ∈ sub -> x ∈ sub') ->
  (exists v, cells s !! c = Some (Some v) /\ (k, v) ∈ sub) ->
  exists v, cells s' !! c = Some (Some v) /\ (k, v) ∈ sub'.
Proof. intros E Hs (v & Hc & Hv). exists v. split; [by apply (evolves_cells _ _ E)|auto]. Qed.

Lemma position_evolves s s' (sub sub' : list (K * V)) call at_ :
  evolves s s' -> (forall x, x ∈ sub -> x ∈ sub') -> position_ok s sub call at_ -> position_ok s' sub' call at_.
Proof.
  intros E Hs. destruct at_ as [call'|value next|w k n|w k n f|w k n f|w k|n|value|answer|last|]; cbn; try done.
  - intros (-> & H1 & H2 & H3). split_and!; eauto using is_Some_evolves.
  - intros (H1 & H2 & H3). split_and!; [|destruct next; [done|]|done].
    + destruct value; [done|]. by eapply cell_evolves.
    + destruct H2 as [-> H2]. split; [done|by eapply waits_on_evolves].
  - intros (-> & H1 & H2 & H3). split_and!; eauto using registered_on_evolves, used_evolves.
  - intros (-> & H1 & H2). split_and!; eauto using waits_on_evolves.
  - intros (-> & H1 & H2). split_and!; eauto using waits_on_evolves.
  - intros (-> & H1 & c & H2). split_and!; eauto using filled_evolves.
  - intros (H1 & H2 & H3). split_and!; eauto using used_evolves, is_Some_evolves.
    intros k Hk. destruct (evolves_waiting _ _ E k n Hk) as [Hk'|Hl]; [by apply (H2 k)|].
    destruct H1 as (nt & Hn%lookup_lt_Some & _). lia.
  - by apply answer_evolves.
  - destruct last; try done. by apply answer_evolves.
Qed.

(** ** The steps of calls *)

Record step_ok (s : OnceMap K V) (sub : list (K * V)) (call : OnceCall K V) (r : Position K V * OnceMap K V) : Prop := {
  step_evolves : evolves s r.2;
  step_map : map_ok r.2 sub;
  step_position : position_ok r.2 sub call r.1;
}.

(** A step that leaves the map as it is. *)
Lemma step_same s sub call next : map_ok s sub -> position_ok s sub call next -> step_ok s sub call (next, s).
Proof. by split; [apply evolves_refl|..]. Qed.

Lemma value_ok_evolves s s' sub k value : evolves s s' -> value_ok s sub k value -> value_ok s' sub k value.
Proof. intros E. destruct value; cbn; [by apply used_evolves|by apply cell_evolves]. Qed.

(** The insertion of a new value. *)
Lemma map_insert_ok s s' sub k value :
  map_ok s sub -> evolves s s' -> items s' = (cmap_insert (items s) k value).1 ->
  (forall k', at_key s k' <> Some value) -> value_ok s' sub k value -> map_ok s' sub.
Proof.
  intros [H1 H2] E Ei Hnew Hv. split.
  - intros k' value'. rewrite Ei. destruct (decide (k = k')) as [->|Hk].
    + rewrite cmap_get_insert. by intros [= <-].
    + rewrite cmap_get_insert_ne by done. intros Hg. by apply (value_ok_evolves s), H1.
  - intros k1 k2 value'. rewrite Ei.
    destruct (decide (k = k1)) as [->|Hk1]; [rewrite cmap_get_insert; intros [= <-]|rewrite (cmap_get_insert_ne _ k) by done];
      destruct (decide (k2 = k1)) as [->|Hne]; try done.
    + rewrite cmap_get_insert_ne by done. intros Hg. by destruct (Hnew k2).
    + destruct (decide (k = k2)) as [->|Hk2]; [rewrite cmap_get_insert; intros Hg [= <-]; by destruct (Hnew k1)|].
      rewrite cmap_get_insert_ne by done. intros. by apply (H2 k1 k2 value').
Qed.

Lemma fresh_waiting s sub k : map_ok s sub -> at_key s k <> Some (Waiting (length (notifies s))).
Proof. intros [H1 _] Hk. destruct (H1 _ _ Hk) as (nt & Hn%lookup_lt_Some & _). lia. Qed.

Lemma fresh_filled s sub k : map_ok s sub -> at_key s k <> Some (Filled (length (cells s))).
Proof. intros [H1 _] Hk. destruct (H1 _ _ Hk) as (nt & Hn%lookup_lt_Some & _). lia. Qed.

Lemma try_insert_waiting_ok s sub k :
  map_ok s sub ->
  let r := try_insert_waiting s k in
  evolves s r.2 /\ map_ok r.2 sub /\ is_Some (at_key r.2 k) /\
  (at_key s k = None -> r.1 = None) /\ (forall value, at_key s k = Some value -> r = (Some value, s)).
Proof.
  intros Hok. unfold try_insert_waiting. destruct (at_key s k) as [value|] eqn:Ek.
  - rewrite (cmap_try_insert_present _ _ _ value) by done. cbn.
    split_and!; [apply evolves_refl|done|by rewrite Ek|done|by intros ? [= ->]].
  - rewrite cmap_try_insert_absent by done. cbn. set (s' := mkOnceMap _ _ _).
    assert (E : evolves s s').
    { split; unfold s'; cbn.
      - intros k' value Hk'. left. rewrite cmap_get_insert_ne; congruence.
      - intros k' n. destruct (decide (k = k')) as [->|]; [|rewrite cmap_get_insert_ne by done; by left].
        rewrite cmap_get_insert. intros [= <-]. by right.
      - intros n nt Hn. exists nt. rewrite lookup_app_l by by eapply lookup_lt_Some. eauto 8.
      - done. }
    split_and!; try done.
    + eapply map_insert_ok; [done|done|done|intros; by apply (fresh_waiting s sub)|].
      exists notify_new. split; [|constructor]. unfold s'; cbn. by rewrite list_lookup_middle.
    + unfold s'; cbn. by rewrite cmap_get_insert.
Qed.

Lemma register_ok s sub k :
  map_ok s sub ->
  let r := register s k in
  evolves s r.2 /\ map_ok r.2 sub /\ is_Some (at_key r.2 k) /\ (r.1 = true -> at_key s k = None).
Proof.
  intros Hok. pose proof (try_insert_waiting_ok s sub k Hok) as (H1 & H2 & H3 & _ & H5).
  unfold register. destruct (try_insert_waiting s k) as [[value|] s'] eqn:Et; cbn in *; split_and!; try done.
  intros _. destruct (at_key s k) as [value|]; [|done]. by specialize (H5 value eq_refl).
Qed.

Lemma register_or_wait_ok s sub k :
  map_ok s sub -> step_ok s sub (CallRegisterOrWait k) (register_or_wait s k).
Proof.
  intros Hok. pose proof (try_insert_waiting_ok s sub k Hok) as (H1 & H2 & H3 & H4 & H5). unfold register_or_wait.
  destruct (at_key s k) as [value|] eqn:Ek.
  - rewrite (H5 value) by done. pose proof (map_values _ _ Hok k value Ek) as Hv.
    destruct value; apply step_same; cbn; eauto 10. split_and!; eauto. by left.
  - specialize (H4 eq_refl). destruct (try_insert_waiting s k) as [o s']; cbn in *; subst o.
    split; cbn; [done|done|]. by intros k' [= <-].
Qed.

Lemma wait_registered_ok s sub k :
  map_ok s sub -> is_Some (at_key s k) -> position_ok s sub (CallWait k) (wait_registered s k).
Proof.
  intros Hok [value Ek]. unfold wait_registered. rewrite Ek.
  pose proof (map_values _ _ Hok k value Ek) as Hv. destruct value; cbn; eauto 10.
  split_and!; eauto. by left.
Qed.

Lemma done_ok s sub k v :
  map_ok s sub -> (k, v) ∈ sub -> step_ok s sub (CallDone k v) (done s k v).
Proof.
  intros Hok Hv. unfold done, value_filled. cbn.
  destruct (cmap_insert (items s) k (Filled (length (cells s)))) as [m old] eqn:Ei.
  assert (Eo : old = at_key s k) by (by rewrite <- (cmap_insert_old (items s) k (Filled (length (cells s)))), Ei).
  assert (Em : m = (cmap_insert (items s) k (Filled (length (cells s)))).1) by by rewrite Ei.
  set (s' := mkOnceMap m (notifies s) (cells s ++ [Some v])).
  assert (Hk : at_key s' k = Some (Filled (length (cells s)))) by by (unfold s'; cbn; rewrite Em, cmap_get_insert).
  assert (Hne : forall k', k <> k' -> at_key s' k' = at_key s k').
  { intros k' Hne. unfold s'; cbn. by rewrite Em, cmap_get_insert_ne. }
  assert (E : evolves s s').
  { split.
    - intros k' value Hg. destruct (decide (k = k')) as [<-|Hn]; [right; eauto|left; by rewrite Hne].
    - intros k' n Hg. destruct (decide (k = k')) as [<-|Hn]; [congruence|left; by rewrite <- Hne].
    - intros n nt Hn. exists nt. eauto 8.
    - intros c x Hc. unfold s'; cbn. by rewrite lookup_app_l by by eapply lookup_lt_Some. }
  assert (Hok' : map_ok s' sub).
  { eapply map_insert_ok; [done|done|exact Em|intros; by apply (fresh_filled s sub)|].
    exists v. unfold s'; cbn. by rewrite list_lookup_middle. }
  clear Ei. subst old. destruct (at_key s k) as [[n|c]|] eqn:Ek; split; cbn; try done.
  split_and!; [exact (map_values _ _ Hok k _ Ek)| |eexists; exact Hk].
  intros k' Hk'. change (at_key s' k' = Some (Waiting n)) in Hk'. destruct (decide (k = k')) as [<-|Hn]; [congruence|].
  rewrite Hne in Hk' by done. by apply Hn, (map_unique _ _ Hok k k' (Waiting n)).
Qed.

(** The state of one notification changes. *)
Lemma notify_update s sub n nt nt' :
  map_ok s sub -> notifies s !! n = Some nt -> notify_used nt' ->
  (forall f, notified_of nt f -> notified_of nt' f /\
     (notified_ready nt f = true -> notified_ready nt' f = true) /\
     ((exists k, at_key s k = Some (Waiting n)) -> notified_ready nt' f = notified_ready nt f)) ->
  let s' := mkOnceMap (items s) (<[n := nt']> (notifies s)) (cells s) in evolves s s' /\ map_ok s' sub.
Proof.
  intros Hok Hn Hu Hf s'. assert (E : evolves s s').
  { split; unfold s'; cbn; eauto. intros n' nt0 Hn'. destruct (decide (n = n')) as [<-|Hne].
    - exists nt'. rewrite list_lookup_insert_eq by by eapply lookup_lt_Some. simplify_eq. eauto.
    - exists nt0. rewrite list_lookup_insert_ne by done. eauto 8. }
  split; [done|]. destruct Hok as [H1 H2]. split; [|done].
  intros k value Hk. apply (value_ok_evolves s); [done|]. by apply H1.
Qed.

Lemma wait_pending_ok s sub call w k n r :
  map_ok s sub -> position_ok s sub call (AtPending w k n) -> wait_pending s w k n = Some r -> step_ok s sub call r.
Proof.
  intros Hok (-> & Hr & Hc & nt & Hn & Hu) Es. unfold wait_pending in Es. rewrite Hn in Es. cbn in Es.
  pose proof (notified_pending nt Hu) as Hp. pose proof (of_created nt Hu) as Hof.
  destruct (notify_update s sub n nt (notify_notified nt).1 Hok Hn (used_notified nt Hu)) as [E Hok'].
  { intros f Hf. rewrite (notified_others nt f Hf). split; [by constructor|done]. }
  destruct (notify_notified nt) as [nt' f]. cbn in *. simplify_eq. split; cbn; [done|done|].
  split_and!; [done| |done]. split; [done|]. exists nt'. split_and!; [|done|done].
  cbn. by rewrite list_lookup_insert_eq by by eapply lookup_lt_Some.
Qed.

Lemma done_notify_ok s sub call n s' :
  map_ok s sub -> position_ok s sub call (AtNotify n) -> done_notify s n = Some s' -> evolves s s' /\ map_ok s' sub.
Proof.
  intros Hok ((nt & Hn & Hu) & Hno & _) Es. unfold done_notify in Es. rewrite Hn in Es. cbn in Es. simplify_eq.
  apply (notify_update s sub n nt); [done|done|by constructor|].
  intros f Hf. rewrite (waiters_woken nt f Hf). split_and!; [by constructor|done|].
  intros [k Hk]. by destruct (Hno k).
Qed.

Lemma finish_ok s sub call w v :
  by_call call (ReadReturn w) -> (call_key call, v) ∈ sub -> position_ok s sub call (finish w (Some v)).
Proof. by destruct w. Qed.

Lemma call_step_ok s sub call at_ r :
  map_ok s sub -> position_ok s sub call at_ -> call_step s at_ = Some r -> step_ok s sub call r.
Proof.
  intros Hok. destruct at_ as [call'|value next|w k n|w k n f|w k n f|w k|n|value|answer|last|]; cbn [call_step]; try done.
  - intros (-> & Hw & Hd & Hr) [= <-]. destruct call as [k|k|k|k|k|k v|k|k]; cbn [start_call].
    + destruct (register_ok s sub k Hok) as (H1 & H2 & H3 & _).
      destruct (register s k) as [[] s']; cbn in *; split; cbn; try done.
    + destruct (register_ok s sub k Hok) as (H1 & H2 & H3 & _). unfold register_entry.
      destruct (register s k) as [[] s']; cbn in *; split; cbn; try done.
    + apply step_same; [done|]. unfold get_registered. cbn. destruct (at_key s k) eqn:Ek; cbn; [by rewrite Ek|done].
    + by apply register_or_wait_ok.
    + apply step_same; [done|]. apply wait_registered_ok; eauto.
    + apply done_ok; eauto.
    + apply step_same; [done|]. unfold get. destruct (at_key s k) as [value|] eqn:Ek; cbn; [|done].
      pose proof (map_values _ _ Hok k value Ek) as Hv. destruct value; cbn in *; eauto 10.
    + by destruct (Hr k).
  - intros (H1 & H2 & H3) [= <-]. apply step_same; [done|]. destruct value as [m|c]; cbn in *.
    + destruct next as [w|w k n f]; cbn in *; [|destruct w; naive_solver].
      destruct w; cbn; [intros k ->; discriminate H2|congruence].
    + destruct H1 as (v & -> & Hv). cbn. destruct next as [w|w k n f]; cbn; by apply finish_ok; [destruct w|].
  - by apply wait_pending_ok.
  - intros (-> & Hw & Hc) [= <-]. apply step_same; [done|]. unfold wait_check.
    destruct Hw as (Hr & Hw). destruct Hr as [Hr|[c Hr]]; rewrite Hr; cbn; pose proof (map_values _ _ Hok _ _ Hr) as Hv.
    + split_and!; [done|done| |by destruct w]. split; [by left|done].
    + split_and!; [done|done| |by destruct w]. split; [right; eauto|done].
  - intros (-> & (Hr & nt & Hn & Hf & Hwait) & Hc) Es. unfold wait_await in Es. rewrite Hn in Es. cbn in Es.
    destruct (notified_ready nt f) eqn:Er; [|done]. cbn in Es. simplify_eq. apply step_same; [done|]. cbn.
    split_and!; [done|by destruct w|]. destruct Hr as [Hr|Hr]; [|done]. by specialize (Hwait Hr).
  - intros (-> & Hc & c & Hk) [= <-]. apply step_same; [done|]. unfold wait_final. rewrite Hk. cbn.
    pose proof (map_values _ _ Hok _ _ Hk) as Hv. by destruct w.
  - intros Hp Es. destruct (done_notify s n) as [s'|] eqn:Ed; [|done]. cbn in Es. simplify_eq.
    destruct (done_notify_ok s sub call n s' Hok Hp Ed) as [E Hok']. by split.
Qed.
End Facts.
