(* ===== verification/OnceMapSystem.v ===== *)
(** * Systems of tasks that share a [RegisteredOnceMap]

    The invariant of the reachable systems: the calls are where they should be, a suspended call is
    going to be notified, and a job is started by one call. *)

From stdpp Require Import base list option.
From S2P Require Import Prelude OnceMap OnceMapFacts.

(** ** Counting *)

Lemma filter_length_insert {A : Type} (P : A -> Prop) `{forall x, Decision (P x)} (l : list A) i x y :
  l !! i = Some x -> ~ P x ->
  length (filter P (<[i := y]> l)) = (length (filter P l) + if decide (P y) then 1 else 0)%nat.
Proof.
  intros Hi Hx. pose proof (lookup_lt_Some _ _ _ Hi) as Hlt. rewrite insert_take_drop by done.
  rewrite <- (take_drop_middle l i x Hi) at 3. rewrite !list.filter_app, !length_app, !list.filter_cons.
  rewrite (decide_False _ _ Hx). destruct (decide (P y)); cbn; lia.
Qed.

Lemma filter_length_insert_same {A : Type} (P : A -> Prop) `{forall x, Decision (P x)} (l : list A) i x y :
  l !! i = Some x -> (P x <-> P y) -> length (filter P (<[i := y]> l)) = length (filter P l).
Proof.
  intros Hi Hxy. pose proof (lookup_lt_Some _ _ _ Hi) as Hlt. rewrite insert_take_drop by done.
  rewrite <- (take_drop_middle l i x Hi) at 3. rewrite !list.filter_app, !length_app, !list.filter_cons.
  destruct (decide (P y)), (decide (P x)); cbn; tauto || lia.
Qed.

Section Systems.
Context {K V : Type} `{EqDecision K} {C : ConcurrentMap K} {CL : ConcurrentMapLaws K}.
Context {N : NotifyOps} {NL : NotifyLaws}.

Notation at_key s k := (cmap_get (items s) k).

(** ** Suspended calls *)

(** The key, the notification and the future that a call is about to await, or awaits. *)
Definition awaiting (at_ : Position K V) : option (K * nat * Notified) :=
  match at_ with
  | AtAwait _ k n f | AtRead (Waiting _) (ReadCheck _ k n f) => Some (k, n, f)
  | _ => None
  end.

Definition wake_pending (s : OnceMap K V) (k : K) (n : nat) (f : Notified) : Prop :=
  at_key s k = Some (Waiting n) \/ exists nt, notifies s !! n = Some nt /\ notified_ready nt f = true.

(** ** Calls that start a job *)

(** The key of the job that a call was told to start. *)
Definition starts (t : Task K V) : option K :=
  match task_call t, task_at t with
  | CallRegister k, Returned (AnswerBool true) => Some k
  | CallRegisterEntry k, (Returned (RegistrationNew _) | Dropped (Returned (RegistrationNew _))) => Some k
  | CallRegisterOrWait k, Returned (AnswerOption None) => Some k
  | _, _ => None
  end.

Definition starters (s : System K V) (k : K) : nat :=
  length (filter (fun t => starts t = Some k) (tasks s)).

Definition starters_ok (value : option OnceValue) (count : nat) : Prop :=
  match value with
  | None => count = O
  | Some (Waiting _) => count = 1%nat
  | Some (Filled _) => (count <= 1)%nat
  end.

(** ** The invariant *)

Record system_ok (s : System K V) : Prop := {
  system_map : map_ok (shared s) (submitted s);
  system_tasks t task : tasks s !! t = Some task ->
    position_ok (shared s) (submitted s) (task_call task) (task_at task);
  system_wake t task k n f : tasks s !! t = Some task -> awaiting (task_at task) = Some (k, n, f) ->
    wake_pending (shared s) k n f \/ exists t' task', tasks s !! t' = Some task' /\ task_at task' = AtNotify n;
  system_starters k : starters_ok (at_key (shared s) k) (starters s k);
}.

(** What a step does to the values of the keys. *)
Inductive step_effect (s : OnceMap K V) (call : OnceCall K V) : Position K V -> OnceMap K V -> Prop :=
  | effect_none next s' : items s' = items s -> starts (mkTask call next) = None -> step_effect s call next s'
  | effect_register k next s' :
      at_key s k = None -> items s' = (cmap_insert (items s) k (Waiting (length (notifies s)))).1 ->
      starts (mkTask call next) = Some k -> step_effect s call next s'
  | effect_done k v next s' c :
      call = CallDone k v -> cells s' !! c = Some (Some v) -> items s' = (cmap_insert (items s) k (Filled c)).1 -> starts (mkTask call next) = None ->
      (forall n, at_key s k = Some (Waiting n) -> next = AtNotify n) -> step_effect s call next s'.

Lemma try_insert_waiting_cases (s : OnceMap K V) k :
  match at_key s k with
  | Some value => try_insert_waiting s k = (Some value, s)
  | None => exists s', try_insert_waiting s k = (None, s') /\
      items s' = (cmap_insert (items s) k (Waiting (length (notifies s)))).1
  end.
Proof.
  unfold try_insert_waiting. destruct (at_key s k) as [value|] eqn:Ek.
  - by rewrite (cmap_try_insert_present _ _ _ value).
  - rewrite cmap_try_insert_absent by done. eexists. split; [done|]. done.
Qed.

Lemma start_call_effect (s : OnceMap K V) sub call next s' :
  position_ok s sub call (AtStart call) -> start_call s call = (next, s') -> step_effect s call next s'.
Proof.
  intros (_ & _ & _ & Hr) Es. destruct call as [k|k|k|k|k|k v|k|k]; cbn [start_call] in Es.
  1,2,4: pose proof (try_insert_waiting_cases s k) as Hc; unfold register_entry, register, register_or_wait in Es;
    destruct (at_key s k) as [value|] eqn:Ek;
    [rewrite Hc in Es; try destruct value; simplify_eq; by apply effect_none|
     destruct Hc as (s0 & Hc & Hi); rewrite Hc in Es; simplify_eq; by apply (effect_register _ _ k)].
  - simplify_eq. by apply effect_none.
  - unfold wait_registered in Es. repeat case_match; simplify_eq; by apply effect_none.
  - unfold done, value_filled in Es. cbn in Es.
    pose proof (cmap_insert_old (items s) k (Filled (length (cells s)))) as Eo.
    destruct (cmap_insert (items s) k (Filled (length (cells s)))) as [m old] eqn:Ei. cbn in Eo. subst old.
    apply (effect_done _ _ k v _ _ (length (cells s))); [done|..].
    + repeat case_match; simplify_eq; cbn; by rewrite list_lookup_middle.
    + rewrite Ei. by repeat case_match; simplify_eq.
    + by repeat case_match; simplify_eq.
    + intros n Hn. rewrite Hn in Es. by simplify_eq.
  - unfold get in Es. repeat case_match; simplify_eq; by apply effect_none.
  - by destruct (Hr k).
Qed.

Lemma call_step_effect (s : OnceMap K V) sub call at_ next s' :
  position_ok s sub call at_ -> call_step s at_ = Some (next, s') -> step_effect s call next s'.
Proof.
  intros Hp Es. destruct at_ as [call'|value rnext|w k n|w k n f|w k n f|w k|n|value|answer|last|];
    cbn [call_step] in Es; try discriminate Es.
  - destruct Hp as (-> & Hp). eapply start_call_effect; [|by injection Es]. by split.
  - injection Es as <- <-. apply effect_none; [done|]. destruct Hp as (H1 & H2 & H3). destruct value as [m|c]; cbn in *.
    + destruct rnext as [w|w k n f]; cbn in *; [rewrite H2; by destruct w|by destruct call].
    + destruct H1 as (v & -> & _). cbn. destruct rnext as [[]|[]]; cbn; by destruct call.
  - unfold wait_pending in Es. destruct (notifies s !! n) as [nt|]; [|done]. cbn in Es. destruct (notify_notified nt).
    simplify_eq. apply effect_none; [done|by destruct call].
  - injection Es as <- <-. apply effect_none; [done|]. unfold wait_check. destruct (at_key s k); by destruct call.
  - unfold wait_await in Es. destruct (notifies s !! n) as [nt|]; [|done]. cbn in Es. destruct (notified_ready nt f); [|done].
    cbn in Es. simplify_eq. apply effect_none; [done|by destruct call].
  - injection Es as <- <-. apply effect_none; [done|]. unfold wait_final. destruct (at_key s k) as [[]|]; by destruct call.
  - unfold done_notify in Es. destruct (notifies s !! n); [|done]. cbn in Es. simplify_eq.
    apply effect_none; [done|by destruct call].
  - by destruct Hp.
Qed.

Lemma unfinished_starts (s : OnceMap K V) task r : call_step s (task_at task) = Some r -> starts task = None.
Proof. destruct task as [call at_]. by destruct call, at_. Qed.

(** ** The step of a call *)

Lemma starters_run (s : System K V) t task next shared' k :
  system_ok s -> tasks s !! t = Some task -> call_step (shared s) (task_at task) = Some (next, shared') ->
  starters_ok (at_key shared' k)
    (starters (mkSystem shared' (<[t := mkTask (task_call task) next]> (tasks s)) (submitted s)) k).
Proof.
  intros Hok Ht Es. pose proof (system_starters _ Hok k) as Hk.
  assert (Ht' : ~ starts task = Some k) by by rewrite (unfinished_starts _ _ _ Es).
  unfold starters. cbn. rewrite (filter_length_insert _ _ _ task) by done. fold (starters s k).
  destruct (call_step_effect _ _ _ _ _ _ (system_tasks _ Hok _ _ Ht) Es) as [next s' Hi Hs|k' next s' Hk' Hi Hs|k' v next s' c _ _ Hi Hs _];
    rewrite Hs, Hi.
  - rewrite decide_False by done. by rewrite Nat.add_0_r.
  - destruct (decide (k' = k)) as [->|Hne].
    + rewrite cmap_get_insert, decide_True by done. rewrite Hk' in Hk. cbn in *. lia.
    + rewrite cmap_get_insert_ne, decide_False by congruence. by rewrite Nat.add_0_r.
  - rewrite decide_False, Nat.add_0_r by done. destruct (decide (k' = k)) as [->|Hne].
    + rewrite cmap_get_insert. cbn. destruct (at_key (shared s) k) as [[]|]; cbn in Hk; lia.
    + by rewrite cmap_get_insert_ne.
Qed.
(** A pending notification stays pending, or the step of the call is about to notify, or notifies. *)
Lemma wake_evolves (s : OnceMap K V) sub call at_ next s' k n f :
  map_ok s sub -> position_ok s sub call at_ -> call_step s at_ = Some (next, s') ->
  waits_on s k n f -> wake_pending s k n f -> wake_pending s' k n f \/ next = AtNotify n.
Proof.
  intros Hok Hp Es (_ & nt & Hn & Hf & _) [Hk|(nt0 & Hn0 & Hr)].
  - destruct (call_step_effect _ _ _ _ _ _ Hp Es) as [next s' Hi _|k' next s' Hk' Hi _|k' v next s' c _ _ Hi _ Hd].
    + left. left. by rewrite Hi.
    + left. left. rewrite Hi, cmap_get_insert_ne; congruence.
    + destruct (decide (k' = k)) as [->|Hne]; [right; by apply Hd|].
      left. left. by rewrite Hi, cmap_get_insert_ne.
  - left. right. assert (nt0 = nt) as -> by congruence.
    destruct (step_evolves _ _ _ _ (call_step_ok _ _ _ _ _ Hok Hp Es)) as [_ _ E _]. cbn in E.
    destruct (E n nt Hn) as (nt' & Hn' & _ & H). destruct (H f Hf) as (_ & H' & _). eauto.
Qed.

Lemma awaiting_waits (s : OnceMap K V) sub call at_ k n f :
  position_ok s sub call at_ -> awaiting at_ = Some (k, n, f) -> waits_on s k n f.
Proof.
  intros Hp Ha. destruct at_ as [call'|[m|c] [w|w k' n' f']|w k' n'|w k' n' f'|w k' n' f'|w k'|n'|value|answer|last|];
    try done; cbn in Ha; simplify_eq; cbn in Hp; tauto.
Qed.

(** The call that notifies wakes the future. *)
Lemma notify_wakes (s : OnceMap K V) next s' k n f :
  waits_on s k n f -> call_step s (AtNotify n) = Some (next, s') -> wake_pending s' k n f.
Proof.
  intros (_ & nt & Hn & Hf & _) Es. cbn in Es. unfold done_notify in Es. rewrite Hn in Es. cbn in Es. simplify_eq.
  right. exists (notify_waiters nt). cbn. rewrite list_lookup_insert_eq by by eapply lookup_lt_Some.
  split; [done|]. by apply waiters_woken.
Qed.

(** A call that gets to the await saw the key without a value. *)
Lemma awaiting_next (s : OnceMap K V) sub call at_ next s' k n f :
  position_ok s sub call at_ -> call_step s at_ = Some (next, s') -> awaiting next = Some (k, n, f) ->
  s' = s /\ (awaiting at_ = Some (k, n, f) \/ wake_pending s k n f).
Proof.
  intros Hp Es Ha. destruct at_ as [call'|value rnext|w k' n'|w k' n' f'|w k' n' f'|w k'|n'|value|answer|last|];
    cbn [call_step] in Es; try discriminate Es.
  - destruct call'; cbn in Es; unfold register_entry, register, register_or_wait, wait_registered, done, get, remove in Es;
      repeat (case_match; simplify_eq/=); try done;
      repeat match goal with v : OnceValue |- _ => destruct v end; by simplify_eq.
  - injection Es as <- <-. split; [done|]. destruct value as [m|c]; cbn in *.
    + destruct rnext as [[]|w k' n' f']; cbn in *; by left.
    + destruct Hp as ((v & Hc & _) & _). rewrite Hc in Ha. by destruct rnext as [[]|[]].
  - unfold wait_pending in Es. destruct (notifies s !! n') as [nt|]; [|done]. cbn in Es. destruct (notify_notified nt). by simplify_eq.
  - injection Es as <- <-. split; [done|]. right. destruct Hp as (-> & ([Hr|[c Hr]] & _) & _);
      unfold wait_check in Ha; rewrite Hr in Ha; cbn in Ha; simplify_eq. by left.
  - unfold wait_await in Es. destruct (notifies s !! n') as [nt|]; [|done]. cbn in Es.
    destruct (notified_ready nt f'); [|done]. cbn in Es. by simplify_eq.
  - injection Es as <- <-. unfold wait_final in Ha. by destruct (at_key s k') as [[]|].
  - destruct (done_notify s n'); [|done]. cbn in Es. by simplify_eq.
  - destruct (value_take s value). by simplify_eq.
Qed.

Lemma wake_run (s : System K V) t task next shared' t' task' k n f :
  system_ok s -> tasks s !! t = Some task -> call_step (shared s) (task_at task) = Some (next, shared') ->
  let tasks' := <[t := mkTask (task_call task) next]> (tasks s) in
  tasks' !! t' = Some task' -> awaiting (task_at task') = Some (k, n, f) ->
  wake_pending shared' k n f \/ exists t0 task0, tasks' !! t0 = Some task0 /\ task_at task0 = AtNotify n.
Proof.
  intros Hok Ht Es tasks' Ht' Ha. pose proof (system_tasks _ Hok _ _ Ht) as Hp.
  pose proof (lookup_lt_Some _ _ _ Ht) as Hlt.
  assert (Hmove : forall t0 task0, t0 <> t -> tasks s !! t0 = Some task0 -> task_at task0 = AtNotify n ->
    exists t0 task0, tasks' !! t0 = Some task0 /\ task_at task0 = AtNotify n).
  { intros t0 task0 Hne H0 H0'. exists t0, task0. unfold tasks'. by rewrite list_lookup_insert_ne. }
  unfold tasks' in Ht'. destruct (decide (t = t')) as [<-|Hne].
  - rewrite list_lookup_insert_eq in Ht' by done. simplify_eq. cbn in Ha.
    destruct (awaiting_next _ _ _ _ _ _ _ _ _ Hp Es Ha) as [-> [Ha'|Hw]]; [|by left].
    destruct (system_wake _ Hok t task k n f Ht Ha') as [Hw|(t0 & task0 & H0 & H0')]; [by left|].
    right. apply (Hmove t0 task0); [|done|done]. intros ->. simplify_eq. by rewrite H0' in Ha'.
  - rewrite list_lookup_insert_ne in Ht' by done.
    pose proof (awaiting_waits _ _ _ _ _ _ _ (system_tasks _ Hok _ _ Ht') Ha) as Hwo.
    destruct (system_wake _ Hok t' task' k n f Ht' Ha) as [Hw|(t0 & task0 & H0 & H0')].
    + destruct (wake_evolves _ _ _ _ _ _ k n f (system_map _ Hok) Hp Es Hwo Hw) as [H| ->]; [by left|].
      right. exists t. eexists. unfold tasks'. by rewrite list_lookup_insert_eq.
    + destruct (decide (t0 = t)) as [->|Hne']; [|right; by apply (Hmove t0 task0)].
      simplify_eq. rewrite H0' in Es. left. by eapply notify_wakes.
Qed.

Lemma run_ok (s s' : System K V) t : system_ok s -> run s t = Some s' -> system_ok s'.
Proof.
  intros Hok Er. unfold run in Er. destruct (tasks s !! t) as [task|] eqn:Ht; [|done]. cbn in Er.
  destruct (call_step (shared s) (task_at task)) as [[next shared']|] eqn:Es; [|done]. cbn in Er. simplify_eq.
  pose proof (system_tasks _ Hok _ _ Ht) as Hp.
  pose proof (call_step_ok _ _ _ _ _ (system_map _ Hok) Hp Es) as [E Hm Hn]. cbn in E, Hm, Hn. split; cbn.
  - done.
  - intros t' task' Ht'. destruct (decide (t = t')) as [<-|Hne].
    + rewrite list_lookup_insert_eq in Ht' by by eapply lookup_lt_Some. by simplify_eq.
    + rewrite list_lookup_insert_ne in Ht' by done.
      apply (position_evolves (shared s) shared' (submitted s)); [done|done|]. by apply (system_tasks _ Hok t').
  - intros t' task' k n f. by apply wake_run.
  - intros k. by apply starters_run.
Qed.

(** ** The other steps *)

Lemma spawn_ok (s : System K V) call : system_ok s -> call_allowed s call = true -> system_ok (spawn s call).
Proof.
  intros Hok Ha.
  assert (Hsub : forall x, x ∈ submitted s -> x ∈ submits call ++ submitted s) by (intros; apply elem_of_app; by right).
  assert (Hold : forall t task, (tasks s ++ [mkTask call (AtStart call)]) !! t = Some task ->
    tasks s !! t = Some task \/ task = mkTask call (AtStart call)).
  { intros t task [Ht|[_ Ht]]%lookup_app_Some; [by left|right]. by apply list_lookup_singleton_Some in Ht as [_ <-]. }
  split; cbn.
  - destruct (system_map _ Hok) as [H1 H2]. split; [|done]. intros k value Hk. specialize (H1 k value Hk).
    destruct value; [done|]. by eapply cell_evolves; [apply evolves_refl|..].
  - intros t task [Ht| ->]%Hold.
    + eapply position_evolves; [apply evolves_refl|done|]. by eapply system_tasks.
    + cbn. split_and!; [done| | |].
      * intros k ->. cbn in Ha. apply existsb_exists in Ha as (task' & Hin & Hk%bool_decide_eq_true).
        apply list_elem_of_In, list_elem_of_lookup in Hin as [t' Ht'].
        pose proof (system_tasks _ Hok _ _ Ht') as Hp. destruct task' as [call' at_']. cbn in *.
        destruct at_'; try done. destruct answer as [| | |[]| | |]; try done; cbn in *; simplify_eq; tauto.
      * intros k v ->. cbn. apply elem_of_cons. by left.
      * by intros k ->.
  - intros t task k n f [Ht| ->]%Hold Hw; [|done].
    destruct (system_wake _ Hok t task k n f Ht Hw) as [H|(t' & task' & Ht' & H)]; [by left|].
    right. exists t', task'. by rewrite lookup_app_l by by eapply lookup_lt_Some.
  - intros k. unfold starters. cbn. rewrite list.filter_app, list.filter_cons_False, app_nil_r by (by destruct call).
    apply (system_starters _ Hok).
Qed.

Lemma drop_task_ok (s s' : System K V) t : system_ok s -> drop_task s t = Some s' -> system_ok s'.
Proof.
  intros Hok Ed. unfold drop_task in Ed. destruct (tasks s !! t) as [task|] eqn:Ht; [|done]. cbn in Ed.
  destruct (droppable (task_at task)) eqn:Hd; [|done]. simplify_eq.
  pose proof (system_tasks _ Hok _ _ Ht) as Hp. pose proof (lookup_lt_Some _ _ _ Ht) as Hlt. split; cbn.
  - apply Hok.
  - intros t' task' Ht'. destruct (decide (t = t')) as [<-|Hne].
    + rewrite list_lookup_insert_eq in Ht' by done. simplify_eq. cbn. by destruct (task_at task).
    + rewrite list_lookup_insert_ne in Ht' by done. by eapply system_tasks.
  - intros t' task' k n f Ht' Hw. destruct (decide (t = t')) as [<-|Hne].
    + rewrite list_lookup_insert_eq in Ht' by done. by simplify_eq.
    + rewrite list_lookup_insert_ne in Ht' by done.
      destruct (system_wake _ Hok t' task' k n f Ht' Hw) as [H|(t0 & task0 & Ht0 & H)]; [by left|].
      right. exists t0, task0. rewrite list_lookup_insert_ne; [done|]. intros ->. simplify_eq. by rewrite H in Hd.
  - intros k. unfold starters. cbn. rewrite (filter_length_insert_same _ _ _ task); [apply (system_starters _ Hok)|done|].
    destruct task as [call at_]. destruct call, at_; cbn in *; try done; by destruct answer.
Qed.
Lemma starts_key (t : Task K V) k : starts t = Some k -> call_key (task_call t) = k.
Proof. destruct t as [call at_]. unfold starts. cbn. intros Hs. repeat case_match; by simplify_eq. Qed.

Lemma exclusive_finished (s : System K V) t task :
  exclusive s = true -> tasks s !! t = Some task -> finished (task_at task) = true.
Proof.
  unfold exclusive. rewrite forallb_forall. intros Hx Ht.
  assert (Hin : List.In task (tasks s)) by (apply list_elem_of_In; by eapply list_elem_of_lookup_2).
  by apply Hx, andb_true_iff in Hin as [? _].
Qed.

(** The removal of one key. *)
Lemma remove_exclusive_map (s : System K V) k :
  map_ok (shared s) (submitted s) ->
  let s' := remove_exclusive s k in
  map_ok (shared s') (submitted s') /\ at_key (shared s') k = None /\
  forall k', k <> k' -> at_key (shared s') k' = at_key (shared s) k'.
Proof.
  intros [H1 H2]. unfold remove_exclusive, remove. cbn.
  pose proof (cmap_remove_old (items (shared s)) k) as Ho.
  pose proof (cmap_get_remove (items (shared s)) k) as Hn.
  pose proof (fun k' => cmap_get_remove_ne (items (shared s)) k k') as Hne.
  destruct (cmap_remove (items (shared s)) k) as [m old]. cbn in *. subst old.
  assert (Hkey : forall k' value, cmap_get m k' = Some value -> k <> k' /\ at_key (shared s) k' = Some value).
  { intros k' value Hk'. destruct (decide (k = k')) as [<-|Hd]; [congruence|]. by rewrite <- Hne. }
  assert (Hu : forall k1 k2 value, cmap_get m k1 = Some value -> cmap_get m k2 = Some value -> k1 = k2).
  { intros k1 k2 value [_ Ha]%Hkey [_ Hb]%Hkey. by apply (H2 k1 k2 value). }
  destruct (at_key (shared s) k) as [[n|c]|] eqn:Ek; cbn; (split_and!; [split; cbn; [|done]|done|done]);
    intros k' value [Hd Hk']%Hkey; try by apply H1.
  pose proof (H1 _ _ Hk') as Hv. destruct value as [n'|c']; [done|]. destruct Hv as (v & Hc & Hv).
  exists v. cbn. rewrite list_lookup_insert_ne; [done|]. intros <-. by apply Hd, (H2 k k' (Filled c)).
Qed.

Lemma remove_exclusive_cells (s : System K V) k c x :
  at_key (shared s) k <> Some (Filled c) -> cells (shared s) !! c = Some x ->
  cells (shared (remove_exclusive s k)) !! c = Some x.
Proof.
  intros Hk Hc. unfold remove_exclusive, remove. cbn. pose proof (cmap_remove_old (items (shared s)) k) as Ho.
  destruct (cmap_remove (items (shared s)) k) as [m old]. cbn in *. subst old.
  destruct (at_key (shared s) k) as [[n|c']|]; cbn; try done. rewrite list_lookup_insert_ne; [done|congruence].
Qed.

Lemma remove_exclusive_ok (s : System K V) k :
  system_ok s -> exclusive s = true -> system_ok (remove_exclusive s k).
Proof.
  intros Hok Hx. pose proof (remove_exclusive_map s k (system_map _ Hok)) as (Hm & Hnone & Hsame).
  assert (Hin : forall t task, tasks (remove_exclusive s k) !! t = Some task ->
    call_key (task_call task) <> k /\ finished (task_at task) = true /\
    position_ok (shared s) (submitted s) (task_call task) (task_at task)).
  { intros t task Ht%list_elem_of_lookup_2. unfold remove_exclusive in Ht. cbn in Ht.
    apply list_elem_of_filter in Ht as [Hk Ht]. apply list_elem_of_lookup in Ht as [t' Ht'].
    split_and!; [done|by eapply exclusive_finished|by eapply system_tasks]. }
  split.
  - done.
  - intros t task (Hk & Hf & Hp)%Hin. destruct task as [call at_]. cbn in *.
    assert (Ha : forall answer, answer_ok (shared s) (submitted s) call answer ->
      answer_ok (shared (remove_exclusive s k)) (submitted s) call answer).
    { intros [[]|k'|k'|[k'|]|[v|]|v|]; cbn [answer_ok]; try done; try (intros [-> H]; split; [done|]); try (intros H k' ->);
        try intros H; rewrite Hsame by done; try done. by apply H. }
    destruct at_ as [| | | | | | | |answer|last|]; try done; cbn in *; [by apply Ha|]. destruct last; try done. by apply Ha.
  - intros t task k' n f (_ & Hf & _)%Hin Ha. by destruct (task_at task).
  - intros k'. unfold starters. destruct (decide (k = k')) as [<-|Hne].
    + rewrite Hnone. cbn. apply length_zero_iff_nil.
      apply elem_of_nil_inv. intros task [Hs [Hk _]%list_elem_of_filter]%list_elem_of_filter. by apply starts_key in Hs.
    + rewrite Hsame by done. unfold remove_exclusive. cbn [tasks]. rewrite list_filter_filter_l.
      * apply (system_starters _ Hok).
      * intros task Hs%starts_key. congruence.
Qed.

Lemma from_iter_ok (entries : list (K * V)) (s : OnceMap K V) sub :
  map_ok s sub -> (forall k n, at_key s k <> Some (Waiting n)) -> (forall x, x ∈ entries -> x ∈ sub) ->
  map_ok (once_from_iter entries s) sub /\ forall k n, at_key (once_from_iter entries s) k <> Some (Waiting n).
Proof.
  revert s. induction entries as [|[k v] entries IH]; intros s Hok Hw Hsub; [done|]. cbn.
  pose proof (done_ok s sub k v Hok (Hsub _ (list_elem_of_here _ _))) as [_ Hok' _].
  unfold done, value_filled in Hok'. cbn in Hok'.
  destruct (cmap_insert (items s) k (Filled (length (cells s)))) as [m old] eqn:Ei. cbn.
  assert (Em : m = (cmap_insert (items s) k (Filled (length (cells s)))).1) by by rewrite Ei.
  apply IH.
  - by destruct old as [[]|].
  - intros k' n. cbn. rewrite Em. destruct (decide (k = k')) as [<-|]; [by rewrite cmap_get_insert|].
    rewrite cmap_get_insert_ne by done. apply Hw.
  - intros x Hx. apply Hsub. by apply list_elem_of_further.
Qed.

Lemma system_new_ok (entries : list (K * V)) : system_ok (system_new entries).
Proof.
  destruct (from_iter_ok entries once_new entries) as [Hm Hw]; [| |done|].
  - split; intros *; cbn; by rewrite cmap_get_new.
  - intros k n. cbn. by rewrite cmap_get_new.
  - split; cbn; try done. intros k. specialize (Hw k). unfold starters. cbn.
    destruct (at_key (once_from_iter entries once_new) k) as [[n|c]|]; cbn; [by destruct (Hw n)|lia|done].
Qed.

Lemma registered_exec_ok (s s' : System K V) l : system_ok s -> registered_exec s l = Some s' -> system_ok s'.
Proof.
  intros Hok. destruct l as [call|t|t|k|]; cbn.
  - destruct (call_allowed s call) eqn:Ha; intros [= <-]. by apply spawn_ok.
  - by apply run_ok.
  - by apply drop_task_ok.
  - destruct (exclusive s) eqn:Hx; intros [= <-]. by apply remove_exclusive_ok.
  - by intros [= <-].
Qed.

Lemma registered_reachable_ok (s : System K V) : registered_reachable s -> system_ok s.
Proof. induction 1; [apply system_new_ok|by eapply registered_exec_ok]. Qed.

(** ** The jobs, abstractly *)

Inductive Job : Type := Absent | Running | Completed (v : V).

Definition job (s : System K V) (k : K) : Job :=
  match at_key (shared s) k with
  | None => Absent
  | Some (Waiting _) => Running
  | Some (Filled c) => match cells (shared s) !! c with Some (Some v) => Completed v | _ => Absent end
  end.

(** A step starts a job that is absent, completes one, removes one, or changes none. *)
Inductive job_step (s : System K V) : Label K V -> System K V -> Prop :=
  | job_unchanged l s' : (forall k, job s' k = job s k) -> job_step s l s'
  | job_started t task k s' :
      tasks s' !! t = Some task -> starts task = Some k -> job s k = Absent -> job s' k = Running ->
      (forall k', k <> k' -> job s' k' = job s k') -> job_step s (Run t) s'
  | job_completed t task k v s' :
      tasks s !! t = Some task -> task_call task = CallDone k v -> job s' k = Completed v ->
      (forall k', k <> k' -> job s' k' = job s k') -> job_step s (Run t) s'
  | job_removed k s' :
      job s' k = Absent -> (forall k', k <> k' -> job s' k' = job s k') -> job_step s (Remove k) s'.

(** The value of a key that is not touched. *)
Lemma job_kept (s : System K V) shared' tasks' sub' k :
  map_ok (shared s) (submitted s) -> (forall c x, cells (shared s) !! c = Some x -> cells shared' !! c = Some x) ->
  at_key shared' k = at_key (shared s) k -> job (mkSystem shared' tasks' sub') k = job s k.
Proof.
  intros Hok Hc Hk. unfold job. cbn. rewrite Hk. destruct (at_key (shared s) k) as [[n|c]|] eqn:Ek; [done| |done].
  destruct (map_values _ _ Hok _ _ Ek) as (v & Hv & _). by rewrite (Hc _ _ Hv), Hv.
Qed.

Lemma run_job_step (s s' : System K V) t : system_ok s -> run s t = Some s' -> job_step s (Run t) s'.
Proof.
  intros Hok Er. unfold run in Er. destruct (tasks s !! t) as [task|] eqn:Ht; [|done]. cbn in Er.
  destruct (call_step (shared s) (task_at task)) as [[next shared']|] eqn:Es; [|done]. cbn in Er. injection Er as <-.
  pose proof (system_tasks _ Hok _ _ Ht) as Hp. pose proof (system_map _ Hok) as Hm.
  pose proof (step_evolves _ _ _ _ (call_step_ok _ _ _ _ _ Hm Hp Es)) as [_ _ _ Hc]. cbn in Hc.
  destruct (call_step_effect _ _ _ _ _ _ Hp Es) as [next s' Hi Hs|k next s' Hk Hi Hs|k v next s' c Hcall Hv Hi Hs _].
  - apply job_unchanged. intros k. apply job_kept; [done|done|by rewrite Hi].
  - apply (job_started _ _ (mkTask (task_call task) next) k); [|done| | |].
    + cbn. by rewrite list_lookup_insert_eq by by eapply lookup_lt_Some.
    + unfold job. by rewrite Hk.
    + unfold job. cbn. by rewrite Hi, cmap_get_insert.
    + intros k' Hne. apply job_kept; [done|done|]. by rewrite Hi, cmap_get_insert_ne.
  - apply (job_completed _ _ task k v); [done|done| |].
    + unfold job. cbn. by rewrite Hi, cmap_get_insert, Hv.
    + intros k' Hne. apply job_kept; [done|done|]. by rewrite Hi, cmap_get_insert_ne.
Qed.

Lemma registered_exec_job (s s' : System K V) l : system_ok s -> registered_exec s l = Some s' -> job_step s l s'.
Proof.
  intros Hok. pose proof (system_map _ Hok) as Hm. destruct l as [call|t|t|k|]; cbn.
  - destruct (call_allowed s call); intros [= <-]. by apply job_unchanged.
  - by apply run_job_step.
  - unfold drop_task. intros Ed. destruct (tasks s !! t); [|done]. cbn in Ed. destruct (droppable _); [|done].
    injection Ed as <-. by apply job_unchanged.
  - destruct (exclusive s); intros [= <-]. destruct (remove_exclusive_map s k Hm) as (Hm' & Hnone & Hsame).
    apply job_removed; [unfold job; by rewrite Hnone|]. intros k' Hne. unfold job. rewrite (Hsame k' Hne).
    destruct (at_key (shared s) k') as [[n|c]|] eqn:Ek; try done.
    destruct (map_values _ _ Hm _ _ Ek) as (v & Hv & _).
    rewrite Hv, (remove_exclusive_cells s k c (Some v)); [done| |done].
    intros Hk. by apply Hne, (map_unique _ _ Hm k k' (Filled c)).
  - intros [= <-]. by apply job_unchanged.
Qed.
End Systems.
