(* ===== verification/OnceMapLive.v ===== *)
(** * Every call on a shared [RegisteredOnceMap] returns

    In a fair execution, a call that is not suspended is eventually run, and a suspended call is
    notified once the value of its key is there. *)

From stdpp Require Import base list option.
From S2P Require Import Prelude OnceMap OnceMapFacts OnceMapSystem.

Section Liveness.
Context {K V : Type} `{EqDecision K} {C : ConcurrentMap K} {CL : ConcurrentMapLaws K}.
Context {N : NotifyOps} {NL : NotifyLaws}.

Notation at_key s k := (cmap_get (items s) k).

(** ** The steps that are left *)

Definition rank (at_ : Position K V) : nat :=
  match at_ with
  | AtStart _ => 7
  | AtPending _ _ _ => 6
  | AtCheck _ _ _ _ => 5
  | AtRead _ (ReadCheck _ _ _ _) => 4
  | AtAwait _ _ _ _ => 3
  | AtFinal _ _ => 2
  | AtRead _ (ReadReturn _) | AtNotify _ | AtTake _ => 1
  | Returned _ | Dropped _ | Panicked => 0
  end.

Lemma finish_rank w v : rank (finish w v) = O.
Proof. by destruct w, v. Qed.

Lemma call_step_rank (s : OnceMap K V) at_ next s' :
  call_step s at_ = Some (next, s') -> (rank next < rank at_)%nat.
Proof.
  intros Es. destruct at_ as [call|value rnext|w k n|w k n f|w k n f|w k|n|value|answer|last|]; cbn [call_step] in Es;
    try discriminate Es.
  - destruct call; cbn in Es; unfold register_entry, register, register_or_wait, wait_registered, done, get, remove in Es;
      simplify_eq/=; repeat (case_match; simplify_eq/=); lia.
  - injection Es as <- _. destruct (value_get s value), rnext; cbn; rewrite ?finish_rank; lia.
  - unfold wait_pending in Es. destruct (notifies s !! n) as [nt|]; [|done]. cbn in Es.
    destruct (notify_notified nt). simplify_eq. cbn. lia.
  - injection Es as <- _. unfold wait_check. destruct (at_key s k); cbn; lia.
  - destruct (wait_await s w k n f) as [p|] eqn:Ew; [|done]. cbn in Es. injection Es as <- _. unfold wait_await in Ew.
    destruct (notifies s !! n) as [nt|]; [|done]. cbn in Ew. destruct (notified_ready nt f); [|done]. simplify_eq. cbn. lia.
  - injection Es as <- _. unfold wait_final. destruct (at_key s k) as [[]|]; cbn; lia.
  - destruct (done_notify s n); [|done]. cbn in Es. simplify_eq. cbn. lia.
  - destruct (value_take s value). simplify_eq. cbn. lia.
Qed.

Definition dropped (at_ : Position K V) : bool := match at_ with Dropped _ => true | _ => false end.

Lemma call_step_dropped (s : OnceMap K V) at_ next s' : call_step s at_ = Some (next, s') -> dropped next = false.
Proof.
  intros Es. destruct at_ as [call|value rnext|w k n|w k n f|w k n f|w k|n|value|answer|last|]; cbn [call_step] in Es;
    try discriminate Es.
  - destruct call; cbn in Es; unfold register_entry, register, register_or_wait, wait_registered, done, get, remove in Es;
      simplify_eq/=; repeat (case_match; simplify_eq/=); done.
  - injection Es as <- _. by destruct (value_get s value), rnext as [[]|[]].
  - unfold wait_pending in Es. destruct (notifies s !! n) as [nt|]; [|done]. cbn in Es.
    destruct (notify_notified nt). by simplify_eq.
  - injection Es as <- _. unfold wait_check. by destruct (at_key s k).
  - unfold wait_await in Es. destruct (notifies s !! n) as [nt|]; [|done]. cbn in Es. destruct (notified_ready nt f); [|done]. by simplify_eq/=.
  - injection Es as <- _. unfold wait_final. by destruct (at_key s k) as [[]|].
  - destruct (done_notify s n); [|done]. by simplify_eq/=.
  - destruct (value_take s value). by simplify_eq.
Qed.

Lemma call_step_next (s : OnceMap K V) sub call at_ next s' :
  map_ok s sub -> position_ok s sub call at_ -> call_step s at_ = Some (next, s') ->
  finished next = false \/ exists answer, next = Returned answer.
Proof.
  intros Hok Hp Es. pose proof (call_step_dropped _ _ _ _ Es) as Hd.
  pose proof (step_position _ _ _ _ (call_step_ok _ _ _ _ _ Hok Hp Es)) as Hn.
  destruct next; try done; try by left. right. eauto.
Qed.

Definition may_wait (call : OnceCall K V) : bool :=
  match call with CallRegisterOrWait _ | CallWait _ => true | _ => false end.

(** ** Executions *)

Definition enabled (s : System K V) (t : nat) : Prop := is_Some (run s t).

Definition filled (s : System K V) (k : K) : Prop := exists c, at_key (shared s) k = Some (Filled c).

(** Tasks run in any order; each is run, or not able to run, infinitely often. *)
Record fair_execution (e : nat -> System K V) (l : nat -> Label K V) : Prop := {
  fair_start : registered_reachable (e O);
  fair_next n : registered_exec (e n) (l n) = Some (e (S n));
  fair_run t n : exists m, (n <= m)%nat /\ (l m = Run t \/ ~ enabled (e m) t);
}.

(** A step while a call is not over. *)
Lemma exec_unfinished (s s' : System K V) l t task :
  system_ok s -> tasks s !! t = Some task -> finished (task_at task) = false -> registered_exec s l = Some s' ->
  evolves (shared s) (shared s') /\
  (l = Run t \/ (l = Drop t /\ droppable (task_at task) = true) \/ tasks s' !! t = Some task).
Proof.
  intros Hok Ht Hf Es. destruct l as [call|t'|t'|k|]; cbn in Es.
  - destruct (call_allowed s call); [|done]. injection Es as <-. split; [apply evolves_refl|]. right. right.
    cbn. by rewrite lookup_app_l by by eapply lookup_lt_Some.
  - unfold run in Es. destruct (tasks s !! t') as [task'|] eqn:Ht'; [|done]. cbn in Es.
    destruct (call_step (shared s) (task_at task')) as [[next shared']|] eqn:Ec; [|done]. cbn in Es. injection Es as <-. cbn.
    split; [exact (step_evolves _ _ _ _ (call_step_ok _ _ _ _ _ (system_map _ Hok) (system_tasks _ Hok _ _ Ht') Ec))|].
    destruct (decide (t' = t)) as [->|Hne]; [by left|]. right. right. by rewrite list_lookup_insert_ne.
  - unfold drop_task in Es. destruct (tasks s !! t') as [task'|] eqn:Ht'; [|done]. cbn in Es.
    destruct (droppable (task_at task')) eqn:Hd; [|done]. injection Es as <-. split; [apply evolves_refl|]. right.
    destruct (decide (t' = t)) as [->|Hne]; [left; by simplify_eq|]. right. cbn. by rewrite list_lookup_insert_ne.
  - destruct (exclusive s) eqn:Hx; [|done]. by rewrite (exclusive_finished s t task Hx Ht) in Hf.
  - injection Es as <-. split; [apply evolves_refl|]. by right; right.
Qed.

(** The future is woken. *)
Definition awake (s : OnceMap K V) (n : nat) (f : Notified) : Prop :=
  exists nt, notifies s !! n = Some nt /\ notified_of nt f /\ notified_ready nt f = true.

Lemma awake_evolves s s' n f : evolves s s' -> awake s n f -> awake s' n f.
Proof.
  intros E (nt & Hn & Hf & Hr). destruct (evolves_notifies _ _ E n nt Hn) as (nt' & Hn' & _ & H).
  destruct (H f Hf) as (Hf' & Hr' & _). exists nt'. auto.
Qed.

Lemma pending_awake s k n f :
  waits_on s k n f -> wake_pending s k n f -> at_key s k <> Some (Waiting n) -> awake s n f.
Proof. intros (_ & nt & Hn & Hf & _) [Hk|(nt' & Hn' & Hr)] Hne; [done|]. simplify_eq. exists nt. auto. Qed.

(** The call that notifies wakes the future. *)
Lemma notify_awake (s : OnceMap K V) next s' k n f :
  waits_on s k n f -> call_step s (AtNotify n) = Some (next, s') -> awake s' n f.
Proof.
  intros (_ & nt & Hn & Hf & _) Es. cbn in Es. unfold done_notify in Es. rewrite Hn in Es. cbn in Es. simplify_eq.
  exists (notify_waiters nt). cbn. rewrite list_lookup_insert_eq by by eapply lookup_lt_Some.
  split_and!; [done|by constructor|by apply waiters_woken].
Qed.

(** A call that is not suspended can run. *)
Lemma position_enabled (s : OnceMap K V) sub call at_ :
  position_ok s sub call at_ -> finished at_ = false ->
  (forall w k n f, at_ = AtAwait w k n f -> awake s n f) -> is_Some (call_step s at_).
Proof.
  intros Hp Hf Ha. destruct at_ as [call'|value next|w k n|w k n f|w k n f|w k|n|value|answer|last|]; cbn [call_step]; try done.
  - destruct Hp as (_ & _ & _ & nt & Hn & _). unfold wait_pending. rewrite Hn. cbn. destruct (notify_notified nt). eauto.
  - destruct (Ha w k n f eq_refl) as (nt & Hn & _ & Hr). unfold wait_await. rewrite Hn. cbn. rewrite Hr. eauto.
  - destruct Hp as ((nt & Hn & _) & _). unfold done_notify. rewrite Hn. cbn. eauto.
Qed.

Lemma enabled_intro (s : System K V) t task :
  tasks s !! t = Some task -> is_Some (call_step (shared s) (task_at task)) -> enabled s t.
Proof. intros Ht [[next shared'] Es]. unfold enabled, run. rewrite Ht. cbn. rewrite Es. cbn. eauto. Qed.

Section Execution.
Context (e : nat -> System K V) (l : nat -> Label K V) (Hfair : fair_execution e l).

Lemma execution_ok n : system_ok (e n).
Proof.
  induction n as [|n IH]; [apply registered_reachable_ok, Hfair|].
  eapply registered_exec_ok; [done|apply (fair_next _ _ Hfair)].
Qed.

(** Until it runs, a call stays where it is. *)
Lemma call_stays n t task m :
  tasks (e n) !! t = Some task -> finished (task_at task) = false ->
  (forall m, droppable (task_at task) = true -> l m <> Drop t) -> (n <= m)%nat ->
  (exists m', (n <= m' < m)%nat /\ l m' = Run t /\ forall j, (n <= j <= m')%nat -> tasks (e j) !! t = Some task) \/
  forall j, (n <= j <= m)%nat -> tasks (e j) !! t = Some task.
Proof.
  intros Ht Hf Hd Hm. induction m as [|m IH].
  { right. intros j Hj. by replace j with n by lia. }
  destruct (decide (n = S m)) as [->|Hne]; [right; intros j Hj; by replace j with (S m) by lia|].
  destruct IH as [(m' & ? & ? & ?)|IH]; [lia|left; exists m'; split_and!; auto; lia|].
  destruct (exec_unfinished (e m) (e (S m)) (l m) t task (execution_ok m)) as [_ [Hr|[[Hl Hdr]|Hs]]];
    [apply IH; lia|done|apply (fair_next _ _ Hfair)|..].
  - left. exists m. split_and!; [lia|lia|done|done].
  - by destruct (Hd m Hdr).
  - right. intros j Hj. destruct (decide (j = S m)) as [->|]; [done|]. apply IH. lia.
Qed.

(** A call that can run until it does, does. *)
Lemma call_proceeds n t task :
  tasks (e n) !! t = Some task -> finished (task_at task) = false ->
  (forall m, droppable (task_at task) = true -> l m <> Drop t) ->
  (forall m, (n <= m)%nat -> (forall j, (n <= j <= m)%nat -> tasks (e j) !! t = Some task) -> enabled (e m) t) ->
  exists m, (n <= m)%nat /\ l m = Run t /\ forall j, (n <= j <= m)%nat -> tasks (e j) !! t = Some task.
Proof.
  intros Ht Hf Hd He. destruct (fair_run _ _ Hfair t n) as (m & Hm & Hrun).
  destruct (call_stays n t task m Ht Hf Hd Hm) as [(m' & ? & ? & ?)|Hs]; [exists m'; split_and!; auto; lia|].
  destruct Hrun as [Hr|Hn]; [by exists m|]. destruct Hn. by apply He.
Qed.

(** What holds of the map at one time holds later, while a call is not over. *)
Lemma kept_evolves (P : OnceMap K V -> Prop) n m t task :
  (forall s s', evolves s s' -> P s -> P s') -> finished (task_at task) = false -> (n <= m)%nat ->
  (forall j, (n <= j < m)%nat -> tasks (e j) !! t = Some task) -> P (shared (e n)) -> P (shared (e m)).
Proof.
  intros HP Hf Hm Hj Hn. induction m as [|m IH]; [by replace O with n by lia|].
  destruct (decide (n = S m)) as [<-|Hne]; [done|].
  apply (HP (shared (e m))); [|apply IH; [lia|intros; apply Hj; lia]].
  eapply exec_unfinished; [apply execution_ok|apply Hj; lia|done|apply (fair_next _ _ Hfair)].
Qed.

Lemma awake_runs n t call w k i f :
  tasks (e n) !! t = Some (mkTask call (AtAwait w k i f)) -> (forall m, l m <> Drop t) -> awake (shared (e n)) i f ->
  exists m, (n <= m)%nat /\ l m = Run t /\
    forall j, (n <= j <= m)%nat -> tasks (e j) !! t = Some (mkTask call (AtAwait w k i f)).
Proof.
  intros Ht Hd Ha. apply call_proceeds; [done|done|done|]. intros m Hm Hj.
  eapply enabled_intro; [apply Hj; lia|]. eapply position_enabled;
    [eapply (system_tasks _ (execution_ok m)); apply Hj; lia|done|].
  intros w' k' n' f' [= <- <- <- <-]. cbn.
  apply (kept_evolves (fun s => awake s i f) n m t (mkTask call (AtAwait w k i f))); try done;
    [intros; by eapply awake_evolves|intros; apply Hj; lia].
Qed.
(** Stays at a position up to one time and runs from there later. *)
Lemma run_later n m0 t task :
  (forall j, (n <= j <= m0)%nat -> tasks (e j) !! t = Some task) ->
  (exists m, (m0 <= m)%nat /\ l m = Run t /\ forall j, (m0 <= j <= m)%nat -> tasks (e j) !! t = Some task) ->
  (n <= m0)%nat ->
  exists m, (n <= m)%nat /\ l m = Run t /\ forall j, (n <= j <= m)%nat -> tasks (e j) !! t = Some task.
Proof.
  intros H1 (m & Hm & Hr & H2) Hn. exists m. split_and!; [lia|done|]. intros j Hj.
  destruct (decide (j <= m0)%nat); [apply H1; lia|apply H2; lia].
Qed.

(** A call that is about to notify does. *)
Lemma notifier_runs n t task i :
  tasks (e n) !! t = Some task -> task_at task = AtNotify i ->
  exists m next shared', (n <= m)%nat /\ call_step (shared (e m)) (AtNotify i) = Some (next, shared') /\
    shared (e (S m)) = shared'.
Proof.
  intros Ht Hat. destruct (call_proceeds n t task Ht) as (m & Hm & Hr & Hs); [by rewrite Hat|by rewrite Hat| |].
  { intros m Hle Hj. eapply enabled_intro; [apply Hj; lia|]. eapply position_enabled;
      [eapply (system_tasks _ (execution_ok m)); apply Hj; lia|by rewrite Hat|by rewrite Hat]. }
  pose proof (fair_next _ _ Hfair m) as Hstep. rewrite Hr in Hstep. cbn in Hstep. unfold run in Hstep.
  rewrite (Hs m) in Hstep by lia. cbn in Hstep. rewrite Hat in Hstep.
  destruct (call_step (shared (e m)) (AtNotify i)) as [[next shared']|] eqn:Ec; [|done]. cbn in Hstep.
  injection Hstep as Hstep. exists m, next, shared'. split_and!; [done|done|]. by rewrite <- Hstep.
Qed.

Lemma await_runs n t call w k i f m0 :
  let task := mkTask call (AtAwait w k i f) in
  tasks (e n) !! t = Some task -> (forall m, l m <> Drop t) -> (n <= m0)%nat -> filled (e m0) k ->
  exists m, (n <= m)%nat /\ l m = Run t /\ forall j, (n <= j <= m)%nat -> tasks (e j) !! t = Some task.
Proof.
  intros task Ht Hd Hm [c Hc].
  assert (Hwaits : forall m, tasks (e m) !! t = Some task -> waits_on (shared (e m)) k i f).
  { intros m Htm. by eapply awaiting_waits; [apply (system_tasks _ (execution_ok m) t task Htm)|]. }
  destruct (call_stays n t task m0 Ht) as [(m' & ? & ? & ?)|Hs]; [done|auto|done|exists m'; split_and!; auto; lia|].
  assert (Hm0 : tasks (e m0) !! t = Some task) by (apply Hs; lia).
  eapply run_later; [done| |done].
  destruct (system_wake _ (execution_ok m0) t task k i f Hm0 eq_refl) as [Hp|(t' & task' & Ht' & Hat)].
  { apply awake_runs; [done|done|]. eapply pending_awake; [by apply Hwaits|done|congruence]. }
  destruct (notifier_runs m0 t' task' i Ht' Hat) as (m1 & next & shared' & Hm1 & Ec & Es).
  destruct (call_stays m0 t task (S m1) Hm0) as [(m' & ? & ? & ?)|Hs2]; [done|auto|lia|exists m'; split_and!; auto; lia|].
  apply (run_later m0 (S m1)); [done|apply awake_runs; [apply Hs2; lia|done|]|lia].
  rewrite Es. eapply notify_awake; [|done]. apply Hwaits, Hs2. lia.
Qed.

(** The next step of a call, and the state after it. *)
Lemma call_runs_next n t task :
  tasks (e n) !! t = Some task -> finished (task_at task) = false -> (forall m, l m <> Drop t) ->
  (may_wait (task_call task) = true -> exists m0, (n <= m0)%nat /\ filled (e m0) (call_key (task_call task))) ->
  exists m next, (n < m)%nat /\ tasks (e m) !! t = Some (mkTask (task_call task) next) /\
    (rank next < rank (task_at task))%nat /\ (finished next = false \/ exists answer, next = Returned answer) /\
    (may_wait (task_call task) = true -> exists m0, (m <= m0)%nat /\ filled (e m0) (call_key (task_call task))).
Proof.
  intros Ht Hf Hd Hfill.
  assert (Hrun : exists m, (n <= m)%nat /\ l m = Run t /\ forall j, (n <= j <= m)%nat -> tasks (e j) !! t = Some task).
  { destruct task as [call at_]. destruct at_ as [| | | |w k i f| | | | | |];
      try (apply call_proceeds; [done|done|auto|]; intros m Hle Hj; eapply enabled_intro; [apply Hj; lia|];
           by eapply position_enabled; [eapply (system_tasks _ (execution_ok m)); apply Hj; lia|..]).
    pose proof (system_tasks _ (execution_ok n) _ _ Ht) as (Hk & _ & Hw). cbn in Hk, Hw, Hfill.
    destruct Hfill as (m0 & Hm0 & Hfill); [by destruct w, call|]. rewrite <- Hk in Hfill. exact (await_runs n t call w _ i f m0 Ht Hd Hm0 Hfill). }
  destruct Hrun as (m & Hm & Hr & Hs). exists (S m).
  pose proof (fair_next _ _ Hfair m) as Hstep. rewrite Hr in Hstep. cbn in Hstep. unfold run in Hstep.
  rewrite (Hs m) in Hstep by lia. cbn in Hstep.
  destruct (call_step (shared (e m)) (task_at task)) as [[next shared']|] eqn:Ec; [|done]. cbn in Hstep.
  injection Hstep as Hstep. exists next. split_and!; [lia| |by eapply call_step_rank| |].
  - rewrite <- Hstep. cbn. rewrite list_lookup_insert_eq; [done|]. eapply lookup_lt_Some, Hs. lia.
  - eapply call_step_next; [apply (execution_ok m)|eapply (system_tasks _ (execution_ok m)), Hs; lia|done].
  - intros Hmay. destruct (Hfill Hmay) as (m0 & Hm0 & Hfilled). destruct (decide (m0 <= S m)%nat) as [Hle|]; [|exists m0; split; [lia|done]].
    exists (S m). split; [done|].
    apply (kept_evolves (fun s => exists c, at_key s (call_key (task_call task)) = Some (Filled c)) m0 (S m) t task);
      [intros s s' E [c Hc]; by eapply filled_evolves|done|done|intros; apply Hs; lia|done].
Qed.

Lemma call_returns n t task :
  tasks (e n) !! t = Some task -> finished (task_at task) = false -> (forall m, l m <> Drop t) ->
  (may_wait (task_call task) = true -> exists m0, (n <= m0)%nat /\ filled (e m0) (call_key (task_call task))) ->
  exists m answer, (n < m)%nat /\ tasks (e m) !! t = Some (mkTask (task_call task) (Returned answer)).
Proof.
  remember (rank (task_at task)) as r eqn:Hr. revert n task Hr.
  induction (lt_wf r) as [r _ IH]. intros n task -> Ht Hf Hd Hfill.
  destruct (call_runs_next n t task Ht Hf Hd Hfill) as (m & next & Hm & Ht' & Hlt & [Hn|[answer ->]] & Hfill').
  - destruct (IH _ Hlt m (mkTask (task_call task) next) eq_refl Ht') as (m' & answer & Hm' & Ha); [done|done|done|].
    exists m', answer. split; [lia|done].
  - by exists m, answer.
Qed.
End Execution.
End Liveness.

(** * Removal from an [OnceMap] without exclusive access

    A call that waits while its key is removed and registered again awaits a notification that nobody
    sends, whatever happens later. *)

Section Removal.
Context {K V : Type} `{EqDecision K} {C : ConcurrentMap K} {CL : ConcurrentMapLaws K}.
Context {N : NotifyOps} {NL : NotifyLaws}.

Notation at_key s k := (cmap_get (items s) k).

(** The future is not ready, no key has its notification, and no call is about to send it. *)
Definition stranded (s : System K V) (t : nat) : Prop :=
  exists call w k n f nt,
    (tasks s !! t = Some (mkTask call (AtAwait w k n f)) \/
     tasks s !! t = Some (mkTask call (Dropped (AtAwait w k n f)))) /\
    notifies (shared s) !! n = Some nt /\ notified_of nt f /\ notified_ready nt f = false /\
    (forall k', at_key (shared s) k' <> Some (Waiting n)) /\
    forall t' task', tasks s !! t' = Some task' -> task_at task' <> AtNotify n.

(** What any step does to the keys and the notifications. *)
Record step_bound (s : OnceMap K V) (at_ next : Position K V) (s' : OnceMap K V) : Prop := {
  bound_keys k n : at_key s' k = Some (Waiting n) -> at_key s k = Some (Waiting n) \/ n = length (notifies s);
  bound_notifies n nt : at_ <> AtNotify n -> notifies s !! n = Some nt -> exists nt', notifies s' !! n = Some nt' /\
    forall f, notified_of nt f -> notified_of nt' f /\ notified_ready nt' f = notified_ready nt f;
  bound_next n : next = AtNotify n -> exists k, at_key s k = Some (Waiting n);
}.

Lemma bound_same s at_ next : (forall n, next <> AtNotify n) -> step_bound s at_ next s.
Proof. intros Hn. split; [by left|by eauto|]. intros n E. by destruct (Hn n). Qed.

Lemma try_insert_bound s at_ next k present s' :
  try_insert_waiting s k = (present, s') -> (forall n, next <> AtNotify n) -> step_bound s at_ next s'.
Proof.
  unfold try_insert_waiting. intros Et Hn. destruct (at_key s k) as [value|] eqn:Ek.
  - rewrite (cmap_try_insert_present _ _ _ value) in Et by done. injection Et as _ <-. by apply bound_same.
  - rewrite cmap_try_insert_absent in Et by done. injection Et as _ <-. split; cbn.
    + intros k' n. destruct (decide (k = k')) as [<-|]; [rewrite cmap_get_insert; intros [= <-]; by right|].
      rewrite cmap_get_insert_ne by done. by left.
    + intros n nt _ Hl. exists nt. rewrite lookup_app_l by by eapply lookup_lt_Some. eauto.
    + intros n E. by destruct (Hn n).
Qed.

Lemma done_bound s at_ k v next s' : done s k v = (next, s') -> step_bound s at_ next s'.
Proof.
  unfold done, value_filled. cbn. intros Ed.
  pose proof (cmap_insert_old (items s) k (Filled (length (cells s)))) as Eo.
  pose proof (cmap_get_insert (items s) k (Filled (length (cells s)))) as Eg.
  pose proof (fun k' => cmap_get_insert_ne (items s) k k' (Filled (length (cells s)))) as En.
  destruct (cmap_insert (items s) k (Filled (length (cells s)))) as [m old]. cbn in *. subst old.
  assert (Hs : items s' = m /\ notifies s' = notifies s) by (by repeat case_match; simplify_eq).
  destruct Hs as [Hi Hn]. split; rewrite ?Hi, ?Hn.
  - intros k' n. destruct (decide (k = k')) as [<-|Hne]; [congruence|]. rewrite En by done. by left.
  - eauto.
  - intros n ->. exists k. by repeat case_match; simplify_eq.
Qed.

Lemma remove_bound s at_ k next s' : remove s k = (next, s') -> step_bound s at_ next s'.
Proof.
  unfold remove. intros Er.
  pose proof (cmap_get_remove (items s) k) as Eg. pose proof (fun k' => cmap_get_remove_ne (items s) k k') as En.
  destruct (cmap_remove (items s) k) as [m old]. cbn in *.
  assert (Hs : items s' = m /\ notifies s' = notifies s /\ forall n, next <> AtNotify n) by (by repeat case_match; simplify_eq).
  destruct Hs as (Hi & Hn & Hnext). split; rewrite ?Hi, ?Hn.
  - intros k' n. destruct (decide (k = k')) as [<-|Hne]; [congruence|]. rewrite En by done. by left.
  - eauto.
  - intros n E. by destruct (Hnext n).
Qed.

Lemma start_call_bound s at_ call next s' : start_call s call = (next, s') -> step_bound s at_ next s'.
Proof.
  destruct call as [k|k|k|k|k|k v|k|k]; cbn [start_call]; unfold register_entry, register, register_or_wait.
  1,2,4: destruct (try_insert_waiting s k) as [present s0] eqn:Et; intros Es;
    assert (s0 = s') as -> by (repeat case_match; by simplify_eq); apply (try_insert_bound s at_ next k present s' Et);
    intros n ->; repeat case_match; by simplify_eq.
  - intros [= <- <-]. by apply bound_same.
  - intros [= <- <-]. apply bound_same. unfold wait_registered. by intros n; repeat case_match.
  - apply done_bound.
  - intros [= <- <-]. apply bound_same. unfold get. by intros n; repeat case_match.
  - apply remove_bound.
Qed.

Lemma call_step_bound s at_ next s' : call_step s at_ = Some (next, s') -> step_bound s at_ next s'.
Proof.
  intros Es. destruct at_ as [call|value rnext|w k n|w k n f|w k n f|w k|n|value|answer|last|]; cbn [call_step] in Es;
    try discriminate Es.
  - eapply start_call_bound. by injection Es.
  - injection Es as <- <-. apply bound_same. intros n. by destruct (value_get s value), rnext as [[]|[]].
  - unfold wait_pending in Es. destruct (notifies s !! n) as [nt|] eqn:Hn; [|done]. cbn in Es.
    destruct (notify_notified nt) as [nt' f'] eqn:Ef. injection Es as <- <-. split; cbn; [by left| |done].
    intros n' nt0 _ Hn'. destruct (decide (n = n')) as [<-|Hne]; [|rewrite list_lookup_insert_ne by done; eauto].
    rewrite list_lookup_insert_eq by by eapply lookup_lt_Some. simplify_eq. exists nt'. split; [done|]. intros f Hf.
    pose proof (of_notified _ _ Hf) as Hf'. pose proof (notified_others _ _ Hf) as Ho. by rewrite Ef in Hf', Ho.
  - injection Es as <- <-. apply bound_same. intros n'. unfold wait_check. by destruct (at_key s k).
  - destruct (wait_await s w k n f) as [p|] eqn:Ew; [|done]. cbn in Es. injection Es as <- <-. apply bound_same.
    intros n' ->. unfold wait_await in Ew. destruct (notifies s !! n) as [nt|]; [|done]. cbn in Ew. by destruct (notified_ready nt f).
  - injection Es as <- <-. apply bound_same. intros n'. unfold wait_final. by destruct (at_key s k) as [[]|].
  - unfold done_notify in Es. destruct (notifies s !! n) as [nt|]; [|done]. cbn in Es. injection Es as <- <-.
    split; cbn; [by left| |done]. intros n' nt' Hne Hn'. rewrite list_lookup_insert_ne by congruence. eauto.
  - destruct value as [n|c]; cbn in Es; injection Es as <- <-; split; cbn; eauto; done.
Qed.

Lemma run_stranded (s s' : System K V) t t' : stranded s t -> run s t' = Some s' -> stranded s' t.
Proof.
  intros (call & w & k & n & f & nt & Ht & Hn & Hf & Hr & Hk & Hno) Er. unfold run in Er.
  destruct (tasks s !! t') as [task|] eqn:Ht'; [|done]. cbn in Er.
  destruct (call_step (shared s) (task_at task)) as [[next shared']|] eqn:Es; [|done]. cbn in Er. injection Er as <-.
  destruct (decide (t' = t)) as [->|Hne].
  { exfalso. destruct Ht as [Ht|Ht]; simplify_eq; cbn in Es.
    unfold wait_await in Es. rewrite Hn in Es. cbn in Es. by rewrite Hr in Es. }
  destruct (call_step_bound _ _ _ _ Es) as [H1 H2 H3].
  destruct (H2 n nt (Hno _ _ Ht') Hn) as (nt' & Hn' & Hsame). destruct (Hsame f Hf) as [Hf' Hr'].
  exists call, w, k, n, f, nt'. cbn. split_and!; [by rewrite !list_lookup_insert_ne|done|done|congruence| |].
  - intros k' Hk'. destruct (H1 k' n Hk') as [Hold| ->]; [by apply (Hk k')|].
    apply lookup_lt_Some in Hn. lia.
  - intros t0 task0 Ht0. destruct (decide (t' = t0)) as [<-|Hne0].
    + rewrite list_lookup_insert_eq in Ht0 by by eapply lookup_lt_Some. simplify_eq. cbn.
      intros ->. destruct (H3 n eq_refl) as [k' Hk']. by apply (Hk k').
    + rewrite list_lookup_insert_ne in Ht0 by done. by apply (Hno t0).
Qed.

Lemma spawn_stranded (s : System K V) t call : stranded s t -> stranded (spawn s call) t.
Proof.
  intros (call' & w & k & n & f & nt & Ht & Hn & Hf & Hr & Hk & Hno).
  exists call', w, k, n, f, nt. cbn. split_and!; try done.
  - destruct Ht as [Ht|Ht]; [left|right]; by rewrite lookup_app_l by by eapply lookup_lt_Some.
  - intros t' task' [Ht'|[_ Ht']]%lookup_app_Some; [by apply (Hno t')|].
    by apply list_lookup_singleton_Some in Ht' as [_ <-].
Qed.

Lemma drop_stranded (s s' : System K V) t t' : stranded s t -> drop_task s t' = Some s' -> stranded s' t.
Proof.
  intros (call & w & k & n & f & nt & Ht & Hn & Hf & Hr & Hk & Hno) Ed. unfold drop_task in Ed.
  destruct (tasks s !! t') as [task|] eqn:Ht'; [|done]. cbn in Ed. destruct (droppable (task_at task)) eqn:Hd; [|done].
  injection Ed as <-. pose proof (lookup_lt_Some _ _ _ Ht') as Hlt.
  exists call, w, k, n, f, nt. cbn. split_and!; try done.
  - destruct (decide (t' = t)) as [->|Hne]; [|by rewrite !list_lookup_insert_ne].
    destruct Ht as [Ht|Ht]; simplify_eq. right. by rewrite list_lookup_insert_eq.
  - intros t0 task0 Ht0. destruct (decide (t' = t0)) as [<-|Hne0].
    + rewrite list_lookup_insert_eq in Ht0 by done. by simplify_eq.
    + rewrite list_lookup_insert_ne in Ht0 by done. by apply (Hno t0).
Qed.

Lemma once_exec_stranded (s s' : System K V) l t : stranded s t -> once_exec s l = Some s' -> stranded s' t.
Proof.
  intros Hs. destruct l as [call|t'|t'|k|]; cbn.
  - destruct call; intros [= <-]; by apply spawn_stranded.
  - by apply run_stranded.
  - by apply drop_stranded.
  - done.
  - by intros [= <-].
Qed.

Lemma execs_none (exec : System K V -> Label K V -> option (System K V)) ls :
  foldl (fun s l => s ≫= fun s => exec s l) None ls = None.
Proof. by induction ls. Qed.

Lemma once_execs_stranded (s s' : System K V) ls t : stranded s t -> execs once_exec s ls = Some s' -> stranded s' t.
Proof.
  revert s. induction ls as [|l ls IH]; intros s Hs; unfold execs; cbn; [by intros [= <-]|].
  destruct (once_exec s l) as [s1|] eqn:El; [|by rewrite execs_none].
  intros Es. apply (IH s1); [by eapply once_exec_stranded|done].
Qed.

Lemma stranded_never_returns (s : System K V) t task answer :
  stranded s t -> tasks s !! t = Some task -> task_at task <> Returned answer.
Proof. intros (call & w & k & n & f & nt & [Ht|Ht] & _) Ht'; by simplify_eq. Qed.
End Removal.
