(* ===== verification/Cursor.v ===== *)
(** * The cursor over the text of a requirement

    [crates/uv-pep508/src/cursor.rs]. The text is a list of characters; positions and lengths are in
    bytes of its UTF-8 encoding, and a slice that does not fall between characters panics ([None]).
    The cursor of a text that is being read is the text split in two ([cursor_ok]). *)

From stdpp Require Import base list option numbers decidable.
From Stdlib Require Import ZArith Lia.
From S2P Require Import Prelude Text SpecifierParser.

Local Open Scope Z_scope.

(** ** Operations *)

(** [char::len_utf8], and [str::len]. *)
Definition len_utf8 (c : Z) : nat := length (utf8_char c).
Definition str_len (s : list Z) : nat := length (utf8 s).

#[global] Arguments len_utf8 : simpl never.
#[global] Arguments str_len : simpl never.

(** [&s[n..]] and [&s[..n]]. *)
Fixpoint skip_bytes (n : nat) (s : list Z) : option (list Z) :=
  match n, s with
  | O, _ => Some s
  | _, [] => None
  | _, c :: s' => if (len_utf8 c <=? n)%nat then skip_bytes (n - len_utf8 c) s' else None
  end.

Fixpoint take_bytes (n : nat) (s : list Z) : option (list Z) :=
  match n, s with
  | O, _ => Some []
  | _, [] => None
  | _, c :: s' =>
      if (len_utf8 c <=? n)%nat then r ← take_bytes (n - len_utf8 c) s'; Some (c :: r) else None
  end.

Record Cursor : Type := mkCursor {
  cursor_input : list Z;
  cursor_chars : list Z;
  cursor_pos : nat;
}.

Definition cursor_new (input : list Z) : Cursor := mkCursor input input O.

Definition cursor_at (c : Cursor) (pos : nat) : option Cursor :=
  chars ← skip_bytes pos (cursor_input c);
  Some (mkCursor (cursor_input c) chars pos).

Definition cursor_slice (c : Cursor) (start len : nat) : option (list Z) :=
  rest ← skip_bytes start (cursor_input c);
  take_bytes len rest.

Definition cursor_peek (c : Cursor) : option (nat * Z) :=
  match cursor_chars c with
  | [] => None
  | char :: _ => Some (cursor_pos c, char)
  end.

Definition cursor_peek_char (c : Cursor) : option Z := head (cursor_chars c).

Definition cursor_next (c : Cursor) : option (nat * Z) * Cursor :=
  match cursor_chars c with
  | [] => (None, c)
  | char :: chars =>
      (Some (cursor_pos c, char), mkCursor (cursor_input c) chars (cursor_pos c + len_utf8 char))
  end.

Definition cursor_eat_char (c : Cursor) (token : Z) : option nat * Cursor :=
  match cursor_peek c with
  | None => (None, c)
  | Some (start_pos, char) =>
      if char =? token then (Some start_pos, (cursor_next c).2) else (None, c)
  end.

(** The loop of [take_while] and [eat_whitespace]: the characters that are left, the position and
    the length. *)
Fixpoint take_while_loop (condition : Z -> bool) (chars : list Z) (pos len : nat) : list Z * nat * nat :=
  match chars with
  | [] => (chars, pos, len)
  | char :: chars' =>
      if condition char then take_while_loop condition chars' (pos + len_utf8 char) (len + len_utf8 char)
      else (chars, pos, len)
  end.

Definition cursor_take_while (c : Cursor) (condition : Z -> bool) : (nat * nat) * Cursor :=
  let '(chars, pos, len) := take_while_loop condition (cursor_chars c) (cursor_pos c) 0 in
  ((cursor_pos c, len), mkCursor (cursor_input c) chars pos).

Definition cursor_eat_whitespace (c : Cursor) : Cursor :=
  let '(chars, pos, _) := take_while_loop is_whitespace (cursor_chars c) (cursor_pos c) 0 in
  mkCursor (cursor_input c) chars pos.

Definition cursor_peek_while (c : Cursor) (condition : Z -> bool) : nat * nat :=
  (cursor_pos c, sum_list (len_utf8 <$> take_while condition (cursor_chars c))).

(** ** Errors *)

(** What was wrong; the texts of the messages are left out. *)
Inductive Pep508ErrorKind : Type :=
| ExpectedCharFoundEnd (expected : Z)
| ExpectedCharFound (expected found : Z)
| ExpectedWhitespaceFoundEnd
| ExpectedWhitespaceFound (found : Z)
| ExpectedOperator (found : list Z)
| ExpectedValueFoundEnd
| ExpectedValue (found : list Z)
| ListOnLeft
| ListOperator
| UnexpectedCharacter (found : Z).

Record Pep508Error : Type := mkPep508Error {
  error_kind : Pep508ErrorKind;
  error_start : nat;
  error_len : nat;
}.

Definition cursor_next_expect_char (c : Cursor) (expected : Z) (span_start : nat) :
    result () Pep508Error * Cursor :=
  match cursor_next c with
  | (None, c) => (Err (mkPep508Error (ExpectedCharFoundEnd expected) span_start 1), c)
  | (Some (pos, value), c) =>
      if value =? expected then (Ok tt, c)
      else (Err (mkPep508Error (ExpectedCharFound expected value) pos (len_utf8 value)), c)
  end.

(** ** Facts *)

(** The text, split at the cursor. *)
Record cursor_at_split (c : Cursor) (before : list Z) : Prop := {
  split_input : cursor_input c = before ++ cursor_chars c;
  split_pos : cursor_pos c = str_len before;
}.

Definition cursor_ok (c : Cursor) : Prop := exists before, cursor_at_split c before.

Lemma str_len_nil : str_len [] = O.
Proof. done. Qed.

Lemma str_len_app s t : str_len (s ++ t) = (str_len s + str_len t)%nat.
Proof. unfold str_len, utf8. by rewrite bind_app, length_app. Qed.

Lemma str_len_cons c s : str_len (c :: s) = (len_utf8 c + str_len s)%nat.
Proof. unfold str_len, len_utf8, utf8. cbn [mbind list_bind]. by rewrite length_app. Qed.

Lemma len_utf8_pos c : (1 <= len_utf8 c <= 4)%nat.
Proof. unfold len_utf8, utf8_char. repeat case_match; cbn; lia. Qed.

Lemma skip_bytes_app s t : skip_bytes (str_len s) (s ++ t) = Some t.
Proof.
  induction s as [|c s IH]; [by destruct t|]. rewrite str_len_cons. cbn [app].
  pose proof (len_utf8_pos c). destruct (len_utf8 c + str_len s)%nat eqn:E; [lia|]. cbn [skip_bytes].
  rewrite <- E. destruct (Nat.leb_spec (len_utf8 c) (len_utf8 c + str_len s)); [|lia].
  by replace (len_utf8 c + str_len s - len_utf8 c)%nat with (str_len s) by lia.
Qed.

Lemma take_bytes_app s t : take_bytes (str_len s) (s ++ t) = Some s.
Proof.
  induction s as [|c s IH]; [by destruct t|]. rewrite str_len_cons. cbn [app].
  pose proof (len_utf8_pos c). destruct (len_utf8 c + str_len s)%nat eqn:E; [lia|]. cbn [take_bytes].
  rewrite <- E. destruct (Nat.leb_spec (len_utf8 c) (len_utf8 c + str_len s)); [|lia].
  replace (len_utf8 c + str_len s - len_utf8 c)%nat with (str_len s) by lia. by rewrite IH.
Qed.

Lemma cursor_new_ok s : cursor_at_split (cursor_new s) [].
Proof. by split. Qed.

(** The slice of a span between two positions. *)
Lemma cursor_slice_split c before middle after :
  cursor_input c = before ++ middle ++ after -> cursor_slice c (str_len before) (str_len middle) = Some middle.
Proof. intros E. unfold cursor_slice. rewrite E, skip_bytes_app. cbn. by rewrite take_bytes_app. Qed.

Lemma take_while_loop_spec p chars pos len :
  take_while_loop p chars pos len =
    (skip_while p chars, (pos + str_len (take_while p chars))%nat, (len + str_len (take_while p chars))%nat).
Proof.
  revert pos len. induction chars as [|c chars IH]; intros pos len; cbn; [by rewrite !str_len_nil, !Nat.add_0_r|].
  destruct (p c); [|by rewrite !str_len_nil, !Nat.add_0_r]. rewrite IH, str_len_cons. by rewrite !Nat.add_assoc.
Qed.

(** A cursor that moves over some characters. *)
Definition cursor_moved (c : Cursor) (eaten rest : list Z) : Cursor :=
  mkCursor (cursor_input c) rest (cursor_pos c + str_len eaten).

Lemma moved_split c before eaten rest :
  cursor_at_split c before -> cursor_chars c = eaten ++ rest -> cursor_at_split (cursor_moved c eaten rest) (before ++ eaten).
Proof.
  intros [H1 H2] E. split; cbn; [by rewrite H1, E, <- app_assoc|by rewrite H2, str_len_app].
Qed.

Lemma cursor_take_while_spec c p :
  cursor_take_while c p =
    ((cursor_pos c, str_len (take_while p (cursor_chars c))),
     cursor_moved c (take_while p (cursor_chars c)) (skip_while p (cursor_chars c))).
Proof. unfold cursor_take_while. by rewrite take_while_loop_spec. Qed.

Lemma cursor_eat_whitespace_spec c :
  cursor_eat_whitespace c =
    cursor_moved c (take_while is_whitespace (cursor_chars c)) (skip_while is_whitespace (cursor_chars c)).
Proof. unfold cursor_eat_whitespace. by rewrite take_while_loop_spec. Qed.

Lemma cursor_peek_while_spec c p :
  cursor_peek_while c p = (cursor_pos c, str_len (take_while p (cursor_chars c))).
Proof.
  unfold cursor_peek_while. f_equal. induction (take_while p (cursor_chars c)) as [|x l IH]; [done|].
  cbn. by rewrite str_len_cons, IH.
Qed.

Lemma cursor_next_spec c :
  cursor_next c =
    match cursor_chars c with
    | [] => (None, c)
    | char :: chars => (Some (cursor_pos c, char), cursor_moved c [char] chars)
    end.
Proof.
  unfold cursor_next, cursor_moved. destruct (cursor_chars c) as [|char chars]; [done|].
  by rewrite (str_len_cons char []), str_len_nil, (Nat.add_0_r (len_utf8 char)).
Qed.

(** The characters that [take_while] and [peek_while] ran over. *)
Lemma cursor_slice_while c before p c' :
  cursor_at_split c before -> cursor_input c' = cursor_input c ->
  cursor_slice c' (cursor_pos c) (str_len (take_while p (cursor_chars c))) = Some (take_while p (cursor_chars c)).
Proof.
  intros [H1 H2] Ei. rewrite H2. apply (cursor_slice_split c' before _ (skip_while p (cursor_chars c))).
  by rewrite Ei, take_skip_while.
Qed.
