(* ===== verification/MarkerParser.v ===== *)
(** * Markers: the parser

    [crates/uv-pep508/src/marker/parse.rs]: expressions, and the grammar of [and], [or] and parentheses
    around them, with the warnings that the reporter gets. Expressions are read by a parser of the
    cursor and the reports ([Reader]); trees are built along the way in the interner, or in any other
    algebra of trees ([TreeAlgebra]). [None] is a panic, or an exhausted bound; both are excluded. *)

From stdpp Require Import base list option numbers decidable strings.
From Stdlib Require Import ZArith Lia.
From S2P Require Import Prelude Text Ranges VersionTypes VersionSmall Version VersionOrder VersionParser.
From S2P Require Import VersionSpecifier SpecifierParser Normalize Cursor.
From S2P Require Import MarkerTypes Interner MarkerAlgebra MarkerRestrict MarkerTree.

Local Open Scope Z_scope.

(** ** Characters *)

Definition is_ascii_alphabetic (c : Z) : bool := is_ascii_uppercase c || is_ascii_lowercase c.

(** [char::is_alphabetic], which follows the tables of Unicode. *)
Class Alphabetic : Type := is_alphabetic : Z -> bool.

Class AlphabeticLaws `{!Alphabetic} : Prop :=
  is_alphabetic_ascii c : is_ascii c -> is_alphabetic c = is_ascii_alphabetic c.

#[local] Instance ascii_alphabetic : Alphabetic := fun c => is_ascii_alphabetic c.

Lemma ascii_alphabetic_laws : AlphabeticLaws.
Proof. done. Qed.

(** ** Warnings *)

Inductive MarkerWarningKind : Type :=
| DeprecatedMarkerName
| ExtraInvalidComparison
| ExtrasInvalidComparison
| DependencyGroupsInvalidComparison
| LexicographicComparison
| MarkerMarkerComparison
| Pep440Error
| StringStringComparison.

(** ** Parsers *)

Record ParserState : Type := mkParserState {
  parser_cursor : Cursor;
  parser_reports : list MarkerWarningKind;
}.

Definition Reader (A : Type) : Type := ParserState -> option (result A Pep508Error * ParserState).

Definition parser_ret {A : Type} (a : A) : Reader A := fun s => Some (Ok a, s).
Definition parser_fail {A : Type} (kind : Pep508ErrorKind) (start len : nat) : Reader A :=
  fun s => Some (Err (mkPep508Error kind start len), s).

Definition parser_bind {A B : Type} (m : Reader A) (k : A -> Reader B) : Reader B :=
  fun s => '(r, s) ← m s; match r with Ok a => k a s | Err e => Some (Err e, s) end.

Definition parser_lift {A : Type} (o : option A) : Reader A := fun s => a ← o; Some (Ok a, s).

Notation "'let*' x ':=' m 'in' k" := (parser_bind m (fun x => k))
  (at level 200, x pattern, m at level 100, k at level 200) : uv_scope.

Local Open Scope uv_scope.

Definition with_cursor {A : Type} (f : Cursor -> A * Cursor) : Reader A :=
  fun s => let '(a, c) := f (parser_cursor s) in Some (Ok a, mkParserState c (parser_reports s)).

Definition cursor_read {A : Type} (f : Cursor -> A) : Reader A := with_cursor (fun c => (f c, c)).
Definition eat_spaces : Reader () := with_cursor (fun c => (tt, cursor_eat_whitespace c)).
Definition slice (span : nat * nat) : Reader (list Z) :=
  let* r := cursor_read (fun c => cursor_slice c span.1 span.2) in parser_lift r.

Definition expect_char (expected : Z) (span_start : nat) : Reader () :=
  fun s => let '(r, c) := cursor_next_expect_char (parser_cursor s) expected span_start in
           Some (r, mkParserState c (parser_reports s)).

Definition report (kind : MarkerWarningKind) : Reader () :=
  fun s => Some (Ok tt, mkParserState (parser_cursor s) (parser_reports s ++ [kind])).

(** A computation that only reports. *)
Definition reporting {A : Type} (o : option (A * list MarkerWarningKind)) : Reader A :=
  fun s => '(a, reports) ← o; Some (Ok a, mkParserState (parser_cursor s) (parser_reports s ++ reports)).

(** ** Values and operators *)

Inductive MarkerValue : Type :=
| MarkerEnvVersion (key : MarkerValueVersion)
| MarkerEnvString (key : MarkerValueString)
| MarkerEnvList (key : MarkerValueList)
| MarkerExtra
| QuotedString (value : list Z).

Definition marker_value_names : list (list Z * MarkerValue) :=
  [(bytes "implementation_name", MarkerEnvString MvImplementationName);
   (bytes "implementation_version", MarkerEnvVersion MvImplementationVersion);
   (bytes "os_name", MarkerEnvString MvOsName);
   (bytes "os.name", MarkerEnvString MvOsNameDeprecated);
   (bytes "platform_machine", MarkerEnvString MvPlatformMachine);
   (bytes "platform.machine", MarkerEnvString MvPlatformMachineDeprecated);
   (bytes "platform_python_implementation", MarkerEnvString MvPlatformPythonImplementation);
   (bytes "platform.python_implementation", MarkerEnvString MvPlatformPythonImplementationDeprecated);
   (bytes "python_implementation", MarkerEnvString MvPythonImplementationDeprecated);
   (bytes "platform_release", MarkerEnvString MvPlatformRelease);
   (bytes "platform_system", MarkerEnvString MvPlatformSystem);
   (bytes "platform_version", MarkerEnvString MvPlatformVersion);
   (bytes "platform.version", MarkerEnvString MvPlatformVersionDeprecated);
   (bytes "python_full_version", MarkerEnvVersion MvPythonFullVersion);
   (bytes "python_version", MarkerEnvVersion MvPythonVersion);
   (bytes "sys_platform", MarkerEnvString MvSysPlatform);
   (bytes "sys.platform", MarkerEnvString MvSysPlatformDeprecated);
   (bytes "extras", MarkerEnvList ListExtras);
   (bytes "dependency_groups", MarkerEnvList ListDependencyGroups);
   (bytes "extra", MarkerExtra)].

Definition marker_value_from_str (s : list Z) : option MarkerValue :=
  snd <$> List.find (fun entry => bool_decide (entry.1 = s)) marker_value_names.

(** [str::trim] leaves nothing. *)
Definition trims_to_nothing (s : list Z) : bool := forallb is_whitespace s.

Definition marker_operator_from_str (s : list Z) : option MarkerOperator :=
  if bool_decide (s = bytes "==") then Some MEqual
  else if bool_decide (s = bytes "!=") then Some MNotEqual
  else if bool_decide (s = bytes ">") then Some MGreaterThan
  else if bool_decide (s = bytes ">=") then Some MGreaterEqual
  else if bool_decide (s = bytes "<") then Some MLessThan
  else if bool_decide (s = bytes "<=") then Some MLessEqual
  else if bool_decide (s = bytes "~=") then Some MTildeEqual
  else if bool_decide (s = bytes "in") then Some MIn
  else
    match strip_prefix (bytes "not") s ≫= strip_suffix (bytes "in") with
    | Some space => if negb (bool_decide (space = [])) && trims_to_nothing space then Some MNotIn else None
    | None => None
    end.

(** A single or a double quote. *)
Definition is_quote (c : Z) : bool := (c =? 39) || (c =? 34).

Definition is_operator_word (c : Z) : bool := negb (is_whitespace c) && negb (is_quote c).

Definition is_key_char (c : Z) : bool :=
  negb (is_whitespace c)
  && negb ((c =? 62) || (c =? 61) || (c =? 60) || (c =? 33) || (c =? 126) || (c =? 41)).

(** The reports on deprecated names. *)
Definition deprecation (value : MarkerValue) : list MarkerWarningKind :=
  match value with
  | MarkerEnvString
      (MvOsNameDeprecated | MvPlatformMachineDeprecated | MvPlatformPythonImplementationDeprecated
      | MvPythonImplementationDeprecated | MvPlatformVersionDeprecated | MvSysPlatformDeprecated) =>
      [DeprecatedMarkerName]
  | _ => []
  end.

Section Reader.
Context `{!Alphabetic}.

Definition parse_marker_operator : Reader MarkerOperator :=
  let* first := cursor_read cursor_peek_char in
  let word := match first with Some c => is_alphabetic c | None => false end in
  let* span := with_cursor (fun c => cursor_take_while c (if word then is_operator_word else is_operator_char)) in
  let* operator := slice span in
  if bool_decide (operator = bytes "not") then
    let* next := with_cursor cursor_next in
    match next with
    | None => let* pos := cursor_read cursor_pos in parser_fail ExpectedWhitespaceFoundEnd pos 1
    | Some (pos, c) =>
        if is_whitespace c then
          let* _ := eat_spaces in
          let* pos := cursor_read cursor_pos in
          let* _ := expect_char 105 pos in
          let* pos := cursor_read cursor_pos in
          let* _ := expect_char 110 pos in
          parser_ret MNotIn
        else parser_fail (ExpectedWhitespaceFound c) pos (len_utf8 c)
    end
  else
    match marker_operator_from_str operator with
    | Some operator => parser_ret operator
    | None => parser_fail (ExpectedOperator operator) span.1 span.2
    end.

Definition parse_marker_value : Reader MarkerValue :=
  let* peeked := cursor_read cursor_peek in
  match peeked with
  | None => let* pos := cursor_read cursor_pos in parser_fail ExpectedValueFoundEnd pos 1
  | Some (start_pos, c) =>
      if is_quote c then
        let* _ := with_cursor cursor_next in
        let* span := with_cursor (fun cursor => cursor_take_while cursor (fun c' => negb (c' =? c))) in
        let* value := slice span in
        let* _ := expect_char c start_pos in
        parser_ret (QuotedString value)
      else
        let* span := with_cursor (fun c => cursor_take_while c is_key_char) in
        let* key := slice span in
        match marker_value_from_str key with
        | None => parser_fail (ExpectedValue key) span.1 span.2
        | Some value => let* _ := reporting (Some (tt, deprecation value)) in parser_ret value
        end
  end.

(** ** Expressions *)

(** The result, with the reports. *)
Definition Expression : Type := option (option MarkerExpression * list MarkerWarningKind).

(** The loop over the versions of a list; [Some (Err _)] when one is invalid. *)
Fixpoint parse_versions (fuel : nat) (cursor : Cursor) (versions : list Version) :
    option (result (list Version) ()) :=
  match fuel with
  | O => None
  | S fuel =>
      let cursor := cursor_eat_whitespace cursor in
      let '((start, len), cursor) := cursor_take_while cursor (fun c => negb (is_whitespace c)) in
      if (len =? 0)%nat then Some (Ok versions)
      else
        word ← cursor_slice cursor start len;
        match version_from_str (utf8 word) with
        | Done version => parse_versions fuel cursor (versions ++ [version])
        | Failed _ => Some (Err tt)
        | Panicked => None
        end
  end.

(** [None] is a panic, [Some None] that the operator is not [in] or [not in], or that a version is
    invalid, which is reported. *)
Definition parse_version_in_expr (key : MarkerValueVersion) (operator : MarkerOperator) (value : list Z) : Expression :=
  match container_operator_from operator with
  | None => Some (None, [])
  | Some operator =>
      versions ← parse_versions (S (length value)) (cursor_new value) [];
      match versions with
      | Ok versions => Some (Some (ExprVersionIn key versions operator), [])
      | Err _ => Some (None, [Pep440Error])
      end
  end.

Definition parse_version_expr (key : MarkerValueVersion) (marker_operator : MarkerOperator) (value : list Z) : Expression :=
  match version_pattern_from_str (utf8 value) with
  | Panicked => None
  | Failed _ => Some (None, [Pep440Error])
  | Done pattern =>
      match to_pep440_operator marker_operator with
      | None => Some (None, [Pep440Error])
      | Some operator =>
          match specifier_from_pattern operator pattern with
          | Err _ => Some (None, [Pep440Error])
          | Ok specifier => Some (Some (ExprVersion key specifier), [])
          end
      end
  end.

Definition parse_inverted_version_expr (value : list Z) (marker_operator : MarkerOperator) (key : MarkerValueVersion) :
    Expression :=
  let marker_operator := marker_operator_invert marker_operator in
  match version_from_str (utf8 value) with
  | Panicked => None
  | Failed _ => Some (None, [Pep440Error])
  | Done version =>
      match to_pep440_operator marker_operator with
      | None => Some (None, [Pep440Error])
      | Some operator =>
          match specifier_from_version operator version with
          | Err _ => Some (None, [Pep440Error])
          | Ok specifier => Some (Some (ExprVersion key specifier), [])
          end
      end
  end.

(** [ExtraName::from_str] is [validate_and_normalize_ref]. *)
Definition extra_name_from_str (name : list Z) : result ExtraName InvalidNameError := validate_and_normalize_ref name.

Definition parse_extra_expr (operator : MarkerOperator) (value : list Z) : Expression :=
  let '(name, reports) :=
    match extra_name_from_str (utf8 value) with
    | Ok name => (ExtraValid name, [])
    | Err _ => (ExtraArbitrary (utf8 value), [ExtraInvalidComparison])
    end in
  match extra_operator_from operator with
  | Some operator => Some (Some (ExprExtra name operator), reports)
  | None => Some (None, reports ++ [ExtraInvalidComparison])
  end.

(** The pair of [<string> in <list>]. *)
Definition parse_list_pair (key : MarkerValueList) (value : list Z) :
    CanonicalMarkerListPair * list MarkerWarningKind :=
  match key with
  | ListExtras =>
      match extra_name_from_str (utf8 value) with
      | Ok name => (PairExtras name, [])
      | Err _ => (PairArbitrary key (utf8 value), [ExtrasInvalidComparison])
      end
  | ListDependencyGroups =>
      match group_name_from_str (utf8 value) with
      | Ok name => (PairDependencyGroup name, [])
      | Err _ => (PairArbitrary key (utf8 value), [ExtrasInvalidComparison])
      end
  end.

Definition is_tilde (operator : MarkerOperator) : bool :=
  match operator with MTildeEqual => true | _ => false end.

(** The conversion of a value, an operator and a value to an expression; the errors are given the
    span of the expression. *)
Definition marker_expression (l_value : MarkerValue) (operator : MarkerOperator) (r_value : MarkerValue) :
    result Expression Pep508ErrorKind :=
  match l_value with
  | MarkerEnvVersion key =>
      match r_value with
      | QuotedString value =>
          Ok ('(expr, reports) ← parse_version_in_expr key operator value;
              match expr with
              | Some expr => Some (Some expr, reports)
              | None => '(expr, reports') ← parse_version_expr key operator value; Some (expr, reports ++ reports')
              end)
      | _ => Ok (Some (None, [Pep440Error]))
      end
  | MarkerEnvString key =>
      match r_value with
      | QuotedString value =>
          if is_tilde operator then Ok (Some (None, [LexicographicComparison]))
          else Ok (Some (Some (ExprString key operator (utf8 value)), []))
      | _ => Ok (Some (None, [MarkerMarkerComparison]))
      end
  | MarkerEnvList _ => Err ListOnLeft
  | MarkerExtra =>
      match r_value with
      | QuotedString value => Ok (parse_extra_expr operator value)
      | _ => Ok (Some (None, [ExtraInvalidComparison]))
      end
  | QuotedString l_string =>
      match r_value with
      | MarkerEnvVersion key => Ok (parse_inverted_version_expr l_string operator key)
      | MarkerEnvString key =>
          if is_tilde operator then Ok (Some (None, [LexicographicComparison]))
          else Ok (Some (Some (ExprString key (marker_operator_invert operator) (utf8 l_string)), []))
      | MarkerEnvList key =>
          match container_operator_from operator with
          | None => Err ListOperator
          | Some operator =>
              let '(list_pair, reports) := parse_list_pair key l_string in
              Ok (Some (Some (ExprList list_pair operator), reports))
          end
      | MarkerExtra => Ok (parse_extra_expr operator l_string)
      | QuotedString _ => Ok (Some (None, [StringStringComparison]))
      end
  end.

Definition parse_marker_key_op_value : Reader (option MarkerExpression) :=
  let* _ := eat_spaces in
  let* start := cursor_read cursor_pos in
  let* l_value := parse_marker_value in
  let* _ := eat_spaces in
  let* operator := parse_marker_operator in
  let* _ := eat_spaces in
  let* r_value := parse_marker_value in
  let* pos := cursor_read cursor_pos in
  match marker_expression l_value operator r_value with
  | Err kind => parser_fail kind start (pos - start)
  | Ok expr => reporting expr
  end.
End Reader.

(** ** Trees *)

(** The operations on trees that the parser calls. *)
Record TreeAlgebra {RV : RangeOps Version} {RS : RangeOps (list Z)} (C T : Type) : Type := mkTreeAlgebra {
  alg_expression : MarkerExpression -> M C T;
  alg_and : T -> T -> M C T;
  alg_or : T -> T -> M C T;
  alg_is_true : T -> bool;
  alg_is_false : T -> bool;
}.
Arguments alg_expression {_ _ _ _}.
Arguments alg_and {_ _ _ _}.
Arguments alg_or {_ _ _ _}.
Arguments alg_is_true {_ _ _ _}.
Arguments alg_is_false {_ _ _ _}.

Section Trees.
Context `{!Alphabetic} {RV : RangeOps Version} {RS : RangeOps (list Z)}.
Context {C T : Type} (alg : TreeAlgebra C T).

Definition TreeParser (A : Type) : Type := ParserState -> M C (result A Pep508Error * ParserState).

Definition tree_ret {A : Type} (a : A) : TreeParser A := fun s => ret (Ok a, s).
Definition tree_bind {A B : Type} (m : TreeParser A) (k : A -> TreeParser B) : TreeParser B :=
  fun s => let! r := m s in
           match r with
           | (Ok a, s) => k a s
           | (Err e, s) => ret (Err e, s)
           end.

(** A parser that builds no tree, and a step that only builds a tree. *)
Definition reading {A : Type} (p : Reader A) : TreeParser A := fun s => lift_option (p s).
Definition building {A : Type} (m : M C A) : TreeParser A := fun s => let! a := m in ret (Ok a, s).

Notation "'let+' x ':=' m 'in' k" := (tree_bind m (fun x => k))
  (at level 200, x pattern, m at level 100, k at level 200).

(** The characters up to a white space or a parenthesis. *)
Definition is_word_char (c : Z) : bool := negb (is_whitespace c) && negb (c =? 40).

(** The next word is the operator. *)
Definition peek_operator (op : list Z) : Reader bool :=
  let* _ := eat_spaces in
  let* span := cursor_read (fun c => cursor_peek_while c is_word_char) in
  let* word := slice span in
  parser_ret (bool_decide (word = op)).

(** The loop that reads the operands. *)
Fixpoint parse_operands (fuel : nat) (op : list Z) (parse_inner : TreeParser (option T)) (expressions : list T) :
    TreeParser (list T) :=
  match fuel with
  | O => fun _ => panic
  | S fuel =>
      let+ _ := reading (with_cursor (fun c => cursor_take_while c is_word_char)) in
      let+ e := parse_inner in
      let expressions := expressions ++ option_list e in
      let+ more := reading (peek_operator op) in
      if (more : bool) then parse_operands fuel op parse_inner expressions else tree_ret expressions
  end.

(** One pass over adjacent pairs; the left result ends the whole loop. *)
Fixpoint combine_pairs (apply : T -> T -> M C T) (constant : T -> bool) (expressions : list T) : M C (T + list T) :=
  match expressions with
  | [] => ret (inr [])
  | [x] => ret (if constant x then inl x else inr [x])
  | x :: y :: expressions =>
      let! z := apply x y in
      if constant z then ret (inl z)
      else
        let! rest := combine_pairs apply constant expressions in
        ret (match rest with inl t => inl t | inr zs => inr (z :: zs) end)
  end.

Fixpoint combine_all (fuel : nat) (apply : T -> T -> M C T) (constant : T -> bool) (expressions : list T) :
    M C (option T) :=
  match expressions with
  | [] => ret None
  | [x] => ret (Some x)
  | _ =>
      match fuel with
      | O => panic
      | S fuel =>
          let! r := combine_pairs apply constant expressions in
          match r with
          | inl t => ret (Some t)
          | inr expressions => combine_all fuel apply constant expressions
          end
      end
  end.

Definition parse_marker_op (op : list Z) (apply : T -> T -> M C T) (constant : T -> bool)
    (parse_inner : TreeParser (option T)) : TreeParser (option T) :=
  let+ first := parse_inner in
  let+ more := reading (peek_operator op) in
  if (more : bool) then
    let+ chars_left := reading (cursor_read (fun c => length (cursor_chars c))) in
    let+ expressions := parse_operands (S chars_left) op parse_inner (option_list first) in
    building (combine_all (length expressions) apply constant expressions)
  else tree_ret first.

(** [parse_marker_expr], where [parse_or] reads what is in parentheses. *)
Definition parse_marker_expr (parse_or : TreeParser (option T)) : TreeParser (option T) :=
  let+ _ := reading eat_spaces in
  let+ open := reading (with_cursor (fun c => cursor_eat_char c 40)) in
  match open with
  | Some start_pos =>
      let+ marker := parse_or in
      let+ _ := reading (expect_char 41 start_pos) in
      tree_ret marker
  | None =>
      let+ expr := reading parse_marker_key_op_value in
      match expr with
      | None => tree_ret None
      | Some expr => let+ tree := building (alg_expression alg expr) in tree_ret (Some tree)
      end
  end.

Definition parse_marker_and (parse_or : TreeParser (option T)) : TreeParser (option T) :=
  parse_marker_op (bytes "and") (alg_and alg) (alg_is_false alg) (parse_marker_expr parse_or).

(** The fuel bounds the depth of the parentheses. *)
Fixpoint parse_marker_or (fuel : nat) : TreeParser (option T) :=
  match fuel with
  | O => fun _ => panic
  | S fuel => parse_marker_op (bytes "or") (alg_or alg) (alg_is_true alg) (parse_marker_and (parse_marker_or fuel))
  end.

Definition parse_markers_cursor : TreeParser (option T) :=
  let+ chars_left := reading (cursor_read (fun c => length (cursor_chars c))) in
  let+ marker := parse_marker_or (S chars_left) in
  let+ _ := reading eat_spaces in
  let+ next := reading (with_cursor cursor_next) in
  match next with
  | Some (pos, unexpected) =>
      let+ len := reading (cursor_read (fun c => str_len (cursor_input c))) in
      reading (parser_fail (UnexpectedCharacter unexpected) pos (len - pos))
  | None => tree_ret marker
  end.
End Trees.

(** ** Markers *)

Section Markers.
Context `{!Alphabetic} {RV : RangeOps Version} {RS : RangeOps (list Z)}.

(** The trees of the interner. *)
Definition marker_algebra {C : Type} : TreeAlgebra C NodeId :=
  mkTreeAlgebra _ _ _ _ tree_expression tree_and tree_or node_is_true node_is_false.

(** The result, and the reports. *)
Definition parse_markers {C : Type} (markers : list Z) : M C (result NodeId Pep508Error * list MarkerWarningKind) :=
  let! r := parse_markers_cursor marker_algebra (mkParserState (cursor_new markers) []) in
  match r with
  | (Ok tree, s) => ret (Ok (default NODE_TRUE tree), parser_reports s)
  | (Err e, s) => ret (Err e, parser_reports s)
  end.
End Markers.
