(* ===== verification/MarkerParserFacts.v ===== *)
(** * Markers: the parser reads any text

    A parser moves forward over the text and adds to the reports ([advances]); [reads] states that it
    does so without a panic, in an error within the text or in a result. The equations of the
    primitives give the characters that are read. *)

From stdpp Require Import base list option numbers decidable strings.
From Stdlib Require Import ZArith Lia.
From S2P Require Import Prelude Text Ranges VersionTypes VersionSmall Version VersionOrder VersionParser.
From S2P Require Import VersionParserFacts VersionSpecifier SpecifierParser SpecifierFacts Normalize.
From S2P Require Import VersionRanges VersionRangesFacts Cursor.
From S2P Require Import MarkerTypes Interner MarkerAlgebra MarkerRestrict MarkerTree MarkerEval ExpressionFacts MarkerParser.

Local Open Scope Z_scope.
Local Open Scope uv_scope.

(** ** States *)

Notation chars_of s := (cursor_chars (parser_cursor s)).
Notation input_of s := (cursor_input (parser_cursor s)).
Notation pos_of s := (cursor_pos (parser_cursor s)).

Record parser_ok (s : ParserState) : Prop := {
  parser_split : cursor_ok (parser_cursor s);
  parser_chars : Forall is_char (input_of s);
}.

(** The state after some characters. *)
Definition moved (s : ParserState) (eaten rest : list Z) : ParserState :=
  mkParserState (cursor_moved (parser_cursor s) eaten rest) (parser_reports s).

Record advances (s s' : ParserState) : Prop := {
  advances_input : input_of s' = input_of s;
  advances_chars : exists eaten, chars_of s = eaten ++ chars_of s' /\ pos_of s' = (pos_of s + str_len eaten)%nat;
  advances_reports : exists more, parser_reports s' = parser_reports s ++ more;
}.

Lemma advances_refl s : advances s s.
Proof.
  split; [done|exists []|exists []; by rewrite app_nil_r]. by rewrite str_len_nil, Nat.add_0_r.
Qed.

Lemma advances_trans s1 s2 s3 : advances s1 s2 -> advances s2 s3 -> advances s1 s3.
Proof.
  intros [H1 (e1 & H2 & H3) [m1 H4]] [H5 (e2 & H6 & H7) [m2 H8]]. split; [congruence| |].
  - exists (e1 ++ e2). rewrite H2, H6, app_assoc, str_len_app, H7, H3. split; [done|lia].
  - exists (m1 ++ m2). by rewrite H8, H4, app_assoc.
Qed.

Lemma advances_moved s eaten rest : chars_of s = eaten ++ rest -> advances s (moved s eaten rest).
Proof. intros E. split; [done|by exists eaten|exists []; by rewrite app_nil_r]. Qed.

Lemma advances_reported s more :
  advances s (mkParserState (parser_cursor s) (parser_reports s ++ more)).
Proof.
  split; [done| |by exists more]. exists []. cbn. by rewrite str_len_nil, Nat.add_0_r.
Qed.

Lemma advances_ok s s' : advances s s' -> parser_ok s -> parser_ok s'.
Proof.
  intros [H1 (eaten & H2 & H3) _] [[before [H4 H5]] H6]. split; [|by rewrite H1].
  exists (before ++ eaten). split; [by rewrite H1, H4, H2, app_assoc|]. by rewrite H3, H5, str_len_app.
Qed.

Lemma advances_length s s' : advances s s' -> (length (chars_of s') <= length (chars_of s))%nat.
Proof. intros [_ (eaten & -> & _) _]. rewrite length_app. lia. Qed.

Lemma parser_rest_chars s : parser_ok s -> Forall is_char (chars_of s).
Proof. intros [[before [E _]] H]. rewrite E in H. by apply Forall_app in H as [_ H]. Qed.

Lemma parser_pos s : parser_ok s -> (pos_of s <= str_len (input_of s))%nat.
Proof. intros [[before [E ->]] _]. rewrite E, str_len_app. lia. Qed.

#[local] Hint Resolve advances_refl advances_moved advances_reported : core.

(** ** The rules *)

Definition error_in (s : ParserState) (e : Pep508Error) : Prop := (error_start e <= str_len (input_of s))%nat.

Definition reads {A : Type} (m : Reader A) (s : ParserState) (Q : A -> ParserState -> Prop) : Prop :=
  exists r s', m s = Some (r, s') /\ advances s s' /\
    match r with Ok a => Q a s' | Err e => error_in s e end.

Lemma reads_ret {A : Type} (a : A) s (Q : A -> ParserState -> Prop) : Q a s -> reads (parser_ret a) s Q.
Proof. intros H. by exists (Ok a), s. Qed.

Lemma reads_fail {A : Type} kind start len s (Q : A -> ParserState -> Prop) :
  (start <= str_len (input_of s))%nat -> reads (parser_fail kind start len) s Q.
Proof. intros H. by exists (Err (mkPep508Error kind start len)), s. Qed.

Lemma reads_bind {A B : Type} (m : Reader A) (k : A -> Reader B) s P (Q : B -> ParserState -> Prop) :
  parser_ok s -> reads m s P ->
  (forall a s', parser_ok s' -> advances s s' -> P a s' -> reads (k a) s' Q) -> reads (parser_bind m k) s Q.
Proof.
  intros Hok (r & s' & E & Ha & Hr) Hk. unfold reads, parser_bind. rewrite E. cbn.
  destruct r as [a|e]; [|by exists (Err e), s'].
  destruct (Hk a s' (advances_ok _ _ Ha Hok) Ha Hr) as (r & s'' & E' & Ha' & Hr').
  exists r, s''. split_and!; [done|by eapply advances_trans|].
  destruct r as [b|e]; [done|]. unfold error_in in *. by rewrite <- (advances_input _ _ Ha).
Qed.

Lemma reads_weaken {A : Type} (m : Reader A) s (P Q : A -> ParserState -> Prop) :
  reads m s P -> (forall a s', advances s s' -> P a s' -> Q a s') -> reads m s Q.
Proof. intros (r & s' & E & Ha & Hr) H. exists r, s'. split_and!; [done|done|]. destruct r; auto. Qed.

(** ** Primitives *)

Lemma bind_ok {A B : Type} (m : Reader A) (k : A -> Reader B) s a s' :
  m s = Some (Ok a, s') -> parser_bind m k s = k a s'.
Proof. intros E. unfold parser_bind. by rewrite E. Qed.

Lemma cursor_read_eq {A B : Type} (f : Cursor -> A) (k : A -> Reader B) s :
  parser_bind (cursor_read f) k s = k (f (parser_cursor s)) s.
Proof. by destruct s. Qed.

Lemma eat_spaces_eq s :
  eat_spaces s = Some (Ok tt, moved s (take_while is_whitespace (chars_of s)) (skip_while is_whitespace (chars_of s))).
Proof. unfold eat_spaces, with_cursor. by rewrite cursor_eat_whitespace_spec. Qed.

Lemma take_while_eq p s :
  with_cursor (fun c => cursor_take_while c p) s =
    Some (Ok (pos_of s, str_len (take_while p (chars_of s))), moved s (take_while p (chars_of s)) (skip_while p (chars_of s))).
Proof. unfold with_cursor. by rewrite cursor_take_while_spec. Qed.

Lemma slice_while_eq p s s' :
  cursor_ok (parser_cursor s) -> input_of s' = input_of s ->
  slice (pos_of s, str_len (take_while p (chars_of s))) s' = Some (Ok (take_while p (chars_of s)), s').
Proof.
  intros [before Hs] Ei. unfold slice. rewrite cursor_read_eq. cbn [fst snd].
  by rewrite (cursor_slice_while (parser_cursor s) before p (parser_cursor s') Hs Ei).
Qed.

(** [take_while] and the [slice] of what it took. *)
Lemma take_slice_eq {A : Type} p (k : nat * nat -> list Z -> Reader A) s :
  cursor_ok (parser_cursor s) ->
  (let* span := with_cursor (fun c => cursor_take_while c p) in let* w := slice span in k span w) s =
    let w := take_while p (chars_of s) in k (pos_of s, str_len w) w (moved s w (skip_while p (chars_of s))).
Proof.
  intros Hs. rewrite (bind_ok _ _ _ _ _ (take_while_eq p s)).
  by rewrite (bind_ok _ _ _ _ _ (slice_while_eq p s (moved s _ (skip_while p (chars_of s))) Hs eq_refl)).
Qed.

Lemma next_eq s :
  with_cursor cursor_next s =
    match chars_of s with
    | [] => Some (Ok None, s)
    | c :: rest => Some (Ok (Some (pos_of s, c)), moved s [c] rest)
    end.
Proof. unfold with_cursor. rewrite cursor_next_spec. destruct s as [c r]. cbn. by destruct (cursor_chars c). Qed.

Lemma expect_char_eq expected start s :
  expect_char expected start s =
    match chars_of s with
    | [] => Some (Err (mkPep508Error (ExpectedCharFoundEnd expected) start 1), s)
    | c :: rest =>
        Some (if c =? expected then Ok tt else Err (mkPep508Error (ExpectedCharFound expected c) (pos_of s) (len_utf8 c)),
              moved s [c] rest)
    end.
Proof.
  unfold expect_char, cursor_next_expect_char. rewrite cursor_next_spec.
  destruct s as [c r]. cbn. destruct (cursor_chars c) as [|char rest]; [done|]. by destruct (char =? expected).
Qed.

Lemma reads_eat_spaces s Q :
  (forall s', advances s s' -> chars_of s' = skip_while is_whitespace (chars_of s) -> Q tt s') -> reads eat_spaces s Q.
Proof.
  intros H. do 2 eexists. split; [apply eat_spaces_eq|].
  assert (advances s (moved s (take_while is_whitespace (chars_of s)) (skip_while is_whitespace (chars_of s)))).
  { apply advances_moved. by rewrite take_skip_while. }
  split; [done|]. by apply H.
Qed.

Lemma reads_expect_char expected start s :
  parser_ok s -> (start <= str_len (input_of s))%nat -> reads (expect_char expected start) s (fun _ _ => True).
Proof.
  intros Hs Hstart. unfold reads. rewrite expect_char_eq. pose proof (parser_pos s Hs).
  destruct (chars_of s) as [|c rest] eqn:E; do 2 eexists; (split; [done|]).
  - by split.
  - split; [by apply advances_moved|]. by destruct (c =? expected).
Qed.

Lemma reads_next s :
  reads (with_cursor cursor_next) s (fun next s' => match next with Some (pos, _) => pos = pos_of s | None => True end).
Proof.
  unfold reads. rewrite next_eq. destruct (chars_of s) as [|c rest] eqn:E; do 2 eexists; (split; [done|]); auto.
Qed.

Lemma reads_moved {A : Type} (m m' : Reader A) s s' Q :
  m s = m' s' -> advances s s' -> reads m' s' Q -> reads m s Q.
Proof.
  intros E Ha (r & s'' & E' & Ha' & Hr). exists r, s''. split_and!; [congruence|by eapply advances_trans|].
  destruct r; [done|]. unfold error_in in *. by rewrite <- (advances_input _ _ Ha).
Qed.

Lemma reads_cursor_read {A B : Type} (f : Cursor -> A) (k : A -> Reader B) s Q :
  reads (k (f (parser_cursor s))) s Q -> reads (let* x := cursor_read f in k x) s Q.
Proof. apply reads_moved; [apply cursor_read_eq|done]. Qed.

Lemma reads_peek {A : Type} (f : Cursor -> A) s : reads (cursor_read f) s (fun a s' => a = f (parser_cursor s) /\ s' = s).
Proof. exists (Ok (f (parser_cursor s))), s. split; [by destruct s|]. split; [apply advances_refl|done]. Qed.

Lemma moved_while p s : advances s (moved s (take_while p (chars_of s)) (skip_while p (chars_of s))).
Proof. apply advances_moved. by rewrite take_skip_while. Qed.

Lemma reads_take_slice {A : Type} p (k : nat * nat -> list Z -> Reader A) s Q :
  parser_ok s ->
  (let w := take_while p (chars_of s) in reads (k (pos_of s, str_len w) w) (moved s w (skip_while p (chars_of s))) Q) ->
  reads (let* span := with_cursor (fun c => cursor_take_while c p) in let* w := slice span in k span w) s Q.
Proof. intros Hs. apply reads_moved; [apply take_slice_eq, Hs|apply moved_while]. Qed.

(** ** Operators and values *)

Section Reading.
Context `{!Alphabetic}.

Lemma parse_marker_operator_reads s : parser_ok s -> reads parse_marker_operator s (fun _ _ => True).
Proof.
  intros Hs. unfold parse_marker_operator. apply reads_cursor_read.
  set (p := if match cursor_peek_char (parser_cursor s) with Some c => is_alphabetic c | None => false end
            then is_operator_word else is_operator_char).
  apply (reads_take_slice p (fun span operator => _)); [done|]. cbv zeta.
  set (s1 := moved s _ _). assert (Hs1 : parser_ok s1) by (eapply advances_ok; [apply moved_while|done]).
  pose proof (parser_pos s Hs) as Hp. case_bool_decide as Hnot.
  - eapply reads_bind; [done|apply reads_next|]. intros [[pos c]|] s2 Hs2 Ha2 Hpos.
    + destruct (is_whitespace c).
      * eapply (reads_bind _ _ _ (fun _ _ => True)); [done|by apply reads_eat_spaces|]. intros _ s3 Hs3 _ _.
        apply reads_cursor_read. eapply reads_bind; [done|apply reads_expect_char; [done|by apply parser_pos]|].
        intros _ s4 Hs4 _ _. apply reads_cursor_read.
        eapply reads_bind; [done|apply reads_expect_char; [done|by apply parser_pos]|]. intros _ s5 _ _ _. by apply reads_ret.
      * apply reads_fail. rewrite Hpos. rewrite (advances_input _ _ Ha2). by apply parser_pos.
    + apply reads_cursor_read, reads_fail. by apply parser_pos.
  - destruct (marker_operator_from_str _); [by apply reads_ret|by apply reads_fail].
Qed.

(** A value takes at least one character; a string has characters of the text. *)
Definition value_read (s : ParserState) (value : MarkerValue) (s' : ParserState) : Prop :=
  (length (chars_of s') < length (chars_of s))%nat /\
  match value with QuotedString text => Forall is_char text | _ => True end.

Lemma names_nonempty key value : marker_value_from_str key = Some value -> key <> [].
Proof. intros E ->. discriminate E. Qed.

Lemma names_no_string key value text : marker_value_from_str key = Some value -> value <> QuotedString text.
Proof.
  unfold marker_value_from_str. intros E ->. apply fmap_Some in E as ([name value] & E & Ev). cbn in Ev. subst value.
  apply find_some in E as [E _]. by repeat (destruct E as [[=]|E]).
Qed.

Lemma skip_while_length {A : Type} (p : A -> bool) l : (length (skip_while p l) <= length l)%nat.
Proof. rewrite <- (take_skip_while p l) at 2. rewrite length_app. lia. Qed.

Lemma parse_marker_value_reads s : parser_ok s -> reads parse_marker_value s (value_read s).
Proof.
  intros Hs. unfold parse_marker_value. apply reads_cursor_read. pose proof (parser_pos s Hs) as Hp.
  pose proof (parser_rest_chars s Hs) as Hc. unfold cursor_peek. destruct (chars_of s) as [|c rest] eqn:E.
  { apply reads_cursor_read. by apply reads_fail. }
  destruct (is_quote c).
  - eapply (reads_bind _ _ _ (fun _ s' => s' = moved s [c] rest)); [done| |].
    { unfold reads. rewrite next_eq, E. do 2 eexists. split_and!; [done|by apply advances_moved|done]. }
    intros _ s1 Hs1 Ha1 ->. apply (reads_take_slice _ (fun span value => _)); [done|]. cbv zeta. cbn [cursor_chars parser_cursor moved cursor_moved].
    set (s2 := moved _ _ _). assert (Hs2 : parser_ok s2).
    { eapply advances_ok; [|exact Hs1]. apply advances_moved. cbn. by rewrite take_skip_while. }
    eapply reads_bind; [done|by apply reads_expect_char|].
    intros _ s3 Hs3 Ha3 _. apply reads_ret. split.
      * apply advances_length in Ha3. cbn in Ha3. rewrite E. cbn.
        pose proof (skip_while_length (fun c' => negb (c' =? c)) rest). lia.
      * apply take_while_Forall_sub. by apply Forall_inv_tail in Hc.
  - apply (reads_take_slice is_key_char (fun span key => _)); [done|]. cbv zeta. rewrite E.
    destruct (marker_value_from_str _) as [value|] eqn:Ev; [|by apply reads_fail].
    set (s1 := moved s _ _).
    assert (Hs1 : parser_ok s1) by (eapply advances_ok; [apply advances_moved; by rewrite E, take_skip_while|done]).
    eapply (reads_bind _ _ _ (fun _ s' => chars_of s' = chars_of s1)); [done|by do 2 eexists; split_and!; [done|apply advances_reported|]|].
    intros _ s2 Hs2 Ha2 E2. apply reads_ret. split.
    + rewrite E2, E. cbn. pose proof (names_nonempty _ _ Ev) as Hne.
      pose proof (take_skip_while is_key_char (c :: rest)) as Hts. apply (f_equal length) in Hts.
      rewrite length_app in Hts. destruct (take_while is_key_char (c :: rest)); [done|]. cbn in Hts. cbn [length]. lia.
    + destruct value; try done. by destruct (names_no_string _ _ value Ev).
Qed.

(** ** Expressions *)

Definition expression_returns (e : Expression) : Prop :=
  exists o reports, e = Some (o, reports) /\ match o with Some expr => expression_ok expr | None => True end.

Lemma version_from_str_real text :
  Forall is_char text ->
  match version_from_str (utf8 text) with Done v => version_real v | Failed _ => True | Panicked => False end.
Proof.
  intros Ht. pose proof (version_from_str_returns (utf8 text) (utf8_bytes text Ht)) as R.
  destruct (version_from_str (utf8 text)); [by destruct R|done|done].
Qed.

Lemma parse_versions_total fuel c versions :
  cursor_ok c -> Forall is_char (cursor_input c) -> (length (cursor_chars c) < fuel)%nat -> Forall version_real versions ->
  exists r, parse_versions fuel c versions = Some r /\ match r with Ok vs => Forall version_real vs | Err _ => True end.
Proof.
  revert c versions. induction fuel as [|fuel IH]; intros c versions [before Hc] Hin Hf Hv; [lia|].
  cbn [parse_versions]. rewrite cursor_eat_whitespace_spec.
  set (ws := take_while is_whitespace (cursor_chars c)). set (rest := skip_while is_whitespace (cursor_chars c)).
  assert (E : cursor_chars c = ws ++ rest) by by (unfold ws, rest; rewrite take_skip_while).
  pose proof (moved_split c before ws rest Hc E) as H1. set (c1 := cursor_moved c ws rest) in *.
  rewrite cursor_take_while_spec. set (p := fun c => negb (is_whitespace c)).
  set (w := take_while p (cursor_chars c1)). set (rest2 := skip_while p (cursor_chars c1)).
  assert (E2 : cursor_chars c1 = w ++ rest2) by by (unfold w, rest2; rewrite take_skip_while).
  pose proof (moved_split c1 _ w rest2 H1 E2) as H2. set (c2 := cursor_moved c1 w rest2) in *.
  destruct (Nat.eqb_spec (str_len w) 0) as [|Hne]; [by exists (Ok versions)|].
  pose proof (cursor_slice_while c1 _ p c2 H1 eq_refl) as Hsl. fold w in Hsl. rewrite Hsl. cbn [mbind option_bind].
  assert (Hw : Forall is_char w).
  { apply take_while_Forall_sub. destruct Hc as [Hi _]. rewrite Hi in Hin. apply Forall_app in Hin as [_ Hin].
    by apply skip_while_Forall_sub. }
  pose proof (version_from_str_real w Hw) as Hr. destruct (version_from_str (utf8 w)) as [v|e|]; [|by exists (Err tt)|done].
  apply IH; [by eexists|done| |by apply Forall_app_2; [|apply Forall_cons_2, Forall_nil_2]].
  assert (Hlen : (length (cursor_chars c1) <= length (cursor_chars c))%nat) by (rewrite E, length_app; cbn; lia).
  rewrite E2, length_app in Hlen. destruct w; [done|]. cbn in *. lia.
Qed.

Lemma to_pep440_plain operator op : to_pep440_operator operator = Some op -> operator_is_star op = false.
Proof. by destruct operator; intros [= <-]. Qed.

Lemma parse_version_in_expr_returns key operator value :
  Forall is_char value -> expression_returns (parse_version_in_expr key operator value).
Proof.
  intros Hv. unfold parse_version_in_expr. destruct (container_operator_from operator); [|by do 2 eexists].
  destruct (parse_versions_total (S (length value)) (cursor_new value) []) as (r & -> & Hr); [by eexists; apply cursor_new_ok|done|cbn; lia|done|].
  destruct r as [vs|]; by do 2 eexists.
Qed.

Lemma parse_version_expr_returns key operator value :
  Forall is_char value -> expression_returns (parse_version_expr key operator value).
Proof.
  intros Hv. unfold parse_version_expr. pose proof (pattern_from_str_spec _ (utf8_bytes _ Hv)) as Hp.
  destruct (version_pattern_from_str (utf8 value)) as [p|e|]; [|by do 2 eexists|done]. destruct Hp as [H1 H2].
  destruct (to_pep440_operator operator) as [op|] eqn:Eo; [|by do 2 eexists].
  destruct (specifier_from_pattern op p) as [x|e] eqn:Es; [|by do 2 eexists].
  do 2 eexists. split; [done|]. eapply from_pattern_valid; [done|done|done|by eapply to_pep440_plain].
Qed.

Lemma parse_inverted_version_expr_returns value operator key :
  Forall is_char value -> expression_returns (parse_inverted_version_expr value operator key).
Proof.
  intros Hv. unfold parse_inverted_version_expr. pose proof (version_from_str_real _ Hv) as Hr.
  destruct (version_from_str (utf8 value)) as [v|e|]; [|by do 2 eexists|done].
  destruct (to_pep440_operator (marker_operator_invert operator)) as [op|] eqn:Eo; [|by do 2 eexists].
  destruct (specifier_from_version op v) as [x|e] eqn:Es; [|by do 2 eexists].
  do 2 eexists. split; [done|]. eapply from_version_valid; [done|done|]. by rewrite (to_pep440_plain _ _ Eo).
Qed.

Lemma parse_extra_expr_returns operator value : expression_returns (parse_extra_expr operator value).
Proof.
  unfold parse_extra_expr. destruct (extra_name_from_str (utf8 value)), (extra_operator_from operator); by do 2 eexists.
Qed.

Definition value_chars (value : MarkerValue) : Prop :=
  match value with QuotedString text => Forall is_char text | _ => True end.

Lemma marker_expression_returns l operator r :
  value_chars l -> value_chars r ->
  match marker_expression l operator r with Ok e => expression_returns e | Err _ => True end.
Proof.
  intros Hl Hr. destruct l as [key|key|key| |text]; cbn [marker_expression].
  - destruct r as [| | | |value]; try by do 2 eexists.
    destruct (parse_version_in_expr_returns key operator value Hr) as (o & reports & -> & Ho).
    destruct o as [expr|]; [by do 2 eexists|].
    destruct (parse_version_expr_returns key operator value Hr) as (o & reports' & -> & Ho'). by do 2 eexists.
  - destruct r as [| | | |value]; try by do 2 eexists. destruct operator; cbn; do 2 eexists; (split; [done|]);
      try done; (split; [done|by apply utf8_bytes]).
  - done.
  - destruct r as [| | | |value]; try by do 2 eexists. apply parse_extra_expr_returns.
  - destruct r as [key|key|key| |value].
    + by apply parse_inverted_version_expr_returns.
    + destruct operator; cbn; do 2 eexists; (split; [done|]); try done; (split; [done|by apply utf8_bytes]).
    + destruct (container_operator_from operator); [|done]. destruct (parse_list_pair key text). by do 2 eexists.
    + apply parse_extra_expr_returns.
    + by do 2 eexists.
Qed.

(** An expression takes at least one character. *)
Lemma parse_marker_key_op_value_reads s :
  parser_ok s ->
  reads parse_marker_key_op_value s (fun o s' =>
    (length (chars_of s') < length (chars_of s))%nat /\ match o with Some expr => expression_ok expr | None => True end).
Proof.
  intros Hs. unfold parse_marker_key_op_value.
  eapply (reads_bind _ _ _ (fun _ _ => True)); [done|by apply reads_eat_spaces|]. intros _ s1 Hs1 Ha1 _.
  apply reads_cursor_read. eapply reads_bind; [done|by apply parse_marker_value_reads|]. intros l s2 Hs2 Ha2 [Hl1 Hl2].
  eapply (reads_bind _ _ _ (fun _ _ => True)); [done|by apply reads_eat_spaces|]. intros _ s3 Hs3 Ha3 _.
  eapply reads_bind; [done|by apply parse_marker_operator_reads|]. intros operator s4 Hs4 Ha4 _.
  eapply (reads_bind _ _ _ (fun _ _ => True)); [done|by apply reads_eat_spaces|]. intros _ s5 Hs5 Ha5 _.
  eapply reads_bind; [done|by apply parse_marker_value_reads|]. intros r s6 Hs6 Ha6 [Hr1 Hr2].
  apply reads_cursor_read. pose proof (marker_expression_returns l operator r Hl2 Hr2) as He.
  assert (Hin : input_of s6 = input_of s1).
  { by rewrite (advances_input _ _ Ha6), (advances_input _ _ Ha5), (advances_input _ _ Ha4), (advances_input _ _ Ha3), (advances_input _ _ Ha2). }
  destruct (marker_expression l operator r) as [e|kind].
  - destruct He as (o & reports & -> & Ho). do 2 eexists. split; [done|]. split; [apply advances_reported|].
    split; [|done]. cbn. apply advances_length in Ha1, Ha3, Ha4, Ha5. lia.
  - apply reads_fail. rewrite Hin. by apply parser_pos.
Qed.
End Reading.
