(* ===== verification/MarkerSyntax.v ===== *)
(** * Markers: the syntax of a text

    The parser run in another algebra: it builds the tree of connectives as written, and logs the
    expressions. It reads any text to its end or to an error in it. *)

From stdpp Require Import base list option numbers decidable strings.
From Stdlib Require Import ZArith Lia.
From S2P Require Import Prelude Text Ranges VersionTypes VersionSmall Version VersionOrder VersionParser.
From S2P Require Import VersionSpecifier SpecifierParser Cursor MarkerTypes Interner MarkerAlgebra.
From S2P Require Import MarkerRestrict MarkerTree ExpressionFacts MarkerParser MarkerParserFacts.

Local Open Scope Z_scope.
Local Open Scope uv_scope.

Inductive Syntax : Type :=
| SynExpr (expr : MarkerExpression)
| SynAnd (a b : Syntax)
| SynOr (a b : Syntax).

Section Syntax.
Context `{!Alphabetic} {RV : RangeOps Version} {RS : RangeOps (list Z)}.

Notation Log := (list MarkerExpression).
Notation SynParser A := (TreeParser (C := Log) A).

Definition syntax_algebra : TreeAlgebra Log Syntax :=
  mkTreeAlgebra _ _ _ _
    (fun expr s => Some (SynExpr expr, (s.1, s.2 ++ [expr])))
    (fun a b => ret (SynAnd a b)) (fun a b => ret (SynOr a b)) (fun _ => false) (fun _ => false).

(** The result, the reports and the expressions. *)
Definition parse_syntax (markers : list Z) :
    option (result (option Syntax) Pep508Error * ParserState * Log) :=
  '(r, (_, log)) ← parse_markers_cursor syntax_algebra (mkParserState (cursor_new markers) []) (interner_new, []);
  Some (r, log).

(** ** Totality *)

(** The parser returns, and the expressions it logs are as the parser makes them. *)
Definition scans {A : Type} (p : SynParser A) (s : ParserState) (Q : A -> ParserState -> Prop) : Prop :=
  forall t log, exists r s' t' more, p s (t, log) = Some ((r, s'), (t', log ++ more)) /\ advances s s' /\
    Forall expression_ok more /\ match r with Ok a => Q a s' | Err e => error_in s e end.

Lemma scans_ret {A : Type} (a : A) s (Q : A -> ParserState -> Prop) : Q a s -> scans (tree_ret a) s Q.
Proof.
  intros HQ t log. exists (Ok a), s, t, []. rewrite app_nil_r. split_and!; [done|apply advances_refl|apply Forall_nil_2|done].
Qed.

Lemma scans_bind {A B : Type} (m : SynParser A) (k : A -> SynParser B) s P (Q : B -> ParserState -> Prop) :
  parser_ok s -> scans m s P ->
  (forall a s', parser_ok s' -> advances s s' -> P a s' -> scans (k a) s' Q) -> scans (tree_bind m k) s Q.
Proof.
  intros Hs Hm Hk t log. destruct (Hm t log) as (r & s' & t' & more & E & Ha & Hmore & Hr).
  unfold tree_bind, bind. rewrite E. cbn [mbind option_bind]. destruct r as [a|e]; [|by exists (Err e), s', t', more].
  destruct (Hk a s' (advances_ok _ _ Ha Hs) Ha Hr t' (log ++ more)) as (r & s'' & t'' & more' & E' & Ha' & Hmore' & Hr').
  exists r, s'', t'', (more ++ more'). rewrite app_assoc. split_and!; [done|by eapply advances_trans|by apply Forall_app_2|].
  destruct r; [done|]. unfold error_in in *. by rewrite <- (advances_input _ _ Ha).
Qed.

Lemma scans_reading {A : Type} (p : Reader A) s Q : reads p s Q -> scans (reading p) s Q.
Proof.
  intros (r & s' & E & Ha & Hr) t log. exists r, s', t, []. unfold reading, lift_option. rewrite E, app_nil_r. cbn.
  split_and!; [done|done|apply Forall_nil_2|done].
Qed.

Lemma scans_weaken {A : Type} (p : SynParser A) s (P Q : A -> ParserState -> Prop) :
  scans p s P -> (forall a s', advances s s' -> P a s' -> Q a s') -> scans p s Q.
Proof.
  intros Hp Hpq t log. destruct (Hp t log) as (r & s' & t' & more & E & Ha & Hmore & Hr).
  exists r, s', t', more. split_and!; [done|done|done|]. destruct r; auto.
Qed.

(** A step that builds trees only. *)
Definition pure_build {A : Type} (m : M Log A) : Prop := exists a, forall st, m st = Some (a, st).

Lemma scans_building {A : Type} (m : M Log A) s : pure_build m -> scans (building m) s (fun _ s' => s' = s).
Proof.
  intros [a Ha] t log. exists (Ok a), s, t, []. unfold building, bind. rewrite Ha, app_nil_r. cbn.
  split_and!; [done|apply advances_refl|apply Forall_nil_2|done].
Qed.

Lemma peek_operator_reads op s :
  parser_ok s ->
  reads (peek_operator op) s (fun _ s' => chars_of s' = skip_while is_whitespace (chars_of s)).
Proof.
  intros Hs. unfold peek_operator.
  eapply (reads_bind _ _ _ (fun _ s' => chars_of s' = skip_while is_whitespace (chars_of s))); [done|by apply reads_eat_spaces|].
  intros _ s1 Hs1 Ha1 E1. apply reads_cursor_read. rewrite cursor_peek_while_spec.
  eapply (reads_bind _ _ _ (fun _ s' => s' = s1)); [done| |by intros w s2 _ _ ->; apply reads_ret].
  do 2 eexists. split; [apply slice_while_eq; [apply Hs1|done]|]. split; [apply advances_refl|done].
Qed.

(** Progress by at least one character. *)
Definition shorter {A : Type} (s : ParserState) (_ : A) (s' : ParserState) : Prop :=
  (length (chars_of s') < length (chars_of s))%nat.

Lemma parse_operands_scans fuel op (inner : SynParser (option Syntax)) s expressions :
  parser_ok s -> (length (chars_of s) < fuel)%nat ->
  (forall s', parser_ok s' -> (length (chars_of s') <= length (chars_of s))%nat -> scans inner s' (shorter s')) ->
  scans (parse_operands fuel op inner expressions) s (shorter s).
Proof.
  revert s expressions. induction fuel as [|fuel IH]; intros s expressions Hs Hf Hin; [lia|]. cbn [parse_operands].
  eapply (scans_bind _ _ _ (fun _ _ => True)); [done|apply scans_reading|].
  { do 2 eexists. split; [apply take_while_eq|]. split; [apply moved_while|done]. }
  intros _ s1 Hs1 Ha1 _. pose proof (advances_length _ _ Ha1) as Hl1.
  eapply scans_bind; [done|by apply Hin|]. intros e s2 Hs2 Ha2 Hlt. unfold shorter in Hlt.
  eapply scans_bind; [done|by apply scans_reading, peek_operator_reads|]. intros [] s3 Hs3 Ha3 _;
    pose proof (advances_length _ _ Ha3) as Hl3.
  - eapply scans_weaken; [apply IH; [done|lia|intros; apply Hin; [done|lia]]|]. unfold shorter. lia.
  - apply scans_ret. unfold shorter. lia.
Qed.

(** A value of syntax that the connective combines by an associative operation. *)
Record connective (f : Syntax -> Syntax -> Syntax) (v : Syntax -> bool) (op : bool -> bool -> bool) (unit : bool) : Prop := {
  connective_value a b : v (f a b) = op (v a) (v b);
  connective_assoc a b c : op a (op b c) = op (op a b) c;
  connective_unit a : op a unit = a;
}.

Definition same_fold (f : Syntax -> Syntax -> Syntax) (l l' : list Syntax) : Prop :=
  forall v op unit, connective f v op unit -> foldr op unit (v <$> l') = foldr op unit (v <$> l).

Lemma combine_pairs_pure f l :
  exists l', (forall st, combine_pairs (C := Log) (fun a b : Syntax => ret (f a b)) (fun _ => false) l st = Some (inr l', st)) /\
    (length l' <= length l)%nat /\ (2 <= length l -> length l' < length l)%nat /\ (l <> [] -> l' <> []) /\ same_fold f l l'.
Proof.
  remember (length l) as n eqn:En. revert l En. induction (lt_wf n) as [n _ IH]. intros l ->.
  destruct l as [|x [|y l]]; [exists []|exists [x]|]; try (split_and!; [done|done|cbn; lia|done|done]).
  destruct (IH (length l)) with (l := l) as (l' & E & H1 & _ & _ & H2); [cbn; lia|done|]. exists (f x y :: l').
  split_and!; [|cbn; lia|cbn; lia|done|].
  - intros st. cbn. unfold bind. cbn. by rewrite E.
  - intros v op unit Hc. cbn. by rewrite (connective_value _ _ _ _ Hc), (H2 _ _ _ Hc), (connective_assoc _ _ _ _ Hc).
Qed.

(** The combination of a list of operands. *)
Definition combines_to (f : Syntax -> Syntax -> Syntax) (l : list Syntax) (o : option Syntax) : Prop :=
  match o with
  | None => l = []
  | Some syn => l <> [] /\ forall v op unit, connective f v op unit -> v syn = foldr op unit (v <$> l)
  end.

Lemma combine_all_pure f fuel l :
  (length l <= S fuel)%nat -> exists o,
    (forall st, combine_all (C := Log) fuel (fun a b : Syntax => ret (f a b)) (fun _ => false) l st = Some (o, st)) /\
    combines_to f l o.
Proof.
  revert l. induction fuel as [|fuel IH]; intros l Hl; (destruct l as [|x [|y l]];
    [by exists None
    |exists (Some x); split; [done|]; split; [done|]; intros v op unit Hc; cbn; by rewrite (connective_unit _ _ _ _ Hc)
    |]); [cbn in Hl; lia|].
  destruct (combine_pairs_pure f (x :: y :: l)) as (l' & E & _ & Hlt & Hne & Hv).
  destruct (IH l') as (o & Ho & Hval); [cbn in *; lia|]. exists o. split.
  - intros st. cbn [combine_all]. unfold bind. rewrite E. cbn. apply Ho.
  - destruct o as [syn|]; [|by destruct Hne]. destruct Hval as [_ Hval]. split; [done|].
    intros v op unit Hc. by rewrite (Hval _ _ _ Hc), (Hv _ _ _ Hc).
Qed.

Lemma parse_marker_op_scans op f (inner : SynParser (option Syntax)) s :
  parser_ok s ->
  (forall s', parser_ok s' -> (length (chars_of s') <= length (chars_of s))%nat -> scans inner s' (shorter s')) ->
  scans (parse_marker_op op (fun a b => ret (f a b)) (fun _ => false) inner) s (shorter s).
Proof.
  intros Hs Hin. unfold parse_marker_op. eapply scans_bind; [done|by apply Hin|]. intros first s1 Hs1 Ha1 Hlt. unfold shorter in Hlt.
  eapply scans_bind; [done|by apply scans_reading, peek_operator_reads|]. intros [] s2 Hs2 Ha2 _;
    pose proof (advances_length _ _ Ha2) as Hl2; [|apply scans_ret; unfold shorter; lia].
  eapply scans_bind; [done|apply scans_reading, reads_peek|]. intros n s3 Hs3 _ [-> ->].
  eapply scans_bind; [done|apply parse_operands_scans; [done|lia|intros; apply Hin; [done|lia]]|].
  intros l s4 Hs4 Ha4 Hl4. unfold shorter in Hl4. destruct (combine_all_pure f (length l) l) as (o & Ho & _); [lia|].
  eapply scans_weaken; [apply scans_building; by exists o|].
  intros o' s5 _ ->. unfold shorter. lia.
Qed.

Lemma eat_char_reads c s :
  reads (with_cursor (fun cursor => cursor_eat_char cursor c)) s (fun start s' =>
    match start with
    | Some pos => pos = pos_of s /\ exists rest, chars_of s = c :: rest /\ chars_of s' = rest
    | None => s' = s
    end).
Proof.
  unfold reads, with_cursor, cursor_eat_char, cursor_peek. rewrite cursor_next_spec.
  destruct s as [cursor reports]. cbn. destruct (cursor_chars cursor) as [|char rest] eqn:E.
  - do 2 eexists. split; [done|]. split; [apply advances_refl|done].
  - destruct (Z.eqb_spec char c) as [->|]; do 2 eexists; (split; [done|]).
    + split; [by apply (advances_moved (mkParserState cursor reports) [c] rest)|]. split; [done|]. by exists rest.
    + split; [apply advances_refl|done].
Qed.

Lemma parse_marker_expr_scans (parse_or : SynParser (option Syntax)) s :
  parser_ok s ->
  (forall s', parser_ok s' -> (length (chars_of s') < length (chars_of s))%nat -> scans parse_or s' (shorter s')) ->
  scans (parse_marker_expr syntax_algebra parse_or) s (shorter s).
Proof.
  intros Hs Hor. unfold parse_marker_expr.
  eapply (scans_bind _ _ _ (fun _ _ => True)); [done|by apply scans_reading, reads_eat_spaces|]. intros _ s1 Hs1 Ha1 _.
  pose proof (advances_length _ _ Ha1) as Hl1. pose proof (parser_pos s1 Hs1) as Hp1.
  eapply scans_bind; [done|apply scans_reading, eat_char_reads|]. intros [start|] s2 Hs2 Ha2.
  - intros (-> & rest & E1 & E2).
    assert (Hl2 : (length (chars_of s2) < length (chars_of s1))%nat) by (rewrite E1, E2; cbn; lia).
    eapply scans_bind; [done|apply Hor; [done|lia]|]. intros marker s3 Hs3 Ha3 Hl3. unfold shorter in Hl3.
    eapply (scans_bind _ _ _ (fun _ _ => True)); [done|apply scans_reading, reads_expect_char; [done|]|].
    { by rewrite (advances_input _ _ Ha3), (advances_input _ _ Ha2). }
    intros _ s4 _ Ha4 _. apply advances_length in Ha4. apply scans_ret. unfold shorter. lia.
  - intros ->. eapply scans_bind; [done|by apply scans_reading, parse_marker_key_op_value_reads|].
    intros [expr|] s3 Hs3 Ha3 [Hl3 Hsane]; [|apply scans_ret; unfold shorter; lia].
    intros t log. exists (Ok (Some (SynExpr expr))), s3, t, [expr].
    split_and!; [done|apply advances_refl|by apply Forall_cons_2, Forall_nil_2|unfold shorter; lia].
Qed.

Lemma parse_marker_or_scans fuel s :
  parser_ok s -> (length (chars_of s) < fuel)%nat -> scans (parse_marker_or syntax_algebra fuel) s (shorter s).
Proof.
  revert s. induction fuel as [|fuel IH]; intros s Hs Hf; [lia|]. cbn [parse_marker_or].
  apply (parse_marker_op_scans (bytes "or") SynOr); [done|]. intros s1 Hs1 Hl1.
  apply (parse_marker_op_scans (bytes "and") SynAnd); [done|]. intros s2 Hs2 Hl2.
  apply parse_marker_expr_scans; [done|]. intros s3 Hs3 Hl3. apply IH; [done|lia].
Qed.

Lemma parse_markers_cursor_scans s : parser_ok s -> scans (parse_markers_cursor syntax_algebra) s (fun _ s' => chars_of s' = []).
Proof.
  intros Hs. unfold parse_markers_cursor. eapply scans_bind; [done|apply scans_reading, reads_peek|]. intros n s1 Hs1 _ [-> ->].
  eapply scans_bind; [done|apply parse_marker_or_scans; [done|lia]|]. intros marker s2 Hs2 _ _.
  eapply (scans_bind _ _ _ (fun _ _ => True)); [done|by apply scans_reading, reads_eat_spaces|]. intros _ s3 Hs3 _ _.
  eapply (scans_bind _ _ _ (fun next s' => match next with Some (pos, _) => pos = pos_of s3 | None => chars_of s' = [] end)); [done|apply scans_reading|].
  { unfold reads. rewrite next_eq. destruct (chars_of s3) as [|c rest] eqn:E; do 2 eexists; (split; [done|]).
    - by split; [apply advances_refl|].
    - by split; [apply advances_moved|]. }
  intros [[pos c]|] s4 Hs4 Ha4 Hpos; [|by apply scans_ret].
  eapply scans_bind; [done|apply scans_reading, reads_peek|]. intros len s5 Hs5 _ [-> ->].
  apply scans_reading, reads_fail. rewrite Hpos, (advances_input _ _ Ha4). by apply parser_pos.
Qed.

(** The whole text is read, or there is an error within it; the expressions are as the parser makes them. *)
Lemma parse_syntax_total markers :
  Forall is_char markers ->
  exists r s log, parse_syntax markers = Some (r, s, log) /\ Forall expression_ok log /\
    match r with
    | Ok _ => chars_of s = []
    | Err e => (error_start e <= str_len markers)%nat
    end.
Proof.
  intros Hm. destruct (parse_markers_cursor_scans (mkParserState (cursor_new markers) [])) with (t := interner_new) (log := [] : Log)
    as (r & s & t & more & E & _ & Hmore & Hr).
  - split; [by exists []; apply cursor_new_ok|done].
  - exists r, s, more. unfold parse_syntax. rewrite E. cbn. split_and!; [done|done|]. by destruct r.
Qed.
End Syntax.
