(* ===== verification/MarkerMeaning.v ===== *)
(** * Markers: the parser builds what the text means

    The parser of trees follows the parser of syntax step by step: it reads the same, reports the
    same, and builds a tree that has the value of the syntax. *)

From stdpp Require Import base list option numbers decidable strings.
From Stdlib Require Import ZArith Lia.
From S2P Require Import Prelude Text Ranges VersionTypes VersionSmall Version VersionOrder VersionParser.
From S2P Require Import VersionSpecifier SpecifierParser Cursor MarkerTypes Interner MarkerAlgebra.
From S2P Require Import MarkerRestrict MarkerTree MarkerEval InternerFacts EdgesFacts AlgebraFacts ExclusionFacts.
From S2P Require Import ExpressionFacts TreeFacts.
From S2P Require Import MarkerParser MarkerParserFacts MarkerSyntax.

Local Open Scope Z_scope.
Local Open Scope uv_scope.

Fixpoint syntax_value (sigma : Valuation) (syn : Syntax) : bool :=
  match syn with
  | SynExpr expr => expression_value sigma expr
  | SynAnd a b => syntax_value sigma a && syntax_value sigma b
  | SynOr a b => syntax_value sigma a || syntax_value sigma b
  end.

Section Meaning.
Context `{!Alphabetic} {RV : RangeOps Version} {RS : RangeOps (list Z)}.
Context {LV : RangeLaws version_cmp_slow} {LS : RangeLaws string_cmp}.
Context {C : Type} (L : C -> list Node -> Prop) {HL : LocalInvariant L}.

Notation Log := (list MarkerExpression).

(** ** Combining operands *)

Section Combine.
Context (op : bool -> bool -> bool) (unit absorbing : bool).
Context (Hassoc : forall a b c, op a (op b c) = op (op a b) c).
Context (Hunit : forall a, op a unit = a).
Context (Habs : forall a, op absorbing a = absorbing) (Habs' : forall a, op a absorbing = absorbing).
Context (apply : NodeId -> NodeId -> M C NodeId) (constant : NodeId -> bool).
Context (Happly : forall P Q i j s, state_ok L s -> means environment P i (nodes s.1) -> means environment Q j (nodes s.1) ->
  runs L (apply i j) s (means environment (fun sigma => op (P sigma) (Q sigma)))).
Context (Hconstant : forall table sigma i, constant i = true -> eval table sigma i = absorbing).

Definition folded (values : list bool) : bool := foldr op unit values.

Notation all_mean l Ps table := (Forall2 (fun i P => means environment P i table) l Ps).

Lemma all_mean_extend l Ps table table' :
  table_ok table -> table_ok table' -> table `prefix_of` table' -> all_mean l Ps table -> all_mean l Ps table'.
Proof. intros Hok Hok' Hp Hl. eapply Forall2_impl; [exact Hl|]. intros i P. by apply means_stable. Qed.

(** The meaning of a list of operands. *)
Definition folded_value (Ps : list (Valuation -> bool)) (sigma : Valuation) : bool := folded ((fun P => P sigma) <$> Ps).

(** A constant decides the rest. *)
Lemma constant_left P Q i table :
  constant i = true -> means environment P i table -> means environment (fun sigma => op (P sigma) (Q sigma)) i table.
Proof.
  intros Hi [Hv HP]. split; [done|]. intros sigma Henv. by rewrite <- (HP sigma Henv), (Hconstant table sigma i Hi), Habs.
Qed.

Lemma constant_right P Q i table :
  constant i = true -> means environment Q i table -> means environment (fun sigma => op (P sigma) (Q sigma)) i table.
Proof.
  intros Hi [Hv HP]. split; [done|]. intros sigma Henv. by rewrite <- (HP sigma Henv), (Hconstant table sigma i Hi), Habs'.
Qed.

Definition pairs_result (l : list NodeId) (Ps : list (Valuation -> bool)) (r : NodeId + list NodeId) (table : list Node) : Prop :=
  match r with
  | inl i => constant i = true /\ means environment (folded_value Ps) i table
  | inr l' => exists Ps', all_mean l' Ps' table /\ (forall sigma, folded_value Ps' sigma = folded_value Ps sigma) /\
      (l <> [] -> l' <> []) /\ (length l' <= length l)%nat /\ (2 <= length l -> length l' < length l)%nat
  end.

Lemma combine_pairs_runs l Ps s :
  state_ok L s -> all_mean l Ps (nodes s.1) -> runs L (combine_pairs apply constant l) s (pairs_result l Ps).
Proof.
  remember (length l) as n eqn:En. revert l Ps s En. induction (lt_wf n) as [n _ IH]. intros l Ps s -> Hs Hl.
  destruct l as [|x [|y l]].
  - apply Forall2_nil_inv_l in Hl as ->. apply runs_ret; [done|]. exists []. split_and!; try done. cbn. lia.
  - apply Forall2_cons_inv_l in Hl as (P & Ps0 & Hx & ->%Forall2_nil_inv_l & ->). apply runs_ret; [done|].
    assert (Hx' : means environment (folded_value [P]) x (nodes s.1)).
    { eapply means_ext; [|exact Hx]. intros sigma _. unfold folded_value, folded. cbn. by rewrite Hunit. }
    destruct (constant x) eqn:Ec; [by split|]. exists [P]. split_and!; try done; try (cbn; lia). by apply List.Forall2_cons, List.Forall2_nil.
  - apply Forall2_cons_inv_l in Hl as (P & Ps0 & Hx & Hl & ->). apply Forall2_cons_inv_l in Hl as (Q & Ps1 & Hy & Hl & ->).
    assert (Hfold : forall sigma, folded_value (P :: Q :: Ps1) sigma = op (op (P sigma) (Q sigma)) (folded_value Ps1 sigma)).
    { intros sigma. unfold folded_value, folded. cbn. by rewrite Hassoc. }
    cbn [combine_pairs]. eapply runs_bind; [by apply Happly|]. intros z s1 Hs1 Hp1 Hz. destruct (constant z) eqn:Ec.
    { apply runs_ret; [done|]. split; [done|]. eapply means_ext; [|exact (constant_left _ (folded_value Ps1) z _ Ec Hz)].
      intros sigma _. by rewrite Hfold. }
    eapply runs_bind; [eapply (IH (length l)); [cbn; lia|done|done|]|].
    { apply (all_mean_extend l Ps1 (nodes s.1)); [apply Hs|apply Hs1|done|done]. }
    intros r s2 Hs2 Hp2 Hr. apply runs_ret; [done|]. destruct r as [i|l'].
    + destruct Hr as [Hc Hi]. split; [done|]. eapply means_ext; [|exact (constant_right (fun sigma => op (P sigma) (Q sigma)) _ i _ Hc Hi)].
      intros sigma _. by rewrite Hfold.
    + destruct Hr as (Ps' & H1 & H2 & _ & H3 & _). exists ((fun sigma => op (P sigma) (Q sigma)) :: Ps').
      split_and!; [apply List.Forall2_cons; [|done]| |done|cbn; lia|cbn; lia].
      * apply (means_stable _ _ _ (nodes s1.1)); [apply Hs1|apply Hs2|done|done].
      * intros sigma. rewrite Hfold, <- H2. done.
Qed.

(** The combination of a list of operands; none is left of an empty list. *)
Definition combined (Ps : list (Valuation -> bool)) (o : option NodeId) (table : list Node) : Prop :=
  match o with
  | None => Ps = []
  | Some i => Ps <> [] /\ means environment (folded_value Ps) i table
  end.

Lemma combine_all_runs fuel l Ps s :
  (length l <= S fuel)%nat -> state_ok L s -> all_mean l Ps (nodes s.1) ->
  runs L (combine_all fuel apply constant l) s (combined Ps).
Proof.
  revert l Ps s. induction fuel as [|fuel IH]; intros l Ps s Hf Hs Hl.
  all: destruct l as [|x [|y l]];
    [apply Forall2_nil_inv_l in Hl as ->; by apply runs_ret
    |apply Forall2_cons_inv_l in Hl as (P & Ps0 & Hx & ->%Forall2_nil_inv_l & ->); apply runs_ret; [done|]; split; [done|];
     eapply means_ext; [|exact Hx]; intros sigma _; unfold folded_value, folded; cbn; by rewrite Hunit
    |].
  - cbn in Hf. lia.
  - cbn [combine_all]. assert (Hne : Ps <> []) by by inversion Hl.
    eapply runs_bind; [by apply combine_pairs_runs|]. intros [i|l'] s1 Hs1 Hp1 Hr.
    { apply runs_ret; [done|]. by destruct Hr. }
    destruct Hr as (Ps' & H1 & H2 & H3 & _ & H4).
    eapply runs_weaken; [apply IH; [cbn in Hf, H4; lia|done|done]|]. intros o table _ _ Ho. destruct o as [i|]; cbn in *.
    + destruct Ho as [_ Ho]. split; [done|]. eapply means_ext; [|exact Ho]. by intros sigma _.
    + subst Ps'. apply Forall2_nil_inv_r in H1. by destruct H3.
Qed.
End Combine.

(** ** Simulation *)

Definition result_rel {A B : Type} (R : list Node -> A -> B -> Prop) (table : list Node)
    (r1 : result A Pep508Error) (r2 : result B Pep508Error) : Prop :=
  match r1, r2 with
  | Ok a, Ok b => R table a b
  | Err e1, Err e2 => e1 = e2
  | _, _ => False
  end.

(** If the parser of syntax returns, its log grows; if all the expressions it logged are right, the
    parser of trees returns the same way, with results that are related. *)
Definition simulates {A B : Type} (R : list Node -> A -> B -> Prop) (p1 : TreeParser (C := C) A)
    (p2 : TreeParser (C := Log) B) (s : ParserState) (st : Interner * C) (log : Log) : Prop :=
  forall t r2 s2 t' log2, p2 s (t, log) = Some ((r2, s2), (t', log2)) ->
    log `prefix_of` log2 /\
    (Forall expression_ok log2 -> runs L (p1 s) st (fun x table => x.2 = s2 /\ result_rel R table x.1 r2)).

Lemma simulates_ret {A B : Type} (R : list Node -> A -> B -> Prop) a b s st log :
  state_ok L st -> R (nodes st.1) a b -> simulates R (tree_ret a) (tree_ret b) s st log.
Proof. intros Hst HR t r2 s2 t' log2 [= <- <- _ <-]. split; [done|]. intros _. by apply runs_ret. Qed.

Lemma simulates_bind {A1 A2 B1 B2 : Type} (R : list Node -> A1 -> A2 -> Prop) (R' : list Node -> B1 -> B2 -> Prop)
    p1 p2 (k1 : A1 -> TreeParser B1) (k2 : A2 -> TreeParser B2) s st log :
  simulates R p1 p2 s st log ->
  (forall a b s' st' log', state_ok L st' -> nodes st.1 `prefix_of` nodes st'.1 -> R (nodes st'.1) a b ->
     simulates R' (k1 a) (k2 b) s' st' log') ->
  (forall b s' t log' r2 s2 t' log2, k2 b s' (t, log') = Some ((r2, s2), (t', log2)) -> log' `prefix_of` log2) ->
  simulates R' (tree_bind p1 k1) (tree_bind p2 k2) s st log.
Proof.
  intros Hp Hk Hgrow t r2 s2 t' log2 E. unfold tree_bind, bind in E.
  destruct (p2 s (t, log)) as [[[r s1] [t1 log1]]|] eqn:E2; [|done]. cbn [mbind option_bind] in E.
  destruct (Hp _ _ _ _ _ E2) as [Hl1 Hrun]. destruct r as [b|e].
  - pose proof (Hgrow _ _ _ _ _ _ _ _ E) as Hl2. split; [by transitivity log1|]. intros Hall.
    assert (Hall1 : Forall expression_ok log1).
    { destruct Hl2 as [more ->]. by apply Forall_app in Hall as [? _]. }
    unfold tree_bind. eapply runs_bind; [by apply Hrun|]. intros [r1 s1'] st' Hst' Hpre [Hs1 Hr]. cbn in Hs1, Hr. subst s1'.
    destruct r1 as [a|e]; [|done]. destruct (Hk a b s1 st' log1 Hst' Hpre Hr _ _ _ _ _ E) as [_ Hrun']. by apply Hrun'.
  - injection E as <- <- <- <-. split; [done|]. intros Hall. unfold tree_bind. eapply runs_bind; [by apply Hrun|].
    intros [r1 s1'] st' Hst' Hpre [Hs1 Hr]. cbn in Hs1, Hr. subst s1'. destruct r1 as [a|e']; [done|]. by apply runs_ret.
Qed.

(** Both parsers read. *)
Lemma simulates_reading {A : Type} (p : Reader A) s st log :
  state_ok L st -> simulates (fun _ => eq) (reading p) (reading p) s st log.
Proof.
  intros Hst t r2 s2 t' log2 E. unfold reading, lift_option in E. destruct (p s) as [[r s1]|] eqn:Ep; [|done].
  cbn in E. injection E as <- <- _ <-. split; [done|]. intros _. exists (r, s1), st. unfold reading, lift_option. rewrite Ep.
  split_and!; [done|done|done|done|]. by destruct r.
Qed.

Lemma simulates_building {A B : Type} (R : list Node -> A -> B -> Prop) (m1 : M C A) (m2 : M Log B) b s st log :
  (forall s, m2 s = Some (b, s)) -> runs L m1 st (fun a table => R table a b) ->
  simulates R (building m1) (building m2) s st log.
Proof.
  intros E2 Hm t r2 s2 t' log2 E. unfold building, bind in E. rewrite E2 in E. cbn in E. injection E as <- <- _ <-.
  split; [done|]. intros _. unfold building. eapply runs_bind; [exact Hm|]. intros a st' Hst' _ HR. by apply runs_ret.
Qed.

(** A log that grows. *)
Definition grows {B : Type} (p : TreeParser (C := Log) B) : Prop :=
  forall s t log r2 s2 t' log2, p s (t, log) = Some ((r2, s2), (t', log2)) -> log `prefix_of` log2.

Lemma grows_ret {B : Type} (b : B) : grows (tree_ret b).
Proof. by intros s t log r2 s2 t' log2 [= _ _ _ <-]. Qed.

Lemma grows_bind {A B : Type} (p : TreeParser A) (k : A -> TreeParser B) :
  grows p -> (forall a, grows (k a)) -> grows (tree_bind p k).
Proof.
  intros Hp Hk s t log r2 s2 t' log2 E. unfold tree_bind, bind in E.
  destruct (p s (t, log)) as [[[r s1] [t1 log1]]|] eqn:E2; [|done]. cbn [mbind option_bind] in E. apply Hp in E2.
  destruct r as [a|e]; [|by injection E as _ _ _ <-]. transitivity log1; [done|]. by apply Hk in E.
Qed.

Lemma grows_reading {A : Type} (p : Reader A) : grows (reading p).
Proof.
  intros s t log r2 s2 t' log2 E. unfold reading, lift_option in E. destruct (p s) as [[r s1]|]; [|done].
  cbn in E. by injection E as _ _ _ <-.
Qed.

Lemma grows_building {A : Type} (m : M Log A) a : (forall st, m st = Some (a, st)) -> grows (building m).
Proof.
  intros Hm s t log r2 s2 t' log2 E. unfold building, bind in E. rewrite Hm in E. cbn in E. by injection E as _ _ _ <-.
Qed.

Lemma parse_operands_grows fuel op (inner : TreeParser (C := Log) (option Syntax)) l :
  grows inner -> grows (parse_operands fuel op inner l).
Proof.
  intros Hin. revert l. induction fuel as [|fuel IH]; intros l; [done|]. cbn [parse_operands].
  apply grows_bind; [apply grows_reading|intros _]. apply grows_bind; [done|intros o].
  apply grows_bind; [apply grows_reading|intros []]; [apply IH|apply grows_ret].
Qed.

Lemma combine_grows f l : grows (building (combine_all (length l) (fun a b : Syntax => ret (f a b)) (fun _ => false) l)).
Proof. destruct (combine_all_pure f (length l) l) as (o & Ho & _); [lia|]. by eapply grows_building. Qed.

(** The part of [parse_marker_op] after the first operand. *)
Lemma more_operands_grow op f (inner : TreeParser (C := Log) (option Syntax)) first (more : bool) :
  grows inner ->
  grows (if more then
    tree_bind (reading (cursor_read (fun c => length (cursor_chars c)))) (fun chars_left =>
      tree_bind (parse_operands (S chars_left) op inner (option_list first)) (fun expressions =>
        building (combine_all (length expressions) (fun a b => ret (f a b)) (fun _ => false) expressions)))
    else tree_ret first).
Proof.
  intros Hin. destruct more; [|apply grows_ret]. apply grows_bind; [apply grows_reading|intros n].
  apply grows_bind; [by apply parse_operands_grows|intros l; apply combine_grows].
Qed.

Lemma parse_marker_op_grows op f (inner : TreeParser (C := Log) (option Syntax)) :
  grows inner -> grows (parse_marker_op op (fun a b => ret (f a b)) (fun _ => false) inner).
Proof.
  intros Hin. apply grows_bind; [done|intros first]. apply grows_bind; [apply grows_reading|intros more].
  by apply more_operands_grow.
Qed.

Lemma expression_grows expr : grows (building (alg_expression syntax_algebra expr)).
Proof. intros s t log r2 s2 t' log2 [= _ _ _ <-]. by eexists. Qed.

Lemma parse_marker_expr_grows (parse_or : TreeParser (C := Log) (option Syntax)) :
  grows parse_or -> grows (parse_marker_expr syntax_algebra parse_or).
Proof.
  intros Hor. apply grows_bind; [apply grows_reading|intros _]. apply grows_bind; [apply grows_reading|intros [start|]].
  - apply grows_bind; [done|intros marker]. apply grows_bind; [apply grows_reading|intros _; apply grows_ret].
  - apply grows_bind; [apply grows_reading|intros [expr|]]; [|apply grows_ret].
    apply grows_bind; [apply expression_grows|intros tree; apply grows_ret].
Qed.

Lemma parse_marker_or_grows fuel : grows (parse_marker_or syntax_algebra fuel).
Proof.
  induction fuel as [|fuel IH]; [done|]. cbn [parse_marker_or].
  apply (parse_marker_op_grows (bytes "or") SynOr), (parse_marker_op_grows (bytes "and") SynAnd). by apply parse_marker_expr_grows.
Qed.

(** The log of what is built by the combinators grows. *)
Ltac grow :=
  repeat first
    [ assumption | apply grows_ret | apply grows_reading | apply expression_grows | apply combine_grows
    | apply parse_marker_or_grows | apply grows_bind; [|intros ?] | case_match ].

(** ** Trees and their syntax *)

Definition tree_rel (table : list Node) (i : NodeId) (syn : Syntax) : Prop :=
  means environment (fun sigma => syntax_value sigma syn) i table.

Definition trees_rel (table : list Node) (l1 : list NodeId) (l2 : list Syntax) : Prop := Forall2 (tree_rel table) l1 l2.

Definition option_rel (table : list Node) (o1 : option NodeId) (o2 : option Syntax) : Prop :=
  match o1, o2 with
  | Some i, Some syn => tree_rel table i syn
  | None, None => True
  | _, _ => False
  end.

Lemma trees_rel_extend l1 l2 table table' :
  table_ok table -> table_ok table' -> table `prefix_of` table' -> trees_rel table l1 l2 -> trees_rel table' l1 l2.
Proof. intros Hok Hok' Hp Hl. eapply Forall2_impl; [exact Hl|]. intros i syn. by apply means_stable. Qed.

Lemma option_rel_extend o1 o2 table table' :
  table_ok table -> table_ok table' -> table `prefix_of` table' -> option_rel table o1 o2 -> option_rel table' o1 o2.
Proof. intros Hok Hok' Hp. destruct o1, o2; try done. by apply means_stable. Qed.

Lemma option_list_rel o1 o2 table : option_rel table o1 o2 -> trees_rel table (option_list o1) (option_list o2).
Proof. destruct o1, o2; try done; [intros Hr; by apply List.Forall2_cons, List.Forall2_nil|intros _; apply List.Forall2_nil]. Qed.

Section Operator.
Context (inner1 : TreeParser (C := C) (option NodeId)) (inner2 : TreeParser (C := Log) (option Syntax)).
Context (Hinner : forall s st log, state_ok L st -> simulates option_rel inner1 inner2 s st log) (Hgrows : grows inner2).

Lemma parse_operands_simulates fuel op s st log l1 l2 :
  state_ok L st -> trees_rel (nodes st.1) l1 l2 ->
  simulates trees_rel (parse_operands fuel op inner1 l1) (parse_operands fuel op inner2 l2) s st log.
Proof.
  revert s st log l1 l2. induction fuel as [|fuel IH]; intros s st log l1 l2 Hst Hl; [done|]. cbn [parse_operands].
  eapply simulates_bind; [by apply simulates_reading| |].
  2: { intros _. apply grows_bind; [done|intros o]. apply grows_bind; [apply grows_reading|intros []]; [by apply parse_operands_grows|apply grows_ret]. }
  intros _ _ s1 st1 log1 Hst1 Hp1 _. eapply simulates_bind; [by apply Hinner| |].
  2: { intros o. apply grows_bind; [apply grows_reading|intros []]; [by apply parse_operands_grows|apply grows_ret]. }
  intros o1 o2 s2 st2 log2 Hst2 Hp2 Ho.
  assert (Hl2 : trees_rel (nodes st2.1) (l1 ++ option_list o1) (l2 ++ option_list o2)).
  { apply Forall2_app; [|by apply option_list_rel].
    apply (trees_rel_extend _ _ (nodes st.1)); [apply Hst|apply Hst2|by transitivity (nodes st1.1)|done]. }
  eapply simulates_bind; [by apply simulates_reading| |intros []; [by apply parse_operands_grows|apply grows_ret]].
  intros more _ s3 st3 log3 Hst3 Hp3 <-.
  assert (Hl3 : trees_rel (nodes st3.1) (l1 ++ option_list o1) (l2 ++ option_list o2)).
  { apply (trees_rel_extend _ _ (nodes st2.1)); [apply Hst2|apply Hst3|done|done]. }
  destruct more; [by apply IH|by apply simulates_ret].
Qed.

Context (bop : bool -> bool -> bool) (unit absorbing : bool) (f : Syntax -> Syntax -> Syntax).
Context (Hvalue : forall sigma a b, syntax_value sigma (f a b) = bop (syntax_value sigma a) (syntax_value sigma b)).
Context (Hassoc : forall a b c, bop a (bop b c) = bop (bop a b) c) (Hunit : forall a, bop a unit = a).
Context (Habs : forall a, bop absorbing a = absorbing) (Habs' : forall a, bop a absorbing = absorbing).
Context (apply : NodeId -> NodeId -> M C NodeId) (constant : NodeId -> bool).
Context (Happly : forall P Q i j s, state_ok L s -> means environment P i (nodes s.1) -> means environment Q j (nodes s.1) ->
  runs L (apply i j) s (means environment (fun sigma => bop (P sigma) (Q sigma)))).
Context (Hconstant : forall table sigma i, constant i = true -> eval table sigma i = absorbing).

Lemma combine_simulates s st log l1 l2 :
  state_ok L st -> trees_rel (nodes st.1) l1 l2 ->
  simulates option_rel (building (combine_all (length l1) apply constant l1))
    (building (combine_all (length l2) (fun a b => ret (f a b)) (fun _ => false) l2)) s st log.
Proof.
  intros Hst Hl. destruct (combine_all_pure f (length l2) l2) as (o2 & E2 & H2); [lia|].
  eapply simulates_building; [exact E2|].
  assert (Hps : Forall2 (fun i P => means environment P i (nodes st.1)) l1 ((fun syn sigma => syntax_value sigma syn) <$> l2)).
  { apply Forall2_fmap_r. exact Hl. }
  eapply runs_weaken; [by apply (combine_all_runs bop unit absorbing Hassoc Hunit Habs Habs' apply constant Happly Hconstant
    (length l1) l1 ((fun syn sigma => syntax_value sigma syn) <$> l2)); [lia|..]|].
  intros o1 table _ _ Ho. destruct o1 as [i|], o2 as [syn|]; cbn in *.
  - destruct H2 as [_ H2], Ho as [_ Ho]. eapply means_ext; [|exact Ho]. intros sigma _. unfold folded_value, folded.
    rewrite (H2 (syntax_value sigma) bop unit) by by split. by rewrite <- list_fmap_compose.
  - subst l2. by destruct Ho.
  - apply fmap_nil_inv in Ho. by destruct H2.
  - done.
Qed.

Lemma parse_marker_op_simulates op s st log :
  state_ok L st ->
  simulates option_rel (parse_marker_op op apply constant inner1)
    (parse_marker_op op (fun a b => ret (f a b)) (fun _ => false) inner2) s st log.
Proof.
  intros Hst. unfold parse_marker_op. eapply simulates_bind; [by apply Hinner| |].
  2: { intros first. apply grows_bind; [apply grows_reading|intros more]. by apply more_operands_grow. }
  intros o1 o2 s1 st1 log1 Hst1 Hp1 Ho. eapply simulates_bind; [by apply simulates_reading| |].
  2: { intros more. by apply more_operands_grow. }
  intros more _ s2 st2 log2 Hst2 Hp2 <-.
  assert (Ho2 : option_rel (nodes st2.1) o1 o2) by (apply (option_rel_extend _ _ (nodes st1.1)); [apply Hst1|apply Hst2|done|done]).
  destruct more; [|by apply simulates_ret]. eapply simulates_bind; [by apply simulates_reading| |].
  2: { intros n. apply grows_bind; [by apply parse_operands_grows|intros l; apply combine_grows]. }
  intros n _ s3 st3 log3 Hst3 Hp3 <-. eapply simulates_bind.
  - apply parse_operands_simulates; [done|]. apply option_list_rel.
    apply (option_rel_extend _ _ (nodes st2.1)); [apply Hst2|apply Hst3|done|done].
  - intros l1 l2 s4 st4 log4 Hst4 Hp4 Hl. by apply combine_simulates.
  - intros l. apply combine_grows.
Qed.
End Operator.

(** ** The grammar *)

Lemma tree_and_means P Q xi yi s :
  state_ok L s -> means environment P xi (nodes s.1) -> means environment Q yi (nodes s.1) ->
  runs L (tree_and xi yi) s (means environment (fun sigma => P sigma && Q sigma)).
Proof.
  intros Hs [Hvx Hx] [Hvy Hy]. eapply runs_weaken; [by apply tree_and_runs|].
  intros r table Hok Hp (_ & _ & [H1 H2 _]). split; [done|]. intros sigma Hsig. rewrite (H2 _ (environment_allowed _ Hsig)).
  pose proof (ok_table _ (proj1 Hs)). by rewrite !(eval_extend (nodes s.1) table), (Hx _ Hsig), (Hy _ Hsig).
Qed.

Lemma tree_or_means P Q xi yi s :
  state_ok L s -> means environment P xi (nodes s.1) -> means environment Q yi (nodes s.1) ->
  runs L (tree_or xi yi) s (means environment (fun sigma => P sigma || Q sigma)).
Proof.
  intros Hs [Hvx Hx] [Hvy Hy]. eapply runs_weaken; [by apply tree_or_runs|].
  intros r table Hok Hp [H1 H2 _]. split; [done|]. intros sigma Hsig. rewrite (H2 _ (environment_allowed _ Hsig)).
  pose proof (ok_table _ (proj1 Hs)). by rewrite !(eval_extend (nodes s.1) table), (Hx _ Hsig), (Hy _ Hsig).
Qed.

Lemma eval_is_true table sigma i : node_is_true i = true -> eval table sigma i = true.
Proof. intros Hi. assert (i = NODE_TRUE) as -> by by apply Z.eqb_eq. done. Qed.

Lemma eval_is_false table sigma i : node_is_false i = true -> eval table sigma i = false.
Proof. intros Hi. assert (i = NODE_FALSE) as -> by by apply Z.eqb_eq. done. Qed.

Lemma parse_marker_expr_simulates parse_or1 parse_or2 s st log :
  (forall s st log, state_ok L st -> simulates option_rel parse_or1 parse_or2 s st log) -> grows parse_or2 ->
  state_ok L st ->
  simulates option_rel (parse_marker_expr marker_algebra parse_or1) (parse_marker_expr syntax_algebra parse_or2) s st log.
Proof.
  intros Hor Hgrow Hst. unfold parse_marker_expr.
  eapply simulates_bind; [by apply simulates_reading| |intros _; grow]. intros _ _ s1 st1 log1 Hst1 _ _.
  eapply simulates_bind; [by apply simulates_reading| |intros ?; grow]. intros start _ s2 st2 log2 Hst2 _ <-.
  destruct start as [start|].
  - eapply simulates_bind; [by apply Hor| |intros ?; grow]. intros o1 o2 s3 st3 log3 Hst3 _ Ho.
    eapply simulates_bind; [by apply simulates_reading| |intros ?; grow]. intros _ _ s4 st4 log4 Hst4 Hp4 _.
    apply simulates_ret; [done|]. apply (option_rel_extend _ _ (nodes st3.1)); [apply Hst3|apply Hst4|done|done].
  - eapply simulates_bind; [by apply simulates_reading| |intros ?; grow]. intros o _ s3 st3 log3 Hst3 _ <-.
    destruct o as [expr|]; [|by apply simulates_ret].
    intros t r2 s4 t' log4 [= <- <- _ <-]. split; [by eexists|]. intros Hall.
    apply Forall_app in Hall as [_ Hall]. apply Forall_inv in Hall. unfold tree_bind, building.
    eapply (runs_bind L _ _ _ (fun x table => exists i, x = (Ok i, s3) /\
      means environment (fun sigma => expression_value sigma expr) i table)).
    + eapply runs_bind; [by apply expression_runs|]. intros i st4 Hst4 _ Hi. apply runs_ret; [done|]. by exists i.
    + intros x st4 Hst4 _ (i & -> & Hi). by apply runs_ret.
Qed.

Lemma parse_marker_and_simulates parse_or1 parse_or2 s st log :
  (forall s st log, state_ok L st -> simulates option_rel parse_or1 parse_or2 s st log) -> grows parse_or2 ->
  state_ok L st ->
  simulates option_rel (parse_marker_and marker_algebra parse_or1) (parse_marker_and syntax_algebra parse_or2) s st log.
Proof.
  intros Hor Hgrow. eapply (parse_marker_op_simulates _ _ _ _ andb true false SynAnd); try done.
  - by intros [] [] [].
  - by intros [].
  - by intros [].
  - by apply tree_and_means.
  - apply eval_is_false.
  Unshelve. + intros. by apply parse_marker_expr_simulates. + by apply parse_marker_expr_grows.
Qed.

Lemma parse_marker_or_simulates fuel s st log :
  state_ok L st -> simulates option_rel (parse_marker_or marker_algebra fuel) (parse_marker_or syntax_algebra fuel) s st log.
Proof.
  revert s st log. induction fuel as [|fuel IH]; intros s st log Hst; [done|]. cbn [parse_marker_or].
  assert (Hor : grows (parse_marker_or syntax_algebra fuel)) by apply parse_marker_or_grows.
  eapply (parse_marker_op_simulates _ _ _ _ orb false true SynOr); try done.
  - by intros [] [] [].
  - by intros [].
  - by intros [].
  - by apply tree_or_means.
  - apply eval_is_true.
  Unshelve.
  + intros. by apply parse_marker_and_simulates.
  + apply (parse_marker_op_grows (bytes "and") SynAnd). by apply parse_marker_expr_grows.
Qed.

Lemma parse_markers_cursor_simulates s st log :
  state_ok L st -> simulates option_rel (parse_markers_cursor marker_algebra) (parse_markers_cursor syntax_algebra) s st log.
Proof.
  intros Hst. unfold parse_markers_cursor.
  eapply simulates_bind; [by apply simulates_reading| |intros ?; grow]. intros n _ s1 st1 log1 Hst1 _ <-.
  eapply simulates_bind; [by apply parse_marker_or_simulates| |intros ?; grow]. intros o1 o2 s2 st2 log2 Hst2 _ Ho.
  eapply simulates_bind; [by apply simulates_reading| |intros ?; grow]. intros _ _ s3 st3 log3 Hst3 Hp3 _.
  eapply simulates_bind; [by apply simulates_reading| |intros ?; grow]. intros next _ s4 st4 log4 Hst4 Hp4 <-.
  destruct next as [[pos c]|].
  - eapply simulates_bind; [by apply simulates_reading| |intros ?; grow]. intros len _ s5 st5 log5 Hst5 _ <-.
    intros t r2 s6 t' log6 [= <- <- _ <-]. split; [done|]. intros _. by apply runs_ret.
  - apply simulates_ret; [done|].
    apply (option_rel_extend _ _ (nodes st2.1)); [apply Hst2|apply Hst4|by transitivity (nodes st3.1)|done].
Qed.

(** The meaning of a text: of the ignored expressions alone it is true. *)
Definition text_value (sigma : Valuation) (o : option Syntax) : bool :=
  match o with Some syn => syntax_value sigma syn | None => true end.

Lemma parse_markers_cursor_runs markers r s log st :
  parse_syntax markers = Some (r, s, log) -> Forall expression_ok log -> state_ok L st ->
  runs L (parse_markers_cursor marker_algebra (mkParserState (cursor_new markers) [])) st (fun x table =>
    x.2 = s /\
    match x.1, r with
    | Ok tree, Ok o => means environment (fun sigma => text_value sigma o) (default NODE_TRUE tree) table
    | Err e1, Err e2 => e1 = e2
    | _, _ => False
    end).
Proof.
  intros Es Hall Hst. unfold parse_syntax in Es.
  destruct (parse_markers_cursor syntax_algebra _ _) as [[[r2 s2] [t' log2]]|] eqn:E; [|done]. cbn in Es. injection Es as <- <- <-.
  destruct (parse_markers_cursor_simulates _ st _ Hst _ _ _ _ _ E) as [_ Hrun].
  eapply runs_weaken; [by apply Hrun|]. intros [r1 s1] table _ _ [Hs1 Hr]. cbn in Hs1, Hr |- *. split; [done|].
  destruct r1 as [o1|e1], r2 as [o2|e2]; try done. destruct o1, o2; try done. apply (means_terminal _ true).
Qed.

Lemma parse_markers_runs markers r s log st :
  parse_syntax markers = Some (r, s, log) -> Forall expression_ok log -> state_ok L st ->
  runs L (parse_markers markers) st (fun x table =>
    x.2 = parser_reports s /\
    match x.1, r with
    | Ok tree, Ok o => means environment (fun sigma => text_value sigma o) tree table
    | Err e1, Err e2 => e1 = e2
    | _, _ => False
    end).
Proof.
  intros Es Hall Hst. unfold parse_markers. eapply runs_bind; [by eapply parse_markers_cursor_runs|].
  intros [r1 s1] st1 Hst1 _ [Hs Hr]. cbn [fst snd] in Hs, Hr. subst s1. destruct r1, r; try done; by apply runs_ret.
Qed.
End Meaning.
