(* ===== verification/MarkerGrammar.v ===== *)
(** * Markers: the grammar of PEP 508

    The texts of markers, with white space and parentheses, and what they denote: [and] binds more
    tightly than [or], and expressions that are ignored are left out. Every such text is parsed, to
    a syntax of the same value. *)

From stdpp Require Import base list option numbers decidable strings.
From Stdlib Require Import ZArith Lia.
From S2P Require Import Prelude Text Ranges VersionTypes VersionSmall Version VersionOrder VersionParser.
From S2P Require Import VersionSpecifier SpecifierParser Cursor MarkerTypes Interner.
From S2P Require Import MarkerAlgebra MarkerRestrict MarkerTree MarkerEval InternerFacts ExclusionFacts.
From S2P Require Import ExpressionFacts MarkerApi MarkerParser MarkerParserFacts MarkerSyntax MarkerMeaning.

Local Open Scope Z_scope.
Local Open Scope uv_scope.

(** ** Texts *)

Definition spaces (ws : list Z) : Prop := Forall (fun c => is_whitespace c = true) ws.

(** The text is empty, or its first character does not continue a word of these characters. *)
Definition ends_word (p : Z -> bool) (rest : list Z) : Prop :=
  match rest with [] => True | c :: _ => p c = false end.

Inductive value_text : list Z -> MarkerValue -> Prop :=
  | text_quoted q s : is_quote q = true -> Forall (fun c => (c =? q) = false) s ->
      value_text (q :: s ++ [q]) (QuotedString s)
  | text_named name value : marker_value_from_str name = Some value -> value_text name value.

(** The operator, before the text that follows it. *)
Inductive operator_text (rest : list Z) : list Z -> MarkerOperator -> Prop :=
  | text_symbol t op : t <> [] -> Forall (fun c => is_operator_char c = true) t ->
      marker_operator_from_str t = Some op -> ends_word is_operator_char rest -> operator_text rest t op
  | text_in : ends_word is_operator_word rest -> operator_text rest (bytes "in") MIn
  | text_not_in ws : spaces ws -> ws <> [] -> operator_text rest (bytes "not" ++ ws ++ bytes "in") MNotIn.

(** A value, an operator and a value. *)
Inductive atom_text : list Z -> option MarkerExpression -> Prop :=
  | text_atom l lv ws o op ws' r rv e reports :
      value_text l lv -> spaces ws -> ends_word is_key_char (ws ++ o) ->
      operator_text (ws' ++ r) o op -> spaces ws' -> value_text r rv ->
      marker_expression lv op rv = Ok (Some (e, reports)) ->
      atom_text (l ++ ws ++ o ++ ws' ++ r) e.

(** What a text denotes; [None] when all its expressions are ignored. *)
Definition Denotation : Type := option (Valuation -> bool).

Definition expression_denotation (e : option MarkerExpression) : Denotation :=
  (fun expr sigma => expression_value sigma expr) <$> e.

Definition fold_denotations (op : bool -> bool -> bool) (unit : bool) (ds : list Denotation) : Denotation :=
  match omap id ds with
  | [] => None
  | Ps => Some (fun sigma => foldr op unit ((fun P => P sigma) <$> Ps))
  end.

Section Grammar.
Notation Log := (list MarkerExpression).

(** Operands, separated by an operator between white space or parentheses. *)
Inductive operands_text (item : list Z -> Denotation -> Log -> Prop) (op : list Z) :
    list Z -> list Denotation -> Log -> Prop :=
  | text_one t d es : item t d es -> operands_text item op t [d] es
  | text_more t d es ws t' ds es' :
      item t d es -> spaces ws -> ws <> [] -> ends_word is_word_char t' -> t' <> [] ->
      operands_text item op t' ds es' -> operands_text item op (t ++ ws ++ op ++ t') (d :: ds) (es ++ es').

(** An expression, or a marker in parentheses. *)
Inductive expr_text (marker : list Z -> Denotation -> Log -> Prop) : list Z -> Denotation -> Log -> Prop :=
  | text_expression ws t e : spaces ws -> atom_text t e ->
      expr_text marker (ws ++ t) (expression_denotation e) (option_list e)
  | text_parentheses ws t ws' d es : spaces ws -> marker t d es -> spaces ws' ->
      expr_text marker (ws ++ bytes "(" ++ t ++ ws' ++ bytes ")") d es.

Definition and_text (marker : list Z -> Denotation -> Log -> Prop) (t : list Z) (d : Denotation) (es : Log) : Prop :=
  exists ds, operands_text (expr_text marker) (bytes "and") t ds es /\ d = fold_denotations andb true ds.

Definition or_text (marker : list Z -> Denotation -> Log -> Prop) (t : list Z) (d : Denotation) (es : Log) : Prop :=
  exists ds, operands_text (and_text marker) (bytes "or") t ds es /\ d = fold_denotations orb false ds.

(** Markers with a bound on the depth of the parentheses. *)
Fixpoint marker_text (depth : nat) : list Z -> Denotation -> Log -> Prop :=
  match depth with
  | O => fun _ _ _ => False
  | S depth => or_text (marker_text depth)
  end.

(** ** Words *)

Lemma take_word p (w rest : list Z) :
  Forall (fun c => p c = true) w -> ends_word p rest -> take_while p (w ++ rest) = w.
Proof.
  induction 1 as [|c w Hc Hw IH]; cbn; [destruct rest as [|c rest]; cbn; [done|by intros ->]|]. intros Hr. by rewrite Hc, IH.
Qed.

Lemma skip_while_app p (w rest : list Z) :
  Forall (fun c => p c = true) w -> ends_word p rest -> skip_while p (w ++ rest) = rest.
Proof.
  induction 1 as [|c w Hc Hw IH]; cbn; [destruct rest as [|c rest]; cbn; [done|by intros ->]|]. intros Hr. by rewrite Hc, IH.
Qed.

Lemma skip_spaces ws rest : spaces ws -> skip_while is_whitespace (ws ++ rest) = skip_while is_whitespace rest.
Proof. induction 1 as [|c ws Hc Hws IH]; [done|]. cbn. by rewrite Hc. Qed.

Lemma ends_word_app p (t rest : list Z) : t <> [] -> ends_word p t -> ends_word p (t ++ rest).
Proof. by destruct t. Qed.

(** ** Parsers that succeed *)

(** The parser returns [a] and leaves [rest]. *)
Definition parses {A : Type} (p : Reader A) (s : ParserState) (a : A) (rest : list Z) : Prop :=
  exists s', p s = Some (Ok a, s') /\ advances s s' /\ chars_of s' = rest.

Lemma parses_bind {A B : Type} (p : Reader A) (k : A -> Reader B) s a mid b rest :
  parser_ok s -> parses p s a mid ->
  (forall s', parser_ok s' -> advances s s' -> chars_of s' = mid -> parses (k a) s' b rest) ->
  parses (parser_bind p k) s b rest.
Proof.
  intros Hs (s' & E & Ha & Hc) Hk. destruct (Hk s' (advances_ok _ _ Ha Hs) Ha Hc) as (s'' & E' & Ha' & Hc').
  exists s''. split_and!; [by rewrite (bind_ok _ _ _ _ _ E)|by eapply advances_trans|done].
Qed.

Lemma parses_ret {A : Type} (a : A) s : parses (parser_ret a) s a (chars_of s).
Proof. exists s. split_and!; [done|apply advances_refl|done]. Qed.

Lemma parses_moved {A : Type} (m m' : Reader A) s s' a rest :
  m s = m' s' -> advances s s' -> parses m' s' a rest -> parses m s a rest.
Proof. intros E Ha (s'' & E' & Ha' & Hc). exists s''. split_and!; [congruence|by eapply advances_trans|done]. Qed.

Lemma parses_spaces s ws rest :
  chars_of s = ws ++ rest -> spaces ws -> ends_word is_whitespace rest -> parses eat_spaces s tt rest.
Proof.
  intros E Hws Hr. eexists. split; [apply eat_spaces_eq|]. split; [apply moved_while|]. cbn. by rewrite E, skip_while_app.
Qed.

Lemma parses_expect s c rest start : chars_of s = c :: rest -> parses (expect_char c start) s tt rest.
Proof.
  intros E. unfold parses. rewrite expect_char_eq, E, Z.eqb_refl. eexists. split; [done|]. split; [by apply advances_moved|done].
Qed.

(** ** Values and operators *)

Section Parsing.
Context `{!Alphabetic, !AlphabeticLaws}.

(** A name has the characters of a key, and does not start with a quote. *)
Lemma names_key_chars name value :
  marker_value_from_str name = Some value ->
  Forall (fun c => is_key_char c = true) name /\ exists c rest, name = c :: rest /\ is_quote c = false /\ (c =? 40) = false.
Proof.
  unfold marker_value_from_str. intros E. apply fmap_Some in E as ([name' value'] & E & ->).
  apply find_some in E as [E <-%bool_decide_eq_true]. cbn [fst].
  assert (Hb : forallb (fun entry => forallb is_key_char entry.1 &&
    match entry.1 with [] => false | c :: _ => negb (is_quote c) && negb (c =? 40) end) marker_value_names = true) by by vm_compute.
  rewrite forallb_forall in Hb. specialize (Hb _ E). cbn [fst] in Hb. apply andb_true_iff in Hb as [H1 H2].
  split; [by apply Forall_forall; intros c Hc; rewrite forallb_forall in H1; apply H1, list_elem_of_In|].
  destruct name' as [|c rest]; [done|]. exists c, rest. apply andb_true_iff in H2 as [H2%negb_true_iff H3%negb_true_iff]. done.
Qed.

Lemma parses_value s t value rest :
  parser_ok s -> chars_of s = t ++ rest -> value_text t value -> ends_word is_key_char rest ->
  parses parse_marker_value s value rest.
Proof.
  intros Hs E Ht Hr. unfold parse_marker_value. destruct Ht as [q text Hq Htext|name value Hname].
  - cbn in E. rewrite <- app_assoc in E. eapply parses_moved; [by apply cursor_read_eq|apply advances_refl|].
    unfold cursor_peek. rewrite E, Hq.
    eapply (parses_bind _ _ _ (Some (pos_of s, q)) (text ++ q :: rest)); [done| |].
    { unfold parses. rewrite next_eq, E. eexists. split_and!; [done|by apply advances_moved|done]. }
    intros s1 Hs1 _ E1. eapply parses_moved; [apply (take_slice_eq _ (fun span value => _)); apply Hs1|apply moved_while|].
    assert (Hw : Forall (fun c => negb (c =? q) = true) text) by (eapply Forall_impl; [exact Htext|]; by intros c ->).
    assert (Hend : ends_word (fun c => negb (c =? q)) (q :: rest)) by (cbn; by rewrite Z.eqb_refl).
    cbv zeta. rewrite E1, take_word, skip_while_app by done.
    eapply parses_bind; [eapply advances_ok; [by apply advances_moved|done]|by apply parses_expect|].
    intros s3 _ _ <-. apply parses_ret.
  - destruct (names_key_chars _ _ Hname) as (Hkey & c & name' & -> & Hq & _). cbn in E.
    eapply parses_moved; [by apply cursor_read_eq|apply advances_refl|]. unfold cursor_peek. rewrite E, Hq.
    eapply parses_moved; [apply (take_slice_eq _ (fun span key => _)); apply Hs|apply moved_while|].
    cbv zeta. rewrite E. change (c :: name' ++ rest) with ((c :: name') ++ rest).
    rewrite take_word, skip_while_app by done. rewrite Hname.
    eapply parses_bind; [eapply advances_ok; [by apply advances_moved|done]|eexists; split_and!; [done|apply advances_reported|done]|].
    intros s3 _ _ E3. cbn in E3. rewrite <- E3. apply parses_ret.
Qed.

(** The first character of the text decides how the operator is read. *)
Lemma symbol_not_alphabetic c : is_operator_char c = true -> is_alphabetic c = false.
Proof.
  unfold is_operator_char. intros Hc. repeat (apply orb_true_iff in Hc as [Hc|Hc]); apply Z.eqb_eq in Hc as ->;
    (rewrite is_alphabetic_ascii; [done|unfold is_ascii; lia]).
Qed.

Lemma letter_alphabetic c : is_ascii c -> is_ascii_alphabetic c = true -> is_alphabetic c = true.
Proof. intros Hc <-. by apply is_alphabetic_ascii. Qed.

Lemma parses_operator s t op rest :
  parser_ok s -> chars_of s = t ++ rest -> operator_text rest t op -> parses parse_marker_operator s op rest.
Proof.
  intros Hs E Ht. unfold parse_marker_operator. eapply parses_moved; [by apply cursor_read_eq|apply advances_refl|].
  unfold cursor_peek_char. rewrite E. destruct Ht as [t op Hne Ht Hop Hr|Hr|ws Hws Hne].
  - destruct t as [|c t]; [done|]. cbn [app head]. rewrite symbol_not_alphabetic by exact (Forall_inv Ht).
    eapply parses_moved; [apply (take_slice_eq _ (fun span operator => _)); apply Hs|apply moved_while|].
    cbv zeta. rewrite E, take_word, skip_while_app by done.
    rewrite bool_decide_eq_false_2; [rewrite Hop; apply parses_ret|].
    intros Eq. rewrite Eq in Ht. by apply Forall_inv in Ht.
  - cbn [app head bytes]. rewrite letter_alphabetic by (unfold is_ascii; cbn; lia || done).
    eapply parses_moved; [apply (take_slice_eq _ (fun span operator => _)); apply Hs|apply moved_while|].
    cbv zeta. rewrite E, take_word, skip_while_app by (done || by repeat constructor). apply parses_ret.
  - cbn [app head bytes]. rewrite letter_alphabetic by (unfold is_ascii; cbn; lia || done).
    eapply parses_moved; [apply (take_slice_eq _ (fun span operator => _)); apply Hs|apply moved_while|].
    destruct ws as [|c ws]; [done|]. pose proof (Forall_inv Hws) as Hc. apply Forall_inv_tail in Hws.
    assert (Hend : ends_word is_operator_word ((c :: ws) ++ bytes "in" ++ rest)) by (cbn; unfold is_operator_word; by rewrite Hc).
    cbv zeta. rewrite E, <- !app_assoc, take_word, skip_while_app by (done || by repeat constructor).
    rewrite bool_decide_eq_true_2 by done. set (s1 := moved _ _ _).
    assert (Hs1 : parser_ok s1) by (eapply advances_ok; [apply advances_moved; by rewrite E, <- !app_assoc|done]).
    eapply (parses_bind _ _ _ (Some (pos_of s1, c)) (ws ++ bytes "in" ++ rest)); [done| |].
    { unfold parses. rewrite next_eq. eexists. split_and!; [done|by apply advances_moved|done]. }
    intros s2 Hs2 _ E2. rewrite Hc. eapply parses_bind; [done|by apply (parses_spaces s2 ws (bytes "in" ++ rest))|]. intros s3 Hs3 _ E3.
    eapply parses_moved; [by apply cursor_read_eq|apply advances_refl|].
    eapply parses_bind; [done|by apply (parses_expect s3 105 (110 :: rest))|]. intros s4 Hs4 _ E4.
    eapply parses_moved; [by apply cursor_read_eq|apply advances_refl|].
    eapply parses_bind; [done|by apply (parses_expect s4 110 rest)|]. intros s5 _ _ <-. apply parses_ret.
Qed.

(** ** Expressions *)

Lemma value_text_start t value : value_text t value -> exists c rest, t = c :: rest /\ is_whitespace c = false /\ (c =? 40) = false.
Proof.
  intros [q s Hq Hs|name v Hname].
  - exists q, (s ++ [q]). split; [done|]. unfold is_quote in Hq. by apply orb_true_iff in Hq as [->%Z.eqb_eq| ->%Z.eqb_eq].
  - destruct (names_key_chars _ _ Hname) as (Hkey & c & rest & -> & _ & Hparen). exists c, rest. split; [done|].
    apply Forall_inv in Hkey. unfold is_key_char in Hkey. by destruct (is_whitespace c).
Qed.

Lemma operator_text_start rest t op : operator_text rest t op -> exists c t', t = c :: t' /\ is_whitespace c = false.
Proof.
  intros [t' op' Hne Ht _ _|_|ws _ _]; [|by do 2 eexists|by do 2 eexists].
  destruct t' as [|c t']; [done|]. exists c, t'. split; [done|]. apply Forall_inv in Ht. unfold is_operator_char in Ht.
  by repeat (apply orb_true_iff in Ht as [Ht|Ht]); apply Z.eqb_eq in Ht as ->.
Qed.

Lemma operator_text_weaken rest rest' t op :
  rest <> [] -> operator_text rest t op -> operator_text (rest ++ rest') t op.
Proof.
  intros Hne [t' op' H1 H2 H3 H4|H1|ws H1 H2].
  - by apply text_symbol; [..|apply ends_word_app].
  - by apply text_in, ends_word_app.
  - by apply text_not_in.
Qed.

Lemma parses_expression s t e rest :
  parser_ok s -> chars_of s = t ++ rest -> atom_text t e -> ends_word is_key_char rest ->
  parses parse_marker_key_op_value s e rest.
Proof.
  intros Hs E Ht Hr. destruct Ht as [l lv ws o op ws' r rv e reports Hl Hws Hend Ho Hws' Hrt He].
  destruct (value_text_start _ _ Hl) as (cl & l' & El & Hcl & _). destruct (operator_text_start _ _ _ Ho) as (co & o' & Eo & Hco).
  destruct (value_text_start _ _ Hrt) as (cr & r' & Er & Hcr & _). rewrite <- !app_assoc in E. unfold parse_marker_key_op_value.
  eapply parses_bind; [done|apply (parses_spaces s []); [exact E|apply Forall_nil_2|by rewrite El; cbn]|]. intros s1 Hs1 _ E1.
  eapply parses_moved; [by apply cursor_read_eq|apply advances_refl|].
  eapply parses_bind; [done|by apply (parses_value s1 l lv); [done|exact E1|done|rewrite app_assoc; apply ends_word_app; [|done]; by rewrite Eo; destruct ws]|].
  intros s2 Hs2 _ E2. eapply parses_bind; [done|eapply parses_spaces; [exact E2|done|by rewrite Eo; cbn]|]. intros s3 Hs3 _ E3.
  eapply parses_bind; [done|apply (parses_operator s3 o op); [done|exact E3|]|].
  { rewrite app_assoc. apply operator_text_weaken; [by rewrite Er; destruct ws'|done]. }
  intros s4 Hs4 _ E4. eapply parses_bind; [done|eapply parses_spaces; [exact E4|done|by rewrite Er; cbn]|]. intros s5 Hs5 _ E5.
  eapply parses_bind; [done|by apply (parses_value s5 r rv)|]. intros s6 Hs6 _ E6.
  eapply parses_moved; [by apply cursor_read_eq|apply advances_refl|]. rewrite He.
  eexists. split; [done|]. split; [apply advances_reported|done].
Qed.
End Parsing.
End Grammar.

(** * Markers: every text of the grammar is parsed

    The parser of syntax reads a text of the grammar to its end, and what it builds has the value
    that the text denotes. *)

Section Complete.
Context `{!Alphabetic, !AlphabeticLaws} {RV : RangeOps Version} {RS : RangeOps (list Z)}.

Notation Log := (list MarkerExpression).
Notation SynParser A := (TreeParser (C := Log) A).

(** The parser returns, logs [es], and its result and the characters left are in [Q]. *)
Definition builds {A : Type} (p : SynParser A) (s : ParserState) (es : Log) (Q : A -> list Z -> Prop) : Prop :=
  forall t log, exists a s', p s (t, log) = Some ((Ok a, s'), (t, log ++ es)) /\ advances s s' /\ Q a (chars_of s').

Lemma builds_ret {A : Type} (a : A) s (Q : A -> list Z -> Prop) : Q a (chars_of s) -> builds (tree_ret a) s [] Q.
Proof. intros HQ t log. exists a, s. rewrite app_nil_r. split_and!; [done|apply advances_refl|done]. Qed.

Lemma builds_bind {A B : Type} (m : SynParser A) (k : A -> SynParser B) s es es' P (Q : B -> list Z -> Prop) :
  parser_ok s -> builds m s es P ->
  (forall a s', parser_ok s' -> advances s s' -> P a (chars_of s') -> builds (k a) s' es' Q) ->
  builds (tree_bind m k) s (es ++ es') Q.
Proof.
  intros Hs Hm Hk t log. destruct (Hm t log) as (a & s' & E & Ha & HP).
  destruct (Hk a s' (advances_ok _ _ Ha Hs) Ha HP t (log ++ es)) as (b & s'' & E' & Ha' & HQ).
  exists b, s''. unfold tree_bind, bind. rewrite E. cbn [mbind option_bind].
  split_and!; [by rewrite app_assoc|by eapply advances_trans|done].
Qed.

Lemma builds_weaken {A : Type} (p : SynParser A) s es (P Q : A -> list Z -> Prop) :
  builds p s es P -> (forall a chars, P a chars -> Q a chars) -> builds p s es Q.
Proof. intros Hp Hpq t log. destruct (Hp t log) as (a & s' & E & Ha & HP). exists a, s'. auto. Qed.

Lemma builds_reading {A B : Type} (p : Reader A) (k : A -> SynParser B) s a mid es (Q : B -> list Z -> Prop) :
  parser_ok s -> parses p s a mid ->
  (forall s', parser_ok s' -> advances s s' -> chars_of s' = mid -> builds (k a) s' es Q) ->
  builds (tree_bind (reading p) k) s es Q.
Proof.
  intros Hs (s' & E & Ha & Hc) Hk.
  apply (builds_bind _ _ _ [] es (fun a' chars => a' = a /\ chars = mid)); [done| |by intros a' s'' H1 H2 [-> H3]; apply Hk].
  intros t log. exists a, s'. unfold reading, lift_option. rewrite E, app_nil_r. by split_and!.
Qed.

Lemma builds_peek {A B : Type} (f : Cursor -> A) (k : A -> SynParser B) s es (Q : B -> list Z -> Prop) :
  builds (k (f (parser_cursor s))) s es Q -> builds (tree_bind (reading (cursor_read f)) k) s es Q.
Proof. by destruct s. Qed.

(** ** Words *)

Lemma skip_while_spaces l : exists ws, spaces ws /\ l = ws ++ skip_while is_whitespace l.
Proof.
  exists (take_while is_whitespace l). split; [|by rewrite take_skip_while].
  induction l as [|c l IH]; [apply Forall_nil_2|]. cbn. destruct (is_whitespace c) eqn:E; [by apply Forall_cons_2|apply Forall_nil_2].
Qed.

Lemma skip_while_ends l : ends_word is_whitespace (skip_while is_whitespace l).
Proof. induction l as [|c l IH]; [done|]. cbn. by destruct (is_whitespace c) eqn:E. Qed.

Lemma skip_while_start l : ends_word is_whitespace l -> skip_while is_whitespace l = l.
Proof. destruct l as [|c l]; [done|]. cbn. by intros ->. Qed.

(** The word after white space. *)
Definition next_word (l : list Z) : list Z := take_while is_word_char (skip_while is_whitespace l).

Lemma parses_peek_operator op s :
  parser_ok s ->
  parses (peek_operator op) s (bool_decide (next_word (chars_of s) = op)) (skip_while is_whitespace (chars_of s)).
Proof.
  intros Hs. unfold peek_operator. destruct (skip_while_spaces (chars_of s)) as (ws & Hws & E).
  eapply parses_bind; [done|by eapply parses_spaces, skip_while_ends|]. intros s1 Hs1 _ E1.
  eapply parses_moved; [by apply cursor_read_eq|apply advances_refl|]. cbv beta. rewrite cursor_peek_while_spec.
  eapply parses_bind; [done|eexists; split; [apply slice_while_eq; [apply Hs1|done]|split; [apply advances_refl|done]]|].
  intros s2 _ _ E2. unfold next_word. rewrite E1. eexists. split_and!; [done|apply advances_refl|done].
Qed.

(** A word of the operators. *)
Record operator_word (op : list Z) : Prop := {
  operator_chars : Forall (fun c => is_word_char c = true) op;
  operator_nonempty : op <> [];
}.

Lemma operator_word_start op rest : operator_word op -> ends_word is_whitespace (op ++ rest).
Proof.
  intros [H1 H2]. destruct op as [|c op]; [done|]. apply Forall_inv in H1. cbn. unfold is_word_char in H1.
  by destruct (is_whitespace c).
Qed.

Lemma next_word_operator ws op rest :
  spaces ws -> operator_word op -> ends_word is_word_char rest -> next_word (ws ++ op ++ rest) = op.
Proof.
  intros Hws Hop Hr. unfold next_word. rewrite skip_spaces, skip_while_start by (done || by apply operator_word_start).
  apply take_word; [apply Hop|done].
Qed.

(** ** Denotations *)

Definition syntax_denotes (o : option Syntax) (d : Denotation) : Prop :=
  match o, d with
  | Some syn, Some P => forall sigma, syntax_value sigma syn = P sigma
  | None, None => True
  | _, _ => False
  end.

Definition all_denote (l : list Syntax) (Ps : list (Valuation -> bool)) : Prop :=
  Forall2 (fun syn P => forall sigma, syntax_value sigma syn = P sigma) l Ps.

Lemma option_list_denotes o d : syntax_denotes o d -> all_denote (option_list o) (option_list d).
Proof. destruct o, d; try done; [intros Hd; by apply List.Forall2_cons, List.Forall2_nil|intros _; apply List.Forall2_nil]. Qed.

Lemma omap_id_cons (d : Denotation) (ds : list Denotation) : omap id (d :: ds) = option_list d ++ omap id ds.
Proof. by destruct d. Qed.

Lemma all_denote_fold l Ps sigma (op : bool -> bool -> bool) unit :
  all_denote l Ps -> foldr op unit (syntax_value sigma <$> l) = foldr op unit ((fun P => P sigma) <$> Ps).
Proof. induction 1 as [|syn P l Ps HP _ IH]; [done|]. cbn. by rewrite HP, IH. Qed.

(** ** Operators *)

Section Operator.
Context (item : list Z -> Denotation -> Log -> Prop) (inner : SynParser (option Syntax)) (follow : list Z -> Prop).
Context (op : list Z) (bop : bool -> bool -> bool) (unit : bool) (f : Syntax -> Syntax -> Syntax) (limit : nat).
Context (Hop : operator_word op) (Hf : forall sigma, connective f (syntax_value sigma) bop unit).
Context (Hfollow : forall ws rest, spaces ws -> ws <> [] -> ends_word is_word_char rest -> follow (ws ++ op ++ rest)).

(** The operand is read up to white space. *)
Definition item_built (d : Denotation) (rest : list Z) (o : option Syntax) (chars : list Z) : Prop :=
  syntax_denotes o d /\ skip_while is_whitespace chars = skip_while is_whitespace rest.

Context (Hitem : forall s t d es rest, parser_ok s -> (length (chars_of s) <= limit)%nat -> chars_of s = t ++ rest ->
  item t d es -> follow rest -> builds inner s es (item_built d rest)).

Lemma peek_after_item s d rest o :
  parser_ok s -> item_built d rest o (chars_of s) ->
  parses (peek_operator op) s (bool_decide (next_word rest = op)) (skip_while is_whitespace rest).
Proof. intros Hs [_ E]. unfold next_word. rewrite <- E. by apply parses_peek_operator. Qed.

Lemma parse_operands_builds t ds es :
  operands_text item op t ds es -> forall fuel s acc rest,
  parser_ok s -> (length (chars_of s) <= limit)%nat -> (length (chars_of s) < fuel)%nat -> chars_of s = op ++ t ++ rest ->
  t <> [] -> ends_word is_word_char t -> follow rest -> next_word rest <> op ->
  builds (parse_operands fuel op inner acc) s es (fun l chars =>
    exists l', l = acc ++ l' /\ all_denote l' (omap id ds) /\ chars = skip_while is_whitespace rest).
Proof.
  assert (Htake : forall s t rest, chars_of s = op ++ t ++ rest -> t <> [] -> ends_word is_word_char t ->
    exists span, parses (with_cursor (fun c => cursor_take_while c is_word_char)) s span (t ++ rest)).
  { intros s t' rest E Hne Ht'. eexists. eexists. split; [apply take_while_eq|]. split; [apply moved_while|].
    cbn. rewrite E. apply skip_while_app; [apply Hop|by apply ends_word_app]. }
  induction 1 as [t d es Ht|t d es ws t' ds es' Ht Hws Hne Hend' Hne' _ IH];
    intros [|fuel] s acc rest Hs Hlim Hf' E Htne Hend Hr Hnext; [lia| |lia|]; cbn [parse_operands].
  - destruct (Htake s t rest E Htne Hend) as [span Hspan].
    eapply builds_reading; [done|exact Hspan|]. intros s1 Hs1 Ha1 E1. apply advances_length in Ha1. rewrite <- (app_nil_r es).
    eapply builds_bind; [done|apply (Hitem s1 t d es rest); [done|lia|done|done|done]|]. intros o s2 Hs2 _ Ho.
    eapply builds_reading; [done|by apply (peek_after_item _ d rest o)|]. intros s3 Hs3 _ E3. rewrite bool_decide_eq_false_2 by done.
    apply builds_ret. exists (option_list o). split_and!; [done| |done]. rewrite omap_id_cons, app_nil_r. apply option_list_denotes, Ho.
  - assert (E' : chars_of s = op ++ t ++ (ws ++ op ++ t' ++ rest)) by by rewrite E, <- !app_assoc.
    assert (Hword : ends_word is_word_char (t' ++ rest)) by by apply ends_word_app.
    destruct (Htake s (t ++ ws ++ op ++ t') rest E Htne Hend) as [span Hspan]. rewrite <- !app_assoc in Hspan.
    eapply builds_reading; [done|exact Hspan|]. intros s1 Hs1 Ha1 E1. apply advances_length in Ha1.
    eapply builds_bind; [done|apply (Hitem s1 t d es (ws ++ op ++ t' ++ rest)); [done|lia|done|done|by apply Hfollow]|].
    intros o s2 Hs2 Ha2 Ho. apply advances_length in Ha2.
    eapply builds_reading; [done|by eapply (peek_after_item _ d _ o)|]. intros s3 Hs3 Ha3 E3. apply advances_length in Ha3.
    rewrite next_word_operator, bool_decide_eq_true_2 by done. rewrite skip_spaces, skip_while_start in E3 by (done || by apply operator_word_start).
    assert (Hlt : (length (chars_of s3) < length (chars_of s))%nat).
    { rewrite E3, E', !length_app. destruct ws as [|c ws]; [done|]. cbn. lia. }
    intros t0 log. destruct (IH fuel s3 (acc ++ option_list o) rest Hs3) with (t := t0) (log := log)
      as (a & s4 & E4 & Ha4 & l' & -> & Hl' & Hc); [lia|lia|done|done|done|done|done|].
    exists ((acc ++ option_list o) ++ l'), s4. split_and!; [done|done|]. exists (option_list o ++ l').
    split_and!; [by rewrite app_assoc|rewrite omap_id_cons|done]. apply Forall2_app; [|done]. apply option_list_denotes, Ho.
Qed.

Lemma fold_denotes l ds o :
  all_denote l (omap id ds) -> combines_to f l o -> syntax_denotes o (fold_denotations bop unit ds).
Proof.
  unfold fold_denotations. intros Hl Ho. destruct o as [syn|]; cbn in Ho.
  - destruct Ho as [Hne Ho]. destruct (omap id ds) as [|P Ps]; [by apply Forall2_nil_inv_r in Hl|]. intros sigma.
    rewrite (Ho _ _ _ (Hf sigma)). by apply all_denote_fold.
  - subst l. by apply Forall2_nil_inv_l in Hl as ->.
Qed.

Lemma parse_marker_op_builds s t ds es rest :
  operands_text item op t ds es -> parser_ok s -> (length (chars_of s) <= limit)%nat -> chars_of s = t ++ rest ->
  follow rest -> next_word rest <> op ->
  builds (parse_marker_op op (fun a b => ret (f a b)) (fun _ => false) inner) s es (fun o chars =>
    syntax_denotes o (fold_denotations bop unit ds) /\ chars = skip_while is_whitespace rest).
Proof.
  intros Ht Hs Hlim E Hr Hnext. unfold parse_marker_op. destruct Ht as [t d es Ht|t d es ws t' ds es' Ht Hws Hne Hend' Hne' Ht'].
  - rewrite <- (app_nil_r es). eapply builds_bind; [done|by apply (Hitem s t d es rest)|]. intros o s1 Hs1 _ Ho.
    eapply builds_reading; [done|by apply (peek_after_item _ d rest o)|]. intros s2 Hs2 _ E2. rewrite bool_decide_eq_false_2 by done.
    apply builds_ret. split; [|done]. destruct Ho as [Ho _]. destruct o, d; try done. intros sigma. cbn.
    by rewrite (connective_unit _ _ _ _ (Hf sigma)).
  - rewrite <- !app_assoc in E. assert (Hword : ends_word is_word_char (t' ++ rest)) by by apply ends_word_app.
    eapply builds_bind; [done|apply (Hitem s t d es (ws ++ op ++ t' ++ rest)); [done|done|done|done|by apply Hfollow]|].
    intros o s1 Hs1 Ha1 Ho. apply advances_length in Ha1.
    eapply builds_reading; [done|by eapply (peek_after_item _ d _ o)|]. intros s2 Hs2 Ha2 E2. apply advances_length in Ha2.
    rewrite next_word_operator, bool_decide_eq_true_2 by done. rewrite skip_spaces, skip_while_start in E2 by (done || by apply operator_word_start).
    apply builds_peek. rewrite <- (app_nil_r es'). eapply builds_bind; [done| |].
    { apply (parse_operands_builds t' ds es' Ht' _ s2 (option_list o) rest); [done|lia|lia|done..]. }
    intros l s3 Hs3 _ (l' & -> & Hl' & Hc). destruct (combine_all_pure f (length (option_list o ++ l')) (option_list o ++ l')) as (o' & Eo & Hv); [lia|].
    intros t0 log. exists o', s3. unfold building, bind. rewrite Eo. cbn [mbind option_bind]. rewrite app_nil_r.
    split_and!; [done|apply advances_refl| |done]. eapply fold_denotes; [|exact Hv]. rewrite omap_id_cons.
    apply Forall2_app; [|done]. apply option_list_denotes, Ho.
Qed.
End Operator.

(** ** The grammar *)

(** What may follow an expression, a conjunction and a disjunction. *)
Definition follow_expr (rest : list Z) : Prop := ends_word is_key_char rest.
Definition follow_and (rest : list Z) : Prop := follow_expr rest /\ next_word rest <> bytes "and".
Definition follow_or (rest : list Z) : Prop := follow_and rest /\ next_word rest <> bytes "or".

Lemma follow_spaces ws rest : spaces ws -> ws <> [] -> follow_expr (ws ++ rest).
Proof. intros Hws Hne. destruct ws as [|c ws]; [done|]. apply Forall_inv in Hws. cbn. unfold is_key_char. by rewrite Hws. Qed.

Lemma and_word : operator_word (bytes "and").
Proof. split; [by repeat constructor|done]. Qed.

Lemma or_word : operator_word (bytes "or").
Proof. split; [by repeat constructor|done]. Qed.

Lemma follow_closing ws rest : spaces ws -> follow_or (ws ++ bytes ")" ++ rest).
Proof.
  intros Hws. assert (Hnext : next_word (ws ++ bytes ")" ++ rest) = 41 :: take_while is_word_char rest).
  { unfold next_word. by rewrite skip_spaces. }
  split; [split|]; [|by rewrite Hnext..]. destruct ws as [|c ws]; [done|]. by apply follow_spaces.
Qed.

Section Markers.
Context (marker : list Z -> Denotation -> Log -> Prop) (parse_or : SynParser (option Syntax)) (limit : nat).
Context (Hor : forall s t d es rest, parser_ok s -> (length (chars_of s) < limit)%nat -> chars_of s = t ++ rest ->
  marker t d es -> follow_or rest ->
  builds parse_or s es (fun o chars => syntax_denotes o d /\ chars = skip_while is_whitespace rest)).

Lemma parses_eat_char s c rest :
  chars_of s = c :: rest -> parses (with_cursor (fun cursor => cursor_eat_char cursor c)) s (Some (pos_of s)) rest.
Proof.
  intros E. unfold parses, with_cursor, cursor_eat_char, cursor_peek. rewrite cursor_next_spec, E, Z.eqb_refl. cbn.
  eexists. split; [done|]. split; [by apply advances_moved|done].
Qed.

Lemma parses_no_char s c c' rest :
  chars_of s = c' :: rest -> (c' =? c) = false ->
  parses (with_cursor (fun cursor => cursor_eat_char cursor c)) s None (c' :: rest).
Proof.
  intros E Ec. unfold parses, with_cursor, cursor_eat_char, cursor_peek. rewrite E, Ec. destruct s.
  eexists. split; [done|]. split; [apply advances_refl|done].
Qed.

Lemma atom_text_start t e : atom_text t e -> exists c t', t = c :: t' /\ is_whitespace c = false /\ (c =? 40) = false.
Proof.
  intros [l lv ws o op ws' r rv e' reports Hl _ _ _ _ _ _]. destruct (value_text_start _ _ Hl) as (c & l' & -> & Hc).
  by exists c, (l' ++ ws ++ o ++ ws' ++ r).
Qed.

Lemma parse_marker_expr_builds s t d es rest :
  parser_ok s -> (length (chars_of s) <= limit)%nat -> chars_of s = t ++ rest -> expr_text marker t d es -> follow_expr rest ->
  builds (parse_marker_expr syntax_algebra parse_or) s es (item_built d rest).
Proof.
  intros Hs Hlim E Ht Hr. unfold parse_marker_expr. destruct Ht as [ws t e Hws Ht|ws t ws' d es Hws Ht Hws'].
  - destruct (atom_text_start _ _ Ht) as (c & t' & Et & Hc & Hparen). rewrite <- app_assoc in E.
    eapply builds_reading; [done|eapply parses_spaces; [exact E|done|by rewrite Et; cbn]|]. intros s1 Hs1 _ E1.
    eapply builds_reading; [done|apply (parses_no_char s1 40 c (t' ++ rest)); [by rewrite E1, Et|done]|]. intros s2 Hs2 _ E2.
    eapply builds_reading; [done|apply (parses_expression s2 t e rest); [done|by rewrite E2, Et|done|done]|]. intros s3 Hs3 _ E3.
    destruct e as [e|]; cbn; [|by apply builds_ret; rewrite E3].
    intros t0 log. exists (Some (SynExpr e)), s3. split_and!; [done|apply advances_refl|]. by rewrite E3.
  - rewrite <- !app_assoc in E.
    eapply builds_reading; [done|by apply (parses_spaces s ws _ E)|]. intros s1 Hs1 Ha1 E1. apply advances_length in Ha1.
    eapply builds_reading; [done|by apply (parses_eat_char s1 40 _ E1)|]. intros s2 Hs2 _ E2.
    assert (Hlt : (length (chars_of s2) < length (chars_of s1))%nat) by (rewrite E1, E2; cbn; lia).
    rewrite <- (app_nil_r es).
    eapply builds_bind; [done|apply (Hor s2 t d es (ws' ++ bytes ")" ++ rest)); [done|lia|done|done|by apply follow_closing]|].
    intros o s3 Hs3 _ [Ho E3]. rewrite skip_spaces in E3 by done.
    eapply builds_reading; [done|by apply (parses_expect s3 41 rest)|]. intros s4 _ _ E4. apply builds_ret. by rewrite E4.
Qed.

Lemma parse_marker_and_builds s t d es rest :
  parser_ok s -> (length (chars_of s) <= limit)%nat -> chars_of s = t ++ rest -> and_text marker t d es -> follow_and rest ->
  builds (parse_marker_and syntax_algebra parse_or) s es (item_built d rest).
Proof.
  intros Hs Hlim E (ds & Ht & ->) [Hr Hnext]. eapply builds_weaken.
  - eapply (parse_marker_op_builds (expr_text marker) _ follow_expr (bytes "and") andb true SynAnd limit and_word); try done.
    + intros sigma. by split; [|intros [] [] []|intros []].
    + intros ws rest' Hws Hne _. by apply follow_spaces.
    + apply parse_marker_expr_builds.
  - intros o chars [Ho ->]. split; [done|]. apply skip_while_start, skip_while_ends.
Qed.
End Markers.

Lemma parse_marker_or_builds depth fuel s t d es rest :
  parser_ok s -> (length (chars_of s) < fuel)%nat -> chars_of s = t ++ rest -> marker_text depth t d es -> follow_or rest ->
  builds (parse_marker_or syntax_algebra fuel) s es (fun o chars => syntax_denotes o d /\ chars = skip_while is_whitespace rest).
Proof.
  revert fuel s t d es rest. induction depth as [|depth IH]; intros fuel s t d es rest Hs Hf E Ht [Hr Hnext]; [done|].
  destruct fuel as [|fuel]; [lia|]. destruct Ht as (ds & Ht & ->). cbn [parse_marker_or].
  eapply (parse_marker_op_builds (and_text (marker_text depth)) _ follow_and (bytes "or") orb false SynOr fuel or_word); try done; try lia.
  - intros sigma. by split; [|intros [] [] []|intros []].
  - intros ws rest' Hws Hne Hend. split; [by apply follow_spaces|]. by rewrite (next_word_operator _ _ _ Hws or_word Hend).
  - intros s' t' d es' rest' Hs' Hl' E' Ht' Hr'. apply (parse_marker_and_builds (marker_text depth) _ fuel) with (t := t'); try done.
    intros s2 t2 d2 es2 rest2 Hs2 Hl2 E2 Ht2 Hr2. by apply (IH fuel s2 t2 d2 es2 rest2).
Qed.

(** A text of the grammar, up to white space, is parsed to a syntax of its value. *)
Lemma parse_syntax_complete depth text ws d es :
  marker_text depth text d es -> spaces ws -> Forall is_char (text ++ ws) ->
  exists o s, parse_syntax (text ++ ws) = Some (Ok o, s, es) /\ syntax_denotes o d.
Proof.
  intros Ht Hws Hchars. set (s := mkParserState (cursor_new (text ++ ws)) []).
  assert (Hs : parser_ok s) by (split; [by exists []; apply cursor_new_ok|done]).
  assert (Hskip : skip_while is_whitespace ws = []) by by rewrite <- (app_nil_r ws), skip_spaces.
  assert (Hfollow : follow_or ws).
  { unfold follow_or, follow_and, next_word. rewrite Hskip. split_and!; [|done..].
    destruct ws as [|c ws]; [done|]. rewrite <- (app_nil_r (c :: ws)). by apply follow_spaces. }
  assert (Hb : builds (parse_markers_cursor syntax_algebra) s es (fun o _ => syntax_denotes o d)).
  { apply builds_peek. rewrite <- (app_nil_r es).
    eapply builds_bind; [done|eapply (parse_marker_or_builds depth _ s text d es ws); [done|lia|done..]|].
    intros o s1 Hs1 _ [Ho E1]. rewrite Hskip in E1.
    eapply builds_reading; [done|by apply (parses_spaces s1 [] []); [|apply Forall_nil_2|]|]. intros s2 Hs2 _ E2.
    eapply (builds_reading _ _ _ None []); [done|unfold parses; rewrite next_eq, E2; by exists s2; split_and!; [|apply advances_refl|]|].
    intros s3 _ _ _. by apply builds_ret. }
  destruct (Hb interner_new []) as (o & s' & E & _ & Ho). exists o, s'. split; [|done]. unfold parse_syntax. fold s. by rewrite E.
Qed.

(** A text of the grammar is accepted, and its tree evaluates to what the text denotes. *)
Lemma grammar_yields {LV : RangeLaws version_cmp_slow} {LS : RangeLaws string_cmp}
    (st : Interner) depth text ws (d : Denotation) es :
  interner_ok st -> marker_text depth text d es -> spaces ws -> Forall is_char (text ++ ws) ->
  yields (parse_markers (text ++ ws)) st (fun x table =>
    exists tree, x.1 = Ok tree /\ tree_denotes (fun sigma => default true (d ≫= fun P => Some (P sigma))) tree table).
Proof.
  intros Hst Ht Hws Hchars. destruct (parse_syntax_complete depth text ws d es) as (o & s & E & Ho); [done..|].
  assert (Hes : Forall expression_ok es).
  { destruct (parse_syntax_total _ Hchars) as (r & s' & log & E' & Hlog & _). rewrite E in E'. by injection E' as _ _ ->. }
  eapply runs_yields; [done|intros; by eapply parse_markers_runs|].
  intros [x reports] table Hok _ [_ Hx]. cbn [fst] in *. destruct x as [tree|]; [|done]. exists tree. split; [done|].
  eapply means_denotes; [done|done|]. intros sigma. destruct o, d; cbn in *; try done.
Qed.
End Complete.
