(* ===== verification/DnfText.v ===== *)
(** * Markers: the text of a normal form is read back

    What the [Display] implementations of [crates/uv-pep508/src/marker/tree.rs] print for a normal
    form is a text of the grammar of markers that denotes the normal form, so that the parser reads
    it to a tree of the same value. *)

From stdpp Require Import base countable list option numbers decidable strings gmap.
From Stdlib Require Import ZArith Lia.
From S2P Require Import Prelude Text Ranges VersionTypes VersionSmall Version VersionOrder VersionParser.
From S2P Require Import VersionDisplay Normalize VersionSpecifier VersionRanges VersionRangesFacts ReleaseRanges.
From S2P Require Import SpecifierParser SpecifierFacts SpecifierBounds Cursor MarkerTypes Interner MarkerAlgebra.
From S2P Require Import Isop MarkerTree MarkerEval InternerFacts ExclusionFacts ExpressionFacts IsopFacts CoverFacts.
From S2P Require Import RequiresPythonFacts Dnf DnfFacts MarkerApi MarkerParser MarkerParserFacts MarkerSyntax MarkerMeaning MarkerGrammar.

Local Open Scope Z_scope.
Local Open Scope uv_scope.

(** ** Expressions that can be read back *)

(** ASCII, without the quote that encloses it. *)
Definition legible (text : list Z) : bool := forallb (fun c => (0 <=? c) && (c <? 128) && negb (c =? 39)) text.

(** The strings of an expression are legible, and its names are the ones that their text stands for. *)
Definition expression_legible (expr : MarkerExpression) : bool :=
  match expr with
  | ExprVersion _ _ | ExprVersionIn _ _ _ => true
  | ExprString _ _ value => legible value
  | ExprList p _ => legible (pair_value p) && bool_decide ((parse_list_pair (pair_key p) (pair_value p)).1 = p)
  | ExprExtra name _ =>
      legible (marker_value_extra_display name) &&
      match extra_name_from_str (marker_value_extra_display name), name with
      | Ok extra, ExtraValid extra' => bool_decide (extra = extra')
      | Err _, ExtraArbitrary _ => true
      | _, _ => false
      end
  end.

(** The comparisons of normal forms: with versions by the operators of markers, and of strings not by
    [~=]; lists of versions do not occur. *)
Definition expression_normal (expr : MarkerExpression) : Prop :=
  match expr with
  | ExprVersion key x => key <> MvPythonVersion /\ specifier_valid x /\ version_parsed (specifier_version x) /\
      specifier_operator x <> ExactEqual
  | ExprVersionIn _ _ _ => False
  | ExprString _ operator _ => operator <> MTildeEqual
  | ExprList _ _ | ExprExtra _ _ => True
  end.

Definition printable (expr : MarkerExpression) : Prop := expression_normal expr /\ expression_legible expr = true.

Lemma legible_spec text : legible text = true -> Forall is_ascii text /\ Forall (fun c => (c =? 39) = false) text.
Proof.
  unfold legible. rewrite forallb_forall. intros H. split; apply Forall_forall; intros c Hc%list_elem_of_In;
    specialize (H c Hc); rewrite !andb_true_iff, Z.leb_le, Z.ltb_lt, negb_true_iff in H; unfold is_ascii; tauto.
Qed.

Lemma legible_utf8 text : legible text = true -> utf8 text = text.
Proof. intros H. by apply utf8_ascii, legible_spec. Qed.

(** ** Values and operators *)

Lemma space_spaces : spaces (bytes " ").
Proof. by apply Forall_cons_2; [|apply Forall_nil_2]. Qed.

Lemma no_spaces : spaces [].
Proof. apply Forall_nil_2. Qed.

Lemma quoted_text text : legible text = true -> value_text (quoted text) (QuotedString text).
Proof. intros H. apply (text_quoted 39); [done|by apply legible_spec]. Qed.

Lemma version_name_text key : value_text (marker_value_version_display key) (MarkerEnvVersion key).
Proof. apply text_named. by destruct key. Qed.

Lemma string_name_text key :
  value_text (marker_value_string_display key) (MarkerEnvString (marker_value_string (canonical_string key))).
Proof. apply text_named. by destruct key. Qed.

Lemma list_name_text key : value_text (marker_value_list_display key) (MarkerEnvList key).
Proof. apply text_named. by destruct key. Qed.

(** The operators that the parser reads before values are turned around. *)
Definition is_read (operator : MarkerOperator) : bool :=
  match operator with MContains | MNotContains => false | _ => true end.

Lemma operator_printed operator rest :
  is_read operator = true -> operator_text (bytes " " ++ rest) (marker_operator_display operator) operator.
Proof.
  intros H. destruct operator; try done; try (apply text_symbol; [done|by repeat constructor|done|done]).
  - by apply text_in.
  - apply (text_not_in _ (bytes " ")); [apply space_spaces|done].
Qed.

(** A value, an operator and a value, between spaces. *)
Lemma atom_printed l lv operator r rv e reports :
  value_text l lv -> is_read operator = true -> value_text r rv ->
  marker_expression lv operator rv = Ok (Some (e, reports)) ->
  atom_text (l ++ bytes " " ++ marker_operator_display operator ++ bytes " " ++ r) e.
Proof.
  intros Hl Ho Hr He. apply (text_atom l lv (bytes " ") _ operator (bytes " ") r rv e reports); try done;
    [apply space_spaces|by apply operator_printed|apply space_spaces].
Qed.

(** ** Expressions *)

(** [e'] has the value of [e]. *)
Definition same_expression (e e' : MarkerExpression) : Prop :=
  forall sigma, expression_value sigma e' = expression_value sigma e.

(** The operator of a marker for a comparison with a version. *)
Lemma version_operator op : op <> ExactEqual ->
  exists operator, marker_operator_display operator = operator_as_str op /\ is_read operator = true /\
    container_operator_from operator = None /\ to_pep440_operator operator = Some (base_operator op).
Proof.
  destruct op; intros H; try done;
    [by exists MEqual|by exists MEqual|by exists MNotEqual|by exists MNotEqual|by exists MTildeEqual|by exists MLessThan
    |by exists MLessEqual|by exists MGreaterThan|by exists MGreaterEqual].
Qed.

(** The star of the operator is in the text of the version. *)
Lemma expression_display_version key x :
  expression_display (ExprVersion key x) =
  marker_value_version_display key ++ bytes " " ++ operator_as_str (specifier_operator x) ++ bytes " " ++ quoted (version_part x).
Proof. unfold expression_display, version_part. by destruct (specifier_operator x). Qed.

Lemma version_part_legible x : version_parsed (specifier_version x) -> legible (version_part x) = true.
Proof.
  intros HP. unfold legible. apply forallb_forall. intros c Hc%list_elem_of_In.
  assert (H : Forall (fun c => is_ascii c /\ c <> 39) (version_part x)).
  { apply Forall_app. split.
    - eapply Forall_impl; [by apply version_display_chars|]. intros b Hb. unfold version_char, is_ascii_digit, is_ascii_lowercase in Hb.
      rewrite !orb_true_iff, !andb_true_iff, !Z.leb_le, !Z.eqb_eq in Hb. unfold is_ascii. lia.
    - destruct (operator_is_star _); [|apply Forall_nil_2]. by repeat apply Forall_cons_2; [..|apply Forall_nil_2]. }
  rewrite Forall_forall in H. destruct (H c Hc) as [[H1 H2] H3].
  rewrite !andb_true_iff, Z.leb_le, Z.ltb_lt, negb_true_iff, Z.eqb_neq. lia.
Qed.

(** Comparisons with versions of the same fields are the same. *)
Lemma specifier_same op v w :
  specifier_valid (mkSpecifier op v) -> version_real w -> version_make_full w = version_make_full v ->
  specifier_valid (mkSpecifier op w) /\ forall u, released_matches (mkSpecifier op w) u = released_matches (mkSpecifier op v) u.
Proof.
  intros V Hw E. assert (Er : version_release w = version_release v) by by rewrite !release_full, E. split.
  - destruct V as [_ V2 V3 V4]. cbn [specifier_version specifier_operator] in *. split; cbn [specifier_version specifier_operator];
      [done|by rewrite local_full, E, <- local_full|unfold release_len in *; by rewrite Er|].
    by rewrite pre_full, post_full, dev_full, E, <- pre_full, <- post_full, <- dev_full.
  - intros u. destruct (specifier_only_release_valid op v V) as (v' & Ev & _). unfold released_matches.
    assert (Es : specifier_only_release (mkSpecifier op w) = specifier_only_release (mkSpecifier op v)).
    { unfold specifier_only_release, version_only_release. cbn. by rewrite Er. }
    rewrite Es, Ev. done.
Qed.

Lemma version_expression_printed key x :
  expression_normal (ExprVersion key x) ->
  exists e, atom_text (expression_display (ExprVersion key x)) (Some e) /\ same_expression (ExprVersion key x) e.
Proof.
  intros (Hkey & V & HP & Hop). destruct (version_part_parse x V HP) as (w & Ep & Hw & Ew).
  destruct (version_operator _ Hop) as (operator & Ed & Hr & Hc & Ho). pose proof (version_part_legible x HP) as Hleg.
  destruct x as [op v]. cbn [specifier_operator specifier_version] in *. exists (ExprVersion key (mkSpecifier op w)). split.
  - rewrite expression_display_version. cbn [specifier_operator]. rewrite <- Ed.
    eapply (atom_printed _ _ operator _ (QuotedString (version_part (mkSpecifier op v))));
      [apply version_name_text|done|by apply quoted_text|].
    unfold marker_expression, parse_version_in_expr, parse_version_expr. rewrite Hc. cbn [mbind option_bind].
    pose proof (from_pattern_same (mkSpecifier op v) w V Ew) as Es. cbn [specifier_operator] in Es.
    by rewrite legible_utf8, Ep, Ho, Es by done.
  - destruct (specifier_same op v w V Hw Ew) as [V' M]. intros sigma. destruct key; [apply M|apply M|done].
Qed.

(** A deprecated name is printed as the current one. *)
Lemma string_value_canonical sigma key operator value :
  string_value sigma (marker_value_string (canonical_string key)) operator value = string_value sigma key operator value.
Proof. by destruct key. Qed.

Lemma string_expression_printed key operator value :
  operator <> MTildeEqual -> legible value = true ->
  exists e, atom_text (expression_display (ExprString key operator value)) (Some e) /\ same_expression (ExprString key operator value) e.
Proof.
  intros Hop Hv. pose proof (legible_utf8 _ Hv) as Eu. exists (ExprString (marker_value_string (canonical_string key)) operator value).
  split.
  - assert (Hname : forall operator', is_tilde operator' = false ->
      marker_expression (MarkerEnvString (marker_value_string (canonical_string key))) operator' (QuotedString value) =
        Ok (Some (Some (ExprString (marker_value_string (canonical_string key)) operator' value), [])) /\
      marker_expression (QuotedString value) operator' (MarkerEnvString (marker_value_string (canonical_string key))) =
        Ok (Some (Some (ExprString (marker_value_string (canonical_string key)) (marker_operator_invert operator') value), []))).
    { intros operator' Ht. cbn [marker_expression]. by rewrite Ht, Eu. }
    destruct operator; try done; cbn [expression_display];
      (eapply atom_printed; [apply string_name_text || by apply quoted_text|done|apply string_name_text || by apply quoted_text|by apply Hname]).
  - intros sigma. destruct operator; try apply string_value_canonical; cbn; by rewrite canonical_marker_string.
Qed.

Lemma list_expression_printed p operator :
  expression_legible (ExprList p operator) = true ->
  exists e, atom_text (expression_display (ExprList p operator)) (Some e) /\ same_expression (ExprList p operator) e.
Proof.
  cbn [expression_legible]. intros [Hv Hp%bool_decide_eq_true]%andb_true_iff. exists (ExprList p operator). split; [|done].
  destruct (parse_list_pair (pair_key p) (pair_value p)) as [p' reports] eqn:E. cbn [fst] in Hp. subst p'.
  assert (He : forall operator', container_operator_from operator' = Some operator ->
    marker_expression (QuotedString (pair_value p)) operator' (MarkerEnvList (pair_key p)) = Ok (Some (Some (ExprList p operator), reports))).
  { intros operator' Ho. cbn [marker_expression]. by rewrite Ho, E. }
  destruct operator; [apply (atom_printed _ (QuotedString (pair_value p)) MIn _ (MarkerEnvList (pair_key p)) _ reports)
    |apply (atom_printed _ (QuotedString (pair_value p)) MNotIn _ (MarkerEnvList (pair_key p)) _ reports)];
    done || (by apply quoted_text) || (by apply list_name_text) || by apply He.
Qed.

Lemma extra_expression_printed name operator :
  expression_legible (ExprExtra name operator) = true ->
  exists e, atom_text (expression_display (ExprExtra name operator)) (Some e) /\ same_expression (ExprExtra name operator) e.
Proof.
  cbn [expression_legible]. set (text := marker_value_extra_display name). intros [Hv Hn]%andb_true_iff.
  exists (ExprExtra name operator). split; [|done].
  assert (He : exists reports, forall operator', extra_operator_from operator' = Some operator ->
    marker_expression MarkerExtra operator' (QuotedString text) = Ok (Some (Some (ExprExtra name operator), reports))).
  { cbn [marker_expression]. unfold parse_extra_expr. rewrite (legible_utf8 _ Hv).
    destruct (extra_name_from_str text) as [extra|err], name as [extra'|value]; try done.
    - apply bool_decide_eq_true in Hn as ->. eexists. by intros operator' ->.
    - eexists. by intros operator' ->. }
  destruct He as [reports He].
  assert (Hname : value_text (bytes "extra") MarkerExtra) by by apply text_named.
  destruct operator; [apply (atom_printed (bytes "extra") MarkerExtra MEqual _ (QuotedString text) _ reports)
    |apply (atom_printed (bytes "extra") MarkerExtra MNotEqual _ (QuotedString text) _ reports)];
    done || (by apply quoted_text) || by apply He.
Qed.

(** What is printed for an expression is read as an expression of its value. *)
Lemma expression_printed e :
  printable e -> exists e', atom_text (expression_display e) (Some e') /\ same_expression e e'.
Proof.
  intros [Hn Hl]. destruct e as [key x|key versions operator|key operator value|p operator|name operator]; [| done | | |].
  - by apply version_expression_printed.
  - by apply string_expression_printed.
  - by apply list_expression_printed.
  - by apply extra_expression_printed.
Qed.

(** ** Clauses *)

Section Operands.
Notation Log := (list MarkerExpression).
Context (item : list Z -> Denotation -> Log -> Prop) (op : list Z).

(** Operands that may have a space before them. *)
Definition operand (x : list Z * Denotation * Log) : Prop :=
  item x.1.1 x.1.2 x.2 /\ item (bytes " " ++ x.1.1) x.1.2 x.2.

Definition joined (l : list (list Z * Denotation * Log)) : list Z :=
  join (bytes " " ++ op ++ bytes " ") ((fun x => x.1.1) <$> l).

Lemma operands_printed l :
  l <> [] -> Forall operand l ->
  operands_text item op (joined l) ((fun x => x.1.2) <$> l) (concat (snd <$> l)) /\
  operands_text item op (bytes " " ++ joined l) ((fun x => x.1.2) <$> l) (concat (snd <$> l)).
Proof.
  intros Hne Hl. induction Hl as [|[[t d] es] l [H1 H2] Hl IH]; [done|]. cbn [fst snd] in *. destruct l as [|x l].
  - cbn. rewrite app_nil_r. split; by apply text_one.
  - destruct (IH ltac:(done)) as [_ IH2]. clear IH Hl.
    assert (E : joined ((t, d, es) :: x :: l) = t ++ bytes " " ++ op ++ (bytes " " ++ joined (x :: l))).
    { unfold joined. cbn [fmap list_fmap fst join]. by rewrite <- !app_assoc. }
    rewrite E, (app_assoc (bytes " ") t). split; apply text_more; try done; apply space_spaces.
Qed.
End Operands.

(** Lists of values. *)
Lemma fold_denotations_some (op : bool -> bool -> bool) unit (Ps : list (Valuation -> bool)) :
  Ps <> [] -> fold_denotations op unit (Some <$> Ps) = Some (fun sigma => foldr op unit ((fun P => P sigma) <$> Ps)).
Proof.
  intros Hne. unfold fold_denotations. assert (E : omap id (Some <$> Ps) = Ps) by (clear Hne; induction Ps as [|P Ps IH]; [done|]; cbn; by f_equal).
  rewrite E. by destruct Ps.
Qed.

Notation Texts := (list Z -> Denotation -> list MarkerExpression -> Prop).

(** The text, with or without a space before it, denotes a condition that is [P]. *)
Definition denotes_spaced (text : Texts) (t : list Z) (P : Valuation -> bool) : Prop :=
  exists Q es, text t (Some Q) es /\ text (bytes " " ++ t) (Some Q) es /\
    forall sigma, Q sigma = P sigma.

Definition folded_text (item : Texts) (op : list Z) (bop : bool -> bool -> bool) (unit : bool) : Texts := fun t d es =>
  exists ds, operands_text item op t ds es /\ d = fold_denotations bop unit ds.

(** Texts that denote conditions, joined by an operator. *)
Lemma operands_denote (item : Texts) op bop unit (texts : list (list Z * (Valuation -> bool))) :
  texts <> [] -> Forall (fun x => denotes_spaced item x.1 x.2) texts ->
  denotes_spaced (folded_text item op bop unit) (join (bytes " " ++ op ++ bytes " ") (fst <$> texts))
    (fun sigma => foldr bop unit ((fun x => x.2 sigma) <$> texts)).
Proof.
  intros Hne Ht.
  assert (Hl : exists l : list (list Z * Denotation * list MarkerExpression), Forall (operand item) l /\ (fun x => x.1.1) <$> l = fst <$> texts /\
    exists Ps, (fun x => x.1.2) <$> l = Some <$> Ps /\
      forall sigma, foldr bop unit ((fun P => P sigma) <$> Ps) = foldr bop unit ((fun x => x.2 sigma) <$> texts)).
  { clear Hne. induction Ht as [|[t P] texts (Q & es & H1 & H2 & H4) _ IH].
    - exists []. split_and!; [apply Forall_nil_2|done|by exists []].
    - destruct IH as (l & I1 & I2 & Ps & I4 & I5). cbn [fst snd] in *. exists ((t, Some Q, es) :: l). split_and!.
      + by apply Forall_cons_2.
      + cbn. by f_equal.
      + exists (Q :: Ps). split; [cbn; by f_equal|]. intros sigma. cbn. by rewrite H4, I5. }
  destruct Hl as (l & I1 & I2 & Ps & I4 & I5).
  assert (Hnl : l <> []) by (intros ->; by destruct texts). assert (HnP : Ps <> []) by (intros ->; by destruct l).
  destruct (operands_printed item op l Hnl I1) as [O1 O2]. unfold joined, Denotation in *. rewrite I2, I4 in O1, O2.
  exists (fun sigma => foldr bop unit ((fun P => P sigma) <$> Ps)), (concat (snd <$> l)). rewrite <- (fold_denotations_some bop unit Ps HnP).
  split_and!; [by eexists|by eexists|done].
Qed.

Definition clause_shown (clause : list MarkerExpression) : list Z :=
  match clause with
  | [_] => conjunction_display clause
  | _ => bytes "(" ++ conjunction_display clause ++ bytes ")"
  end.

Lemma expression_denotes marker e : printable e -> denotes_spaced (expr_text marker) (expression_display e) (fun sigma => expression_value sigma e).
Proof.
  intros He. destruct (expression_printed e He) as (e' & Ha & Hv). exists (fun sigma => expression_value sigma e'), [e'].
  split_and!; [|apply (text_expression marker (bytes " ") _ (Some e')); [apply space_spaces|done]|done].
  by apply (text_expression marker [] _ (Some e')); [apply no_spaces|].
Qed.

(** Expressions joined by [and] denote their clause. *)
Lemma clause_denotes marker clause :
  clause <> [] -> Forall printable clause ->
  denotes_spaced (and_text marker) (conjunction_display clause) (fun sigma => clause_value sigma clause).
Proof.
  intros Hne Hp.
  destruct (operands_denote (expr_text marker) (bytes "and") andb true
    ((fun e => (expression_display e, fun sigma => expression_value sigma e)) <$> clause)) as (Q & es & H1 & H2 & H4).
  { by destruct clause. }
  { apply Forall_fmap. eapply Forall_impl; [exact Hp|]. intros e He. by apply expression_denotes. }
  exists Q, es. rewrite <- list_fmap_compose in H1, H2. split_and!; [exact H1|exact H2|]. intros sigma. rewrite H4, <- list_fmap_compose.
  unfold clause_value. clear. induction clause as [|e clause IH]; [done|]. cbn in *. by rewrite IH.
Qed.

(** ** Normal forms *)

(** One operand. *)
Lemma operand_denotes (item : list Z -> Denotation -> list MarkerExpression -> Prop) op bop unit t P :
  (forall b, bop b unit = b) -> denotes_spaced item t P -> denotes_spaced (folded_text item op bop unit) t P.
Proof.
  intros Hunit Ht. destruct (operands_denote item op bop unit [(t, P)]) as (Q & es & H1 & H2 & H4);
    [done|by apply Forall_cons_2; [|apply Forall_nil_2]|].
  exists Q, es. split_and!; [exact H1|exact H2|]. intros sigma. rewrite H4. apply Hunit.
Qed.

(** A clause between parentheses, if it is not a single expression. *)
Lemma shown_denotes clause :
  clause <> [] -> Forall printable clause ->
  denotes_spaced (and_text (marker_text 1)) (clause_shown clause) (fun sigma => clause_value sigma clause).
Proof.
  intros Hne Hp. destruct clause as [|e [|e' clause]]; [done|by apply clause_denotes|]. set (whole := e :: e' :: clause) in *.
  destruct (operand_denotes (and_text (marker_text 0)) (bytes "or") orb false (conjunction_display whole) (fun sigma => clause_value sigma whole))
    as (Q & es & H1 & _ & H4); [by intros []|by apply clause_denotes|].
  apply operand_denotes; [by intros []|]. exists Q, es. split_and!; [..|done].
  - by apply (text_parentheses (marker_text 1) [] _ []); [apply no_spaces| |apply no_spaces].
  - by apply (text_parentheses (marker_text 1) (bytes " ") _ []); [apply space_spaces| |apply no_spaces].
Qed.

(** What is printed for a normal form denotes it. *)
Lemma dnf_denotes dnf :
  dnf <> [] -> Forall (fun clause => clause <> [] /\ Forall printable clause) dnf ->
  denotes_spaced (marker_text 2) (dnf_display dnf) (fun sigma => dnf_value sigma dnf).
Proof.
  intros Hne Hp. destruct dnf as [|clause [|clause' dnf]]; [done| |].
  - destruct (Forall_inv Hp) as [H1 H2]. destruct (operand_denotes (and_text (marker_text 1)) (bytes "or") orb false
      (conjunction_display clause) (fun sigma => clause_value sigma clause)) as (Q & es & I1 & I2 & I4);
      [by intros []|by apply clause_denotes|].
    exists Q, es. split_and!; [exact I1|exact I2|]. intros sigma. rewrite I4. cbn. by rewrite orb_false_r.
  - set (whole := clause :: clause' :: dnf) in *.
    destruct (operands_denote (and_text (marker_text 1)) (bytes "or") orb false
      ((fun c => (clause_shown c, fun sigma => clause_value sigma c)) <$> whole)) as (Q & es & H1 & H2 & H4).
    { done. }
    { apply Forall_fmap. eapply Forall_impl; [exact Hp|]. intros c [Hc Hpc]. by apply shown_denotes. }
    exists Q, es. rewrite <- list_fmap_compose in H1, H2. split_and!; [exact H1|exact H2|]. intros sigma.
    rewrite H4, <- list_fmap_compose. unfold dnf_value. clear. induction whole as [|c whole IH]; [done|]. cbn in *. by rewrite IH.
Qed.

(** The text is ASCII. *)
Lemma join_ascii sep l : Forall is_ascii sep -> Forall (Forall is_ascii) l -> Forall is_ascii (join sep l).
Proof.
  intros Hs Hl. induction Hl as [|w l Hw Hl IH]; [apply Forall_nil_2|]. destruct l as [|w' l]; [done|].
  change (join sep (w :: w' :: l)) with (w ++ sep ++ join sep (w' :: l)). by repeat apply Forall_app_2.
Qed.

Lemma bytes_ascii s : forallb (fun c => (0 <=? c) && (c <? 128)) (bytes s) = true -> Forall is_ascii (bytes s).
Proof.
  rewrite forallb_forall. intros H. apply Forall_forall. intros c Hc%list_elem_of_In. specialize (H c Hc).
  unfold is_ascii. lia.
Qed.

Lemma quoted_ascii text : Forall is_ascii text -> Forall is_ascii (quoted text).
Proof. intros H. repeat apply Forall_app_2; [by apply bytes_ascii|done|by apply bytes_ascii]. Qed.

(** Texts of ASCII parts. *)
Ltac ascii_parts := first [done|by apply bytes_ascii|by apply legible_spec|apply quoted_ascii; ascii_parts|apply Forall_app_2; ascii_parts].

Lemma expression_display_ascii e : printable e -> Forall is_ascii (expression_display e).
Proof.
  intros [Hn Hl]. destruct e as [key x|key versions operator|key operator value|p operator|name operator]; [| done | | |].
  - rewrite expression_display_version. destruct Hn as (_ & _ & HP & _). pose proof (version_part_legible x HP) as Hv.
    destruct key, (specifier_operator x); ascii_parts.
  - cbn in Hl. assert (Hk : Forall is_ascii (marker_value_string_display key)) by by destruct key; apply bytes_ascii.
    destruct operator; cbn [expression_display]; ascii_parts.
  - cbn in Hl. apply andb_true_iff in Hl as [Hl _]. cbn [expression_display]. destruct operator, (pair_key p); ascii_parts.
  - cbn in Hl. apply andb_true_iff in Hl as [Hl _]. cbn [expression_display]. destruct operator; ascii_parts.
Qed.

Lemma dnf_display_chars dnf : Forall (Forall printable) dnf -> Forall is_char (dnf_display dnf).
Proof.
  intros Hp. assert (Hc : Forall (fun clause => Forall is_ascii (conjunction_display clause)) dnf).
  { eapply Forall_impl; [exact Hp|]. intros clause Hc. apply join_ascii; [by apply bytes_ascii|]. apply Forall_fmap.
    eapply Forall_impl; [exact Hc|]. apply expression_display_ascii. }
  assert (H : Forall is_ascii (dnf_display dnf)); [|eapply Forall_impl; [exact H|]; unfold is_ascii, is_char; lia].
  assert (Hall : Forall is_ascii (join (bytes " or ") (clause_shown <$> dnf))).
  { apply join_ascii; [by apply bytes_ascii|]. apply Forall_fmap. eapply Forall_impl; [exact Hc|]. intros clause H.
    destruct clause as [|e [|e' clause]]; [by apply (bytes_ascii "()")|exact H|].
    apply Forall_app_2; [by apply bytes_ascii|]. by apply Forall_app_2; [exact H|apply bytes_ascii]. }
  destruct dnf as [|clause [|clause' dnf]]; [apply Forall_nil_2|exact (Forall_inv Hc)|exact Hall].
Qed.

(** ** What the clauses of a cover compare *)

Lemma release_normal key op v :
  release_version v -> op <> ExactEqual -> (op = TildeEqual -> (2 <= release_len v)%nat) ->
  expression_normal (ExprVersion (marker_value_version key) (mkSpecifier op v)).
Proof.
  intros Hv Hop Ht. split_and!; [by destruct key|by apply release_valid| |done].
  split; [apply Hv|]. cbn. destruct (release_fields v Hv) as (_ & _ & _ & _ & ->). by apply Forall_nil_2.
Qed.

Section Normal.
Context {RV : RangeOps Version} {RS : RangeOps (list Z)}.
Context {LV : RangeLaws version_cmp_slow} {LS : RangeLaws string_cmp}.

Lemma version_alternatives_normal key (r : range Version) alts :
  Forall release_version (range_values r) -> version_alternatives key r = Some alts -> plain_clauses alts = true ->
  Forall (Forall expression_normal) alts.
Proof.
  intros Hv. unfold version_alternatives. destruct (range_inequality version_eq r) as [ex|] eqn:Ein.
  - intros [= <-] _. apply Forall_cons_2; [|apply Forall_nil_2]. apply Forall_fmap, Forall_fmap, Forall_forall. intros v Hin.
    apply release_normal; [|done..]. rewrite Forall_forall in Hv. apply Hv. by apply (range_inequality_in _ _ _ Ein).
  - destruct (star_range_specifier r) as [[x|]|] eqn:Estar; [| |done].
    + intros [= <-] Hplain. pose proof (star_range_operator r x Estar) as Hop. cbn in Hplain.
      rewrite Hop, !andb_true_r in Hplain. apply Nat.eqb_eq in Hplain. destruct a_release as [w Hw].
      destruct (star_range_spec r x w Hv Hw Estar Hplain) as (_ & Hr & _). destruct x as [op v]. cbn in Hop. subst op.
      apply Forall_cons_2; [|apply Forall_nil_2]. apply Forall_cons_2; [|apply Forall_nil_2]. by apply release_normal.
    + destruct (mapM _ _) as [xss|] eqn:Em; [|done]. intros [= <-] _. apply mapM_Some_1 in Em.
      apply Forall_fmap, Forall_forall. intros xs Hxs. apply list_elem_of_lookup in Hxs as [k Hk].
      destruct (Forall2_lookup_r _ _ _ _ _ Em Hk) as (bounds & Hb & E). apply list_elem_of_lookup_2 in Hb.
      destruct (segment_releases r bounds Hv Hb) as [Hlo Hhi]. pose proof (release_only_bounds_releases _ _ _ Hlo Hhi E) as Hcmp.
      destruct a_release as [w Hw]. destruct (release_only_bounds_spec w Hw _ _ Hlo Hhi) as (xs' & E' & Hvalid & _).
      rewrite E in E'. injection E' as <-. apply Forall_fmap. rewrite Forall_forall in Hcmp, Hvalid |- *. intros [op v] Hx.
      destruct (Hcmp _ Hx) as [H1 H2]. apply release_normal; [done|done|]. apply (valid_tilde _ (Hvalid _ Hx)).
Qed.

Lemma string_comparisons_normal key lower upper : Forall expression_normal (string_comparisons key lower upper).
Proof.
  apply Forall_fmap. unfold operator_from_bounds.
  destruct lower as [a|a|], upper as [b|b|]; cbn; repeat case_decide; by repeat apply Forall_cons_2; [..|apply Forall_nil_2].
Qed.

Lemma boolean_alternatives_normal high low child expression :
  (forall b, expression_normal (expression b)) ->
  Forall (Forall expression_normal) (boolean_alternatives high low child expression).
Proof.
  intros He. apply Forall_fmap, Forall_forall. intros e _. by apply Forall_cons_2; [apply He|apply Forall_nil_2].
Qed.

Context (table : list Node) (Hok : table_ok table).

Lemma guard_alternatives_normal g alts :
  guard_plain table g = true -> guard_alternatives table g = Some alts -> Forall (Forall expression_normal) alts.
Proof.
  unfold guard_plain. intros [Hnode Hplain]%andb_true_iff E. rewrite E in Hplain. unfold guard_alternatives, kind in E.
  destruct (node_is_true (guard_ref g)); [injection E as <-; by apply Forall_cons_2; [apply Forall_nil_2|apply Forall_nil_2]|].
  destruct (node_is_false (guard_ref g)); [injection E as <-; apply Forall_nil_2|].
  destruct (node_at table (guard_ref g)) as [[v e]|] eqn:En; [|done]. cbn [mbind option_bind node_var node_children] in *.
  destruct v as [key|key|key|key value|key value|name|p], e as [edges|edges|high low]; try done; cbn [mbind option_bind kind_alternatives] in E.
  - injection E as <-. unfold string_alternatives. destruct (range_inequality _ _).
    + apply Forall_cons_2; [|apply Forall_nil_2]. by apply Forall_fmap, Forall_forall.
    + apply Forall_fmap, Forall_forall. intros bounds _. apply string_comparisons_normal.
  - eapply version_alternatives_normal; [|exact E|done]. rewrite guard_range_child. by eapply child_range_releases.
  - injection E as <-. apply boolean_alternatives_normal. by intros [].
  - injection E as <-. apply boolean_alternatives_normal. by intros [].
  - injection E as <-. by apply boolean_alternatives_normal.
  - injection E as <-. by apply boolean_alternatives_normal.
Qed.

(** Clauses that are not empty, of such expressions. *)
Definition clause_normal (clause : list MarkerExpression) : Prop := clause <> [] /\ Forall expression_normal clause.

Definition collects_normal (collect : Dnf -> list MarkerExpression -> option Dnf) : Prop :=
  forall dnf path dnf', collect dnf path = Some dnf' -> Forall clause_normal dnf -> Forall expression_normal path ->
    Forall clause_normal dnf'.

Lemma collect_true_normal : collects_normal collect_true.
Proof.
  intros dnf path dnf' [= <-] Hd Hp. destruct path as [|e path]; [done|]. apply Forall_app_2; [done|].
  by apply Forall_cons_2; [split|apply Forall_nil_2].
Qed.

Lemma collect_guard_normal g collect :
  guard_plain table g = true -> collects_normal collect -> collects_normal (collect_guard table g collect).
Proof.
  intros Hg Hc dnf path dnf'. unfold collect_guard. destruct (guard_alternatives table g) as [alts|] eqn:Ea; [|done].
  cbn [mbind option_bind]. pose proof (guard_alternatives_normal g alts Hg Ea) as Hn. clear Ea Hg.
  assert (Hnone : forall l, foldl (fun dnf alternative => dnf ← dnf; collect dnf (path ++ alternative)) None l = None) by by induction l.
  revert dnf. induction Hn as [|alt alts Ha _ IH]; intros dnf; cbn [foldl]; [by intros [= ->]|]. cbn [mbind option_bind].
  destruct (collect dnf (path ++ alt)) as [d|] eqn:Ed; [|by rewrite Hnone].
  intros E Hd Hp. apply (IH d E); [|done]. apply (Hc _ _ _ Ed Hd). by apply Forall_app_2.
Qed.

Lemma collect_cover_normal cover : cover_valid table cover -> cover_plain table cover = true -> collects_normal (collect_cover table cover).
Proof.
  induction 1 as [| |node var Hv Ha|branches Hg Hc IH]; intros Hplain.
  - by intros dnf path dnf' [= <-].
  - apply collect_true_normal.
  - by apply collect_guard_normal; [|apply collect_true_normal].
  - cbn [cover_plain] in Hplain. clear Hc Hg. induction branches as [|[g c] branches IHb]; [by intros dnf path dnf' [= <-]|].
    cbn [forallb] in Hplain. apply andb_true_iff in Hplain as [[Hpg Hpc]%andb_true_iff Hpb].
    assert (Hfirst := collect_guard_normal g _ Hpg (IH g c ltac:(by left) Hpc)).
    assert (Hrest : collects_normal (collect_cover table (CoverBranches branches))).
    { apply IHb; [|done]. intros g' c' H. by apply (IH g'); right. }
    clear IH IHb. intros dnf path dnf'.
    change (collect_cover table (CoverBranches ((g, c) :: branches)) dnf path) with
      (d ← collect_guard table g (collect_cover table c) dnf path; collect_cover table (CoverBranches branches) d path).
    destruct (collect_guard _ _ _ _ _) as [d|] eqn:Ed; [|done]. cbn [mbind option_bind]. intros E Hd Hp.
    apply (Hrest _ _ _ E); [|done]. by apply (Hfirst _ _ _ Ed).
Qed.

Lemma sort_normal dnf : Forall clause_normal dnf -> Forall clause_normal (sort dnf).
Proof.
  intros H. unfold sort. rewrite sort_by_perm. apply Forall_fmap. eapply Forall_impl; [exact H|]. intros clause [Hne Hn]. cbn.
  pose proof (sort_by_perm (cmp_on expression_kind kind_cmp) clause) as Hp. split; [|by rewrite Hp].
  intros E. rewrite E in Hp. by apply Permutation_nil in Hp.
Qed.
End Normal.

(** The normal form of a marker with a plain cover. *)
Lemma to_dnf_normal {RV : RangeOps Version} {RS : RangeOps (list Z)} {LV : RangeLaws version_cmp_slow} {LS : RangeLaws string_cmp}
    {C : Type} (s s' : Interner * C) marker cover dnf :
  table_ok (nodes s'.1) -> isop marker s = Some (cover, s') -> cover_valid (nodes s'.1) cover ->
  cover_plain (nodes s'.1) cover = true -> to_dnf marker s = Some (dnf, s') -> Forall clause_normal dnf.
Proof.
  intros Hok E Hvalid Hplain. unfold to_dnf, bind. rewrite E. unfold get_interner, lift_option. cbn.
  destruct (collect_cover _ _ _ _) as [d|] eqn:Ed; [|done]. cbn. intros [= <-]. apply sort_normal.
  by apply (collect_cover_normal _ Hok cover Hvalid Hplain _ _ _ Ed); apply Forall_nil_2.
Qed.

(** What is printed for a normal form is read to a tree of its value. *)
Lemma dnf_yields `{!Alphabetic, !AlphabeticLaws} {RV : RangeOps Version} {RS : RangeOps (list Z)}
    {LV : RangeLaws version_cmp_slow} {LS : RangeLaws string_cmp} (st : Interner) dnf :
  interner_ok st -> dnf <> [] -> Forall clause_normal dnf -> forallb (forallb expression_legible) dnf = true ->
  yields (parse_markers (dnf_display dnf)) st (fun x table =>
    exists tree, x.1 = Ok tree /\ tree_denotes (fun sigma => dnf_value sigma dnf) tree table).
Proof.
  intros Hst Hne Hn Hl. assert (Hp : Forall (fun clause => clause <> [] /\ Forall printable clause) dnf).
  { rewrite forallb_forall in Hl. rewrite Forall_forall in Hn |- *. intros clause Hc. destruct (Hn _ Hc) as [H1 H2]. split; [done|].
    apply list_elem_of_In in Hc. specialize (Hl _ Hc). rewrite forallb_forall in Hl. rewrite Forall_forall in H2 |- *.
    intros e He. split; [by apply H2|by apply Hl, list_elem_of_In]. }
  destruct (dnf_denotes dnf Hne Hp) as (Q & es & Ht & _ & HQ).
  destruct (grammar_yields st 2 (dnf_display dnf) [] (Some Q) es Hst Ht no_spaces) as (x & st' & E & Hok & Hpre & tree & Ex & Hv & Htree).
  { rewrite app_nil_r. apply dnf_display_chars. eapply Forall_impl; [exact Hp|]. by intros clause [_ ?]. }
  rewrite app_nil_r in E. exists x, st'. split_and!; [done..|]. exists tree. split; [done|]. split; [done|].
  intros env extras Henv Hvars. rewrite (Htree env extras Henv Hvars). cbn. by rewrite HQ.
Qed.

(** ** Markers *)

(** The extra that all conjunctions have. *)
Lemma common_extra_in dnf extra name :
  common_extra dnf extra = Some name -> Forall (fun clause => ExprExtra name ExtraEqual ∈ clause) dnf /\ (extra = None \/ extra = Some name).
Proof.
  revert extra. induction dnf as [|clause dnf IH]; intros extra; cbn [common_extra]; [intros ->; split; [apply Forall_nil_2|by right]|].
  destruct (head (omap equal_extra clause)) as [found|] eqn:Ef; [|done]. cbn [mbind option_bind].
  assert (Hin : ExprExtra found ExtraEqual ∈ clause).
  { destruct (omap equal_extra clause) as [|x l] eqn:Eo; [done|]. injection Ef as <-.
    assert (Hx : x ∈ omap equal_extra clause) by (rewrite Eo; by left). apply list_elem_of_omap in Hx as (e & He & Ee).
    destruct e as [| | | |n op]; try done. destruct op; [|done]. by injection Ee as ->. }
  destruct extra as [name'|].
  - destruct (decide (name' = found)) as [->|]; [|done]. intros [H [?|[= ->]]]%IH; [done|]. split; [by apply Forall_cons_2|by right].
  - intros [H [?|[= ->]]]%IH; [done|]. split; [by apply Forall_cons_2|by left].
Qed.

Lemma common_extra_value sigma dnf extra :
  common_extra dnf None = Some (ExtraValid extra) -> dnf_value sigma dnf = true -> bool_at sigma (VarExtra extra) = true.
Proof.
  intros [H _]%common_extra_in (clause & Hc & Hv)%existsb_exists. rewrite Forall_forall in H. apply list_elem_of_In in Hc.
  unfold clause_value in Hv. rewrite forallb_forall in Hv. specialize (H _ Hc). apply list_elem_of_In, Hv in H. exact H.
Qed.

Section Markers.
Context {RV : RangeOps Version} {RS : RangeOps (list Z)}.
Context {LV : RangeLaws version_cmp_slow} {LS : RangeLaws string_cmp}.
Context (st st' : Interner) (marker : NodeId) (cover : Cover).
Context (Hst : interner_ok st) (Hm : node_valid (nodes st) marker) (Hcover : isop marker (st, tt) = Some (cover, (st', tt))).
Context (Hplain : cover_plain (nodes st') cover = true).

(** The interner after the extraction. *)
Lemma cover_extends :
  interner_ok st' /\ nodes st `prefix_of` nodes st' /\ covers_marker marker cover (nodes st') /\
  forall sigma, eval (nodes st') sigma marker = eval (nodes st) sigma marker.
Proof.
  pose proof (isop_outcome (fun (_ : ()) (_ : list Node) => True) False [] marker (st, tt)) as H. unfold outcome in H. rewrite Hcover in H.
  destruct H as ([Hok' _] & Hp & Hv); [by split|done|done|]. cbn in Hp, Hv. split_and!; [done..|].
  intros sigma. apply eval_extend; [apply Hst|apply Hok'|done..].
Qed.

Lemma normal_form_value :
  exists dnf, to_dnf marker (st, tt) = Some (dnf, (st', tt)) /\
    ((exists tau, environment tau /\ eval (nodes st) tau marker = false) ->
      forall sigma, environment sigma -> dnf_value sigma dnf = eval (nodes st) sigma marker).
Proof.
  destruct cover_extends as (Hok' & Hp & Hc & He).
  destruct (to_dnf_value (st, tt) (st', tt) marker cover) as (dnf & Ed & Hd); [apply Hok'|done..|].
  exists dnf. split; [done|]. cbn in Hd. intros (tau & Ht & Hf) sigma Hs. rewrite <- He. apply Hd; [|done].
  exists tau. by rewrite He.
Qed.

Lemma marker_text_yields `{!Alphabetic, !AlphabeticLaws} :
  (exists tau, environment tau /\ eval (nodes st) tau marker = true) ->
  (exists tau, environment tau /\ eval (nodes st) tau marker = false) ->
  exists dnf, to_dnf marker (st, tt) = Some (dnf, (st', tt)) /\
    try_to_string marker (st, tt) = Some (Some (dnf_display dnf), (st', tt)) /\
    (forallb (forallb expression_legible) dnf = true ->
      yields (parse_markers (dnf_display dnf)) st' (fun x table =>
        exists tree, x.1 = Ok tree /\ tree_denotes (fun sigma => eval (nodes st) sigma marker) tree table)).
Proof.
  intros (tau & Ht & Etrue) Hfalse. destruct normal_form_value as (dnf & Ed & Hd). specialize (Hd Hfalse).
  destruct Hfalse as (tau' & _ & Efalse). destruct cover_extends as (Hok' & _ & Hc & _). exists dnf. split_and!; [done| |].
  - assert (Tm : node_is_true marker = false) by (apply Z.eqb_neq; intros ->; by rewrite eval_true in Efalse).
    assert (Fm : node_is_false marker = false) by (apply Z.eqb_neq; intros ->; by rewrite eval_false in Etrue).
    unfold try_to_string, contents_display. rewrite Tm, Fm. unfold bind. by rewrite Ed.
  - intros Hl. destruct (dnf_yields st' dnf) as (x & st'' & E & Hok'' & Hp'' & tree & Ex & Hv & Htree); [done| | |done|].
    + intros ->. specialize (Hd tau Ht). by rewrite Etrue in Hd.
    + by apply (to_dnf_normal (st, tt) (st', tt) marker cover); [apply Hok'| |apply Hc| |].
    + exists x, st''. split_and!; [done..|]. exists tree. split; [done|]. split; [done|].
      intros env extras Henv Hvars. rewrite (Htree env extras Henv Hvars). f_equal. by apply Hd.
Qed.

(** ** The extra of a marker *)

(** The decision on an extra that leads to [true] alone. *)
Lemma extra_kind_value (table : list Node) i name high low sigma :
  table_ok table -> kind table i = Some (KindExtra name high low) -> node_is_true high = true -> node_is_false low = true ->
  eval table sigma i = bool_at sigma (VarExtra name).
Proof.
  intros Hok. unfold kind. destruct (node_is_true i); [done|]. destruct (node_is_false i); [done|].
  destruct (node_at table i) as [[v e]|] eqn:En; [|done]. cbn [mbind option_bind node_var node_children].
  destruct v, e; try done. intros [= <- <- <-] Hh%Z.eqb_eq Hl%Z.eqb_eq.
  destruct (eval_node table sigma i _ Hok En) as (c & Ec & _ & ->). cbn in Ec. injection Ec as <-.
  destruct (bool_at _ _); [by rewrite Hh, eval_true|by rewrite Hl, eval_false].
Qed.

Lemma top_level_extra_holds extra s :
  (forall name high low, kind (nodes st) marker = Some (KindExtra name high low) -> node_is_true high = true -> node_is_false low = true) ->
  (exists tau, environment tau /\ eval (nodes st) tau marker = false) ->
  top_level_extra_name marker (st, tt) = Some (Some extra, s) ->
  forall sigma, environment sigma -> eval (nodes st) sigma marker = true -> bool_at sigma (VarExtra extra) = true.
Proof.
  intros Hkind Hfalse E sigma Henv Hs. destruct normal_form_value as (dnf & Ed & Hd). specialize (Hd Hfalse sigma Henv).
  assert (Hslow : forall s', (let! found := top_level_extra marker in
      match found with None => ret None | Some (ExprExtra name _) => ret (into_extra name) | Some _ => lift_option None end)
      (st, tt) = Some (Some extra, s') -> bool_at sigma (VarExtra extra) = true).
  { intros s'. unfold top_level_extra, bind. rewrite Ed. cbn [mbind option_bind ret].
    destruct (common_extra dnf None) as [name|] eqn:Ec; [|done]. cbn. destruct name as [extra'|]; [|done]. intros [= -> _].
    rewrite Hs in Hd. apply (common_extra_value sigma) in Ec; done. }
  revert E. unfold top_level_extra_name, bind, get_interner, lift_option. cbn [mbind option_bind fst].
  destruct (kind (nodes st) marker) as [k|] eqn:Ek; [|done]. cbn [mbind option_bind].
  destruct k as [| | | | | | | |name high low]; try apply Hslow. cbn [edge].
  destruct (node_is_true high) eqn:Th; [|apply Hslow]. intros [= -> _].
  by rewrite <- (extra_kind_value _ _ _ _ _ sigma (ok_table _ Hst) Ek Th (Hkind _ _ _ eq_refl Th)).
Qed.
End Markers.
