(* ===== verification/PropertiesTags.v ===== *)
(** * Properties of platform tags

    What [crates/uv-platform-tags/src] promises of the tags of wheels and interpreters. *)

From stdpp Require Import base countable list option numbers decidable strings gmap.
From Stdlib Require Import ZArith Lia.
From S2P Require Import Prelude Text Libraries VersionDisplay LanguageTag AbiTag Platform.
From S2P Require Import PlatformTag Tags EnvTags VersionTypes VersionSmall Version VersionOrder.
From S2P Require Import VersionParser VersionParserFacts SpecifierParser Normalize.
From S2P Require Import WheelFilename WheelFacts SourceDist.

Local Open Scope Z_scope.
Local Open Scope uv_scope.

(** A CPython 3.12 on Linux with glibc 2.17, used in the witnesses. *)
Definition linux : Platform := mkPlatform (OsManylinux 2 17) X86_64 None.
Definition plain_options : TagsOptions := mkTagsOptions true false false false.

Lemma linux_wf : os_wf (platform_os linux) /\ 0 <= (3, 12).2 <= U8_MAX.
Proof. cbn. unfold is_u16, U16_MAX, U8_MAX. lia. Qed.

Definition is_ok {A E : Type} (r : result A E) : bool := match r with Ok _ => true | Err _ => false end.

Lemma is_ok_Ok {A E} (r : result A E) : is_ok r = true -> exists a, r = Ok a.
Proof. destruct r; [eauto|done]. Qed.

(** C22: the tags of an interpreter are computed without a panic, unless an error is returned: they are
    exactly the supported ones, they are listed without repetition, and a tag listed earlier has a
    higher priority, the last one having priority 1. The platforms of the supported tags are those that
    the platform of the interpreter is compatible with, as the code lists them. *)
Theorem from_env_supported {BF : Bitflags} {BL : BitflagsLaws} {LC : Lowercase}
    platform v name iv options r :
  os_wf (platform_os platform) -> 0 <= v.2 <= U8_MAX ->
  from_env platform v name iv options = Ok r ->
  exists t impl plats variant,
    r = Some t /\ env_variant v name options = Ok variant /\
    implementation_parse name variant = Ok impl /\ env_platforms platform options = Ok plats /\
    (forall x, is_Some (tag_lookup (tags_map t) x) <-> supported impl v iv plats x) /\
    let tags := env_tags impl v iv plats in
    NoDup tags /\ tags_best t = head tags /\
    forall i x, tags !! i = Some x ->
      tag_lookup (tags_map t) x = Some (Z.of_nat (length tags) - Z.of_nat i).
Proof.
  intros W Hv E. destruct (from_env_spec _ _ _ _ _ _ W Hv E)
    as (t & variant & impl & ps & -> & Ev & Ei & Ep & _ & Eb & N & Hp).
  exists t, impl, ps, variant. do 4 (split; [done|]). split; [|split; [done|split; [done|]]].
  - intros x. rewrite <- env_tags_supported, <- has_priority_elem. unfold is_Some.
    by setoid_rewrite Hp.
  - intros i x Hx. apply Hp. pose proof (lookup_lt_Some _ _ _ Hx).
    rewrite <- Nat2Z.inj_sub by lia. by apply has_priority_NoDup.
Qed.

Lemma from_env_supported_witness :
  exists t, @from_env bits_flags ascii_lowercase linux (3, 12) (bytes "cpython") (3, 12) plain_options
              = Ok (Some t) /\
    is_Some (tag_lookup (tags_map t) (LangCPython (3, 12), AbiNone, PlatformAny)).
Proof.
  assert (exists r, @from_env bits_flags ascii_lowercase linux (3, 12) (bytes "cpython") (3, 12)
    plain_options = Ok r) as [r E] by (apply is_ok_Ok; vm_compute; reflexivity).
  destruct (@from_env_supported bits_flags bits_flags_laws ascii_lowercase linux (3, 12)
    (bytes "cpython") (3, 12) plain_options r) as (t & impl & plats & variant & -> & Ev & Ei & _ & S & _);
    [apply linux_wf|apply linux_wf|exact E|].
  exists t. split; [exact E|]. apply S. injection Ei as <-.
  eapply supported_cpython; [done|by right].
Defined.

(** C23: the compatibility of a wheel is the best priority of the combinations of its tags, unless the
    interpreter is free-threaded and none of the ABIs can be used there; a wheel with one tag of
    each kind is treated like its set of tags. *)
Theorem compatibility_is_best {BF : Bitflags} self w p :
  (compatibility self w = Compatible p <->
     freethreaded_mismatch self w = false /\
     (exists t, combination w t /\ tag_lookup (tags_map self) t = Some p) /\
     (forall t q, combination w t -> tag_lookup (tags_map self) t = Some q -> q <= p)) /\
  forall py abi platform,
    compatibility_tag self py abi platform = compatibility self (mkCompressedTags [py] [abi] [platform]).
Proof. split; [apply compatibility_compatible|intros; apply compatibility_tag_singleton]. Qed.

(** A language, ABI or platform tag whose numbers fit their types is read back from its text. *)
Theorem tags_read_back {BF : Bitflags} {BL : BitflagsLaws} {MC : Memchr} {ML : MemchrLaws}
    (l : LanguageTag) (a : AbiTag) (p : PlatformTag) :
  language_tag_wf l -> abi_tag_wf a -> platform_tag_wf p ->
  language_tag_from_str (language_tag_display l) = Ok l /\
  abi_tag_from_str (abi_tag_display a) = Ok a /\
  platform_tag_from_str (platform_tag_display p) = Ok p.
Proof.
  intros. split_and!; [by apply language_tag_display_parse|by apply abi_tag_display_parse|].
  by apply platform_tag_display_parse.
Qed.

Lemma tags_read_back_witness :
  language_tag_from_str (language_tag_display (LangCPython (3, 12))) = Ok (LangCPython (3, 12)) /\
  @abi_tag_from_str bits_flags (@abi_tag_display bits_flags Abi3) = Ok Abi3 /\
  @platform_tag_from_str list_memchr (platform_tag_display (Manylinux 2 17 X86_64)) = Ok (Manylinux 2 17 X86_64).
Proof.
  apply (@tags_read_back bits_flags bits_flags_laws list_memchr list_memchr_laws); [split; cbn; lia|exact I|].
  split_and!; unfold is_u16, U16_MAX; first [lia|done].
Defined.

(** C38: every tag that the parsers accept is well typed: its numbers fit the machine integers of the
    source and its opaque parts have the characters that are allowed there, so that its text is
    made of lower-case letters, digits and underscores and can be put between dashes and dots. *)
Theorem tags_well_typed {BF : Bitflags} {BL : BitflagsLaws} {MC : Memchr} s :
  (forall l, language_tag_from_str s = Ok l -> language_tag_wf l /\ tag_text (language_tag_display l)) /\
  (forall a, abi_tag_from_str s = Ok a -> abi_tag_wf a /\ tag_text (abi_tag_display a)) /\
  (forall p, platform_tag_from_str s = Ok p -> platform_tag_wf p /\ tag_text (platform_tag_display p)).
Proof.
  split_and!.
  - intros l W%language_tag_from_str_wf. split; [done|by apply language_tag_text].
  - intros a W%abi_tag_from_str_wf. split; [done|by apply abi_tag_text].
  - intros p W%platform_tag_from_str_wf. split; [done|by apply platform_tag_text].
Qed.

Lemma tags_well_typed_witness :
  abi_tag_wf (AbiCPython (3, 13) Freethreading) /\ platform_tag_wf (Macos 11 0 BinArm64).
Proof.
  split.
  - apply (@tags_well_typed bits_flags bits_flags_laws list_memchr (bytes "cp313t")). by vm_compute.
  - apply (@tags_well_typed bits_flags bits_flags_laws list_memchr (bytes "macosx_11_0_arm64")). by vm_compute.
Defined.

(** The tag of a Solaris interpreter differs from the tag read from the file name of a wheel for
    the same platform: the suffix [_64bit] is kept in the one and stripped in the other, so that
    the wheel is not compatible and the printed tag ends in the suffix twice. *)
Theorem solaris_tag_mismatch :
  illumos_tags (bytes "5_11") (bytes "i86pc") = Ok [Solaris (bytes "2_11_i86pc_64bit")] /\
  @platform_tag_from_str list_memchr (bytes "solaris_2_11_i86pc_64bit") = Ok (Solaris (bytes "2_11_i86pc")) /\
  platform_tag_display (Solaris (bytes "2_11_i86pc_64bit")) = bytes "solaris_2_11_i86pc_64bit_64bit".
Proof. split_and!; by vm_compute. Qed.

(** * Properties of distribution filenames

    What [crates/uv-distribution-filename/src] promises of the names of wheels and source
    distributions, and how wheels are matched with the tags of an interpreter. *)

#[local] Existing Instances bits_flags bits_flags_laws list_memchr list_memchr_laws.
#[local] Existing Instance ascii_lowercase.

(** C24: the file name of a distribution that was accepted for a package, a wheel or a source
    distribution of any extension, is printed so that it is accepted again, for the package and
    without knowing it, with the same name, version, and tags or extension. *)
Theorem distribution_roundtrip {BF : Bitflags} {BL : BitflagsLaws} {MC : Memchr} {ML : MemchrLaws}
    filename package d :
  Forall is_u8 filename -> normalized_name package ->
  try_from_filename filename package = Some (Some d) ->
  exists d', try_from_filename (dist_display d) (dist_name d) = Some (Some d') /\ same_dist d d' /\
             try_from_normalized_filename (dist_display d) = Some (Some d').
Proof. apply dist_roundtrip. Qed.

Lemma distribution_roundtrip_witness :
  exists d d', try_from_filename (bytes "Foo.Bar-1.0-py2.py3-none-any.whl") (bytes "foo-bar") = Some (Some d) /\
    dist_display d = bytes "foo_bar-1.0-py2.py3-none-any.whl" /\
    try_from_filename (dist_display d) (dist_name d) = Some (Some d').
Proof.
  destruct (try_from_filename (bytes "Foo.Bar-1.0-py2.py3-none-any.whl") (bytes "foo-bar")) as [[d|]|] eqn:E;
    [|vm_compute in E; discriminate E..].
  destruct (distribution_roundtrip (bytes "Foo.Bar-1.0-py2.py3-none-any.whl") (bytes "foo-bar") d)
    as (d' & E' & _ & _).
  - apply (bool_decide_unpack _). vm_compute. exact I.
  - vm_compute. reflexivity.
  - exact E.
  - exists d, d'. split; [reflexivity|]. split; [|exact E'].
    vm_compute in E. injection E as <-. vm_compute. reflexivity.
Defined.

(** C37: reading the name of a wheel does not panic; a name with less than five or more than seven
    components is rejected with the reason. *)
Theorem wheel_name_total {BF : Bitflags} {MC : Memchr} {ML : MemchrLaws} filename hint :
  Forall is_u8 filename ->
  parse_filename filename hint <> None /\
  (strip_suffix (bytes ".whl") filename = None ->
     parse_filename filename hint = Some (Err (InvalidWheelFileName filename "Must end with .whl"))) /\
  forall stem, strip_suffix (bytes ".whl") filename = Some stem ->
    let n := length (split_char 45 stem) in
    (n < 5 \/ 7 < n)%nat ->
    parse_filename filename hint = Some (Err (InvalidWheelFileName filename (component_error n))).
Proof.
  intros B. split; [by apply wheel_parse_total|]. unfold parse_filename. split; [by intros ->|].
  intros stem -> Hn. unfold wheel_parse. rewrite wheel_parts_spec.
  destruct (split_char 45 stem) as [|c1 [|c2 [|c3 [|c4 [|c5 [|c6 [|c7 [|c8 l]]]]]]]]; cbn in Hn; try lia; done.
Qed.

Lemma wheel_name_total_witness :
  parse_filename (bytes "foo-1.0-none.whl") None =
    Some (Err (InvalidWheelFileName (bytes "foo-1.0-none.whl") "Must have an ABI tag")).
Proof.
  apply (wheel_name_total (bytes "foo-1.0-none.whl") None ltac:(apply (bool_decide_unpack _); vm_compute; exact I))
    with (stem := bytes "foo-1.0-none").
  - vm_compute. reflexivity.
  - vm_compute. lia.
Defined.

(** The name of the package, given as a hint to save the normalisation, changes nothing. *)
Theorem wheel_hint_irrelevant {BF : Bitflags} {MC : Memchr} filename name hint :
  package_name_from_str name = Ok hint -> wheel_from_hint filename hint = wheel_from_str filename.
Proof. intros H. apply wheel_hint. by eapply validate_normalized. Qed.

Lemma wheel_hint_irrelevant_witness :
  wheel_from_hint (bytes "Foo.Bar-1.0-py3-none-any.whl") (bytes "foo-bar") =
  wheel_from_str (bytes "Foo.Bar-1.0-py3-none-any.whl").
Proof. apply (wheel_hint_irrelevant _ (bytes "Foo_Bar")). vm_compute. reflexivity. Defined.

(** For the tags of an interpreter, the quick test and the compatibility of a wheel agree, from its
    file name and from the rows of its [WHEEL] file; the rows are matched one by one, and the best
    of them counts. *)
Theorem wheel_compatibility_agrees {BF : Bitflags} {BL : BitflagsLaws} {MC : Memchr} {LC : Lowercase}
    platform v name iv options tags :
  os_wf (platform_os platform) -> 0 <= v.2 <= U8_MAX ->
  from_env platform v name iv options = Ok (Some tags) ->
  (forall w, wheel_is_compatible w tags = tag_is_compatible (wheel_compatibility w tags)) /\
  (forall rows, expanded_is_compatible rows tags = tag_is_compatible (expanded_compatibility rows tags)) /\
  (forall rows, (2 <= length rows)%nat ->
     (exists r, r ∈ rows /\ expanded_compatibility rows tags = compatibility tags (compressed_tags r)) /\
     forall r, r ∈ rows ->
       tag_le (compatibility tags (compressed_tags r)) (expanded_compatibility rows tags)).
Proof.
  intros W Hv E. pose proof (from_env_consistent _ _ _ _ _ _ W Hv E) as C. split_and!.
  - intros w. by apply wheel_compatible_agree.
  - intros rows. by apply expanded_compatible_agree.
  - intros [|r [|r' rows]] Hl; cbn in Hl; [lia..|]. apply expanded_compatibility_best.
Qed.

Lemma wheel_compatibility_agrees_witness :
  exists tags, from_env (mkPlatform (OsMusllinux 1 2) X86_64 None) (3, 12) (bytes "cpython") (3, 12)
                 (mkTagsOptions true false false false) = Ok (Some tags) /\
    forall w, wheel_is_compatible w tags = tag_is_compatible (wheel_compatibility w tags).
Proof.
  assert (os_wf (platform_os (mkPlatform (OsMusllinux 1 2) X86_64 None)) /\ 0 <= (3, 12).2 <= U8_MAX) as [W V]
    by (cbn; unfold is_u16, U16_MAX, U8_MAX; lia).
  assert (exists tags, from_env (mkPlatform (OsMusllinux 1 2) X86_64 None) (3, 12) (bytes "cpython") (3, 12)
    (mkTagsOptions true false false false) = Ok (Some tags)) as [tags E].
  { destruct (from_env _ _ _ _ _) as [r|e] eqn:E.
    - destruct (from_env_spec _ _ _ _ _ _ W V E) as (t & _ & _ & _ & -> & _). by exists t.
    - exfalso. assert (match from_env (mkPlatform (OsMusllinux 1 2) X86_64 None) (3, 12)
        (bytes "cpython") (3, 12) (mkTagsOptions true false false false) with Ok _ => true | Err _ => false end
        = true) as T by (vm_compute; reflexivity). rewrite E in T. discriminate T. }
  exists tags. split; [exact E|].
  exact (proj1 (wheel_compatibility_agrees (mkPlatform (OsMusllinux 1 2) X86_64 None) (3, 12)
    (bytes "cpython") (3, 12) (mkTagsOptions true false false false) tags W V E)).
Defined.

(** The cache key of a wheel is at most 64 bytes long, whatever its version and tags. *)
Theorem cache_key_bounded {BF : Bitflags} {DG : Digest} {DL : DigestLaws} (w : WheelFilename) :
  (length (wheel_cache_key w) <= 64)%nat.
Proof. apply cache_key_length. Qed.

Definition zero_digest : Digest := {| sea_hash := fun _ => 0; hex_encode := fun l => l ++ l |}.

Lemma zero_digest_laws : @DigestLaws zero_digest.
Proof. split; [done|]. intros l. cbn. rewrite length_app. lia. Qed.

Lemma cache_key_bounded_witness :
  let w := mkWheel (bytes "foo") (Small small_new)
             (WheelSmall (mkSmall (LangPython 3 None) AbiNone PlatformAny)) in
  (length (@wheel_cache_key bits_flags zero_digest w) <= 64)%nat.
Proof. intros w. apply (@cache_key_bounded bits_flags zero_digest zero_digest_laws w). Defined.

(** The splitter over the positions of a delimiter yields the pieces between the delimiters, but
    leaves out an empty last piece. *)
Theorem splitter_pieces {MC : Memchr} {ML : MemchrLaws} haystack delimiter :
  splitter_collect haystack delimiter = drop_empty_last (split_char delimiter haystack).
Proof. apply splitter_collect_spec. Qed.

Lemma splitter_pieces_witness :
  splitter_collect (bytes "py2.py3") 46 = [bytes "py2"; bytes "py3"].
Proof. rewrite (splitter_pieces (bytes "py2.py3") 46). vm_compute. reflexivity. Defined.

(** A component with an empty tag in the middle is rejected, but one that ends in a period is
    accepted, since the splitter does not yield the empty tag there. *)
Theorem trailing_period_accepted :
  match wheel_from_str (bytes "foo-1.2.3-py3.-none-any.whl") with
  | Some (Ok w) => wheel_display w = bytes "foo-1.2.3-py3.-none-any.whl"
  | _ => False
  end /\
  match wheel_from_str (bytes "foo-1.2.3-py2..py3-none-any.whl") with
  | Some (Err e) => e = invalid_tag_component (bytes "foo-1.2.3-py2..py3-none-any.whl")
  | _ => False
  end.
Proof. split; vm_compute; reflexivity. Qed.

(** A build tag is accepted exactly when it consists of letters, digits, underscores and periods,
    starts with a digit, and its leading digits fit 64 bits; it is its number and the rest, and is
    read back from its text. *)
Theorem build_tag_correct s :
  build_tag_from_str s =
    (if bool_decide (s = []) then Err BuildEmpty
     else if negb (forallb is_build_tag_byte s) then Err BuildInvalidCharacters
     else if negb (starts_with_digit s) then Err BuildNoLeadingDigit
     else match parse_unsigned U64_MAX (take_while is_ascii_digit s) with
          | None => Err BuildParseInt
          | Some n =>
              let rest := skip_while is_ascii_digit s in
              Ok (mkBuildTag n (if bool_decide (rest = []) then None else Some rest))
          end) /\
  ~ (exists t, build_tag_from_str s = Ok t /\ build_tag_from_str (build_tag_display t) <> Ok t).
Proof.
  split; [apply build_tag_from_str_spec|]. intros (t & E & H). by apply H, (build_tag_roundtrip s).
Qed.
