(* ===== verification/PropertiesMarkers.v ===== *)
(** * Properties of markers

    What [crates/uv-pep508/src/marker] promises: the calls on markers return and keep the interner
    well-formed, connectives and expressions have their meaning in every environment, queries are
    sound, and the rewriting of markers preserves what it should. *)

From stdpp Require Import base countable list option numbers decidable strings gmap.
From Stdlib Require Import ZArith Lia.
From S2P Require Import Prelude Text Ranges VersionTypes VersionSmall Version VersionOrder VersionParser.
From S2P Require Import VersionSpecifier VersionRangesFacts ReleaseRanges SpecifierFacts SpecifierBounds Examples.
From S2P Require Import MarkerTypes.
From S2P Require Import Interner MarkerAlgebra MarkerRestrict PythonVersion MarkerTree MarkerEval.
From S2P Require Import InternerFacts EdgesFacts AlgebraFacts ExclusionFacts.
From S2P Require Import ExpressionFacts RestrictFacts AssumptionFacts.
From S2P Require Import SubstitutionFacts TreeFacts MarkerApi.

Local Open Scope Z_scope.
Local Open Scope uv_scope.

#[local] Existing Instances version_ranges string_ranges version_ranges_laws string_ranges_laws.

(** ** The interner *)

(** C1: After any sequence of calls on markers (of the algebra, on extras, and of normal forms), the interner
    is well-formed: the decisions are ordered and
    exhaustive, equal nodes are shared, the caches are right, and all the markers that were returned
    are in its table. *)
Theorem markers_invariant {RV : RangeOps Version} {RS : RangeOps (list Z)}
    {LV : RangeLaws version_cmp_slow} {LS : RangeLaws string_cmp} (s : ApiState) :
  api_reachable s -> api_ok s.
Proof. apply api_reachable_ok. Qed.

Lemma markers_invariant_witness : api_ok both_state.
Proof. apply (markers_invariant both_state). apply both_reachable. Defined.

(** C28: After any sequence of calls, each further call on the markers that were returned so far, except those
    that extract a normal form ([to_dnf], [try_to_string], [top_level_extra_name], which can panic),
    returns: it does not panic and its recursion ends; and the markers keep their values. Expressions are
    ones that the parser makes, and bounds of Python versions have versions of the parser. *)
Theorem markers_progress {RV : RangeOps Version} {RS : RangeOps (list Z)}
    {LV : RangeLaws version_cmp_slow} {LS : RangeLaws string_cmp} (s : ApiState) (c : Call) :
  api_reachable s -> extracts c = false -> call_ok c -> (forall i, i ∈ call_operands c -> i ∈ api_issued s) ->
  exists s', api_step s s' /\ api_reachable s' /\
    (forall i, i ∈ api_issued s -> i ∈ api_issued s') /\
    forall i sigma, i ∈ api_issued s ->
      eval (nodes (api_interner s')) sigma i = eval (nodes (api_interner s)) sigma i.
Proof.
  intros Hs Hx Hc Hop. pose proof (api_reachable_ok s Hs) as Hok. destruct s as [st issued].
  destruct (api_call_returns c st issued Hok Hx Hc Hop) as (out & st' & E).
  assert (Hstep : api_step (mkApiState st issued) (mkApiState st' (out ++ issued))) by by apply (api_call c).
  destruct (api_step_ok _ _ Hok Hstep) as [Hok' Hp].
  exists (mkApiState st' (out ++ issued)). split_and!; [done|by eapply api_reachable_step|cbn; set_solver|].
  intros i sigma Hi. apply eval_extend; [apply Hok|apply Hok'|done|by apply (api_ok_issued _ Hok)].
Qed.

Lemma markers_progress_witness : exists s', api_step example_state s'.
Proof.
  destruct (markers_progress example_state (CallOr posix_node python_node)) as (s' & H & _);
    [apply example_reachable|done|done| |by exists s'].
  intros i Hi. apply (bool_decide_unpack _). cbn in Hi.
  assert (i = posix_node \/ i = python_node) as [->| ->] by set_solver; vm_compute; exact I.
Defined.

(** ** Meaning *)

(** C2: In every environment that the known exclusions allow, and in which the markers can be evaluated, the
    negation, conjunction, disjunction and implication of markers evaluate to the negation,
    conjunction, disjunction and implication of their values. *)
Theorem connectives_evaluate {RV : RangeOps Version} {RS : RangeOps (list Z)}
    {LV : RangeLaws version_cmp_slow} {LS : RangeLaws string_cmp} (st : Interner) (i j : NodeId) :
  interner_ok st -> node_valid (nodes st) i -> node_valid (nodes st) j ->
  combines st i j (fun x _ => negb x) (tree_negate i) (nodes st) /\
  yields (tree_and i j) st (combines st i j andb) /\
  yields (tree_or i j) st (combines st i j orb) /\
  yields (tree_implies i j) st (combines st i j implb).
Proof.
  intros Hst Hi Hj. pose proof (ok_table _ Hst) as Hok. split_and!.
  - apply combines_intro; try done; [by apply not_valid| |intros; by apply eval_not].
    intros P HP _. apply all_vars_not; [apply Hi|done].
  - eapply runs_yields; [done|intros; by apply tree_and_runs|]. intros r table Hok' Hp (_ & _ & [H1 H2 H3]).
    by apply combines_intro.
  - eapply runs_yields; [done|intros; by apply tree_or_runs|]. intros r table Hok' Hp [H1 H2 H3].
    by apply combines_intro.
  - eapply runs_yields; [done|intros; apply (tree_or_runs (fun _ _ => True)); [done|by apply not_valid|done]|].
    intros r table Hok' Hp [H1 H2 H3]. apply combines_intro; try done.
    + intros P HP. apply H3, all_vars_not; [apply Hi|done].
    + intros sigma Hal. rewrite (H2 _ Hal). unfold tree_negate. rewrite eval_not by (done || extend).
      by destruct (eval table sigma i).
Qed.

(** The example markers can be evaluated on Linux. *)
Lemma example_has_value i :
  bool_decide (i ∈ api_issued example_state) = true ->
  all_vars (nodes (api_interner example_state)) (has_value linux_env) i.
Proof.
  intros H. apply all_vars_forallb; [apply example_ok|by apply example_valid|by vm_compute].
Qed.

Lemma connectives_evaluate_witness :
  exists r st', tree_and posix_node dev_node (api_interner example_state, tt) = Some (r, (st', tt)) /\
    evaluate_in (nodes st') linux_env (EnvExtras [bytes "dev"]) r = Some true.
Proof.
  destruct (connectives_evaluate (api_interner example_state) posix_node dev_node)
    as (_ & (r & st' & E & _ & _ & H) & _); [apply example_ok|by apply example_valid; vm_compute..|].
  exists r, st'. split; [exact E|].
  destruct (H linux_env (EnvExtras [bytes "dev"])) as (x & y & Ex & Ey & ->);
    [by vm_compute|by apply example_has_value; vm_compute..|].
  vm_compute in Ex, Ey. by injection Ex as <-; injection Ey as <-.
Defined.

(** C3: Every expression that the parser makes has a marker, without a panic. In every environment of
    released versions, of Python with a minor number, that the known exclusions allow, in which the
    release of the platform is a version if the marker asks for it as one, and unless the marker asks
    for an invalid name of an extra or group, it evaluates to what the expression says of the
    environment: versions are compared with the release of the specifier, [python_version] is the first
    two numbers of the full version, and strings are ordered only for the release and the version of the
    platform. The exceptions, which evaluate to false whatever they say, are comparisons of
    [python_version] by [!=] with a star below the minor version and with a list in which some version
    has a patch number. *)
Theorem expression_evaluates {RV : RangeOps Version} {RS : RangeOps (list Z)}
    {LV : RangeLaws version_cmp_slow} {LS : RangeLaws string_cmp} (st : Interner) (expr : MarkerExpression) :
  interner_ok st -> expression_ok expr ->
  yields (tree_expression expr) st (fun r table =>
    node_valid table r /\
    forall env extras, environment (environment_at env extras) -> all_vars table (has_value env) r ->
      evaluate_in table env extras r =
        Some (if patch_constant expr then false else expression_meaning (environment_at env extras) expr)).
Proof.
  intros Hst He. eapply runs_yields; [done|intros; by apply expression_runs|].
  intros r table Hok Hp [H1 H2]. split; [done|]. intros env extras Henv Hv.
  by rewrite evaluate_in_spec, (H2 _ Henv).
Qed.

Lemma expression_evaluates_witness :
  exists r st', tree_expression (ExprVersion MvPythonVersion (specifier_of ">=3.9")) (interner_new, tt) = Some (r, (st', tt)) /\
    evaluate_in (nodes st') linux_env (EnvExtras []) r = Some true.
Proof.
  destruct (expression_evaluates interner_new (ExprVersion MvPythonVersion (specifier_of ">=3.9")))
    as (r & st' & E & Hok & _ & Hv & H); [apply interner_new_ok|apply python_expression_ok|].
  exists r, st'. split; [exact E|]. rewrite (H linux_env (EnvExtras [])).
  - by vm_compute.
  - apply linux_environment.
  - apply all_vars_forallb; [apply Hok|exact Hv|].
    apply (returns_with_eq _ _ (fun _ st' => forallb (fun node => evaluable linux_env (node_var node)) (nodes st')) _ _ E).
    by vm_compute.
Defined.

(** ** Queries *)

(** C33: The test of disjointness and the test of reachability return; two markers that are found disjoint
    never hold together, and a marker that is found unreachable never holds, in any environment that
    the exclusions allow. *)
Theorem queries_sound {RV : RangeOps Version} {RS : RangeOps (list Z)}
    {LV : RangeLaws version_cmp_slow} {LS : RangeLaws string_cmp} (st : Interner) (i j : NodeId) :
  interner_ok st -> node_valid (nodes st) i -> node_valid (nodes st) j ->
  yields (tree_is_disjoint i j) st (fun b _ => b = true ->
    forall sigma, allowed sigma -> eval (nodes st) sigma i = true -> eval (nodes st) sigma j = false) /\
  yields (tree_is_unreachable i) st (fun b _ => b = true ->
    forall sigma, allowed sigma -> eval (nodes st) sigma i = false).
Proof.
  intros Hst Hi Hj. pose proof (ok_table _ Hst) as Hok. split.
  - eapply runs_yields; [done|intros; by apply tree_is_disjoint_runs|]. intros b table Hok' Hp H -> sigma Hal.
    specialize (H eq_refl sigma Hal). rewrite !(eval_extend (nodes st) table) in H by done.
    by destruct (eval (nodes st) sigma i).
  - eapply runs_yields; [done|intros; by apply tree_is_unreachable_runs|]. intros b table Hok' Hp H -> sigma Hal.
    specialize (H eq_refl sigma Hal). by rewrite (eval_extend (nodes st) table) in H.
Qed.

Lemma queries_sound_witness :
  exists st', tree_is_disjoint posix_node (tree_negate posix_node) (api_interner example_state, tt) = Some (true, (st', tt)) /\
    forall sigma, allowed sigma -> eval (nodes (api_interner example_state)) sigma posix_node = true ->
      eval (nodes (api_interner example_state)) sigma (tree_negate posix_node) = false.
Proof.
  destruct (queries_sound (api_interner example_state) posix_node (tree_negate posix_node))
    as ((b & st' & E & _ & _ & H) & _); [apply example_ok|by apply example_valid; vm_compute|
      apply not_valid; by apply example_valid; vm_compute|].
  assert (Eb : b = true) by (apply (returns_with_eq _ _ (fun b _ => b) _ _ E); by vm_compute).
  exists st'. split; [by rewrite <- Eb|by apply H].
Defined.

(** The search for extras returns, and finds an extra exactly when a decision of the marker is on one. *)
Theorem contains_extras_correct {RV : RangeOps Version} {RS : RangeOps (list Z)}
    {LV : RangeLaws version_cmp_slow} {LS : RangeLaws string_cmp} (st : Interner) (i : NodeId) :
  interner_ok st -> node_valid (nodes st) i ->
  exists b, contains_extras (nodes st) i = Some b /\
    (b = false <-> all_vars (nodes st) (fun var => is_extra var = false) i).
Proof. intros Hst Hi. apply contains_extras_spec; [apply Hst|done]. Qed.

Lemma contains_extras_correct_witness :
  contains_extras (nodes (api_interner both_state)) both_node = Some true /\
  ~ all_vars (nodes (api_interner both_state)) (fun var => is_extra var = false) both_node.
Proof.
  destruct (contains_extras_correct (api_interner both_state) both_node) as (b & E & H);
    [apply both_ok|by apply both_valid; vm_compute|].
  vm_compute in E. injection E as <-. split; [by vm_compute|]. intros Hall%H. discriminate Hall.
Defined.

(** Evaluation with the extras alone returns; a marker that holds in some environment with these extras is
    evaluated to true, and a marker that is evaluated to true by the strict variant holds in all of
    them. *)
Theorem extras_evaluation {RV : RangeOps Version} {RS : RangeOps (list Z)}
    {LV : RangeLaws version_cmp_slow} {LS : RangeLaws string_cmp} (st : Interner) (i : NodeId) (extras : list (list Z)) :
  interner_ok st -> node_valid (nodes st) i ->
  (exists b, evaluate_extras (nodes st) i extras = Some b /\
     forall sigma, has_extras extras sigma -> eval (nodes st) sigma i = true -> b = true) /\
  (exists b, evaluate_only_extras (nodes st) i extras = Some b /\
     (b = true -> forall sigma, has_extras extras sigma -> eval (nodes st) sigma i = true)).
Proof.
  intros Hst Hi. pose proof (ok_table _ Hst) as Hok. split.
  - destruct (evaluate_extras_covers (S (node_rank i)) (nodes st) extras i Hok Hi) as (b & E & H); [lia|].
    exists b. split; [done|]. eauto.
  - apply evaluate_only_extras_tests; [done..|lia].
Qed.

Lemma extras_evaluation_witness :
  evaluate_extras (nodes (api_interner both_state)) both_node [] = Some false /\
  forall sigma, has_extras [] sigma -> eval (nodes (api_interner both_state)) sigma both_node = false.
Proof.
  destruct (extras_evaluation (api_interner both_state) both_node []) as [(b & E & H) _];
    [apply both_ok|by apply both_valid; vm_compute|].
  split; [by vm_compute|]. vm_compute in E. injection E as <-. intros sigma Hx. specialize (H sigma Hx).
  by destruct (eval (nodes (api_interner both_state)) sigma both_node); [symmetry; apply H|].
Defined.

(** ** Rewriting *)

(** C34: Restriction to an assumption returns a marker with no new variables, that has the value of the marker
    wherever the assumption holds. *)
Theorem restrict_sound {RV : RangeOps Version} {RS : RangeOps (list Z)}
    {LV : RangeLaws version_cmp_slow} {LS : RangeLaws string_cmp} (st : Interner) (i assumption : NodeId) :
  interner_ok st -> node_valid (nodes st) i -> node_valid (nodes st) assumption ->
  yields (tree_restrict i assumption) st (fun r table =>
    (forall P, all_vars (nodes st) P i -> all_vars table P r) /\
    forall sigma, allowed sigma -> eval (nodes st) sigma assumption = true ->
      eval table sigma r = eval (nodes st) sigma i).
Proof.
  intros Hst Hi Ha. pose proof (ok_table _ Hst) as Hok. eapply runs_yields; [done|intros; by apply restrict_runs|].
  intros r table Hok' Hp [[_ H1 H2] _ H3]. split.
  - intros P HP. apply H2. by apply (all_vars_extend (nodes st)).
  - intros sigma Hal Hs. rewrite (H3 _ Hal); [by apply eval_extend|]. by rewrite (eval_extend (nodes st)).
Qed.

Lemma restrict_sound_witness :
  exists r st', tree_restrict both_node posix_node (api_interner both_state, tt) = Some (r, (st', tt)) /\
    forall sigma, allowed sigma -> eval (nodes (api_interner both_state)) sigma posix_node = true ->
      eval (nodes st') sigma r = eval (nodes (api_interner both_state)) sigma both_node.
Proof.
  destruct (restrict_sound (api_interner both_state) both_node posix_node) as (r & st' & E & _ & _ & _ & H);
    [apply both_ok|by apply both_valid; vm_compute..|].
  exists r, st'. split; [exact E|exact H].
Defined.

(** Removing the extras from a marker is existential: the result has no extras, and holds exactly where
    some choice of extras makes the marker hold. Keeping the extras alone is an upper bound: the result
    has extras only, and holds wherever the marker does. *)
Theorem extras_removed {RV : RangeOps Version} {RS : RangeOps (list Z)}
    {LV : RangeLaws version_cmp_slow} {LS : RangeLaws string_cmp} (st : Interner) (i : NodeId) :
  interner_ok st -> node_valid (nodes st) i ->
  yields (tree_without_extras i) st (fun r table =>
    all_vars table (fun var => is_extra var = false) r /\
    forall sigma, allowed sigma ->
      eval table sigma r = true <-> exists extras, eval (nodes st) (with_extras extras sigma) i = true) /\
  yields (tree_only_extras i) st (fun r table =>
    all_vars table (fun var => is_extra var = true) r /\
    forall sigma, allowed sigma -> eval (nodes st) sigma i = true -> eval table sigma r = true).
Proof.
  intros Hst Hi. pose proof (ok_table _ Hst) as Hok. split.
  - eapply runs_yields; [done|intros; by apply without_extras_runs|]. intros r table Hok' Hp [_ H1 H2 H3].
    split; [done|]. intros sigma Hal. split.
    + intros Ht. destruct (H3 sigma Hal Ht) as [extras He]. exists extras. by rewrite <- (eval_extend (nodes st) table).
    + intros [extras He]. apply (H2 sigma extras Hal). by rewrite (eval_extend (nodes st) table).
  - eapply runs_yields; [done|intros; by apply only_extras_runs|]. intros r table Hok' Hp [_ H1 H2].
    split; [done|]. intros sigma Hal He. apply (H2 _ Hal). by rewrite (eval_extend (nodes st) table).
Qed.

Lemma extras_removed_witness :
  exists r st', tree_without_extras both_node (api_interner both_state, tt) = Some (r, (st', tt)) /\
    eval (nodes st') (environment_at linux_env (EnvExtras [])) r = true.
Proof.
  destruct (extras_removed (api_interner both_state) both_node) as [(r & st' & E & _ & _ & _ & H) _];
    [apply both_ok|by apply both_valid; vm_compute|].
  exists r, st'. split; [exact E|]. apply H; [by vm_compute|]. exists (fun _ => true). by vm_compute.
Defined.

(** Simplifying a marker with a set of extras returns a marker with no new variables, whose value is that of the
    marker with these extras set; the dual operation sets them to false. *)
Theorem extras_simplified {RV : RangeOps Version} {RS : RangeOps (list Z)}
    {LV : RangeLaws version_cmp_slow} {LS : RangeLaws string_cmp} (st : Interner) (i : NodeId) (extras : list (list Z)) :
  interner_ok st -> node_valid (nodes st) i ->
  yields (simplify_extras i extras) st (fun r table =>
    (forall P, all_vars (nodes st) P i -> all_vars table P r) /\
    forall sigma, eval table sigma r =
      eval (nodes st) (with_extras (fun name => contains_name extras name || bool_at sigma (VarExtra name)) sigma) i) /\
  yields (simplify_not_extras_with i (contains_name extras)) st (fun r table =>
    (forall P, all_vars (nodes st) P i -> all_vars table P r) /\
    forall sigma, eval table sigma r =
      eval (nodes st) (with_extras (fun name => negb (contains_name extras name) && bool_at sigma (VarExtra name)) sigma) i).
Proof.
  intros Hst Hi. pose proof (ok_table _ Hst) as Hok.
  assert (Hx : forall b f, (forall sigma name, f sigma name =
      if contains_name extras name then b else bool_at sigma (VarExtra name)) ->
    yields (restrict_by i (extra_is (contains_name extras) b)) st (fun r table =>
      (forall P, all_vars (nodes st) P i -> all_vars table P r) /\
      forall sigma, eval table sigma r = eval (nodes st) (with_extras (f sigma) sigma) i)).
  { intros b f Hf. eapply runs_yields; [done|intros; by apply (simplify_extras_runs (fun _ _ => True))|].
    intros r table Hok' Hp [[_ _ H1] H2]. split.
    - intros P HP. apply H1. by apply (all_vars_extend (nodes st)).
    - intros sigma. rewrite H2, (eval_extend (nodes st) table) by done. unfold assign_extras.
      apply eval_agree; [done..|]. eapply all_vars_weaken; [|by apply all_vars_table].
      intros var _. split_and!; [done|done| |done]. cbn. by destruct var. }
  split; apply Hx; intros sigma name; by destruct (contains_name extras name).
Qed.

Lemma extras_simplified_witness :
  exists r st', simplify_extras both_node [bytes "dev"] (api_interner both_state, tt) = Some (r, (st', tt)) /\
    eval (nodes st') (environment_at linux_env (EnvExtras [])) r = true.
Proof.
  destruct (extras_simplified (api_interner both_state) both_node [bytes "dev"]) as [(r & st' & E & _ & _ & _ & H) _];
    [apply both_ok|by apply both_valid; vm_compute|].
  exists r, st'. split; [exact E|]. rewrite H. by vm_compute.
Defined.

(** Resolving the extras of a marker substitutes their conditions: the result has the value of the marker in
    which each extra has the value of its condition, and is false without one. *)
Theorem extras_resolved {RV : RangeOps Version} {RS : RangeOps (list Z)}
    {LV : RangeLaws version_cmp_slow} {LS : RangeLaws string_cmp} (st : Interner) (i : NodeId)
    (known_extras : list (list Z * Z)) :
  interner_ok st -> node_valid (nodes st) i -> Forall (fun kv => node_valid (nodes st) kv.2) known_extras ->
  yields (tree_resolve_extras i known_extras) st (fun r table =>
    forall sigma, allowed sigma -> eval table sigma r =
      eval (nodes st) (with_extras (fun name =>
        eval (nodes st) sigma (known_extra (collect_map known_extras) name)) sigma) i).
Proof.
  intros Hst Hi Hk. pose proof (ok_table _ Hst) as Hok.
  assert (Hv : known_valid (collect_map known_extras) (nodes st)) by by apply collected_valid.
  eapply runs_yields; [done|intros; by apply tree_resolve_extras_runs|].
  intros r table Hok' Hp [_ _ _ H] sigma Hal. rewrite (H _ Hal). by apply substitute_extend.
Qed.

Lemma extras_resolved_witness :
  exists r st', tree_resolve_extras both_node [(bytes "dev", linux_node)] (api_interner both_state, tt) = Some (r, (st', tt)) /\
    eval (nodes st') (environment_at linux_env (EnvExtras [])) r = true.
Proof.
  destruct (extras_resolved (api_interner both_state) both_node [(bytes "dev", linux_node)]) as (r & st' & E & _ & _ & H);
    [apply both_ok|by apply both_valid; vm_compute|
     apply Forall_cons_2; [by apply both_valid; vm_compute|apply Forall_nil_2]|].
  exists r, st'. split; [exact E|]. rewrite H by by vm_compute. by vm_compute.
Defined.

(** C35: With a lower and an upper bound for each extra, the two results bound the marker: for every choice of
    extras between their bounds, the first implies the marker and the marker implies the second. *)
Theorem extras_bounded {RV : RangeOps Version} {RS : RangeOps (list Z)}
    {LV : RangeLaws version_cmp_slow} {LS : RangeLaws string_cmp} (st : Interner) (i : NodeId)
    (known_extras : list (list Z * (Z * Z))) :
  interner_ok st -> node_valid (nodes st) i ->
  Forall (fun kv => node_valid (nodes st) kv.2.1 /\ node_valid (nodes st) kv.2.2) known_extras ->
  yields (tree_resolve_extras_with_bounds i known_extras) st (fun r table =>
    forall sigma extras, allowed sigma -> chooses (collect_map known_extras) (nodes st) sigma extras ->
      (eval table sigma r.1 = true -> eval (nodes st) (with_extras extras sigma) i = true) /\
      (eval (nodes st) (with_extras extras sigma) i = true -> eval table sigma r.2 = true)).
Proof.
  intros Hst Hi Hk. pose proof (ok_table _ Hst) as Hok.
  assert (Hv : bounds_valid (collect_map known_extras) (nodes st)) by by apply collected_bounds_valid.
  eapply runs_yields; [done|intros; by apply tree_resolve_extras_with_bounds_runs|].
  intros r table Hok' Hp [_ _ _ _ H1 H2] sigma extras Hal Hc.
  rewrite <- (chooses_extend _ (nodes st) table) in Hc by done. specialize (H1 sigma extras Hal Hc).
  specialize (H2 sigma extras Hal Hc). by rewrite (eval_extend (nodes st) table (with_extras extras sigma) i) in H1, H2.
Qed.

Lemma extras_bounded_witness :
  exists r st', tree_resolve_extras_with_bounds both_node [(bytes "dev", (linux_node, NODE_TRUE))]
      (api_interner both_state, tt) = Some (r, (st', tt)) /\
    eval (nodes st') (environment_at linux_env (EnvExtras [])) r.2 = true.
Proof.
  destruct (extras_bounded (api_interner both_state) both_node [(bytes "dev", (linux_node, NODE_TRUE))])
    as (r & st' & E & _ & _ & H);
    [apply both_ok|by apply both_valid; vm_compute|
     apply Forall_cons_2; [split; by apply both_valid; vm_compute|apply Forall_nil_2]|].
  exists r, st'. split; [exact E|]. apply (H _ (fun name => bool_decide (name = bytes "dev"))); [by vm_compute| |by vm_compute].
  intros name. unfold known_bounds, collect_map. cbn.
  destruct (decide (name = bytes "dev")) as [->|Hne].
  - rewrite lookup_insert_eq, bool_decide_eq_true_2 by done. split; [done|]. intros _. apply eval_true.
  - rewrite lookup_insert_ne, lookup_empty, bool_decide_eq_false_2 by done. cbn [default from_option fst snd].
    rewrite eval_false. by split.
Defined.

(** ** Python versions *)

(** A comparison of [python_version] is translated to one of [python_full_version], or to a constant,
    that agrees on every released Python; [!=] with a wildcard after a patch number is left out. *)
Theorem python_version_translated (op : Operator) (u : Version) :
  release_version u -> specifier_valid (mkSpecifier op u) ->
  (op = NotEqualStar -> all_zero (drop 2 (version_release u)) = true) ->
  exists t, python_version_to_full_version (mkSpecifier op u) = Some t /\
    forall w major minor rest, release_version w -> version_release w = major :: minor :: rest ->
      translated_matches t w = matches (mkSpecifier op u) (python_version_of w).
Proof.
  intros Hu V Hstar. destruct (translation_uniform op u Hu V Hstar) as (t & E & _ & H). by exists t.
Qed.

Lemma python_version_translated_witness :
  exists t, python_version_to_full_version (mkSpecifier GreaterThan (version_of "3.9")) = Some t /\
    translated_matches t (version_of "3.10.2") = true /\ translated_matches t (version_of "3.9.2") = false.
Proof.
  assert (R : release_version (version_of "3.9")) by (apply version_of_release; by vm_compute).
  destruct (python_version_translated GreaterThan (version_of "3.9")) as (t & E & H); [exact R| |done|].
  - apply release_valid; [exact R|done].
  - exists t. split; [exact E|]. split.
    + rewrite (H _ 3 10 [2]); [by vm_compute|apply version_of_release; by vm_compute|done].
    + rewrite (H _ 3 9 [2]); [by vm_compute|apply version_of_release; by vm_compute|done].
Defined.

(** Where the translation is not right: [python_version != '3.9.1.*'] holds for every Python, since
    [python_version] has no patch number, but is translated to false; and one patch version in a list
    makes [python_version in '3.9 3.12.1'] false, even for 3.9. *)
Theorem python_version_patch_constants :
  python_version_to_full_version (mkSpecifier NotEqualStar (version_of "3.9.1")) = Some (inr NODE_FALSE) /\
  matches (mkSpecifier NotEqualStar (version_of "3.9.1")) (version_of "3.9") = true /\
  edges_from_python_versions [version_of "3.9"; version_of "3.12.1"] ContainerIn = Some (inr NODE_FALSE) /\
  existsb (fun v => matches (equals_version v) (version_of "3.9")) [version_of "3.9"; version_of "3.12.1"] = true.
Proof.
  split_and!; [by vm_compute..| |by vm_compute]. unfold edges_from_python_versions.
  by replace (python_version_segments [version_of "3.9"; version_of "3.12.1"]) with (Some (inr NODE_FALSE) :
    option (list (bound_of Version * bound_of Version) + NodeId)) by by vm_compute.
Qed.
