(* ===== verification/PropertiesOnceMap.v ===== *)
(** * Theorems on [uv-once-map] *)

From stdpp Require Import base list option gmap.
From S2P Require Import Prelude OnceMap OnceMapFacts OnceMapSystem OnceMapLive.

(** ** Safety *)

(** C30: No call on a shared [RegisteredOnceMap] panics, in any interleaving of calls, drops and removals with
    exclusive access; and a value that a call returns was submitted for its key. *)
Theorem once_map_safe {K V : Type} `{EqDecision K} {C : ConcurrentMap K} {CL : ConcurrentMapLaws K}
    {N : NotifyOps} {NL : NotifyLaws} (s : System K V) (t : nat) (task : Task K V) :
  registered_reachable s -> tasks s !! t = Some task ->
  task_at task <> Panicked /\
  forall v, task_at task = Returned (AnswerOption (Some v)) \/ task_at task = Returned (AnswerValue v) ->
    (call_key (task_call task), v) ∈ submitted s.
Proof.
  intros Hs Ht. pose proof (system_tasks _ (registered_reachable_ok s Hs) t task Ht) as Hp.
  split; [by intros E; rewrite E in Hp|]. by intros v [E|E]; rewrite E in Hp.
Qed.

(** C31: One call is told to start a job: none while the key is absent, exactly one while its job runs,
    and no further one once it is completed. *)
Theorem once_map_starts_once {K V : Type} `{EqDecision K} {C : ConcurrentMap K} {CL : ConcurrentMapLaws K}
    {N : NotifyOps} {NL : NotifyLaws} (s : System K V) (k : K) :
  registered_reachable s ->
  match cmap_get (items (shared s)) k with
  | None => starters s k = O
  | Some (Waiting _) => starters s k = 1%nat
  | Some (Filled _) => (starters s k <= 1)%nat
  end.
Proof. intros Hs. apply (system_starters _ (registered_reachable_ok s Hs)). Qed.

(** C32: The shared map implements a map of jobs: a step starts the absent job of a call that is told so,
    completes a job with the value of the call, removes a job with exclusive access, or changes none. *)
Theorem once_map_refines_jobs {K V : Type} `{EqDecision K} {C : ConcurrentMap K} {CL : ConcurrentMapLaws K}
    {N : NotifyOps} {NL : NotifyLaws} (s s' : System K V) (l : Label K V) :
  registered_reachable s -> registered_exec s l = Some s' -> job_step s l s'.
Proof. intros Hs. by apply registered_exec_job, registered_reachable_ok. Qed.

(** ** Liveness *)

(** C29: In a fair execution every call that is not dropped returns, provided that the job of its key is
    completed at some time if the call may wait for it. *)
Theorem once_map_returns {K V : Type} `{EqDecision K} {C : ConcurrentMap K} {CL : ConcurrentMapLaws K}
    {N : NotifyOps} {NL : NotifyLaws} (e : nat -> System K V) (l : nat -> Label K V) (n t : nat) (task : Task K V) :
  fair_execution e l -> tasks (e n) !! t = Some task -> finished (task_at task) = false ->
  (forall m, l m <> Drop t) ->
  (may_wait (task_call task) = true -> exists m, (n <= m)%nat /\ filled (e m) (call_key (task_call task))) ->
  exists m answer, (n < m)%nat /\ tasks (e m) !! t = Some (mkTask (task_call task) (Returned answer)).
Proof. intros Hfair. by apply call_returns. Qed.

(** ** An execution *)

Definition example_labels : list (Label nat nat) :=
  [Spawn (CallRegisterEntry 1%nat); Run 0; Spawn (CallRegisterOrWait 1%nat); Run 1; Run 1; Run 1; Run 1;
   Spawn (CallDone 1%nat 42%nat); Run 2; Run 2; Run 1; Run 1; Run 1; Spawn (CallWait 1%nat); Run 3; Run 3].

Definition example_system (n : nat) : System nat nat :=
  default (system_new []) (execs registered_exec (system_new []) (take n example_labels)).

Definition example_label (n : nat) : Label nat nat := default Stutter (example_labels !! n).

Lemma example_end n : (16 <= n)%nat -> example_system n = example_system 16.
Proof. intros Hn. unfold example_system. by rewrite !take_ge by (cbn; lia). Qed.

Lemma example_next n : registered_exec (example_system n) (example_label n) = Some (example_system (S n)).
Proof.
  destruct (decide (16 <= n)%nat) as [Hn|Hn].
  - unfold example_label. rewrite lookup_ge_None_2 by (cbn; lia). by rewrite (example_end n), (example_end (S n)) by lia.
  - do 16 (destruct n as [|n]; [reflexivity|]). lia.
Qed.

Lemma example_system_reachable n : registered_reachable (example_system n).
Proof. induction n as [|n IH]; [apply (reachable_new [])|]. eapply reachable_step; [done|apply example_next]. Qed.

Lemma example_over t : run (example_system 16) t = None.
Proof.
  do 4 (destruct t as [|t]; [reflexivity|]).
  assert (Hl : length (tasks (example_system 16)) = 4%nat) by reflexivity.
  unfold run. by rewrite (lookup_ge_None_2 (tasks (example_system 16))) by lia.
Qed.

Lemma example_fair : fair_execution example_system example_label.
Proof.
  split; [apply example_system_reachable|apply example_next|]. intros t n. exists (n + 16)%nat. split; [lia|]. right.
  rewrite example_end by lia. intros [s Hs]. by rewrite example_over in Hs.
Qed.

Lemma once_map_safe_witness :
  tasks (example_system 16) !! 1%nat = Some (mkTask (CallRegisterOrWait 1%nat) (Returned (AnswerOption (Some 42%nat)))) /\
  (1%nat, 42%nat) ∈ submitted (example_system 16).
Proof.
  split; [reflexivity|].
  destruct (once_map_safe (example_system 16) 1 (mkTask (CallRegisterOrWait 1%nat) (Returned (AnswerOption (Some 42%nat)))))
    as [_ H]; [apply example_system_reachable|reflexivity|]. apply (H 42%nat). by left.
Defined.

Lemma once_map_starts_once_witness : starters (example_system 5) 1%nat = 1%nat.
Proof. exact (once_map_starts_once (example_system 5) 1%nat (example_system_reachable 5)). Defined.

Lemma once_map_refines_jobs_witness : job_step (example_system 8) (Run 2) (example_system 9).
Proof. apply once_map_refines_jobs; [apply example_system_reachable|apply (example_next 8)]. Defined.

Lemma once_map_returns_witness :
  exists m answer, (6 < m)%nat /\
    tasks (example_system m) !! 1%nat = Some (mkTask (CallRegisterOrWait 1%nat) (Returned answer)).
Proof.
  apply (once_map_returns example_system example_label 6 1
    (mkTask (CallRegisterOrWait 1%nat) (AtRead (Waiting 0) (ReadCheck ByRegisterOrWait 1%nat 0%nat (O : @Notified counting_notify)))));
    [apply example_fair|reflexivity|done| |].
  - intros m. do 16 (destruct m as [|m]; [done|]). done.
  - intros _. exists 10%nat. split; [lia|]. exists 0%nat. reflexivity.
Defined.

(** ** Removal without exclusive access *)

(** The second call waits; its job is done, removed, and registered and done again before it registers
    for the notification. *)
Definition removal_labels : list (Label nat nat) :=
  [Spawn (CallRegisterOrWait 1%nat); Run 0; Spawn (CallRegisterOrWait 1%nat); Run 1;
   Spawn (CallDone 1%nat 42%nat); Run 2; Run 2; Spawn (CallRemove 1%nat); Run 3; Run 3;
   Spawn (CallRegisterOrWait 1%nat); Run 4; Run 1; Run 1; Run 1; Spawn (CallDone 1%nat 43%nat); Run 5; Run 5].

Definition removal_system (n : nat) : System nat nat :=
  default (system_new []) (execs once_exec (system_new []) (take n removal_labels)).

Lemma removal_stranded : stranded (removal_system 18) 1.
Proof.
  exists (CallRegisterOrWait 1%nat), ByRegisterOrWait, 1%nat, 0%nat, (1%nat : @Notified counting_notify), (1%nat : @Notify counting_notify).
  split_and!; [left; reflexivity|reflexivity| |reflexivity| |].
  - apply (of_created (1%nat : @Notify counting_notify)), (used_waiters (O : @Notify counting_notify)), (@used_new counting_notify).
  - intros k. assert (Hi : items (shared (removal_system 18)) = <[1%nat := Filled 1]> (∅ : gmap nat OnceValue)) by reflexivity.
    rewrite Hi. cbn [cmap_get gmap_concurrent]. by rewrite lookup_insert_Some, lookup_empty; intros [[_ ?]|[_ ?]].
  - assert (Hb : forallb (fun task => match task_at task with AtNotify _ => false | _ => true end)
      (tasks (removal_system 18)) = true) by reflexivity.
    rewrite forallb_forall in Hb. intros t task Ht%list_elem_of_lookup_2%list_elem_of_In%Hb Hat. by rewrite Hat in Ht.
Qed.

(** Of an [OnceMap] whose keys are removed while calls wait for them: a call that found the key pending can
    be left waiting, although the job was completed twice, whatever the other calls do later; and it
    can panic, when the key is gone. *)
Theorem once_map_removal_hangs :
  execs once_exec (system_new []) removal_labels = Some (removal_system 18) /\
  job (removal_system 18) 1%nat = Completed 43%nat /\
  (forall ls s', execs once_exec (removal_system 18) ls = Some s' ->
     forall task answer, tasks s' !! 1%nat = Some task -> task_at task <> Returned answer) /\
  (exists s', execs once_exec (removal_system 10) [Run 1; Run 1] = Some s' /\
     tasks s' !! 1%nat = Some (mkTask (CallRegisterOrWait 1%nat) Panicked)).
Proof.
  split_and!; [reflexivity|reflexivity| |eexists; split; reflexivity].
  intros ls s' Es task answer. apply stranded_never_returns. eapply once_execs_stranded; [apply removal_stranded|done].
Qed.
