(* ===== verification/PropertiesParser.v ===== *)
(** * Properties of the marker parser

    What [crates/uv-pep508/src/marker/parse.rs] promises: every text is parsed without a panic, to its end
    or to an error within it, the tree that is built has the value of the syntax that was read, and every text of the
    grammar of markers is accepted with the value that it denotes. *)

From stdpp Require Import base countable list option numbers decidable strings gmap.
From Stdlib Require Import ZArith Lia.
From S2P Require Import Prelude Text Ranges VersionTypes VersionSmall Version VersionOrder VersionParser.
From S2P Require Import VersionSpecifier SpecifierParser Cursor Examples MarkerTypes.
From S2P Require Import Interner MarkerAlgebra MarkerRestrict MarkerTree MarkerEval.
From S2P Require Import InternerFacts ExclusionFacts ExpressionFacts TreeFacts MarkerApi.
From S2P Require Import MarkerParser MarkerParserFacts MarkerSyntax MarkerMeaning MarkerGrammar.

Local Open Scope Z_scope.
Local Open Scope uv_scope.

#[local] Existing Instances version_ranges string_ranges version_ranges_laws string_ranges_laws.
#[local] Existing Instances ascii_alphabetic ascii_alphabetic_laws.

(** ** An example *)




(** ** The theorems *)

(** C7: In every well-formed interner, as the calls leave it, any text of characters is parsed without a
    panic, neither in reading the text nor in building the trees: the interner stays well formed, and
    the parser either has read the whole text and returns a marker of the interner, or reports an
    error that starts within the text. The first part is of the parser that keeps its cursor, the
    second of the function that is called. *)
Theorem marker_parser_total `{!Alphabetic} {RV : RangeOps Version} {RS : RangeOps (list Z)}
    {LV : RangeLaws version_cmp_slow} {LS : RangeLaws string_cmp} (st : Interner) (markers : list Z) :
  interner_ok st -> Forall is_char markers ->
  yields (parse_markers_cursor marker_algebra (mkParserState (cursor_new markers) [])) st (fun x table =>
    match x.1 with
    | Ok tree => cursor_chars (parser_cursor x.2) = [] /\ node_valid table (default NODE_TRUE tree)
    | Err e => (error_start e <= str_len markers)%nat
    end) /\
  yields (parse_markers markers) st (fun x table =>
    match x.1 with
    | Ok tree => node_valid table tree
    | Err e => (error_start e <= str_len markers)%nat
    end).
Proof.
  intros Hst Hm. destruct (parse_syntax_total markers Hm) as (r & s & log & E & Hlog & Hr). split.
  - eapply runs_yields; [done|intros; by eapply parse_markers_cursor_runs|].
    intros [x s'] table _ _ [Es Hx]. cbn [fst snd] in *. subst s'. destruct x, r; try done.
    + split; [exact Hr|apply Hx].
    + by subst.
  - eapply runs_yields; [done|intros; by eapply parse_markers_runs|].
    intros [x reports] table _ _ [_ Hx]. cbn [fst snd] in *. destruct x, r; try done; [apply Hx|by subst].
Qed.

Lemma marker_parser_total_witness :
  exists x st', parse_markers (bytes "os_name == 'posix' and extra < ") (interner_new, tt) = Some (x, (st', tt)) /\
    interner_ok st' /\ exists e, x.1 = Err e /\ (error_start e <= 31)%nat.
Proof.
  destruct (marker_parser_total interner_new (bytes "os_name == 'posix' and extra < ") interner_new_ok)
    as [_ (x & st' & E & Hok & _ & Hx)];
    [by repeat (apply Forall_cons_2; [by vm_compute|]); apply Forall_nil_2|].
  exists x, st'. split; [exact E|]. split; [exact Hok|]. destruct (x.1) as [tree|e] eqn:Ex.
  - pose proof (returns_with_eq _ _ (fun x _ => match x.1 with Ok _ => false | Err _ => true end) _ _ E) as Ht.
    cbv beta in Ht. rewrite Ex in Ht. by discriminate Ht; vm_compute.
  - exists e. split; [reflexivity|exact Hx].
Defined.

(** C6: Any text of characters is read by the parser that builds trees in the shared interner as by the
    same parser with a syntax in the place of trees: they give the same error or the same warnings, and
    the tree has the value of the syntax, with the ignored expressions left out. The value is that of
    the tree in every environment of released versions, of Python with a minor number, that the known
    exclusions allow, in which the release of the platform is a version if the tree asks for it as one,
    and unless the tree asks for an invalid name of an extra or group. The value of an expression of the
    syntax is what it says of the environment, except that a comparison of [python_version] by [!=] with
    a star below the minor version, or with a list in which some version has a patch number, is false. *)
Theorem marker_parser_refines `{!Alphabetic} {RV : RangeOps Version} {RS : RangeOps (list Z)}
    {LV : RangeLaws version_cmp_slow} {LS : RangeLaws string_cmp}
    (st : Interner) (markers : list Z) :
  interner_ok st -> Forall is_char markers ->
  exists r s log, parse_syntax markers = Some (r, s, log) /\ Forall expression_ok log /\
    yields (parse_markers markers) st (fun x table =>
      x.2 = parser_reports s /\
      match x.1, r with
      | Ok tree, Ok o => tree_denotes (fun sigma => text_value sigma o) tree table
      | Err e1, Err e2 => e1 = e2
      | _, _ => False
      end).
Proof.
  intros Hst Hm. destruct (parse_syntax_total markers Hm) as (r & s & log & E & Hlog & _).
  exists r, s, log. split_and!; [done..|]. eapply runs_yields; [done|intros; by eapply parse_markers_runs|].
  intros [x reports] table Hok _ [-> Hx]. split; [done|]. cbn [fst] in *. destruct x, r; try done. by eapply means_denotes.
Qed.

Lemma marker_parser_refines_witness :
  exists x st', parse_markers (bytes "os.name == 'posix' or extra == 'dev'") (interner_new, tt) = Some (x, (st', tt)) /\
    x.2 = [DeprecatedMarkerName] /\ exists tree, x.1 = Ok tree /\ evaluate_in (nodes st') linux_env (EnvExtras []) tree = Some true.
Proof.
  destruct (marker_parser_refines interner_new (bytes "os.name == 'posix' or extra == 'dev'") interner_new_ok)
    as (r & s & log & E & _ & x & st' & Er & Hok & _ & Hx);
    [by repeat (apply Forall_cons_2; [by vm_compute|]); apply Forall_nil_2|].
  vm_compute in E. injection E as <- <- _.
  - exists x, st'. split; [exact Er|]. destruct x as [[tree|e] reports]; [|exact (False_ind _ (proj2 Hx))].
    destruct Hx as [Hreports [Hv Ht]]. split; [exact Hreports|]. exists tree. split; [reflexivity|].
    rewrite (Ht linux_env (EnvExtras [])); [by vm_compute|apply linux_environment|].
    apply all_vars_forallb; [apply Hok|exact Hv|].
    apply (returns_with_eq _ _ (fun _ st' => forallb (fun node => evaluable linux_env (node_var node)) (nodes st')) _ _ Er).
    by vm_compute.
Defined.


