(* ===== verification/PropertiesPython.v ===== *)
(** * Properties of supported Python versions

    What [crates/uv-distribution-types/src/requires_python.rs] promises: the operations on supported
    versions admit the versions that they should, the marker of the versions holds for them, markers
    that are simplified to the supported versions are restored, and no wheel is dropped that a
    supported interpreter can install. *)

From stdpp Require Import base countable list option numbers decidable strings gmap.
From Stdlib Require Import ZArith Lia.
From S2P Require Import Prelude Text Libraries LanguageTag AbiTag Platform PlatformTag Tags WheelFilename EnvTags.
From S2P Require Import Ranges VersionTypes VersionSmall Version VersionOrder VersionCacheKey VersionParser.
From S2P Require Import VersionSpecifier VersionRanges VersionRangesFacts ReleaseRanges SpecifierFacts SpecifierBounds.
From S2P Require Import Examples MarkerTypes Interner MarkerAlgebra MarkerRestrict MarkerTree MarkerEval.
From S2P Require Import InternerFacts EdgesFacts AlgebraFacts ExclusionFacts ExpressionFacts RestrictFacts AssumptionFacts.
From S2P Require Import PythonFacts SubstitutionFacts TreeFacts MarkerApi RequiresPython RequiresPythonFacts.

Local Open Scope Z_scope.
Local Open Scope uv_scope.

#[local] Existing Instances MarkerApi.version_ranges string_ranges version_ranges_laws string_ranges_laws.
#[local] Existing Instances bits_flags bits_flags_laws ascii_lowercase.

(** ** Examples *)

(** Python 3.8 up to, but not including, 4. *)
Definition python_3 : RequiresPython :=
  mkRequires [specifier_of ">=3.8"; specifier_of "<4"] (mkPythonRange (Included (version_of "3.8")) (Excluded (version_of "4"))).

Lemma python_3_release : bounds_release (requires_range python_3).
Proof. split; apply version_of_release; by vm_compute. Qed.

Lemma python_3_comparable : range_comparable (requires_range python_3).
Proof. split; apply release_bound_comparable; [exact (proj1 python_3_release)|exact (proj2 python_3_release)]. Qed.

Lemma python_specifier_of s numbers :
  specifies s = true -> version_make_full (specifier_version (specifier_of s)) = release_only (version_release (specifier_version (specifier_of s))) ->
  version_release (specifier_version (specifier_of s)) = numbers -> forallb (fun n => (0 <=? n) && (n <? 1000)) numbers = true ->
  python_specifier (specifier_of s).
Proof.
  intros Hs Hr <- Hn. pose proof (specifier_of_valid s Hs) as V. split; [done|]. split.
  - split; [apply (valid_real _ V)|done].
  - unfold release_below_max. apply Forall_forall. intros n Hin%list_elem_of_In. rewrite forallb_forall in Hn.
    specialize (Hn n Hin). unfold is_number, U64_MAX. lia.
Qed.

(** ** Supported versions *)

(** C16: Supported versions are made from a version, or, by the constructor, by reading a lock file or by
    intersection, from valid specifiers whose versions are releases (no pre-release, post-release,
    development or local part) with numbers that can be incremented; and then by splitting at
    released bounds and narrowing by the range of supported versions made in the same way. However they
    are made so, their bounds are releases, and every version that their specifiers admit is within
    their bounds, both looking at its release only. For other specifiers this can fail, as
    [prerelease_bound_fails] shows. *)
Theorem supported_bounded {RV : RangeOps Version} {LV : RangeLaws version_cmp_slow} (rp : RequiresPython) :
  constructed rp ->
  bounds_release (requires_range rp) /\
  forall v, version_real v -> requires_contains rp v = Some true -> range_admits (requires_range rp) (released_version v) = true.
Proof.
  intros [H1 H2]%constructed_ok. split; [done|]. intros v Hv. destruct (released_contains v Hv) as [Hu ->]. by apply H2.
Qed.

Lemma supported_bounded_witness :
  exists rp, requires_from_specifiers [specifier_of ">=3.8"; specifier_of "!=3.9.0"] = Some rp /\
    (requires_contains rp (version_of "3.10") = Some true -> range_admits (requires_range rp) (released_version (version_of "3.10")) = true).
Proof.
  destruct (requires_from_specifiers [specifier_of ">=3.8"; specifier_of "!=3.9.0"]) as [rp|] eqn:E; [|by vm_compute in E].
  exists rp. split; [done|]. apply (supported_bounded rp); [|by apply version_of_real; vm_compute].
  eapply made_from_specifiers; [|exact E].
  repeat (apply Forall_cons_2 || apply Forall_nil_2); eapply python_specifier_of; try (by vm_compute); vm_compute; reflexivity.
Defined.

(** Supported versions that are made of [>3.13.0rc1] admit 3.13.0, which is not within their bounds: these
    drop the pre-release from the excluded bound. *)
Example prerelease_bound_fails :
  exists rp, requires_from_specifiers [specifier_of ">3.13.0rc1"] = Some rp /\
    requires_contains rp (version_of "3.13.0") = Some true /\
    range_admits (requires_range rp) (released_version (version_of "3.13.0")) = false.
Proof. eexists. split; [reflexivity|]. split; vm_compute; reflexivity. Qed.

(** C18: The supported versions of one or more lists of specifiers, valid ones whose versions are releases with
    numbers that can be incremented, are computed without a panic. A version, by its release, is
    admitted by them and by their bounds if it satisfies all of the lists; unless an operator is [!=],
    which excludes versions from the middle, they admit no other version; and nothing is returned only if
    no version satisfies all of the lists. *)
Theorem intersection_supported {RV : RangeOps Version} {LV : RangeLaws version_cmp_slow} (specifiers : list VersionSpecifiers) :
  specifiers <> [] -> Forall (Forall python_specifier) specifiers ->
  exists o, requires_intersection specifiers = Some o /\
    forall v, version_real v ->
      match o with
      | None => all_contain specifiers (released_version v) = false
      | Some rp =>
          (all_contain specifiers (released_version v) = true ->
             requires_contains rp v = Some true /\ range_admits (requires_range rp) (released_version v) = true) /\
          (Forall (Forall contiguous) specifiers ->
             requires_contains rp v = Some (all_contain specifiers (released_version v)))
      end.
Proof.
  intros Hne Hs. destruct (requires_intersection_spec specifiers Hne Hs) as (o & r & E & Hr & Hc & Ho).
  exists o. split; [done|]. intros v Hv. destruct (released_contains v Hv) as [Hu Hcon]. rewrite <- (Hr _ Hu).
  destruct o as [rp|]; [|by apply Ho]. rewrite Hcon. destruct Ho as [_ H1 H2]. split; [by apply H1|].
  intros Hcs. by apply (H2 (Hc Hcs)).
Qed.

Lemma intersection_supported_witness :
  exists rp, requires_intersection [[specifier_of ">=3.8"]; [specifier_of ">=3.9"; specifier_of "<4"]] = Some (Some rp) /\
    requires_contains rp (version_of "3.10.1") = Some true /\ requires_contains rp (version_of "3.8.5") = Some false.
Proof.
  destruct (intersection_supported [[specifier_of ">=3.8"]; [specifier_of ">=3.9"; specifier_of "<4"]]) as (o & E & H).
  - done.
  - repeat (apply Forall_cons_2 || apply Forall_nil_2); eapply python_specifier_of; try (by vm_compute); vm_compute; reflexivity.
  - assert (Hc : Forall (Forall contiguous) [[specifier_of ">=3.8"]; [specifier_of ">=3.9"; specifier_of "<4"]]).
    { repeat (apply Forall_cons_2 || apply Forall_nil_2); split; by vm_compute. }
    destruct o as [rp|].
    + exists rp. split; [exact E|]. split.
      * destruct (H (version_of "3.10.1")) as [_ ->]; [by apply version_of_real; vm_compute|by vm_compute|done].
      * destruct (H (version_of "3.8.5")) as [_ ->]; [by apply version_of_real; vm_compute|by vm_compute|done].
    + exfalso. specialize (H (version_of "3.10.1") ltac:(by apply version_of_real; vm_compute)). by vm_compute in H.
Defined.

(** C17: splitting at a bound returns without a panic; the two parts are disjoint and admit together the
    versions that were admitted, those that satisfy the bound in the second part, and the specifiers
    of each part agree with its bounds; no split is returned only if one part would admit no
    version. *)
Theorem split_partitions {RV : RangeOps Version} {LV : RangeLaws version_cmp_slow} (rp : RequiresPython) (bound : Bound) :
  bounds_release (requires_range rp) -> bound_release bound ->
  exists o, requires_split rp bound = Some o /\
    match o with
    | None =>
        (forall w, release_version w -> range_admits (requires_range rp) w = true -> lower_bound_contains bound w = true) \/
        (forall w, release_version w -> range_admits (requires_range rp) w = true -> lower_bound_contains bound w = false)
    | Some (below, above) =>
        forall v, version_real v -> let u := released_version v in
          range_admits (requires_range below) u = range_admits (requires_range rp) u && negb (lower_bound_contains bound u) /\
          range_admits (requires_range above) u = range_admits (requires_range rp) u && lower_bound_contains bound u /\
          requires_contains below v = Some (range_admits (requires_range below) u) /\
          requires_contains above v = Some (range_admits (requires_range above) u)
    end.
Proof.
  intros Hr Hb. destruct (requires_split_spec rp bound Hr Hb) as (o & E & Ho). exists o. split; [done|].
  destruct o as [[below above]|]; [|done]. intros v Hv. destruct (released_contains v Hv) as [Hu Hcon].
  destruct Ho as (_ & _ & Ho). rewrite !Hcon. by apply Ho.
Qed.

Lemma split_partitions_witness :
  exists below above, requires_split python_3 (Included (version_of "3.11")) = Some (Some (below, above)) /\
    requires_contains below (version_of "3.10.4") = Some true /\ requires_contains above (version_of "3.10.4") = Some false /\
    requires_contains above (version_of "3.12") = Some true.
Proof.
  destruct (split_partitions python_3 (Included (version_of "3.11"))) as (o & E & H);
    [apply python_3_release|by apply version_of_release; vm_compute|].
  destruct o as [[below above]|].
  - exists below, above. split; [exact E|]. destruct (H (version_of "3.10.4")) as (H1 & H2 & H3 & H4); [by apply version_of_real; vm_compute|].
    destruct (H (version_of "3.12")) as (_ & H5 & _ & H6); [by apply version_of_real; vm_compute|].
    rewrite H3, H4, H6, H1, H2, H5. clear. split_and!; vm_compute; reflexivity.
  - exfalso. clear -E. apply (f_equal (fun o => match o with Some (Some _) => true | _ => false end)) in E. by vm_compute in E.
Defined.

(** Narrowing intersects: the result, or the supported versions themselves if there is none, admits the
    versions within both bounds, and the specifiers of a result are those of its bounds. *)
Theorem narrow_intersects (rp : RequiresPython) (r : RequiresPythonRange) :
  bounds_release (requires_range rp) -> bounds_release r ->
  (forall w, comparable w -> range_admits (requires_range (default rp (requires_narrow rp r))) w =
     range_admits r w && range_admits (requires_range rp) w) /\
  forall rp', requires_narrow rp r = Some rp' -> bounds_release (requires_range rp') /\
    forall v, version_real v -> requires_contains rp' v = Some (range_admits (requires_range rp') (released_version v)).
Proof.
  intros Hrp Hr. split.
  - intros w Hw. apply narrow_admits; [..|done]; split; apply release_bound_comparable; apply Hrp || apply Hr.
  - intros rp' E. destruct (narrow_bounds rp r rp' Hrp Hr E) as [Hb Hs]. split; [done|]. intros v Hv.
    destruct (released_contains v Hv) as [Hu ->]. rewrite Hs. by apply range_specifiers_contains.
Qed.

Lemma narrow_intersects_witness :
  exists rp', requires_narrow python_3 (mkPythonRange (Included (version_of "3.10")) Unbounded) = Some rp' /\
    requires_contains rp' (version_of "3.9") = Some false /\ requires_contains rp' (version_of "3.12.1") = Some true.
Proof.
  destruct (narrow_intersects python_3 (mkPythonRange (Included (version_of "3.10")) Unbounded)) as [_ H];
    [apply python_3_release|split; [by apply version_of_release; vm_compute|exact I]|].
  destruct (requires_narrow python_3 (mkPythonRange (Included (version_of "3.10")) Unbounded)) as [rp'|] eqn:E.
  - exists rp'. destruct (H rp' eq_refl) as [_ H']. split; [done|].
    rewrite (H' (version_of "3.9")), (H' (version_of "3.12.1")) by (by apply version_of_real; vm_compute).
    vm_compute in E. injection E as <-. by vm_compute.
  - exfalso. by vm_compute in E.
Defined.

(** Narrowing by a range that is wider below returns supported versions that are the same. *)
Theorem narrow_unchanged :
  exists rp', requires_narrow (mkRequires [specifier_of ">=3.8"] (mkPythonRange (Included (version_of "3.8")) Unbounded))
      (mkPythonRange (Included (version_of "3.7")) Unbounded) = Some rp' /\
    requires_range rp' = mkPythonRange (Included (version_of "3.8")) Unbounded.
Proof. eexists. split; vm_compute; reflexivity. Qed.

(** Supported versions that are found to be contained in a contiguous list of specifiers satisfy it, up to the
    last version that satisfies it; if they are not, the version of an inclusive lower bound does not
    satisfy the list. *)
Theorem contained_supported {RV : RangeOps Version} {LV : RangeLaws version_cmp_slow} (rp : RequiresPython) (target : VersionSpecifiers) :
  bounds_release (requires_range rp) -> Forall python_specifier target ->
  exists b, is_contained_by rp target = Some b /\
    (b = true -> Forall contiguous target -> forall w x, release_version w -> release_version x ->
       range_admits (requires_range rp) w = true -> specifiers_contains target x = Some true -> version_le w x = true ->
       specifiers_contains target w = Some true) /\
    (b = false -> forall v, python_lower (requires_range rp) = Included v -> specifiers_contains target v = Some false).
Proof. apply is_contained_by_spec. Qed.

Lemma contained_supported_witness :
  is_contained_by python_3 [specifier_of ">=3.9"] = Some false /\ specifiers_contains [specifier_of ">=3.9"] (version_of "3.8") = Some false.
Proof.
  destruct (contained_supported python_3 [specifier_of ">=3.9"]) as (b & E & _ & H); [apply python_3_release| |].
  - apply Forall_cons_2; [|apply Forall_nil_2]. eapply python_specifier_of; try (by vm_compute); vm_compute; reflexivity.
  - assert (E' : is_contained_by python_3 [specifier_of ">=3.9"] = Some false) by by vm_compute.
    rewrite E in E'. injection E' as ->. split; [exact E|]. by apply H.
Defined.

(** ** Markers *)

(** C19: the marker of the supported versions evaluates, in every environment of released versions that the
    exclusions allow, to whether the Python version is within their bounds. *)
Theorem marker_of_supported {RV : RangeOps Version} {RS : RangeOps (list Z)}
    {LV : RangeLaws version_cmp_slow} {LS : RangeLaws string_cmp} (st : Interner) (rp : RequiresPython) :
  interner_ok st -> bounds_release (requires_range rp) ->
  yields (requires_to_marker_tree rp) st (fun r table => node_valid table r /\
    forall env extras, environment (environment_at env extras) -> all_vars table (has_value env) r ->
      evaluate_in table env extras r =
        Some (range_admits (requires_range rp) (version_at (environment_at env extras) (VarVersion PythonFullVersion)))).
Proof.
  intros Hst Hr. eapply runs_yields; [done|intros; by apply to_marker_tree_runs|].
  intros r table Hok Hp [H1 H2]. split; [done|]. intros env extras Henv Hv. by rewrite evaluate_in_spec, (H2 _ Henv).
Qed.

Lemma marker_of_supported_witness :
  exists r st', requires_to_marker_tree python_3 (interner_new, tt) = Some (r, (st', tt)) /\
    evaluate_in (nodes st') linux_env (EnvExtras []) r = Some true.
Proof.
  destruct (marker_of_supported interner_new python_3) as (r & st' & E & Hok & _ & Hv & H); [apply interner_new_ok|apply python_3_release|].
  exists r, st'. split; [exact E|]. rewrite (H linux_env (EnvExtras [])); [by vm_compute|apply linux_environment|].
  apply all_vars_forallb; [apply Hok|exact Hv|].
  apply (returns_with_eq _ _ (fun _ st' => forallb (fun node => evaluable linux_env (node_var node)) (nodes st')) _ _ E).
  by vm_compute.
Defined.

(** C15: simplifying a marker to the supported versions returns a marker that has the same value for every
    Python version within their bounds, whatever the other variables; restoring it returns the
    conjunction of the marker and the bounds, so that nothing of the marker is lost on the supported
    versions. *)
Theorem simplified_restored {RV : RangeOps Version} {RS : RangeOps (list Z)}
    {LV : RangeLaws version_cmp_slow} {LS : RangeLaws string_cmp} (st : Interner) (rp : RequiresPython) (i : NodeId) :
  interner_ok st -> node_valid (nodes st) i -> range_comparable (requires_range rp) ->
  yields (simplified_new rp i) st (fun r table =>
    (forall P, all_vars (nodes st) P i -> all_vars table P r) /\
    forall sigma, python_within (python_lower (requires_range rp)) (python_upper (requires_range rp)) sigma = true ->
      eval table sigma r = eval (nodes st) sigma i) /\
  yields (let! simplified := simplified_new rp i in into_marker simplified rp) st (fun r table =>
    forall sigma, allowed sigma -> eval table sigma r =
      eval (nodes st) sigma i && python_within (python_lower (requires_range rp)) (python_upper (requires_range rp)) sigma).
Proof.
  intros Hst Hi Hr. pose proof (ok_table _ Hst) as Hok. split.
  - destruct Hr as [Hl%bound_comparable_values Hu%bound_comparable_values].
    eapply runs_yields; [done|intros; by apply simplify_python_versions_runs|].
    intros r table Hok' Hp [[_ H1 H2] H3]. split.
    + intros P HP. apply H2. by apply (all_vars_extend (nodes st)).
    + intros sigma Hs. rewrite (H3 _ Hs). by apply eval_extend.
  - eapply runs_yields; [done|intros; by apply simplified_restored_runs|]. intros r table Hok' Hp [_ H]. exact H.
Qed.

Lemma simplified_restored_witness :
  exists r st', simplified_new python_3 python_node (api_interner example_state, tt) = Some (r, (st', tt)) /\
    forall sigma, python_within (Included (version_of "3.8")) (Excluded (version_of "4")) sigma = true ->
      eval (nodes st') sigma r = eval (nodes (api_interner example_state)) sigma python_node.
Proof.
  destruct (simplified_restored (api_interner example_state) python_3 python_node) as [(r & st' & E & _ & _ & _ & H) _];
    [apply example_ok|by apply example_valid; vm_compute|apply python_3_comparable|].
  exists r, st'. split; [exact E|exact H].
Defined.

(** ** Wheels *)

(** C14: a wheel that some supported interpreter can install is never filtered out: if the tags of an
    interpreter of Python 3 accept the wheel, and a Python of its version is within the bounds, then
    the test of the wheel returns, and it passes. An exclusive upper bound may have at most three
    release numbers. *)
Theorem usable_wheels_kept {BF : Bitflags} {BL : BitflagsLaws} {LC : Lowercase}
    (rp : RequiresPython) (w : Version) (minor : Z) (rest : list Z) platform name iv options tags wheel :
  bounds_release (requires_range rp) -> bound_precise (python_upper (requires_range rp)) ->
  release_version w -> version_release w = 3 :: minor :: rest -> range_admits (requires_range rp) w = true ->
  os_wf (platform_os platform) -> minor <= U8_MAX -> from_env platform (3, minor) name iv options = Ok (Some tags) ->
  wheel_tags_wf wheel -> wheel_is_compatible wheel tags = true ->
  matches_wheel_tag rp wheel = Some true.
Proof. intros Hr Hp Hw Ew Ha. by eapply compatible_matches. Qed.

Definition python_platform : Platform := mkPlatform (OsManylinux 2 17) X86_64 None.
Definition python_wheel : WheelFilename :=
  mkWheel (bytes "foo") (version_of "1.0") (WheelSmall (WheelFilename.mkSmall (LangCPython (3, 12)) (AbiCPython (3, 12) 0) (Manylinux 2 17 X86_64))).

Lemma usable_wheels_kept_witness : matches_wheel_tag python_3 python_wheel = Some true.
Proof.
  assert (match from_env python_platform (3, 12) (bytes "cpython") (3, 12) (mkTagsOptions true false false false) with
          | Ok (Some tags) => wheel_is_compatible python_wheel tags
          | _ => false
          end = true) as H by (vm_compute; reflexivity).
  destruct (from_env python_platform (3, 12) (bytes "cpython") (3, 12) (mkTagsOptions true false false false)) as [[tags|]|e] eqn:E;
    [|discriminate H..].
  apply (usable_wheels_kept python_3 (version_of "3.12.1") 12 [1] python_platform (bytes "cpython") (3, 12)
    (mkTagsOptions true false false false) tags).
  - exact python_3_release.
  - cbv [bound_precise python_upper requires_range python_3]. apply Nat.leb_le. vm_compute. reflexivity.
  - apply version_of_release; vm_compute; reflexivity.
  - vm_compute. reflexivity.
  - vm_compute. reflexivity.
  - cbn. unfold is_u16, U16_MAX. lia.
  - unfold U8_MAX. lia.
  - exact E.
  - split; (apply Forall_cons_2; [|apply Forall_nil_2]); cbn; unfold LanguageTag.version_wf, variants_wf, U8_MAX; cbn; lia.
  - exact H.
Defined.
