(* ===== verification/PropertiesCovers.v ===== *)
(** * Properties of covers

    Markers are canonical: markers of the interner that agree everywhere are the same reference. The
    sum of products that [isop] extracts holds where the marker does, in every environment; it is
    returned if the marker has one platform variable at most, and not for all markers with several.
    The normal form that is printed has the value of the marker, and its text is read back. *)

From stdpp Require Import base countable list option numbers decidable strings gmap.
From Stdlib Require Import ZArith Lia.
From S2P Require Import Prelude Text Ranges VersionTypes VersionSmall Version VersionOrder VersionParser.
From S2P Require Import VersionSpecifier VersionRangesFacts Examples MarkerTypes.
From S2P Require Import Interner MarkerAlgebra MarkerRestrict Isop MarkerTree MarkerEval.
From S2P Require Import InternerFacts EdgesFacts Canonical ExclusionFacts ExpressionFacts.
From S2P Require Import TreeFacts IsopFacts CoverFacts Dnf DnfFacts MarkerApi.
From S2P Require Import Cursor MarkerParser MarkerParserFacts DnfText.

Local Open Scope Z_scope.
Local Open Scope uv_scope.

#[local] Existing Instances version_ranges string_ranges version_ranges_laws string_ranges_laws.
#[local] Existing Instances ascii_alphabetic ascii_alphabetic_laws.

(** ** Canonicity *)

(** C10: After any sequence of calls on markers, two markers that were returned have the same value at
    every assignment of the variables exactly when they are the same reference. *)
Theorem references_canonical {RV : RangeOps Version} {RS : RangeOps (list Z)}
    {LV : RangeLaws version_cmp_slow} {LS : RangeLaws string_cmp} (s : ApiState) (i j : NodeId) :
  api_reachable s -> i ∈ api_issued s -> j ∈ api_issued s ->
  (forall sigma, eval (nodes (api_interner s)) sigma i = eval (nodes (api_interner s)) sigma j) <-> i = j.
Proof.
  intros Hs Hi Hj. pose proof (api_reachable_ok s Hs) as [Hok Hiss]. split; [|by intros ->].
  apply canonical; [apply Hok|by apply Hiss|by apply Hiss].
Qed.

Lemma references_canonical_witness :
  ~ forall sigma, eval (nodes (api_interner example_state)) sigma posix_node = eval (nodes (api_interner example_state)) sigma linux_node.
Proof.
  assert (Hin : forallb (fun i => bool_decide (i ∈ api_issued example_state)) [posix_node; linux_node] = true)
    by (vm_compute; reflexivity).
  cbn [forallb] in Hin. rewrite !andb_true_iff, !bool_decide_eq_true in Hin. destruct Hin as (Hi & Hj & _).
  intros H%(references_canonical example_state posix_node linux_node example_reachable Hi Hj).
  assert (E : (posix_node =? linux_node) = false) by (vm_compute; reflexivity).
  apply Z.eqb_neq in E. exact (E H).
Defined.

(** ** Extraction *)

Notation no_cache := (fun (_ : ()) (_ : list Node) => True).

(** [os_name == 'posix' or extra == 'dev']. *)
Definition either_state : ApiState :=
  let s := api_exec (api_exec api_init posix_call) dev_call in
  api_exec s (CallOr (nth 1 (api_issued s) 0) (nth 0 (api_issued s) 0)).
Definition either_node : NodeId := nth 0 (api_issued either_state) 0.

Lemma either_reachable : api_reachable either_state.
Proof.
  apply api_exec_reachable; [|done|by vm_compute]. apply api_exec_reachable; [|exact I|done].
  apply api_exec_reachable; [apply api_reachable_init|apply string_expression_ok|done].
Qed.

Lemma either_ok : interner_ok (api_interner either_state).
Proof. apply api_reachable_ok, either_reachable. Qed.

Lemma either_valid : node_valid (nodes (api_interner either_state)) either_node.
Proof.
  apply (api_ok_issued _ (api_reachable_ok _ either_reachable)).
  assert (H : bool_decide (either_node ∈ api_issued either_state) = true) by (vm_compute; reflexivity).
  by apply bool_decide_eq_true in H.
Qed.

(** C8: If [isop] returns a cover of a marker, then each of its guards is a condition on one variable, and
    in every environment that the known exclusions allow, the cover holds where the marker does. *)
Theorem isop_sound {RV : RangeOps Version} {RS : RangeOps (list Z)}
    {LV : RangeLaws version_cmp_slow} {LS : RangeLaws string_cmp} (st st' : Interner) (marker : NodeId) (cover : Cover) :
  interner_ok st -> node_valid (nodes st) marker -> isop marker (st, tt) = Some (cover, (st', tt)) ->
  interner_ok st' /\ nodes st `prefix_of` nodes st' /\ cover_valid (nodes st') cover /\
  forall sigma, allowed sigma -> cover_holds (nodes st') sigma cover = eval (nodes st) sigma marker.
Proof.
  intros Hst Hm E. pose proof (isop_outcome no_cache False [] marker (st, tt)) as H. unfold outcome in H. rewrite E in H.
  destruct H as ([Hok' _] & Hp & Hv & Hc); [by split|done|done|]. cbn in Hp, Hv, Hc. split_and!; [done..|].
  intros sigma Ha. rewrite (Hc _ Ha). by apply eval_extend; [apply Hst|apply Hok'|..].
Qed.

Lemma isop_sound_witness :
  exists cover st', isop either_node (api_interner either_state, tt) = Some (cover, (st', tt)) /\
    cover_holds (nodes st') (environment_at linux_env (EnvExtras [])) cover = true.
Proof.
  assert (H : match isop either_node (api_interner either_state, tt) with Some _ => true | None => false end = true)
    by (vm_compute; reflexivity).
  destruct (isop either_node (api_interner either_state, tt)) as [[cover [st' []]]|] eqn:E; [|discriminate H].
  exists cover, st'. split; [reflexivity|].
  destruct (isop_sound (api_interner either_state) st' either_node cover either_ok either_valid E) as (_ & _ & _ & Hc).
  rewrite Hc by apply environment_allowed, linux_environment. vm_compute. reflexivity.
Defined.

(** C9: For a marker on any variables of which at most one is about the platform ([os_name], [sys_platform] or
    [platform_system]), [isop] returns a cover: it does not panic, its recursion ends, and the cover
    holds where the marker does in every environment. *)
Theorem isop_total {RV : RangeOps Version} {RS : RangeOps (list Z)}
    {LV : RangeLaws version_cmp_slow} {LS : RangeLaws string_cmp} (st : Interner) (marker : NodeId) (platform : MarkerVariable) :
  interner_ok st -> node_valid (nodes st) marker ->
  all_vars (nodes st) (fun var => is_conflicting_variable var = true -> var = platform) marker ->
  yields (isop marker) st (fun cover table => cover_valid table cover /\
    forall sigma, allowed sigma -> cover_holds table sigma cover = eval table sigma marker).
Proof.
  intros Hst Hm Hp. destruct (platform_list _ _ _ (ok_table _ Hst) Hm Hp) as (l & H1 & H2 & H3).
  eapply runs_yields; [done| |by intros cover table _ _ H; exact H]. intros Hs.
  apply (outcome_runs no_cache True); [done|]. by apply (isop_outcome no_cache True l).
Qed.

Lemma isop_total_witness :
  exists cover st', isop either_node (api_interner either_state, tt) = Some (cover, (st', tt)) /\
    forall sigma, allowed sigma -> cover_holds (nodes st') sigma cover = eval (nodes st') sigma either_node.
Proof.
  destruct (isop_total (api_interner either_state) either_node (VarString OsName) either_ok either_valid)
    as (cover & st' & E & _ & _ & _ & H); [|exists cover, st'; split; [exact E|exact H]].
  eapply all_vars_weaken; [|apply (all_vars_forallb (fun var => implb (is_conflicting_variable var) (bool_decide (var = VarString OsName))));
    [apply either_ok|apply either_valid|vm_compute; reflexivity]].
  intros var Hv Hc. cbn in Hv. rewrite Hc in Hv. by apply bool_decide_eq_true in Hv.
Defined.

(** [(os_name == 'nt' or platform_system != 'FreeBSD') and sys_platform == 'linux']. *)
Definition platforms_state : ApiState :=
  let s := api_exec (api_exec (api_exec api_init
    (CallExpression (ExprString MvOsName MEqual (bytes "nt"))))
    (CallExpression (ExprString MvPlatformSystem MNotEqual (bytes "FreeBSD")))) linux_call in
  let s' := api_exec s (CallOr (nth 2 (api_issued s) 0) (nth 1 (api_issued s) 0)) in
  api_exec s' (CallAnd (nth 0 (api_issued s') 0) (nth 0 (api_issued s) 0)).
Definition platforms_node : NodeId := nth 0 (api_issued platforms_state) 0.

Lemma platforms_reachable : api_reachable platforms_state.
Proof.
  apply api_exec_reachable; [|done|by vm_compute]. apply api_exec_reachable; [|done|by vm_compute].
  apply api_exec_reachable; [|apply string_expression_ok|done].
  apply api_exec_reachable; [|split; [done|apply bytes_u8]|done].
  apply api_exec_reachable; [apply api_reachable_init|apply string_expression_ok|done].
Qed.

(** Only the constructor is evaluated. *)
Lemma is_none_eq {A : Type} (o : option A) : (if o then false else true) = true -> o = None.
Proof. by destruct o. Qed.

(** [(os_name == 'nt' or platform_system != 'FreeBSD') and sys_platform == 'linux'], a marker that holds on
    Linux, has no cover: the exclusions make the conjunction with the negation of the common bound
    false, so that an interval from [true] to a bound that is not [true] is extracted, which reads the
    node of a terminal. More recursion does not help. *)
Theorem isop_panics :
  api_reachable platforms_state /\ platforms_node ∈ api_issued platforms_state /\
  evaluate_in (nodes (api_interner platforms_state)) linux_env (EnvExtras []) platforms_node = Some true /\
  isop platforms_node (api_interner platforms_state, tt) = None /\
  forall fuel, isop_cached fuel platforms_node platforms_node (api_interner platforms_state, ∅) = None.
Proof.
  split; [exact platforms_reachable|]. split; [|split; [|split]].
  - assert (H : bool_decide (platforms_node ∈ api_issued platforms_state) = true) by (vm_compute; reflexivity).
    exact (bool_decide_eq_true_1 _ H).
  - vm_compute. reflexivity.
  - apply is_none_eq. vm_compute. reflexivity.
  - intros fuel. do 3 (destruct fuel as [|fuel]; [apply is_none_eq; vm_compute; reflexivity|]). apply is_none_eq. vm_compute. reflexivity.
Qed.

(** ** Normal forms *)

(** [python_version >= '3.9' and extra == 'dev']. *)
Definition printed_state : ApiState := api_exec example_state (CallAnd python_node dev_node).
Definition printed_node : NodeId := nth 0 (api_issued printed_state) 0.

Lemma printed_reachable : api_reachable printed_state.
Proof. apply api_exec_reachable; [apply example_reachable|done|by vm_compute]. Qed.

Lemma printed_ok : interner_ok (api_interner printed_state).
Proof. apply api_reachable_ok, printed_reachable. Qed.

Lemma printed_valid : node_valid (nodes (api_interner printed_state)) printed_node.
Proof.
  apply (api_ok_issued _ (api_reachable_ok _ printed_reachable)).
  assert (H : bool_decide (printed_node ∈ api_issued printed_state) = true) by (vm_compute; reflexivity).
  by apply bool_decide_eq_true in H.
Qed.

(** It holds where [dev] is requested, and only there. *)
Lemma printed_values :
  eval (nodes (api_interner printed_state)) (environment_at linux_env (EnvExtras [bytes "dev"])) printed_node = true /\
  eval (nodes (api_interner printed_state)) (environment_at linux_env (EnvExtras [])) printed_node = false.
Proof. split; vm_compute; reflexivity. Qed.

(** C11: If the clauses of a cover are plain (the versions are releases, and each expression compares what the
    variable of its guard does), then [to_dnf] returns a normal form without a panic, and if the marker
    does not hold in some environment, its normal form holds in just the environments that it does. *)
Theorem normal_form_correct {RV : RangeOps Version} {RS : RangeOps (list Z)}
    {LV : RangeLaws version_cmp_slow} {LS : RangeLaws string_cmp} (st st' : Interner) (marker : NodeId) (cover : Cover) :
  interner_ok st -> node_valid (nodes st) marker -> isop marker (st, tt) = Some (cover, (st', tt)) ->
  cover_plain (nodes st') cover = true ->
  exists dnf, to_dnf marker (st, tt) = Some (dnf, (st', tt)) /\
    ((exists tau, environment tau /\ eval (nodes st) tau marker = false) ->
      forall sigma, environment sigma -> dnf_value sigma dnf = eval (nodes st) sigma marker).
Proof. apply normal_form_value. Qed.

Lemma normal_form_correct_witness :
  exists dnf st', to_dnf printed_node (api_interner printed_state, tt) = Some (dnf, (st', tt)) /\
    dnf_value (environment_at linux_env (EnvExtras [bytes "dev"])) dnf = true.
Proof.
  assert (H : match isop printed_node (api_interner printed_state, tt) with
    | Some (cover, (st', _)) => cover_plain (nodes st') cover | None => false end = true) by (vm_compute; reflexivity).
  destruct (isop printed_node (api_interner printed_state, tt)) as [[cover [st' []]]|] eqn:E; [|discriminate H].
  destruct (normal_form_correct (api_interner printed_state) st' printed_node cover printed_ok printed_valid E H) as (dnf & Ed & Hd).
  exists dnf, st'. split; [exact Ed|]. rewrite Hd; [exact (proj1 printed_values)| |apply linux_environment].
  exists (environment_at linux_env (EnvExtras [])). split; [apply linux_environment|exact (proj2 printed_values)].
Defined.

(** C12: Printing and parsing: for a marker that holds in some environments and not in others, with a plain
    cover, the text of the normal form is what is printed, and if its strings are ASCII without single
    quotes and its names are normalised, then the parser reads it, in the same interner, to a tree that
    evaluates as the marker does in every environment. *)
Theorem printed_marker_read `{!Alphabetic, !AlphabeticLaws} {RV : RangeOps Version} {RS : RangeOps (list Z)}
    {LV : RangeLaws version_cmp_slow} {LS : RangeLaws string_cmp} (st st' : Interner) (marker : NodeId) (cover : Cover) :
  interner_ok st -> node_valid (nodes st) marker -> isop marker (st, tt) = Some (cover, (st', tt)) ->
  cover_plain (nodes st') cover = true ->
  (exists tau, environment tau /\ eval (nodes st) tau marker = true) ->
  (exists tau, environment tau /\ eval (nodes st) tau marker = false) ->
  exists dnf, to_dnf marker (st, tt) = Some (dnf, (st', tt)) /\
    try_to_string marker (st, tt) = Some (Some (dnf_display dnf), (st', tt)) /\
    (forallb (forallb expression_legible) dnf = true ->
      yields (parse_markers (dnf_display dnf)) st' (fun x table =>
        exists tree, x.1 = Ok tree /\ tree_denotes (fun sigma => eval (nodes st) sigma marker) tree table)).
Proof. intros Hst Hm Hc Hp. exact (marker_text_yields st st' marker cover Hst Hm Hc Hp). Qed.

Lemma printed_marker_read_witness :
  exists text st' x st'', try_to_string printed_node (api_interner printed_state, tt) = Some (Some text, (st', tt)) /\
    parse_markers text (st', tt) = Some (x, (st'', tt)) /\ exists tree, x.1 = Ok tree /\ node_valid (nodes st'') tree.
Proof.
  assert (H : match isop printed_node (api_interner printed_state, tt) with
    | Some (cover, (st', _)) => cover_plain (nodes st') cover | None => false end = true) by (vm_compute; reflexivity).
  assert (Hl : match to_dnf printed_node (api_interner printed_state, tt) with
    | Some (dnf, _) => forallb (forallb expression_legible) dnf | None => false end = true) by (vm_compute; reflexivity).
  destruct (isop printed_node (api_interner printed_state, tt)) as [[cover [st' []]]|] eqn:E; [|discriminate H].
  destruct (printed_marker_read (api_interner printed_state) st' printed_node cover printed_ok printed_valid E H) as (dnf & Ed & Et & Hr).
  - exists (environment_at linux_env (EnvExtras [bytes "dev"])). split; [apply linux_environment|exact (proj1 printed_values)].
  - exists (environment_at linux_env (EnvExtras [])). split; [apply linux_environment|exact (proj2 printed_values)].
  - rewrite Ed in Hl. destruct (Hr Hl) as (x & st'' & Ep & _ & _ & tree & Ex & Hv & _).
    exists (dnf_display dnf), st', x, st''. split; [exact Et|]. split; [exact Ep|]. exists tree. split; [exact Ex|exact Hv].
Defined.

(** ** Texts that are not read back *)

(** A marker, its text, and what the parser reads from the text. *)
Definition print_and_read (m : M () NodeId) : M () (NodeId * option (list Z) * option (result NodeId Pep508Error)) :=
  let! marker := m in
  let! text := try_to_string marker in
  match text with
  | None => ret (marker, None, None)
  | Some t => let! read := parse_markers t in ret (marker, Some t, Some read.1)
  end.

(** Python below the lower bound [3.8.0], or from 3.9: [python_full_version >= '3.7'] is complexified with
    the bound, negated, and combined with [python_full_version >= '3.9']. *)
Definition star_marker : M () NodeId :=
  let! from_37 := tree_expression (ExprVersion MvPythonFullVersion (specifier_of ">=3.7")) in
  let! bounded := tree_complexify_python_versions from_37 (Included (version_of "3.8.0")) Unbounded in
  let! from_39 := tree_expression (ExprVersion MvPythonFullVersion (specifier_of ">=3.9")) in
  tree_or (tree_negate bounded) from_39.

(** Linux on CPython 3.8.5. *)
Definition python_38_env : MarkerEnvironment :=
  mkMarkerEnvironment (bytes "cpython") (string_version_from (version_of "3.8.5")) (bytes "posix") (bytes "x86_64")
    (bytes "CPython") (bytes "6.1.0") (bytes "Linux") (bytes "#1 SMP") (string_version_from (version_of "3.8.5"))
    (string_version_from (version_of "3.8")) (bytes "linux").

(** Printing does not keep all markers: the star of [star_range_specifier] is put on the bound as it was
    given, so that a marker that does not hold on Python 3.8.5 is printed as one that holds there; and a
    value with a single quote is printed as it is, which the parser rejects. *)
Theorem printed_marker_misread :
  returns_with (print_and_read star_marker) interner_new (fun x st =>
    bool_decide (x.1.2 = Some (bytes "python_full_version != '3.8.0.*'")) &&
    bool_decide (evaluate_in (nodes st) python_38_env (EnvExtras []) x.1.1 = Some false) &&
    match x.2 with
    | Some (Ok tree) => bool_decide (evaluate_in (nodes st) python_38_env (EnvExtras []) tree = Some true)
    | _ => false
    end) = true /\
  returns_with (print_and_read (tree_expression (ExprString MvOsName MEqual (bytes "a'b")))) interner_new (fun x st =>
    bool_decide (x.1.2 = Some (bytes "os_name == 'a'b'")) && match x.2 with Some (Err _) => true | _ => false end) = true.
Proof. split; vm_compute; reflexivity. Qed.

(** ** The extra of a marker *)

(** C13: If [top_level_extra_name] returns an extra for a marker with a plain cover that does not hold
    everywhere, then the marker holds only where the extra is requested; a marker that is a decision on
    an extra must be [extra == '...'] itself. *)
Theorem top_level_extra_implied {RV : RangeOps Version} {RS : RangeOps (list Z)}
    {LV : RangeLaws version_cmp_slow} {LS : RangeLaws string_cmp} (st st' : Interner) (marker : NodeId) (cover : Cover) (extra : list Z) s :
  interner_ok st -> node_valid (nodes st) marker -> isop marker (st, tt) = Some (cover, (st', tt)) ->
  cover_plain (nodes st') cover = true ->
  (forall name high low, kind (nodes st) marker = Some (KindExtra name high low) -> node_is_true high = true -> node_is_false low = true) ->
  (exists tau, environment tau /\ eval (nodes st) tau marker = false) ->
  top_level_extra_name marker (st, tt) = Some (Some extra, s) ->
  forall sigma, environment sigma -> eval (nodes st) sigma marker = true -> bool_at sigma (VarExtra extra) = true.
Proof. intros Hst Hm Hc Hp. exact (top_level_extra_holds st st' marker cover Hst Hm Hc Hp extra s). Qed.

Lemma top_level_extra_implied_witness :
  exists s, top_level_extra_name printed_node (api_interner printed_state, tt) = Some (Some (bytes "dev"), s) /\
    bool_at (environment_at linux_env (EnvExtras [bytes "dev"])) (VarExtra (bytes "dev")) = true.
Proof.
  assert (H : match isop printed_node (api_interner printed_state, tt) with
    | Some (cover, (st', _)) => cover_plain (nodes st') cover | None => false end = true) by (vm_compute; reflexivity).
  assert (Hn : match top_level_extra_name (C := ()) printed_node (api_interner printed_state, tt) with
    | Some (Some extra, _) => bool_decide (extra = bytes "dev") | _ => false end = true) by (vm_compute; reflexivity).
  assert (Hk : match kind (nodes (api_interner printed_state)) printed_node with Some (KindVersion _ _ _) => true | _ => false end = true)
    by (vm_compute; reflexivity).
  destruct (isop printed_node (api_interner printed_state, tt)) as [[cover [st' []]]|] eqn:E; [|discriminate H].
  destruct (top_level_extra_name printed_node (api_interner printed_state, tt)) as [[[extra|] s]|] eqn:En; [|discriminate Hn..].
  apply bool_decide_eq_true in Hn. subst extra. exists s. split; [reflexivity|].
  apply (top_level_extra_implied (api_interner printed_state) st' printed_node cover (bytes "dev") s printed_ok printed_valid E H).
  - intros name high low Ek. rewrite Ek in Hk. discriminate Hk.
  - exists (environment_at linux_env (EnvExtras [])). split; [apply linux_environment|exact (proj2 printed_values)].
  - exact En.
  - apply linux_environment.
  - exact (proj1 printed_values).
Defined.

(** Of [extra == 'a' or extra == 'b'], the first extra is returned. *)
Lemma first_of_two_extras :
  returns_with (let! a := tree_expression (ExprExtra (ExtraValid (bytes "a")) ExtraEqual) in
    let! b := tree_expression (ExprExtra (ExtraValid (bytes "b")) ExtraEqual) in
    let! either := tree_or a b in
    let! fast := top_level_extra_name either in
    let! slow := top_level_extra either in ret (fast, slow)) interner_new (fun x _ =>
    bool_decide (x.1 = Some (bytes "a")) && match x.2 with None => true | Some _ => false end) = true.
Proof. vm_compute. reflexivity. Qed.
